(* ===== verification/_CoqProject ===== *)
-Q . S2P
Prelude.v
Durable.v
PyDict.v
Sorting.v
Sha256.v
Codec.v
CanonicalJson.v
Api.v
Messages.v
Operations.v
Sessions.v
GatewayAdmission.v
Workers.v
Gateway.v
GatewayOnce.v
GatewayOrder.v
GatewayPlacement.v
GatewayAccounting.v
GatewayBalance.v
BatchScheduler.v
Async.v
EnvPool.v
EnvBindings.v
PyFloat.v
EnvWorker.v
Coalescer.v
EnvCommands.v
EnvRuns.v
JsonIO.v
EvolutionModels.v
CampaignModels.v
Critic.v
Clustering.v
CampaignStore.v
EpisodeJson.v
Schedule.v
Promotion.v
Generations.v
Gating.v
ProviderAdmission.v
SlotBroker.v
HostQueue.v
Rollouts.v
RolloutRuns.v
RolloutCases.v
