(* ===== verification/Prelude.v ===== *)
(** * Zetta: a verification library for the rollout runtime and the evolution loop

    The repository has two cores.  [rollout_runtime] serves embodied environments and
    policies to many applications: clients talk to a Gateway that admits requests, keeps
    sessions and idempotent operations, places sessions on environment workers and
    forwards commands to them; a rollout worker batches policy inference.
    [zetta.evolution] improves agent harnesses in campaigns: it runs episodes on leased
    environment slots, calls model providers under admission control, and promotes a
    candidate only through preregistered gates; what it decides goes to append-only
    ledgers.  The library models the parts whose state decides correctness and proves
    what they promise.

    ** Map of the files

    Foundations (no code of the repository, but the Python it is written in):
    - [Prelude]: outcomes and state programs ([prog]: a raise keeps the mutations made
      before it), option and list lemmas, tactics and hints;
    - [PyDict]: dictionaries in insertion order;
    - [Sorting]: stable [sorted] and first-minimum [min] over any total preorder
      (class [TotalPreorder]);
    - [Durable]: programs on a disk whose process may die between any two effects;
    - [Async]: coroutines, their event loop, and a rely-guarantee logic for them;
    - [Sha256]: executable SHA-256 and hexadecimal digests, on machine integers;
    - [PyFloat]: binary64 arithmetic by value, with [repr] and reading.

    [src/rollout_runtime/api]:
    - [Codec]: [codec.py], protocol values, their native encoding, the decoder driven by
      annotations, and [canonical_json];
    - [CanonicalJson]: what two equal canonical texts have in common;
    - [Api]: [enums.py], [errors.py], [result.py], [ids.py] and the routing token of
      [internal.py];
    - [Messages]: the schema of every registered dataclass, and the wire round trip.

    [src/rollout_runtime/gateway] and [workers], a Module per class, its state a Record
    and a Definition per method:
    - [Operations.OperationRegistry]: [operation_registry.py], idempotency by request
      identifier and digest;
    - [Sessions.SessionRecord], [Sessions.SessionManager]: [session_manager.py],
      sessions, leases, lifecycle;
    - [GatewayAdmission.AdmissionController]: [admission.py], quotas;
    - [Workers.EnvWorkerRegistry]: [worker_registry.py], placement and liveness;
    - [Gateway.RuntimeGateway]: [gateway.py] and [dispatcher.py], the facade that composes
      the four: its coroutines cut at their awaits, and an event per segment;
      [GatewayOnce], [GatewayOrder], [GatewayPlacement], [GatewayAccounting] and
      [GatewayBalance] hold what is proved of its runs;
    - [BatchScheduler.InferenceBatchScheduler]: [batch_scheduler.py];
    - [env_worker.py] in four parts: [EnvPool.EnvPool] (slots of a pool),
      [EnvBindings.EnvBindings] (which session gets which lane, and when pools are built,
      replaced and evicted), [Coalescer.SlotGroupCoalescer] (merged steps of a vector pool)
      and [EnvWorker.EnvWorker] (sessions and their commands, on [Async]); [EnvCommands]
      proves the commands one by one and [EnvRuns] their runs.

    [src/zetta/evolution]:
    - [JsonIO.AppendOnlyLedger]: [jsonio.py];
    - [EvolutionModels]: episodes, failure segments and gate decisions of [models.py];
      [CampaignModels]: its manifests, diagnoses, rules and candidates; [EpisodeJson]: its
      reader of episodes;
    - [CampaignStore.CampaignStore]: [store.py] and the ledger locks of [jsonio.py], the
      directory of a campaign, whose process may crash between any two of its writes, also
      with a lock held;
    - [Schedule]: [schedule.py], the preregistered seeds;
    - [Gating]: [gating.py], the whole file;
    - [ProviderAdmission.ProviderAdmission]: [provider_admission.py];
    - [SlotBroker.EnvironmentSlotBroker]: [slot_broker.py];
    - [HostQueue.SharedHostQueue]: [queue.py], the rollout queue of a host, whose
      processes may crash between any two of their writes;
    - [Rollouts.Campaign]: [campaign.py], the rollout phase of [supervisor.py] and the
      commands [run] and [resume] of [cli.py], which compose the store with the queues of all
      hosts; [RolloutRuns] holds what is proved of
      its runs, [RolloutCases] one campaign evaluated;
    - [Clustering]: [clustering.py]; [Critic.TemporalCritic]: [critic.py];
    - [Promotion.Supervisor]: the promote phase of [supervisor.py] with its recovery;
      [Generations.Generations]: the manifest of the next generation.

    ** How the code is modelled

    - State.  A method is a function of the component's Record that returns the new
      Record and an outcome.  The reachable states of a component are the reflexive
      transitive closure of its [step] relation, one constructor per public method;
      invariants are proved by induction on it.
    - Identity.  Where the code shares mutable objects the model keeps them apart from
      the tables: session records live in a heap ([Sessions]), inference requests carry
      the identity [id(item)] ([BatchScheduler]).  Elsewhere a record is looked up and
      mutated in one call, and the model replaces it at its key.
    - Time, randomness and identifiers.  A clock reading, a [uuid4] and the answer of an
      environment server are arguments of the operation that reads them; a step assumes
      of an identifier only that it is fresh.  Times are integer ticks.
    - Concurrency.  The Gateway's coroutines interleave at [await] only.  The methods of
      its components contain none, so a call is one step; the facade's own coroutines are
      cut at their awaits into segments ([task]: a suspended coroutine with its locals),
      and a run is any sequence of segments, so every interleaving is covered; so for the
      pools and the coalescer, while the commands of a worker are coroutines of [Async] that
      read like the source.  The
      file-backed components hold an exclusive lock in a public call, so a locked section
      is one step; a clock that is read before the lock is taken may be behind
      ([ProviderAdmission]).  Loops that sleep and retry are one step per round, so other
      processes act between rounds.
    - Crashes.  A call of the host queue, of the campaign store or of the supervisor
      carries the number of durable effects it may still make ([Durable]); when none is left
      it stops there and the directories stay as they are.  Of the store, making and removing
      the lock of a ledger are such effects.  The slot broker and provider admission are
      modelled without such crashes.
    - Floats.  On the wire a float is its [repr] text ([Codec]).  Where the value of a
      float decides ([Gating], [ProviderAdmission]) it is the exact rational with every
      rounding written out ([PyFloat]); overflow, NaN and infinities are outside.
    - Text.  A [str] is its UTF-8 bytes.  Canonical JSON and the digests are executable,
      so identities such as [decision_id] are compared through the text they hash.
    - Recursion.  Definitions are structural; the loops that are not have fuel.  Of [repr],
      [shortest] tries the 17 decimal lengths of which the last always reads back (16
      retries), and [trim_zeros] strips at most 20 zeros of a number below 10^18.  The loop
      of [run_episode] has as many rounds as the request has steps ([episode_rounds_suffice]),
      the merging of clusters one per segment (each round merges two), the assignment of
      jobs one per job.

    ** What the theorems show

    - Operations: the three outcomes of [begin]; the invariant of the table; without
      purges a finished operation never changes; cancellation; exact purging.
    - Sessions: at most one open session per client key; the lifecycle as a transition
      table; leases; one mutating operation at a time; exact purging.
    - Facade, in every run: a request is handed to the transport at most once and its
      answers agree; the commands of a session are serialised and ordered; quotas and
      loads are exactly what is held, under a discipline whose necessity is shown by runs
      of the code that break it; creating a session terminates.
    - Admission: for every sequence of calls in which only what is held is given back, the
      counters are what is held less what forgetting sessions gave back early; the limits
      of applications always hold, the others while nothing was, with a counterexample.
    - Workers: which rank a session is placed on, by a load that is the number of
      placements.
    - Codec and messages: round trip of every well-annotated value; canonical text
      identifies requests up to key order; routing tokens round-trip.
    - Environment pools and bindings: a slot has one holder in every interleaving of
      creations, removals and releases, and a lane one session while no pool is unhealthy.
    - Environment worker, in every run: an acknowledged cancellation is final, operations
      are admitted in order, answers are honest about what was applied, a finished episode
      is not stepped, a worker at rest is clean.  Coalescer: every waiter is served, with its
      own outcome, and every block is handed over once.
    - Batch scheduler: counters and quotas in every reachable state, conservation of
      requests, exact announcement of readiness, progress.
    - Gates: a passed gate is sound in exact arithmetic, the p-value is the fair-coin tail,
      the evidence does not depend on order or invalid episodes, and which decisions
      share an identity.
    - Provider admission: bounds of limits and leases, the request budget over every
      window shorter by the age of a clock reading, the cooldown, and the decision of a poll.
    - Slot broker: when a lease may be lost, what is granted, and the bound.
    - Host queue, with crashes: a terminal never changes, no accepted job is lost, a
      job is handed out once, an acknowledged result is on disk, [finish] can be retried,
      and keys take turns.
    - Ledger: one record per key, idempotent appends, conflicts refused.
    - Campaign contracts and store: stored manifests and candidates read back as
      themselves, accepted candidates are closed; history is append-only, episodes are
      preregistered, promotions are earned, calls interrupted with no lock left can be made
      again whatever the clock reads; a lock that is left wedges its ledger.
    - Rollouts, with crashes and workers at any time: the attempts of an episode are made
      one after the other within their budget, none after a valid result, when [run] is only
      issued with no valid result half recorded; while no supervisor or command dies, no
      rollout is stranded.  Three runs show what happens otherwise.
    - Clusters are a partition into similar groups that cannot be merged; the critic's state
      machine is its declarative reading.
    - Seeds, promotion and generations: what a schedule promises; an interrupted promotion,
      without an authorized skip of a gate and with no lock left, is finished as if it had not
      been; a lineage never reuses a seed.

    ** What is not modelled

    Transports, serving, backends, robot code and planners (I/O around other software);
    metrics; the execution cores of the environment worker (a parameter of its model) and its
    maintenance loops; the rollout worker's loop, the registry of environments and the payload
    store; the executors that drive the host queue.  Of the evolution loop: the gate runner,
    and the stages and lifecycle that orchestrate language-model calls around the modelled
    store, gates and queues; trajectories, images and shadow replay (readers of large
    artifacts).  Of the modelled files, what is read or written outside a component's state
    (logging, the locks of the host queue, the slot broker and provider admission, atomic
    replacement, JSON parsing of files written by the component itself) is taken as Python documents it.  Of the facade: task management,
    replacing the transport, and the wording of a forwarded
    cancellation. *)

From stdpp Require Export base tactics option list gmap strings relations numbers sorting.
From Stdlib Require Export ZArith Lia.

#[global] Open Scope Z_scope.

(** ** Outcomes and programs

    A Python call either returns or raises, and a raise keeps every mutation
    made before it: [prog S E A] threads the state [S] through both. *)

Inductive outcome (E A : Type) : Type :=
  | Ok (a : A)
  | Raise (e : E).
Arguments Ok {E A} a.
Arguments Raise {E A} e.

#[export] Instance outcome_eq_dec {E A} `{EqDecision E, EqDecision A} :
  EqDecision (outcome E A).
Proof. solve_decision. Defined.

Definition is_ok {E A} (o : outcome E A) : bool :=
  match o with Ok _ => true | Raise _ => false end.

Definition prog (S E A : Type) : Type := S → S * outcome E A.

#[export] Instance prog_ret {S E} : MRet (prog S E) := λ A a s, (s, Ok a).
#[export] Instance prog_bind {S E} : MBind (prog S E) := λ A B f m s,
  match m s with
  | (s', Ok a) => f a s'
  | (s', Raise e) => (s', Raise e)
  end.

Definition raise {S E A} (e : E) : prog S E A := λ s, (s, Raise e).
Definition get_state {S E} : prog S E S := λ s, (s, Ok s).
Definition put_state {S E} (s : S) : prog S E unit := λ _, (s, Ok tt).
Definition modify {S E} (f : S → S) : prog S E unit := λ s, (f s, Ok tt).

(** [if not b: raise e] *)
Definition check {S E} (b : bool) (e : E) : prog S E unit :=
  if b then mret tt else raise e.

(** The state a call leaves behind and the value it returns or raises. *)
Definition after {S E A} (m : prog S E A) (s : S) : S := (m s).1.
Definition result_of {S E A} (m : prog S E A) (s : S) : outcome E A := (m s).2.

(** [for x in l: f(x)] *)
Fixpoint for_each {S E A} (f : A → prog S E unit) (l : list A) : prog S E unit :=
  match l with
  | [] => mret tt
  | x :: l' => f x ≫= λ _, for_each f l'
  end.

(** Stateless fallible code (validators) uses [outcome] itself as its monad. *)
#[export] Instance outcome_ret {E} : MRet (outcome E) := λ A a, Ok a.
#[export] Instance outcome_bind {E} : MBind (outcome E) := λ A B f m,
  match m with Ok a => f a | Raise e => Raise e end.

Definition ensure {E} (b : bool) (e : E) : outcome E unit :=
  if b then Ok tt else Raise e.

Lemma ensure_ok {E} (b : bool) (e : E) : ensure b e = Ok tt ↔ b = true.
Proof. by destruct b. Qed.

Lemma ensure_bind_ok {E A} (b : bool) (e : E) (k : unit → outcome E A) (a : A) :
  (ensure b e ≫= k) = Ok a ↔ b = true ∧ k tt = Ok a.
Proof. destruct b; simpl; naive_solver. Qed.

Lemma outcome_bind_ok {E A B} (m : outcome E A) (k : A → outcome E B) (b : B) :
  (m ≫= k) = Ok b ↔ ∃ a, m = Ok a ∧ k a = Ok b.
Proof. destruct m; simpl; naive_solver. Qed.

(** Run a list of independent guards, in order, raising the first that fails. *)
Fixpoint guards {E} (l : list (bool * E)) : outcome E unit :=
  match l with
  | [] => Ok tt
  | (b, e) :: l' => if b then guards l' else Raise e
  end.

Lemma guards_ok {E} (l : list (bool * E)) :
  guards l = Ok tt ↔ Forall (λ p, p.1 = true) l.
Proof.
  induction l as [|[b e] l IH]; simpl; [done|].
  rewrite Forall_cons; destruct b; simpl; naive_solver.
Qed.

Lemma guards_raise {E} (l : list (bool * E)) (e : E) :
  guards l = Raise e ↔
    ∃ l1 l2, l = l1 ++ (false, e) :: l2 ∧ Forall (λ p, p.1 = true) l1.
Proof.
  split.
  - induction l as [|[[] e'] l IH]; simpl; [done| |].
    + intros (l1 & l2 & -> & ?)%IH. exists ((true, e') :: l1), l2.
      by rewrite Forall_cons.
    + intros [= ->]. by exists [], l.
  - intros (l1 & l2 & -> & H). induction H as [|[b e'] l1 Hb _ IH]; [done|].
    simpl in *. by rewrite Hb.
Qed.

(** ** Invariants of programs and of step relations *)

Definition preserves {S E A} (I : S → Prop) (m : prog S E A) : Prop :=
  ∀ s, I s → I (after m s).

Section preserves.
Context {S E : Type} (I : S → Prop).

Lemma preserves_ret {A} (a : A) : preserves I (mret a : prog S E A).
Proof. intros s Hs. exact Hs. Qed.
Lemma preserves_raise {A} (e : E) : preserves I (raise e : prog S E A).
Proof. intros s Hs. exact Hs. Qed.
Lemma preserves_get : preserves I (get_state : prog S E S).
Proof. intros s Hs. exact Hs. Qed.
Lemma preserves_check b (e : E) : preserves I (check b e : prog S E unit).
Proof. destruct b; intros s Hs; exact Hs. Qed.
Lemma preserves_modify f :
  (∀ s, I s → I (f s)) → preserves I (modify f : prog S E unit).
Proof. intros H s Hs. apply H, Hs. Qed.
Lemma preserves_bind {A B} (m : prog S E A) (k : A → prog S E B) :
  preserves I m → (∀ a, preserves I (k a)) → preserves I (m ≫= k).
Proof.
  intros Hm Hk s Hs. specialize (Hm s Hs). unfold after in *. simpl.
  unfold mbind, prog_bind. destruct (m s) as [s' [a|e]]; [|done].
  apply Hk, Hm.
Qed.
End preserves.

Create HintDb prog.
#[export] Hint Resolve preserves_ret preserves_raise preserves_get
  preserves_check preserves_bind : prog.

(** A program moves the state along a preorder, whether it returns or raises. *)
Definition moves {S E A} (R : relation S) (m : prog S E A) : Prop := ∀ s, R s (after m s).

Section moves.
Context {S E : Type} (R : relation S) `{!PreOrder R}.

Lemma moves_ret {A} (a : A) : moves R (mret a : prog S E A).
Proof. intros s. reflexivity. Qed.
Lemma moves_raise {A} (e : E) : moves R (raise e : prog S E A).
Proof. intros s. reflexivity. Qed.
Lemma moves_get : moves R (get_state : prog S E S).
Proof. intros s. reflexivity. Qed.
Lemma moves_modify f : (∀ s, R s (f s)) → moves R (modify f : prog S E unit).
Proof. intros H s. apply H. Qed.
Lemma moves_bind {A B} (m : prog S E A) (k : A → prog S E B) :
  moves R m → (∀ a, moves R (k a)) → moves R (m ≫= k).
Proof.
  intros Hm Hk s. specialize (Hm s). unfold after in *. unfold mbind, prog_bind.
  destruct (m s) as [s' [a|e]]; [|done]. etrans; [exact Hm|]. apply Hk.
Qed.
Lemma moves_for_each {A} (f : A → prog S E unit) l :
  (∀ a, moves R (f a)) → moves R (for_each f l).
Proof.
  intros Hf. induction l as [|x l IH]; simpl; [apply moves_ret|]. by apply moves_bind.
Qed.
End moves.

Create HintDb moves.
#[export] Hint Resolve moves_ret moves_raise moves_get moves_for_each : moves.

(** The weakest precondition of a program at a state. *)
Definition wp {S E A} (m : prog S E A) (s : S) (Φ : S → outcome E A → Prop) : Prop :=
  Φ (after m s) (result_of m s).

Lemma wp_bind {S E A B} (m : prog S E A) (k : A → prog S E B) s Φ :
  wp m s (λ s' o, match o with Ok a => wp (k a) s' Φ | Raise e => Φ s' (Raise e) end) →
  wp (m ≫= k) s Φ.
Proof.
  unfold wp, after, result_of, mbind, prog_bind. by destruct (m s) as [s' [a|e]].
Qed.
Lemma wp_mono {S E A} (m : prog S E A) s (Φ Ψ : S → outcome E A → Prop) :
  (∀ s' o, Φ s' o → Ψ s' o) → wp m s Φ → wp m s Ψ.
Proof. unfold wp. auto. Qed.
Lemma wp_moves {S E A} (R : relation S) (m : prog S E A) s (Φ : S → outcome E A → Prop) :
  moves R m → (∀ s' o, R s s' → Φ s' o) → wp m s Φ.
Proof. intros Hm H. apply H, Hm. Qed.

(** An invariant that every step keeps holds in every reachable state. *)
Lemma rtc_invariant {A} (R : relation A) (I : A → Prop) x y :
  (∀ a b, I a → R a b → I b) → rtc R x y → I x → I y.
Proof. intros H. induction 1; eauto. Qed.

(** A relation between the two ends of a run, from one between neighbours. *)
Lemma rtc_monotone {A} (R T : relation A) `{!PreOrder T} x y :
  (∀ a b, R a b → T a b) → rtc R x y → T x y.
Proof. intros H. induction 1; [reflexivity|]. etrans; eauto. Qed.

(** ** Python truthiness and [or] *)

(** [x or y] for a number: [0] (and [0.0]) is falsy. *)
Definition or_else (o : option Z) (d : Z) : Z :=
  match o with Some x => if x =? 0 then d else x | None => d end.

(** [x in xs] *)
Definition member {A} `{EqDecision A} (x : A) (l : list A) : bool := bool_decide (x ∈ l).

(** A character whose code is between two. *)
Definition code_between (a b : nat) (c : Ascii.ascii) : bool :=
  let n := Ascii.nat_of_ascii c in (a <=? n)%nat && (n <=? b)%nat.

Definition str_true (s : string) : bool :=
  match s with EmptyString => false | _ => true end.

Definition str_or (s t : string) : string := if str_true s then s else t.

Lemma str_true_spec s : str_true s = true ↔ s ≠ EmptyString.
Proof. by destruct s. Qed.

(** ** Tactics *)

(** Unfold one layer of the program monad in a goal or a hypothesis. *)
Ltac run_prog :=
  unfold after, result_of, get_state, put_state, modify, raise, check,
    mbind, prog_bind, mret, prog_ret in *; simpl in *.

(** Case on every scrutinee left in a hypothesis or the goal. *)
Ltac cases :=
  repeat (case_match; simplify_eq/=; try done).

(** Turn boolean comparisons of hypotheses and goal into propositions. *)
Ltac to_prop :=
  repeat match goal with
  | H : _ && _ = true |- _ => apply andb_true_iff in H as [? ?]
  | H : _ || _ = false |- _ => apply orb_false_iff in H as [? ?]
  | H : negb _ = true |- _ => apply negb_true_iff in H
  | H : negb _ = false |- _ => apply negb_false_iff in H
  | H : bool_decide _ = true |- _ => apply bool_decide_eq_true in H
  | H : bool_decide _ = false |- _ => apply bool_decide_eq_false in H
  | H : (_ =? _) = true |- _ => apply Z.eqb_eq in H
  | H : (_ =? _) = false |- _ => apply Z.eqb_neq in H
  | H : (_ <=? _) = true |- _ => apply Z.leb_le in H
  | H : (_ <=? _) = false |- _ => apply Z.leb_gt in H
  | H : (_ <? _) = true |- _ => apply Z.ltb_lt in H
  | H : (_ <? _) = false |- _ => apply Z.ltb_ge in H
  end.

(** ** Lists *)

Section lists.
Context {A : Type}.
Implicit Types (l : list A).

Definition zlen l : Z := Z.of_nat (length l).

Definition sumZ (f : A → Z) l : Z := foldr (λ x n, f x + n) 0 l.

Lemma zlen_nonneg l : 0 ≤ zlen l.
Proof. unfold zlen. lia. Qed.
Lemma zlen_app l1 l2 : zlen (l1 ++ l2) = zlen l1 + zlen l2.
Proof. unfold zlen. rewrite length_app. lia. Qed.

Lemma sumZ_cons f x l : sumZ f (x :: l) = f x + sumZ f l.
Proof. done. Qed.
Lemma sumZ_app f l1 l2 : sumZ f (l1 ++ l2) = sumZ f l1 + sumZ f l2.
Proof. unfold sumZ. induction l1; simpl; lia. Qed.
Lemma sumZ_perm f l1 l2 : l1 ≡ₚ l2 → sumZ f l1 = sumZ f l2.
Proof. unfold sumZ. induction 1; simpl; lia. Qed.
Lemma sumZ_nonneg f l : (∀ x, x ∈ l → 0 ≤ f x) → 0 ≤ sumZ f l.
Proof.
  unfold sumZ. induction l as [|x l IH]; intros H; simpl; [lia|].
  specialize (IH ltac:(set_solver)). specialize (H x ltac:(set_solver)). lia.
Qed.
Lemma sumZ_ext f g l : (∀ x, x ∈ l → f x = g x) → sumZ f l = sumZ g l.
Proof.
  unfold sumZ. induction l as [|x l IH]; intros H; simpl; [done|].
  rewrite IH by set_solver. rewrite H by set_solver. done.
Qed.
Lemma sumZ_filter_le f (P : A → Prop) `{∀ x, Decision (P x)} l :
  (∀ x, x ∈ l → 0 ≤ f x) → sumZ f (filter P l) ≤ sumZ f l.
Proof.
  induction l as [|x l IH]; intros Hf; [done|].
  specialize (IH ltac:(set_solver)). rewrite filter_cons.
  specialize (Hf x ltac:(set_solver)). destruct (decide (P x)); simpl; lia.
Qed.

(** Number of elements a boolean test accepts, Python's [sum(test(x) for x in l)]. *)
Definition count (p : A → bool) l : Z := sumZ (λ x, Z.b2z (p x)) l.

Lemma count_nil p : count p [] = 0.
Proof. done. Qed.
Lemma count_cons p x l : count p (x :: l) = Z.b2z (p x) + count p l.
Proof. done. Qed.
Lemma count_app p l1 l2 : count p (l1 ++ l2) = count p l1 + count p l2.
Proof. apply sumZ_app. Qed.
Lemma count_bounds p l : 0 ≤ count p l ≤ zlen l.
Proof.
  unfold zlen. induction l as [|x l IH]; [done|].
  rewrite count_cons. simpl length. destruct (p x); simpl; lia.
Qed.
Lemma count_perm p l1 l2 : l1 ≡ₚ l2 → count p l1 = count p l2.
Proof. apply sumZ_perm. Qed.
Lemma count_sublist p l1 l2 : l1 `sublist_of` l2 → count p l1 ≤ count p l2.
Proof.
  induction 1 as [|x l1 l2 _ IH|x l1 l2 _ IH]; [done| |]; rewrite !count_cons; [lia|].
  destruct (p x); simpl; lia.
Qed.
Lemma count_impl p q l : (∀ x, p x = true → q x = true) → count p l ≤ count q l.
Proof.
  intros H. induction l as [|x l IH]; [done|]. rewrite !count_cons. specialize (H x).
  destruct (p x), (q x); simpl; lia || by specialize (H eq_refl).
Qed.
Lemma count_pos p l : 0 < count p l ↔ ∃ x, x ∈ l ∧ p x = true.
Proof.
  induction l as [|x l IH].
  { rewrite count_nil. split; [lia|]. by intros (? & ?%elem_of_nil & _). }
  rewrite count_cons. pose proof (count_bounds p l) as Hb.
  setoid_rewrite elem_of_cons. destruct (p x) eqn:Hx; simpl.
  - split; [intros _; eauto|lia].
  - split; [intros H; assert (0 < count p l) as (y & ? & ?)%IH by lia; eauto|].
    intros (y & [->|Hy] & ?); [congruence|]. assert (0 < count p l); [|lia].
    apply IH; eauto.
Qed.
Lemma count_full p l : count p l = zlen l ↔ ∀ x, x ∈ l → p x = true.
Proof.
  unfold zlen. induction l as [|x l IH]; [split; [set_solver|done]|].
  rewrite count_cons. pose proof (count_bounds p l) as Hb. unfold zlen in Hb.
  simpl length. destruct (p x) eqn:Hx; simpl.
  - split; [|intros H; assert (count p l = Z.of_nat (length l)) by
      (apply IH; set_solver); lia].
    intros H y [->|Hy]%elem_of_cons; [done|]. apply IH; [lia|done].
  - split; [lia|]. intros H. rewrite H in Hx by set_solver. done.
Qed.
Lemma count_zero p l : count p l = 0 ↔ ∀ x, x ∈ l → p x = false.
Proof.
  pose proof (count_bounds p l). split.
  - intros H0 x Hx. destruct (p x) eqn:Hp; [|done].
    assert (0 < count p l) by (apply count_pos; eauto). lia.
  - intros Hall. destruct (decide (0 < count p l)) as [Hp|]; [|lia].
    apply count_pos in Hp as (x & Hx & Hp). rewrite Hall in Hp; done.
Qed.
Lemma count_filter p (P : A → Prop) `{∀ x, Decision (P x)} l :
  count p (filter P l) ≤ count p l.
Proof. apply sumZ_filter_le. intros x _. by destruct (p x). Qed.
End lists.
#[global] Arguments count {A} p l : simpl never.
#[global] Arguments sumZ {A} f l : simpl never.
#[global] Arguments zlen {A} l : simpl never.

(** Replacing and deleting at a position. *)
Lemma replaced_perm {A} (l : list A) i x y : l !! i = Some x → <[i := y]> l ≡ₚ y :: delete i l.
Proof.
  intros Hx. rewrite insert_take_drop by (by eapply lookup_lt_Some).
  rewrite delete_take_drop. by rewrite Permutation_middle.
Qed.
Lemma elem_of_replaced {A} (l : list A) i x y z : l !! i = Some x → z ∈ <[i := y]> l → z = y ∨ z ∈ l.
Proof.
  intros Hx. rewrite (replaced_perm _ _ _ y Hx), elem_of_cons. intros [?|Hz]; [by left|right].
  rewrite (delete_Permutation _ _ _ Hx). by right.
Qed.
Lemma elem_of_deleted {A} (l : list A) i x z : l !! i = Some x → z ∈ delete i l → z ∈ l.
Proof. intros Hx Hz. rewrite (delete_Permutation _ _ _ Hx). by right. Qed.

(** Boolean filter, the list comprehension [[x for x in l if p(x)]]. *)
Definition bfilter {A} (p : A → bool) (l : list A) : list A := filter (λ x, p x = true) l.

Lemma elem_of_bfilter {A} (p : A → bool) l x : x ∈ bfilter p l ↔ p x = true ∧ x ∈ l.
Proof. unfold bfilter. by rewrite list_elem_of_filter. Qed.
Lemma bfilter_cons {A} (p : A → bool) x l :
  bfilter p (x :: l) = if p x then x :: bfilter p l else bfilter p l.
Proof. unfold bfilter. rewrite filter_cons. by destruct (p x). Qed.
Lemma bfilter_app {A} (p : A → bool) l1 l2 :
  bfilter p (l1 ++ l2) = bfilter p l1 ++ bfilter p l2.
Proof. apply filter_app. Qed.
Lemma bfilter_sublist {A} (p : A → bool) l : bfilter p l `sublist_of` l.
Proof.
  induction l as [|x l IH]; [constructor|]. rewrite bfilter_cons.
  destruct (p x); by constructor.
Qed.
Lemma zlen_bfilter {A} (p : A → bool) l : zlen (bfilter p l) = count p l.
Proof.
  induction l as [|x l IH]; [done|]. rewrite bfilter_cons, count_cons, <- IH.
  unfold zlen. destruct (p x); simpl; lia.
Qed.
Lemma bfilter_all {A} (p : A → bool) l : (∀ x, x ∈ l → p x = true) → bfilter p l = l.
Proof.
  induction l as [|x l IH]; intros H; [done|]. rewrite bfilter_cons.
  rewrite H by set_solver. by rewrite IH by set_solver.
Qed.
Lemma bfilter_none {A} (p : A → bool) l : (∀ x, x ∈ l → p x = false) → bfilter p l = [].
Proof.
  induction l as [|x l IH]; intros H; [done|]. rewrite bfilter_cons.
  rewrite H by set_solver. by rewrite IH by set_solver.
Qed.
