(* ===== verification/Durable.v ===== *)
(** * Programs on a disk whose process may die

    The file-backed components publish every file atomically, so the durable effects of a
    call are its writes, renames and unlinks, in order.  A call runs with a budget of
    effects and stops ([Crash]) when it is spent: a budget for every place the process can
    die in.  [eff] is the calculus the components share: a program makes effects of a given
    relation on the disk it started from, and what it returns satisfies a postcondition. *)

From S2P Require Import Prelude.

Open Scope Z_scope.

(** Why a call stops: it raises, or the process dies. *)
Inductive stop (E : Type) : Type :=
  | Exn (e : E)
  | Crash.
Arguments Exn {E} e.
Arguments Crash {E}.

(** The disk, and how many durable effects the process still makes. *)
Record world (D : Type) : Type := World { disk : D; budget : nat }.
Arguments World {D} disk budget.
Arguments disk {D} w : rename.
Arguments budget {D} w : rename.

Section programs.
Context {D E : Type}.

Definition durable_op (A : Type) : Type := prog (world D) (stop E) A.

Definition throw {A} (e : E) : durable_op A := raise (Exn e).
Definition read_disk : durable_op D := λ w, (w, Ok (disk w)).
Definition durable (f : D → D) : durable_op unit := λ w,
  match budget w with
  | O => (w, Raise Crash)
  | S n => (World (f (disk w)) n, Ok tt)
  end.

(** Fallible code that reads nothing. *)
Definition attempt {A} (o : outcome E A) : durable_op A :=
  match o with Ok a => mret a | Raise e => throw e end.

(** [try: m finally: c]; a process that died runs no [finally]. *)
Definition finally {A} (m : durable_op A) (c : durable_op unit) : durable_op A := λ w,
  match m w with
  | (w', Raise Crash) => (w', Raise Crash)
  | (w', o) => match c w' with
               | (w'', Ok _) => (w'', o)
               | (w'', Raise e) => (w'', Raise e)
               end
  end.

Lemma durable_spent g (q : D) : durable g (World q 0) = (World q 0, Raise Crash).
Proof. done. Qed.
Lemma durable_made g (q : D) b : durable g (World q (S b)) = (World (g q) b, Ok tt).
Proof. done. Qed.

Lemma wp_then {A B} (m : durable_op A) (k : A → durable_op B) w
    (Φ : world D → outcome (stop E) B → Prop) (Ψ : world D → outcome (stop E) A → Prop) :
  wp m w Ψ → (∀ w' a, Ψ w' (Ok a) → wp (k a) w' Φ) → (∀ w' e, Φ w' (Raise e)) → wp (m ≫= k) w Φ.
Proof.
  intros Hm Hk He. apply wp_bind. eapply wp_mono; [|exact Hm]. intros w' [a|e] H; [by apply Hk|apply He].
Qed.

Lemma wp_assoc {A B C} (m : durable_op A) (f : A → durable_op B) (g : B → durable_op C) w Φ :
  wp (m ≫= λ a, f a ≫= g) w Φ → wp ((m ≫= f) ≫= g) w Φ.
Proof. unfold wp, after, result_of, mbind, prog_bind. by destruct (m w) as [w' [a|e]]. Qed.

Lemma wp_ret_r {A} (m : durable_op A) w Φ : wp (m ≫= λ a, mret a) w Φ → wp m w Φ.
Proof. unfold wp, after, result_of, mbind, prog_bind. by destruct (m w) as [w' [a|e]]. Qed.

Lemma wp_of_attempt {A B} (o : outcome E A) (k : A → durable_op B) w Φ :
  (∀ a, o = Ok a → wp (k a) w Φ) → (∀ e, Φ w (Raise e)) → wp (attempt o ≫= k) w Φ.
Proof. intros Hk He. unfold attempt. destruct o as [a|e]; [by apply Hk|]. apply wp_bind. apply He. Qed.

Section effects.
Context (effect : relation D).

Definition eff {A} (q0 : D) (Q : A → D → Prop) (w : world D) (o : outcome (stop E) A) : Prop :=
  rtc effect q0 (disk w) ∧ match o with Ok a => Q a (disk w) | Raise _ => True end.

Lemma eff_bind {A B} (m : durable_op A) (k : A → durable_op B) q0 (Q : A → D → Prop) (R : B → D → Prop) w :
  wp m w (eff q0 Q) →
  (∀ a w', rtc effect q0 (disk w') → Q a (disk w') → wp (k a) w' (eff q0 R)) →
  wp (m ≫= k) w (eff q0 R).
Proof.
  intros Hm Hk. apply wp_bind. eapply wp_mono; [|exact Hm]. intros w' [a|e] [Hs HQ]; [by apply Hk|by split].
Qed.

Lemma eff_ret {A} (a : A) q0 (Q : A → D → Prop) w :
  rtc effect q0 (disk w) → Q a (disk w) → wp (mret a : durable_op A) w (eff q0 Q).
Proof. by split. Qed.
Lemma eff_throw {A} e q0 (Q : A → D → Prop) w :
  rtc effect q0 (disk w) → wp (throw e : durable_op A) w (eff q0 Q).
Proof. by split. Qed.
Lemma eff_read {B} (k : D → durable_op B) q0 (R : B → D → Prop) w :
  wp (k (disk w)) w (eff q0 R) → wp (read_disk ≫= k) w (eff q0 R).
Proof. done. Qed.

Lemma eff_durable f q0 w :
  rtc effect q0 (disk w) → effect (disk w) (f (disk w)) →
  wp (durable f) w (eff q0 (λ _ q, q = f (disk w))).
Proof.
  intros Hs He. unfold wp, eff, durable, after, result_of. destruct (budget w); simpl; [done|].
  split; [by eapply rtc_r|done].
Qed.

Lemma eff_finally {A} (m : durable_op A) f q0 (P Q : A → D → Prop) w :
  wp m w (eff q0 P) → (∀ d, rtc effect q0 d → effect d (f d)) → (∀ a d, P a d → Q a (f d)) →
  wp (finally m (durable f)) w (eff q0 Q).
Proof.
  intros Hm Hf HQ. unfold wp, eff, after, result_of, finally, durable in *.
  destruct (m w) as [[d b] [a|[e|]]]; destruct Hm as [Hs HP]; cbn [fst snd disk budget] in *; [| |by split];
    (destruct b as [|b]; [by split|]); (split; [eapply rtc_r; [exact Hs|by apply Hf]|]); [by apply HQ|done].
Qed.

(** Programs that only read. *)
Lemma eff_same {A} (m : durable_op A) q0 (Q : A → D → Prop) w :
  rtc effect q0 (disk w) → after m w = w → (∀ a, result_of m w = Ok a → Q a (disk w)) →
  wp m w (eff q0 Q).
Proof. intros Hs Hm HQ. unfold wp, eff. rewrite Hm. split; [done|]. destruct (result_of m w); auto. Qed.

Lemma eff_attempt {A B} (o : outcome E A) (k : A → durable_op B) q0 (R : B → D → Prop) w :
  rtc effect q0 (disk w) → (∀ a, o = Ok a → wp (k a) w (eff q0 R)) →
  wp (attempt o ≫= k) w (eff q0 R).
Proof. intros Hs Hk. by apply wp_of_attempt. Qed.
End effects.

(** ** Calls that may be made again after a crash

    [resumes m]: a call [m] interrupted after [b] effects and made again has the result and
    leaves the disk of one call that was not interrupted.  [ext] relates the disk after a
    part of a call to the disks the rest of it may leave; [ok] is an invariant. *)

(** More budget changes nothing but what is left of it. *)
Definition uniform {A} (m : durable_op A) : Prop := ∀ d b,
  match m (World d b) with
  | (w, Raise Crash) => budget w = 0%nat
  | (w, o) => ∀ b', m (World d (b + b')) = (World (disk w) (budget w + b'), o)
  end.

Lemma uniform_bind {A B} (m : durable_op A) (k : A → durable_op B) :
  uniform m → (∀ a, uniform (k a)) → uniform (m ≫= k).
Proof.
  intros Hm Hk d b. specialize (Hm d b). unfold mbind, prog_bind. unfold mbind, prog_bind in *.
  destruct (m (World d b)) as [[d1 b1] [a|[e|]]]; simpl in *.
  - specialize (Hk a d1 b1). destruct (k a (World d1 b1)) as [[d2 b2] [x|[e|]]]; simpl in *; try done;
      intros b'; by rewrite Hm, Hk.
  - intros b'. by rewrite Hm.
  - done.
Qed.
Lemma uniform_ret {A} (a : A) : uniform (mret a). Proof. by intros d b. Qed.
Lemma uniform_throw {A} e : uniform (throw (A := A) e). Proof. by intros d b. Qed.
Lemma uniform_attempt {A} (o : outcome E A) : uniform (attempt o). Proof. by destruct o. Qed.
Lemma uniform_read : uniform read_disk. Proof. by intros d b. Qed.
Lemma uniform_durable f : uniform (durable f). Proof. by intros d [|b]. Qed.

Lemma uniform_finally {A} (m : durable_op A) c : uniform m → uniform c → uniform (finally m c).
Proof.
  intros Hm Hc d b. specialize (Hm d b). unfold finally.
  destruct (m (World d b)) as [[d1 b1] [a|[e|]]]; simpl in *; try done;
    specialize (Hc d1 b1); destruct (c (World d1 b1)) as [[d2 b2] [[]|[e'|]]]; simpl in *; try done;
    intros b'; by rewrite Hm, Hc.
Qed.

(** A program that dies only without the effects it needs, at most [n]. *)
Definition within {A} (n : nat) (m : durable_op A) : Prop := ∀ d b, (n ≤ b)%nat →
  (m (World d b)).2 ≠ Raise Crash ∧ (b ≤ budget (m (World d b)).1 + n)%nat.

Lemma within_bind {A B} n k (m : durable_op A) (f : A → durable_op B) :
  within n m → (∀ a, within k (f a)) → within (n + k) (m ≫= f).
Proof.
  intros Hm Hf d b Hb. destruct (Hm d b) as [H1 H2]; [lia|]. unfold mbind, prog_bind.
  destruct (m (World d b)) as [[d1 b1] [a|e]]; simpl in *; [|naive_solver lia].
  destruct (Hf a d1 b1) as [H3 H4]; [lia|]. split; [done|lia].
Qed.
Lemma within_le {A} n k (m : durable_op A) : within n m → (n ≤ k)%nat → within k m.
Proof. intros Hm Hk d b Hb. destruct (Hm d b) as [??]; [lia|]. split; [done|lia]. Qed.
Lemma within_ret {A} (a : A) : within 0 (mret a). Proof. split; [done|simpl; lia]. Qed.
Lemma within_throw {A} e : within 0 (throw (A := A) e). Proof. split; [done|simpl; lia]. Qed.
Lemma within_durable f : within 1 (durable f).
Proof. intros d [|b] Hb; [lia|]. split; [done|simpl; lia]. Qed.
Lemma within_finally {A} n k (m : durable_op A) c :
  within n m → within k c → within (n + k) (finally m c).
Proof.
  intros Hm Hc d b Hb. destruct (Hm d b) as [H1 H2]; [lia|]. unfold finally.
  destruct (m (World d b)) as [[d1 b1] [a|[e|]]]; simpl in *; try done;
    (destruct (Hc d1 b1) as [H3 H4]; [lia|]);
    destruct (c (World d1 b1)) as [[d2 b2] [[]|[e'|]]]; simpl in *; (split; [done|lia]).
Qed.

(** [m] begun on [d] ends on [d'] with [o], if it lives long enough. *)
Definition ends {A} (m : durable_op A) (d d' : D) (o : outcome (stop E) A) : Prop :=
  ∃ b b1, m (World d b) = (World d' b1, o) ∧ o ≠ Raise Crash.

Lemma uniform_more {A} (m : durable_op A) d b d' b1 o b' :
  uniform m → m (World d b) = (World d' b1, o) → o ≠ Raise Crash →
  m (World d (b + b')) = (World d' (b1 + b'), o).
Proof. intros Hu Em Ho. specialize (Hu d b). rewrite Em in Hu. destruct o as [a|[e|]]; [apply Hu..|done]. Qed.

Lemma ends_unique {A} (m : durable_op A) d d1 d2 o1 o2 :
  uniform m → ends m d d1 o1 → ends m d d2 o2 → d1 = d2 ∧ o1 = o2.
Proof.
  intros Hu (b & c & E1 & N1) (b' & c' & E2 & N2).
  pose proof (uniform_more m _ _ _ _ _ b' Hu E1 N1) as H1. pose proof (uniform_more m _ _ _ _ _ b Hu E2 N2) as H2.
  rewrite (Nat.add_comm b') in H2. rewrite H1 in H2. by injection H2.
Qed.

Lemma ends_within {A} n (m : durable_op A) d b : 
  within n m → (n ≤ b)%nat → ends m d (disk (m (World d b)).1) (m (World d b)).2.
Proof.
  intros Hm Hb. destruct (Hm d b Hb) as [H _]. exists b, (budget (m (World d b)).1).
  by destruct (m (World d b)) as [[] o].
Qed.

Lemma ends_bind {A B} (m : durable_op A) (k : A → durable_op B) d d2 o :
  uniform m → (∀ a, uniform (k a)) →
  ends (m ≫= k) d d2 o ↔
    (∃ d1 a, ends m d d1 (Ok a) ∧ ends (k a) d1 d2 o) ∨ (∃ e, ends m d d2 (Raise e) ∧ o = Raise e).
Proof.
  intros Hu Hk. split.
  - intros (b & b2 & Em & Ho). unfold mbind, prog_bind in Em.
    destruct (m (World d b)) as [[d1 b1] [a|e]] eqn:E1.
    + left. exists d1, a. split; [exists b, b1; split; [done|discriminate]|exists b1, b2; by split].
    + injection Em as -> -> <-. right. exists e. split; [|done]. exists b, b2. split; [done|]. by intros [= ->].
  - intros [(d1 & a & (b & b1 & E1 & N1) & (c & c1 & E2 & N2))|(e & (b & b1 & E1 & N1) & ->)].
    + exists (b + c)%nat, (c1 + b1)%nat. split; [|done]. unfold mbind, prog_bind.
      rewrite (uniform_more m _ _ _ _ _ c Hu E1 N1), (Nat.add_comm b1).
      by rewrite (uniform_more (k a) _ _ _ _ _ b1 (Hk a) E2 N2).
    + exists b, b1. split; [|by injection 1 as ->]. unfold mbind, prog_bind. by rewrite E1.
Qed.

(** A program without effects, and one whose only effect is its last action. *)
Definition quiet {A} (m : durable_op A) : Prop := ∀ w, (m w).1 = w ∧ (m w).2 ≠ Raise Crash.
Lemma quiet_bind {A B} (m : durable_op A) (k : A → durable_op B) :
  quiet m → (∀ a, quiet (k a)) → quiet (m ≫= k).
Proof.
  intros Hm Hk w. specialize (Hm w). unfold mbind, prog_bind. destruct (m w) as [w' [a|e]]; simpl in *; [|naive_solver].
  destruct Hm as [-> _]. apply Hk.
Qed.
Lemma quiet_read : quiet read_disk. Proof. by intros w. Qed.
Lemma quiet_attempt {A} (o : outcome E A) : quiet (attempt o). Proof. by destruct o. Qed.

Lemma within_quiet {A} (m : durable_op A) : quiet m → within 0 m.
Proof. intros Hm d b _. specialize (Hm (World d b)). destruct Hm as [-> Hc]. split; [done|simpl; lia]. Qed.

Section resume.
Context {L : Type} (lk : D → L) (ext : relation D) `{!PreOrder ext} (ok : D → Prop).

(** Nothing is written when the process dies, unless it holds a lock then. *)
Definition once {A} (m : durable_op A) : Prop := ∀ d b d' b1,
  m (World d b) = (World d' b1, Raise Crash) → lk d' = lk d → d' = d.

Lemma once_bind {A B} (m : durable_op A) (k : A → durable_op B) :
  quiet m → (∀ a, once (k a)) → once (m ≫= k).
Proof.
  intros Hm Hk d b d' b1. specialize (Hm (World d b)). unfold mbind, prog_bind.
  destruct (m (World d b)) as [w' [a|e]]; simpl in *; destruct Hm as [-> He]; [apply Hk|]. by intros [= -> ->].
Qed.
Lemma once_map {A B} (m : durable_op A) (f : A → B) : once m → once (m ≫= λ a, mret (f a)).
Proof.
  intros Hm d b d' b1. specialize (Hm d b). unfold mbind, prog_bind.
  destruct (m (World d b)) as [[d0 b0] [a|e]]; [done|]. intros [= -> -> ->]. by eapply Hm.
Qed.
Lemma once_quiet {A} (m : durable_op A) : quiet m → once m.
Proof. intros Hm d b d' b1 E0. specialize (Hm (World d b)). rewrite E0 in Hm. naive_solver. Qed.

(** [m] interrupted where no lock is held, and [m'] made then, end as [m'] alone. *)
Definition resumes {A} (m m' : durable_op A) : Prop := ∀ d b d' b1,
  ok d → m (World d b) = (World d' b1, Raise Crash) → lk d' = lk d →
  ext d d' ∧ ok d' ∧ ∀ d2 o, ends m' d' d2 o ↔ ends m' d d2 o.

(** A completed part that, made again, answers alike and changes nothing. *)
Definition settles {A} (m : durable_op A) (R : relation A) : Prop := ∀ d b d1 b1 a,
  ok d → m (World d b) = (World d1 b1, Ok a) → ok d1 ∧ ext d d1 ∧ lk d1 = lk d ∧
  ∀ d2, ok d2 → ext d1 d2 → lk d2 = lk d1 → ∃ a', ends m d2 d2 (Ok a') ∧ R a a'.

Lemma resumes_bind {A B} (m : durable_op A) (k k' : A → durable_op B) (R : relation A) :
  uniform m → (∀ a, uniform (k' a)) → resumes m m → settles m R →
  (∀ a a', R a a' → k' a' = k' a) → (∀ a, resumes (k a) (k' a)) → resumes (m ≫= k) (m ≫= k').
Proof.
  intros Hu Hu' Hr Hs HR Hk d b d' b1 Hok. unfold mbind at 1, prog_bind at 1.
  destruct (m (World d b)) as [[d1 b2] [a|e]] eqn:Em; simpl in *.
  - intros Ek Hl. destruct (Hs d b d1 b2 a Hok Em) as (Hok1 & He1 & Hl1 & Hagain).
    destruct (Hk a d1 b2 d' b1 Hok1 Ek) as (He2 & Hok' & Hres); [congruence|].
    split; [by etrans|]. split; [done|]. intros d2 o.
    destruct (Hagain d' Hok' He2) as (a' & Ha' & HRa); [congruence|].
    assert (ends m d d1 (Ok a)) as Hm by by exists b, b2. rewrite !ends_bind by done. split.
    + intros [(d3 & a3 & H3 & Hk3)|(e & H3 & _)]; destruct (ends_unique m _ _ _ _ _ Hu Ha' H3) as [<- [= <-]].
      left. exists d1, a. split; [done|]. apply Hres. by rewrite (HR a a') in Hk3.
    + intros [(d3 & a3 & H3 & Hk3)|(e & H3 & _)]; destruct (ends_unique m _ _ _ _ _ Hu Hm H3) as [<- [= <-]].
      left. exists d', a'. split; [done|]. rewrite (HR a a') by done. by apply Hres.
  - intros [= -> -> ->] Hl. destruct (Hr d b d' b1 Hok Em Hl) as (He & Hok' & Hres).
    split; [done|]. split; [done|]. intros d2 o. rewrite !ends_bind by done. by setoid_rewrite Hres.
Qed.

Lemma resumes_once {A} (m m' : durable_op A) : once m → resumes m m'.
Proof. intros H d b d' b1 Hok Em Hl. rewrite (H d b d' b1 Em Hl). done. Qed.

Lemma resumes_map {A B} (m m' : durable_op A) (f f' : A → B) :
  uniform m' → (∀ a, f a = f' a) → resumes m m' → resumes (m ≫= λ a, mret (f a)) (m' ≫= λ a, mret (f' a)).
Proof.
  intros Hu Hf Hr d b d' b1 Hok. unfold mbind at 1, prog_bind at 1.
  destruct (m (World d b)) as [[d1 b2] [a|e]] eqn:Em; [done|].
  intros [= -> -> ->] Hl. destruct (Hr d b d' b1 Hok Em Hl) as (He & Hok' & Hres).
  split; [done|]. split; [done|]. intros d2 o. rewrite !ends_bind by (try done; intros; apply uniform_ret).
  by setoid_rewrite Hres.
Qed.

(** Parts without effects. *)
Lemma settles_quiet {A} (m : durable_op A) :
  quiet m → (∀ d d2 b b2 a, ext d d2 → m (World d b) = (World d b, Ok a) → m (World d2 b2) = (World d2 b2, Ok a)) →
  settles m eq.
Proof.
  intros Hq Hm d b d1 b1 a Hok Em. pose proof (Hq (World d b)) as [E0 _]. rewrite Em in E0. injection E0 as -> ->.
  split; [done|]. split; [done|]. split; [done|]. intros d2 _ He _. exists a. split; [|done].
  exists b, b. split; [by eapply Hm|done].
Qed.
Lemma settles_pure {A} (o : outcome E A) : settles (attempt o) eq.
Proof. apply settles_quiet; [apply quiet_attempt|]. intros d d2 b b2 a _. destruct o; [|done]. by intros [= ->]. Qed.
Lemma resumes_quiet {A} (m m' : durable_op A) : quiet m → resumes m m'.
Proof. intros Hm. by apply resumes_once, once_quiet. Qed.
End resume.
End programs.

Arguments durable_op : clear implicits.
