(* ===== verification/PyDict.v ===== *)
(** * Python dictionaries

    A [dict] iterates in insertion order, and the components iterate over
    theirs (purges, rank selection, bucket scans), so the model keeps the order:
    a [pydict] is the list of its items.  Assignment updates in place or appends,
    deletion removes.  [dict_wf] (no duplicate key) is what the interpreter
    guarantees; every operation preserves it. *)

From S2P Require Import Prelude.

Record pydict (K V : Type) := PyDict { items : list (K * V) }.
Arguments PyDict {K V} items.
Arguments items {K V} p.

Section pydict.
Context {K : Type} `{EqDecision K} {V : Type}.
Implicit Types (d : pydict K V) (k : K) (v : V).

Fixpoint assoc_lookup k (l : list (K * V)) : option V :=
  match l with
  | [] => None
  | (k', v) :: l' => if decide (k = k') then Some v else assoc_lookup k l'
  end.
Fixpoint assoc_insert k v (l : list (K * V)) : list (K * V) :=
  match l with
  | [] => [(k, v)]
  | (k', v') :: l' =>
      if decide (k = k') then (k', v) :: l' else (k', v') :: assoc_insert k v l'
  end.
Definition assoc_delete k (l : list (K * V)) : list (K * V) :=
  filter (λ p, p.1 ≠ k) l.

#[export] Instance pydict_lookup : Lookup K V (pydict K V) :=
  λ k d, assoc_lookup k (items d).
#[export] Instance pydict_insert : Insert K V (pydict K V) :=
  λ k v d, PyDict (assoc_insert k v (items d)).
#[export] Instance pydict_delete : Delete K (pydict K V) :=
  λ k d, PyDict (assoc_delete k (items d)).
#[export] Instance pydict_empty : Empty (pydict K V) := PyDict [].

Definition keys d : list K := (items d).*1.
Definition values d : list V := (items d).*2.
Definition dict_len d : Z := zlen (items d).
Definition dict_wf d : Prop := NoDup (keys d).

(** [d.get(k, x)] *)
Definition get_or d k x : V := default x (d !! k).

(** [k in d] *)
Definition has_key d k : bool := if d !! k is Some _ then true else false.

(** [{k: v for k, v in d.items() if p(k, v)}] *)
Definition dict_filter (p : K → V → bool) d : pydict K V :=
  PyDict (bfilter (λ kv, p kv.1 kv.2) (items d)).

(** [for k in ks: d.pop(k, None)] *)
Definition delete_all (ks : list K) d : pydict K V := foldl (λ d k, delete k d) d ks.

(** *** Lookup after update *)

Lemma assoc_lookup_insert k k' v l :
  assoc_lookup k (assoc_insert k' v l) =
    if decide (k = k') then Some v else assoc_lookup k l.
Proof.
  induction l as [|[k1 v1] l IH]; simpl.
  - by destruct (decide (k = k')).
  - destruct (decide (k' = k1)) as [->|Hne]; simpl.
    + by destruct (decide (k = k1)).
    + destruct (decide (k = k1)) as [->|]; [|done]. by rewrite decide_False.
Qed.

Lemma assoc_lookup_filter k (p : K * V → Prop) `{∀ x, Decision (p x)} l :
  (∀ v v', p (k, v) ↔ p (k, v')) →
  assoc_lookup k (filter p l) =
    match assoc_lookup k l with
    | Some v => if decide (p (k, v)) then Some v else None
    | None => None
    end.
Proof.
  intros Hp. induction l as [|[k1 v1] l IH]; [done|].
  rewrite filter_cons. simpl. destruct (decide (k = k1)) as [->|Hne].
  - destruct (decide (p (k1, v1))) as [Hy|Hn]; simpl; [by rewrite decide_True|].
    rewrite IH. destruct (assoc_lookup k1 l); [|done].
    rewrite decide_False; [done|]. by rewrite (Hp _ v1).
  - destruct (decide (p (k1, v1))); simpl; rewrite ?(decide_False (P:=k = k1)) by done; apply IH.
Qed.

Lemma dict_lookup_empty k : (∅ : pydict K V) !! k = None.
Proof. done. Qed.
Lemma dict_lookup_insert d k k' v :
  <[k' := v]> d !! k = if decide (k = k') then Some v else d !! k.
Proof. apply assoc_lookup_insert. Qed.
Lemma dict_lookup_insert_eq d k v : <[k := v]> d !! k = Some v.
Proof. by rewrite dict_lookup_insert, decide_True. Qed.
Lemma dict_lookup_insert_ne d k k' v : k ≠ k' → <[k' := v]> d !! k = d !! k.
Proof. intros. by rewrite dict_lookup_insert, decide_False. Qed.
Lemma dict_lookup_delete d k k' :
  delete k' d !! k = if decide (k = k') then None else d !! k.
Proof.
  unfold delete, pydict_delete, lookup, pydict_lookup, assoc_delete; simpl.
  rewrite assoc_lookup_filter by done. simpl.
  destruct (assoc_lookup k (items d)); [|by destruct (decide (k = k'))].
  by repeat case_decide.
Qed.
Lemma dict_lookup_delete_eq d k : delete k d !! k = None.
Proof. by rewrite dict_lookup_delete, decide_True. Qed.
Lemma dict_lookup_delete_ne d k k' : k ≠ k' → delete k' d !! k = d !! k.
Proof. intros. by rewrite dict_lookup_delete, decide_False. Qed.
Lemma dict_lookup_delete_all ks d k :
  delete_all ks d !! k = if decide (k ∈ ks) then None else d !! k.
Proof.
  unfold delete_all. revert d. induction ks as [|k' ks IH]; intros d; simpl; [done|].
  rewrite IH, dict_lookup_delete.
  repeat case_decide; set_solver.
Qed.

(** *** Keys and well-formedness *)

Lemma lookup_None_keys d k : d !! k = None ↔ k ∉ keys d.
Proof.
  unfold lookup, pydict_lookup, keys. destruct d as [l]; simpl.
  induction l as [|[k1 v1] l IH]; csimpl; [set_solver|].
  rewrite not_elem_of_cons, <- IH. case_decide; naive_solver.
Qed.
Lemma lookup_Some_keys d k v : d !! k = Some v → k ∈ keys d.
Proof.
  intros H. destruct (decide (k ∈ keys d)) as [|Hn]; [done|].
  apply lookup_None_keys in Hn. congruence.
Qed.
Lemma lookup_Some_items d k v : d !! k = Some v → (k, v) ∈ items d.
Proof.
  unfold lookup, pydict_lookup. destruct d as [l]; simpl.
  induction l as [|[k1 v1] l IH]; simpl; [done|].
  case_decide; [intros [= ->]; subst; by left|]. right. auto.
Qed.
Lemma items_lookup d k v : dict_wf d → (k, v) ∈ items d → d !! k = Some v.
Proof.
  unfold dict_wf, keys, lookup, pydict_lookup. destruct d as [l]; simpl.
  induction l as [|[k1 v1] l IH]; csimpl; [set_solver|].
  rewrite NoDup_cons, elem_of_cons. intros [Hk Hl] [[= -> ->]|Hin].
  - by rewrite decide_True.
  - rewrite decide_False; [by apply IH|]. intros ->. apply Hk.
    apply list_elem_of_fmap. by exists (k1, v).
Qed.
Lemma elem_of_items d k v : dict_wf d → (k, v) ∈ items d ↔ d !! k = Some v.
Proof. split; [by apply items_lookup|apply lookup_Some_items]. Qed.

Lemma keys_insert_Some d k v v' :
  d !! k = Some v' → keys (<[k := v]> d) = keys d.
Proof.
  unfold lookup, pydict_lookup, insert, pydict_insert, keys. destruct d as [l]; simpl.
  induction l as [|[k1 v1] l IH]; csimpl; [done|].
  case_decide; csimpl; [done|]. intros H'. by rewrite IH.
Qed.
Lemma items_insert_None d k v :
  d !! k = None → items (<[k := v]> d) = items d ++ [(k, v)].
Proof.
  unfold lookup, pydict_lookup, insert, pydict_insert. destruct d as [l]; simpl.
  induction l as [|[k1 v1] l IH]; simpl; [done|].
  case_decide; [done|]. intros H'. by rewrite IH.
Qed.
Lemma keys_insert_None d k v :
  d !! k = None → keys (<[k := v]> d) = keys d ++ [k].
Proof. intros H. unfold keys. rewrite items_insert_None by done. by rewrite fmap_app. Qed.
Lemma keys_filter p d : keys (dict_filter p d) `sublist_of` keys d.
Proof. apply fmap_sublist, bfilter_sublist. Qed.
Lemma keys_delete k d : keys (delete k d) `sublist_of` keys d.
Proof.
  apply fmap_sublist. unfold delete, pydict_delete, assoc_delete; simpl.
  induction (items d) as [|x l IH]; [constructor|]. rewrite filter_cons.
  case_decide; by constructor.
Qed.

Lemma dict_wf_empty : dict_wf ∅.
Proof. constructor. Qed.
Lemma dict_wf_insert d k v : dict_wf d → dict_wf (<[k := v]> d).
Proof.
  unfold dict_wf. intros H. destruct (d !! k) as [v'|] eqn:Hk.
  - by erewrite keys_insert_Some.
  - rewrite keys_insert_None by done. apply NoDup_app. split; [done|].
    split; [|apply NoDup_singleton]. intros k' Hk' ->%list_elem_of_singleton.
    by apply lookup_None_keys in Hk.
Qed.
Lemma dict_wf_sublist d d' : keys d' `sublist_of` keys d → dict_wf d → dict_wf d'.
Proof. intros Hs Hd. by eapply sublist_NoDup. Qed.
Lemma dict_wf_delete d k : dict_wf d → dict_wf (delete k d).
Proof. apply dict_wf_sublist, keys_delete. Qed.
Lemma dict_wf_filter p d : dict_wf d → dict_wf (dict_filter p d).
Proof. apply dict_wf_sublist, keys_filter. Qed.
Lemma dict_wf_delete_all ks d : dict_wf d → dict_wf (delete_all ks d).
Proof.
  unfold delete_all. revert d. induction ks as [|k ks IH]; intros d Hd; [done|].
  apply IH, dict_wf_delete, Hd.
Qed.

(** *** Sums over the values *)

Lemma sum_values_insert (f : V → Z) d k v :
  sumZ f (values (<[k := v]> d)) =
    sumZ f (values d) - default 0 (f <$> d !! k) + f v.
Proof.
  unfold lookup, pydict_lookup, insert, pydict_insert, values. destruct d as [l]; simpl.
  induction l as [|[k1 v1] l IH]; simpl; [unfold sumZ; simpl; lia|].
  case_decide; unfold sumZ in *; csimpl; [lia|]. rewrite IH; lia.
Qed.
Lemma assoc_delete_notin k l : k ∉ l.*1 → assoc_delete k l = l.
Proof.
  intros Hk. unfold assoc_delete. induction l as [|[k2 v2] l IH]; [done|].
  csimpl in Hk. apply not_elem_of_cons in Hk as [? ?].
  rewrite filter_cons. simpl. rewrite decide_True by done. by rewrite IH.
Qed.
Lemma assoc_delete_cons k k1 v1 l :
  assoc_delete k ((k1, v1) :: l) =
    if decide (k = k1) then assoc_delete k l else (k1, v1) :: assoc_delete k l.
Proof. unfold assoc_delete. rewrite filter_cons. simpl. repeat case_decide; congruence. Qed.
Lemma sum_values_delete (f : V → Z) d k :
  dict_wf d → sumZ f (values (delete k d)) = sumZ f (values d) - default 0 (f <$> d !! k).
Proof.
  unfold dict_wf, lookup, pydict_lookup, delete, pydict_delete, values, keys, sumZ.
  destruct d as [l]; simpl.
  induction l as [|[k1 v1] l IH]; csimpl; [lia|].
  rewrite NoDup_cons. intros [Hk Hl]. specialize (IH Hl).
  rewrite assoc_delete_cons. case_decide as Hc; csimpl.
  - subst k1. rewrite assoc_delete_notin by done. lia.
  - rewrite IH. lia.
Qed.
Lemma values_delete_perm d k v :
  dict_wf d → d !! k = Some v → values d ≡ₚ v :: values (delete k d).
Proof.
  unfold dict_wf, lookup, pydict_lookup, delete, pydict_delete, values, keys.
  destruct d as [l]; simpl. induction l as [|[k1 v1] l IH]; csimpl; [done|].
  rewrite NoDup_cons. intros [Hk Hl]. rewrite assoc_delete_cons. case_decide as Hc; csimpl.
  - intros [= ->]. subst k1. by rewrite assoc_delete_notin.
  - intros Hv. rewrite (IH Hl Hv) at 1. constructor.
Qed.
Lemma delete_insert_eq d k v : delete k (<[k := v]> d) = delete k d.
Proof.
  unfold insert, pydict_insert, delete, pydict_delete. f_equal. destruct d as [l]; simpl.
  induction l as [|[k1 v1] l IH]; simpl.
  - by rewrite assoc_delete_cons, decide_True.
  - destruct (decide (k = k1)) as [->|Hne]; rewrite !assoc_delete_cons.
    + by rewrite !decide_True.
    + by rewrite !decide_False, IH.
Qed.
Lemma values_insert_perm d k v :
  dict_wf d → values (<[k := v]> d) ≡ₚ v :: values (delete k d).
Proof.
  intros Hd. rewrite <- (delete_insert_eq d k v). apply values_delete_perm.
  - unfold dict_wf in *. destruct (d !! k) as [v'|] eqn:Hk.
    + by erewrite keys_insert_Some.
    + rewrite keys_insert_None by done. apply NoDup_app. split; [done|].
      split; [|apply NoDup_singleton]. intros k' Hk' ->%list_elem_of_singleton.
      by apply lookup_None_keys in Hk.
  - apply dict_lookup_insert_eq.
Qed.
Lemma delete_absent d k : d !! k = None → delete k d = d.
Proof.
  intros Hk%lookup_None_keys. destruct d as [l]. unfold delete, pydict_delete. f_equal.
  by apply assoc_delete_notin.
Qed.
(** [{k: f(v) for k, v in d.items()}] *)
Definition map_values (f : V → V) d : pydict K V := PyDict ((λ kv, (kv.1, f kv.2)) <$> items d).

Lemma keys_map_values f d : keys (map_values f d) = keys d.
Proof. unfold keys, map_values. simpl. rewrite <- list_fmap_compose. by apply list_fmap_ext. Qed.
Lemma dict_lookup_map_values f d k : map_values f d !! k = f <$> d !! k.
Proof.
  unfold lookup, pydict_lookup, map_values. destruct d as [l]; simpl.
  induction l as [|[k1 v1] l IH]; [done|]. csimpl. by case_decide.
Qed.
Lemma dict_lookup_filter (p : K → V → bool) d k :
  dict_wf d →
  dict_filter p d !! k = match d !! k with Some v => if p k v then Some v else None | None => None end.
Proof.
  unfold dict_wf, lookup, pydict_lookup, dict_filter, keys. destruct d as [l]; simpl.
  induction l as [|[k1 v1] l IH]; csimpl; [done|]. rewrite NoDup_cons. intros [Hk Hl].
  rewrite bfilter_cons. simpl. specialize (IH Hl). case_decide as E.
  - subst k1. destruct (p k v1); simpl; [by rewrite decide_True|]. rewrite IH.
    destruct (assoc_lookup k l) as [v|] eqn:Ev; [|done]. exfalso. apply Hk.
    apply (lookup_Some_keys (PyDict l) k v Ev).
  - destruct (p k1 v1); simpl; [by rewrite decide_False|done].
Qed.
Lemma values_filter p d : values (dict_filter p d) `sublist_of` values d.
Proof. apply fmap_sublist, bfilter_sublist. Qed.

Lemma lookup_value d k v : d !! k = Some v → v ∈ values d.
Proof.
  intros H%lookup_Some_items. apply list_elem_of_fmap. by exists (k, v).
Qed.

(** *** The finite map a dictionary denotes *)

Definition to_gmap `{Countable K} d : gmap K V := list_to_map (items d).

Lemma lookup_to_gmap `{Countable K} d k : to_gmap d !! k = d !! k.
Proof.
  unfold to_gmap, lookup at 2, pydict_lookup. destruct d as [l]; simpl.
  induction l as [|[k1 v1] l IH]; simpl; [apply lookup_empty|].
  rewrite lookup_insert. repeat case_decide; congruence.
Qed.
End pydict.

(** Two dictionaries with the same bindings, in any order: Python's [==]. *)
Definition dict_eq {K V} `{EqDecision K} (d1 d2 : pydict K V) : Prop :=
  ∀ k, d1 !! k = d2 !! k.

#[export] Instance dict_eq_equivalence {K V} `{EqDecision K} : Equivalence (@dict_eq K V _).
Proof.
  split; unfold dict_eq; [done|by intros ?? H k|].
  intros ??? H1 H2 k. by rewrite H1, H2.
Qed.
#[export] Instance insert_dict_eq {K V} `{EqDecision K} (k : K) (v : V) :
  Proper (dict_eq ==> dict_eq) (insert k v : pydict K V → pydict K V).
Proof. intros d1 d2 H k'. rewrite !dict_lookup_insert. by rewrite H. Qed.
#[export] Instance delete_dict_eq {K V} `{EqDecision K} (k : K) :
  Proper (dict_eq ==> dict_eq) (delete k : pydict K V → pydict K V).
Proof. intros d1 d2 H k'. rewrite !dict_lookup_delete. by rewrite H. Qed.

Create HintDb dict.
#[export] Hint Resolve dict_wf_empty dict_wf_insert dict_wf_delete dict_wf_filter
  dict_wf_delete_all : dict.
#[export] Hint Rewrite @dict_lookup_empty @dict_lookup_insert @dict_lookup_delete
  @dict_lookup_delete_all : dict.

(** Push lookups through updates and split on the keys they compare. *)
Ltac dict_simpl :=
  autorewrite with dict in *; repeat (case_decide; simplify_eq/=; try done).
