(* ===== verification/Sorting.v ===== *)
(** * Stable sorting and first-minimum selection

    Python's [sorted(xs, key=k)] is stable and [min(xs, key=k)] returns the first
    minimal element; the components rely on both (rank selection, batch scans,
    canonical JSON).  A comparison is a boolean function with the laws of a total
    preorder ([TotalPreorder]); [sort_by] is the stable insertion sort and [min_by]
    the first minimum. *)

From S2P Require Import Prelude.

(** The laws of a comparison function [leb x y = (key x <= key y)]. *)
Class TotalPreorder {A} (leb : A → A → bool) : Prop := {
  leb_total x y : leb x y = true ∨ leb y x = true;
  leb_trans x y z : leb x y = true → leb y z = true → leb x z = true;
}.

#[export] Instance Z_leb_preorder : TotalPreorder Z.leb.
Proof. split; intros *; rewrite !Z.leb_le; lia. Qed.

(** [False < True] *)
#[export] Instance bool_leb_preorder : TotalPreorder implb.
Proof. split; [intros [] []; simpl; auto|intros [] [] []; simpl; auto]. Qed.

(** Comparison of a key. *)
Definition on_key {A B} (leb : B → B → bool) (key : A → B) (x y : A) : bool :=
  leb (key x) (key y).

#[export] Instance on_key_preorder {A B} (leb : B → B → bool) (key : A → B) :
  TotalPreorder leb → TotalPreorder (on_key leb key).
Proof.
  intros H. split; unfold on_key; intros *; [apply leb_total|apply leb_trans].
Qed.

(** Lexicographic comparison of tuples. *)
Definition lex_leb {A B} (la : A → A → bool) (lb : B → B → bool) (p q : A * B) : bool :=
  if la p.1 q.1 then (if la q.1 p.1 then lb p.2 q.2 else true) else false.

#[export] Instance lex_leb_preorder {A B} (la : A → A → bool) (lb : B → B → bool) :
  TotalPreorder la → TotalPreorder lb → TotalPreorder (lex_leb la lb).
Proof.
  intros Ha Hb. split; unfold lex_leb.
  - intros p q. destruct (leb_total (leb:=la) p.1 q.1) as [H|H]; rewrite ?H;
      repeat case_match; auto; apply leb_total.
  - intros p q r. destruct (la p.1 q.1) eqn:H1, (la q.1 r.1) eqn:H2; try done.
    rewrite (leb_trans (leb:=la) _ _ _ H1 H2).
    destruct (la r.1 p.1) eqn:H3; [|done].
    rewrite (leb_trans (leb:=la) _ _ _ H2 H3), (leb_trans (leb:=la) _ _ _ H3 H1).
    apply leb_trans.
Qed.

(** Strings are compared by code point; on UTF-8 text this is byte order. *)
Fixpoint str_leb (s t : string) : bool :=
  match s, t with
  | EmptyString, _ => true
  | String _ _, EmptyString => false
  | String a s', String b t' =>
      if Ascii.eqb a b then str_leb s' t' else N.ltb (Ascii.N_of_ascii a) (Ascii.N_of_ascii b)
  end.

Lemma N_of_ascii_inj a b : Ascii.N_of_ascii a = Ascii.N_of_ascii b → a = b.
Proof. intros H. rewrite <- (Ascii.ascii_N_embedding a), H. apply Ascii.ascii_N_embedding. Qed.

#[export] Instance str_leb_preorder : TotalPreorder str_leb.
Proof.
  split.
  - induction x as [|a s IH]; intros [|b t]; simpl; auto.
    rewrite (Ascii.eqb_sym b a). destruct (Ascii.eqb_spec a b) as [->|Hne]; [apply IH|].
    rewrite !N.ltb_lt. destruct (N.lt_trichotomy (Ascii.N_of_ascii a) (Ascii.N_of_ascii b))
      as [|[?%N_of_ascii_inj|]]; auto; done.
  - induction x as [|a s IH]; intros [|b t] [|c u]; simpl; try done.
    destruct (Ascii.eqb_spec a b) as [->|H1], (Ascii.eqb_spec b c) as [->|H2];
      try done; [apply IH|..].
    + by rewrite (proj2 (Ascii.eqb_neq _ _) H1).
    + rewrite !N.ltb_lt. intros ??. destruct (Ascii.eqb_spec a c) as [->|]; [lia|].
      apply N.ltb_lt. lia.
Qed.

Lemma str_leb_antisymm s t : str_leb s t = true → str_leb t s = true → s = t.
Proof.
  revert t. induction s as [|a s IH]; intros [|b t]; simpl; try done.
  rewrite (Ascii.eqb_sym b a). destruct (Ascii.eqb_spec a b) as [->|H].
  - intros ??. f_equal. auto.
  - rewrite !N.ltb_lt. lia.
Qed.

Section sort.
Context {A : Type} (leb : A → A → bool).
Implicit Types (x y : A) (l : list A).

Definition le_rel x y : Prop := leb x y = true.

Fixpoint insert_by x l : list A :=
  match l with
  | [] => [x]
  | y :: l' => if leb x y then x :: l else y :: insert_by x l'
  end.

(** [sorted(l, key=...)]: stable, because an element is put in front of the
    elements of its own key that follow it. *)
Definition sort_by l : list A := foldr insert_by [] l.

(** [min(l, key=...)]: the first minimum. *)
Fixpoint min_by l : option A :=
  match l with
  | [] => None
  | x :: l' =>
      match min_by l' with
      | None => Some x
      | Some y => if leb x y then Some x else Some y
      end
  end.

Lemma insert_by_perm x l : insert_by x l ≡ₚ x :: l.
Proof.
  induction l as [|y l IH]; simpl; [done|]. destruct (leb x y); [done|].
  rewrite IH. constructor.
Qed.
Lemma sort_by_perm l : sort_by l ≡ₚ l.
Proof. induction l as [|x l IH]; simpl; [done|]. by rewrite insert_by_perm, IH. Qed.
Lemma elem_of_sort_by x l : x ∈ sort_by l ↔ x ∈ l.
Proof. by rewrite sort_by_perm. Qed.
Lemma length_sort_by l : length (sort_by l) = length l.
Proof. by rewrite sort_by_perm. Qed.

Lemma min_by_elem l x : min_by l = Some x → x ∈ l.
Proof.
  revert x. induction l as [|y l IH]; intros x; simpl; [done|].
  destruct (min_by l) as [z|]; [|intros [= ->]; set_solver].
  destruct (leb y z); intros [= ->]; set_solver.
Qed.
Lemma min_by_None l : min_by l = None ↔ l = [].
Proof. destruct l; simpl; [done|]. repeat case_match; naive_solver. Qed.

Context `{!TotalPreorder leb}.

Lemma leb_refl x : leb x x = true.
Proof. by destruct (leb_total x x). Qed.

Lemma insert_by_sorted x l :
  StronglySorted le_rel l → StronglySorted le_rel (insert_by x l).
Proof.
  unfold le_rel. induction 1 as [|y l Hl IH Hy]; simpl; [repeat constructor|].
  destruct (leb x y) eqn:Hxy.
  - constructor; [by constructor|]. constructor; [done|].
    eapply Forall_impl; [exact Hy|]. intros z Hz. by eapply leb_trans.
  - constructor; [done|]. rewrite insert_by_perm. constructor; [|done].
    destruct (leb_total x y); congruence.
Qed.
Lemma sort_by_sorted l : StronglySorted le_rel (sort_by l).
Proof. induction l; simpl; [constructor|by apply insert_by_sorted]. Qed.

(** With a comparison that is antisymmetric on the elements at hand, the sorted
    list depends only on the multiset. *)
Lemma sort_by_unique l1 l2 :
  (∀ x y, x ∈ l1 → y ∈ l1 → leb x y = true → leb y x = true → x = y) →
  l1 ≡ₚ l2 → sort_by l1 = sort_by l2.
Proof.
  intros Hanti Hp.
  assert (H : sort_by l1 ≡ₚ sort_by l2) by (by rewrite !sort_by_perm).
  pose proof (sort_by_sorted l1) as H1. pose proof (sort_by_sorted l2) as H2.
  assert (Hanti' : ∀ x y, x ∈ sort_by l1 → y ∈ sort_by l1 →
    leb x y = true → leb y x = true → x = y).
  { intros x y. rewrite !elem_of_sort_by. apply Hanti. }
  clear Hanti Hp. revert H1 H2 H Hanti'. generalize (sort_by l1) (sort_by l2).
  clear l1 l2. intros l1 l2 H1. revert l2.
  induction H1 as [|x1 l1 Hl1 IH Hx1]; intros l2 H2 Hp Hanti.
  { by apply Permutation_nil in Hp as ->. }
  destruct H2 as [|x2 l2 Hl2 Hx2].
  { symmetry in Hp. by apply Permutation_nil in Hp. }
  unfold le_rel in *. rewrite Forall_forall in Hx1, Hx2.
  assert (x1 = x2) as ->.
  { assert (x2 ∈ x1 :: l1) as Hin2 by (rewrite Hp; set_solver).
    assert (x1 ∈ x2 :: l2) as Hin1 by (rewrite <- Hp; set_solver).
    apply elem_of_cons in Hin2 as [->|Hin2]; [done|].
    apply elem_of_cons in Hin1 as [->|Hin1]; [done|].
    apply Hanti; [set_solver..|auto|auto]. }
  f_equal. apply IH; [done|by apply Permutation_cons_inv in Hp|set_solver].
Qed.

Lemma min_by_le l x y : min_by l = Some x → y ∈ l → leb x y = true.
Proof.
  revert x. induction l as [|z l IH]; intros x; simpl; [done|].
  destruct (min_by l) as [w|] eqn:Hw.
  - rewrite elem_of_cons. destruct (leb z w) eqn:Hzw; intros [= ->] [->|Hy];
      [apply leb_refl|eapply leb_trans; [done|]; by apply IH| |by apply IH].
    destruct (leb_total x z); congruence.
  - apply min_by_None in Hw as ->. intros [= ->].
    intros ->%list_elem_of_singleton. apply leb_refl.
Qed.

(** The head of the sorted list is the first minimum. *)
Lemma head_sort_by l : head (sort_by l) = min_by l.
Proof.
  induction l as [|x l IH]; [done|]. simpl. rewrite <- IH.
  destruct (sort_by l) as [|y l']; simpl; [done|]. by destruct (leb x y).
Qed.
End sort.

Lemma strongly_sorted_sublist {A} (R : relation A) l1 l2 :
  l1 `sublist_of` l2 → StronglySorted R l2 → StronglySorted R l1.
Proof.
  induction 1 as [|x l1 l2 Hs IH|x l1 l2 Hs IH]; intros Hl; [done| |];
    apply StronglySorted_inv in Hl as [Hl Hx]; [|by apply IH].
  constructor; [by apply IH|]. rewrite Forall_forall in Hx |- *. intros y Hy.
  apply Hx. eapply elem_of_submseteq; [exact Hy|by apply sublist_submseteq].
Qed.
