(* ===== verification/Sha256.v ===== *)
(** * SHA-256 and hexadecimal, executable

    [hashlib.sha256(data).hexdigest()] and the byte encodings the codec and the
    evolution loop hash with.  A Python [str] is modelled by its UTF-8 bytes, so
    [text.encode("utf-8")] is the list of its characters' codes.  The 32-bit words are machine
    integers of the kernel ([PrimInt63]), whose operations are exact below [2 ^ 63]. *)

From Stdlib Require Import PrimInt63.
From S2P Require Import Prelude.

(** A 32-bit word is a machine integer below [2 ^ 32]. *)
#[local] Notation word := int.
#[local] Notation "x ^+ y" := (PrimInt63.add x y) (at level 50, left associativity).
Definition low32 (x : int) : word := PrimInt63.land x 4294967295.
Definition add32 (x y : word) : word := low32 (x ^+ y).
Definition rotr (n : int) (x : word) : word :=
  low32 (PrimInt63.lor (PrimInt63.lsr x n) (PrimInt63.lsl x (PrimInt63.sub 32 n))).
Definition not32 (x : word) : word := PrimInt63.lxor x 4294967295.
Definition xor3 (x y z : word) : word := PrimInt63.lxor (PrimInt63.lxor x y) z.

(** Words and integers. *)
Fixpoint word_of_pos (p : positive) : word :=
  match p with
  | xH => 1
  | xO p' => PrimInt63.lsl (word_of_pos p') 1
  | xI p' => PrimInt63.lor (PrimInt63.lsl (word_of_pos p') 1) 1
  end.
Definition word_of (z : Z) : word := match z with Zpos p => word_of_pos p | _ => 0%int63 end.
Fixpoint bits_value (n : nat) (x : word) : Z :=
  match n with
  | O => 0
  | S n' => Z.b2z (PrimInt63.eqb (PrimInt63.land x 1) 1) + 2 * bits_value n' (PrimInt63.lsr x 1)
  end.

(** The constants are the leading 32 bits of the fractional parts of the cube roots
    and of the square roots of the first primes. *)
Definition is_prime (n : Z) : bool :=
  forallb (λ k, negb (n mod (Z.of_nat k) =? 0)) (seq 2 (Z.to_nat n - 2)).
Definition primes (n : nat) : list Z := take n (bfilter is_prime (Z.of_nat <$> seq 2 311)).

(** Integer cube root, one bit at a time from bit [n - 1]. *)
Fixpoint cbrt_bits (n : nat) (z acc : Z) : Z :=
  match n with
  | O => acc
  | S n' =>
      let c := acc + Z.shiftl 1 (Z.of_nat n') in
      cbrt_bits n' z (if c * c * c <=? z then c else acc)
  end.

Definition round_constants : list word :=
  Eval vm_compute in (λ p, word_of (Z.land (cbrt_bits 36 (Z.shiftl p 96) 0) (Z.ones 32))) <$> primes 64.
Definition initial_state : list word :=
  Eval vm_compute in (λ p, word_of (Z.land (Z.sqrt (Z.shiftl p 64)) (Z.ones 32))) <$> primes 8.

Definition nth_word (l : list word) (n : nat) : word := nth n l 0%int63.

(** Message schedule, built in reverse: the head is the latest word. *)
Fixpoint extend_schedule (n : nat) (rev_w : list word) : list word :=
  match n with
  | O => rev rev_w
  | S n' =>
      let w15 := nth_word rev_w 14 in let w2 := nth_word rev_w 1 in
      let s0 := xor3 (rotr 7 w15) (rotr 18 w15) (PrimInt63.lsr w15 3) in
      let s1 := xor3 (rotr 17 w2) (rotr 19 w2) (PrimInt63.lsr w2 10) in
      extend_schedule n' (low32 (nth_word rev_w 15 ^+ s0 ^+ nth_word rev_w 6 ^+ s1) :: rev_w)
  end.

Fixpoint rounds (ks ws : list word) (a b c d e f g h : word) : list word :=
  match ks, ws with
  | k :: ks', w :: ws' =>
      let s1 := xor3 (rotr 6 e) (rotr 11 e) (rotr 25 e) in
      let ch := PrimInt63.lxor (PrimInt63.land e f) (PrimInt63.land (not32 e) g) in
      let t1 := low32 (h ^+ s1 ^+ ch ^+ k ^+ w) in
      let s0 := xor3 (rotr 2 a) (rotr 13 a) (rotr 22 a) in
      let maj := xor3 (PrimInt63.land a b) (PrimInt63.land a c) (PrimInt63.land b c) in
      let t2 := low32 (s0 ^+ maj) in
      rounds ks' ws' (add32 t1 t2) a b c (add32 d t1) e f g
  | _, _ => [a; b; c; d; e; f; g; h]
  end.

Fixpoint block_words (bytes : list Z) : list word :=
  match bytes with
  | a :: b :: c :: d :: l =>
      let put x y := PrimInt63.lor (PrimInt63.lsl x 8) (word_of y) in
      put (put (put (word_of a) b) c) d :: block_words l
  | _ => []
  end.

Definition compress (st : list word) (block : list Z) : list word :=
  match st with
  | [a; b; c; d; e; f; g; h] =>
      zip_with add32 st
        (rounds round_constants (extend_schedule 48 (rev (block_words block))) a b c d e f g h)
  | _ => st
  end.

Fixpoint be_bytes (n : nat) (z : Z) : list Z :=
  match n with
  | O => []
  | S n' => be_bytes n' (Z.shiftr z 8) ++ [Z.land z 255]
  end.

Definition pad (msg : list Z) : list Z :=
  msg ++ [128] ++ replicate (Z.to_nat ((55 - zlen msg) mod 64)) 0 ++ be_bytes 8 (8 * zlen msg).

Fixpoint process (blocks : nat) (st : list word) (msg : list Z) : list word :=
  match blocks with
  | O => st
  | S n => process n (compress st (take 64 msg)) (drop 64 msg)
  end.

Definition sha256_words (msg : list Z) : list Z :=
  let m := pad msg in bits_value 32 <$> process (Z.to_nat (zlen m / 64)) initial_state m.

Definition hex_digit (d : Z) : Ascii.ascii :=
  Ascii.ascii_of_N (Z.to_N (if d <? 10 then 48 + d else 87 + d)).

Fixpoint hex_of (n : nat) (z : Z) : string :=
  match n with
  | O => EmptyString
  | S n' => hex_of n' (Z.shiftr z 4) +:+ String (hex_digit (Z.land z 15)) EmptyString
  end.

(** The codes of the characters of a string: [text.encode("utf-8")]. *)
Fixpoint bytes_of (s : string) : list Z :=
  match s with
  | EmptyString => []
  | String c s' => Z.of_N (Ascii.N_of_ascii c) :: bytes_of s'
  end.

(** The digest as bytes and as the 64 hexadecimal characters of [hexdigest()]. *)
Definition sha256_digest (s : string) : list Z :=
  concat (be_bytes 4 <$> sha256_words (bytes_of s)).
Definition sha256_hex (s : string) : string :=
  foldr (λ w acc, hex_of 8 w +:+ acc) EmptyString (sha256_words (bytes_of s)).

(** Big-endian integer of a byte string, [int.from_bytes(data, "big")]. *)
Definition int_from_bytes (l : list Z) : Z := foldl (λ acc b, acc * 256 + b) 0 l.

Example sha256_abc :
  sha256_hex "abc" = "ba7816bf8f01cfea414140de5dae2223b00361a396177a9cb410ff61f20015ad"%string.
Proof. vm_compute. reflexivity. Qed.
Example sha256_two_blocks :
  sha256_hex "abcdbcdecdefdefgefghfghighijhijkijkljklmklmnlmnomnopnopq" =
    "248d6a61d20638b8e5c026930c3e6039a33ce45964ff2167f6ecedd419db06c1"%string.
Proof. vm_compute. reflexivity. Qed.
