(* ===== verification/Codec.v ===== *)
(** * The wire codec: [rollout_runtime/api/codec.py]

    Protocol values ([value]: native scalars and containers, enum members and
    dataclass instances), the msgpack-native structures they are encoded to
    ([native]), the annotation-driven decoder, and the canonical JSON text whose
    SHA-256 is the digest of env specs and requests.

    A [float] is represented by its [repr] text, which determines a double; a [str]
    by its UTF-8 bytes; a set by its elements in iteration order.  The class table
    ([registry]) and the enum table are arguments, instantiated in [Messages.v]. *)

From stdpp Require Import pretty.
From S2P Require Import Prelude PyDict Sorting Sha256.

Open Scope string_scope.
Open Scope list_scope.
Open Scope Z_scope.

(** The exceptions of this layer, by class. *)
Inductive py_error :=
  | TypeError (msg : string)
  | ValueError (msg : string)
  | KeyError (msg : string)
  | AttributeError (msg : string).

Inductive dict_key := KStr (s : string) | KInt (z : Z) | KBool (b : bool) | KNone.

Inductive value :=
  | VNone
  | VBool (b : bool)
  | VInt (z : Z)
  | VFloat (repr : string)
  | VStr (s : string)
  | VBytes (s : string)
  | VEnum (cls member : string)
  | VData (cls : string) (fields : list (string * value))
  | VDict (items : list (dict_key * value))
  | VList (l : list value)
  | VTuple (l : list value)
  | VSet (l : list value)
  | VFrozenset (l : list value)
  | VOther (type_name : string).

Inductive native :=
  | NNone
  | NBool (b : bool)
  | NInt (z : Z)
  | NFloat (repr : string)
  | NStr (s : string)
  | NBytes (s : string)
  | NList (l : list native)
  | NDict (items : list (string * native)).

#[export] Instance dict_key_eq_dec : EqDecision dict_key.
Proof. solve_decision. Defined.

#[export] Instance native_eq_dec : EqDecision native.
Proof.
  refine (fix go n1 n2 := let _ : EqDecision native := @go in
    match n1, n2 with
    | NNone, NNone => left eq_refl
    | NBool b1, NBool b2 => cast_if (decide (b1 = b2))
    | NInt z1, NInt z2 => cast_if (decide (z1 = z2))
    | NFloat s1, NFloat s2 | NStr s1, NStr s2 | NBytes s1, NBytes s2 =>
        cast_if (decide (s1 = s2))
    | NList l1, NList l2 => cast_if (decide (l1 = l2))
    | NDict l1, NDict l2 => cast_if (decide (l1 = l2))
    | _, _ => right _
    end); abstract congruence.
Defined.

#[export] Instance value_eq_dec : EqDecision value.
Proof.
  refine (fix go v1 v2 := let _ : EqDecision value := @go in
    match v1, v2 with
    | VNone, VNone => left eq_refl
    | VBool b1, VBool b2 => cast_if (decide (b1 = b2))
    | VInt z1, VInt z2 => cast_if (decide (z1 = z2))
    | VFloat s1, VFloat s2 | VStr s1, VStr s2 | VBytes s1, VBytes s2
    | VOther s1, VOther s2 => cast_if (decide (s1 = s2))
    | VEnum c1 m1, VEnum c2 m2 => cast_if_and (decide (c1 = c2)) (decide (m1 = m2))
    | VData c1 f1, VData c2 f2 => cast_if_and (decide (c1 = c2)) (decide (f1 = f2))
    | VDict l1, VDict l2 => cast_if (decide (l1 = l2))
    | VList l1, VList l2 | VTuple l1, VTuple l2 | VSet l1, VSet l2
    | VFrozenset l1, VFrozenset l2 => cast_if (decide (l1 = l2))
    | _, _ => right _
    end); abstract congruence.
Defined.

(** Traverse a list, stopping at the first exception. *)
Definition traverse {A B E} (f : A → outcome E B) : list A → outcome E (list B) :=
  fix go l :=
    match l with
    | [] => Ok []
    | x :: l' => y ← f x; ys ← go l'; Ok (y :: ys)
    end.

Lemma traverse_ok {A B E} (f : A → outcome E B) l ys :
  traverse f l = Ok ys ↔ Forall2 (λ x y, f x = Ok y) l ys.
Proof.
  revert ys. induction l as [|x l IH]; intros ys; simpl.
  - split; [by intros [= <-]|]. by intros ->%Forall2_nil_inv_l.
  - rewrite outcome_bind_ok. setoid_rewrite outcome_bind_ok. setoid_rewrite IH.
    split; [intros (y & ? & ys' & ? & [= <-]); by constructor|].
    intros (y & ys' & ? & ? & ->)%Forall2_cons_inv_l. eauto 10.
Qed.

(** [str(key)] *)
Definition key_str (k : dict_key) : string :=
  match k with
  | KStr s => s
  | KInt z => pretty z
  | KBool b => if b then "True" else "False"
  | KNone => "None"
  end.

Definition TYPE_TAG : string := "@".

Fixpoint encode (obj : value) : outcome py_error native :=
  match obj with
  | VNone => Ok NNone
  | VBool b => Ok (NBool b)
  | VInt z => Ok (NInt z)
  | VFloat r => Ok (NFloat r)
  | VStr s => Ok (NStr s)
  | VBytes s => Ok (NBytes s)
  | VEnum _ member => Ok (NStr member)
  | VData cls fields =>
      fs ← traverse (λ '(name, v), n ← encode v; Ok (name, n)) fields;
      Ok (NDict (items (foldl (λ d kv, <[kv.1 := kv.2]> d)
        (PyDict [(TYPE_TAG, NStr cls)]) fs)))
  | VDict its =>
      kvs ← traverse (λ '(k, v), n ← encode v; Ok (key_str k, n)) its;
      Ok (NDict (items (foldl (λ d kv, <[kv.1 := kv.2]> d) ∅ kvs)))
  | VList l | VTuple l | VSet l | VFrozenset l => ns ← traverse encode l; Ok (NList ns)
  | VOther name => Raise (TypeError
      ("unsupported type for runtime protocol encoding: " +:+ name))
  end.

(** Induction with hypotheses for the components of containers. *)
Lemma value_nested_ind (P : value → Prop) :
  P VNone → (∀ b, P (VBool b)) → (∀ z, P (VInt z)) → (∀ r, P (VFloat r)) →
  (∀ s, P (VStr s)) → (∀ s, P (VBytes s)) → (∀ c m, P (VEnum c m)) →
  (∀ c fs, Forall (λ f, P f.2) fs → P (VData c fs)) →
  (∀ its, Forall (λ kv, P kv.2) its → P (VDict its)) →
  (∀ l, Forall P l → P (VList l)) → (∀ l, Forall P l → P (VTuple l)) →
  (∀ l, Forall P l → P (VSet l)) → (∀ l, Forall P l → P (VFrozenset l)) →
  (∀ t, P (VOther t)) → ∀ v, P v.
Proof.
  intros Hn Hb Hz Hf Hs Hy He Hd Hm Hl Ht Hse Hfs Ho. fix go 1.
  assert (Hall : ∀ l, Forall P l) by (induction l; constructor; [apply go|done]).
  assert (Hkv : ∀ A (l : list (A * value)), Forall (λ kv, P kv.2) l)
    by (induction l as [|[? ?] ? IH]; constructor; [apply go|apply IH]).
  intros [ |b|z|r|s|s|c m|c fs|its|l|l|l|l|t];
    [apply Hn|apply Hb|apply Hz|apply Hf|apply Hs|apply Hy|apply He|apply Hd, Hkv
    |apply Hm, Hkv|apply Hl, Hall|apply Ht, Hall|apply Hse, Hall|apply Hfs, Hall|apply Ho].
Qed.

Lemma native_nested_ind (P : native → Prop) :
  P NNone → (∀ b, P (NBool b)) → (∀ z, P (NInt z)) → (∀ r, P (NFloat r)) →
  (∀ s, P (NStr s)) → (∀ s, P (NBytes s)) → (∀ l, Forall P l → P (NList l)) →
  (∀ its, Forall (λ kv, P kv.2) its → P (NDict its)) → ∀ n, P n.
Proof.
  intros Hn Hb Hz Hf Hs Hy Hl Hd. fix go 1.
  assert (Hall : ∀ l, Forall P l) by (induction l; constructor; [apply go|done]).
  assert (Hkv : ∀ l : list (string * native), Forall (λ kv, P kv.2) l)
    by (induction l as [|[? ?] ? IH]; constructor; [apply go|apply IH]).
  intros [ |b|z|r|s|s|l|its];
    [apply Hn|apply Hb|apply Hz|apply Hf|apply Hs|apply Hy|apply Hl, Hall|apply Hd, Hkv].
Qed.

(** Assigning fresh, distinct keys one by one appends the items. *)
Lemma fold_insert_fresh {A} (kvs l : list (string * A)) :
  NoDup (l.*1 ++ kvs.*1) →
  items (foldl (λ d kv, <[kv.1 := kv.2]> d) (PyDict l) kvs) = l ++ kvs.
Proof.
  revert l. induction kvs as [|[k v] kvs IH]; intros l Hnd; csimpl in *.
  { by rewrite app_nil_r. }
  change (<[k:=v]> (PyDict l)) with (PyDict (assoc_insert k v l)).
  assert (assoc_insert k v l = l ++ [(k, v)]) as ->.
  { apply (items_insert_None (PyDict l)), lookup_None_keys. unfold keys; simpl.
    apply NoDup_app in Hnd as (_ & Hd & _). intros Hk. apply (Hd k Hk). by left. }
  rewrite IH.
  - by rewrite <- (assoc_L app).
  - rewrite fmap_app, <- (assoc_L app). done.
Qed.

(** ** Canonical JSON *)

Definition char (n : nat) : string := String (Ascii.ascii_of_nat n) EmptyString.
Definition quote : string := char 34.
Definition backslash : string := char 92.

(** [json.dumps(..., ensure_ascii=False)]: only quotes, backslashes and control
    characters are escaped. *)
Definition escape_char (c : Ascii.ascii) : string :=
  let n := Ascii.nat_of_ascii c in
  if (n =? 34)%nat then backslash +:+ quote
  else if (n =? 92)%nat then backslash +:+ backslash
  else if (n =? 10)%nat then backslash +:+ "n"
  else if (n =? 13)%nat then backslash +:+ "r"
  else if (n =? 9)%nat then backslash +:+ "t"
  else if (n =? 12)%nat then backslash +:+ "f"
  else if (n =? 8)%nat then backslash +:+ "b"
  else if (n <? 32)%nat then backslash +:+ "u00" +:+ hex_of 2 (Z.of_nat n)
  else String c EmptyString.

Fixpoint escape (s : string) : string :=
  match s with
  | EmptyString => EmptyString
  | String c s' => escape_char c +:+ escape s'
  end.

Definition json_string (s : string) : string := quote +:+ escape s +:+ quote.

Fixpoint join (sep : string) (l : list string) : string :=
  match l with
  | [] => EmptyString
  | [x] => x
  | x :: l' => x +:+ sep +:+ join sep l'
  end.

Definition base64_digit (n : Z) : string :=
  char (Z.to_nat (if n <? 26 then 65 + n else if n <? 52 then 71 + n
    else if n <? 62 then n - 4 else if n =? 62 then 43 else 47)).

Fixpoint base64 (l : list Z) : string :=
  match l with
  | a :: b :: c :: l' =>
      base64_digit (Z.shiftr a 2) +:+ base64_digit (Z.lor (Z.shiftl (Z.land a 3) 4) (Z.shiftr b 4))
        +:+ base64_digit (Z.lor (Z.shiftl (Z.land b 15) 2) (Z.shiftr c 6))
        +:+ base64_digit (Z.land c 63) +:+ base64 l'
  | [a; b] =>
      base64_digit (Z.shiftr a 2) +:+ base64_digit (Z.lor (Z.shiftl (Z.land a 3) 4) (Z.shiftr b 4))
        +:+ base64_digit (Z.shiftl (Z.land b 15) 2) +:+ "="
  | [a] => base64_digit (Z.shiftr a 2) +:+ base64_digit (Z.shiftl (Z.land a 3) 4) +:+ "=="
  | [] => EmptyString
  end.

(** [_json_default]: bytes become a one-key object; after [encode] nothing else
    reaches it. *)
Definition _json_default (s : string) : string :=
  "{" +:+ json_string "__b64__" +:+ ":" +:+ json_string (base64 (bytes_of s)) +:+ "}".

(** The reprs [allow_nan=False] refuses. *)
Definition non_finite (r : string) : bool :=
  String.eqb r "nan" || String.eqb r "inf" || String.eqb r "-inf".

Definition sort_items {A} (l : list (string * A)) : list (string * A) :=
  sort_by (on_key str_leb fst) l.

(** [json.dumps(n, sort_keys=True, separators=(",", ":"), ensure_ascii=False,
    allow_nan=False, default=_json_default)] *)
Fixpoint json_dumps (n : native) : outcome py_error string :=
  match n with
  | NNone => Ok "null"
  | NBool b => Ok (if b then "true" else "false")
  | NInt z => Ok (pretty z)
  | NFloat r =>
      if non_finite r then
        Raise (ValueError ("Out of range float values are not JSON compliant: " +:+ r))
      else Ok r
  | NStr s => Ok (json_string s)
  | NBytes s => Ok (_json_default s)
  | NList l => ss ← traverse json_dumps l; Ok ("[" +:+ join "," ss +:+ "]")
  | NDict its =>
      kvs ← traverse (λ '(k, v), s ← json_dumps v; Ok (k, s)) its;
      Ok ("{" +:+ join "," ((λ kv, json_string kv.1 +:+ ":" +:+ kv.2) <$> sort_items kvs) +:+ "}")
  end.

Definition canonical_json (obj : value) : outcome py_error string :=
  n ← encode obj; json_dumps n.

Definition digest (obj : value) (prefix : string) : outcome py_error string :=
  text ← canonical_json obj;
  Ok (sha256_hex (if str_true prefix then prefix +:+ char 0 +:+ text else text)).

Example canonical_json_example :
  canonical_json (VDict [(KStr "b", VList [VInt (-3); VNone]); (KStr "a", VStr "x")]) =
    Ok ("{" +:+ json_string "a" +:+ ":" +:+ json_string "x" +:+ "," +:+ json_string "b" +:+ ":[-3,null]}").
Proof. vm_compute. reflexivity. Qed.

(** ** Decoding, driven by the target annotation *)

(** Type annotations: [HUnion] lists the arguments other than [None]; a missing
    annotation is [HAny]; [HBuiltin] is any other class ([str], [int], [bool], ...). *)
Inductive hint :=
  | HAny
  | HNoneType
  | HNewType (supertype : hint)
  | HUnion (args : list hint)
  | HList (item : hint)
  | HTuple (item : hint)
  | HTupleFixed (items : list hint)
  | HSet (item : hint)
  | HFrozenset (item : hint)
  | HDict (item : hint)
  | HEnum (cls : string)
  | HClass (cls : string)
  | HFloat
  | HBuiltin.

(** [X | None] *)
Definition HOptional (h : hint) : hint := HUnion [h].

(** A dataclass field: its name, annotation and default, if it has one. *)
Record field := Field { f_name : string; f_hint : hint; f_default : option value }.

(** [_unwrap], and the union with a single argument. *)
Fixpoint _unwrap (h : hint) : hint :=
  match h with
  | HNewType h' => _unwrap h'
  | HUnion [h'] => _unwrap h'
  | HUnion _ => HAny
  | _ => h
  end.

(** Data that is returned as it is. *)
Fixpoint value_of_native (n : native) : value :=
  match n with
  | NNone => VNone
  | NBool b => VBool b
  | NInt z => VInt z
  | NFloat r => VFloat r
  | NStr s => VStr s
  | NBytes s => VBytes s
  | NList l => VList (value_of_native <$> l)
  | NDict its => VDict ((λ kv, (KStr kv.1, value_of_native kv.2)) <$> its)
  end.

Fixpoint hashable (v : value) : bool :=
  match v with
  | VList _ | VDict _ | VSet _ => false
  | VTuple l => forallb hashable l
  | VData _ fs => forallb (λ f, hashable f.2) fs
  | _ => true
  end.

(** [set(items)]: elements are kept in the order of their first occurrence. *)
Definition make_set (vs : list value) : outcome py_error (list value) :=
  if forallb hashable vs then Ok (remove_dups vs) else Raise (TypeError "unhashable type").

(** Iterating over a string yields its code points. *)
Fixpoint code_points (s : string) : list string :=
  match s with
  | EmptyString => []
  | String c s' =>
      match code_points s' with
      | (String d w as p) :: ps =>
          if (Z.land (Z.of_N (Ascii.N_of_ascii d)) 192 =? 128) then String c p :: ps
          else String c EmptyString :: p :: ps
      | ps => String c EmptyString :: ps
      end
  end.

Section decoder.
Context (registry : string → option (list field)).
Context (enum_table : string → list (string * native)).
(** [repr(float(z))], the interpreter's conversion. *)
Context (float_of_int : Z → string).

(** Python's [==] between a candidate and an enum member's value. *)
Definition enum_value_eq (data v : native) : bool :=
  match data, v with
  | NInt x, NInt y => x =? y
  | NBool b, NInt y => Z.b2z b =? y
  | NFloat r, NInt y => String.eqb r (float_of_int y)
  | NStr s, NStr t => String.eqb s t
  | _, _ => false
  end.

(** [hint[data]] for a string, [hint(data)] otherwise. *)
Definition decode_enum (cls : string) (data : native) : outcome py_error value :=
  match data with
  | NStr s =>
      if assoc_lookup s (enum_table cls) then Ok (VEnum cls s) else Raise (KeyError s)
  | _ =>
      match List.find (λ m, enum_value_eq data m.2) (enum_table cls) with
      | Some m => Ok (VEnum cls m.1)
      | None => Raise (ValueError ("not a valid " +:+ cls))
      end
  end.

(** [cls] applied to keyword arguments. *)
Definition construct (cls : string) (fields : list field) (kwargs : list (string * value)) :
    outcome py_error value :=
  fs ← traverse (λ f,
    match assoc_lookup (f_name f) kwargs, f_default f with
    | Some v, _ => Ok (f_name f, v)
    | None, Some v => Ok (f_name f, v)
    | None, None => Raise (TypeError ("missing required argument: " +:+ f_name f))
    end) fields;
  Ok (VData cls fs).

Definition decoder : Type := hint → outcome py_error value.

(** [_decode_dataclass]; [kids] decodes each item of [data]. *)
Definition _decode_dataclass (cls : string) (data : list (string * native))
    (kids : list (string * decoder)) : outcome py_error value :=
  let cls := match assoc_lookup TYPE_TAG data with
    | Some (NStr tag) => if registry tag then tag else cls
    | _ => cls
    end in
  match registry cls with
  | None => Raise (KeyError ("unregistered runtime protocol type: " +:+ cls))
  | Some fields =>
      kwargs ← traverse (λ f,
        match assoc_lookup (f_name f) kids with
        | Some dec => v ← dec (f_hint f); Ok [(f_name f, v)]
        | None => Ok []
        end) fields;
      construct cls fields (concat kwargs)
  end.

(** Items decoded against a fixed-length tuple annotation:
    [zip(data, args, strict=False)]. *)
Fixpoint decode_zip (decs : list decoder) (hs : list hint) : outcome py_error (list value) :=
  match decs, hs with
  | dec :: decs', h :: hs' => v ← dec h; vs ← decode_zip decs' hs'; Ok (v :: vs)
  | _, _ => Ok []
  end.

(** The container a sequence annotation asks for, given decoders of the items. *)
Definition decode_sequence (decs : list decoder) (h : hint) : option (outcome py_error value) :=
  match h with
  | HList i => Some (vs ← traverse (λ dec : decoder, dec i) decs; Ok (VList vs))
  | HTuple i => Some (vs ← traverse (λ dec : decoder, dec i) decs; Ok (VTuple vs))
  | HTupleFixed hs => Some (vs ← decode_zip decs hs; Ok (VTuple vs))
  | HSet i => Some (vs ← traverse (λ dec : decoder, dec i) decs; vs ← make_set vs; Ok (VSet vs))
  | HFrozenset i =>
      Some (vs ← traverse (λ dec : decoder, dec i) decs; vs ← make_set vs; Ok (VFrozenset vs))
  | _ => None
  end.

(** Characters of a string, and the bytes of a byte string, met where a sequence
    was expected: these are scalars again, under the item annotation. *)
Fixpoint decode_scalar (h : hint) (data : native) {struct h} : outcome py_error value :=
  let items :=
    match data with
    | NStr s => Some (NStr <$> code_points s)
    | NBytes s => Some (NInt <$> bytes_of s)
    | _ => None
    end in
  let seq (mk : list value → outcome py_error value) (i : hint) :=
    match items with
    | None => Raise (TypeError "object is not iterable")
    | Some l => vs ← traverse (decode_scalar i) l; mk vs
    end in
  match data with
  | NNone => Ok VNone
  | _ =>
      match h with
      | HNoneType => Ok VNone
      | HNewType h' => decode_scalar h' data
      | HUnion [h'] => decode_scalar h' data
      | HList i => seq (λ vs, Ok (VList vs)) i
      | HTuple i => seq (λ vs, Ok (VTuple vs)) i
      | HSet i => seq (λ vs, vs ← make_set vs; Ok (VSet vs)) i
      | HFrozenset i => seq (λ vs, vs ← make_set vs; Ok (VFrozenset vs)) i
      | HTupleFixed hs =>
          match items with
          | None => Raise (TypeError "object is not iterable")
          | Some l =>
              vs ← (fix go hs l :=
                match hs, l with
                | i :: hs', d :: l' => v ← decode_scalar i d; vs ← go hs' l'; Ok (v :: vs)
                | _, _ => Ok []
                end) hs l;
              Ok (VTuple vs)
          end
      | HDict _ => Raise (AttributeError "items")
      | HEnum cls => decode_enum cls data
      | HClass cls =>
          if registry cls then Raise (AttributeError "get") else Ok (value_of_native data)
      | HFloat =>
          match data with
          | NInt z => Ok (VFloat (float_of_int z))
          | _ => Ok (value_of_native data)
          end
      | HAny | HBuiltin | HUnion _ => Ok (value_of_native data)
      end
  end.

(** [decode(data, hint)]; [_decode_dynamic] is the case [HAny]. *)
Fixpoint decode (data : native) (h : hint) {struct data} : outcome py_error value :=
  match data with
  | NList l =>
      let decs := decode <$> l in
      match _unwrap h with
      | HAny => vs ← traverse (λ dec : decoder, dec HAny) decs; Ok (VList vs)
      | HNoneType => Ok VNone
      | HDict _ => Raise (AttributeError "items")
      | HEnum cls => decode_enum cls data
      | HClass cls =>
          if registry cls then Raise (AttributeError "get") else Ok (value_of_native data)
      | h' => default (Ok (value_of_native data)) (decode_sequence decs h')
      end
  | NDict its =>
      let kids := (λ kv, (kv.1, decode kv.2)) <$> its in
      let dict_of h' :=
        kvs ← traverse (λ '(k, dec), v ← (dec : decoder) h'; Ok (KStr k, v)) kids; Ok (VDict kvs) in
      match _unwrap h with
      | HAny =>
          match assoc_lookup TYPE_TAG its with
          | Some (NStr tag) => _decode_dataclass tag its kids
          | _ => dict_of HAny
          end
      | HNoneType => Ok VNone
      | HDict h' => dict_of h'
      | HEnum cls => decode_enum cls data
      | HClass cls =>
          if registry cls then _decode_dataclass cls its kids else Ok (value_of_native data)
      | h' =>
          default (Ok (value_of_native data))
            (decode_sequence ((λ kv h, decode_scalar h (NStr kv.1)) <$> its) h')
      end
  | _ => decode_scalar h data
  end.

(** ** What a well-annotated value is, and the round trip *)

Definition scalar_hint (h : hint) : bool :=
  match h with HAny | HBuiltin => true | _ => false end.

Definition str_key (k : dict_key) : option string :=
  match k with KStr s => Some s | _ => None end.

Definition nodup (l : list string) : bool := bool_decide (NoDup l).

(** [typed v h]: the value [v] has the annotation [h], in the sense in which the
    wire format keeps it (string keys, no bare tag key, no enum or tuple under an
    unannotated position). *)
Fixpoint typed (v : value) (h : hint) {struct v} : bool :=
  let h := _unwrap h in
  match v with
  | VNone => true
  | VBool _ | VStr _ | VBytes _ => scalar_hint h
  | VInt _ => scalar_hint h
  | VFloat _ => scalar_hint h || match h with HFloat => true | _ => false end
  | VEnum cls m =>
      match h with
      | HEnum c => String.eqb c cls && (if assoc_lookup m (enum_table cls) then true else false)
      | _ => false
      end
  | VData cls fs =>
      match (match h with
             | HAny => registry cls
             | HClass c => if registry c then registry cls else None
             | _ => None
             end) with
      | Some fields =>
          nodup (TYPE_TAG :: fs.*1)
          && (fix go (fs : list (string * value)) (fields : list field) :=
            match fs, fields with
            | [], [] => true
            | (name, v) :: fs', f :: fields' =>
                String.eqb name (f_name f) && typed v (f_hint f) && go fs' fields'
            | _, _ => false
            end) fs fields
      | None => false
      end
  | VDict its =>
      match (match h with
             | HAny => if existsb (λ kv, String.eqb (key_str kv.1) TYPE_TAG) its
                 then None else Some HAny
             | HDict i => Some i
             | _ => None
             end) with
      | Some i =>
          nodup ((λ kv, key_str kv.1) <$> its)
          && forallb (λ kv, (if str_key kv.1 then true else false) && typed kv.2 i) its
      | None => false
      end
  | VList l =>
      match h with
      | HAny => forallb (λ x, typed x HAny) l
      | HList i => forallb (λ x, typed x i) l
      | _ => false
      end
  | VTuple l =>
      match h with
      | HTuple i => forallb (λ x, typed x i) l
      | HTupleFixed hs =>
          (fix go (l : list value) (hs : list hint) :=
            match l, hs with
            | [], [] => true
            | x :: l', i :: hs' => typed x i && go l' hs'
            | _, _ => false
            end) l hs
      | _ => false
      end
  | VSet l =>
      match h with
      | HSet i => forallb (λ x, typed x i) l && forallb hashable l && bool_decide (NoDup l)
      | _ => false
      end
  | VFrozenset l =>
      match h with
      | HFrozenset i => forallb (λ x, typed x i) l && forallb hashable l && bool_decide (NoDup l)
      | _ => false
      end
  | VOther _ => false
  end.

Lemma _unwrap_idem h : _unwrap (_unwrap h) = _unwrap h.
Proof.
  revert h. fix go 1.
  intros [| |h'|[|h' [|]]| | | | | | | | | |]; simpl; try reflexivity; apply go.
Qed.
Lemma decode_scalar_NNone h : decode_scalar h NNone = Ok VNone.
Proof. by destruct h. Qed.
Lemma decode_scalar_unwrap h n : decode_scalar h n = decode_scalar (_unwrap h) n.
Proof.
  destruct n; [by rewrite !decode_scalar_NNone|..]; revert h; fix go 1;
    intros [| |h'|[|h' [|]]| | | | | | | | | |]; simpl; try reflexivity; apply go.
Qed.
Lemma decode_unwrap n h : decode n h = decode n (_unwrap h).
Proof. destruct n; simpl; rewrite ?_unwrap_idem; try done; apply decode_scalar_unwrap. Qed.

Lemma decode_NNone h : decode NNone h = Ok VNone.
Proof. apply decode_scalar_NNone. Qed.

(** The statement of the round trip for one value. *)
Definition round_trips (v : value) : Prop :=
  ∀ h, typed v h = true → ∃ n, encode v = Ok n ∧ decode n h = Ok v.

Lemma round_trips_items l (i : hint) :
  Forall round_trips l → forallb (λ x, typed x i) l = true →
  ∃ ns, traverse encode l = Ok ns ∧ traverse (λ dec : decoder, dec i) (decode <$> ns) = Ok l.
Proof.
  induction 1 as [|v l Hv Hl IH]; simpl; [intros _; by exists []|].
  intros (Hh & (ns & Hns & Hds)%IH)%andb_true_iff.
  destruct (Hv i Hh) as (n & Hn & Hd). exists (n :: ns). csimpl.
  rewrite Hn; csimpl. rewrite Hns; csimpl. rewrite Hd; csimpl. by rewrite Hds.
Qed.

Lemma make_set_ok l :
  forallb hashable l = true → NoDup l → make_set l = Ok l.
Proof.
  unfold make_set. intros -> Hnd. f_equal. induction Hnd as [|x l Hx _ IH]; [done|].
  simpl. case_match; [done|]. by rewrite IH.
Qed.

Lemma round_trips_dict its (i : hint) :
  Forall (λ kv, round_trips kv.2) its →
  forallb (λ kv, (if str_key kv.1 then true else false) && typed kv.2 i) its = true →
  ∃ kvs, traverse (λ '(k, v), n ← encode v; Ok (key_str k, n)) its = Ok kvs ∧
    kvs.*1 = (λ kv, key_str kv.1) <$> its ∧
    traverse (λ '(k, dec), v ← (dec : decoder) i; Ok (KStr k, v))
      ((λ kv, (kv.1, decode kv.2)) <$> kvs) = Ok its.
Proof.
  induction 1 as [|[k v] l Hv Hl IH]; simpl; [intros _; by exists []|].
  intros ([Hk Hh]%andb_true_iff & (kvs & Hns & Hks & Hds)%IH)%andb_true_iff.
  destruct (Hv i Hh) as (n & Hn & Hd). destruct k as [k| | |]; try done.
  exists ((k, n) :: kvs). csimpl in *. rewrite Hn; csimpl. rewrite Hns; csimpl.
  rewrite Hd; csimpl. rewrite Hds. csimpl. by rewrite Hks.
Qed.

Lemma round_trips_zip l hs :
  Forall round_trips l → typed (VTuple l) (HTupleFixed hs) = true →
  ∃ ns, traverse encode l = Ok ns ∧ decode_zip (decode <$> ns) hs = Ok l.
Proof.
  intros Hl. revert hs. induction Hl as [|v l Hv Hl IH]; intros [|h hs]; simpl; try done.
  { intros _. by exists []. }
  intros (Hh & (ns & Hns & Hds)%IH)%andb_true_iff.
  destruct (Hv h Hh) as (n & Hn & Hd). exists (n :: ns). csimpl.
  rewrite Hn; csimpl. rewrite Hns; csimpl. rewrite Hd; csimpl. by rewrite Hds.
Qed.

Lemma typed_fields_zip c c' fs fields :
  registry c = Some fields → (if registry c' then true else false) = true →
  typed (VData c fs) (HClass c') = true →
  NoDup (TYPE_TAG :: fs.*1) ∧
  Forall2 (λ (nv : string * value) f, nv.1 = f_name f ∧ typed nv.2 (f_hint f) = true) fs fields.
Proof.
  intros Hc Hc'. simpl. destruct (registry c'); [|done]. rewrite Hc.
  intros [Hnd Hgo]%andb_true_iff. apply bool_decide_eq_true in Hnd. split; [done|].
  clear Hc Hnd. revert fields Hgo. induction fs as [|[n v] fs IH]; intros [|f fields]; try done.
  intros [[Hn Hv]%andb_true_iff Hgo]%andb_true_iff. apply String.eqb_eq in Hn.
  constructor; [done|auto].
Qed.

Lemma typed_data_any c fs : typed (VData c fs) HAny = typed (VData c fs) (HClass c).
Proof. simpl. by destruct (registry c). Qed.

(** Encoding the fields of an instance, and looking them up again. *)
Lemma round_trips_fields fs fields :
  Forall (λ nv, round_trips nv.2) fs →
  Forall2 (λ (nv : string * value) f, nv.1 = f_name f ∧ typed nv.2 (f_hint f) = true) fs fields →
  ∃ kvs, traverse (λ '(name, v), n ← encode v; Ok (name, n)) fs = Ok kvs ∧
    kvs.*1 = fs.*1 ∧
    Forall2 (λ (kn : string * native) f, kn.1 = f_name f) kvs fields ∧
    Forall2 (λ (kn : string * native) (fv : field * (string * value)),
      decode kn.2 (f_hint fv.1) = Ok fv.2.2) kvs (zip fields fs).
Proof.
  intros Hfs Hty. revert Hfs. induction Hty as [|[k v] f fs fields [Hk Hv] Hty IH].
  { intros _. exists []. repeat constructor. }
  intros [Hrt Hfs]%Forall_cons. destruct (IH Hfs) as (kvs & He & Hks & Hn & Hd).
  destruct (Hrt _ Hv) as (n & Hn1 & Hd1). exists ((k, n) :: kvs). csimpl in *.
  rewrite Hn1; csimpl. rewrite He; csimpl. rewrite Hks. repeat constructor; done.
Qed.

Lemma assoc_lookup_in {A} (k : string) (v : A) l : NoDup l.*1 → (k, v) ∈ l → assoc_lookup k l = Some v.
Proof. intros Hnd Hin. exact (items_lookup (PyDict l) k v Hnd Hin). Qed.

Lemma assoc_lookup_head {A} (k : string) (v : A) l : assoc_lookup k ((k, v) :: l) = Some v.
Proof. simpl. by case_decide. Qed.

Lemma decode_fields (kids : list (string * decoder)) fs fields :
  NoDup kids.*1 →
  Forall2 (λ (f : field) nv, nv.1 = f_name f ∧
    ∃ dec, (f_name f, dec) ∈ kids ∧ dec (f_hint f) = Ok nv.2) fields fs →
  traverse (λ f,
    match assoc_lookup (f_name f) kids with
    | Some dec => v ← dec (f_hint f); Ok [(f_name f, v)]
    | None => Ok []
    end) fields = Ok ((λ nv, [nv]) <$> fs).
Proof.
  intros Hnd H. apply traverse_ok, Forall2_fmap_r. eapply Forall2_impl; [exact H|].
  intros f [n v] [Hn (dec & Hin & Hdec)]. simpl in *. subst n.
  rewrite (assoc_lookup_in _ _ _ Hnd Hin), Hdec. done.
Qed.

Lemma construct_all cls fs fields :
  NoDup fs.*1 → Forall2 (λ (f : field) (nv : string * value), nv.1 = f_name f) fields fs →
  construct cls fields fs = Ok (VData cls fs).
Proof.
  intros Hnd H. unfold construct.
  enough (traverse (λ f,
    match assoc_lookup (f_name f) fs, f_default f with
    | Some v, _ => Ok (f_name f, v)
    | None, Some v => Ok (f_name f, v)
    | None, None => Raise (TypeError ("missing required argument: " +:+ f_name f))
    end) fields = Ok fs) as -> by done.
  apply traverse_ok. apply Forall2_same_length_lookup_2; [by eapply Forall2_length|].
  intros i f [n v] Hf Hn. pose proof (Forall2_lookup_lr _ _ _ _ _ _ H Hf Hn) as Heq.
  simpl in Heq. subst n.
  rewrite (assoc_lookup_in _ v _ Hnd); [done|]. by eapply list_elem_of_lookup_2.
Qed.

Lemma decode_dataclass_encoded c c' fs fields kvs :
  registry c = Some fields → NoDup (TYPE_TAG :: fs.*1) → kvs.*1 = fs.*1 →
  Forall2 (λ (kn : string * native) f, kn.1 = f_name f) kvs fields →
  Forall2 (λ (kn : string * native) (fv : field * (string * value)),
    decode kn.2 (f_hint fv.1) = Ok fv.2.2) kvs (zip fields fs) →
  length fs = length fields →
  _decode_dataclass c' ((TYPE_TAG, NStr c) :: kvs)
    ((λ kv, (kv.1, decode kv.2)) <$> ((TYPE_TAG, NStr c) :: kvs)) = Ok (VData c fs).
Proof.
  intros Hreg Hnd Hks Hkf Hdec Hlen. unfold _decode_dataclass.
  rewrite assoc_lookup_head. rewrite Hreg. cbv zeta. rewrite Hreg.
  assert (Hfs : Forall2 (λ (f : field) (nv : string * value), nv.1 = f_name f) fields fs).
  { apply Forall2_same_length_lookup_2; [done|]. intros i f nv Hf Hnv.
    destruct (Forall2_lookup_r _ _ _ _ _ Hkf Hf) as (kn & Hkn & Hk). rewrite <- Hk.
    assert (kvs.*1 !! i = fs.*1 !! i) as Hi by by rewrite Hks.
    rewrite !list_lookup_fmap, Hkn, Hnv in Hi. simpl in Hi. congruence. }
  rewrite (decode_fields _ fs fields).
  - simpl. replace (concat _) with fs; [by apply construct_all; [apply NoDup_cons in Hnd as []|]|].
    clear. induction fs as [|? ? IH]; [done|]. csimpl. by rewrite <- IH.
  - rewrite <- list_fmap_compose. csimpl. rewrite <- Hks in Hnd. exact Hnd.
  - apply Forall2_same_length_lookup_2; [done|]. intros i f nv Hf Hnv.
    split; [by apply (Forall2_lookup_lr _ _ _ _ _ _ Hfs Hf Hnv)|].
    destruct (Forall2_lookup_r _ _ _ _ _ Hkf Hf) as ([k n] & Hkn & Hk). simpl in Hk. subst k.
    exists (decode n). split.
    + apply list_elem_of_fmap. exists (f_name f, n). split; [done|]. right.
      by eapply list_elem_of_lookup_2.
    + apply (Forall2_lookup_lr _ _ _ i (f_name f, n) (f, nv) Hdec Hkn).
      apply lookup_zip_Some. done.
Qed.

Lemma encode_data c fs kvs :
  NoDup (TYPE_TAG :: fs.*1) → kvs.*1 = fs.*1 →
  traverse (λ '(name, v), n ← encode v; Ok (name, n)) fs = Ok kvs →
  encode (VData c fs) = Ok (NDict ((TYPE_TAG, NStr c) :: kvs)).
Proof.
  intros Hnd Hks He. simpl. rewrite He. csimpl.
  rewrite fold_insert_fresh; [done|]. csimpl. by rewrite Hks.
Qed.

Lemma typed_unwrap v h : typed v h = typed v (_unwrap h).
Proof. destruct v; simpl; by rewrite ?_unwrap_idem. Qed.

Lemma round_trips_data c fs :
  Forall (λ nv, round_trips nv.2) fs → round_trips (VData c fs).
Proof.
  intros Hfs h Hty. rewrite typed_unwrap in Hty. setoid_rewrite decode_unwrap.
  assert (∃ c' fields, registry c = Some fields ∧ (if registry c' then true else false) = true ∧
    typed (VData c fs) (HClass c') = true ∧ (_unwrap h = HAny ∧ c' = c ∨ _unwrap h = HClass c'))
    as (c' & fields & Hreg & Hreg' & Hty' & Hh).
  { cbn [typed] in Hty. rewrite _unwrap_idem in Hty.
    destruct (_unwrap h); try done.
    - destruct (registry c) as [fields|] eqn:Hc; [|done]. exists c, fields.
      rewrite Hc. repeat split; auto. simpl. by rewrite Hc.
    - destruct (registry cls) eqn:Hc'; [|done].
      destruct (registry c) as [fields|] eqn:Hc; [|done]. exists cls, fields.
      rewrite Hc'. repeat split; auto. simpl. by rewrite Hc', Hc. }
  destruct (typed_fields_zip _ _ _ _ Hreg Hreg' Hty') as [Hnd Hz].
  destruct (round_trips_fields _ _ Hfs Hz) as (kvs & He & Hks & Hkf & Hdec).
  eexists. split; [by eapply encode_data|].
  assert (Hd : _decode_dataclass c' ((TYPE_TAG, NStr c) :: kvs)
    ((λ kv, (kv.1, decode kv.2)) <$> ((TYPE_TAG, NStr c) :: kvs)) = Ok (VData c fs)).
  { eapply decode_dataclass_encoded; eauto. by eapply Forall2_length. }
  destruct Hh as [[-> ->]| ->]; cbn [decode _unwrap].
  - by rewrite assoc_lookup_head.
  - by destruct (registry c').
Qed.

Lemma round_trips_vdict its :
  Forall (λ kv, round_trips kv.2) its → round_trips (VDict its).
Proof.
  intros Hits h Hty. rewrite typed_unwrap in Hty. setoid_rewrite decode_unwrap.
  assert (∃ i, (_unwrap h = HAny ∧ i = HAny ∧ existsb (λ kv, String.eqb (key_str kv.1) TYPE_TAG) its = false
      ∨ _unwrap h = HDict i) ∧ NoDup ((λ kv, key_str kv.1) <$> its) ∧
    forallb (λ kv, (if str_key kv.1 then true else false) && typed kv.2 i) its = true)
    as (i & Hh & Hnd & Hall).
  { cbn [typed] in Hty. rewrite _unwrap_idem in Hty.
    destruct (_unwrap h) as [| | | | | | | | |i| | | |]; try done.
    - destruct (existsb _ its) eqn:Hex; [done|]. apply andb_true_iff in Hty as [Hn Ht].
      apply bool_decide_eq_true in Hn. exists HAny. auto.
    - apply andb_true_iff in Hty as [Hn Ht]. apply bool_decide_eq_true in Hn.
      exists i. auto. }
  destruct (round_trips_dict _ _ Hits Hall) as (kvs & He & Hks & Hd).
  exists (NDict kvs). split.
  - simpl. rewrite He. csimpl. f_equal. f_equal. apply (fold_insert_fresh kvs []).
    by rewrite app_nil_l, Hks.
  - destruct Hh as [(-> & -> & Hex)| ->]; cbn [decode _unwrap]; [|by rewrite Hd].
    enough (assoc_lookup TYPE_TAG kvs = None) as -> by by rewrite Hd.
    apply (lookup_None_keys (PyDict kvs)). unfold keys; simpl. rewrite Hks.
    intros (kv & Heq & Hin)%list_elem_of_fmap.
    enough (existsb (λ kv, String.eqb (key_str kv.1) TYPE_TAG) its = true) by congruence.
    apply existsb_exists. exists kv. rewrite <- Heq, String.eqb_refl. split; [|done].
    by apply list_elem_of_In.
Qed.

(** Every value that has an annotation is restored by decoding its encoding under it. *)
Lemma all_round_trip v : round_trips v.
Proof.
  induction v using value_nested_ind.
  8: by apply round_trips_data.
  8: by apply round_trips_vdict.
  all: intros h Hty; rewrite typed_unwrap in Hty; setoid_rewrite decode_unwrap;
    pose proof (_unwrap_idem h) as Hid; cbn [typed] in Hty; rewrite ?Hid in Hty; clear Hid.
  1: { exists NNone. by rewrite decode_NNone. }
  1-5: by eexists; split; [reflexivity|]; destruct (_unwrap h).
  - destruct (_unwrap h); try done. apply andb_true_iff in Hty as [->%String.eqb_eq Hm].
    exists (NStr m). split; [done|]. simpl. by destruct (assoc_lookup m _).
  - destruct (_unwrap h); try done;
      destruct (round_trips_items l _ H Hty) as (ns & He & Hd); exists (NList ns);
      cbn [encode decode _unwrap decode_sequence default]; rewrite He; csimpl; by rewrite Hd.
  - destruct (_unwrap h); try done.
    + destruct (round_trips_items l _ H Hty) as (ns & He & Hd). exists (NList ns).
      cbn [encode decode _unwrap decode_sequence]. rewrite He. csimpl. by rewrite Hd.
    + destruct (round_trips_zip l _ H Hty) as (ns & He & Hd). exists (NList ns).
      cbn [encode decode _unwrap decode_sequence]. rewrite He. csimpl. by rewrite Hd.
  - destruct (_unwrap h); try done. apply andb_true_iff in Hty as [[Hty Hh]%andb_true_iff Hnd%bool_decide_eq_true].
    destruct (round_trips_items l _ H Hty) as (ns & He & Hd). exists (NList ns).
    cbn [encode decode _unwrap decode_sequence]. rewrite He. csimpl. rewrite Hd. csimpl.
    by rewrite make_set_ok.
  - destruct (_unwrap h); try done. apply andb_true_iff in Hty as [[Hty Hh]%andb_true_iff Hnd%bool_decide_eq_true].
    destruct (round_trips_items l _ H Hty) as (ns & He & Hd). exists (NList ns).
    cbn [encode decode _unwrap decode_sequence]. rewrite He. csimpl. rewrite Hd. csimpl.
    by rewrite make_set_ok.
  - done.
Qed.
End decoder.
