(* ===== verification/CanonicalJson.v ===== *)
(** * Canonical JSON is canonical

    [canonical_json] prints with sorted keys.  Two encoded structures print the same
    text exactly when they are equal up to the order of object keys: the printer
    loses nothing, so digests of different requests differ unless SHA-256 itself
    collides.  (Bytes are excluded: [_json_default] prints them as an object that a
    dictionary can imitate.) *)

From Stdlib Require Import Ascii.
From stdpp Require Import pretty.
From S2P Require Import Prelude PyDict Sorting Sha256 Codec.

Open Scope string_scope.
Open Scope list_scope.
Open Scope Z_scope.

(** The normal form: every object sorted by key. *)
Fixpoint sort_keys (n : native) : native :=
  match n with
  | NList l => NList (sort_keys <$> l)
  | NDict its => NDict (sort_items ((λ kv, (kv.1, sort_keys kv.2)) <$> its))
  | _ => n
  end.

(** Characters of a [repr] of a finite number. *)
Definition numeric (c : Ascii.ascii) : bool :=
  let n := Ascii.nat_of_ascii c in
  ((48 <=? n)%nat && (n <=? 57)%nat) || (n =? 45)%nat || (n =? 46)%nat || (n =? 43)%nat || (n =? 101)%nat.
Definition fractional (c : Ascii.ascii) : bool :=
  let n := Ascii.nat_of_ascii c in (n =? 46)%nat || (n =? 101)%nat.

Fixpoint all_chars (p : Ascii.ascii → bool) (s : string) : bool :=
  match s with EmptyString => true | String c s' => p c && all_chars p s' end.

(** The shape of [repr(x)] of a finite float: a point or an exponent. *)
Definition float_repr (r : string) : bool :=
  all_chars numeric r && negb (all_chars (λ c, negb (fractional c)) r).

(** Finite floats, distinct keys, no bytes. *)
Fixpoint plain (n : native) : bool :=
  match n with
  | NFloat r => float_repr r
  | NBytes _ => false
  | NList l => forallb plain l
  | NDict its => nodup its.*1 && forallb (λ kv, plain kv.2) its
  | _ => true
  end.

(** The text of a structure in its own key order. *)
Fixpoint render (n : native) : string :=
  match n with
  | NNone => "null"
  | NBool b => if b then "true" else "false"
  | NInt z => pretty z
  | NFloat r => r
  | NStr s => json_string s
  | NBytes s => _json_default s
  | NList l => "[" +:+ join "," (render <$> l) +:+ "]"
  | NDict its =>
      "{" +:+ join "," ((λ kv, json_string kv.1 +:+ ":" +:+ render kv.2) <$> its) +:+ "}"
  end.

(** ** Sorting commutes with mapping the values *)

Lemma insert_by_fmap {A B} (g : A → B) (x : string * A) l :
  insert_by (on_key str_leb fst) (x.1, g x.2) ((λ kv, (kv.1, g kv.2)) <$> l) =
    (λ kv, (kv.1, g kv.2)) <$> insert_by (on_key str_leb fst) x l.
Proof.
  induction l as [|y l IH]; [done|]. csimpl. unfold on_key at 1 3. simpl.
  destruct (str_leb x.1 y.1); csimpl; [done|]. by rewrite IH.
Qed.
Lemma sort_items_fmap {A B} (g : A → B) (l : list (string * A)) :
  sort_items ((λ kv, (kv.1, g kv.2)) <$> l) = (λ kv, (kv.1, g kv.2)) <$> sort_items l.
Proof.
  unfold sort_items. induction l as [|x l IH]; [done|]. csimpl. rewrite IH.
  apply insert_by_fmap.
Qed.

Lemma numeric_finite r : float_repr r = true → non_finite r = false.
Proof.
  unfold float_repr, non_finite. intros [H _]%andb_true_iff.
  destruct (String.eqb_spec r "nan") as [->|]; [done|].
  destruct (String.eqb_spec r "inf") as [->|]; [done|].
  destruct (String.eqb_spec r "-inf") as [->|]; done.
Qed.

Lemma json_dumps_render n :
  plain n = true → json_dumps n = Ok (render (sort_keys n)).
Proof.
  induction n as [ | | | | | |l Hl|its Hits] using native_nested_ind; simpl; try done.
  - intros H. by rewrite numeric_finite.
  - intros Hp. assert (traverse json_dumps l = Ok (render <$> (sort_keys <$> l))) as ->; [|done].
    induction Hl as [|n l Hn _ IH]; [done|]. simpl in Hp. apply andb_true_iff in Hp as [Hpn Hpl].
    csimpl. rewrite Hn by done. csimpl. by rewrite IH.
  - intros [_ Hp]%andb_true_iff.
    assert (traverse (λ '(k, v), s ← json_dumps v; Ok (k, s)) its =
      Ok ((λ kv, (kv.1, render (sort_keys kv.2))) <$> its)) as ->.
    { induction Hits as [|[k n] l Hn _ IH]; [done|]. simpl in Hp. apply andb_true_iff in Hp as [Hpn Hpl].
      csimpl in *. rewrite Hn by done. csimpl. by rewrite IH. }
    csimpl. do 4 f_equal.
    rewrite (sort_items_fmap (λ v, render (sort_keys v))), (sort_items_fmap sort_keys).
    rewrite <- !list_fmap_compose. done.
Qed.

(** ** The printer is unambiguous *)

Lemma str_app_assoc (s t u : string) : (s +:+ t) +:+ u = s +:+ (t +:+ u).
Proof. induction s as [|c s IH]; [done|]. exact (f_equal (String c) IH). Qed.
Lemma str_app_cons c (s t : string) : String c s +:+ t = String c (s +:+ t).
Proof. done. Qed.

Lemma str_app_nil (s : string) : EmptyString +:+ s = s.
Proof. done. Qed.

Definition starts (p : Ascii.ascii → bool) (s : string) : bool :=
  match s with EmptyString => false | String c _ => p c end.

Lemma token_split p t1 t2 s1 s2 :
  all_chars p t1 = true → all_chars p t2 = true → starts p s1 = false → starts p s2 = false →
  t1 +:+ s1 = t2 +:+ s2 → t1 = t2 ∧ s1 = s2.
Proof.
  revert t2. induction t1 as [|c t1 IH]; intros [|d t2];
    rewrite ?str_app_cons, ?str_app_nil; simpl; [done|..].
  - intros _ [Hd _]%andb_true_iff Hs1 _ ->. simpl in Hs1. congruence.
  - intros [Hc _]%andb_true_iff _ _ Hs2 <-. simpl in Hs2. congruence.
  - intros [_ H1]%andb_true_iff [_ H2]%andb_true_iff Hs1 Hs2 [= -> Heq].
    by destruct (IH t2 H1 H2 Hs1 Hs2 Heq) as [-> ->].
Qed.

(** Reading back one escaped character. *)
Definition unescape_char (s : string) : option (Ascii.ascii * string) :=
  match s with
  | EmptyString => None
  | String c r =>
      if Ascii.eqb c (Ascii.ascii_of_nat 34) then None
      else if Ascii.eqb c (Ascii.ascii_of_nat 92) then
        match r with
        | String d r' =>
            if Ascii.eqb d "n"%char then Some (Ascii.ascii_of_nat 10, r')
            else if Ascii.eqb d "r"%char then Some (Ascii.ascii_of_nat 13, r')
            else if Ascii.eqb d "t"%char then Some (Ascii.ascii_of_nat 9, r')
            else if Ascii.eqb d "f"%char then Some (Ascii.ascii_of_nat 12, r')
            else if Ascii.eqb d "b"%char then Some (Ascii.ascii_of_nat 8, r')
            else if Ascii.eqb d "u"%char then
              match r' with
              | String _ (String _ (String h (String l r''))) =>
                  let v x := let n := Ascii.nat_of_ascii x in
                    if (n <? 58)%nat then (n - 48)%nat else (n - 87)%nat in
                  Some (Ascii.ascii_of_nat (v h * 16 + v l)%nat, r'')
              | _ => None
              end
            else Some (d, r')
        | EmptyString => None
        end
      else Some (c, r)
  end.

Lemma unescape_escape c r : unescape_char (escape_char c +:+ r) = Some (c, r).
Proof. destruct c as [[] [] [] [] [] [] [] []]; reflexivity. Qed.

Lemma escape_split k1 k2 s1 s2 :
  escape k1 +:+ quote +:+ s1 = escape k2 +:+ quote +:+ s2 → k1 = k2 ∧ s1 = s2.
Proof.
  revert k2. induction k1 as [|c k1 IH]; intros [|d k2]; cbn [escape].
  - rewrite !str_app_nil. by injection 1.
  - rewrite str_app_assoc. intros H. apply (f_equal unescape_char) in H.
    rewrite unescape_escape in H. discriminate H.
  - rewrite str_app_assoc. intros H. apply (f_equal unescape_char) in H.
    rewrite unescape_escape in H. discriminate H.
  - rewrite !str_app_assoc. intros H. apply (f_equal unescape_char) in H.
    rewrite !unescape_escape in H. injection H as -> H.
    destruct (IH k2 H) as [-> ->]. done.
Qed.

Lemma json_string_split k1 k2 s1 s2 :
  json_string k1 +:+ s1 = json_string k2 +:+ s2 → k1 = k2 ∧ s1 = s2.
Proof.
  unfold json_string. rewrite !str_app_assoc. intros H. apply escape_split.
  by injection H.
Qed.

(** What may follow a value: nothing, a comma or a closing bracket. *)
Definition ends_value (s : string) : bool :=
  match s with
  | EmptyString => true
  | String c _ => Ascii.eqb c ","%char || Ascii.eqb c "]"%char || Ascii.eqb c "}"%char
  end.
Definition value_start (c : Ascii.ascii) : bool :=
  negb (Ascii.eqb c ","%char || Ascii.eqb c "]"%char || Ascii.eqb c "}"%char).

(** Unambiguity of one printed item, and of a sequence of them. *)
Definition splits {A} (f : A → string) (x : A) (good : A → Prop) : Prop :=
  starts value_start (f x) = true ∧
  ∀ y s1 s2, good y → ends_value s1 = true → ends_value s2 = true →
    f x +:+ s1 = f y +:+ s2 → x = y ∧ s1 = s2.

Lemma starts_app p s t : starts p s = true → starts p (s +:+ t) = true.
Proof. by destruct s. Qed.

Lemma join_cons sep x l s :
  join sep (x :: l) +:+ s = x +:+ (match l with [] => s | _ => sep +:+ join sep l +:+ s end).
Proof. destruct l; simpl; by rewrite ?str_app_assoc. Qed.

Lemma join_split {A} (f : A → string) (good : A → Prop) (close : Ascii.ascii) l1 l2 s1 s2 :
  (close = "]"%char ∨ close = "}"%char) →
  (∀ x, good x → starts value_start (f x) = true) →
  Forall (λ x, splits f x good) l1 → Forall good l2 →
  join "," (f <$> l1) +:+ String close s1 = join "," (f <$> l2) +:+ String close s2 →
  l1 = l2 ∧ s1 = s2.
Proof.
  intros Hclose Hst H1. revert l2.
  induction H1 as [|x l1 [Hx Hsp] H1 IH]; intros [|y l2] H2;
    rewrite ?fmap_cons, ?fmap_nil.
  - by injection 1.
  - rewrite join_cons. intros H. exfalso. apply Forall_cons in H2 as [Hy _].
    specialize (Hst y Hy). apply (f_equal (starts value_start)) in H.
    rewrite (starts_app _ (f y)) in H by done. by destruct Hclose as [-> | ->].
  - rewrite join_cons. intros H. exfalso. apply (f_equal (starts value_start)) in H.
    rewrite (starts_app _ (f x)) in H by done. by destruct Hclose as [-> | ->].
  - apply Forall_cons in H2 as [Hy H2]. rewrite !join_cons. intros H.
    apply Hsp in H as [-> H]; [|done|by destruct l1; destruct Hclose as [-> | ->]
      |by destruct l2; destruct Hclose as [-> | ->]].
    destruct l1 as [|x1 l1], l2 as [|x2 l2]; rewrite ?fmap_cons, ?fmap_nil in H.
    + by injection H.
    + exfalso. by destruct Hclose as [-> | ->].
    + exfalso. by destruct Hclose as [-> | ->].
    + injection H as H. by destruct (IH (x2 :: l2) H2 H) as [-> ->].
Qed.

(** ** The printed form of each kind of structure *)

Definition integral (c : Ascii.ascii) : bool := numeric c && negb (fractional c).

Lemma digit_integral x : integral (pretty_N_char x) = true.
Proof. unfold pretty_N_char. by repeat case_match. Qed.

Lemma pretty_N_go_integral x s :
  all_chars integral s = true →
  all_chars integral (pretty_N_go x s) = true ∧
  (starts integral s = true ∨ (0 < x)%N → starts integral (pretty_N_go x s) = true).
Proof.
  revert s. induction (N.lt_wf_0 x) as [x _ IH]; intros s Hs.
  destruct (decide (x = 0%N)) as [->|Hx].
  { rewrite pretty_N_go_0. split; [done|]. intros [|]; [done|lia]. }
  rewrite pretty_N_go_step by lia.
  destruct (IH (x `div` 10)%N) with (s := String (pretty_N_char (x `mod` 10)) s) as [H1 H2].
  - apply N.div_lt; lia.
  - simpl. by rewrite digit_integral.
  - split; [done|]. intros _. apply H2. left. apply digit_integral.
Qed.

Lemma pretty_N_integral (n : N) :
  all_chars integral (pretty n) = true ∧ starts integral (pretty n) = true.
Proof.
  unfold pretty, pretty_N. case_decide; [done|].
  destruct (pretty_N_go_integral n EmptyString eq_refl) as [H1 H2].
  split; [done|]. apply H2. right. lia.
Qed.

Lemma pretty_Z_integral (z : Z) :
  all_chars integral (pretty z) = true ∧ starts integral (pretty z) = true.
Proof.
  destruct z as [|p|p]; [done|apply (pretty_N_integral (Npos p))|].
  change (pretty (Zneg p)) with (String "-"%char (pretty (Npos p))).
  simpl. by destruct (pretty_N_integral (Npos p)) as [-> _].
Qed.

Lemma all_chars_impl (p q : Ascii.ascii → bool) s :
  (∀ c, p c = true → q c = true) → all_chars p s = true → all_chars q s = true.
Proof.
  intros H. induction s as [|c s IH]; simpl; [done|].
  rewrite !andb_true_iff. intros [? ?]. auto.
Qed.
Lemma starts_impl (p q : Ascii.ascii → bool) s :
  (∀ c, p c = true → q c = true) → starts p s = true → starts q s = true.
Proof. intros H. destruct s; simpl; auto. Qed.
Lemma integral_numeric c : integral c = true → numeric c = true.
Proof. by intros [? _]%andb_true_iff. Qed.
Lemma integral_not_fractional c : integral c = true → negb (fractional c) = true.
Proof. by intros [_ ?]%andb_true_iff. Qed.

(** The number tokens, their classes and what follows them. *)
Definition number_token (n : native) : option string :=
  match n with NInt z => Some (pretty z) | NFloat r => Some r | _ => None end.

Lemma number_token_numeric n r :
  plain n = true → number_token n = Some r →
  render n = r ∧ all_chars numeric r = true ∧ starts numeric r = true.
Proof.
  destruct n as [| |z|r'| | | |]; simpl; try done.
  - intros _ [= <-]. destruct (pretty_Z_integral z). split; [done|].
    split; [apply (all_chars_impl integral)|apply (starts_impl integral)]; auto using integral_numeric.
  - intros [H1 H2]%andb_true_iff [= <-]. split; [done|]. split; [done|].
    destruct r' as [|c r']; [done|]. simpl in *. by apply andb_true_iff in H1 as [? _].
Qed.

Lemma number_token_inj n1 n2 r :
  plain n1 = true → plain n2 = true →
  number_token n1 = Some r → number_token n2 = Some r → n1 = n2.
Proof.
  assert (Hno : ∀ z : Z, float_repr (pretty z) = true → False).
  { intros z [_ H]%andb_true_iff. apply negb_true_iff in H.
    rewrite (all_chars_impl integral) in H; [done|apply integral_not_fractional|].
    apply pretty_Z_integral. }
  destruct n1 as [| |z1|r1| | | |], n2 as [| |z2|r2| | | |]; simpl; try done.
  - intros _ _ [= <-] [= Hz%(inj (pretty (A:=Z)))]. by rewrite Hz.
  - intros _ Hf [= <-] [= ->]. by destruct (Hno z1).
  - intros Hf _ [= ->] [= <-]. by destruct (Hno z2).
  - by intros _ _ [= <-] [= ->].
Qed.

(** The kind of a structure, read off the first character of its text. *)
Definition kind (n : native) : nat :=
  match n with
  | NNone => 0 | NBool _ => 1 | NInt _ | NFloat _ => 2 | NStr _ => 3
  | NList _ => 4 | NDict _ => 5 | NBytes _ => 6
  end%nat.
Definition char_kind (c : Ascii.ascii) : nat :=
  (if Ascii.eqb c "n"%char then 0
   else if Ascii.eqb c "t"%char || Ascii.eqb c "f"%char then 1
   else if numeric c then 2
   else if Ascii.eqb c (Ascii.ascii_of_nat 34) then 3
   else if Ascii.eqb c "["%char then 4
   else 5)%nat.

Lemma numeric_kind c : numeric c = true → char_kind c = 2%nat ∧ value_start c = true.
Proof. destruct c as [[] [] [] [] [] [] [] []]; by vm_compute. Qed.

Lemma render_head n :
  plain n = true →
  ∃ c r, render n = String c r ∧ char_kind c = kind n ∧ value_start c = true.
Proof.
  intros Hp. destruct (number_token n) as [r|] eqn:Ht.
  - destruct (number_token_numeric n r Hp Ht) as (-> & _ & Hs).
    destruct r as [|c r]; [done|]. exists c, r. apply numeric_kind in Hs as [-> ?].
    split; [done|]. by destruct n.
  - destruct n as [|[]| | | | | |]; try done; by eexists _, _.
Qed.

Lemma render_value_start n : plain n = true → starts value_start (render n) = true.
Proof. intros (c & r & -> & _ & ?)%render_head. done. Qed.

Lemma same_kind n1 n2 s1 s2 :
  plain n1 = true → plain n2 = true → render n1 +:+ s1 = render n2 +:+ s2 → kind n1 = kind n2.
Proof.
  intros (c1 & r1 & -> & <- & _)%render_head (c2 & r2 & -> & <- & _)%render_head.
  by injection 1 as ->.
Qed.

Lemma ends_value_not_numeric s : ends_value s = true → starts numeric s = false.
Proof.
  destruct s as [|c s]; [done|]. simpl.
  destruct c as [[] [] [] [] [] [] [] []]; by vm_compute.
Qed.

Lemma number_split n1 n2 r1 s1 s2 :
  number_token n1 = Some r1 → is_Some (number_token n2) →
  plain n1 = true → plain n2 = true → ends_value s1 = true → ends_value s2 = true →
  render n1 +:+ s1 = render n2 +:+ s2 → n1 = n2 ∧ s1 = s2.
Proof.
  intros Ht1 [r2 Ht2] Hp1 Hp2 Hs1 Hs2.
  destruct (number_token_numeric n1 r1) as (-> & H1 & _); [done..|].
  destruct (number_token_numeric n2 r2) as (-> & H2 & _); [done..|].
  intros [<- ->]%(token_split numeric); auto using ends_value_not_numeric.
  split; [|done]. by eapply number_token_inj.
Qed.

(** One printed value determines the value and the rest of the text. *)
Lemma render_split n1 n2 s1 s2 :
  plain n1 = true → plain n2 = true → ends_value s1 = true → ends_value s2 = true →
  render n1 +:+ s1 = render n2 +:+ s2 → n1 = n2 ∧ s1 = s2.
Proof.
  revert n2 s1 s2. induction n1 as [ |b|z|r|s|s|l Hl|its Hits] using native_nested_ind;
    intros n2 s1 s2 Hp1 Hp2 Hs1 Hs2 Heq; pose proof (same_kind _ _ _ _ Hp1 Hp2 Heq) as Hk.
  1: { destruct n2; try done. by injection Heq. }
  1: { destruct n2 as [|b'| | | | | |]; try done. destruct b, b'; by injection Heq. }
  1-2: by eapply number_split; eauto; destruct n2.
  - destruct n2 as [| | | |s'| | |]; try done. simpl in Heq.
    by destruct (json_string_split _ _ _ _ Heq) as [-> ->].
  - done.
  - destruct n2 as [| | | | | |l'|]; try done. simpl in Hp1, Hp2, Heq.
    rewrite !str_app_assoc in Heq. injection Heq as Heq.
    rewrite forallb_forall in Hp1, Hp2. setoid_rewrite <- list_elem_of_In in Hp1.
    setoid_rewrite <- list_elem_of_In in Hp2.
    edestruct (join_split render (λ n, plain n = true) "]"%char l l') as [-> ->];
      [by left|apply render_value_start| | |exact Heq|done].
    + rewrite Forall_forall in *. intros n Hn. specialize (Hp1 n Hn).
      split; [by apply render_value_start|]. intros m t1 t2 Hm. by apply Hl.
    + rewrite Forall_forall. intros n Hn. by apply Hp2.
  - destruct n2 as [| | | | | | |its']; try done. simpl in Hp1, Hp2, Heq.
    apply andb_true_iff in Hp1 as [_ Hp1], Hp2 as [_ Hp2].
    rewrite !str_app_assoc in Heq. injection Heq as Heq.
    edestruct (join_split (λ kv : string * native, json_string kv.1 +:+ ":" +:+ render kv.2)
      (λ kv, plain kv.2 = true) "}"%char its its') as [-> ->];
      [by right|done| | |exact Heq|done].
    + rewrite forallb_forall in Hp1. rewrite Forall_forall in *. intros [k n] Hn. split; [done|].
      intros [k' m] t1 t2 Hm He1 He2 H. cbn [fst snd] in H.
      rewrite !str_app_assoc in H. apply json_string_split in H as [-> H]. injection H as H.
      rewrite !str_app_nil in H.
      destruct (Hits (k', n) Hn m t1 t2) as [Hnm ->]; [|done..|by simpl in Hnm; rewrite Hnm].
      apply (Hp1 (k', n)). by apply list_elem_of_In.
    + rewrite forallb_forall in Hp2. rewrite Forall_forall. intros kv Hkv.
      by apply Hp2, list_elem_of_In.
Qed.

Lemma plain_sort_keys n : plain n = true → plain (sort_keys n) = true.
Proof.
  induction n as [ | | | | | |l Hl|its Hits] using native_nested_ind; simpl; try done.
  - rewrite !forallb_forall. setoid_rewrite <- list_elem_of_In. intros Hp n.
    rewrite Forall_forall in Hl. intros (m & -> & Hm)%list_elem_of_fmap. auto.
  - rewrite !andb_true_iff, !forallb_forall. setoid_rewrite <- list_elem_of_In.
    unfold nodup. rewrite !bool_decide_eq_true. intros [Hnd Hp]. split.
    + unfold sort_items. rewrite sort_by_perm, <- list_fmap_compose. exact Hnd.
    + unfold sort_items. intros kv. rewrite elem_of_sort_by.
      intros ([k n] & -> & Hn)%list_elem_of_fmap. simpl. rewrite Forall_forall in Hits.
      apply (Hits (k, n) Hn), (Hp (k, n) Hn).
Qed.

(** Two structures have the same canonical text exactly when they differ only in
    the order of their keys. *)
Lemma json_dumps_eq_iff n1 n2 :
  plain n1 = true → plain n2 = true →
  (json_dumps n1 = json_dumps n2 ↔ sort_keys n1 = sort_keys n2).
Proof.
  intros H1 H2. rewrite !json_dumps_render by done. split; [|by intros ->].
  intros [= Heq]. apply (f_equal (λ s, s +:+ EmptyString)) in Heq.
  by apply render_split in Heq as [? _]; auto using plain_sort_keys.
Qed.

(** Reordering the items of an object does not change its normal form. *)
Lemma sort_keys_perm its1 its2 :
  NoDup its1.*1 → its1 ≡ₚ its2 → sort_keys (NDict its1) = sort_keys (NDict its2).
Proof.
  intros Hnd Hp. simpl. f_equal. apply sort_by_unique; [apply _| |by rewrite Hp].
  unfold on_key. intros [k1 v1] [k2 v2] H1 H2 Ha Hb. simpl in *.
  pose proof (str_leb_antisymm _ _ Ha Hb) as ->. f_equal.
  assert (Hnd' : NoDup ((λ kv, (kv.1, sort_keys kv.2)) <$> its1).*1).
  { rewrite <- list_fmap_compose. exact Hnd. }
  pose proof (items_lookup (PyDict _) _ _ Hnd' H1) as E1.
  pose proof (items_lookup (PyDict _) _ _ Hnd' H2) as E2. congruence.
Qed.

(** The digest is the hash of the domain prefix and the sorted text. *)
Lemma digest_render v n prefix :
  encode v = Ok n → plain n = true → str_true prefix = true →
  digest v prefix = Ok (sha256_hex (prefix +:+ char 0 +:+ render (sort_keys n))).
Proof.
  intros He Hp Hs. unfold digest, canonical_json. rewrite He. simpl.
  rewrite json_dumps_render by done. simpl. by rewrite Hs.
Qed.
