(* ===== verification/Api.v ===== *)
(** * Protocol enums, identifiers, errors and results

    [rollout_runtime/api/enums.py], [errors.py], [result.py], [ids.py] and the routing
    token of [internal.py].  Times are integer ticks (a fixed unit in which every
    timestamp and duration of a run is a whole number); only float rounding is not
    represented.  [SessionId], [RequestId] and [BindingToken] are strings. *)

From Stdlib Require Import Ascii.
From stdpp Require Import pretty.
From S2P Require Import Prelude PyDict Codec CanonicalJson.

Open Scope string_scope.
Open Scope list_scope.
Open Scope Z_scope.

Notation time := Z (only parsing).
Notation SessionId := string (only parsing).
Notation RequestId := string (only parsing).
Notation BindingToken := string (only parsing).

(** ** [enums.py] *)

Module SessionState.
Inductive t := CREATING | READY | CLOSING | CLOSED | FAILED | LOST.
#[global] Instance eq_dec : EqDecision t.
Proof. solve_decision. Defined.
Definition name (s : t) : string :=
  match s with
  | CREATING => "CREATING" | READY => "READY" | CLOSING => "CLOSING"
  | CLOSED => "CLOSED" | FAILED => "FAILED" | LOST => "LOST"
  end.
Definition members : list t := [CREATING; READY; CLOSING; CLOSED; FAILED; LOST].
End SessionState.

Module OperationState.
Inductive t := ACCEPTED | QUEUED | RUNNING | SUCCEEDED | FAILED | CANCELLED | OUTCOME_UNKNOWN.
#[global] Instance eq_dec : EqDecision t.
Proof. solve_decision. Defined.
Definition name (s : t) : string :=
  match s with
  | ACCEPTED => "ACCEPTED" | QUEUED => "QUEUED" | RUNNING => "RUNNING"
  | SUCCEEDED => "SUCCEEDED" | FAILED => "FAILED" | CANCELLED => "CANCELLED"
  | OUTCOME_UNKNOWN => "OUTCOME_UNKNOWN"
  end.
Definition members : list t :=
  [ACCEPTED; QUEUED; RUNNING; SUCCEEDED; FAILED; CANCELLED; OUTCOME_UNKNOWN].
End OperationState.

Module EnvOperation.
Inductive t :=
  | RESET | OBSERVE | ACTION_STEP | POLICY_STEP | POLICY_INFER | RUN_EPISODE | EXTENSION_CALL
  | CREATE_BINDING | RELEASE_BINDING | RENEW_LEASE | CANCEL | HEARTBEAT.
#[global] Instance eq_dec : EqDecision t.
Proof. solve_decision. Defined.
Definition name (o : t) : string :=
  match o with
  | RESET => "RESET" | OBSERVE => "OBSERVE" | ACTION_STEP => "ACTION_STEP"
  | POLICY_STEP => "POLICY_STEP" | POLICY_INFER => "POLICY_INFER"
  | RUN_EPISODE => "RUN_EPISODE" | EXTENSION_CALL => "EXTENSION_CALL"
  | CREATE_BINDING => "CREATE_BINDING" | RELEASE_BINDING => "RELEASE_BINDING"
  | RENEW_LEASE => "RENEW_LEASE" | CANCEL => "CANCEL" | HEARTBEAT => "HEARTBEAT"
  end.
Definition members : list t :=
  [RESET; OBSERVE; ACTION_STEP; POLICY_STEP; POLICY_INFER; RUN_EPISODE; EXTENSION_CALL;
   CREATE_BINDING; RELEASE_BINDING; RENEW_LEASE; CANCEL; HEARTBEAT].
End EnvOperation.

Module Priority.
Inductive t := INTERACTIVE | BATCH | BACKGROUND.
#[global] Instance eq_dec : EqDecision t.
Proof. solve_decision. Defined.
(** The member's value, smaller first. *)
Definition sort_key (p : t) : Z :=
  match p with INTERACTIVE => 0 | BATCH => 1 | BACKGROUND => 2 end.
Definition name (p : t) : string :=
  match p with INTERACTIVE => "INTERACTIVE" | BATCH => "BATCH" | BACKGROUND => "BACKGROUND" end.
Definition members : list t := [INTERACTIVE; BATCH; BACKGROUND].
End Priority.

Module ErrorCode.
Inductive t :=
  | UNKNOWN_SESSION | SESSION_NOT_READY | EPISODE_TERMINATED | STALE_BINDING
  | IDEMPOTENCY_CONFLICT | INVALID_ARGUMENT | UNSUPPORTED_EXTENSION | UNSUPPORTED_ENV_SPEC
  | QUEUE_FULL | QUOTA_EXCEEDED | RESOURCE_EXHAUSTED | DEADLINE_EXCEEDED | CANCELLED
  | WORKER_LOST | ENV_FAILURE | POLICY_FAILURE | INTERNAL.
#[global] Instance eq_dec : EqDecision t.
Proof. solve_decision. Defined.
Definition name (c : t) : string :=
  match c with
  | UNKNOWN_SESSION => "UNKNOWN_SESSION" | SESSION_NOT_READY => "SESSION_NOT_READY"
  | EPISODE_TERMINATED => "EPISODE_TERMINATED" | STALE_BINDING => "STALE_BINDING"
  | IDEMPOTENCY_CONFLICT => "IDEMPOTENCY_CONFLICT" | INVALID_ARGUMENT => "INVALID_ARGUMENT"
  | UNSUPPORTED_EXTENSION => "UNSUPPORTED_EXTENSION"
  | UNSUPPORTED_ENV_SPEC => "UNSUPPORTED_ENV_SPEC" | QUEUE_FULL => "QUEUE_FULL"
  | QUOTA_EXCEEDED => "QUOTA_EXCEEDED" | RESOURCE_EXHAUSTED => "RESOURCE_EXHAUSTED"
  | DEADLINE_EXCEEDED => "DEADLINE_EXCEEDED" | CANCELLED => "CANCELLED"
  | WORKER_LOST => "WORKER_LOST" | ENV_FAILURE => "ENV_FAILURE"
  | POLICY_FAILURE => "POLICY_FAILURE" | INTERNAL => "INTERNAL"
  end.
Definition members : list t :=
  [UNKNOWN_SESSION; SESSION_NOT_READY; EPISODE_TERMINATED; STALE_BINDING;
   IDEMPOTENCY_CONFLICT; INVALID_ARGUMENT; UNSUPPORTED_EXTENSION; UNSUPPORTED_ENV_SPEC;
   QUEUE_FULL; QUOTA_EXCEEDED; RESOURCE_EXHAUSTED; DEADLINE_EXCEEDED; CANCELLED;
   WORKER_LOST; ENV_FAILURE; POLICY_FAILURE; INTERNAL].
End ErrorCode.

Definition MUTATING_OPERATIONS : list EnvOperation.t :=
  [EnvOperation.RESET; EnvOperation.ACTION_STEP; EnvOperation.POLICY_STEP;
   EnvOperation.RUN_EPISODE].
Definition CONTROL_PLANE_OPERATIONS : list EnvOperation.t :=
  [EnvOperation.CREATE_BINDING; EnvOperation.RELEASE_BINDING; EnvOperation.RENEW_LEASE;
   EnvOperation.CANCEL; EnvOperation.HEARTBEAT].
Definition TERMINAL_SESSION_STATES : list SessionState.t := [SessionState.CLOSED].
Definition TERMINAL_OPERATION_STATES : list OperationState.t :=
  [OperationState.SUCCEEDED; OperationState.FAILED; OperationState.CANCELLED;
   OperationState.OUTCOME_UNKNOWN].

(** ** [errors.py] *)

Definition RETRYABLE_ERROR_CODES : list ErrorCode.t :=
  [ErrorCode.QUEUE_FULL; ErrorCode.QUOTA_EXCEEDED; ErrorCode.RESOURCE_EXHAUSTED;
   ErrorCode.DEADLINE_EXCEEDED].

Record RuntimeErrorInfo := {
  code : ErrorCode.t;
  message : string;
  retryable : bool;
  err_side_effect_applied : bool;
  detail : list (string * value);
}.

#[export] Instance RuntimeErrorInfo_eq_dec : EqDecision RuntimeErrorInfo.
Proof. solve_decision. Defined.

Definition make_error (c : ErrorCode.t) (msg : string) (retry : option bool)
    (side_effect : bool) (details : list (string * value)) : RuntimeErrorInfo := {|
  code := c;
  message := msg;
  retryable := match retry with None => member c RETRYABLE_ERROR_CODES | Some b => b end;
  err_side_effect_applied := side_effect;
  detail := details;
|}.

(** [make_error(code, message, **detail)] *)
Definition error_of (c : ErrorCode.t) (msg : string) (details : list (string * value)) :
    RuntimeErrorInfo := make_error c msg None false details.

(** [InvalidTransition(entity, from_state, to_state).info] *)
Definition InvalidTransition (entity from_name to_name : string) : RuntimeErrorInfo :=
  error_of ErrorCode.SESSION_NOT_READY
    ("illegal transition " +:+ from_name +:+ " -> " +:+ to_name +:+ " for " +:+ entity)
    [("entity", VStr entity); ("from_state", VStr from_name); ("to_state", VStr to_name)].

Definition lower_char (c : Ascii.ascii) : Ascii.ascii :=
  let n := Ascii.nat_of_ascii c in
  if ((65 <=? n)%nat && (n <=? 90)%nat) then Ascii.ascii_of_nat (n + 32) else c.
Fixpoint lower (s : string) : string :=
  match s with EmptyString => EmptyString | String c s' => String (lower_char c) (lower s') end.

(** [str(detail.get(key, "")).lower()]; a value that is not a string never prints as
    one of the words tested below. *)
Definition detail_word (info : RuntimeErrorInfo) (key : string) : string :=
  match assoc_lookup key (detail info) with Some (VStr s) => lower s | _ => EmptyString end.

Definition is_resource_exhausted (info : RuntimeErrorInfo) : bool :=
  bool_decide (code info = ErrorCode.RESOURCE_EXHAUSTED)
  || member (detail_word info "reason") ["oom"; "out_of_memory"; "resource_exhausted"]
  || member (detail_word info "resource") ["gpu_memory"; "cuda_memory"; "memory"].

(** An exception as the normaliser sees it: its class, the names of the classes it is an
    instance of, its text, its formatted traceback, and the payload of a
    [RuntimeApiError]. *)
Record exception := {
  exc_class : string;
  exc_bases : list string;
  exc_str : string;
  exc_traceback : string;
  exc_info : option RuntimeErrorInfo;
}.

Definition isinstance (exc : exception) (classes : list string) : bool :=
  existsb (λ c, member c (exc_bases exc)) classes.

(** [text[-limit:]] *)
Fixpoint str_drop (n : nat) (s : string) : string :=
  match n, s with
  | S n', String _ s' => str_drop n' s'
  | _, _ => s
  end.
Definition str_last (limit : nat) (s : string) : string :=
  str_drop (String.length s - limit) s.

Definition _TRACEBACK_LIMIT_CHARS : nat := 2000.

Definition normalize_exception (exc : exception) (default_code : ErrorCode.t)
    (side_effect include_traceback : bool) : RuntimeErrorInfo :=
  match exc_info exc with
  | Some info =>
      if side_effect && negb (err_side_effect_applied info)
      then {| code := code info; message := message info; retryable := retryable info;
              err_side_effect_applied := true; detail := detail info |}
      else info
  | None =>
      let c :=
        if isinstance exc ["CancelledError"] then ErrorCode.CANCELLED
        else if isinstance exc ["TimeoutError"] then ErrorCode.DEADLINE_EXCEEDED
        else if isinstance exc ["TypeError"; "ValueError"; "KeyError"]
          then ErrorCode.INVALID_ARGUMENT
        else if isinstance exc ["NotImplementedError"] then ErrorCode.UNSUPPORTED_EXTENSION
        else default_code in
      {| code := c;
         message := str_or (exc_str exc) (exc_class exc);
         retryable := member c RETRYABLE_ERROR_CODES;
         err_side_effect_applied := side_effect;
         detail := ("exception", VStr (exc_class exc)) ::
           (if include_traceback
            then [("traceback", VStr (str_last _TRACEBACK_LIMIT_CHARS (exc_traceback exc)))]
            else []) |}
  end.

(** ** [result.py] *)

Inductive Result (A : Type) := ROk (v : A) | RErr (error : RuntimeErrorInfo).
Arguments ROk {A} v.
Arguments RErr {A} error.

Definition unwrap {A} (r : Result A) : outcome RuntimeErrorInfo A :=
  match r with RErr error => Raise error | ROk v => Ok v end.

(** ** [internal.py]: the routing token *)

Definition make_routing_token (group_name : string) (worker_rank : Z) : string :=
  group_name +:+ ":" +:+ pretty worker_rank.

(** [token.rpartition(":")]: the parts around the last separator; [None] when it does
    not occur. *)
Fixpoint rpartition (sep : Ascii.ascii) (s : string) : option (string * string) :=
  match s with
  | EmptyString => None
  | String c s' =>
      match rpartition sep s' with
      | Some (l, r) => Some (String c l, r)
      | None => if Ascii.eqb c sep then Some (EmptyString, s') else None
      end
  end.

Definition is_digit (c : Ascii.ascii) : bool :=
  let n := Ascii.nat_of_ascii c in (48 <=? n)%nat && (n <=? 57)%nat.
Fixpoint all_digits (s : string) : bool :=
  match s with EmptyString => true | String c s' => is_digit c && all_digits s' end.
(** [text.isdigit()], for ASCII text *)
Definition isdigit (s : string) : bool := str_true s && all_digits s.
Fixpoint int_go (acc : Z) (s : string) : Z :=
  match s with
  | EmptyString => acc
  | String c s' => int_go (acc * 10 + (Z.of_nat (Ascii.nat_of_ascii c) - 48)) s'
  end.
(** [int(text)] of a digit string *)
Definition int_of_digits (s : string) : Z := int_go 0 s.

Definition parse_routing_token (token : string) : outcome py_error (string * Z) :=
  let parts := default (EmptyString, token) (rpartition ":"%char token) in
  if negb (str_true parts.1) || negb (isdigit parts.2)
  then Raise (ValueError ("malformed routing token: " +:+ token))
  else Ok (parts.1, int_of_digits parts.2).

(** What a component raises: a [RuntimeApiError] with its payload, or an exception of
    the layers below. *)
Inductive exn := RuntimeApiError (info : RuntimeErrorInfo) | PyExc (e : py_error).

(** Run stateless fallible code inside a stateful component. *)
Definition lift_py {S A} (o : outcome py_error A) : prog S exn A := λ s,
  (s, match o with Ok a => Ok a | Raise e => Raise (PyExc e) end).

(** [VStr] or [VNone] *)
Definition opt_str (o : option string) : value := from_option VStr VNone o.

(** Python truthiness of a protocol value. *)
Definition truthy (v : value) : bool :=
  match v with
  | VNone => false
  | VBool b => b
  | VInt z => negb (z =? 0)
  | VFloat r => negb (String.eqb r "0.0" || String.eqb r "-0.0")
  | VStr s | VBytes s => str_true s
  | VDict [] | VList [] | VTuple [] | VSet [] | VFrozenset [] => false
  | _ => true
  end.

(** [mapping.get(key)] with a string key. *)
Definition dict_get (key : string) (d : list (dict_key * value)) : value :=
  default VNone (assoc_lookup (KStr key) d).

(** ** The routing token reads back *)

(** Decimal text reads back. *)
Lemma int_go_pretty_N x s : int_go 0 (pretty_N_go x s) = int_go (Z.of_N x) s.
Proof.
  revert s. induction (N.lt_wf_0 x) as [x _ IH]; intros s.
  destruct (decide (x = 0%N)) as [->|Hx]; [by rewrite pretty_N_go_0|].
  rewrite pretty_N_go_step by lia. rewrite IH by (apply N.div_lt; lia). simpl. f_equal.
  assert (Hd : ∀ d, (d < 10)%N →
    Z.of_nat (nat_of_ascii (pretty_N_char d)) - 48 = Z.of_N d).
  { intros d Hd. assert (d = 0 ∨ d = 1 ∨ d = 2 ∨ d = 3 ∨ d = 4 ∨ d = 5 ∨ d = 6 ∨ d = 7
      ∨ d = 8 ∨ d = 9)%N as Hc by lia. by repeat destruct Hc as [->|Hc]; subst. }
  rewrite Hd by (apply N.mod_lt; lia).
  pose proof (N.div_mod x 10 ltac:(lia)). lia.
Qed.

Lemma all_digits_pretty_N (n : N) : isdigit (pretty n) = true ∧ int_of_digits (pretty n) = Z.of_N n.
Proof.
  unfold pretty, pretty_N. case_decide as Hn; [by subst|]. split.
  - unfold isdigit. apply andb_true_iff.
    assert (Hg : ∀ x s, all_digits s = true →
      all_digits (pretty_N_go x s) = true ∧ ((0 < x)%N ∨ s ≠ EmptyString → pretty_N_go x s ≠ EmptyString)).
    { intros x. induction (N.lt_wf_0 x) as [x _ IH]; intros s Hs.
      destruct (decide (x = 0%N)) as [->|Hx].
      { rewrite pretty_N_go_0. split; [done|]. intros [?|?]; [lia|done]. }
      rewrite pretty_N_go_step by lia.
      destruct (IH (x `div` 10)%N) with (s := String (pretty_N_char (x `mod` 10)) s) as [H1 H2].
      - apply N.div_lt; lia.
      - simpl. rewrite Hs, andb_true_r. unfold pretty_N_char. by repeat case_match.
      - split; [done|]. intros _. apply H2. by right. }
    destruct (Hg n EmptyString eq_refl) as [H1 H2]. split; [|done].
    apply str_true_spec, H2. left. lia.
  - unfold int_of_digits. rewrite int_go_pretty_N. done.
Qed.

Lemma rpartition_last sep l r :
  all_chars (λ c, negb (Ascii.eqb c sep)) r = true →
  rpartition sep (l +:+ String sep r) = Some (l, r).
Proof.
  intros Hr.
  assert (Hn : rpartition sep r = None).
  { induction r as [|c r IH]; simpl in *; [done|]. apply andb_true_iff in Hr as [Hc Hr].
    rewrite (IH Hr). by destruct (Ascii.eqb c sep). }
  induction l as [|c l IH].
  - rewrite str_app_nil. simpl. by rewrite Hn, Ascii.eqb_refl.
  - rewrite str_app_cons. simpl. by rewrite IH.
Qed.

Lemma pretty_Z_no_colon (z : Z) : all_chars (λ c, negb (Ascii.eqb c ":"%char)) (pretty z) = true.
Proof.
  apply (all_chars_impl integral); [|apply pretty_Z_integral].
  intros [[] [] [] [] [] [] [] []]; by vm_compute.
Qed.

(** The routing token of a rank reads back as the group name and the rank, also when
    the group name holds colons; an empty group or a negative rank is refused. *)
Theorem routing_token_round_trip (group_name : string) (rank : Z) :
  parse_routing_token (make_routing_token group_name rank) =
    if str_true group_name && (0 <=? rank) then Ok (group_name, rank)
    else Raise (ValueError ("malformed routing token: " +:+ make_routing_token group_name rank)).
Proof.
  unfold parse_routing_token.
  assert (rpartition ":"%char (make_routing_token group_name rank) =
    Some (group_name, pretty rank)) as ->.
  { apply (rpartition_last ":"%char), pretty_Z_no_colon. }
  simpl.
  destruct (str_true group_name); simpl; [|done].
  destruct rank as [|p|p]; simpl; [reflexivity| |reflexivity].
  destruct (all_digits_pretty_N (Npos p)) as [Hd Hi].
  change (pretty (Zpos p)) with (pretty (Npos p)). by rewrite Hd, Hi.
Qed.
