(* ===== verification/Messages.v ===== *)
(** * Protocol messages: [payload_ref.py], [errors.py], [result.py], [messages.py], [internal.py]

    The wire schema of every registered dataclass (field names, annotations and
    defaults, in declaration order), the registry they form, and the records the
    Gateway's components keep.  The codec's round trip holds for every value that
    has a registered annotation. *)

From Stdlib Require Import Ascii.
From stdpp Require Import pretty.
From S2P Require Import Prelude PyDict Sorting Sha256 Codec CanonicalJson Api.

Open Scope string_scope.
Open Scope list_scope.
Open Scope Z_scope.

(** ** The wire schemas *)

Definition InlineBytes_fields : list field :=
  [Field "codec" (HEnum "PayloadCodec") None;
   Field "shape" (HTuple HBuiltin) None;
   Field "dtype" HBuiltin None;
   Field "data" HBuiltin None].

Definition ObjectRefId_fields : list field :=
  [Field "id" HBuiltin None;
   Field "shape" (HTuple HBuiltin) None;
   Field "dtype" HBuiltin None;
   Field "meta" (HDict HAny) (Some (VDict []))].

Definition RuntimeErrorInfo_fields : list field :=
  [Field "code" (HEnum "ErrorCode") None;
   Field "message" HBuiltin (Some (VStr EmptyString));
   Field "retryable" HBuiltin (Some (VBool false));
   Field "side_effect_applied" HBuiltin (Some (VBool false));
   Field "detail" (HDict HAny) (Some (VDict []))].

Definition Ok_fields : list field :=
  [Field "value" HAny None].

Definition Err_fields : list field :=
  [Field "error" (HClass "RuntimeErrorInfo") None].

Definition EnvSpecMsg_fields : list field :=
  [Field "env_family" HBuiltin None;
   Field "env_config" (HDict HAny) (Some (VDict []));
   Field "pool_size" HBuiltin (Some (VInt 1));
   Field "max_dynamic_pool_size" (HOptional HBuiltin) (Some VNone);
   Field "resource_hints" (HDict HAny) (Some (VDict []))].

Definition EnvFamilyCapability_fields : list field :=
  [Field "env_family" HBuiltin None;
   Field "per_step_obs_available" HBuiltin (Some (VBool true));
   Field "supports_auto_reset" HBuiltin (Some (VBool false));
   Field "supports_reset_state_id" HBuiltin (Some (VBool false));
   Field "extensions" (HFrozenset HBuiltin) (Some (VFrozenset []));
   Field "needs_accelerator" HBuiltin (Some (VBool false));
   Field "core_forms" (HFrozenset HBuiltin) (Some (VFrozenset [VStr "per_slot"]));
   Field "supports_coalescing" HBuiltin (Some (VBool false))].

Definition CreateSessionRequest_fields : list field :=
  [Field "application_id" HBuiltin None;
   Field "client_session_key" HBuiltin None;
   Field "env_spec" (HClass "EnvSpecMsg") None;
   Field "default_policy_id" (HOptional HBuiltin) (Some VNone);
   Field "lease_seconds" HFloat (Some (VFloat "300.0"));
   Field "metadata" (HDict HAny) (Some (VDict []));
   Field "auth_token" (HOptional HBuiltin) (Some VNone)].

Definition SessionHandle_fields : list field :=
  [Field "session_id" (HNewType HBuiltin) None;
   Field "application_id" HBuiltin None;
   Field "env_spec_digest" HBuiltin None;
   Field "default_policy_id" (HOptional HBuiltin) None;
   Field "lease_expiration" HFloat None;
   Field "gateway_epoch" HBuiltin None].

Definition WorkerSummary_fields : list field :=
  [Field "worker_rank" HBuiltin None;
   Field "group_name" HBuiltin (Some (VStr EmptyString));
   Field "pool_key" HBuiltin (Some (VStr EmptyString));
   Field "slot_index" HBuiltin (Some (VInt (-1)));
   Field "step_index" HBuiltin (Some (VInt 0));
   Field "terminated" HBuiltin (Some (VBool false));
   Field "truncated" HBuiltin (Some (VBool false));
   Field "updated_at" HFloat (Some (VFloat "0.0"))].

Definition SessionStatus_fields : list field :=
  [Field "session_id" (HNewType HBuiltin) None;
   Field "state" (HEnum "SessionState") None;
   Field "lease_expiration" HFloat None;
   Field "episode_id" (HOptional (HNewType HBuiltin)) (Some VNone);
   Field "active_operation" (HOptional (HNewType HBuiltin)) (Some VNone);
   Field "next_operation_seq" (HNewType HBuiltin) (Some (VInt 1));
   Field "worker_summary" (HOptional (HClass "WorkerSummary")) (Some VNone);
   Field "error" (HOptional (HClass "RuntimeErrorInfo")) (Some VNone)].

Definition ResetSpec_fields : list field :=
  [Field "task_id" (HOptional HBuiltin) (Some VNone);
   Field "seed" (HOptional HBuiltin) (Some VNone);
   Field "instruction" (HOptional HBuiltin) (Some VNone);
   Field "reset_state_id" (HOptional HBuiltin) (Some VNone);
   Field "options" (HDict HAny) (Some (VDict []))].

Definition PolicyRequest_fields : list field :=
  [Field "policy_id" (HOptional HBuiltin) (Some VNone);
   Field "instruction_override" (HOptional HBuiltin) (Some VNone);
   Field "inference_parameters" (HDict HAny) (Some (VDict []));
   Field "actions_per_chunk" (HOptional HBuiltin) (Some VNone);
   Field "action_postprocess" (HDict HAny) (Some (VDict []))].

(** [PolicyRequest()] *)
Definition PolicyRequest_default : value :=
  VData "PolicyRequest" [("policy_id", VNone); ("instruction_override", VNone);
    ("inference_parameters", VDict []); ("actions_per_chunk", VNone); ("action_postprocess", VDict [])].

Definition EpisodeRequest_fields : list field :=
  [Field "max_steps" HBuiltin None;
   Field "policy" (HClass "PolicyRequest") (Some PolicyRequest_default);
   Field "deadline" (HOptional HFloat) (Some VNone);
   Field "sink_id" (HOptional HBuiltin) (Some VNone);
   Field "stop_on_truncation" HBuiltin (Some (VBool true))].

Definition Observation_fields : list field :=
  [Field "session_id" (HNewType HBuiltin) None;
   Field "episode_id" (HNewType HBuiltin) None;
   Field "step_index" HBuiltin None;
   Field "main_image" (HUnion [HClass "InlineBytes"; HClass "ObjectRefId"]) (Some VNone);
   Field "wrist_image" (HUnion [HClass "InlineBytes"; HClass "ObjectRefId"]) (Some VNone);
   Field "extra_view_images" (HList (HUnion [HClass "InlineBytes"; HClass "ObjectRefId"])) (Some (VList []));
   Field "state" (HList HFloat) (Some (VList []));
   Field "instruction" HBuiltin (Some (VStr EmptyString));
   Field "extras" (HDict HAny) (Some (VDict []))].

Definition PerStepRecord_fields : list field :=
  [Field "step_index" HBuiltin None;
   Field "reward" HFloat (Some (VFloat "0.0"));
   Field "terminated" HBuiltin (Some (VBool false));
   Field "truncated" HBuiltin (Some (VBool false));
   Field "observation" (HOptional (HClass "Observation")) (Some VNone);
   Field "info" (HDict HAny) (Some (VDict []))].

Definition StepResult_fields : list field :=
  [Field "request_id" (HNewType HBuiltin) None;
   Field "session_id" (HNewType HBuiltin) None;
   Field "binding_token" (HOptional (HNewType HBuiltin)) (Some VNone);
   Field "episode_id" (HOptional (HNewType HBuiltin)) (Some VNone);
   Field "operation_seq" (HOptional (HNewType HBuiltin)) (Some VNone);
   Field "observation" (HOptional (HClass "Observation")) (Some VNone);
   Field "reward" HFloat (Some (VFloat "0.0"));
   Field "terminated" HBuiltin (Some (VBool false));
   Field "truncated" HBuiltin (Some (VBool false));
   Field "info" (HDict HAny) (Some (VDict []));
   Field "side_effect_applied" HBuiltin (Some (VBool false));
   Field "executed_horizon" HBuiltin (Some (VInt 0));
   Field "per_step" (HOptional (HList (HClass "PerStepRecord"))) (Some VNone);
   Field "error" (HOptional (HClass "RuntimeErrorInfo")) (Some VNone)].

Definition PolicyInferResult_fields : list field :=
  [Field "request_id" (HNewType HBuiltin) None;
   Field "session_id" (HNewType HBuiltin) None;
   Field "binding_token" (HOptional (HNewType HBuiltin)) (Some VNone);
   Field "episode_id" (HOptional (HNewType HBuiltin)) (Some VNone);
   Field "actions" (HUnion [HClass "InlineBytes"; HClass "ObjectRefId"]) (Some VNone);
   Field "model_version" HBuiltin (Some (VStr EmptyString));
   Field "auxiliary_outputs" (HDict HAny) (Some (VDict []));
   Field "observation_step_index" HBuiltin (Some (VInt 0));
   Field "info" (HDict HAny) (Some (VDict []));
   Field "error" (HOptional (HClass "RuntimeErrorInfo")) (Some VNone)].

Definition EpisodeResult_fields : list field :=
  [Field "request_id" (HNewType HBuiltin) None;
   Field "session_id" (HNewType HBuiltin) None;
   Field "episode_id" (HOptional (HNewType HBuiltin)) (Some VNone);
   Field "num_policy_steps" HBuiltin (Some (VInt 0));
   Field "executed_horizon" HBuiltin (Some (VInt 0));
   Field "total_reward" HFloat (Some (VFloat "0.0"));
   Field "terminated" HBuiltin (Some (VBool false));
   Field "truncated" HBuiltin (Some (VBool false));
   Field "stop_reason" HBuiltin (Some (VStr EmptyString));
   Field "sink_id" (HOptional HBuiltin) (Some VNone);
   Field "last_observation" (HOptional (HClass "Observation")) (Some VNone);
   Field "info" (HDict HAny) (Some (VDict []));
   Field "error" (HOptional (HClass "RuntimeErrorInfo")) (Some VNone)].

Definition OperationStatus_fields : list field :=
  [Field "request_id" (HNewType HBuiltin) None;
   Field "session_id" (HOptional (HNewType HBuiltin)) None;
   Field "operation" (HEnum "EnvOperation") None;
   Field "state" (HEnum "OperationState") None;
   Field "created_at" HFloat (Some (VFloat "0.0"));
   Field "updated_at" HFloat (Some (VFloat "0.0"));
   Field "side_effect_applied" HBuiltin (Some (VBool false));
   Field "error" (HOptional (HClass "RuntimeErrorInfo")) (Some VNone)].

Definition CancelOutcome_fields : list field :=
  [Field "request_id" (HNewType HBuiltin) None;
   Field "state" (HEnum "OperationState") None;
   Field "side_effect_applied" HBuiltin (Some (VBool false));
   Field "message" HBuiltin (Some (VStr EmptyString))].

Definition EnvWorkerInfo_fields : list field :=
  [Field "worker_rank" HBuiltin None;
   Field "group_name" HBuiltin (Some (VStr EmptyString));
   Field "node_id" HBuiltin (Some (VStr EmptyString));
   Field "capabilities" (HDict (HClass "EnvFamilyCapability")) (Some (VDict []));
   Field "served_env_digests" (HList HBuiltin) (Some (VList []));
   Field "max_sessions" HBuiltin (Some (VInt 1));
   Field "active_sessions" HBuiltin (Some (VInt 0));
   Field "has_accelerator" HBuiltin (Some (VBool false));
   Field "heartbeat_at" HFloat (Some (VFloat "0.0"))].

Definition CommandEnvelope_fields : list field :=
  [Field "request_id" (HNewType HBuiltin) None;
   Field "session_id" (HNewType HBuiltin) None;
   Field "binding_token" (HOptional (HNewType HBuiltin)) (Some VNone);
   Field "episode_id" (HOptional (HNewType HBuiltin)) (Some VNone);
   Field "operation_seq" (HOptional (HNewType HBuiltin)) (Some VNone);
   Field "operation" (HEnum "EnvOperation") None;
   Field "deadline" (HOptional HFloat) (Some VNone);
   Field "priority" (HEnum "Priority") (Some (VEnum "Priority" "INTERACTIVE"));
   Field "payload" (HDict HAny) (Some (VDict []));
   Field "trace_context" (HDict HAny) (Some (VDict []))].

Definition ControlEnvelope_fields : list field :=
  [Field "request_id" (HNewType HBuiltin) None;
   Field "operation" (HEnum "EnvOperation") None;
   Field "session_id" (HOptional (HNewType HBuiltin)) (Some VNone);
   Field "payload" (HDict HAny) (Some (VDict []));
   Field "deadline" (HOptional HFloat) (Some VNone);
   Field "trace_context" (HDict HAny) (Some (VDict []))].

Definition ResultEnvelope_fields : list field :=
  [Field "request_id" (HNewType HBuiltin) None;
   Field "session_id" (HOptional (HNewType HBuiltin)) (Some VNone);
   Field "operation" (HEnum "EnvOperation") None;
   Field "state" (HEnum "OperationState") (Some (VEnum "OperationState" "SUCCEEDED"));
   Field "value" HAny (Some VNone);
   Field "error" (HOptional (HClass "RuntimeErrorInfo")) (Some VNone);
   Field "side_effect_applied" HBuiltin (Some (VBool false));
   Field "worker_summary" (HOptional (HClass "WorkerSummary")) (Some VNone)].

Definition InferenceRequest_fields : list field :=
  [Field "request_id" (HNewType HBuiltin) None;
   Field "session_id" (HNewType HBuiltin) None;
   Field "binding_token" (HOptional (HNewType HBuiltin)) (Some VNone);
   Field "episode_id" (HOptional (HNewType HBuiltin)) (Some VNone);
   Field "operation_seq" (HOptional (HNewType HBuiltin)) (Some VNone);
   Field "policy_id" HBuiltin None;
   Field "model_version_hint" (HOptional HBuiltin) (Some VNone);
   Field "observation" (HClass "Observation") None;
   Field "instruction_override" (HOptional HBuiltin) (Some VNone);
   Field "inference_parameters" (HDict HAny) (Some (VDict []));
   Field "routing_token" HBuiltin None;
   Field "compat_key" HBuiltin None;
   Field "deadline" (HOptional HFloat) (Some VNone);
   Field "priority" (HEnum "Priority") (Some (VEnum "Priority" "INTERACTIVE"));
   Field "application_id" HBuiltin (Some (VStr EmptyString))].

Definition ActionResponse_fields : list field :=
  [Field "request_id" (HNewType HBuiltin) None;
   Field "session_id" (HNewType HBuiltin) None;
   Field "binding_token" (HOptional (HNewType HBuiltin)) (Some VNone);
   Field "episode_id" (HOptional (HNewType HBuiltin)) (Some VNone);
   Field "operation_seq" (HOptional (HNewType HBuiltin)) (Some VNone);
   Field "actions" (HUnion [HClass "InlineBytes"; HClass "ObjectRefId"]) (Some VNone);
   Field "model_version" HBuiltin (Some (VStr EmptyString));
   Field "auxiliary_outputs" (HDict HAny) (Some (VDict []));
   Field "error" (HOptional (HClass "RuntimeErrorInfo")) (Some VNone)].

(** The registry [register_messages] fills: the public dataclasses of the protocol modules. *)
Definition message_types : list (string * list field) :=
  [("InlineBytes", InlineBytes_fields);
   ("ObjectRefId", ObjectRefId_fields);
   ("RuntimeErrorInfo", RuntimeErrorInfo_fields);
   ("Ok", Ok_fields);
   ("Err", Err_fields);
   ("EnvSpecMsg", EnvSpecMsg_fields);
   ("EnvFamilyCapability", EnvFamilyCapability_fields);
   ("CreateSessionRequest", CreateSessionRequest_fields);
   ("SessionHandle", SessionHandle_fields);
   ("WorkerSummary", WorkerSummary_fields);
   ("SessionStatus", SessionStatus_fields);
   ("ResetSpec", ResetSpec_fields);
   ("PolicyRequest", PolicyRequest_fields);
   ("EpisodeRequest", EpisodeRequest_fields);
   ("Observation", Observation_fields);
   ("PerStepRecord", PerStepRecord_fields);
   ("StepResult", StepResult_fields);
   ("PolicyInferResult", PolicyInferResult_fields);
   ("EpisodeResult", EpisodeResult_fields);
   ("OperationStatus", OperationStatus_fields);
   ("CancelOutcome", CancelOutcome_fields);
   ("EnvWorkerInfo", EnvWorkerInfo_fields);
   ("CommandEnvelope", CommandEnvelope_fields);
   ("ControlEnvelope", ControlEnvelope_fields);
   ("ResultEnvelope", ResultEnvelope_fields);
   ("InferenceRequest", InferenceRequest_fields);
   ("ActionResponse", ActionResponse_fields)].

Definition registry (name : string) : option (list field) := assoc_lookup name message_types.

(** Members of the protocol enums with their values. *)
Definition enum_table (cls : string) : list (string * native) :=
  if String.eqb cls "SessionState" then
    [("CREATING", NStr "creating"); ("READY", NStr "ready"); ("CLOSING", NStr "closing");
     ("CLOSED", NStr "closed"); ("FAILED", NStr "failed"); ("LOST", NStr "lost")]
  else if String.eqb cls "OperationState" then
    [("ACCEPTED", NStr "accepted"); ("QUEUED", NStr "queued"); ("RUNNING", NStr "running");
     ("SUCCEEDED", NStr "succeeded"); ("FAILED", NStr "failed");
     ("CANCELLED", NStr "cancelled"); ("OUTCOME_UNKNOWN", NStr "outcome_unknown")]
  else if String.eqb cls "EnvOperation" then
    [("RESET", NStr "reset"); ("OBSERVE", NStr "observe"); ("ACTION_STEP", NStr "action_step");
     ("POLICY_STEP", NStr "policy_step"); ("POLICY_INFER", NStr "policy_infer");
     ("RUN_EPISODE", NStr "run_episode"); ("EXTENSION_CALL", NStr "extension_call");
     ("CREATE_BINDING", NStr "create_binding"); ("RELEASE_BINDING", NStr "release_binding");
     ("RENEW_LEASE", NStr "renew_lease"); ("CANCEL", NStr "cancel");
     ("HEARTBEAT", NStr "heartbeat")]
  else if String.eqb cls "Priority" then
    [("INTERACTIVE", NInt 0); ("BATCH", NInt 1); ("BACKGROUND", NInt 2)]
  else if String.eqb cls "ErrorCode" then
    (λ c, (ErrorCode.name c, NStr (lower (ErrorCode.name c)))) <$> ErrorCode.members
  else if String.eqb cls "PayloadCodec" then [("RAW", NStr "raw"); ("PNG", NStr "png")]
  else [].

(** [decode_as(cls, data)] *)
Definition decode_as (float_of_int : Z → string) (cls : string) (data : native) :
    outcome py_error value :=
  decode registry enum_table float_of_int data (HClass cls).

(** ** The records the Gateway keeps *)

Record EnvSpecMsg := {
  env_family : string;
  env_config : list (dict_key * value);
  pool_size : Z;
  max_dynamic_pool_size : option Z;
  resource_hints : list (dict_key * value);
}.

Definition effective_max_pool_size (s : EnvSpecMsg) : Z :=
  match max_dynamic_pool_size s with
  | None => pool_size s
  | Some m => Z.max (pool_size s) m
  end.

Definition ENV_SPEC_DIGEST_DOMAIN : string := "rollout_runtime/env_spec/v1".

(** [EnvSpecMsg.digest] *)
Definition env_spec_digest (s : EnvSpecMsg) : outcome py_error string :=
  digest (VDict [(KStr "env_family", VStr (env_family s));
                 (KStr "env_config", VDict (env_config s));
                 (KStr "pool_size", VInt (pool_size s))]) ENV_SPEC_DIGEST_DOMAIN.

Record EnvFamilyCapability := {
  cap_env_family : string;
  per_step_obs_available : bool;
  supports_auto_reset : bool;
  supports_reset_state_id : bool;
  extensions : list string;
  needs_accelerator : bool;
  core_forms : list string;
  supports_coalescing : bool;
}.

Record CreateSessionRequest := {
  application_id : string;
  client_session_key : string;
  env_spec : EnvSpecMsg;
  default_policy_id : option string;
  lease_seconds : time;
  metadata : list (dict_key * value);
  auth_token : option string;
}.

Record SessionHandle := {
  sh_session_id : SessionId;
  sh_application_id : string;
  sh_env_spec_digest : string;
  sh_default_policy_id : option string;
  sh_lease_expiration : time;
  sh_gateway_epoch : Z;
}.

Record WorkerSummary := {
  ws_worker_rank : Z;
  ws_group_name : string;
  ws_pool_key : string;
  ws_slot_index : Z;
  ws_step_index : Z;
  ws_terminated : bool;
  ws_truncated : bool;
  ws_updated_at : time;
}.

Record SessionStatus := {
  ss_session_id : SessionId;
  ss_state : SessionState.t;
  ss_lease_expiration : time;
  ss_episode_id : option Z;
  ss_active_operation : option RequestId;
  ss_next_operation_seq : Z;
  ss_worker_summary : option WorkerSummary;
  ss_error : option RuntimeErrorInfo;
}.

Record OperationStatus := {
  os_request_id : RequestId;
  os_session_id : option SessionId;
  os_operation : EnvOperation.t;
  os_state : OperationState.t;
  os_created_at : time;
  os_updated_at : time;
  os_side_effect_applied : bool;
  os_error : option RuntimeErrorInfo;
}.

Record CancelOutcome := {
  co_request_id : RequestId;
  co_state : OperationState.t;
  co_side_effect_applied : bool;
  co_message : string;
}.

Record EnvWorkerInfo := {
  wi_worker_rank : Z;
  wi_group_name : string;
  wi_node_id : string;
  wi_capabilities : pydict string EnvFamilyCapability;
  wi_served_env_digests : list string;
  wi_max_sessions : Z;
  wi_active_sessions : Z;
  wi_has_accelerator : bool;
  wi_heartbeat_at : time;
}.

(** ** Theorems *)

(** C39: the wire format loses nothing.  Every value that has the annotation of a
    registered protocol dataclass is encoded, and decoding the encoding as that class
    gives the value back, field for field, nested messages, enums, tuples and frozen
    sets included. *)
Theorem wire_round_trip (float_of_int : Z → string) (cls : string) (v : value) :
  typed registry enum_table v (HClass cls) = true →
  ∃ n, encode v = Ok n ∧ decode_as float_of_int cls n = Ok v.
Proof. apply all_round_trip. Qed.

Definition sample_command : value :=
  VData "CommandEnvelope"
    [("request_id", VStr "req-1"); ("session_id", VStr "sess-1"); ("binding_token", VStr "bind-1");
     ("episode_id", VInt 2); ("operation_seq", VNone);
     ("operation", VEnum "EnvOperation" "RESET"); ("deadline", VFloat "12.5");
     ("priority", VEnum "Priority" "BATCH");
     ("payload", VDict [(KStr "spec", VData "ResetSpec"
        [("task_id", VInt 3); ("seed", VNone); ("instruction", VStr "pick"); ("reset_state_id", VNone);
         ("options", VDict [])])]);
     ("trace_context", VDict [])].

Lemma wire_round_trip_witness :
  ∃ n, encode sample_command = Ok n ∧ decode_as pretty "CommandEnvelope" n = Ok sample_command.
Proof. apply (wire_round_trip pretty "CommandEnvelope" sample_command). vm_compute. reflexivity. Defined.
