(* ===== verification/Operations.v ===== *)
(** * The operation registry: [rollout_runtime/gateway/operation_registry.py]

    [OperationRegistry] is the [request_id] idempotency table.  Its state is the
    dictionary of records and the TTL; each method is a program over that state, the
    reading of the clock it makes being its argument [now].  A method that looks a
    record up and mutates it is the replacement of the record at its key.

    Theorems: what [begin] does on each branch, the record invariant and its
    preservation, that a run without purges never changes a finished operation nor the
    request an identifier stands for, the three outcomes of [request_cancel], and that
    [purge] removes exactly the finished records older than the TTL. *)

From S2P Require Import Prelude PyDict Sorting Sha256 Codec CanonicalJson Api Messages.

Open Scope string_scope.
Open Scope list_scope.
Open Scope Z_scope.

Definition ALLOWED_OPERATION_TRANSITIONS (s : OperationState.t) : list OperationState.t :=
  match s with
  | OperationState.ACCEPTED =>
      [OperationState.QUEUED; OperationState.RUNNING; OperationState.SUCCEEDED;
       OperationState.FAILED; OperationState.CANCELLED; OperationState.OUTCOME_UNKNOWN]
  | OperationState.QUEUED =>
      [OperationState.RUNNING; OperationState.SUCCEEDED; OperationState.FAILED;
       OperationState.CANCELLED; OperationState.OUTCOME_UNKNOWN]
  | OperationState.RUNNING =>
      [OperationState.SUCCEEDED; OperationState.FAILED; OperationState.CANCELLED;
       OperationState.OUTCOME_UNKNOWN]
  | _ => []
  end.

Definition REQUEST_DIGEST_DOMAIN : string := "rollout_runtime/request/v1".

Definition request_digest (operation : EnvOperation.t) (session_id : option SessionId)
    (payload : value) : outcome py_error string :=
  digest (VDict [(KStr "operation", VStr (EnvOperation.name operation));
                 (KStr "session_id", opt_str session_id);
                 (KStr "payload", payload)]) REQUEST_DIGEST_DOMAIN.

Record OperationRecord := {
  request_id : RequestId;
  session_id : option SessionId;
  operation : EnvOperation.t;
  rec_digest : string;
  state : OperationState.t;
  created_at : time;
  updated_at : time;
  rec_value : value;
  error : option RuntimeErrorInfo;
  side_effect_applied : bool;
  cancel_requested : bool;
  worker_rank : option Z;
  terminal_at : option time;
}.

Definition is_terminal (r : OperationRecord) : bool :=
  member (state r) TERMINAL_OPERATION_STATES.

Definition record_status (r : OperationRecord) : OperationStatus := {|
  os_request_id := request_id r; os_session_id := session_id r;
  os_operation := operation r; os_state := state r;
  os_created_at := created_at r; os_updated_at := updated_at r;
  os_side_effect_applied := side_effect_applied r; os_error := error r;
|}.

(** Field assignments. *)
Definition set_state (st : OperationState.t) (now : time) (r : OperationRecord) := {|
  request_id := request_id r; session_id := session_id r; operation := operation r;
  rec_digest := rec_digest r; state := st; created_at := created_at r; updated_at := now;
  rec_value := rec_value r; error := error r; side_effect_applied := side_effect_applied r;
  cancel_requested := cancel_requested r; worker_rank := worker_rank r;
  terminal_at := if member st TERMINAL_OPERATION_STATES then Some now else terminal_at r;
|}.
Definition set_rank (rank : Z) (r : OperationRecord) := {|
  request_id := request_id r; session_id := session_id r; operation := operation r;
  rec_digest := rec_digest r; state := state r; created_at := created_at r;
  updated_at := updated_at r; rec_value := rec_value r; error := error r;
  side_effect_applied := side_effect_applied r; cancel_requested := cancel_requested r;
  worker_rank := Some rank; terminal_at := terminal_at r;
|}.
Definition set_outcome (v : value) (e : option RuntimeErrorInfo) (side : bool)
    (r : OperationRecord) := {|
  request_id := request_id r; session_id := session_id r; operation := operation r;
  rec_digest := rec_digest r; state := state r; created_at := created_at r;
  updated_at := updated_at r; rec_value := v; error := e;
  side_effect_applied := side; cancel_requested := cancel_requested r;
  worker_rank := worker_rank r; terminal_at := terminal_at r;
|}.
Definition set_cancel_requested (r : OperationRecord) := {|
  request_id := request_id r; session_id := session_id r; operation := operation r;
  rec_digest := rec_digest r; state := state r; created_at := created_at r;
  updated_at := updated_at r; rec_value := rec_value r; error := error r;
  side_effect_applied := side_effect_applied r; cancel_requested := true;
  worker_rank := worker_rank r; terminal_at := terminal_at r;
|}.

Module OperationRegistry.

Record t := Registry { _records : pydict RequestId OperationRecord; _ttl : time }.

Definition op (A : Type) : Type := prog t exn A.

Definition init (ttl : time) : t := Registry ∅ ttl.
Definition len (s : t) : Z := dict_len (_records s).
Definition find (id : RequestId) (s : t) : option OperationRecord := _records s !! id.

Definition unknown_request (id : RequestId) : exn :=
  RuntimeApiError (error_of ErrorCode.INVALID_ARGUMENT ("unknown request_id: " +:+ id)
    [("request_id", VStr id)]).

Definition get (id : RequestId) : op OperationRecord := λ s,
  match _records s !! id with
  | None => (s, Raise (unknown_request id))
  | Some r => (s, Ok r)
  end.

(** Store the record at its key: the mutation of the shared object. *)
Definition store (id : RequestId) (r : OperationRecord) : op OperationRecord := λ s,
  (Registry (<[id := r]> (_records s)) (_ttl s), Ok r).

Definition conflict (existing : OperationRecord) (id : RequestId) : exn :=
  RuntimeApiError (error_of ErrorCode.IDEMPOTENCY_CONFLICT
    ("request_id " +:+ id +:+ " was already used for a different request")
    [("request_id", VStr id);
     ("recorded_operation", VStr (EnvOperation.name (operation existing)));
     ("recorded_session_id", opt_str (session_id existing))]).

Definition fresh (id : RequestId) (sid : option SessionId) (o : EnvOperation.t)
    (fingerprint : string) (now : time) : OperationRecord := {|
  request_id := id; session_id := sid; operation := o; rec_digest := fingerprint;
  state := OperationState.ACCEPTED; created_at := now; updated_at := now;
  rec_value := VNone; error := None; side_effect_applied := false;
  cancel_requested := false; worker_rank := None; terminal_at := None;
|}.

(** [digest or request_digest(operation, session_id, payload)] *)
Definition fingerprint_of (sid : option SessionId) (o : EnvOperation.t) (payload : value)
    (given : option string) : outcome py_error string :=
  match given with
  | Some d => if str_true d then Ok d else request_digest o sid payload
  | None => request_digest o sid payload
  end.

Definition begin (now : time) (id : RequestId) (sid : option SessionId) (o : EnvOperation.t)
    (payload : value) (given : option string) : op (OperationRecord * bool) :=
  fingerprint ← lift_py (fingerprint_of sid o payload given);
  s ← get_state;
  match _records s !! id with
  | Some existing =>
      if negb (String.eqb (rec_digest existing) fingerprint)
      then raise (conflict existing id)
      else mret (existing, false)
  | None => r ← store id (fresh id sid o fingerprint now); mret (r, true)
  end.

Definition _transition (now : time) (id : RequestId) (to_state : OperationState.t) :
    op OperationRecord :=
  r ← get id;
  if negb (member to_state (ALLOWED_OPERATION_TRANSITIONS (state r)))
  then raise (RuntimeApiError (InvalidTransition id (OperationState.name (state r))
    (OperationState.name to_state)))
  else store id (set_state to_state now r).

Definition mark_queued (now : time) (id : RequestId) : op OperationRecord :=
  _transition now id OperationState.QUEUED.

Definition mark_running (now : time) (id : RequestId) (rank : option Z) : op OperationRecord :=
  r ← _transition now id OperationState.RUNNING;
  match rank with
  | Some k => store id (set_rank k r)
  | None => mret r
  end.

Definition succeed (now : time) (id : RequestId) (v : value) (side : bool) :
    op OperationRecord :=
  r ← _transition now id OperationState.SUCCEEDED;
  store id (set_outcome v (error r) side r).

Definition fail (now : time) (id : RequestId) (e : RuntimeErrorInfo) (side : option bool) :
    op OperationRecord :=
  r ← _transition now id OperationState.FAILED;
  store id (set_outcome (rec_value r) (Some e)
    (match side with None => err_side_effect_applied e | Some b => b end) r).

Definition cancel (now : time) (id : RequestId) (side : bool) (message : string) :
    op OperationRecord :=
  r ← _transition now id OperationState.CANCELLED;
  store id (set_outcome (rec_value r)
    (Some (make_error ErrorCode.CANCELLED message None side [])) side r).

Definition mark_outcome_unknown (now : time) (id : RequestId) (message : string) :
    op OperationRecord :=
  r ← _transition now id OperationState.OUTCOME_UNKNOWN;
  store id (set_outcome (rec_value r) (Some (error_of ErrorCode.WORKER_LOST message []))
    (side_effect_applied r) r).

Definition request_cancel (now : time) (id : RequestId) : op CancelOutcome :=
  r ← get id;
  if is_terminal r then
    mret {| co_request_id := id; co_state := state r;
            co_side_effect_applied := side_effect_applied r;
            co_message := "operation already finished" |}
  else
    r ← store id (set_cancel_requested r);
    if member (state r) [OperationState.ACCEPTED; OperationState.QUEUED] then
      cancel now id false "cancelled before dispatch" ≫= λ _,
      mret {| co_request_id := id; co_state := OperationState.CANCELLED;
              co_side_effect_applied := false;
              co_message := "cancelled before dispatch" |}
    else
      mret {| co_request_id := id; co_state := state r;
              co_side_effect_applied := side_effect_applied r;
              co_message := "cancel forwarded to env worker (best effort)" |}.

Definition status (id : RequestId) : op OperationStatus :=
  r ← get id; mret (record_status r).

Definition expired (moment ttl : time) (r : OperationRecord) : bool :=
  is_terminal r && (ttl <=? moment - or_else (terminal_at r) (updated_at r)).

(** [moment] is the explicit [now] or the clock's reading. *)
Definition purge (moment : time) : op (list RequestId) := λ s,
  let removed := (bfilter (λ kv, expired moment (_ttl s) kv.2) (items (_records s))).*1 in
  (Registry (delete_all removed (_records s)) (_ttl s), Ok removed).

(** ** Commands and runs *)

Inductive command :=
  | Begin (now : time) (id : RequestId) (sid : option SessionId) (o : EnvOperation.t)
      (payload : value) (given : option string)
  | MarkQueued (now : time) (id : RequestId)
  | MarkRunning (now : time) (id : RequestId) (rank : option Z)
  | Succeed (now : time) (id : RequestId) (v : value) (side : bool)
  | Fail_ (now : time) (id : RequestId) (e : RuntimeErrorInfo) (side : option bool)
  | Cancel (now : time) (id : RequestId) (side : bool) (message : string)
  | MarkOutcomeUnknown (now : time) (id : RequestId) (message : string)
  | RequestCancel (now : time) (id : RequestId)
  | Purge (moment : time).

(** The state a call leaves, whether it returns or raises. *)
Definition exec (s : t) (c : command) : t :=
  match c with
  | Begin now id sid o p g => after (begin now id sid o p g) s
  | MarkQueued now id => after (mark_queued now id) s
  | MarkRunning now id rank => after (mark_running now id rank) s
  | Succeed now id v side => after (succeed now id v side) s
  | Fail_ now id e side => after (fail now id e side) s
  | Cancel now id side msg => after (cancel now id side msg) s
  | MarkOutcomeUnknown now id msg => after (mark_outcome_unknown now id msg) s
  | RequestCancel now id => after (request_cancel now id) s
  | Purge moment => after (purge moment) s
  end.
Definition run (cs : list command) (s : t) : t := foldl exec s cs.

Definition is_purge (c : command) : bool := match c with Purge _ => true | _ => false end.

(** ** What one call does to the table *)

(** Every call but [purge] leaves the table alone or assigns one key: a fresh record, a
    record moved along an allowed transition, or the cancellation mark. *)
Inductive update (id : RequestId) : option OperationRecord → OperationRecord → Prop :=
  | update_fresh r :
      request_id r = id → state r = OperationState.ACCEPTED → terminal_at r = None →
      rec_value r = VNone → error r = None → update id None r
  | update_cancel_mark r :
      is_terminal r = false → update id (Some r) (set_cancel_requested r)
  | update_transition r r' st now :
      member st (ALLOWED_OPERATION_TRANSITIONS (state r)) = true →
      request_id r' = request_id r → rec_digest r' = rec_digest r → state r' = st →
      updated_at r' = now →
      terminal_at r' = (if member st TERMINAL_OPERATION_STATES then Some now else terminal_at r) →
      match st with
      | OperationState.SUCCEEDED => error r' = error r
      | OperationState.FAILED | OperationState.CANCELLED | OperationState.OUTCOME_UNKNOWN =>
          rec_value r' = rec_value r ∧ is_Some (error r')
      | _ => rec_value r' = rec_value r ∧ error r' = error r
      end →
      update id (Some r) r'.

(** What the table is after updates at one key. *)
Inductive updates (id : RequestId) (s : t) : t → Prop :=
  | updates_refl : updates id s s
  | updates_step s' r : updates id s s' → update id (_records s' !! id) r →
      updates id s (Registry (<[id := r]> (_records s')) (_ttl s')).

Lemma insert_insert_same (id : RequestId) (r r' : OperationRecord) (d : pydict RequestId OperationRecord) :
  <[id := r]> (<[id := r']> d) = <[id := r]> d.
Proof.
  unfold insert, pydict_insert. f_equal. simpl. destruct d as [l]; simpl.
  induction l as [|[k v] l IH]; simpl.
  - by rewrite decide_True.
  - destruct (decide (id = k)) as [->|Hne]; simpl; [by rewrite decide_True|].
    rewrite decide_False by done. by rewrite IH.
Qed.

Lemma _transition_spec now id st s :
  _transition now id st s =
    match _records s !! id with
    | None => (s, Raise (unknown_request id))
    | Some r =>
        if member st (ALLOWED_OPERATION_TRANSITIONS (state r))
        then (Registry (<[id := set_state st now r]> (_records s)) (_ttl s), Ok (set_state st now r))
        else (s, Raise (RuntimeApiError (InvalidTransition id (OperationState.name (state r))
               (OperationState.name st))))
    end.
Proof.
  unfold _transition, get, store, raise, mbind, prog_bind.
  destruct (_records s !! id) as [r|]; [|done]. by destruct (member _ _).
Qed.

(** A transition followed by an assignment of the outcome fields is one update. *)
Lemma finish_updates now id st (f : OperationRecord → OperationRecord) s :
  (∀ r, update id (Some r) (f (set_state st now r)) ∨
        member st (ALLOWED_OPERATION_TRANSITIONS (state r)) = false) →
  updates id s (after (r ← _transition now id st; store id (f r)) s).
Proof.
  intros Hf. unfold after, mbind, prog_bind. rewrite _transition_spec.
  destruct (_records s !! id) as [r|] eqn:Hr; [|constructor].
  destruct (Hf r) as [Hu|Hm]; [|rewrite Hm; constructor].
  destruct (member _ _); [|constructor]. simpl. rewrite insert_insert_same.
  constructor; [constructor|]. by rewrite Hr.
Qed.

Ltac solve_update :=
  match goal with
  | |- context [member ?st (ALLOWED_OPERATION_TRANSITIONS (state ?r))] =>
      destruct (member st (ALLOWED_OPERATION_TRANSITIONS (state r))) eqn:?; [left|by right];
      eapply (update_transition _ r _ st); simpl; eauto
  end.

Lemma transition_updates now id st s :
  st = OperationState.QUEUED ∨ st = OperationState.RUNNING →
  updates id s (after (_transition now id st) s).
Proof.
  intros Hst. unfold after. rewrite _transition_spec.
  destruct (_records s !! id) as [r|] eqn:Hr; [|constructor].
  destruct (member _ _) eqn:Hm; [|constructor]. constructor; [constructor|]. rewrite Hr.
  eapply update_transition; simpl; eauto. by destruct Hst as [-> | ->].
Qed.

Lemma begin_spec_cases now id sid o p g s :
  begin now id sid o p g s =
    match fingerprint_of sid o p g with
    | Raise e => (s, Raise (PyExc e))
    | Ok d =>
        match _records s !! id with
        | Some r => if String.eqb (rec_digest r) d then (s, Ok (r, false))
                    else (s, Raise (conflict r id))
        | None => (Registry (<[id := fresh id sid o d now]> (_records s)) (_ttl s),
                   Ok (fresh id sid o d now, true))
        end
    end.
Proof.
  unfold begin, lift_py, get_state, mbind, prog_bind.
  destruct (fingerprint_of _ _ _ _) as [d|e]; [|done].
  destruct (_records s !! id) as [r|]; [|done]. by destruct (String.eqb _ _).
Qed.

Lemma request_cancel_cases now id s :
  request_cancel now id s =
    match _records s !! id with
    | None => (s, Raise (unknown_request id))
    | Some r =>
        if is_terminal r then
          (s, Ok {| co_request_id := id; co_state := state r;
                    co_side_effect_applied := side_effect_applied r;
                    co_message := "operation already finished" |})
        else if member (state r) [OperationState.ACCEPTED; OperationState.QUEUED] then
          (Registry (<[id := set_outcome (rec_value r)
              (Some (make_error ErrorCode.CANCELLED "cancelled before dispatch" None false []))
              false (set_state OperationState.CANCELLED now (set_cancel_requested r))]>
              (_records s)) (_ttl s),
           Ok {| co_request_id := id; co_state := OperationState.CANCELLED;
                 co_side_effect_applied := false; co_message := "cancelled before dispatch" |})
        else
          (Registry (<[id := set_cancel_requested r]> (_records s)) (_ttl s),
           Ok {| co_request_id := id; co_state := state r;
                 co_side_effect_applied := side_effect_applied r;
                 co_message := "cancel forwarded to env worker (best effort)" |})
    end.
Proof.
  unfold request_cancel, get, store, mbind, prog_bind.
  destruct (_records s !! id) as [r|] eqn:Hr; [|done].
  destruct (is_terminal r) eqn:Ht; [done|]. simpl.
  destruct (member (state r) [_; _]) eqn:Hm; [|done].
  unfold cancel, store, mbind, prog_bind. rewrite _transition_spec. simpl.
  rewrite dict_lookup_insert_eq. simpl.
  assert (member OperationState.CANCELLED (ALLOWED_OPERATION_TRANSITIONS (state r)) = true) as ->.
  { unfold is_terminal, member in *. to_prop.
    destruct (state r); try (by vm_compute); exfalso; set_solver. }
  simpl. by rewrite !insert_insert_same.
Qed.

Lemma exec_updates c s : is_purge c = false → ∃ id, updates id s (exec s c).
Proof.
  destruct c as [now id sid o p g|now id|now id rank|now id v side|now id e side
    |now id side msg|now id msg|now id|m]; [..|done]; intros _; exists id; simpl.
  - unfold after. rewrite begin_spec_cases. destruct (fingerprint_of _ _ _ _); [|constructor].
    destruct (_records s !! id) as [r|] eqn:Hr; [by destruct (String.eqb _ _); constructor|].
    constructor; [constructor|]. rewrite Hr. by constructor.
  - apply transition_updates. by left.
  - destruct rank as [k|].
    + apply (finish_updates _ _ _ (set_rank k)). intros r. solve_update.
    + unfold mark_running, after, mbind, prog_bind.
      pose proof (transition_updates now id OperationState.RUNNING s (or_intror eq_refl)) as H.
      unfold after in H. by destruct (_transition now id OperationState.RUNNING s) as [? []].
  - apply (finish_updates _ _ _ (λ r, set_outcome v (error r) side r)). intros r. solve_update.
  - apply (finish_updates _ _ _ (λ r, set_outcome (rec_value r) (Some e)
      (match side with None => err_side_effect_applied e | Some b => b end) r)).
    intros r. solve_update.
  - apply (finish_updates _ _ _ (λ r, set_outcome (rec_value r)
      (Some (make_error ErrorCode.CANCELLED msg None side [])) side r)). intros r. solve_update.
  - apply (finish_updates _ _ _ (λ r, set_outcome (rec_value r)
      (Some (error_of ErrorCode.WORKER_LOST msg [])) (side_effect_applied r) r)).
    intros r. solve_update.
  - unfold after. rewrite request_cancel_cases.
    destruct (_records s !! id) as [r|] eqn:Hr; [|constructor].
    destruct (is_terminal r) eqn:Ht; [constructor|].
    assert (H1 : updates id s (Registry (<[id := set_cancel_requested r]> (_records s)) (_ttl s))).
    { constructor; [constructor|]. rewrite Hr. by constructor. }
    destruct (member (state r) _) eqn:Hm; [|exact H1]. simpl.
    rewrite <- (insert_insert_same id _ (set_cancel_requested r)).
    apply (updates_step _ _ _ _ H1). simpl. rewrite dict_lookup_insert_eq.
    eapply (update_transition _ _ _ OperationState.CANCELLED); simpl; eauto.
    unfold is_terminal, member in *. to_prop.
    destruct (state r); try (by vm_compute); exfalso; set_solver.
Qed.

(** ** Invariants *)

(** A record agrees with its key; it has a terminal time exactly when it is finished,
    namely that of its last update; the result and the error are those its state
    promises. *)
Definition rec_wf (id : RequestId) (r : OperationRecord) : Prop :=
  request_id r = id ∧
  terminal_at r = (if is_terminal r then Some (updated_at r) else None) ∧
  match state r with
  | OperationState.ACCEPTED | OperationState.QUEUED | OperationState.RUNNING =>
      rec_value r = VNone ∧ error r = None
  | OperationState.SUCCEEDED => error r = None
  | OperationState.FAILED | OperationState.CANCELLED | OperationState.OUTCOME_UNKNOWN =>
      rec_value r = VNone ∧ is_Some (error r)
  end.

Definition wf (s : t) : Prop :=
  dict_wf (_records s) ∧ ∀ id r, _records s !! id = Some r → rec_wf id r.

Lemma update_wf id o r :
  (∀ r0, o = Some r0 → rec_wf id r0) → update id o r → rec_wf id r.
Proof.
  intros Hwf Hu. revert Hwf.
  destruct Hu as [r1 Hid Hst Hta Hv He|r1 Ht|r1 r2 st now Hal Hid _ Hst Hup Hta Hf]; intros Hwf.
  - split; [done|]. unfold is_terminal. rewrite Hst, Hta. done.
  - apply (Hwf r1 eq_refl).
  - destruct (Hwf r1 eq_refl) as (Hid1 & Hta1 & Hrest). split; [congruence|].
    unfold is_terminal in *. rewrite Hta, Hst, Hup. clear Hta Hst Hup Hid Hid1 Hwf.
    destruct (state r1); destruct st; try discriminate Hal;
      (split; [try reflexivity; exact Hta1|]); simpl in *; intuition congruence.
Qed.

Lemma updates_wf id s s' : wf s → updates id s s' → wf s'.
Proof.
  intros Hwf. induction 1 as [|s' r _ [Hd Hr] Hu]; [done|]. split; simpl; [auto with dict|].
  intros id' r'. rewrite dict_lookup_insert. case_decide as Hid; [|apply Hr].
  intros [= <-]. subst. eapply update_wf; [|done]. auto.
Qed.

Lemma purge_lookup moment s id :
  dict_wf (_records s) →
  _records (after (purge moment) s) !! id =
    match _records s !! id with
    | Some r => if expired moment (_ttl s) r then None else Some r
    | None => None
    end.
Proof.
  intros Hd. unfold after, purge. simpl. rewrite dict_lookup_delete_all.
  destruct (_records s !! id) as [r|] eqn:Hr; [|by case_decide].
  destruct (expired _ _ r) eqn:He; [rewrite decide_True|rewrite decide_False]; auto.
  - apply list_elem_of_fmap. exists (id, r). split; [done|]. apply elem_of_bfilter.
    split; [done|]. by apply lookup_Some_items.
  - intros ([id' r'] & -> & [Hx Hin]%elem_of_bfilter)%list_elem_of_fmap. simpl in *.
    apply (items_lookup _ _ _ Hd) in Hin. congruence.
Qed.

Lemma exec_wf c s : wf s → wf (exec s c).
Proof.
  intros Hwf. destruct (is_purge c) eqn:Hp.
  - destruct c; try done. destruct Hwf as [Hd Hr]. simpl. split.
    + unfold after, purge. simpl. auto with dict.
    + intros id r. rewrite purge_lookup by done. intros H. apply Hr. by cases.
  - destruct (exec_updates c s Hp) as [id Hu]. by eapply updates_wf.
Qed.

(** ** Runs without purges *)

(** Progress of an operation: the steps it has left behind. *)
Definition progress (st : OperationState.t) : Z :=
  match st with
  | OperationState.ACCEPTED => 0 | OperationState.QUEUED => 1 | OperationState.RUNNING => 2
  | _ => 3
  end.

(** A later version of a record: same request, not set back, unchanged once finished. *)
Definition later (r r' : OperationRecord) : Prop :=
  rec_digest r' = rec_digest r ∧ request_id r' = request_id r ∧
  progress (state r) ≤ progress (state r') ∧ (is_terminal r = true → r' = r).

#[global] Instance later_preorder : PreOrder later.
Proof.
  split; [intros r; unfold later; auto with lia|].
  intros r1 r2 r3 (D1 & I1 & P1 & T1) (D2 & I2 & P2 & T2). unfold later.
  repeat split; [congruence..|lia|]. intros Ht. rewrite (T1 Ht) in *. auto.
Qed.

Lemma update_later id r r' : update id (Some r) r' → later r r'.
Proof.
  inversion 1 as [|r1 Ht|r1 r2 st now Hal Hid Hd Hst]; subst; unfold later.
  - repeat split; simpl; [lia|congruence].
  - repeat split; [done|done|..].
    + by destruct (state r), (state r').
    + unfold is_terminal. destruct (state r); try discriminate;
        destruct (state r'); discriminate Hal.
Qed.

Lemma updates_later id s s' k r :
  updates id s s' → _records s !! k = Some r → ∃ r', _records s' !! k = Some r' ∧ later r r'.
Proof.
  induction 1 as [|s' r1 _ IH Hu]; intros Hk; [by exists r|].
  destruct (IH Hk) as (r2 & Hr2 & Hl). simpl. rewrite dict_lookup_insert. case_decide as Hid.
  - subst. exists r1. split; [done|]. etrans; [done|]. apply (update_later id). by rewrite <- Hr2.
  - by exists r2.
Qed.

(** ** Properties *)

(** C33: [begin] is idempotent per [request_id].  An unknown identifier is registered as
    ACCEPTED and nothing else changes; the same request again returns the existing
    record, untouched, and says it is not new; a different request under the identifier
    is refused with IDEMPOTENCY_CONFLICT and changes nothing. *)
Theorem begin_idempotent (now : time) (id : RequestId) (sid : option SessionId)
    (o : EnvOperation.t) (payload : value) (given : option string) (s : t) (d : string)
    (Hd : fingerprint_of sid o payload given = Ok d) :
  let (s', res) := begin now id sid o payload given s in
  match find id s with
  | None =>
      res = Ok (fresh id sid o d now, true) ∧
      state (fresh id sid o d now) = OperationState.ACCEPTED ∧
      ∀ k, find k s' = if decide (k = id) then Some (fresh id sid o d now) else find k s
  | Some r =>
      s' = s ∧ (rec_digest r = d → res = Ok (r, false)) ∧
      (rec_digest r ≠ d → ∃ info, res = Raise (RuntimeApiError info) ∧
        code info = ErrorCode.IDEMPOTENCY_CONFLICT)
  end.
Proof.
  rewrite begin_spec_cases, Hd. unfold find. destruct (_records s !! id) as [r|].
  - destruct (String.eqb_spec (rec_digest r) d) as [->|Hne];
      (split; [done|split; [done|]]); [done|]. intros _. by eexists.
  - split; [done|]. split; [done|]. intros k. simpl. apply dict_lookup_insert.
Qed.

Lemma begin_idempotent_witness :
  (begin 5 "r1" (Some "s1") EnvOperation.RESET VNone (Some "d1") (init 300)).2 =
    Ok (fresh "r1" (Some "s1") EnvOperation.RESET "d1" 5, true).
Proof.
  pose proof (begin_idempotent 5 "r1" (Some "s1") EnvOperation.RESET VNone (Some "d1")
    (init 300) "d1" eq_refl) as H.
  destruct (begin _ _ _ _ _ _ _). apply H.
Defined.

(** The registry is well formed in every state it can reach: each record sits at its
    own identifier, has a terminal time (that of its last update) exactly when it is
    finished, carries an error exactly when it failed, was cancelled or has an unknown
    outcome, and carries no result before it has succeeded. *)
Theorem registry_invariant (cs : list command) (ttl : time) : wf (run cs (init ttl)).
Proof.
  assert (H : wf (init ttl)) by (split; [apply dict_wf_empty|done]).
  revert H. generalize (init ttl). induction cs as [|c cs IH]; intros s Hs; [done|].
  by apply IH, exec_wf.
Qed.

(** C20: effectively-once.  As long as nothing is purged, an identifier that is
    registered stays registered for the same request, its operation never goes back in
    the state machine, and a finished operation keeps its record (state, result, error,
    times) whatever calls follow, whether they return or raise. *)
Theorem finished_operations_are_final (cs : list command) (s : t) (id : RequestId)
    (r : OperationRecord) :
  forallb (λ c, negb (is_purge c)) cs = true → find id s = Some r →
  ∃ r', find id (run cs s) = Some r' ∧ later r r'.
Proof.
  revert s r. induction cs as [|c cs IH]; intros s r Hcs Hr; [by exists r|].
  simpl in Hcs. apply andb_true_iff in Hcs as [Hc%negb_true_iff Hcs].
  destruct (exec_updates c s Hc) as [k Hu].
  destruct (updates_later _ _ _ _ _ Hu Hr) as (r1 & Hr1 & H1).
  destruct (IH (exec s c) r1 Hcs Hr1) as (r2 & Hr2 & H2). exists r2. split; [done|by etrans].
Qed.

Definition sample_run : list command :=
  [Begin 1 "r" None EnvOperation.RESET VNone (Some "d"); MarkRunning 2 "r" (Some 0);
   Succeed 3 "r" (VInt 7) true].

Lemma finished_operations_are_final_witness :
  ∃ r, find "r" (run sample_run (init 10)) = Some r ∧ state r = OperationState.SUCCEEDED ∧
    ∃ r', find "r" (run [Cancel 4 "r" true "x"; RequestCancel 5 "r"]
      (run sample_run (init 10))) = Some r' ∧ later r r'.
Proof.
  eexists. split; [vm_compute; reflexivity|]. split; [reflexivity|].
  apply finished_operations_are_final; vm_compute; reflexivity.
Defined.

(** The three outcomes of [request_cancel].  Unknown identifiers are refused; a
    finished operation is reported as it is and the state is untouched; an operation
    that was not dispatched becomes CANCELLED with no side effect; a running one is
    only marked, and keeps running.  No other record changes. *)
Theorem request_cancel_outcomes (now : time) (id : RequestId) (s : t) :
  let (s', res) := request_cancel now id s in
  (∀ k, k ≠ id → find k s' = find k s) ∧
  match find id s with
  | None => s' = s ∧ res = Raise (unknown_request id)
  | Some r =>
      ∃ out r', res = Ok out ∧ find id s' = Some r' ∧ co_state out = state r' ∧
        co_side_effect_applied out = side_effect_applied r' ∧
        if is_terminal r then s' = s
        else if member (state r) [OperationState.ACCEPTED; OperationState.QUEUED] then
          state r' = OperationState.CANCELLED ∧ side_effect_applied r' = false ∧
          terminal_at r' = Some now ∧ option_map code (error r') = Some ErrorCode.CANCELLED
        else state r' = OperationState.RUNNING ∧ r' = set_cancel_requested r
  end.
Proof.
  rewrite request_cancel_cases. unfold find. destruct (_records s !! id) as [r|] eqn:Hr; [|done].
  destruct (is_terminal r) eqn:Ht; [by split; [done|]; eexists _, r|].
  destruct (member (state r) _) eqn:Hm; simpl; setoid_rewrite dict_lookup_insert_eq;
    (split; [intros k Hk; by rewrite dict_lookup_insert_ne|]);
    eexists _, _; (split; [done|]); (split; [done|]); simpl; [done|].
  repeat split. unfold is_terminal in Ht. by destruct (state r).
Qed.

(** [purge] is exact.  In a well-formed registry it removes precisely the finished
    operations whose terminal time lies at least the TTL back, returns their identifiers,
    and keeps every other record unchanged: a running operation, or a result younger than
    the TTL, is never lost. *)
Theorem purge_exact (moment : time) (s : t) (Hwf : wf s) :
  ∃ removed, result_of (purge moment) s = Ok removed ∧ NoDup removed ∧
    (∀ id, id ∈ removed ↔ ∃ r t0, find id s = Some r ∧ is_terminal r = true ∧
      terminal_at r = Some t0 ∧ _ttl s ≤ moment - t0) ∧
    ∀ id, find id (after (purge moment) s) = if decide (id ∈ removed) then None else find id s.
Proof.
  destruct Hwf as [Hd Hr]. eexists. split; [done|]. split; [|split].
  - eapply sublist_NoDup; [exact Hd|]. apply fmap_sublist, bfilter_sublist.
  - intros id. rewrite list_elem_of_fmap. split.
    + intros ([id' r] & -> & [Hx Hin]%elem_of_bfilter). simpl in *.
      apply (items_lookup _ _ _ Hd) in Hin. destruct (Hr _ _ Hin) as (_ & Hta & _).
      apply andb_true_iff in Hx as [Ht Hle]. rewrite Ht in Hta. rewrite Hta in Hle.
      exists r, (updated_at r). repeat split; auto. simpl in Hle. to_prop.
      by destruct (updated_at r =? 0).
    + intros (r & t0 & Hin & Ht & Hta & Hle). exists (id, r). split; [done|].
      apply elem_of_bfilter. split; [|by apply lookup_Some_items].
      destruct (Hr _ _ Hin) as (_ & Hta' & _). rewrite Ht, Hta in Hta'. injection Hta' as ->.
      unfold expired. simpl. rewrite Ht, Hta. simpl. apply Z.leb_le.
      by destruct (updated_at r =? 0).
  - intros id. unfold after, purge, find. simpl. apply dict_lookup_delete_all.
Qed.

Lemma purge_exact_witness :
  ∃ removed, result_of (purge 13) (run sample_run (init 10)) = Ok removed ∧ NoDup removed ∧
    (∀ id, id ∈ removed ↔ ∃ r t0, find id (run sample_run (init 10)) = Some r ∧
      is_terminal r = true ∧ terminal_at r = Some t0 ∧ 10 ≤ 13 - t0) ∧
    ∀ id, find id (after (purge 13) (run sample_run (init 10))) =
      if decide (id ∈ removed) then None else find id (run sample_run (init 10)).
Proof.
  apply (purge_exact 13 (run sample_run (init 10))). split.
  - repeat constructor; set_solver.
  - intros id r H. change (items (_records (run sample_run (init 10)))) with
      (items (_records (run sample_run (init 10)))) in H.
    apply lookup_Some_items in H. vm_compute in H.
    apply list_elem_of_singleton in H. injection H as -> ->. vm_compute. auto.
Defined.

End OperationRegistry.

(** ** The request fingerprint *)

Definition request_fields (o : EnvOperation.t) (sid : option SessionId) (n : native) : native :=
  NDict [("operation", NStr (EnvOperation.name o));
         ("session_id", from_option NStr NNone sid); ("payload", n)].

Lemma encode_request o sid p n :
  encode p = Ok n →
  encode (VDict [(KStr "operation", VStr (EnvOperation.name o)); (KStr "session_id", opt_str sid);
    (KStr "payload", p)]) = Ok (request_fields o sid n).
Proof. intros Hn. destruct sid; simpl; rewrite Hn; reflexivity. Qed.

Lemma plain_request o sid n : plain n = true → plain (request_fields o sid n) = true.
Proof.
  intros Hn. unfold request_fields. simpl. rewrite Hn. by destruct sid.
Qed.

Lemma EnvOperation_name_inj o1 o2 : EnvOperation.name o1 = EnvOperation.name o2 → o1 = o2.
Proof. by destruct o1, o2. Qed.

Lemma sort_keys_request o1 sid1 n1 o2 sid2 n2 :
  sort_keys (request_fields o1 sid1 n1) = sort_keys (request_fields o2 sid2 n2) ↔
    o1 = o2 ∧ sid1 = sid2 ∧ sort_keys n1 = sort_keys n2.
Proof.
  assert (H : ∀ o sid n, sort_keys (request_fields o sid n) =
    NDict [("operation", NStr (EnvOperation.name o)); ("payload", sort_keys n);
           ("session_id", from_option NStr NNone sid)]) by by intros ? [].
  rewrite !H. split; [|by intros (-> & -> & ->)].
  intros [= Ho Hn Hs]. split; [by apply EnvOperation_name_inj|]. split; [|done].
  destruct sid1, sid2; simplify_eq/=; done.
Qed.

(** The request fingerprint separates requests.  The fingerprint is the SHA-256 of a
    text, and two requests are hashed from the same text exactly when they have the same
    operation, the same session and payloads that are equal up to the order of object
    keys: [begin] sees a conflict whenever the requests differ, unless SHA-256 collides. *)
Theorem request_digest_faithful (o1 o2 : EnvOperation.t) (sid1 sid2 : option SessionId)
    (p1 p2 : value) (n1 n2 : native) :
  encode p1 = Ok n1 → encode p2 = Ok n2 → plain n1 = true → plain n2 = true →
  ∃ t1 t2, request_digest o1 sid1 p1 = Ok (sha256_hex t1) ∧
    request_digest o2 sid2 p2 = Ok (sha256_hex t2) ∧
    (t1 = t2 ↔ o1 = o2 ∧ sid1 = sid2 ∧ sort_keys n1 = sort_keys n2).
Proof.
  intros E1 E2 P1 P2. apply (encode_request o1 sid1) in E1. apply (encode_request o2 sid2) in E2.
  apply (plain_request o1 sid1) in P1. apply (plain_request o2 sid2) in P2.
  pose proof (json_dumps_eq_iff _ _ P1 P2) as Hiff. rewrite sort_keys_request in Hiff.
  rewrite !json_dumps_render in Hiff by done. unfold request_digest.
  rewrite (digest_render _ _ REQUEST_DIGEST_DOMAIN E1 P1 eq_refl),
    (digest_render _ _ REQUEST_DIGEST_DOMAIN E2 P2 eq_refl).
  eexists _, _. split; [reflexivity|]. split; [reflexivity|]. rewrite <- Hiff.
  generalize (render (sort_keys (request_fields o1 sid1 n1))), (render (sort_keys (request_fields o2 sid2 n2))).
  intros t1 t2. split; [|by intros [= ->]]. intros H. f_equal.
  repeat (injection H as H). done.
Qed.

Lemma request_digest_faithful_witness :
  ∃ t1 t2, request_digest EnvOperation.RESET None (VDict [(KStr "a", VInt 1); (KStr "b", VNone)]) =
      Ok (sha256_hex t1) ∧
    request_digest EnvOperation.RESET None (VDict [(KStr "b", VNone); (KStr "a", VInt 1)]) =
      Ok (sha256_hex t2) ∧
    (t1 = t2 ↔ EnvOperation.RESET = EnvOperation.RESET ∧ @None SessionId = None ∧
      sort_keys (NDict [("a", NInt 1); ("b", NNone)]) =
        sort_keys (NDict [("b", NNone); ("a", NInt 1)])).
Proof. by apply request_digest_faithful. Defined.
