(* ===== verification/Sessions.v ===== *)
(** * The session manager: [rollout_runtime/gateway/session_manager.py]

    Session records are shared objects: the Gateway keeps references to them across
    calls ([allocate_operation_seq(record)], [begin_operation(record, ...)]), also after
    a purge has dropped them from the table.  The state is therefore a heap of records
    with the two dictionaries of the manager, [_sessions] (identifier to location) and
    [_by_client_key] (application and client key to identifier).  The per-session
    [asyncio.Lock] is not a field here: it orders calls, which are single steps.

    Theorems: the manager's invariant in every reachable state and the uniqueness of the
    open session of a client key, the branches of [create], the lifecycle each record
    follows, purging, leases, and the one-operation-at-a-time marker. *)

From S2P Require Import Prelude PyDict Sorting Codec CanonicalJson Api Messages.

Open Scope string_scope.
Open Scope list_scope.
Open Scope Z_scope.

Definition ALLOWED_SESSION_TRANSITIONS (s : SessionState.t) : list SessionState.t :=
  match s with
  | SessionState.CREATING => [SessionState.READY; SessionState.FAILED]
  | SessionState.READY => [SessionState.CLOSING; SessionState.LOST]
  | SessionState.CLOSING => [SessionState.CLOSED]
  | SessionState.FAILED => [SessionState.CLOSED]
  | SessionState.LOST => [SessionState.CLOSED]
  | SessionState.CLOSED => []
  end.

Module SessionRecord.

Record t := {
  session_id : SessionId;
  application_id : string;
  client_session_key : string;
  env_spec : EnvSpecMsg;
  env_spec_digest : string;
  default_policy_id : option string;
  state : SessionState.t;
  lease_expiration : time;
  created_at : time;
  updated_at : time;
  metadata : list (dict_key * value);
  gateway_epoch : Z;
  worker_rank : option Z;
  binding_token : option BindingToken;
  episode_id : option Z;
  next_operation_seq : Z;
  active_operation : option RequestId;
  worker_summary : option WorkerSummary;
  error : option RuntimeErrorInfo;
  reap_pending : bool;
  terminal_at : option time;
}.

(** Field assignments. *)
Definition set_state (x : SessionState.t) (r : t) : t := {|
  session_id := session_id r; application_id := application_id r;
  client_session_key := client_session_key r; env_spec := env_spec r;
  env_spec_digest := env_spec_digest r; default_policy_id := default_policy_id r; state := x;
  lease_expiration := lease_expiration r; created_at := created_at r;
  updated_at := updated_at r; metadata := metadata r; gateway_epoch := gateway_epoch r;
  worker_rank := worker_rank r; binding_token := binding_token r; episode_id := episode_id r;
  next_operation_seq := next_operation_seq r; active_operation := active_operation r;
  worker_summary := worker_summary r; error := error r; reap_pending := reap_pending r;
  terminal_at := terminal_at r |}.
Definition set_lease_expiration (x : time) (r : t) : t := {|
  session_id := session_id r; application_id := application_id r;
  client_session_key := client_session_key r; env_spec := env_spec r;
  env_spec_digest := env_spec_digest r; default_policy_id := default_policy_id r;
  state := state r; lease_expiration := x; created_at := created_at r;
  updated_at := updated_at r; metadata := metadata r; gateway_epoch := gateway_epoch r;
  worker_rank := worker_rank r; binding_token := binding_token r; episode_id := episode_id r;
  next_operation_seq := next_operation_seq r; active_operation := active_operation r;
  worker_summary := worker_summary r; error := error r; reap_pending := reap_pending r;
  terminal_at := terminal_at r |}.
Definition set_updated_at (x : time) (r : t) : t := {|
  session_id := session_id r; application_id := application_id r;
  client_session_key := client_session_key r; env_spec := env_spec r;
  env_spec_digest := env_spec_digest r; default_policy_id := default_policy_id r;
  state := state r; lease_expiration := lease_expiration r; created_at := created_at r;
  updated_at := x; metadata := metadata r; gateway_epoch := gateway_epoch r;
  worker_rank := worker_rank r; binding_token := binding_token r; episode_id := episode_id r;
  next_operation_seq := next_operation_seq r; active_operation := active_operation r;
  worker_summary := worker_summary r; error := error r; reap_pending := reap_pending r;
  terminal_at := terminal_at r |}.
Definition set_worker_rank (x : option Z) (r : t) : t := {|
  session_id := session_id r; application_id := application_id r;
  client_session_key := client_session_key r; env_spec := env_spec r;
  env_spec_digest := env_spec_digest r; default_policy_id := default_policy_id r;
  state := state r; lease_expiration := lease_expiration r; created_at := created_at r;
  updated_at := updated_at r; metadata := metadata r; gateway_epoch := gateway_epoch r;
  worker_rank := x; binding_token := binding_token r; episode_id := episode_id r;
  next_operation_seq := next_operation_seq r; active_operation := active_operation r;
  worker_summary := worker_summary r; error := error r; reap_pending := reap_pending r;
  terminal_at := terminal_at r |}.
Definition set_binding_token (x : option BindingToken) (r : t) : t := {|
  session_id := session_id r; application_id := application_id r;
  client_session_key := client_session_key r; env_spec := env_spec r;
  env_spec_digest := env_spec_digest r; default_policy_id := default_policy_id r;
  state := state r; lease_expiration := lease_expiration r; created_at := created_at r;
  updated_at := updated_at r; metadata := metadata r; gateway_epoch := gateway_epoch r;
  worker_rank := worker_rank r; binding_token := x; episode_id := episode_id r;
  next_operation_seq := next_operation_seq r; active_operation := active_operation r;
  worker_summary := worker_summary r; error := error r; reap_pending := reap_pending r;
  terminal_at := terminal_at r |}.
Definition set_episode_id (x : option Z) (r : t) : t := {|
  session_id := session_id r; application_id := application_id r;
  client_session_key := client_session_key r; env_spec := env_spec r;
  env_spec_digest := env_spec_digest r; default_policy_id := default_policy_id r;
  state := state r; lease_expiration := lease_expiration r; created_at := created_at r;
  updated_at := updated_at r; metadata := metadata r; gateway_epoch := gateway_epoch r;
  worker_rank := worker_rank r; binding_token := binding_token r; episode_id := x;
  next_operation_seq := next_operation_seq r; active_operation := active_operation r;
  worker_summary := worker_summary r; error := error r; reap_pending := reap_pending r;
  terminal_at := terminal_at r |}.
Definition set_next_operation_seq (x : Z) (r : t) : t := {|
  session_id := session_id r; application_id := application_id r;
  client_session_key := client_session_key r; env_spec := env_spec r;
  env_spec_digest := env_spec_digest r; default_policy_id := default_policy_id r;
  state := state r; lease_expiration := lease_expiration r; created_at := created_at r;
  updated_at := updated_at r; metadata := metadata r; gateway_epoch := gateway_epoch r;
  worker_rank := worker_rank r; binding_token := binding_token r; episode_id := episode_id r;
  next_operation_seq := x; active_operation := active_operation r;
  worker_summary := worker_summary r; error := error r; reap_pending := reap_pending r;
  terminal_at := terminal_at r |}.
Definition set_active_operation (x : option RequestId) (r : t) : t := {|
  session_id := session_id r; application_id := application_id r;
  client_session_key := client_session_key r; env_spec := env_spec r;
  env_spec_digest := env_spec_digest r; default_policy_id := default_policy_id r;
  state := state r; lease_expiration := lease_expiration r; created_at := created_at r;
  updated_at := updated_at r; metadata := metadata r; gateway_epoch := gateway_epoch r;
  worker_rank := worker_rank r; binding_token := binding_token r; episode_id := episode_id r;
  next_operation_seq := next_operation_seq r; active_operation := x;
  worker_summary := worker_summary r; error := error r; reap_pending := reap_pending r;
  terminal_at := terminal_at r |}.
Definition set_worker_summary (x : option WorkerSummary) (r : t) : t := {|
  session_id := session_id r; application_id := application_id r;
  client_session_key := client_session_key r; env_spec := env_spec r;
  env_spec_digest := env_spec_digest r; default_policy_id := default_policy_id r;
  state := state r; lease_expiration := lease_expiration r; created_at := created_at r;
  updated_at := updated_at r; metadata := metadata r; gateway_epoch := gateway_epoch r;
  worker_rank := worker_rank r; binding_token := binding_token r; episode_id := episode_id r;
  next_operation_seq := next_operation_seq r; active_operation := active_operation r;
  worker_summary := x; error := error r; reap_pending := reap_pending r;
  terminal_at := terminal_at r |}.
Definition set_error (x : option RuntimeErrorInfo) (r : t) : t := {|
  session_id := session_id r; application_id := application_id r;
  client_session_key := client_session_key r; env_spec := env_spec r;
  env_spec_digest := env_spec_digest r; default_policy_id := default_policy_id r;
  state := state r; lease_expiration := lease_expiration r; created_at := created_at r;
  updated_at := updated_at r; metadata := metadata r; gateway_epoch := gateway_epoch r;
  worker_rank := worker_rank r; binding_token := binding_token r; episode_id := episode_id r;
  next_operation_seq := next_operation_seq r; active_operation := active_operation r;
  worker_summary := worker_summary r; error := x; reap_pending := reap_pending r;
  terminal_at := terminal_at r |}.
Definition set_reap_pending (x : bool) (r : t) : t := {|
  session_id := session_id r; application_id := application_id r;
  client_session_key := client_session_key r; env_spec := env_spec r;
  env_spec_digest := env_spec_digest r; default_policy_id := default_policy_id r;
  state := state r; lease_expiration := lease_expiration r; created_at := created_at r;
  updated_at := updated_at r; metadata := metadata r; gateway_epoch := gateway_epoch r;
  worker_rank := worker_rank r; binding_token := binding_token r; episode_id := episode_id r;
  next_operation_seq := next_operation_seq r; active_operation := active_operation r;
  worker_summary := worker_summary r; error := error r; reap_pending := x;
  terminal_at := terminal_at r |}.
Definition set_terminal_at (x : option time) (r : t) : t := {|
  session_id := session_id r; application_id := application_id r;
  client_session_key := client_session_key r; env_spec := env_spec r;
  env_spec_digest := env_spec_digest r; default_policy_id := default_policy_id r;
  state := state r; lease_expiration := lease_expiration r; created_at := created_at r;
  updated_at := updated_at r; metadata := metadata r; gateway_epoch := gateway_epoch r;
  worker_rank := worker_rank r; binding_token := binding_token r; episode_id := episode_id r;
  next_operation_seq := next_operation_seq r; active_operation := active_operation r;
  worker_summary := worker_summary r; error := error r; reap_pending := reap_pending r;
  terminal_at := x |}.

Definition handle (r : t) : SessionHandle := {|
  sh_session_id := session_id r; sh_application_id := application_id r;
  sh_env_spec_digest := env_spec_digest r; sh_default_policy_id := default_policy_id r;
  sh_lease_expiration := lease_expiration r; sh_gateway_epoch := gateway_epoch r;
|}.

Definition status (r : t) : SessionStatus := {|
  ss_session_id := session_id r; ss_state := state r;
  ss_lease_expiration := lease_expiration r; ss_episode_id := episode_id r;
  ss_active_operation := active_operation r; ss_next_operation_seq := next_operation_seq r;
  ss_worker_summary := worker_summary r; ss_error := error r;
|}.

End SessionRecord.

Module SessionManager.
Import SessionRecord.

Notation loc := nat (only parsing).

Record t := Manager {
  heap : list SessionRecord.t;
  _sessions : pydict SessionId loc;
  _by_client_key : pydict (string * string) SessionId;
  _gateway_epoch : Z;
  _error_retention_seconds : time;
  _default_lease_seconds : time;
}.

Definition op (A : Type) : Type := prog t exn A.

Definition init (epoch : Z) (retention default_lease : time) : t :=
  Manager [] ∅ ∅ epoch retention default_lease.

Definition with_heap (h : list SessionRecord.t) (s : t) : t :=
  Manager h (_sessions s) (_by_client_key s) (_gateway_epoch s) (_error_retention_seconds s)
    (_default_lease_seconds s).

(** Mutate the object at a location. *)
Definition assign (l : loc) (f : SessionRecord.t → SessionRecord.t) : op unit := λ s,
  (with_heap (alter f l (heap s)) s, Ok tt).

(** Read the object a reference points to; a reference is never dangling. *)
Definition deref (l : loc) : op SessionRecord.t := λ s,
  (s, match heap s !! l with Some r => Ok r | None => Raise (PyExc (AttributeError "record")) end).

(** The records of the table, in its order: [self._sessions.values()]. *)
Definition session_records (s : t) : list SessionRecord.t :=
  omap (λ l, heap s !! l) (values (_sessions s)).

Definition api_error (c : ErrorCode.t) (msg : string) (details : list (string * value)) : exn :=
  RuntimeApiError (error_of c msg details).

Definition len (s : t) : Z := dict_len (_sessions s).
Definition find (sid : SessionId) (s : t) : option loc := _sessions s !! sid.

(** The record of an identifier, for statements. *)
Definition lookup_session (sid : SessionId) (s : t) : option SessionRecord.t :=
  l ← _sessions s !! sid; heap s !! l.

Definition unknown_session (sid : SessionId) : exn :=
  api_error ErrorCode.UNKNOWN_SESSION ("unknown session: " +:+ sid) [("session_id", VStr sid)].

Definition get (sid : SessionId) : op loc := λ s,
  match _sessions s !! sid with
  | None => (s, Raise (unknown_session sid))
  | Some l => (s, Ok l)
  end.

Definition status (sid : SessionId) : op SessionStatus :=
  l ← get sid; r ← deref l; mret (SessionRecord.status r).

Definition not_ready (sid : SessionId) (r : SessionRecord.t) : exn :=
  api_error ErrorCode.SESSION_NOT_READY
    ("session " +:+ sid +:+ " is " +:+ SessionState.name (state r))
    [("session_id", VStr sid); ("state", VStr (SessionState.name (state r)));
     ("error", VStr (from_option message EmptyString (error r)))].

Definition require_ready (sid : SessionId) : op loc :=
  l ← get sid; r ← deref l;
  if bool_decide (state r = SessionState.READY) then mret l else raise (not_ready sid r).

Definition require_episode (sid : SessionId) : op loc :=
  l ← require_ready sid; r ← deref l;
  match episode_id r with
  | None => raise (api_error ErrorCode.SESSION_NOT_READY
      ("session " +:+ sid +:+ " has no episode; call reset first") [("session_id", VStr sid)])
  | Some _ => mret l
  end.

Definition is_active (r : SessionRecord.t) : bool :=
  member (state r) [SessionState.CREATING; SessionState.READY].

Definition sessions_on_rank (rank : Z) (s : t) : list SessionRecord.t :=
  bfilter (λ r, bool_decide (worker_rank r = Some rank) && is_active r) (session_records s).

Definition active_session_count (app : string) (s : t) : Z :=
  count (λ r, String.eqb (application_id r) app && is_active r) (session_records s).

Definition new_record (epoch : Z) (sid : SessionId) (request : CreateSessionRequest)
    (spec_digest : string) (now lease : time) : SessionRecord.t := {|
  session_id := sid; application_id := Messages.application_id request;
  client_session_key := Messages.client_session_key request;
  env_spec := Messages.env_spec request; env_spec_digest := spec_digest;
  default_policy_id := Messages.default_policy_id request; state := SessionState.CREATING;
  lease_expiration := now + lease; created_at := now; updated_at := now;
  metadata := Messages.metadata request; gateway_epoch := epoch; worker_rank := None;
  binding_token := None; episode_id := None; next_operation_seq := 1;
  active_operation := None; worker_summary := None; error := None; reap_pending := false;
  terminal_at := None;
|}.

Definition client_key (request : CreateSessionRequest) : string * string :=
  (Messages.application_id request, Messages.client_session_key request).

(** The existing session an idempotent [create] returns, if it is still open. *)
Definition idempotent_hit (key : string * string) (s : t) : option loc :=
  sid ← _by_client_key s !! key;
  l ← _sessions s !! sid;
  r ← heap s !! l;
  if member (state r) [SessionState.CLOSED; SessionState.CLOSING] then None else Some l.

Definition drop_key (key : string * string) : op unit := modify (λ s,
  Manager (heap s) (_sessions s) (delete key (_by_client_key s)) (_gateway_epoch s)
    (_error_retention_seconds s) (_default_lease_seconds s)).

(** Allocate the record and enter it into the table and, with a key, the index. *)
Definition register (key : string * string) (r : SessionRecord.t) : op loc := λ s,
  let l := length (heap s) in
  (Manager (heap s ++ [r]) (<[session_id r := l]> (_sessions s))
     (if str_true key.2 then <[key := session_id r]> (_by_client_key s) else _by_client_key s)
     (_gateway_epoch s) (_error_retention_seconds s) (_default_lease_seconds s), Ok l).

(** [generated] is the identifier [new_session_id()] would return.  A stale index entry
    is popped; where there is none, [drop_key] changes nothing. *)
Definition create (now : time) (generated : SessionId) (request : CreateSessionRequest)
    (given : option SessionId) : op (loc * bool) :=
  check (negb (lease_seconds request <=? 0)) (api_error ErrorCode.INVALID_ARGUMENT
    "lease_seconds must be positive" []) ≫= λ _,
  let key := client_key request in
  s ← get_state;
  match idempotent_hit key s with
  | Some l => mret (l, false)
  | None =>
      drop_key key ≫= λ _,
      let lease := or_else (Some (lease_seconds request)) (_default_lease_seconds s) in
      let sid := match given with Some g => str_or g generated | None => generated end in
      d ← lift_py (Messages.env_spec_digest (Messages.env_spec request));
      l ← register key (new_record (_gateway_epoch s) sid request d now lease);
      mret (l, true)
  end.

Definition transition (now : time) (sid : SessionId) (to_state : SessionState.t)
    (e : option RuntimeErrorInfo) : op loc :=
  l ← get sid; r ← deref l;
  if negb (member to_state (ALLOWED_SESSION_TRANSITIONS (state r)))
  then raise (RuntimeApiError (InvalidTransition sid (SessionState.name (state r))
    (SessionState.name to_state)))
  else
    assign l (λ r, set_updated_at now (set_state to_state r)) ≫= λ _,
    (match e with Some _ => assign l (set_error e) | None => mret tt end) ≫= λ _,
    (if member to_state [SessionState.FAILED; SessionState.LOST; SessionState.CLOSED]
     then assign l (set_terminal_at (Some now)) else mret tt) ≫= λ _,
    mret l.

Definition commit_binding (now : time) (sid : SessionId) (rank : Z) (token : BindingToken)
    (lease : option time) : op loc :=
  l ← get sid;
  assign l (λ r, set_binding_token (Some token) (set_worker_rank (Some rank) r)) ≫= λ _,
  (match lease with
   | Some x => assign l (set_lease_expiration x)
   | None => mret tt
   end) ≫= λ _,
  transition now sid SessionState.READY None.

Definition fail (now : time) (sid : SessionId) (e : RuntimeErrorInfo) : op loc :=
  transition now sid SessionState.FAILED (Some e).

Definition mark_lost (now : time) (sid : SessionId) (e : option RuntimeErrorInfo) : op loc :=
  transition now sid SessionState.LOST (Some (default (error_of ErrorCode.WORKER_LOST
    ("env worker binding lost for session " +:+ sid) [("session_id", VStr sid)]) e)).

Definition begin_close (now : time) (sid : SessionId) : op loc :=
  transition now sid SessionState.CLOSING None.

Definition finish_close (now : time) (sid : SessionId) : op loc :=
  transition now sid SessionState.CLOSED None.

(** The clock is read twice. *)
Definition renew (now1 now2 : time) (sid : SessionId) (lease : time) (app : option string) :
    op loc :=
  check (negb (lease <=? 0)) (api_error ErrorCode.INVALID_ARGUMENT
    "lease_seconds must be positive" []) ≫= λ _,
  l ← require_ready sid; r ← deref l;
  check (match app with Some a => String.eqb (application_id r) a | None => true end)
    (api_error ErrorCode.INVALID_ARGUMENT ("session " +:+ sid +:+ " does not belong to caller")
      [("session_id", VStr sid)]) ≫= λ _,
  assign l (λ r, set_updated_at now2 (set_lease_expiration (now1 + lease) r)) ≫= λ _,
  mret l.

Definition allocate_operation_seq (l : loc) : op Z :=
  r ← deref l;
  assign l (λ r, set_next_operation_seq (next_operation_seq r + 1) r) ≫= λ _,
  mret (next_operation_seq r).

Definition set_episode (now : time) (sid : SessionId) (episode : Z) : op unit :=
  l ← get sid;
  assign l (λ r, set_updated_at now (SessionRecord.set_episode_id (Some episode) r)).

Definition set_worker_summary (sid : SessionId) (summary : option WorkerSummary) : op unit := λ s,
  match _sessions s !! sid, summary with
  | Some l, Some _ => assign l (SessionRecord.set_worker_summary summary) s
  | _, _ => (s, Ok tt)
  end.

Definition begin_operation (l : loc) (rid : RequestId) : op unit :=
  r ← deref l;
  match active_operation r with
  | Some active => raise (api_error ErrorCode.SESSION_NOT_READY
      ("session " +:+ session_id r +:+ " already has an active operation")
      [("session_id", VStr (session_id r)); ("active_operation", VStr active)])
  | None => assign l (set_active_operation (Some rid))
  end.

Definition end_operation (l : loc) (rid : RequestId) : op unit :=
  r ← deref l;
  if bool_decide (active_operation r = Some rid)
  then assign l (set_active_operation None) else mret tt.

(** [record.reap_pending = True], set by the Gateway's reaper. *)
Definition set_reap_pending (l : loc) : op unit := assign l (SessionRecord.set_reap_pending true).

Definition lease_expired (moment : time) (r : SessionRecord.t) : bool :=
  bool_decide (state r = SessionState.READY) && (lease_expiration r <=? moment).

Definition expired_sessions (moment : time) (s : t) : list SessionRecord.t :=
  bfilter (lease_expired moment) (session_records s).

Definition purgeable (moment retention : time) (r : SessionRecord.t) : bool :=
  match state r with
  | SessionState.CLOSED => true
  | SessionState.FAILED | SessionState.LOST =>
      retention <=? moment - or_else (terminal_at r) (updated_at r)
  | _ => false
  end.

(** Drop one session and the index entry that still points to it. *)
Definition purge_one (s : t) (sid : SessionId) : t :=
  match lookup_session sid s with
  | None => s
  | Some r =>
      let key := (application_id r, client_session_key r) in
      Manager (heap s) (delete sid (_sessions s))
        (if bool_decide (_by_client_key s !! key = Some sid)
         then delete key (_by_client_key s) else _by_client_key s)
        (_gateway_epoch s) (_error_retention_seconds s) (_default_lease_seconds s)
  end.

Definition to_purge (moment : time) (s : t) : list SessionId :=
  (bfilter (λ kv, match heap s !! kv.2 with
     | Some r => purgeable moment (_error_retention_seconds s) r
     | None => false
     end) (items (_sessions s))).*1.

Definition purge_terminal (moment : time) : op (list SessionId) := λ s,
  let removed := to_purge moment s in
  (foldl purge_one s removed, Ok removed).

(** ** Commands, steps and reachable states *)

Inductive command :=
  | Create (now : time) (generated : SessionId) (request : CreateSessionRequest)
      (given : option SessionId)
  | CommitBinding (now : time) (sid : SessionId) (rank : Z) (token : BindingToken)
      (lease : option time)
  | Fail_ (now : time) (sid : SessionId) (e : RuntimeErrorInfo)
  | MarkLost (now : time) (sid : SessionId) (e : option RuntimeErrorInfo)
  | BeginClose (now : time) (sid : SessionId)
  | FinishClose (now : time) (sid : SessionId)
  | Renew (now1 now2 : time) (sid : SessionId) (lease : time) (app : option string)
  | AllocateOperationSeq (l : loc)
  | SetEpisode (now : time) (sid : SessionId) (episode : Z)
  | SetWorkerSummary (sid : SessionId) (summary : option WorkerSummary)
  | BeginOperation (l : loc) (rid : RequestId)
  | EndOperation (l : loc) (rid : RequestId)
  | SetReapPending (l : loc)
  | PurgeTerminal (moment : time).

Definition exec (s : t) (c : command) : t :=
  match c with
  | Create now g req given => after (create now g req given) s
  | CommitBinding now sid rank token lease => after (commit_binding now sid rank token lease) s
  | Fail_ now sid e => after (fail now sid e) s
  | MarkLost now sid e => after (mark_lost now sid e) s
  | BeginClose now sid => after (begin_close now sid) s
  | FinishClose now sid => after (finish_close now sid) s
  | Renew now1 now2 sid lease app => after (renew now1 now2 sid lease app) s
  | AllocateOperationSeq l => after (allocate_operation_seq l) s
  | SetEpisode now sid e => after (set_episode now sid e) s
  | SetWorkerSummary sid w => after (set_worker_summary sid w) s
  | BeginOperation l rid => after (begin_operation l rid) s
  | EndOperation l rid => after (end_operation l rid) s
  | SetReapPending l => after (set_reap_pending l) s
  | PurgeTerminal moment => after (purge_terminal moment) s
  end.

(** A new session gets an identifier no session of the table has (a [uuid4]). *)
Definition legal (c : command) (s : t) : Prop :=
  match c with
  | Create _ g _ given =>
      _sessions s !! (match given with Some x => str_or x g | None => g end) = None
  | _ => True
  end.

Definition step (s s' : t) : Prop := ∃ c, legal c s ∧ s' = exec s c.
Definition reachable (s : t) : Prop :=
  ∃ epoch retention lease, rtc step (init epoch retention lease) s.

(** ** How a record may change *)

Definition terminal_time_ok (st : SessionState.t) (r r' : SessionRecord.t) : Prop :=
  if member st [SessionState.FAILED; SessionState.LOST; SessionState.CLOSED]
  then is_Some (terminal_at r') else terminal_at r' = terminal_at r.

(** One mutation: the identity stays, the sequence counter does not go back, and the
    state stays or follows an edge of the lifecycle. *)
Record edit (r r' : SessionRecord.t) : Prop := {
  edit_id : session_id r' = session_id r;
  edit_app : application_id r' = application_id r;
  edit_key : client_session_key r' = client_session_key r;
  edit_digest : env_spec_digest r' = env_spec_digest r;
  edit_seq : next_operation_seq r ≤ next_operation_seq r';
  edit_state :
    (state r' = state r ∧ terminal_at r' = terminal_at r) ∨
    (member (state r') (ALLOWED_SESSION_TRANSITIONS (state r)) = true ∧
     terminal_time_ok (state r') r r');
}.

(** The object at one location changes by an edit. *)
Inductive touch (s : t) : t → Prop :=
  | touch_alter l f :
      (∀ r, heap s !! l = Some r → edit r (f r)) →
      touch s (with_heap (alter f l (heap s)) s).

Definition moved (now : time) (st : SessionState.t) (e : option RuntimeErrorInfo)
    (r : SessionRecord.t) : SessionRecord.t :=
  let r := set_updated_at now (set_state st r) in
  let r := match e with Some _ => set_error e r | None => r end in
  if member st [SessionState.FAILED; SessionState.LOST; SessionState.CLOSED]
  then set_terminal_at (Some now) r else r.

Lemma with_heap_heap h s : heap (with_heap h s) = h.
Proof. done. Qed.

Lemma transition_spec now sid st e s :
  transition now sid st e s =
    match _sessions s !! sid with
    | None => (s, Raise (unknown_session sid))
    | Some l =>
        match heap s !! l with
        | None => (s, Raise (PyExc (AttributeError "record")))
        | Some r =>
            if member st (ALLOWED_SESSION_TRANSITIONS (state r))
            then (with_heap (alter (moved now st e) l (heap s)) s, Ok l)
            else (s, Raise (RuntimeApiError (InvalidTransition sid (SessionState.name (state r))
                   (SessionState.name st))))
        end
    end.
Proof.
  unfold transition, get, deref, assign, raise, mbind, prog_bind, mret, prog_ret.
  destruct (_sessions s !! sid) as [l|]; [|done].
  destruct (heap s !! l) as [r|]; [|done].
  destruct (member st (ALLOWED_SESSION_TRANSITIONS (state r))); simpl; [|done].
  unfold moved, with_heap.
  destruct e, (member st [_; _; _]); simpl; rewrite ?list_alter_alter_eq; done.
Qed.

Lemma edit_refl r : edit r r.
Proof. constructor; auto with lia. Qed.

Lemma touch_none s : touch s s.
Proof.
  replace s with (with_heap (alter id (length (heap s)) (heap s)) s) at 2.
  - constructor. intros r _. apply edit_refl.
  - destruct s as [h ? ? ? ? ?]. unfold with_heap. simpl. f_equal.
    apply list_alter_id. by intros.
Qed.

Lemma edit_moved now st e r :
  member st (ALLOWED_SESSION_TRANSITIONS (state r)) = true → edit r (moved now st e r).
Proof.
  intros Hm. unfold moved.
  constructor; destruct e; destruct (member st [_; _; _]) eqn:Ht; simpl; auto with lia;
    right; unfold terminal_time_ok; simpl; rewrite Ht; simpl; auto; by eexists.
Qed.

Lemma transition_touch now sid st e s : touch s (after (transition now sid st e) s).
Proof.
  unfold after. rewrite transition_spec.
  destruct (_sessions s !! sid) as [l|]; [|apply touch_none].
  destruct (heap s !! l) as [r|] eqn:Hr; [|apply touch_none].
  destruct (member _ _) eqn:Hm; [|apply touch_none].
  constructor. intros r' Hr'. simplify_eq. by apply edit_moved.
Qed.

(** An assignment that leaves identity, state, terminal time and counter alone. *)
Lemma assign_touch l f s :
  (∀ r, edit r (f r)) → touch s (after (assign l f) s).
Proof. intros H. unfold after, assign. simpl. constructor. auto. Qed.

Ltac plain_edit := intros ?; constructor; simpl; auto with lia.

Definition is_create_or_purge (c : command) : bool :=
  match c with Create _ _ _ _ | PurgeTerminal _ => true | _ => false end.

(** Every other call is a sequence of edits of single records. *)
Lemma exec_touches c s : is_create_or_purge c = false → rtc touch s (exec s c).
Proof.
  destruct c as [|now sid rank token lease|now sid e|now sid e|now sid|now sid
    |now1 now2 sid lease app|l|now sid ep|sid w|l rid|l rid|l|]; try done; intros _; simpl;
    try (apply rtc_once, transition_touch).
  - unfold commit_binding, after, get, mbind, prog_bind.
    destruct (_sessions s !! sid) as [l|]; [|apply rtc_refl].
    etrans; [apply rtc_once, (assign_touch l (λ r, set_binding_token (Some token)
      (set_worker_rank (Some rank) r))); plain_edit|].
    unfold after. simpl.
    destruct lease as [x|]; simpl; [|apply rtc_once, transition_touch].
    etrans; [apply rtc_once, (assign_touch l (set_lease_expiration x)); plain_edit|].
    apply rtc_once, transition_touch.
  - unfold renew, after, check, require_ready, get, deref, raise, mbind, prog_bind, mret, prog_ret.
    destruct (negb (lease <=? 0)); [|apply rtc_refl].
    destruct (_sessions s !! sid) as [l|]; [|apply rtc_refl].
    destruct (heap s !! l) as [r|] eqn:Hr; [|apply rtc_refl].
    destruct (bool_decide _); [|apply rtc_refl]. rewrite Hr.
    destruct (match app with Some a => _ | None => _ end); [|apply rtc_refl].
    apply rtc_once, (assign_touch l (λ r, set_updated_at now2
      (set_lease_expiration (now1 + lease) r))). plain_edit.
  - unfold allocate_operation_seq, after, deref, mbind, prog_bind, mret, prog_ret.
    destruct (heap s !! l) as [r|] eqn:Hr; [|apply rtc_refl].
    apply rtc_once, (assign_touch l (λ r, set_next_operation_seq (next_operation_seq r + 1) r)).
    plain_edit.
  - unfold set_episode, after, get, mbind, prog_bind.
    destruct (_sessions s !! sid) as [l|]; [|apply rtc_refl].
    apply rtc_once, (assign_touch l (λ r, set_updated_at now (set_episode_id (Some ep) r))).
    plain_edit.
  - unfold set_worker_summary, after.
    destruct (_sessions s !! sid) as [l|]; [|apply rtc_refl].
    destruct w as [w|]; [|apply rtc_refl].
    apply rtc_once, (assign_touch l (SessionRecord.set_worker_summary (Some w))). plain_edit.
  - unfold begin_operation, after, deref, raise, mbind, prog_bind.
    destruct (heap s !! l) as [r|] eqn:Hr; [|apply rtc_refl].
    destruct (active_operation r); [apply rtc_refl|].
    apply rtc_once, (assign_touch l (set_active_operation (Some rid))). plain_edit.
  - unfold end_operation, after, deref, mbind, prog_bind, mret, prog_ret.
    destruct (heap s !! l) as [r|] eqn:Hr; [|apply rtc_refl].
    destruct (bool_decide _); [|apply rtc_refl].
    apply rtc_once, (assign_touch l (set_active_operation None)). plain_edit.
  - apply rtc_once, (assign_touch l (SessionRecord.set_reap_pending true)). plain_edit.
Qed.

Lemma touch_dicts s s' :
  touch s s' → _sessions s' = _sessions s ∧ _by_client_key s' = _by_client_key s.
Proof. by intros []. Qed.

Lemma touch_forward s s' l r :
  touch s s' → heap s !! l = Some r → ∃ r', heap s' !! l = Some r' ∧ edit r r'.
Proof.
  intros [l' f Hf] Hr. simpl. destruct (decide (l = l')) as [->|Hne].
  - exists (f r). split; [|auto]. by rewrite list_lookup_alter_eq, Hr.
  - exists r. rewrite list_lookup_alter_ne by done. auto using edit_refl.
Qed.

Lemma touch_backward s s' l r' :
  touch s s' → heap s' !! l = Some r' → ∃ r, heap s !! l = Some r ∧ edit r r'.
Proof.
  intros Ht Hr'. destruct (heap s !! l) as [r|] eqn:Hr.
  - exists r. split; [done|]. destruct (touch_forward _ _ _ _ Ht Hr) as (r1 & ? & ?). congruence.
  - destruct Ht as [l' f _]. simpl in Hr'. apply lookup_ge_None in Hr.
    apply lookup_lt_Some in Hr'. rewrite length_alter in Hr'. lia.
Qed.

(** ** The invariant *)

Definition is_open (r : SessionRecord.t) : bool :=
  negb (member (state r) [SessionState.CLOSED; SessionState.CLOSING]).

Definition record_ok (r : SessionRecord.t) : Prop :=
  1 ≤ next_operation_seq r ∧
  (is_Some (terminal_at r) ↔
     member (state r) [SessionState.FAILED; SessionState.LOST; SessionState.CLOSED] = true).

Record wf (s : t) : Prop := {
  wf_sessions : dict_wf (_sessions s);
  wf_keys : dict_wf (_by_client_key s);
  (** a table entry points to the record that has its identifier *)
  wf_table sid l : _sessions s !! sid = Some l →
    ∃ r, heap s !! l = Some r ∧ session_id r = sid;
  (** an index entry names a session of the table that has this client key *)
  wf_index key sid : _by_client_key s !! key = Some sid →
    key.2 ≠ EmptyString ∧
    ∃ r, lookup_session sid s = Some r ∧ (application_id r, client_session_key r) = key;
  (** an open session with a client key is the one its key is indexed to *)
  wf_open sid r : lookup_session sid s = Some r → client_session_key r ≠ EmptyString →
    is_open r = true → _by_client_key s !! (application_id r, client_session_key r) = Some sid;
  wf_records l r : heap s !! l = Some r → record_ok r;
}.

Lemma edit_open r r' : edit r r' → is_open r' = true → is_open r = true.
Proof.
  intros [_ _ _ _ _ [[He _]|[He _]]]; unfold is_open; [by rewrite He|].
  by destruct (state r), (state r').
Qed.

Lemma edit_record_ok r r' : edit r r' → record_ok r → record_ok r'.
Proof.
  intros [_ _ _ _ Hseq Hst] [Hs Ht]. split; [lia|].
  destruct Hst as [[-> ->]|[Hm Hterm]]; [done|]. revert Hterm. unfold terminal_time_ok.
  destruct (member (state r') [SessionState.FAILED; SessionState.LOST; SessionState.CLOSED])
    eqn:Hm'; [done|]. intros ->. rewrite Ht.
  destruct (state r), (state r'); try discriminate Hm; try discriminate Hm'; split; discriminate.
Qed.

Lemma lookup_session_Some sid r s :
  lookup_session sid s = Some r ↔ ∃ l, _sessions s !! sid = Some l ∧ heap s !! l = Some r.
Proof. unfold lookup_session. destruct (_sessions s !! sid); simpl; naive_solver. Qed.

Lemma touch_wf s s' : touch s s' → wf s → wf s'.
Proof.
  intros Ht [Hd Hk Htab Hidx Hopen Hrec].
  destruct (touch_dicts _ _ Ht) as [Es Ek].
  constructor; rewrite ?Es, ?Ek; try done.
  - intros sid l Hl. destruct (Htab _ _ Hl) as (r & Hr & Hid).
    destruct (touch_forward _ _ _ _ Ht Hr) as (r' & Hr' & He). exists r'.
    split; [done|]. rewrite (edit_id _ _ He). done.
  - intros key sid Hi. destruct (Hidx _ _ Hi) as [Hne (r & (l & Hl & Hr)%lookup_session_Some & Heq)].
    split; [done|]. destruct (touch_forward _ _ _ _ Ht Hr) as (r' & Hr' & He). exists r'.
    rewrite (edit_app _ _ He), (edit_key _ _ He). split; [|done].
    apply lookup_session_Some. exists l. by rewrite Es.
  - intros sid r' (l & Hl & Hr')%lookup_session_Some Hne Ho. rewrite Es in Hl.
    destruct (touch_backward _ _ _ _ Ht Hr') as (r & Hr & He).
    rewrite (edit_app _ _ He), (edit_key _ _ He) in *.
    apply Hopen; [|done|by eapply edit_open]. apply lookup_session_Some. eauto.
  - intros l r' Hr'. destruct (touch_backward _ _ _ _ Ht Hr') as (r & Hr & He).
    eapply edit_record_ok; eauto.
Qed.

(** ** Creation *)

Definition chosen_id (generated : SessionId) (given : option SessionId) : SessionId :=
  match given with Some g => str_or g generated | None => generated end.

(** The table after a session was entered. *)
Definition created (now : time) (sid : SessionId) (request : CreateSessionRequest)
    (d : string) (s : t) : t :=
  let key := client_key request in
  let idx := delete key (_by_client_key s) in
  Manager (heap s ++ [new_record (_gateway_epoch s) sid request d now
      (or_else (Some (lease_seconds request)) (_default_lease_seconds s))])
    (<[sid := length (heap s)]> (_sessions s))
    (if str_true key.2 then <[key := sid]> idx else idx)
    (_gateway_epoch s) (_error_retention_seconds s) (_default_lease_seconds s).

Lemma create_cases now g request given s :
  create now g request given s =
    if lease_seconds request <=? 0 then
      (s, Raise (api_error ErrorCode.INVALID_ARGUMENT "lease_seconds must be positive" []))
    else match idempotent_hit (client_key request) s with
    | Some l => (s, Ok (l, false))
    | None =>
        match Messages.env_spec_digest (Messages.env_spec request) with
        | Ok d => (created now (chosen_id g given) request d s, Ok (length (heap s), true))
        | Raise e => (after (drop_key (client_key request)) s, Raise (PyExc e))
        end
    end.
Proof.
  unfold create, check, get_state, raise, lift_py, register, mbind, prog_bind, mret, prog_ret.
  destruct (lease_seconds request <=? 0); [done|]. simpl.
  destruct (idempotent_hit _ s); [done|].
  by destruct (Messages.env_spec_digest _).
Qed.

Lemma idempotent_hit_None s key sid r :
  wf s → idempotent_hit key s = None → lookup_session sid s = Some r →
  (application_id r, client_session_key r) = key → client_session_key r ≠ EmptyString →
  is_open r = false.
Proof.
  intros Hwf Hnone Hr Hkey Hne. destruct (is_open r) eqn:Ho; [|done]. exfalso.
  pose proof (wf_open s Hwf sid r Hr Hne Ho) as Hi. rewrite Hkey in Hi.
  apply lookup_session_Some in Hr as (l & Hl & Hh). revert Hnone.
  unfold idempotent_hit. rewrite Hi. simpl. rewrite Hl. simpl. rewrite Hh. simpl.
  unfold is_open in Ho. apply negb_true_iff in Ho. by rewrite Ho.
Qed.

Lemma drop_key_wf s key : wf s → idempotent_hit key s = None → wf (after (drop_key key) s).
Proof.
  intros Hwf Hnone. pose proof Hwf as [Hd Hk Htab Hidx Hopen Hrec].
  constructor;
    cbn [after drop_key modify fst heap _sessions _by_client_key]; try done; [auto with dict|..].
  - intros key' sid. rewrite dict_lookup_delete. case_decide; [done|]. apply Hidx.
  - intros sid r Hr Hne Ho. rewrite dict_lookup_delete. case_decide as Hc.
    + rewrite (idempotent_hit_None s key sid r) in Ho; done.
    + by apply Hopen.
Qed.

Lemma created_wf now sid request d s :
  wf s → idempotent_hit (client_key request) s = None → _sessions s !! sid = None →
  wf (created now sid request d s).
Proof.
  intros Hwf Hnone Hfresh. pose proof (drop_key_wf s _ Hwf Hnone) as [_ Hk1 _ Hidx1 Hopen1 _].
  destruct Hwf as [Hd Hk Htab Hidx Hopen Hrec]. unfold created.
  set (nr := new_record _ _ _ _ _ _). set (key := client_key request).
  assert (Hold : ∀ sid' r, sid' ≠ sid →
    (l ← <[sid := length (heap s)]> (_sessions s) !! sid'; (heap s ++ [nr]) !! l) = Some r ↔
    lookup_session sid' s = Some r).
  { intros sid' r Hne. rewrite dict_lookup_insert_ne by done. unfold lookup_session.
    destruct (_sessions s !! sid') as [l|] eqn:Hl; simpl; [|done].
    destruct (Htab _ _ Hl) as (r0 & Hr0 & _).
    by rewrite lookup_app_l by (by eapply lookup_lt_Some). }
  assert (Hnew : (l ← <[sid := length (heap s)]> (_sessions s) !! sid; (heap s ++ [nr]) !! l) = Some nr).
  { rewrite dict_lookup_insert_eq. simpl. apply list_lookup_middle. done. }
  assert (Hkey : (application_id nr, client_session_key nr) = key) by done.
  constructor; cbn [heap _sessions _by_client_key].
  - auto with dict.
  - destruct (str_true key.2); auto with dict.
  - intros sid' l. rewrite dict_lookup_insert. case_decide as Hc.
    + intros [= <-]. exists nr. subst. split; [|done]. by apply list_lookup_middle.
    + intros Hl. destruct (Htab _ _ Hl) as (r & Hr & Hid). exists r.
      split; [|done]. by apply lookup_app_l_Some.
  - assert (Hsub : ∀ key' sid', delete key (_by_client_key s) !! key' = Some sid' →
      key'.2 ≠ EmptyString ∧ ∃ r, lookup_session sid' (Manager (heap s ++ [nr])
        (<[sid := length (heap s)]> (_sessions s)) ∅ 0 0 0) = Some r ∧
        (application_id r, client_session_key r) = key').
    { intros key' sid' Hi. destruct (Hidx1 key' sid' Hi) as [Hne (r & Hr & Heq)].
      split; [done|]. exists r. split; [|done]. apply Hold; [|done].
      intros ->. unfold lookup_session in Hr. simpl in Hr. by rewrite Hfresh in Hr. }
    intros key' sid'. destruct (str_true key.2) eqn:Hs; [|apply Hsub].
    rewrite dict_lookup_insert. case_decide as Hc; [|apply Hsub].
    intros [= <-]. subst key'. split; [by apply str_true_spec|]. exists nr. done.
  - intros sid' r Hr Hne Ho. destruct (decide (sid' = sid)) as [->|Hs].
    + unfold lookup_session in Hr. simpl in Hr. rewrite Hnew in Hr. injection Hr as <-.
      change (str_true key.2) with (str_true (client_session_key nr)).
      apply str_true_spec in Hne. rewrite Hne. apply dict_lookup_insert_eq.
    + apply (Hold sid' r Hs) in Hr. pose proof (Hopen1 sid' r Hr Hne Ho) as Hi. simpl in Hi.
      destruct (str_true key.2); [|done]. rewrite dict_lookup_insert. case_decide as Hc; [|done].
      rewrite (idempotent_hit_None s key sid' r) in Ho; done.
  - intros l r. rewrite lookup_app_Some. intros [Hr|[_ Hr]]; [by eapply Hrec|].
    apply list_lookup_singleton_Some in Hr as [_ <-]. split; simpl; [lia|].
    split; [by intros []|done].
Qed.

(** ** Purging *)

Lemma purge_one_sessions s sid k :
  wf s → _sessions (purge_one s sid) !! k = if decide (k = sid) then None else _sessions s !! k.
Proof.
  intros Hwf. unfold purge_one. destruct (lookup_session sid s) as [r|] eqn:Hr.
  - apply dict_lookup_delete.
  - case_decide as Hc; [|done]. subst. destruct (_sessions s !! sid) as [l|] eqn:Hl; [|done].
    destruct (wf_table s Hwf _ _ Hl) as (r & Hh & _).
    enough (lookup_session sid s = Some r) by congruence. apply lookup_session_Some. eauto.
Qed.

Lemma purge_one_heap s sid : heap (purge_one s sid) = heap s.
Proof. unfold purge_one. by destruct (lookup_session sid s). Qed.

Lemma purge_one_wf s sid : wf s → wf (purge_one s sid).
Proof.
  intros Hwf. pose proof (purge_one_sessions s sid) as Hlk.
  assert (Hsub : ∀ sid' r, lookup_session sid' (purge_one s sid) = Some r →
    sid' ≠ sid ∧ lookup_session sid' s = Some r).
  { intros sid' r (l & Hl & Hh)%lookup_session_Some. rewrite (Hlk sid' Hwf) in Hl.
    rewrite purge_one_heap in Hh. case_decide; [done|]. split; [done|].
    apply lookup_session_Some. eauto. }
  assert (Hsup : ∀ sid' r, sid' ≠ sid → lookup_session sid' s = Some r →
    lookup_session sid' (purge_one s sid) = Some r).
  { intros sid' r Hne (l & Hl & Hh)%lookup_session_Some. apply lookup_session_Some. exists l.
    rewrite (Hlk sid' Hwf), purge_one_heap. by case_decide. }
  unfold purge_one in *. destruct (lookup_session sid s) as [r0|] eqn:Hr0; [|done].
  pose proof Hwf as [Hd Hk Htab Hidx Hopen Hrec].
  set (key := (application_id r0, client_session_key r0)) in *.
  constructor; cbn [heap _sessions _by_client_key] in *.
  - auto with dict.
  - case_bool_decide; auto with dict.
  - intros sid' l Hl. rewrite dict_lookup_delete in Hl. case_decide; [done|]. eauto.
  - intros key' sid' Hi.
    assert (_by_client_key s !! key' = Some sid' ∧
      (_by_client_key s !! key = Some sid → key' ≠ key)) as [Hi' Hne'].
    { case_bool_decide as Hc; [|by split; [|intros ?; done]].
      rewrite dict_lookup_delete in Hi. by case_decide. }
    destruct (Hidx _ _ Hi') as [Hne (r & Hr & Heq)]. split; [done|]. exists r.
    split; [|done]. apply Hsup; [|done]. intros ->. rewrite Hr0 in Hr. injection Hr as <-.
    apply Hne'; [|done]. change (application_id r0, client_session_key r0) with key in Heq.
    by rewrite Heq.
  - intros sid' r Hr Hne Ho. apply Hsub in Hr as [Hs Hr].
    pose proof (Hopen _ _ Hr Hne Ho) as Hi. case_bool_decide as Hc; [|done].
    rewrite dict_lookup_delete_ne; [done|]. intros Heq. congruence.
  - done.
Qed.

Lemma purge_all s ids :
  wf s → let s' := foldl purge_one s ids in
  wf s' ∧ heap s' = heap s ∧
  ∀ k, _sessions s' !! k = if decide (k ∈ ids) then None else _sessions s !! k.
Proof.
  revert s. induction ids as [|sid ids IH]; intros s Hwf; simpl.
  - split; [done|]. split; [done|]. done.
  - destruct (IH (purge_one s sid) (purge_one_wf s sid Hwf)) as (Hwf' & Hh & Hk).
    split; [done|]. split; [by rewrite Hh, purge_one_heap|]. intros k.
    rewrite Hk, (purge_one_sessions s sid k Hwf).
    destruct (decide (k ∈ ids)), (decide (k = sid)), (decide (k ∈ sid :: ids)); set_solver.
Qed.

Lemma elem_of_to_purge moment s sid :
  wf s → sid ∈ to_purge moment s ↔
    ∃ r, lookup_session sid s = Some r ∧ purgeable moment (_error_retention_seconds s) r = true.
Proof.
  intros Hwf. unfold to_purge. rewrite list_elem_of_fmap. split.
  - intros ([sid' l] & -> & [Hp Hin]%elem_of_bfilter). simpl in *.
    apply (items_lookup _ _ _ (wf_sessions s Hwf)) in Hin.
    destruct (heap s !! l) as [r|] eqn:Hr; [|done]. exists r. split; [|done].
    apply lookup_session_Some. eauto.
  - intros (r & (l & Hl & Hr)%lookup_session_Some & Hp). exists (sid, l). split; [done|].
    apply elem_of_bfilter. simpl. rewrite Hr. split; [done|]. by apply lookup_Some_items.
Qed.

Lemma step_wf s s' : wf s → step s s' → wf s'.
Proof.
  intros Hwf (c & Hl & ->). destruct (is_create_or_purge c) eqn:Hc.
  - destruct c as [now g request given| | | | | | | | | | | | |moment]; try done; simpl in *.
    + unfold after. rewrite create_cases.
      destruct (lease_seconds request <=? 0); [done|].
      destruct (idempotent_hit _ s) eqn:Hh; [done|].
      destruct (Messages.env_spec_digest _) as [d|e]; simpl.
      * by apply created_wf.
      * by apply drop_key_wf.
    + by apply purge_all.
  - pose proof (exec_touches c s Hc) as Ht.
    eapply (rtc_invariant touch wf); [|exact Ht|done]. intros a b Ha Hab. by eapply touch_wf.
Qed.

Lemma init_wf epoch retention lease : wf (init epoch retention lease).
Proof. constructor; try done; apply dict_wf_empty. Qed.

Lemma reachable_wf s : reachable s → wf s.
Proof.
  intros (epoch & retention & lease & Hs).
  eapply (rtc_invariant step wf); [|exact Hs|apply init_wf]. intros a b. apply step_wf.
Qed.

(** ** The lifecycle of one record *)

Definition edge (st st' : SessionState.t) : Prop :=
  member st' (ALLOWED_SESSION_TRANSITIONS st) = true.

(** What the object at a location can become. *)
Definition evolves (r r' : SessionRecord.t) : Prop :=
  session_id r' = session_id r ∧ application_id r' = application_id r ∧
  client_session_key r' = client_session_key r ∧
  next_operation_seq r ≤ next_operation_seq r' ∧ rtc edge (state r) (state r').

#[global] Instance evolves_preorder : PreOrder evolves.
Proof.
  split; [intros r; unfold evolves; repeat split; auto with lia; apply rtc_refl|].
  intros r1 r2 r3 (A1 & B1 & C1 & D1 & E1) (A2 & B2 & C2 & D2 & E2). unfold evolves.
  repeat split; [congruence..|lia|by etrans].
Qed.

Lemma edit_evolves r r' : edit r r' → evolves r r'.
Proof.
  intros [H1 H2 H3 _ H5 H6]. repeat split; [done..|].
  destruct H6 as [[-> _]|[He _]]; [apply rtc_refl|by apply rtc_once].
Qed.

Lemma step_evolves s s' l r :
  wf s → step s s' → heap s !! l = Some r → ∃ r', heap s' !! l = Some r' ∧ evolves r r'.
Proof.
  intros Hwf (c & Hl & ->) Hr. destruct (is_create_or_purge c) eqn:Hc.
  - exists r. split; [|reflexivity].
    destruct c as [now g request given| | | | | | | | | | | | |moment]; try done; simpl in *.
    + unfold after. rewrite create_cases.
      destruct (lease_seconds request <=? 0); [done|].
      destruct (idempotent_hit _ s) eqn:Hh; [done|].
      destruct (Messages.env_spec_digest _) as [d|e]; simpl; [|done].
      by apply lookup_app_l_Some.
    + destruct (purge_all s (to_purge moment s) Hwf) as (_ & Hh & _). unfold after. simpl.
      by rewrite Hh.
  - pose proof (exec_touches c s Hc) as Ht. revert r Hr. clear Hwf Hl Hc.
    induction Ht as [|s1 s2 s3 H12 _ IH]; intros r Hr; [by exists r|].
    destruct (touch_forward _ _ _ _ H12 Hr) as (r2 & Hr2 & He).
    destruct (IH r2 Hr2) as (r3 & Hr3 & He'). exists r3. split; [done|].
    etrans; [by apply edit_evolves|done].
Qed.

(** ** Properties *)

Definition demo_request : CreateSessionRequest := {|
  Messages.application_id := "app"; Messages.client_session_key := "k";
  Messages.env_spec := {| env_family := "fake"; env_config := []; pool_size := 1;
    max_dynamic_pool_size := None; resource_hints := [] |};
  Messages.default_policy_id := None; lease_seconds := 60; Messages.metadata := [];
  auth_token := None |}.
Definition demo0 : t := init 1 300 300.
Definition demo1 : t := exec demo0 (Create 10 "sess-1" demo_request None).
Definition demo2 : t := exec demo1 (CommitBinding 11 "sess-1" 0 "bind-1" None).

Lemma demo2_reachable : reachable demo2.
Proof.
  exists 1, 300, 300. eapply rtc_l; [exists (Create 10 "sess-1" demo_request None); split; reflexivity|].
  apply rtc_once. exists (CommitBinding 11 "sess-1" 0 "bind-1" None). split; [exact I|reflexivity].
Qed.

(** The session table is well formed in every reachable state: no duplicate keys,
    every entry points to the record of its identifier, every index entry names a
    session of the table that has this client key, operation counters start at one,
    and a record has a terminal time exactly in FAILED, LOST and CLOSED. *)
Theorem sessions_invariant (s : t) (Hs : reachable s) : wf s.
Proof. by apply reachable_wf. Qed.

Lemma sessions_invariant_witness : wf demo2.
Proof. apply sessions_invariant, demo2_reachable. Defined.

(** C22: a client key has at most one open session.  In every reachable state, two
    sessions of the table that belong to the same application and the same (nonempty)
    client key and are neither CLOSING nor CLOSED are the same session. *)
Theorem one_open_session_per_key (s : t) (sid1 sid2 : SessionId) (r1 r2 : SessionRecord.t) :
  reachable s → lookup_session sid1 s = Some r1 → lookup_session sid2 s = Some r2 →
  application_id r1 = application_id r2 → client_session_key r1 = client_session_key r2 →
  client_session_key r1 ≠ EmptyString → is_open r1 = true → is_open r2 = true → sid1 = sid2.
Proof.
  intros Hs H1 H2 Ha Hk Hne Ho1 Ho2. apply reachable_wf in Hs.
  pose proof (wf_open s Hs _ _ H1 Hne Ho1) as I1.
  assert (client_session_key r2 ≠ EmptyString) as Hne2 by congruence.
  pose proof (wf_open s Hs _ _ H2 Hne2 Ho2) as I2. rewrite Ha, Hk in I1. congruence.
Qed.

Lemma one_open_session_per_key_witness :
  ∃ r, lookup_session "sess-1" demo2 = Some r ∧ ("sess-1" : SessionId) = "sess-1".
Proof.
  eexists. split; [vm_compute; reflexivity|].
  eapply (one_open_session_per_key demo2); [apply demo2_reachable|vm_compute; reflexivity..| |
    vm_compute; reflexivity|vm_compute; reflexivity]. vm_compute. discriminate.
Defined.

(** [create] is idempotent per client key.  A lease that is not positive is refused.
    If the table holds an open session of the same application and client key, its record
    is returned and nothing changes.  Otherwise (the spec being digestible) a new record
    in CREATING enters the table, with the digest of its spec and a lease counted from
    now, and no other session changes. *)
Theorem create_branches (now : time) (g : SessionId) (request : CreateSessionRequest)
    (given : option SessionId) (s : t) (d : string) :
  wf s → _sessions s !! chosen_id g given = None →
  Messages.env_spec_digest (Messages.env_spec request) = Ok d →
  let (s', res) := create now g request given s in
  let key := client_key request in
  (lease_seconds request ≤ 0 → s' = s ∧ ∃ info, res = Raise (RuntimeApiError info) ∧
    code info = ErrorCode.INVALID_ARGUMENT) ∧
  (0 < lease_seconds request →
    (∀ sid r, lookup_session sid s = Some r → (application_id r, client_session_key r) = key →
       key.2 ≠ EmptyString → is_open r = true →
       s' = s ∧ ∃ l, res = Ok (l, false) ∧ heap s !! l = Some r) ∧
    (idempotent_hit key s = None →
       ∃ l r, res = Ok (l, true) ∧ heap s' !! l = Some r ∧
         lookup_session (chosen_id g given) s' = Some r ∧
         state r = SessionState.CREATING ∧ env_spec_digest r = d ∧
         lease_expiration r = now + lease_seconds request ∧ next_operation_seq r = 1 ∧
         ∀ sid, sid ≠ chosen_id g given → lookup_session sid s' = lookup_session sid s)).
Proof.
  intros Hwf Hfresh Hd. cbv zeta. rewrite create_cases, Hd.
  destruct (Z.leb_spec (lease_seconds request) 0) as [Hle|Hlt].
  { split; [|lia]. intros _. split; [done|]. by eexists. }
  destruct (idempotent_hit (client_key request) s) as [l|] eqn:Hh;
    (split; [lia|]); intros _; (split; [intros sid r Hr Hkey Hne Ho|]); [|done| |].
  - split; [done|]. exists l. split; [done|].
    assert (client_session_key r ≠ EmptyString) as Hne' by (by rewrite <- Hkey in Hne).
    pose proof (wf_open s Hwf _ _ Hr Hne' Ho) as Hi. rewrite Hkey in Hi.
    apply lookup_session_Some in Hr as (l' & Hl & Hr). revert Hh. unfold idempotent_hit.
    rewrite Hi. simpl. rewrite Hl. simpl. rewrite Hr. simpl.
    destruct (member _ _); [done|]. by intros [= <-].
  - rewrite (idempotent_hit_None s (client_key request) sid r) in Ho; try done.
    by rewrite <- Hkey in Hne.
  - intros _. eexists (length (heap s)), _. split; [done|].
    unfold created. cbn [heap].
    split; [by apply list_lookup_middle|]. repeat split.
    + apply lookup_session_Some. exists (length (heap s)). cbn [_sessions heap].
      rewrite dict_lookup_insert_eq. split; [done|]. by apply list_lookup_middle.
    + simpl. destruct (lease_seconds request =? 0) eqn:He; [|done]. to_prop. lia.
    + intros sid Hne. unfold lookup_session. cbn [_sessions heap].
      rewrite dict_lookup_insert_ne by done.
      destruct (_sessions s !! sid) as [l|] eqn:Hl; simpl; [|done].
      destruct (wf_table s Hwf _ _ Hl) as (r & Hr & _).
      by rewrite lookup_app_l by (by eapply lookup_lt_Some).
Qed.

Lemma create_branches_witness :
  ∃ l r, result_of (create 10 "sess-1" demo_request None) demo0 = Ok (l, true) ∧
    lookup_session "sess-1" demo1 = Some r ∧ lease_expiration r = 70.
Proof.
  destruct (Messages.env_spec_digest (Messages.env_spec demo_request)) as [d|e] eqn:Hd;
    [|vm_compute in Hd; discriminate Hd].
  pose proof (create_branches 10 "sess-1" demo_request None demo0 d (init_wf 1 300 300) eq_refl Hd) as H.
  change demo1 with (after (create 10 "sess-1" demo_request None) demo0).
  unfold after, result_of. revert H.
  generalize (create 10 "sess-1" demo_request None demo0). intros [s' res] [_ H].
  assert (Hpos : 0 < lease_seconds demo_request) by (vm_compute; reflexivity).
  destruct (H Hpos) as [_ H2].
  assert (Hnone : idempotent_hit (client_key demo_request) demo0 = None) by (vm_compute; reflexivity).
  destruct (H2 Hnone) as (l & r & Hres & _ & Hlook & _ & _ & Hexp & _).
  exists l, r. split; [exact Hres|]. split; [exact Hlook|exact Hexp].
Defined.

(** The lifecycle.  Whatever calls follow, whether they return or raise, the object a
    reference points to keeps its identity, its operation counter never goes back, and
    its state moves only along the edges of the transition table: a LOST session never
    becomes READY again, and a CLOSED one stays CLOSED. *)
Theorem session_lifecycle (s s' : t) (l : loc) (r : SessionRecord.t) :
  reachable s → rtc step s s' → heap s !! l = Some r →
  ∃ r', heap s' !! l = Some r' ∧ evolves r r' ∧
    (state r = SessionState.CLOSED → state r' = SessionState.CLOSED) ∧
    (state r = SessionState.LOST → state r' ∈ [SessionState.LOST; SessionState.CLOSED]).
Proof.
  intros Hs Hrun Hr. apply reachable_wf in Hs.
  assert (∃ r', heap s' !! l = Some r' ∧ evolves r r') as (r' & Hr' & He).
  { revert r Hr Hs. induction Hrun as [|s1 s2 s3 H12 _ IH]; intros r Hr Hs.
    - exists r. split; [done|reflexivity].
    - destruct (step_evolves _ _ _ _ Hs H12 Hr) as (r2 & Hr2 & He2).
      destruct (IH r2 Hr2 (step_wf _ _ Hs H12)) as (r3 & Hr3 & He3). exists r3.
      split; [done|by etrans]. }
  exists r'. split; [done|]. split; [done|]. destruct He as (_ & _ & _ & _ & Hedge).
  assert (Hcl : ∀ a b, rtc edge a b → a = SessionState.CLOSED → b = SessionState.CLOSED).
  { intros a b. induction 1 as [|a b c Hab _ IH]; [done|]. intros ->. discriminate Hab. }
  split; [by apply Hcl|]. intros Hl. rewrite Hl in Hedge.
  inversion Hedge as [|a b c Hab Hbc]; [set_solver|]. subst.
  destruct b; try discriminate Hab. rewrite (Hcl _ _ Hbc eq_refl). set_solver.
Qed.

Lemma session_lifecycle_witness :
  ∃ r r', heap demo1 !! 0%nat = Some r ∧ heap demo2 !! 0%nat = Some r' ∧ evolves r r'.
Proof.
  assert (H1 : reachable demo1).
  { exists 1, 300, 300. apply rtc_once. exists (Create 10 "sess-1" demo_request None).
    split; reflexivity. }
  assert (H2 : rtc step demo1 demo2).
  { apply rtc_once. exists (CommitBinding 11 "sess-1" 0 "bind-1" None). split; [exact I|reflexivity]. }
  destruct (heap demo1 !! 0%nat) as [r|] eqn:Hr; [|vm_compute in Hr; discriminate Hr].
  destruct (session_lifecycle demo1 demo2 0 r H1 H2 Hr) as (r' & Hr' & He & _). by exists r, r'.
Defined.

(** [purge_terminal] is exact.  In a reachable state it removes precisely the CLOSED
    sessions and the FAILED and LOST ones whose terminal time lies at least the retention
    back, returns their identifiers, leaves every other session in the table with its
    record, and leaves a well-formed table and index. *)
Theorem purge_terminal_exact (moment : time) (s : t) :
  reachable s →
  let s' := after (purge_terminal moment) s in
  ∃ removed, result_of (purge_terminal moment) s = Ok removed ∧ wf s' ∧
    (∀ sid, sid ∈ removed ↔ ∃ r, lookup_session sid s = Some r ∧
       (state r = SessionState.CLOSED ∨
        (state r = SessionState.FAILED ∨ state r = SessionState.LOST) ∧
        _error_retention_seconds s ≤ moment - or_else (terminal_at r) (updated_at r))) ∧
    ∀ sid, lookup_session sid s' = if decide (sid ∈ removed) then None else lookup_session sid s.
Proof.
  intros Hwf%reachable_wf. exists (to_purge moment s). split; [done|].
  destruct (purge_all s (to_purge moment s) Hwf) as (Hwf' & Hh & Hk).
  split; [done|]. split.
  - intros sid. rewrite elem_of_to_purge by done.
    split; intros (r & Hr & Hp); exists r; (split; [done|]); revert Hp; unfold purgeable;
      destruct (state r); rewrite ?Z.leb_le; naive_solver.
  - intros sid. unfold after, purge_terminal, lookup_session at 1. cbn [fst].
    rewrite Hk, Hh. case_decide; [done|]. done.
Qed.

Lemma purge_terminal_exact_witness :
  ∃ removed, result_of (purge_terminal 1000) demo2 = Ok removed ∧ "sess-1" ∉ removed.
Proof.
  destruct (purge_terminal_exact 1000 demo2 demo2_reachable) as (removed & Hr & _ & Hin & _).
  exists removed. split; [exact Hr|]. rewrite Hin. intros (r & Hl & Hst).
  vm_compute in Hl. injection Hl as <-. by destruct Hst as [|[[|] _]].
Defined.

(** [renew] succeeds exactly for a positive lease on a READY session of the caller's
    application; it then sets the lease to run from the clock's reading, so that the
    session is reported expired from that time on and not before.  When it raises,
    nothing changes. *)
Theorem renew_lease (now1 now2 : time) (sid : SessionId) (lease : time) (app : option string)
    (s : t) (r : SessionRecord.t) :
  lookup_session sid s = Some r →
  let (s', res) := renew now1 now2 sid lease app s in
  if (0 <? lease) && bool_decide (state r = SessionState.READY) &&
     match app with Some a => String.eqb (application_id r) a | None => true end
  then ∃ l r', res = Ok l ∧ lookup_session sid s' = Some r' ∧ state r' = SessionState.READY ∧
    ∀ moment, lease_expired moment r' = true ↔ now1 + lease ≤ moment
  else s' = s ∧ ∃ info, res = Raise (RuntimeApiError info) ∧
    code info = if (0 <? lease) && negb (bool_decide (state r = SessionState.READY))
                then ErrorCode.SESSION_NOT_READY else ErrorCode.INVALID_ARGUMENT.
Proof.
  intros (l & Hl & Hr)%lookup_session_Some.
  unfold renew, check, require_ready, get, deref, assign, raise, mbind, prog_bind, mret, prog_ret.
  rewrite Z.ltb_antisym. destruct (lease <=? 0); simpl; [split; [done|]; by eexists|].
  rewrite Hl, Hr. simpl.
  destruct (bool_decide_reflect (state r = SessionState.READY)) as [Hst|]; simpl; rewrite ?Hr;
    [|split; [done|]; by eexists].
  destruct (match app with Some a => _ | None => _ end); simpl; [|split; [done|]; by eexists].
  exists l, (set_updated_at now2 (set_lease_expiration (now1 + lease) r)).
  split; [done|]. split; [|split; [done|]].
  - apply lookup_session_Some. exists l. split; [done|]. simpl.
    by rewrite list_lookup_alter_eq, Hr.
  - intros moment. unfold lease_expired. simpl. rewrite Hst. simpl. apply Z.leb_le.
Qed.

Lemma renew_lease_witness :
  ∃ r, lookup_session "sess-1" demo2 = Some r ∧
    ∃ l r', result_of (renew 20 21 "sess-1" 5 (Some "app")) demo2 = Ok l ∧
      lookup_session "sess-1" (after (renew 20 21 "sess-1" 5 (Some "app")) demo2) = Some r' ∧
      lease_expired 25 r' = true ∧ lease_expired 24 r' = false.
Proof.
  destruct (lookup_session "sess-1" demo2) as [r|] eqn:Hr; [|vm_compute in Hr; discriminate Hr].
  exists r. split; [done|].
  pose proof (renew_lease 20 21 "sess-1" 5 (Some "app") demo2 r Hr) as H.
  unfold result_of, after. destruct (renew _ _ _ _ _ demo2) as [s' res].
  vm_compute in Hr. injection Hr as <-. destruct H as (l & r' & Hres & Hl & _ & He).
  exists l, r'. split; [done|]. split; [done|]. split; [by apply He|].
  apply not_true_iff_false. rewrite He. lia.
Defined.

(** A session runs one mutating operation at a time.  Once [begin_operation] has
    succeeded, every further [begin_operation] on the record is refused with
    SESSION_NOT_READY and changes nothing, until [end_operation] is called with the same
    identifier; called with another one it changes nothing. *)
Theorem one_operation_at_a_time (l : loc) (rid : RequestId) (s : t) :
  result_of (begin_operation l rid) s = Ok tt →
  let s1 := after (begin_operation l rid) s in
  (∀ rid', ∃ info, begin_operation l rid' s1 = (s1, Raise (RuntimeApiError info)) ∧
     code info = ErrorCode.SESSION_NOT_READY) ∧
  (∀ rid', rid' ≠ rid → after (end_operation l rid') s1 = s1) ∧
  ∀ rid', result_of (begin_operation l rid') (after (end_operation l rid) s1) = Ok tt.
Proof.
  unfold result_of, after, begin_operation, end_operation, deref, assign, raise, mbind, prog_bind,
    mret, prog_ret.
  destruct (heap s !! l) as [r|] eqn:Hr; [|done]. destruct (active_operation r) eqn:Ha; [done|].
  intros _. simpl. repeat rewrite list_lookup_alter_eq. rewrite Hr. simpl. split; [|split].
  - intros rid'. by eexists.
  - intros rid' Hne. by rewrite bool_decide_false by congruence.
  - intros rid'. rewrite bool_decide_true by done. simpl.
    by rewrite !list_lookup_alter_eq, Hr.
Qed.

Lemma one_operation_at_a_time_witness :
  ∃ info, result_of (begin_operation 0 "r2") (after (begin_operation 0 "r1") demo2) =
    Raise (RuntimeApiError info) ∧ code info = ErrorCode.SESSION_NOT_READY.
Proof.
  destruct (one_operation_at_a_time 0 "r1" demo2 eq_refl) as [H _].
  destruct (H "r2") as (info & He & Hc). exists info. split; [|exact Hc].
  unfold result_of. by rewrite He.
Defined.

End SessionManager.
