(* ===== verification/GatewayAdmission.v ===== *)
(** * Admission control: [rollout_runtime/gateway/admission.py]

    [AdmissionController] counts admitted sessions per application and in-flight
    operations per application, per session and in total, and refuses what exceeds the
    configured limits.

    The specification is the multiset of what is actually held: the admitted sessions and
    the tickets (application, session) of the operations in flight.  [forget_session] gives
    back the operations of a session before they complete, and their completion gives back
    another one: an account records, beside what is held, how many operations each counter
    has given back early.  For every sequence of calls in which only what is held is given
    back, a counter is the number held less what it gave back early ([counters_refine]); the
    counters of the applications give back nothing early, and none does while no session was
    forgotten with an operation in flight: then the counters are the cardinalities of what
    is held and all limits hold ([limits_hold]).  With such a session the global limit is
    exceeded ([forgetting_in_flight_undercounts]). *)

From stdpp Require Import pretty.
From S2P Require Import Prelude PyDict Codec Api.

Open Scope string_scope.
Open Scope list_scope.
Open Scope Z_scope.

Record AdmissionConfig := {
  require_auth : bool;
  tokens : pydict string string;
  max_sessions_per_application : Z;
  max_inflight_operations_per_application : Z;
  max_inflight_operations_per_session : Z;
  max_total_inflight_operations : Z;
}.

Record AdmissionSnapshot := {
  snap_sessions_per_application : pydict string Z;
  snap_inflight_per_application : pydict string Z;
  snap_inflight_per_session : pydict string Z;
  snap_total_inflight : Z;
  snap_rejected : pydict string Z;
}.

Module AdmissionController.

Record t := Controller {
  _config : AdmissionConfig;
  _sessions : pydict string Z;
  _inflight_app : pydict string Z;
  _inflight_session : pydict SessionId Z;
  _total_inflight : Z;
  _rejected : pydict string Z;
}.

Definition op (A : Type) : Type := prog t exn A.

Definition init (config : AdmissionConfig) : t := Controller config ∅ ∅ ∅ 0 ∅.

(** [raise self._reject(code, ...)]: count the rejection, then raise. *)
Definition _reject {A} (c : ErrorCode.t) (msg : string) (details : list (string * value)) :
    op A := λ s,
  (Controller (_config s) (_sessions s) (_inflight_app s) (_inflight_session s) (_total_inflight s)
     (<[ErrorCode.name c := get_or (_rejected s) (ErrorCode.name c) 0 + 1]> (_rejected s)),
   Raise (RuntimeApiError (error_of c msg details))).

Definition authenticate (app : string) (token : option string) : op unit :=
  s ← get_state;
  if negb (str_true app) then
    _reject ErrorCode.INVALID_ARGUMENT "application_id must not be empty"
      [("reason", VStr "authentication")]
  else if negb (require_auth (_config s)) then mret tt
  else
    let expected := tokens (_config s) !! app in
    if negb (from_option str_true false expected) || negb (bool_decide (token = expected)) then
      _reject ErrorCode.INVALID_ARGUMENT ("authentication failed for application " +:+ app)
        [("reason", VStr "authentication"); ("application_id", VStr app)]
    else mret tt.

Definition set_sessions (d : pydict string Z) : op unit := modify (λ s,
  Controller (_config s) d (_inflight_app s) (_inflight_session s) (_total_inflight s) (_rejected s)).

Definition admit_session (app : string) (token : option string) : op unit :=
  authenticate app token ≫= λ _,
  s ← get_state;
  let current := get_or (_sessions s) app 0 in
  if max_sessions_per_application (_config s) <=? current then
    _reject ErrorCode.QUOTA_EXCEEDED ("application " +:+ app +:+ " reached its session limit ("
        +:+ pretty (max_sessions_per_application (_config s)) +:+ ")")
      [("application_id", VStr app);
       ("limit", VInt (max_sessions_per_application (_config s))); ("current", VInt current)]
  else set_sessions (<[app := current + 1]> (_sessions s)).

(** [pop] at one or below, decrement above. *)
Definition give_back (d : pydict string Z) (k : string) : pydict string Z :=
  let current := get_or d k 0 in
  if current <=? 1 then delete k d else <[k := current - 1]> d.

Definition release_session (app : string) : op unit :=
  s ← get_state; set_sessions (give_back (_sessions s) app).

Definition set_inflight (by_app by_session : pydict string Z) (total : Z) : op unit :=
  modify (λ s, Controller (_config s) (_sessions s) by_app by_session total (_rejected s)).

Definition admit_operation (now : time) (app : string) (sid : SessionId) (deadline : option time)
    (queue_depth : Z) (queue_capacity : option Z) : op unit :=
  s ← get_state;
  if (match deadline with Some d => d <=? now | None => false end) then
    _reject ErrorCode.DEADLINE_EXCEEDED ("deadline already elapsed for session " +:+ sid)
      [("session_id", VStr sid)]
  else if (match queue_capacity with Some c => c <=? queue_depth | None => false end) then
    _reject ErrorCode.QUEUE_FULL "downstream queue is full"
      [("session_id", VStr sid); ("queue_depth", VInt queue_depth);
       ("queue_capacity", from_option VInt VNone queue_capacity)]
  else if max_total_inflight_operations (_config s) <=? _total_inflight s then
    _reject ErrorCode.QUEUE_FULL "gateway reached its global in-flight limit"
      [("limit", VInt (max_total_inflight_operations (_config s)))]
  else
    let app_inflight := get_or (_inflight_app s) app 0 in
    if max_inflight_operations_per_application (_config s) <=? app_inflight then
      _reject ErrorCode.QUOTA_EXCEEDED ("application " +:+ app +:+ " reached its in-flight limit")
        [("application_id", VStr app);
         ("limit", VInt (max_inflight_operations_per_application (_config s)));
         ("current", VInt app_inflight)]
    else
      let session_inflight := get_or (_inflight_session s) sid 0 in
      if max_inflight_operations_per_session (_config s) <=? session_inflight then
        _reject ErrorCode.QUOTA_EXCEEDED ("session " +:+ sid +:+ " reached its in-flight limit")
          [("session_id", VStr sid);
           ("limit", VInt (max_inflight_operations_per_session (_config s)));
           ("current", VInt session_inflight)]
      else
        set_inflight (<[app := app_inflight + 1]> (_inflight_app s))
          (<[sid := session_inflight + 1]> (_inflight_session s)) (_total_inflight s + 1).

Definition complete_operation (app : string) (sid : SessionId) : op unit :=
  s ← get_state;
  set_inflight (give_back (_inflight_app s) app) (give_back (_inflight_session s) sid)
    (Z.max 0 (_total_inflight s - 1)).

Definition forget_session (sid : SessionId) : op unit :=
  s ← get_state;
  let remaining := get_or (_inflight_session s) sid 0 in
  set_inflight (_inflight_app s) (delete sid (_inflight_session s))
    (Z.max 0 (_total_inflight s - remaining)).

Definition snapshot (s : t) : AdmissionSnapshot := {|
  snap_sessions_per_application := _sessions s;
  snap_inflight_per_application := _inflight_app s;
  snap_inflight_per_session := _inflight_session s;
  snap_total_inflight := _total_inflight s;
  snap_rejected := _rejected s;
|}.

Definition rejected_counts (s : t) : pydict string Z := _rejected s.

(** ** What is held *)

Record held := Held { sessions : list string; tickets : list (string * SessionId) }.

Definition sessions_of (app : string) (h : held) : Z := count (String.eqb app) (sessions h).
Definition app_tickets (app : string) (h : held) : Z :=
  count (λ k, String.eqb app k.1) (tickets h).
Definition session_tickets (sid : SessionId) (h : held) : Z :=
  count (λ k, String.eqb sid k.2) (tickets h).

(** One call and its effect on what is held.  A call that raises admits nothing; a
    session or a ticket is given back only by who holds it, and a session is forgotten when
    it has no operation in flight. *)
Inductive step : t * held → t * held → Prop :=
  | step_admit_session s h app token :
      step (s, h) (after (admit_session app token) s,
        if is_ok (result_of (admit_session app token) s)
        then Held (app :: sessions h) (tickets h) else h)
  | step_release_session s h app rest :
      sessions h ≡ₚ app :: rest →
      step (s, h) (after (release_session app) s, Held rest (tickets h))
  | step_admit_operation s h now app sid deadline depth capacity :
      step (s, h) (after (admit_operation now app sid deadline depth capacity) s,
        if is_ok (result_of (admit_operation now app sid deadline depth capacity) s)
        then Held (sessions h) ((app, sid) :: tickets h) else h)
  | step_complete_operation s h app sid rest :
      tickets h ≡ₚ (app, sid) :: rest →
      step (s, h) (after (complete_operation app sid) s, Held (sessions h) rest)
  | step_forget_session s h sid :
      session_tickets sid h = 0 →
      step (s, h) (after (forget_session sid) s, h).

Definition reachable (config : AdmissionConfig) (x : t * held) : Prop :=
  rtc step (init config, Held [] []) x.

(** *** Sessions forgotten at any time *)

(** What is held, the operations that the counter of a session and the total gave back
    before they completed, and the sessions that were forgotten with one in flight. *)
Record account := Account {
  running : held;
  early : SessionId → Z;
  early_total : Z;
  forgotten : list SessionId;
}.

Definition opened : account := Account (Held [] []) (λ _, 0) 0 [].
Definition holds (h : held) (a : account) : account := Account h (early a) (early_total a) (forgotten a).
Definition set_early (sid : SessionId) (n : Z) (f : SessionId → Z) : SessionId → Z :=
  λ x, if decide (x = sid) then n else f x.

(** An operation of [sid] ends; nobody gave back more than what still runs. *)
Definition ended (sid : SessionId) (h : held) (a : account) : account :=
  Account h (set_early sid (Z.min (early a sid) (session_tickets sid h)) (early a))
    (Z.min (early_total a) (zlen (tickets h))) (forgotten a).

(** The operations of [sid] that still count are given back. *)
Definition forgets (sid : SessionId) (a : account) : account :=
  let n := session_tickets sid (running a) in
  Account (running a) (set_early sid n (early a))
    (Z.min (early_total a + (n - early a sid)) (zlen (tickets (running a))))
    (if decide (n = 0) then forgotten a else sid :: forgotten a).

(** One call, and its effect on the account. *)
Inductive call : t * account → t * account → Prop :=
  | call_admit_session s a app token :
      call (s, a) (after (admit_session app token) s,
        if is_ok (result_of (admit_session app token) s)
        then holds (Held (app :: sessions (running a)) (tickets (running a))) a else a)
  | call_release_session s a app rest :
      sessions (running a) ≡ₚ app :: rest →
      call (s, a) (after (release_session app) s, holds (Held rest (tickets (running a))) a)
  | call_admit_operation s a now app sid deadline depth capacity :
      call (s, a) (after (admit_operation now app sid deadline depth capacity) s,
        if is_ok (result_of (admit_operation now app sid deadline depth capacity) s)
        then holds (Held (sessions (running a)) ((app, sid) :: tickets (running a))) a else a)
  | call_complete_operation s a app sid rest :
      tickets (running a) ≡ₚ (app, sid) :: rest →
      call (s, a) (after (complete_operation app sid) s, ended sid (Held (sessions (running a)) rest) a)
  | call_forget_session s a sid :
      call (s, a) (after (forget_session sid) s, forgets sid a).

Definition called (config : AdmissionConfig) (x : t * account) : Prop := rtc call (init config, opened) x.

(** ** Counters as functions *)

Lemma get_or_insert d (k k' : string) (v x : Z) :
  get_or (<[k' := v]> d) k x = if decide (k = k') then v else get_or d k x.
Proof. unfold get_or. rewrite dict_lookup_insert. by case_decide. Qed.
Lemma get_or_delete d (k k' : string) (x : Z) :
  get_or (delete k' d) k x = if decide (k = k') then x else get_or d k x.
Proof. unfold get_or. rewrite dict_lookup_delete. by case_decide. Qed.
Lemma get_or_give_back d k k' :
  0 ≤ get_or d k' 0 →
  get_or (give_back d k') k 0 = get_or d k 0 - (if decide (k = k') then Z.min 1 (get_or d k' 0) else 0).
Proof.
  intros Hp. unfold give_back. destruct (Z.leb_spec (get_or d k' 0) 1);
    rewrite ?get_or_delete, ?get_or_insert; case_decide; subst; lia.
Qed.

Lemma eqb_count_cons (k k' : string) : Z.b2z (String.eqb k k') = if decide (k = k') then 1 else 0.
Proof. destruct (String.eqb_spec k k'); by case_decide. Qed.

Record represents (config : AdmissionConfig) (s : t) (h : held) : Prop := {
  rep_config : _config s = config;
  rep_sessions app : get_or (_sessions s) app 0 = sessions_of app h;
  rep_app app : get_or (_inflight_app s) app 0 = app_tickets app h;
  rep_session sid : get_or (_inflight_session s) sid 0 = session_tickets sid h;
  rep_total : _total_inflight s = zlen (tickets h);
}.

(** The counters are what is held less what was given back early, and within the limits. *)
Record accounts (config : AdmissionConfig) (s : t) (a : account) : Prop := {
  acc_config : _config s = config;
  acc_sessions app : get_or (_sessions s) app 0 = sessions_of app (running a);
  acc_app app : get_or (_inflight_app s) app 0 = app_tickets app (running a);
  acc_session sid : get_or (_inflight_session s) sid 0 = session_tickets sid (running a) - early a sid;
  acc_total : _total_inflight s = zlen (tickets (running a)) - early_total a;
  acc_early sid : 0 ≤ early a sid ≤ session_tickets sid (running a);
  acc_early_total : 0 ≤ early_total a ≤ zlen (tickets (running a));
  acc_exact sid : sid ∉ forgotten a → early a sid = 0;
  acc_exact_total : forgotten a = [] → early_total a = 0;
  acc_limit_sessions app : sessions_of app (running a) ≤ Z.max 0 (max_sessions_per_application config);
  acc_limit_app app : app_tickets app (running a) ≤ Z.max 0 (max_inflight_operations_per_application config);
  acc_limit_session sid :
    get_or (_inflight_session s) sid 0 ≤ Z.max 0 (max_inflight_operations_per_session config);
  acc_limit_total : _total_inflight s ≤ Z.max 0 (max_total_inflight_operations config);
}.

Definition within_limits (config : AdmissionConfig) (h : held) : Prop :=
  (∀ app, sessions_of app h ≤ Z.max 0 (max_sessions_per_application config)) ∧
  (∀ app, app_tickets app h ≤ Z.max 0 (max_inflight_operations_per_application config)) ∧
  (∀ sid, session_tickets sid h ≤ Z.max 0 (max_inflight_operations_per_session config)) ∧
  zlen (tickets h) ≤ Z.max 0 (max_total_inflight_operations config).

(** ** The calls, closed form *)

Definition authenticates (config : AdmissionConfig) (app : string) (token : option string) : bool :=
  str_true app &&
  (negb (require_auth config) ||
   (from_option str_true false (tokens config !! app) &&
    bool_decide (token = tokens config !! app))).

(** A refused call changes nothing but the rejection counts. *)
Definition refused {A} (s : t) (x : t * outcome exn A) : Prop :=
  ∃ r info, x = (Controller (_config s) (_sessions s) (_inflight_app s) (_inflight_session s)
    (_total_inflight s) r, Raise (RuntimeApiError info)).

Lemma authenticate_cases app token s :
  if authenticates (_config s) app token then authenticate app token s = (s, Ok tt)
  else refused s (authenticate app token s).
Proof.
  unfold authenticates, authenticate, refused, get_state, mbind, prog_bind, _reject.
  destruct (str_true app); simpl; [|by eexists _, _].
  destruct (require_auth (_config s)); simpl; [|done].
  destruct (from_option _ _ _); simpl; [|by eexists _, _].
  destruct (bool_decide _); simpl; [done|by eexists _, _].
Qed.

Definition session_admissible (app : string) (token : option string) (s : t) : bool :=
  authenticates (_config s) app token &&
  (get_or (_sessions s) app 0 <? max_sessions_per_application (_config s)).

Lemma admit_session_cases app token s :
  if session_admissible app token s then
    admit_session app token s =
      (Controller (_config s) (<[app := get_or (_sessions s) app 0 + 1]> (_sessions s))
         (_inflight_app s) (_inflight_session s) (_total_inflight s) (_rejected s), Ok tt)
  else refused s (admit_session app token s).
Proof.
  pose proof (authenticate_cases app token s) as Ha.
  unfold session_admissible, admit_session, mbind, prog_bind, get_state.
  destruct (authenticates (_config s) app token); simpl.
  - rewrite Ha, Z.ltb_antisym. destruct (_ <=? _); simpl; [by eexists _, _|done].
  - destruct Ha as (r & info & ->). by eexists _, _.
Qed.

Definition operation_admissible (now : time) (app : string) (sid : SessionId)
    (deadline : option time) (depth : Z) (capacity : option Z) (s : t) : bool :=
  (match deadline with Some d => now <? d | None => true end) &&
  (match capacity with Some c => depth <? c | None => true end) &&
  (_total_inflight s <? max_total_inflight_operations (_config s)) &&
  (get_or (_inflight_app s) app 0 <? max_inflight_operations_per_application (_config s)) &&
  (get_or (_inflight_session s) sid 0 <? max_inflight_operations_per_session (_config s)).

Lemma admit_operation_cases now app sid deadline depth capacity s :
  if operation_admissible now app sid deadline depth capacity s then
    admit_operation now app sid deadline depth capacity s =
      (Controller (_config s) (_sessions s)
         (<[app := get_or (_inflight_app s) app 0 + 1]> (_inflight_app s))
         (<[sid := get_or (_inflight_session s) sid 0 + 1]> (_inflight_session s))
         (_total_inflight s + 1) (_rejected s), Ok tt)
  else refused s (admit_operation now app sid deadline depth capacity s).
Proof.
  unfold operation_admissible, admit_operation, get_state, mbind, prog_bind.
  rewrite !(Z.ltb_antisym _ (_total_inflight s)), !(Z.ltb_antisym _ (get_or _ _ _)).
  destruct deadline as [d|]; [rewrite Z.ltb_antisym; destruct (d <=? now)|];
    (destruct capacity as [c|]; [rewrite Z.ltb_antisym; destruct (c <=? depth)|]); simpl;
    try (by eexists _, _);
    (destruct (max_total_inflight_operations _ <=? _); simpl; [by eexists _, _|]);
    (destruct (max_inflight_operations_per_application _ <=? _); simpl; [by eexists _, _|]);
    (destruct (max_inflight_operations_per_session _ <=? _); simpl; [by eexists _, _|done]).
Qed.

(** ** Refinement *)

Lemma accounts_refused {A} config s a (x : t * outcome exn A) :
  accounts config s a → refused s x → accounts config x.1 a ∧ is_ok x.2 = false.
Proof. by intros [] (r & info & ->). Qed.

Lemma set_early_lookup sid n f x : set_early sid n f x = if decide (x = sid) then n else f x.
Proof. done. Qed.

Lemma admit_session_accounts config s a app token :
  accounts config s a → accounts config (after (admit_session app token) s)
    (if is_ok (result_of (admit_session app token) s)
     then holds (Held (app :: sessions (running a)) (tickets (running a))) a else a).
Proof.
  intros Hacc. pose proof (admit_session_cases app token s) as Hc. unfold after, result_of.
  destruct (session_admissible app token s) eqn:Ha;
    [|by destruct (accounts_refused _ _ _ _ Hacc Hc) as [? ->]].
  rewrite Hc. destruct Hacc as [R1 R2 R3 R4 R5 B1 B2 X1 X2 L1 L2 L3 L4]. unfold session_admissible in Ha. to_prop.
  split; simpl; try done; intros app'; unfold sessions_of in *; simpl.
  - rewrite get_or_insert, count_cons, eqb_count_cons, <- !R2. case_decide; subst; lia.
  - specialize (L1 app'). rewrite count_cons, eqb_count_cons. case_decide; [|lia]. subst app'. rewrite R2, R1 in *. lia.
Qed.

Lemma release_session_accounts config s a app rest :
  accounts config s a → sessions (running a) ≡ₚ app :: rest →
  accounts config (after (release_session app) s) (holds (Held rest (tickets (running a))) a).
Proof.
  intros [R1 R2 R3 R4 R5 B1 B2 X1 X2 L1 L2 L3 L4] Hp.
  assert (Hs : ∀ x, sessions_of x (running a) = Z.b2z (String.eqb x app) + count (String.eqb x) rest).
  { intros x. unfold sessions_of. by rewrite (count_perm _ _ _ Hp), count_cons. }
  split; simpl; try done; intros x; unfold sessions_of; simpl.
  - pose proof (count_bounds (String.eqb app) rest) as Hb.
    rewrite get_or_give_back, !R2, !Hs, !eqb_count_cons; rewrite ?R2, ?Hs, ?eqb_count_cons;
      repeat case_decide; subst; try done; lia.
  - specialize (L1 x). rewrite Hs in L1. destruct (String.eqb x app); simpl in L1; lia.
Qed.

Lemma admit_operation_accounts config s a now app sid deadline depth capacity :
  accounts config s a → accounts config (after (admit_operation now app sid deadline depth capacity) s)
    (if is_ok (result_of (admit_operation now app sid deadline depth capacity) s)
     then holds (Held (sessions (running a)) ((app, sid) :: tickets (running a))) a else a).
Proof.
  intros Hacc. pose proof (admit_operation_cases now app sid deadline depth capacity s) as Hc. unfold after, result_of.
  destruct (operation_admissible _ _ _ _ _ _ s) eqn:Ha;
    [|by destruct (accounts_refused _ _ _ _ Hacc Hc) as [? ->]].
  rewrite Hc. destruct Hacc as [R1 R2 R3 R4 R5 B1 B2 X1 X2 L1 L2 L3 L4]. unfold operation_admissible in Ha.
  apply andb_true_iff in Ha as [[[_ At]%andb_true_iff Aa]%andb_true_iff As]. to_prop.
  assert (Hs : ∀ x, session_tickets x (Held (sessions (running a)) ((app, sid) :: tickets (running a))) =
    session_tickets x (running a) + if decide (x = sid) then 1 else 0).
  { intros x. unfold session_tickets. simpl. rewrite count_cons. simpl. rewrite eqb_count_cons. lia. }
  assert (Happ : ∀ x, app_tickets x (Held (sessions (running a)) ((app, sid) :: tickets (running a))) =
    app_tickets x (running a) + if decide (x = app) then 1 else 0).
  { intros x. unfold app_tickets. simpl. rewrite count_cons. simpl. rewrite eqb_count_cons. lia. }
  cbn [is_ok snd fst]. split; cbn [holds running early early_total forgotten _config _sessions _inflight_app
    _inflight_session _total_inflight]; try done.
  - intros x. rewrite Happ, get_or_insert, <- !R3. case_decide; subst; lia.
  - intros x. rewrite Hs, get_or_insert, !R4. case_decide; subst; lia.
  - rewrite R5. unfold zlen. simpl. lia.
  - intros x. rewrite Hs. specialize (B1 x). case_decide; lia.
  - unfold zlen in *. simpl. lia.
  - intros x. rewrite Happ. specialize (L2 x). case_decide; [|lia]. subst. rewrite R3 in Aa. lia.
  - intros x. rewrite get_or_insert. specialize (L3 x). case_decide; [|done]. subst. lia.
  - subst. lia.
Qed.

Lemma complete_operation_accounts config s a app sid rest :
  accounts config s a → tickets (running a) ≡ₚ (app, sid) :: rest →
  accounts config (after (complete_operation app sid) s) (ended sid (Held (sessions (running a)) rest) a).
Proof.
  intros [R1 R2 R3 R4 R5 B1 B2 X1 X2 L1 L2 L3 L4] Hp.
  set (h := Held (sessions (running a)) rest).
  assert (Ha : ∀ x, app_tickets x (running a) = (if decide (x = app) then 1 else 0) + app_tickets x h).
  { intros x. unfold app_tickets. rewrite (count_perm _ _ _ Hp), count_cons. simpl. by rewrite eqb_count_cons. }
  assert (Hs : ∀ x, session_tickets x (running a) = (if decide (x = sid) then 1 else 0) + session_tickets x h).
  { intros x. unfold session_tickets. rewrite (count_perm _ _ _ Hp), count_cons. simpl. by rewrite eqb_count_cons. }
  assert (Ht : zlen (tickets (running a)) = 1 + zlen (tickets h)) by (unfold zlen; rewrite Hp; simpl; lia).
  pose proof (zlen_nonneg (tickets h)) as Hnn.
  assert (Hn : ∀ x, 0 ≤ app_tickets x h) by (intros x; apply count_bounds).
  assert (Hn' : ∀ x, 0 ≤ session_tickets x h) by (intros x; apply count_bounds).
  unfold after, complete_operation, set_inflight, get_state, modify, mbind, prog_bind. cbn [fst].
  split; cbn [ended running early early_total forgotten _config _sessions _inflight_app _inflight_session
    _total_inflight]; try done.
  - intros x. pose proof (Hn app). rewrite get_or_give_back, !R3, !Ha; rewrite ?R3, ?Ha;
      repeat case_decide; subst; try done; lia.
  - intros x. pose proof (B1 sid). pose proof (B1 x). rewrite get_or_give_back by (rewrite R4; lia).
    rewrite !R4, set_early_lookup. pose proof (Hs x). pose proof (Hs sid). repeat case_decide; subst; try done; lia.
  - simpl. rewrite R5, Ht. simpl in *. lia.
  - intros x. rewrite set_early_lookup. pose proof (B1 x). pose proof (Hs x). pose proof (Hn' x). case_decide; subst; lia.
  - lia.
  - intros x Hx. rewrite set_early_lookup. case_decide as E; [subst x|by apply X1].
    rewrite (X1 sid Hx). specialize (Hn' sid). lia.
  - intros Hf. rewrite (X2 Hf). lia.
  - intros x. specialize (L2 x). rewrite Ha in L2. case_decide; lia.
  - intros x. pose proof (B1 sid). rewrite get_or_give_back by (rewrite R4; lia). specialize (L3 x). case_decide; [subst|]; lia.
  - simpl. lia.
Qed.

Lemma forget_session_accounts config s a sid :
  accounts config s a → accounts config (after (forget_session sid) s) (forgets sid a).
Proof.
  intros [R1 R2 R3 R4 R5 B1 B2 X1 X2 L1 L2 L3 L4]. pose proof (B1 sid) as Hb.
  split; cbn [forgets running early early_total forgotten]; try done.
  - intros x. simpl. rewrite get_or_delete, set_early_lookup. case_decide; [subst; lia|apply R4].
  - simpl. rewrite R4, R5. lia.
  - intros x. rewrite set_early_lookup. case_decide; [subst; lia|apply B1].
  - lia.
  - intros x Hx. rewrite set_early_lookup. destruct (decide (session_tickets sid (running a) = 0)) as [E|E].
    + case_decide; [lia|by apply X1].
    + apply not_elem_of_cons in Hx as [Hne Hx]. rewrite decide_False by done. by apply X1.
  - destruct (decide (session_tickets sid (running a) = 0)) as [E|E]; [|done]. intros Hf. rewrite (X2 Hf). lia.
  - intros x. simpl. rewrite get_or_delete. case_decide; [lia|apply L3].
  - simpl. rewrite R4. lia.
Qed.

Lemma called_accounts config x : called config x → accounts config x.1 x.2.
Proof.
  intros H. unfold called in H. revert x H. refine (rtc_ind_r _ _ _ _).
  - split; simpl; try done; intros; unfold sessions_of, app_tickets, session_tickets, zlen; simpl;
      rewrite ?count_nil; unfold get_or; simpl; try lia; done.
  - intros [s a] [s' a'] _ Hc Hacc. simpl in Hacc. inversion Hc; subst; simpl.
    + by apply admit_session_accounts.
    + by apply release_session_accounts.
    + by apply admit_operation_accounts.
    + by apply complete_operation_accounts.
    + by apply forget_session_accounts.
Qed.

(** Nothing was given back early. *)
Lemma exact_represents config s a :
  accounts config s a → forgotten a = [] → represents config s (running a) ∧ within_limits config (running a).
Proof.
  intros [R1 R2 R3 R4 R5 B1 B2 X1 X2 L1 L2 L3 L4] Hf.
  assert (He : ∀ sid, early a sid = 0) by (intros sid; apply X1; rewrite Hf; apply not_elem_of_nil).
  assert (Hs : ∀ sid, get_or (_inflight_session s) sid 0 = session_tickets sid (running a)) by (intros sid; rewrite R4, He; lia).
  split; [split; try done; rewrite R5, (X2 Hf); lia|]. split; [done|]. split; [done|]. split.
  - intros sid. by rewrite <- Hs.
  - rewrite R5, (X2 Hf) in L4. lia.
Qed.

(** Runs that forget a session only with no operation in flight. *)
Lemma reachable_called config x :
  reachable config x → ∃ a, called config (x.1, a) ∧ running a = x.2 ∧ forgotten a = [].
Proof.
  unfold reachable, called. revert x. refine (rtc_ind_r _ _ _ _); [by exists opened|].
  intros [s h] [s' h'] _ Hst (a & Hc & Hr & Hf). simpl in *. subst h.
  inversion Hst as [? ? app token|? ? app rest Hp|? ? now app sid dl depth cap|? ? app sid rest Hp|? ? sid Hz]; subst.
  - eexists. split; [eapply rtc_r; [exact Hc|apply (call_admit_session s a app token)]|]. by destruct (is_ok _).
  - eexists. split; [eapply rtc_r; [exact Hc|by apply call_release_session]|]. done.
  - eexists. split; [eapply rtc_r; [exact Hc|apply (call_admit_operation s a now app sid dl depth cap)]|].
    by destruct (is_ok _).
  - eexists. split; [eapply rtc_r; [exact Hc|by apply call_complete_operation]|]. done.
  - eexists. split; [eapply rtc_r; [exact Hc|by apply call_forget_session]|]. split; [done|]. simpl. by rewrite decide_True.
Qed.

Lemma reachable_represents config x :
  reachable config x → represents config x.1 x.2 ∧ within_limits config x.2.
Proof.
  intros (a & Hc & <- & Hf)%reachable_called. by apply (exact_represents config x.1 a); [apply (called_accounts config (_, a))|].
Qed.

(** ** Properties *)


(** The limits hold.  In every state of a run that forgets a session only with no operation in
    flight, no application holds more sessions or more
    operations in flight than its limits, no session more operations than its limit, and
    the gateway as a whole no more operations than the global limit. *)
Theorem limits_hold (config : AdmissionConfig) (s : t) (h : held) :
  reachable config (s, h) → within_limits config h.
Proof. intros H. apply (reachable_represents config (s, h) H). Qed.

Definition demo_config : AdmissionConfig := {|
  require_auth := false; tokens := ∅; max_sessions_per_application := 2;
  max_inflight_operations_per_application := 4; max_inflight_operations_per_session := 2;
  max_total_inflight_operations := 1 |}.
Definition demo1 : t := after (admit_operation 0 "app" "s1" None 0 None) (init demo_config).

Lemma demo1_reachable : reachable demo_config (demo1, Held [] [("app", "s1")]).
Proof.
  apply rtc_once.
  exact (step_admit_operation (init demo_config) (Held [] []) 0 "app" "s1" None 0 None).
Qed.

(** The session is forgotten while its operation runs: nothing counts of it. *)
Definition demo2 : t := after (forget_session "s1") demo1.
Definition demo_account : account := Account (Held [] [("app", "s1")]) (set_early "s1" 1 (λ _, 0)) 1 ["s1"].
Lemma demo2_called : called demo_config (demo2, demo_account).
Proof.
  eapply rtc_l; [exact (call_admit_operation (init demo_config) opened 0 "app" "s1" None 0 None)|].
  apply rtc_once. exact (call_forget_session demo1 (holds (Held [] [("app", "s1")]) opened) "s1").
Qed.

Lemma limits_hold_witness : within_limits demo_config (Held [] [("app", "s1")]).
Proof. apply (limits_hold demo_config demo1), demo1_reachable. Defined.

(** [admit_operation] decides exactly.  It admits when the deadline lies ahead, the
    downstream queue has room and every counter is below its limit, and then raises each
    of the three counters by one; otherwise it raises, leaves every counter as it was and
    counts the rejection; an elapsed deadline takes precedence over a full queue, and a
    full queue over a quota. *)
Theorem admit_operation_decides (now : time) (app : string) (sid : SessionId)
    (deadline : option time) (depth : Z) (capacity : option Z) (s : t) :
  let (s', res) := admit_operation now app sid deadline depth capacity s in
  if operation_admissible now app sid deadline depth capacity s then
    res = Ok tt ∧ _total_inflight s' = _total_inflight s + 1 ∧
    (∀ a, get_or (_inflight_app s') a 0 =
       get_or (_inflight_app s) a 0 + (if decide (a = app) then 1 else 0)) ∧
    (∀ x, get_or (_inflight_session s') x 0 =
       get_or (_inflight_session s) x 0 + (if decide (x = sid) then 1 else 0))
  else
    refused s (s', res) ∧
    ∃ info, res = Raise (RuntimeApiError info) ∧
      get_or (_rejected s') (ErrorCode.name (code info)) 0 =
        get_or (_rejected s) (ErrorCode.name (code info)) 0 + 1 ∧
      code info =
        if (match deadline with Some d => d <=? now | None => false end)
        then ErrorCode.DEADLINE_EXCEEDED
        else if (match capacity with Some c => c <=? depth | None => false end)
                || (max_total_inflight_operations (_config s) <=? _total_inflight s)
        then ErrorCode.QUEUE_FULL else ErrorCode.QUOTA_EXCEEDED.
Proof.
  pose proof (admit_operation_cases now app sid deadline depth capacity s) as Hc.
  destruct (operation_admissible _ _ _ _ _ _ s) eqn:Ha.
  { rewrite Hc. simpl. repeat split; intros; rewrite get_or_insert; case_decide; subst; lia. }
  assert (Hrej : ∀ c msg det, let (s', res) := @_reject unit c msg det s in
    res = Raise (RuntimeApiError (error_of c msg det)) ∧
    get_or (_rejected s') (ErrorCode.name c) 0 = get_or (_rejected s) (ErrorCode.name c) 0 + 1).
  { intros c msg det. simpl. split; [done|]. by rewrite get_or_insert, decide_True. }
  destruct (admit_operation now app sid deadline depth capacity s) as [s' res] eqn:He.
  split; [done|]. revert He Ha. clear Hc.
  unfold operation_admissible, admit_operation, get_state, mbind, prog_bind.
  rewrite !(Z.ltb_antisym _ (_total_inflight s)), !(Z.ltb_antisym _ (get_or _ _ _)).
  destruct (match deadline with Some d => d <=? now | None => false end) eqn:Hdl;
    [intros He _|destruct (match capacity with Some c => c <=? depth | None => false end) eqn:Hcap;
      [intros He _|destruct (max_total_inflight_operations _ <=? _) eqn:Ht;
        [intros He _|destruct (max_inflight_operations_per_application _ <=? _) eqn:Hap;
          [intros He _|destruct (max_inflight_operations_per_session _ <=? _) eqn:Hse;
            [intros He _|]]]]].
  1-5: match goal with He : _reject ?c ?m ?d _ = _, Hrej : _ |- _ =>
      pose proof (Hrej c m d) as H; rewrite He in H; destruct H as [-> H];
      eexists; split; [reflexivity|]; split; [exact H|reflexivity] end.
  intros _ Ha. exfalso. destruct deadline, capacity; simpl in *;
    rewrite ?(Z.ltb_antisym now), ?(Z.ltb_antisym depth), ?Hdl, ?Hcap in Ha; simpl in Ha;
    try discriminate Ha; rewrite ?Z.ltb_antisym, ?Hdl, ?Hcap in Ha; discriminate Ha.
Qed.

(** Forgetting a session with an operation in flight breaks the global limit.  With a
    limit of one operation, a session is closed (forgotten) while its operation runs: the
    next operation is admitted at once, and when the first one completes a third is,
    although the second never finished: two operations are in flight. *)
Theorem forgetting_in_flight_undercounts :
  let s1 := after (admit_operation 0 "app" "s1" None 0 None) (init demo_config) in
  let s2 := after (forget_session "s1") s1 in
  let s3 := after (admit_operation 0 "app" "s2" None 0 None) s2 in
  let s4 := after (complete_operation "app" "s1") s3 in
  max_total_inflight_operations demo_config = 1 ∧
  result_of (admit_operation 0 "app" "s2" None 0 None) s1 =
    Raise (RuntimeApiError (error_of ErrorCode.QUEUE_FULL
      "gateway reached its global in-flight limit" [("limit", VInt 1)])) ∧
  result_of (admit_operation 0 "app" "s2" None 0 None) s2 = Ok tt ∧
  _total_inflight s4 = 0 ∧ get_or (_inflight_session s4) "s2" 0 = 1 ∧
  result_of (admit_operation 0 "app" "s3" None 0 None) s4 = Ok tt.
Proof. vm_compute. repeat split; reflexivity. Qed.

End AdmissionController.
