(* ===== verification/Workers.v ===== *)
(** * The worker registry: [rollout_runtime/gateway/worker_registry.py]

    [EnvWorkerRegistry] maps ranks to what the workers report (capabilities, heartbeat)
    and to the Gateway's own account of them (health, sessions placed, whether a slot can
    be created).  [served_digests] is a set and is kept as a [gset].

    Theorems: the rank [select_rank] chooses and which error it raises otherwise, exactness
    of the stale ranks, and that the load it selects by is the number of sessions placed
    and not yet released. *)

From stdpp Require Import pretty.
From S2P Require Import Prelude PyDict Sorting Codec Api Messages.

Open Scope string_scope.
Open Scope list_scope.
Open Scope Z_scope.

Record WorkerEntry := Entry {
  info : EnvWorkerInfo;
  healthy : bool;
  heartbeat_at : time;
  active_sessions : Z;
  can_create_slot : bool;
  served_digests : gset string;
}.

Definition entry_rank (e : WorkerEntry) : Z := wi_worker_rank (info e).

Definition free_slots (e : WorkerEntry) : Z :=
  Z.max 0 (wi_max_sessions (info e) - active_sessions e).

Module EnvWorkerRegistry.

Record t := Registry { _timeout : time; _entries : pydict Z WorkerEntry }.

Definition op (A : Type) : Type := prog t exn A.

Definition init (timeout : time) : t := Registry timeout ∅.
Definition len (s : t) : Z := dict_len (_entries s).
Definition entries (s : t) : list WorkerEntry := values (_entries s).

Definition put (rank : Z) (e : WorkerEntry) (s : t) : t :=
  Registry (_timeout s) (<[rank := e]> (_entries s)).

(** Mutate the entry of a rank, if there is one. *)
Definition update (rank : Z) (f : WorkerEntry → WorkerEntry) : op unit := modify (λ s,
  match _entries s !! rank with Some e => put rank (f e) s | None => s end).

Definition register (now : time) (i : EnvWorkerInfo) : op WorkerEntry := λ s,
  let digests := list_to_set (wi_served_env_digests i) in
  let e := match _entries s !! wi_worker_rank i with
    | None => Entry i true now 0 true digests
    | Some e => Entry i true now (active_sessions e) (can_create_slot e)
                  (served_digests e ∪ digests)
    end in
  (put (wi_worker_rank i) e s, Ok e).

Definition not_registered (rank : Z) : exn :=
  RuntimeApiError (error_of ErrorCode.WORKER_LOST
    ("env worker rank " +:+ pretty rank +:+ " is not registered") [("worker_rank", VInt rank)]).

Definition get (rank : Z) : op WorkerEntry := λ s,
  match _entries s !! rank with
  | None => (s, Raise (not_registered rank))
  | Some e => (s, Ok e)
  end.

Definition beat (at_ : time) (e : WorkerEntry) : WorkerEntry :=
  Entry (info e) true at_ (active_sessions e) (can_create_slot e) (served_digests e).

(** [at_] is the explicit time or the clock's reading. *)
Definition heartbeat (rank : Z) (at_ : time) : op unit :=
  get rank ≫= λ _, update rank (beat at_).

Definition mark_unhealthy (rank : Z) : op unit := update rank (λ e,
  Entry (info e) false (heartbeat_at e) (active_sessions e) (can_create_slot e) (served_digests e)).

Definition is_stale (moment timeout : time) (e : WorkerEntry) : bool :=
  healthy e && (timeout <? moment - heartbeat_at e).

Definition stale_ranks (moment : time) (s : t) : list Z :=
  entry_rank <$> bfilter (is_stale moment (_timeout s)) (entries s).

Definition capability (rank : Z) (family : string) : op (option EnvFamilyCapability) :=
  e ← get rank; mret (wi_capabilities (info e) !! family).

Definition capabilities_for (family : string) (s : t) : option EnvFamilyCapability :=
  match List.find (λ e, healthy e && has_key (wi_capabilities (info e)) family) (entries s) with
  | Some e => wi_capabilities (info e) !! family
  | None => None
  end.

Definition serves (e : WorkerEntry) (spec : EnvSpecMsg) : bool :=
  match wi_capabilities (info e) !! env_family spec with
  | None => false
  | Some cap =>
      if needs_accelerator cap && negb (wi_has_accelerator (info e)) then false
      else
        let node_group := dict_get "node_group" (resource_hints spec) in
        if truthy node_group && str_true (wi_node_id (info e))
           && negb (bool_decide (node_group = VStr (wi_node_id (info e))))
        then false else true
  end.

(** [key=lambda entry: (entry.active_sessions, entry.worker_rank)] *)
Definition load_leb : WorkerEntry → WorkerEntry → bool :=
  on_key (lex_leb Z.leb Z.leb) (λ e, (active_sessions e, entry_rank e)).

Definition capable (spec : EnvSpecMsg) (s : t) : list WorkerEntry :=
  bfilter (λ e, serves e spec) (bfilter healthy (entries s)).

Definition available (spec : EnvSpecMsg) (attempted : list Z) (s : t) : list WorkerEntry :=
  bfilter (λ e, can_create_slot e && negb (member (entry_rank e) attempted)) (capable spec s).

(** [attempted] lists the set of attempted workers; [prefer_node] is not used. *)
Definition select_rank (spec : EnvSpecMsg) (attempted : list Z) (s : t) : outcome exn Z :=
  match bfilter healthy (entries s), capable spec s with
  | [], _ => Raise (RuntimeApiError (error_of ErrorCode.WORKER_LOST
      "no healthy env worker is registered" [("env_family", VStr (env_family spec))]))
  | _, [] => Raise (RuntimeApiError (error_of ErrorCode.UNSUPPORTED_ENV_SPEC
      ("no env worker can serve env_family=" +:+ env_family spec)
      [("env_family", VStr (env_family spec))]))
  | _, _ =>
      match sort_by load_leb (available spec attempted s) with
      | [] => Raise (RuntimeApiError (error_of ErrorCode.RESOURCE_EXHAUSTED
          "no capable env worker can currently create an env slot"
          [("env_family", VStr (env_family spec)); ("resource", VStr "gpu_memory");
           ("reason", VStr "OOM");
           ("attempted_workers", VList (VInt <$> sort_by Z.leb attempted))]))
      | e :: _ => Ok (entry_rank e)
      end
  end.

Definition place (digest : string) (e : WorkerEntry) : WorkerEntry :=
  Entry (info e) (healthy e) (heartbeat_at e) (active_sessions e + 1) (can_create_slot e)
    ({[ digest ]} ∪ served_digests e).

Definition acquire (rank : Z) (digest : string) : op unit :=
  get rank ≫= λ _, update rank (place digest).

Definition release (rank : Z) (restore : bool) : op unit := update rank (λ e,
  Entry (info e) (healthy e) (heartbeat_at e) (Z.max 0 (active_sessions e - 1))
    (if restore then true else can_create_slot e) (served_digests e)).

Definition mark_cannot_create_slot (rank : Z) : op unit := update rank (λ e,
  Entry (info e) (healthy e) (heartbeat_at e) (active_sessions e) false (served_digests e)).

Definition mark_can_create_slot (rank : Z) : op unit := update rank (λ e,
  Entry (info e) (healthy e) (heartbeat_at e) (active_sessions e) true (served_digests e)).

Definition snapshot (s : t) : pydict Z WorkerEntry := _entries s.

(** ** Steps, with the ranks of the sessions placed and not yet released *)

Inductive step : t * list Z → t * list Z → Prop :=
  | step_register s placed now i : step (s, placed) (after (register now i) s, placed)
  | step_heartbeat s placed rank at_ : step (s, placed) (after (heartbeat rank at_) s, placed)
  | step_mark_unhealthy s placed rank : step (s, placed) (after (mark_unhealthy rank) s, placed)
  | step_acquire s placed rank d :
      step (s, placed) (after (acquire rank d) s,
        if is_ok (result_of (acquire rank d) s) then rank :: placed else placed)
  | step_release s placed rank restore rest :
      placed ≡ₚ rank :: rest → step (s, placed) (after (release rank restore) s, rest)
  | step_mark_cannot s placed rank :
      step (s, placed) (after (mark_cannot_create_slot rank) s, placed)
  | step_mark_can s placed rank :
      step (s, placed) (after (mark_can_create_slot rank) s, placed).

Definition reachable (timeout : time) (x : t * list Z) : Prop := rtc step (init timeout, []) x.

(** Entries sit at their own rank, and carry the number of sessions placed there. *)
Record wf (s : t) (placed : list Z) : Prop := {
  wf_dict : dict_wf (_entries s);
  wf_rank rank e : _entries s !! rank = Some e → entry_rank e = rank;
  wf_load rank e : _entries s !! rank = Some e →
    active_sessions e = count (Z.eqb rank) placed;
  wf_placed rank : rank ∈ placed → is_Some (_entries s !! rank);
}.

Lemma update_lookup rank f s k :
  _entries (after (update rank f) s) !! k =
    if decide (k = rank) then f <$> _entries s !! rank else _entries s !! k.
Proof.
  unfold after, update, modify, put. simpl.
  destruct (_entries s !! rank) as [e|] eqn:He; simpl.
  - rewrite dict_lookup_insert. done.
  - case_decide; subst; done.
Qed.

Lemma entry_update_wf rank f s placed placed' :
  wf s placed → (∀ e, _entries s !! rank = Some e → entry_rank (f e) = rank ∧
    active_sessions (f e) = count (Z.eqb rank) placed') →
  (∀ k, k ≠ rank → count (Z.eqb k) placed' = count (Z.eqb k) placed) →
  (∀ k, k ∈ placed' → k ∈ placed ∨ is_Some (_entries s !! k)) →
  wf (after (update rank f) s) placed'.
Proof.
  intros [Hd Hr Hl Hp] Hf Hc Hsub. constructor.
  - unfold after, update, modify, put. simpl. destruct (_entries s !! rank); simpl; auto with dict.
  - intros k e. rewrite update_lookup. case_decide; [|apply Hr].
    intros (e0 & He & ->)%fmap_Some. subst. by apply Hf.
  - intros k e. rewrite update_lookup. case_decide; [|intros He; rewrite Hc by done; by apply Hl].
    intros (e0 & He & ->)%fmap_Some. subst. by apply Hf.
  - intros k Hk. assert (is_Some (_entries s !! k)) as Hs by (destruct (Hsub k Hk); auto).
    rewrite update_lookup. case_decide; [|done]. subst. by apply fmap_is_Some.
Qed.

Lemma plain_entry_update rank f s placed :
  wf s placed → (∀ e, info (f e) = info e ∧ active_sessions (f e) = active_sessions e) →
  wf (after (update rank f) s) placed.
Proof.
  intros Hwf Hf. apply (entry_update_wf rank f s placed placed Hwf); auto.
  intros e He. destruct (Hf e) as [Hi ->]. unfold entry_rank. rewrite Hi.
  split; [by apply (wf_rank _ _ Hwf)|by apply (wf_load _ _ Hwf)].
Qed.

Lemma get_then_update rank f s :
  after (get rank ≫= λ _, update rank f) s = after (update rank f) s ∧
  is_ok (result_of (get rank ≫= λ _, update rank f) s) = has_key (_entries s) rank.
Proof.
  unfold after, result_of, get, update, modify, mbind, prog_bind, has_key.
  by destruct (_entries s !! rank) eqn:He; simpl; rewrite ?He.
Qed.

Lemma worker_step_wf s placed s' placed' :
  wf s placed → step (s, placed) (s', placed') → wf s' placed'.
Proof.
  intros Hwf Hst. inversion Hst as
    [? ? now i|? ? rank at_|? ? rank|? ? rank d|? ? rank restore rest Hp|? ? rank|? ? rank];
    subst; clear Hst; try (apply plain_entry_update; [done|by intros e]).
  - destruct Hwf as [Hd Hr Hl Hpl]. unfold after, register, put. simpl.
    set (r := wi_worker_rank i). constructor; simpl.
    + auto with dict.
    + intros k e. rewrite dict_lookup_insert. case_decide; [|apply Hr]. subst.
      by destruct (_entries s !! r); intros [= <-].
    + intros k e. rewrite dict_lookup_insert. case_decide; [|apply Hl]. subst.
      destruct (_entries s !! r) as [e0|] eqn:He; intros [= <-]; simpl; [by apply Hl|].
      symmetry. apply count_zero. intros x Hx. apply Z.eqb_neq. intros <-.
      destruct (Hpl r Hx). congruence.
    + intros k Hk. rewrite dict_lookup_insert. case_decide; [done|by apply Hpl].
  - unfold heartbeat. rewrite (proj1 (get_then_update _ _ _)). apply plain_entry_update; [done|by intros e].
  - unfold acquire. destruct (get_then_update rank (place d) s) as [-> ->]. unfold has_key.
    destruct (_entries s !! rank) as [e|] eqn:He.
    + apply (entry_update_wf rank (place d) s placed); [done|..].
      * intros e' He'. rewrite He in He'. injection He' as <-.
        split; [exact (wf_rank _ _ Hwf _ _ He)|]. simpl.
        rewrite count_cons, Z.eqb_refl, (wf_load _ _ Hwf _ _ He). simpl. lia.
      * intros k Hk. simpl. rewrite count_cons, (proj2 (Z.eqb_neq k rank)) by done. done.
      * simpl. intros k [->|?]%elem_of_cons; [right; by eexists|by left].
    + unfold after, update, modify. simpl. rewrite He. exact Hwf.
  - assert (Hc : ∀ k, count (Z.eqb k) placed = Z.b2z (k =? rank) + count (Z.eqb k) placed').
    { intros k. by rewrite (count_perm _ _ _ Hp), count_cons. }
    apply (entry_update_wf rank _ s placed); [done|..].
    + intros e He. split; [exact (wf_rank _ _ Hwf _ _ He)|]. simpl.
      rewrite (wf_load _ _ Hwf _ _ He), Hc, Z.eqb_refl. simpl.
      pose proof (count_bounds (Z.eqb rank) placed'). lia.
    + intros k Hk. rewrite Hc, (proj2 (Z.eqb_neq k rank)) by done. done.
    + intros k Hk. left. rewrite Hp. set_solver.
Qed.

Lemma workers_reachable_wf timeout x : reachable timeout x → wf x.1 x.2.
Proof.
  intros H. eapply (rtc_invariant step (λ y, wf y.1 y.2)); [|exact H|].
  - intros [] [] ? ?. by eapply worker_step_wf.
  - constructor; simpl; [apply dict_wf_empty|done|done|]. intros r Hr. by apply elem_of_nil in Hr.
Qed.

(** ** Properties *)

(** Load accounting.  In every reachable state each entry sits at its own rank and its
    [active_sessions] is the number of sessions placed on that rank and not yet released
    (a release is made once per placement), through re-registrations and failures. *)
Theorem load_is_placements (timeout : time) (s : t) (placed : list Z) :
  reachable timeout (s, placed) → wf s placed.
Proof. intros H. apply (workers_reachable_wf timeout (s, placed) H). Qed.

Definition demo_capability : EnvFamilyCapability := {|
  cap_env_family := "fake"; per_step_obs_available := true; supports_auto_reset := false;
  supports_reset_state_id := false; extensions := []; needs_accelerator := false;
  core_forms := ["per_slot"]; supports_coalescing := false |}.
Definition demo_worker (rank : Z) : EnvWorkerInfo := {|
  wi_worker_rank := rank; wi_group_name := "g"; wi_node_id := "n";
  wi_capabilities := <["fake" := demo_capability]> ∅; wi_served_env_digests := [];
  wi_max_sessions := 4; wi_active_sessions := 0; wi_has_accelerator := false;
  wi_heartbeat_at := 0 |}.
Definition demo_spec : EnvSpecMsg := {|
  env_family := "fake"; env_config := []; pool_size := 1; max_dynamic_pool_size := None;
  resource_hints := [] |}.
Definition demo2 : t := after (register 1 (demo_worker 1)) (after (register 0 (demo_worker 0)) (init 30)).
Definition demo3 : t := after (acquire 0 "d") demo2.

Lemma demo3_reachable : reachable 30 (demo3, [0]).
Proof.
  eapply rtc_l; [apply (step_register (init 30) [] 0 (demo_worker 0))|].
  eapply rtc_l; [apply (step_register _ [] 1 (demo_worker 1))|].
  apply rtc_once. exact (step_acquire demo2 [] 0 "d").
Qed.

Lemma load_is_placements_witness : wf demo3 [0].
Proof. apply (load_is_placements 30), demo3_reachable. Defined.

Definition eligible (spec : EnvSpecMsg) (attempted : list Z) (e : WorkerEntry) : bool :=
  healthy e && serves e spec && can_create_slot e && negb (member (entry_rank e) attempted).

Lemma elem_of_entries s placed e :
  wf s placed → e ∈ entries s ↔ _entries s !! entry_rank e = Some e.
Proof.
  intros [Hd Hr _ _]. unfold entries, values. rewrite list_elem_of_fmap. split.
  - intros ([k e'] & -> & Hin%(items_lookup _ _ _ Hd)). simpl. by rewrite (Hr _ _ Hin).
  - intros H%lookup_Some_items. eexists (_, e). done.
Qed.

Lemma elem_of_capable spec s e :
  e ∈ capable spec s ↔ e ∈ entries s ∧ healthy e = true ∧ serves e spec = true.
Proof. unfold capable. rewrite !elem_of_bfilter. naive_solver. Qed.

Lemma elem_of_available spec attempted s e :
  e ∈ available spec attempted s ↔ e ∈ entries s ∧ eligible spec attempted e = true.
Proof.
  unfold available, eligible. rewrite elem_of_bfilter, elem_of_capable, !andb_true_iff. tauto.
Qed.

(** What [select_rank] promises, in terms of the table. *)
Definition selection_spec (spec : EnvSpecMsg) (attempted : list Z) (s : t)
    (o : outcome exn Z) : Prop :=
  match o with
  | Ok rank => ∃ e, _entries s !! rank = Some e ∧ eligible spec attempted e = true ∧
      ∀ rank' e', _entries s !! rank' = Some e' → eligible spec attempted e' = true →
        active_sessions e < active_sessions e' ∨
        (active_sessions e = active_sessions e' ∧ rank ≤ rank')
  | Raise (RuntimeApiError i) =>
      (∀ rank e, _entries s !! rank = Some e → eligible spec attempted e = false) ∧
      code i =
        if existsb (λ e, healthy e && serves e spec) (entries s) then ErrorCode.RESOURCE_EXHAUSTED
        else if existsb healthy (entries s) then ErrorCode.UNSUPPORTED_ENV_SPEC
        else ErrorCode.WORKER_LOST
  | Raise (PyExc _) => False
  end.

Lemma existsb_bfilter {A} (p : A → bool) l : existsb p l = match bfilter p l with [] => false | _ => true end.
Proof. induction l as [|x l IH]; [done|]. rewrite bfilter_cons. simpl. by destruct (p x). Qed.

Lemma capable_filter spec s :
  capable spec s = bfilter (λ e, healthy e && serves e spec) (entries s).
Proof.
  unfold capable. induction (entries s) as [|e l IH]; [done|]. rewrite !bfilter_cons.
  destruct (healthy e); simpl; rewrite ?bfilter_cons, IH; done.
Qed.

Lemma select_rank_correct (spec : EnvSpecMsg) (attempted : list Z) (s : t) (placed : list Z) :
  wf s placed → selection_spec spec attempted s (select_rank spec attempted s).
Proof.
  intros Hwf. unfold select_rank, selection_spec.
  rewrite !existsb_bfilter, <- capable_filter.
  assert (Hnone : available spec attempted s = [] →
    ∀ rank e, _entries s !! rank = Some e → eligible spec attempted e = false).
  { intros Hn rank e He. apply not_true_iff_false. intros Hel.
    assert (e ∈ available spec attempted s) as Hin.
    { apply elem_of_available. split; [|done]. apply (elem_of_entries s placed); [done|].
      by rewrite (wf_rank _ _ Hwf _ _ He). }
    rewrite Hn in Hin. by apply elem_of_nil in Hin. }
  destruct (bfilter healthy (entries s)) as [|h hs] eqn:Hh.
  { unfold available, capable in *. rewrite Hh in *. split; [by apply Hnone|done]. }
  destruct (capable spec s) as [|c cs] eqn:Hc.
  { unfold available in *. rewrite Hc in *. split; [by apply Hnone|done]. }
  destruct (sort_by load_leb (available spec attempted s)) as [|e es] eqn:Hs.
  { split; [|done]. apply Hnone. apply Permutation_nil. by rewrite <- Hs, sort_by_perm. }
  assert (Hin : e ∈ available spec attempted s).
  { rewrite <- (elem_of_sort_by load_leb), Hs. by left. }
  apply elem_of_available in Hin as [Hin Hel]. exists e.
  split; [by apply (elem_of_entries s placed)|]. split; [done|].
  intros rank' e' He' Hel'. pose proof (head_sort_by load_leb (available spec attempted s)) as Hm.
  rewrite Hs in Hm. symmetry in Hm.
  assert (Hle : load_leb e e' = true).
  { eapply (min_by_le load_leb); [exact Hm|]. apply elem_of_available. split; [|done].
    apply (elem_of_entries s placed); [done|]. by rewrite (wf_rank _ _ Hwf _ _ He'). }
  unfold load_leb, on_key, lex_leb in Hle. simpl in Hle.
  rewrite <- (wf_rank _ _ Hwf _ _ He').
  destruct (active_sessions e <=? active_sessions e') eqn:H1; [|done].
  destruct (active_sessions e' <=? active_sessions e) eqn:H2; to_prop; lia.
Qed.

(** [select_rank] chooses the least loaded worker that can take the session.  The rank
    returned belongs to a healthy worker that serves the spec, can create a slot and was
    not attempted yet, with the lowest load and, among those, the smallest rank.  When
    there is none, the error says why: no healthy worker (WORKER_LOST), none that serves
    the spec (UNSUPPORTED_ENV_SPEC), or none with room (RESOURCE_EXHAUSTED). *)
Theorem select_rank_spec (spec : EnvSpecMsg) (attempted : list Z) (s : t) (placed : list Z) :
  wf s placed → selection_spec spec attempted s (select_rank spec attempted s).
Proof. apply select_rank_correct. Qed.

Lemma select_rank_spec_witness :
  select_rank demo_spec [] demo3 = Ok 1 ∧
  selection_spec demo_spec [] demo3 (select_rank demo_spec [] demo3).
Proof.
  split; [vm_compute; reflexivity|].
  apply (select_rank_spec demo_spec [] demo3 [0]), (workers_reachable_wf 30 (demo3, [0])), demo3_reachable.
Defined.

(** Liveness tracking.  [stale_ranks] lists exactly the ranks of healthy workers whose
    last heartbeat lies more than the timeout back; a heartbeat makes a registered rank
    healthy and keeps it off the list for the whole timeout; a rank marked unhealthy is
    neither listed nor selected until it reports again. *)
Theorem stale_ranks_exact (moment : time) (s : t) (placed : list Z) :
  wf s placed →
  (∀ rank, rank ∈ stale_ranks moment s ↔ ∃ e, _entries s !! rank = Some e ∧
     healthy e = true ∧ _timeout s < moment - heartbeat_at e) ∧
  (∀ rank at_, result_of (heartbeat rank at_) s = Ok tt → moment - at_ ≤ _timeout s →
     rank ∉ stale_ranks moment (after (heartbeat rank at_) s) ∧
     ∃ e, _entries (after (heartbeat rank at_) s) !! rank = Some e ∧ healthy e = true) ∧
  ∀ rank spec attempted, rank ∉ stale_ranks moment (after (mark_unhealthy rank) s) ∧
     select_rank spec attempted (after (mark_unhealthy rank) s) ≠ Ok rank.
Proof.
  assert (Hex : ∀ s placed, wf s placed → ∀ rank, rank ∈ stale_ranks moment s ↔
    ∃ e, _entries s !! rank = Some e ∧ healthy e = true ∧ _timeout s < moment - heartbeat_at e).
  { clear. intros s placed Hwf rank. unfold stale_ranks. rewrite list_elem_of_fmap.
    setoid_rewrite elem_of_bfilter. setoid_rewrite (elem_of_entries s placed); [|done].
    unfold is_stale. setoid_rewrite andb_true_iff. setoid_rewrite Z.ltb_lt. split.
    - intros (e & -> & [? ?] & ?). eauto.
    - intros (e & He & ? & ?). exists e. by rewrite (wf_rank _ _ Hwf _ _ He). }
  intros Hwf. split; [by apply (Hex s placed)|]. split.
  - intros rank at_ Hok Hle.
    assert (wf (after (heartbeat rank at_) s) placed) as Hwf'.
    { eapply worker_step_wf; [done|constructor]. }
    unfold heartbeat in *. destruct (get_then_update rank (beat at_) s) as [Ha Hb].
    rewrite Hok in Hb. rewrite Ha in *.
    unfold has_key in Hb. destruct (_entries s !! rank) as [e|] eqn:He; [|done].
    assert (_entries (after (update rank (beat at_)) s) !! rank = Some (beat at_ e)) as Hl.
    { by rewrite update_lookup, decide_True, He. }
    split; [|by exists (beat at_ e)]. rewrite (Hex _ placed) by done.
    intros (e' & He' & _ & Hlt). rewrite Hl in He'. injection He' as <-. simpl in Hlt.
    unfold after, update, modify, put in Hlt. rewrite He in Hlt. simpl in Hlt. lia.
  - intros rank spec attempted.
    assert (wf (after (mark_unhealthy rank) s) placed) as Hwf'.
    { eapply worker_step_wf; [done|constructor]. }
    assert (Hun : ∀ e, _entries (after (mark_unhealthy rank) s) !! rank = Some e → healthy e = false).
    { intros e. unfold mark_unhealthy. rewrite update_lookup, decide_True by done.
      by intros (e0 & _ & ->)%fmap_Some. }
    split.
    + rewrite (Hex _ placed) by done. intros (e & He & Hh & _). rewrite Hun in Hh; done.
    + intros Hsel. pose proof (select_rank_correct spec attempted _ placed Hwf') as Hspec.
      rewrite Hsel in Hspec. destruct Hspec as (e & He & Hel & _).
      unfold eligible in Hel. by rewrite (Hun e He) in Hel.
Qed.

Lemma stale_ranks_exact_witness :
  (∀ rank, rank ∈ stale_ranks 32 demo3 ↔ ∃ e, _entries demo3 !! rank = Some e ∧
     healthy e = true ∧ 30 < 32 - heartbeat_at e) ∧ stale_ranks 31 demo3 = [0].
Proof.
  split; [|vm_compute; reflexivity].
  apply (stale_ranks_exact 32 demo3 [0]), (workers_reachable_wf 30 (demo3, [0])), demo3_reachable.
Defined.

End EnvWorkerRegistry.
