(* ===== verification/Gateway.v ===== *)
(** * The Gateway facade: [rollout_runtime/gateway/gateway.py] and [dispatcher.py]

    [RuntimeGateway] composes the session manager, the operation registry, admission
    control and the worker registry.  Its methods are coroutines: the code between two
    awaits runs without interruption, so the model cuts each coroutine at its awaits.  A
    [task] is a suspended coroutine with its local variables; an [event] runs one
    uninterrupted segment: a call arrives, a lock or a permit is granted, a worker
    answers.  Which event comes next, every clock reading, every new session identifier
    and every answer of a worker are arbitrary.

    [trace] records what is handed to the transport.  Metrics, background-task
    management and the request identifiers of control messages are left out.  A program
    segment that meets an exception of the interpreter presents it to
    [normalize_exception] through [exception_of].

    The theorems are in [GatewayOnce], [GatewayOrder], [GatewayPlacement] and
    [GatewayBalance]; at the end
    of this file are the runs they speak of and the rules that cut a segment into calls. *)

From stdpp Require Import pretty.
From S2P Require Import Prelude PyDict Sorting Codec Api Messages Operations Sessions GatewayAdmission Workers.

Open Scope string_scope.
Open Scope list_scope.
Open Scope Z_scope.

(** ** Messages to and from workers *)

Record CommandEnvelope := {
  ce_request_id : RequestId;
  ce_session_id : SessionId;
  ce_binding_token : option BindingToken;
  ce_episode_id : option Z;
  ce_operation_seq : option Z;
  ce_operation : EnvOperation.t;
  ce_deadline : option time;
  ce_priority : Priority.t;
  ce_payload : value;
  ce_trace_context : list (dict_key * value);
}.

(** The control messages the Gateway sends, with the payload of each. *)
Inductive ControlEnvelope :=
  | CreateBinding (spec : EnvSpecMsg) (lease_expiration : time)
  | ReleaseBinding (binding_token : option BindingToken)
  | RenewLease (lease_expiration : time)
  | Cancel (target_request_id : RequestId).

Record ResultEnvelope := {
  re_operation : EnvOperation.t;
  re_request_id : RequestId;
  re_state : OperationState.t;
  re_value : value;
  re_error : option RuntimeErrorInfo;
  re_side_effect_applied : bool;
  re_worker_summary : option WorkerSummary;
}.

(** [ResultEnvelope.ok] *)
Definition result_ok (r : ResultEnvelope) : bool :=
  match re_error r with
  | None => bool_decide (re_state r = OperationState.SUCCEEDED)
  | Some _ => false
  end.

Inductive envelope :=
  | SendControl (rank : Z) (sid : SessionId) (c : ControlEnvelope)
  | SendCommand (rank : Z) (e : CommandEnvelope).

(** [getattr(value, "episode_id", None)], when it is an [int]. *)
Definition episode_of (v : value) : option Z :=
  match v with
  | VData _ fields =>
      match assoc_lookup "episode_id" fields with
      | Some (VInt z) => Some z
      | Some (VBool b) => Some (Z.b2z b)
      | _ => None
      end
  | _ => None
  end.

(** How the interpreter presents an exception of its own: class, text, traceback. *)
Class Interpreter := exception_of : py_error → exception.

Module RuntimeGateway.

(** [_dispatcher] is the permits left in the semaphore of each rank, or [None] when no
    transport is attached; [locked] is the set of session records whose lock is held. *)
Record t := Gateway {
  sessions : SessionManager.t;
  operations : OperationRegistry.t;
  admission : AdmissionController.t;
  workers : EnvWorkerRegistry.t;
  _dispatcher : option (pydict Z Z);
  _max_concurrency_per_rank : Z;
  _default_priority : Priority.t;
  locked : gset nat;
  late_result_count : Z;
  orphan_result_count : Z;
  trace : list envelope;
}.

Definition op (A : Type) : Type := prog t exn A.

Definition set_sessions (x : SessionManager.t) (g : t) : t :=
  Gateway x (operations g) (admission g) (workers g) (_dispatcher g) (_max_concurrency_per_rank g)
    (_default_priority g) (locked g) (late_result_count g) (orphan_result_count g) (trace g).
Definition set_operations (x : OperationRegistry.t) (g : t) : t :=
  Gateway (sessions g) x (admission g) (workers g) (_dispatcher g) (_max_concurrency_per_rank g)
    (_default_priority g) (locked g) (late_result_count g) (orphan_result_count g) (trace g).
Definition set_admission (x : AdmissionController.t) (g : t) : t :=
  Gateway (sessions g) (operations g) x (workers g) (_dispatcher g) (_max_concurrency_per_rank g)
    (_default_priority g) (locked g) (late_result_count g) (orphan_result_count g) (trace g).
Definition set_workers (x : EnvWorkerRegistry.t) (g : t) : t :=
  Gateway (sessions g) (operations g) (admission g) x (_dispatcher g) (_max_concurrency_per_rank g)
    (_default_priority g) (locked g) (late_result_count g) (orphan_result_count g) (trace g).
Definition set_semaphores (x : pydict Z Z) (g : t) : t :=
  Gateway (sessions g) (operations g) (admission g) (workers g) (Some x) (_max_concurrency_per_rank g)
    (_default_priority g) (locked g) (late_result_count g) (orphan_result_count g) (trace g).
Definition set_locked (x : gset nat) (g : t) : t :=
  Gateway (sessions g) (operations g) (admission g) (workers g) (_dispatcher g)
    (_max_concurrency_per_rank g) (_default_priority g) x (late_result_count g)
    (orphan_result_count g) (trace g).
Definition set_counts (late orphan : Z) (g : t) : t :=
  Gateway (sessions g) (operations g) (admission g) (workers g) (_dispatcher g)
    (_max_concurrency_per_rank g) (_default_priority g) (locked g) late orphan (trace g).
Definition set_trace (x : list envelope) (g : t) : t :=
  Gateway (sessions g) (operations g) (admission g) (workers g) (_dispatcher g)
    (_max_concurrency_per_rank g) (_default_priority g) (locked g) (late_result_count g)
    (orphan_result_count g) x.

(** A call of a component, or the sending of a message, inside the Gateway. *)
Definition on_sessions {A} (m : SessionManager.op A) : op A := λ g,
  (set_sessions (after m (sessions g)) g, result_of m (sessions g)).
Definition on_operations {A} (m : OperationRegistry.op A) : op A := λ g,
  (set_operations (after m (operations g)) g, result_of m (operations g)).
Definition on_admission {A} (m : AdmissionController.op A) : op A := λ g,
  (set_admission (after m (admission g)) g, result_of m (admission g)).
Definition on_workers {A} (m : EnvWorkerRegistry.op A) : op A := λ g,
  (set_workers (after m (workers g)) g, result_of m (workers g)).
Definition emit (x : envelope) : op unit := modify (λ g, set_trace (x :: trace g) g).
Definition lift {A} (o : outcome exn A) : op A := λ g, (g, o).

(** [try: ... except BaseException as exc: ...] *)
Definition attempt {A} (m : op A) : op (outcome exn A) := λ g, (after m g, Ok (result_of m g)).

Notation loc := nat (only parsing).

(** The object behind a reference to a session record. *)
Definition deref (l : loc) : op SessionRecord.t := on_sessions (SessionManager.deref l).

(** ** Suspended coroutines *)

(** The local variables of [_dispatch_one] and [_execute]. *)
Record call := Call {
  c_record : loc;
  c_application : string;
  c_session : SessionId;
  c_request : RequestId;
  c_operation : EnvOperation.t;
  c_payload : value;
  c_deadline : option time;
  c_take_lock : bool;
}.

Definition mutating (c : call) : bool := member (c_operation c) MUTATING_OPERATIONS.

Inductive task :=
  (** [_create_session], awaiting the answer to CREATE_BINDING *)
  | Creating (request : CreateSessionRequest) (l : loc) (rank : Z) (attempted : list Z)
      (last_resource_error : option RuntimeErrorInfo)
  (** [_close_session], awaiting the answer to RELEASE_BINDING; a reaper waiting for it
      still has the records [reaping] to look at *)
  | Releasing (l : loc) (sid : SessionId) (best_effort : bool) (reaping : option (list loc))
  (** [recover_expired_sessions], before its next record *)
  | Reaping (ls : list loc)
  (** [renew_sessions], awaiting the answer to RENEW_LEASE *)
  | Renewing (l : loc)
  (** [_dispatch_one], awaiting the lock of the record *)
  | WaitingLock (c : call)
  (** [dispatcher.send], awaiting the semaphore of the rank *)
  | WaitingPermit (c : call) (rank : Z) (e : CommandEnvelope)
  (** [dispatcher.send], awaiting the worker *)
  | InFlight (c : call) (rank : Z) (e : CommandEnvelope).

Inductive response :=
  | Created (r : Result SessionHandle)
  | Closed (sid : SessionId) (r : Result unit)
  | Renewed (r : Result SessionStatus)
  | Cancelled (o : CancelOutcome)
  | Answer (rid : RequestId) (r : Result value).

Section gateway.
Context {interp : Interpreter}.

(** [normalize_exception(exc)] *)
Definition normalize (e : exn) : RuntimeErrorInfo :=
  match e with
  | RuntimeApiError info => info
  | PyExc e => normalize_exception (exception_of e) ErrorCode.INTERNAL false true
  end.

Definition no_transport : exn := RuntimeApiError (error_of ErrorCode.WORKER_LOST
  "gateway has no transport attached; call attach_transport first" []).

(** [self._require_dispatcher()] *)
Definition _require_dispatcher : op (pydict Z Z) :=
  g ← get_state;
  match _dispatcher g with Some d => mret d | None => raise no_transport end.

(** ** Session plane *)

(** What [_create_binding] makes of the worker's answer. *)
Definition binding_of (rank : Z) (reply : ResultEnvelope) : outcome exn BindingToken :=
  if negb (result_ok reply) then
    Raise (RuntimeApiError (default (error_of ErrorCode.ENV_FAILURE
      "env worker rejected the binding request" []) (re_error reply)))
  else
    let token := match re_value reply with
      | VDict d => dict_get "binding_token" d
      | v => v
      end in
    match token with
    | VStr (String _ _ as s) => Ok s
    | _ => Raise (RuntimeApiError (error_of ErrorCode.ENV_FAILURE
        "env worker returned no binding token" [("worker_rank", VInt rank)]))
    end.

(** The [except BaseException] of [_create_session]. *)
Definition create_failed (now : time) (request : CreateSessionRequest) (record : option loc)
    (last_resource_error : option RuntimeErrorInfo) (e : exn) : op response :=
  let info := normalize e in
  let info := match last_resource_error with
    | Some last => if is_resource_exhausted info then last else info
    | None => info
    end in
  on_admission (AdmissionController.release_session (Messages.application_id request)) ≫= λ _,
  (match record with
   | Some l =>
       r ← deref l;
       if bool_decide (SessionRecord.state r = SessionState.CREATING)
       then on_sessions (SessionManager.fail now (SessionRecord.session_id r) info) ≫= λ _, mret tt
       else mret tt
   | None => mret tt
   end) ≫= λ _,
  mret (Created (RErr info)).

(** Run a part of [_create_session]'s [try] block. *)
Definition guard_create (now : time) (request : CreateSessionRequest) (record : option loc)
    (last_resource_error : option RuntimeErrorInfo) (m : op (task + response)) :
    op (task + response) :=
  res ← attempt m;
  match res with
  | Ok x => mret x
  | Raise e => x ← create_failed now request record last_resource_error e; mret (inr x)
  end.

(** One round of the placement loop, up to the await: choose a rank, reserve it and ask
    it for a binding. *)
Definition place (request : CreateSessionRequest) (l : loc) (attempted : list Z)
    (last_resource_error : option RuntimeErrorInfo) : op (task + response) :=
  r ← deref l;
  g ← get_state;
  rank ← lift (EnvWorkerRegistry.select_rank (SessionRecord.env_spec r) attempted (workers g));
  on_workers (EnvWorkerRegistry.acquire rank (SessionRecord.env_spec_digest r)) ≫= λ _,
  sent ← attempt (_require_dispatcher);
  match sent with
  | Raise e =>
      on_workers (EnvWorkerRegistry.release rank false) ≫= λ _, raise e
  | Ok _ =>
      emit (SendControl rank (SessionRecord.session_id r)
        (CreateBinding (SessionRecord.env_spec r) (SessionRecord.lease_expiration r))) ≫= λ _,
      mret (inl (Creating request l rank attempted last_resource_error))
  end.

(** [_create_session], up to its first await; [generated] is the new identifier. *)
Definition create_session (now1 now2 : time) (generated : SessionId)
    (request : CreateSessionRequest) : op (task + response) :=
  let app := Messages.application_id request in
  admitted ← attempt (on_admission (AdmissionController.admit_session app (auth_token request)));
  match admitted with
  | Raise e => mret (inr (Created (RErr (normalize e))))
  | Ok _ =>
      made ← attempt (on_sessions (SessionManager.create now1 generated request None));
      match made with
      | Raise e => x ← create_failed now2 request None None e; mret (inr x)
      | Ok (l, false) =>
          on_admission (AdmissionController.release_session app) ≫= λ _,
          r ← deref l; mret (inr (Created (ROk (SessionRecord.handle r))))
      | Ok (l, true) => guard_create now2 request (Some l) None (place request l [] None)
      end
  end.

(** [_create_session], from the worker's answer to the next await or the end. *)
Definition binding_reply (now1 now2 : time) (request : CreateSessionRequest) (l : loc) (rank : Z)
    (attempted : list Z) (last_resource_error : option RuntimeErrorInfo)
    (reply : ResultEnvelope) : op (task + response) :=
  match binding_of rank reply with
  | Ok token =>
      guard_create now2 request (Some l) last_resource_error (
        r ← deref l;
        l' ← on_sessions (SessionManager.commit_binding now1 (SessionRecord.session_id r) rank token None);
        r' ← deref l;
        mret (inr (Created (ROk (SessionRecord.handle r')))))
  | Raise e =>
      on_workers (EnvWorkerRegistry.release rank false) ≫= λ _,
      let info := normalize e in
      if is_resource_exhausted info then
        on_workers (EnvWorkerRegistry.mark_cannot_create_slot rank) ≫= λ _,
        guard_create now2 request (Some l) (Some info)
          (place request l (rank :: attempted) (Some info))
      else x ← create_failed now2 request (Some l) last_resource_error e; mret (inr x)
  end.

(** [_close_session], from [finish_close] to the end. *)
Definition close_finish (now : time) (l : loc) (sid : SessionId) : op response :=
  closed ← attempt (on_sessions (SessionManager.finish_close now sid));
  match closed with
  | Raise e => mret (Closed sid (RErr (normalize e)))
  | Ok _ =>
      r ← deref l;
      (match SessionRecord.worker_rank r with
       | Some rank => on_workers (EnvWorkerRegistry.release rank true)
       | None => mret tt
       end) ≫= λ _,
      on_admission (AdmissionController.forget_session sid) ≫= λ _,
      on_admission (AdmissionController.release_session (SessionRecord.application_id r)) ≫= λ _,
      mret (Closed sid (ROk tt))
  end.

(** Where [_release_lost_binding] sends its message, if it sends one. *)
Definition lost_target (r : SessionRecord.t) (g : t) : option Z :=
  match _dispatcher g, SessionRecord.worker_rank r, SessionRecord.binding_token r with
  | Some _, Some rank, Some _ =>
      match EnvWorkerRegistry.snapshot (workers g) !! rank with
      | Some e => if healthy e then Some rank else None
      | None => None
      end
  | _, _, _ => None
  end.

(** [_close_session], up to its await; [reaping] is the rest of the reaper's work when it
    is the caller. *)
Definition close_session (now1 now2 : time) (sid : SessionId) (reaping : option (list loc)) :
    op (task + response) :=
  found ← attempt (on_sessions (SessionManager.get sid));
  match found with
  | Raise e => mret (inr (Closed sid (RErr (normalize e))))
  | Ok l =>
      r ← deref l;
      g ← get_state;
      if bool_decide (SessionRecord.state r = SessionState.CLOSED) then
        mret (inr (Closed sid (ROk tt)))
      else if member (SessionRecord.state r) [SessionState.FAILED; SessionState.LOST] then
        match lost_target r g with
        | Some rank =>
            emit (SendControl rank sid (ReleaseBinding (SessionRecord.binding_token r))) ≫= λ _,
            mret (inl (Releasing l sid true reaping))
        | None => x ← close_finish now2 l sid; mret (inr x)
        end
      else
        began ← attempt (on_sessions (SessionManager.begin_close now1 sid));
        match began with
        | Raise e => mret (inr (Closed sid (RErr (normalize e))))
        | Ok _ =>
            match _dispatcher g, SessionRecord.worker_rank r with
            | Some _, Some rank =>
                emit (SendControl rank sid (ReleaseBinding (SessionRecord.binding_token r))) ≫= λ _,
                mret (inl (Releasing l sid false reaping))
            | _, _ => x ← close_finish now2 l sid; mret (inr x)
            end
        end
  end.

(** [recover_expired_sessions]: the records it will look at, and one round of its loop. *)
Definition expired_locs (moment : time) (s : SessionManager.t) : list loc :=
  bfilter (λ l, from_option (SessionManager.lease_expired moment) false (SessionManager.heap s !! l))
    (values (SessionManager._sessions s)).

Definition reap (now1 now2 : time) (l : loc) (rest : list loc) : op (task + response) :=
  r ← deref l;
  match SessionRecord.active_operation r with
  | Some _ => on_sessions (SessionManager.set_reap_pending l) ≫= λ _, mret (inl (Reaping rest))
  | None => close_session now1 now2 (SessionRecord.session_id r) (Some rest)
  end.

(** One session of [renew_sessions], up to its await. *)
Definition renew_session (now1 now2 : time) (sid : SessionId) (lease : time) :
    op (task + response) :=
  renewed ← attempt (on_sessions (SessionManager.renew now1 now2 sid lease None));
  match renewed with
  | Raise e => mret (inr (Renewed (RErr (normalize e))))
  | Ok l =>
      r ← deref l;
      g ← get_state;
      match _dispatcher g, SessionRecord.worker_rank r with
      | Some _, Some rank =>
          emit (SendControl rank sid (RenewLease (SessionRecord.lease_expiration r))) ≫= λ _,
          mret (inl (Renewing l))
      | _, _ => mret (inr (Renewed (ROk (SessionRecord.status r))))
      end
  end.

(** [_reap_stale_workers] *)
Definition reap_stale_workers (now1 now2 : time) : op unit :=
  g ← get_state;
  for_each (λ rank,
    on_workers (EnvWorkerRegistry.mark_unhealthy rank) ≫= λ _,
    g ← get_state;
    for_each (λ r,
      if bool_decide (SessionRecord.state r = SessionState.READY)
      then on_sessions (SessionManager.mark_lost now2 (SessionRecord.session_id r) None) ≫= λ _, mret tt
      else mret tt) (SessionManager.sessions_on_rank rank (sessions g)))
    (EnvWorkerRegistry.stale_ranks now1 (workers g)).

(** ** Operation plane *)

(** [_require_session] *)
Definition _require_session (sid : SessionId) (o : EnvOperation.t) : SessionManager.op loc :=
  if member o [EnvOperation.RESET; EnvOperation.EXTENSION_CALL]
  then SessionManager.require_ready sid else SessionManager.require_episode sid.

(** [_cancelled_before_dispatch] *)
Definition _cancelled_before_dispatch (rid : RequestId) (g : t) : option RuntimeErrorInfo :=
  match OperationRegistry.find rid (operations g) with
  | Some r =>
      if is_terminal r then
        Some (default (make_error ErrorCode.CANCELLED
          ("request " +:+ rid +:+ " was cancelled before dispatch") None false
          [("request_id", VStr rid)]) (error r))
      else None
  | None => None
  end.

Definition _synthesize_error (result : ResultEnvelope) : RuntimeErrorInfo :=
  let side := re_side_effect_applied result in
  match re_state result with
  | OperationState.OUTCOME_UNKNOWN => make_error ErrorCode.WORKER_LOST
      "env worker reported OUTCOME_UNKNOWN; the operation must not be replayed automatically"
      None side [("state", VStr (OperationState.name (re_state result)))]
  | OperationState.CANCELLED =>
      make_error ErrorCode.CANCELLED "env worker reported CANCELLED" None side []
  | st => make_error ErrorCode.INTERNAL
      ("env worker returned " +:+ OperationState.name st +:+ " without an error payload") None side []
  end.

(** The RPC timed out, the operation goes on. *)
Definition timed_out (result : ResultEnvelope) : option RuntimeErrorInfo :=
  match re_error result with
  | Some e =>
      if bool_decide (re_state result = OperationState.RUNNING)
         && bool_decide (code e = ErrorCode.DEADLINE_EXCEEDED)
      then Some e else None
  | None => None
  end.

Definition _finish (now : time) (l : loc) (rid : RequestId) (result : ResultEnvelope) :
    op (Result value) :=
  r ← deref l;
  let sid := SessionRecord.session_id r in
  let side := re_side_effect_applied result in
  on_sessions (SessionManager.set_worker_summary sid (re_worker_summary result)) ≫= λ _,
  match timed_out result with
  | Some e => mret (RErr e)
  | None =>
      if result_ok result then
        let v := re_value result in
        (match episode_of v with
         | Some e => on_sessions (SessionManager.set_episode now sid e)
         | None => mret tt
         end) ≫= λ _,
        on_operations (OperationRegistry.succeed now rid v side) ≫= λ _,
        mret (ROk v)
      else
        let info := default (_synthesize_error result) (re_error result) in
        on_operations (match re_state result with
          | OperationState.CANCELLED => OperationRegistry.cancel now rid side "cancelled"
          | OperationState.OUTCOME_UNKNOWN =>
              OperationRegistry.mark_outcome_unknown now rid (message info)
          | _ => OperationRegistry.fail now rid info (Some side)
          end) ≫= λ _,
        mret (RErr info)
  end.

(** [_execute], up to the await of [dispatcher.send]. *)
Definition _execute (now : time) (c : call) : op (task + Result value) :=
  let rid := c_request c in
  g ← get_state;
  match _cancelled_before_dispatch rid g with
  | Some info => mret (inr (RErr info))
  | None =>
      seq ← (if mutating c then
               on_sessions (SessionManager.begin_operation (c_record c) rid) ≫= λ _,
               n ← on_sessions (SessionManager.allocate_operation_seq (c_record c));
               mret (Some n)
             else mret None);
      r ← deref (c_record c);
      let e := {|
        ce_request_id := rid; ce_session_id := SessionRecord.session_id r;
        ce_binding_token := SessionRecord.binding_token r;
        ce_episode_id := SessionRecord.episode_id r; ce_operation_seq := seq;
        ce_operation := c_operation c; ce_deadline := c_deadline c;
        ce_priority := _default_priority g; ce_payload := c_payload c;
        ce_trace_context := [(KStr "application_id", VStr (SessionRecord.application_id r))] |} in
      match SessionRecord.worker_rank r with
      | None => raise (RuntimeApiError (error_of ErrorCode.WORKER_LOST
          ("session " +:+ SessionRecord.session_id r +:+ " has no worker binding")
          [("session_id", VStr (SessionRecord.session_id r))]))
      | Some rank =>
          _require_dispatcher ≫= λ _,
          on_operations (OperationRegistry.mark_running now rid (Some rank)) ≫= λ _,
          mret (inl (WaitingPermit c rank e))
      end
  end.

(** The end of [_dispatch_one] after admission: the lock it holds is left, the quota given
    back. *)
Definition leave (c : call) (holds : bool) (x : Result value) : op (task + response) :=
  (if holds then modify (λ g, set_locked (locked g ∖ {[ c_record c ]}) g) else mret tt) ≫= λ _,
  on_admission (AdmissionController.complete_operation (c_application c) (c_session c)) ≫= λ _,
  mret (inr (Answer (c_request c) x)).

(** A segment of [_dispatch_one] after admission, with its [except] and [finally]. *)
Definition conclude (c : call) (holds : bool) (m : op (task + Result value)) :
    op (task + response) :=
  res ← attempt m;
  match res with
  | Ok (inl tk) => mret (inl tk)
  | Ok (inr x) => leave c holds x
  | Raise e => leave c holds (RErr (normalize e))
  end.

(** What a repeated request is answered. *)
Definition repeated (rid : RequestId) (o : OperationRecord) : Result value :=
  if is_terminal o then
    match error o with Some e => RErr e | None => ROk (rec_value o) end
  else RErr (error_of ErrorCode.SESSION_NOT_READY
    ("request " +:+ rid +:+ " is still " +:+ OperationState.name (state o))
    [("request_id", VStr rid); ("state", VStr (OperationState.name (state o)))]).

(** Every batch call takes the lock, [observe(consistency="eventual")] apart. *)
Definition takes_lock (o : EnvOperation.t) (eventual : bool) : bool :=
  negb (bool_decide (o = EnvOperation.OBSERVE) && eventual).

(** [_dispatch_one], up to its first await. *)
Definition _dispatch_one (now1 now2 now3 : time) (sid : SessionId) (o : EnvOperation.t)
    (payload : value) (rid : RequestId) (deadline : option time) (eventual : bool) :
    op (task + response) :=
  found ← attempt (on_sessions (_require_session sid o));
  match found with
  | Raise e => mret (inr (Answer rid (RErr (normalize e))))
  | Ok l =>
      r ← deref l;
      let app := SessionRecord.application_id r in
      admitted ← attempt (on_admission (AdmissionController.admit_operation now1 app sid deadline 0 None));
      match admitted with
      | Raise e => mret (inr (Answer rid (RErr (normalize e))))
      | Ok _ =>
          let c := Call l app sid rid o payload deadline (takes_lock o eventual) in
          conclude c false (
            begun ← on_operations (OperationRegistry.begin now2 rid (Some sid) o payload None);
            if negb begun.2 then mret (inr (repeated rid begun.1))
            else if c_take_lock c then mret (inl (WaitingLock c))
            else _execute now3 c)
      end
  end.

(** [async with record.lock], when the lock is free: [_execute] up to its await. *)
Definition lock_granted (now : time) (c : call) : op (task + response) :=
  modify (λ g, set_locked (locked g ∪ {[ c_record c ]}) g) ≫= λ _,
  conclude c true (_execute now c).

(** [CommandDispatcher.send]: a permit of the rank's semaphore, then the transport. *)
Definition permits (rank : Z) (g : t) : Z :=
  match _dispatcher g with
  | Some d => get_or d rank (_max_concurrency_per_rank g)
  | None => 0
  end.

Definition set_permits (rank n : Z) : op unit := modify (λ g,
  match _dispatcher g with Some d => set_semaphores (<[rank := n]> d) g | None => g end).

Definition send_command (c : call) (rank : Z) (e : CommandEnvelope) : op (task + response) :=
  g ← get_state;
  set_permits rank (permits rank g - 1) ≫= λ _,
  emit (SendCommand rank e) ≫= λ _,
  mret (inl (InFlight c rank e)).

(** [_execute] from the result of [dispatcher.send] to the end. *)
Definition sent_result (now : time) (c : call) (result : ResultEnvelope) : op (task + response) :=
  conclude c (c_take_lock c) (
    (if mutating c then on_sessions (SessionManager.end_operation (c_record c) (c_request c))
     else mret tt) ≫= λ _,
    x ← _finish now (c_record c) (c_request c) result; mret (inr x)).

(** The worker's answer arrives, or the transport raises. *)
Definition command_reply (now : time) (c : call) (rank : Z) (result : ResultEnvelope) :
    op (task + response) :=
  g ← get_state;
  set_permits rank (permits rank g + 1) ≫= λ _,
  sent_result now c result.

(** An exception inside [dispatcher.send] is turned into a result. *)
Definition failed_result (c : call) (info : RuntimeErrorInfo) : ResultEnvelope := {|
  re_operation := c_operation c; re_request_id := c_request c; re_state := OperationState.FAILED;
  re_value := VNone; re_error := Some info; re_side_effect_applied := false;
  re_worker_summary := None |}.

(** [_absorb_late_result] *)
Definition _absorb_late_result (now : time) (result : ResultEnvelope) : op unit :=
  if member (re_operation result) CONTROL_PLANE_OPERATIONS then mret tt
  else
    modify (λ g, set_counts (late_result_count g + 1) (orphan_result_count g) g) ≫= λ _,
    g ← get_state;
    let orphan := modify (λ g, set_counts (late_result_count g) (orphan_result_count g + 1) g) in
    let rid := re_request_id result in
    match OperationRegistry.find rid (operations g) with
    | None => orphan
    | Some r =>
        if is_terminal r then orphan
        else
          let target := match session_id r with
            | Some sid => if str_true sid then SessionManager.find sid (sessions g) else None
            | None => None
            end in
          res ← attempt (match target with
            | Some l => _finish now l rid result ≫= λ _, mret tt
            | None =>
                on_operations (
                  if result_ok result
                  then OperationRegistry.succeed now rid (re_value result) (re_side_effect_applied result)
                  else OperationRegistry.fail now rid
                    (default (_synthesize_error result) (re_error result))
                    (Some (re_side_effect_applied result))) ≫= λ _, mret tt
            end);
          match res with Ok _ => mret tt | Raise _ => orphan end
    end.

(** [cancel_request], up to the forwarding of the cancellation. *)
Definition cancel_request (now : time) (rid : RequestId) : op CancelOutcome :=
  found ← attempt (on_operations (OperationRegistry.get rid));
  match found with
  | Raise e => mret {| co_request_id := rid; co_state := OperationState.OUTCOME_UNKNOWN;
      co_side_effect_applied := false; co_message := message (normalize e) |}
  | Ok r =>
      outcome ← on_operations (OperationRegistry.request_cancel now rid);
      g ← get_state;
      match co_state outcome, _dispatcher g, worker_rank r with
      | OperationState.RUNNING, Some _, Some rank =>
          emit (SendControl rank (default EmptyString (session_id r)) (Cancel rid)) ≫= λ _, mret outcome
      | _, _, _ => mret outcome
      end
  end.

(** ** Events *)

(** The Gateway with its suspended coroutines, the responses given (newest first) and the
    request identifiers whose records [purge] has dropped. *)
Record system := System {
  gw : t;
  tasks : list task;
  outbox : list response;
  forgotten : list RequestId;
}.

Inductive event :=
  | ECreate (now1 now2 : time) (generated : SessionId) (request : CreateSessionRequest)
  | EBindingReply (i : nat) (now1 now2 : time) (reply : ResultEnvelope)
  | EClose (now1 now2 : time) (sid : SessionId)
  | EReleaseReply (i : nat) (now : time)
  | ECloseCancelled (i : nat)
  | ERecoverExpired (now : time)
  | EReapNext (i : nat) (now1 now2 : time)
  | ERenew (now1 now2 : time) (sid : SessionId) (lease : time)
  | ERenewReply (i : nat)
  | EDispatch (now1 now2 now3 : time) (sid : SessionId) (o : EnvOperation.t) (payload : value)
      (rid : RequestId) (deadline : option time) (eventual : bool)
  | ELockGranted (i : nat) (now : time)
  | ELockCancelled (i : nat) (info : RuntimeErrorInfo)
  | EPermitGranted (i : nat)
  | EPermitCancelled (i : nat) (now : time) (info : RuntimeErrorInfo)
  | EReply (i : nat) (now : time) (result : ResultEnvelope)
  | ELateResult (now : time) (result : ResultEnvelope)
  | ECancelRequest (now : time) (rid : RequestId)
  | ERegisterWorker (now : time) (info : EnvWorkerInfo)
  | EReapStaleWorkers (now1 now2 : time)
  | EPurgeOperations (moment : time)
  | EPurgeSessions (moment : time).

(** Start a coroutine. *)
Definition spawn (m : op (task + response)) (s : system) : system :=
  match m (gw s) with
  | (g, Ok (inl tk)) => System g (tasks s ++ [tk]) (outbox s) (forgotten s)
  | (g, Ok (inr x)) => System g (tasks s) (x :: outbox s) (forgotten s)
  | (g, Raise _) => System g (tasks s) (outbox s) (forgotten s)
  end.

(** Run the coroutine at a position; [k] is what awaits its end, if anything does. *)
Definition resume (i : nat) (k : option (list loc)) (m : op (task + response)) (s : system) :
    system :=
  let ended := match k with
    | Some rest => <[i := Reaping rest]> (tasks s)
    | None => delete i (tasks s)
    end in
  match m (gw s) with
  | (g, Ok (inl tk)) => System g (<[i := tk]> (tasks s)) (outbox s) (forgotten s)
  | (g, Ok (inr x)) => System g ended (x :: outbox s) (forgotten s)
  | (g, Raise _) => System g ended (outbox s) (forgotten s)
  end.

Definition silently {A} (m : op A) (s : system) : system :=
  System (after m (gw s)) (tasks s) (outbox s) (forgotten s).

(** An event that does not fit the task it names changes nothing. *)
Definition exec (s : system) (ev : event) : system :=
  match ev with
  | ECreate now1 now2 generated request => spawn (create_session now1 now2 generated request) s
  | EBindingReply i now1 now2 reply =>
      match tasks s !! i with
      | Some (Creating request l rank attempted last) =>
          resume i None (binding_reply now1 now2 request l rank attempted last reply) s
      | _ => s
      end
  | EClose now1 now2 sid => spawn (close_session now1 now2 sid None) s
  | EReleaseReply i now =>
      match tasks s !! i with
      | Some (Releasing l sid _ k) => resume i k (x ← close_finish now l sid; mret (inr x)) s
      | _ => s
      end
  | ECloseCancelled i =>
      match tasks s !! i with
      | Some (Releasing _ _ true None) => System (gw s) (delete i (tasks s)) (outbox s) (forgotten s)
      | _ => s
      end
  | ERecoverExpired now =>
      System (gw s) (tasks s ++ [Reaping (expired_locs now (sessions (gw s)))]) (outbox s) (forgotten s)
  | EReapNext i now1 now2 =>
      match tasks s !! i with
      | Some (Reaping (l :: rest)) => resume i (Some rest) (reap now1 now2 l rest) s
      | Some (Reaping []) => System (gw s) (delete i (tasks s)) (outbox s) (forgotten s)
      | _ => s
      end
  | ERenew now1 now2 sid lease => spawn (renew_session now1 now2 sid lease) s
  | ERenewReply i =>
      match tasks s !! i with
      | Some (Renewing l) =>
          resume i None (r ← deref l; mret (inr (Renewed (ROk (SessionRecord.status r))))) s
      | _ => s
      end
  | EDispatch now1 now2 now3 sid o payload rid deadline eventual =>
      spawn (_dispatch_one now1 now2 now3 sid o payload rid deadline eventual) s
  | ELockGranted i now =>
      match tasks s !! i with
      | Some (WaitingLock c) =>
          if bool_decide (c_record c ∈ locked (gw s)) then s
          else resume i None (lock_granted now c) s
      | _ => s
      end
  | ELockCancelled i info =>
      match tasks s !! i with
      | Some (WaitingLock c) =>
          resume i None (conclude c false (raise (RuntimeApiError info))) s
      | _ => s
      end
  | EPermitGranted i =>
      match tasks s !! i with
      | Some (WaitingPermit c rank e) =>
          if 0 <? permits rank (gw s) then resume i None (send_command c rank e) s else s
      | _ => s
      end
  | EPermitCancelled i now info =>
      match tasks s !! i with
      | Some (WaitingPermit c _ _) => resume i None (sent_result now c (failed_result c info)) s
      | _ => s
      end
  | EReply i now result =>
      match tasks s !! i with
      | Some (InFlight c rank _) => resume i None (command_reply now c rank result) s
      | _ => s
      end
  | ELateResult now result => silently (_absorb_late_result now result) s
  | ECancelRequest now rid =>
      spawn (o ← cancel_request now rid; mret (inr (Cancelled o))) s
  | ERegisterWorker now info => silently (on_workers (EnvWorkerRegistry.register now info)) s
  | EReapStaleWorkers now1 now2 => silently (reap_stale_workers now1 now2) s
  | EPurgeOperations moment =>
      let s' := silently (on_operations (OperationRegistry.purge moment)) s in
      System (gw s') (tasks s') (outbox s')
        (match result_of (OperationRegistry.purge moment) (operations (gw s)) with
         | Ok removed => removed ++ forgotten s
         | Raise _ => forgotten s
         end)
  | EPurgeSessions moment => silently (on_sessions (SessionManager.purge_terminal moment)) s
  end.

(** ** The batch interface: one call per session, in the order of the sessions *)

(** The calls a batch makes, or the answers it gives at once; [generated] are the
    identifiers drawn when the caller gives none.  The payload is shared or one each. *)
Definition _dispatch_batch (now : time) (sids : list SessionId) (o : EnvOperation.t)
    (payload : value + list value) (request_ids : option (list RequestId))
    (generated : list RequestId) (deadline : option time) (eventual : bool) :
    list RuntimeErrorInfo + list event :=
  let mismatch := match request_ids with
    | Some ids => negb (length ids =? length sids)%nat
    | None => false
    end in
  if mismatch then
    inl ((λ _, error_of ErrorCode.INVALID_ARGUMENT
      ("request_ids length " +:+ pretty (length (default [] request_ids)) +:+ " != "
       +:+ "session_ids length " +:+ pretty (length sids)) []) <$> sids)
  else
    let payloads := match payload with inl v => (λ _, v) <$> sids | inr vs => vs end in
    inr (zip_with (λ sid vr, EDispatch now now now sid o vr.1 vr.2 deadline eventual) sids
      (zip payloads (default generated request_ids))).

Section batch.
Context (now : time) (sids : list SessionId) (request_ids : option (list RequestId))
  (generated : list RequestId).

Definition reset (reset_spec : value) :=
  _dispatch_batch now sids EnvOperation.RESET (inl (VDict [(KStr "reset_spec", reset_spec)]))
    request_ids generated None false.

Definition observe (consistency : string) :=
  _dispatch_batch now sids EnvOperation.OBSERVE (inl (VDict [(KStr "consistency", VStr consistency)]))
    None generated None (negb (String.eqb consistency "linearizable")).

Definition action_step (actions : list value) : list RuntimeErrorInfo + list event :=
  if negb (length actions =? length sids)%nat then
    inl ((λ _, error_of ErrorCode.INVALID_ARGUMENT
      ("actions length " +:+ pretty (length actions) +:+ " != session_ids length "
       +:+ pretty (length sids)) []) <$> sids)
  else
    _dispatch_batch now sids EnvOperation.ACTION_STEP
      (inr ((λ a, VDict [(KStr "actions", a)]) <$> actions)) request_ids generated None false.

Definition policy_step (policy_request : value) :=
  _dispatch_batch now sids EnvOperation.POLICY_STEP
    (inl (VDict [(KStr "policy_request", policy_request)])) request_ids generated None false.

Definition policy_infer (policy_request : value) :=
  _dispatch_batch now sids EnvOperation.POLICY_INFER
    (inl (VDict [(KStr "policy_request", policy_request)])) request_ids generated None false.

Definition run_episode (episode_request : value) (deadline : option time) :=
  _dispatch_batch now sids EnvOperation.RUN_EPISODE
    (inl (VDict [(KStr "episode_request", episode_request)])) request_ids generated deadline false.

Definition extension_call (namespace method : string) (args : value) :=
  _dispatch_batch now sids EnvOperation.EXTENSION_CALL
    (inl (VDict [(KStr "namespace", VStr namespace); (KStr "method", VStr method); (KStr "args", args)]))
    request_ids generated None false.

End batch.

(** ** Runs *)

Definition run (evs : list event) (s : system) : system := foldl exec s evs.

(** The Gateway as it is constructed, with nothing in it. *)
Definition init (epoch : Z) (retention default_lease ttl timeout limit : Z)
    (config : AdmissionConfig) (priority : Priority.t) (transport : bool) : system := {|
  gw := Gateway (SessionManager.init epoch retention default_lease) (OperationRegistry.init ttl)
    (AdmissionController.init config) (EnvWorkerRegistry.init timeout)
    (if transport then Some ∅ else None) limit priority ∅ 0 0 [];
  tasks := []; outbox := []; forgotten := [] |}.

End gateway.

(** ** Segments as moves *)

Section rules.
Context (R : relation t) `{!PreOrder R}.

Lemma moves_attempt {A} (m : op A) : moves R m → moves R (attempt m).
Proof. intros H g. apply H. Qed.
Lemma moves_lift {A} (o : outcome exn A) : moves R (lift o).
Proof. intros g. reflexivity. Qed.
Lemma moves_on_sessions {A} (m : SessionManager.op A) :
  (∀ g, R g (set_sessions (after m (sessions g)) g)) → moves R (on_sessions m).
Proof. intros H g. apply H. Qed.
Lemma moves_on_operations {A} (m : OperationRegistry.op A) :
  (∀ g, R g (set_operations (after m (operations g)) g)) → moves R (on_operations m).
Proof. intros H g. apply H. Qed.
Lemma moves_on_admission {A} (m : AdmissionController.op A) :
  (∀ g, R g (set_admission (after m (admission g)) g)) → moves R (on_admission m).
Proof. intros H g. apply H. Qed.
Lemma moves_on_workers {A} (m : EnvWorkerRegistry.op A) :
  (∀ g, R g (set_workers (after m (workers g)) g)) → moves R (on_workers m).
Proof. intros H g. apply H. Qed.
Lemma moves_emit x : (∀ g, R g (set_trace (x :: trace g) g)) → moves R (emit x).
Proof. intros H g. apply H. Qed.
End rules.

(** Every value a program returns satisfies a predicate. *)
Definition yields {A} (Φ : A → Prop) (m : op A) : Prop :=
  ∀ g a, result_of m g = Ok a → Φ a.

Lemma yields_ret {A} (Φ : A → Prop) a : Φ a → yields Φ (mret a).
Proof. by intros H g b [= <-]. Qed.
Lemma yields_raise {A} (Φ : A → Prop) e : yields Φ (raise e).
Proof. intros g a [=]. Qed.
Lemma yields_bind {A B} (Φ : B → Prop) (m : op A) (k : A → op B) :
  (∀ a, yields Φ (k a)) → yields Φ (m ≫= k).
Proof.
  intros Hk g b. unfold result_of, mbind, prog_bind.
  destruct (m g) as [g' [a|e]]; [apply Hk|done].
Qed.
Lemma yields_attempt {A} (Φ : A → Prop) (m : op A) :
  yields Φ m → yields (λ o, ∀ a, o = Ok a → Φ a) (attempt m).
Proof. intros H g o [= <-] a Ha. by apply (H g). Qed.
Lemma yields_bind_attempt {A B} (Φ : A → Prop) (Ψ : B → Prop) (m : op A) (k : outcome exn A → op B) :
  yields Φ m → (∀ a, Φ a → yields Ψ (k (Ok a))) → (∀ e, yields Ψ (k (Raise e))) →
  yields Ψ (attempt m ≫= k).
Proof.
  intros Hm Hok Hr g b. unfold attempt, result_of, mbind, prog_bind.
  specialize (Hm g). unfold result_of in Hm. destruct (m g) as [g' [a|e]]; simpl; [|apply Hr].
  apply Hok. by apply Hm.
Qed.

(** Bind a call whose value satisfies a predicate. *)
Lemma yields_bind_yields {A B} (Φ : A → Prop) (Ψ : B → Prop) (m : op A) (k : A → op B) :
  yields Φ m → (∀ a, Φ a → yields Ψ (k a)) → yields Ψ (m ≫= k).
Proof.
  intros Hm Hk g b. specialize (Hm g). unfold result_of, mbind, prog_bind in *.
  destruct (m g) as [g' [a|e]]; [|done]. apply Hk. by apply Hm.
Qed.

(** Step over a call whatever it does. *)
Lemma wp_skip {A B} (m : op A) (k : A → op B) g Φ :
  (∀ g' a, wp (k a) g' Φ) → (∀ g' e, Φ g' (Raise e)) → wp (m ≫= k) g Φ.
Proof. intros Hk He. apply wp_bind. unfold wp at 1. by destruct (result_of m g). Qed.

Lemma wp_get {A} (k : t → op A) g Φ : wp (k g) g Φ → wp (get_state ≫= k) g Φ.
Proof. done. Qed.
Lemma wp_attempt {A B} (m : op A) (k : outcome exn A → op B) g Φ :
  wp (k (result_of m g)) (after m g) Φ → wp (attempt m ≫= k) g Φ.
Proof. done. Qed.

(** Cut a program into its calls; what is left is one goal per kind of call. *)
Ltac cut_moves :=
  intros; simpl;
  lazymatch goal with
  | |- PreOrder _ => exact _
  | |- moves _ (mret _) => apply moves_ret; exact _
  | |- moves _ (raise _) => apply moves_raise; exact _
  | |- moves _ get_state => apply moves_get; exact _
  | |- moves _ (lift _) => apply moves_lift; exact _
  | |- moves _ (_ ≫= _) => apply moves_bind; [exact _|cut_moves|cut_moves]
  | |- moves _ (attempt _) => apply moves_attempt; cut_moves
  | |- moves _ (for_each _ _) => apply moves_for_each; [exact _|cut_moves]
  | |- moves _ (guard_create _ _ _ _ _) => unfold guard_create; cut_moves
  | |- moves _ (create_failed _ _ _ _ _) => unfold create_failed; cut_moves
  | |- moves _ (place _ _ _ _) => unfold place; cut_moves
  | |- moves _ (close_finish _ _ _) => unfold close_finish; cut_moves
  | |- moves _ (close_session _ _ _ _) => unfold close_session; cut_moves
  | |- moves _ (conclude _ _ _) => unfold conclude; cut_moves
  | |- moves _ (leave _ _ _) => unfold leave; cut_moves
  | |- moves _ (_finish _ _ _ _) => unfold _finish; cut_moves
  | |- moves _ (_execute _ _) => unfold _execute; cut_moves
  | |- moves _ (sent_result _ _ _) => unfold sent_result; cut_moves
  | |- moves _ (set_permits _ _) => unfold set_permits; cut_moves
  | |- moves _ _require_dispatcher => unfold _require_dispatcher; cut_moves
  | |- moves _ (deref _) => unfold deref
  | |- moves _ (on_sessions (match ?x with _ => _ end)) => destruct x; cut_moves
  | |- moves _ (on_operations (match ?x with _ => _ end)) => destruct x; cut_moves
  | |- moves _ (on_sessions _) => idtac
  | |- moves _ (on_operations _) => idtac
  | |- moves _ (on_admission _) => idtac
  | |- moves _ (on_workers _) => idtac
  | |- moves _ (emit _) => idtac
  | |- moves _ (modify _) => idtac
  | |- moves _ (match ?x with _ => _ end) => destruct x; cut_moves
  end.

(** Follow a program to the values it returns. *)
Ltac cut_yields :=
  intros; simpl;
  lazymatch goal with
  | |- yields _ (mret _) => apply yields_ret; simpl; auto
  | |- yields _ (raise _) => apply yields_raise
  | |- yields _ (close_finish _ _ _ ≫= _) => idtac
  | |- yields _ (_ ≫= _) => apply yields_bind; cut_yields
  | |- yields _ (match ?x with _ => _ end) => destruct x; cut_yields
  | _ => idtac
  end.

(** The operation a task is about. *)
Definition task_call (tk : task) : option call :=
  match tk with WaitingLock c | WaitingPermit c _ _ | InFlight c _ _ => Some c | _ => None end.

(** Segments of the other coroutines leave no command behind and answer no request. *)
Definition controls (x : task + response) : Prop :=
  match x with
  | inl tk => task_call tk = None
  | inr (Answer _ _) => False
  | inr _ => True
  end.

Section controls.
Context {interp : Interpreter}.

Lemma create_failed_controls now request l last e :
  yields (λ x, controls (inr x)) (create_failed now request l last e).
Proof. unfold create_failed. cut_yields. Qed.

Lemma guard_create_controls now request l last m :
  yields controls m → yields controls (guard_create now request l last m).
Proof.
  intros Hm. unfold guard_create. apply (yields_bind_attempt controls); [done|intros x Hx; by cut_yields|].
  intros e. eapply yields_bind_yields; [apply create_failed_controls|]. by cut_yields.
Qed.

Lemma place_controls request l attempted last : yields controls (place request l attempted last).
Proof. unfold place. cut_yields. Qed.

Lemma create_controls now1 now2 sid request : yields controls (create_session now1 now2 sid request).
Proof.
  unfold create_session. apply yields_bind. intros [_|e]; [|by cut_yields].
  apply yields_bind. intros [[l []]|e].
  - apply guard_create_controls, place_controls.
  - cut_yields.
  - eapply yields_bind_yields; [apply create_failed_controls|]. by cut_yields.
Qed.

Lemma binding_reply_controls now1 now2 request l rank attempted last reply :
  yields controls (binding_reply now1 now2 request l rank attempted last reply).
Proof.
  unfold binding_reply. destruct (binding_of rank reply); [apply guard_create_controls; cut_yields|].
  apply yields_bind. intros _. simpl. destruct (is_resource_exhausted _).
  - apply yields_bind. intros _. apply guard_create_controls, place_controls.
  - eapply yields_bind_yields; [apply create_failed_controls|]. by cut_yields.
Qed.

Lemma close_finish_controls now l sid : yields (λ x, controls (inr x)) (close_finish now l sid).
Proof. unfold close_finish. cut_yields. Qed.

Lemma close_controls now1 now2 sid k : yields controls (close_session now1 now2 sid k).
Proof.
  unfold close_session. cut_yields;
    (eapply yields_bind_yields; [apply close_finish_controls|]; by cut_yields).
Qed.

Lemma reap_controls now1 now2 l rest : yields controls (reap now1 now2 l rest).
Proof.
  unfold reap. apply yields_bind. intros r. destruct (SessionRecord.active_operation r);
    [cut_yields|apply close_controls].
Qed.

Lemma renew_controls now1 now2 sid lease : yields controls (renew_session now1 now2 sid lease).
Proof. unfold renew_session. cut_yields. Qed.

End controls.

(** ** A run *)

Definition demo_interpreter : Interpreter := λ e,
  let '(cls, msg) := match e with
    | TypeError m => ("TypeError", m) | ValueError m => ("ValueError", m)
    | KeyError m => ("KeyError", m) | AttributeError m => ("AttributeError", m)
    end in
  {| exc_class := cls; exc_bases := [cls]; exc_str := msg; exc_traceback := EmptyString;
     exc_info := None |}.

Definition demo_config : AdmissionConfig := {|
  require_auth := false; tokens := ∅; max_sessions_per_application := 1;
  max_inflight_operations_per_application := 4; max_inflight_operations_per_session := 4;
  max_total_inflight_operations := 8 |}.

Definition demo_init : system := init 1 300 300 600 30 8 demo_config Priority.INTERACTIVE true.

Definition demo_reply (v : value) : ResultEnvelope := {|
  re_operation := EnvOperation.RESET; re_request_id := "r1"; re_state := OperationState.SUCCEEDED;
  re_value := v; re_error := None; re_side_effect_applied := true; re_worker_summary := None |}.

Definition demo_request (key : string) : CreateSessionRequest := {|
  Messages.application_id := "app"; Messages.client_session_key := key;
  Messages.env_spec := EnvWorkerRegistry.demo_spec; Messages.default_policy_id := None;
  lease_seconds := 60; Messages.metadata := []; auth_token := None |}.

(** A worker registers and binds a session. *)
Definition demo_open (sid : SessionId) : list event :=
  [ERegisterWorker 1 (EnvWorkerRegistry.demo_worker 0); ECreate 2 2 sid (demo_request sid);
   EBindingReply 0 3 3 (demo_reply (VStr "token"))].

(** A call gets the lock and a permit and is answered. *)
Definition demo_reset (rid : RequestId) : list event :=
  [EDispatch 4 4 4 "s1" EnvOperation.RESET (VDict []) rid None false; ELockGranted 0 5;
   EPermitGranted 0; EReply 0 6 (demo_reply (VData "StepResult" [("episode_id", VInt 1)]))].

End RuntimeGateway.
