(* ===== verification/GatewayOnce.v ===== *)
(** * The Gateway sends each request once

    Whatever calls arrive and whatever workers answer, a request identifier whose record
    is not purged is handed to the transport at most once, and its successful answers
    agree ([commands_sent_once]). *)

From S2P Require Import Prelude PyDict Sorting Codec Api Messages Operations Sessions GatewayAdmission Workers Gateway.

Open Scope string_scope.
Open Scope list_scope.
Open Scope Z_scope.

Module GatewayOnce.
Import RuntimeGateway.
(** ** Requests and their records *)

Definition sent_ids (g : t) : list RequestId :=
  omap (λ m, match m with SendCommand _ e => Some (ce_request_id e) | _ => None end) (trace g).

(** The request of a command not yet handed to the transport. *)
Definition unsent_id (tk : task) : option RequestId :=
  match tk with
  | WaitingLock c => Some (c_request c)
  | WaitingPermit _ _ e => Some (ce_request_id e)
  | _ => None
  end.

(** Records persist and go forward, and nothing is sent. *)
Record quiet (g g' : t) : Prop := {
  quiet_wf : OperationRegistry.wf (operations g) → OperationRegistry.wf (operations g');
  quiet_keeps id r : OperationRegistry.find id (operations g) = Some r →
    ∃ r', OperationRegistry.find id (operations g') = Some r' ∧ OperationRegistry.later r r';
  quiet_sent : sent_ids g' = sent_ids g;
}.

#[export] Instance quiet_preorder : PreOrder quiet.
Proof.
  split.
  - intros g. split; [done| |done]. intros id r Hr. exists r. split; [done|]. reflexivity.
  - intros g1 g2 g3 [W1 K1 S1] [W2 K2 S2]. split; [auto| |congruence].
    intros id r Hr. destruct (K1 _ _ Hr) as (r2 & Hr2 & H2). destruct (K2 _ _ Hr2) as (r3 & Hr3 & H3).
    exists r3. split; [done|]. by etrans.
Qed.

Lemma same_quiet g g' :
  operations g' = operations g → sent_ids g' = sent_ids g → quiet g g'.
Proof.
  intros Ho Hs. split; rewrite ?Ho; auto. intros id r Hr. exists r. split; [done|]. reflexivity.
Qed.

(** A call of the registry that is one of its commands other than a purge. *)
Lemma operations_quiet {A} (m : OperationRegistry.op A) c :
  OperationRegistry.is_purge c = false → (∀ s, after m s = OperationRegistry.exec s c) →
  moves quiet (on_operations m).
Proof.
  intros Hc Hm. apply moves_on_operations. intros g. simpl. rewrite Hm. split; simpl.
  - apply OperationRegistry.exec_wf.
  - intros id r Hr. destruct (OperationRegistry.exec_updates c (operations g) Hc) as [k Hk].
    by eapply OperationRegistry.updates_later.
  - done.
Qed.

Lemma get_quiet rid : moves quiet (on_operations (OperationRegistry.get rid)).
Proof.
  apply moves_on_operations. intros g. apply same_quiet; [|done]. simpl.
  unfold after, OperationRegistry.get. by destruct (OperationRegistry._records _ !! rid).
Qed.

Ltac quiet_operation :=
  first
    [ apply get_quiet
    | by eapply (operations_quiet _ (OperationRegistry.Begin _ _ _ _ _ _))
    | by eapply (operations_quiet _ (OperationRegistry.MarkRunning _ _ _))
    | by eapply (operations_quiet _ (OperationRegistry.Succeed _ _ _ _))
    | by eapply (operations_quiet _ (OperationRegistry.Fail_ _ _ _ _))
    | by eapply (operations_quiet _ (OperationRegistry.Cancel _ _ _ _))
    | by eapply (operations_quiet _ (OperationRegistry.MarkOutcomeUnknown _ _ _))
    | by eapply (operations_quiet _ (OperationRegistry.RequestCancel _ _)) ].

Ltac quiet_call :=
  first
    [ apply moves_on_sessions; intros; by apply same_quiet
    | apply moves_on_admission; intros; by apply same_quiet
    | apply moves_on_workers; intros; by apply same_quiet
    | apply moves_modify; intros; apply same_quiet; by repeat case_match
    | apply moves_emit; intros; by apply same_quiet
    | quiet_operation ].

Ltac solve_quiet := cut_moves; quiet_call.

Section once.
Context {interp : Interpreter}.

(** ** What a request is answered *)

Definition succeeded (rid : RequestId) (v : value) (g : t) : Prop :=
  ∃ r, OperationRegistry.find rid (operations g) = Some r ∧ state r = OperationState.SUCCEEDED ∧
    rec_value r = v.

(** A positive answer is the value recorded for the request. *)
Definition answered (g : t) (x : response) : Prop :=
  match x with Answer rid (ROk v) => succeeded rid v g | _ => True end.

Lemma succeeded_quiet rid v g g' : quiet g g' → succeeded rid v g → succeeded rid v g'.
Proof.
  intros [_ Hk _] (r & Hr & Hs & Hv). destruct (Hk _ _ Hr) as (r' & Hr' & _ & _ & _ & Hf).
  rewrite (Hf ltac:(unfold is_terminal; by rewrite Hs)) in *. by exists r.
Qed.

Lemma succeed_spec now rid v side s r :
  result_of (OperationRegistry.succeed now rid v side) s = Ok r →
  OperationRegistry.find rid (after (OperationRegistry.succeed now rid v side) s) = Some r ∧
  state r = OperationState.SUCCEEDED ∧ rec_value r = v.
Proof.
  unfold OperationRegistry.succeed, result_of, after, mbind, prog_bind.
  rewrite OperationRegistry._transition_spec.
  destruct (OperationRegistry._records s !! rid) as [r0|]; [|done].
  destruct (member _ _); [|done]. simpl. intros [= <-]. unfold OperationRegistry.find. simpl.
  by rewrite dict_lookup_insert_eq.
Qed.

Lemma finish_answer now l rid result g :
  wp (_finish now l rid result) g (λ g' o, ∀ v, o = Ok (ROk v) → succeeded rid v g').
Proof.
  unfold _finish. apply wp_skip; [|done]. intros g1 r. apply wp_skip; [|done]. intros g2 _.
  destruct (timed_out result); [done|]. destruct (result_ok result).
  - apply wp_skip; [|done]. intros g3 _. apply wp_bind. unfold wp at 1.
    destruct (result_of (on_operations _) g3) as [o|] eqn:Ho; [|done].
    intros v [= <-]. apply succeed_spec in Ho as (Hf & Hs & Hv). by exists o.
  - apply wp_skip; [|done]. intros. done.
Qed.

(** The end of the coroutine changes no record. *)
Lemma leave_answer c holds x g :
  wp (leave c holds x) g (λ g' o, operations g' = operations g ∧ o = Ok (inr (Answer (c_request c) x))).
Proof. unfold leave. by destruct holds. Qed.

Lemma conclude_answer c holds m g :
  wp m g (λ g' o, ∀ v, o = Ok (inr (ROk v)) → succeeded (c_request c) v g') →
  wp (conclude c holds m) g (λ g' o, match o with
    | Ok (inl tk) => result_of m g = Ok (inl tk)
    | Ok (inr x) => answered g' x
    | Raise _ => True
    end).
Proof.
  intros Hm. unfold conclude. apply wp_attempt. unfold wp in Hm.
  destruct (result_of m g) as [[tk|x]|e] eqn:He; [done| |];
    (eapply wp_mono; [|apply leave_answer]); intros g' o [Ho ->]; [|done].
  destruct x as [v|]; [|done]. destruct (Hm v eq_refl) as (r & Hf & ?). exists r. by rewrite Ho.
Qed.

(** ** Segments *)

(** A segment moves quietly; if its coroutine goes on it still has the same request to
    send, and if it ends, its answer is the recorded one. *)
Definition segment (rid : option RequestId) (m : op (task + response)) : Prop :=
  moves quiet m ∧ ∀ g, OperationRegistry.wf (operations g) →
    wp m g (λ g' o, match o with
      | Ok (inl tk) => unsent_id tk = rid
      | Ok (inr x) => answered g' x
      | Raise _ => True
      end).

Lemma controls_segment m : moves quiet m → yields controls m → segment None m.
Proof.
  intros Hq Hy. split; [done|]. intros g _. unfold wp.
  destruct (result_of m g) as [x|] eqn:Hr; [|done]. apply Hy in Hr. destruct x as [tk|[]]; try done. by destruct tk.
Qed.

Lemma create_segment now1 now2 sid request : segment None (create_session now1 now2 sid request).
Proof. apply controls_segment; [unfold create_session; solve_quiet|apply create_controls]. Qed.
Lemma binding_segment now1 now2 request l rank attempted last reply :
  segment None (binding_reply now1 now2 request l rank attempted last reply).
Proof. apply controls_segment; [unfold binding_reply; solve_quiet|apply binding_reply_controls]. Qed.
Lemma close_segment now1 now2 sid k : segment None (close_session now1 now2 sid k).
Proof. apply controls_segment; [solve_quiet|apply close_controls]. Qed.
Lemma close_finish_segment now l sid :
  segment None (x ← close_finish now l sid; mret (inr x)).
Proof.
  apply controls_segment; [solve_quiet|].
  eapply yields_bind_yields; [apply close_finish_controls|]. by cut_yields.
Qed.
Lemma reap_segment now1 now2 l rest : segment None (reap now1 now2 l rest).
Proof. apply controls_segment; [unfold reap; solve_quiet|apply reap_controls]. Qed.
Lemma renew_segment now1 now2 sid lease : segment None (renew_session now1 now2 sid lease).
Proof. apply controls_segment; [unfold renew_session; solve_quiet|apply renew_controls]. Qed.
Lemma status_segment l :
  segment None (r ← deref l; mret (inr (Renewed (ROk (SessionRecord.status r))))).
Proof. apply controls_segment; [solve_quiet|cut_yields]. Qed.
Lemma cancel_segment now rid : segment None (o ← cancel_request now rid; mret (inr (Cancelled o))).
Proof.
  apply controls_segment; [|cut_yields]. unfold cancel_request. solve_quiet.
Qed.

Lemma execute_yields now c :
  yields (λ x, match x with
    | inl tk => unsent_id tk = Some (c_request c)
    | inr (ROk _) => False
    | inr (RErr _) => True
    end) (_execute now c).
Proof. unfold _execute. cut_yields. Qed.

Lemma lock_segment now c : segment (Some (c_request c)) (lock_granted now c).
Proof.
  split; [unfold lock_granted; solve_quiet|]. intros g Hwf. apply wp_skip; [|done]. intros g1 _.
  eapply wp_mono; [|apply conclude_answer].
  - intros g' [[tk|x]|e] H; [|done|done]. by apply execute_yields in H.
  - intros v Hv. by apply execute_yields in Hv.
Qed.

Lemma lock_cancelled_segment c e :
  segment (Some (c_request c)) (conclude c false (raise e)).
Proof.
  split; [solve_quiet|]. intros g Hwf. eapply wp_mono; [|by apply conclude_answer].
  by intros g' [[tk|x]|e'] H.
Qed.

Lemma sent_result_segment now c result rid : segment rid (sent_result now c result).
Proof.
  split; [solve_quiet|]. intros g Hwf.
  assert (Hy : yields (λ x, match x with inl _ => False | inr _ => True end)
    ((if mutating c then on_sessions (SessionManager.end_operation (c_record c) (c_request c))
      else mret tt) ≫= λ _, x ← _finish now (c_record c) (c_request c) result;
      mret (inr x : task + Result value))) by cut_yields.
  eapply wp_mono; [|apply conclude_answer].
  - intros g' [[tk|x]|e] H; [|done|done]. by apply Hy in H.
  - apply wp_skip; [|done]. intros g1 _. apply wp_bind. eapply wp_mono; [|apply finish_answer].
    intros g' [x|e] H; [|done]. intros v [= ->]. by apply H.
Qed.

Lemma reply_segment now c rank result rid : segment rid (command_reply now c rank result).
Proof.
  split; [unfold command_reply; solve_quiet|]. intros g Hwf. apply wp_bind.
  unfold wp at 1. simpl. apply wp_bind. unfold wp at 1. simpl.
  apply (proj2 (sent_result_segment now c result rid)). unfold set_permits, after, modify. simpl.
  by destruct (_dispatcher g).
Qed.

(** A new request enters the registry; a known one is answered from it. *)
Lemma begun_spec now2 now3 sid c g :
  OperationRegistry.wf (operations g) →
  wp (begun ← on_operations (OperationRegistry.begin now2 (c_request c) sid (c_operation c) (c_payload c) None);
      if negb begun.2 then mret (inr (repeated (c_request c) begun.1))
      else if c_take_lock c then mret (inl (WaitingLock c))
      else _execute now3 c) g
    (λ g' o, match o with
     | Ok (inl tk) => unsent_id tk = Some (c_request c) ∧
         OperationRegistry.find (c_request c) (operations g) = None ∧
         is_Some (OperationRegistry.find (c_request c) (operations g'))
     | Ok (inr (ROk v)) => succeeded (c_request c) v g'
     | _ => True
     end).
Proof.
  intros [_ Hrec]. apply wp_bind. unfold wp at 1, on_operations, after, result_of. simpl.
  rewrite OperationRegistry.begin_spec_cases. unfold OperationRegistry.find.
  destruct (OperationRegistry.fingerprint_of _ _ _ _) as [d|e]; [|done].
  destruct (OperationRegistry._records (operations g) !! c_request c) as [r|] eqn:Hr.
  - destruct (String.eqb _ _); [|done]. unfold wp, repeated. simpl.
    destruct (is_terminal r) eqn:Ht; [|done]. destruct (error r) eqn:He; [done|].
    exists r. split; [done|]. split; [|done]. destruct (Hrec _ _ Hr) as (_ & _ & Hst).
    unfold is_terminal in Ht. destruct (state r); try done; rewrite He in Hst;
      by destruct Hst as [_ []].
  - simpl. set (g1 := set_operations _ g).
    assert (Hk : is_Some (OperationRegistry.find (c_request c) (operations g1))).
    { unfold OperationRegistry.find. simpl. rewrite dict_lookup_insert_eq. by eexists. }
    destruct (c_take_lock c); [done|].
    assert (Hq : moves quiet (_execute now3 c)) by solve_quiet.
    pose proof (execute_yields now3 c g1) as Hy. unfold wp.
    destruct (result_of (_execute now3 c) g1) as [x|] eqn:Hx; [|done].
    specialize (Hy x eq_refl). destruct x as [tk|[]]; [|done|done].
    split; [done|]. split; [done|]. destruct Hk as [r0 Hr0].
    destruct (quiet_keeps _ _ (Hq g1) _ _ Hr0) as (r1 & Hr1 & _). by eexists.
Qed.

Lemma dispatch_segment now1 now2 now3 sid o payload rid deadline eventual g :
  OperationRegistry.wf (operations g) →
  wp (_dispatch_one now1 now2 now3 sid o payload rid deadline eventual) g (λ g' o,
    match o with
    | Ok (inl tk) => unsent_id tk = Some rid ∧ OperationRegistry.find rid (operations g) = None ∧
        is_Some (OperationRegistry.find rid (operations g'))
    | Ok (inr x) => answered g' x
    | Raise _ => True
    end).
Proof.
  intros Hwf. unfold _dispatch_one. apply wp_attempt. destruct (result_of _ g) as [l|]; [|done].
  apply wp_bind. unfold wp at 1. set (g1 := after (deref l) _).
  destruct (result_of (deref l) _) as [r|]; [|done]. apply wp_attempt.
  set (g2 := after _ g1). destruct (result_of _ g1) as [_|]; [|done].
  set (c := Call _ _ _ _ _ _ _ _).
  assert (Hops : operations g2 = operations g) by done.
  pose proof (begun_spec now2 now3 (Some sid) c g2) as Hb. rewrite Hops in Hb. specialize (Hb Hwf).
  revert Hb. cbn [c_request c_operation c_payload c_take_lock c].
  set (m := _ ≫= _). intros Hb.
  unfold conclude. apply wp_attempt. unfold wp in Hb.
  destruct (result_of m g2) as [[tk|x]|e]; [done| |];
    (eapply wp_mono; [|apply leave_answer]); intros g' o' [Ho ->]; [|done].
  destruct x as [v|]; [|done]. destruct Hb as (r' & Hf & ?). exists r'. simpl. by rewrite Ho.
Qed.

(** The requests with a command handed over or waiting to be. *)
Definition dispatched (s : system) : list RequestId :=
  omap unsent_id (tasks s) ++ sent_ids (gw s).

Record tidy (s : system) : Prop := {
  tidy_wf : OperationRegistry.wf (operations (gw s));
  tidy_once id : id ∉ forgotten s → count (String.eqb id) (dispatched s) ≤ 1;
  tidy_known id : id ∈ dispatched s → id ∉ forgotten s →
    is_Some (OperationRegistry.find id (operations (gw s)));
  tidy_answers id v : Answer id (ROk v) ∈ outbox s → id ∉ forgotten s → succeeded id v (gw s);
}.

(** Nothing new to dispatch, and the records of the gateway went forward. *)
Lemma tidy_less s s' :
  tidy s → quiet (gw s) (gw s') → forgotten s' = forgotten s → dispatched s' ⊆+ dispatched s →
  (∀ x, x ∈ outbox s' → x ∈ outbox s ∨ answered (gw s') x) → tidy s'.
Proof.
  intros [Hw Ho Hk Ha] Hq Hf Hsub Hout. constructor; rewrite ?Hf.
  - by apply (quiet_wf _ _ Hq).
  - intros id Hid. specialize (Ho id Hid). destruct (submseteq_Permutation _ _ Hsub) as [l Hl].
    rewrite (count_perm _ _ _ Hl), count_app in Ho. pose proof (count_bounds (String.eqb id) l). lia.
  - intros id Hin Hid. apply (elem_of_submseteq _ _ id Hin) in Hsub.
    destruct (Hk id Hsub Hid) as [r Hr]. destruct (quiet_keeps _ _ Hq _ _ Hr) as (r' & -> & _).
    by eexists.
  - intros id v Hin Hid. destruct (Hout _ Hin) as [Hin'|Hans]; [|done].
    eapply succeeded_quiet; [done|]. by apply Ha.
Qed.

Lemma spawn_tidy m s :
  tidy s → segment None m → tidy (spawn m s).
Proof.
  intros Hs [Hq Hm]. specialize (Hm (gw s) (tidy_wf _ Hs)). specialize (Hq (gw s)).
  unfold spawn, wp, after, result_of in *. destruct (m (gw s)) as [g [[tk|x]|e]]; simpl in *;
    apply (tidy_less _ _ Hs); try done; unfold dispatched; simpl;
    rewrite ?(quiet_sent _ _ Hq); try done.
  - rewrite omap_app. csimpl. by rewrite Hm, app_nil_r.
  - auto.
  - intros y [->|Hy]%elem_of_cons; auto.
  - auto.
Qed.

Lemma resume_tidy i tk0 k m s :
  tidy s → tasks s !! i = Some tk0 → segment (unsent_id tk0) m → tidy (resume i k m s).
Proof.
  intros Hs Hi [Hq Hm]. specialize (Hm (gw s) (tidy_wf _ Hs)). specialize (Hq (gw s)).
  pose proof (delete_Permutation _ _ _ Hi) as Hdel.
  assert (Hdrop : omap unsent_id (delete i (tasks s)) ⊆+ omap unsent_id (tasks s)).
  { rewrite Hdel at 2. csimpl. destruct (unsent_id tk0); [by apply submseteq_cons|done]. }
  assert (Hrep : ∀ tk, unsent_id tk = unsent_id tk0 ∨ unsent_id tk = None →
    omap unsent_id (<[i:=tk]> (tasks s)) ⊆+ omap unsent_id (tasks s)).
  { intros tk Htk. rewrite (replaced_perm _ _ _ _ Hi). rewrite Hdel at 2. csimpl.
    destruct Htk as [-> | ->]; [done|]. destruct (unsent_id tk0); [by apply submseteq_cons|done]. }
  assert (Hended : omap unsent_id (match k with Some rest => <[i := Reaping rest]> (tasks s)
    | None => delete i (tasks s) end) ⊆+ omap unsent_id (tasks s)).
  { destruct k; [apply Hrep; by right|done]. }
  unfold resume, wp, after, result_of in *. destruct (m (gw s)) as [g [[tk|x]|e]]; simpl in *;
    apply (tidy_less _ _ Hs); try done; unfold dispatched; simpl; rewrite ?(quiet_sent _ _ Hq);
    try (apply submseteq_app; [|done]); auto.
  intros y [->|Hy]%elem_of_cons; auto.
Qed.

Lemma silently_tidy {A} (m : op A) s : tidy s → moves quiet m → tidy (silently m s).
Proof.
  intros Hs Hq. specialize (Hq (gw s)).
  apply (tidy_less _ _ Hs); try done; [|auto]. unfold dispatched. simpl. by rewrite (quiet_sent _ _ Hq).
Qed.

(** A task leaves without running. *)
Lemma dropped_tidy i tk0 s :
  tidy s → tasks s !! i = Some tk0 →
  tidy (System (gw s) (delete i (tasks s)) (outbox s) (forgotten s)).
Proof.
  intros Hs Hi. apply (tidy_less _ _ Hs); try done; [|auto]. unfold dispatched. simpl.
  apply submseteq_app; [|done]. rewrite (delete_Permutation _ _ _ Hi) at 2. csimpl.
  destruct (unsent_id tk0); [by apply submseteq_cons|done].
Qed.

Lemma dispatch_quiet now1 now2 now3 sid o payload rid deadline eventual :
  moves quiet (_dispatch_one now1 now2 now3 sid o payload rid deadline eventual).
Proof. unfold _dispatch_one. solve_quiet. Qed.

Lemma dispatch_tidy now1 now2 now3 sid o payload rid deadline eventual s :
  tidy s → tidy (spawn (_dispatch_one now1 now2 now3 sid o payload rid deadline eventual) s).
Proof.
  intros Hs. pose proof Hs as [Hw Ho Hk Ha].
  set (m := _dispatch_one now1 now2 now3 sid o payload rid deadline eventual).
  assert (Hq : quiet (gw s) (after m (gw s))) by apply dispatch_quiet.
  pose proof (dispatch_segment now1 now2 now3 sid o payload rid deadline eventual (gw s) Hw) as Hm.
  fold m in Hm. unfold spawn, wp, after, result_of in *.
  destruct (m (gw s)) as [g [[tk|x]|e]]; simpl in *.
  2,3: apply (tidy_less _ _ Hs); try done; unfold dispatched; simpl; rewrite ?(quiet_sent _ _ Hq);
    try done; auto; intros y [->|Hy]%elem_of_cons; auto.
  destruct Hm as (Hid & Hnone & Hsome).
  assert (Hdis : dispatched (System g (tasks s ++ [tk]) (outbox s) (forgotten s)) ≡ₚ rid :: dispatched s).
  { unfold dispatched. simpl. rewrite omap_app, (quiet_sent _ _ Hq). csimpl. rewrite Hid.
    rewrite <- (assoc_L (++)). simpl. by rewrite <- Permutation_middle. }
  constructor; simpl; [by apply (quiet_wf _ _ Hq)|..].
  - intros id Hf. rewrite (count_perm _ _ _ Hdis), count_cons. specialize (Ho id Hf).
    destruct (String.eqb_spec id rid) as [->|]; simpl; [|lia].
    enough (count (String.eqb rid) (dispatched s) = 0) by lia. apply count_zero. intros y Hy.
    apply String.eqb_neq. intros <-. destruct (Hk _ Hy Hf). congruence.
  - intros id. rewrite Hdis. intros [->|Hin]%elem_of_cons Hf; [done|].
    destruct (Hk id Hin Hf) as [r Hr]. destruct (quiet_keeps _ _ Hq _ _ Hr) as (r' & -> & _). by eexists.
  - intros id v Hin Hf. eapply succeeded_quiet; [done|]. by apply Ha.
Qed.

(** Handing a command over moves its request from waiting to sent. *)
Lemma send_tidy i c rank e s :
  tidy s → tasks s !! i = Some (WaitingPermit c rank e) →
  tidy (resume i None (send_command c rank e) s).
Proof.
  intros [Hw Ho Hk Ha] Hi. unfold resume, send_command, set_permits, emit.
  set (s' := match _ with (g, o) => _ end).
  assert (Hops : operations (gw s') = operations (gw s)).
  { unfold s'. simpl. by destruct (_dispatcher (gw s)). }
  assert (Hrest : outbox s' = outbox s ∧ forgotten s' = forgotten s) by done.
  assert (Hdis : dispatched s' ≡ₚ dispatched s).
  { unfold dispatched, s'. simpl. rewrite (replaced_perm _ _ _ _ Hi).
    rewrite (delete_Permutation _ _ _ Hi) at 2. csimpl. unfold sent_ids. csimpl.
    rewrite <- Permutation_middle. by destruct (_dispatcher (gw s)). }
  destruct Hrest as [E1 E2]. constructor; rewrite ?Hops, ?E1, ?E2; [done|..].
  - intros id Hf. rewrite (count_perm _ _ _ Hdis). auto.
  - intros id. rewrite Hdis. auto.
  - intros id v Hin Hf. unfold succeeded. rewrite Hops. by apply Ha.
Qed.

Lemma purge_tidy moment s : tidy s → tidy (exec s (EPurgeOperations moment)).
Proof.
  intros [Hw Ho Hk Ha]. simpl.
  set (removed := (bfilter (λ kv, OperationRegistry.expired moment
    (OperationRegistry._ttl (operations (gw s))) kv.2)
    (items (OperationRegistry._records (operations (gw s))))).*1).
  assert (Hfind : ∀ id, id ∉ removed → OperationRegistry.find id (after (OperationRegistry.purge moment)
    (operations (gw s))) = OperationRegistry.find id (operations (gw s))).
  { intros id Hid. unfold OperationRegistry.find, after, OperationRegistry.purge. simpl.
    rewrite dict_lookup_delete_all. by rewrite decide_False. }
  constructor; simpl.
  - apply (OperationRegistry.exec_wf (OperationRegistry.Purge moment) _ Hw).
  - intros id [Hr Hf]%not_elem_of_app. by apply Ho.
  - intros id Hin [Hr Hf]%not_elem_of_app. change (is_Some (OperationRegistry.find id
      (after (OperationRegistry.purge moment) (operations (gw s))))). rewrite Hfind by done. by apply Hk.
  - intros id v Hin [Hr Hf]%not_elem_of_app. unfold succeeded. simpl. rewrite Hfind by done. by apply Ha.
Qed.

Lemma exec_tidy s ev : tidy s → tidy (exec s ev).
Proof.
  intros Hs. destruct ev; simpl;
    try (apply purge_tidy; done);
    try (apply silently_tidy; [done|]; unfold _absorb_late_result, reap_stale_workers; solve_quiet);
    try (apply spawn_tidy; [done|]; first [apply create_segment|apply close_segment
      |apply renew_segment|apply cancel_segment]);
    try (apply dispatch_tidy; done);
    try (destruct (tasks s !! i) as [tk|] eqn:Hi; [destruct tk|]; try done).
  - by apply (resume_tidy _ _ _ _ _ Hs Hi), binding_segment.
  - by apply (resume_tidy _ _ _ _ _ Hs Hi), close_finish_segment.
  - destruct best_effort, reaping; try done. by eapply dropped_tidy.
  - apply (tidy_less _ _ Hs); try done; [|auto]. unfold dispatched. simpl.
    by rewrite omap_app, app_nil_r.
  - destruct ls; [by eapply dropped_tidy|]. by apply (resume_tidy _ _ _ _ _ Hs Hi), reap_segment.
  - by apply (resume_tidy _ _ _ _ _ Hs Hi), status_segment.
  - case_bool_decide; [done|]. by apply (resume_tidy _ _ _ _ _ Hs Hi), lock_segment.
  - by apply (resume_tidy _ _ _ _ _ Hs Hi), lock_cancelled_segment.
  - destruct (0 <? _); [|done]. by apply send_tidy.
  - by apply (resume_tidy _ _ _ _ _ Hs Hi), sent_result_segment.
  - by apply (resume_tidy _ _ _ _ _ Hs Hi), reply_segment.
Qed.

Lemma run_tidy evs s : tidy s → tidy (run evs s).
Proof. revert s. induction evs as [|ev evs IH]; intros s Hs; [done|]. by apply IH, exec_tidy. Qed.

Lemma init_tidy a b c d e f config p tr : tidy (init a b c d e f config p tr).
Proof.
  constructor; simpl.
  - split; [apply dict_wf_empty|done].
  - intros id _. change (count (String.eqb id) [] ≤ 1). rewrite count_nil. lia.
  - by intros id Hin%elem_of_nil.
  - by intros id v Hin%elem_of_nil.
Qed.

(** C1: effectively-once through the whole facade.  In every run (whatever calls arrive,
    whatever workers answer, late, cancelled or lost), as long as the record of a request
    identifier has not been purged, at most one command with it has been handed to the
    transport, its record is in the registry, and two successful answers to it carry the
    same value: that of its record. *)
Theorem commands_sent_once (epoch : Z) (retention default_lease ttl timeout limit : Z)
    (config : AdmissionConfig) (priority : Priority.t) (transport : bool) (evs : list event)
    (id : RequestId) :
  let s := run evs (init epoch retention default_lease ttl timeout limit config priority transport) in
  id ∉ forgotten s →
  count (String.eqb id) (sent_ids (gw s)) ≤ 1 ∧
  (id ∈ sent_ids (gw s) → is_Some (OperationRegistry.find id (operations (gw s)))) ∧
  (∀ v1 v2, Answer id (ROk v1) ∈ outbox s → Answer id (ROk v2) ∈ outbox s → v1 = v2).
Proof.
  intros s Hid. destruct (run_tidy evs _ (init_tidy epoch retention default_lease ttl timeout limit
    config priority transport)) as [_ Ho Hk Ha]. fold s in Ho, Hk, Ha. split; [|split].
  - specialize (Ho id Hid). unfold dispatched in Ho. rewrite count_app in Ho.
    pose proof (count_bounds (String.eqb id) (omap unsent_id (tasks s))). lia.
  - intros Hin. apply Hk; [|done]. unfold dispatched. set_solver.
  - intros v1 v2 (r1 & H1 & _ & <-)%Ha (r2 & H2 & _ & <-)%Ha; [|done..]. congruence.
Qed.

End once.

Lemma commands_sent_once_witness :
  let s := run (interp := demo_interpreter) (demo_open "s1" ++ demo_reset "r1" ++
    [EDispatch 7 7 7 "s1" EnvOperation.RESET (VDict []) "r1" None false]) demo_init in
  count (String.eqb "r1") (sent_ids (gw s)) ≤ 1 ∧ "r1" ∈ sent_ids (gw s) ∧
  length (outbox s) = 3%nat.
Proof.
  intros s. destruct (commands_sent_once (interp := demo_interpreter) 1 300 300 600 30 8 demo_config
    Priority.INTERACTIVE true (demo_open "s1" ++ demo_reset "r1" ++
    [EDispatch 7 7 7 "s1" EnvOperation.RESET (VDict []) "r1" None false]) "r1") as [H _].
  - vm_compute. by intros ?%elem_of_nil.
  - split; [exact H|]. vm_compute. split; [by left|reflexivity].
Defined.

End GatewayOnce.
