(* ===== verification/GatewayOrder.v ===== *)
(** * The Gateway serialises the commands of a session

    Per session record at most one lock-taking command is on its way to a worker, and the
    mutating commands are handed to the transport in the order of their sequence numbers
    ([commands_serialised]). *)

From S2P Require Import Prelude PyDict Sorting Codec Api Messages Operations Sessions GatewayAdmission Workers Gateway.

Open Scope string_scope.
Open Scope list_scope.
Open Scope Z_scope.

Module GatewayOrder.
Import RuntimeGateway.

Notation records g := (SessionManager.heap (sessions g)).

(** The commands handed to the transport, newest first. *)
Definition commands (g : t) : list CommandEnvelope :=
  omap (λ m, match m with SendCommand _ e => Some e | _ => None end) (trace g).

(** Session records evolve in place; locks and commands stay. *)
Record calm (g g' : t) : Prop := {
  calm_records : Forall2 SessionManager.evolves (records g) (records g');
  calm_locked : locked g' = locked g;
  calm_commands : commands g' = commands g;
}.

#[export] Instance calm_preorder : PreOrder calm.
Proof.
  split; [by split|]. intros g1 g2 g3 [R1 L1 C1] [R2 L2 C2]. split; [by etrans|congruence..].
Qed.

Lemma same_calm g g' :
  sessions g' = sessions g → locked g' = locked g → commands g' = commands g → calm g g'.
Proof. intros Hs Hl Hc. split; [by rewrite Hs|done..]. Qed.

Lemma touch_evolves s s' :
  SessionManager.touch s s' →
  Forall2 SessionManager.evolves (SessionManager.heap s) (SessionManager.heap s').
Proof.
  intros Ht. apply Forall2_lookup. intros l.
  destruct (SessionManager.heap s !! l) as [r|] eqn:Hr.
  - destruct (SessionManager.touch_forward _ _ _ _ Ht Hr) as (r' & -> & He).
    constructor. by apply SessionManager.edit_evolves.
  - destruct (SessionManager.heap s' !! l) as [r'|] eqn:Hr'; [|constructor].
    destruct (SessionManager.touch_backward _ _ _ _ Ht Hr') as (r & ? & _). congruence.
Qed.

Lemma purge_heap ids s :
  SessionManager.heap (foldl SessionManager.purge_one s ids) = SessionManager.heap s.
Proof.
  revert s. induction ids as [|id ids IH]; intros s; simpl; [done|].
  by rewrite IH, SessionManager.purge_one_heap.
Qed.

Definition is_create (c : SessionManager.command) : bool :=
  match c with SessionManager.Create _ _ _ _ => true | _ => false end.

Lemma sessions_calm {A} (m : SessionManager.op A) c :
  is_create c = false → (∀ s, after m s = SessionManager.exec s c) → moves calm (on_sessions m).
Proof.
  intros Hc Hm. apply moves_on_sessions. intros g. rewrite Hm. split; [|done..]. simpl.
  destruct (SessionManager.is_create_or_purge c) eqn:Hcp.
  - destruct c; try done. unfold SessionManager.exec, SessionManager.purge_terminal, after. simpl.
    by rewrite purge_heap.
  - pose proof (SessionManager.exec_touches c (sessions g) Hcp) as Ht.
    induction Ht as [|s1 s2 s3 H12 _ IH]; [done|]. etrans; [by apply touch_evolves|done].
Qed.

(** A call that only reads. *)
Definition reads {S A} (m : prog S exn A) : Prop := ∀ s, after m s = s.

Lemma reads_calm {A} (m : SessionManager.op A) : reads m → moves calm (on_sessions m).
Proof. intros Hm. apply moves_on_sessions. intros g. rewrite Hm. by apply same_calm. Qed.

Lemma reads_bind {S A B} (m : prog S exn A) (k : A → prog S exn B) :
  reads m → (∀ a, reads (k a)) → reads (m ≫= k).
Proof.
  intros Hm Hk s. specialize (Hm s). unfold after, mbind, prog_bind in *.
  destruct (m s) as [s' [a|e]]; simpl in *; subst; [apply Hk|done].
Qed.
Lemma get_reads sid : reads (SessionManager.get sid).
Proof. intros s. unfold after, SessionManager.get. by destruct (SessionManager._sessions s !! sid). Qed.
Lemma deref_reads l : reads (SessionManager.deref l).
Proof. intros s. done. Qed.
Lemma require_ready_reads sid : reads (SessionManager.require_ready sid).
Proof.
  apply reads_bind; [apply get_reads|]. intros l. apply reads_bind; [apply deref_reads|].
  intros r. by destruct (bool_decide _).
Qed.
Lemma require_session_reads sid o : reads (_require_session sid o).
Proof.
  unfold _require_session. destruct (member _ _); [apply require_ready_reads|].
  apply reads_bind; [apply require_ready_reads|]. intros l. apply reads_bind; [apply deref_reads|].
  intros r. by destruct (SessionRecord.episode_id r).
Qed.

Ltac calm_sessions :=
  lazymatch goal with
  | |- moves _ (on_sessions (SessionManager.get _)) =>
      apply reads_calm, get_reads
  | |- moves _ (on_sessions (SessionManager.deref _)) =>
      apply reads_calm, deref_reads
  | |- moves _ (on_sessions (SessionManager.commit_binding ?a ?b ?c ?d ?e)) =>
      apply (sessions_calm _ (SessionManager.CommitBinding a b c d e)); done
  | |- moves _ (on_sessions (SessionManager.fail ?a ?b ?c)) =>
      apply (sessions_calm _ (SessionManager.Fail_ a b c)); done
  | |- moves _ (on_sessions (SessionManager.mark_lost ?a ?b ?c)) =>
      apply (sessions_calm _ (SessionManager.MarkLost a b c)); done
  | |- moves _ (on_sessions (SessionManager.begin_close ?a ?b)) =>
      apply (sessions_calm _ (SessionManager.BeginClose a b)); done
  | |- moves _ (on_sessions (SessionManager.finish_close ?a ?b)) =>
      apply (sessions_calm _ (SessionManager.FinishClose a b)); done
  | |- moves _ (on_sessions (SessionManager.renew ?a ?b ?c ?d ?e)) =>
      apply (sessions_calm _ (SessionManager.Renew a b c d e)); done
  | |- moves _ (on_sessions (SessionManager.allocate_operation_seq ?a)) =>
      apply (sessions_calm _ (SessionManager.AllocateOperationSeq a)); done
  | |- moves _ (on_sessions (SessionManager.set_episode ?a ?b ?c)) =>
      apply (sessions_calm _ (SessionManager.SetEpisode a b c)); done
  | |- moves _ (on_sessions (SessionManager.set_worker_summary ?a ?b)) =>
      apply (sessions_calm _ (SessionManager.SetWorkerSummary a b)); done
  | |- moves _ (on_sessions (SessionManager.begin_operation ?a ?b)) =>
      apply (sessions_calm _ (SessionManager.BeginOperation a b)); done
  | |- moves _ (on_sessions (SessionManager.end_operation ?a ?b)) =>
      apply (sessions_calm _ (SessionManager.EndOperation a b)); done
  | |- moves _ (on_sessions (SessionManager.set_reap_pending ?a)) =>
      apply (sessions_calm _ (SessionManager.SetReapPending a)); done
  | |- moves _ (on_sessions (SessionManager.purge_terminal ?a)) =>
      apply (sessions_calm _ (SessionManager.PurgeTerminal a)); done
  | |- moves _ (on_sessions (_require_session _ _)) => apply reads_calm, require_session_reads
  end.

Ltac calm_call :=
  first
    [ calm_sessions
    | apply moves_on_operations; intros; by apply same_calm
    | apply moves_on_admission; intros; by apply same_calm
    | apply moves_on_workers; intros; by apply same_calm
    | apply moves_modify; intros; apply same_calm; by repeat case_match
    | apply moves_emit; intros; by apply same_calm ].

Ltac solve_calm := cut_moves; calm_call.

Section order.
Context {interp : Interpreter}.

(** The segments that neither create a session nor take or leave a lock nor send. *)
Lemma binding_calm now1 now2 request l rank attempted last reply :
  moves calm (binding_reply now1 now2 request l rank attempted last reply).
Proof. unfold binding_reply. solve_calm. Qed.
Lemma close_calm now1 now2 sid k : moves calm (close_session now1 now2 sid k).
Proof. solve_calm. Qed.
Lemma close_finish_calm now l sid :
  moves calm (x ← close_finish now l sid; mret (inr x : task + response)).
Proof. solve_calm. Qed.
Lemma reap_calm now1 now2 l rest : moves calm (reap now1 now2 l rest).
Proof. unfold reap. solve_calm. Qed.
Lemma renew_calm now1 now2 sid lease : moves calm (renew_session now1 now2 sid lease).
Proof. unfold renew_session. solve_calm. Qed.
Lemma cancel_calm now rid :
  moves calm (o ← cancel_request now rid; mret (inr (Cancelled o) : task + response)).
Proof. unfold cancel_request. solve_calm. Qed.
Lemma finish_calm now l rid result : moves calm (_finish now l rid result).
Proof. solve_calm. Qed.
Lemma late_calm now result : moves calm (_absorb_late_result now result).
Proof. unfold _absorb_late_result. solve_calm. Qed.
Lemma stale_calm now1 now2 : moves calm (reap_stale_workers now1 now2).
Proof. unfold reap_stale_workers. solve_calm. Qed.
Lemma execute_calm now c : moves calm (_execute now c).
Proof. solve_calm. Qed.

(** ** What _execute leaves waiting *)

Notation next_seq := SessionRecord.next_operation_seq.

Lemma deref_ok l g r : result_of (deref l) g = Ok r → records g !! l = Some r ∧ after (deref l) g = g.
Proof.
  unfold deref, on_sessions, result_of, after, SessionManager.deref. simpl.
  destruct (records g !! l); [|done]. intros [= ->]. by destruct g.
Qed.

(** A call on the sessions keeps identifiers and does not lower counters. *)
Lemma calm_record g g' l r :
  calm g g' → records g !! l = Some r →
  ∃ r', records g' !! l = Some r' ∧ SessionRecord.session_id r' = SessionRecord.session_id r ∧
    next_seq r ≤ next_seq r'.
Proof.
  intros [Hr _ _] Hl. destruct (Forall2_lookup_l _ _ _ _ _ Hr Hl) as (r' & ? & Hid & _ & _ & Hn & _).
  by exists r'.
Qed.

Lemma allocate_spec l g n :
  result_of (on_sessions (SessionManager.allocate_operation_seq l)) g = Ok n →
  ∃ r r', records g !! l = Some r ∧ n = next_seq r ∧
    records (after (on_sessions (SessionManager.allocate_operation_seq l)) g) !! l = Some r' ∧
    SessionRecord.session_id r' = SessionRecord.session_id r ∧ n < next_seq r'.
Proof.
  unfold on_sessions, result_of, after, SessionManager.allocate_operation_seq, SessionManager.deref,
    SessionManager.assign, mbind, prog_bind. simpl.
  destruct (records g !! l) as [r|] eqn:Hr; [|done]. simpl. intros [= <-].
  exists r, (SessionRecord.set_next_operation_seq (next_seq r + 1) r).
  split; [done|]. split; [done|]. split; [by rewrite list_lookup_alter_eq, Hr|]. split; [done|]. simpl. lia.
Qed.

(** The number of a mutating command is the counter of its session, which moves past it. *)
Definition numbered (c : call) (g g' : t) (e : CommandEnvelope) : Prop :=
  match ce_operation_seq e with
  | Some n => mutating c = true ∧ ∃ r r', records g !! c_record c = Some r ∧
      records g' !! c_record c = Some r' ∧ SessionRecord.session_id r = ce_session_id e ∧
      SessionRecord.session_id r' = ce_session_id e ∧ next_seq r ≤ n ∧ n < next_seq r'
  | None => True
  end.

Lemma execute_numbered now c g :
  wp (_execute now c) g (λ g' o, ∀ tk, o = Ok (inl tk) →
    ∃ rank e, tk = WaitingPermit c rank e ∧ numbered c g g' e).
Proof.
  unfold _execute. apply wp_get.
  destruct (_cancelled_before_dispatch (c_request c) g); [done|]. apply wp_bind.
  set (alloc := if mutating c then _ else _).
  assert (Halloc : ∀ seq, result_of alloc g = Ok seq → match seq with
    | Some n => mutating c = true ∧ ∃ r r', records g !! c_record c = Some r ∧
        records (after alloc g) !! c_record c = Some r' ∧
        SessionRecord.session_id r' = SessionRecord.session_id r ∧ next_seq r ≤ n ∧ n < next_seq r'
    | None => True end).
  { unfold alloc. destruct (mutating c); [|by intros seq [= <-]]. intros seq.
    set (b := on_sessions (SessionManager.begin_operation _ _)).
    assert (Hb : moves calm b) by (unfold b; solve_calm). specialize (Hb g).
    unfold result_of, after, mbind, prog_bind in *. destruct (b g) as [g1 [u|]]; [|done].
    simpl in Hb. pose proof (allocate_spec (c_record c) g1) as Ha. unfold result_of, after in Ha.
    destruct (on_sessions (SessionManager.allocate_operation_seq (c_record c)) g1) as [g2 [n|]];
      [|done]. intros [= <-]. split; [done|].
    destruct (Ha n eq_refl) as (r1 & r2 & Hr1 & -> & Hr2 & Hid & Hlt).
    destruct (Forall2_lookup_r _ _ _ _ _ (calm_records _ _ Hb) Hr1) as (r & Hr & Hid1 & _ & _ & Hle & _).
    exists r, r2. split; [done|]. split; [done|]. split; [congruence|]. split; [exact Hle|exact Hlt]. }
  unfold wp at 1. destruct (result_of alloc g) as [seq|]; [|done]. specialize (Halloc seq eq_refl).
  set (g1 := after alloc g) in *. apply wp_bind. unfold wp at 1.
  destruct (result_of (deref (c_record c)) g1) as [r|] eqn:Hd; [|done].
  destruct (deref_ok _ _ _ Hd) as [Hr ->].
  destruct (SessionRecord.worker_rank r) as [rank|]; [|done].
  match goal with |- context [WaitingPermit c rank ?x] => set (e := x) end.
  match goal with |- wp ?m g1 _ =>
    assert (Hc : moves calm m) by solve_calm;
    assert (Hy : yields (λ x : task + Result value, x = inl (WaitingPermit c rank e)) m) by cut_yields;
    revert Hc Hy; generalize m
  end.
  intros m Hc Hy. unfold wp. intros tk Htk. apply Hy in Htk as [= ->]. exists rank, e.
  split; [done|]. unfold numbered. subst e. simpl. destruct seq as [n|]; [|done].
  destruct Halloc as (Hmut & r0 & r1 & Hr0 & Hr1 & Hid & Hle & Hlt). split; [done|].
  destruct (calm_record _ _ _ _ (Hc g1) Hr) as (r2 & Hr2 & Hid2 & Hle2).
  simplify_eq. exists r0, r2. split; [done|]. split; [done|]. split; [congruence|].
  split; [congruence|]. split; [done|]. lia.
Qed.

(** ** The invariant *)

(** The call of a command on its way: [dispatcher.send] has been called and not returned. *)
Definition outstanding (tk : task) : option call :=
  match tk with WaitingPermit c _ _ | InFlight c _ _ => Some c | _ => None end.

(** The record whose lock a task holds. *)
Definition holder (tk : task) : option nat :=
  c ← outstanding tk; if c_take_lock c then Some (c_record c) else None.

Definition same_session (e1 e2 : CommandEnvelope) : Prop := ce_session_id e1 = ce_session_id e2.

(** [e1] was handed over after [e2]. *)
Definition numbered_after (e1 e2 : CommandEnvelope) : Prop :=
  same_session e1 e2 → ∀ n1 n2, ce_operation_seq e1 = Some n1 → ce_operation_seq e2 = Some n2 → n2 < n1.

(** The counter of the session is past a number. *)
Definition passed (g : t) (e : CommandEnvelope) : Prop :=
  ∀ n, ce_operation_seq e = Some n → ∃ l r, records g !! l = Some r ∧
    SessionRecord.session_id r = ce_session_id e ∧ n < next_seq r.

(** A command that waits for its permit: its lock is held and no later number was sent. *)
Definition waiting_ok (g : t) (c : call) (e : CommandEnvelope) : Prop :=
  ∀ n, ce_operation_seq e = Some n → mutating c = true ∧
    (∃ r, records g !! c_record c = Some r ∧ SessionRecord.session_id r = ce_session_id e ∧
      n < next_seq r) ∧
    Forall (numbered_after e) (commands g).

(** Who waits for a lock is about to take it; a mutating command holds it. *)
Definition task_ok (tk : task) : Prop :=
  match tk with
  | WaitingLock c => c_take_lock c = true
  | WaitingPermit c _ _ | InFlight c _ _ => mutating c = true → c_take_lock c = true
  | _ => True
  end.

Definition session_ids (g : t) : list SessionId := SessionRecord.session_id <$> records g.

Record ordered (s : system) : Prop := {
  ord_ids : NoDup (session_ids (gw s));
  ord_holders : NoDup (omap holder (tasks s));
  ord_locked l : l ∈ locked (gw s) ↔ l ∈ omap holder (tasks s);
  ord_calls : Forall task_ok (tasks s);
  ord_sent : Forall (passed (gw s)) (commands (gw s));
  ord_waiting c rank e : WaitingPermit c rank e ∈ tasks s → waiting_ok (gw s) c e;
  ord_trace : StronglySorted numbered_after (commands (gw s));
}.

Lemma ids_inj g l1 l2 r1 r2 :
  NoDup (session_ids g) → records g !! l1 = Some r1 → records g !! l2 = Some r2 →
  SessionRecord.session_id r1 = SessionRecord.session_id r2 → l1 = l2.
Proof.
  intros Hnd H1 H2 He. eapply (NoDup_lookup _ _ _ (SessionRecord.session_id r1) Hnd);
    unfold session_ids; rewrite list_lookup_fmap; [by rewrite H1|rewrite H2, He; done].
Qed.

Lemma evolves_ids g g' :
  Forall2 SessionManager.evolves (records g) (records g') → session_ids g' = session_ids g.
Proof.
  unfold session_ids. induction 1 as [|r r' l l' (Hid & _) _ IH]; [done|]. csimpl. by rewrite Hid, IH.
Qed.

(** Every record there was is still there, evolved; the others have new identifiers. *)
Definition forward (g g' : t) : Prop :=
  ∀ l r, records g !! l = Some r → ∃ r', records g' !! l = Some r' ∧
    SessionRecord.session_id r' = SessionRecord.session_id r ∧ next_seq r ≤ next_seq r'.

Lemma calm_forward g g' : calm g g' → forward g g'.
Proof. intros Hc l r. by apply calm_record. Qed.

Lemma passed_forward g g' e : forward g g' → passed g e → passed g' e.
Proof.
  intros Hf Hp n Hn. destruct (Hp n Hn) as (l & r & Hr & Hid & Hlt).
  destruct (Hf l r Hr) as (r' & Hr' & Hid' & Hle). exists l, r'. split; [done|].
  split; [congruence|lia].
Qed.

Lemma waiting_forward g g' c e :
  forward g g' → commands g' = commands g → waiting_ok g c e → waiting_ok g' c e.
Proof.
  intros Hf Hc Hw n Hn. destruct (Hw n Hn) as (Hm & (r & Hr & Hid & Hlt) & Hall).
  split; [done|]. rewrite Hc. split; [|done]. destruct (Hf _ _ Hr) as (r' & Hr' & Hid' & Hle).
  exists r'. split; [done|]. split; [congruence|lia].
Qed.

(** What a segment that sends nothing must show. *)
Lemma ordered_forward s s' :
  ordered s → forward (gw s) (gw s') → commands (gw s') = commands (gw s) →
  NoDup (session_ids (gw s')) → NoDup (omap holder (tasks s')) →
  (∀ l, l ∈ locked (gw s') ↔ l ∈ omap holder (tasks s')) → Forall task_ok (tasks s') →
  (∀ c rank e, WaitingPermit c rank e ∈ tasks s' →
    WaitingPermit c rank e ∈ tasks s ∨ waiting_ok (gw s') c e) →
  ordered s'.
Proof.
  intros Hs Hf Hc Hids Hh Hl Hcalls Hw. constructor; try done.
  - rewrite Hc. eapply Forall_impl; [apply (ord_sent _ Hs)|]. intros e. by apply passed_forward.
  - intros c rank e [Hin|Hok]%Hw; [|done]. eapply waiting_forward; [done..|]. by eapply ord_waiting.
  - rewrite Hc. apply (ord_trace _ Hs).
Qed.

(** A segment that keeps locks and holders, and whose new tasks wait in order. *)
Lemma ordered_calm s s' :
  ordered s → calm (gw s) (gw s') → omap holder (tasks s') ≡ₚ omap holder (tasks s) →
  (∀ tk, tk ∈ tasks s' → tk ∈ tasks s ∨ task_ok tk ∧
     ∀ c rank e, tk = WaitingPermit c rank e → waiting_ok (gw s') c e) →
  ordered s'.
Proof.
  intros Hs Hc Hh Hin. apply (ordered_forward s); try done.
  - by apply calm_forward.
  - by apply calm_commands.
  - rewrite (evolves_ids _ _ (calm_records _ _ Hc)). apply (ord_ids _ Hs).
  - rewrite Hh. apply (ord_holders _ Hs).
  - intros l. rewrite Hh, (calm_locked _ _ Hc). apply (ord_locked _ Hs).
  - apply Forall_forall. intros tk Htk. destruct (Hin _ Htk) as [Htk'|[? _]]; [|done].
    by apply (proj1 (Forall_forall _ _) (ord_calls _ Hs)).
  - intros c rank e Htk. destruct (Hin _ Htk) as [?|[_ ?]]; [by left|right; eauto].
Qed.

(** A numbered command is in order. *)
Lemma numbered_waiting g g' c e :
  NoDup (session_ids g) → Forall (passed g) (commands g) → commands g' = commands g →
  numbered c g g' e → waiting_ok g' c e.
Proof.
  intros Hids Hsent Hc Hn n Hseq. unfold numbered in Hn. rewrite Hseq in Hn.
  destruct Hn as (Hm & r & r' & Hr & Hr' & Hid & Hid' & Hle & Hlt). split; [done|].
  split; [by exists r'|]. rewrite Hc. eapply Forall_impl; [exact Hsent|].
  intros e' Hp Hsame n1 n2 H1 H2. rewrite Hseq in H1. injection H1 as <-.
  destruct (Hp n2 H2) as (l0 & r0 & Hr0 & Hid0 & Hlt0). unfold same_session in Hsame.
  assert (l0 = c_record c) as -> by (eapply (ids_inj g); [done..|congruence]). simplify_eq. lia.
Qed.

(** ** Events *)

Lemma call_none tk : task_call tk = None → holder tk = None ∧ task_ok tk ∧
  ∀ c rank e, tk ≠ WaitingPermit c rank e.
Proof. by destruct tk. Qed.

Lemma spawn_ordered m s :
  ordered s → moves calm m → yields controls m → ordered (spawn m s).
Proof.
  intros Hs Hm Hy. specialize (Hm (gw s)). specialize (Hy (gw s)). unfold spawn, after, result_of in *.
  destruct (m (gw s)) as [g [[tk|x]|e]]; simpl in *; apply (ordered_calm _ _ Hs); auto; simpl.
  - destruct (call_none tk (Hy _ eq_refl)) as (Hh & _). rewrite omap_app. csimpl. by rewrite Hh, app_nil_r.
  - destruct (call_none tk (Hy _ eq_refl)) as (_ & Hok & Hw).
    intros tk' [?| ->%list_elem_of_singleton]%elem_of_app; [by left|right].
    split; [done|]. intros c rank e ->. by destruct (Hw c rank e).
Qed.

Lemma resume_ordered i tk0 k m s :
  ordered s → tasks s !! i = Some tk0 → task_call tk0 = None → moves calm m → yields controls m →
  ordered (resume i k m s).
Proof.
  intros Hs Hi Hc0 Hm Hy. specialize (Hm (gw s)). specialize (Hy (gw s)).
  pose proof (delete_Permutation _ _ _ Hi) as Hdel.
  assert (Hdrop : omap holder (delete i (tasks s)) ≡ₚ omap holder (tasks s)).
  { rewrite Hdel at 2. csimpl. by destruct (call_none _ Hc0) as (-> & _). }
  assert (Hput : ∀ tk g o f, calm (gw s) g → task_call tk = None →
    ordered (System g (<[i := tk]> (tasks s)) o f)).
  { intros tk g o f Hg Htk. destruct (call_none _ Htk) as (Hh & Hok & Hw).
    apply (ordered_calm _ _ Hs); simpl; [done|..].
    - rewrite (replaced_perm _ _ _ _ Hi). csimpl. by rewrite Hh.
    - intros tk' [->|Hin]%(elem_of_replaced _ _ _ _ _ Hi); [right|by left].
      split; [done|]. intros c rank e ->. by destruct (Hw c rank e). }
  assert (Hended : ∀ g o f, calm (gw s) g → ordered (System g (match k with
    | Some rest => <[i := Reaping rest]> (tasks s) | None => delete i (tasks s) end) o f)).
  { intros g o f Hg. destruct k; [by apply Hput|]. apply (ordered_calm _ _ Hs); simpl; [done|done|].
    intros tk Hin. left. by eapply elem_of_deleted. }
  unfold resume, after, result_of in *.
  destruct (m (gw s)) as [g [[tk|x]|e]]; simpl in *; [|by apply Hended..]. apply Hput; [done|].
  exact (Hy (inl tk) eq_refl).
Qed.

Lemma silently_ordered {A} (m : op A) s : ordered s → moves calm m → ordered (silently m s).
Proof. intros Hs Hm. apply (ordered_calm _ _ Hs); simpl; auto. Qed.

Lemma dropped_ordered i tk0 s :
  ordered s → tasks s !! i = Some tk0 → task_call tk0 = None →
  ordered (System (gw s) (delete i (tasks s)) (outbox s) (forgotten s)).
Proof.
  intros Hs Hi Hc. pose proof (delete_Permutation _ _ _ Hi) as Hdel.
  apply (ordered_calm _ _ Hs); simpl; [reflexivity|..].
  - rewrite Hdel at 2. csimpl. by destruct (call_none _ Hc) as (-> & _).
  - intros tk Hin. left. by eapply elem_of_deleted.
Qed.

(** Creation appends one record under the new identifier. *)
Definition appended (sid : SessionId) (g g' : t) : Prop :=
  forward g g' ∧ locked g' = locked g ∧ commands g' = commands g ∧
  (session_ids g' = session_ids g ∨ session_ids g' = session_ids g ++ [sid]).

Lemma calm_appended sid g g' : calm g g' → appended sid g g'.
Proof.
  intros Hc. split; [by apply calm_forward|]. destruct Hc as [Hr Hl Hcmd].
  split; [done|]. split; [done|]. left. by apply evolves_ids.
Qed.

Lemma appended_calm sid g g1 g2 : appended sid g g1 → calm g1 g2 → appended sid g g2.
Proof.
  intros (Hf & Hl & Hc & Hi) Hcalm. pose proof (calm_forward _ _ Hcalm) as Hf2.
  destruct Hcalm as [Hr Hl2 Hc2]. split; [|split; [congruence|split; [congruence|]]].
  - intros l r Hlr. destruct (Hf l r Hlr) as (r1 & H1 & Hid1 & Hn1).
    destruct (Hf2 l r1 H1) as (r2 & H2 & Hid2 & Hn2). exists r2. split; [done|]. split; [congruence|lia].
  - by rewrite (evolves_ids _ _ Hr).
Qed.

Lemma create_call_appended now sid request g :
  appended sid g (after (on_sessions (SessionManager.create now sid request None)) g).
Proof.
  unfold on_sessions, after. simpl. rewrite SessionManager.create_cases.
  destruct (lease_seconds request <=? 0); [by apply calm_appended, same_calm|].
  destruct (SessionManager.idempotent_hit _ _); [by apply calm_appended, same_calm|].
  destruct (Messages.env_spec_digest _) as [d|e]; simpl.
  - split; [|split; [done|split; [done|right]]].
    + intros l r Hr. exists r. split; [by apply lookup_app_l_Some|]. split; [done|lia].
    + unfold session_ids. simpl. by rewrite fmap_app.
  - apply calm_appended. by split.
Qed.

Lemma create_appended now1 now2 sid request g :
  wp (create_session now1 now2 sid request) g (λ g' _, appended sid g g').
Proof.
  unfold create_session. apply wp_attempt. set (g1 := after _ g).
  assert (H1 : calm g g1) by (unfold g1; apply (moves_on_admission calm); intros; by apply same_calm).
  destruct (result_of _ g); [|by apply calm_appended]. apply wp_attempt. set (g2 := after _ g1).
  assert (H2 : appended sid g g2).
  { pose proof (create_call_appended now1 sid request g1) as (Hf & Hl & Hc & Hi).
    rewrite (evolves_ids _ _ (calm_records _ _ H1)) in Hi. split; [|split; [done|split; [done|done]]].
    intros l r Hr. by apply Hf. }
  assert (H3 : ∀ m : op (task + response), moves calm m → wp m g2 (λ g' _, appended sid g g')).
  { intros m Hm. eapply (wp_moves calm); [exact Hm|]. intros g' _ Hg'. by eapply appended_calm. }
  destruct (result_of _ g1) as [[l []]|]; apply H3; solve_calm.
Qed.

Lemma create_ordered now1 now2 sid request s :
  ordered s → sid ∉ session_ids (gw s) → ordered (spawn (create_session now1 now2 sid request) s).
Proof.
  intros Hs Hfresh. pose proof (create_appended now1 now2 sid request (gw s)) as Ha.
  pose proof (create_controls now1 now2 sid request (gw s)) as Hy. unfold wp in Ha.
  assert (Hf : ∀ ts o f g', appended sid (gw s) g' → omap holder ts = omap holder (tasks s) →
    (∀ tk, tk ∈ ts → tk ∈ tasks s ∨ task_call tk = None) → ordered (System g' ts o f)).
  { intros ts o f g' (Hfw & Hl & Hc & Hi) Hh Hin. apply (ordered_forward s); simpl; rewrite ?Hh; try done.
    - destruct Hi as [-> | ->]; [apply (ord_ids _ Hs)|]. apply NoDup_app.
      split; [apply (ord_ids _ Hs)|]. split; [|apply NoDup_singleton].
      by intros x Hx ->%list_elem_of_singleton.
    - apply (ord_holders _ Hs).
    - intros l. rewrite Hl. apply (ord_locked _ Hs).
    - apply Forall_forall. intros tk Htk. destruct (Hin _ Htk) as [Htk'|Hn]; [|by apply call_none].
      by apply (proj1 (Forall_forall _ _) (ord_calls _ Hs)).
    - intros c rank e Htk. left. by destruct (Hin _ Htk). }
  unfold spawn, after, result_of in *.
  destruct (create_session _ _ _ _ (gw s)) as [g' [[tk|x]|e]]; simpl in *; [|by apply Hf; auto..].
  specialize (Hy (inl tk) eq_refl). simpl in Hy. apply Hf; [done|..].
  - rewrite omap_app. csimpl. by destruct (call_none _ Hy) as (-> & _); rewrite app_nil_r.
  - intros tk' [?| ->%list_elem_of_singleton]%elem_of_app; auto.
Qed.

(** A new call waits for its lock, or holds none and has no number. *)
Lemma begun_waits now2 now3 rid sid c g :
  c_take_lock c = takes_lock (c_operation c) (negb (c_take_lock c)) →
  ∀ tk, result_of (
    begun ← on_operations (OperationRegistry.begin now2 rid sid (c_operation c) (c_payload c) None);
    if negb begun.2 then mret (inr (repeated rid begun.1))
    else if c_take_lock c then mret (inl (WaitingLock c)) else _execute now3 c) g = Ok (inl tk) →
  holder tk = None ∧ task_ok tk ∧ ∀ g' c' rank e, tk = WaitingPermit c' rank e → waiting_ok g' c' e.
Proof.
  intros Hlock tk. unfold result_of at 1, mbind at 1, prog_bind at 1.
  destruct (on_operations _ g) as [g1 [[r b]|]]; [|done]. destruct b; [|done]. simpl.
  destruct (c_take_lock c) eqn:Ht; [by intros [= <-]|]. intros Hx.
  destruct (execute_numbered now3 c g1 tk Hx) as (rank & e & -> & Hn).
  assert (Hm : mutating c = false).
  { unfold takes_lock in Hlock. unfold mutating. by destruct (c_operation c). }
  split; [unfold holder; csimpl; by rewrite Ht|]. split; [simpl; by rewrite Hm|].
  intros g' c' rank' e' [= <- <- <-] n Hseq. unfold numbered in Hn. rewrite Hseq in Hn.
  destruct Hn as [Hm' _]. congruence.
Qed.

Lemma dispatch_calm now1 now2 now3 sid o payload rid deadline eventual :
  moves calm (_dispatch_one now1 now2 now3 sid o payload rid deadline eventual).
Proof. unfold _dispatch_one. solve_calm. Qed.

Lemma dispatch_waits now1 now2 now3 sid o payload rid deadline eventual g :
  wp (_dispatch_one now1 now2 now3 sid o payload rid deadline eventual) g (λ _ res,
    ∀ tk, res = Ok (inl tk) → holder tk = None ∧ task_ok tk ∧
      ∀ g' c rank e, tk = WaitingPermit c rank e → waiting_ok g' c e).
Proof.
  unfold _dispatch_one. apply wp_attempt. destruct (result_of _ g) as [l|]; [|done].
  apply wp_bind. unfold wp at 1. destruct (result_of (deref l) _) as [r|]; [|done]. apply wp_attempt.
  match goal with |- wp (match ?x with _ => _ end) _ _ => destruct x as [_|]; [|done] end.
  set (c := Call _ _ _ _ _ _ _ _). match goal with |- wp _ ?h _ => generalize h; intros g1 end.
  unfold conclude. apply wp_attempt.
  pose proof (begun_waits now2 now3 rid (Some sid) c g1) as Hb.
  destruct (result_of _ g1) as [[tk|x]|e]; [|done..]. intros tk' [= <-]. apply Hb; [|done].
  unfold c, takes_lock. simpl. by destruct o, eventual.
Qed.

(** The end of a call. *)
Lemma conclude_order c holds m g :
  moves calm m → wp (conclude c holds m) g (λ g' o,
    match o with
    | Ok (inl tk) => result_of m g = Ok (inl tk) ∧ g' = after m g
    | _ => Forall2 SessionManager.evolves (records g) (records g') ∧ commands g' = commands g ∧
        locked g' = if holds then locked g ∖ {[ c_record c ]} else locked g
    end).
Proof.
  intros Hm. specialize (Hm g). unfold conclude. apply wp_attempt.
  assert (Hleave : ∀ x, wp (leave c holds x) (after m g) (λ g' o, o = Ok (inr (Answer (c_request c) x)) ∧
    records g' = records (after m g) ∧ commands g' = commands (after m g) ∧
    locked g' = if holds then locked (after m g) ∖ {[ c_record c ]} else locked (after m g))).
  { intros x. unfold leave. by destruct holds. }
  destruct Hm as [Hr Hl Hc]. rewrite Hl in Hleave.
  destruct (result_of m g) as [[tk|x]|e]; [done| |];
    (eapply wp_mono; [|apply Hleave]); intros g' o' (-> & -> & -> & ->); done.
Qed.

Lemma dispatch_ordered now1 now2 now3 sid o payload rid deadline eventual s :
  ordered s → ordered (spawn (_dispatch_one now1 now2 now3 sid o payload rid deadline eventual) s).
Proof.
  intros Hs. pose proof (dispatch_calm now1 now2 now3 sid o payload rid deadline eventual (gw s)) as Hc.
  pose proof (dispatch_waits now1 now2 now3 sid o payload rid deadline eventual (gw s)) as Hw.
  unfold spawn, wp, after, result_of in *.
  destruct (_dispatch_one _ _ _ _ _ _ _ _ _ (gw s)) as [g [[tk|x]|e]]; simpl in *;
    apply (ordered_calm _ _ Hs); auto; simpl; destruct (Hw tk eq_refl) as (Hh & Hok & Hwait).
  - rewrite omap_app. csimpl. by rewrite Hh, app_nil_r.
  - intros tk' [?| ->%list_elem_of_singleton]%elem_of_app; [by left|right]. split; [done|].
    intros c rank e. apply Hwait.
Qed.

Lemma task_ok_in s tk : ordered s → tk ∈ tasks s → task_ok tk.
Proof. intros Hs. apply (proj1 (Forall_forall _ _) (ord_calls _ Hs)). Qed.

(** A call ends: its task goes, and the lock it holds with it. *)
Lemma ended_ordered i tk0 s g o f :
  ordered s → tasks s !! i = Some tk0 →
  Forall2 SessionManager.evolves (records (gw s)) (records g) → commands g = commands (gw s) →
  locked g = match holder tk0 with Some l => locked (gw s) ∖ {[ l ]} | None => locked (gw s) end →
  ordered (System g (delete i (tasks s)) o f).
Proof.
  intros Hs Hi Hr Hc Hl. pose proof (delete_Permutation _ _ _ Hi) as Hdel.
  pose proof (ord_holders _ Hs) as Hnd. rewrite Hdel in Hnd. csimpl in Hnd.
  assert (Hfw : forward (gw s) g).
  { intros l r Hlr. destruct (Forall2_lookup_l _ _ _ _ _ Hr Hlr) as (r' & ? & ? & _ & _ & ? & _). by exists r'. }
  apply (ordered_forward s); simpl; try done.
  - rewrite (evolves_ids _ _ Hr). apply (ord_ids _ Hs).
  - destruct (holder tk0); [by apply NoDup_cons in Hnd as [_ ?]|done].
  - intros l. rewrite Hl. pose proof (ord_locked _ Hs l) as Hlk. rewrite Hdel in Hlk. csimpl in Hlk.
    destruct (holder tk0) as [l0|]; [|done]. apply NoDup_cons in Hnd as [Hni _]. set_solver.
  - apply Forall_forall. intros tk Htk. eapply task_ok_in; [done|]. by eapply elem_of_deleted.
  - intros c rank e Htk. left. by eapply elem_of_deleted.
Qed.

(** A segment that ends its call and leaves the lock, if it holds one. *)
Definition ends (lock : option nat) (m : op (task + response)) : Prop :=
  ∀ g, wp m g (λ g' o, (∀ tk, o ≠ Ok (inl tk)) ∧
    Forall2 SessionManager.evolves (records g) (records g') ∧ commands g' = commands g ∧
    locked g' = match lock with Some l => locked g ∖ {[ l ]} | None => locked g end).

Lemma resume_ended i tk0 m s :
  ordered s → tasks s !! i = Some tk0 → ends (holder tk0) m → ordered (resume i None m s).
Proof.
  intros Hs Hi Hm. specialize (Hm (gw s)). unfold resume, wp, after, result_of in *.
  destruct (m (gw s)) as [g [[tk|x]|e]]; destruct Hm as (Hn & Hr & Hc & Hl); simpl in *;
    [by destruct (Hn tk)|by eapply ended_ordered..].
Qed.

Lemma conclude_ends c (holds : bool) (m : op (task + Result value)) :
  moves calm m → (∀ g tk, result_of m g ≠ Ok (inl tk)) →
  ends (if holds then Some (c_record c) else None) (conclude c holds m).
Proof.
  intros Hm Hn g. eapply wp_mono; [|by apply conclude_order].
  intros g' [[tk|x]|e] H; [|by destruct holds..]. destruct H as [H _]. by destruct (Hn g tk).
Qed.

Lemma sent_result_ends now c result :
  ends (if c_take_lock c then Some (c_record c) else None) (sent_result now c result).
Proof.
  apply conclude_ends; [solve_calm|].
  assert (Hy : yields (λ x, match x with inl _ => False | inr _ => True end)
    ((if mutating c then on_sessions (SessionManager.end_operation (c_record c) (c_request c))
      else mret tt) ≫= λ _, x ← _finish now (c_record c) (c_request c) result;
      mret (inr x : task + Result value))) by cut_yields.
  intros g tk Hr. by apply Hy in Hr.
Qed.

Lemma reply_ends now c rank result :
  ends (if c_take_lock c then Some (c_record c) else None) (command_reply now c rank result).
Proof.
  intros g. apply wp_get. apply wp_bind. unfold wp at 1. set (g1 := after _ g).
  assert (Hg1 : records g1 = records g ∧ commands g1 = commands g ∧ locked g1 = locked g).
  { unfold g1, set_permits, after, modify. simpl. by destruct (_dispatcher g). }
  destruct Hg1 as (Hr & Hc & Hl). pose proof (sent_result_ends now c result g1) as H.
  by rewrite Hr, Hc, Hl in H.
Qed.

Lemma outstanding_holder tk c :
  outstanding tk = Some c → holder tk = if c_take_lock c then Some (c_record c) else None.
Proof. unfold holder. by intros ->. Qed.

(** The lock is granted: a command is numbered under it, or the call ends. *)
Lemma lock_ordered i c now s :
  ordered s → tasks s !! i = Some (WaitingLock c) → c_record c ∉ locked (gw s) →
  ordered (resume i None (lock_granted now c) s).
Proof.
  intros Hs Hi Hfree. unfold lock_granted.
  set (l := c_record c) in *. set (g1 := set_locked (locked (gw s) ∪ {[ l ]}) (gw s)).
  assert (Htl : c_take_lock c = true) by (eapply (task_ok_in _ (WaitingLock c)); [done|]; by eapply list_elem_of_lookup_2).
  assert (Hm : moves calm (_execute now c)) by solve_calm.
  pose proof (conclude_order c true _ g1 Hm) as Hco. pose proof (execute_numbered now c g1) as Hn.
  unfold resume, wp, after, result_of, modify, mbind, prog_bind in *. fold g1.
  destruct (conclude c true (_execute now c) g1) as [g' [[tk|x]|e]]; simpl in *.
  - destruct Hco as [Htk Hg']. destruct (Hn tk Htk) as (rank & e & -> & Hnum). rewrite <- Hg' in Hnum.
    assert (Hc : calm g1 g') by (subst g'; apply Hm).
    assert (Hids : session_ids g' = session_ids (gw s)) by apply (evolves_ids _ _ (calm_records _ _ Hc)).
    assert (Hperm : omap holder (<[i:=WaitingPermit c rank e]> (tasks s)) ≡ₚ l :: omap holder (tasks s)).
    { assert (omap holder (tasks s) ≡ₚ omap holder (delete i (tasks s))) as ->.
      { by rewrite (delete_Permutation _ _ _ Hi) at 1. }
      rewrite (replaced_perm _ _ _ _ Hi). csimpl. unfold holder at 1. csimpl. by rewrite Htl. }
    assert (Hnew : waiting_ok g' c e).
    { eapply (numbered_waiting g1); [apply (ord_ids _ Hs)|apply (ord_sent _ Hs)|apply (calm_commands _ _ Hc)|done]. }
    apply (ordered_forward s); simpl; try done.
    + intros l0 r0 Hr0. by apply (calm_forward _ _ Hc).
    + by rewrite (calm_commands _ _ Hc).
    + rewrite Hids. apply (ord_ids _ Hs).
    + rewrite Hperm. apply NoDup_cons. split; [|apply (ord_holders _ Hs)]. by rewrite <- (ord_locked _ Hs).
    + intros l0. rewrite Hperm, (calm_locked _ _ Hc), elem_of_cons, <- (ord_locked _ Hs). simpl. set_solver.
    + apply Forall_forall. intros tk [->|Hin]%(elem_of_replaced _ _ _ _ _ Hi); [by intros _|by eapply task_ok_in].
    + intros c' rank' e' [[= -> -> ->]|Hin]%(elem_of_replaced _ _ _ _ _ Hi); [by right|by left].
  - destruct Hco as (Hr & Hc & Hl). eapply ended_ordered; [done|done|done|done|]. rewrite Hl. simpl. set_solver.
  - destruct Hco as (Hr & Hc & Hl). eapply ended_ordered; [done|done|done|done|]. rewrite Hl. simpl. set_solver.
Qed.

(** A permit: the command is handed over, after every lower number of its session. *)
Lemma send_ordered i c rank e s :
  ordered s → tasks s !! i = Some (WaitingPermit c rank e) →
  ordered (resume i None (send_command c rank e) s).
Proof.
  intros Hs Hi. set (s' := resume _ _ _ _).
  assert (Hgw : records (gw s') = records (gw s) ∧ locked (gw s') = locked (gw s) ∧
    commands (gw s') = e :: commands (gw s) ∧ tasks s' = <[i := InFlight c rank e]> (tasks s)).
  { unfold s', resume, send_command, set_permits. simpl. by destruct (_dispatcher (gw s)). }
  destruct Hgw as (Hr & Hl & Hc & Ht).
  pose proof (delete_Permutation _ _ _ Hi) as Hdel.
  assert (Hh : omap holder (tasks s') ≡ₚ omap holder (tasks s)).
  { rewrite Ht, (replaced_perm _ _ _ _ Hi). rewrite Hdel at 2. done. }
  assert (Hin : WaitingPermit c rank e ∈ tasks s) by (by eapply list_elem_of_lookup_2).
  pose proof (ord_waiting _ Hs _ _ _ Hin) as Hw.
  assert (Hids : session_ids (gw s') = session_ids (gw s)) by (unfold session_ids; by rewrite Hr).
  constructor; rewrite ?Hids, ?Hc; try apply Hs.
  - rewrite Hh. apply Hs.
  - intros l. rewrite Hh, Hl. apply Hs.
  - apply Forall_forall. intros tk. rewrite Ht. intros [->|Htk]%(elem_of_replaced _ _ _ _ _ Hi).
    + by apply (task_ok_in _ _ Hs Hin).
    + by eapply task_ok_in.
  - constructor.
    + intros n Hn. destruct (Hw n Hn) as (_ & (r & Hr0 & Hid & Hlt) & _). exists (c_record c), r.
      by rewrite Hr.
    + eapply Forall_impl; [apply (ord_sent _ Hs)|]. intros e' He' n Hn.
      destruct (He' n Hn) as (l & r & ? & ?). exists l, r. by rewrite Hr.
  - intros c' rank' e' Htk n Hn. rewrite Ht in Htk.
    assert (Htk' : WaitingPermit c' rank' e' ∈ delete i (tasks s)).
    { rewrite (replaced_perm _ _ _ _ Hi) in Htk. by apply elem_of_cons in Htk as [?|?]. }
    destruct (ord_waiting _ Hs c' rank' e' (elem_of_deleted _ _ _ _ Hi Htk') n Hn)
      as (Hmut & (r' & Hr' & Hid' & Hlt') & Hall).
    split; [done|]. split; [exists r'; by rewrite Hr|]. rewrite Hc. constructor; [|done].
    intros Hsame n1 n2 H1 H2. exfalso. destruct (Hw n2 H2) as (Hmut2 & (r & Hr0 & Hid & _) & _).
    assert (c_record c' = c_record c) as Heq.
    { eapply (ids_inj (gw s)); [apply (ord_ids _ Hs)|done..|]. unfold same_session in Hsame. congruence. }
    pose proof (ord_holders _ Hs) as Hnd. rewrite Hdel in Hnd. csimpl in Hnd.
    unfold holder at 1 in Hnd. csimpl in Hnd.
    rewrite (task_ok_in _ _ Hs Hin Hmut2) in Hnd. apply NoDup_cons in Hnd as [Hni _]. apply Hni.
    apply list_elem_of_omap. exists (WaitingPermit c' rank' e'). split; [done|].
    unfold holder. csimpl. rewrite <- Heq.
    by rewrite (task_ok_in _ (WaitingPermit c' rank' e') Hs (elem_of_deleted _ _ _ _ Hi Htk') Hmut).
  - constructor; [apply (ord_trace _ Hs)|]. apply Forall_forall. intros e' He' Hsame n1 n2 H1 H2.
    destruct (Hw n1 H1) as (_ & _ & Hall). apply (proj1 (Forall_forall _ _) Hall e' He' Hsame n1 n2 H1 H2).
Qed.

(** New sessions get identifiers no session has or had (a [uuid4]). *)
Definition legal (s : system) (ev : event) : Prop :=
  match ev with ECreate _ _ sid _ => sid ∉ session_ids (gw s) | _ => True end.

Fixpoint legal_run (evs : list event) (s : system) : Prop :=
  match evs with
  | [] => True
  | ev :: evs' => legal s ev ∧ legal_run evs' (exec s ev)
  end.

Lemma exec_ordered s ev : ordered s → legal s ev → ordered (exec s ev).
Proof.
  intros Hs Hl. destruct ev; cbn [exec legal] in *;
    try (apply silently_ordered; [done|]; first [apply late_calm|apply stale_calm|by calm_call]);
    try (apply create_ordered; done);
    try (apply dispatch_ordered; done);
    try (apply spawn_ordered; [done|..]; first [apply close_calm|apply renew_calm|apply cancel_calm
      |apply close_controls|apply renew_controls|cut_yields]);
    try (destruct (tasks s !! i) as [tk|] eqn:Hi; [destruct tk|]; try done).
  - eapply resume_ordered; [done..|apply binding_calm|apply binding_reply_controls].
  - eapply resume_ordered; [done..|apply close_finish_calm|].
    eapply yields_bind_yields; [apply close_finish_controls|]. by cut_yields.
  - destruct best_effort, reaping; try done. by eapply dropped_ordered.
  - apply (ordered_calm _ _ Hs); simpl; [reflexivity|by rewrite omap_app, app_nil_r|].
    intros tk [?| ->%list_elem_of_singleton]%elem_of_app; [by left|by right].
  - destruct ls; [by eapply dropped_ordered|].
    eapply resume_ordered; [done..|apply reap_calm|apply reap_controls].
  - eapply resume_ordered; [done..|solve_calm|cut_yields].
  - case_bool_decide; [done|]. by apply lock_ordered.
  - eapply resume_ended; [done..|]. apply (conclude_ends _ false); [solve_calm|]. by intros g tk [=].
  - destruct (0 <? _); [|done]. by apply send_ordered.
  - eapply resume_ended; [done..|]. apply sent_result_ends.
  - eapply resume_ended; [done..|]. apply reply_ends.
  - apply (ordered_calm _ _ Hs); simpl; auto. by apply same_calm.
Qed.

Lemma run_ordered evs s : ordered s → legal_run evs s → ordered (run evs s).
Proof.
  revert s. induction evs as [|ev evs IH]; intros s Hs; [done|]. intros [Hl Hr].
  apply IH; [by apply exec_ordered|done].
Qed.

Lemma init_ordered a b c d e f config p tr : ordered (init a b c d e f config p tr).
Proof. constructor; simpl; try constructor; set_solver. Qed.

(** C6: the commands of a session are serialised.  In every run, two commands that take
    the session's lock are never on their way (given to the dispatcher and not answered)
    for the same session record; and of two commands with a sequence number handed to the
    transport for the same session, the later one has the greater number: mutating
    operations reach the transport in the order their numbers were given. *)
Theorem commands_serialised (epoch : Z) (retention default_lease ttl timeout limit : Z)
    (config : AdmissionConfig) (priority : Priority.t) (transport : bool) (evs : list event) :
  let s0 := init epoch retention default_lease ttl timeout limit config priority transport in
  legal_run evs s0 →
  let s := run evs s0 in
  (∀ i j tk1 tk2 c1 c2, tasks s !! i = Some tk1 → tasks s !! j = Some tk2 →
     outstanding tk1 = Some c1 → outstanding tk2 = Some c2 →
     c_take_lock c1 = true → c_take_lock c2 = true → c_record c1 = c_record c2 → i = j) ∧
  (∀ earlier later e1 e2 rest n1 n2,
     commands (gw s) = later ++ e2 :: earlier ++ e1 :: rest →
     ce_session_id e1 = ce_session_id e2 →
     ce_operation_seq e1 = Some n1 → ce_operation_seq e2 = Some n2 → n1 < n2).
Proof.
  intros s0 Hl s.
  assert (Hs : ordered s) by (apply run_ordered; [apply init_ordered|done]). split.
  - intros i j tk1 tk2 c1 c2 H1 H2 O1 O2 T1 T2 Heq.
    pose proof (outstanding_holder _ _ O1) as E1. pose proof (outstanding_holder _ _ O2) as E2.
    rewrite T1 in E1. rewrite T2, <- Heq in E2.
    destruct (decide (i = j)) as [|Hne]; [done|exfalso].
    pose proof (ord_holders _ Hs) as Hnd.
    rewrite (delete_Permutation _ _ _ H1) in Hnd. csimpl in Hnd. rewrite E1 in Hnd.
    apply NoDup_cons in Hnd as [Hni _]. apply Hni, list_elem_of_omap. exists tk2. split; [|done].
    apply list_elem_of_lookup. destruct (decide (j < i)%nat).
    + exists j. by rewrite list_lookup_delete_lt.
    + exists (pred j). rewrite list_lookup_delete_ge by lia. by rewrite Nat.succ_pred by lia.
  - intros earlier later e1 e2 rest n1 n2 Hc Hsame S1 S2. pose proof (ord_trace _ Hs) as Hss.
    rewrite Hc in Hss. apply StronglySorted_app in Hss as (_ & _ & Hss).
    apply StronglySorted_inv in Hss as [_ Hall]. rewrite Forall_forall in Hall.
    apply (Hall e1 ltac:(set_solver) (eq_sym Hsame) n2 n1 S2 S1).
Qed.

End order.

Definition demo_run : list event :=
  demo_open "s1" ++ demo_reset "r1" ++ demo_reset "r2".

Lemma commands_serialised_witness :
  let s := run (interp := demo_interpreter) demo_run demo_init in
  (ce_operation_seq <$> commands (gw s)) = [Some 2; Some 1] ∧
  ∀ e1 e2 n1 n2, commands (gw s) = [e2; e1] → ce_session_id e1 = ce_session_id e2 →
    ce_operation_seq e1 = Some n1 → ce_operation_seq e2 = Some n2 → n1 < n2.
Proof.
  intros s. split; [vm_compute; reflexivity|]. intros e1 e2 n1 n2.
  refine (proj2 (commands_serialised (interp := demo_interpreter) 1 300 300 600 30 8 demo_config
    Priority.INTERACTIVE true demo_run _) [] [] e1 e2 [] n1 n2).
  vm_compute. split_and!; try exact I. by intros ?%elem_of_nil.
Defined.

End GatewayOrder.
