(* ===== verification/GatewayPlacement.v ===== *)
(** * Creating a session terminates

    [_create_session] retries on another worker when one is out of resources, in a
    [while True] loop.  It asks no worker twice, so it asks at most as many workers as are
    registered ([creation_terminates]). *)

From S2P Require Import Prelude PyDict Sorting Codec Api Messages Operations Sessions GatewayAdmission Workers Gateway.

Open Scope string_scope.
Open Scope list_scope.
Open Scope Z_scope.

Module GatewayPlacement.
Import RuntimeGateway.

Notation ranks g := (keys (EnvWorkerRegistry._entries (workers g))).

(** The registered ranks stay the same. *)
Definition fixed (g g' : t) : Prop := ranks g' = ranks g.
#[export] Instance fixed_preorder : PreOrder fixed.
Proof. split; [by intros g|]. unfold fixed. intros g1 g2 g3. congruence. Qed.

Lemma keys_update rank f s :
  keys (EnvWorkerRegistry._entries (after (EnvWorkerRegistry.update rank f) s)) =
  keys (EnvWorkerRegistry._entries s).
Proof.
  unfold EnvWorkerRegistry.update, modify, after. simpl.
  destruct (EnvWorkerRegistry._entries s !! rank) as [e|] eqn:He; [|done]. simpl. by eapply keys_insert_Some.
Qed.

Lemma keys_acquire rank d s :
  keys (EnvWorkerRegistry._entries (after (EnvWorkerRegistry.acquire rank d) s)) =
  keys (EnvWorkerRegistry._entries s).
Proof. unfold EnvWorkerRegistry.acquire. rewrite (proj1 (EnvWorkerRegistry.get_then_update _ _ _)). apply keys_update. Qed.

Ltac fixed_call :=
  first
    [ apply moves_on_workers; intros; unfold fixed; simpl; first [apply keys_acquire | apply keys_update]
    | apply moves_on_sessions; by intros
    | apply moves_on_operations; by intros
    | apply moves_on_admission; by intros
    | apply moves_emit; by intros
    | apply moves_modify; intros; unfold fixed; by repeat case_match ].
Ltac solve_fixed := cut_moves; fixed_call.

(** The ranks a creation has asked: all different, all registered. *)
Definition asked (ks : list Z) (tk : task) : Prop :=
  match tk with
  | Creating _ _ rank attempted _ => NoDup (rank :: attempted) ∧ rank :: attempted ⊆ ks
  | _ => True
  end.

Lemma asked_mono ks ks' tk : ks ⊆ ks' → asked ks tk → asked ks' tk.
Proof. intros Hsub. destruct tk; try done. intros [H1 H2]. split; [done|set_solver]. Qed.

(** At most as many workers are asked as there are. *)
Lemma asked_length ks request l rank attempted last :
  asked ks (Creating request l rank attempted last) → (length attempted < length ks)%nat.
Proof.
  intros [Hnd Hsub]. assert (rank :: attempted ⊆+ ks) as H%submseteq_length; [|simpl in H; lia].
  apply NoDup_submseteq; [done|]. intros x Hx. by apply Hsub.
Qed.

Lemma select_fresh spec attempted w rank :
  EnvWorkerRegistry.select_rank spec attempted w = Ok rank → rank ∉ attempted.
Proof.
  unfold EnvWorkerRegistry.select_rank.
  destruct (bfilter healthy _) as [|h hs]; [done|].
  destruct (EnvWorkerRegistry.capable spec w) as [|c cs]; [done|].
  destruct (sort_by EnvWorkerRegistry.load_leb _) as [|e es] eqn:Hs; [done|]. intros [= <-].
  assert (He : e ∈ EnvWorkerRegistry.available spec attempted w).
  { rewrite <- (sort_by_perm EnvWorkerRegistry.load_leb), Hs. by left. }
  apply elem_of_bfilter in He as [He _]. apply andb_prop in He as [_ He]. unfold member in He. by to_prop.
Qed.

(** A round of the loop asks a worker not asked before, or ends. *)
Definition next_round (attempted : list Z) (l : nat) (ks : list Z) (o : outcome exn (task + response)) : Prop :=
  match o with
  | Ok (inl tk) => ∃ request rank last, tk = Creating request l rank attempted last ∧
      (NoDup attempted → attempted ⊆ ks → asked ks tk)
  | _ => True
  end.

Section placement.
Context {interp : Interpreter}.

Lemma place_round request l attempted last g :
  wp (place request l attempted last) g (λ _ o, next_round attempted l (ranks g) o).
Proof.
  unfold place. apply wp_bind. unfold wp at 1.
  assert (Hd : after (deref l) g = g).
  { unfold deref, on_sessions, SessionManager.deref, after. simpl.
    destruct (SessionManager.heap (sessions g) !! l); by destruct g. }
  rewrite Hd. destruct (result_of (deref l) g) as [r|]; [|done]. apply wp_get, wp_bind. unfold wp at 1.
  change (result_of (lift ?x) g) with x. change (after (lift _) g) with g.
  destruct (EnvWorkerRegistry.select_rank _ attempted (workers g)) as [rank|] eqn:Hsel; [|done].
  apply select_fresh in Hsel. apply wp_bind. unfold wp at 1.
  change (result_of (on_workers ?m) g) with (result_of m (workers g)).
  pose proof (proj2 (EnvWorkerRegistry.get_then_update rank
    (EnvWorkerRegistry.place (SessionRecord.env_spec_digest r)) (workers g))) as Hok.
  change (_ ≫= _) with (EnvWorkerRegistry.acquire rank (SessionRecord.env_spec_digest r)) in Hok.
  destruct (result_of (EnvWorkerRegistry.acquire _ _) (workers g)) as [[]|]; [|done].
  apply wp_skip; [|done]. intros g' [d|e]; [|by apply wp_skip].
  apply wp_skip; [|done]. intros g'' _. exists request, rank, last. split; [done|].
  intros Hnd Hsub. split; [by constructor|]. intros x [->|Hx]%elem_of_cons; [|by apply Hsub].
  unfold has_key in Hok. simpl in Hok.
  destruct (EnvWorkerRegistry._entries (workers g) !! rank) eqn:E; [by eapply lookup_Some_keys|done].
Qed.

Lemma guard_round now request l attempted last last' g :
  wp (guard_create now request (Some l) last' (place request l attempted last)) g
    (λ _ o, next_round attempted l (ranks g) o).
Proof.
  unfold guard_create. apply wp_attempt. pose proof (place_round request l attempted last g) as Hp. unfold wp in Hp.
  destruct (result_of _ g) as [[tk|x]|e]; [done|done|]. by apply wp_skip.
Qed.

Lemma binding_round now1 now2 request l rank attempted last reply g :
  wp (binding_reply now1 now2 request l rank attempted last reply) g
    (λ _ o, next_round (rank :: attempted) l (ranks g) o).
Proof.
  unfold binding_reply. destruct (binding_of rank reply) as [token|e].
  - assert (Hy : yields (λ x, match x with inl _ => False | inr _ => True end) (guard_create now2 request (Some l) last (
        r ← deref l;
        l' ← on_sessions (SessionManager.commit_binding now1 (SessionRecord.session_id r) rank token None);
        r' ← deref l;
        mret (inr (Created (ROk (SessionRecord.handle r'))))))).
    { unfold guard_create. eapply (yields_bind_attempt (λ x, match x with inl _ => False | inr _ => True end));
        [by cut_yields| |]; by cut_yields. }
    specialize (Hy g). unfold wp. destruct (result_of _ g) as [[tk|x]|]; [|done..]. by destruct (Hy _ eq_refl).
  - apply wp_bind. unfold wp at 1. cbn [result_of]. set (g1 := after _ g).
    assert (E1 : ranks g1 = ranks g) by apply keys_update.
    destruct (is_resource_exhausted (normalize e)).
    + apply wp_bind. unfold wp at 1. cbn [result_of]. set (g2 := after _ g1).
      assert (E2 : ranks g2 = ranks g1) by apply keys_update. rewrite <- E1, <- E2. apply guard_round.
    + by apply wp_skip.
Qed.

(** ** The invariant of a run *)

Definition asking (s : system) : Prop := Forall (asked (ranks (gw s))) (tasks s).

Lemma create_round now1 now2 sid request g :
  wp (create_session now1 now2 sid request) g (λ _ o, ∃ l, next_round [] l (ranks g) o).
Proof.
  unfold create_session. apply wp_attempt. set (g1 := after _ g).
  assert (E1 : ranks g1 = ranks g) by done.
  destruct (result_of _ g); [|by exists 0%nat]. apply wp_attempt. set (g2 := after _ g1).
  assert (E2 : ranks g2 = ranks g) by done.
  destruct (result_of _ g1) as [[l []]|e].
  - eapply wp_mono; [|apply guard_round]. rewrite E2. eauto.
  - apply wp_skip; [intros|by exists 0%nat]. apply wp_skip; [intros|by exists 0%nat]. by exists 0%nat.
  - apply wp_skip; [intros|by exists 0%nat]. by exists 0%nat.
Qed.

(** Segments of the other coroutines create nothing. *)
Definition plain (x : task + response) : Prop :=
  match x with inl (Creating _ _ _ _ _) => False | _ => True end.

Lemma asked_plain ks tk : plain (inl tk) → asked ks tk.
Proof. by destruct tk. Qed.

(** What a segment leaves: the ranks, and a task that asks properly. *)
Definition proper (g g' : t) (o : outcome exn (task + response)) : Prop :=
  fixed g g' ∧ match o with Ok (inl tk) => asked (ranks g) tk | _ => True end.

Lemma spawn_asking m s : wp m (gw s) (proper (gw s)) → asking s → asking (spawn m s).
Proof.
  unfold wp, proper, fixed, asking, after, result_of, spawn.
  destruct (m (gw s)) as [g' [[tk|x]|e]]; simpl; intros [-> Ho] Hs; [|done..].
  apply Forall_app. split; [done|]. by constructor.
Qed.

Lemma Forall_deleted {A} (P : A → Prop) (l : list A) i : Forall P l → Forall P (delete i l).
Proof. intros H. rewrite delete_take_drop. apply Forall_app. split; [by apply Forall_take|by apply Forall_drop]. Qed.

Lemma resume_asking i k m s : wp m (gw s) (proper (gw s)) → asking s → asking (resume i k m s).
Proof.
  unfold wp, proper, fixed, asking, after, result_of, resume.
  destruct (m (gw s)) as [g' [[tk|x]|e]]; simpl; intros [-> Ho] Hs.
  - by apply Forall_insert.
  - destruct k; [by apply Forall_insert|by apply Forall_deleted].
  - destruct k; [by apply Forall_insert|by apply Forall_deleted].
Qed.

Lemma plain_proper m g : moves fixed m → yields plain m → wp m g (proper g).
Proof.
  intros Hm Hy. specialize (Hm g). specialize (Hy g). unfold wp, proper.
  destruct (result_of m g) as [[tk|x]|e]; (split; [done|]); try done. apply asked_plain. by apply Hy.
Qed.

Lemma round_proper m attempted l g :
  moves fixed m → wp m g (λ _ o, next_round attempted l (ranks g) o) →
  NoDup attempted → attempted ⊆ ranks g → wp m g (proper g).
Proof.
  intros Hm Hr Hnd Hsub. specialize (Hm g). unfold wp, proper in *. split; [done|].
  destruct (result_of m g) as [[tk|x]|e]; [|done..]. destruct Hr as (? & ? & ? & -> & Hr). by apply Hr.
Qed.

Lemma conclude_plain c holds (m : op (task + Result value)) :
  yields (λ x, match x with inl tk => plain (inl tk) | inr _ => True end) m → yields plain (conclude c holds m).
Proof.
  intros Hm. unfold conclude, leave. eapply (yields_bind_attempt _ _ _ _ Hm); intros; by cut_yields.
Qed.

Lemma execute_plain now c :
  yields (λ x, match x with inl tk => plain (inl tk) | inr _ => True end) (_execute now c).
Proof. unfold _execute. by cut_yields. Qed.

Lemma dispatch_plain now1 now2 now3 sid o payload rid deadline eventual :
  yields plain (_dispatch_one now1 now2 now3 sid o payload rid deadline eventual).
Proof.
  unfold _dispatch_one. apply yields_bind. intros [l|]; [|by cut_yields].
  apply yields_bind. intros r. apply yields_bind. intros [|]; [|by cut_yields].
  apply conclude_plain. apply yields_bind. intros b. simpl. destruct (negb _); [by cut_yields|].
  destruct (takes_lock _ _); [by cut_yields|]. apply execute_plain.
Qed.

Lemma sent_plain now c result : yields plain (sent_result now c result).
Proof. unfold sent_result. apply conclude_plain. by cut_yields. Qed.

Lemma close_plain now1 now2 sid k : yields plain (close_session now1 now2 sid k).
Proof.
  unfold close_session. cut_yields; try done; (eapply yields_bind_yields; [apply close_finish_controls|]; by cut_yields).
Qed.

Lemma reap_plain now1 now2 l rest : yields plain (reap now1 now2 l rest).
Proof. unfold reap. apply yields_bind. intros r. destruct (SessionRecord.active_operation r); [by cut_yields|apply close_plain]. Qed.

Lemma close_fixed now1 now2 sid k : moves fixed (close_session now1 now2 sid k).
Proof. solve_fixed. Qed.

Lemma asking_mono g tks : Forall (asked (ranks g)) tks → ∀ g', ranks g ⊆ ranks g' → Forall (asked (ranks g')) tks.
Proof. intros H g' Hsub. eapply Forall_impl; [exact H|]. intros tk. by apply asked_mono. Qed.

Lemma silently_asking {A} (m : op A) s : moves fixed m → asking s → asking (silently m s).
Proof. intros Hm. unfold asking. simpl. by rewrite (Hm (gw s)). Qed.

Lemma exec_asking s ev : asking s → asking (exec s ev).
Proof.
  intros Hs. destruct ev; cbn [exec]; cbv zeta;
    try (destruct (tasks s !! i) as [tk|] eqn:Hi; [destruct tk|]; try done).
  - apply spawn_asking; [|done]. pose proof (create_round now1 now2 generated request (gw s)) as Hr.
    unfold wp in Hr. destruct Hr as [l Hr].
    apply (round_proper _ [] l); [unfold create_session; solve_fixed|exact Hr|constructor|set_solver].
  - assert (Ha : asked (ranks (gw s)) (Creating request l rank attempted last_resource_error)).
    { eapply Forall_lookup_1; [exact Hs|exact Hi]. }
    apply resume_asking; [|done]. destruct Ha as [Hnd Hsub].
    apply (round_proper _ (rank :: attempted) l); [unfold binding_reply; solve_fixed|apply binding_round|done..].
  - apply spawn_asking; [|done]. apply plain_proper; [apply close_fixed|apply close_plain].
  - apply resume_asking; [|done]. apply plain_proper; [solve_fixed|].
    eapply yields_bind_yields; [apply close_finish_controls|]. by cut_yields.
  - destruct best_effort, reaping; try done. by apply Forall_deleted.
  - unfold asking. simpl. apply Forall_app. split; [done|]. by constructor.
  - destruct ls; [by apply Forall_deleted|]. apply resume_asking; [|done].
    apply plain_proper; [unfold reap; solve_fixed|apply reap_plain].
  - apply spawn_asking; [|done]. apply plain_proper; unfold renew_session; [solve_fixed|by cut_yields].
  - apply resume_asking; [|done]. apply plain_proper; [solve_fixed|by cut_yields].
  - apply spawn_asking; [|done]. apply plain_proper; [unfold _dispatch_one; solve_fixed|apply dispatch_plain].
  - case_bool_decide; [done|]. apply resume_asking; [|done].
    apply plain_proper; [unfold lock_granted; solve_fixed|]. apply yields_bind. intros _.
    apply conclude_plain, execute_plain.
  - apply resume_asking; [|done]. apply plain_proper; [solve_fixed|]. apply conclude_plain. by cut_yields.
  - destruct (0 <? _); [|done]. apply resume_asking; [|done].
    apply plain_proper; unfold send_command; [solve_fixed|by cut_yields].
  - apply resume_asking; [|done]. apply plain_proper; [solve_fixed|apply sent_plain].
  - apply resume_asking; [|done]. apply plain_proper; [unfold command_reply; solve_fixed|].
    unfold command_reply. do 2 (apply yields_bind; intros ?). apply sent_plain.
  - apply silently_asking; [|done]. unfold _absorb_late_result. destruct (member _ _); solve_fixed.
  - apply spawn_asking; [|done]. apply plain_proper; unfold cancel_request; [solve_fixed|by cut_yields].
  - eapply asking_mono; [exact Hs|]. intros r Hr. simpl. unfold after. simpl.
    set (e := match EnvWorkerRegistry._entries _ !! _ with None => _ | Some _ => _ end).
    destruct (EnvWorkerRegistry._entries (workers (gw s)) !! wi_worker_rank info) as [e0|] eqn:E.
    + by rewrite (keys_insert_Some _ _ _ _ E).
    + rewrite (keys_insert_None _ _ _ E). set_solver.
  - apply silently_asking; [|done]. unfold reap_stale_workers. solve_fixed.
  - by apply (silently_asking (on_operations (OperationRegistry.purge moment))); [fixed_call|].
  - apply silently_asking; [fixed_call|done].
Qed.

Lemma run_asking evs s : asking s → asking (run evs s).
Proof. revert s. induction evs as [|ev evs IH]; intros s Hs; [done|]. by apply IH, exec_asking. Qed.

(** ** Termination *)

Definition replies (i : nat) (now : nat → time) (reply : nat → ResultEnvelope) (n : nat) : list event :=
  (λ k, EBindingReply i (now k) (now k) (reply k)) <$> seq 0 n.

(** One answer ends the creation, or makes it ask one more worker. *)
Lemma answer_round i now1 now2 reply request l rank attempted last s :
  tasks s !! i = Some (Creating request l rank attempted last) →
  let s' := exec s (EBindingReply i now1 now2 reply) in
  ranks (gw s') = ranks (gw s) ∧
  (tasks s' = delete i (tasks s) ∨
   ∃ request' rank' last', tasks s' = <[i := Creating request' l rank' (rank :: attempted) last']> (tasks s)).
Proof.
  intros Hi. cbn [exec]. rewrite Hi. cbv zeta.
  assert (Hf : moves fixed (binding_reply now1 now2 request l rank attempted last reply))
    by (unfold binding_reply; solve_fixed).
  specialize (Hf (gw s)). pose proof (binding_round now1 now2 request l rank attempted last reply (gw s)) as Hr.
  unfold wp, fixed, after, result_of, resume in *.
  destruct (binding_reply _ _ _ _ _ _ _ _ (gw s)) as [g' [[tk|x]|e]]; simpl in *; (split; [done|]); [right|by left..].
  destruct Hr as (request' & rank' & last' & -> & _). eauto.
Qed.

(** C24: creating a session terminates.  In any reachable state a suspended creation has
    asked different registered workers; and whatever the workers answer from there on
    (bound, refused, out of resources), after at most as many answers as there are workers
    not yet asked the loop has ended, the other coroutines being untouched. *)
Theorem creation_terminates (epoch : Z) (retention default_lease ttl timeout limit : Z)
    (config : AdmissionConfig) (priority : Priority.t) (transport : bool) (evs : list event)
    (i : nat) (request : CreateSessionRequest) (l : nat) (rank : Z) (attempted : list Z)
    (last : option RuntimeErrorInfo) (now : nat → time) (reply : nat → ResultEnvelope) :
  let s := run evs (init epoch retention default_lease ttl timeout limit config priority transport) in
  tasks s !! i = Some (Creating request l rank attempted last) →
  NoDup (rank :: attempted) ∧ rank :: attempted ⊆ ranks (gw s) ∧
  ∃ n, (0 < n ≤ length (ranks (gw s)) - length attempted)%nat ∧
    tasks (run (replies i now reply n) s) = delete i (tasks s).
Proof.
  intros s Hi. assert (Hs : asking s) by (apply run_asking; constructor).
  split_and!; [by apply (Forall_lookup_1 _ _ _ _ Hs Hi)..|].
  clearbody s. remember (length (ranks (gw s)) - length attempted)%nat as n eqn:Hn.
  revert s request rank attempted last now reply Hi Hs Hn.
  induction n as [|n IH]; intros s request rank attempted last now reply Hi Hs Hn;
    pose proof (asked_length _ _ _ _ _ _ (Forall_lookup_1 _ _ _ _ Hs Hi)) as Hlen; [lia|].
  destruct (answer_round i (now 0%nat) (now 0%nat) (reply 0%nat) _ _ _ _ _ _ Hi)
    as [Hk [Hend|(request' & rank' & last' & Htk)]].
  - exists 1%nat. split; [lia|]. exact Hend.
  - set (s' := exec s _) in *. pose proof (lookup_lt_Some _ _ _ Hi) as Hlt.
    destruct (IH s' request' rank' (rank :: attempted) last' (now ∘ S) (reply ∘ S)) as (m & Hm & Hrun).
    + rewrite Htk. by apply list_lookup_insert_eq.
    + by apply exec_asking.
    + rewrite Hk. simpl. lia.
    + exists (S m). split; [lia|]. unfold replies. simpl. rewrite <- fmap_S_seq, <- list_fmap_compose.
      change (run _ _) with (run (replies i (now ∘ S) (reply ∘ S) m) s'). rewrite Hrun, Htk.
      rewrite !delete_take_drop. rewrite take_insert_ge, drop_insert_lt; [done|lia..].
Qed.

End placement.

(** Two workers are registered and both are out of memory. *)
Definition demo_exhausted : ResultEnvelope := {|
  re_operation := EnvOperation.CREATE_BINDING; re_request_id := "c"; re_state := OperationState.FAILED;
  re_value := VNone; re_error := Some (error_of ErrorCode.RESOURCE_EXHAUSTED "out of memory"
    [("resource", VStr "gpu_memory"); ("reason", VStr "OOM")]);
  re_side_effect_applied := false; re_worker_summary := None |}.
Definition demo_two : list event :=
  [ERegisterWorker 1 (EnvWorkerRegistry.demo_worker 0); ERegisterWorker 1 (EnvWorkerRegistry.demo_worker 1);
   ECreate 2 2 "s1" (demo_request "s1")].

Lemma creation_terminates_witness :
  let s := run (interp := demo_interpreter) demo_two demo_init in
  let s1 := run (interp := demo_interpreter) (replies 0 (λ _, 3) (λ _, demo_exhausted) 1) s in
  length (tasks s1) = 1%nat ∧
  ∃ n, (0 < n ≤ 2)%nat ∧
    tasks (run (interp := demo_interpreter) (replies 0 (λ _, 3) (λ _, demo_exhausted) n) s) = [].
Proof.
  intros s. split; [vm_compute; reflexivity|].
  destruct (creation_terminates (interp := demo_interpreter) 1 300 300 600 30 8 demo_config Priority.INTERACTIVE
    true demo_two 0 (demo_request "s1") 0 0 [] None (λ _, 3) (λ _, demo_exhausted)) as (_ & _ & n & Hn & Hrun);
    [vm_compute; reflexivity|]. exists n. split; [exact Hn|exact Hrun].
Defined.

End GatewayPlacement.
