(* ===== verification/GatewayAccounting.v ===== *)
(** * What each segment of the Gateway does to its accounts

    Admission control counts sessions and operations, the worker registry counts
    placements.  [books] says what the records of the sessions and a list of tickets and
    placements hold; for each segment of the coroutines of [Gateway] there is a lemma
    saying what it takes and gives back, on every path.  [GatewayBalance] puts them
    together. *)

From S2P Require Import Prelude PyDict Sorting Codec Api Messages Operations Sessions GatewayAdmission Workers Gateway.

Open Scope string_scope.
Open Scope list_scope.
Open Scope Z_scope.

Module GatewayAccounting.
Import RuntimeGateway.

Notation records g := (SessionManager.heap (sessions g)).

(** ** What accounting sees of the sessions *)

Record view := View {
  v_id : SessionId; v_app : string; v_state : SessionState.t; v_rank : option Z;
}.

Definition view_of (r : SessionRecord.t) : view :=
  View (SessionRecord.session_id r) (SessionRecord.application_id r) (SessionRecord.state r)
    (SessionRecord.worker_rank r).

Definition with_state (st : SessionState.t) (v : view) : view := View (v_id v) (v_app v) st (v_rank v).
Definition bind_view (rank : Z) (v : view) : view :=
  View (v_id v) (v_app v) SessionState.READY (Some rank).

(** A session that holds quota, and one that holds a place on a rank. *)
Definition holds_quota (v : view) : bool :=
  negb (member (v_state v) [SessionState.FAILED; SessionState.CLOSED]).
Definition bound_rank (v : view) : option Z :=
  if member (v_state v) [SessionState.READY; SessionState.CLOSING; SessionState.LOST]
  then v_rank v else None.

Definition skeleton (s : SessionManager.t) : list view * pydict SessionId nat :=
  (view_of <$> SessionManager.heap s, SessionManager._sessions s).
Notation views g := ((skeleton (sessions g)).1).
Notation table g := ((skeleton (sessions g)).2).

Lemma alter_view f l (h : list SessionRecord.t) :
  (∀ r, view_of (f r) = view_of r) → view_of <$> alter f l h = view_of <$> h.
Proof.
  intros Hf. apply list_eq. intros i. rewrite !list_lookup_fmap.
  destruct (decide (i = l)) as [->|Hne].
  - rewrite list_lookup_alter_eq. destruct (h !! l); simpl; [by rewrite Hf|done].
  - by rewrite list_lookup_alter_ne.
Qed.

Lemma alter_view_to f g l (h : list SessionRecord.t) :
  (∀ r, view_of (f r) = g (view_of r)) → view_of <$> alter f l h = alter g l (view_of <$> h).
Proof.
  intros Hf. apply list_eq. intros i. destruct (decide (i = l)) as [->|Hne].
  - rewrite list_lookup_alter_eq, !list_lookup_fmap, list_lookup_alter_eq.
    destruct (h !! l); simpl; [by rewrite Hf|done].
  - by rewrite list_lookup_alter_ne, !list_lookup_fmap, list_lookup_alter_ne.
Qed.

(** The calls that change nothing accounting sees. *)
Definition plain (c : SessionManager.command) : bool :=
  match c with
  | SessionManager.Renew _ _ _ _ _ | SessionManager.AllocateOperationSeq _
  | SessionManager.SetEpisode _ _ _ | SessionManager.SetWorkerSummary _ _
  | SessionManager.BeginOperation _ _ | SessionManager.EndOperation _ _
  | SessionManager.SetReapPending _ => true
  | _ => false
  end.

Lemma plain_skeleton c s : plain c = true → skeleton (SessionManager.exec s c) = skeleton s.
Proof.
  assert (Ha : ∀ l f, (∀ r, view_of (f r) = view_of r) →
    skeleton (SessionManager.with_heap (alter f l (SessionManager.heap s)) s) = skeleton s).
  { intros l f Hf. unfold skeleton. simpl. by rewrite alter_view. }
  destruct c as [| | | | | |now1 now2 sid lease app|l|now sid ep|sid w|l rid|l rid|l|]; try done;
    intros _; simpl; unfold after.
  - unfold SessionManager.renew, check, SessionManager.require_ready, SessionManager.get,
      SessionManager.deref, SessionManager.assign, raise, mbind, prog_bind, mret, prog_ret.
    destruct (negb (lease <=? 0)); [|done]. destruct (SessionManager._sessions s !! sid) as [l|]; [|done].
    destruct (SessionManager.heap s !! l) as [r|] eqn:Hr; [|done]. destruct (bool_decide _); [|done].
    rewrite Hr. destruct (match app with Some a => _ | None => _ end); [|done]. simpl. by apply Ha.
  - unfold SessionManager.allocate_operation_seq, SessionManager.deref, SessionManager.assign, mbind,
      prog_bind, mret, prog_ret. destruct (SessionManager.heap s !! l) as [r|]; [|done]. simpl. by apply Ha.
  - unfold SessionManager.set_episode, SessionManager.get, mbind, prog_bind.
    destruct (SessionManager._sessions s !! sid) as [l|]; [|done]. simpl. by apply Ha.
  - unfold SessionManager.set_worker_summary. destruct (SessionManager._sessions s !! sid) as [l|]; [|done].
    destruct w; [|done]. by apply Ha.
  - unfold SessionManager.begin_operation, SessionManager.deref, raise, mbind, prog_bind.
    destruct (SessionManager.heap s !! l) as [r|]; [|done].
    destruct (SessionRecord.active_operation r); [done|]. by apply Ha.
  - unfold SessionManager.end_operation, SessionManager.deref, mbind, prog_bind, mret, prog_ret.
    destruct (SessionManager.heap s !! l) as [r|]; [|done]. destruct (bool_decide _); [|done]. by apply Ha.
  - by apply Ha.
Qed.

Lemma lookup_views (s : SessionManager.t) l :
  (skeleton s).1 !! l = view_of <$> SessionManager.heap s !! l.
Proof. apply list_lookup_fmap. Qed.

(** A transition moves one record along an edge, or raises and changes nothing. *)
Lemma transition_skeleton now sid st e s :
  let m := SessionManager.transition now sid st e in
  match result_of m s with
  | Ok l => (skeleton s).2 !! sid = Some l ∧
      (∃ v, (skeleton s).1 !! l = Some v ∧ member st (ALLOWED_SESSION_TRANSITIONS (v_state v)) = true) ∧
      skeleton (after m s) = (alter (with_state st) l (skeleton s).1, (skeleton s).2)
  | Raise _ => after m s = s ∧ (∀ l v, (skeleton s).2 !! sid = Some l → (skeleton s).1 !! l = Some v →
      member st (ALLOWED_SESSION_TRANSITIONS (v_state v)) = false)
  end.
Proof.
  intros m. unfold m, result_of, after, skeleton. rewrite SessionManager.transition_spec. simpl.
  destruct (SessionManager._sessions s !! sid) as [l|] eqn:Hl; simpl; [|split; [done|congruence]].
  destruct (SessionManager.heap s !! l) as [r|] eqn:Hr; simpl.
  - destruct (member st _) eqn:Hm; simpl.
    + split; [done|]. split; [exists (view_of r); by rewrite list_lookup_fmap, Hr|].
      f_equal. apply alter_view_to. intros r'. unfold SessionManager.moved.
      by destruct e, (member st [_; _; _]).
    + split; [done|]. intros l' v [= <-]. rewrite list_lookup_fmap, Hr. by intros [= <-].
  - split; [done|]. intros l' v [= <-]. by rewrite list_lookup_fmap, Hr.
Qed.

#[global] Arguments skeleton : simpl never.

(** ** What a program leaves *)

(** Nothing accounting sees has changed. *)
Record still (g g' : t) : Prop := {
  still_skeleton : skeleton (sessions g') = skeleton (sessions g);
  still_admission : admission g' = admission g;
  still_workers : workers g' = workers g;
}.
#[export] Instance still_preorder : PreOrder still.
Proof. split; [by split|]. intros g1 g2 g3 [] []. split; congruence. Qed.

Lemma plain_still {A} (m : SessionManager.op A) c :
  plain c = true → (∀ s, after m s = SessionManager.exec s c) → moves still (on_sessions m).
Proof. intros Hc Hm. apply moves_on_sessions. intros g. rewrite Hm. split; [|done..]. by apply plain_skeleton. Qed.

Lemma reads_still {A} (m : SessionManager.op A) : (∀ s, after m s = s) → moves still (on_sessions m).
Proof. intros Hm. apply moves_on_sessions. intros g. rewrite Hm. by destruct g. Qed.

(** Solve [moves still]: every call of the segment is one of those. *)
Ltac still_sessions :=
  lazymatch goal with
  | |- moves _ (on_sessions (SessionManager.deref _)) => by apply reads_still
  | |- moves _ (on_sessions (SessionManager.renew ?a ?b ?c ?d ?e)) => by apply (plain_still _ (SessionManager.Renew a b c d e))
  | |- moves _ (on_sessions (SessionManager.allocate_operation_seq ?a)) => by apply (plain_still _ (SessionManager.AllocateOperationSeq a))
  | |- moves _ (on_sessions (SessionManager.set_episode ?a ?b ?c)) => by apply (plain_still _ (SessionManager.SetEpisode a b c))
  | |- moves _ (on_sessions (SessionManager.set_worker_summary ?a ?b)) => by apply (plain_still _ (SessionManager.SetWorkerSummary a b))
  | |- moves _ (on_sessions (SessionManager.begin_operation ?a ?b)) => by apply (plain_still _ (SessionManager.BeginOperation a b))
  | |- moves _ (on_sessions (SessionManager.end_operation ?a ?b)) => by apply (plain_still _ (SessionManager.EndOperation a b))
  | |- moves _ (on_sessions (SessionManager.set_reap_pending ?a)) => by apply (plain_still _ (SessionManager.SetReapPending a))
  end.
Ltac still_call :=
  first
    [ still_sessions
    | apply moves_on_operations; intros; by split
    | apply moves_modify; intros; split; by repeat case_match
    | apply moves_emit; intros; by split ].
Ltac solve_still := cut_moves; still_call.

(** What is held at admission control, and what is placed on the ranks. *)
Section held.
Context (config : AdmissionConfig) (timeout : Z).

Definition admitted (apps : list string) (calls : list (string * SessionId)) (a : AdmissionController.t) : Prop :=
  ∃ h, AdmissionController.reachable config (a, h) ∧ AdmissionController.sessions h ≡ₚ apps ∧
    AdmissionController.tickets h ≡ₚ calls.
Definition placed (ranks : list Z) (w : EnvWorkerRegistry.t) : Prop :=
  ∃ p, EnvWorkerRegistry.reachable timeout (w, p) ∧ p ≡ₚ ranks.

Lemma admitted_perm A A' T T' a : A ≡ₚ A' → T ≡ₚ T' → admitted A T a → admitted A' T' a.
Proof. intros HA HT (h & Hr & Hs & Ht). exists h. split; [done|]. split; [by rewrite Hs|by rewrite Ht]. Qed.
Lemma placed_perm P P' w : P ≡ₚ P' → placed P w → placed P' w.
Proof. intros HP (p & Hr & Hp). exists p. split; [done|by rewrite Hp]. Qed.

Lemma admitted_step A T a h h' a' :
  AdmissionController.reachable config (a, h) → AdmissionController.step (a, h) (a', h') →
  AdmissionController.sessions h' ≡ₚ A → AdmissionController.tickets h' ≡ₚ T → admitted A T a'.
Proof. intros Hr Hst HA HT. exists h'. split; [|done]. by eapply rtc_r. Qed.

Lemma admit_session_admitted A T app token a :
  admitted A T a → admitted (if is_ok (result_of (AdmissionController.admit_session app token) a)
    then app :: A else A) T (after (AdmissionController.admit_session app token) a).
Proof.
  intros (h & Hr & Hs & Ht). eapply admitted_step; [exact Hr|apply AdmissionController.step_admit_session|..];
    destruct (is_ok _); simpl; by rewrite ?Hs, ?Ht.
Qed.
Lemma release_session_admitted A T app a :
  admitted (app :: A) T a → admitted A T (after (AdmissionController.release_session app) a).
Proof.
  intros (h & Hr & Hs & Ht).
  eapply admitted_step; [exact Hr|by apply (AdmissionController.step_release_session a h app A)|done|done].
Qed.
Lemma admit_operation_admitted A T now app sid dl d q a :
  admitted A T a → admitted A (if is_ok (result_of (AdmissionController.admit_operation now app sid dl d q) a)
    then (app, sid) :: T else T) (after (AdmissionController.admit_operation now app sid dl d q) a).
Proof.
  intros (h & Hr & Hs & Ht). eapply admitted_step; [exact Hr|apply AdmissionController.step_admit_operation|..];
    destruct (is_ok _); simpl; by rewrite ?Hs, ?Ht.
Qed.
Lemma complete_operation_admitted A T app sid a :
  admitted A ((app, sid) :: T) a → admitted A T (after (AdmissionController.complete_operation app sid) a).
Proof.
  intros (h & Hr & Hs & Ht).
  eapply admitted_step; [exact Hr|by apply (AdmissionController.step_complete_operation a h app sid T)|done|done].
Qed.
Lemma forget_session_admitted A T sid a :
  (∀ x, x ∈ T → x.2 ≠ sid) → admitted A T a →
  admitted A T (after (AdmissionController.forget_session sid) a).
Proof.
  intros Hn (h & Hr & Hs & Ht). eapply admitted_step; [exact Hr|apply AdmissionController.step_forget_session|done|done].
  unfold AdmissionController.session_tickets. apply count_zero. intros x. rewrite Ht. intros Hx.
  apply String.eqb_neq. intros Heq. by destruct (Hn x Hx).
Qed.

Lemma placed_step P w p w' p' :
  EnvWorkerRegistry.reachable timeout (w, p) → EnvWorkerRegistry.step (w, p) (w', p') → p' ≡ₚ P → placed P w'.
Proof. intros Hr Hst HP. exists p'. split; [|done]. by eapply rtc_r. Qed.

Lemma register_placed P now i w : placed P w → placed P (after (EnvWorkerRegistry.register now i) w).
Proof. intros (p & Hr & Hp). eapply placed_step; [exact Hr|constructor|done]. Qed.
Lemma mark_unhealthy_placed P rank w : placed P w → placed P (after (EnvWorkerRegistry.mark_unhealthy rank) w).
Proof. intros (p & Hr & Hp). eapply placed_step; [exact Hr|constructor|done]. Qed.
Lemma mark_cannot_placed P rank w :
  placed P w → placed P (after (EnvWorkerRegistry.mark_cannot_create_slot rank) w).
Proof. intros (p & Hr & Hp). eapply placed_step; [exact Hr|constructor|done]. Qed.
Lemma acquire_placed P rank d w :
  placed P w → placed (if is_ok (result_of (EnvWorkerRegistry.acquire rank d) w) then rank :: P else P)
    (after (EnvWorkerRegistry.acquire rank d) w).
Proof.
  intros (p & Hr & Hp). eapply placed_step; [exact Hr|constructor|]. destruct (is_ok _); by rewrite Hp.
Qed.
Lemma release_placed P rank restore w :
  placed (rank :: P) w → placed P (after (EnvWorkerRegistry.release rank restore) w).
Proof. intros (p & Hr & Hp). eapply placed_step; [exact Hr|by constructor|done]. Qed.

(** ** The books of a gateway *)

Definition apps_of (vs : list view) : list string := v_app <$> bfilter holds_quota vs.
Definition ranks_of (vs : list view) : list Z := omap bound_rank vs.

(** The records as they look, the quota held besides theirs, the places besides theirs. *)
Record books (vs : list view) (tbl : pydict SessionId nat) (apps : list string)
    (calls : list (string * SessionId)) (ranks : list Z) (g : t) : Prop := {
  books_views : skeleton (sessions g) = (vs, tbl);
  books_admitted : admitted (apps ++ apps_of vs) calls (admission g);
  books_placed : placed (ranks ++ ranks_of vs) (workers g);
}.

Lemma books_still vs tbl A T P g g' : still g g' → books vs tbl A T P g → books vs tbl A T P g'.
Proof. intros [H1 H2 H3] [B1 B2 B3]. split; by rewrite ?H1, ?H2, ?H3. Qed.
(** ** Lists of views *)

Lemma alter_split (vs : list view) l v :
  vs !! l = Some v → ∃ v1 v2, vs = v1 ++ v :: v2 ∧ ∀ f, alter f l vs = v1 ++ f v :: v2.
Proof.
  intros Hv. exists (take l vs), (drop (S l) vs). split; [by rewrite take_drop_middle|]. intros f.
  apply list_eq. intros i. pose proof (lookup_lt_Some _ _ _ Hv) as Hlt.
  destruct (decide (i = l)) as [->|Hne].
  - rewrite list_lookup_alter_eq, Hv. simpl. rewrite lookup_app_r; rewrite length_take; [|lia].
    by replace (l - l `min` length vs)%nat with 0%nat by lia.
  - rewrite list_lookup_alter_ne by done. destruct (decide (i < l)%nat).
    + rewrite lookup_app_l by (rewrite length_take; lia). by rewrite lookup_take_lt.
    + rewrite lookup_app_r by (rewrite length_take; lia). rewrite length_take.
      replace (i - l `min` length vs)%nat with (S (i - S l)) by lia. simpl. rewrite lookup_drop. f_equal. lia.
Qed.

Definition quota_of (v : view) : list string := if holds_quota v then [v_app v] else [].
Definition place_of (v : view) : list Z := option_list (bound_rank v).

Lemma apps_of_app v1 v2 : apps_of (v1 ++ v2) = apps_of v1 ++ apps_of v2.
Proof. unfold apps_of. by rewrite bfilter_app, fmap_app. Qed.
Lemma apps_of_cons v vs : apps_of (v :: vs) = quota_of v ++ apps_of vs.
Proof. unfold apps_of, quota_of. rewrite bfilter_cons. by destruct (holds_quota v). Qed.
Lemma ranks_of_app v1 v2 : ranks_of (v1 ++ v2) = ranks_of v1 ++ ranks_of v2.
Proof. apply omap_app. Qed.
Lemma ranks_of_cons v vs : ranks_of (v :: vs) = place_of v ++ ranks_of vs.
Proof. unfold ranks_of, place_of. csimpl. by destruct (bound_rank v). Qed.

(** One record changes: its own quota and place are exchanged. *)
Lemma apps_of_alter (vs : list view) l v f :
  vs !! l = Some v → ∃ rest, apps_of vs ≡ₚ quota_of v ++ rest ∧ apps_of (alter f l vs) ≡ₚ quota_of (f v) ++ rest.
Proof.
  intros Hv. destruct (alter_split vs l v Hv) as (v1 & v2 & -> & Hf). rewrite Hf.
  exists (apps_of v1 ++ apps_of v2). rewrite !apps_of_app, !apps_of_cons.
  split; by rewrite !(assoc_L (++)), (Permutation_app_comm (apps_of v1)).
Qed.
Lemma ranks_of_alter (vs : list view) l v f :
  vs !! l = Some v → ∃ rest, ranks_of vs ≡ₚ place_of v ++ rest ∧ ranks_of (alter f l vs) ≡ₚ place_of (f v) ++ rest.
Proof.
  intros Hv. destruct (alter_split vs l v Hv) as (v1 & v2 & -> & Hf). rewrite Hf.
  exists (ranks_of v1 ++ ranks_of v2). rewrite !ranks_of_app, !ranks_of_cons.
  split; by rewrite !(assoc_L (++)), (Permutation_app_comm (ranks_of v1)).
Qed.

Lemma same_quota (vs : list view) l v f :
  vs !! l = Some v → quota_of (f v) = quota_of v → place_of (f v) = place_of v →
  apps_of (alter f l vs) ≡ₚ apps_of vs ∧ ranks_of (alter f l vs) ≡ₚ ranks_of vs.
Proof.
  intros Hv Hq Hp. destruct (apps_of_alter vs l v f Hv) as (a & -> & ->).
  destruct (ranks_of_alter vs l v f Hv) as (r & -> & ->). by rewrite Hq, Hp.
Qed.

(** ** The calls on sessions *)

Lemma create_skeleton now sid request s :
  let m := SessionManager.create now sid request None in
  match result_of m s with
  | Ok (l, true) => l = length (skeleton s).1 ∧
      skeleton (after m s) = ((skeleton s).1 ++
        [View sid (Messages.application_id request) SessionState.CREATING None], <[sid := l]> (skeleton s).2)
  | _ => skeleton (after m s) = skeleton s
  end.
Proof.
  intros m. unfold m, result_of, after. rewrite SessionManager.create_cases.
  destruct (lease_seconds request <=? 0); [done|]. destruct (SessionManager.idempotent_hit _ s); [done|].
  destruct (Messages.env_spec_digest _) as [d|e]; [|done]. simpl.
  split; [by rewrite length_fmap|]. unfold skeleton. simpl. by rewrite fmap_app.
Qed.

Lemma commit_skeleton now sid rank token s l v :
  (skeleton s).2 !! sid = Some l → (skeleton s).1 !! l = Some v → v_state v = SessionState.CREATING →
  let m := SessionManager.commit_binding now sid rank token None in
  result_of m s = Ok l ∧ skeleton (after m s) = (alter (bind_view rank) l (skeleton s).1, (skeleton s).2).
Proof.
  intros Ht Hv Hst m. unfold skeleton in Ht. simpl in Ht.
  unfold m, SessionManager.commit_binding, SessionManager.get, SessionManager.assign, result_of, after, mbind,
    prog_bind, mret, prog_ret. rewrite Ht. simpl.
  set (f := λ r, SessionRecord.set_binding_token (Some token) (SessionRecord.set_worker_rank (Some rank) r)).
  set (s1 := SessionManager.with_heap _ s).
  pose proof (transition_skeleton now sid SessionState.READY None s1) as Htr. cbv zeta in Htr.
  set (fv := λ v, View (v_id v) (v_app v) (v_state v) (Some rank)).
  assert (Hs1 : skeleton s1 = (alter fv l (skeleton s).1, (skeleton s).2)).
  { unfold skeleton. simpl. f_equal. by apply alter_view_to. }
  assert (Hv1 : (skeleton s1).1 !! l = Some (View (v_id v) (v_app v) SessionState.CREATING (Some rank))).
  { rewrite Hs1. cbn [fst]. rewrite list_lookup_alter_eq, Hv. unfold fv. simpl. by rewrite Hst. }
  unfold result_of, after in Htr.
  destruct (SessionManager.transition now sid SessionState.READY None s1) as [s2 [l'|e]]; cbn [fst snd] in *.
  - destruct Htr as (Hl' & _ & Hsk). rewrite Hs1 in Hl'. cbn [fst snd] in Hl'.
    change (skeleton s).2 with (SessionManager._sessions s) in Hl'. rewrite Ht in Hl'. injection Hl' as <-.
    split; [done|]. rewrite Hsk, Hs1. cbn [fst snd]. by rewrite list_alter_alter_eq.
  - destruct Htr as [_ Hno]. specialize (Hno l (View (v_id v) (v_app v) SessionState.CREATING (Some rank))).
    rewrite Hs1 in Hno. cbn [fst snd] in Hno. rewrite Hs1 in Hv1. discriminate (Hno Ht Hv1).
Qed.

(** [deref] reads the record behind a view. *)
Lemma deref_view l v g :
  views g !! l = Some v → ∃ r, result_of (deref l) g = Ok r ∧ after (deref l) g = g ∧ view_of r = v ∧
    records g !! l = Some r.
Proof.
  intros Hv. rewrite lookup_views in Hv. apply fmap_Some in Hv as (r & Hr & ->). exists r.
  unfold deref, on_sessions, result_of, after, SessionManager.deref. simpl. rewrite Hr. by destruct g.
Qed.

(** ** Calls inside a segment *)

Lemma wp_sessions {A B} (m : SessionManager.op A) (k : A → op B) g Φ :
  (match result_of m (sessions g) with
   | Ok a => wp (k a) (set_sessions (after m (sessions g)) g) Φ
   | Raise e => Φ (set_sessions (after m (sessions g)) g) (Raise e)
   end) → wp (on_sessions m ≫= k) g Φ.
Proof. intros Hm. by apply wp_bind. Qed.
Lemma wp_admission {A B} (m : AdmissionController.op A) (k : A → op B) g Φ :
  (match result_of m (admission g) with
   | Ok a => wp (k a) (set_admission (after m (admission g)) g) Φ
   | Raise e => Φ (set_admission (after m (admission g)) g) (Raise e)
   end) → wp (on_admission m ≫= k) g Φ.
Proof. intros Hm. by apply wp_bind. Qed.
Lemma wp_workers {A B} (m : EnvWorkerRegistry.op A) (k : A → op B) g Φ :
  (match result_of m (workers g) with
   | Ok a => wp (k a) (set_workers (after m (workers g)) g) Φ
   | Raise e => Φ (set_workers (after m (workers g)) g) (Raise e)
   end) → wp (on_workers m ≫= k) g Φ.
Proof. intros Hm. by apply wp_bind. Qed.

Lemma wp_deref {B} l v (k : SessionRecord.t → op B) g Φ :
  views g !! l = Some v → (∀ r, view_of r = v → records g !! l = Some r → wp (k r) g Φ) →
  wp (deref l ≫= k) g Φ.
Proof.
  intros Hv Hk. apply wp_bind. unfold wp at 1.
  destruct (deref_view l v g Hv) as (r & -> & -> & Hr & Hrec). by apply Hk.
Qed.

(** ** Creation *)

Section create.
Context {interp : Interpreter}.

Lemma create_failed_none now request last e vs tbl A T P g :
  books vs tbl (Messages.application_id request :: A) T P g →
  wp (create_failed now request None last e) g (λ g' o, (∃ r, o = Ok (Created r)) ∧ books vs tbl A T P g').
Proof.
  intros [B1 B2 B3]. unfold create_failed. apply wp_admission. cbn [result_of].
  split; [by eexists|]. split; [done| |done]. simpl. by apply release_session_admitted.
Qed.

(** The record of a session that is being created. *)
Definition creating (request : CreateSessionRequest) (l : nat) (vs : list view)
    (tbl : pydict SessionId nat) : Prop :=
  ∃ v, vs !! l = Some v ∧ v_state v = SessionState.CREATING ∧ tbl !! v_id v = Some l ∧
    v_app v = Messages.application_id request.

Lemma failing_quota request l vs tbl :
  creating request l vs tbl →
  apps_of vs ≡ₚ Messages.application_id request :: apps_of (alter (with_state SessionState.FAILED) l vs) ∧
  ranks_of (alter (with_state SessionState.FAILED) l vs) ≡ₚ ranks_of vs.
Proof.
  intros (v & Hv & Hst & _ & Happ).
  destruct (apps_of_alter vs l v (with_state SessionState.FAILED) Hv) as (a & -> & ->).
  destruct (ranks_of_alter vs l v (with_state SessionState.FAILED) Hv) as (r & -> & ->).
  unfold quota_of, place_of, holds_quota, bound_rank. rewrite Hst, Happ. done.
Qed.

Lemma create_failed_some now request l last e vs tbl A T P g :
  creating request l vs tbl → books vs tbl A T P g →
  wp (create_failed now request (Some l) last e) g (λ g' o,
    (∃ r, o = Ok (Created r)) ∧ books (alter (with_state SessionState.FAILED) l vs) tbl A T P g').
Proof.
  intros Hcr [B1 B2 B3]. destruct (failing_quota _ _ _ _ Hcr) as [Hq Hp].
  destruct Hcr as (v & Hv & Hst & Htbl & Happ).
  unfold create_failed. apply wp_admission. cbn [result_of].
  set (info := match last with Some _ => _ | None => _ end). set (g1 := set_admission _ g).
  assert (Hv1 : views g1 !! l = Some v) by (change (sessions g1) with (sessions g); by rewrite B1).
  apply wp_bind. apply (wp_deref l v); [done|]. intros r Hr _.
  assert (SessionRecord.state r = SessionState.CREATING) as -> by (rewrite <- Hst, <- Hr; done).
  rewrite bool_decide_true by done. apply wp_sessions.
  pose proof (transition_skeleton now (SessionRecord.session_id r) SessionState.FAILED (Some info) (sessions g1)) as Ht.
  cbv zeta in Ht. unfold SessionManager.fail.
  assert (Hid : v_id v = SessionRecord.session_id r) by (by rewrite <- Hr). rewrite Hid in Htbl.
  change (sessions g1) with (sessions g) in *. rewrite B1 in Ht. cbn [fst snd] in Ht.
  destruct (result_of _ (sessions g)) as [l'|e'].
  - destruct Ht as (Hl' & _ & Hsk). simplify_eq. split; [by eexists|]. split; [done| |].
    + simpl. apply release_session_admitted. eapply admitted_perm; [|reflexivity|exact B2].
      by rewrite Hq, <- Permutation_middle.
    + simpl. eapply placed_perm; [|exact B3]. by rewrite Hp.
  - destruct Ht as [_ Ht]. specialize (Ht l v Htbl Hv). by rewrite Hst in Ht.
Qed.

Lemma require_dispatcher_spec g :
  after _require_dispatcher g = g ∧
  result_of _require_dispatcher g = match _dispatcher g with Some d => Ok d | None => Raise no_transport end.
Proof.
  unfold _require_dispatcher, after, result_of, get_state, mbind, prog_bind.
  by destruct (_dispatcher g).
Qed.

(** One round of placement reserves a place or changes nothing. *)
Lemma place_books request l attempted last vs tbl A T P g :
  is_Some (vs !! l) → books vs tbl A T P g →
  wp (place request l attempted last) g (λ g' o, match o with
    | Ok (inl tk) => ∃ rank, tk = Creating request l rank attempted last ∧ books vs tbl A T (rank :: P) g'
    | Ok (inr _) => False
    | Raise _ => books vs tbl A T P g'
    end).
Proof.
  intros [v Hv] [B1 B2 B3]. unfold place. apply (wp_deref l v); [by rewrite B1|]. intros r Hr _.
  apply wp_get. apply wp_bind. unfold wp at 1.
  change (after (lift _) g) with g. change (result_of (lift ?x) g) with x.
  destruct (EnvWorkerRegistry.select_rank _ attempted (workers g)) as [rank|e]; [|by split].
  apply wp_workers. pose proof (acquire_placed _ rank (SessionRecord.env_spec_digest r) _ B3) as Hacq.
  destruct (result_of (EnvWorkerRegistry.acquire _ _) (workers g)) as [[]|e];
    [|split; [exact B1|exact B2|exact Hacq]].
  set (g1 := set_workers _ g) in *. apply wp_attempt.
  assert (H1 : books vs tbl A T (rank :: P) g1) by (split; [exact B1|exact B2|exact Hacq]).
  destruct (require_dispatcher_spec g1) as [-> ->]. destruct H1 as [C1 C2 C3].
  destruct (_dispatcher g1) as [d|].
  - exists rank. split; [done|]. split; [exact C1|exact C2|exact C3].
  - split; [exact C1|exact C2|]. by apply release_placed.
Qed.

(** What the placement loop leaves: the coroutine awaits a binding, or the session has
    failed. *)
Definition placing (request : CreateSessionRequest) (l : nat) (vs : list view)
    (tbl : pydict SessionId nat) (T : list (string * SessionId)) (P : list Z) (g : t)
    (o : outcome exn (task + response)) : Prop :=
  match o with
  | Ok (inl tk) => ∃ rank attempted last, tk = Creating request l rank attempted last ∧
      books vs tbl [] T (rank :: P) g
  | Ok (inr _) => books (alter (with_state SessionState.FAILED) l vs) tbl [] T P g
  | Raise _ => False
  end.

Lemma creating_lookup request l vs tbl : creating request l vs tbl → is_Some (vs !! l).
Proof. intros (v & Hv & _). by exists v. Qed.

Lemma guard_place now request l attempted last last' vs tbl T P g :
  creating request l vs tbl → books vs tbl [] T P g →
  wp (guard_create now request (Some l) last' (place request l attempted last)) g
    (placing request l vs tbl T P).
Proof.
  intros Hcr HB. unfold guard_create. apply wp_attempt.
  pose proof (place_books request l attempted last vs tbl [] T P g (creating_lookup _ _ _ _ Hcr) HB) as Hp.
  unfold wp in Hp. destruct (result_of _ g) as [[tk|x]|e]; [|done|].
  - destruct Hp as (rank & -> & Hb). by exists rank, attempted, last.
  - apply wp_bind. eapply wp_mono; [|by apply create_failed_some].
    intros g' o [(r & ->) Hb]. exact Hb.
Qed.

(** [_create_session]: the new record, if one is made, comes last. *)
Lemma create_session_books now1 now2 sid request vs tbl T P g :
  books vs tbl [] T P g →
  let v := View sid (Messages.application_id request) SessionState.CREATING None in
  wp (create_session now1 now2 sid request) g (λ g' o,
    books vs tbl [] T P g' ∧ (∀ tk, o ≠ Ok (inl tk)) ∨
    placing request (length vs) (vs ++ [v]) (<[sid := length vs]> tbl) T P g' o).
Proof.
  intros [B1 B2 B3] v. unfold create_session. apply wp_attempt.
  set (adm := AdmissionController.admit_session _ _).
  pose proof (admit_session_admitted _ _ (Messages.application_id request) (auth_token request) _ B2) as Hadm.
  fold adm in Hadm. change (result_of (on_admission adm) g) with (result_of adm (admission g)).
  set (g1 := after (on_admission adm) g). change (after adm (admission g)) with (admission g1) in Hadm.
  destruct (result_of adm (admission g)) as [[]|e]; cbn [is_ok] in Hadm.
  2:{ left. split; [split; [exact B1|exact Hadm|exact B3]|done]. }
  assert (B1' : skeleton (sessions g1) = (vs, tbl)) by exact B1.
  assert (B3' : placed ([] ++ P ++ ranks_of vs) (workers g1)) by exact B3.
  apply wp_attempt. set (mk := SessionManager.create now1 sid request None).
  pose proof (create_skeleton now1 sid request (sessions g1)) as Hmk. cbv zeta in Hmk. fold mk in Hmk.
  change (result_of (on_sessions mk) g1) with (result_of mk (sessions g1)).
  set (g2 := after (on_sessions mk) g1). change (after mk (sessions g1)) with (sessions g2) in Hmk.
  rewrite B1' in Hmk. cbn [fst snd] in Hmk.
  assert (Hadm2 : admitted (Messages.application_id request :: apps_of vs) T (admission g2)) by exact Hadm.
  destruct (result_of mk (sessions g1)) as [[l []]|e].
  - destruct Hmk as [-> Hsk]. eapply wp_mono; [|apply guard_place].
    + intros g' o H. right. exact H.
    + exists v. split; [by apply list_lookup_middle|]. split; [done|]. split; [|done].
      apply dict_lookup_insert_eq.
    + split; [exact Hsk| |].
      * eapply admitted_perm; [|reflexivity|exact Hadm2]. rewrite apps_of_app. simpl.
        by rewrite Permutation_app_comm.
      * eapply placed_perm; [|exact B3']. rewrite ranks_of_app. simpl. by rewrite app_nil_r.
  - apply wp_admission. cbn [result_of]. set (g3 := set_admission _ g2).
    assert (H3 : books vs tbl [] T P g3).
    { split; [exact Hmk| |exact B3']. by apply release_session_admitted. }
    assert (Hst : moves still (r ← deref l;
      mret (inr (Created (ROk (SessionRecord.handle r))) : task + response))) by (cut_moves; by apply reads_still).
    assert (Hy : yields (λ x, match x with inl _ => False | inr _ => True end) (r ← deref l;
      mret (inr (Created (ROk (SessionRecord.handle r))) : task + response))) by cut_yields.
    left. split; [eapply books_still; [apply Hst|exact H3]|]. intros tk Htk. by apply Hy in Htk.
  - apply wp_bind. eapply wp_mono; [|apply create_failed_none with (A := []); split; [exact Hmk|exact Hadm2|exact B3']].
    intros g' o [(r & ->) Hb]. left. by split.
Qed.

Lemma bound_quota request l rank vs tbl :
  creating request l vs tbl →
  apps_of (alter (bind_view rank) l vs) ≡ₚ apps_of vs ∧
  ranks_of (alter (bind_view rank) l vs) ≡ₚ rank :: ranks_of vs.
Proof.
  intros (v & Hv & Hst & _). destruct (apps_of_alter vs l v (bind_view rank) Hv) as (a & -> & ->).
  destruct (ranks_of_alter vs l v (bind_view rank) Hv) as (r & -> & ->).
  unfold quota_of, place_of, holds_quota, bound_rank. by rewrite Hst.
Qed.

(** [_create_session] from the worker's answer: bound, placed again, or failed. *)
Lemma binding_reply_books now1 now2 request l rank attempted last reply vs tbl T P g :
  creating request l vs tbl → books vs tbl [] T (rank :: P) g →
  wp (binding_reply now1 now2 request l rank attempted last reply) g (λ g' o,
    books (alter (bind_view rank) l vs) tbl [] T P g' ∧ (∃ x, o = Ok (inr x)) ∨
    placing request l vs tbl T P g' o).
Proof.
  intros Hcr HB. unfold binding_reply. destruct (binding_of rank reply) as [token|e].
  - unfold guard_create. apply wp_attempt. destruct HB as [B1 B2 B3].
    destruct (bound_quota _ _ rank _ _ Hcr) as [Hq Hp]. destruct Hcr as (v & Hv & Hst & Htbl & Happ).
    match goal with |- wp (match result_of ?m g with _ => _ end) _ _ => assert (Hm : wp m g (λ g' o,
      (∃ h, o = Ok (inr (Created (ROk h)))) ∧ books (alter (bind_view rank) l vs) tbl [] T P g')) end.
    { apply (wp_deref l v); [by rewrite B1|]. intros r Hr _. apply wp_sessions.
      assert (Hid : v_id v = SessionRecord.session_id r) by (by rewrite <- Hr). rewrite Hid in Htbl.
      destruct (commit_skeleton now1 (SessionRecord.session_id r) rank token (sessions g) l v) as [Hok Hsk];
        [by rewrite B1..|done|]. rewrite Hok. rewrite B1 in Hsk. cbn [fst snd] in Hsk.
      set (g1 := set_sessions _ g). change (after _ (sessions g)) with (sessions g1) in Hsk.
      apply (wp_deref l (bind_view rank v)); [by rewrite Hsk; cbn [fst]; rewrite list_lookup_alter_eq, Hv|].
      intros r' _ _. split; [by eexists|]. split; [exact Hsk| |].
      - eapply admitted_perm; [|reflexivity|exact B2]. by rewrite Hq.
      - eapply placed_perm; [|exact B3]. rewrite Hp. by rewrite <- Permutation_middle. }
    unfold wp in Hm. destruct Hm as [(h & Hh) Hb]. rewrite Hh. left. split; [exact Hb|by eexists].
  - apply wp_workers. cbn [result_of]. set (g1 := set_workers _ g).
    assert (H1 : books vs tbl [] T P g1).
    { destruct HB as [B1 B2 B3]. split; [exact B1|exact B2|]. by apply release_placed. }
    destruct (is_resource_exhausted (normalize e)).
    + apply wp_workers. cbn [result_of]. set (g2 := set_workers _ g1).
      eapply wp_mono; [|apply guard_place; [done|]].
      * intros g' o H. right. exact H.
      * destruct H1 as [C1 C2 C3]. split; [exact C1|exact C2|]. by apply mark_cannot_placed.
    + apply wp_bind. eapply wp_mono; [|by apply create_failed_some].
      intros g' o [(x & ->) Hb]. right. exact Hb.
Qed.

(** ** Closing *)

(** What closing one record may do to the books; once it has closed the record, they
    balance if it had not failed and nothing was in flight on it. *)
Definition closed_at (l : nat) (vs : list view) (tbl : pydict SessionId nat)
    (T : list (string * SessionId)) (P : list Z) (g : t) : Prop :=
  books vs tbl [] T P g ∨
  ∃ v, vs !! l = Some v ∧ v_state v ≠ SessionState.CLOSED ∧ v_state v ≠ SessionState.CREATING ∧
    skeleton (sessions g) = (alter (with_state SessionState.CLOSED) l vs, tbl) ∧
    (v_state v ≠ SessionState.FAILED → (∀ x, x ∈ T → x.2 ≠ v_id v) →
     books (alter (with_state SessionState.CLOSED) l vs) tbl [] T P g).

Lemma close_finish_books now l sid vs tbl T P g v :
  vs !! l = Some v → v_id v = sid → (∀ l', tbl !! sid = Some l' → l' = l) → books vs tbl [] T P g →
  wp (close_finish now l sid) g (λ g' o, (∃ x, o = Ok (Closed sid x)) ∧ closed_at l vs tbl T P g').
Proof.
  intros Hv Hid Huniq [B1 B2 B3]. unfold close_finish. apply wp_attempt.
  pose proof (transition_skeleton now sid SessionState.CLOSED None (sessions g)) as Htr. cbv zeta in Htr.
  set (m := SessionManager.finish_close now sid).
  change (SessionManager.transition now sid SessionState.CLOSED None) with m in Htr.
  change (result_of (on_sessions m) g) with (result_of m (sessions g)).
  set (g1 := after (on_sessions m) g). change (after m (sessions g)) with (sessions g1) in Htr.
  rewrite B1 in Htr. cbn [fst snd] in Htr.
  destruct (result_of m (sessions g)) as [l'|e].
  2:{ split; [by eexists|]. left. destruct Htr as [Hs _].
      split; [change (skeleton (sessions g1) = (vs, tbl)); by rewrite Hs|exact B2|exact B3]. }
  destruct Htr as (Hl' & (v' & Hv' & Hedge) & Hsk). assert (l' = l) as -> by auto. simplify_eq.
  assert (Hne : v_state v ≠ SessionState.CLOSED ∧ v_state v ≠ SessionState.CREATING ∧ v_state v ≠ SessionState.READY).
  { destruct (v_state v); try done; by vm_compute in Hedge. }
  destruct Hne as (Hn1 & Hn2 & Hn3).
  apply (wp_deref l (with_state SessionState.CLOSED v)).
  { rewrite Hsk. cbn [fst]. by rewrite list_lookup_alter_eq, Hv. }
  intros r Hr _.
  assert (Happ : SessionRecord.application_id r = v_app v) by (change (v_app (view_of r) = v_app v); by rewrite Hr).
  assert (Hrk : SessionRecord.worker_rank r = v_rank v) by (change (v_rank (view_of r) = v_rank v); by rewrite Hr).
  rewrite Happ, Hrk.
  destruct (apps_of_alter vs l v (with_state SessionState.CLOSED) Hv) as (a & Ha1 & Ha2).
  destruct (ranks_of_alter vs l v (with_state SessionState.CLOSED) Hv) as (p & Hp1 & Hp2).
  change (quota_of (with_state SessionState.CLOSED v)) with (@nil string) in Ha2.
  change (place_of (with_state SessionState.CLOSED v)) with (@nil Z) in Hp2.
  assert (Hfin : ∀ g2, sessions g2 = sessions g1 → admission g2 = admission g1 →
    (v_state v ≠ SessionState.FAILED → placed (P ++ ranks_of (alter (with_state SessionState.CLOSED) l vs)) (workers g2)) →
    wp (on_admission (AdmissionController.forget_session (v_id v)) ≫= λ _,
        on_admission (AdmissionController.release_session (v_app v)) ≫= λ _,
        mret (Closed (v_id v) (ROk tt))) g2
      (λ g' o, (∃ x, o = Ok (Closed (v_id v) x)) ∧ closed_at l vs tbl T P g')).
  { intros g2 Es Ea Hpl. apply wp_admission. cbn [result_of]. apply wp_admission. cbn [result_of].
    split; [by eexists|]. right. exists v. split; [done|]. split; [done|]. split; [done|].
    assert (Hsk2 : skeleton (sessions g2) = (alter (with_state SessionState.CLOSED) l vs, tbl)) by (by rewrite Es).
    split; [exact Hsk2|]. intros Hnf Hnt. split; [exact Hsk2| |exact (Hpl Hnf)].
    simpl. apply release_session_admitted. apply forget_session_admitted; [done|]. rewrite Ea.
    eapply admitted_perm; [|reflexivity|exact B2]. simpl. rewrite Ha1, Ha2. unfold quota_of, holds_quota.
    by destruct (v_state v). }
  assert (Hpl : placed (P ++ place_of v ++ p) (workers g1)).
  { eapply placed_perm; [|exact B3]. by rewrite Hp1. }
  destruct (v_rank v) as [rank|] eqn:Hvr.
  - apply wp_workers. cbn [result_of]. apply Hfin; [done|done|]. intros Hnf. simpl.
    apply release_placed. eapply placed_perm; [|exact Hpl]. rewrite Hp2. unfold place_of, bound_rank.
    rewrite Hvr. destruct (v_state v); try done; simpl; by rewrite <- Permutation_middle.
  - apply wp_bind. apply Hfin; [done|done|]. intros Hnf. eapply placed_perm; [|exact Hpl]. rewrite Hp2.
    assert (place_of v = []) as ->; [|done]. unfold place_of, bound_rank. rewrite Hvr.
    by destruct (member (v_state v) _).
Qed.

(** A READY record on its way to CLOSED still holds its quota and its place. *)
Lemma closing_books l v vs tbl T P g g' :
  vs !! l = Some v → v_state v = SessionState.READY → books vs tbl [] T P g →
  skeleton (sessions g') = (alter (with_state SessionState.CLOSING) l vs, tbl) →
  admission g' = admission g → workers g' = workers g →
  books (alter (with_state SessionState.CLOSING) l vs) tbl [] T P g'.
Proof.
  intros Hv Hst [B1 B2 B3] Hsk Ha Hw.
  destruct (same_quota vs l v (with_state SessionState.CLOSING) Hv) as [Hq Hp].
  { unfold quota_of, holds_quota. simpl. by rewrite Hst. }
  { unfold place_of, bound_rank. simpl. by rewrite Hst. }
  split; [done| |]; rewrite ?Ha, ?Hw.
  - eapply admitted_perm; [|reflexivity|exact B2]. by rewrite Hq.
  - eapply placed_perm; [|exact B3]. by rewrite Hp.
Qed.

Definition closing_at (l : nat) (vs : list view) (tbl : pydict SessionId nat)
    (T : list (string * SessionId)) (P : list Z) (g : t) : Prop :=
  closed_at l vs tbl T P g ∨
  ∃ v, vs !! l = Some v ∧ v_state v = SessionState.READY ∧
    books (alter (with_state SessionState.CLOSING) l vs) tbl [] T P g.

Lemma closing_then_closed l v vs tbl T P g :
  vs !! l = Some v → v_state v = SessionState.READY →
  closed_at l (alter (with_state SessionState.CLOSING) l vs) tbl T P g → closing_at l vs tbl T P g.
Proof.
  intros Hv Hst [HB|(v' & Hv' & Hn1 & Hn2 & Hsk & HB)]; [right; eauto|].
  left. right. exists v. rewrite list_lookup_alter_eq, Hv in Hv'. injection Hv' as <-.
  rewrite list_alter_alter_eq in Hsk, HB.
  change (with_state SessionState.CLOSED ∘ with_state SessionState.CLOSING) with (with_state SessionState.CLOSED) in *.
  split; [done|]. split; [by rewrite Hst|]. split; [by rewrite Hst|]. split; [exact Hsk|].
  intros Hf Hnt. by apply HB.
Qed.

Lemma close_now now l sid vs tbl T P g v :
  vs !! l = Some v → v_id v = sid → (∀ l', tbl !! sid = Some l' → l' = l) → books vs tbl [] T P g →
  wp (x ← close_finish now l sid; mret (inr x : task + response)) g (λ g' o,
    closed_at l vs tbl T P g' ∧ ∀ tk, o ≠ Ok (inl tk)).
Proof.
  intros. apply wp_bind. eapply wp_mono; [|by eapply close_finish_books].
  intros g' o [(x & ->) Hc]. by split.
Qed.

(** [_close_session], up to its await or its end. *)
Lemma close_session_books now1 now2 sid k vs tbl T P g :
  (∀ l, tbl !! sid = Some l → ∃ v, vs !! l = Some v ∧ v_id v = sid) → books vs tbl [] T P g →
  wp (close_session now1 now2 sid k) g (λ g' o, (books vs tbl [] T P g' ∧ ∀ tk, o ≠ Ok (inl tk)) ∨
    ∃ l v, vs !! l = Some v ∧ v_id v = sid ∧ tbl !! sid = Some l ∧ closing_at l vs tbl T P g' ∧
    match o with
    | Ok (inl tk) => (∃ best, tk = Releasing l sid best k) ∧
        (v_state v = SessionState.READY → books (alter (with_state SessionState.CLOSING) l vs) tbl [] T P g') ∧
        v_state v ∈ [SessionState.READY; SessionState.FAILED; SessionState.LOST]
    | _ => True
    end).
Proof.
  intros Htab HB. pose proof HB as [B1 B2 B3]. unfold close_session. apply wp_attempt.
  assert (Hget : result_of (on_sessions (SessionManager.get sid)) g =
      match tbl !! sid with Some l => Ok l | None => Raise (SessionManager.unknown_session sid) end ∧
    after (on_sessions (SessionManager.get sid)) g = g).
  { unfold on_sessions, SessionManager.get, result_of, after. simpl.
    assert (SessionManager._sessions (sessions g) = tbl) as -> by (change (table g = tbl); by rewrite B1).
    destruct (tbl !! sid); by destruct g. }
  destruct Hget as [-> ->]. destruct (tbl !! sid) as [l|] eqn:Hl; [|by left].
  destruct (Htab l eq_refl) as (v & Hv & Hid).
  apply (wp_deref l v); [by rewrite B1|]. intros r Hr _.
  assert (Hst : SessionRecord.state r = v_state v) by (change (v_state (view_of r) = v_state v); by rewrite Hr).
  rewrite Hst. apply wp_get.
  destruct (bool_decide_reflect (v_state v = SessionState.CLOSED)) as [|Hnc]; [by left|].
  assert (Hun : ∀ l', tbl !! sid = Some l' → l' = l) by congruence.
  destruct (member (v_state v) [SessionState.FAILED; SessionState.LOST]) eqn:Hfl.
  - right. exists l, v. split; [done|]. split; [done|]. split; [done|].
    destruct (lost_target r g) as [rank|].
    + split; [left; left; split; [exact B1|exact B2|exact B3]|]. split; [by eexists|].
      unfold member in Hfl. to_prop. split; [intros Hr'; rewrite Hr' in Hfl|]; set_solver.
    + destruct (close_now now2 l sid vs tbl T P g v Hv Hid Hun HB) as [Hc Hn]. split; [by left|].
      destruct (result_of _ g) as [[tk|]|]; try done. by destruct (Hn tk).
  - apply wp_attempt. set (m := SessionManager.begin_close now1 sid).
    pose proof (transition_skeleton now1 sid SessionState.CLOSING None (sessions g)) as Htr. cbv zeta in Htr.
    change (SessionManager.transition now1 sid SessionState.CLOSING None) with m in Htr.
    change (result_of (on_sessions m) g) with (result_of m (sessions g)).
    set (g1 := after (on_sessions m) g). change (after m (sessions g)) with (sessions g1) in Htr.
    rewrite B1 in Htr. cbn [fst snd] in Htr.
    destruct (result_of m (sessions g)) as [l'|e].
    2:{ left. split; [|done]. destruct Htr as [Hs _].
        split; [change (skeleton (sessions g1) = (vs, tbl)); by rewrite Hs|exact B2|exact B3]. }
    destruct Htr as (Hl' & (v' & Hv' & Hedge) & Hsk). assert (l' = l) as -> by auto.
    rewrite Hv in Hv'. injection Hv' as <-. right. exists l, v.
    assert (Hready : v_state v = SessionState.READY) by (destruct (v_state v); by vm_compute in Hedge).
    assert (H1 : books (alter (with_state SessionState.CLOSING) l vs) tbl [] T P g1).
    { by eapply (closing_books l v _ _ _ _ g). }
    split; [done|]. split; [done|]. split; [done|].
    assert (Hend : let m := x ← close_finish now2 l sid; mret (inr x : task + response) in
      closing_at l vs tbl T P (after m g1) ∧ ∀ tk, result_of m g1 ≠ Ok (inl tk)).
    { destruct (close_now now2 l sid (alter (with_state SessionState.CLOSING) l vs) tbl T P g1
        (with_state SessionState.CLOSING v)) as [Hc Hn];
        [by rewrite list_lookup_alter_eq, Hv|done|done|exact H1|]. split; [|exact Hn].
      by eapply closing_then_closed. }
    cbv zeta in Hend. destruct Hend as [Hc Hn].
    destruct (_dispatcher g) as [d|]; [destruct (SessionRecord.worker_rank r) as [rank|]|].
    2,3: split; [exact Hc|]; destruct (result_of _ g1) as [[tk|]|]; try done; by destruct (Hn tk).
    split; [right; exists v; split; [done|]; split; [done|]; destruct H1 as [C1 C2 C3]; split; [exact C1|exact C2|exact C3]|].
    split; [by eexists|]. split; [intros _; destruct H1 as [C1 C2 C3]; split; [exact C1|exact C2|exact C3]|]. rewrite Hready. set_solver.
Qed.

(** ** Calls *)

Definition ticket_of (c : call) : string * SessionId := (c_application c, c_session c).

(** A call that ends gives its ticket back. *)
Lemma conclude_books c holds (m : op (task + Result value)) vs tbl T P g :
  moves still m → books vs tbl [] (ticket_of c :: T) P g →
  wp (conclude c holds m) g (λ g' o, match o with
    | Ok (inl tk) => result_of m g = Ok (inl tk) ∧ books vs tbl [] (ticket_of c :: T) P g'
    | Ok (inr _) => books vs tbl [] T P g'
    | Raise _ => False
    end).
Proof.
  intros Hm HB. assert (H1 := books_still _ _ _ _ _ _ _ (Hm g) HB). unfold conclude. apply wp_attempt.
  assert (Hleave : ∀ x, wp (leave c holds x) (after m g) (λ g' o, match o with
    | Ok (inr _) => books vs tbl [] T P g' | _ => False end)).
  { intros x. destruct H1 as [C1 C2 C3]. unfold leave. destruct holds; apply wp_bind;
      (apply wp_admission; cbn [result_of]; split; [exact C1| |exact C3];
       by apply complete_operation_admitted). }
  destruct (result_of m g) as [[tk|x]|e]; [by split| |];
    (eapply wp_mono; [|apply Hleave]); by intros g' [[]|].
Qed.

Lemma execute_call now c :
  yields (λ x, match x with inl tk => task_call tk = Some c | inr _ => True end) (_execute now c).
Proof. unfold _execute. cut_yields. Qed.

(** [_dispatch_one] takes a ticket, and keeps it while it is suspended. *)
Lemma dispatch_books now1 now2 now3 sid o payload rid deadline eventual vs tbl T P g :
  books vs tbl [] T P g →
  wp (_dispatch_one now1 now2 now3 sid o payload rid deadline eventual) g (λ g' res, match res with
    | Ok (inl tk) => ∃ c, task_call tk = Some c ∧ books vs tbl [] (ticket_of c :: T) P g'
    | _ => books vs tbl [] T P g'
    end).
Proof.
  intros HB. unfold _dispatch_one. apply wp_attempt.
  assert (Hf : moves still (on_sessions (_require_session sid o))).
  { apply reads_still. intros s. unfold _require_session, SessionManager.require_episode, SessionManager.require_ready,
      SessionManager.get, SessionManager.deref, raise, after, mbind, prog_bind, mret, prog_ret.
    repeat case_match; simplify_eq/=; congruence. }
  assert (H1 := books_still _ _ _ _ _ _ _ (Hf g) HB). set (g1 := after _ g) in *.
  destruct (result_of _ g) as [l|]; [|done].
  apply wp_bind. unfold wp at 1. assert (Hd : moves still (deref l)) by (cut_moves; still_call).
  assert (H2 := books_still _ _ _ _ _ _ _ (Hd g1) H1). set (g2 := after _ g1) in *.
  destruct (result_of (deref l) g1) as [r|]; [|done]. apply wp_attempt.
  set (adm := AdmissionController.admit_operation _ _ _ _ _ _).
  destruct H2 as [C1 C2 C3].
  pose proof (admit_operation_admitted _ _ now1 (SessionRecord.application_id r) sid deadline 0 None _ C2) as Ha.
  fold adm in Ha. change (result_of (on_admission adm) g2) with (result_of adm (admission g2)).
  set (g3 := after (on_admission adm) g2). change (after adm (admission g2)) with (admission g3) in Ha.
  destruct (result_of adm (admission g2)) as [[]|e]; cbn [is_ok] in Ha; [|by split].
  set (c := Call _ _ _ _ _ _ _ _).
  assert (H3 : books vs tbl [] (ticket_of c :: T) P g3) by (split; [exact C1|exact Ha|exact C3]).
  eapply wp_mono; [|apply conclude_books; [solve_still|exact H3]].
  intros g' [[tk|x]|e] H; [|done..]. destruct H as [Htk Hb]. exists c. split; [|done].
  revert Htk. unfold result_of at 1, mbind at 1, prog_bind at 1.
  destruct (on_operations _ g3) as [g4 [[o' b]|]]; [|done]. simpl. destruct b; [|done]. simpl.
  destruct (takes_lock o eventual); [by intros [= <-]|]. intros Hx. by apply execute_call in Hx.
Qed.

Lemma lock_books now c vs tbl T P g :
  books vs tbl [] (ticket_of c :: T) P g →
  wp (lock_granted now c) g (λ g' o, match o with
    | Ok (inl tk) => task_call tk = Some c ∧ books vs tbl [] (ticket_of c :: T) P g'
    | Ok (inr _) => books vs tbl [] T P g'
    | Raise _ => False
    end).
Proof.
  intros HB. unfold lock_granted. apply wp_bind. unfold wp at 1. cbn [result_of].
  eapply wp_mono; [|apply conclude_books; [solve_still|]].
  - intros g' [[tk|x]|e] H; [|done..]. destruct H as [Htk Hb]. split; [|done]. by apply execute_call in Htk.
  - eapply books_still; [|exact HB]. by split.
Qed.

Lemma sent_books now c result vs tbl T P g :
  books vs tbl [] (ticket_of c :: T) P g →
  wp (sent_result now c result) g (λ g' o, books vs tbl [] T P g' ∧ ∃ x, o = Ok (inr x)).
Proof.
  intros HB. unfold sent_result.
  assert (Hy : yields (λ x, match x with inl _ => False | inr _ => True end)
    ((if mutating c then on_sessions (SessionManager.end_operation (c_record c) (c_request c))
      else mret tt) ≫= λ _, x ← _finish now (c_record c) (c_request c) result;
      mret (inr x : task + Result value))) by cut_yields.
  eapply wp_mono; [|apply conclude_books; [solve_still|exact HB]].
  intros g' [[tk|x]|e] H; [|by eauto|done]. destruct H as [H _]. by apply Hy in H.
Qed.

Lemma set_permits_still rank n : moves still (set_permits rank n).
Proof. solve_still. Qed.

Lemma reply_books now c rank result vs tbl T P g :
  books vs tbl [] (ticket_of c :: T) P g →
  wp (command_reply now c rank result) g (λ g' o, books vs tbl [] T P g' ∧ ∃ x, o = Ok (inr x)).
Proof.
  intros HB. unfold command_reply. apply wp_get. apply wp_bind. unfold wp at 1. cbn [result_of].
  apply sent_books. eapply books_still; [apply set_permits_still|exact HB].
Qed.

End create.
End held.
End GatewayAccounting.
