(* ===== verification/GatewayBalance.v ===== *)
(** * The Gateway's accounts balance

    The invariant behind [accounting_exact]: what admission control and the worker
    registry count is what the session records and the suspended coroutines hold.  Every
    event keeps it, provided it closes no session that had failed and none with an
    operation in flight. *)

From S2P Require Import Prelude PyDict Sorting Codec Api Messages Operations Sessions GatewayAdmission Workers Gateway GatewayOrder GatewayAccounting.

Open Scope string_scope.
Open Scope list_scope.
Open Scope Z_scope.

Module GatewayBalance.
Import RuntimeGateway GatewayAccounting.

Notation views g := ((skeleton (RuntimeGateway.sessions g)).1).
Notation table g := ((skeleton (RuntimeGateway.sessions g)).2).

(** ** What the suspended coroutines hold *)

Definition task_ticket (tk : task) : option (string * SessionId) := ticket_of <$> task_call tk.
Definition task_place (tk : task) : option Z :=
  match tk with Creating _ _ rank _ _ => Some rank | _ => None end.
Definition task_making (tk : task) : option nat :=
  match tk with Creating _ l _ _ _ => Some l | _ => None end.

(** The record a coroutine is about is still the one it took. *)
Definition waits (vs : list view) (tbl : pydict SessionId nat) (tk : task) : Prop :=
  match tk with
  | Creating request l _ _ _ => creating request l vs tbl
  | Releasing l sid _ _ => ∃ v, vs !! l = Some v ∧ v_id v = sid
  | _ => True
  end.

Record structure (vs : list view) (tbl : pydict SessionId nat) (tks : list task) : Prop := {
  str_ids : NoDup (v_id <$> vs);
  str_dict : dict_wf tbl;
  str_points sid l : tbl !! sid = Some l → ∃ v, vs !! l = Some v ∧ v_id v = sid;
  str_waits : Forall (waits vs tbl) tks;
  str_making : NoDup (omap task_making tks);
}.

Lemma structure_perm vs tbl tks tks' : tks ≡ₚ tks' → structure vs tbl tks → structure vs tbl tks'.
Proof. intros Hp [H1 H2 H3 H4 H5]. split; try done; by rewrite <- Hp. Qed.

Lemma structure_tail vs tbl tk tks : structure vs tbl (tk :: tks) →
  waits vs tbl tk ∧ structure vs tbl tks ∧ ∀ l, task_making tk = Some l → l ∉ omap task_making tks.
Proof.
  intros [H1 H2 H3 H4 H5]. inversion_clear H4 as [|?? Hw Hws]. csimpl in H5.
  split; [done|]. split; [split; try done|].
  - destruct (task_making tk); [|done]. by inversion H5.
  - intros l E. rewrite E in H5. by inversion H5.
Qed.

Lemma structure_cons vs tbl tk tks :
  waits vs tbl tk → (∀ l, task_making tk = Some l → l ∉ omap task_making tks) →
  structure vs tbl tks → structure vs tbl (tk :: tks).
Proof.
  intros Hw Hl [H1 H2 H3 H4 H5]. split; try done; [by constructor|]. csimpl.
  destruct (task_making tk) as [l|]; [|done]. constructor; auto.
Qed.

(** A record that no coroutine is creating may change its state. *)
Lemma alter_ids f l (vs : list view) : (∀ v, v_id (f v) = v_id v) → v_id <$> alter f l vs = v_id <$> vs.
Proof.
  intros Hf. apply list_eq. intros i. rewrite !list_lookup_fmap. destruct (decide (i = l)) as [->|Hne].
  - rewrite list_lookup_alter_eq. destruct (vs !! l); simpl; by rewrite ?Hf.
  - by rewrite list_lookup_alter_ne.
Qed.

Lemma alter_points f l (vs : list view) i sid :
  (∀ v, v_id (f v) = v_id v) → (∃ v, vs !! i = Some v ∧ v_id v = sid) →
  ∃ v, alter f l vs !! i = Some v ∧ v_id v = sid.
Proof.
  intros Hf (v & Hv & Hid). destruct (decide (i = l)) as [->|Hne].
  - exists (f v). rewrite list_lookup_alter_eq, Hv, Hf. done.
  - exists v. by rewrite list_lookup_alter_ne.
Qed.

Lemma waits_alter f l vs tbl tk :
  (∀ v, v_id (f v) = v_id v) → task_making tk ≠ Some l → waits vs tbl tk → waits (alter f l vs) tbl tk.
Proof.
  intros Hf Hl. destruct tk; try done; simpl in *.
  - intros (v & Hv & H). exists v. rewrite list_lookup_alter_ne by congruence. by split.
  - by apply alter_points.
Qed.

Lemma structure_alter f l vs tbl tks :
  (∀ v, v_id (f v) = v_id v) → l ∉ omap task_making tks →
  structure vs tbl tks → structure (alter f l vs) tbl tks.
Proof.
  intros Hf Hl [H1 H2 H3 H4 H5]. split; try done.
  - by rewrite alter_ids.
  - intros sid l' Hs. apply alter_points; auto.
  - rewrite Forall_forall in *. intros tk Htk. apply waits_alter; auto.
    intros Hm. apply Hl, list_elem_of_omap. eauto.
Qed.

Lemma not_making l v vs tbl tks :
  structure vs tbl tks → vs !! l = Some v → v_state v ≠ SessionState.CREATING → l ∉ omap task_making tks.
Proof.
  intros Hs Hv Hst (tk & Htk & Hm)%list_elem_of_omap.
  pose proof (proj1 (Forall_forall _ _) (str_waits _ _ _ Hs) tk Htk) as Hw.
  destruct tk; simplify_eq/=. destruct Hw as (v' & ? & ? & _). by simplify_eq.
Qed.

(** A new session has a new identifier and a new record. *)
Lemma structure_create vs tbl tks v :
  v_id v ∉ v_id <$> vs → structure vs tbl tks →
  structure (vs ++ [v]) (<[v_id v := length vs]> tbl) tks ∧ length vs ∉ omap task_making tks.
Proof.
  intros Hn [H1 H2 H3 H4 H5].
  assert (Hlt : ∀ tk l, tk ∈ tks → task_making tk = Some l → (l < length vs)%nat).
  { intros tk l Htk Hm. pose proof (proj1 (Forall_forall _ _) H4 tk Htk) as Hw.
    destruct tk; simplify_eq/=. destruct Hw as (v' & Hv' & _). by eapply lookup_lt_Some. }
  assert (Hne : ∀ l v', vs !! l = Some v' → v_id v' ≠ v_id v).
  { intros l v' Hv' He. apply Hn. rewrite <- He. by eapply list_elem_of_lookup_2, list_lookup_fmap_Some_2. }
  split; [split|]; try done.
  - rewrite fmap_app. apply NoDup_app. split; [done|]. split; [|apply NoDup_singleton].
    intros x Hx ->%list_elem_of_singleton. by apply Hn.
  - by apply dict_wf_insert.
  - intros sid l. rewrite dict_lookup_insert. case_decide as He.
    + intros [= <-]. exists v. by rewrite list_lookup_middle.
    + intros (v' & Hv' & Hid)%H3. exists v'. by rewrite (lookup_app_l_Some _ _ _ _ Hv').
  - rewrite Forall_forall in *. intros tk Htk. specialize (H4 tk Htk). destruct tk; try done; simpl in *.
    + destruct H4 as (v' & Hv' & Hst & Ht & Happ). exists v'. rewrite (lookup_app_l_Some _ _ _ _ Hv').
      split; [done|]. split; [done|]. split; [|done]. rewrite dict_lookup_insert_ne; [done|]. by eapply Hne.
    + destruct H4 as (v' & Hv' & Hid). exists v'. by rewrite (lookup_app_l_Some _ _ _ _ Hv').
  - intros (tk & Htk & Hm)%list_elem_of_omap. specialize (Hlt _ _ Htk Hm). lia.
Qed.

(** ** The invariant *)

Section balance.
Context {interp : Interpreter} (config : AdmissionConfig) (timeout : Z).
Notation books := (GatewayAccounting.books config timeout).
Notation tickets tks := (omap task_ticket tks).
Notation places tks := (omap task_place tks).

Definition accounts (g : t) (tks : list task) : Prop :=
  ∃ vs tbl, books vs tbl [] (tickets tks) (places tks) g ∧ structure vs tbl tks.

Lemma books_perm vs tbl A T T' P P' g :
  T ≡ₚ T' → P ≡ₚ P' → books vs tbl A T P g → books vs tbl A T' P' g.
Proof.
  intros HT HP [B1 B2 B3]. split; [done|by eapply admitted_perm|]. eapply placed_perm; [|exact B3]. by rewrite HP.
Qed.

Lemma accounts_perm g tks tks' : tks ≡ₚ tks' → accounts g tks → accounts g tks'.
Proof.
  intros Hp (vs & tbl & HB & Hs). exists vs, tbl. split; [|by eapply structure_perm].
  eapply books_perm; [..|exact HB]; by rewrite Hp.
Qed.

Lemma accounts_still g g' tks : still g g' → accounts g tks → accounts g' tks.
Proof. intros Hst (vs & tbl & HB & Hs). exists vs, tbl. split; [by eapply books_still|done]. Qed.

(** A coroutine that holds nothing. *)
Definition idle (tk : task) : Prop :=
  task_call tk = None ∧ match tk with Creating _ _ _ _ _ | Releasing _ _ _ _ => False | _ => True end.

Lemma accounts_idle g tk tks : idle tk → accounts g (tk :: tks) ↔ accounts g tks.
Proof.
  intros [Hc Hi]. assert (He : task_ticket tk = None ∧ task_place tk = None ∧ task_making tk = None).
  { unfold task_ticket. rewrite Hc. by destruct tk. }
  destruct He as (E1 & E2 & E3). unfold accounts.
  split; intros (vs & tbl & HB & Hs); exists vs, tbl; csimpl in *; rewrite ?E1, ?E2 in *;
    (split; [exact HB|]).
  - by apply structure_tail in Hs as (_ & ? & _).
  - apply structure_cons; [by destruct tk|by rewrite E3|done].
Qed.

(** What a segment leaves of the invariant, the other coroutines being [tks]. *)
Definition leaves (tks : list task) (g : t) (o : outcome exn (task + response)) : Prop :=
  match o with Ok (inl tk) => accounts g (tk :: tks) | _ => accounts g tks end.

Lemma spawn_accounts m s :
  wp m (gw s) (leaves (tasks s)) → accounts (gw (spawn m s)) (tasks (spawn m s)).
Proof.
  unfold wp, leaves, after, result_of, spawn. destruct (m (gw s)) as [g' [[tk|x]|e]]; simpl; [|done..].
  apply accounts_perm. by rewrite Permutation_app_comm.
Qed.

Lemma resume_accounts i k m s tk :
  tasks s !! i = Some tk → wp m (gw s) (leaves (delete i (tasks s))) →
  accounts (gw (resume i k m s)) (tasks (resume i k m s)).
Proof.
  intros Hi. unfold wp, leaves, after, result_of, resume.
  assert (Hend : ∀ g', accounts g' (delete i (tasks s)) →
    accounts g' (match k with Some rest => <[i := Reaping rest]> (tasks s) | None => delete i (tasks s) end)).
  { intros g' Ha. destruct k as [rest|]; [|done]. eapply accounts_perm.
    - symmetry. by apply (replaced_perm _ _ _ (Reaping rest) Hi).
    - by apply accounts_idle. }
  destruct (m (gw s)) as [g' [[tk'|x]|e]]; simpl; [|by apply Hend..].
  apply accounts_perm. symmetry. by eapply replaced_perm.
Qed.

Lemma silently_accounts {A} (m : op A) s :
  moves still m → accounts (gw s) (tasks s) → accounts (gw (silently m s)) (tasks (silently m s)).
Proof. intros Hm. apply accounts_still, Hm. Qed.

(** Segments that touch no account. *)
Lemma still_leaves m g tks :
  moves still m → yields (λ x, match x with inl tk => idle tk | inr _ => True end) m →
  accounts g tks → wp m g (leaves tks).
Proof.
  intros Hm Hy Ha. unfold wp, leaves. pose proof (accounts_still _ _ _ (Hm g) Ha) as Ha'.
  destruct (result_of m g) as [[tk|x]|e] eqn:E; [|done..]. apply accounts_idle; [exact (Hy g _ E)|done].
Qed.

(** ** Creation *)

Lemma placing_leaves request l vs tbl tks g o :
  structure vs tbl tks → creating request l vs tbl → l ∉ omap task_making tks →
  placing config timeout request l vs tbl (tickets tks) (places tks) g o → leaves tks g o.
Proof.
  intros Hs Hcr Hl. unfold placing, leaves. destruct o as [[tk|x]|e]; [|intros HB|done].
  - intros (rank & attempted & last & -> & HB). exists vs, tbl. split; [exact HB|].
    apply structure_cons; [done| |done]. by intros l' [= <-].
  - exists (alter (with_state SessionState.FAILED) l vs), tbl. split; [exact HB|]. by apply structure_alter.
Qed.

Lemma create_leaves now1 now2 sid request g tks :
  accounts g tks → sid ∉ v_id <$> views g →
  wp (create_session now1 now2 sid request) g (leaves tks).
Proof.
  intros (vs & tbl & HB & Hs) Hn. rewrite (books_views _ _ _ _ _ _ _ _ HB) in Hn. cbn [fst] in Hn.
  eapply wp_mono; [|by apply create_session_books].
  intros g' o [[HB' Ho]|Hp].
  - unfold leaves. destruct o as [[tk|x]|e]; [by destruct (Ho tk)|by exists vs, tbl..].
  - set (v := View sid _ _ _) in Hp.
    destruct (structure_create vs tbl tks v) as [Hs' Hl]; [done..|].
    eapply placing_leaves; [exact Hs'| |exact Hl|exact Hp].
    exists v. rewrite list_lookup_middle by done. repeat split. apply dict_lookup_insert_eq.
Qed.

Lemma binding_leaves now1 now2 request l rank attempted last reply g tks :
  accounts g (Creating request l rank attempted last :: tks) →
  wp (binding_reply now1 now2 request l rank attempted last reply) g (leaves tks).
Proof.
  intros (vs & tbl & HB & Hs). apply structure_tail in Hs as (Hw & Hs & Hl). specialize (Hl l eq_refl).
  eapply wp_mono; [|eapply binding_reply_books; [exact Hw|exact HB]].
  intros g' o [[HB' (x & ->)]|Hp]; [|by eapply placing_leaves].
  exists (alter (bind_view rank) l vs), tbl. split; [exact HB'|]. by apply structure_alter.
Qed.

(** ** Operations *)

Lemma call_leaves tk c vs tbl tks g :
  task_call tk = Some c → books vs tbl [] (ticket_of c :: tickets tks) (places tks) g →
  structure vs tbl tks → accounts g (tk :: tks).
Proof.
  intros Hc HB Hs. assert (He : task_ticket tk = Some (ticket_of c) ∧ task_place tk = None ∧ task_making tk = None).
  { unfold task_ticket. rewrite Hc. by destruct tk. }
  destruct He as (E1 & E2 & E3). exists vs, tbl. csimpl. rewrite E1, E2. split; [exact HB|].
  apply structure_cons; [by destruct tk|by rewrite E3|done].
Qed.

Lemma call_books tk c g tks : task_call tk = Some c → accounts g (tk :: tks) →
  ∃ vs tbl, books vs tbl [] (ticket_of c :: tickets tks) (places tks) g ∧ structure vs tbl tks.
Proof.
  intros Hc (vs & tbl & HB & Hs). exists vs, tbl. apply structure_tail in Hs as (_ & Hs & _). split; [|done].
  assert (He : task_ticket tk = Some (ticket_of c) ∧ task_place tk = None).
  { unfold task_ticket. rewrite Hc. by destruct tk. }
  destruct He as [E1 E2]. csimpl in HB. by rewrite E1, E2 in HB.
Qed.

Lemma dispatch_leaves now1 now2 now3 sid o payload rid deadline eventual g tks :
  accounts g tks → wp (_dispatch_one now1 now2 now3 sid o payload rid deadline eventual) g (leaves tks).
Proof.
  intros (vs & tbl & HB & Hs). eapply wp_mono; [|by apply dispatch_books].
  intros g' [[tk|x]|e]; [|intros HB'; by exists vs, tbl..].
  intros (c & Hc & HB'). by eapply call_leaves.
Qed.

Lemma lock_leaves now c g tks :
  accounts g (WaitingLock c :: tks) → wp (lock_granted now c) g (leaves tks).
Proof.
  intros (vs & tbl & HB & Hs)%(call_books _ c); [|done]. eapply wp_mono; [|by apply lock_books].
  intros g' [[tk|x]|e]; [|intros HB'; by exists vs, tbl|done]. intros [Hc HB']. by eapply call_leaves.
Qed.

Lemma ending_leaves tk c m g tks :
  task_call tk = Some c → accounts g (tk :: tks) →
  (∀ vs tbl T P, books vs tbl [] (ticket_of c :: T) P g →
     wp m g (λ g' o, books vs tbl [] T P g' ∧ ∃ x, o = Ok (inr x))) →
  wp m g (leaves tks).
Proof.
  intros Hc (vs & tbl & HB & Hs)%(call_books _ c) Hm; [|done]. eapply wp_mono; [|by apply Hm].
  intros g' o [HB' (x & ->)]. by exists vs, tbl.
Qed.

(** ** Closing *)

(** No session closes that had failed or on which an operation is in flight. *)
Definition disciplined (g : t) (tks : list task) (g' : t) : Prop :=
  ∀ l v v', views g !! l = Some v → views g' !! l = Some v' →
    v_state v' = SessionState.CLOSED → v_state v ≠ SessionState.CLOSED →
    v_state v ≠ SessionState.FAILED ∧ ∀ c, c ∈ omap task_call tks → c_session c ≠ v_id v.

Definition points (vs : list view) (l : nat) (sid : SessionId) : Prop :=
  ∃ v, vs !! l = Some v ∧ v_id v = sid.

Definition settled (vs : list view) (tbl : pydict SessionId nat) (tks : list task) (g' : t) : Prop :=
  ∃ vs', books vs' tbl [] (tickets tks) (places tks) g' ∧ structure vs' tbl tks ∧
    ∀ l sid, points vs l sid → points vs' l sid.

Lemma settled_accounts vs tbl tks g' : settled vs tbl tks g' → accounts g' tks.
Proof. intros (vs' & HB & Hs & _). by exists vs', tbl. Qed.

Lemma settled_alter f l v vs tbl tks g' :
  (∀ v, v_id (f v) = v_id v) → vs !! l = Some v → v_state v ≠ SessionState.CREATING →
  structure vs tbl tks → books (alter f l vs) tbl [] (tickets tks) (places tks) g' → settled vs tbl tks g'.
Proof.
  intros Hf Hv Hst Hs HB. exists (alter f l vs). split; [done|]. split.
  - apply structure_alter; [done|by eapply not_making|done].
  - intros i sid. by apply alter_points.
Qed.

Lemma closed_settled l vs tbl tks g g' :
  skeleton (sessions g) = (vs, tbl) → structure vs tbl tks → disciplined g tks g' →
  closed_at config timeout l vs tbl (tickets tks) (places tks) g' → settled vs tbl tks g'.
Proof.
  intros Hsk Hs Hd [HB|(v & Hv & Hn1 & Hn2 & Hsk' & HB)]; [by exists vs|].
  destruct (Hd l v (with_state SessionState.CLOSED v)) as [Hnf Hnc];
    [by rewrite Hsk|by rewrite Hsk'; cbn [fst]; rewrite list_lookup_alter_eq, Hv|done..|].
  apply (settled_alter (with_state SessionState.CLOSED) l v); [done..|]. apply HB; [done|].
  intros x (tk & Htk & Hx)%list_elem_of_omap. unfold task_ticket in Hx.
  apply fmap_Some in Hx as (c & Hc & ->). apply Hnc, list_elem_of_omap. eauto.
Qed.

Lemma closing_settled l vs tbl tks g g' :
  skeleton (sessions g) = (vs, tbl) → structure vs tbl tks → disciplined g tks g' →
  closing_at config timeout l vs tbl (tickets tks) (places tks) g' → settled vs tbl tks g'.
Proof.
  intros Hsk Hs Hd [Hc|(v & Hv & Hst & HB)]; [by eapply closed_settled|].
  apply (settled_alter (with_state SessionState.CLOSING) l v); try done. by rewrite Hst.
Qed.

Lemma close_leaves now1 now2 sid k g tks :
  accounts g tks →
  wp (close_session now1 now2 sid k) g (λ g' o, disciplined g tks g' → leaves tks g' o).
Proof.
  intros (vs & tbl & HB & Hs). pose proof (books_views _ _ _ _ _ _ _ _ HB) as Hsk.
  eapply wp_mono; [|apply close_session_books; [|exact HB]].
  2:{ intros l Hl. by apply (str_points _ _ _ Hs). }
  intros g' o [[HB' Ho]|(l & v & Hv & Hid & _ & Hc & Hr)] Hd.
  - unfold leaves. destruct o as [[tk|x]|e]; [by destruct (Ho tk)|by exists vs, tbl..].
  - pose proof (closing_settled _ _ _ _ _ _ Hsk Hs Hd Hc) as Hset. unfold leaves.
    destruct o as [[tk|x]|e]; [|eapply settled_accounts; exact Hset ..].
    destruct Hr as [(best & ->) _], Hset as (vs' & HB' & Hs' & Hpt). exists vs', tbl. split; [exact HB'|].
    apply structure_cons; [|done|done]. apply Hpt. by exists v.
Qed.

Lemma points_unique vs tbl tks l l' sid :
  structure vs tbl tks → points vs l sid → tbl !! sid = Some l' → l' = l.
Proof.
  intros Hs (v & Hv & Hid) (v' & Hv' & Hid')%(str_points _ _ _ Hs).
  eapply NoDup_lookup; [exact (str_ids _ _ _ Hs)|..]; rewrite list_lookup_fmap;
    [by rewrite Hv'; simpl; rewrite Hid'|by rewrite Hv; simpl; rewrite Hid].
Qed.

Lemma release_leaves now l sid best k g tks :
  accounts g (Releasing l sid best k :: tks) →
  wp (x ← close_finish now l sid; mret (inr x : task + response)) g
    (λ g' o, disciplined g tks g' → leaves tks g' o).
Proof.
  intros (vs & tbl & HB & Hs). pose proof (books_views _ _ _ _ _ _ _ _ HB) as Hsk.
  apply structure_tail in Hs as (Hw & Hs & _). pose proof Hw as (v & Hv & Hid).
  eapply wp_mono; [|eapply close_now; [exact Hv|exact Hid| |exact HB]].
  - intros g' o [Hc Ho] Hd. pose proof (closed_settled _ _ _ _ _ _ Hsk Hs Hd Hc) as Hset.
    unfold leaves. destruct o as [[tk|x]|e]; [by destruct (Ho tk)|eapply settled_accounts; exact Hset ..].
  - intros l' Hl'. by eapply points_unique.
Qed.

Lemma dropped_leaves l sid best k g tks : accounts g (Releasing l sid best k :: tks) → accounts g tks.
Proof.
  intros (vs & tbl & HB & Hs). exists vs, tbl. split; [exact HB|]. by apply structure_tail in Hs as (_ & ? & _).
Qed.

Lemma deref_still l : moves still (deref l).
Proof. unfold deref. by apply reads_still. Qed.

Lemma disciplined_still g1 g2 tks g' : still g1 g2 → disciplined g1 tks g' → disciplined g2 tks g'.
Proof. intros Hst. unfold disciplined. by rewrite (still_skeleton _ _ Hst). Qed.

Lemma reap_leaves now1 now2 l rest g tks :
  accounts g tks →
  wp (reap now1 now2 l rest) g (λ g' o, disciplined g tks g' → leaves tks g' o).
Proof.
  intros Ha. unfold reap. apply wp_bind. pose proof (deref_still l g) as Hst.
  pose proof (accounts_still _ _ _ Hst Ha) as Ha1. unfold wp at 1.
  destruct (result_of (deref l) g) as [r|e]; [|by intros _].
  destruct (SessionRecord.active_operation r).
  - eapply wp_mono; [|apply still_leaves; [|cut_yields|exact Ha1]]; [by intros|solve_still|by split].
  - eapply wp_mono; [|by apply close_leaves]. intros g' o Hl Hd. apply Hl. by eapply disciplined_still.
Qed.

(** ** Maintenance *)

(** A READY session is declared lost, or nothing changes for the sessions. *)
Definition lost_one (g g' : t) : Prop :=
  admission g' = admission g ∧ (∀ P, placed timeout P (workers g) → placed timeout P (workers g')) ∧
  (skeleton (sessions g') = skeleton (sessions g) ∨
   ∃ l v, views g !! l = Some v ∧ v_state v = SessionState.READY ∧
     skeleton (sessions g') = (alter (with_state SessionState.LOST) l (views g), table g)).

Lemma lost_one_accounts g g' tks : lost_one g g' → accounts g tks → accounts g' tks.
Proof.
  intros (Ha & Hp & Hsk) (vs & tbl & [B1 B2 B3] & Hs). rewrite B1 in Hsk. cbn [fst snd] in Hsk.
  destruct Hsk as [Hsk|(l & v & Hv & Hst & Hsk)].
  - exists vs, tbl. split; [|done]. split; [done|by rewrite Ha|by apply Hp].
  - destruct (same_quota vs l v (with_state SessionState.LOST) Hv) as [Hq Hr].
    { unfold quota_of, holds_quota. simpl. by rewrite Hst. }
    { unfold place_of, bound_rank. simpl. by rewrite Hst. }
    eapply settled_accounts, (settled_alter (with_state SessionState.LOST) l v);
      [done|done|by rewrite Hst|exact Hs|]. split; [done| |].
    + rewrite Ha. eapply admitted_perm; [|reflexivity|exact B2]. by rewrite Hq.
    + apply Hp. eapply placed_perm; [|exact B3]. by rewrite Hr.
Qed.

Lemma stale_lost now1 now2 : moves (rtc lost_one) (reap_stale_workers now1 now2).
Proof.
  unfold reap_stale_workers. cut_moves.
  - apply moves_on_workers. intros g. apply rtc_once. split; [done|]. split; [|by left].
    intros P. apply mark_unhealthy_placed.
  - apply moves_on_sessions. intros g. apply rtc_once. split; [done|]. split; [done|].
    match goal with |- context [SessionManager.mark_lost ?n ?i ?e] =>
      pose proof (transition_skeleton n i SessionState.LOST (Some (default (error_of ErrorCode.WORKER_LOST
        ("env worker binding lost for session " +:+ i) [("session_id", VStr i)]) e)) (sessions g)) as Ht;
      cbv zeta in Ht; change (SessionManager.transition n i _ _) with (SessionManager.mark_lost n i e) in Ht end.
    destruct (result_of _ (sessions g)) as [l|x].
    + destruct Ht as (_ & (v & Hv & Hedge) & Hsk). right. exists l, v. split; [done|]. split; [|done].
      destruct (v_state v); by vm_compute in Hedge.
    + destruct Ht as [Hs _]. left. cbn [sessions set_sessions]. by rewrite Hs.
Qed.

Lemma stale_accounts now1 now2 g tks : accounts g tks → accounts (after (reap_stale_workers now1 now2) g) tks.
Proof.
  pose proof (stale_lost now1 now2 g) as H. induction H as [|g1 g2 g3 H12 _ IH]; [done|].
  intros Ha. apply IH. by eapply lost_one_accounts.
Qed.

(** Purging takes sessions out of the table, none that is being created. *)
Lemma purge_one_table s sid : SessionManager._sessions (SessionManager.purge_one s sid) = SessionManager._sessions s ∨
  SessionManager._sessions (SessionManager.purge_one s sid) = delete sid (SessionManager._sessions s).
Proof. unfold SessionManager.purge_one. destruct (SessionManager.lookup_session sid s); auto. Qed.

Lemma purge_tables ids s : dict_wf (SessionManager._sessions s) →
  let s' := foldl SessionManager.purge_one s ids in
  dict_wf (SessionManager._sessions s') ∧ SessionManager.heap s' = SessionManager.heap s ∧
  (∀ sid l, SessionManager._sessions s' !! sid = Some l → SessionManager._sessions s !! sid = Some l) ∧
  (∀ sid, sid ∉ ids → SessionManager._sessions s' !! sid = SessionManager._sessions s !! sid).
Proof.
  revert s. induction ids as [|id ids IH]; intros s Hwf; [done|]. cbn [foldl].
  assert (H1 : dict_wf (SessionManager._sessions (SessionManager.purge_one s id)) ∧
    (∀ sid l, SessionManager._sessions (SessionManager.purge_one s id) !! sid = Some l →
      SessionManager._sessions s !! sid = Some l) ∧
    (∀ sid, sid ≠ id → SessionManager._sessions (SessionManager.purge_one s id) !! sid =
      SessionManager._sessions s !! sid)).
  { destruct (purge_one_table s id) as [E|E]; rewrite E; [done|]. split; [by apply dict_wf_delete|].
    split; [intros sid l|intros sid Hne]; rewrite (dict_lookup_delete _ _ _); case_decide; congruence. }
  destruct H1 as (W1 & S1 & K1). destruct (IH _ W1) as (W2 & H2 & S2 & K2).
  split; [done|]. split; [by rewrite H2, SessionManager.purge_one_heap|]. split; [auto|].
  intros sid Hn. rewrite K2, K1; set_solver.
Qed.

Lemma purge_accounts moment g tks :
  accounts g tks → accounts (after (on_sessions (SessionManager.purge_terminal moment)) g) tks.
Proof.
  intros (vs & tbl & [B1 B2 B3] & Hs). set (ids := SessionManager.to_purge moment (sessions g)).
  assert (Hwf : dict_wf (SessionManager._sessions (sessions g))).
  { change (dict_wf (table g)). rewrite B1. exact (str_dict _ _ _ Hs). }
  destruct (purge_tables ids (sessions g) Hwf) as (W & Hh & S & K).
  set (s' := foldl SessionManager.purge_one (sessions g) ids) in *.
  assert (Htbl : SessionManager._sessions (sessions g) = tbl) by (change (table g = tbl); by rewrite B1).
  assert (Hvs : view_of <$> SessionManager.heap (sessions g) = vs) by (change (views g = vs); by rewrite B1).
  rewrite Htbl in S, K, Hwf.
  exists vs, (SessionManager._sessions s'). split.
  { split; [|exact B2|exact B3]. unfold skeleton. change (sessions (after _ g)) with s'. by rewrite Hh, Hvs. }
  destruct Hs as [H1 H2 H3 H4 H5]. split; try done; [by intros sid l Hl; apply H3, S|].
  rewrite Forall_forall in *. intros tk Htk. specialize (H4 tk Htk). destruct tk; try done.
  destruct H4 as (v & Hv & Hst & Ht & Happ). exists v. split; [done|]. split; [done|]. split; [|done].
  rewrite K; [done|]. unfold ids, SessionManager.to_purge. rewrite list_elem_of_fmap.
  intros ([sid l'] & Hid & Hin). unfold bfilter in Hin. rewrite list_elem_of_filter in Hin. destruct Hin as [Hp Hin].
  rewrite Htbl in Hin. apply (elem_of_items _ _ _ Hwf) in Hin. simpl in Hid, Hp. rewrite <- Hid, Ht in Hin.
  injection Hin as <-. rewrite <- Hvs, list_lookup_fmap in Hv.
  destruct (SessionManager.heap (sessions g) !! l) as [r|]; [|done]. injection Hv as <-.
  unfold SessionManager.purgeable in Hp. change (SessionRecord.state r = SessionState.CREATING) in Hst.
  by rewrite Hst in Hp.
Qed.

(** ** Every event *)

Lemma disciplined_delete g tks g' i tk :
  tks !! i = Some tk → disciplined g tks g' → disciplined g (delete i tks) g'.
Proof.
  intros Hi Hd l v v' H1 H2 H3 H4. destruct (Hd l v v' H1 H2 H3 H4) as [Hf Hc]. split; [done|].
  intros c (tk' & Htk & Hcall)%list_elem_of_omap. apply Hc, list_elem_of_omap. exists tk'. split; [|done].
  by eapply elem_of_deleted.
Qed.

Lemma accounts_at s i tk :
  tasks s !! i = Some tk → accounts (gw s) (tasks s) → accounts (gw s) (tk :: delete i (tasks s)).
Proof. intros Hi. apply accounts_perm. by apply delete_Permutation. Qed.

Lemma gw_resume i k m s : gw (resume i k m s) = after m (gw s).
Proof. unfold resume, after. by destruct (m (gw s)) as [g [[]|]]. Qed.
Lemma gw_spawn m s : gw (spawn m s) = after m (gw s).
Proof. unfold spawn, after. by destruct (m (gw s)) as [g [[]|]]. Qed.

(** A coroutine starts or goes on, closing nothing it may not close. *)
Lemma spawn_disciplined m s :
  disciplined (gw s) (tasks s) (gw (spawn m s)) →
  wp m (gw s) (λ g' o, disciplined (gw s) (tasks s) g' → leaves (tasks s) g' o) →
  accounts (gw (spawn m s)) (tasks (spawn m s)).
Proof. intros Hd Hm. apply spawn_accounts. apply Hm. by rewrite <- gw_spawn. Qed.

Lemma resume_disciplined i k m s tk :
  tasks s !! i = Some tk → disciplined (gw s) (tasks s) (gw (resume i k m s)) →
  wp m (gw s) (λ g' o, disciplined (gw s) (delete i (tasks s)) g' → leaves (delete i (tasks s)) g' o) →
  accounts (gw (resume i k m s)) (tasks (resume i k m s)).
Proof.
  intros Hi Hd Hm. apply (resume_accounts _ _ _ _ tk Hi), Hm.
  eapply disciplined_delete; [done|]. by rewrite <- (gw_resume i k).
Qed.

Lemma conclude_leaves c holds m g tks tk :
  task_call tk = Some c → moves still m → (∀ g tk', result_of m g ≠ Ok (inl tk')) →
  accounts g (tk :: tks) → wp (conclude c holds m) g (leaves tks).
Proof.
  intros Hc Hm Hy Ha. eapply ending_leaves; [done..|]. intros vs tbl T P HB.
  eapply wp_mono; [|by apply conclude_books]. intros g' [[tk'|x]|e]; [|by eauto|done].
  intros [Htk _]. by destruct (Hy g tk').
Qed.

Lemma late_still now result : moves still (_absorb_late_result now result).
Proof. unfold _absorb_late_result. destruct (member _ _); solve_still. Qed.

Lemma renew_leaves now1 now2 sid lease g tks :
  accounts g tks → wp (renew_session now1 now2 sid lease) g (leaves tks).
Proof.
  apply still_leaves; unfold renew_session; [solve_still|]. cut_yields. by split.
Qed.

Lemma cancel_leaves now rid g tks :
  accounts g tks → wp (o ← cancel_request now rid; mret (inr (Cancelled o))) g (leaves tks).
Proof. apply still_leaves; unfold cancel_request; [solve_still|]. by cut_yields. Qed.

Lemma permit_leaves c rank e g tks :
  accounts g (WaitingPermit c rank e :: tks) → wp (send_command c rank e) g (leaves tks).
Proof.
  intros Ha. assert (Hst : moves still (send_command c rank e)) by (unfold send_command; solve_still).
  apply (accounts_still _ _ _ (Hst g)) in Ha. apply (call_books _ c) in Ha as (vs & tbl & HB & Hs); [|done].
  exact (call_leaves (InFlight c rank e) c vs tbl tks _ eq_refl HB Hs).
Qed.

Lemma reaping_accounts g tks i ls :
  tks !! i = Some (Reaping ls) → accounts g tks → accounts g (delete i tks).
Proof.
  intros Hi Ha. apply (accounts_idle g (Reaping ls)); [by split|].
  eapply accounts_perm; [|exact Ha]. by apply delete_Permutation.
Qed.

Lemma exec_accounts s ev :
  accounts (gw s) (tasks s) → GatewayOrder.legal s ev → disciplined (gw s) (tasks s) (gw (exec s ev)) →
  accounts (gw (exec s ev)) (tasks (exec s ev)).
Proof.
  intros Ha Hl Hd. destruct ev; cbn [exec] in *; cbv zeta in *;
    try (destruct (tasks s !! i) as [tk|] eqn:Hi; [destruct tk|]; try done);
    try (pose proof (accounts_at _ _ _ Hi Ha) as Hat).
  - apply spawn_accounts, create_leaves; [done|]. cbn [GatewayOrder.legal] in Hl.
    unfold GatewayOrder.session_ids in Hl. unfold skeleton. cbn [fst]. by rewrite <- list_fmap_compose.
  - eapply resume_accounts; [done|]. by apply binding_leaves.
  - apply spawn_disciplined; [done|]. by apply close_leaves.
  - eapply resume_disciplined; [done..|]. by apply (release_leaves now l sid best_effort reaping).
  - destruct best_effort, reaping; try done. by eapply dropped_leaves.
  - eapply accounts_perm; [apply (Permutation_app_comm [_])|]. by apply accounts_idle.
  - destruct ls as [|l ls]; [by eapply reaping_accounts|]. eapply resume_disciplined; [done..|].
    apply reap_leaves. by apply (accounts_idle _ (Reaping (l :: ls))).
  - by apply spawn_accounts, renew_leaves.
  - eapply resume_accounts; [done|]. apply still_leaves; [solve_still|by cut_yields|].
    by apply (accounts_idle _ (Renewing l)).
  - by apply spawn_accounts, dispatch_leaves.
  - case_bool_decide; [done|]. eapply resume_accounts; [done|]. by apply lock_leaves.
  - eapply resume_accounts; [done|]. apply (conclude_leaves _ _ _ _ _ (WaitingLock c)); [done|solve_still| |exact Hat]. by intros g tk [=].
  - destruct (0 <? _); [|done]. eapply resume_accounts; [done|]. by apply permit_leaves.
  - eapply resume_accounts; [done|]. eapply ending_leaves; [|exact Hat|]; [done|].
    intros. by apply sent_books.
  - eapply resume_accounts; [done|]. eapply ending_leaves; [|exact Hat|]; [done|].
    intros. by apply reply_books.
  - apply silently_accounts; [apply late_still|done].
  - by apply spawn_accounts, cancel_leaves.
  - destruct Ha as (vs & tbl & [B1 B2 B3] & Hs). exists vs, tbl. split; [|done]. split; [done|done|].
    by apply register_placed.
  - by apply stale_accounts.
  - eapply accounts_still; [|exact Ha]. by split.
  - by apply purge_accounts.
Qed.

(** A run in which no event closes what it may not close. *)
Fixpoint disciplined_run (evs : list event) (s : system) : Prop :=
  match evs with
  | [] => True
  | ev :: evs' => disciplined (gw s) (tasks s) (gw (exec s ev)) ∧ disciplined_run evs' (exec s ev)
  end.

Lemma run_accounts evs s :
  accounts (gw s) (tasks s) → GatewayOrder.legal_run evs s → disciplined_run evs s →
  accounts (gw (run evs s)) (tasks (run evs s)).
Proof.
  revert s. induction evs as [|ev evs IH]; intros s Ha; [done|]. intros [Hl Hls] [Hd Hds].
  apply IH; [by apply exec_accounts|done|done].
Qed.

End balance.

Section exact.
Context {interp : Interpreter}.

Lemma init_accounts epoch retention default_lease ttl timeout limit config priority transport :
  let s := init epoch retention default_lease ttl timeout limit config priority transport in
  accounts config timeout (gw s) (tasks s).
Proof.
  exists [], ∅. split.
  - split; [done| |].
    + exists (AdmissionController.Held [] []). split; [constructor|done].
    + exists []. split; [constructor|done].
  - split; try constructor; [done..|]. intros sid l Hl. discriminate Hl.
Qed.

Lemma represents_perm config a h h' :
  AdmissionController.sessions h ≡ₚ AdmissionController.sessions h' →
  AdmissionController.tickets h ≡ₚ AdmissionController.tickets h' →
  AdmissionController.represents config a h → AdmissionController.represents config a h'.
Proof.
  intros Hs Ht [R1 R2 R3 R4 R5]. split; [done|..].
  - intros app. rewrite R2. by apply count_perm.
  - intros app. rewrite R3. by apply count_perm.
  - intros sid. rewrite R4. by apply count_perm.
  - rewrite R5. unfold zlen. by rewrite Ht.
Qed.

Lemma limits_perm config h h' :
  AdmissionController.sessions h ≡ₚ AdmissionController.sessions h' →
  AdmissionController.tickets h ≡ₚ AdmissionController.tickets h' →
  AdmissionController.within_limits config h → AdmissionController.within_limits config h'.
Proof.
  intros Hs Ht (L1 & L2 & L3 & L4).
  unfold AdmissionController.within_limits, AdmissionController.sessions_of, AdmissionController.app_tickets,
    AdmissionController.session_tickets, zlen in *. rewrite <- Ht. split_and!; [|intros..|done].
  - intros app. rewrite <- (count_perm _ _ _ Hs). apply L1.
  - rewrite <- (count_perm _ _ _ Ht). apply L2.
  - rewrite <- (count_perm _ _ _ Ht). apply L3.
Qed.

(** What the sessions and the suspended coroutines of a system hold. *)
Definition holding (s : system) : AdmissionController.held :=
  AdmissionController.Held (apps_of (views (gw s))) (omap task_ticket (tasks s)).
Definition occupying (s : system) : list Z := omap task_place (tasks s) ++ ranks_of (views (gw s)).

(** C13: the Gateway's accounts are exact.  Take any run in which no event closes a session
    that had failed or one with an operation of its own still suspended.  Then the counters
    of admission control are exactly the sessions that are neither FAILED nor CLOSED and
    the operations whose coroutines have not ended, no configured limit is exceeded, and
    the load of every rank is the number of sessions bound to it or being bound to it:
    whatever fails, is cancelled, expires or is lost, what was taken is given back once. *)
Theorem accounting_exact (epoch : Z) (retention default_lease ttl timeout limit : Z)
    (config : AdmissionConfig) (priority : Priority.t) (transport : bool) (evs : list event) :
  let s0 := init epoch retention default_lease ttl timeout limit config priority transport in
  GatewayOrder.legal_run evs s0 → disciplined_run evs s0 →
  let s := run evs s0 in
  AdmissionController.represents config (admission (gw s)) (holding s) ∧
  AdmissionController.within_limits config (holding s) ∧
  ∀ rank e, EnvWorkerRegistry._entries (workers (gw s)) !! rank = Some e →
    active_sessions e = count (Z.eqb rank) (occupying s).
Proof.
  intros s0 Hl Hd s. destruct (run_accounts config timeout evs s0) as (vs & tbl & [B1 B2 B3] & _);
    [apply init_accounts|done|done|]. fold s in B1, B2, B3. unfold holding, occupying.
  rewrite B1. cbn [fst]. destruct B2 as (h & Hr & Hs & Ht), B3 as (p & Hp & Hpp).
  destruct (AdmissionController.reachable_represents config _ Hr) as [Hrep Hlim].
  split; [by eapply represents_perm|]. split; [by eapply limits_perm|].
  intros rank e He. rewrite <- (count_perm _ _ _ Hpp).
  apply (EnvWorkerRegistry.wf_load _ _ (EnvWorkerRegistry.workers_reachable_wf timeout _ Hp) rank e He).
Qed.

End exact.
(** ** Runs *)

(** Deciding the discipline on a concrete run. *)
Definition closes_well (g : t) (tks : list task) (g' : t) : bool :=
  forallb (λ vv, negb (bool_decide (v_state vv.2 = SessionState.CLOSED))
      || bool_decide (v_state vv.1 = SessionState.CLOSED)
      || negb (bool_decide (v_state vv.1 = SessionState.FAILED))
         && forallb (λ c, negb (String.eqb (c_session c) (v_id vv.1))) (omap task_call tks))
    (zip (views g) (views g')).

Lemma closes_well_disciplined g tks g' : closes_well g tks g' = true → disciplined g tks g'.
Proof.
  unfold closes_well. rewrite forallb_forall. intros H l v v' Hv Hv' Hc Hn.
  assert (Hin : (v, v') ∈ zip (views g) (views g')).
  { apply list_elem_of_lookup. exists l. apply lookup_zip_with_Some. by exists v, v'. }
  apply list_elem_of_In, H in Hin. simpl in Hin. rewrite (bool_decide_true _ Hc) in Hin.
  rewrite (bool_decide_false _ Hn) in Hin. simpl in Hin. apply andb_prop in Hin as [Hf Ht].
  split; [intros E; by rewrite (bool_decide_true _ E) in Hf|]. rewrite forallb_forall in Ht.
  intros c Hin E. apply list_elem_of_In, Ht in Hin. rewrite E, String.eqb_refl in Hin. done.
Qed.

(** A session is opened, used, used again while the first call is in flight, and closed. *)
Definition demo_life : list event :=
  demo_open "s1" ++ demo_reset "r1" ++ [EClose 7 7 "s1"; EReleaseReply 0 8].

Lemma accounting_exact_witness :
  let s := run (interp := demo_interpreter) (demo_open "s1" ++ demo_reset "r1") demo_init in
  let s' := run (interp := demo_interpreter) demo_life demo_init in
  AdmissionController.sessions (holding s) = ["app"] ∧ occupying s = [0] ∧
  AdmissionController.sessions (holding s') = [] ∧ occupying s' = [] ∧
  AdmissionController.represents demo_config (admission (gw s')) (holding s').
Proof.
  split; [vm_compute; reflexivity|]. split; [vm_compute; reflexivity|].
  split; [vm_compute; reflexivity|]. split; [vm_compute; reflexivity|].
  apply (accounting_exact (interp := demo_interpreter) 1 300 300 600 30 8 demo_config
    Priority.INTERACTIVE true demo_life).
  - vm_compute. split_and!; try exact I. by intros ?%elem_of_nil.
  - repeat (split; [apply closes_well_disciplined; vm_compute; reflexivity|]). exact I.
Defined.

(** *** The discipline is needed *)

Definition demo_refused : ResultEnvelope := {|
  re_operation := EnvOperation.CREATE_BINDING; re_request_id := "c"; re_state := OperationState.FAILED;
  re_value := VNone; re_error := Some (error_of ErrorCode.ENV_FAILURE "no environment" []);
  re_side_effect_applied := false; re_worker_summary := None |}.

(** A creation fails at the worker, the client opens another session, then closes the
    failed one and opens a third. *)
Definition demo_failed : list event :=
  [ERegisterWorker 1 (EnvWorkerRegistry.demo_worker 0); ECreate 2 2 "s1" (demo_request "k1");
   EBindingReply 0 3 3 demo_refused;
   ECreate 4 4 "s2" (demo_request "k2"); EBindingReply 0 5 5 (demo_reply (VStr "token"));
   EClose 6 6 "s1";
   ECreate 7 7 "s3" (demo_request "k3"); EBindingReply 0 8 8 (demo_reply (VStr "token"))].

Definition ready_sessions (s : system) : list SessionId :=
  v_id <$> bfilter (λ v, bool_decide (v_state v = SessionState.READY)) (views (gw s)).

(** A failed session gives its quota back twice.  The failure of a creation releases
    the quota of the application and leaves a FAILED session; closing that session releases
    the quota again, this time that of another session.  Here an application whose limit is
    one session gets a second one while the first is open. *)
Theorem failed_session_releases_twice :
  let s := run (interp := demo_interpreter) demo_failed demo_init in
  GatewayOrder.legal_run (interp := demo_interpreter) demo_failed demo_init ∧
  max_sessions_per_application demo_config = 1 ∧
  ready_sessions s = ["s2"; "s3"] ∧ AdmissionController.sessions (holding s) = ["app"; "app"] ∧
  get_or (AdmissionController._sessions (admission (gw s))) "app" 0 = 1.
Proof.
  split; [vm_compute; split_and!; try exact I; by repeat intros ?%elem_of_cons || set_solver|].
  vm_compute. split_and!; reflexivity.
Qed.

Definition demo_dispatch (sid : SessionId) (o : EnvOperation.t) (rid : RequestId) : event :=
  EDispatch 4 4 4 sid o (VDict []) rid None false.

(** One operation at a time in the whole gateway: the session of the running one is closed,
    another session calls, the first call is answered, and a third call comes. *)
Definition demo_one_operation : AdmissionConfig := {|
  require_auth := false; tokens := ∅; max_sessions_per_application := 2;
  max_inflight_operations_per_application := 4; max_inflight_operations_per_session := 4;
  max_total_inflight_operations := 1 |}.
Definition demo_init1 : system := init 1 300 300 600 30 8 demo_one_operation Priority.INTERACTIVE true.

Definition demo_close_in_flight : list event :=
  demo_open "s1" ++
  [ECreate 4 4 "s2" (demo_request "s2"); EBindingReply 0 5 5 (demo_reply (VStr "token"));
   demo_dispatch "s1" EnvOperation.RESET "r1"; ELockGranted 0 5; EPermitGranted 0;
   EClose 6 6 "s1"; EReleaseReply 1 7;
   demo_dispatch "s2" EnvOperation.RESET "r2"; EReply 0 8 (demo_reply VNone);
   demo_dispatch "s2" EnvOperation.RESET "r3"].

(** Closing a session with an operation in flight breaks the global limit of the
    Gateway.  Forgetting the session gives its operation back a first time, the answer of
    the worker a second time: with a limit of one operation two are admitted and neither
    has ended. *)
Theorem closing_in_flight_overadmits :
  let s := run (interp := demo_interpreter) demo_close_in_flight demo_init1 in
  max_total_inflight_operations demo_one_operation = 1 ∧
  omap (λ tk, c_request <$> task_call tk) (tasks s) = ["r2"; "r3"] ∧
  AdmissionController.tickets (holding s) = [("app", "s2"); ("app", "s2")] ∧
  AdmissionController._total_inflight (admission (gw s)) = 1.
Proof. vm_compute. split_and!; reflexivity. Qed.

(** A request is cancelled while it waits for the lock, and its record is purged before
    the lock is free. *)
Definition demo_wedged : list event :=
  demo_open "s1" ++
  [demo_dispatch "s1" EnvOperation.RESET "r1"; ELockGranted 0 5; EPermitGranted 0;
   demo_dispatch "s1" EnvOperation.RESET "r2"; ECancelRequest 6 "r2"; EPurgeOperations 1000;
   EReply 0 1001 (demo_reply (VData "StepResult" [("episode_id", VInt 1)])); ELockGranted 0 1002].

Definition active_of (sid : SessionId) (s : system) : option RequestId :=
  match SessionManager.lookup_session sid (sessions (gw s)) with
  | Some r => SessionRecord.active_operation r
  | None => None
  end.

(** Such a session never runs a mutating operation again, nor is it ever reclaimed.  The
    coroutine marks the request active before it finds its record gone, and nothing clears
    the mark: no coroutine is left, the session is READY, the next [reset] is refused, and
    the reaper passes the session over when its lease is long expired. *)
Theorem cancelled_then_purged_wedges_session :
  let s := run (interp := demo_interpreter) demo_wedged demo_init in
  let s' := run (interp := demo_interpreter)
    [demo_dispatch "s1" EnvOperation.RESET "r3"; ELockGranted 0 1003; ERecoverExpired 9999;
     EReapNext 0 9999 9999; EReapNext 0 9999 9999] s in
  tasks s = [] ∧ ready_sessions s = ["s1"] ∧ active_of "s1" s = Some "r2" ∧
  tasks s' = [] ∧ ready_sessions s' = ["s1"] ∧ active_of "s1" s' = Some "r2" ∧
  (∃ e, outbox s' = Answer "r3" (RErr e) :: outbox s ∧ code e = ErrorCode.SESSION_NOT_READY).
Proof. vm_compute. split_and!; try reflexivity. eexists. split; reflexivity. Qed.

End GatewayBalance.
