(* ===== verification/BatchScheduler.v ===== *)
(** * The inference batch scheduler: [rollout_runtime/workers/batch_scheduler.py]

    Requests wait in buckets by compatibility key; [next_batch] takes from the most urgent
    ready bucket as many as the batch size and the in-flight quotas of applications and
    sessions allow.  A [PendingRequest] is an object: [ident] is its identity ([id(item)]).
    Times are ticks; the configured wait is a whole number of ticks, so its division by
    1000 is exact.  No deadline is plus infinity.

    The ghost list of requests issued and not completed makes the counters' meaning
    explicit.  Theorems: counters and fairness limits in every reachable state, what a
    batch is and that nothing is lost, that [time_until_ready] announces exactly when
    [next_batch] issues, urgency order, and progress. *)

From S2P Require Import Prelude PyDict Sorting Codec Api.

Open Scope string_scope.
Open Scope list_scope.
Open Scope Z_scope.

Record SchedulerConfig := {
  max_batch_size : Z;
  max_wait_ms : time;
  max_queue_depth : Z;
  max_inflight_per_application : Z;
  max_inflight_per_session : Z;
  fixed_batch_size : option Z;
}.

Record PendingRequest := {
  ident : Z;
  application_id : string;
  session_id : SessionId;
  compat_key : string;
  priority : Priority.t;
  deadline : option time;
  enqueued_at : time;
  routing_token : string;
}.

#[export] Instance PendingRequest_eq_dec : EqDecision PendingRequest.
Proof. solve_decision. Defined.

(** A deadline or plus infinity. *)
Definition deadline_leb (x y : option time) : bool :=
  match x, y with
  | Some a, Some b => a <=? b
  | _, None => true
  | None, Some _ => false
  end.

#[export] Instance deadline_leb_preorder : TotalPreorder deadline_leb.
Proof.
  split; [intros [] []|intros [] [] []]; simpl; auto; rewrite ?Z.leb_le; try done; lia.
Qed.

Definition key_leb : Z * option time → Z * option time → bool := lex_leb Z.leb deadline_leb.

Definition sort_key (p : PendingRequest) : Z * option time :=
  (Priority.sort_key (priority p), deadline p).

(** [key=lambda item: (item.sort_key, item.enqueued_at)] *)
Definition item_leb : PendingRequest → PendingRequest → bool :=
  on_key (lex_leb key_leb Z.leb) (λ p, (sort_key p, enqueued_at p)).

Module InferenceBatchScheduler.

Record t := Scheduler {
  config : SchedulerConfig;
  buckets : pydict string (list PendingRequest);
  inflight_per_application : pydict string Z;
  inflight_per_session : pydict string Z;
  inflight_total : Z;
  enqueued_count : Z;
  batched_count : Z;
  batch_count : Z;
  completed_count : Z;
  fence_version : option string;
}.

Definition init (c : SchedulerConfig) : t := Scheduler c ∅ ∅ ∅ 0 0 0 0 0 None.

Definition queue_depth (s : t) : Z := sumZ zlen (values (buckets s)).

Definition accepts_more (s : t) : bool := queue_depth s <? max_queue_depth (config s).

Definition fenced (s : t) : bool := if fence_version s then true else false.

Definition begin_version_fence (version : string) (s : t) : t :=
  Scheduler (config s) (buckets s) (inflight_per_application s) (inflight_per_session s)
    (inflight_total s) (enqueued_count s) (batched_count s) (batch_count s) (completed_count s)
    (Some version).

Definition end_version_fence (s : t) : t :=
  Scheduler (config s) (buckets s) (inflight_per_application s) (inflight_per_session s)
    (inflight_total s) (enqueued_count s) (batched_count s) (batch_count s) (completed_count s) None.

Definition enqueue (p : PendingRequest) (s : t) : t :=
  let bucket := get_or (buckets s) (compat_key p) [] in
  Scheduler (config s) (<[compat_key p := bucket ++ [p]]> (buckets s))
    (inflight_per_application s) (inflight_per_session s) (inflight_total s)
    (enqueued_count s + 1) (batched_count s) (batch_count s) (completed_count s) (fence_version s).

Definition _has_quota (p : PendingRequest) (extra_app extra_session : pydict string Z) (s : t) :
    bool :=
  if str_true (application_id p) &&
     (max_inflight_per_application (config s) <=?
        get_or (inflight_per_application s) (application_id p) 0
        + get_or extra_app (application_id p) 0)
  then false
  else get_or (inflight_per_session s) (session_id p) 0 + get_or extra_session (session_id p) 0
         <? max_inflight_per_session (config s).

Definition incr (k : string) (d : pydict string Z) : pydict string Z :=
  <[k := get_or d k 0 + 1]> d.

(** The loop over the sorted candidates; [room] requests may still be picked. *)
Fixpoint pick (room : nat) (cs : list PendingRequest) (extra_app extra_session : pydict string Z)
    (s : t) : list PendingRequest :=
  match room, cs with
  | O, _ | _, [] => []
  | S room', p :: cs' =>
      if _has_quota p extra_app extra_session s then
        p :: pick room' cs'
          (if str_true (application_id p) then incr (application_id p) extra_app else extra_app)
          (incr (session_id p) extra_session) s
      else pick room cs' extra_app extra_session s
  end.

Definition _selectable (bucket : list PendingRequest) (limit : Z) (s : t) : list PendingRequest :=
  pick (Z.to_nat limit) (sort_by item_leb bucket) ∅ ∅ s.

Definition limit_of (s : t) : Z :=
  Z.max 1 (or_else (fixed_batch_size (config s)) (max_batch_size (config s))).

Definition wait_of (s : t) : time := Z.max 0 (max_wait_ms (config s) / 1000).

(** [min(item.enqueued_at for item in selectable)] of a nonempty list *)
Definition oldest (l : list PendingRequest) : time :=
  match l with
  | [] => 0
  | p :: l' => foldr (λ q m, Z.min (enqueued_at q) m) (enqueued_at p) l'
  end.

Definition ready (now : time) (s : t) (selectable : list PendingRequest) : bool :=
  match selectable with
  | [] => false
  | _ => (limit_of s <=? zlen selectable) || (wait_of s <=? now - oldest selectable)
  end.

Definition rank_of (selectable : list PendingRequest) : Z * option time :=
  match selectable with [] => (0, None) | p :: _ => sort_key p end.

(** One round of the loop over the buckets: keep the first best ready bucket. *)
Definition consider (now : time) (s : t) (best : option (string * list PendingRequest))
    (kb : string * list PendingRequest) : option (string * list PendingRequest) :=
  let selectable := _selectable kb.2 (limit_of s) s in
  if negb (ready now s selectable) then best
  else match best with
       | None => Some (kb.1, selectable)
       | Some b => if negb (key_leb (rank_of b.2) (rank_of selectable))
                   then Some (kb.1, selectable) else best
       end.

Definition _acquire_quota (s : t) (p : PendingRequest) : t :=
  Scheduler (config s) (buckets s)
    (if str_true (application_id p)
     then incr (application_id p) (inflight_per_application s) else inflight_per_application s)
    (incr (session_id p) (inflight_per_session s)) (inflight_total s + 1)
    (enqueued_count s) (batched_count s) (batch_count s) (completed_count s) (fence_version s).

(** Take the chosen objects out of a bucket, dropping the bucket when it is empty. *)
Definition remove_items (key : string) (chosen : list Z) (s : t) : t :=
  let remaining := bfilter (λ p, negb (member (ident p) chosen)) (get_or (buckets s) key []) in
  Scheduler (config s)
    (match remaining with [] => delete key (buckets s) | _ => <[key := remaining]> (buckets s) end)
    (inflight_per_application s) (inflight_per_session s) (inflight_total s)
    (enqueued_count s) (batched_count s) (batch_count s) (completed_count s) (fence_version s).

Definition count_batch (n : Z) (s : t) : t :=
  Scheduler (config s) (buckets s) (inflight_per_application s) (inflight_per_session s)
    (inflight_total s) (enqueued_count s) (batched_count s + n) (batch_count s + 1)
    (completed_count s) (fence_version s).

Definition take_batch (key : string) (batch : list PendingRequest) (s : t) : t :=
  count_batch (zlen batch) (foldl _acquire_quota (remove_items key (ident <$> batch) s) batch).

Definition next_batch (now : time) (s : t) : t * list PendingRequest :=
  if fenced s && (0 <? inflight_total s) then (s, [])
  else match foldl (consider now s) None (items (buckets s)) with
  | None => (s, [])
  | Some (key, best) =>
      let batch := take (Z.to_nat (limit_of s)) best in (take_batch key batch s, batch)
  end.

(** The loop of [time_until_ready]: a full bucket answers at once. *)
Fixpoint scan_ready (now : time) (s : t) (best : option time) (bs : list (list PendingRequest)) :
    option time :=
  match bs with
  | [] => best
  | b :: bs' =>
      let selectable := _selectable b (limit_of s) s in
      match selectable with
      | [] => scan_ready now s best bs'
      | _ =>
          if limit_of s <=? zlen selectable then Some 0
          else
            let remaining := Z.max 0 (wait_of s - (now - oldest selectable)) in
            scan_ready now s
              (Some (match best with None => remaining | Some b => Z.min b remaining end)) bs'
      end
  end.

Definition time_until_ready (now : time) (s : t) : option time :=
  if fenced s && (0 <? inflight_total s) then None
  else scan_ready now s None (values (buckets s)).

(** Decrement, dropping the key at zero. *)
Definition decr (k : string) (d : pydict string Z) : pydict string Z :=
  let left := get_or d k 0 - 1 in if 0 <? left then <[k := left]> d else delete k d.

Definition complete (p : PendingRequest) (s : t) : t :=
  Scheduler (config s) (buckets s)
    (if str_true (application_id p)
     then decr (application_id p) (inflight_per_application s) else inflight_per_application s)
    (decr (session_id p) (inflight_per_session s)) (Z.max 0 (inflight_total s - 1))
    (enqueued_count s) (batched_count s) (batch_count s) (completed_count s + 1) (fence_version s).

(** ** Requests issued and not completed *)

Definition queued (s : t) : list PendingRequest := concat (values (buckets s)).

Inductive step : t * list PendingRequest → t * list PendingRequest → Prop :=
  | step_enqueue s inflight p :
      ident p ∉ ident <$> (queued s ++ inflight) →
      step (s, inflight) (enqueue p s, inflight)
  | step_next_batch s inflight now :
      step (s, inflight) ((next_batch now s).1, (next_batch now s).2 ++ inflight)
  | step_complete s inflight p rest :
      inflight ≡ₚ p :: rest → step (s, inflight) (complete p s, rest)
  | step_begin_fence s inflight v : step (s, inflight) (begin_version_fence v s, inflight)
  | step_end_fence s inflight : step (s, inflight) (end_version_fence s, inflight).

Definition reachable (c : SchedulerConfig) (x : t * list PendingRequest) : Prop :=
  rtc step (init c, []) x.

Definition of_app (a : string) (l : list PendingRequest) : Z :=
  count (λ p, String.eqb (application_id p) a) l.
Definition of_session (sid : SessionId) (l : list PendingRequest) : Z :=
  count (λ p, String.eqb (session_id p) sid) l.

Record wf (s : t) (inflight : list PendingRequest) : Prop := {
  wf_buckets : dict_wf (buckets s);
  wf_bucket k b : buckets s !! k = Some b → b ≠ [] ∧ ∀ p, p ∈ b → compat_key p = k;
  wf_idents : NoDup (ident <$> (queued s ++ inflight));
  wf_app a : a ≠ EmptyString → get_or (inflight_per_application s) a 0 = of_app a inflight;
  wf_session sid : get_or (inflight_per_session s) sid 0 = of_session sid inflight;
  wf_total : inflight_total s = zlen inflight;
  wf_app_limit a : a ≠ EmptyString →
    of_app a inflight ≤ Z.max 0 (max_inflight_per_application (config s));
  wf_session_limit sid :
    of_session sid inflight ≤ Z.max 0 (max_inflight_per_session (config s));
  wf_enqueued : enqueued_count s = batched_count s + queue_depth s;
  wf_batched : batched_count s = completed_count s + zlen inflight;
}.

(** ** Picking *)

Lemma get_or_incr d k k' : get_or (incr k' d) k 0 = get_or d k 0 + (if decide (k = k') then 1 else 0).
Proof. unfold incr, get_or. rewrite dict_lookup_insert. case_decide; subst; simpl; lia. Qed.

Lemma pick_sublist room cs ea es s : pick room cs ea es s `sublist_of` cs.
Proof.
  revert room ea es. induction cs as [|p cs IH]; intros [|room] ea es; simpl;
    try (constructor; fail); [apply sublist_nil_l|].
  destruct (_has_quota _ _ _ _); constructor; apply IH.
Qed.

Lemma pick_length room cs ea es s : (length (pick room cs ea es s) ≤ room)%nat.
Proof.
  revert room ea es. induction cs as [|p cs IH]; intros [|room] ea es; simpl; try lia.
  destruct (_has_quota _ _ _ _); simpl; [specialize (IH room)|specialize (IH (S room))].
  - apply le_n_S, IH.
  - apply IH.
Qed.

Lemma has_quota_spec p ea es s :
  _has_quota p ea es s = true ↔
    (application_id p ≠ EmptyString →
       get_or (inflight_per_application s) (application_id p) 0 + get_or ea (application_id p) 0
         < max_inflight_per_application (config s)) ∧
    get_or (inflight_per_session s) (session_id p) 0 + get_or es (session_id p) 0
      < max_inflight_per_session (config s).
Proof.
  unfold _has_quota. rewrite <- str_true_spec, <- Z.ltb_lt, <- Z.ltb_lt.
  rewrite (Z.ltb_antisym (max_inflight_per_application _)).
  destruct (str_true (application_id p)), (max_inflight_per_application (config s) <=? _);
    simpl; naive_solver.
Qed.

(** The quotas are respected incrementally. *)
Lemma pick_quota room cs ea es s :
  (∀ a, a ≠ EmptyString →
     get_or (inflight_per_application s) a 0 + get_or ea a 0 + of_app a (pick room cs ea es s)
       ≤ Z.max (get_or (inflight_per_application s) a 0 + get_or ea a 0)
           (max_inflight_per_application (config s))) ∧
  (∀ sid, get_or (inflight_per_session s) sid 0 + get_or es sid 0 + of_session sid (pick room cs ea es s)
       ≤ Z.max (get_or (inflight_per_session s) sid 0 + get_or es sid 0)
           (max_inflight_per_session (config s))).
Proof.
  unfold of_app, of_session. revert room ea es.
  induction cs as [|p cs IH]; intros [|room] ea es; simpl;
    try (split; intros; rewrite count_nil; lia).
  destruct (_has_quota p ea es s) eqn:Hq; [|apply IH].
  apply has_quota_spec in Hq as [Hqa Hqs].
  destruct (IH room (if str_true (application_id p) then incr (application_id p) ea else ea)
    (incr (session_id p) es)) as [IHa IHs]. split.
  - intros a Ha. specialize (IHa a Ha). rewrite count_cons. revert IHa.
    destruct (String.eqb_spec (application_id p) a) as [Heq|Hne]; simpl.
    + subst a. rewrite (proj2 (str_true_spec _) Ha), get_or_incr, decide_True by done.
      specialize (Hqa Ha). lia.
    + assert (get_or (if str_true (application_id p) then incr (application_id p) ea else ea) a 0
        = get_or ea a 0) as ->; [|lia].
      destruct (str_true _); [|done]. rewrite get_or_incr, decide_False by done. lia.
  - intros sid. specialize (IHs sid). rewrite count_cons. revert IHs.
    rewrite get_or_incr. destruct (String.eqb_spec (session_id p) sid) as [Heq|Hne]; simpl.
    + subst sid. rewrite decide_True by done. lia.
    + rewrite decide_False by done. lia.
Qed.

Lemma selectable_sublist b limit s : _selectable b limit s `sublist_of` sort_by item_leb b.
Proof. apply pick_sublist. Qed.
Lemma selectable_submseteq b limit s : _selectable b limit s ⊆+ b.
Proof.
  etrans; [apply sublist_submseteq, selectable_sublist|].
  apply Permutation_submseteq, sort_by_perm.
Qed.
Lemma selectable_length b limit s : 0 ≤ limit → zlen (_selectable b limit s) ≤ limit.
Proof.
  intros Hl. unfold _selectable, zlen.
  pose proof (pick_length (Z.to_nat limit) (sort_by item_leb b) ∅ ∅ s). lia.
Qed.

(** ** Choosing the bucket *)

Definition sel (s : t) (b : list PendingRequest) : list PendingRequest :=
  _selectable b (limit_of s) s.

Lemma limit_pos s : 1 ≤ limit_of s.
Proof. unfold limit_of. lia. Qed.

#[export] Instance key_leb_preorder : TotalPreorder key_leb.
Proof. unfold key_leb. apply _. Qed.

Lemma foldl_consider now s best l :
  match foldl (consider now s) best l with
  | None => best = None ∧ ∀ kb, kb ∈ l → ready now s (sel s kb.2) = false
  | Some (k, items) =>
      (best = Some (k, items) ∨
       ∃ b, (k, b) ∈ l ∧ items = sel s b ∧ ready now s items = true) ∧
      (∀ b, best = Some b → key_leb (rank_of items) (rank_of b.2) = true) ∧
      ∀ kb, kb ∈ l → ready now s (sel s kb.2) = true →
        key_leb (rank_of items) (rank_of (sel s kb.2)) = true
  end.
Proof.
  revert best. induction l as [|[k b] l IH]; intros best; simpl.
  - destruct best as [[k items]|]; [|split; [done|set_solver]].
    split; [by left|]. split; [|set_solver]. intros b [= <-]. apply leb_refl, _.
  - specialize (IH (consider now s best (k, b))).
    destruct (foldl _ _ l) as [[k' items]|].
    + destruct IH as (Hfrom & Hbest & Hall). unfold consider in *. simpl in *.
      fold (sel s b) in *. destruct (ready now s (sel s b)) eqn:Hr; simpl in *.
      * destruct best as [b0|].
        -- destruct (key_leb (rank_of b0.2) (rank_of (sel s b))) eqn:Hle; simpl in *.
           ++ split; [destruct Hfrom as [|(b' & ? & ?)]; [by left|right; exists b'; set_solver]|].
              split; [done|]. intros kb [->|Hin]%elem_of_cons; [|by apply Hall]. intros _. simpl.
              eapply (leb_trans (leb:=key_leb)); [by apply Hbest|done].
           ++ split; [right; destruct Hfrom as [[= <- <-]|(b' & ? & ?)];
                [exists b; set_solver|exists b'; set_solver]|].
              split.
              ** intros b1 [= <-]. specialize (Hbest _ eq_refl). simpl in Hbest.
                 eapply (leb_trans (leb:=key_leb)); [done|].
                 destruct (leb_total (leb:=key_leb) (rank_of b0.2) (rank_of (sel s b))); congruence.
              ** intros kb [->|Hin]%elem_of_cons; [|by apply Hall]. intros _. by apply (Hbest (k, _)).
        -- split; [right; destruct Hfrom as [[= <- <-]|(b' & ? & ?)];
             [exists b; set_solver|exists b'; set_solver]|].
           split; [done|]. intros kb [->|Hin]%elem_of_cons; [|by apply Hall]. intros _.
           by apply (Hbest (k, _)).
      * split; [destruct Hfrom as [|(b' & ? & ?)]; [by left|right; exists b'; set_solver]|].
        split; [done|]. intros kb [->|Hin]%elem_of_cons; [|by apply Hall]. simpl. congruence.
    + destruct IH as [Hnone Hall]. unfold consider in Hnone. simpl in Hnone. fold (sel s b) in Hnone.
      destruct (ready now s (sel s b)) eqn:Hr; simpl in Hnone.
      * destruct best as [b0|]; [|done]. by destruct (key_leb _ _).
      * split; [done|]. intros kb [->|Hin]%elem_of_cons; auto.
Qed.

(** What [next_batch] returns, before any accounting. *)
Lemma next_batch_cases now s :
  (next_batch now s = (s, []) ∧
   ((fenced s = true ∧ 0 < inflight_total s) ∨
    ∀ kb, kb ∈ items (buckets s) → ready now s (sel s kb.2) = false)) ∨
  ∃ k b, (fenced s = false ∨ inflight_total s ≤ 0) ∧ (k, b) ∈ items (buckets s) ∧
    next_batch now s = (take_batch k (sel s b) s, sel s b) ∧ ready now s (sel s b) = true ∧
    ∀ kb, kb ∈ items (buckets s) → ready now s (sel s kb.2) = true →
      key_leb (rank_of (sel s b)) (rank_of (sel s kb.2)) = true.
Proof.
  unfold next_batch. destruct (fenced s && (0 <? inflight_total s)) eqn:Hf.
  { left. split; [done|]. left. to_prop. done. }
  pose proof (foldl_consider now s None (items (buckets s))) as H.
  destruct (foldl _ _ _) as [[k its]|]; [|left; split; [done|right; apply H]].
  destruct H as ([?|(b & Hin & -> & Hr)] & _ & Hall); [done|]. right. exists k, b.
  assert (take (Z.to_nat (limit_of s)) (sel s b) = sel s b) as ->.
  { apply take_ge. pose proof (selectable_length b (limit_of s) s) as Hl. pose proof (limit_pos s).
    unfold zlen in Hl. unfold sel. lia. }
  split; [|done]. apply andb_false_iff in Hf as [?|?]; to_prop; auto.
Qed.

Lemma ready_nonempty now s l : ready now s l = true → l ≠ [].
Proof. by destruct l. Qed.

(** ** [time_until_ready] *)

Lemma ready_later now delta s b :
  sel s b ≠ [] → zlen (sel s b) < limit_of s → 0 ≤ delta →
  ready (now + delta) s (sel s b) = true ↔
    Z.max 0 (wait_of s - (now - oldest (sel s b))) ≤ delta.
Proof.
  intros Hne Hlen Hd. unfold ready. destruct (sel s b) as [|p l] eqn:Hs; [done|].
  rewrite orb_true_iff, !Z.leb_le. lia.
Qed.

Lemma scan_ready_spec now delta s best bs :
  0 ≤ delta →
  (∃ d, scan_ready now s best bs = Some d ∧ d ≤ delta) ↔
  (∃ x, best = Some x ∧ x ≤ delta) ∨ ∃ b, b ∈ bs ∧ ready (now + delta) s (sel s b) = true.
Proof.
  intros Hd. revert best. induction bs as [|b bs IH]; intros best; simpl.
  - split; [by left|]. intros [|(b & Hb & _)]; [done|]. by apply elem_of_nil in Hb.
  - fold (sel s b). pose proof (ready_later now delta s b) as Hrl.
    destruct (sel s b) as [|p l] eqn:Hs.
    + rewrite IH. split; [intros [|(b' & ? & ?)]; [by left|right; exists b'; set_solver]|].
      intros [|(b' & Hb' & Hr)]; [by left|right]. apply elem_of_cons in Hb' as [->|]; [|eauto].
      rewrite Hs in Hr. done.
    + destruct (Z.leb_spec (limit_of s) (zlen (p :: l))) as [Hle|Hlt].
      * split; [|intros _; by exists 0]. intros _. right. exists b. split; [by left|].
        rewrite Hs. unfold ready. by rewrite (proj2 (Z.leb_le _ _) Hle).
      * rewrite IH. specialize (Hrl ltac:(done) Hlt Hd). rewrite <- Hs in *. split.
        -- intros [(x & [= <-] & Hx)|(b' & ? & ?)]; [|right; exists b'; set_solver].
           destruct best as [y|]; [|right; exists b; split; [by left|by apply Hrl]].
           destruct (Z.le_gt_cases y delta); [left; eauto|].
           right. exists b. split; [by left|]. apply Hrl. lia.
        -- intros [(x & -> & Hx)|(b' & Hb' & Hr)]; [left; eexists; split; [done|]; lia|].
           apply elem_of_cons in Hb' as [->|]; [|right; eauto]. apply Hrl in Hr.
           left. eexists. split; [done|]. destruct best; lia.
Qed.

Lemma scan_ready_nonneg now s best bs d :
  (∀ x, best = Some x → 0 ≤ x) → scan_ready now s best bs = Some d → 0 ≤ d.
Proof.
  revert best. induction bs as [|b bs IH]; intros best Hb; simpl; [apply Hb|].
  destruct (_selectable b (limit_of s) s) as [|p l]; [by apply IH|].
  destruct (_ <=? _); [intros [= <-]; lia|]. apply IH.
  intros x [= <-]. destruct best as [y|]; [specialize (Hb y eq_refl)|]; lia.
Qed.

Lemma batch_ready_iff now delta s :
  0 ≤ delta →
  (next_batch (now + delta) s).2 ≠ [] ↔ ∃ d, time_until_ready now s = Some d ∧ d ≤ delta.
Proof.
  intros Hd. unfold time_until_ready.
  destruct (next_batch_cases (now + delta) s) as [[Hn Hwhy]|(k & b & Hf & Hin & Hn & Hr & _)]; rewrite Hn; simpl.
  - split; [done|]. intros (d & Hd' & Hle). destruct Hwhy as [[Hf Hi]|Hall].
    + rewrite Hf, (proj2 (Z.ltb_lt _ _) Hi) in Hd'. done.
    + destruct (fenced s && _); [done|].
      assert (∃ d, scan_ready now s None (values (buckets s)) = Some d ∧ d ≤ delta) as Hs by eauto.
      apply scan_ready_spec in Hs as [(x & ? & _)|(b & Hb & Hr)]; [done| |done].
      apply list_elem_of_fmap in Hb as (kb & -> & Hkb). rewrite (Hall kb Hkb) in Hr. done.
  - assert (fenced s && (0 <? inflight_total s) = false) as ->.
    { apply andb_false_iff. destruct Hf; [by left|right]. by apply Z.ltb_ge. }
    split; [|intros _; by eapply ready_nonempty]. intros _. apply scan_ready_spec; [done|].
    right. exists b. split; [|done]. apply list_elem_of_fmap. by exists (k, b).
Qed.

(** ** Accounting *)

Lemma queue_depth_queued s : queue_depth s = zlen (queued s).
Proof.
  unfold queue_depth, queued. induction (values (buckets s)) as [|l ls IH]; [done|].
  simpl. by rewrite sumZ_cons, zlen_app, IH.
Qed.

Lemma concat_perm {A} (l1 l2 : list (list A)) : l1 ≡ₚ l2 → concat l1 ≡ₚ concat l2.
Proof.
  induction 1; simpl; [done|by apply Permutation_app_head| |by eapply Permutation_trans].
  rewrite !(assoc_L (++)). f_equiv. apply Permutation_app_comm.
Qed.

Lemma foldl_acquire l s :
  let s' := foldl _acquire_quota s l in
  config s' = config s ∧ buckets s' = buckets s ∧ fence_version s' = fence_version s ∧
  enqueued_count s' = enqueued_count s ∧ batched_count s' = batched_count s ∧
  batch_count s' = batch_count s ∧ completed_count s' = completed_count s ∧
  inflight_total s' = inflight_total s + zlen l ∧
  (∀ a, a ≠ EmptyString → get_or (inflight_per_application s') a 0 =
     get_or (inflight_per_application s) a 0 + of_app a l) ∧
  (∀ sid, get_or (inflight_per_session s') sid 0 =
     get_or (inflight_per_session s) sid 0 + of_session sid l).
Proof.
  revert s. induction l as [|p l IH]; intros s; cbn [foldl].
  { unfold of_app, of_session. repeat split; intros; rewrite ?count_nil; unfold zlen; simpl; lia. }
  destruct (IH (_acquire_quota s p)) as (-> & -> & -> & -> & -> & -> & -> & Ht & Ha & Hs).
  repeat split; simpl.
  - rewrite Ht. unfold zlen. simpl. lia.
  - intros a Hne. rewrite (Ha a Hne). unfold of_app. rewrite count_cons. simpl.
    destruct (String.eqb_spec (application_id p) a) as [Heq|Hneq]; simpl.
    + subst a. rewrite (proj2 (str_true_spec _) Hne), get_or_incr, decide_True by done. lia.
    + destruct (str_true _); [rewrite get_or_incr, decide_False by done|]; lia.
  - intros sid. rewrite (Hs sid). unfold of_session. rewrite count_cons. simpl.
    rewrite get_or_incr. destruct (String.eqb_spec (session_id p) sid) as [Heq|Hneq]; simpl.
    + subst sid. rewrite decide_True by done. lia.
    + rewrite decide_False by done. lia.
Qed.

(** Taking elements out of a list by identity. *)
Lemma take_out_perm (b batch : list PendingRequest) :
  NoDup (ident <$> b) → batch ⊆+ b →
  b ≡ₚ batch ++ bfilter (λ p, negb (member (ident p) (ident <$> batch))) b.
Proof.
  intros Hnd (k & Hk)%submseteq_Permutation. set (f := λ p, _).
  assert (Hf : ∀ p, f p = true ↔ ident p ∉ ident <$> batch).
  { intros p. unfold f, member. by rewrite negb_true_iff, bool_decide_eq_false. }
  assert (bfilter f b ≡ₚ bfilter f batch ++ bfilter f k) as ->.
  { unfold bfilter. rewrite Hk. by rewrite filter_app. }
  rewrite (bfilter_none f batch), (bfilter_all f k); [done| |].
  - intros p Hp. apply Hf. intros Hin. rewrite Hk, fmap_app in Hnd.
    apply NoDup_app in Hnd as (_ & Hd & _). apply (Hd _ Hin). by apply list_elem_of_fmap_2.
  - intros p Hp. apply not_true_iff_false. rewrite Hf. intros H. apply H.
    by apply list_elem_of_fmap_2.
Qed.

Lemma bucket_idents s inflight k b :
  wf s inflight → buckets s !! k = Some b → NoDup (ident <$> b).
Proof.
  intros Hwf Hb. pose proof (wf_idents s inflight Hwf) as Hnd. unfold queued in Hnd.
  rewrite (concat_perm _ _ (values_delete_perm _ _ _ (wf_buckets s inflight Hwf) Hb)) in Hnd.
  simpl in Hnd. rewrite !fmap_app in Hnd. by apply NoDup_app in Hnd as [[? _]%NoDup_app _].
Qed.

(** The state after a batch of a bucket was taken. *)
Lemma take_batch_spec k b s inflight :
  wf s inflight → buckets s !! k = Some b →
  let s' := take_batch k (sel s b) s in
  let inflight' := sel s b ++ inflight in
  config s' = config s ∧ fence_version s' = fence_version s ∧
  queued s ≡ₚ sel s b ++ queued s' ∧ wf s' inflight'.
Proof.
  intros Hwf Hb. pose proof Hwf as [Hd Hbk Hid Ha Hs Ht Hla Hls He Hba].
  unfold take_batch. set (s1 := remove_items _ _ _).
  set (rest := bfilter (λ p, negb (member (ident p) (ident <$> sel s b))) (get_or (buckets s) k [])).
  destruct (foldl_acquire (sel s b) s1) as (E1 & E2 & E3 & E4 & E5 & E6 & E7 & E8 & E9 & E10).
  assert (Hperm : b ≡ₚ sel s b ++ rest).
  { unfold rest, get_or. rewrite Hb. simpl.
    apply take_out_perm; [by eapply bucket_idents|]. apply selectable_submseteq. }
  assert (Hbs : buckets s1 = match rest with [] => delete k (buckets s) | _ => <[k := rest]> (buckets s) end) by done.
  assert (Hq : queued s ≡ₚ sel s b ++ concat (values (buckets s1))).
  { rewrite Hbs. clearbody s1. unfold queued. rewrite (concat_perm _ _ (values_delete_perm _ _ _ Hd Hb)). simpl.
    etrans; [apply (Permutation_app_tail (concat (values (delete k (buckets s)))) Hperm)|].
    rewrite <- (assoc_L (++)). apply Permutation_app_head. destruct rest as [|r rest']; [done|].
    by rewrite (concat_perm _ _ (values_insert_perm _ k _ Hd)). }
  set (s' := count_batch _ _).
  assert (Hq' : queued s ≡ₚ sel s b ++ queued s') by (unfold queued at 2, s'; simpl; by rewrite E2).
  split; [done|]. split; [done|]. split; [done|].
  pose proof (pick_quota (Z.to_nat (limit_of s)) (sort_by item_leb b) ∅ ∅ s) as [Pa Ps].
  assert (Hlen : zlen (queued s) = zlen (sel s b) + zlen (queued s')).
  { unfold zlen. rewrite Hq', length_app. lia. }
  constructor; unfold s'; simpl; rewrite ?E1, ?E2, ?E4, ?E5, ?E7, ?E8.
  - rewrite Hbs. destruct rest; auto with dict.
  - intros k' b'. rewrite Hbs. destruct rest as [|r rest'] eqn:Hrest.
    + rewrite dict_lookup_delete. case_decide; [done|]. apply Hbk.
    + rewrite dict_lookup_insert. case_decide; [|apply Hbk]. subst k'. intros [= <-].
      split; [done|]. intros p Hp. apply (Hbk k b Hb).
      rewrite <- Hrest in Hp. apply elem_of_bfilter in Hp as [_ Hp].
      unfold get_or in Hp. by rewrite Hb in Hp.
  - rewrite Hq' in Hid.
    assert (Hp : queued s' ++ sel s b ++ inflight ≡ₚ (sel s b ++ queued s') ++ inflight).
    { rewrite (assoc_L (++)). apply Permutation_app_tail, Permutation_app_comm. }
    change (NoDup (ident <$> (queued s' ++ sel s b ++ inflight))). by rewrite Hp.
  - intros a Hne. rewrite (E9 a Hne). unfold of_app. rewrite count_app. simpl.
    rewrite (Ha a Hne). unfold of_app. lia.
  - intros sid. rewrite (E10 sid). unfold of_session. rewrite count_app. simpl.
    rewrite (Hs sid). unfold of_session. lia.
  - simpl. rewrite zlen_app, Ht. lia.
  - intros a Hne. specialize (Pa a Hne). specialize (Hla a Hne). rewrite (Ha a Hne) in Pa.
    fold (_selectable b (limit_of s) s) in Pa. fold (sel s b) in Pa.
    unfold of_app in *. rewrite count_app. cbn [get_or] in Pa. simpl. 
    change (get_or ∅ a 0) with 0 in Pa. lia.
  - intros sid. specialize (Ps sid). specialize (Hls sid). rewrite (Hs sid) in Ps.
    fold (_selectable b (limit_of s) s) in Ps. fold (sel s b) in Ps.
    unfold of_session in *. rewrite count_app. simpl.
    change (get_or ∅ sid 0) with 0 in Ps. lia.
  - rewrite queue_depth_queued in He |- *. simpl. fold s'. lia.
  - rewrite zlen_app. simpl. lia.
Qed.

Lemma queued_enqueue p s : dict_wf (buckets s) → queued (enqueue p s) ≡ₚ p :: queued s.
Proof.
  intros Hd. unfold queued, enqueue. cbn [buckets].
  rewrite (concat_perm _ _ (values_insert_perm _ (compat_key p) _ Hd)). simpl. unfold get_or.
  destruct (buckets s !! compat_key p) as [b|] eqn:Hb; simpl.
  - rewrite (concat_perm (values (buckets s)) _ (values_delete_perm _ _ _ Hd Hb)). simpl.
    rewrite <- (assoc_L (++)). symmetry. apply Permutation_middle.
  - by rewrite delete_absent.
Qed.

Lemma get_or_decr d k k' :
  0 < get_or d k' 0 → get_or (decr k' d) k 0 = get_or d k 0 - (if decide (k = k') then 1 else 0).
Proof.
  intros Hp. unfold decr, get_or in *. destruct (Z.ltb_spec 0 (default 0 (d !! k') - 1));
    rewrite ?dict_lookup_insert, ?dict_lookup_delete; case_decide; subst; simpl; lia.
Qed.

Lemma of_app_cons a p l :
  of_app a (p :: l) = (if decide (a = application_id p) then 1 else 0) + of_app a l.
Proof.
  unfold of_app. rewrite count_cons. destruct (String.eqb_spec (application_id p) a);
    case_decide; subst; done.
Qed.
Lemma of_session_cons sid p l :
  of_session sid (p :: l) = (if decide (sid = session_id p) then 1 else 0) + of_session sid l.
Proof.
  unfold of_session. rewrite count_cons. destruct (String.eqb_spec (session_id p) sid);
    case_decide; subst; done.
Qed.

Lemma complete_wf p s inflight rest : inflight ≡ₚ p :: rest → wf s inflight → wf (complete p s) rest.
Proof.
  intros Hp [Hd Hbk Hid Ha Hs Ht Hla Hls He Hba].
  assert (Hca : ∀ a, of_app a inflight = (if decide (a = application_id p) then 1 else 0) + of_app a rest).
  { intros a. rewrite <- of_app_cons. by apply count_perm. }
  assert (Hcs : ∀ a, of_session a inflight = (if decide (a = session_id p) then 1 else 0) + of_session a rest).
  { intros a. rewrite <- of_session_cons. by apply count_perm. }
  assert (Hl : zlen inflight = 1 + zlen rest) by (unfold zlen; rewrite Hp; simpl; lia).
  assert (Hnna : ∀ a, 0 ≤ of_app a rest) by (intros; apply count_bounds).
  assert (Hnns : ∀ a, 0 ≤ of_session a rest) by (intros; apply count_bounds).
  pose proof (zlen_nonneg rest). constructor; simpl; try done.
  - rewrite Hp in Hid. change (queued (complete p s)) with (queued s).
    rewrite <- Permutation_middle in Hid. csimpl in Hid. by apply NoDup_cons in Hid as [_ ?].
  - intros a Hne. destruct (str_true (application_id p)) eqn:Hstr.
    + assert (application_id p ≠ EmptyString) as Hne' by by apply str_true_spec.
      rewrite get_or_decr, (Ha a Hne), Hca; [case_decide; subst; lia|].
      rewrite (Ha _ Hne'), Hca, decide_True by done. specialize (Hnna (application_id p)). lia.
    + rewrite (Ha a Hne), Hca, decide_False; [lia|]. intros ->.
      apply str_true_spec in Hne. congruence.
  - intros sid. rewrite get_or_decr, (Hs sid), Hcs; [case_decide; subst; lia|].
    rewrite Hs, Hcs, decide_True by done. specialize (Hnns (session_id p)). lia.
  - lia.
  - intros a Hne. specialize (Hla a Hne). rewrite Hca in Hla. case_decide; lia.
  - intros sid. specialize (Hls sid). rewrite Hcs in Hls. case_decide; lia.
  - lia.
Qed.

Lemma enqueue_wf p s inflight :
  ident p ∉ ident <$> (queued s ++ inflight) → wf s inflight → wf (enqueue p s) inflight.
Proof.
  intros Hfresh [Hd Hbk Hid Ha Hs Ht Hla Hls He Hba].
  pose proof (queued_enqueue p s Hd) as Hq.
  constructor; try done.
  - simpl. auto with dict.
  - intros k b. simpl. rewrite dict_lookup_insert. case_decide; [|apply Hbk].
    intros [= <-]. split; [by destruct (get_or _ _ _)|]. subst k. intros q.
    rewrite elem_of_app, list_elem_of_singleton. intros [Hin| ->]; [|done].
    unfold get_or in Hin. destruct (buckets s !! compat_key p) as [b|] eqn:Hb;
      [|by apply elem_of_nil in Hin]. by apply (Hbk _ _ Hb).
  - rewrite Hq. csimpl. by constructor.
  - rewrite queue_depth_queued in He |- *.
    assert (zlen (queued (enqueue p s)) = 1 + zlen (queued s)) as ->.
    { unfold zlen. rewrite Hq. simpl. lia. }
    simpl. lia.
Qed.

Lemma scheduler_step_wf s inflight s' inflight' :
  wf s inflight → step (s, inflight) (s', inflight') → wf s' inflight'.
Proof.
  intros Hwf Hst. inversion Hst as
    [? ? p Hf|? ? now|? ? p rest Hp|? ? v|? ?]; subst; clear Hst.
  - by apply enqueue_wf.
  - destruct (next_batch_cases now s) as [[-> _]|(k & b & _ & Hin & -> & _)]; [done|].
    apply (items_lookup _ _ _ (wf_buckets _ _ Hwf)) in Hin.
    apply (take_batch_spec k b s inflight Hwf Hin).
  - by eapply complete_wf.
  - destruct Hwf. by constructor.
  - destruct Hwf. by constructor.
Qed.

Lemma scheduler_reachable_wf c x : reachable c x → wf x.1 x.2 ∧ config x.1 = c.
Proof.
  intros H. eapply (rtc_invariant step (λ y, wf y.1 y.2 ∧ config y.1 = c)); [|exact H|].
  - intros [s1 i1] [s2 i2] [Hwf Hc] Hst. split; [by eapply scheduler_step_wf|].
    inversion Hst as [? ? p Hf|? ? now|? ? p rest Hp|? ? v|? ?]; subst; try done. simpl in *.
    destruct (next_batch_cases now s1) as [[-> _]|(k & b & _ & Hin & -> & _)]; [done|].
    apply (items_lookup _ _ _ (wf_buckets _ _ Hwf)) in Hin.
    apply (take_batch_spec k b s1 i1 Hwf Hin).
  - split; [|done]. constructor; try done; intros; simpl; unfold of_app, of_session;
      rewrite ?count_nil; try done; try lia; constructor.
Qed.

(** ** Properties *)

Definition demo_config : SchedulerConfig := {|
  max_batch_size := 2; max_wait_ms := 20000; max_queue_depth := 4;
  max_inflight_per_application := 3; max_inflight_per_session := 1; fixed_batch_size := None |}.
Definition demo_request (n : Z) (sid : SessionId) (pr : Priority.t) (at_ : time) : PendingRequest := {|
  ident := n; application_id := "app"; session_id := sid; compat_key := "k"; priority := pr;
  deadline := None; enqueued_at := at_; routing_token := "g:0" |}.
Definition demo1 : t := enqueue (demo_request 1 "s1" Priority.BATCH 0) (init demo_config).
Definition demo2 : t := enqueue (demo_request 2 "s2" Priority.INTERACTIVE 5) demo1.

Lemma demo2_scheduled : reachable demo_config (demo2, []).
Proof.
  eapply rtc_l; [apply (step_enqueue (init demo_config) [] (demo_request 1 "s1" Priority.BATCH 0))|].
  { vm_compute. by intros ?%elem_of_nil. }
  apply rtc_once. apply (step_enqueue demo1 [] (demo_request 2 "s2" Priority.INTERACTIVE 5)).
  vm_compute. by intros ?%list_elem_of_singleton.
Qed.

(** C34: the scheduler's books.  In every reachable state (fresh request objects, only
    issued requests completed) no request is queued twice, every bucket is nonempty and
    holds its own compatibility key, the in-flight counters are exactly the requests
    issued and not completed, no application and no session has more of them than its
    quota, and enqueued = batched + queued, batched = completed + in flight. *)
Theorem scheduler_invariant (c : SchedulerConfig) (s : t) (inflight : list PendingRequest) :
  reachable c (s, inflight) → wf s inflight.
Proof. intros H. apply (scheduler_reachable_wf c (s, inflight) H). Qed.

Lemma scheduler_invariant_witness : wf demo2 [].
Proof. apply (scheduler_invariant demo_config), demo2_scheduled. Defined.

(** What a batch is.  A batch holds at most the batch size, requests of one
    compatibility key, in order of priority, deadline and arrival; it is taken out of the
    queue and nothing else is lost or reordered into it; it is never issued inside a
    version fence while requests are in flight; and no other bucket that is ready has a
    more urgent first request. *)
Theorem next_batch_spec (c : SchedulerConfig) (s : t) (inflight : list PendingRequest) (now : time) :
  reachable c (s, inflight) →
  let (s', batch) := next_batch now s in
  zlen batch ≤ limit_of s ∧ queued s ≡ₚ batch ++ queued s' ∧
  StronglySorted (le_rel item_leb) batch ∧
  (batch ≠ [] → ∃ k b, buckets s !! k = Some b ∧ (∀ p, p ∈ batch → p ∈ b ∧ compat_key p = k) ∧
     (fenced s = true → inflight = []) ∧
     ∀ k' b', buckets s !! k' = Some b' → ready now s (sel s b') = true →
       key_leb (rank_of batch) (rank_of (sel s b')) = true).
Proof.
  intros [Hwf _]%scheduler_reachable_wf. simpl in Hwf. pose proof (limit_pos s) as Hl.
  destruct (next_batch_cases now s) as [[-> _]|(k & b & Hf & Hin & -> & _ & Hall)].
  { split; [unfold zlen; simpl; lia|]. split; [done|]. split; [constructor|done]. }
  apply (items_lookup _ _ _ (wf_buckets _ _ Hwf)) in Hin.
  destruct (take_batch_spec k b s inflight Hwf Hin) as (_ & _ & Hq & _).
  split; [apply selectable_length; lia|]. split; [done|]. split.
  { eapply strongly_sorted_sublist; [apply selectable_sublist|]. apply sort_by_sorted. apply _. }
  intros _. exists k, b. split; [done|]. split; [|split].
  - intros p Hp. assert (p ∈ b) as Hpb.
    { eapply elem_of_submseteq; [exact Hp|apply selectable_submseteq]. }
    split; [done|]. by apply (wf_bucket _ _ Hwf _ _ Hin).
  - intros Hfe. destruct Hf as [?|Hz]; [congruence|]. rewrite (wf_total _ _ Hwf) in Hz.
    destruct inflight; [done|]. unfold zlen in Hz. simpl in Hz. lia.
  - intros k' b' Hb'. apply (Hall (k', b')). by apply lookup_Some_items.
Qed.

Lemma next_batch_spec_witness :
  ident <$> (next_batch 10 demo2).2 = [2; 1] ∧ zlen (next_batch 10 demo2).2 ≤ limit_of demo2.
Proof.
  split; [vm_compute; reflexivity|].
  pose proof (next_batch_spec demo_config demo2 [] 10 demo2_scheduled) as H.
  destruct (next_batch 10 demo2) as [s' batch]. apply H.
Defined.

(** [time_until_ready] announces the next batch exactly.  Asked at [now], it answers a
    delay of at most [delta] if and only if [next_batch] issues a nonempty batch at
    [now + delta] (the state being otherwise unchanged): the worker that sleeps for the
    announced time neither polls in vain nor oversleeps. *)
Theorem time_until_ready_exact (now delta : time) (s : t) (Hd : 0 ≤ delta) :
  (next_batch (now + delta) s).2 ≠ [] ↔ ∃ d, time_until_ready now s = Some d ∧ d ≤ delta.
Proof. by apply batch_ready_iff. Qed.

Lemma time_until_ready_exact_witness :
  time_until_ready 10 demo1 = Some 10 ∧
  ((next_batch (10 + 9) demo1).2 ≠ [] ↔ ∃ d, time_until_ready 10 demo1 = Some d ∧ d ≤ 9).
Proof. split; [vm_compute; reflexivity|]. by apply time_until_ready_exact. Defined.

(** Progress.  When nothing is in flight and the quotas are positive, a nonempty queue
    is never stuck: [time_until_ready] answers, with at most the configured wait if no
    request comes from the future, and a batch is issued after that time. *)
Theorem queue_makes_progress (c : SchedulerConfig) (s : t) (now : time) :
  reachable c (s, []) → queued s ≠ [] →
  0 < max_inflight_per_application c → 0 < max_inflight_per_session c →
  (∀ p, p ∈ queued s → enqueued_at p ≤ now) →
  ∃ d, time_until_ready now s = Some d ∧ 0 ≤ d ≤ wait_of s ∧ (next_batch (now + d) s).2 ≠ [].
Proof.
  intros [Hwf Hc]%scheduler_reachable_wf Hq Ha Hs Hnow. simpl in *.
  assert (∃ k b p l, (k, b) ∈ items (buckets s) ∧ sel s b = p :: l) as (k & b & p & l & Hin & Hsel).
  { unfold queued, values in Hq. destruct (items (buckets s)) as [|[k b] its] eqn:Hits; [done|].
    assert (Hin : (k, b) ∈ items (buckets s)) by (rewrite Hits; by left).
    exists k, b. assert (Hb : b ≠ []).
    { apply (wf_bucket _ _ Hwf k b). by apply (items_lookup _ _ _ (wf_buckets _ _ Hwf)). }
    unfold sel, _selectable. destruct (sort_by item_leb b) as [|p cs] eqn:Hsort.
    { pose proof (sort_by_perm item_leb b) as Hp. rewrite Hsort in Hp.
      by apply Permutation_nil_l in Hp. }
    pose proof (limit_pos s). destruct (Z.to_nat (limit_of s)) eqn:Hn; [lia|]. simpl.
    rewrite (proj2 (has_quota_spec p ∅ ∅ s)); [eexists p, _; split; [by left|done]|].
    split.
    - intros Hne. rewrite (wf_app _ _ Hwf _ Hne). unfold of_app. rewrite count_nil, Hc. done.
    - rewrite (wf_session _ _ Hwf). unfold of_session. rewrite count_nil, Hc. done. }
  assert (Hready : ready (now + wait_of s) s (sel s b) = true).
  { unfold ready. rewrite Hsel. apply orb_true_iff. right. apply Z.leb_le.
    assert (Hold : oldest (p :: l) ≤ enqueued_at p).
    { unfold oldest. clear. induction l as [|q l IH]; simpl; lia. }
    assert (enqueued_at p ≤ now); [|lia]. apply Hnow. unfold queued.
    assert (p ∈ b) as Hp.
    { eapply elem_of_submseteq; [|apply (selectable_submseteq b (limit_of s) s)].
      fold (sel s b). rewrite Hsel. by left. }
    apply list_elem_of_In, in_concat. exists b. split; apply list_elem_of_In; [|done].
    apply list_elem_of_fmap. by exists (k, b). }
  assert (Hw : 0 ≤ wait_of s) by (unfold wait_of; lia).
  assert (Hf : (next_batch (now + wait_of s) s).2 ≠ []).
  { destruct (next_batch_cases (now + wait_of s) s) as [[_ [[_ Hi]|Hall]]|(k' & b' & _ & _ & -> & Hr & _)].
    - rewrite (wf_total _ _ Hwf) in Hi. done.
    - pose proof (Hall (k, b) Hin) as Hnr. discriminate (eq_trans (eq_sym Hready) Hnr).
    - by eapply ready_nonempty. }
  apply batch_ready_iff in Hf as (d & Hd & Hle); [|done]. exists d.
  assert (0 ≤ d).
  { unfold time_until_ready in Hd. destruct (fenced s && _); [done|].
    by eapply scan_ready_nonneg in Hd. }
  split; [done|]. split; [done|]. apply batch_ready_iff; [done|]. by exists d.
Qed.

Lemma queue_makes_progress_witness :
  ∃ d, time_until_ready 10 demo2 = Some d ∧ 0 ≤ d ≤ wait_of demo2 ∧
    (next_batch (10 + d) demo2).2 ≠ [].
Proof.
  apply (queue_makes_progress demo_config demo2 10 demo2_scheduled);
    [vm_compute; discriminate|reflexivity|reflexivity|].
  intros p Hp. vm_compute in Hp. set_unfold. destruct Hp as [->|[->|[]]]; vm_compute; discriminate.
Defined.

End InferenceBatchScheduler.
