(* ===== verification/Async.v ===== *)
(** * Coroutines and a rely-guarantee logic for them

    An [async def] runs without interruption from one [await] to the next: a coroutine
    ([coro]) returns or raises, reads or writes the shared state, or awaits the answer to a
    query.  [advance] runs one to its next [await]; a [system] is the shared state with the
    tasks of an event loop; [spawn] and [wake] are the loop's moves, in any order.  What an
    answer is, and what it does to the state (granting a lock, say), is the parameter
    [answers].

    [ok] is a program logic: a coroutine keeps its guarantee [G] between two states, issues
    a query only where [Pre] holds, and assumes that the others move the state along [Rely]
    while it waits.  [move_sound] says that tasks that are [ok] one by one, each with a
    guarantee the others can rely on, are so together. *)

From S2P Require Import Prelude.

Open Scope list_scope.

Section coroutines.
Context {S E Q : Type} {R : Q → Type}.

Inductive coro (A : Type) : Type :=
  | Ret (o : outcome E A)
  | Get (k : S → coro A)
  | Put (s : S) (k : coro A)
  | Await (q : Q) (k : outcome E (R q) → coro A).
#[global] Arguments Ret {A} _.
#[global] Arguments Get {A} _.
#[global] Arguments Put {A} _ _.
#[global] Arguments Await {A} _ _.

(** Run [m], then go on with what it returned or raised. *)
Fixpoint andthen {A B} (m : coro A) (f : outcome E A → coro B) : coro B :=
  match m with
  | Ret o => f o
  | Get k => Get (λ s, andthen (k s) f)
  | Put s k => Put s (andthen k f)
  | Await q k => Await q (λ o, andthen (k o) f)
  end.

#[global] Instance coro_ret : MRet coro := λ A a, Ret (Ok a).
#[global] Instance coro_bind : MBind coro := λ A B f m,
  andthen m (λ o, match o with Ok a => f a | Raise e => Ret (Raise e) end).

Definition throw {A} (e : E) : coro A := Ret (Raise e).
(** [try: m / except: h] and [try: m / finally: f]. *)
Definition except {A} (m : coro A) (h : E → coro A) : coro A :=
  andthen m (λ o, match o with Ok a => Ret (Ok a) | Raise e => h e end).
Definition finally {A} (m : coro A) (f : coro unit) : coro A :=
  andthen m (λ o, andthen f (λ o', match o' with Ok _ => Ret o | Raise e => Ret (Raise e) end)).
Definition await (q : Q) : coro (R q) := Await q Ret.
(** Code without an [await], as a program of the shared state. *)
Definition now {A} (m : prog S E A) : coro A :=
  Get (λ s, let '(s', o) := m s in Put s' (Ret o)).

(** Run to the next [await], or to the end. *)
Fixpoint advance {A} (m : coro A) (s : S) : S * coro A :=
  match m with
  | Ret _ | Await _ _ => (s, m)
  | Get k => advance (k s) s
  | Put s' k => advance k s'
  end.

(** ** The event loop *)

(** [issued] is the history of the queries: which task awaited what, oldest first. *)
Record system (A : Type) := System {
  st : S;
  tasks : gmap nat (coro A);
  issued : list (nat * Q);
}.
#[global] Arguments System {A} _ _ _.
#[global] Arguments st {A} _.
#[global] Arguments tasks {A} _.
#[global] Arguments issued {A} _.

Definition query_of {A} (m : coro A) : option Q := match m with Await q _ => Some q | _ => None end.
Definition result_of_task {A} (m : coro A) : option (outcome E A) := match m with Ret o => Some o | _ => None end.

Context {reply : Type} (answers : ∀ q : Q, reply → S → option (S * outcome E (R q))).

(** Task [i] runs [m] from [s] to its next [await]. *)
Definition settle {A} (i : nat) (m : coro A) (s : S) (x : system A) : system A :=
  let '(s', m') := advance m s in
  System s' (<[i := m']> (tasks x))
    (issued x ++ match query_of m' with Some q => [(i, q)] | None => [] end).

Definition spawn {A} (i : nat) (m : coro A) (x : system A) : system A := settle i m (st x) x.

(** The environment answers the query task [i] awaits: a no-op when it awaits nothing, or
    when [r] is no answer in this state. *)
Definition wake {A} (i : nat) (r : reply) (x : system A) : system A :=
  match tasks x !! i with
  | Some (Await q k) =>
      match answers q r (st x) with Some (s, o) => settle i (k o) s x | None => x end
  | _ => x
  end.

(** Everything else that moves the shared state. *)
Definition poke {A} (f : S → S) (x : system A) : system A := System (f (st x)) (tasks x) (issued x).

(** ** The logic *)

Section logic.
Context (Rely G : relation S) (Pre : Q → S → Prop).

Fixpoint ok {A} (Post : outcome E A → S → Prop) (m : coro A) (s : S) : Prop :=
  match m with
  | Ret o => Post o s
  | Get k => ok Post (k s) s
  | Put s' k => G s s' ∧ ok Post k s'
  | Await q k => Pre q s ∧
      ∀ s1 r s2 o, Rely s s1 → answers q r s1 = Some (s2, o) → G s1 s2 ∧ ok Post (k o) s2
  end.

(** A task at rest: it only waits, for an answer that finds it [ok]. *)
Definition parked {A} (Post : outcome E A → S → Prop) (m : coro A) (s : S) : Prop :=
  match m with
  | Ret o => True
  | Await q k => ∀ s1 r s2 o, Rely s s1 → answers q r s1 = Some (s2, o) → G s1 s2 ∧ ok Post (k o) s2
  | _ => False
  end.

Lemma ok_andthen {A B} (Post : outcome E B → S → Prop) (m : coro A) (f : outcome E A → coro B) s :
  ok (λ o s', ok Post (f o) s') m s → ok Post (andthen m f) s.
Proof.
  revert s. induction m as [o|k IH|s' k IH|q k IH]; intros s; simpl; [done|apply IH| |].
  - intros [HG Hk]. split; [done|]. by apply IH.
  - intros [HP Hk]. split; [done|]. intros s1 r s2 o HR Ha. destruct (Hk s1 r s2 o HR Ha) as [HG Ho].
    split; [done|]. by apply IH.
Qed.

Lemma ok_mono {A} (P P' : outcome E A → S → Prop) (m : coro A) s :
  (∀ o s', P o s' → P' o s') → ok P m s → ok P' m s.
Proof.
  intros H. revert s. induction m as [o|k IH|s' k IH|q k IH]; intros s; simpl; [apply H|apply IH| |].
  - intros [HG Hk]. split; [done|]. by apply IH.
  - intros [HP Hk]. split; [done|]. intros s1 r s2 o HR Ha. destruct (Hk s1 r s2 o HR Ha). split; [done|]. by apply IH.
Qed.

Lemma ok_bind {A B} (Post : outcome E B → S → Prop) (m : coro A) (f : A → coro B) s :
  ok (λ o s', match o with Ok a => ok Post (f a) s' | Raise e => Post (Raise e) s' end) m s →
  ok Post (m ≫= f) s.
Proof. intros H. apply ok_andthen. eapply ok_mono; [|exact H]. by intros [a|e] s'. Qed.

Lemma ok_now {A} (Post : outcome E A → S → Prop) (m : prog S E A) s :
  G s (after m s) → Post (result_of m s) (after m s) → ok Post (now m) s.
Proof. unfold after, result_of. simpl. destruct (m s) as [s' o]. done. Qed.

Lemma ok_await (Post : ∀ q, outcome E (R q) → S → Prop) q s :
  Pre q s → (∀ s1 r s2 o, Rely s s1 → answers q r s1 = Some (s2, o) → G s1 s2 ∧ Post q o s2) →
  ok (Post q) (await q) s.
Proof. done. Qed.

Lemma ok_except {A} (Post : outcome E A → S → Prop) (m : coro A) (h : E → coro A) s :
  ok (λ o s', match o with Ok a => Post (Ok a) s' | Raise e => ok Post (h e) s' end) m s →
  ok Post (except m h) s.
Proof. intros H. apply ok_andthen. eapply ok_mono; [|exact H]. by intros [a|e] s'. Qed.

Lemma ok_finally {A} (Post : outcome E A → S → Prop) (m : coro A) (f : coro unit) s :
  ok (λ o s', ok (λ o' s'', Post (match o' with Ok _ => o | Raise e => Raise e end) s'') f s') m s →
  ok Post (finally m f) s.
Proof.
  intros H. apply ok_andthen. eapply ok_mono; [|exact H]. intros o s' Hf. apply ok_andthen.
  eapply ok_mono; [|exact Hf]. by intros [[]|e] s''.
Qed.

(** What every move keeps, whoever makes it, holds between the start and the end. *)
Lemma ok_track {A} (T : relation S) `{!PreOrder T} (Post : outcome E A → S → Prop) (m : coro A) s :
  (∀ x y, G x y → T x y) → (∀ x y, Rely x y → T x y) →
  ok Post m s → ok (λ o s', Post o s' ∧ T s s') m s.
Proof.
  intros HGT HRT. revert s. assert (∀ s0 s, T s0 s → ok Post m s → ok (λ o s', Post o s' ∧ T s0 s') m s) as H.
  { induction m as [o|k IH|s' k IH|q k IH]; intros s0 s HT; simpl; [done|by apply IH| |].
    - intros [HG Hk]. split; [done|]. apply IH; [|done]. etrans; [done|]. by apply HGT.
    - intros [HP Hk]. split; [done|]. intros s1 r s2 o HR Ha. destruct (Hk s1 r s2 o HR Ha) as [HG Ho].
      split; [done|]. apply IH; [|done]. etrans; [done|]. etrans; [by apply HRT|by apply HGT]. }
  intros s Hs. by apply H.
Qed.

(** Where a coroutine stops: it kept its guarantee, and waits with its precondition or has
    reached its postcondition. *)
Lemma advance_ok {A} `{!PreOrder G} (Post : outcome E A → S → Prop) (m : coro A) s :
  ok Post m s →
  G s (advance m s).1 ∧ parked Post (advance m s).2 (advance m s).1 ∧
  (∀ q, query_of (advance m s).2 = Some q → Pre q (advance m s).1) ∧
  (∀ o, result_of_task (advance m s).2 = Some o → Post o (advance m s).1).
Proof.
  revert s. induction m as [o|k IH|s' k IH|q k IH]; intros s; simpl.
  - intros HP. split; [reflexivity|]. split_and!; try done. by intros o' [= <-].
  - apply IH.
  - intros [HG Hk]. destruct (IH s' Hk) as (HG' & Hrest). split; [by etrans|done].
  - intros [HP Hk]. split; [reflexivity|]. split_and!; try done. by intros q' [= <-].
Qed.

Lemma parked_stable {A} `{!PreOrder Rely} (Post : outcome E A → S → Prop) (m : coro A) s s' :
  Rely s s' → parked Post m s → parked Post m s'.
Proof.
  intros HR. destruct m; simpl; try done. intros H s1 r s2 o HR' Ha. apply (H s1 r s2 o); [by etrans|done].
Qed.
End logic.

Lemma ok_weaken {A} (Rely G G' : relation S) (Pre : Q → S → Prop) (Post : outcome E A → S → Prop) (m : coro A) s :
  (∀ x y, G' x y → G x y) → ok Rely G' Pre Post m s → ok Rely G Pre Post m s.
Proof.
  intros H. revert s. induction m as [o|k IH|s' k IH|q k IH]; intros s; simpl; [done|apply IH| |].
  - intros [HG Hk]. split; [by apply H|]. by apply IH.
  - intros [HP Hk]. split; [done|]. intros s1 r s2 o HR Ha. destruct (Hk s1 r s2 o HR Ha) as [HG Ho].
    split; [by apply H|]. by apply IH.
Qed.

(** ** Tasks together *)

Section tasks.
Context {A : Type} (Rely G : nat → relation S) (Pre : nat → Q → S → Prop) (Post : nat → outcome E A → S → Prop).
Context `{!∀ i, PreOrder (Rely i)} `{!∀ i, PreOrder (G i)}.
Context (G_Rely : ∀ i j s s', i ≠ j → G i s s' → Rely j s s').

Definition all_parked (x : system A) : Prop :=
  ∀ i m, tasks x !! i = Some m → parked (Rely i) (G i) (Pre i) (Post i) m (st x).

(** What one move of task [i] does. *)
Record moved (i : nat) (x y : system A) : Prop := {
  moved_state : G i (st x) (st y);
  moved_tasks j : j ≠ i → tasks y !! j = tasks x !! j;
  moved_issued : (issued y = issued x ∧ ∃ o, tasks y !! i = Some (Ret o) ∧ Post i o (st y)) ∨
    (∃ q k, issued y = issued x ++ [(i, q)] ∧ tasks y !! i = Some (Await q k) ∧ Pre i q (st y));
}.

Lemma settle_sound i m s (x : system A) :
  all_parked x → G i (st x) s → ok (Rely i) (G i) (Pre i) (Post i) m s →
  all_parked (settle i m s x) ∧ moved i x (settle i m s x).
Proof.
  intros Hx HG Hm. pose proof (advance_ok (Rely i) (G i) (Pre i) (Post i) m s Hm) as (HG' & Hp & Hq & Ho).
  unfold settle. destruct (advance m s) as [s' m']. simpl in *.
  assert (G i (st x) s') as HG'' by (by etrans). split.
  - intros j n Hj. simpl in *. destruct (decide (j = i)) as [->|Hne].
    + rewrite lookup_insert_eq in Hj. by injection Hj as <-.
    + rewrite lookup_insert_ne in Hj by done. eapply parked_stable; [typeclasses eauto|eapply (G_Rely i j); eauto|]. by apply Hx.
  - split; simpl; [done|intros j Hj; by rewrite lookup_insert_ne|]. rewrite lookup_insert_eq.
    destruct m' as [o|k|s'' k|q k]; simpl in *; [left|done|done|right].
    + rewrite app_nil_r. split; [done|]. exists o. split; [done|]. by apply Ho.
    + exists q, k. split; [done|]. split; [done|]. by apply Hq.
Qed.

Lemma spawn_sound i m (x : system A) :
  all_parked x → ok (Rely i) (G i) (Pre i) (Post i) m (st x) →
  all_parked (spawn i m x) ∧ moved i x (spawn i m x).
Proof. intros Hx Hm. apply settle_sound; [done|reflexivity|done]. Qed.

Lemma wake_sound i r (x : system A) :
  all_parked x → all_parked (wake i r x) ∧ (wake i r x = x ∨ moved i x (wake i r x)).
Proof.
  intros Hx. unfold wake. destruct (tasks x !! i) as [m|] eqn:Hi; [|by split; [|left]].
  destruct m as [o|k|s k|q k]; try by (split; [|left]).
  destruct (answers q r (st x)) as [[s o]|] eqn:Ha; [|by split; [|left]].
  specialize (Hx i _ Hi) as Hp. simpl in Hp. destruct (Hp (st x) r s o) as [HG Hok]; [reflexivity|done|].
  destruct (settle_sound i (k o) s x Hx HG Hok) as [H1 H2]. split; [done|by right].
Qed.

Lemma poke_sound f (x : system A) :
  all_parked x → (∀ i, Rely i (st x) (f (st x))) → all_parked (poke f x).
Proof. intros Hx Hf i m Hi. eapply parked_stable; [typeclasses eauto|apply Hf|]. by apply Hx. Qed.
End tasks.
End coroutines.

#[global] Arguments coro {S E Q} R A.
#[global] Arguments system {S E Q} R A.
