(* ===== verification/EnvPool.v ===== *)
(** * Environment pools: [EnvPool] of [rollout_runtime/workers/env_worker.py]

    A worker keeps one pool of simulator slots per environment spec.  A pool hands out warm
    slots; when none is free it creates one ("cold"), and a maintenance loop shrinks idle
    ones.  Creating and removing run in threads while other coroutines use the pool, so the
    pool reserves capacity first and settles afterwards.  A method is cut where it awaits:
    [flight] is a coroutine between two of its segments, and a run is any sequence of
    segments ([event]).

    The execution core is another object: of it the model keeps the slot count and what
    [DynamicSlotPool] ([core/env_execution.py]) promises: [add_slot] appends at the end or
    fails, [remove_slot] removes the last slot or fails.  The semaphore that bounds
    concurrent creations is left out: it only forbids some of the runs.

    Theorems: a slot is never in two hands, in every run; the bookkeeping is exact and the
    capacity bound holds in the runs where creation and removal do not overlap; a run where
    they do, after which the pool never shrinks again. *)

From stdpp Require Import pretty.
From S2P Require Import Prelude Sorting Codec Api.

Open Scope string_scope.
Open Scope list_scope.
Open Scope Z_scope.

(** [EnvExecutionCore], as far as a pool uses it: [grows] when it provides the methods of
    [DynamicSlotPool], [vector] when [core_form] is ["lockstep_vector"]. *)
Record core := Core { count : Z; grows : bool; vector : bool }.

(** [DynamicSlotPool.add_slot]: [None] when it raised. *)
Definition add_slot (works : bool) (c : core) : core * option Z :=
  if works then (Core (count c + 1) (grows c) (vector c), Some (count c)) else (c, None).
(** [DynamicSlotPool.remove_slot]: it raises on any slot but the last. *)
Definition remove_slot (works : bool) (index : Z) (c : core) : core * bool :=
  if works && (index =? count c - 1) then (Core (count c - 1) (grows c) (vector c), true) else (c, false).

Module EnvPool.

(** [spec_size] and [max_size] are [env_spec.pool_size] and
    [env_spec.effective_max_pool_size()]. *)
Record t := Pool {
  pool_key : string;
  spec_size : Z;
  max_size : Z;
  the_core : option core;
  warm_free_slots : list Z;
  active_slots : gset Z;
  unhealthy : bool;
  pending_bindings : Z;
  evicting : bool;
  _pending_cold_creates : Z;
  _reserved_slot_count : Z;
  _next_seed_offset_hint : Z;
}.

Definition op (A : Type) : Type := prog t exn A.

(** [range(n)] *)
Definition range (n : Z) : list Z := seqZ 0 n.

(** [__init__] *)
Definition make (key : string) (size max : Z) (c : option core) : t := {|
  pool_key := key; spec_size := size; max_size := max; the_core := c;
  warm_free_slots := range size; active_slots := ∅; unhealthy := false; pending_bindings := 0;
  evicting := false; _pending_cold_creates := 0; _reserved_slot_count := size;
  _next_seed_offset_hint := size |}.

Definition set_slots (warm : list Z) (active : gset Z) (p : t) : t :=
  Pool (pool_key p) (spec_size p) (max_size p) (the_core p) warm active (unhealthy p)
    (pending_bindings p) (evicting p) (_pending_cold_creates p) (_reserved_slot_count p) (_next_seed_offset_hint p).
Definition set_counts (pending reserved hint : Z) (p : t) : t :=
  Pool (pool_key p) (spec_size p) (max_size p) (the_core p) (warm_free_slots p) (active_slots p) (unhealthy p)
    (pending_bindings p) (evicting p) pending reserved hint.
Definition set_core (c : option core) (p : t) : t :=
  Pool (pool_key p) (spec_size p) (max_size p) c (warm_free_slots p) (active_slots p) (unhealthy p)
    (pending_bindings p) (evicting p) (_pending_cold_creates p) (_reserved_slot_count p) (_next_seed_offset_hint p).
Definition set_marks (bad : bool) (pending : Z) (evict : bool) (p : t) : t :=
  Pool (pool_key p) (spec_size p) (max_size p) (the_core p) (warm_free_slots p) (active_slots p) bad
    pending evict (_pending_cold_creates p) (_reserved_slot_count p) (_next_seed_offset_hint p).

(** The properties. *)
Definition pool_size (p : t) : Z :=
  match the_core p with Some c => if grows c then count c else spec_size p | None => spec_size p end.
Definition in_use (p : t) : Z := zlen (elements (active_slots p)).
Definition lockstep (p : t) : bool := match the_core p with Some c => vector c | None => false end.
Definition dynamic (p : t) : bool :=
  match the_core p with Some c => negb (vector c) && grows c | None => false end.

Definition short_key (p : t) : string := String.substring 0 12 (pool_key p).

Definition no_free_slot (p : t) : exn := RuntimeApiError (error_of ErrorCode.QUOTA_EXCEEDED
  ("env pool " +:+ short_key p +:+ " has no warm free slot")
  [("pool_key", VStr (pool_key p)); ("pool_size", VInt (pool_size p))]).
Definition pool_full (p : t) (grown : bool) : exn := RuntimeApiError (error_of ErrorCode.QUOTA_EXCEEDED
  ("env pool " +:+ short_key p +:+ " is full (" +:+ pretty (pool_size p) +:+ " slots); "
   +:+ if grown then "reached max_dynamic_pool_size=" +:+ pretty (max_size p)
       else "dynamic growth is not supported for this core form/family")
  [("pool_key", VStr (pool_key p)); ("pool_size", VInt (pool_size p));
   ("max_dynamic_pool_size", VInt (max_size p)); ("dynamic", VBool grown)]).

(** [self.warm_free_slots.pop()] and activate. *)
Definition take_warm : op (option Z) := λ p,
  match last (warm_free_slots p) with
  | Some i => (set_slots (removelast (warm_free_slots p)) ({[i]} ∪ active_slots p) p, Ok (Some i))
  | None => (p, Ok None)
  end.

Definition acquire : op Z :=
  p ← get_state;
  taken ← take_warm;
  match taken with Some i => mret i | None => raise (no_free_slot p) end.

(** Capacity for one creation: the seed offset of the new slot. *)
Definition reserve : op Z :=
  p ← get_state;
  let seed := _next_seed_offset_hint p in
  modify (set_counts (_pending_cold_creates p + 1) (_reserved_slot_count p + 1) (seed + 1)) ≫= λ _, mret seed.

Definition _reserve_cold_create_locked : op Z :=
  p ← get_state;
  check (dynamic p) (pool_full p false) ≫= λ _,
  check (_reserved_slot_count p <? max_size p) (pool_full p true) ≫= λ _,
  reserve.

(** [acquire_or_grow], up to the creation: a slot, or the seed of the one to create. *)
Definition acquire_or_reserve : op (Z + Z) :=
  taken ← take_warm;
  match taken with
  | Some i => mret (inl i)
  | None => seed ← _reserve_cold_create_locked; mret (inr seed)
  end.

(** A creation failed, or it succeeded for a session, or for [grow]. *)
Definition create_failed : op unit := modify (λ p,
  set_counts (Z.max 0 (_pending_cold_creates p - 1)) (Z.max (spec_size p) (_reserved_slot_count p - 1))
    (_next_seed_offset_hint p) p).
Definition settle (index : Z) : op unit := modify (λ p,
  set_counts (Z.max 0 (_pending_cold_creates p - 1)) (Z.max (_reserved_slot_count p) (index + 1))
    (_next_seed_offset_hint p) p).
Definition created_for_session (index : Z) : op Z :=
  settle index ≫= λ _,
  modify (λ p, set_slots (warm_free_slots p) ({[index]} ∪ active_slots p) p) ≫= λ _, mret index.

(** [self.warm_free_slots.append(index); self.warm_free_slots.sort()] *)
Definition warm_with (index : Z) (p : t) : t :=
  set_slots (sort_by Z.leb (warm_free_slots p ++ [index])) (active_slots p) p.
Definition warm_again (index : Z) (p : t) : t :=
  if member index (warm_free_slots p) then p else warm_with index p.
Definition created_for_growth (index : Z) : op bool :=
  settle index ≫= λ _,
  p ← get_state;
  if bool_decide (index ∈ active_slots p) || member index (warm_free_slots p) then mret false
  else modify (warm_with index) ≫= λ _, mret true.

(** One round of [grow], up to the creation. *)
Definition grow_reserve : op (option Z) :=
  p ← get_state;
  if negb (dynamic p) || (max_size p <=? _reserved_slot_count p) then mret None
  else seed ← reserve; mret (Some seed).

(** One round of [shrink_idle], up to the removal: the slot to remove. *)
Definition shrink_select (keep_at_least : option Z) : op (option Z) :=
  p ← get_state;
  let last_index := _reserved_slot_count p - 1 in
  if negb (dynamic p) then mret None
  else if (_reserved_slot_count p <=? default (spec_size p) keep_at_least)
       || negb (_pending_cold_creates p =? 0)
       || negb (member last_index (warm_free_slots p)) || bool_decide (last_index ∈ active_slots p)
  then mret None
  else
    modify (λ p, set_counts (_pending_cold_creates p) (_reserved_slot_count p - 1) (_next_seed_offset_hint p)
      (set_slots (bfilter (λ i, negb (i =? last_index)) (warm_free_slots p)) (active_slots p) p)) ≫= λ _,
    mret (Some last_index).
Definition remove_failed (index : Z) : op unit := modify (λ p,
  warm_again index
    (set_counts (_pending_cold_creates p) (_reserved_slot_count p + 1) (_next_seed_offset_hint p) p)).

Definition release (index : Z) : op unit := modify (λ p,
  if (0 <=? index) && (index <? _reserved_slot_count p) then
    warm_again index (set_slots (warm_free_slots p) (active_slots p ∖ {[index]}) p)
  else p).

Definition close : op unit := modify (λ p, set_core None (set_slots (range (pool_size p)) ∅ p)).

(** ** Runs of one pool *)

(** Who asked for a slot. *)
Inductive purpose := ForSession (sid : string) | ForGrowth.

(** A coroutine that waits for the core, or for the pool after it. *)
Inductive flight :=
  | Creating (why : purpose)
  | Created (why : purpose) (index : Z)
  | CreateFailed
  | Removing (index : Z)
  | RemoveFailed (index : Z).

Record sys := Sys { pool : t; flying : list flight; held : list (string * Z) }.

(** [Returns k works]: the core answers the [k]-th flight.  [Settles k]: the flight runs on. *)
Inductive event :=
  | Acquire (sid : string)
  | AcquireWarm (sid : string)
  | Grow
  | Shrink (keep_at_least : option Z)
  | Returns (k : nat) (works : bool)
  | Settles (k : nat)
  | Release (sid : string).

Definition fly (f : flight) (s : sys) : sys := Sys (pool s) (f :: flying s) (held s).
Definition land (k : nat) (s : sys) : sys := Sys (pool s) (delete k (flying s)) (held s).
Definition set_pool (p : t) (s : sys) : sys := Sys p (flying s) (held s).
Definition hold (sid : string) (i : Z) (s : sys) : sys := Sys (pool s) (flying s) ((sid, i) :: held s).

(** A flight that waits for the core, and what the core's answer makes of it: a removal that
    succeeded is over. *)
Definition core_returns (works : bool) (f : flight) (c : core) : core * option flight :=
  match f with
  | Creating why => let '(c, o) := add_slot works c in
      (c, Some match o with Some i => Created why i | None => CreateFailed end)
  | Removing i => let '(c, removed) := remove_slot works i c in
      (c, if removed then None else Some (RemoveFailed i))
  | f => (c, Some f)
  end.

(** What the pool does next for a flight the core has answered. *)
Definition flight_settles (f : flight) (s : sys) : sys :=
  match f with
  | Created (ForSession sid) i => hold sid i (set_pool (after (created_for_session i) (pool s)) s)
  | Created ForGrowth i => set_pool (after (created_for_growth i) (pool s)) s
  | CreateFailed => set_pool (after create_failed (pool s)) s
  | RemoveFailed i => set_pool (after (remove_failed i) (pool s)) s
  | Creating _ | Removing _ => s
  end.
Definition waits (f : flight) : bool := match f with Creating _ | Removing _ => true | _ => false end.

Definition exec (e : event) (s : sys) : sys :=
  match e with
  | Acquire sid =>
      match acquire_or_reserve (pool s) with
      | (p, Ok (inl i)) => hold sid i (set_pool p s)
      | (p, Ok (inr _)) => fly (Creating (ForSession sid)) (set_pool p s)
      | (p, Raise _) => set_pool p s
      end
  | AcquireWarm sid =>
      match acquire (pool s) with
      | (p, Ok i) => hold sid i (set_pool p s)
      | (p, Raise _) => set_pool p s
      end
  | Grow =>
      match grow_reserve (pool s) with
      | (p, Ok (Some _)) => fly (Creating ForGrowth) (set_pool p s)
      | (p, _) => set_pool p s
      end
  | Shrink keep =>
      match shrink_select keep (pool s) with
      | (p, Ok (Some i)) => fly (Removing i) (set_pool p s)
      | (p, _) => set_pool p s
      end
  | Returns k works =>
      match flying s !! k, the_core (pool s) with
      | Some f, Some c =>
          let '(c, f') := core_returns works f c in
          let s' := land k (set_pool (set_core (Some c) (pool s)) s) in
          match f' with Some f' => fly f' s' | None => s' end
      | _, _ => s
      end
  | Settles k =>
      match flying s !! k with
      | Some f => if waits f then s else flight_settles f (land k s)
      | None => s
      end
  | Release sid =>
      match list_find (λ h, h.1 = sid) (held s) with
      | Some (k, (_, i)) => Sys (after (release i) (pool s)) (flying s) (delete k (held s))
      | None => s
      end
  end.

Definition run (es : list event) (s : sys) : sys := foldl (λ s e, exec e s) s es.
Definition init (key : string) (size max : Z) (c : core) : sys := Sys (make key size max (Some c)) [] [].

(** ** Every slot is in one place *)

Definition index_of (f : flight) : option Z :=
  match f with Created _ i | Removing i | RemoveFailed i => Some i | _ => None end.

(** The slots the pool and its flights know. *)
Definition places (s : sys) : list Z :=
  warm_free_slots (pool s) ++ elements (active_slots (pool s)) ++ omap index_of (flying s).

Record wf (s : sys) : Prop := {
  wf_core : ∃ c, the_core (pool s) = Some c ∧ 0 ≤ count c ∧ places s ≡ₚ range (count c);
  wf_held : NoDup (held s).*2;
  wf_active i : i ∈ (held s).*2 → i ∈ active_slots (pool s);
}.

Lemma flying_perm k s f : flying s !! k = Some f → flying s ≡ₚ f :: delete k (flying s).
Proof. apply delete_Permutation. Qed.

Lemma wf_places_NoDup s : wf s → NoDup (places s).
Proof. intros [(c & _ & _ & H) _ _]. rewrite H. apply NoDup_seqZ. Qed.

Lemma places_fly s f : places (fly f s) ≡ₚ option_list (index_of f) ++ places s.
Proof. unfold places, fly. simpl. destruct (index_of f); simpl; [|done]. solve_Permutation. Qed.
Lemma places_land s k f :
  flying s !! k = Some f → places s ≡ₚ option_list (index_of f) ++ places (land k s).
Proof.
  intros H. unfold places, land. simpl. rewrite (flying_perm k s f H) at 1. simpl.
  destruct (index_of f); simpl; [|done]. solve_Permutation.
Qed.

(** The moves of one slot between the places, whatever the counters do. *)
Definition same_slots (p p' : t) : Prop :=
  warm_free_slots p' = warm_free_slots p ∧ active_slots p' = active_slots p ∧ the_core p' = the_core p.

Lemma elements_add i (X : gset Z) : i ∉ X → elements ({[i]} ∪ X) ≡ₚ i :: elements X.
Proof. apply elements_union_singleton. Qed.
Lemma elements_remove i (X : gset Z) : i ∈ X → elements X ≡ₚ i :: elements (X ∖ {[i]}).
Proof.
  intros Hi. rewrite <- elements_add by set_solver. f_equiv. intros x. destruct (decide (x = i)); set_solver.
Qed.

Lemma last_removelast {A} (l : list A) i : last l = Some i → l = removelast l ++ [i].
Proof.
  intros (l' & ->)%last_Some. by rewrite removelast_last.
Qed.
Lemma warm_again_places i p :
  i ∉ warm_free_slots p →
  warm_free_slots (warm_again i p) ≡ₚ i :: warm_free_slots p ∧ active_slots (warm_again i p) = active_slots p ∧
  the_core (warm_again i p) = the_core p.
Proof.
  intros H. unfold warm_again, member. rewrite bool_decide_false by done. simpl.
  split; [|done]. rewrite sort_by_perm. solve_Permutation.
Qed.

(** A step that leaves the slots where they are. *)
Lemma wf_same s s' :
  wf s → same_slots (pool s) (pool s') → held s' = held s → omap index_of (flying s') = omap index_of (flying s) →
  wf s'.
Proof.
  intros [(c & Hc & Hc0 & Hp) Hn Ha] (E1 & E2 & E3) Eh Ef. unfold places in *. split.
  - exists c. split_and!; [congruence|done|]. unfold places. by rewrite E1, E2, Ef.
  - by rewrite Eh.
  - rewrite Eh, E2. apply Ha.
Qed.

(** A slot goes from [from] to the active ones, in the hands of a session. *)
Lemma wf_hold s s' sid i :
  wf s → places s ≡ₚ i :: places s' → i ∉ active_slots (pool s') →
  the_core (pool s') = the_core (pool s) → held s' = held s →
  active_slots (pool s') = active_slots (pool s) →
  wf (hold sid i (set_pool (set_slots (warm_free_slots (pool s')) ({[i]} ∪ active_slots (pool s')) (pool s')) s')).
Proof.
  intros [(c & Hc & Hc0 & Hp) Hn Ha] Hpl Hi Ec Eh Ea. split; simpl.
  - exists c. split_and!; [congruence|done|]. rewrite <- Hp, Hpl. unfold places. simpl.
    rewrite elements_add by done. solve_Permutation.
  - rewrite Eh. constructor; [|done]. intros Hin. apply Hi. rewrite Ea. by apply Ha.
  - intros j Hj. rewrite Eh in Hj. apply elem_of_cons in Hj as [-> |Hj]; [set_solver|]. apply Ha in Hj. set_solver.
Qed.

Lemma places_NoDup_head s i l : wf s → places s ≡ₚ i :: l → i ∉ l.
Proof. intros Hw E. pose proof (wf_places_NoDup s Hw) as H. rewrite E in H. by apply NoDup_cons in H as [? _]. Qed.

Lemma wf_take s i sid :
  wf s → last (warm_free_slots (pool s)) = Some i →
  wf (hold sid i (set_pool (set_slots (removelast (warm_free_slots (pool s))) ({[i]} ∪ active_slots (pool s)) (pool s)) s)).
Proof.
  intros Hw Hl. set (s' := set_pool (set_slots (removelast (warm_free_slots (pool s))) (active_slots (pool s)) (pool s)) s).
  assert (places s ≡ₚ i :: places s') as Hpl.
  { unfold places, s'. simpl. rewrite (last_removelast _ _ Hl) at 1. solve_Permutation. }
  apply (wf_hold s s' sid i); try done. pose proof (places_NoDup_head s i _ Hw Hpl) as H.
  unfold places in H. rewrite !elem_of_app, elem_of_elements in H. tauto.
Qed.

Lemma wf_acquire s sid : wf s → wf (exec (Acquire sid) s).
Proof.
  intros Hw. simpl. unfold acquire_or_reserve, take_warm. run_prog.
  destruct (last (warm_free_slots (pool s))) as [i|] eqn:Hl; simpl.
  - by apply wf_take.
  - unfold _reserve_cold_create_locked, reserve. run_prog.
    destruct (dynamic (pool s)); simpl; [|by apply (wf_same s)].
    destruct (_ <? _); simpl; by apply (wf_same s).
Qed.
Lemma wf_acquire_warm s sid : wf s → wf (exec (AcquireWarm sid) s).
Proof.
  intros Hw. simpl. unfold acquire, take_warm. run_prog.
  destruct (last (warm_free_slots (pool s))) as [i|] eqn:Hl; simpl; [by apply wf_take|by apply (wf_same s)].
Qed.
Lemma wf_grow s : wf s → wf (exec Grow s).
Proof.
  intros Hw. simpl. unfold grow_reserve, reserve. run_prog.
  destruct (negb _ || _); simpl; by apply (wf_same s).
Qed.

Lemma filter_ne_perm (i : Z) l : NoDup l → i ∈ l → l ≡ₚ i :: bfilter (λ j, negb (j =? i)) l.
Proof.
  intros Hnd Hi. apply NoDup_Permutation; [done| |].
  - constructor; [by intros [?%negb_true_iff%Z.eqb_neq _]%elem_of_bfilter|].
    eapply sublist_NoDup; [exact Hnd|apply bfilter_sublist].
  - intros x. rewrite elem_of_cons, elem_of_bfilter, negb_true_iff, Z.eqb_neq.
    destruct (decide (x = i)) as [->|]; naive_solver.
Qed.

Lemma wf_shrink s keep : wf s → wf (exec (Shrink keep) s).
Proof.
  intros Hw. simpl. unfold shrink_select. run_prog.
  destruct (negb (dynamic (pool s))); simpl; [by apply (wf_same s)|].
  set (i := _reserved_slot_count (pool s) - 1).
  destruct (_ || _ || _ || _) eqn:E; simpl; [by apply (wf_same s)|]. to_prop. unfold member in *. to_prop.
  pose proof (wf_places_NoDup s Hw) as Hnd. apply NoDup_app in Hnd as (Hnd & _).
  destruct Hw as [(c & Hc & Hc0 & Hp) Hn Ha]. split; simpl; try done. exists c. split_and!; [done|done|].
  rewrite <- Hp. unfold places. simpl. rewrite (filter_ne_perm i (warm_free_slots (pool s))) at 2 by done.
  solve_Permutation.
Qed.

Lemma range_snoc n : 0 ≤ n → range (n + 1) = range n ++ [n].
Proof. intros H. unfold range. rewrite seqZ_app by lia. done. Qed.

Lemma wf_returns s k works : wf s → wf (exec (Returns k works) s).
Proof.
  intros Hw. simpl. destruct (flying s !! k) as [f|] eqn:Hk; [|done].
  destruct Hw as [(c & Hc & Hc0 & Hp) Hn Ha]. rewrite Hc. pose proof (places_land s k f Hk) as Hland.
  destruct f as [why|why i| |i|i]; simpl.
  2, 3, 5: split; simpl; try done; exists c; split_and!; [done|done|]; rewrite <- Hp, Hland; unfold places, land; simpl; solve_Permutation.
  - destruct works; simpl; split; simpl; try done.
    + eexists. split; [done|]. simpl. split; [lia|]. rewrite range_snoc, <- Hp, Hland by done. unfold places, land. simpl.
      solve_Permutation.
    + exists c. split_and!; [done|done|]. rewrite <- Hp, Hland. unfold places, land. simpl. solve_Permutation.
  - unfold remove_slot. destruct (works && (i =? count c - 1)) eqn:Ei; simpl.
    + apply andb_true_iff in Ei as [_ ->%Z.eqb_eq]. split; simpl; try done. eexists. split; [done|]. simpl.
      assert (0 ≤ count c - 1).
      { assert (count c - 1 ∈ range (count c)) as Hin by (rewrite <- Hp, Hland; simpl; by left).
        unfold range in Hin. apply elem_of_seqZ in Hin. lia. }
      split; [done|]. rewrite Hland in Hp. replace (count c) with (count c - 1 + 1) in Hp by lia.
      rewrite range_snoc in Hp by done. simpl in Hp. rewrite Permutation_app_comm in Hp.
      replace (count c - 1 + 1 - 1) with (count c - 1) in Hp by lia. simpl in Hp.
      apply Permutation_cons_inv in Hp. exact Hp.
    + split; simpl; try done. exists c. split_and!; [done|done|]. rewrite <- Hp, Hland. unfold places, land. simpl. solve_Permutation.
Qed.

Lemma wf_land_settles s k f i :
  wf s → flying s !! k = Some f → index_of f = Some i →
  i ∉ warm_free_slots (pool s) ∧ i ∉ active_slots (pool s) ∧ places s ≡ₚ i :: places (land k s).
Proof.
  intros Hw Hk Hi. pose proof (places_land s k f Hk) as Hl. rewrite Hi in Hl. simpl in Hl.
  pose proof (places_NoDup_head s i _ Hw Hl) as H. unfold places, land in H. simpl in H.
  rewrite !elem_of_app, elem_of_elements in H. tauto.
Qed.

Lemma wf_settles s k : wf s → wf (exec (Settles k) s).
Proof.
  intros Hw. simpl. destruct (flying s !! k) as [f|] eqn:Hk; [|done].
  destruct f as [why|why i| |i|i]; simpl; try done.
  - destruct (wf_land_settles s k _ i Hw Hk eq_refl) as (H1 & H2 & Hpl). destruct why as [sid|]; simpl.
    + apply (wf_hold s (set_pool (after (settle i) (pool s)) (land k s)) sid i); done.
    + unfold created_for_growth, settle. run_prog. unfold member. rewrite !bool_decide_false by done. simpl.
      destruct Hw as [(c & Hc & Hc0 & Hp) Hn Ha]. split; simpl; try done. exists c. split_and!; [done|done|].
      rewrite <- Hp, Hpl. unfold places, land. simpl. rewrite sort_by_perm. solve_Permutation.
  - destruct Hw as [(c & Hc & Hc0 & Hp) Hn Ha]. split; simpl; try done. exists c. split_and!; [done|done|].
    rewrite <- Hp. pose proof (places_land s k _ Hk) as Hl. simpl in Hl. by rewrite Hl.
  - destruct (wf_land_settles s k _ i Hw Hk eq_refl) as (H1 & H2 & Hpl).
    unfold remove_failed. run_prog. destruct (warm_again_places i (set_counts (_pending_cold_creates (pool s))
      (_reserved_slot_count (pool s) + 1) (_next_seed_offset_hint (pool s)) (pool s)) H1) as (E1 & E2 & E3).
    destruct Hw as [(c & Hc & Hc0 & Hp) Hn Ha]. split; simpl.
    + exists c. rewrite E3. split_and!; [done|done|]. rewrite <- Hp, Hpl. unfold places, land. simpl. rewrite E1, E2. simpl. done.
    + done.
    + rewrite E2. apply Ha.
Qed.

Lemma list_find_held sid (l : list (string * Z)) k h :
  list_find (λ h, h.1 = sid) l = Some (k, h) → l !! k = Some h.
Proof. intros H. by apply list_find_Some in H as (? & _ & _). Qed.

(** A lane in a hand goes back. *)
Lemma wf_give_back s i sid rest :
  wf s → held s ≡ₚ (sid, i) :: rest → wf (Sys (after (release i) (pool s)) (flying s) rest).
Proof.
  intros Hw Hperm.
  assert (i ∉ rest.*2 ∧ NoDup rest.*2) as [Hni Hnd].
  { pose proof (wf_held s Hw) as H. rewrite Hperm in H. simpl in H. by apply NoDup_cons in H. }
  assert (∀ j, j ∈ rest.*2 → j ∈ active_slots (pool s) ∧ j ≠ i) as Hrest.
  { intros j Hj. split; [|intros ->; done]. apply (wf_active s Hw). rewrite Hperm. simpl. by right. }
  assert (i ∈ active_slots (pool s)) as Hact by (apply (wf_active s Hw); rewrite Hperm; by left).
  pose proof (wf_places_NoDup s Hw) as Hpn. destruct Hw as [(c & Hc & Hc0 & Hp) Hn Ha].
  unfold release. run_prog. destruct ((0 <=? i) && (i <? _reserved_slot_count (pool s))).
  - assert (i ∉ warm_free_slots (pool s)) as Hw.
    { intros Hin. unfold places in Hpn. apply NoDup_app in Hpn as (_ & H & _). apply (H i Hin).
      apply elem_of_app. left. by apply elem_of_elements. }
    destruct (warm_again_places i (set_slots (warm_free_slots (pool s)) (active_slots (pool s) ∖ {[i]}) (pool s)) Hw) as (E1 & E2 & E3).
    split; simpl.
    + exists c. rewrite E3. split_and!; [done|done|]. rewrite <- Hp. unfold places. simpl. rewrite E1, E2. simpl.
      rewrite (elements_remove i (active_slots (pool s))) by done. solve_Permutation.
    + done.
    + rewrite E2. simpl. intros j [??]%Hrest. set_solver.
  - split; simpl; [by exists c|done|]. intros j Hj. by apply Hrest.
Qed.

Lemma wf_release s sid : wf s → wf (exec (Release sid) s).
Proof.
  intros Hw. simpl. destruct (list_find _ (held s)) as [[k [sid' i]]|] eqn:Hf; [|done].
  apply list_find_held in Hf. eapply wf_give_back; [done|]. by apply delete_Permutation.
Qed.

Lemma pool_exec_wf e s : wf s → wf (exec e s).
Proof.
  intros Hw. destruct e; [by apply wf_acquire|by apply wf_acquire_warm|by apply wf_grow|by apply wf_shrink|
    by apply wf_returns|by apply wf_settles|by apply wf_release].
Qed.

Lemma pool_init_wf key size max c : count c = size → 0 ≤ size → wf (init key size max c).
Proof.
  intros Hc Hs. split; simpl; [|constructor|by intros i ?%elem_of_nil].
  exists c. split_and!; [done|lia|]. unfold places. simpl. by rewrite Hc, !app_nil_r.
Qed.

Lemma pool_run_wf es s : wf s → wf (run es s).
Proof. revert s. induction es as [|e es IH]; intros s Hs; [done|]. simpl. by apply IH, pool_exec_wf. Qed.

(** ** Runs in which creation and removal do not overlap *)

Definition reserving (f : flight) : Z := match f with Creating _ | CreateFailed => 1 | _ => 0 end.
Definition creating (f : flight) : Z := match f with Creating _ | Created _ _ | CreateFailed => 1 | _ => 0 end.
Definition removing (f : flight) : Z := match f with Removing _ | RemoveFailed _ => 1 | _ => 0 end.

(** No creation begins while a slot is being removed, one loop removes at a time, and it
    keeps at least the initial slots. *)
Definition calm (s : sys) (e : event) : Prop :=
  match e with
  | Acquire _ => warm_free_slots (pool s) ≠ [] ∨ sumZ removing (flying s) = 0
  | Grow => sumZ removing (flying s) = 0
  | Shrink keep => sumZ removing (flying s) = 0 ∧ spec_size (pool s) ≤ default (spec_size (pool s)) keep
  | _ => True
  end.
Fixpoint calm_run (es : list event) (s : sys) : Prop :=
  match es with [] => True | e :: es => calm s e ∧ calm_run es (exec e s) end.

Record exact (s : sys) (c : core) : Prop := {
  exact_core : the_core (pool s) = Some c;
  exact_reserved : _reserved_slot_count (pool s) = count c + sumZ reserving (flying s) - sumZ removing (flying s);
  exact_pending : _pending_cold_creates (pool s) = sumZ creating (flying s);
  exact_floor : spec_size (pool s) ≤ count c - sumZ removing (flying s);
  exact_bound : count c + sumZ reserving (flying s) ≤ max_size (pool s);
  exact_apart : sumZ removing (flying s) = 0 ∨ (sumZ removing (flying s) = 1 ∧ sumZ creating (flying s) = 0);
  exact_tail i : Removing i ∈ flying s ∨ RemoveFailed i ∈ flying s → i = _reserved_slot_count (pool s);
  exact_held i : i ∈ active_slots (pool s) → i ∈ (held s).*2;
}.

Lemma sum_land g k s f : flying s !! k = Some f → sumZ g (flying s) = g f + sumZ g (delete k (flying s)).
Proof. intros H. by rewrite (sumZ_perm g _ _ (flying_perm k s f H)). Qed.
Lemma sum_flights s :
  0 ≤ sumZ reserving (flying s) ≤ sumZ creating (flying s) ∧ 0 ≤ sumZ removing (flying s).
Proof.
  induction (flying s) as [|f l [IH1 IH2]]; [by cbn|]. rewrite !sumZ_cons. destruct f; simpl; lia.
Qed.
Lemma in_land k s f : f ∈ delete k (flying s) → f ∈ flying s.
Proof. intros H. eapply elem_of_submseteq; [exact H|apply sublist_submseteq, sublist_delete]. Qed.

Lemma some_removal s : 0 < sumZ removing (flying s) → ∃ j, Removing j ∈ flying s ∨ RemoveFailed j ∈ flying s.
Proof.
  induction (flying s) as [|f l IH]; [by cbn|]. rewrite sumZ_cons. intros H.
  assert ((∃ j, Removing j ∈ l ∨ RemoveFailed j ∈ l) → ∃ j, Removing j ∈ f :: l ∨ RemoveFailed j ∈ f :: l) as Hl.
  { intros (j & [?|?]); exists j; [left|right]; by right. }
  destruct f as [| | |j|j]; simpl in H; try by apply Hl, IH.
  - exists j. left. by left.
  - exists j. right. by left.
Qed.
Lemma no_creation s why i : sumZ creating (flying s) = 0 → Created why i ∉ flying s.
Proof.
  intros H Hin. apply list_elem_of_lookup_1 in Hin as [k Hk]. rewrite (sum_land creating k s _ Hk) in H. simpl in H.
  assert (0 ≤ sumZ creating (delete k (flying s))); [|lia]. apply sumZ_nonneg. by intros [].
Qed.

(** A slot that is not being removed is below the reserved count. *)
Lemma exact_below s c i :
  wf s → exact s c → (i ∈ warm_free_slots (pool s) ∨ i ∈ active_slots (pool s) ∨ ∃ why, Created why i ∈ flying s) →
  0 ≤ i < _reserved_slot_count (pool s).
Proof.
  intros Hw He Hi. pose proof (wf_places_NoDup s Hw) as Hnd. destruct Hw as [(c' & Hc & Hc0 & Hp) _ _].
  assert (c' = c) as -> by (destruct He; congruence).
  assert (i ∈ places s) as Hin.
  { unfold places. rewrite !elem_of_app, elem_of_elements. destruct Hi as [?|[?|[why H]]]; [tauto|tauto|].
    right. right. apply list_elem_of_omap. by eexists. }
  rewrite Hp in Hin. unfold range in Hin. apply elem_of_seqZ in Hin.
  destruct He as [_ Hr _ _ _ [H0|[H1 H2]] Ht _]; pose proof (sum_flights s) as Hs; [lia|].
  destruct (some_removal s) as [j Hj]; [lia|]. pose proof (Ht j Hj) as Ej.
  assert (j ∈ omap index_of (flying s)) as Hjp by (apply list_elem_of_omap; destruct Hj; by eexists).
  assert (i ∈ warm_free_slots (pool s) ++ elements (active_slots (pool s))) as Hia.
  { rewrite elem_of_app, elem_of_elements. destruct Hi as [?|[?|[why H]]]; [tauto|tauto|]. by apply no_creation in H. }
  unfold places in Hnd. rewrite app_assoc in Hnd. apply NoDup_app in Hnd as (_ & Hdis & _).
  assert (i ≠ j) by (intros ->; by apply (Hdis j)). lia.
Qed.

Lemma no_removal (l : list flight) j : sumZ removing l = 0 → ¬ (Removing j ∈ l ∨ RemoveFailed j ∈ l).
Proof.
  intros H Hin. assert (∃ f, f ∈ l ∧ removing f = 1) as (f & Hf & E).
  { destruct Hin as [Hin|Hin]; by eexists. }
  apply list_elem_of_lookup_1 in Hf as [k Hk]. rewrite (sumZ_perm removing _ _ (delete_Permutation _ _ _ Hk)) in H.
  rewrite sumZ_cons, E in H. assert (0 ≤ sumZ removing (delete k l)); [|lia]. apply sumZ_nonneg. by intros [].
Qed.

Definition exactly (s : sys) : Prop := ∃ c, exact s c.

(** Only the pool's slots changed, and the active ones are still held. *)
Lemma exact_slots s s' c :
  exact s c → the_core (pool s') = the_core (pool s) → spec_size (pool s') = spec_size (pool s) →
  max_size (pool s') = max_size (pool s) → _reserved_slot_count (pool s') = _reserved_slot_count (pool s) →
  _pending_cold_creates (pool s') = _pending_cold_creates (pool s) → flying s' = flying s →
  (∀ i, i ∈ active_slots (pool s') → i ∈ (held s').*2) → exact s' c.
Proof. intros [] E1 E2 E3 E4 E5 E6 E7. split; rewrite ?E1, ?E2, ?E3, ?E4, ?E5, ?E6; done. Qed.

Lemma exact_take s i sid :
  exactly s → exactly (hold sid i (set_pool (set_slots (removelast (warm_free_slots (pool s))) ({[i]} ∪ active_slots (pool s)) (pool s)) s)).
Proof.
  intros [c He]. exists c. eapply exact_slots; [exact He|done..|]. simpl. intros j Hj.
  apply elem_of_union in Hj as [->%elem_of_singleton|Hj]; [by left|]. right. by apply (exact_held s c He).
Qed.

Lemma exact_reserve s why :
  exactly s → sumZ removing (flying s) = 0 → _reserved_slot_count (pool s) < max_size (pool s) →
  exactly (fly (Creating why) (set_pool (after reserve (pool s)) s)).
Proof.
  intros [c []] H0 Hlt. exists c. split; simpl; rewrite ?sumZ_cons; simpl; try done; try lia.
  intros i [Hin|Hin]; apply elem_of_cons in Hin as [|Hin]; try done; exfalso; by apply (no_removal (flying s) i H0); auto.
Qed.

Lemma exact_acquire s sid : exactly s → calm s (Acquire sid) → exactly (exec (Acquire sid) s).
Proof.
  intros He Hcalm. simpl in *. unfold acquire_or_reserve, take_warm. unfold mbind at 1, prog_bind at 1.
  destruct (last (warm_free_slots (pool s))) as [i|] eqn:Hl; simpl; [by apply exact_take|].
  apply last_None in Hl. destruct Hcalm as [|H0]; [done|].
  unfold _reserve_cold_create_locked. run_prog. destruct (dynamic (pool s)); [|by destruct s].
  destruct (_ <? _) eqn:E; [|by destruct s]. to_prop. exact (exact_reserve s (ForSession sid) He H0 E).
Qed.
Lemma exact_acquire_warm s sid : exactly s → exactly (exec (AcquireWarm sid) s).
Proof.
  intros He. simpl. unfold acquire, take_warm. run_prog.
  destruct (last (warm_free_slots (pool s))) as [i|]; simpl; [by apply exact_take|by destruct s].
Qed.
Lemma exact_grow s : exactly s → calm s Grow → exactly (exec Grow s).
Proof.
  intros He H0. simpl in *. unfold grow_reserve. run_prog. destruct (negb _ || _) eqn:E; [by destruct s|]. to_prop.
  exact (exact_reserve s ForGrowth He H0 ltac:(assumption)).
Qed.

Lemma exact_shrink s keep : exactly s → calm s (Shrink keep) → exactly (exec (Shrink keep) s).
Proof.
  intros He [H0 Hk]. simpl in *. unfold shrink_select. run_prog.
  destruct (negb (dynamic (pool s))); [by destruct s|]. destruct (_ || _ || _ || _) eqn:E; [by destruct s|].
  to_prop. destruct He as [c []]. pose proof (sum_flights s) as Hs. exists c.
  split; simpl; rewrite ?sumZ_cons; simpl; try done; try lia.
  intros i [Hin|Hin]; apply elem_of_cons in Hin as [Hin|Hin];
    [by injection Hin|exfalso; by apply (no_removal (flying s) i H0); auto|done|exfalso; by apply (no_removal (flying s) i H0); auto].
Qed.

(** A flight that is answered keeps the sums it still counts for. *)
Lemma exact_returns s k works : exactly s → exactly (exec (Returns k works) s).
Proof.
  intros [c He]. simpl. destruct (flying s !! k) as [f|] eqn:Hk; [|by exists c]. destruct He. rewrite exact_core0.
  rewrite (sum_land reserving k s f Hk), (sum_land removing k s f Hk) in *. rewrite (sum_land creating k s f Hk) in *.
  assert (∀ i, Removing i ∈ delete k (flying s) ∨ RemoveFailed i ∈ delete k (flying s) → i = _reserved_slot_count (pool s)) as Ht.
  { intros i [H|H]; apply exact_tail0; [left|right]; by eapply in_land. }
  assert (0 ≤ sumZ removing (delete k (flying s))) as Hnn by (apply sumZ_nonneg; by intros []).
  destruct f as [why|why i| |i|i]; simpl in *.
  - destruct works; simpl; [exists (Core (count c + 1) (grows c) (vector c))|exists c];
      (split; simpl; rewrite ?sumZ_cons; simpl; try done; try lia);
      intros j [H|H]; apply elem_of_cons in H as [|H]; try done; apply Ht; auto.
  - exists c. split; simpl; rewrite ?sumZ_cons; simpl; try done; try lia.
    intros j [H|H]; apply elem_of_cons in H as [|H]; [done| |done|]; apply Ht; auto.
  - exists c. split; simpl; rewrite ?sumZ_cons; simpl; try done; try lia.
    intros j [H|H]; apply elem_of_cons in H as [|H]; [done| |done|]; apply Ht; auto.
  - unfold remove_slot. destruct (works && (i =? count c - 1)) eqn:E; simpl.
    + exists (Core (count c - 1) (grows c) (vector c)). split; simpl; try done; try lia.
    + exists c. split; simpl; rewrite ?sumZ_cons; simpl; try done; try lia.
      intros j [H|H]; apply elem_of_cons in H as [H|H]; [done|apply Ht; auto|injection H as ->|apply Ht; auto].
      apply exact_tail0. left. by eapply list_elem_of_lookup_2.
  - exists c. split; simpl; rewrite ?sumZ_cons; simpl; try done; try lia.
    intros j [H|H]; apply elem_of_cons in H as [H|H]; [done|apply Ht; auto|injection H as ->|apply Ht; auto].
    apply exact_tail0. right. by eapply list_elem_of_lookup_2.
Qed.

Lemma exact_settles s k : wf s → exactly s → exactly (exec (Settles k) s).
Proof.
  intros Hw [c He]. simpl. destruct (flying s !! k) as [f|] eqn:Hk; [|by exists c].
  assert (∀ why i, f = Created why i → 0 ≤ i < _reserved_slot_count (pool s)) as Hbelow.
  { intros why i ->. eapply exact_below; [done|done|]. right. right. exists why. by eapply list_elem_of_lookup_2. }
  destruct He as [? ? ? ? ? Hap Ht Hh].
  rewrite (sum_land reserving k s f Hk), (sum_land removing k s f Hk) in *. rewrite (sum_land creating k s f Hk) in *.
  assert (∀ i, Removing i ∈ delete k (flying s) ∨ RemoveFailed i ∈ delete k (flying s) → i = _reserved_slot_count (pool s)) as Ht'.
  { intros i [H|H]; apply Ht; [left|right]; by eapply in_land. }
  assert (0 ≤ sumZ removing (delete k (flying s)) ∧ 0 ≤ sumZ creating (delete k (flying s)) ∧
    0 ≤ sumZ reserving (delete k (flying s))) as (Hn1 & Hn2 & Hn3).
  { split_and!; apply sumZ_nonneg; by intros []. }
  destruct f as [why|why i| |i|i]; simpl in *; try by (exists c; split; simpl; rewrite ?(sum_land _ k s _ Hk); simpl; try done; lia).
  - specialize (Hbelow why i eq_refl). destruct why as [sid|]; simpl.
    + exists c. split; simpl; try done; try lia.
      * intros j Hj. rewrite (Ht' j Hj). lia.
      * intros j [->%elem_of_singleton|Hj]%elem_of_union; [by left|right; by apply Hh].
    + destruct (wf_land_settles s k _ i Hw Hk eq_refl) as (H1 & H2 & _).
      unfold created_for_growth, settle. run_prog. unfold member. rewrite !bool_decide_false by done. simpl.
      exists c. split; simpl; try done; try lia. intros j Hj. rewrite (Ht' j Hj). lia.
  - exists c. split; simpl; try done; try lia. intros j Hj. exfalso. apply (no_removal _ j) in Hj; [done|]. lia.
  - destruct (wf_land_settles s k _ i Hw Hk eq_refl) as (H1 & H2 & _).
    unfold remove_failed, warm_again, member. run_prog. rewrite bool_decide_false by done. simpl.
    exists c. split; simpl; try done; try lia. intros j Hj. exfalso. apply (no_removal _ j) in Hj; [done|]. lia.
Qed.

Lemma exact_release s sid : wf s → exactly s → exactly (exec (Release sid) s).
Proof.
  intros Hw [c He]. simpl. destruct (list_find _ (held s)) as [[k [sid' i]]|] eqn:Hf; [|by exists c].
  apply list_find_held in Hf. assert (held s ≡ₚ (sid', i) :: delete k (held s)) as Hperm by by apply delete_Permutation.
  assert (i ∈ active_slots (pool s)) as Hact by (apply (wf_active s Hw); rewrite Hperm; by left).
  assert (0 ≤ i < _reserved_slot_count (pool s)) as Hi by (eapply exact_below; eauto).
  unfold release. run_prog. assert ((0 <=? i) && (i <? _reserved_slot_count (pool s)) = true) as ->.
  { apply andb_true_iff. rewrite Z.leb_le, Z.ltb_lt. lia. }
  exists c. unfold warm_again, warm_with. simpl.
  assert (∀ j, j ∈ active_slots (pool s) ∖ {[i]} → j ∈ (delete k (held s)).*2) as Hrest.
  { intros j [Hj Hne%not_elem_of_singleton]%elem_of_difference. apply (exact_held s c He) in Hj. rewrite Hperm in Hj.
    by apply elem_of_cons in Hj as [->|]. }
  destruct (member i (warm_free_slots (pool s))); eapply exact_slots; done.
Qed.

Lemma exec_exact e s : wf s → exactly s → calm s e → exactly (exec e s).
Proof.
  intros Hw He Hc. destruct e; [by apply exact_acquire|by apply exact_acquire_warm|by apply exact_grow|
    by apply exact_shrink|by apply exact_returns|by apply exact_settles|by apply exact_release].
Qed.
Lemma run_exact es s : wf s → exactly s → calm_run es s → exactly (run es s).
Proof.
  revert s. induction es as [|e es IH]; intros s Hw He Hc; [done|]. destruct Hc as [Hc Hcs]. simpl.
  apply IH; [by apply pool_exec_wf|by apply exec_exact|done].
Qed.
Lemma init_exact key size max c : count c = size → 0 ≤ size ≤ max → exactly (init key size max c).
Proof.
  intros Hc Hs. exists c. split; simpl; try done; try lia; try (by left).
  all: unfold sumZ; simpl; try lia. intros i Hin; set_solver.
Qed.

(** What the methods of a pool never change. *)
Definition identity (p : t) : string * (Z * Z) * (bool * Z * bool) :=
  (pool_key p, (spec_size p, max_size p), (unhealthy p, pending_bindings p, evicting p)).
Lemma warm_again_identity i p : identity (warm_again i p) = identity p.
Proof. unfold warm_again. by destruct (member i _). Qed.
Lemma release_identity i p : identity (after (release i) p) = identity p.
Proof. unfold release. run_prog. destruct (_ && _); [by rewrite warm_again_identity|done]. Qed.

Lemma exec_identity e s : identity (pool (exec e s)) = identity (pool s).
Proof.
  destruct e as [sid|sid| |keep|k works|k|sid]; simpl.
  - unfold acquire_or_reserve, take_warm, _reserve_cold_create_locked, reserve. run_prog.
    destruct (last _); simpl; [done|]. destruct (dynamic _); simpl; [|done]. by destruct (_ <? _).
  - unfold acquire, take_warm. run_prog. by destruct (last _).
  - unfold grow_reserve, reserve. run_prog. by destruct (negb _ || _).
  - unfold shrink_select. run_prog. destruct (negb _); [done|]. by destruct (_ || _ || _ || _).
  - destruct (flying s !! k) as [f|], (the_core (pool s)) as [c|]; try done.
    by destruct (core_returns works f c) as [c' [f'|]].
  - destruct (flying s !! k) as [f|]; [|done].
    destruct f as [why|[sid|] i| |i|i]; simpl; try done.
    + unfold created_for_growth. run_prog. by destruct (_ || _).
    + unfold remove_failed. run_prog. by rewrite warm_again_identity.
  - destruct (list_find _ (held s)) as [[k [sid' i]]|]; [|done]. apply release_identity.
Qed.
Lemma exec_spec e s : spec_size (pool (exec e s)) = spec_size (pool s) ∧ max_size (pool (exec e s)) = max_size (pool s).
Proof. pose proof (exec_identity e s) as H. by injection H as _ -> -> _ _ _. Qed.
Lemma run_spec es s : spec_size (pool (run es s)) = spec_size (pool s) ∧ max_size (pool (run es s)) = max_size (pool s).
Proof.
  revert s. induction es as [|e es IH]; intros s; [done|]. simpl. destruct (IH (exec e s)) as [-> ->]. apply exec_spec.
Qed.

(** A slot in a hand is active, not warm, and not being removed. *)
Lemma held_places s i :
  wf s → i ∈ (held s).*2 → i ∈ active_slots (pool s) ∧ i ∉ warm_free_slots (pool s) ∧ Removing i ∉ flying s.
Proof.
  intros Hw Hin. pose proof (wf_places_NoDup s Hw) as Hnd. pose proof (wf_active s Hw i Hin) as Ha.
  split; [done|]. unfold places in Hnd. apply NoDup_app in Hnd as (_ & H1 & H2). split.
  - intros Hwarm. apply (H1 i Hwarm). apply elem_of_app. left. by apply elem_of_elements.
  - intros Hr. apply NoDup_app in H2 as (_ & H2 & _). apply (H2 i); [by apply elem_of_elements|].
    apply list_elem_of_omap. by eexists.
Qed.

(** C15: no slot is ever in two hands.  In every run of a pool, whatever creations and
    removals interleave and fail: every slot of the core is in exactly one place (warm,
    active, or in the flight that creates or removes it); the slots sessions hold are
    distinct slots of the core, active, not warm, and not being removed. *)
Theorem slots_exclusive key size max c es :
  count c = size → 0 ≤ size →
  let s := run es (init key size max c) in
  (∃ c', the_core (pool s) = Some c' ∧ places s ≡ₚ range (count c') ∧ NoDup (places s)) ∧
  NoDup (held s).*2 ∧
  ∀ sid i, (sid, i) ∈ held s →
    i ∈ active_slots (pool s) ∧ i ∉ warm_free_slots (pool s) ∧ Removing i ∉ flying s.
Proof.
  intros Hc Hs s. assert (wf s) as Hw by (apply pool_run_wf, pool_init_wf; done).
  pose proof (wf_places_NoDup s Hw) as Hnd. pose proof Hw as [(c' & Hc' & Hc0 & Hp) Hn Ha].
  split; [by exists c'|]. split; [done|]. intros sid i Hin. apply (list_elem_of_fmap_2 snd) in Hin.
  by apply held_places.
Qed.

(** The bookkeeping of a pool is exact when no creation begins during a removal: what is
    reserved is what the core has, plus the creations and minus the removals under way; the
    core has between the initial and the maximal number of slots; exactly the slots held are
    active; and a pool at rest whose sessions are gone has every slot warm. *)
Theorem pool_bookkeeping_exact key size max c es :
  count c = size → 0 ≤ size ≤ max → calm_run es (init key size max c) →
  let s := run es (init key size max c) in
  ∃ c', the_core (pool s) = Some c' ∧
    _reserved_slot_count (pool s) = count c' + sumZ reserving (flying s) - sumZ removing (flying s) ∧
    size ≤ count c' ≤ max ∧
    (∀ i, i ∈ active_slots (pool s) ↔ i ∈ (held s).*2) ∧
    (flying s = [] → held s = [] → warm_free_slots (pool s) ≡ₚ range (count c')).
Proof.
  intros Hc Hs Hcalm s. assert (wf s) as Hw by (apply pool_run_wf, pool_init_wf; [done|lia]).
  assert (exactly s) as [c' He].
  { apply run_exact; [apply pool_init_wf; [done|lia]|by apply init_exact|done]. }
  pose proof (sum_flights s) as [Hf1 Hf2]. pose proof He as [E1 E2 E3 E4 E5 E6 E7 E8].
  destruct (run_spec es (init key size max c)) as [Es Em]. fold s in Es, Em. simpl in Es, Em.
  exists c'. split_and!; try done; try lia.
  - intros i. split; [apply E8|apply (wf_active s Hw)].
  - intros Hfl Hh. destruct Hw as [(c1 & Hc1 & _ & Hp) _ _]. assert (c1 = c') as -> by congruence.
    rewrite <- Hp. unfold places. rewrite Hfl. simpl. assert (active_slots (pool s) = ∅) as ->.
    { apply set_eq. intros i. split; [|set_solver]. intros Hi%E8. rewrite Hh in Hi. by apply elem_of_nil in Hi. }
    by rewrite elements_empty, !app_nil_r.
Qed.

(** ** Concrete runs *)

Definition growing (n : Z) : core := Core n true false.
(** A session takes a slot that has to be created. *)
Definition acquire_cold (sid : string) : list event := [Acquire sid; Returns 0 true; Settles 0].

Definition busy_run : list event :=
  Acquire "a" :: acquire_cold "b" ++ [Acquire "c"; Acquire "d"; Returns 1 false; Settles 0; Returns 0 true; Settles 0;
    Release "a"; Release "b"; Release "d"; Release "c"; Grow; Returns 0 true; Settles 0; Shrink None; Returns 0 true].

Lemma slots_exclusive_witness : NoDup (held (run busy_run (init "k" 1 4 (growing 1)))).*2.
Proof. apply (slots_exclusive "k" 1 4 (growing 1) busy_run); [reflexivity|lia]. Defined.

Lemma pool_bookkeeping_exact_witness :
  let s := run busy_run (init "k" 1 4 (growing 1)) in
  ∃ c', the_core (pool s) = Some c' ∧
    _reserved_slot_count (pool s) = count c' + sumZ reserving (flying s) - sumZ removing (flying s) ∧
    1 ≤ count c' ≤ 4 ∧
    (∀ i, i ∈ active_slots (pool s) ↔ i ∈ (held s).*2) ∧
    (flying s = [] → held s = [] → warm_free_slots (pool s) ≡ₚ range (count c')).
Proof.
  apply (pool_bookkeeping_exact "k" 1 4 (growing 1) busy_run); [reflexivity|lia|].
  vm_compute. repeat split; try (left; discriminate); try (right; reflexivity); try discriminate.
Defined.

(** Four sessions hold the four slots; one leaves, and while its slot is being removed
    another arrives: the core appends, so the removal fails and its rollback counts the slot
    twice.  Then every session leaves. *)
Definition overlap : list event :=
  Acquire "a" :: acquire_cold "b" ++ acquire_cold "c" ++ acquire_cold "d" ++
  [Release "d"; Shrink None; Acquire "e"; Returns 0 true; Settles 0; Returns 0 true; Settles 0;
   Release "a"; Release "b"; Release "c"; Release "e"].

(** When a session arrives while an idle slot is being removed, the reserved count can end
    above the slots the core has, at rest: from then on [shrink_idle] removes nothing,
    although only idle slots are left, and the pool refuses its last slot. *)
Theorem overlap_disables_shrinking :
  let s := run overlap (init "k" 1 6 (growing 1)) in
  flying s = [] ∧ held s = [] ∧ the_core (pool s) = Some (growing 5) ∧ _reserved_slot_count (pool s) = 6 ∧
  warm_free_slots (pool s) = [0; 1; 2; 3; 4] ∧
  (∀ keep, exec (Shrink keep) s = s) ∧
  is_ok (result_of acquire_or_reserve (pool (run (Acquire <$> ["a"; "b"; "c"; "d"; "e"]) s))) = false.
Proof.
  intros s. split_and!; try (vm_compute; reflexivity). intros keep. vm_compute in s. unfold s. simpl.
  unfold shrink_select. run_prog. by destruct (6 <=? default 1 keep).
Qed.

End EnvPool.
