(* ===== verification/EnvBindings.v ===== *)
(** * Bindings: how sessions get lanes of pools ([rollout_runtime/workers/env_worker.py])

    [create_binding], [_ensure_pool], [release_binding] and [_evict_idle_pools] of
    [RuntimeEnvWorker], with [EnvPoolManager.ensure_pool]: a session is bound to a lane of
    the pool of its environment spec, the pool is built on demand under a lock, an unhealthy
    one is replaced, idle ones are evicted.  Each pool is a system of [EnvPool.v].

    Every binding is a coroutine ([binder]), cut where it awaits: the lock of the pool key,
    the closing of an old pool, the building of a new one, the creation of a slot.  A binder
    is known to its pool by its tag.  [pool_locks] keeps who holds a lock; which waiter gets
    a free one is left open.  A build or a closing in a thread takes effect where it ends:
    the lock keeps every other binding of the key away meanwhile.

    Theorem: while no pool is marked unhealthy, two sessions never share a lane, whatever
    builds, evictions, growths and releases interleave.  A concrete run shows that replacing
    an unhealthy pool can put two sessions on one lane. *)

From stdpp Require Import pretty.
From S2P Require Import Prelude Codec Api EnvPool.

Open Scope string_scope.
Open Scope list_scope.
Open Scope Z_scope.

Module EnvBindings.
Import EnvPool.

(** [digest()], [pool_size] and [effective_max_pool_size()] of an [EnvSpecMsg]. *)
Record env_spec := Spec { digest : string; size : nat; max_slots : Z }.

(** Where a binder awaits, or how it ended. *)
Inductive stage :=
  | WaitsLock
  | Closes (old : nat)
  | Builds
  | WaitsSlot (pid : nat)
  | Over.
Record binder := Binder { b_session : string; b_spec : env_spec; b_stage : stage }.

(** The owner of a pool lock: a binder, or the eviction. *)
Inductive owner := ByBinder (b : nat) | ByEviction.

(** A [SessionSlot]: pool key, lane, and the binder that made it. *)
Record binding := Bound { key : string; lane : Z; maker : nat }.

Record t := Bindings {
  table : gmap string nat;
  objects : gmap nat sys;
  pool_locks : gmap string owner;
  sessions : gmap string binding;
  binders : list binder;
}.

Definition set_table (x : gmap string nat) (w : t) : t := Bindings x (objects w) (pool_locks w) (sessions w) (binders w).
Definition set_objects (x : gmap nat sys) (w : t) : t := Bindings (table w) x (pool_locks w) (sessions w) (binders w).
Definition set_locks (x : gmap string owner) (w : t) : t := Bindings (table w) (objects w) x (sessions w) (binders w).
Definition set_sessions (x : gmap string binding) (w : t) : t := Bindings (table w) (objects w) (pool_locks w) x (binders w).
Definition set_binders (x : list binder) (w : t) : t := Bindings (table w) (objects w) (pool_locks w) (sessions w) x.

Definition on_pool (pid : nat) (f : sys → sys) (w : t) : t := set_objects (alter f pid (objects w)) w.
Definition to_stage (b : nat) (s : stage) (w : t) : t :=
  set_binders (alter (λ x, Binder (b_session x) (b_spec x) s) b (binders w)) w.
Definition lock (k : string) (o : owner) (w : t) : t := set_locks (<[k := o]> (pool_locks w)) w.
Definition unlock (k : string) (w : t) : t := set_locks (delete k (pool_locks w)) w.

Definition tag (b : nat) : string := pretty (Z.of_nat b).
Definition marks (n : Z) (s : sys) : sys :=
  set_pool (set_marks (unhealthy (pool s)) (pending_bindings (pool s) + n) (evicting (pool s)) (pool s)) s.
Definition set_evicting (b : bool) (s : sys) : sys :=
  set_pool (set_marks (unhealthy (pool s)) (pending_bindings (pool s)) b (pool s)) s.
Definition set_unhealthy (s : sys) : sys :=
  set_pool (set_marks true (pending_bindings (pool s)) (evicting (pool s)) (pool s)) s.

(** A pool that may serve: [core is not None and not unhealthy and not evicting]. *)
Definition has_core (p : EnvPool.t) : bool := if the_core p then true else false.
Definition serves (s : sys) : bool :=
  has_core (pool s) && negb (unhealthy (pool s)) && negb (evicting (pool s)).
(** [self.pools.find(key)] *)
Definition find (k : string) (w : t) : option (nat * sys) :=
  match table w !! k with
  | Some pid => match objects w !! pid with Some s => Some (pid, s) | None => None end
  | None => None
  end.

(** ** [create_binding] *)

Definition held_lane (name : string) (s : sys) : option Z := snd <$> (snd <$> list_find (λ h, h.1 = name) (held s)).
Definition is_creation (name : string) (f : flight) : bool :=
  match f with Creating (ForSession n) | Created (ForSession n) _ => String.eqb n name | _ => false end.

(** The binder after its acquisition moved: it has a slot, it waits for the creation, or
    the acquisition failed. *)
Definition continue (b pid : nat) (x : binder) (w : t) : t :=
  match objects w !! pid with
  | Some s =>
      match held_lane (tag b) s with
      | Some i => to_stage b Over
          (set_sessions (<[b_session x := Bound (digest (b_spec x)) i b]> (sessions w)) (on_pool pid (marks (-1)) w))
      | None =>
          if existsb (is_creation (tag b)) (flying s) then to_stage b (WaitsSlot pid) w
          else to_stage b Over (on_pool pid (marks (-1)) w)
      end
  | None => w
  end.
(** [pool.pending_bindings += 1; return pool], then the first segment of [acquire_or_grow]. *)
Definition take (b pid : nat) (x : binder) (w : t) : t :=
  continue b pid x (on_pool pid (λ s, EnvPool.exec (Acquire (tag b)) (marks 1 s)) w).

(** [create_binding] up to its first [await]. *)
Definition create_binding (sid : string) (spec : env_spec) (w : t) : t :=
  match sessions w !! sid with
  | Some _ => w
  | None =>
      let b := length (binders w) in
      let x := Binder sid spec WaitsLock in
      let w := set_binders (binders w ++ [x]) w in
      match find (digest spec) w with
      | Some (pid, s) => if serves s then take b pid x w else w
      | None => w
      end
  end.

(** [async with lock], and the second check. *)
Definition lock_granted (b : nat) (x : binder) (w : t) : t :=
  let k := digest (b_spec x) in
  if bool_decide (is_Some (pool_locks w !! k)) then w
  else
    match find k w with
    | Some (pid, s) =>
        if negb (has_core (pool s)) then to_stage b Builds (lock k (ByBinder b) w)
        else if serves s then take b pid x w
        else if negb (in_use (pool s) =? 0) then to_stage b Over w
        else to_stage b (Closes pid) (lock k (ByBinder b) w)
    | None => to_stage b Builds (lock k (ByBinder b) w)
    end.
Definition closed (b old : nat) (x : binder) (w : t) : t :=
  let k := digest (b_spec x) in
  let w := on_pool old (λ s, set_pool (after close (pool s)) s) w in
  to_stage b Builds (if bool_decide (table w !! k = Some old) then set_table (delete k (table w)) w else w).

(** [EnvPoolManager.ensure_pool]: the pool of the key; a new object when there is none with
    a core. *)
Definition ensure_pool (spec : env_spec) (grows vector : bool) (w : t) : t * nat :=
  let k := digest spec in
  match find k w with
  | Some (pid, s) =>
      if has_core (pool s) then (w, pid)
      else let new := fresh (dom (objects w)) in
        (set_table (<[k := new]> (table w)) (set_objects (<[new :=
          init k (Z.of_nat (size spec)) (max_slots spec) (Core (Z.of_nat (size spec)) grows vector)]> (objects w)) w), new)
  | None => let new := fresh (dom (objects w)) in
      (set_table (<[k := new]> (table w)) (set_objects (<[new :=
        init k (Z.of_nat (size spec)) (max_slots spec) (Core (Z.of_nat (size spec)) grows vector)]> (objects w)) w), new)
  end.
(** The build returned or raised. *)
Definition built (b : nat) (x : binder) (form : option (bool * bool)) (w : t) : t :=
  let w' := unlock (digest (b_spec x)) w in
  match form with
  | Some (grows, vector) => let '(w', pid) := ensure_pool (b_spec x) grows vector w' in take b pid x w'
  | None => to_stage b Over w'
  end.

(** ** [release_binding] and [_evict_idle_pools] *)

Definition give_back (i : Z) (s : sys) : sys :=
  Sys (after (release i) (pool s)) (flying s) (bfilter (λ h, negb (h.2 =? i)) (held s)).
Definition release_binding (sid : string) (w : t) : t :=
  match sessions w !! sid with
  | None => w
  | Some s =>
      let w := set_sessions (delete sid (sessions w)) w in
      match table w !! key s with Some pid => on_pool pid (give_back (lane s)) w | None => w end
  end.

Definition evict_begins (k : string) (w : t) : t :=
  match find k w with
  | Some (pid, s) =>
      if bool_decide (is_Some (pool_locks w !! k)) || negb (in_use (pool s) =? 0) || negb (pending_bindings (pool s) =? 0)
         || evicting (pool s)
      then w else lock k ByEviction (on_pool pid (set_evicting true) w)
  | None => w
  end.
Definition evict_ends (k : string) (w : t) : t :=
  match find k w, pool_locks w !! k with
  | Some (pid, s), Some ByEviction =>
      unlock k (set_table (delete k (table w))
        (on_pool pid (λ s, set_evicting false (set_pool (after close (pool s)) s)) w))
  | _, _ => w
  end.

(** ** Runs *)

Inductive event :=
  | Binds (sid : string) (spec : env_spec)
  | LockGranted (b : nat)
  | PoolClosed (b : nat)
  | PoolBuilt (b : nat) (form : option (bool * bool))
  | SlotReady (b : nat)
  | InPool (pid : nat) (e : EnvPool.event)
  | Fails (pid : nat)
  | Releases (sid : string)
  | Evicts (k : string)
  | Evicted (k : string).

(** What happens inside a pool between the segments of bindings. *)
Definition internal (e : EnvPool.event) : bool :=
  match e with Grow | Shrink _ | Returns _ _ | Settles _ => true | _ => false end.

Definition exec (e : event) (w : t) : t :=
  match e with
  | Binds sid spec => create_binding sid spec w
  | LockGranted b =>
      match binders w !! b with
      | Some x => match b_stage x with WaitsLock => lock_granted b x w | _ => w end
      | None => w
      end
  | PoolClosed b =>
      match binders w !! b with
      | Some x => match b_stage x with Closes old => closed b old x w | _ => w end
      | None => w
      end
  | PoolBuilt b form =>
      match binders w !! b with
      | Some x => match b_stage x with Builds => built b x form w | _ => w end
      | None => w
      end
  | SlotReady b =>
      match binders w !! b with
      | Some x => match b_stage x with WaitsSlot pid => continue b pid x w | _ => w end
      | None => w
      end
  | InPool pid e => if internal e then on_pool pid (EnvPool.exec e) w else w
  | Fails pid => on_pool pid set_unhealthy w
  | Releases sid => release_binding sid w
  | Evicts k => evict_begins k w
  | Evicted k => evict_ends k w
  end.
Definition run (es : list event) (w : t) : t := foldl (λ w e, exec e w) w es.
Definition start : t := Bindings ∅ ∅ ∅ ∅ [].

(** ** What holds in every run without failures of the simulator *)

Definition waiting (pid : nat) (x : binder) : bool :=
  match b_stage x with WaitsSlot p => bool_decide (p = pid) | _ => false end.
Definition waiters (pid : nat) (l : list binder) : Z := sumZ (λ x, Z.b2z (waiting pid x)) l.

(** The pool of a key: its counter of pending bindings is the number of binders that wait
    for a slot of it; while it is evicted nobody uses it, and the eviction has the lock. *)
Record good (w : t) (k : string) (pid : nat) (s : sys) : Prop := {
  good_wf : wf s;
  good_key : pool_key (pool s) = k;
  good_healthy : unhealthy (pool s) = false;
  good_pending : pending_bindings (pool s) = waiters pid (binders w);
  good_evicted : evicting (pool s) = true →
    pool_locks w !! k = Some ByEviction ∧ (∀ sid r, sessions w !! sid = Some r → key r ≠ k) ∧
    waiters pid (binders w) = 0;
}.

Record inv (w : t) : Prop := {
  inv_pools k pid : table w !! k = Some pid → ∃ s, objects w !! pid = Some s ∧ good w k pid s;
  inv_sessions sid r : sessions w !! sid = Some r → ∃ pid s x,
    table w !! key r = Some pid ∧ objects w !! pid = Some s ∧ (tag (maker r), lane r) ∈ held s ∧
    binders w !! maker r = Some x ∧ b_session x = sid;
  inv_waits b x pid : binders w !! b = Some x → b_stage x = WaitsSlot pid → table w !! digest (b_spec x) = Some pid;
  inv_builds b x : binders w !! b = Some x → b_stage x = Builds → pool_locks w !! digest (b_spec x) = Some (ByBinder b);
  inv_closes b x old : binders w !! b = Some x → b_stage x ≠ Closes old;
  inv_evicts k : pool_locks w !! k = Some ByEviction → ∃ pid s,
    table w !! k = Some pid ∧ objects w !! pid = Some s ∧ evicting (pool s) = true;
}.

Lemma waiters_alter pid f b x l :
  l !! b = Some x → waiters pid (alter f b l) = waiters pid l - Z.b2z (waiting pid x) + Z.b2z (waiting pid (f x)).
Proof.
  unfold waiters. revert b. induction l as [|y l IH]; intros [|b] H; try done; simpl in H.
  - simplify_eq. change (alter f 0%nat (x :: l)) with (f x :: l). rewrite !sumZ_cons. lia.
  - change (alter f (S b) (y :: l)) with (y :: alter f b l). rewrite !sumZ_cons, (IH b H). lia.
Qed.
Lemma waiters_nonneg pid l : 0 ≤ waiters pid l.
Proof. apply sumZ_nonneg. intros x _. by destruct (waiting pid x). Qed.
Lemma waiters_in pid b x l : l !! b = Some x → b_stage x = WaitsSlot pid → 1 ≤ waiters pid l.
Proof.
  intros H Hx. pose proof (waiters_alter pid (λ x, Binder (b_session x) (b_spec x) Over) b x l H) as E.
  pose proof (waiters_nonneg pid (alter (λ x, Binder (b_session x) (b_spec x) Over) b l)).
  unfold waiting in E. rewrite Hx in E. rewrite bool_decide_true in E by done. simpl in E. lia.
Qed.
Lemma waiting_spec pid x : waiting pid x = true ↔ b_stage x = WaitsSlot pid.
Proof.
  unfold waiting. destruct (b_stage x); try done. rewrite bool_decide_eq_true. split; [by intros ->|by intros [=]].
Qed.

Lemma inv_pool w k pid s : inv w → table w !! k = Some pid → objects w !! pid = Some s → good w k pid s.
Proof. intros Hw Hk Hs. destruct (inv_pools w Hw k pid Hk) as (s' & Hs' & H). by simplify_eq. Qed.
Lemma pool_of_one_key w k k' pid : inv w → table w !! k = Some pid → table w !! k' = Some pid → k = k'.
Proof.
  intros Hw Hk Hk'. destruct (inv_pools w Hw k pid Hk) as (s & Hs & Hg), (inv_pools w Hw k' pid Hk') as (s' & Hs' & Hg').
  simplify_eq. by rewrite <- (good_key _ _ _ _ Hg), <- (good_key _ _ _ _ Hg').
Qed.
Lemma good_core w k pid s : good w k pid s → has_core (pool s) = true.
Proof. intros [[(c & Hc & _) _ _] _ _ _ _]. unfold has_core. by rewrite Hc. Qed.

Lemma identity_key p p' : identity p = identity p' → pool_key p = pool_key p'.
Proof. intros H. by injection H. Qed.
Lemma identity_healthy p p' : identity p = identity p' → unhealthy p = unhealthy p'.
Proof. intros H. by injection H. Qed.
Lemma identity_pending p p' : identity p = identity p' → pending_bindings p = pending_bindings p'.
Proof. intros H. by injection H. Qed.
Lemma identity_evicting p p' : identity p = identity p' → evicting p = evicting p'.
Proof. intros H. by injection H. Qed.

(** A pool keeps what it promised: it is well formed, nobody loses a slot, and its counter
    moves by [d]. *)
Record keeps (d : Z) (s s' : sys) : Prop := {
  keeps_wf : wf s → wf s';
  keeps_identity : identity (pool s') = identity (pool (marks d s));
  keeps_held h : h ∈ held s → h ∈ held s';
}.
Lemma marks_wf d s : wf s → wf (marks d s).
Proof. intros [(c & ?) ? ?]. split; [by exists c|done|done]. Qed.
Lemma marks_keeps d s : keeps d s (marks d s).
Proof. split; [apply marks_wf|done|done]. Qed.

Lemma hold_held sid i s h : h ∈ held s → h ∈ held (hold sid i s).
Proof. intros H. by right. Qed.
Lemma settles_held f s h : h ∈ held s → h ∈ held (flight_settles f s).
Proof. intros H. destruct f as [[]|[] i| |i|i]; try done. by right. Qed.
Lemma returns_held k works s : held (EnvPool.exec (Returns k works) s) = held s.
Proof.
  simpl. destruct (flying s !! k) as [f|], (the_core (pool s)) as [c|]; try done.
  by destruct (core_returns works f c) as [c' [f'|]].
Qed.

Lemma internal_keeps e s : internal e = true → keeps 0 s (EnvPool.exec e s).
Proof.
  intros He. split.
  - apply pool_exec_wf.
  - rewrite exec_identity. unfold identity, marks. simpl. by rewrite Z.add_0_r.
  - intros h Hh. destruct e; try done.
    + simpl. destruct (grow_reserve (pool s)) as [p [[?|]|]]; done.
    + simpl. destruct (shrink_select _ (pool s)) as [p [[?|]|]]; done.
    + by rewrite returns_held.
    + simpl. destruct (flying s !! k) as [f|]; [|done]. destruct (waits f); [done|]. by apply settles_held.
Qed.
Lemma acquire_keeps n s : keeps 1 s (EnvPool.exec (Acquire n) (marks 1 s)).
Proof.
  split.
  - intros H. by apply pool_exec_wf, marks_wf.
  - apply exec_identity.
  - intros h Hh. simpl. destruct (acquire_or_reserve _) as [p [[i|i]|e]]; try done. by right.
Qed.

(** ** Steps keep it *)

(** A pool moves and one of its binders with it. *)
Lemma inv_moves w b x pid s f st :
  inv w → binders w !! b = Some x → table w !! digest (b_spec x) = Some pid → objects w !! pid = Some s →
  evicting (pool s) = false → st = WaitsSlot pid ∨ st = Over →
  keeps (Z.b2z (waiting pid (Binder (b_session x) (b_spec x) st)) - Z.b2z (waiting pid x)) s (f s) →
  inv (to_stage b st (on_pool pid f w)).
Proof.
  intros Hw Hb Hk Hs He Hst Hf. set (g := λ y : binder, Binder (b_session y) (b_spec y) st).
  assert (∀ b' x', alter g b (binders w) !! b' = Some x' → b' = b ∧ x' = g x ∨ binders w !! b' = Some x') as Hcase.
  { intros b' x' H. destruct (decide (b = b')) as [<-|Hne].
    - rewrite list_lookup_alter_eq, Hb in H. injection H as <-. by left.
    - rewrite list_lookup_alter_ne in H by done. by right. }
  assert (alter f pid (objects w) !! pid = Some (f s)) as Hfs by (by rewrite lookup_alter_eq, Hs).
  assert (∀ p, p ≠ pid → waiting p (g x) = waiting p x) as Hother.
  { intros p Hp. assert (waiting p (g x) = false) as ->.
    { unfold waiting. destruct Hst as [-> | ->]; simpl; [|done]. by apply bool_decide_false. }
    destruct (waiting p x) eqn:E; [|done]. apply waiting_spec in E. apply (inv_waits w Hw _ _ _ Hb) in E. congruence. }
  destruct Hf as [Hfw Hfi Hfh]. split; cbn [table objects pool_locks sessions binders to_stage on_pool set_objects set_binders].
  - intros k p Hp. destruct (decide (p = pid)) as [->|Hne].
    + assert (k = digest (b_spec x)) as -> by by apply (pool_of_one_key w _ _ pid Hw).
      exists (f s). split; [done|]. pose proof (inv_pool w _ pid s Hw Hp Hs) as [G1 G2 G3 G4 G5].
      split; [by apply Hfw|by rewrite (identity_key _ _ Hfi)|by rewrite (identity_healthy _ _ Hfi)| |].
      * rewrite (identity_pending _ _ Hfi). simpl. rewrite G4, (waiters_alter pid g b x) by done. unfold g. lia.
      * rewrite (identity_evicting _ _ Hfi). simpl. congruence.
    + destruct (inv_pools w Hw k p Hp) as (s' & Hs' & [G1 G2 G3 G4 G5]). exists s'. split; [by rewrite lookup_alter_ne|].
      assert (waiters p (alter g b (binders w)) = waiters p (binders w)) as E
        by (rewrite (waiters_alter p g b x) by done; rewrite Hother by done; lia).
      split; cbn [pool_locks sessions binders to_stage on_pool set_objects set_binders];
        [done..|by rewrite G4, <- E|fold g; by rewrite E].
  - intros sid r Hr. destruct (inv_sessions w Hw sid r Hr) as (p & s' & y & H1 & H2 & H3 & H4 & H5).
    assert (∃ s'', alter f pid (objects w) !! p = Some s'' ∧ (tag (maker r), lane r) ∈ held s'') as (s'' & H2' & H3').
    { destruct (decide (p = pid)) as [->|Hne]; [exists (f s); simplify_eq; auto|]. exists s'. by rewrite lookup_alter_ne. }
    assert (∃ y', alter g b (binders w) !! maker r = Some y' ∧ b_session y' = sid) as (y' & H4' & H5').
    { destruct (decide (b = maker r)) as [->|Hne].
      - exists (g y). by rewrite list_lookup_alter_eq, H4.
      - exists y. by rewrite list_lookup_alter_ne. }
    by exists p, s'', y'.
  - intros b' x' p [[-> ->]|H]%Hcase Hp; [|by eapply inv_waits]. simpl in *.
    destruct Hst as [-> | ->]; [by injection Hp as <-|done].
  - intros b' x' [[-> ->]|H]%Hcase Hp; [|by eapply inv_builds]. simpl in Hp. by destruct Hst as [-> | ->].
  - intros b' x' old [[-> ->]|H]%Hcase; [|by eapply inv_closes]. simpl. by destruct Hst as [-> | ->].
  - intros k Hl. destruct (inv_evicts w Hw k Hl) as (p & s' & H1 & H2 & H3). exists p, s'.
    split_and!; [done| |done]. rewrite lookup_alter_ne; [done|]. intros <-. congruence.
Qed.

(** A pool moves on its own. *)
Lemma inv_inside w pid f : inv w → (∀ s, keeps 0 s (f s)) → inv (on_pool pid f w).
Proof.
  intros Hw Hf.
  assert (∀ p s, objects w !! p = Some s → ∃ s', alter f pid (objects w) !! p = Some s' ∧
    (wf s → wf s') ∧ identity (pool s') = identity (pool s) ∧ ∀ h, h ∈ held s → h ∈ held s') as Hobj.
  { intros p s Hs. destruct (decide (pid = p)) as [->|Hne].
    - exists (f s). rewrite lookup_alter_eq, Hs. destruct (Hf s) as [H1 H2 H3]. split_and!; try done. rewrite H2.
      unfold identity. simpl. by rewrite Z.add_0_r.
    - exists s. by rewrite lookup_alter_ne. }
  split; cbn [table objects pool_locks sessions binders on_pool set_objects].
  - intros k p Hp. destruct (inv_pools w Hw k p Hp) as (s & Hs & [G1 G2 G3 G4 G5]).
    destruct (Hobj p s Hs) as (s' & Hs' & H1 & H2 & H3). exists s'. split; [done|].
    split; [auto|by rewrite (identity_key _ _ H2)|by rewrite (identity_healthy _ _ H2)|by rewrite (identity_pending _ _ H2)|].
    by rewrite (identity_evicting _ _ H2).
  - intros sid r Hr. destruct (inv_sessions w Hw sid r Hr) as (p & s & y & H1 & H2 & H3 & H4 & H5).
    destruct (Hobj p s H2) as (s' & Hs' & _ & _ & H). exists p, s', y. auto.
  - apply (inv_waits w Hw).
  - apply (inv_builds w Hw).
  - apply (inv_closes w Hw).
  - intros k Hl. destruct (inv_evicts w Hw k Hl) as (p & s & H1 & H2 & H3).
    destruct (Hobj p s H2) as (s' & Hs' & _ & H & _). exists p, s'. split_and!; try done. by rewrite (identity_evicting _ _ H).
Qed.

(** A binder that holds a slot becomes a session. *)
Lemma inv_new_session w b x pid s i :
  inv w → binders w !! b = Some x → table w !! digest (b_spec x) = Some pid → objects w !! pid = Some s →
  (tag b, i) ∈ held s → evicting (pool s) = false →
  inv (set_sessions (<[b_session x := Bound (digest (b_spec x)) i b]> (sessions w)) w).
Proof.
  intros Hw Hb Hk Hs Hh He. split; cbn [table objects pool_locks sessions binders set_sessions];
    try apply Hw.
  - intros k p Hp. destruct (inv_pools w Hw k p Hp) as (s' & Hs' & [G1 G2 G3 G4 G5]). exists s'. split; [done|].
    split; try done. intros E. destruct (G5 E) as (F1 & F2 & F3). split_and!; [done| |done].
    cbn [sessions set_sessions]. intros sid r [[<- <-]|[_ Hr]]%lookup_insert_Some; [|by eapply F2]. simpl. intros <-. congruence.
  - intros sid r [[<- <-]|[_ Hr]]%lookup_insert_Some; [by exists pid, s, x|by apply (inv_sessions w Hw)].
Qed.

Lemma held_lane_in n s i : held_lane n s = Some i → (n, i) ∈ held s.
Proof.
  unfold held_lane. destruct (list_find _ (held s)) as [[k [n' j]]|] eqn:E; [|done]. intros [= ->].
  apply list_find_Some in E as (H & Hn & _). simpl in Hn. subst. by eapply list_elem_of_lookup_2.
Qed.

(** The acquisition of a waiting binder goes on. *)
Lemma inv_continue w b x pid :
  inv w → binders w !! b = Some x → b_stage x = WaitsSlot pid → inv (continue b pid x w).
Proof.
  intros Hw Hb Hx. pose proof (inv_waits w Hw b x pid Hb Hx) as Hk.
  destruct (inv_pools w Hw _ _ Hk) as (s & Hs & G).
  assert (waiting pid x = true) as Hwx by by apply waiting_spec.
  assert (evicting (pool s) = false) as He.
  { destruct (evicting (pool s)) eqn:E; [|done]. destruct (good_evicted _ _ _ _ G E) as (_ & _ & H0).
    pose proof (waiters_in pid b x _ Hb Hx). lia. }
  assert (inv (to_stage b Over (on_pool pid (marks (-1)) w))) as Hover.
  { eapply inv_moves; [done..|by right|]. rewrite Hwx. apply marks_keeps. }
  unfold continue. rewrite Hs. destruct (held_lane (tag b) s) as [i|] eqn:Hl; [|destruct (existsb _ _)]; [| |done].
  - change (inv (set_sessions (<[b_session x := Bound (digest (b_spec x)) i b]>
      (sessions (to_stage b Over (on_pool pid (marks (-1)) w)))) (to_stage b Over (on_pool pid (marks (-1)) w)))).
    eapply (inv_new_session _ b (Binder (b_session x) (b_spec x) Over) pid (marks (-1) s));
      [done| |done| |by apply held_lane_in in Hl|done].
    + simpl. by rewrite list_lookup_alter_eq, Hb.
    + simpl. by rewrite lookup_alter_eq, Hs.
  - assert (to_stage b (WaitsSlot pid) w = w) as ->; [|done]. destruct w as [tb ob lk ss bs]. unfold to_stage, set_binders.
    simpl in *. f_equal. apply list_eq. intros j. destruct (decide (b = j)) as [<-|Hne];
      [|by rewrite list_lookup_alter_ne]. rewrite list_lookup_alter_eq, Hb. simpl. destruct x; simpl in *. congruence.
Qed.

Lemma to_stage_twice b st st' w : to_stage b st (to_stage b st' w) = to_stage b st w.
Proof.
  unfold to_stage, set_binders. simpl. f_equal. apply list_eq. intros j. destruct (decide (b = j)) as [<-|Hne].
  - rewrite !list_lookup_alter_eq. by destruct (binders w !! b).
  - by rewrite !list_lookup_alter_ne.
Qed.
Lemma continue_stage b pid x s st w :
  objects w !! pid = Some s → continue b pid x (to_stage b st w) = continue b pid x w.
Proof.
  intros Hs. unfold continue. cbn [objects to_stage set_binders]. rewrite Hs.
  destruct (held_lane _ _); [|destruct (existsb _ _)]; [|by rewrite to_stage_twice|].
  - exact (to_stage_twice b Over st (set_sessions _ (on_pool pid (marks (-1)) w))).
  - exact (to_stage_twice b Over st (on_pool pid (marks (-1)) w)).
Qed.
Lemma take_stage b pid x s st w :
  objects w !! pid = Some s → take b pid x (to_stage b st w) = take b pid x w.
Proof.
  intros Hs. unfold take. set (f := λ s, EnvPool.exec (Acquire (tag b)) (marks 1 s)).
  apply (continue_stage b pid x (f s) st (on_pool pid f w)). simpl. by rewrite lookup_alter_eq, Hs.
Qed.

(** A binder that does not wait for a slot yet asks the pool for one. *)
Lemma inv_take w b x pid s st :
  inv w → binders w !! b = Some (Binder (b_session x) (b_spec x) st) → (∀ p, st ≠ WaitsSlot p) →
  table w !! digest (b_spec x) = Some pid → objects w !! pid = Some s → evicting (pool s) = false →
  inv (take b pid x w).
Proof.
  intros Hw Hb Hst Hk Hs He. unfold take.
  set (f := λ s, EnvPool.exec (Acquire (tag b)) (marks 1 s)).
  assert (objects (on_pool pid f w) !! pid = Some (f s)) as Hf by (simpl; by rewrite lookup_alter_eq, Hs).
  rewrite <- (continue_stage b pid x (f s) (WaitsSlot pid)) by done.
  set (x' := Binder (b_session x) (b_spec x) (WaitsSlot pid)).
  change (inv (continue b pid x' (to_stage b (WaitsSlot pid) (on_pool pid f w)))). apply inv_continue.
  - eapply inv_moves; [done..|by left|]. assert (waiting pid (Binder (b_session x) (b_spec x) st) = false) as ->.
    { destruct (waiting pid _) eqn:E; [|done]. apply waiting_spec in E. by eapply Hst in E. }
    unfold waiting. simpl. rewrite bool_decide_true by done. apply acquire_keeps.
  - simpl. by rewrite list_lookup_alter_eq, Hb.
  - done.
Qed.

Lemma waiters_same pid f b x l :
  l !! b = Some x → waiting pid (f x) = waiting pid x → waiters pid (alter f b l) = waiters pid l.
Proof. intros H E. rewrite (waiters_alter pid f b x) by done. rewrite E. lia. Qed.

(** A binder that waits for no slot moves to another such place, and takes or leaves the lock
    of its key. *)
Lemma inv_quiet w b x st lk :
  inv w → binders w !! b = Some x → (∀ p, b_stage x ≠ WaitsSlot p) →
  st = WaitsLock ∨ st = Over ∨ st = Builds ∧ lk !! digest (b_spec x) = Some (ByBinder b) →
  (∀ k, lk !! k = Some ByEviction ↔ pool_locks w !! k = Some ByEviction) →
  (∀ k b', b' ≠ b → pool_locks w !! k = Some (ByBinder b') → lk !! k = Some (ByBinder b')) →
  inv (to_stage b st (set_locks lk w)).
Proof.
  intros Hw Hb Hx Hst Hev Hbb. set (g := λ y : binder, Binder (b_session y) (b_spec y) st).
  assert (∀ b' x', alter g b (binders w) !! b' = Some x' → b' = b ∧ x' = g x ∨ b' ≠ b ∧ binders w !! b' = Some x') as Hcase.
  { intros b' x' H. destruct (decide (b = b')) as [<-|Hne].
    - rewrite list_lookup_alter_eq, Hb in H. injection H as <-. by left.
    - rewrite list_lookup_alter_ne in H by done. by right. }
  assert (∀ p, st ≠ WaitsSlot p) as Hst' by (intros p; by destruct Hst as [-> |[-> |[-> _]]]).
  assert (∀ p, waiters p (alter g b (binders w)) = waiters p (binders w)) as E.
  { intros p. apply (waiters_same p g b x _ Hb). destruct (waiting p x) eqn:E1.
    - by apply waiting_spec, Hx in E1.
    - destruct (waiting p (g x)) eqn:E2; [|done]. by apply waiting_spec, Hst' in E2. }
  split; cbn [table objects pool_locks sessions binders to_stage set_locks set_binders]; fold g.
  - intros k p Hp. destruct (inv_pools w Hw k p Hp) as (s & Hs & [G1 G2 G3 G4 G5]). exists s. split; [done|].
    split; cbn [pool_locks sessions binders to_stage set_locks set_binders]; fold g; try done;
      rewrite E, ?Hev; done.
  - intros sid r Hr. destruct (inv_sessions w Hw sid r Hr) as (p & s & y & H1 & H2 & H3 & H4 & H5).
    assert (∃ y', alter g b (binders w) !! maker r = Some y' ∧ b_session y' = sid) as (y' & H4' & H5').
    { destruct (decide (b = maker r)) as [->|Hne].
      - exists (g y). by rewrite list_lookup_alter_eq, H4.
      - exists y. by rewrite list_lookup_alter_ne. }
    by exists p, s, y'.
  - intros b' x' p [[-> ->]|[_ H]]%Hcase Hp; [by apply Hst' in Hp|by eapply inv_waits].
  - intros b' x' [[-> ->]|[Hne H]]%Hcase Hp; [|by eapply Hbb, inv_builds]. simpl in Hp.
    by destruct Hst as [-> |[-> |[_ ?]]].
  - intros b' x' old [[-> ->]|[_ H]]%Hcase; [|by eapply inv_closes]. simpl. by destruct Hst as [-> |[-> |[-> _]]].
  - intros k Hl%Hev. by apply (inv_evicts w Hw).
Qed.

Lemma inv_over w b x : inv w → binders w !! b = Some x → (∀ p, b_stage x ≠ WaitsSlot p) → inv (to_stage b Over w).
Proof.
  intros Hw Hb Hx. pose proof (inv_quiet w b x Over (pool_locks w) Hw Hb Hx ltac:(by right; left)) as H.
  destruct w. by apply H.
Qed.
Lemma inv_begins_build w b x :
  inv w → binders w !! b = Some x → (∀ p, b_stage x ≠ WaitsSlot p) → pool_locks w !! digest (b_spec x) = None →
  inv (to_stage b Builds (lock (digest (b_spec x)) (ByBinder b) w)).
Proof.
  intros Hw Hb Hx Hl. apply (inv_quiet w b x); try done.
  - right. right. by rewrite lookup_insert_eq.
  - intros k. split; [intros [[_ [=]]|[_ ?]]%lookup_insert_Some; done|intros H].
    rewrite lookup_insert_ne; [done|congruence].
  - intros k b' _ H. rewrite lookup_insert_ne; [done|congruence].
Qed.
Lemma inv_ends_build w b x :
  inv w → binders w !! b = Some x → b_stage x = Builds →
  inv (to_stage b WaitsLock (unlock (digest (b_spec x)) w)).
Proof.
  intros Hw Hb Hx. pose proof (inv_builds w Hw b x Hb Hx) as Hl. apply (inv_quiet w b x); try done.
  - by rewrite Hx.
  - by left.
  - intros k. rewrite lookup_delete_Some. split; [by intros []|]. intros H. split; [congruence|done].
  - intros k b' Hne H. apply lookup_delete_Some. split; [congruence|done].
Qed.
Lemma inv_new_binder w sid spec : inv w → inv (set_binders (binders w ++ [Binder sid spec WaitsLock]) w).
Proof.
  intros Hw. assert (∀ b x, (binders w ++ [Binder sid spec WaitsLock]) !! b = Some x →
    binders w !! b = Some x ∨ x = Binder sid spec WaitsLock) as Hcase.
  { intros b x H. apply lookup_app_Some in H as [|[_ H]]; [by left|]. apply list_lookup_singleton_Some in H as [_ <-]. by right. }
  assert (∀ p, waiters p (binders w ++ [Binder sid spec WaitsLock]) = waiters p (binders w)) as E.
  { intros p. unfold waiters. rewrite sumZ_app, sumZ_cons. unfold sumZ at 2. simpl. lia. }
  split; cbn [table objects pool_locks sessions binders set_binders]; try apply Hw.
  - intros k p Hp. destruct (inv_pools w Hw k p Hp) as (s & Hs & [G1 G2 G3 G4 G5]). exists s. split; [done|].
    split; cbn [pool_locks sessions binders set_binders]; rewrite ?E; done.
  - intros s r Hr. destruct (inv_sessions w Hw s r Hr) as (p & y & x & H1 & H2 & H3 & H4 & H5). exists p, y, x.
    split_and!; try done. by apply lookup_app_l_Some.
  - intros b x p [H| ->]%Hcase Hp; [by eapply inv_waits|done].
  - intros b x [H| ->]%Hcase Hp; [by apply (inv_builds w Hw)|done].
  - intros b x old [H| ->]%Hcase; [by eapply inv_closes|done].
Qed.

Lemma pool_found k w pid s : find k w = Some (pid, s) → table w !! k = Some pid ∧ objects w !! pid = Some s.
Proof.
  unfold find. destruct (table w !! k) as [p|]; [|done]. destruct (objects w !! p) as [s'|] eqn:E; [|done].
  intros [= -> ->]. done.
Qed.
Lemma pool_absent k w : inv w → find k w = None → table w !! k = None.
Proof.
  intros Hw H. unfold find in H. destruct (table w !! k) as [p|] eqn:E; [|done].
  destruct (inv_pools w Hw k p E) as (s & Hs & _). by rewrite Hs in H.
Qed.
Lemma serves_evicting s : serves s = true → evicting (pool s) = false.
Proof. unfold serves. by intros [_ ?%negb_true_iff]%andb_true_iff. Qed.

Lemma inv_create w sid spec : inv w → inv (create_binding sid spec w).
Proof.
  intros Hw. unfold create_binding. destruct (sessions w !! sid); [done|].
  set (x := Binder sid spec WaitsLock). pose proof (inv_new_binder w sid spec Hw) as H. fold x in H.
  destruct (find (digest spec) _) as [[pid s]|] eqn:Hf; [|done]. destruct (serves s) eqn:Hs; [|done].
  apply pool_found in Hf as [Hk Ho]. apply (inv_take _ _ x pid s WaitsLock); try done.
  - simpl. by rewrite list_lookup_middle.
  - by apply serves_evicting.
Qed.

Lemma inv_lock_granted w b x :
  inv w → binders w !! b = Some x → b_stage x = WaitsLock → inv (lock_granted b x w).
Proof.
  intros Hw Hb Hx. assert (∀ p, b_stage x ≠ WaitsSlot p) as Hx' by (by rewrite Hx). unfold lock_granted.
  destruct (bool_decide _) eqn:Hl; [done|]. apply bool_decide_eq_false, eq_None_not_Some in Hl.
  destruct (find _ w) as [[pid s]|] eqn:Hf; [|by apply inv_begins_build]. apply pool_found in Hf as [Hk Ho].
  pose proof (inv_pool w _ pid s Hw Hk Ho) as G. destruct (negb (has_core (pool s))); [by apply inv_begins_build|].
  destruct (serves s) eqn:Hs.
  - eapply (inv_take w b x pid s WaitsLock); try done; [by destruct x; simpl in *; subst|by apply serves_evicting].
  - destruct (negb (in_use (pool s) =? 0)); [by eapply inv_over|]. exfalso. unfold serves in Hs.
    rewrite (good_core _ _ _ _ G), (good_healthy _ _ _ _ G) in Hs. simpl in Hs. apply negb_false_iff in Hs.
    destruct (good_evicted _ _ _ _ G Hs) as [E _]. congruence.
Qed.

Lemma waiters_some pid l : waiters pid l ≠ 0 → ∃ b x, l !! b = Some x ∧ b_stage x = WaitsSlot pid.
Proof.
  unfold waiters. induction l as [|x l IH]; intros H; [done|]. rewrite sumZ_cons in H.
  destruct (waiting pid x) eqn:E; [by exists 0%nat, x; rewrite waiting_spec in E|].
  destruct IH as (b & y & Hb & Hy); [done|]. by exists (S b), y.
Qed.

Definition new_pool (spec : env_spec) (grows vector : bool) : sys :=
  init (digest spec) (Z.of_nat (size spec)) (max_slots spec) (Core (Z.of_nat (size spec)) grows vector).
Lemma inv_new_pool w spec grows vector (new := fresh (dom (objects w))) :
  inv w → table w !! digest spec = None →
  inv (set_table (<[digest spec := new]> (table w))
    (set_objects (<[new := new_pool spec grows vector]> (objects w)) w)).
Proof.
  intros Hw Hk. assert (objects w !! new = None) as Hnew by (apply not_elem_of_dom, is_fresh).
  assert (∀ p s, objects w !! p = Some s → <[new := new_pool spec grows vector]> (objects w) !! p = Some s) as Hob.
  { intros p s Hp. rewrite lookup_insert_ne; [done|congruence]. }
  assert (∀ k p, table w !! k = Some p → <[digest spec := new]> (table w) !! k = Some p) as Htb.
  { intros k p Hp. rewrite lookup_insert_ne; [done|congruence]. }
  split; cbn [table objects pool_locks sessions binders set_table set_objects].
  - intros k p [[<- <-]|[_ Hp]]%lookup_insert_Some.
    + exists (new_pool spec grows vector). split; [by rewrite lookup_insert_eq|].
      split; try done; [apply pool_init_wf; simpl; lia|]. simpl.
      destruct (decide (waiters new (binders w) = 0)) as [|Hne]; [done|].
      apply waiters_some in Hne as (b & x & Hb & Hx). pose proof (inv_waits w Hw b x new Hb Hx) as Hp.
      destruct (inv_pools w Hw _ _ Hp) as (s & Hs & _). congruence.
    + destruct (inv_pools w Hw k p Hp) as (s & Hs & [G1 G2 G3 G4 G5]). exists s. split; [by apply Hob|]. by split.
  - intros sid r Hr. destruct (inv_sessions w Hw sid r Hr) as (p & s & x & H1 & H2 & H3). exists p, s, x. auto.
  - intros b x p Hb Hp. by eapply Htb, inv_waits.
  - apply (inv_builds w Hw).
  - apply (inv_closes w Hw).
  - intros k Hl. destruct (inv_evicts w Hw k Hl) as (p & s & H1 & H2 & H3). exists p, s. auto.
Qed.

Lemma inv_built w b x form : inv w → binders w !! b = Some x → b_stage x = Builds → inv (built b x form w).
Proof.
  intros Hw Hb Hx. set (k := digest (b_spec x)). pose proof (inv_ends_build w b x Hw Hb Hx) as H. fold k in H.
  set (w1 := to_stage b WaitsLock (unlock k w)) in *.
  set (x1 := Binder (b_session x) (b_spec x) WaitsLock).
  assert (binders w1 !! b = Some x1) as Hb1 by (simpl; by rewrite list_lookup_alter_eq, Hb).
  unfold built. fold k. destruct form as [[grows vector]|].
  - unfold ensure_pool. fold k. destruct (find k (unlock k w)) as [[pid s]|] eqn:Hf.
    + apply pool_found in Hf as [Hk Ho]. pose proof (inv_pool w k pid s Hw Hk Ho) as G. rewrite (good_core _ _ _ _ G).
      rewrite <- (take_stage b pid x s WaitsLock (unlock k w)) by done. apply (inv_take _ b x pid s WaitsLock); try done.
      destruct (evicting (pool s)) eqn:E; [|done]. destruct (good_evicted _ _ _ _ G E) as [E' _].
      pose proof (inv_builds w Hw b x Hb Hx) as E''. fold k in E''. congruence.
    + set (new := fresh (dom (objects (unlock k w)))). pose proof (pool_absent k w Hw Hf) as Hk.
      pose proof (inv_new_pool w1 (b_spec x) grows vector H Hk) as Hn.
      rewrite <- (take_stage b new x (new_pool (b_spec x) grows vector) WaitsLock).
      * apply (inv_take _ b x new (new_pool (b_spec x) grows vector) WaitsLock); try done; simpl; by rewrite lookup_insert_eq.
      * simpl. by rewrite lookup_insert_eq.
  - rewrite <- (to_stage_twice b Over WaitsLock). by apply (inv_over w1 b x1).
Qed.

Lemma inv_delete_session w sid : inv w → inv (set_sessions (delete sid (sessions w)) w).
Proof.
  intros Hw. split; cbn [table objects pool_locks sessions binders set_sessions]; try apply Hw.
  - intros k p Hp. destruct (inv_pools w Hw k p Hp) as (s & Hs & [G1 G2 G3 G4 G5]). exists s. split; [done|].
    split; try done. intros E. destruct (G5 E) as (F1 & F2 & F3). split_and!; [done| |done].
    cbn [sessions set_sessions]. intros sid' r [_ Hr]%lookup_delete_Some. by eapply F2.
  - intros sid' r [_ Hr]%lookup_delete_Some. by apply (inv_sessions w Hw).
Qed.

Lemma held_split s n i :
  wf s → (n, i) ∈ held s → held s ≡ₚ (n, i) :: bfilter (λ h, negb (h.2 =? i)) (held s).
Proof.
  intros Hw. pose proof (wf_held s Hw) as Hn. revert Hn. generalize (held s) as l.
  induction l as [|[n' j] l IH]; intros Hn Hin; [by apply elem_of_nil in Hin|]. simpl in Hn. apply NoDup_cons in Hn as [Hj Hn].
  apply elem_of_cons in Hin as [[= <- <-]|Hin].
  - rewrite bfilter_cons. simpl. rewrite Z.eqb_refl. simpl. f_equiv. rewrite bfilter_all; [done|].
    intros [m j'] H. simpl. apply negb_true_iff, Z.eqb_neq. intros ->. apply Hj. by apply (list_elem_of_fmap_2 snd) in H.
  - rewrite bfilter_cons. simpl. destruct (Z.eqb_spec j i) as [->|Hne]; simpl.
    + exfalso. apply Hj. by apply (list_elem_of_fmap_2 snd) in Hin.
    + rewrite (IH Hn Hin) at 1. apply perm_swap.
Qed.

Lemma session_pool w sid r pid s :
  inv w → sessions w !! sid = Some r → table w !! key r = Some pid → objects w !! pid = Some s →
  (tag (maker r), lane r) ∈ held s.
Proof. intros Hw Hr Hk Hs. destruct (inv_sessions w Hw sid r Hr) as (p & s' & x & H1 & H2 & H3 & _). by simplify_eq. Qed.

Lemma tag_inj b b' : tag b = tag b' → b = b'.
Proof. unfold tag. intros H%(inj pretty). lia. Qed.

(** The owner of a lane of a pool. *)
Lemma owners_unique w sid sid' r r' :
  inv w → sessions w !! sid = Some r → sessions w !! sid' = Some r' →
  key r = key r' → lane r = lane r' → sid = sid'.
Proof.
  intros Hw Hr Hr' Hkey Hlane. destruct (inv_sessions w Hw sid r Hr) as (p & s & x & H1 & H2 & H3 & H4 & H5).
  destruct (inv_sessions w Hw sid' r' Hr') as (p' & s' & x' & H1' & H2' & H3' & H4' & H5').
  rewrite <- Hkey in H1'. simplify_eq. pose proof (inv_pool w _ _ _ Hw H1 H2) as G.
  pose proof (wf_held _ (good_wf _ _ _ _ G)) as Hn. apply list_elem_of_lookup in H3 as [i Hi], H3' as [j Hj].
  assert (i = j) as <-.
  { eapply (NoDup_lookup _ i j (lane r) Hn); rewrite list_lookup_fmap; [by rewrite Hi|by rewrite Hj, Hlane]. }
  rewrite Hi in Hj. injection Hj as E%tag_inj _. rewrite <- E in H4'. by simplify_eq.
Qed.

Lemma inv_release w sid : inv w → inv (release_binding sid w).
Proof.
  intros Hw. unfold release_binding. destruct (sessions w !! sid) as [r|] eqn:Hr; [|done].
  pose proof (inv_delete_session w sid Hw) as Hd.
  destruct (inv_sessions w Hw sid r Hr) as (pid & s & x & H1 & H2 & H3 & H4 & H5).
  cbn [table set_sessions]. rewrite H1.
  pose proof (inv_pool w _ _ _ Hw H1 H2) as [G1 G2 G3 G4 G5]. set (rest := bfilter (λ h, negb (h.2 =? lane r)) (held s)).
  assert (alter (give_back (lane r)) pid (objects w) !! pid = Some (give_back (lane r) s)) as Hs
    by (by rewrite lookup_alter_eq, H2).
  assert (identity (pool (give_back (lane r) s)) = identity (pool s)) as Hi by apply release_identity.
  split; cbn [table objects pool_locks sessions binders set_sessions on_pool set_objects].
  - intros k p Hp. destruct (decide (p = pid)) as [->|Hne].
    + assert (k = key r) as -> by by apply (pool_of_one_key w _ _ pid Hw). exists (give_back (lane r) s). split; [done|].
      split; [|by rewrite (identity_key _ _ Hi)|by rewrite (identity_healthy _ _ Hi)|by rewrite (identity_pending _ _ Hi)|].
      * by apply (wf_give_back s (lane r) (tag (maker r))), held_split.
      * rewrite (identity_evicting _ _ Hi). intros E. destruct (G5 E) as (_ & F2 & _). by destruct (F2 sid r Hr).
    + destruct (inv_pools _ Hd k p Hp) as (s' & Hs' & G). exists s'. split; [by rewrite lookup_alter_ne|]. by destruct G.
  - intros sid' r' Hr'. pose proof Hr' as [Hne Hr'0]%lookup_delete_Some.
    destruct (inv_sessions w Hw sid' r' Hr'0) as (p & s' & y & F1 & F2 & F3 & F4 & F5).
    destruct (decide (p = pid)) as [->|Hp].
    + simplify_eq. exists pid, (give_back (lane r) s), y. split_and!; try done. apply elem_of_bfilter. split; [|done]. simpl.
      apply negb_true_iff, Z.eqb_neq. intros E. apply Hne. eapply (owners_unique w); try done.
      by apply (pool_of_one_key w _ _ pid Hw).
    + exists p, s', y. split_and!; try done. by rewrite lookup_alter_ne.
  - apply (inv_waits w Hw).
  - apply (inv_builds w Hw).
  - apply (inv_closes w Hw).
  - intros k Hl. destruct (inv_evicts w Hw k Hl) as (p & s' & F1 & F2 & F3). destruct (decide (p = pid)) as [->|Hp].
    + exists pid, (give_back (lane r) s). split_and!; try done. rewrite (identity_evicting _ _ Hi). by simplify_eq.
    + exists p, s'. split_and!; try done. by rewrite lookup_alter_ne.
Qed.

(** Nobody holds a lane of a pool that is not in use. *)
Lemma unused_held s : wf s → in_use (pool s) = 0 → held s = [].
Proof.
  intros Hw H0. destruct (held s) as [|[n i] l] eqn:E; [done|].
  assert (i ∈ active_slots (pool s)) as Hi by (apply (wf_active s Hw); rewrite E; by left).
  unfold in_use in H0. apply elem_of_elements in Hi. destruct (elements (active_slots (pool s))) as [|j l'] eqn:E';
    [by apply elem_of_nil in Hi|]. unfold zlen in H0. simpl in H0. lia.
Qed.

Lemma inv_evict_begins w k : inv w → inv (evict_begins k w).
Proof.
  intros Hw. unfold evict_begins. destruct (find k w) as [[pid s]|] eqn:Hf; [|done]. apply pool_found in Hf as [Hk Ho].
  destruct (_ || _ || _ || _) eqn:E; [done|]. apply orb_false_iff in E as [[[El Eu]%orb_false_iff Ep]%orb_false_iff Ee].
  apply bool_decide_eq_false, eq_None_not_Some in El. apply negb_false_iff, Z.eqb_eq in Eu, Ep.
  pose proof (inv_pool w k pid s Hw Hk Ho) as [G1 G2 G3 G4 G5]. pose proof (unused_held s G1 Eu) as Hheld.
  assert (alter (set_evicting true) pid (objects w) !! pid = Some (set_evicting true s)) as Hs
    by (by rewrite lookup_alter_eq, Ho).
  assert (∀ k' o, pool_locks w !! k' = Some o → <[k := ByEviction]> (pool_locks w) !! k' = Some o) as Hlk.
  { intros k' o H. rewrite lookup_insert_ne; [done|congruence]. }
  split; cbn [table objects pool_locks sessions binders set_locks lock on_pool set_objects].
  - intros k' p Hp. destruct (decide (p = pid)) as [->|Hne].
    + assert (k' = k) as -> by by apply (pool_of_one_key w _ _ pid Hw). exists (set_evicting true s). split; [done|].
      split; try done; [by destruct G1 as [(c & ?) ? ?]; split; [by exists c|..]|].
      intros _. cbn [pool_locks sessions binders set_locks lock on_pool set_objects]. split_and!; [by rewrite lookup_insert_eq| |congruence].
      intros sid r Hr Hkey. rewrite <- Hkey in Hk. pose proof (session_pool w sid r pid s Hw Hr Hk Ho) as Hin. rewrite Hheld in Hin.
      by apply elem_of_nil in Hin.
    + destruct (inv_pools w Hw k' p Hp) as (s' & Hs' & [F1 F2 F3 F4 F5]). exists s'. split; [by rewrite lookup_alter_ne|].
      split; try done. intros E. destruct (F5 E) as (H1 & H2). split; [by apply Hlk|done].
  - intros sid r Hr. destruct (inv_sessions w Hw sid r Hr) as (p & s' & x & H1 & H2 & H3 & H4 & H5). destruct (decide (p = pid)) as [->|Hne].
    + exists pid, (set_evicting true s), x. by simplify_eq.
    + exists p, s', x. split_and!; try done. by rewrite lookup_alter_ne.
  - apply (inv_waits w Hw).
  - intros b x Hb Hx. by apply Hlk, (inv_builds w Hw).
  - apply (inv_closes w Hw).
  - intros k' [[<- _]|[Hne Hl]]%lookup_insert_Some; [by exists pid, (set_evicting true s)|].
    destruct (inv_evicts w Hw k' Hl) as (p & s' & F1 & F2 & F3). exists p, s'. split_and!; try done.
    rewrite lookup_alter_ne; [done|]. intros <-. by apply Hne, (pool_of_one_key w _ _ pid Hw).
Qed.

(** The pool of a key leaves the table: nobody uses it. *)
Lemma inv_evict_ends w k : inv w → inv (evict_ends k w).
Proof.
  intros Hw. unfold evict_ends. destruct (find k w) as [[pid s]|] eqn:Hf; [|done]. apply pool_found in Hf as [Hk Ho].
  destruct (pool_locks w !! k) as [[b|]|] eqn:El; try done.
  destruct (inv_evicts w Hw k El) as (p & s1 & Hp & Hs1 & He).
  assert (p = pid) as -> by congruence. assert (s1 = s) as -> by congruence. clear Hs1.
  pose proof (inv_pool w k pid s Hw Hk Ho) as G. destruct (good_evicted _ _ _ _ G He) as (_ & Hno & H0).
  assert (∀ k' p', delete k (table w) !! k' = Some p' → k' ≠ k ∧ table w !! k' = Some p' ∧ p' ≠ pid) as Hkeys.
  { intros k' p' [Hne H]%lookup_delete_Some. split_and!; [done|done|]. intros ->. by apply Hne, (pool_of_one_key w _ _ pid Hw). }
  split; cbn [table objects pool_locks sessions binders set_locks unlock set_table on_pool set_objects].
  - intros k' p' (Hne & H & Hp')%Hkeys. destruct (inv_pools w Hw k' p' H) as (s' & Hs' & [F1 F2 F3 F4 F5]). exists s'.
    split; [by rewrite lookup_alter_ne|]. split; try done. intros E. destruct (F5 E) as (H1 & H2).
    split; [|done]. simpl. by rewrite lookup_delete_ne.
  - intros sid r Hr. destruct (inv_sessions w Hw sid r Hr) as (p' & s' & x & H1 & H2 & H3). pose proof (Hno sid r Hr) as Hne.
    exists p', s', x. split; [by rewrite lookup_delete_ne|]. split; [|done].
    rewrite lookup_alter_ne; [done|]. intros <-. by apply Hne, (pool_of_one_key w _ _ pid Hw).
  - intros b x p' Hb Hx. pose proof (inv_waits w Hw b x p' Hb Hx) as H. rewrite lookup_delete_ne; [done|]. intros Heq.
    rewrite <- Heq in H. assert (p' = pid) as -> by congruence. pose proof (waiters_in pid b x _ Hb Hx). lia.
  - intros b x Hb Hx. pose proof (inv_builds w Hw b x Hb Hx) as H. rewrite lookup_delete_ne; [done|congruence].
  - apply (inv_closes w Hw).
  - intros k' [Hne Hl]%lookup_delete_Some. destruct (inv_evicts w Hw k' Hl) as (p' & s' & F1 & F2 & F3). exists p', s'.
    split_and!; try done; [by rewrite lookup_delete_ne|]. rewrite lookup_alter_ne; [done|]. intros <-.
    by apply Hne, (pool_of_one_key w _ _ pid Hw).
Qed.

Definition is_failure (e : event) : bool := match e with Fails _ => true | _ => false end.

Lemma inv_exec e w : is_failure e = false → inv w → inv (exec e w).
Proof.
  intros He Hw. destruct e as [sid spec|b|b|b form|b|pid e|pid|sid|k|k]; simpl; try done.
  - by apply inv_create.
  - destruct (binders w !! b) as [x|] eqn:Hb; [|done]. destruct (b_stage x) eqn:Hx; try done. by apply inv_lock_granted.
  - destruct (binders w !! b) as [x|] eqn:Hb; [|done]. destruct (b_stage x) eqn:Hx; try done. by apply (inv_closes w Hw b x old) in Hx.
  - destruct (binders w !! b) as [x|] eqn:Hb; [|done]. destruct (b_stage x) eqn:Hx; try done. by apply inv_built.
  - destruct (binders w !! b) as [x|] eqn:Hb; [|done]. destruct (b_stage x) eqn:Hx; try done. by apply inv_continue.
  - destruct (internal e) eqn:E; [|done]. apply inv_inside; [done|]. intros s. by apply internal_keeps.
  - by apply inv_release.
  - by apply inv_evict_begins.
  - by apply inv_evict_ends.
Qed.
Lemma inv_run es w : Forall (λ e, is_failure e = false) es → inv w → inv (run es w).
Proof.
  intros Hes. revert w. induction Hes as [|e es He _ IH]; intros w Hw; [done|]. simpl. by apply IH, inv_exec.
Qed.
Lemma inv_start : inv start.
Proof. by split. Qed.

(** C7: while no pool is marked unhealthy, every session has its own lane: in every run of
    bindings, releases, evictions, growths and shrinks, however they interleave, two sessions
    never share a lane of a pool; the lane of a session is one the pool of its key has out,
    active and not warm, and not under removal; and the pool counts exactly the bindings
    that wait for it. *)
Theorem lanes_exclusive es :
  Forall (λ e, is_failure e = false) es →
  let w := run es start in
  (∀ sid sid' r r', sessions w !! sid = Some r → sessions w !! sid' = Some r' →
    key r = key r' → lane r = lane r' → sid = sid') ∧
  (∀ sid r, sessions w !! sid = Some r → ∃ pid s,
    find (key r) w = Some (pid, s) ∧ has_core (pool s) = true ∧ lane r ∈ active_slots (pool s) ∧
    lane r ∉ warm_free_slots (pool s) ∧ Removing (lane r) ∉ flying s) ∧
  (∀ k pid s, find k w = Some (pid, s) → pending_bindings (pool s) = waiters pid (binders w)).
Proof.
  intros Hes w. assert (inv w) as Hw by apply (inv_run _ _ Hes inv_start). split_and!.
  - intros sid sid' r r' H1 H2. by apply (owners_unique w).
  - intros sid r Hr. destruct (inv_sessions w Hw sid r Hr) as (p & s & x & H1 & H2 & H3 & H4 & H5). exists p, s.
    pose proof (inv_pool w _ _ _ Hw H1 H2) as G. split; [unfold find; by rewrite H1, H2|]. split; [by eapply good_core|].
    pose proof (good_wf _ _ _ _ G) as Hwf. apply (list_elem_of_fmap_2 snd) in H3. simpl in H3.
    by apply (held_places s).
  - intros k pid s [H1 H2]%pool_found. apply (good_pending _ _ _ _ (inv_pool w k pid s Hw H1 H2)).
Qed.

Definition one : env_spec := Spec "cube" 1 3.
(** Two bindings race for the build of the first pool; the second waits for the lock, gets a
    cold slot; the first leaves, its slot stays warm, and a third session takes it. *)
Definition racing : list event :=
  [Binds "a" one; Binds "b" one; LockGranted 0; LockGranted 1; PoolBuilt 0 (Some (true, false)); LockGranted 1;
   InPool 0 (Returns 0 true); InPool 0 (Settles 0); SlotReady 1; Evicts "cube"; Releases "a"; Binds "c" one].
Example racing_ends :
  let w := run racing start in
  (λ r, (key r, lane r)) <$> sessions w = {["b" := ("cube", 1); "c" := ("cube", 0)]}.
Proof. vm_compute. reflexivity. Qed.

Lemma lanes_exclusive_witness :
  let w := run racing start in
  (∃ r r', sessions w !! "b" = Some r ∧ sessions w !! "c" = Some r' ∧ key r = key r') ∧
  ¬ ∃ r r', sessions w !! "b" = Some r ∧ sessions w !! "c" = Some r' ∧ key r = key r' ∧ lane r = lane r'.
Proof.
  split; [by exists (Bound "cube" 1 1), (Bound "cube" 0 2)|].
  intros (r & r' & H1 & H2 & H3 & H4).
  assert (Forall (λ e, is_failure e = false) racing) as Hr by (repeat constructor).
  pose proof (proj1 (lanes_exclusive racing Hr) "b" "c" r r' H1 H2 H3 H4) as E. discriminate E.
Defined.

(** A pool is retired while a binding of it waits for its slot: the simulator of the pool
    failed, no session was left, and [_ensure_pool] did not look at [pending_bindings].  The
    waiting session gets a lane of the retired pool, the next one the same lane of its
    replacement. *)
Definition failing : list event :=
  [Binds "a" one; LockGranted 0; PoolBuilt 0 (Some (true, false)); Binds "b" one; InPool 0 (Returns 0 true);
   Fails 0; Releases "a"; Binds "c" one; LockGranted 2; PoolClosed 2; PoolBuilt 2 (Some (true, false));
   InPool 0 (Settles 0); SlotReady 1; Binds "d" one; InPool 1 (Returns 0 true); InPool 1 (Settles 0); SlotReady 3].

(** Replacing an unhealthy pool can put two sessions on one lane: both are bound to the lane 1
    of the key "cube", which the worker resolves to one simulator. *)
Theorem replacement_shares_a_lane :
  let w := run failing start in
  ∃ r r', sessions w !! "b" = Some r ∧ sessions w !! "d" = Some r' ∧ key r = key r' ∧ lane r = lane r' ∧
    table w !! key r = Some 1%nat.
Proof. exists (Bound "cube" 1 1), (Bound "cube" 1 3). vm_compute. done. Qed.
End EnvBindings.
