(* ===== verification/PyFloat.v ===== *)
(** * Python floats: binary64 by value

    A finite [float] is the rational number it denotes and an operation is the exact
    one followed by rounding to 53 significant bits, ties to even ([round64]).  The
    exponent is unbounded: overflow, subnormals, infinities and NaN are outside the
    model, and the sign of zero is not kept.  [repr64] is [repr(x)]: the shortest
    decimal that rounds back to [x].

    Used where rounding decides: the gates' p-values and rates ([Gating.v]), the
    latency percentiles and the limit decrease ([ProviderAdmission.v]).  The lemmas are
    the laws that make such decisions sound: rounding is monotone, exact on integers
    below 2^53, and its results are floats. *)

From Stdlib Require Import QArith Qround Qpower Lqa Ascii.
From stdpp Require Import pretty.
From S2P Require Import Prelude.

Open Scope string_scope.
Open Scope list_scope.
Open Scope Z_scope.

Notation pow2 := (Qpower (2 # 1)).

(** The integer nearest to [x], ties to even ([round(x)]). *)
Definition nearest (x : Q) : Z :=
  let f := Qfloor x in
  match Qcompare (x - inject_Z f) (1 # 2) with
  | Lt => f
  | Gt => f + 1
  | Eq => if Z.even f then f else f + 1
  end.

(** The exponent of the binade of a positive [x]. *)
Definition ilog2 (x : Q) : Z :=
  let l := Z.log2 (Qnum x) - Z.log2 (QDen x) in
  if Qle_bool (pow2 l) x then l else l - 1.

Definition ulp (x : Q) : Q := pow2 (ilog2 x - 52).

Definition round_pos (x : Q) : Q := Qred (inject_Z (nearest (x / ulp x)) * ulp x).

Definition round64 (x : Q) : Q :=
  match Qcompare x 0 with
  | Eq => 0%Q
  | Gt => round_pos x
  | Lt => Qopp (round_pos (Qopp x))
  end.

(** [x] is a binary64 number (up to the range of exponents). *)
Definition is_float (x : Q) : Prop :=
  ∃ m k : Z, (Z.abs m < 2 ^ 53)%Z ∧ (x == inject_Z m * pow2 k)%Q.

Definition of_int (z : Z) : Q := round64 (inject_Z z).
Definition fadd (x y : Q) : Q := round64 (x + y).
Definition fsub (x y : Q) : Q := round64 (x - y).
Definition fmul (x y : Q) : Q := round64 (x * y).
Definition fdiv (x y : Q) : Q := round64 (x / y).
(** [a / b] on integers is correctly rounded. *)
Definition int_div (a b : Z) : Q := round64 (inject_Z a / inject_Z b).
Definition flt (x y : Q) : bool := negb (Qle_bool y x).
(** [max(l)], [min(l)] of a list that is not empty. *)
Definition max_of (l : list Q) : Q := match l with [] => 0 | x :: l => foldl (λ a b, if flt a b then b else a) x l end.
Definition min_of (l : list Q) : Q := match l with [] => 0 | x :: l => foldl (λ a b, if flt b a then b else a) x l end.
(** [sum(l)]: from left to right, rounded at each step (CPython before 3.12). *)
Definition fsum (l : list Q) : Q := foldl fadd 0%Q l.
(** [math.sqrt(x)], correctly rounded: an integer square root of at least 55 bits, and a last
    bit that says whether it is exact. *)
Definition fsqrt (x : Q) : Q :=
  match Qcompare x 0 with
  | Gt =>
      let k := 56 - ilog2 x / 2 in
      let y := (x * pow2 (2 * k))%Q in
      let m := Z.sqrt (Qfloor y) in
      let odd := if Qeq_bool (inject_Z (m * m)) y then 0 else 1 in
      round64 (inject_Z (2 * m + odd) * pow2 (- k - 1))
  | _ => 0%Q
  end.

Example fsqrt_two : (fsqrt 2 == 6369051672525773 # 4503599627370496)%Q ∧ (fsqrt (81 # 16) == 9 # 4)%Q.
Proof. split; vm_compute; reflexivity. Qed.

Lemma min_of_le l x : x ∈ l → (min_of l <= x)%Q.
Proof.
  assert (∀ l a, (foldl (λ a b, if flt b a then b else a) a l <= a)%Q ∧ ∀ x, x ∈ l → (foldl (λ a b, if flt b a then b else a) a l <= x)%Q) as H.
  { clear. induction l as [|b l IH]; intros a; simpl; [split; [lra|by intros x ?%elem_of_nil]|].
    destruct (IH (if flt b a then b else a)) as [H1 H2].
    assert ((if flt b a then b else a) <= a ∧ (if flt b a then b else a) <= b)%Q as [H3 H4].
    { unfold flt. destruct (Qle_bool a b) eqn:E; simpl; [apply Qle_bool_iff in E; lra|].
      assert (¬ (a <= b)%Q) by (rewrite <- Qle_bool_iff; congruence). lra. }
    split; [lra|]. intros x [->|Hx]%elem_of_cons; [lra|by apply H2]. }
  destruct l as [|a l]; [by intros ?%elem_of_nil|]. destruct (H l a) as [H1 H2].
  intros [->|Hx]%elem_of_cons; [done|by apply H2].
Qed.
Lemma min_of_elem l : l ≠ [] → min_of l ∈ l.
Proof.
  destruct l as [|a l]; [done|]. intros _. simpl. revert a. induction l as [|b l IH]; intros a; simpl; [by left|].
  destruct (elem_of_cons l (foldl (λ a b, if flt b a then b else a) (if flt b a then b else a) l) (if flt b a then b else a)) as [H _].
  destruct (H (IH _)) as [->|Hin]; [destruct (flt b a); set_solver|set_solver].
Qed.

(** ** The nearest integer *)

Lemma Qfloor_frac x : (0 <= x - inject_Z (Qfloor x) < 1)%Q.
Proof.
  pose proof (Qfloor_le x). pose proof (Qlt_floor x) as H1.
  rewrite inject_Z_plus in H1. change (inject_Z 1) with 1%Q in H1. lra.
Qed.

Lemma nearest_floor x : nearest x = Qfloor x ∨ nearest x = Qfloor x + 1.
Proof. unfold nearest. destruct (_ ?= _)%Q; [destruct (Z.even _)| |]; auto. Qed.

Lemma Qfloor_lt_cases x y : (x <= y)%Q → Qfloor x = Qfloor y ∨ Qfloor x + 1 ≤ Qfloor y.
Proof. intros H%Qfloor_resp_le. lia. Qed.

Lemma nearest_mono x y : (x <= y)%Q → nearest x ≤ nearest y.
Proof.
  intros H. destruct (Qfloor_lt_cases x y H) as [Heq|Hlt].
  - unfold nearest. rewrite Heq. set (f := Qfloor y) in *.
    destruct (Qcompare_spec (x - inject_Z f) (1 # 2)) as [H1|H1|H1],
      (Qcompare_spec (y - inject_Z f) (1 # 2)) as [H2|H2|H2], (Z.even f); lia || lra.
  - destruct (nearest_floor x), (nearest_floor y); lia.
Qed.

Lemma nearest_int z x : (x == inject_Z z)%Q → nearest x = z.
Proof.
  intros H. unfold nearest.
  assert (Qfloor x = z) as -> by (rewrite H; apply Qfloor_Z).
  destruct (Qcompare_spec (x - inject_Z z) (1 # 2)) as [H1|H1|H1]; lra || done.
Qed.

(** ** Binades *)

Lemma pow2_pos k : (0 < pow2 k)%Q.
Proof. by apply Qpower_0_lt. Qed.
Lemma pow2_nz k : ¬ (pow2 k == 0)%Q.
Proof. pose proof (pow2_pos k). lra. Qed.
Lemma pow2_add a b : (pow2 (a + b) == pow2 a * pow2 b)%Q.
Proof. by apply Qpower_plus. Qed.
Lemma pow2_succ k : (pow2 (k + 1) == 2 * pow2 k)%Q.
Proof. rewrite pow2_add. change (pow2 1) with (2 # 1)%Q. ring. Qed.
Lemma pow2_Z k : 0 ≤ k → (pow2 k == inject_Z (2 ^ k))%Q.
Proof. intros. by rewrite Zpower_Qpower. Qed.
Lemma pow2_mono a b : a ≤ b → (pow2 a <= pow2 b)%Q.
Proof. intros. by apply Qpower_le_compat_l. Qed.
Lemma pow2_lt_inv a b : (pow2 a < pow2 b)%Q → a < b.
Proof.
  intros H. destruct (Z_lt_le_dec a b) as [|Hle]; [done|]. pose proof (pow2_mono _ _ Hle). lra.
Qed.

Lemma Z_log2_Q n : 0 < n → (pow2 (Z.log2 n) <= inject_Z n < pow2 (Z.log2 n + 1))%Q.
Proof.
  intros Hn. pose proof (Z.log2_nonneg n). rewrite !pow2_Z by lia.
  rewrite <- Zle_Qle, <- Zlt_Qlt. by apply Z.log2_spec.
Qed.

Lemma ilog2_spec x : (0 < x)%Q → (pow2 (ilog2 x) <= x < pow2 (ilog2 x + 1))%Q.
Proof.
  destruct x as [n d]. intros Hx. assert (0 < n) as Hn by (unfold Qlt in Hx; simpl in Hx; lia).
  unfold ilog2. cbn [Qnum Qden]. set (a := Z.log2 n). set (b := Z.log2 (Z.pos d)).
  pose proof (Z_log2_Q n Hn) as [Hn1 Hn2]. pose proof (Z_log2_Q (Z.pos d) eq_refl) as [Hd1 Hd2].
  fold a in Hn1, Hn2. fold b in Hd1, Hd2.
  assert (Hxd : ((n # d) * inject_Z (Z.pos d) == inject_Z n)%Q)
    by (unfold Qeq; simpl; lia).
  assert (Hdp : (0 < inject_Z (Z.pos d))%Q) by done.
  assert (Hup : ((n # d) < pow2 (a - b + 1))%Q).
  { apply (Qmult_lt_r _ _ _ Hdp). rewrite Hxd.
    assert (pow2 (a + 1) == pow2 (a - b + 1) * pow2 b)%Q as He
      by (rewrite <- pow2_add; by replace (a - b + 1 + b) with (a + 1) by lia).
    pose proof (Qmult_le_l (pow2 b) (inject_Z (Z.pos d)) (pow2 (a - b + 1)) (pow2_pos _)) as Hm.
    apply Hm in Hd1. lra. }
  assert (Hlo : (pow2 (a - b - 1) < (n # d))%Q).
  { apply (Qmult_lt_r _ _ _ Hdp). rewrite Hxd.
    assert (pow2 a == pow2 (a - b - 1) * pow2 (b + 1))%Q as He
      by (rewrite <- pow2_add; by replace (a - b - 1 + (b + 1)) with a by lia).
    pose proof (Qmult_lt_l (inject_Z (Z.pos d)) (pow2 (b + 1)) (pow2 (a - b - 1)) (pow2_pos _)) as Hm.
    apply Hm in Hd2. lra. }
  destruct (Qle_bool (pow2 (a - b)) (n # d)) eqn:Hb.
  - apply Qle_bool_iff in Hb. done.
  - assert ((n # d) < pow2 (a - b))%Q.
    { apply Qnot_le_lt. rewrite <- Qle_bool_iff. congruence. }
    replace (a - b - 1 + 1) with (a - b) by lia. lra.
Qed.

Lemma ilog2_mono x y : (0 < x)%Q → (x <= y)%Q → ilog2 x ≤ ilog2 y.
Proof.
  intros Hx Hxy. pose proof (ilog2_spec x Hx) as [H1 _].
  assert (0 < y)%Q as Hy by lra. pose proof (ilog2_spec y Hy) as [_ H2].
  assert (pow2 (ilog2 x) < pow2 (ilog2 y + 1))%Q as ?%pow2_lt_inv by lra. lia.
Qed.

Lemma scaled_bounds x :
  (0 < x)%Q → (pow2 52 <= x / ulp x < pow2 53)%Q.
Proof.
  intros Hx. pose proof (ilog2_spec x Hx) as [H1 H2]. pose proof (pow2_pos (ilog2 x - 52)) as Hu.
  assert (pow2 (ilog2 x) == pow2 52 * ulp x)%Q as E1
    by (unfold ulp; rewrite <- pow2_add; by replace (52 + (ilog2 x - 52)) with (ilog2 x) by lia).
  assert (pow2 (ilog2 x + 1) == pow2 53 * ulp x)%Q as E2
    by (unfold ulp; rewrite <- pow2_add; by replace (53 + (ilog2 x - 52)) with (ilog2 x + 1) by lia).
  rewrite E1 in H1. rewrite E2 in H2. fold (ulp x) in Hu. split.
  - by apply Qle_shift_div_l.
  - by apply Qlt_shift_div_r.
Qed.

(** The significand is between 2^52 and 2^53. *)
Lemma significand_bounds x : (0 < x)%Q → 2 ^ 52 ≤ nearest (x / ulp x) ≤ 2 ^ 53.
Proof.
  intros Hx. pose proof (scaled_bounds x Hx) as [H1 H2]. split.
  - rewrite <- (nearest_int (2 ^ 52) (inject_Z (2 ^ 52))) by done. apply nearest_mono.
    by rewrite <- (pow2_Z 52).
  - rewrite <- (nearest_int (2 ^ 53) (inject_Z (2 ^ 53))) by done. apply nearest_mono.
    rewrite <- (pow2_Z 53) by done. lra.
Qed.

(** ** The laws of rounding *)

Lemma round_pos_eq x : (round_pos x == inject_Z (nearest (x / ulp x)) * ulp x)%Q.
Proof. apply Qred_correct. Qed.

Lemma round_pos_binade x :
  (0 < x)%Q → (pow2 (ilog2 x) <= round_pos x <= pow2 (ilog2 x + 1))%Q.
Proof.
  intros Hx. pose proof (significand_bounds x Hx) as [H1 H2].
  rewrite Zle_Qle in H1, H2. rewrite <- (pow2_Z 52) in H1 by done. rewrite <- (pow2_Z 53) in H2 by done.
  assert (0 < ulp x)%Q as Hu by apply pow2_pos. rewrite round_pos_eq.
  replace (ilog2 x) with (52 + (ilog2 x - 52)) at 1 by lia.
  replace (ilog2 x + 1) with (53 + (ilog2 x - 52)) by lia.
  rewrite !pow2_add. fold (ulp x). split; by apply Qmult_le_r.
Qed.

Lemma round_pos_mono x y : (0 < x)%Q → (x <= y)%Q → (round_pos x <= round_pos y)%Q.
Proof.
  intros Hx Hxy. pose proof (ilog2_mono x y Hx Hxy) as Hl. assert (0 < y)%Q as Hy by lra.
  destruct (Z.eq_dec (ilog2 x) (ilog2 y)) as [He|Hne].
  - rewrite !round_pos_eq. unfold ulp. rewrite He. apply Qmult_le_r; [apply pow2_pos|].
    rewrite <- Zle_Qle. apply nearest_mono. unfold Qdiv.
    apply Qmult_le_r; [|done]. apply Qinv_lt_0_compat, pow2_pos.
  - pose proof (round_pos_binade x Hx) as [_ H1]. pose proof (round_pos_binade y Hy) as [H2 _].
    assert (ilog2 x + 1 ≤ ilog2 y) as H3%pow2_mono by lia. lra.
Qed.

Lemma round_pos_pos x : (0 < x)%Q → (0 < round_pos x)%Q.
Proof. intros Hx. pose proof (round_pos_binade x Hx). pose proof (pow2_pos (ilog2 x)). lra. Qed.

Lemma round64_mono x y : (x <= y)%Q → (round64 x <= round64 y)%Q.
Proof.
  intros H. unfold round64.
  destruct (Qcompare_spec x 0) as [Hx|Hx|Hx], (Qcompare_spec y 0) as [Hy|Hy|Hy]; try lra;
    try (assert (0 < - x)%Q as Hnx by lra; pose proof (round_pos_pos _ Hnx));
    try (pose proof (round_pos_pos _ Hy)); try lra.
  - assert (0 < - y)%Q as Hny by lra. assert (- y <= - x)%Q as Hle by lra.
    pose proof (round_pos_mono _ _ Hny Hle). lra.
  - by apply round_pos_mono.
Qed.

#[export] Instance round64_proper : Proper (Qeq ==> Qeq) round64.
Proof. intros x y H. apply Qle_antisym; apply round64_mono; lra. Qed.

Lemma is_float_opp x : is_float x → is_float (- x).
Proof.
  intros (m & k & Hm & Hx). exists (- m), k. split; [lia|]. rewrite Hx, inject_Z_opp. ring.
Qed.

Lemma round_pos_exact x : (0 < x)%Q → is_float x → (round_pos x == x)%Q.
Proof.
  intros Hx (m & k & Hm & Hxm). pose proof (ilog2_spec x Hx) as [Hlo _].
  assert (0 < ulp x)%Q as Hu by apply pow2_pos. rewrite round_pos_eq.
  assert (Hk : ilog2 x - 52 ≤ k).
  { assert (inject_Z m < pow2 53)%Q as Hm'
      by (rewrite pow2_Z, <- Zlt_Qlt by done; lia).
    apply (Qmult_lt_r _ _ _ (pow2_pos k)) in Hm'. rewrite <- Hxm, <- pow2_add in Hm'.
    assert (pow2 (ilog2 x) < pow2 (53 + k))%Q as ?%pow2_lt_inv by lra. lia. }
  rewrite (nearest_int (m * 2 ^ (k - (ilog2 x - 52)))).
  - rewrite inject_Z_mult, <- pow2_Z by lia. rewrite Hxm at 3. rewrite <- Qmult_assoc.
    unfold ulp. rewrite <- pow2_add. by replace (k - (ilog2 x - 52) + (ilog2 x - 52)) with k by lia.
  - rewrite inject_Z_mult, <- pow2_Z by lia. apply (Qmult_inj_r _ _ (ulp x)); [lra|].
    rewrite Qmult_comm, Qmult_div_r by lra. rewrite Hxm at 1. rewrite <- Qmult_assoc. unfold ulp.
    rewrite <- pow2_add. by replace (k - (ilog2 x - 52) + (ilog2 x - 52)) with k by lia.
Qed.

(** A float is not changed by rounding. *)
Lemma round64_exact x : is_float x → (round64 x == x)%Q.
Proof.
  intros Hf. unfold round64. destruct (Qcompare_spec x 0) as [Hx|Hx|Hx]; [lra| |].
  - rewrite round_pos_exact; [ring|lra|by apply is_float_opp].
  - by apply round_pos_exact.
Qed.

Lemma is_float_mult_pow2 m k : Z.abs m ≤ 2 ^ 53 → is_float (inject_Z m * pow2 k).
Proof.
  intros Hm. destruct (decide (Z.abs m = 2 ^ 53)) as [He|Hne].
  - exists (Z.sgn m), (53 + k). split; [lia|]. rewrite pow2_add, Qmult_assoc.
    rewrite (pow2_Z 53), <- inject_Z_mult by done. change (Z.abs m = 2 ^ 53) in He.
    rewrite <- He, Z.mul_comm, Z.abs_sgn. done.
  - exists m, k. split; [lia|done].
Qed.

Lemma round64_is_float x : is_float (round64 x).
Proof.
  assert (H : ∀ y, (0 < y)%Q → is_float (round_pos y)).
  { intros y Hy. pose proof (significand_bounds y Hy).
    destruct (is_float_mult_pow2 (nearest (y / ulp y)) (ilog2 y - 52)) as (m & k & Hm & E); [lia|].
    exists m, k. split; [done|]. by rewrite round_pos_eq, <- E. }
  unfold round64. destruct (Qcompare_spec x 0) as [Hx|Hx|Hx].
  - by exists 0, 0.
  - apply is_float_opp, H. lra.
  - by apply H.
Qed.

Lemma is_float_int z : Z.abs z ≤ 2 ^ 53 → is_float (inject_Z z).
Proof.
  intros H. destruct (is_float_mult_pow2 z 0 H) as (m & k & Hm & E).
  exists m, k. split; [done|]. rewrite <- E. change (pow2 0) with 1%Q. ring.
Qed.

Lemma of_int_exact z : Z.abs z ≤ 2 ^ 53 → (of_int z == inject_Z z)%Q.
Proof. intros. by apply round64_exact, is_float_int. Qed.

(** Comparing a rounded result with a float decides the exact comparison, except that
    equality may be reached by rounding. *)
Lemma round64_le_float x a : is_float a → (x <= a)%Q → (round64 x <= a)%Q.
Proof. intros Ha Hx. rewrite <- (round64_exact a Ha). by apply round64_mono. Qed.
Lemma round64_ge_float x a : is_float a → (a <= x)%Q → (a <= round64 x)%Q.
Proof. intros Ha Hx. rewrite <- (round64_exact a Ha). by apply round64_mono. Qed.
Lemma round64_lt_float x a : is_float a → (round64 x < a)%Q → (x < a)%Q.
Proof.
  intros Ha Hx. apply Qnot_le_lt. intros Hle. pose proof (round64_ge_float x a Ha Hle). lra.
Qed.
Lemma round64_nonneg x : (0 <= x)%Q → (0 <= round64 x)%Q.
Proof. apply round64_ge_float. by exists 0, 0. Qed.

Lemma flt_spec x y : flt x y = true ↔ (x < y)%Q.
Proof.
  unfold flt. rewrite negb_true_iff, <- not_true_iff_false, Qle_bool_iff. split; [|lra].
  apply Qnot_le_lt.
Qed.

(** ** [repr] *)

Definition pow10 (k : Z) : Q := Qpower (10 # 1) k.

Definition ilog10 (x : Q) : Z :=
  if Qle_bool 1 x then Z.of_nat (String.length (pretty (Qfloor x))) - 1
  else - Z.of_nat (String.length (pretty (Qceiling (/ x) - 1))).

(** The first of [n], [n + 1], ... digits that rounds back to [x]. *)
Fixpoint shortest (fuel : nat) (n : Z) (x : Q) : Z * Z :=
  let e := ilog10 x - n + 1 in
  let d := nearest (x / pow10 e) in
  match fuel with
  | O => (d, e)
  | S fuel' => if Qeq_bool (round64 (inject_Z d * pow10 e)) x then (d, e)
               else shortest fuel' (n + 1) x
  end.

Fixpoint trim_zeros (fuel : nat) (d e : Z) : Z * Z :=
  match fuel with
  | O => (d, e)
  | S fuel' => if (d mod 10 =? 0) && negb (d =? 0) then trim_zeros fuel' (d / 10) (e + 1) else (d, e)
  end.

Fixpoint zeros (n : nat) : string :=
  match n with O => EmptyString | S n' => "0" +:+ zeros n' end.

(** Digits [s] with the point after the [p]-th: fixed notation for [-4 < p <= 16]. *)
Definition place_point (s : string) (p : Z) : string :=
  let n := Z.of_nat (String.length s) in
  if (p <=? -4) || (16 <? p) then
    let x := p - 1 in
    String.substring 0 1 s
      +:+ (if 1 <? n then "." +:+ String.substring 1 (String.length s - 1) s else EmptyString)
      +:+ "e" +:+ (if x <? 0 then "-" else "+")
      +:+ (if Z.abs x <? 10 then "0" else EmptyString) +:+ pretty (Z.abs x)
  else if p <=? 0 then "0." +:+ zeros (Z.to_nat (- p)) +:+ s
  else if n <=? p then s +:+ zeros (Z.to_nat (p - n)) +:+ ".0"
  else String.substring 0 (Z.to_nat p) s +:+ "."
         +:+ String.substring (Z.to_nat p) (Z.to_nat (n - p)) s.

Definition repr_pos (x : Q) : string :=
  let '(d, e) := shortest 16 1 x in
  let '(d, e) := trim_zeros 20 d e in
  let s := pretty d in place_point s (Z.of_nat (String.length s) + e).

Definition repr64 (x : Q) : string :=
  match Qcompare x 0 with
  | Eq => "0.0"
  | Gt => repr_pos x
  | Lt => "-" +:+ repr_pos (Qopp x)
  end.

Example repr64_examples :
  repr64 (round64 (1 # 40)) = "0.025" ∧ repr64 (int_div 1 3) = "0.3333333333333333" ∧
  repr64 (fadd (round64 (1 # 10)) (round64 (2 # 10))) = "0.30000000000000004" ∧
  repr64 (of_int (10 ^ 16)) = "1e+16" ∧ repr64 (of_int 123456789012345680) = "1.2345678901234568e+17" ∧
  repr64 (of_int (10 ^ 15)) = "1000000000000000.0" ∧ repr64 (round64 (1 # 100000)) = "1e-05" ∧
  repr64 (round64 (-15 # 100000)) = "-0.00015" ∧ repr64 (of_int 120) = "120.0".
Proof. vm_compute. done. Qed.

(** ** Reading a [repr] back *)

Fixpoint read_digits (s : string) (acc : Z) (n : Z) : Z * Z * string :=
  match s with
  | String c s' =>
      if code_between 48 57 c then read_digits s' (acc * 10 + (Z.of_nat (nat_of_ascii c) - 48)) (n + 1) else (acc, n, s)
  | EmptyString => (acc, n, s)
  end.
Definition read_exponent (s : string) : Z :=
  match s with
  | String e s' =>
      if Ascii.eqb e "e" then
        match s' with
        | String "-" s'' => - (read_digits s'' 0 0).1.1
        | String "+" s'' => (read_digits s'' 0 0).1.1
        | _ => (read_digits s' 0 0).1.1
        end
      else 0
  | EmptyString => 0
  end.
Definition read_decimal (s : string) : Q :=
  let '(m, _, s) := read_digits s 0 0 in
  let '(m, k, s) := match s with String "." s' => read_digits s' m 0 | _ => (m, 0, s) end in
  (inject_Z m * pow10 (read_exponent s - k))%Q.
(** The number whose [repr] this is, if it is finite. *)
Definition float_value (s : string) : option Q :=
  if member s ["nan"; "inf"; "-inf"] then None
  else Some (match s with String "-" s' => Qopp (round64 (read_decimal s')) | _ => round64 (read_decimal s) end).
