(* ===== verification/EnvWorker.v ===== *)
(** * The environment worker: [RuntimeEnvWorker] of [rollout_runtime/workers/env_worker.py]

    A worker holds the sessions bound to its environment pools and executes their commands.
    Every command runs in a task of its own ([handle_command]); control messages run beside
    them.  Tasks interleave at each [await]: the lock of a session, a call of the execution
    core, the inference channel.  So a method here is a coroutine of [Async.v] that reads
    like the source; [SessionSlot] and [ActiveRequest] objects live in heaps, because tasks
    keep references to them across awaits.

    The environment of the worker answers the queries ([answers]): the core's frames,
    outcomes and failures, the channel, the coalescer of a vector pool (whose own model is
    [Coalescer.v]), in any order, at any time; it may cancel a task at any [await].  The
    pools are the objects of [EnvPool.v]; how they are built and bound is [EnvBindings.v],
    here a binding appears and disappears by the events [Bind] and [Release].

    Left out: the latencies in [info], the compatibility key and the observation's digest of
    an inference request, the asynchronous start and stop of the loops.  A payload carries
    what [decode_payload] makes of it; [core_lock] only delays answers. *)

From Stdlib Require Import QArith.
From stdpp Require Import pretty.
From S2P Require Import Prelude PyDict Sorting Codec Api Messages Async EnvPool PyFloat.

Open Scope string_scope.
Open Scope list_scope.
Open Scope Z_scope.

Module EnvWorker.

(** ** Data *)

Record Observation := Obs {
  obs_session_id : string;
  obs_episode_id : Z;
  obs_step_index : Z;
  obs_content : value;
}.

Record SessionSlot := Slot {
  session_id : string;
  binding_token : string;
  pool_key : string;
  slot_index : Z;
  episode_id : option Z;
  step_index : Z;
  last_observation : option Observation;
  terminated : bool;
  truncated : bool;
  lease_expiration : Z;
  active_op : option string;
  last_operation_seq : Z;
  masked_steps_seen : Z;
  locked : bool;
}.
#[export] Instance SessionSlot_inhabited : Inhabited SessionSlot :=
  populate (Slot "" "" "" 0 None 0 None false false 0 None 0 0 false).

Inductive stage := STAGE_QUEUED | STAGE_INFERENCE | STAGE_ENV_STEP | STAGE_DONE.
#[export] Instance stage_eq_dec : EqDecision stage.
Proof. solve_decision. Defined.
Definition stage_value (s : stage) : string :=
  match s with
  | STAGE_QUEUED => "queued" | STAGE_INFERENCE => "inference"
  | STAGE_ENV_STEP => "env_step" | STAGE_DONE => "done"
  end.

Record ActiveRequest := Active {
  request_id : string;
  owner : string;
  operation : EnvOperation.t;
  the_stage : stage;
  side_effect_applied : bool;
  cancel_requested : bool;
}.
#[export] Instance ActiveRequest_inhabited : Inhabited ActiveRequest :=
  populate (Active "" "" EnvOperation.RESET STAGE_QUEUED false false).

Definition cancellable (a : ActiveRequest) : bool :=
  negb (side_effect_applied a) && member (the_stage a) [STAGE_QUEUED; STAGE_INFERENCE].

(** An array: one action, a chunk of them, or another shape. *)
Inductive array := Vector (row : value) | Matrix (rows : list value) | Tensor (dims : list Z).
Record PayloadRef := Payload { payload_nbytes : Z; decode_payload : outcome exception (array * bool) }.

Record PolicyRequest := Policy {
  policy_id : option string;
  instruction_override : option string;
  inference_parameters : value;
  actions_per_chunk : option Z;
}.
Record EpisodeRequest := Episode {
  max_steps : Z;
  policy : PolicyRequest;
  deadline : option Z;
  sink_id : option string;
  stop_on_truncation : bool;
}.

(** The payload of a command: the keys its handler reads. *)
Record payload := CommandPayload {
  reset_spec : option value;
  actions : option (option PayloadRef);
  policy_request : option PolicyRequest;
  episode_request : option EpisodeRequest;
  namespace : option string;
  method : option string;
  args : option value;
}.
Record CommandEnvelope := Command {
  c_request_id : string;
  c_session_id : string;
  c_binding_token : option string;
  c_episode_id : option Z;
  c_operation_seq : option Z;
  c_operation : EnvOperation.t;
  c_deadline : option Z;
  c_priority : Priority.t;
  c_payload : payload;
  c_application_id : string;
}.

Record InferenceRequest := Inference {
  i_request_id : string;
  i_session_id : string;
  i_binding_token : string;
  i_episode_id : option Z;
  i_operation_seq : option Z;
  i_policy_id : string;
  i_observation : Observation;
  i_instruction : option string;
  i_parameters : value;
  i_routing_token : string;
  i_deadline : option Z;
  i_priority : Priority.t;
  i_application_id : string;
}.
Record ActionResponse := Response {
  r_request_id : string;
  r_binding_token : option string;
  r_episode_id : option Z;
  r_actions : option PayloadRef;
  r_model_version : string;
  r_auxiliary_outputs : value;
  r_error : option RuntimeErrorInfo;
}.

Record ChunkOutcome := Outcome {
  o_observation : option Observation;
  o_reward : Q;
  o_terminated : bool;
  o_truncated : bool;
  o_executed_horizon : Z;
  o_per_step : value;
  o_per_step_obs_available : bool;
  o_info : list (string * value);
}.
Record LaneState := Lane { l_terminated : bool; l_truncated : bool; l_masked_steps : Z }.

Record StepResult := Step {
  s_request_id : string;
  s_session_id : string;
  s_binding_token : string;
  s_episode_id : option Z;
  s_operation_seq : option Z;
  s_observation : option Observation;
  s_reward : Q;
  s_terminated : bool;
  s_truncated : bool;
  s_info : list (string * value);
  s_side_effect_applied : bool;
  s_executed_horizon : Z;
  s_per_step : value;
}.
Record PolicyInferResult := Inferred {
  p_request_id : string;
  p_session_id : string;
  p_binding_token : string;
  p_episode_id : option Z;
  p_actions : option PayloadRef;
  p_model_version : string;
  p_auxiliary_outputs : value;
  p_observation_step_index : Z;
  p_info : list (string * value);
}.
Record EpisodeResult := Ran {
  e_request_id : string;
  e_session_id : string;
  e_episode_id : option Z;
  e_num_policy_steps : Z;
  e_executed_horizon : Z;
  e_total_reward : Q;
  e_terminated : bool;
  e_truncated : bool;
  e_stop_reason : string;
  e_sink_id : option string;
  e_last_observation : option Observation;
  e_info : list (string * value);
}.
Inductive result :=
  | StepValue (r : StepResult)
  | ObservationValue (o : Observation)
  | InferValue (r : PolicyInferResult)
  | EpisodeValue (r : EpisodeResult)
  | ExtensionValue (v : value).

Record ResultEnvelope := Envelope {
  v_request_id : string;
  v_session_id : string;
  v_operation : EnvOperation.t;
  v_state : OperationState.t;
  v_value : option result;
  v_error : option RuntimeErrorInfo;
  v_side_effect_applied : bool;
  v_worker_summary : option WorkerSummary;
}.

(** ** The state *)

Inductive future := Pending | Answered (r : ActionResponse) | Cancelled.

(** [InferenceClient]: [channel] holds the depth and the capacity of the attached one. *)
Record InferenceClient := Client {
  channel : option (Z * Z);
  pending : gmap string nat;
  _expected : gmap string (option string * option Z);
  futures : gmap nat future;
  next_future : nat;
  late_response_count : Z;
  queue_full_count : Z;
  submitted_count : Z;
}.

Record transition := Transition {
  t_session_id : string; t_episode_id : option Z; t_step_index : option Z; t_reward : Q;
  t_terminated : bool; t_truncated : bool; t_executed_horizon : Z }.

(** [TransitionSinkHub]: the records of the sinks in memory, and the lines of the files. *)
Record TransitionSinkHub := Sinks {
  memory : gmap string (list transition);
  files : list (string * transition);
  published_count : Z;
  dropped_count : Z;
}.

(** [RuntimeEnvWorker]; [pool_table] is [pools.pools], its values are objects. *)
Record worker := Worker {
  sessions : list (string * nat);
  slots : gmap nat SessionSlot;
  active : gmap string nat;
  requests : gmap nat ActiveRequest;
  pool_table : gmap string nat;
  pool_objects : gmap nat EnvPool.t;
  inference : InferenceClient;
  sinks : TransitionSinkHub;
  stale_command_count : Z;
  rejected_command_count : Z;
  clock : Z;
}.

Definition set_sessions (x : list (string * nat)) (w : worker) : worker :=
  Worker x (slots w) (active w) (requests w) (pool_table w) (pool_objects w) (inference w) (sinks w)
    (stale_command_count w) (rejected_command_count w) (clock w).
Definition set_slots (x : gmap nat SessionSlot) (w : worker) : worker :=
  Worker (sessions w) x (active w) (requests w) (pool_table w) (pool_objects w) (inference w) (sinks w)
    (stale_command_count w) (rejected_command_count w) (clock w).
Definition set_requests (a : gmap string nat) (x : gmap nat ActiveRequest) (w : worker) : worker :=
  Worker (sessions w) (slots w) a x (pool_table w) (pool_objects w) (inference w) (sinks w)
    (stale_command_count w) (rejected_command_count w) (clock w).
Definition set_pools (t : gmap string nat) (x : gmap nat EnvPool.t) (w : worker) : worker :=
  Worker (sessions w) (slots w) (active w) (requests w) t x (inference w) (sinks w)
    (stale_command_count w) (rejected_command_count w) (clock w).
Definition set_inference (x : InferenceClient) (w : worker) : worker :=
  Worker (sessions w) (slots w) (active w) (requests w) (pool_table w) (pool_objects w) x (sinks w)
    (stale_command_count w) (rejected_command_count w) (clock w).
Definition set_sinks (x : TransitionSinkHub) (w : worker) : worker :=
  Worker (sessions w) (slots w) (active w) (requests w) (pool_table w) (pool_objects w) (inference w) x
    (stale_command_count w) (rejected_command_count w) (clock w).
Definition set_counts (stale rejected : Z) (w : worker) : worker :=
  Worker (sessions w) (slots w) (active w) (requests w) (pool_table w) (pool_objects w) (inference w) (sinks w)
    stale rejected (clock w).
Definition set_clock (now : Z) (w : worker) : worker :=
  Worker (sessions w) (slots w) (active w) (requests w) (pool_table w) (pool_objects w) (inference w) (sinks w)
    (stale_command_count w) (rejected_command_count w) now.

Definition on_slot (k : nat) (f : SessionSlot → SessionSlot) (w : worker) : worker :=
  set_slots (alter f k (slots w)) w.
Definition on_request (i : nat) (f : ActiveRequest → ActiveRequest) (w : worker) : worker :=
  set_requests (active w) (alter f i (requests w)) w.

(** The assignments to a slot. *)
Definition with_active (op : option string) (seq : Z) (s : SessionSlot) : SessionSlot :=
  Slot (session_id s) (binding_token s) (pool_key s) (slot_index s) (episode_id s) (step_index s) (last_observation s)
    (terminated s) (truncated s) (lease_expiration s) op seq (masked_steps_seen s) (locked s).
Definition with_lock (b : bool) (s : SessionSlot) : SessionSlot :=
  Slot (session_id s) (binding_token s) (pool_key s) (slot_index s) (episode_id s) (step_index s) (last_observation s)
    (terminated s) (truncated s) (lease_expiration s) (active_op s) (last_operation_seq s) (masked_steps_seen s) b.
Definition with_lease (t : Z) (s : SessionSlot) : SessionSlot :=
  Slot (session_id s) (binding_token s) (pool_key s) (slot_index s) (episode_id s) (step_index s) (last_observation s)
    (terminated s) (truncated s) t (active_op s) (last_operation_seq s) (masked_steps_seen s) (locked s).
Definition with_flags (ended cut : bool) (s : SessionSlot) : SessionSlot :=
  Slot (session_id s) (binding_token s) (pool_key s) (slot_index s) (episode_id s) (step_index s) (last_observation s)
    ended cut (lease_expiration s) (active_op s) (last_operation_seq s) (masked_steps_seen s) (locked s).
Definition with_masked (n : Z) (s : SessionSlot) : SessionSlot :=
  Slot (session_id s) (binding_token s) (pool_key s) (slot_index s) (episode_id s) (step_index s) (last_observation s)
    (terminated s) (truncated s) (lease_expiration s) (active_op s) (last_operation_seq s) n (locked s).
Definition with_frame (step : Z) (o : option Observation) (s : SessionSlot) : SessionSlot :=
  Slot (session_id s) (binding_token s) (pool_key s) (slot_index s) (episode_id s) step o
    (terminated s) (truncated s) (lease_expiration s) (active_op s) (last_operation_seq s) (masked_steps_seen s) (locked s).
Definition with_episode (e : option Z) (s : SessionSlot) : SessionSlot :=
  Slot (session_id s) (binding_token s) (pool_key s) (slot_index s) e (step_index s) (last_observation s)
    (terminated s) (truncated s) (lease_expiration s) (active_op s) (last_operation_seq s) (masked_steps_seen s) (locked s).

(** The assignments to a request. *)
Definition at_stage (s : stage) (a : ActiveRequest) : ActiveRequest :=
  Active (request_id a) (owner a) (operation a) s (side_effect_applied a) (cancel_requested a).
Definition with_effect (a : ActiveRequest) : ActiveRequest :=
  Active (request_id a) (owner a) (operation a) (the_stage a) true (cancel_requested a).
Definition with_cancel (a : ActiveRequest) : ActiveRequest :=
  Active (request_id a) (owner a) (operation a) (the_stage a) (side_effect_applied a) true.

(** ** What a task waits for *)

(** A call of the execution core of a pool. *)
Inductive core_call :=
  | Reset (lane : Z) (spec : value)
  | Observe (lanes : list Z)
  | LaneStatus (lanes : list Z)
  | ChunkStep (lane : Z) (block : list value)
  | Extension (lane : Z) (namespace method : string) (args : value).
Definition core_result (c : core_call) : Type :=
  match c with
  | Reset _ _ | Observe _ => list Observation
  | LaneStatus _ => list LaneState
  | ChunkStep _ _ => list ChunkOutcome
  | Extension _ _ _ _ => value
  end.

(** What a call raised, with the classes of its [__cause__]. *)
Definition core_failure : Type := exception * list string.

Inductive query :=
  | LockOf (slot : nat)
  | Core (pool : nat) (c : core_call)
  | Coalesced (pool : nat) (lane : Z) (block : list value) (expected : Z)
  | PutRequest (request : InferenceRequest)
  | FutureOf (f : nat).
Definition query_reply (q : query) : Type :=
  match q with
  | LockOf _ | PutRequest _ => unit
  | Core _ c => outcome core_failure (core_result c)
  | Coalesced _ _ _ _ => ChunkOutcome
  | FutureOf _ => ActionResponse
  end.

Definition task (A : Type) : Type := coro (S := worker) (E := exception) query_reply A.
Definition segment (A : Type) : Type := prog worker exception A.
#[export] Instance task_ret : MRet task := coro_ret.
#[export] Instance task_bind : MBind task := coro_bind.
#[export] Instance segment_ret : MRet segment := prog_ret.
#[export] Instance segment_bind : MBind segment := prog_bind.

(** ** Exceptions *)

Definition api_error (info : RuntimeErrorInfo) : exception :=
  {| exc_class := "RuntimeApiError"; exc_bases := ["RuntimeApiError"; "Exception"; "BaseException"];
     exc_str := message info; exc_traceback := ""; exc_info := Some info |}.
Definition api (c : ErrorCode.t) (msg : string) (details : list (string * value)) : exception :=
  api_error (error_of c msg details).
Definition py_exception (class text : string) (bases : list string) : exception :=
  {| exc_class := class; exc_bases := class :: bases; exc_str := text; exc_traceback := ""; exc_info := None |}.
Definition cancelled_error : exception := py_exception "CancelledError" "" ["BaseException"].
Definition key_error (key : string) : exception :=
  py_exception "KeyError" ("'" +:+ key +:+ "'") ["LookupError"; "Exception"; "BaseException"].
Definition value_error (text : string) : exception := py_exception "ValueError" text ["Exception"; "BaseException"].

(** [envelope.payload[key]] *)
Definition item {A} (key : string) (o : option A) : segment A :=
  match o with Some x => mret x | None => raise (key_error key) end.

Definition bool_repr (b : bool) : string := if b then "True" else "False".

(** ** The environment's answers *)

Inductive reply :=
  | Granted
  | Frames (l : list Observation)
  | Statuses (l : list LaneState)
  | Outcomes (l : list ChunkOutcome)
  | OneOutcome (o : ChunkOutcome)
  | Structured (v : value)
  | CoreRaised (exc : exception) (cause : list string)
  | Accepted
  | Refused (exc : exception)
  | Resolved
  | TaskCancelled.

Definition core_answers (c : core_call) (r : reply) : option (outcome core_failure (core_result c)) :=
  match r with
  | CoreRaised exc cause => Some (Raise (exc, cause))
  | _ =>
      match c return option (outcome core_failure (core_result c)) with
      | Reset _ _ | Observe _ => match r with Frames l => Some (Ok l) | _ => None end
      | LaneStatus _ => match r with Statuses l => Some (Ok l) | _ => None end
      | ChunkStep _ _ => match r with Outcomes l => Some (Ok l) | _ => None end
      | Extension _ _ _ _ => match r with Structured v => Some (Ok v) | _ => None end
      end
  end.

Definition answers (q : query) (r : reply) (w : worker) : option (worker * outcome exception (query_reply q)) :=
  match r with
  | TaskCancelled => Some (w, Raise cancelled_error)
  | _ =>
      match q return option (worker * outcome exception (query_reply q)) with
      | LockOf k =>
          match r with
          | Granted => if locked (slots w !!! k) then None else Some (on_slot k (with_lock true) w, Ok tt)
          | _ => None
          end
      | Core _ c => match core_answers c r with Some a => Some (w, Ok a) | None => None end
      | Coalesced _ _ _ _ =>
          match r with OneOutcome o => Some (w, Ok o) | Refused exc => Some (w, Raise exc) | _ => None end
      | PutRequest _ =>
          match r with Accepted => Some (w, Ok tt) | Refused exc => Some (w, Raise exc) | _ => None end
      | FutureOf f =>
          match r, futures (inference w) !! f with
          | Resolved, Some (Answered a) => Some (w, Ok a)
          | Resolved, Some Cancelled => Some (w, Raise cancelled_error)
          | _, _ => None
          end
      end
  end.

(** What is fixed for a worker.  [family_of] is the environment family of a pool key,
    [reads_lanes] whether its core provides [lane_status], [extensions_of] what the
    registered family declares. *)
Record config := Config {
  worker_rank : Z;
  group_name : string;
  default_policy_id : string;
  coalescing : bool;
  family_of : string → string;
  reads_lanes : string → bool;
  extensions_of : string → list string;
}.

Section worker.
Context (cfg : config).

Definition summary (s : SessionSlot) : WorkerSummary := {|
  ws_worker_rank := worker_rank cfg; ws_group_name := group_name cfg; ws_pool_key := pool_key s;
  ws_slot_index := slot_index s; ws_step_index := step_index s; ws_terminated := terminated s;
  ws_truncated := truncated s; ws_updated_at := 0 |}.

(** ** Slots and stages *)

Definition slot_of (k : nat) : segment SessionSlot := w ← get_state; mret (slots w !!! k).
Definition find_session (sid : string) (w : worker) : option nat := assoc_lookup sid (sessions w).

Definition unknown_session (sid : string) : exception := api ErrorCode.UNKNOWN_SESSION
  ("env worker " +:+ pretty (worker_rank cfg) +:+ " has no binding for " +:+ sid)
  [("session_id", VStr sid); ("worker_rank", VInt (worker_rank cfg))].

Definition count_stale : segment unit :=
  modify (λ w, set_counts (stale_command_count w + 1) (rejected_command_count w) w).

Definition _require_slot (sid : string) (token : option string) : segment nat :=
  w ← get_state;
  match find_session sid w with
  | None => raise (unknown_session sid)
  | Some k =>
      match token with
      | Some t =>
          if String.eqb t (binding_token (slots w !!! k)) then mret k
          else count_stale ≫= λ _,
            raise (api ErrorCode.STALE_BINDING ("binding token mismatch for " +:+ sid) [("session_id", VStr sid)])
      | None => mret k
      end
  end.

Definition _reject_stale (k : nat) (c : CommandEnvelope) : segment unit :=
  s ← slot_of k;
  (match c_episode_id c, episode_id s with
   | Some e, Some current =>
       if e <? current then
         count_stale ≫= λ _, raise (api ErrorCode.STALE_BINDING
           ("late command from episode " +:+ pretty e +:+ "; session " +:+ session_id s
            +:+ " is on episode " +:+ pretty current)
           [("session_id", VStr (session_id s)); ("command_episode_id", VInt e); ("current_episode_id", VInt current)])
       else mret tt
   | _, _ => mret tt
   end) ≫= λ _,
  match c_operation_seq c with
  | Some n =>
      if n <=? last_operation_seq s then
        count_stale ≫= λ _, raise (api ErrorCode.STALE_BINDING
          ("late command seq " +:+ pretty n +:+ "; session " +:+ session_id s +:+ " already executed "
           +:+ pretty (last_operation_seq s))
          [("session_id", VStr (session_id s)); ("command_operation_seq", VInt n);
           ("last_operation_seq", VInt (last_operation_seq s))])
      else mret tt
  | None => mret tt
  end.

Definition _begin_active_slot (k : nat) (c : CommandEnvelope) : segment unit :=
  s ← slot_of k;
  match active_op s with
  | Some op =>
      if String.eqb op (c_request_id c) then mret tt
      else modify (λ w, set_counts (stale_command_count w) (rejected_command_count w + 1) w) ≫= λ _,
        raise (api ErrorCode.SESSION_NOT_READY ("session " +:+ session_id s +:+ " already runs " +:+ op)
          [("session_id", VStr (session_id s)); ("active_operation", VStr op)])
  | None => mret tt
  end ≫= λ _,
  modify (on_slot k (λ s, with_active (Some (c_request_id c)) (last_operation_seq s) s)).

Definition ended (c : CommandEnvelope) (s : SessionSlot) : SessionSlot :=
  with_active (if bool_decide (active_op s = Some (c_request_id c)) then None else active_op s)
    (match c_operation_seq c with Some n => Z.max (last_operation_seq s) n | None => last_operation_seq s end) s.
Definition _end_active_slot (k : nat) (c : CommandEnvelope) : segment unit := modify (on_slot k (ended c)).

(** The new object is [i]. *)
Definition _register_active (i : nat) (c : CommandEnvelope) : segment unit := modify (λ w,
  set_requests (<[c_request_id c := i]> (active w))
    (<[i := Active (c_request_id c) (c_session_id c) (c_operation c) STAGE_QUEUED false false]> (requests w)) w).

Definition _check_cancelled (a : option nat) : segment unit :=
  w ← get_state;
  match a with
  | Some i =>
      let r := requests w !!! i in
      check (negb (cancel_requested r)) (api ErrorCode.CANCELLED
        ("operation " +:+ request_id r +:+ " cancelled before the env step") [("request_id", VStr (request_id r))])
  | None => mret tt
  end.

(** [active.stage = s] and [active.side_effect_applied = True], when there is one. *)
Definition set_stage (a : option nat) (s : stage) : segment unit :=
  match a with Some i => modify (on_request i (at_stage s)) | None => mret tt end.
Definition set_effect (a : option nat) : segment unit :=
  match a with Some i => modify (on_request i with_effect) | None => mret tt end.

(** [pools.find(key)], when its core is there. *)
Definition live_pool (key : string) (w : worker) : option (nat * EnvPool.t) :=
  match pool_table w !! key with
  | Some pid => match pool_objects w !! pid with
                | Some p => if EnvPool.the_core p then Some (pid, p) else None
                | None => None
                end
  | None => None
  end.

Definition _pool_of (k : nat) : segment (nat * EnvPool.t) :=
  w ← get_state;
  let s := slots w !!! k in
  match live_pool (pool_key s) w with
  | Some found => mret found
  | None => raise (api ErrorCode.ENV_FAILURE
      ("env pool " +:+ String.substring 0 12 (pool_key s) +:+ " is gone for " +:+ session_id s)
      [("session_id", VStr (session_id s))])
  end.

Definition is_running (s : SessionSlot) : bool :=
  bool_decide (is_Some (episode_id s)) && negb (terminated s) && negb (truncated s).
(** [_needs_lockstep_frame] *)
Definition _needs_lockstep_frame : SessionSlot → bool := is_running.

Definition bound_slots (key : string) (w : worker) : list nat :=
  bfilter (λ k, String.eqb (pool_key (slots w !!! k)) key) (sessions w).*2.
Definition _lockstep_lane_count (key : string) (w : worker) : Z :=
  Z.max 1 (Prelude.count (λ k, is_running (slots w !!! k)) (bound_slots key w)).

(** ** Calls of the core *)

(** What a call that raised raises here, and whether its cause is a dead pipe. *)
Definition pipe_errors : list string := ["BrokenPipeError"; "ConnectionResetError"; "EOFError"].
Definition _call_core_raises (exc : exception) (cause : list string) (side_effect : bool) : exception * bool :=
  match exc_info exc with
  | Some info =>
      if side_effect && negb (err_side_effect_applied info)
      then (api_error (make_error (code info) (message info) (Some (retryable info)) true (detail info)), false)
      else (exc, existsb (λ c, member c pipe_errors) cause)
  | None =>
      if isinstance exc ["CancelledError"; "GeneratorExit"] then (exc, false)
      else (api_error (normalize_exception exc ErrorCode.ENV_FAILURE side_effect true), isinstance exc pipe_errors)
  end.

Definition mark_unhealthy (pid : nat) (w : worker) : worker :=
  set_pools (pool_table w) (alter (λ p, EnvPool.set_marks true (EnvPool.pending_bindings p) (EnvPool.evicting p) p)
    pid (pool_objects w)) w.

Definition _call_pool_core (pid : nat) (c : core_call) (side_effect : bool) : task (core_result c) :=
  answer ← await (Core pid c);
  match answer with
  | Ok x => mret x
  | Raise (exc, cause) =>
      let raised := _call_core_raises exc cause side_effect in
      (if raised.2 then now (modify (mark_unhealthy pid)) else mret tt) ≫= λ _, throw raised.1
  end.

Definition _stamp (o : Observation) (s : SessionSlot) : Observation :=
  Obs (session_id s) (or_else (episode_id s) 0) (obs_step_index o) (obs_content o).

(** ** Reading vector pools back *)

(** [except (CancelledError, GeneratorExit): raise / except BaseException: return d] *)
Definition swallow {A} (d : A) (m : task A) : task A :=
  except m (λ e, if isinstance e ["CancelledError"; "GeneratorExit"] then throw e else mret d).

(** [zip(xs, ys, strict=True)] after its last pair. *)
Definition strict_zip {A B} (xs : list A) (ys : list B) : segment unit :=
  check (Nat.eqb (length xs) (length ys)) (value_error "zip() arguments have different lengths").

Definition restamp (o : Observation) (s : SessionSlot) : SessionSlot :=
  let o' := _stamp o s in with_frame (obs_step_index o') (Some o') s.

Definition _refresh_lockstep_observations (pid : nat) (stale : list nat) : task unit :=
  w ← now get_state;
  let ordered := sort_by (λ j k, slot_index (slots w !!! j) <=? slot_index (slots w !!! k)) stale in
  match stale, pool_objects w !! pid with
  | _ :: _, Some p =>
      if EnvPool.the_core p then
        fresh ← swallow None (o ← _call_pool_core pid (Observe (slot_index <$> ((slots w !!!.) <$> ordered))) false;
                              mret (Some o));
        match fresh with
        | Some frames => now (
            for_each (λ p, modify (on_slot p.1 (restamp p.2))) (combine ordered frames) ≫= λ _,
            strict_zip ordered frames)
        | None => mret tt
        end
      else mret tt
  | _, _ => mret tt
  end.

(** One slot meets the state of its lane; [Some k] when its frame is stale. *)
Definition sync_lane (k : nat) (l : LaneState) : segment (option nat) :=
  s ← slot_of k;
  if bool_decide (episode_id s = None) then mret None
  else
    modify (on_slot k (with_flags (terminated s || l_terminated l) (truncated s || l_truncated l))) ≫= λ _,
    if l_masked_steps l =? masked_steps_seen s then mret None
    else modify (on_slot k (with_masked (l_masked_steps l))) ≫= λ _,
      mret (if _needs_lockstep_frame s then Some k else None).
Fixpoint sync_lanes (pairs : list (nat * LaneState)) : segment (list nat) :=
  match pairs with
  | [] => mret []
  | (k, l) :: rest => stale ← sync_lane k l; others ← sync_lanes rest; mret (option_list stale ++ others)
  end.

Definition _sync_lockstep_pool (pid : nat) (key : string) : task unit :=
  w ← now get_state;
  match bound_slots key w with
  | [] => mret tt
  | bound =>
      if negb (reads_lanes cfg key) then
        _refresh_lockstep_observations pid (bfilter (λ k, _needs_lockstep_frame (slots w !!! k)) bound)
      else
        read ← swallow None (l ← _call_pool_core pid (LaneStatus (slot_index <$> ((slots w !!!.) <$> bound))) false;
                             mret (Some l));
        match read with
        | Some statuses =>
            stale ← now (stale ← sync_lanes (combine bound statuses);
                         strict_zip bound statuses ≫= λ _, mret stale);
            _refresh_lockstep_observations pid stale
        | None => mret tt
        end
  end.

Definition _sync_lockstep_slot (k : nat) : task unit :=
  w ← now get_state;
  match live_pool (pool_key (slots w !!! k)) w with
  | Some (pid, p) => if EnvPool.lockstep p then _sync_lockstep_pool pid (EnvPool.pool_key p) else mret tt
  | None => mret tt
  end.

(** ** [InferenceClient] *)

Definition on_client (f : InferenceClient → InferenceClient) (w : worker) : worker := set_inference (f (inference w)) w.
Definition set_waiting (p : gmap string nat) (e : gmap string (option string * option Z)) (c : InferenceClient) :
    InferenceClient :=
  Client (channel c) p e (futures c) (next_future c) (late_response_count c) (queue_full_count c) (submitted_count c).
Definition set_futures (f : gmap nat future) (n : nat) (c : InferenceClient) : InferenceClient :=
  Client (channel c) (pending c) (_expected c) f n (late_response_count c) (queue_full_count c) (submitted_count c).
Definition set_client_counts (late full sent : Z) (c : InferenceClient) : InferenceClient :=
  Client (channel c) (pending c) (_expected c) (futures c) (next_future c) late full sent.

Definition _forget (rid : string) (c : InferenceClient) : InferenceClient :=
  set_waiting (delete rid (pending c)) (delete rid (_expected c)) c.

(** [submit] up to the channel: the new future. *)
Definition register_future (r : InferenceRequest) : segment nat :=
  w ← get_state;
  match channel (inference w) with
  | None => raise (api ErrorCode.WORKER_LOST "env worker has no inference channel attached"
              [("worker_rank", VInt (worker_rank cfg))])
  | Some _ =>
      let f := next_future (inference w) in
      modify (on_client (λ c, set_waiting (<[i_request_id r := f]> (pending c))
        (<[i_request_id r := (Some (i_binding_token r), i_episode_id r)]> (_expected c))
        (set_futures (<[f := Pending]> (futures c)) (S f) c))) ≫= λ _, mret f
  end.

(** What [submit] raises when the channel refused. *)
Definition refused (r : InferenceRequest) (exc : exception) : segment unit :=
  if isinstance exc ["QueueFull"] then
    modify (on_client (λ c, set_client_counts (late_response_count c) (queue_full_count c + 1) (submitted_count c)
      (_forget (i_request_id r) c))) ≫= λ _,
    w ← get_state;
    let '(depth, capacity) := default (-1, -1) (channel (inference w)) in
    raise (api ErrorCode.QUEUE_FULL
      ("inference request queue is full (" +:+ pretty depth +:+ "/" +:+ pretty capacity
       +:+ "); rejecting instead of queueing")
      [("queue_depth", VInt depth); ("queue_capacity", VInt capacity); ("session_id", VStr (i_session_id r))])
  else if isinstance exc ["InferenceChannelClosed"] then
    modify (on_client (_forget (i_request_id r))) ≫= λ _,
    raise (api ErrorCode.WORKER_LOST "inference channel is closed" [("session_id", VStr (i_session_id r))])
  else raise exc.

Definition submit (r : InferenceRequest) : task ActionResponse :=
  f ← now (register_future r);
  except (await (PutRequest r)) (λ exc, now (refused r exc)) ≫= λ _,
  now (modify (on_client (λ c, set_client_counts (late_response_count c) (queue_full_count c)
    (submitted_count c + 1) c))) ≫= λ _,
  finally (await (FutureOf f)) (now (modify (on_client (_forget (i_request_id r))))).

Definition done (f : future) : bool := match f with Pending => false | _ => true end.
Definition deliver (r : ActionResponse) : segment bool :=
  w ← get_state;
  let c := inference w in
  let late := modify (on_client (λ c, set_client_counts (late_response_count c + 1) (queue_full_count c)
    (submitted_count c) c)) ≫= λ _, mret false in
  match pending c !! r_request_id r, _expected c !! r_request_id r with
  | Some f, Some expected =>
      if done (default Pending (futures c !! f)) then late
      else if negb (bool_decide (expected = (r_binding_token r, r_episode_id r))) then late
      else modify (on_client (λ c, set_futures (<[f := Answered r]> (futures c)) (next_future c) c)) ≫= λ _, mret true
  | _, _ => late
  end.

(** ** Operations *)

Definition not_reset (s : SessionSlot) (what : string) : exception := api ErrorCode.SESSION_NOT_READY
  ("session " +:+ session_id s +:+ " has no " +:+ what +:+ "; call reset first")
  [("session_id", VStr (session_id s))].

Definition _require_running_episode (k : nat) : segment unit :=
  s ← slot_of k;
  match episode_id s with
  | None => raise (not_reset s "episode")
  | Some e =>
      check (negb (terminated s || truncated s)) (api ErrorCode.EPISODE_TERMINATED
        ("episode " +:+ pretty e +:+ " of session " +:+ session_id s +:+ " already finished (terminated="
         +:+ bool_repr (terminated s) +:+ ", truncated=" +:+ bool_repr (truncated s)
         +:+ "); call reset to start a new one")
        [("session_id", VStr (session_id s)); ("episode_id", VInt e);
         ("terminated", VBool (terminated s)); ("truncated", VBool (truncated s))])
  end.

(** The shape as Python prints a tuple of integers. *)
Definition tuple_repr (dims : list Z) : string :=
  match dims with
  | [d] => "(" +:+ pretty d +:+ ",)"
  | _ => "(" +:+ String.concat ", " (pretty <$> dims) +:+ ")"
  end.
Definition _decode_actions (p : option PayloadRef) : outcome exception (list value) :=
  match p with
  | None => Raise (api ErrorCode.INVALID_ARGUMENT "actions payload is missing" [])
  | Some p =>
      decoded ← decode_payload p;
      block ← match decoded.1 with
        | Vector row => Ok [row]
        | Matrix rows => Ok rows
        | Tensor dims => Raise (api ErrorCode.INVALID_ARGUMENT
            ("actions must be [chunk, action_dim], got shape " +:+ tuple_repr dims) [])
        end;
      ensure decoded.2 (api ErrorCode.INVALID_ARGUMENT "actions contain non-finite values" []);;
      Ok block
  end.
Definition decode (p : option PayloadRef) : segment (list value) := λ w, (w, _decode_actions p).

(** [block[:n]] *)
Definition first_rows (n : Z) (block : list value) : list value :=
  take (Z.to_nat (if 0 <=? n then n else zlen block + n)) block.
Definition truncate_chunk (p : PolicyRequest) (block : list value) : list value :=
  match actions_per_chunk p with Some n => if n =? 0 then block else first_rows n block | None => block end.

Definition REQUEST_PAYLOAD_LIMIT_BYTES : Z := 8 * 1024 * 1024.
Definition check_payload_budget (context : string) (p : option PayloadRef) : segment unit :=
  let total := match p with Some p => payload_nbytes p | None => 0 end in
  check (total <=? REQUEST_PAYLOAD_LIMIT_BYTES) (api ErrorCode.INVALID_ARGUMENT
    (context +:+ " payload budget exceeded: " +:+ pretty total +:+ " > "
     +:+ pretty REQUEST_PAYLOAD_LIMIT_BYTES +:+ " bytes")
    [("payload_bytes", VInt total); ("payload_limit", VInt REQUEST_PAYLOAD_LIMIT_BYTES)]).

(** [rows[0]] of what a core returned. *)
Definition first_of {A} (l : list A) : segment A :=
  match l with
  | x :: _ => mret x
  | [] => raise (py_exception "IndexError" "list index out of range" ["LookupError"; "Exception"; "BaseException"])
  end.

(** The assignments of [reset] once the core has answered. *)
Definition begin_episode (k : nat) : segment unit := modify (on_slot k (λ s,
  with_frame 0 (last_observation s) (with_flags false false (with_episode (Some (or_else (episode_id s) 0 + 1)) s)))).

Definition reset (a : option nat) (sid : string) (spec : value) (rid : string) (seq : option Z) : task StepResult :=
  k ← now (_require_slot sid None);
  now (_check_cancelled a) ≫= λ _,
  pool ← now (_pool_of k);
  now (set_stage a STAGE_ENV_STEP) ≫= λ _,
  s ← now (slot_of k);
  observations ← _call_pool_core pool.1 (Reset (slot_index s) spec) false;
  now (set_effect a ≫= λ _,
       begin_episode k ≫= λ _,
       o ← first_of observations;
       s ← slot_of k;
       modify (on_slot k (with_frame 0 (Some (_stamp o s)))) ≫= λ _,
       s ← slot_of k;
       mret (Step rid sid (binding_token s) (episode_id s) seq (last_observation s) 0%Q false false
         [("reset", VBool true); ("episode_id", VInt (or_else (episode_id s) 0))] true 0 VNone)).

Definition observe (sid : string) : task Observation :=
  k ← now (_require_slot sid None);
  s ← now (slot_of k);
  match last_observation s with
  | None => throw (not_reset s "observation")
  | Some o =>
      _sync_lockstep_slot k ≫= λ _,
      s ← now (slot_of k);
      mret (default o (last_observation s))
  end.

(** The end of [_step_slot]: the slot after an outcome. *)
Definition absorb (o : ChunkOutcome) (s : SessionSlot) : SessionSlot :=
  let s := with_flags (terminated s || o_terminated o) (truncated s || o_truncated o) s in
  match o_observation o with
  | Some obs => with_frame (obs_step_index obs) (Some (_stamp obs s)) s
  | None => s
  end.
Definition step_result (rid : string) (seq : option Z) (o : ChunkOutcome) (s : SessionSlot) : StepResult :=
  Step rid (session_id s) (binding_token s) (episode_id s) seq (last_observation s) (o_reward o)
    (terminated s) (truncated s)
    (assoc_insert "per_step_obs_available" (VBool (o_per_step_obs_available o)) (o_info o))
    true (o_executed_horizon o) (o_per_step o).

(** The checks before the step, in one segment with its announcement. *)
Definition commit_step (a : option nat) (k : nat) : segment (nat * EnvPool.t * SessionSlot * Z) :=
  _require_running_episode k ≫= λ _,
  _check_cancelled a ≫= λ _,
  pool ← _pool_of k;
  set_stage a STAGE_ENV_STEP ≫= λ _,
  set_effect a ≫= λ _,
  s ← slot_of k;
  w ← get_state;
  mret (pool, s, _lockstep_lane_count (pool_key s) w).

Definition _step_slot (a : option nat) (k : nat) (block : list value) (rid : string) (seq : option Z) : task StepResult :=
  _sync_lockstep_slot k ≫= λ _,
  committed ← now (commit_step a k);
  let '(pid, p, s, lanes) := committed in
  o ← (if EnvPool.lockstep p && coalescing cfg then await (Coalesced pid (slot_index s) block lanes)
       else outcomes ← _call_pool_core pid (ChunkStep (slot_index s) block) true; now (first_of outcomes));
  now (modify (on_slot k (absorb o)) ≫= λ _, s ← slot_of k; mret (step_result rid seq o s)).

Definition action_step (a : option nat) (sid : string) (p : option PayloadRef) (rid : string) (seq : option Z) :
    task StepResult :=
  now (check_payload_budget "action_step" p) ≫= λ _,
  block ← now (decode p);
  k ← now (_require_slot sid None);
  _step_slot a k block rid seq.

Definition inference_request (s : SessionSlot) (o : Observation) (p : PolicyRequest) (rid : string) (seq : option Z)
    (c : CommandEnvelope) (due : option Z) (prio : Priority.t) : InferenceRequest :=
  Inference rid (session_id s) (binding_token s) (episode_id s) seq
    (default (default_policy_id cfg) (p' ← policy_id p; if str_true p' then Some p' else None)) o
    (instruction_override p) (inference_parameters p)
    (make_routing_token (group_name cfg) (worker_rank cfg)) due prio (c_application_id c).

Definition cancelled_waiting (a : option nat) (rid : string) (exc : exception) : segment ActionResponse :=
  w ← get_state;
  match a with
  | Some i =>
      if isinstance exc ["CancelledError"] && cancel_requested (requests w !!! i) then
        raise (api ErrorCode.CANCELLED ("operation " +:+ rid +:+
          " cancelled while waiting for inference; the late action will be discarded") [("request_id", VStr rid)])
      else raise exc
  | None => raise exc
  end.

Definition request_inference (a : option nat) (sid : string) (o : Observation) (p : PolicyRequest) (rid : string)
    (seq : option Z) (c : CommandEnvelope) (due : option Z) (prio : Priority.t) : task ActionResponse :=
  k ← now (_require_slot sid None);
  s ← now (slot_of k);
  now (set_stage a STAGE_INFERENCE) ≫= λ _,
  except (submit (inference_request s o p rid seq c due prio)) (λ exc, now (cancelled_waiting a rid exc)).

Definition require_observation (k : nat) : segment Observation :=
  s ← slot_of k;
  match last_observation s with Some o => mret o | None => raise (not_reset s "observation") end.
Definition no_error (r : ActionResponse) : segment unit :=
  match r_error r with Some info => raise (api_error info) | None => mret tt end.

Definition chosen_policy (p : PolicyRequest) : string :=
  default (default_policy_id cfg) (p' ← policy_id p; if str_true p' then Some p' else None).

Definition with_policy_info (p : PolicyRequest) (r : ActionResponse) (s : StepResult) : StepResult :=
  Step (s_request_id s) (s_session_id s) (s_binding_token s) (s_episode_id s) (s_operation_seq s) (s_observation s)
    (s_reward s) (s_terminated s) (s_truncated s)
    (assoc_insert "policy_id" (VStr (chosen_policy p))
      (assoc_insert "model_version" (VStr (r_model_version r)) (s_info s)))
    (s_side_effect_applied s) (s_executed_horizon s) (s_per_step s).

Definition _policy_step_inner (a : option nat) (k : nat) (p : PolicyRequest) (c : CommandEnvelope) (due : option Z)
    (prio : Priority.t) : task StepResult :=
  let rid := c_request_id c in let seq := c_operation_seq c in
  _sync_lockstep_slot k ≫= λ _,
  now (_require_running_episode k) ≫= λ _,
  now (_check_cancelled a) ≫= λ _,
  o ← now (require_observation k);
  s ← now (slot_of k);
  response ← request_inference a (session_id s) o p rid seq c due prio;
  now (no_error response) ≫= λ _,
  now (_check_cancelled a) ≫= λ _,
  block ← now (decode (r_actions response));
  step ← _step_slot a k (truncate_chunk p block) rid seq;
  mret (with_policy_info p response step).

Definition policy_infer (sid : string) (p : PolicyRequest) (c : CommandEnvelope) : task PolicyInferResult :=
  k ← now (_require_slot sid None);
  _sync_lockstep_slot k ≫= λ _,
  o ← now (require_observation k);
  s ← now (slot_of k);
  r ← request_inference None (session_id s) o p (c_request_id c) None c (c_deadline c) (c_priority c);
  now (no_error r) ≫= λ _,
  s ← now (slot_of k);
  mret (Inferred (r_request_id r) (session_id s) (binding_token s) (episode_id s) (r_actions r) (r_model_version r)
    (r_auxiliary_outputs r) (obs_step_index o)
    [("policy_id", VStr (chosen_policy p)); ("terminated", VBool (terminated s)); ("truncated", VBool (truncated s))]).

(** ** Episodes *)

Definition JSONL_PREFIX : string := "jsonl:".
Definition memory_append (sink : string) (t : transition) (h : TransitionSinkHub) : TransitionSinkHub :=
  Sinks (<[sink := default [] (memory h !! sink) ++ [t]]> (memory h)) (files h) (published_count h + 1) (dropped_count h).
(** [TransitionSinkHub.publish]; writing the line of a file is taken to succeed. *)
Definition publish (sink : option string) (t : transition) : segment unit := modify (λ w,
  set_sinks (let h := sinks w in
    match sink with
    | None => Sinks (memory h) (files h) (published_count h) (dropped_count h + 1)
    | Some id =>
        if String.prefix JSONL_PREFIX id
        then Sinks (memory h) (files h ++ [(str_drop 6 id, t)]) (published_count h + 1) (dropped_count h)
        else memory_append id t h
    end) w).
Definition publish_transition (r : EpisodeRequest) (s : StepResult) : segment unit :=
  publish (sink_id r) (Transition (s_session_id s) (s_episode_id s) (obs_step_index <$> s_observation s) (s_reward s)
    (s_terminated s) (s_truncated s) (s_executed_horizon s)).

Definition should_finish_episode (a : option nat) (sid : string) (r : EpisodeRequest) (steps : Z) :
    segment (option string) :=
  w ← get_state;
  mret match find_session sid w with
  | None => Some "error"
  | Some k =>
      let s := slots w !!! k in
      if terminated s then Some "terminated"
      else if truncated s && stop_on_truncation r then Some "truncated"
      else if match a with Some i => cancel_requested (requests w !!! i) | None => false end then Some "cancelled"
      else if match deadline r with Some d => d <=? clock w | None => false end then Some "deadline"
      else if max_steps r <=? steps then Some "max_steps"
      else None
  end.

(** What the loop has counted. *)
Record tally := Tally { steps : Z; horizon : Z; total_reward : Q }.
Definition tally_step (s : StepResult) (t : tally) : tally :=
  Tally (steps t + 1) (horizon t + s_executed_horizon s) (fadd (total_reward t) (s_reward s)).

(** [except RuntimeApiError as exc: if exc.info.code is not EPISODE_TERMINATED: raise] *)
Definition ended_inside (e : exception) : bool :=
  match exc_info e with Some info => bool_decide (code info = ErrorCode.EPISODE_TERMINATED) | None => false end.

(** The loop; [fuel] bounds its rounds, [max_steps - steps] of them suffice. *)
Fixpoint episode_loop (fuel : nat) (a : option nat) (k : nat) (sid : string) (c : CommandEnvelope) (r : EpisodeRequest) (t : tally) :
    task (tally * string) :=
  reason ← now (should_finish_episode a sid r (steps t));
  match reason, fuel with
  | Some reason, _ => mret (t, reason)
  | None, O => mret (t, "max_steps")
  | None, S fuel =>
      step ← except (s ← _policy_step_inner a k (policy r) c (deadline r) Priority.INTERACTIVE; mret (inl s))
        (λ e, if ended_inside e then
                s ← now (slot_of k);
                mret (inr (if terminated s then "terminated" else "truncated"))
              else throw e);
      match step with
      | inr reason => mret (t, reason)
      | inl s => now (publish_transition r s) ≫= λ _, episode_loop fuel a k sid c r (tally_step s t)
      end
  end.
Definition rounds (r : EpisodeRequest) : nat := Z.to_nat (max_steps r).

Definition run_episode (a : option nat) (sid : string) (r : EpisodeRequest) (c : CommandEnvelope) : task EpisodeResult :=
  k ← now (_require_slot sid None);
  _sync_lockstep_slot k ≫= λ _,
  now (_require_running_episode k) ≫= λ _,
  finished ← episode_loop (rounds r) a k sid c r (Tally 0 0 0%Q);
  let '(t, reason) := finished in
  s ← now (slot_of k);
  mret (Ran (c_request_id c) sid (episode_id s) (steps t) (horizon t) (total_reward t) (terminated s) (truncated s)
    reason (sink_id r) (last_observation s)
    [("side_effect_applied", VBool (0 <? steps t)); ("max_steps", VInt (max_steps r))]).

Definition extension_call (sid namespace method : string) (args : value) : task value :=
  k ← now (_require_slot sid None);
  pool ← now (_pool_of k);
  s ← now (slot_of k);
  let family := family_of cfg (EnvPool.pool_key pool.2) in
  let full_name := namespace +:+ "." +:+ method in
  now (check (member full_name (extensions_of cfg family)) (api ErrorCode.UNSUPPORTED_EXTENSION
    ("env family '" +:+ family +:+ "' does not declare extension '" +:+ full_name +:+ "'")
    [("namespace", VStr namespace); ("method", VStr method);
     ("supported", VList (VStr <$> sort_by str_leb (extensions_of cfg family)))])) ≫= λ _,
  _call_pool_core pool.1 (Extension (slot_index s) namespace method args) false.

(** ** Commands *)

(** [_COMMAND_HANDLERS[operation]], with the session of the slot that was found. *)
Definition handler (a : option nat) (k : nat) (c : CommandEnvelope) : option (task result) :=
  let p := c_payload c in
  let with_session {A} (f : string → task A) : task A := s ← now (slot_of k); f (session_id s) in
  match c_operation c with
  | EnvOperation.RESET => Some (
      with_session (λ sid, spec ← now (item "reset_spec" (reset_spec p));
        r ← reset a sid spec (c_request_id c) (c_operation_seq c); mret (StepValue r)))
  | EnvOperation.OBSERVE => Some (with_session (λ sid, o ← observe sid; mret (ObservationValue o)))
  | EnvOperation.ACTION_STEP => Some (
      with_session (λ sid, x ← now (item "actions" (actions p));
        r ← action_step a sid x (c_request_id c) (c_operation_seq c); mret (StepValue r)))
  | EnvOperation.POLICY_STEP => Some (
      with_session (λ sid, x ← now (item "policy_request" (policy_request p));
        k ← now (_require_slot sid None);
        r ← _policy_step_inner a k x c (c_deadline c) (c_priority c); mret (StepValue r)))
  | EnvOperation.POLICY_INFER => Some (
      with_session (λ sid, x ← now (item "policy_request" (policy_request p));
        r ← policy_infer sid x c; mret (InferValue r)))
  | EnvOperation.RUN_EPISODE => Some (
      with_session (λ sid, x ← now (item "episode_request" (episode_request p));
        r ← run_episode a sid x c; mret (EpisodeValue r)))
  | EnvOperation.EXTENSION_CALL => Some (
      with_session (λ sid, n ← now (item "namespace" (namespace p)); m ← now (item "method" (method p));
        v ← extension_call sid n m (default (VDict []) (args p)); mret (ExtensionValue v)))
  | _ => None
  end.

Definition mutating (c : CommandEnvelope) : bool := member (c_operation c) MUTATING_OPERATIONS.

Definition _failure (c : CommandEnvelope) (info : RuntimeErrorInfo) (s : option WorkerSummary) : ResultEnvelope :=
  Envelope (c_request_id c) (c_session_id c) (c_operation c)
    (if bool_decide (code info = ErrorCode.CANCELLED) then OperationState.CANCELLED else OperationState.FAILED)
    None (Some info) (err_side_effect_applied info) s.

Definition _side_effect_of (v : result) (a : option ActiveRequest) (c : CommandEnvelope) : bool :=
  match v, a with
  | StepValue r, _ => s_side_effect_applied r
  | _, Some a => side_effect_applied a
  | _, None => mutating c
  end.

Definition succeeded (a : option nat) (k : nat) (c : CommandEnvelope) (v : result) : segment ResultEnvelope :=
  w ← get_state;
  mret (Envelope (c_request_id c) (c_session_id c) (c_operation c) OperationState.SUCCEEDED (Some v) None
    (_side_effect_of v ((requests w !!!.) <$> a) c) (Some (summary (slots w !!! k)))).
(** [except BaseException] *)
Definition failed (a : option nat) (k : option nat) (c : CommandEnvelope) (e : exception) : segment ResultEnvelope :=
  w ← get_state;
  mret (_failure c
    (normalize_exception e ErrorCode.INTERNAL
       match a with Some i => side_effect_applied (requests w !!! i) | None => false end true)
    ((λ k, summary (slots w !!! k)) <$> k)).

(** [async with slot.lock] *)
Definition with_slot_lock {A} (k : nat) (m : task A) : task A :=
  await (LockOf k) ≫= λ _, finally m (now (modify (on_slot k (with_lock false)))).

(** From the registration of the request to its removal. *)
Definition run_registered (i k : nat) (c : CommandEnvelope) (h : task result) : task ResultEnvelope :=
  finally
    (except (v ← finally (with_slot_lock k h) (now (_end_active_slot k c)); now (succeeded (Some i) k c v))
            (λ e, now (failed (Some i) (Some k) c e)))
    (now (modify (λ w, on_request i (at_stage STAGE_DONE)
      (set_requests (delete (c_request_id c) (active w)) (requests w) w)))).

(** [handle_command]; [i] is the identity of the [ActiveRequest] it may create. *)
Definition handle_command (i : nat) (c : CommandEnvelope) : task ResultEnvelope :=
  andthen (now (_require_slot (c_session_id c) (c_binding_token c))) (λ found,
  match found with
  | Raise e => now (failed None None c e)
  | Ok k =>
      let a := if mutating c then Some i else None in
      except (now (_reject_stale k c) ≫= λ _,
        match handler a k c with
        | None => mret None
        | Some h => (if mutating c then now (_begin_active_slot k c ≫= λ _, _register_active i c) else mret tt) ≫= λ _,
            mret (Some h)
        end ≫= λ h,
        match h with
        | None => mret (_failure c (error_of ErrorCode.INVALID_ARGUMENT
            ("unsupported command operation: " +:+ EnvOperation.name (c_operation c)) []) None)
        | Some h => if mutating c then run_registered i k c h else v ← h; now (succeeded None k c v)
        end)
      (λ e, now (failed None (Some k) c e))
  end).

(** ** Control messages *)

Definition cancel_request (rid : string) : segment bool :=
  w ← get_state;
  match active w !! rid with
  | None => mret false
  | Some i =>
      modify (on_request i with_cancel) ≫= λ _,
      if negb (cancellable (requests w !!! i)) then mret false
      else match pending (inference w) !! rid with
           | Some f =>
               if done (default Pending (futures (inference w) !! f)) then mret true
               else modify (on_client (λ c, set_futures (<[f := Cancelled]> (futures c)) (next_future c) c)) ≫= λ _,
                 mret true
           | None => mret true
           end
  end.
(** [_ctl_cancel]: cancelled, side effect, stage. *)
Definition _ctl_cancel (rid : string) : segment (bool * bool * string) :=
  w ← get_state;
  cancelled ← cancel_request rid;
  w' ← get_state;
  mret (match active w !! rid with
        | Some i => (cancelled, side_effect_applied (requests w' !!! i), stage_value (the_stage (requests w !!! i)))
        | None => (cancelled, false, "unknown")
        end).

(** The end of [create_binding], for the slot object [k]. *)
Definition bind (k : nat) (sid token key : string) (lane lease : Z) : segment unit := modify (λ w,
  set_sessions (assoc_insert sid k (sessions w))
    (set_slots (<[k := Slot sid token key lane None 0 None false false lease None 0 0 false]> (slots w)) w)).

Definition release_binding (sid : string) : segment unit :=
  w ← get_state;
  match find_session sid w with
  | None => mret tt
  | Some k =>
      modify (set_sessions (assoc_delete sid (sessions w))) ≫= λ _,
      let s := slots w !!! k in
      match pool_table w !! pool_key s with
      | Some pid => modify (λ w, set_pools (pool_table w)
          (alter (λ p, after (EnvPool.release (slot_index s)) p) pid (pool_objects w)) w)
      | None => mret tt
      end
  end.
Definition renew_lease (sid : string) (lease : Z) : segment unit :=
  w ← get_state;
  match find_session sid w with Some k => modify (on_slot k (with_lease lease)) | None => mret tt end.

Definition expired (w : worker) : list string :=
  (bfilter (λ p, let s := slots w !!! p.2 in
     negb (lease_expiration s =? 0) && (lease_expiration s <=? clock w) && bool_decide (active_op s = None))
   (sessions w)).*1.
Definition recover_expired_sessions : segment (list string) :=
  w ← get_state; for_each release_binding (expired w) ≫= λ _, mret (expired w).
End worker.

(** ** Runs *)

(** The event loop of a worker, with the history of the commands and of the slot each found;
    the task and the [ActiveRequest] of a command are numbered by its place in the history. *)
Record loop := Loop {
  sys : system (S := worker) (E := exception) query_reply ResultEnvelope;
  history : list (CommandEnvelope * option nat);
}.

Inductive event :=
  | Arrives (c : CommandEnvelope)
  | Answers (i : nat) (r : reply)
  | Delivers (r : ActionResponse)
  | Cancels (rid : string)
  | Binds (k : nat) (sid token key : string) (lane lease : Z)
  | Releases (sid : string)
  | Renews (sid : string) (lease : Z)
  | Reaps
  | PoolsBecome (table : gmap string nat) (objects : gmap nat EnvPool.t)
  | ChannelBecomes (c : option (Z * Z))
  | Ticks (now : Z).

Definition set_channel (x : option (Z * Z)) (c : InferenceClient) : InferenceClient :=
  Client x (pending c) (_expected c) (futures c) (next_future c) (late_response_count c) (queue_full_count c)
    (submitted_count c).

(** What an event other than a command or an answer does to the state. *)
Definition act (e : event) : segment unit :=
  match e with
  | Delivers r => deliver r ≫= λ _, mret tt
  | Cancels rid => cancel_request rid ≫= λ _, mret tt
  | Binds k sid token key lane lease =>
      w ← get_state; if slots w !! k then mret tt else bind k sid token key lane lease
  | Releases sid => release_binding sid
  | Renews sid lease => renew_lease sid lease
  | Reaps => recover_expired_sessions ≫= λ _, mret tt
  | PoolsBecome table objects => modify (set_pools table objects)
  | ChannelBecomes c => modify (on_client (set_channel c))
  | Ticks now => modify (set_clock now)
  | Arrives _ | Answers _ _ => mret tt
  end.

Definition exec (cfg : config) (e : event) (l : loop) : loop :=
  match e with
  | Arrives c =>
      let i := length (history l) in
      Loop (spawn i (handle_command cfg i c) (sys l)) (history l ++ [(c, find_session (c_session_id c) (st (sys l)))])
  | Answers i r => Loop (wake answers i r (sys l)) (history l)
  | e => Loop (poke (after (act e)) (sys l)) (history l)
  end.
Definition run (cfg : config) (es : list event) (l : loop) : loop := foldl (λ l e, exec cfg e l) l es.

Definition idle : worker := {|
  sessions := []; slots := ∅; active := ∅; requests := ∅; pool_table := ∅; pool_objects := ∅;
  inference := Client None ∅ ∅ ∅ 0 0 0 0; sinks := Sinks ∅ [] 0 0; stale_command_count := 0;
  rejected_command_count := 0; clock := 0 |}.
Definition start : loop := Loop (System idle ∅ []) [].

End EnvWorker.
