(* ===== verification/Coalescer.v ===== *)
(** * The coalescer of a vector pool: [SlotGroupCoalescer] of [rollout_runtime/workers/env_worker.py]

    The steps of the lanes of one simulator are merged: the first command becomes the leader
    of a group, waits until every running lane has joined or a window is over, makes one call
    of the core for all, and gives every waiter its own outcome.

    Every [submit] is a task ([task]), cut where it awaits: the window, the call, the future
    of its entry.  Groups are objects in a heap, since tasks keep references to them after
    the table has dropped them.  Left to the events: when windows end, what the core answers,
    which tasks are cancelled.  [owner] and [calls] record, for the statements only, who waits
    for an entry and what was asked of the core.

    Theorems: in every run no waiter is left behind without a leader at work, every block is
    handed to the core at most once, and whoever gets an outcome gets its own. *)

From stdpp Require Import pretty.
From S2P Require Import Prelude Codec Api EnvWorker.

Open Scope string_scope.
Open Scope list_scope.
Open Scope Z_scope.

Module SlotGroupCoalescer.
Section coalescer.
Context {B O : Type}.

Record _CoalesceEntry := Entry { slot_index : Z; block : B; future : option (outcome exception O); owner : nat }.
Record _CoalesceGroup := Group {
  entries : list _CoalesceEntry;
  ready : bool;
  closed : bool;
  expected : Z;
  group_key : string * Z;
}.

(** Where a [submit] awaits.  The call is the [c]-th; without a group it is for this slot alone. *)
Inductive stage :=
  | Gathers (gid : nat)
  | Executes (group : option nat) (c : nat)
  | Waits (gid : nat) (k : nat)
  | Ended (o : outcome exception O).
Record task := Task { t_key : string * Z; t_slot : Z; t_block : B; t_stage : stage }.
Record call := Call { c_tasks : list nat; c_slots : list Z; c_blocks : list B;
                      c_answer : option (outcome exception (list O)) }.

Record t := Coalescer {
  groups_executed : Z;
  coalesced_command_count : Z;
  window_timeout_count : Z;
  max_group_size : Z;
  _groups : gmap (string * Z) nat;
  heap : list _CoalesceGroup;
  tasks : list task;
  calls : list call;
}.

(** [enabled], and [window_seconds > 0]. *)
Context (enabled accumulates : bool).

Definition set_groups (tb : gmap (string * Z) nat) (h : list _CoalesceGroup) (w : t) : t :=
  Coalescer (groups_executed w) (coalesced_command_count w) (window_timeout_count w) (max_group_size w)
    tb h (tasks w) (calls w).
Definition set_heap (h : list _CoalesceGroup) (w : t) : t := set_groups (_groups w) h w.
Definition set_tasks (ts : list task) (w : t) : t :=
  Coalescer (groups_executed w) (coalesced_command_count w) (window_timeout_count w) (max_group_size w)
    (_groups w) (heap w) ts (calls w).
Definition set_calls (cs : list call) (w : t) : t :=
  Coalescer (groups_executed w) (coalesced_command_count w) (window_timeout_count w) (max_group_size w)
    (_groups w) (heap w) (tasks w) cs.
Definition counted (n : Z) (w : t) : t :=
  Coalescer (groups_executed w + 1) (coalesced_command_count w + n) (window_timeout_count w)
    (Z.max (max_group_size w) n) (_groups w) (heap w) (tasks w) (calls w).
Definition timed_out (w : t) : t :=
  Coalescer (groups_executed w) (coalesced_command_count w) (window_timeout_count w + 1) (max_group_size w)
    (_groups w) (heap w) (tasks w) (calls w).

Definition at_stage (s : stage) (x : task) : task := Task (t_key x) (t_slot x) (t_block x) s.
Definition to_stage (i : nat) (s : stage) (w : t) : t :=
  set_tasks (alter (at_stage s) i (tasks w)) w.

(** [if not entry.future.done(): entry.future.set_…] *)
Definition set_future (o : outcome exception O) (e : _CoalesceEntry) : _CoalesceEntry :=
  Entry (slot_index e) (block e) (Some (default o (future e))) (owner e).
Definition with_entries (es : list _CoalesceEntry) (g : _CoalesceGroup) : _CoalesceGroup :=
  Group es (ready g) (closed g) (expected g) (group_key g).
Definition close (g : _CoalesceGroup) : _CoalesceGroup :=
  Group (entries g) (ready g) true (expected g) (group_key g).

(** [group.closed = True; if self._groups.get(key) is group: self._groups.pop(key)] *)
Definition retire (gid : nat) (w : t) : t :=
  match heap w !! gid with
  | Some g =>
      set_groups (if bool_decide (_groups w !! group_key g = Some gid) then delete (group_key g) (_groups w) else _groups w)
        (<[gid := close g]> (heap w)) w
  | None => w
  end.
Definition update_entries (gid : nat) (f : list _CoalesceEntry → list _CoalesceEntry) (w : t) : t :=
  set_heap (alter (λ g, with_entries (f (entries g)) g) gid (heap w)) w.

(** [return await entry.future] *)
Definition await_future (i gid k : nat) (w : t) : t :=
  match e ← g ← heap w !! gid; entries g !! k; future e with
  | Some o => to_stage i (Ended o) w
  | None => to_stage i (Waits gid k) w
  end.

Definition _abandon (gid : nat) (exc : exception) (w : t) : t :=
  update_entries gid (fmap (set_future (Raise exc))) (retire gid w).

(** [_fire], up to the call of the core. *)
Definition fire_begins (i gid : nat) (w : t) : t :=
  match heap w !! gid with
  | Some g =>
      let es := entries g in
      let w := counted (zlen es) (retire gid w) in
      to_stage i (Executes (Some gid) (length (calls w)))
        (set_calls (calls w ++ [Call (owner <$> es) (slot_index <$> es) (block <$> es) None]) w)
  | None => w
  end.

Definition slots_repr (l : list Z) : string :=
  "[" +:+ String.concat ", " (pretty <$> l) +:+ "]".
Definition mismatch (got : list O) (es : list _CoalesceEntry) : exception := EnvWorker.api ErrorCode.INTERNAL
  ("coalesced chunk_step returned " +:+ pretty (zlen got) +:+ " outcome(s) for " +:+ pretty (zlen es)
   +:+ " slot(s) " +:+ slots_repr (slot_index <$> es))
  [("slots", VList (VInt <$> (slot_index <$> es)))].

(** [_fire] after the call, with the handler of [submit] around it. *)
Definition fire_ends (gid : nat) (r : outcome exception (list O)) (w : t) : t :=
  match heap w !! gid with
  | Some g =>
      match r with
      | Ok outcomes =>
          if (length outcomes =? length (entries g))%nat
          then update_entries gid (λ es, zip_with (λ o e, set_future (Ok o) e) outcomes es) w
          else _abandon gid (mismatch outcomes (entries g)) w
      | Raise exc => _abandon gid exc w
      end
  | None => w
  end.

(** ** [submit] *)

Definition submit_alone (key : string * Z) (slot : Z) (b : B) (w : t) : t :=
  let i := length (tasks w) in
  set_calls (calls w ++ [Call [i] [slot] [b] None])
    (set_tasks (tasks w ++ [Task key slot b (Executes None (length (calls w)))]) w).

(** The open group of a key, or a new one. *)
Definition group_for (key : string * Z) (n : Z) (w : t) : nat * t :=
  let new := (length (heap w), set_groups (<[key := length (heap w)]> (_groups w))
                (heap w ++ [Group [] false false n key]) w) in
  match _groups w !! key with
  | Some gid => match heap w !! gid with Some g => if closed g then new else (gid, w) | None => new end
  | None => new
  end.
Definition join (e : _CoalesceEntry) (n : Z) (g : _CoalesceGroup) : _CoalesceGroup :=
  let n := match entries g with [] => n | _ => Z.min (expected g) n end in
  let es := entries g ++ [e] in
  Group es (ready g || (n <=? zlen es)) (closed g) n (group_key g).

Definition submit (pool_key : string) (slot : Z) (b : B) (chunk_len n : Z) (w : t) : t :=
  if negb enabled || (n <=? 1) then submit_alone (pool_key, chunk_len) slot b w
  else
    let i := length (tasks w) in
    let '(gid, w) := group_for (pool_key, chunk_len) n w in
    match heap w !! gid with
    | Some g =>
        let g' := join (Entry slot b None i) n g in
        let w := set_tasks (tasks w ++ [Task (pool_key, chunk_len) slot b (Waits gid (length (entries g)))])
                   (set_heap (<[gid := g']> (heap w)) w) in
        match entries g with
        | [] => if negb (ready g') && accumulates then to_stage i (Gathers gid) w else fire_begins i gid w
        | _ => w
        end
    | None => w
    end.

(** ** Runs *)

Inductive event :=
  | Submit (pool_key : string) (slot : Z) (b : B) (chunk_len n : Z)
  | Awoken (i : nat)
  | TimedOut (i : nat)
  | Returned (i : nat) (r : outcome exception (list O))
  | Delivered (i : nat)
  | Cancelled (i : nat).

Definition answered (r : outcome exception (list O)) (x : call) : call :=
  Call (c_tasks x) (c_slots x) (c_blocks x) (Some r).
Definition set_answer (c : nat) (r : outcome exception (list O)) (w : t) : t :=
  set_calls (alter (answered r) c (calls w)) w.
Definition index_error : exception :=
  EnvWorker.py_exception "IndexError" "list index out of range" ["LookupError"; "Exception"; "BaseException"].

(** The call for one slot is back. *)
Definition alone_ends (i : nat) (r : outcome exception (list O)) (w : t) : t :=
  match r with
  | Ok outcomes => to_stage i (Ended (match outcomes with o :: _ => Ok o | [] => Raise index_error end)) (counted 1 w)
  | Raise exc => to_stage i (Ended (Raise exc)) w
  end.

Definition exec (e : event) (w : t) : t :=
  match e with
  | Submit pool slot b len n => submit pool slot b len n w
  | Awoken i =>
      match t_stage <$> tasks w !! i with
      | Some (Gathers gid) => if default false (ready <$> heap w !! gid) then fire_begins i gid w else w
      | _ => w
      end
  | TimedOut i =>
      match t_stage <$> tasks w !! i with
      | Some (Gathers gid) => fire_begins i gid (timed_out w)
      | _ => w
      end
  | Returned i r =>
      match t_stage <$> tasks w !! i with
      | Some (Executes None c) => alone_ends i r (set_answer c r w)
      | Some (Executes (Some gid) c) => await_future i gid 0 (fire_ends gid r (set_answer c r w))
      | _ => w
      end
  | Delivered i =>
      match t_stage <$> tasks w !! i with
      | Some (Waits gid k) => await_future i gid k w
      | _ => w
      end
  | Cancelled i =>
      match t_stage <$> tasks w !! i with
      | Some (Gathers gid) => await_future i gid 0 (_abandon gid EnvWorker.cancelled_error w)
      | Some (Waits gid k) =>
          await_future i gid k (update_entries gid (alter (set_future (Raise EnvWorker.cancelled_error)) k) w)
      | _ => w
      end
  end.
Definition run (es : list event) (w : t) : t := foldl (λ w e, exec e w) w es.
Definition start : t := Coalescer 0 0 0 0 ∅ [] [] [].

(** ** What every run keeps *)

Definition frame (e : _CoalesceEntry) : Z * B * nat := (slot_index e, block e, owner e).
Definition pending (g : _CoalesceGroup) : Prop := ∃ e, e ∈ entries g ∧ future e = None.
Definition open_owners (h : list _CoalesceGroup) : list nat :=
  concat ((λ g, if closed g then [] else owner <$> entries g) <$> h).
Definition launched (cs : list call) : list nat := concat (c_tasks <$> cs).

(** The core gave [o] for the block of task [i]. *)
Definition served (cs : list call) (i : nat) (o : O) : Prop :=
  ∃ c x os k, cs !! c = Some x ∧ c_answer x = Some (Ok os) ∧ c_tasks x !! k = Some i ∧ os !! k = Some o.

(** A task that has to settle the group. *)
Definition leads (gid : nat) (g : _CoalesceGroup) (s : stage) : Prop :=
  if closed g then ∃ c, s = Executes (Some gid) c else s = Gathers gid.

Record inv (w : t) : Prop := {
  i_unique : NoDup (launched (calls w) ++ open_owners (heap w));
  i_below i : i ∈ launched (calls w) ++ open_owners (heap w) → (i < length (tasks w))%nat;
  i_table key gid : _groups w !! key = Some gid → ∃ g, heap w !! gid = Some g ∧ group_key g = key;
  i_entry gid g k e : heap w !! gid = Some g → entries g !! k = Some e →
    ∃ x, tasks w !! owner e = Some x ∧ t_key x = group_key g ∧ t_slot x = slot_index e ∧ t_block x = block e;
  i_call c x : calls w !! c = Some x → ∃ key, ∀ k i, c_tasks x !! k = Some i →
    ∃ y, tasks w !! i = Some y ∧ t_key y = key ∧ c_slots x !! k = Some (t_slot y) ∧ c_blocks x !! k = Some (t_block y);
  i_gathers i x gid : tasks w !! i = Some x → t_stage x = Gathers gid →
    ∃ g e, heap w !! gid = Some g ∧ closed g = false ∧ entries g !! 0%nat = Some e ∧ owner e = i;
  i_executes i x group c : tasks w !! i = Some x → t_stage x = Executes group c →
    ∃ y, calls w !! c = Some y ∧ c_answer y = None ∧ c_tasks y !! 0%nat = Some i ∧
      match group with
      | None => c_tasks y = [i]
      | Some gid => ∃ g, heap w !! gid = Some g ∧ closed g = true ∧ c_tasks y = owner <$> entries g
      end;
  i_waits i x gid k : tasks w !! i = Some x → t_stage x = Waits gid k →
    ∃ g e, heap w !! gid = Some g ∧ entries g !! k = Some e ∧ owner e = i;
  i_leader gid g : heap w !! gid = Some g → closed g = false ∨ pending g →
    ∃ i x, tasks w !! i = Some x ∧ leads gid g (t_stage x);
  i_nonempty gid g : heap w !! gid = Some g → entries g ≠ [];
  i_served gid g k e o : heap w !! gid = Some g → entries g !! k = Some e → future e = Some (Ok o) →
    served (calls w) (owner e) o;
  i_ended i x o : tasks w !! i = Some x → t_stage x = Ended (Ok o) → served (calls w) i o;
}.

(** ** Lists *)

Lemma concat_insert_sublist {A} (l : list (list A)) i x :
  l !! i = Some x → concat (<[i := []]> l) `sublist_of` concat l.
Proof.
  revert i. induction l as [|y l IH]; intros [|i] H; simplify_eq/=; [by apply sublist_inserts_l|].
  apply sublist_app; [done|by apply IH].
Qed.
Lemma concat_insert_nil_perm {A} (l : list (list A)) i x :
  l !! i = Some x → concat l ≡ₚ x ++ concat (<[i := []]> l).
Proof.
  revert i. induction l as [|y l IH]; intros [|i] H; simplify_eq/=; [done|]. rewrite (IH i H). solve_Permutation.
Qed.

Lemma open_owners_insert h gid g g' :
  h !! gid = Some g → owner <$> entries g' = owner <$> entries g → closed g' = closed g →
  open_owners (<[gid := g']> h) = open_owners h.
Proof.
  intros H He Hc. unfold open_owners. f_equal. rewrite list_fmap_insert, Hc, He. apply list_insert_id.
  by rewrite list_lookup_fmap, H.
Qed.
Lemma open_owners_close h gid g g' :
  h !! gid = Some g → closed g' = true → open_owners (<[gid := g']> h) `sublist_of` open_owners h.
Proof.
  intros H Hc. unfold open_owners. rewrite list_fmap_insert, Hc. eapply concat_insert_sublist.
  by rewrite list_lookup_fmap, H.
Qed.
Lemma open_owners_move h gid g g' :
  h !! gid = Some g → closed g = false → closed g' = true →
  open_owners h ≡ₚ (owner <$> entries g) ++ open_owners (<[gid := g']> h).
Proof.
  intros H Hc Hc'. unfold open_owners. rewrite list_fmap_insert, Hc'. apply concat_insert_nil_perm.
  by rewrite list_lookup_fmap, H; simpl; rewrite Hc.
Qed.
Lemma open_owners_join h gid g g' e :
  h !! gid = Some g → closed g = false → closed g' = false → entries g' = entries g ++ [e] →
  open_owners (<[gid := g']> h) ≡ₚ owner e :: open_owners h.
Proof.
  intros H Hc Hc' He. rewrite (open_owners_move h gid g (close g) H Hc eq_refl).
  rewrite (open_owners_move (<[gid := g']> h) gid g' (close g)); [|by rewrite list_lookup_insert_eq; [|by eapply lookup_lt_Some]|done|done].
  rewrite list_insert_insert_eq, He, fmap_app. simpl. solve_Permutation.
Qed.

Lemma frame_owner (es es' : list _CoalesceEntry) : frame <$> es' = frame <$> es → owner <$> es' = owner <$> es.
Proof.
  intros H. apply (f_equal (fmap snd)) in H. by rewrite <- !list_fmap_compose in H.
Qed.
Lemma frame_lookup (es es' : list _CoalesceEntry) k e' :
  frame <$> es' = frame <$> es → es' !! k = Some e' → ∃ e, es !! k = Some e ∧ frame e' = frame e.
Proof.
  intros H Hk. apply (f_equal (.!! k)) in H. rewrite !list_lookup_fmap, Hk in H.
  destruct (es !! k) as [e|]; [|done]. exists e. by apply (inj Some) in H.
Qed.

(** Calls only get answers, and only the task whose call it is. *)
Definition answered_by (i : nat) (cs cs' : list call) : Prop :=
  cs' = cs ∨ ∃ c y r, cs !! c = Some y ∧ c_answer y = None ∧ c_tasks y !! 0%nat = Some i ∧ cs' = alter (answered r) c cs.

Lemma answered_launched i cs cs' : answered_by i cs cs' → launched cs' = launched cs.
Proof.
  intros [-> |(c & y & r & H & _ & _ & ->)]; [done|]. unfold launched. f_equal. apply list_eq. intros k.
  rewrite !list_lookup_fmap. destruct (decide (c = k)) as [->|Hne]; [|by rewrite list_lookup_alter_ne].
  rewrite list_lookup_alter_eq. by destruct (cs !! k).
Qed.
Lemma answered_lookup i cs cs' c x' :
  answered_by i cs cs' → cs' !! c = Some x' →
  ∃ x, cs !! c = Some x ∧ c_tasks x' = c_tasks x ∧ c_slots x' = c_slots x ∧ c_blocks x' = c_blocks x.
Proof.
  intros [-> |(d & y & r & H & _ & _ & ->)] Hc; [by exists x'|]. destruct (decide (d = c)) as [->|Hne].
  - rewrite list_lookup_alter_eq, H in Hc. injection Hc as <-. by exists y.
  - rewrite list_lookup_alter_ne in Hc by done. by exists x'.
Qed.
Lemma answered_other i j cs cs' c x :
  answered_by i cs cs' → cs !! c = Some x → c_tasks x !! 0%nat = Some j → j ≠ i → cs' !! c = Some x.
Proof.
  intros [-> |(d & y & r & H & _ & H0 & ->)] Hc Hj Hne; [done|]. rewrite list_lookup_alter_ne; [done|].
  intros ->. simplify_eq.
Qed.
Lemma answered_served i cs cs' j o : answered_by i cs cs' → served cs j o → served cs' j o.
Proof.
  intros [-> |(d & y & r & H & Hn & _ & ->)] (c & x & os & k & H1 & H2 & H3); [by exists c, x, os, k|].
  exists c, x, os, k. split; [|done]. rewrite list_lookup_alter_ne; [done|]. intros ->. congruence.
Qed.

(** ** Steps *)

Lemma staged_case i s (ts : list task) j y :
  alter (at_stage s) i ts !! j = Some y →
  (j = i ∧ ∃ x, ts !! i = Some x ∧ y = at_stage s x) ∨ (j ≠ i ∧ ts !! j = Some y).
Proof.
  intros H. destruct (decide (i = j)) as [<-|Hne].
  - rewrite list_lookup_alter_eq in H. destruct (ts !! i) as [x|]; [|done]. injection H as <-. left. eauto.
  - rewrite list_lookup_alter_ne in H by done. right. auto.
Qed.
Lemma staged_lookup i s (ts : list task) j x :
  ts !! j = Some x → ∃ y, alter (at_stage s) i ts !! j = Some y ∧ t_key y = t_key x ∧ t_slot y = t_slot x ∧ t_block y = t_block x.
Proof.
  intros H. destruct (decide (i = j)) as [<-|Hne].
  - exists (at_stage s x). by rewrite list_lookup_alter_eq, H.
  - exists x. by rewrite list_lookup_alter_ne.
Qed.
Lemma length_staged i s (ts : list task) : length (alter (at_stage s) i ts) = length ts.
Proof. apply length_alter. Qed.

(** The task that leads a group is the owner of its first entry. *)
Lemma leads_owner w i x gid g e :
  inv w → tasks w !! i = Some x → heap w !! gid = Some g → entries g !! 0%nat = Some e →
  leads gid g (t_stage x) → owner e = i.
Proof.
  intros Hw Hi Hg He Hl. unfold leads in Hl. destruct (closed g) eqn:Hc.
  - destruct Hl as [c Hl]. destruct (i_executes w Hw i x _ c Hi Hl) as (y & _ & _ & H0 & g' & Hg' & _ & Hown).
    simplify_eq. rewrite Hown, list_lookup_fmap, He in H0. by injection H0.
  - destruct (i_gathers w Hw i x gid Hi Hl) as (g' & e' & Hg' & _ & He' & Ho). by simplify_eq.
Qed.

Lemma leads_same gid gid' g g' s : leads gid g s → leads gid' g' s → gid = gid'.
Proof.
  unfold leads. destruct (closed g), (closed g');
    [intros [c ->] [c' E]|intros [c ->] E|intros -> [c E]|intros -> E]; congruence.
Qed.

(** Futures of one group are settled, and task [i] is over: it led the group, which is then
    settled wholly, or it waited for its own future. *)
Section moves.
Context (w w' : t) (i : nat) (x : task) (gid : nat) (g g' : _CoalesceGroup) (o : outcome exception O).
Context (Hw : inv w) (Hi : tasks w !! i = Some x) (Hg : heap w !! gid = Some g)
  (Hh : heap w' = <[gid := g']> (heap w)) (Hkey : group_key g' = group_key g)
  (Hfr : frame <$> entries g' = frame <$> entries g)
  (Ht : tasks w' = alter (at_stage (Ended o)) i (tasks w))
  (Hc : answered_by i (calls w) (calls w'))
  (Htb : ∀ key p, _groups w' !! key = Some p → _groups w !! key = Some p)
  (Hcase : (leads gid g (t_stage x) ∧ closed g' = true ∧ ¬ pending g') ∨
    ((∃ k, t_stage x = Waits gid k) ∧ closed g' = closed g ∧ (pending g' → pending g)))
  (Hfut : ∀ k e v, entries g' !! k = Some e → future e = Some (Ok v) → served (calls w') (owner e) v)
  (Ho : ∀ v, o = Ok v → served (calls w') i v).

#[local] Lemma moved_here : heap w' !! gid = Some g'.
Proof. rewrite Hh, list_lookup_insert_eq; [done|by eapply lookup_lt_Some]. Qed.
#[local] Lemma moved_elsewhere p : p ≠ gid → heap w' !! p = heap w !! p.
Proof. intros Hp. by rewrite Hh, list_lookup_insert_ne. Qed.
#[local] Lemma moved_closed : closed g' = true ∨ closed g' = closed g.
Proof. destruct Hcase as [(_ & H & _)|(_ & H & _)]; auto. Qed.
#[local] Lemma moved_owners : owner <$> entries g' = owner <$> entries g.
Proof. by apply frame_owner. Qed.

(** Where a group was before. *)
#[local] Lemma moved_back p gp' :
  heap w' !! p = Some gp' → ∃ gp, heap w !! p = Some gp ∧ group_key gp' = group_key gp ∧ frame <$> entries gp' = frame <$> entries gp ∧
    (p = gid ∧ gp = g ∧ gp' = g' ∨ p ≠ gid ∧ gp' = gp).
Proof.
  intros H. destruct (decide (p = gid)) as [->|Hne].
  - rewrite moved_here in H. injection H as <-. exists g. split_and!; auto.
  - rewrite moved_elsewhere in H by done. exists gp'. split_and!; auto.
Qed.
(** And where it is now. *)
#[local] Lemma moved_on p gp k e :
  heap w !! p = Some gp → entries gp !! k = Some e →
  ∃ gp' e', heap w' !! p = Some gp' ∧ entries gp' !! k = Some e' ∧ owner e' = owner e ∧
    owner <$> entries gp' = owner <$> entries gp ∧ (p = gid ∧ gp = g ∧ gp' = g' ∨ p ≠ gid ∧ gp' = gp).
Proof.
  intros Hp He. destruct (decide (p = gid)) as [->|Hne].
  - assert (gp = g) as -> by congruence. destruct (frame_lookup _ _ _ _ (eq_sym Hfr) He) as (e' & He' & Hf).
    injection Hf as _ _ Hf. exists g', e'. split_and!; auto using moved_here, moved_owners.
  - exists gp, e. rewrite moved_elsewhere by done. split_and!; auto.
Qed.
#[local] Lemma moved_task_on j y : tasks w !! j = Some y →
  ∃ y', tasks w' !! j = Some y' ∧ t_key y' = t_key y ∧ t_slot y' = t_slot y ∧ t_block y' = t_block y.
Proof. rewrite Ht. apply staged_lookup. Qed.
#[local] Lemma moved_task_back j y : tasks w' !! j = Some y →
  (j = i ∧ t_stage y = Ended o) ∨ (j ≠ i ∧ tasks w !! j = Some y).
Proof. rewrite Ht. intros [(-> & z & _ & ->)|H]%staged_case; auto. Qed.

#[local] Lemma moves_sublist : launched (calls w') ++ open_owners (heap w') `sublist_of` launched (calls w) ++ open_owners (heap w).
Proof.
  rewrite (answered_launched _ _ _ Hc). apply sublist_app; [done|]. rewrite Hh.
  destruct moved_closed as [H|H]; [by eapply open_owners_close|].
  rewrite (open_owners_insert _ _ g); [done|done|apply moved_owners|done].
Qed.
#[local] Lemma moves_entry p gp k e : heap w' !! p = Some gp → entries gp !! k = Some e →
  ∃ y, tasks w' !! owner e = Some y ∧ t_key y = group_key gp ∧ t_slot y = slot_index e ∧ t_block y = block e.
Proof.
  intros Hp He. destruct (moved_back p gp Hp) as (gq & Hq & Hk & Hf & _).
  destruct (frame_lookup _ _ _ _ Hf He) as (eq & Heq & Hfe). injection Hfe as Hf1 Hf2 Hf3.
  destruct (i_entry w Hw p gq k eq Hq Heq) as (y & Hy & H1 & H2 & H3).
  destruct (moved_task_on _ _ Hy) as (y' & Hy' & E1 & E2 & E3). exists y'. rewrite Hf3. split_and!; congruence.
Qed.
#[local] Lemma moves_call c y : calls w' !! c = Some y → ∃ key, ∀ k j, c_tasks y !! k = Some j →
  ∃ z, tasks w' !! j = Some z ∧ t_key z = key ∧ c_slots y !! k = Some (t_slot z) ∧ c_blocks y !! k = Some (t_block z).
Proof.
  intros Hy. destruct (answered_lookup _ _ _ _ _ Hc Hy) as (y0 & Hy0 & E1 & E2 & E3).
  destruct (i_call w Hw c y0 Hy0) as (key & H). exists key. intros k j Hj. rewrite E1 in Hj. rewrite E2, E3.
  destruct (H k j Hj) as (z & Hz & F1 & F2 & F3). destruct (moved_task_on _ _ Hz) as (z' & Hz' & G1 & G2 & G3).
  exists z'. split_and!; congruence.
Qed.
#[local] Lemma moves_gathers j y p : tasks w' !! j = Some y → t_stage y = Gathers p →
  ∃ gp e, heap w' !! p = Some gp ∧ closed gp = false ∧ entries gp !! 0%nat = Some e ∧ owner e = j.
Proof.
  intros [[-> E]|[Hne Hj]]%moved_task_back Hs; [congruence|].
  destruct (i_gathers w Hw j y p Hj Hs) as (gp & e & Hp & Hcp & He & Hoe).
  destruct (moved_on p gp 0 e Hp He) as (gp' & e' & Hp' & He' & Hoe' & _ & Hwhere). exists gp', e'.
  split_and!; [done| |done|congruence]. destruct Hwhere as [(-> & -> & ->)|[_ ->]]; [|done].
  destruct Hcase as [(Hl & _)|(_ & Hsame & _)]; [|congruence]. exfalso. apply Hne.
  rewrite <- (leads_owner w i x gid g e Hw Hi Hp He Hl). by subst.
Qed.
#[local] Lemma moves_executes j y group c : tasks w' !! j = Some y → t_stage y = Executes group c →
  ∃ z, calls w' !! c = Some z ∧ c_answer z = None ∧ c_tasks z !! 0%nat = Some j ∧
    match group with
    | None => c_tasks z = [j]
    | Some p => ∃ gp, heap w' !! p = Some gp ∧ closed gp = true ∧ c_tasks z = owner <$> entries gp
    end.
Proof.
  intros [[-> E]|[Hne Hj]]%moved_task_back Hs; [congruence|].
  destruct (i_executes w Hw j y group c Hj Hs) as (z & Hz & Hzn & Hz0 & Hgr). exists z.
  split; [by eapply answered_other|]. split_and!; [done|done|]. destruct group as [p|]; [|done].
  destruct Hgr as (gp & Hp & Hcp & Hop). assert (∃ e, entries gp !! 0%nat = Some e) as [e He].
  { rewrite Hop, list_lookup_fmap in Hz0. destruct (entries gp !! 0%nat) as [e|]; [by exists e|done]. }
  destruct (moved_on p gp 0 e Hp He) as (gp' & e' & Hp' & _ & _ & Hown & Hwhere). exists gp'.
  split_and!; [done| |congruence]. destruct Hwhere as [(-> & -> & ->)|[_ ->]]; [|done].
  destruct moved_closed as [->| ->]; done.
Qed.
#[local] Lemma moves_waits j y p k : tasks w' !! j = Some y → t_stage y = Waits p k →
  ∃ gp e, heap w' !! p = Some gp ∧ entries gp !! k = Some e ∧ owner e = j.
Proof.
  intros [[-> E]|[Hne Hj]]%moved_task_back Hs; [congruence|].
  destruct (i_waits w Hw j y p k Hj Hs) as (gp & e & Hp & He & Hoe).
  destruct (moved_on p gp k e Hp He) as (gp' & e' & Hp' & He' & Hoe' & _). exists gp', e'. split_and!; congruence.
Qed.
(** The leader of a group is another task, unless it was [i] and the group is settled. *)
#[local] Lemma moves_leader p gp : heap w' !! p = Some gp → closed gp = false ∨ pending gp →
  ∃ j y, tasks w' !! j = Some y ∧ leads p gp (t_stage y).
Proof.
  intros Hp Hop. destruct (moved_back p gp Hp) as (gq & Hq & _ & _ & Hwhere).
  assert (∃ j y, tasks w !! j = Some y ∧ leads p gq (t_stage y) ∧ leads p gp (t_stage y) ∧
    (p = gid → ∃ k, t_stage x = Waits gid k)) as (j & y & Hj & Hlq & Hl & Hx).
  { destruct Hwhere as [(-> & -> & ->)|[Hne ->]].
    - destruct Hcase as [(_ & H1 & H2)|(Hk & H1 & H2)]; [by destruct Hop; [congruence|]|]. rewrite H1 in Hop.
      destruct (i_leader w Hw gid g Hg) as (j & y & Hj & Hl); [destruct Hop; auto|]. exists j, y.
      split_and!; try done. unfold leads. by rewrite H1.
    - destruct (i_leader w Hw p gq Hq Hop) as (j & y & Hj & Hl). by exists j, y. }
  exists j, y. split; [|done]. rewrite Ht, list_lookup_alter_ne; [done|]. intros <-. simplify_eq.
  assert (∀ k, t_stage x ≠ Waits gid k) as Hnw.
  { intros k Hk. unfold leads in Hlq. rewrite Hk in Hlq. destruct (closed gq); [by destruct Hlq|done]. }
  destruct Hcase as [(Hl' & _)|([k Hk] & _)]; [|by apply (Hnw k)]. assert (p = gid) as -> by by apply (leads_same _ _ gq g (t_stage x)).
  destruct (Hx eq_refl) as [k Hk]. by apply (Hnw k).
Qed.

Lemma moves_keep : inv w'.
Proof.
  split; [| | | |apply moves_call|apply moves_gathers|apply moves_executes|apply moves_waits|apply moves_leader| | |].
  - eapply sublist_NoDup; [apply (i_unique w Hw)|apply moves_sublist].
  - intros j Hj. rewrite Ht, length_staged. apply (i_below w Hw). eapply elem_of_sublist; [exact Hj|apply moves_sublist].
  - intros key p Hp%Htb. destruct (i_table w Hw key p Hp) as (gp & Hgp & Hk). destruct (decide (p = gid)) as [->|Hne].
    + exists g'. split; [apply moved_here|]. congruence.
    + exists gp. by rewrite moved_elsewhere.
  - apply moves_entry.
  - intros p gp Hp. destruct (moved_back p gp Hp) as (gq & Hq & _ & Hf & _). intros E. apply (i_nonempty w Hw p gq Hq).
    rewrite E in Hf. by destruct (entries gq).
  - intros p gp k e v Hp He Hv. destruct (moved_back p gp Hp) as (gq & Hq & _ & _ & [(-> & _ & ->)|[_ ->]]); [by eapply Hfut|].
    eapply answered_served; [done|]. by eapply (i_served w Hw).
  - intros j y v [[-> E]|[Hne Hj]]%moved_task_back Hs; [apply Ho; congruence|].
    eapply answered_served; [done|]. by eapply (i_ended w Hw).
Qed.
End moves.

Lemma inv_counted n w : inv w → inv (counted n w).
Proof. intros []. by split. Qed.
Lemma inv_timed_out w : inv w → inv (timed_out w).
Proof. intros []. by split. Qed.

Lemma await_settled i gid k w g e o :
  heap w !! gid = Some g → entries g !! k = Some e → future e = Some o →
  await_future i gid k w = to_stage i (Ended o) w.
Proof. intros Hg He Ho. unfold await_future. rewrite Hg. simpl. rewrite He. simpl. by rewrite Ho. Qed.
Lemma frame_set_future f (es : list _CoalesceEntry) : frame <$> (set_future f <$> es) = frame <$> es.
Proof. rewrite <- list_fmap_compose. by apply list_fmap_ext. Qed.
Lemma alter_insert {A} (l : list A) i x f : (i < length l)%nat → alter f i (<[i := x]> l) = <[i := f x]> l.
Proof.
  intros H. apply list_eq. intros j. destruct (decide (i = j)) as [<-|Hne].
  - by rewrite list_lookup_alter_eq, !list_lookup_insert_eq.
  - by rewrite list_lookup_alter_ne, !list_lookup_insert_ne.
Qed.
Lemma alter_as_insert {A} (l : list A) i x f : l !! i = Some x → alter f i l = <[i := f x]> l.
Proof. intros H. rewrite <- (alter_insert l i x f) by (by eapply lookup_lt_Some). by rewrite list_insert_id. Qed.
Lemma first_entry w gid g : inv w → heap w !! gid = Some g → ∃ e, entries g !! 0%nat = Some e.
Proof. intros Hw Hg. pose proof (i_nonempty w Hw gid g Hg). destruct (entries g) as [|e es]; [done|by exists e]. Qed.

(** A state with the same tasks and groups, where calls may have got an answer. *)
Definition same_but_calls (i : nat) (w w' : t) : Prop :=
  heap w' = heap w ∧ tasks w' = tasks w ∧ _groups w' = _groups w ∧ answered_by i (calls w) (calls w').

Lemma inv_abandon w w1 i x gid g exc :
  inv w → tasks w !! i = Some x → heap w !! gid = Some g → leads gid g (t_stage x) → same_but_calls i w w1 →
  inv (await_future i gid 0 (_abandon gid exc w1)).
Proof.
  intros Hw Hi Hg Hl (Eh & Et & Eg & Ec). destruct (first_entry w gid g Hw Hg) as [e0 He0].
  pose proof (leads_owner w i x gid g e0 Hw Hi Hg He0 Hl) as Hown.
  set (f := set_future (Raise exc)). set (g' := with_entries (f <$> entries g) (close g)).
  assert (heap (_abandon gid exc w1) = <[gid := g']> (heap w)) as Hheap.
  { unfold _abandon, update_entries, retire. rewrite Eh, Hg. cbn [heap set_groups set_heap].
    by rewrite alter_insert by (by eapply lookup_lt_Some). }
  assert (∀ k e v, entries g' !! k = Some e → future e = Some (Ok v) → served (calls w1) (owner e) v) as Hfut.
  { intros k e v He Hv. cbn [g' entries with_entries] in He. rewrite list_lookup_fmap in He.
    destruct (entries g !! k) as [e1|] eqn:E; [|done]. injection He as <-. simpl in Hv.
    destruct (future e1) as [o|] eqn:E1; [|done]. simpl in Hv. injection Hv as ->. eapply answered_served; [done|].
    by apply (i_served w Hw gid g k e1). }
  assert (entries g' !! 0%nat = Some (f e0)) as He0' by (cbn [g' entries with_entries]; by rewrite list_lookup_fmap, He0).
  erewrite await_settled; [|rewrite Hheap, list_lookup_insert_eq; [done|by eapply lookup_lt_Some]|done|done].
  eapply (moves_keep w _ i x gid g g' _ Hw Hi Hg); try done.
  - apply frame_set_future.
  - cbn [tasks to_stage set_tasks]. unfold _abandon, update_entries, retire. rewrite Eh, Hg. by rewrite <- Et.
  - unfold _abandon, update_entries, retire. by rewrite Eh, Hg.
  - unfold _abandon, update_entries, retire. rewrite Eh, Hg. cbn [_groups to_stage set_tasks set_heap set_groups]. intros key p.
    rewrite Eg. case_bool_decide; [by intros [_ Hp]%lookup_delete_Some|done].
  - left. split_and!; [done|done|]. intros (e & He & Hn). cbn [g' entries with_entries] in He.
    apply list_elem_of_fmap in He as (e1 & -> & _). done.
  - unfold _abandon, update_entries, retire. rewrite Eh, Hg. exact Hfut.
  - unfold _abandon, update_entries, retire. rewrite Eh, Hg. cbn [calls to_stage set_tasks set_heap set_groups]. intros v Hv.
    rewrite <- Hown. change (owner e0) with (owner (f e0)). eapply Hfut; [done|]. simpl. by rewrite Hv.
Qed.

Lemma inv_distribute w i x gid g c os :
  inv w → tasks w !! i = Some x → heap w !! gid = Some g → t_stage x = Executes (Some gid) c →
  length os = length (entries g) →
  inv (await_future i gid 0 (update_entries gid (zip_with (λ o e, set_future (Ok o) e) os) (set_answer c (Ok os) w))).
Proof.
  intros Hw Hi Hg Hx Hlen. destruct (first_entry w gid g Hw Hg) as [e0 He0].
  destruct (i_executes w Hw i x _ c Hi Hx) as (y & Hy & Hyn & Hy0 & g1 & Hg1 & Hcl & Hown). assert (g1 = g) as -> by congruence.
  assert (leads gid g (t_stage x)) as Hl by (unfold leads; rewrite Hcl; by exists c).
  pose proof (leads_owner w i x gid g e0 Hw Hi Hg He0 Hl) as Hown0.
  set (es := zip_with (λ o e, set_future (Ok o) e) os (entries g)). set (g' := with_entries es g).
  set (w1 := set_answer c (Ok os) w).
  assert (answered_by i (calls w) (calls w1)) as Hc by (right; by exists c, y, (Ok os)).
  assert (∀ k e, es !! k = Some e → ∃ o e1, os !! k = Some o ∧ entries g !! k = Some e1 ∧ e = set_future (Ok o) e1) as Hes.
  { intros k e He. unfold es in He. rewrite lookup_zip_with in He. destruct (os !! k) as [o|]; [|done]. simpl in He.
    destruct (entries g !! k) as [e1|]; [|done]. injection He as <-. by exists o, e1. }
  assert (∀ k e v, es !! k = Some e → future e = Some (Ok v) → served (calls w1) (owner e) v) as Hfut.
  { intros k e v He Hv. destruct (Hes k e He) as (o & e1 & Ho & He1 & ->). simpl in *. destruct (future e1) as [o1|] eqn:E1.
    - simpl in Hv. injection Hv as ->. eapply answered_served; [done|]. by apply (i_served w Hw gid g k e1).
    - simpl in Hv. injection Hv as <-. exists c, (answered (Ok os) y), os, k. split_and!; [|done| |done].
      + by rewrite list_lookup_alter_eq, Hy.
      + simpl. by rewrite Hown, list_lookup_fmap, He1. }
  assert (∃ e', es !! 0%nat = Some e' ∧ owner e' = i ∧ future e' ≠ None) as (e' & He' & Hoe' & Hfe').
  { destruct os as [|o os]; [by destruct (entries g)|]. exists (set_future (Ok o) e0). unfold es. rewrite lookup_zip_with, He0.
    split_and!; done. }
  assert (heap (update_entries gid (zip_with (λ o e, set_future (Ok o) e) os) w1) = <[gid := g']> (heap w)) as Hheap
    by (unfold update_entries; simpl; by rewrite (alter_as_insert _ gid g)).
  destruct (future e') as [o|] eqn:Ef; [|done].
  erewrite await_settled; [|rewrite Hheap, list_lookup_insert_eq; [done|by eapply lookup_lt_Some]|done|done].
  eapply (moves_keep w _ i x gid g g' _ Hw Hi Hg); try done.
  - apply list_eq. intros k. rewrite !list_lookup_fmap. cbn [g' entries with_entries]. unfold es. rewrite lookup_zip_with.
    destruct (os !! k) as [o1|] eqn:E; simpl; [by destruct (entries g !! k)|].
    apply lookup_ge_None in E. rewrite Hlen in E. apply lookup_ge_None in E. by rewrite E.
  - left. split_and!; [done|done|]. intros (e & [k Hk]%list_elem_of_lookup & Hn). destruct (Hes k e Hk) as (o1 & e1 & _ & _ & ->). done.
  - intros v ->. rewrite <- Hoe'. by eapply Hfut.
Qed.

Lemma staged_same i x (ts : list task) : ts !! i = Some x → alter (at_stage (t_stage x)) i ts = ts.
Proof. intros H. rewrite (alter_as_insert ts i x) by done. apply list_insert_id. rewrite H. by destruct x. Qed.

Lemma inv_delivered w i x gid k : inv w → tasks w !! i = Some x → t_stage x = Waits gid k → inv (await_future i gid k w).
Proof.
  intros Hw Hi Hx. destruct (i_waits w Hw i x gid k Hi Hx) as (g & e & Hg & He & Ho). destruct (future e) as [o|] eqn:Ef.
  - rewrite (await_settled i gid k w g e o) by done. eapply (moves_keep w _ i x gid g g o Hw Hi Hg); try done.
    + simpl. by rewrite list_insert_id.
    + by left.
    + right. split_and!; eauto.
    + intros k' e' v He' Hv. by eapply (i_served w Hw).
    + intros v ->. rewrite <- Ho. by eapply (i_served w Hw).
  - assert (await_future i gid k w = w) as ->; [|done]. unfold await_future. rewrite Hg. simpl. rewrite He. simpl. rewrite Ef.
    rewrite <- Hx. destruct w. unfold to_stage, set_tasks. simpl in *. by rewrite staged_same.
Qed.

Lemma inv_cancelled w i x gid k exc :
  inv w → tasks w !! i = Some x → t_stage x = Waits gid k →
  inv (await_future i gid k (update_entries gid (alter (set_future (Raise exc)) k) w)).
Proof.
  intros Hw Hi Hx. destruct (i_waits w Hw i x gid k Hi Hx) as (g & e & Hg & He & Ho).
  set (f := set_future (Raise exc)). set (g' := with_entries (<[k := f e]> (entries g)) g).
  assert (k < length (entries g))%nat as Hk by (by eapply lookup_lt_Some).
  assert (heap (update_entries gid (alter f k) w) = <[gid := g']> (heap w)) as Hheap.
  { unfold update_entries. simpl. rewrite (alter_as_insert _ gid g) by done. unfold g'. by rewrite (alter_as_insert _ k e). }
  assert (∀ k' e' v, entries g' !! k' = Some e' → future e' = Some (Ok v) → served (calls w) (owner e') v) as Hfut.
  { intros k' e' v He' Hv. cbn [g' entries with_entries] in He'. apply list_lookup_insert_Some in He' as [(<- & <- & _)|[_ He']];
      [|by eapply (i_served w Hw)]. simpl in Hv. destruct (future e) as [o|] eqn:Ef; [|done]. simpl in Hv. injection Hv as ->.
    by eapply (i_served w Hw gid g k e). }
  assert (entries g' !! k = Some (f e)) as Hfe by (cbn [g' entries with_entries]; by rewrite list_lookup_insert_eq).
  erewrite await_settled; [|rewrite Hheap, list_lookup_insert_eq; [done|by eapply lookup_lt_Some]|done|done].
  eapply (moves_keep w _ i x gid g g' _ Hw Hi Hg); try done.
  - cbn [g' entries with_entries]. rewrite list_fmap_insert. apply list_insert_id. by rewrite list_lookup_fmap, He.
  - by left.
  - right. split_and!; [by exists k|done|]. intros (e' & He' & Hn). exists e'. split; [|done].
    cbn [g' entries with_entries] in He'. apply list_elem_of_lookup in He' as [k' He'].
    apply list_lookup_insert_Some in He' as [(_ & <- & _)|[_ He']]; [done|]. by eapply list_elem_of_lookup_2.
  - intros v Hv. rewrite <- Ho. change (owner e) with (owner (f e)). eapply Hfut; [done|]. simpl. by rewrite Hv.
Qed.

(** A call for one slot is over. *)
Lemma inv_alone_ends w i x c r :
  inv w → tasks w !! i = Some x → t_stage x = Executes None c → inv (alone_ends i r (set_answer c r w)).
Proof.
  intros Hw Hi Hx. destruct (i_executes w Hw i x None c Hi Hx) as (y & Hy & Hyn & Hy0 & Hy1).
  set (o := match r with Ok (o :: _) => Ok o | Ok [] => Raise index_error | Raise exc => Raise exc end).
  assert (answered_by i (calls w) (alter (answered r) c (calls w))) as Hc by (right; by exists c, y, r).
  assert (∀ v, o = Ok v → served (alter (answered r) c (calls w)) i v) as Ho.
  { intros v Hv. destruct r as [[|v' os]|exc]; try done. injection Hv as <-.
    exists c, (answered (Ok (v' :: os)) y), (v' :: os), 0%nat. by rewrite list_lookup_alter_eq, Hy. }
  assert (inv (to_stage i (Ended o) (set_answer c r w))) as H; [|by destruct r as [os|exc]; [apply (inv_counted 1) in H|]].
  assert (∀ j y', alter (at_stage (Ended o)) i (tasks w) !! j = Some y' → (j = i ∧ t_stage y' = Ended o) ∨ (j ≠ i ∧ tasks w !! j = Some y')) as Hback
    by (intros j y' [(-> & z & _ & ->)|H]%staged_case; auto).
  split; cbn [heap tasks calls _groups to_stage set_answer set_tasks set_calls].
  - rewrite (answered_launched _ _ _ Hc). apply (i_unique w Hw).
  - rewrite (answered_launched _ _ _ Hc), length_staged. apply (i_below w Hw).
  - apply (i_table w Hw).
  - intros p gp k e Hp He. destruct (i_entry w Hw p gp k e Hp He) as (z & Hz & H1 & H2 & H3).
    destruct (staged_lookup i (Ended o) _ _ z Hz) as (z' & Hz' & E1 & E2 & E3). exists z'. split_and!; congruence.
  - intros d y' Hy'. destruct (answered_lookup _ _ _ _ _ Hc Hy') as (y0 & Hy0' & E1 & E2 & E3).
    destruct (i_call w Hw d y0 Hy0') as (key & H). exists key. intros k j Hj. rewrite E1 in Hj. rewrite E2, E3.
    destruct (H k j Hj) as (z & Hz & F1 & F2 & F3). destruct (staged_lookup i (Ended o) _ _ z Hz) as (z' & Hz' & G1 & G2 & G3).
    exists z'. split_and!; congruence.
  - intros j y' p [[-> E]|[Hne Hj]]%Hback Hs; [congruence|by apply (i_gathers w Hw j y')].
  - intros j y' group d [[-> E]|[Hne Hj]]%Hback Hs; [congruence|].
    destruct (i_executes w Hw j y' group d Hj Hs) as (z & Hz & Hzn & Hz0 & Hgr). exists z.
    split; [by eapply answered_other|done].
  - intros j y' p k [[-> E]|[Hne Hj]]%Hback Hs; [congruence|by apply (i_waits w Hw j y')].
  - intros p gp Hp Hop. destruct (i_leader w Hw p gp Hp Hop) as (j & z & Hj & Hl). exists j, z. split; [|done].
    rewrite list_lookup_alter_ne; [done|]. intros <-. assert (z = x) as -> by congruence. unfold leads in Hl. rewrite Hx in Hl.
    destruct (closed gp); [by destruct Hl|done].
  - apply (i_nonempty w Hw).
  - intros p gp k e v Hp He Hv. eapply answered_served; [done|]. by apply (i_served w Hw p gp k e).
  - intros j y' v [[-> E]|[Hne Hj]]%Hback Hs; [apply Ho; congruence|]. eapply answered_served; [done|]. by eapply (i_ended w Hw).
Qed.

Lemma launched_snoc cs y : launched (cs ++ [y]) = launched cs ++ c_tasks y.
Proof. unfold launched. rewrite fmap_app, concat_app. simpl. by rewrite app_nil_r. Qed.
Lemma served_snoc cs y i o : served cs i o → served (cs ++ [y]) i o.
Proof. intros (c & x & os & k & H1 & H). exists c, x, os, k. split; [|done]. by apply lookup_app_l_Some. Qed.
Lemma lookup_snoc_case {A} (l : list A) y i x : (l ++ [y]) !! i = Some x → l !! i = Some x ∨ (i = length l ∧ x = y).
Proof.
  intros [H|[Hi H]]%lookup_app_Some; [by left|right]. apply list_lookup_singleton_Some in H as [H <-]. split; [lia|done].
Qed.

(** The leader fires its group. *)
Lemma inv_fire w i x gid : inv w → tasks w !! i = Some x → t_stage x = Gathers gid → inv (fire_begins i gid w).
Proof.
  intros Hw Hi Hx. destruct (i_gathers w Hw i x gid Hi Hx) as (g & e & Hg & Hcl & He & Ho).
  set (y := Call (owner <$> entries g) (slot_index <$> entries g) (block <$> entries g) None).
  set (s := Executes (Some gid) (length (calls w))). set (h := <[gid := close g]> (heap w)).
  set (tb := if bool_decide (_groups w !! group_key g = Some gid) then delete (group_key g) (_groups w) else _groups w).
  set (w' := to_stage i s (set_calls (calls w ++ [y]) (set_groups tb h w))).
  assert (inv w') as H.
  2: { unfold fire_begins, retire. rewrite Hg. by apply (inv_counted (zlen (entries g))) in H. }
  pose proof (open_owners_move (heap w) gid g (close g) Hg Hcl eq_refl) as Hperm. fold h in Hperm.
  assert (launched (calls w ++ [y]) ++ open_owners h ≡ₚ launched (calls w) ++ open_owners (heap w)) as Hall.
  { rewrite launched_snoc, Hperm. simpl. solve_Permutation. }
  assert (∀ p gp, h !! p = Some gp → ∃ gq, heap w !! p = Some gq ∧ entries gp = entries gq ∧ group_key gp = group_key gq ∧
    (p = gid ∧ gq = g ∧ gp = close g ∨ p ≠ gid ∧ gp = gq)) as Hback.
  { intros p gp [(<- & <- & _)|[Hne H]]%list_lookup_insert_Some; [exists g|exists gp]; split_and!; auto. }
  assert (∀ p gq, heap w !! p = Some gq → ∃ gp, h !! p = Some gp ∧ entries gp = entries gq ∧ group_key gp = group_key gq ∧
    (closed gq = true → closed gp = true) ∧ (p ≠ gid → gp = gq)) as Hon.
  { intros p gq Hp. destruct (decide (p = gid)) as [->|Hne].
    - assert (gq = g) as -> by congruence. exists (close g). unfold h.
      rewrite list_lookup_insert_eq by (by eapply lookup_lt_Some). split_and!; done.
    - exists gq. unfold h. by rewrite list_lookup_insert_ne. }
  assert (∀ j y', alter (at_stage s) i (tasks w) !! j = Some y' → (j = i ∧ t_stage y' = s) ∨ (j ≠ i ∧ tasks w !! j = Some y')) as Htask
    by (intros j y' [(-> & z & _ & ->)|H]%staged_case; auto).
  split; cbn [heap tasks calls _groups w' to_stage set_tasks set_calls set_groups].
  - rewrite Hall. apply (i_unique w Hw).
  - intros j Hj. rewrite Hall in Hj. rewrite length_staged. by apply (i_below w Hw).
  - intros key p Hp. assert (_groups w !! key = Some p) as Hp' by (unfold tb in Hp; case_bool_decide; [by apply lookup_delete_Some in Hp as [_ Hp]|done]).
    destruct (i_table w Hw key p Hp') as (gq & Hq & Hk). destruct (Hon p gq Hq) as (gp & Hgp & _ & Hk' & _). exists gp. split; congruence.
  - intros p gp k e1 Hp He1. destruct (Hback p gp Hp) as (gq & Hq & Ee & Ek & _). rewrite Ee in He1.
    destruct (i_entry w Hw p gq k e1 Hq He1) as (z & Hz & H1 & H2 & H3). destruct (staged_lookup i s _ _ z Hz) as (z' & Hz' & E1 & E2 & E3).
    exists z'. split_and!; congruence.
  - intros c y' [Hy'|[-> ->]]%lookup_snoc_case.
    + destruct (i_call w Hw c y' Hy') as (key & H). exists key. intros k j Hj.
      destruct (H k j Hj) as (z & Hz & F1 & F2 & F3). destruct (staged_lookup i s _ _ z Hz) as (z' & Hz' & G1 & G2 & G3).
      exists z'. split_and!; congruence.
    + exists (group_key g). intros k j Hj. simpl in Hj. rewrite list_lookup_fmap in Hj. destruct (entries g !! k) as [e1|] eqn:He1; [|done].
      injection Hj as <-. destruct (i_entry w Hw gid g k e1 Hg He1) as (z & Hz & H1 & H2 & H3).
      destruct (staged_lookup i s _ _ z Hz) as (z' & Hz' & E1 & E2 & E3). exists z'. cbn [c_slots c_blocks y].
      rewrite !list_lookup_fmap, He1. cbn [fmap option_fmap option_map]. split_and!; congruence.
  - intros j y' p [[-> E]|[Hne Hj]]%Htask Hs; [by rewrite E in Hs|]. destruct (i_gathers w Hw j y' p Hj Hs) as (gp & e1 & Hp & Hcp & He1 & Ho1).
    destruct (Hon p gp Hp) as (gp' & Hp' & Ee & _ & _ & Hsame). exists gp', e1. assert (p ≠ gid) as Hpne.
    { intros ->. assert (gp = g) as -> by congruence. assert (e1 = e) as -> by congruence. congruence. }
    rewrite (Hsame Hpne) in *. done.
  - intros j y' group c [[-> E]|[Hne Hj]]%Htask Hs.
    + rewrite E in Hs. injection Hs as <- <-. exists y. split; [by apply list_lookup_middle|]. split_and!; [done|by (simpl; rewrite list_lookup_fmap, He; simpl; rewrite Ho)|].
      exists (close g). split_and!; [|done|done]. unfold h. by rewrite list_lookup_insert_eq by (by eapply lookup_lt_Some).
    + destruct (i_executes w Hw j y' group c Hj Hs) as (z & Hz & Hzn & Hz0 & Hgr). exists z.
      split; [by apply lookup_app_l_Some|]. split_and!; [done|done|]. destruct group as [p|]; [|done]. destruct Hgr as (gp & Hp & Hcp & Hop).
      destruct (Hon p gp Hp) as (gp' & Hp' & Ee & _ & Hcl' & _). exists gp'. split_and!; auto. congruence.
  - intros j y' p k [[-> E]|[Hne Hj]]%Htask Hs; [by rewrite E in Hs|]. destruct (i_waits w Hw j y' p k Hj Hs) as (gp & e1 & Hp & He1 & Ho1).
    destruct (Hon p gp Hp) as (gp' & Hp' & Ee & _). exists gp', e1. split_and!; congruence.
  - intros p gp Hp Hop. destruct (Hback p gp Hp) as (gq & Hq & Ee & _ & [(-> & -> & ->)|[Hpne ->]]).
    + exists i, (at_stage s x). rewrite list_lookup_alter_eq, Hi. split; [done|]. by exists (length (calls w)).
    + destruct (i_leader w Hw p gq Hq Hop) as (j & z & Hj & Hl). exists j, z. split; [|done].
      rewrite list_lookup_alter_ne; [done|]. intros <-. assert (z = x) as -> by congruence. unfold leads in Hl. rewrite Hx in Hl.
      destruct (closed gq); [by destruct Hl|congruence].
  - intros p gp Hp. destruct (Hback p gp Hp) as (gq & Hq & -> & _). by apply (i_nonempty w Hw p gq).
  - intros p gp k e1 v Hp He1 Hv. destruct (Hback p gp Hp) as (gq & Hq & Ee & _). rewrite Ee in He1. apply served_snoc.
    by apply (i_served w Hw p gq k e1).
  - intros j y' v [[-> E]|[Hne Hj]]%Htask Hs; [by rewrite E in Hs|]. apply served_snoc. by eapply (i_ended w Hw).
Qed.

(** A task joins a group, or opens one. *)
Section joins.
Context (w w' : t) (key : string * Z) (slot : Z) (b : B) (gid : nat) (g' : _CoalesceGroup) (before : list _CoalesceEntry).
Let i := length (tasks w).
Let e := Entry slot b None i.
Context (Hw : inv w) (Hg' : heap w' !! gid = Some g') (Hoth : ∀ p, p ≠ gid → heap w' !! p = heap w !! p)
  (Hbefore : (∃ g, heap w !! gid = Some g ∧ closed g = false ∧ entries g = before ∧ before ≠ [] ∧ group_key g = key) ∨
    heap w !! gid = None ∧ before = [])
  (Hentries : entries g' = before ++ [e]) (Hopen : closed g' = false) (Hkey : group_key g' = key)
  (Howners : open_owners (heap w') ≡ₚ i :: open_owners (heap w))
  (Ht : tasks w' = tasks w ++ [Task key slot b (if before is [] then Gathers gid else Waits gid (length before))])
  (Hc : calls w' = calls w)
  (Htb : ∀ k p, _groups w' !! k = Some p → (k = key ∧ p = gid) ∨ _groups w !! k = Some p).

#[local] Lemma joined_task_old j y : tasks w !! j = Some y → tasks w' !! j = Some y.
Proof. rewrite Ht. apply lookup_app_l_Some. Qed.
#[local] Lemma joined_task_back j y : tasks w' !! j = Some y → tasks w !! j = Some y ∨
  (j = i ∧ y = Task key slot b (if before is [] then Gathers gid else Waits gid (length before))).
Proof. rewrite Ht. apply lookup_snoc_case. Qed.
(** A group that was there has the entries it had, and may have the new one. *)
#[local] Lemma joined_on p gp k e1 : heap w !! p = Some gp → entries gp !! k = Some e1 →
  ∃ gp', heap w' !! p = Some gp' ∧ entries gp' !! k = Some e1 ∧ closed gp' = closed gp ∧ (closed gp = true → gp' = gp).
Proof.
  intros Hp He1. destruct (decide (p = gid)) as [->|Hne]; [|exists gp; rewrite Hoth by done; by split_and!].
  destruct Hbefore as [(g & Hg & Hcl & Hes & _)|[Hnone _]]; [|congruence]. assert (gp = g) as -> by congruence.
  exists g'. split_and!; [done| |congruence|congruence]. rewrite Hentries. apply lookup_app_l_Some. congruence.
Qed.
#[local] Lemma joined_back p gp k e1 : heap w' !! p = Some gp → entries gp !! k = Some e1 →
  (p = gid ∧ gp = g' ∧ e1 = e ∧ k = length before) ∨ (∃ gq, heap w !! p = Some gq ∧ entries gq !! k = Some e1 ∧ group_key gp = group_key gq).
Proof.
  intros Hp He1. destruct (decide (p = gid)) as [->|Hne]; [|right; exists gp; rewrite <- Hoth by done; by split_and!].
  assert (gp = g') as -> by congruence. rewrite Hentries in He1. apply lookup_snoc_case in He1 as [He1|[-> ->]]; [right|by left].
  destruct Hbefore as [(g & Hg & Hcl & Hes & _ & Hk)|[_ ->]]; [|done]. exists g. split_and!; congruence.
Qed.
#[local] Lemma joined_leader p gp : heap w' !! p = Some gp → closed gp = false ∨ pending gp →
  ∃ j x, tasks w' !! j = Some x ∧ leads p gp (t_stage x).
Proof.
  intros Hp Hop. destruct (decide (p = gid)) as [->|Hne].
  - assert (gp = g') as -> by congruence. destruct Hbefore as [(g & Hg & Hcl & Hes & _)|[_ Hes]].
    + destruct (i_leader w Hw gid g Hg (or_introl Hcl)) as (j & x & Hj & Hl). exists j, x. split; [by apply joined_task_old|].
      unfold leads in *. rewrite Hcl in Hl. by rewrite Hopen.
    + exists i, (Task key slot b (Gathers gid)). rewrite Ht, Hes. split; [by apply list_lookup_middle|]. unfold leads. by rewrite Hopen.
  - rewrite Hoth in Hp by done. destruct (i_leader w Hw p gp Hp Hop) as (j & x & Hj & Hl). exists j, x.
    split; [by apply joined_task_old|done].
Qed.
#[local] Lemma joined_waits j y p k : tasks w' !! j = Some y → t_stage y = Waits p k →
  ∃ gp e1, heap w' !! p = Some gp ∧ entries gp !! k = Some e1 ∧ owner e1 = j.
Proof.
  intros [Hj|[-> ->]]%joined_task_back Hs.
  - destruct (i_waits w Hw j y p k Hj Hs) as (gp & e1 & Hp & He1 & Ho). destruct (joined_on p gp k e1 Hp He1) as (gp' & H1 & H2 & _).
    by exists gp', e1.
  - simpl in Hs. assert (p = gid ∧ k = length before) as [-> ->] by (destruct before; [done|by injection Hs as <- <-]).
    exists g', e. split_and!; [done| |done]. rewrite Hentries. by apply list_lookup_middle.
Qed.
#[local] Lemma joined_gathers j y p : tasks w' !! j = Some y → t_stage y = Gathers p →
  ∃ gp e1, heap w' !! p = Some gp ∧ closed gp = false ∧ entries gp !! 0%nat = Some e1 ∧ owner e1 = j.
Proof.
  intros [Hj|[-> ->]]%joined_task_back Hs.
  - destruct (i_gathers w Hw j y p Hj Hs) as (gp & e1 & Hp & Hcl & He1 & Ho). destruct (joined_on p gp 0 e1 Hp He1) as (gp' & H1 & H2 & H3 & _).
    exists gp', e1. split_and!; congruence.
  - simpl in Hs. destruct before as [|? ?] eqn:E; [|done]. injection Hs as <-. exists g', e. rewrite Hentries. by split_and!.
Qed.

Lemma inv_joins : inv w'.
Proof.
  assert (i ∉ launched (calls w) ++ open_owners (heap w)) as Hfresh by (intros H%(i_below w Hw); unfold i in H; lia).
  split; [| | | | |apply joined_gathers| |apply joined_waits|apply joined_leader| | |]; rewrite ?Hc.
  - rewrite Howners, <- Permutation_middle. apply NoDup_cons. split; [done|apply (i_unique w Hw)].
  - intros j Hj. rewrite Howners, <- Permutation_middle in Hj. rewrite Ht, length_app. simpl. apply elem_of_cons in Hj as [->|Hj]; [unfold i; lia|].
    apply (i_below w Hw) in Hj. lia.
  - intros k p [[-> ->]|Hp]%Htb; [by exists g'|]. destruct (i_table w Hw k p Hp) as (gp & Hgp & Hk).
    destruct (decide (p = gid)) as [->|Hne]; [|exists gp; by rewrite Hoth]. exists g'. split; [done|].
    destruct Hbefore as [(g & Hg & _ & _ & _ & Hk')|[Hnone _]]; congruence.
  - intros p gp k e1 Hp He1. destruct (joined_back p gp k e1 Hp He1) as [(-> & -> & -> & _)|(gq & Hq & Heq & Hk)].
    + exists (Task key slot b (if before is [] then Gathers gid else Waits gid (length before))).
      rewrite Ht. split; [by apply list_lookup_middle|done].
    + destruct (i_entry w Hw p gq k e1 Hq Heq) as (y & Hy & H1). exists y. rewrite Hk. split; [by apply joined_task_old|done].
  - intros c y Hy. destruct (i_call w Hw c y Hy) as (k0 & H). exists k0. intros k j Hj. destruct (H k j Hj) as (z & Hz & H1).
    exists z. split; [by apply joined_task_old|done].
  - intros j y group c [Hj|[-> ->]]%joined_task_back Hs; [|simpl in Hs; by destruct before].
    destruct (i_executes w Hw j y group c Hj Hs) as (z & Hz & Hzn & Hz0 & Hgr). exists z. split_and!; try done.
    destruct group as [p|]; [|done]. destruct Hgr as (gp & Hp & Hcp & Hop). destruct (first_entry w p gp Hw Hp) as [e1 He1].
    destruct (joined_on p gp 0 e1 Hp He1) as (gp' & H1 & _ & _ & H2). rewrite (H2 Hcp) in H1. by exists gp.
  - intros p gp Hp. destruct (decide (p = gid)) as [->|Hne].
    + assert (gp = g') as -> by congruence. rewrite Hentries. by destruct before.
    + rewrite Hoth in Hp by done. by apply (i_nonempty w Hw p gp).
  - intros p gp k e1 v Hp He1 Hv. destruct (joined_back p gp k e1 Hp He1) as [(_ & _ & -> & _)|(gq & Hq & Heq & _)]; [done|].
    by apply (i_served w Hw p gq k e1).
  - intros j y v [Hj|[-> ->]]%joined_task_back Hs; [by eapply (i_ended w Hw)|]. simpl in Hs. by destruct before.
Qed.
End joins.

Lemma inv_submit_alone w key slot b : inv w → inv (submit_alone key slot b w).
Proof.
  intros Hw. set (i := length (tasks w)). set (c := length (calls w)). set (x := Task key slot b (Executes None c)).
  assert (i ∉ launched (calls w) ++ open_owners (heap w)) as Hfresh by (intros H%(i_below w Hw); unfold i in H; lia).
  assert (∀ j y, (tasks w ++ [x]) !! j = Some y → tasks w !! j = Some y ∨ (j = i ∧ y = x)) as Hback
    by (intros j y; apply lookup_snoc_case).
  assert (∀ j y, tasks w !! j = Some y → (tasks w ++ [x]) !! j = Some y) as Hon by (intros j y H; by apply lookup_app_l_Some).
  assert (launched (calls w ++ [Call [i] [slot] [b] None]) ++ open_owners (heap w) ≡ₚ i :: (launched (calls w) ++ open_owners (heap w))) as Hall.
  { rewrite launched_snoc. simpl. solve_Permutation. }
  split; cbn [heap tasks calls _groups submit_alone set_tasks set_calls]; fold i c x.
  - rewrite Hall. apply NoDup_cons. split; [done|apply (i_unique w Hw)].
  - intros j Hj. rewrite Hall in Hj. rewrite length_app. simpl. apply elem_of_cons in Hj as [->|Hj]; [unfold i; lia|].
    apply (i_below w Hw) in Hj. lia.
  - apply (i_table w Hw).
  - intros p gp k e Hp He. destruct (i_entry w Hw p gp k e Hp He) as (y & Hy & H). eauto.
  - intros d y [Hy|[-> ->]]%lookup_snoc_case.
    + destruct (i_call w Hw d y Hy) as (k0 & H). exists k0. intros k j Hj. destruct (H k j Hj) as (z & Hz & H1). eauto.
    + exists key. intros k j Hj. simpl in Hj. apply list_lookup_singleton_Some in Hj as [-> <-]. exists x.
      split; [by apply list_lookup_middle|done].
  - intros j y p [Hj|[-> ->]]%Hback Hs; [|done]. by apply (i_gathers w Hw j y).
  - intros j y group d [Hj|[-> ->]]%Hback Hs.
    + destruct (i_executes w Hw j y group d Hj Hs) as (z & Hz & H). exists z. split; [by apply lookup_app_l_Some|done].
    + injection Hs as <- <-. exists (Call [i] [slot] [b] None). split; [by apply list_lookup_middle|done].
  - intros j y p k [Hj|[-> ->]]%Hback Hs; [|done]. by apply (i_waits w Hw j y).
  - intros p gp Hp Hop. destruct (i_leader w Hw p gp Hp Hop) as (j & y & Hj & Hl). eauto.
  - apply (i_nonempty w Hw).
  - intros p gp k e v Hp He Hv. apply served_snoc. by apply (i_served w Hw p gp k e).
  - intros j y v [Hj|[-> ->]]%Hback Hs; [|done]. apply served_snoc. by apply (i_ended w Hw j y).
Qed.

Lemma staged_twice i s s' (ts : list task) : alter (at_stage s) i (alter (at_stage s') i ts) = alter (at_stage s) i ts.
Proof.
  apply list_eq. intros j. destruct (decide (i = j)) as [<-|Hne].
  - rewrite !list_lookup_alter_eq. by destruct (ts !! i).
  - by rewrite !list_lookup_alter_ne.
Qed.
Lemma fire_staged i gid s w g :
  heap w !! gid = Some g → fire_begins i gid (to_stage i s w) = fire_begins i gid w.
Proof.
  intros Hg. unfold fire_begins, retire, to_stage, set_tasks, set_calls, counted. simpl. rewrite Hg. simpl.
  by rewrite staged_twice.
Qed.
Lemma staged_snoc (ts : list task) x s : alter (at_stage s) (length ts) (ts ++ [x]) = ts ++ [at_stage s x].
Proof.
  rewrite (alter_as_insert _ _ x) by by apply list_lookup_middle.
  by rewrite insert_app_r_alt, Nat.sub_diag by lia.
Qed.

Lemma open_owners_snoc h g : open_owners (h ++ [g]) = open_owners h ++ (if closed g then [] else owner <$> entries g).
Proof. unfold open_owners. rewrite fmap_app, concat_app. simpl. by rewrite app_nil_r. Qed.

(** What [group_for] returns: an open group of the key with members, or a new one. *)
Lemma group_for_spec key n w :
  inv w → let '(gid, w0) := group_for key n w in
  tasks w0 = tasks w ∧ calls w0 = calls w ∧ ∃ g, heap w0 !! gid = Some g ∧ closed g = false ∧ group_key g = key ∧
    ((w0 = w ∧ entries g ≠ []) ∨
     (gid = length (heap w) ∧ heap w0 = heap w ++ [g] ∧ entries g = [] ∧ _groups w0 = <[key := gid]> (_groups w))).
Proof.
  intros Hw. set (g0 := Group [] false false n key).
  assert (∃ g, (heap w ++ [g0]) !! length (heap w) = Some g ∧ closed g = false ∧ group_key g = key ∧
    ((set_groups (<[key := length (heap w)]> (_groups w)) (heap w ++ [g0]) w = w ∧ entries g ≠ []) ∨
     (length (heap w) = length (heap w) ∧ heap w ++ [g0] = heap w ++ [g] ∧ entries g = [] ∧
      <[key := length (heap w)]> (_groups w) = <[key := length (heap w)]> (_groups w)))) as Hnew.
  { exists g0. split; [by apply list_lookup_middle|]. split_and!; [done|done|]. right. by split_and!. }
  unfold group_for. destruct (_groups w !! key) as [gid|] eqn:Hk; [|by split_and!].
  destruct (heap w !! gid) as [g|] eqn:Hg; [|by split_and!]. destruct (closed g) eqn:Hc; [by split_and!|].
  split_and!; [done|done|]. exists g. destruct (i_table w Hw key gid Hk) as (g1 & Hg1 & Hk1). simplify_eq.
  split_and!; try done. left. split; [done|]. by apply (i_nonempty w Hw gid).
Qed.

Lemma inv_submit w pool slot b len n : inv w → inv (submit pool slot b len n w).
Proof.
  intros Hw. unfold submit. destruct (negb enabled || (n <=? 1)); [by apply inv_submit_alone|].
  pose proof (group_for_spec (pool, len) n w Hw) as Hfor. destruct (group_for (pool, len) n w) as [gid w0].
  destruct Hfor as (Ht & Hcs & g & Hg & Hcl & Hk & Hcase). rewrite Hg, Ht. set (i := length (tasks w)).
  set (e := Entry slot b None i). set (g' := join e n g).
  set (st := match entries g with [] => Gathers gid | _ => Waits gid (length (entries g)) end).
  set (w2 := set_tasks (tasks w ++ [Task (pool, len) slot b (Waits gid (length (entries g)))]) (set_heap (<[gid := g']> (heap w0)) w0)).
  assert (gid < length (heap w0))%nat as Hlt by (by eapply lookup_lt_Some).
  assert (inv (to_stage i st w2)) as H2.
  { eapply (inv_joins w _ (pool, len) slot b gid g' (entries g) Hw); try done.
    - simpl. by rewrite list_lookup_insert_eq.
    - intros p Hp. simpl. rewrite list_lookup_insert_ne by done. destruct Hcase as [[-> _]|(-> & -> & _)]; [done|].
      destruct (decide (p < length (heap w))%nat); [by rewrite lookup_app_l|].
      rewrite !(proj2 (lookup_ge_None _ _)); [done|lia|rewrite length_app; simpl; lia].
    - destruct Hcase as [[-> Hne]|(-> & Hh & He & _)]; [left; by exists g|right]. split; [|done].
      apply lookup_ge_None. lia.
    - cbn [heap to_stage set_tasks set_heap set_groups w2]. rewrite (open_owners_join (heap w0) gid g g' e) by done. simpl. f_equiv.
      destruct Hcase as [[-> _]|(_ & -> & He & _)]; [done|]. rewrite open_owners_snoc, He. simpl. by destruct (closed g); rewrite app_nil_r.
    - cbn [tasks to_stage set_tasks w2]. unfold i. rewrite staged_snoc. unfold at_stage, st. simpl. by destruct (entries g).
    - intros k p. cbn [_groups to_stage set_tasks set_heap set_groups w2]. destruct Hcase as [[-> _]|(_ & _ & _ & ->)]; [by right|].
      intros [[<- <-]|[_ H]]%lookup_insert_Some; auto. }
  unfold st in H2. destruct (entries g) as [|e1 es] eqn:He.
  - destruct (negb (ready g') && accumulates); [done|].
    assert (heap w2 !! gid = Some g') as Hg2 by (simpl; by rewrite list_lookup_insert_eq).
    rewrite <- (fire_staged i gid (Gathers gid) w2 g' Hg2).
    apply (inv_fire _ i (Task (pool, len) slot b (Gathers gid))); [done| |done].
    simpl. unfold i. rewrite staged_snoc. by apply list_lookup_middle.
  - assert (to_stage i (Waits gid (length (e1 :: es))) w2 = w2) as Hsame; [|by rewrite Hsame in H2].
    unfold to_stage, w2, set_tasks. simpl. unfold i. by rewrite staged_snoc.
Qed.

Lemma exec_keeps e w : inv w → inv (exec e w).
Proof.
  intros Hw. destruct e as [pool slot b len n|i|i|i r|i|i]; simpl; [by apply inv_submit|..];
    destruct (tasks w !! i) as [x|] eqn:Hi; simpl; try done; destruct (t_stage x) as [gid|[gid|] c|gid k|o] eqn:Hx; try done.
  - destruct (default false _); [by eapply inv_fire|done].
  - eapply inv_fire; [by apply inv_timed_out|done|done].
  - destruct (i_executes w Hw i x _ c Hi Hx) as (y & Hy & Hyn & Hy0 & g & Hg & Hcl & _).
    assert (same_but_calls i w (set_answer c r w)) as Hsame by (split_and!; try done; right; by exists c, y, r).
    assert (leads gid g (t_stage x)) as Hl by (unfold leads; rewrite Hcl, Hx; by exists c).
    unfold fire_ends. cbn [heap set_answer set_calls]. rewrite Hg.
    destruct r as [os|exc]; [|by eapply inv_abandon]. destruct (Nat.eqb_spec (length os) (length (entries g))); [|by eapply inv_abandon].
    by eapply inv_distribute.
  - by eapply inv_alone_ends.
  - by eapply inv_delivered.
  - destruct (i_gathers w Hw i x gid Hi Hx) as (g & e & Hg & Hcl & _). eapply inv_abandon; [done..| |].
    + unfold leads. by rewrite Hcl.
    + split_and!; try done. by left.
  - by eapply inv_cancelled.
Qed.
Lemma start_keeps : inv start.
Proof.
  split; try done.
  - constructor.
  - intros i H. by apply elem_of_nil in H.
Qed.
Lemma run_keeps es : inv (run es start).
Proof.
  unfold run. generalize start_keeps. generalize start. induction es as [|e es IH]; intros w Hw; [done|]. by apply IH, exec_keeps.
Qed.

(** A group without a leader at work is settled: its waiters get their answers. *)
Lemma delivered_ends w i x gid k g :
  inv w → tasks w !! i = Some x → t_stage x = Waits gid k → heap w !! gid = Some g → ¬ pending g →
  ∃ o, t_stage <$> tasks (exec (Delivered i) w) !! i = Some (Ended o).
Proof.
  intros Hw Hi Hx Hg Hn. destruct (i_waits w Hw i x gid k Hi Hx) as (g1 & e & Hg1 & He & _). simplify_eq.
  destruct (future e) as [o|] eqn:Ef; [|exfalso; apply Hn; exists e; split; [by eapply list_elem_of_lookup_2|done]].
  exists o. simpl. rewrite Hi. simpl. rewrite Hx, (await_settled i gid k w g e o) by done. simpl.
  by rewrite list_lookup_alter_eq, Hi.
Qed.

Lemma fire_ends_tasks gid r w : tasks (fire_ends gid r w) = tasks w.
Proof.
  unfold fire_ends, _abandon, update_entries, retire. destruct (heap w !! gid); [|done].
  by destruct r; [destruct (_ =? _)%nat|].
Qed.
Lemma await_future_tasks i gid k w : ∃ s, tasks (await_future i gid k w) = alter (at_stage s) i (tasks w).
Proof. unfold await_future. destruct (e ← _; future e) as [o|]; by eexists. Qed.

(** When the call of a leader is back, in whatever way, nobody waits in its group any more. *)
Lemma returned_settles w j r gid c y :
  inv w → tasks w !! j = Some y → t_stage y = Executes (Some gid) c →
  let w' := exec (Returned j r) w in
  (∃ o, t_stage <$> tasks w' !! j = Some (Ended o)) ∧ ∀ g, heap w' !! gid = Some g → ¬ pending g.
Proof.
  intros Hw Hj Hy w'. pose proof (exec_keeps (Returned j r) w Hw) as Hw'. fold w' in Hw'.
  assert (∃ s, w' = await_future j gid 0 (fire_ends gid r (set_answer c r w)) ∧ tasks w' = alter (at_stage s) j (tasks w)) as (s & E & Ht).
  { unfold w'. simpl. rewrite Hj. simpl. rewrite Hy. destruct (await_future_tasks j gid 0 (fire_ends gid r (set_answer c r w))) as [s Hs].
    exists s. by rewrite Hs, fire_ends_tasks. }
  destruct (i_executes w Hw j y _ c Hj Hy) as (z & _ & _ & _ & g0 & Hg0 & Hcl0 & _). destruct (first_entry w gid g0 Hw Hg0) as [e0 He0].
  assert (∀ g, heap w' !! gid = Some g → (∀ c', s ≠ Executes (Some gid) c') → s ≠ Gathers gid → ¬ pending g) as Hsettled.
  { intros g Hg Hs1 Hs2 Hp. destruct (i_leader w' Hw' gid g Hg (or_intror Hp)) as (j' & y' & Hj' & Hl).
    rewrite Ht in Hj'. apply staged_case in Hj' as [(-> & x & _ & ->)|[Hne Hj']].
    - unfold leads in Hl. simpl in Hl. destruct (closed g); [by destruct Hl as [c' ?%Hs1]|done].
    - apply Hne. assert (leads gid g0 (t_stage y)) as Hly by (unfold leads; rewrite Hcl0; eauto).
      assert (leads gid g0 (t_stage y')) as Hly'.
      { unfold leads in Hl |- *. rewrite Hcl0. destruct (closed g); [done|].
        destruct (i_gathers w Hw j' y' gid Hj' Hl) as (g1 & _ & Hg1 & Hcl1 & _). congruence. }
      by rewrite <- (leads_owner w j' y' gid g0 e0 Hw Hj' Hg0 He0 Hly'), (leads_owner w j y gid g0 e0 Hw Hj Hg0 He0 Hly). }
  assert (s = Waits gid 0 → False) as Hnw.
  { intros ->. assert (tasks w' !! j = Some (at_stage (Waits gid 0) y)) as Hj' by (by rewrite Ht, list_lookup_alter_eq, Hj).
    destruct (i_waits w' Hw' j _ gid 0 Hj' eq_refl) as (g & e & Hg & He & _).
    apply (Hsettled g Hg); try done. exists e. split; [by eapply list_elem_of_lookup_2|].
    destruct (future e) as [o|] eqn:Ef; [|done]. exfalso.
    assert (heap (fire_ends gid r (set_answer c r w)) !! gid = Some g) as Hg1.
    { revert Hg. rewrite E. unfold await_future. by destruct (e ← _; future e). }
    rewrite (await_settled j gid 0 _ g e o Hg1 He Ef) in E. assert (t_stage <$> tasks w' !! j = Some (Ended o)) as Hend.
    { rewrite E. simpl. by rewrite fire_ends_tasks; simpl; rewrite list_lookup_alter_eq, Hj. }
    by rewrite Hj' in Hend. }
  assert (∃ o, s = Ended o) as [o ->].
  { revert Hnw. assert (∃ s', (s' = Waits gid 0 ∨ ∃ o, s' = Ended o) ∧ t_stage <$> tasks w' !! j = Some s') as (s' & Hs' & Hst).
    { rewrite E. unfold await_future. destruct (e ← _; future e) as [o|]; simpl; rewrite fire_ends_tasks; simpl;
        rewrite list_lookup_alter_eq, Hj; eauto. }
    rewrite Ht, list_lookup_alter_eq, Hj in Hst. injection Hst as <-. intros Hnw. destruct Hs' as [->|Ho]; [by destruct Hnw|done]. }
  split; [exists o; by rewrite Ht, list_lookup_alter_eq, Hj|]. intros g Hg. by apply Hsettled.
Qed.

(** C10: coalescing neither loses nor mixes up commands.  In every run: who waits for an
    outcome can have it now, or a leader gathers or executes its group, and when the call of
    the leader returns or raises, the leader has its answer and so can have everybody who
    waits in the group; no block is in two calls of the core; the members of a call have one
    pool and one chunk length, and their own slots and blocks in it; and who got an outcome
    got the one the core gave for its block. *)
Theorem coalescer_serves_everyone es :
  let w := run es start in
  (∀ i x gid k, tasks w !! i = Some x → t_stage x = Waits gid k →
    (∃ o, t_stage <$> tasks (exec (Delivered i) w) !! i = Some (Ended o)) ∨
    ∃ j y, tasks w !! j = Some y ∧ (t_stage y = Gathers gid ∨ ∃ c, t_stage y = Executes (Some gid) c)) ∧
  (∀ j y gid c r, tasks w !! j = Some y → t_stage y = Executes (Some gid) c →
    let w' := exec (Returned j r) w in
    (∃ o, t_stage <$> tasks w' !! j = Some (Ended o)) ∧
    ∀ i x k, tasks w' !! i = Some x → t_stage x = Waits gid k →
      ∃ o, t_stage <$> tasks (exec (Delivered i) w') !! i = Some (Ended o)) ∧
  NoDup (concat (c_tasks <$> calls w)) ∧
  (∀ c x, calls w !! c = Some x → ∃ key, ∀ k i, c_tasks x !! k = Some i →
    ∃ y, tasks w !! i = Some y ∧ t_key y = key ∧ c_slots x !! k = Some (t_slot y) ∧ c_blocks x !! k = Some (t_block y)) ∧
  (∀ i x o, tasks w !! i = Some x → t_stage x = Ended (Ok o) → served (calls w) i o).
Proof.
  intros w. pose proof (run_keeps es) as Hw. fold w in Hw. split_and!.
  - intros i x gid k Hi Hx. destruct (i_waits w Hw i x gid k Hi Hx) as (g & e & Hg & He & _).
    destruct (decide (Exists (λ e, future e = None) (entries g))) as [Hp|Hp].
    + apply Exists_exists in Hp as (e1 & H1 & H2). right. destruct (i_leader w Hw gid g Hg) as (j & y & Hj & Hl); [right; by exists e1|].
      exists j, y. split; [done|]. unfold leads in Hl. destruct (closed g); auto.
    + left. eapply delivered_ends; [done..|]. intros (e1 & H1 & H2). apply Hp, Exists_exists. eauto.
  - intros j y gid c r Hj Hy. destruct (returned_settles w j r gid c y Hw Hj Hy) as [Hend Hset]. split; [done|].
    intros i x k Hi Hx. pose proof (exec_keeps (Returned j r) w Hw) as Hw'.
    destruct (i_waits _ Hw' i x gid k Hi Hx) as (g & e & Hg & _). eapply delivered_ends; eauto.
  - pose proof (i_unique w Hw) as H. by apply NoDup_app in H as (H & _).
  - apply (i_call w Hw).
  - apply (i_ended w Hw).
Qed.
End coalescer.

(** Three lanes of one pool: two join, the window ends, the third opens a group of its own;
    the second is cancelled while it waits; the first call answers, the second raises. *)
Definition lanes : list (event (B := string) (O := Z)) :=
  [Submit "cube" 0 "a" 4 3; Submit "cube" 1 "b" 4 3; TimedOut 0; Submit "cube" 2 "c" 4 3; Cancelled 1;
   Returned 0 (Ok [10; 11]); TimedOut 2; Returned 2 (Raise EnvWorker.cancelled_error)].
Example lanes_end :
  let w := run true true lanes start in
  (t_stage <$> tasks w) = [Ended (Ok 10); Ended (Raise EnvWorker.cancelled_error); Ended (Raise EnvWorker.cancelled_error)] ∧
  (c_slots <$> calls w) = [[0; 1]; [2]] ∧ (groups_executed w, coalesced_command_count w, window_timeout_count w) = (2, 3, 2).
Proof. vm_compute. done. Qed.

(** When everybody is there, the leader does not wait; a core that loses an outcome wakes
    everybody with an error. *)
Example full_group :
  let w := run true true [Submit "cube" 0 "a" 4 2; Submit "cube" 1 "b" 4 2; Awoken 0; Returned 0 (Ok [7]); Delivered 1] start in
  (∀ x, x ∈ tasks w → t_stage x = Ended (Raise (mismatch [7] [Entry 0 "a" None 0; Entry 1 "b" None 1]))) ∧
  window_timeout_count w = 0.
Proof.
  split; [|by vm_compute]. intros x Hx. vm_compute in Hx. apply elem_of_cons in Hx as [->|Hx]; [by vm_compute|].
  apply list_elem_of_singleton in Hx as ->. by vm_compute.
Qed.
End SlotGroupCoalescer.
