(* ===== verification/EnvCommands.v ===== *)
(** * The commands of an environment worker, one by one

    Each command of [EnvWorker.v] is proved against the logic of [Async.v]: what the other
    tasks may do to its [ActiveRequest] is the assumption ([others]), what it does itself the
    guarantee ([guarantee]), and a query that could move the environment is issued only where
    [allowed] holds.  Code that touches no request at all is [tame], which the hint databases
    [seg] and [tame] discharge.  [handle_command_ok] is the result: it holds from the arrival
    of a command to its envelope ([finished]), whatever happens in between; [EnvRuns.v] puts
    the tasks together. *)

From stdpp Require Import pretty.
From S2P Require Import Prelude PyDict Sorting Codec Api Messages Async EnvPool EnvWorker.

Open Scope string_scope.
Open Scope list_scope.
Open Scope Z_scope.

Module EnvCommands.
Import EnvWorker.

(** ** How a slot evolves *)

(** The binding of a slot is fixed; its executed sequence number grows; within an episode
    its flags only rise, and only a reset begins another, later one. *)
Definition identity (s : SessionSlot) : string * string * string * Z :=
  (session_id s, binding_token s, pool_key s, slot_index s).
Definition episode_number (s : SessionSlot) : Z := or_else (episode_id s) 0.
Definition progress (s s' : SessionSlot) : Prop :=
  (episode_id s' = episode_id s ∧ (terminated s = true → terminated s' = true) ∧
   (truncated s = true → truncated s' = true))
  ∨ episode_number s < episode_number s'.
Record slot_le (s s' : SessionSlot) : Prop := {
  le_identity : identity s' = identity s;
  le_seq : last_operation_seq s ≤ last_operation_seq s';
  le_progress : progress s s';
}.
#[global] Instance slot_le_preorder : PreOrder slot_le.
Proof.
  split; [by intros s; split; [|lia|left]|]. intros s1 s2 s3 [I1 L1 P1] [I2 L2 P2]. split; [congruence|lia|].
  unfold progress, episode_number in *. destruct P1 as [(E1 & T1 & U1)|], P2 as [(E2 & T2 & U2)|].
  - left. rewrite E2. naive_solver.
  - right. by rewrite <- E1.
  - right. by rewrite E2.
  - right. lia.
Qed.

(** How a request evolves under the task that owns it. *)
Definition committed (r : ActiveRequest) : Prop :=
  side_effect_applied r = true ∨ the_stage r = STAGE_ENV_STEP ∨ the_stage r = STAGE_DONE.
Record req_le (r r' : ActiveRequest) : Prop := {
  req_cancel : cancel_requested r' = cancel_requested r;
  req_effect : side_effect_applied r = true → side_effect_applied r' = true;
  req_committed : committed r → committed r';
}.
#[global] Instance req_le_preorder : PreOrder req_le.
Proof. split; [by intros r; split|]. intros r1 r2 r3 [] []. split; [congruence|auto|auto]. Qed.

Section task.
(** A task: its number, its command, the slot its session had on arrival. *)
Context (i : nat) (c : CommandEnvelope) (found : option nat).
Notation rid := (c_request_id c).
Notation seq := (c_operation_seq c).

(** ** What the others may do to a task *)

Definition touched (o o' : option ActiveRequest) : Prop := o' = o ∨ o' = with_cancel <$> o.
Record others (w w' : worker) : Prop := {
  others_request : touched (requests w !! i) (requests w' !! i);
  others_active r : active w' !! r = Some i → active w !! r = Some i;
}.
#[global] Instance others_preorder : PreOrder others.
Proof.
  split; [by intros w; split; [left|]|]. intros w1 w2 w3 [T1 A1] [T2 A2]. split; [|auto].
  unfold touched in *. destruct T1 as [E1|E1], T2 as [E2|E2]; rewrite E2, E1; [by left|by right|by right|right].
  by destruct (requests w1 !! i).
Qed.

(** ** What a task does *)

(** Code that touches no request. *)
Definition same_op (s s' : SessionSlot) : Prop := slot_le s s' ∧ active_op s' = active_op s.
#[global] Instance same_op_preorder : PreOrder same_op.
Proof.
  split; [by intros s; split|]. intros s1 s2 s3 [L1 A1] [L2 A2]. split; [by etrans|congruence].
Qed.
Record quiet (w w' : worker) : Prop := {
  quiet_slots k : option_relation same_op (λ _, False) (λ _, False) (slots w !! k) (slots w' !! k);
  quiet_requests : requests w' = requests w;
  quiet_active : active w' = active w;
  quiet_sessions : sessions w' = sessions w;
}.
#[global] Instance quiet_preorder : PreOrder quiet.
Proof.
  split.
  - intros w. split; [|done|done|done]. intros k. by destruct (slots w !! k); simpl.
  - intros w1 w2 w3 [S1 R1 A1 E1] [S2 R2 A2 E2]. split; [|congruence|congruence|congruence]. intros k. specialize (S1 k). specialize (S2 k).
    destruct (slots w1 !! k), (slots w2 !! k), (slots w3 !! k); simpl in *; try done. by etrans.
Qed.

(** Code that also moves the task's own request. *)
Record handles (w w' : worker) : Prop := {
  handles_slots k : option_relation same_op (λ _, False) (λ _, False) (slots w !! k) (slots w' !! k);
  handles_others j : j ≠ i → requests w' !! j = requests w !! j;
  handles_own : option_relation req_le (λ _, False) (λ _, False) (requests w !! i) (requests w' !! i);
  handles_active : active w' = active w;
  handles_sessions : sessions w' = sessions w;
}.
#[global] Instance handles_preorder : PreOrder handles.
Proof.
  split.
  - intros w. split; [|done| |done|done]; [intros k; by destruct (slots w !! k)|by destruct (requests w !! i)].
  - intros w1 w2 w3 [S1 O1 R1 A1 E1] [S2 O2 R2 A2 E2]. split; [|intros j Hj; by rewrite O2, O1| |congruence|congruence].
    + intros k. specialize (S1 k). specialize (S2 k).
      destruct (slots w1 !! k), (slots w2 !! k), (slots w3 !! k); simpl in *; try done. by etrans.
    + destruct (requests w1 !! i), (requests w2 !! i), (requests w3 !! i); simpl in *; try done. by etrans.
Qed.
Lemma quiet_handles w w' : quiet w w' → handles w w'.
Proof.
  intros [Hs Hr Ha He]. split; [done|by rewrite Hr| |done|done]. rewrite Hr. by destruct (requests w !! i).
Qed.

(** A whole command: it takes and leaves its slot, and registers one request. *)
Definition mine (o : option string) : Prop := o = None ∨ o = Some rid.
Definition executed (s : SessionSlot) : Prop := ∀ n, seq = Some n → n ≤ last_operation_seq s.
Definition op_step (k : nat) (s s' : SessionSlot) : Prop :=
  active_op s' = active_op s
  ∨ (found = Some k ∧ mine (active_op s) ∧ active_op s' = Some rid)
  ∨ (found = Some k ∧ active_op s = Some rid ∧ active_op s' = None ∧ executed s').
Definition slot_step (k : nat) (s s' : SessionSlot) : Prop := slot_le s s' ∧ op_step k s s'.
#[global] Instance slot_step_preorder k : PreOrder (slot_step k).
Proof.
  split; [by intros s; split; [|left]|]. intros s1 s2 s3 [L1 O1] [L2 O2]. split; [by etrans|].
  unfold op_step, mine, executed in *. destruct L2 as [_ Hseq _].
  destruct O1 as [E1|[(F1 & M1 & E1)|(F1 & M1 & E1 & X1)]].
  - rewrite E1 in O2. done.
  - rewrite E1 in O2. destruct O2 as [E2|[(_ & _ & E2)|(_ & _ & E2 & X2)]]; [right; left; by rewrite E2|by right; left|].
    destruct M1 as [M1|M1]; [left; congruence|by right; right].
  - rewrite E1 in O2. destruct O2 as [E2|[(_ & _ & E2)|(_ & ? & _)]]; [|left; congruence|done].
    right. right. split_and!; try done. intros n Hn. specialize (X1 n Hn). lia.
Qed.

(** Where a command may be registered, and what its slot is from then on. *)
Definition admitted (w : worker) : Prop := ∃ k s, found = Some k ∧ slots w !! k = Some s ∧
  mine (active_op s) ∧ ∀ n, seq = Some n → last_operation_seq s < n.
Definition holds (w : worker) : Prop := ∀ k s, found = Some k → slots w !! k = Some s →
  active_op s = Some rid ∨ executed s.
Record guarantee (w w' : worker) : Prop := {
  g_slots k : option_relation (slot_step k) (λ _, False) (λ _, False) (slots w !! k) (slots w' !! k);
  g_others j : j ≠ i → requests w' !! j = requests w !! j;
  g_own : option_relation req_le (λ _, False) (λ _, True) (requests w !! i) (requests w' !! i);
  g_active r j : active w' !! r = Some j → active w !! r = Some j ∨ (j = i ∧ r = rid ∧ is_Some (requests w' !! i));
  g_registers : requests w !! i = None → is_Some (requests w' !! i) → admitted w ∧ holds w';
  g_sessions : sessions w' = sessions w;
  g_free k s s' : requests w' !! i = None → slots w !! k = Some s → slots w' !! k = Some s' →
    active_op s' = active_op s;
}.

Lemma holds_stable w w' : guarantee w w' → holds w → holds w'.
Proof.
  intros HG Hh k s' Hk Hs'. pose proof (g_slots w w' HG k) as Hs. rewrite Hs' in Hs.
  destruct (slots w !! k) as [s|] eqn:E; simpl in Hs; [|done]. destruct Hs as [[_ Hseq _] Ho].
  unfold op_step, executed in *. destruct (Hh k s Hk E) as [Ha|Hx].
  - destruct Ho as [->|[(_ & _ & ->)|(_ & _ & _ & Hx)]]; auto.
  - right. intros n Hn. specialize (Hx n Hn). lia.
Qed.
Lemma admitted_back w w' : guarantee w w' → admitted w' → admitted w.
Proof.
  intros HG (k & s' & Hk & Hs' & Hm & Hn). pose proof (g_slots w w' HG k) as Hs. rewrite Hs' in Hs.
  destruct (slots w !! k) as [s|] eqn:E; simpl in Hs; [|done]. destruct Hs as [[_ Hseq _] Ho].
  exists k, s. split; [done|]. split; [done|]. split.
  - unfold op_step, mine in *. destruct Ho as [<-|[(_ & H & _)|(_ & H & _)]]; auto.
  - intros n Hsq. specialize (Hn n Hsq). lia.
Qed.
#[global] Instance guarantee_preorder : PreOrder guarantee.
Proof.
  split.
  - intros w. split; [|done| |auto|intros Hn [r Hr]; congruence|done|congruence];
      [intros k; destruct (slots w !! k); simpl; [reflexivity|done]|by destruct (requests w !! i)].
  - intros w1 w2 w3 H1 H2. split.
    + intros k. pose proof (g_slots _ _ H1 k) as S1. pose proof (g_slots _ _ H2 k) as S2.
      destruct (slots w1 !! k), (slots w2 !! k), (slots w3 !! k); simpl in *; try done. by etrans.
    + intros j Hj. by rewrite (g_others _ _ H2 j Hj), (g_others _ _ H1 j Hj).
    + pose proof (g_own _ _ H1) as R1. pose proof (g_own _ _ H2) as R2.
      destruct (requests w1 !! i), (requests w2 !! i), (requests w3 !! i); simpl in *; try done. by etrans.
    + intros r j Hj. apply (g_active _ _ H2) in Hj as [Hj|?]; [|by right].
      apply (g_active _ _ H1) in Hj as [Hj|(-> & -> & r2 & Hr2)]; [by left|right]. split; [done|]. split; [done|].
      pose proof (g_own _ _ H2) as R2. rewrite Hr2 in R2. by destruct (requests w3 !! i).
    + intros Hnone Hsome. destruct (requests w2 !! i) as [r|] eqn:E.
      * destruct (g_registers _ _ H1 Hnone) as [Ha Hh]; [by rewrite E|]. split; [done|]. by eapply holds_stable.
      * destruct (g_registers _ _ H2 E Hsome) as [Ha Hh]. split; [|done]. by eapply admitted_back.
    + by rewrite (g_sessions _ _ H2), (g_sessions _ _ H1).
    + intros k s s' Hn Hs Hs'. pose proof (g_slots _ _ H1 k) as S1. rewrite Hs in S1.
      destruct (slots w2 !! k) as [s2|] eqn:E2; simpl in S1; [|done]. rewrite (g_free _ _ H2 k s2 s'), (g_free _ _ H1 k s s2); try done.
      pose proof (g_own _ _ H2) as R2. by destruct (requests w2 !! i), (requests w3 !! i).
Qed.
Lemma handles_guarantee w w' : handles w w' → guarantee w w'.
Proof.
  intros [Hs Ho Hown Ha He]. split; [|done| |rewrite Ha; auto| |done|].
  - intros k. specialize (Hs k). destruct (slots w !! k), (slots w' !! k); simpl in *; try done.
    destruct Hs as [? ?]. split; [done|by left].
  - by destruct (requests w !! i), (requests w' !! i).
  - intros Hnone [r Hr]. rewrite Hnone, Hr in Hown. done.
  - intros k s s' _ E E'. specialize (Hs k). rewrite E, E' in Hs. apply Hs.
Qed.
Lemma quiet_guarantee w w' : quiet w w' → guarantee w w'.
Proof. intros H. by apply handles_guarantee, quiet_handles. Qed.

(** ** Code that touches no request *)

Definition mutates (q : query) : bool :=
  match q with Core _ (Reset _ _) | Core _ (ChunkStep _ _) | Coalesced _ _ _ _ => true | _ => false end.
(** The pool and the lane a query steps. *)
Definition steps (q : query) : option (nat * Z) :=
  match q with
  | Core pid (ChunkStep lane _) | Coalesced pid lane _ _ => Some (pid, lane)
  | _ => None
  end.
(** A running episode on a lane. *)
Definition runs_on (pid : nat) (lane : Z) (w : worker) : Prop := ∃ k s,
  slots w !! k = Some s ∧ is_running s = true ∧ pool_table w !! pool_key s = Some pid ∧ slot_index s = lane.
(** Where a task may issue a query. *)
Record allowed (q : query) (w : worker) : Prop := {
  allowed_mutates : mutates q = true →
    ∃ r, requests w !! i = Some r ∧ cancel_requested r = false ∧ committed r;
  allowed_steps pid lane : steps q = Some (pid, lane) →
    (∃ r, requests w !! i = Some r ∧ side_effect_applied r = true) ∧ runs_on pid lane w;
}.
Lemma allowed_harmless q w : mutates q = false → allowed q w.
Proof. intros Hq. split; [by rewrite Hq|]. intros pid lane Hs. by destruct q as [|pid' []| | |]. Qed.

Definition tame {A} (m : task A) : Prop := ∀ w, ok answers others quiet allowed (λ _ _, True) m w.

Lemma quiet_on_slot k f w : (∀ s, same_op s (f s)) → quiet w (on_slot k f w).
Proof.
  intros Hf. split; [|done|done|done]. intros k'. simpl. destruct (decide (k = k')) as [->|Hne].
  - rewrite lookup_alter_eq. destruct (slots w !! k'); simpl; [apply Hf|done].
  - rewrite lookup_alter_ne by done. by destruct (slots w !! k').
Qed.
Lemma quiet_same w w' :
  slots w' = slots w → requests w' = requests w → active w' = active w → sessions w' = sessions w → quiet w w'.
Proof. intros Hs Hr Ha He. split; [|done|done|done]. intros k. rewrite Hs. by destruct (slots w !! k). Qed.
Lemma answers_quiet q r w w' o : answers q r w = Some (w', o) → quiet w w'.
Proof.
  intros H. assert (w' = w ∨ ∃ k, w' = on_slot k (with_lock true) w) as [->|[k ->]]; [|reflexivity|].
  - destruct q; destruct r; simpl in H; repeat case_match; simplify_eq; eauto.
  - apply quiet_on_slot. intros s. split; [|done]. split; [done|simpl; lia|by left].
Qed.

Lemma tame_now {A} (m : segment A) : moves quiet m → tame (now m).
Proof. intros Hm w. apply ok_now; [apply Hm|done]. Qed.
Lemma tame_ret {A} (o : outcome exception A) : tame (Ret o).
Proof. done. Qed.
Lemma tame_await q : mutates q = false → tame (await q).
Proof.
  intros Hq w. split; [by apply allowed_harmless|]. intros w1 r w2 o _ Ha. split; [by eapply answers_quiet|done].
Qed.
Lemma tame_andthen {A B} (m : task A) (f : outcome exception A → task B) :
  tame m → (∀ o, tame (f o)) → tame (andthen m f).
Proof. intros Hm Hf w. apply ok_andthen. eapply ok_mono; [|apply Hm]. intros o w' _. apply Hf. Qed.
Lemma tame_bind {A B} (m : task A) (f : A → task B) : tame m → (∀ a, tame (f a)) → tame (m ≫= f).
Proof. intros Hm Hf. apply tame_andthen; [done|]. by intros [a|e]. Qed.
Lemma tame_except {A} (m : task A) (h : exception → task A) : tame m → (∀ e, tame (h e)) → tame (except m h).
Proof. intros Hm Hf. apply tame_andthen; [done|]. by intros [a|e]. Qed.
Lemma tame_finally {A} (m : task A) (f : task unit) : tame m → tame f → tame (finally m f).
Proof. intros Hm Hf. apply tame_andthen; [done|]. intros o. apply tame_andthen; [done|]. by intros [a|e]. Qed.

(** Tame code leaves the task's request alone, up to a cancellation by another. *)
Lemma tame_ok {A} (m : task A) (Post : outcome exception A → worker → Prop) w :
  tame m → (∀ o w', others w w' → Post o w') → ok answers others handles allowed Post m w.
Proof.
  intros Hm HP. eapply ok_weaken; [apply quiet_handles|]. eapply ok_mono; [|eapply (ok_track _ _ _ _ others)]; cycle 1.
  - intros x y [_ Hr Ha _]. split; [left; by rewrite Hr|intros r; by rewrite Ha].
  - done.
  - apply Hm.
  - intros o w' [_ H]. by apply HP.
Qed.

(** *** Segments *)

Lemma seg_ret {A} (a : A) : moves quiet (mret a : segment A).
Proof. intros w. reflexivity. Qed.
Lemma seg_raise {A} (e : exception) : moves quiet (raise e : segment A).
Proof. intros w. reflexivity. Qed.
Lemma seg_get : moves quiet (get_state : segment worker).
Proof. intros w. reflexivity. Qed.
Lemma seg_check b (e : exception) : moves quiet (check b e : segment unit).
Proof. destruct b; intros w; reflexivity. Qed.
Lemma seg_bind {A B} (m : segment A) (k : A → segment B) :
  moves quiet m → (∀ a, moves quiet (k a)) → moves quiet (m ≫= k).
Proof. apply (moves_bind quiet m k). Qed.
Lemma seg_on_slot k f : (∀ s, same_op s (f s)) → moves quiet (modify (on_slot k f) : segment unit).
Proof. intros Hf w. by apply quiet_on_slot. Qed.
Lemma seg_modify f :
  (∀ w, slots (f w) = slots w ∧ requests (f w) = requests w ∧ active (f w) = active w ∧ sessions (f w) = sessions w) →
  moves quiet (modify f : segment unit).
Proof. intros Hf w. destruct (Hf w) as (? & ? & ? & ?). by apply quiet_same. Qed.
Lemma seg_for_each {A} (f : A → segment unit) l : (∀ a, moves quiet (f a)) → moves quiet (for_each f l : segment unit).
Proof. intros Hf. induction l as [|x l IH]; simpl; [apply seg_ret|]. by apply seg_bind. Qed.
End task.

Create HintDb seg.
#[export] Hint Resolve seg_ret seg_raise seg_get seg_check seg_for_each : seg.

(** The shape of a segment: binds, branches, and modifications of something else. *)
Ltac seg :=
  repeat first
    [ solve [auto with seg nocore]
    | apply seg_bind; [|intros]
    | apply seg_modify; solve [intros; split_and!; reflexivity]
    | apply seg_for_each; intros
    | case_match ].

(** Unfold one layer of the monad of segments. *)
Ltac run_seg :=
  unfold after, result_of, get_state, put_state, modify, raise, check,
    mbind, segment_bind, prog_bind, mret, segment_ret, prog_ret in *; simpl in *.

Section segments.
Context (cfg : config).

Lemma seg_slot_of k : moves quiet (slot_of k).
Proof. unfold slot_of. seg. Qed.
Lemma seg_count_stale : moves quiet count_stale.
Proof. unfold count_stale. seg. Qed.
#[local] Hint Resolve seg_slot_of seg_count_stale : seg.
Lemma seg_require_slot sid token : moves quiet (_require_slot cfg sid token).
Proof. unfold _require_slot. seg. Qed.
Lemma seg_reject_stale k c : moves quiet (_reject_stale k c).
Proof. unfold _reject_stale. seg. Qed.
Lemma seg_check_cancelled a : moves quiet (_check_cancelled a).
Proof. unfold _check_cancelled. seg. Qed.
Lemma seg_pool_of k : moves quiet (_pool_of k).
Proof. unfold _pool_of. seg. Qed.
Lemma seg_running k : moves quiet (_require_running_episode k).
Proof. unfold _require_running_episode. seg. Qed.
Lemma seg_item {A} key (o : option A) : moves quiet (item key o).
Proof. unfold item. seg. Qed.
Lemma seg_decode p : moves quiet (decode p).
Proof. intros w. reflexivity. Qed.
Lemma seg_first_of {A} (l : list A) : moves quiet (first_of l).
Proof. unfold first_of. seg. Qed.
Lemma seg_budget context p : moves quiet (check_payload_budget context p).
Proof. unfold check_payload_budget. seg. Qed.
Lemma seg_should_finish a sid r n : moves quiet (should_finish_episode a sid r n).
Proof. unfold should_finish_episode. seg. Qed.
Lemma seg_publish r s : moves quiet (publish_transition r s).
Proof. unfold publish_transition, publish. seg. Qed.
Lemma seg_require_observation k : moves quiet (require_observation k).
Proof. unfold require_observation. seg. Qed.
Lemma seg_no_error r : moves quiet (no_error r).
Proof. unfold no_error. seg. Qed.
Lemma seg_strict_zip {A B} (xs : list A) (ys : list B) : moves quiet (strict_zip xs ys).
Proof. unfold strict_zip. seg. Qed.
Lemma seg_register r : moves quiet (register_future cfg r).
Proof. unfold register_future. seg. Qed.
Lemma seg_refused r exc : moves quiet (refused r exc).
Proof. unfold refused. seg. Qed.
Lemma seg_cancelled_waiting a rid exc : moves quiet (cancelled_waiting a rid exc).
Proof. unfold cancelled_waiting. seg. Qed.

(** The assignments that keep the flags up. *)
Lemma same_op_flags s a b : same_op s (with_flags (terminated s || a) (truncated s || b) s).
Proof. split; [|done]. split; [done|simpl; lia|]. left. split_and!; simpl; [done|by intros ->|by intros ->]. Qed.
Lemma same_op_frame s n o : same_op s (with_frame n o s).
Proof. split; [|done]. split; [done|simpl; lia|by left]. Qed.
Lemma same_op_masked s n : same_op s (with_masked n s).
Proof. split; [|done]. split; [done|simpl; lia|by left]. Qed.
Lemma same_op_lock s b : same_op s (with_lock b s).
Proof. split; [|done]. split; [done|simpl; lia|by left]. Qed.
Lemma same_op_lease s t : same_op s (with_lease t s).
Proof. split; [|done]. split; [done|simpl; lia|by left]. Qed.
Lemma same_op_absorb s o : same_op s (absorb o s).
Proof.
  unfold absorb. destruct (o_observation o) as [obs|]; [|apply same_op_flags].
  etrans; [apply same_op_flags|apply same_op_frame].
Qed.
Lemma same_op_begin s : same_op s (with_frame 0 (last_observation s)
  (with_flags false false (with_episode (Some (or_else (episode_id s) 0 + 1)) s))).
Proof.
  split; [|done]. split; [done|simpl; lia|]. right. unfold episode_number. cbn [episode_id with_frame with_flags with_episode].
  generalize (or_else (episode_id s) 0). intros x. unfold or_else. destruct (x + 1 =? 0) eqn:E; to_prop; lia.
Qed.

Lemma seg_begin_episode k : moves quiet (begin_episode k).
Proof. apply seg_on_slot. apply same_op_begin. Qed.
Lemma seg_restamp k o : moves quiet (modify (on_slot k (restamp o)) : segment unit).
Proof. apply seg_on_slot. intros s. apply same_op_frame. Qed.
Lemma seg_frame k n o : moves quiet (modify (on_slot k (with_frame n o)) : segment unit).
Proof. apply seg_on_slot. intros s. apply same_op_frame. Qed.
Lemma seg_absorb k o : moves quiet (modify (on_slot k (absorb o)) : segment unit).
Proof. apply seg_on_slot. intros s. apply same_op_absorb. Qed.
Lemma seg_lock k b : moves quiet (modify (on_slot k (with_lock b)) : segment unit).
Proof. apply seg_on_slot. intros s. apply same_op_lock. Qed.
#[local] Hint Resolve seg_begin_episode seg_restamp seg_frame seg_absorb seg_lock : seg.

(** One lane is read back: the slot is the one whose flags were read. *)
Lemma seg_sync_lane k l : moves quiet (sync_lane k l).
Proof.
  intros w. unfold sync_lane. run_seg. case_bool_decide; simpl; [reflexivity|].
  assert (quiet w (on_slot k (with_flags (terminated (slots w !!! k) || l_terminated l)
    (truncated (slots w !!! k) || l_truncated l)) w)) as H1.
  { split; [|done|done|done]. intros k'. simpl. destruct (decide (k = k')) as [->|Hne].
    - rewrite lookup_alter_eq, lookup_total_alt. destruct (slots w !! k') as [s|] eqn:E; simpl; [|done].
      apply same_op_flags.
    - rewrite lookup_alter_ne by done. by destruct (slots w !! k'). }
  destruct (_ =? _); [exact H1|]. etrans; [exact H1|]. apply quiet_on_slot. intros s. apply same_op_masked.
Qed.
Lemma seg_sync_lanes pairs : moves quiet (sync_lanes pairs).
Proof.
  induction pairs as [|[k l] rest IH]; simpl; [seg|]. apply seg_bind; [apply seg_sync_lane|]. intros o. by seg.
Qed.
End segments.
#[export] Hint Resolve seg_slot_of seg_count_stale seg_require_slot seg_reject_stale seg_check_cancelled seg_pool_of
  seg_running seg_item seg_decode seg_first_of seg_budget seg_should_finish seg_publish seg_require_observation
  seg_no_error seg_strict_zip seg_register seg_refused seg_cancelled_waiting seg_begin_episode seg_restamp seg_frame
  seg_absorb seg_lock seg_sync_lanes : seg.

(** *** Coroutines *)

Section tame.
Context (cfg : config) (i : nat).
Notation tame := (tame i).

Lemma tame_mret {A} (a : A) : tame (mret a : task A).
Proof. done. Qed.
Lemma tame_throw {A} (e : exception) : tame (throw e : task A).
Proof. done. Qed.
Lemma tame_call pid c b : mutates (Core pid c) = false → tame (_call_pool_core pid c b).
Proof.
  intros Hc. apply tame_bind; [by apply tame_await|]. intros [x|[exc cause]]; [done|].
  apply tame_bind; [|done]. destruct (_call_core_raises exc cause b).2; [|done]. apply tame_now, seg_modify. done.
Qed.
Lemma tame_swallow {A} (d : A) (m : task A) : tame m → tame (swallow d m).
Proof. intros Hm. apply tame_except; [done|]. intros e. by destruct (isinstance e _). Qed.
End tame.

Create HintDb tame.
#[export] Hint Resolve tame_ret tame_mret tame_throw tame_call tame_swallow : tame.
Ltac tame :=
  repeat first
    [ solve [auto with tame nocore]
    | apply tame_now; solve [seg]
    | apply tame_call; reflexivity
    | apply tame_await; reflexivity
    | apply tame_swallow
    | apply tame_bind; [|intros]
    | apply tame_except; [|intros]
    | apply tame_finally
    | case_match ].

Section calls.
Context (cfg : config) (i : nat).
Notation tame := (tame i).

Lemma tame_refresh pid stale : tame (_refresh_lockstep_observations pid stale).
Proof. unfold _refresh_lockstep_observations. tame. Qed.
#[local] Hint Resolve tame_refresh : tame.
Lemma tame_sync_pool pid key : tame (_sync_lockstep_pool cfg pid key).
Proof. unfold _sync_lockstep_pool. tame. Qed.
#[local] Hint Resolve tame_sync_pool : tame.
Lemma tame_sync k : tame (_sync_lockstep_slot cfg k).
Proof. unfold _sync_lockstep_slot. tame. Qed.
#[local] Hint Resolve tame_sync : tame.
Lemma tame_submit r : tame (submit cfg r).
Proof. unfold submit. tame. Qed.
#[local] Hint Resolve tame_submit : tame.
Lemma tame_request_inference sid o p rid seq c due prio :
  tame (request_inference cfg None sid o p rid seq c due prio).
Proof. unfold request_inference. tame. Qed.
#[local] Hint Resolve tame_request_inference : tame.
Lemma tame_observe sid : tame (observe cfg sid).
Proof. unfold observe. tame. Qed.
Lemma tame_policy_infer sid p c : tame (policy_infer cfg sid p c).
Proof. unfold policy_infer. tame. Qed.
Lemma tame_extension sid n m args : tame (extension_call cfg sid n m args).
Proof. unfold extension_call. tame. Qed.
End calls.
#[export] Hint Resolve tame_refresh tame_sync_pool tame_sync tame_submit tame_request_inference tame_observe
  tame_policy_infer tame_extension : tame.

(** ** The operations of a registered task *)

Section operations.
Context (cfg : config) (i : nat).
Notation run := (ok answers (others i) (handles i) (allowed i)).

(** What a task knows of its own request. *)
Definition own (P : ActiveRequest → Prop) (w : worker) : Prop := ∃ r, requests w !! i = Some r ∧ P r.
Definition registered : worker → Prop := own (λ _, True).
Definition uncommitted : worker → Prop := own (λ r, committed r → side_effect_applied r = true).
Definition effected : worker → Prop := own (λ r, side_effect_applied r = true).
Definition may_commit : worker → Prop := own (λ r, cancel_requested r = false).

Lemma own_others P w w' : (∀ r, P r → P (with_cancel r)) → others i w w' → own P w → own P w'.
Proof. intros HP [[E|E] _] (r & Hr & H); rewrite Hr in E; simpl in E; [by exists r|exists (with_cancel r); auto]. Qed.
Lemma own_quiet P w w' : quiet w w' → own P w → own P w'.
Proof. intros [_ E _ _] (r & Hr & H). exists r. by rewrite E. Qed.
Lemma uncommitted_others w w' : others i w w' → uncommitted w → uncommitted w'.
Proof. apply own_others. by intros []. Qed.
Lemma registered_others w w' : others i w w' → registered w → registered w'.
Proof. by apply own_others. Qed.
Lemma effected_others w w' : others i w w' → effected w → effected w'.
Proof. apply own_others. by intros []. Qed.
Lemma effected_handles w w' : handles i w w' → effected w → effected w'.
Proof.
  intros H (r & Hr & He). pose proof (handles_own i w w' H) as Ho. rewrite Hr in Ho.
  destruct (requests w' !! i) as [r'|] eqn:E; simpl in Ho; [|done]. exists r'. split; [done|]. by apply (req_effect _ _ Ho).
Qed.
Lemma effected_uncommitted w : effected w → uncommitted w.
Proof. intros (r & Hr & He). by exists r. Qed.

Lemma handles_on_request f w :
  (∀ r, requests w !! i = Some r → req_le r (f r)) → handles i w (on_request i f w).
Proof.
  intros Hf. split; [intros k; simpl; by destruct (slots w !! k)|intros j Hj; simpl; by rewrite lookup_alter_ne| |done|done].
  simpl. rewrite lookup_alter_eq. destruct (requests w !! i) as [r|]; simpl; [by apply Hf|done].
Qed.
Lemma effect_le r : req_le r (with_effect r).
Proof. split; [done|done|by left]. Qed.
Lemma env_step_le r : req_le r (at_stage STAGE_ENV_STEP r).
Proof. split; [done|done|by right; left]. Qed.

Lemma moves_quiet {A} (m : segment A) : moves quiet m → moves (handles i) m.
Proof. intros Hm w. apply quiet_handles, Hm. Qed.
Lemma moves_effect : moves (handles i) (set_effect (Some i)).
Proof. intros w. apply handles_on_request. intros r _. apply effect_le. Qed.

(** *** Rules *)

Lemma run_seg_rule {A} (Post : outcome exception A → worker → Prop) (m : segment A) w :
  moves quiet m → (∀ o w', quiet w w' → m w = (w', o) → Post o w') → run Post (now m) w.
Proof.
  intros Hm H. apply ok_now; [apply quiet_handles, Hm|]. specialize (Hm w). unfold after, result_of in *.
  destruct (m w) as [w' o]. by apply H.
Qed.
Lemma run_bind {A B} (Post : outcome exception B → worker → Prop) (m : task A) (f : A → task B) w :
  run (λ o w', match o with Ok a => run Post (f a) w' | Raise e => Post (Raise e) w' end) m w →
  run Post (m ≫= f) w.
Proof. apply (ok_bind answers _ _ _ Post m f). Qed.
(** A segment in front: nothing but the slots, the client or the pools changed. *)
Lemma run_next {A B} (Post : outcome exception B → worker → Prop) (m : segment A) (f : A → task B) w :
  moves quiet m → (∀ e w', quiet w w' → Post (Raise e) w') →
  (∀ a w', quiet w w' → m w = (w', Ok a) → run Post (f a) w') → run Post (now m ≫= f) w.
Proof. intros Hm He Hf. apply run_bind, run_seg_rule; [done|]. intros [a|e] w' Hq E; [by apply Hf|by apply He]. Qed.
(** Tame code in front. *)
Lemma run_tame {A B} (Post : outcome exception B → worker → Prop) (m : task A) (f : A → task B) w :
  tame i m → (∀ e w', others i w w' → Post (Raise e) w') →
  (∀ a w', others i w w' → run Post (f a) w') → run Post (m ≫= f) w.
Proof. intros Hm He Hf. apply run_bind, tame_ok; [done|]. intros [a|e] w' Ho; [by apply Hf|by apply He]. Qed.
Lemma quiet_others w w' : quiet w w' → others i w w'.
Proof. intros [_ Hr Ha _]. split; [left; by rewrite Hr|intros r; by rewrite Ha]. Qed.

(** A mutating call of the core. *)
Lemma run_call {B} (Post : outcome exception B → worker → Prop) pid q b (f : core_result q → task B) w :
  allowed i (Core pid q) w → (∀ e w', others i w w' → Post (Raise e) w') →
  (∀ x w', others i w w' → run Post (f x) w') → run Post (_call_pool_core pid q b ≫= f) w.
Proof.
  intros Ha He Hf. apply run_bind. apply (ok_bind answers). split; [done|]. intros w1 r w2 o Ho Hans.
  pose proof (answers_quiet _ _ _ _ _ Hans) as Hq. split; [by apply quiet_handles|].
  assert (others i w w2) as Ho2 by (etrans; [exact Ho|by apply quiet_others]).
  destruct o as [[x|[exc cause]]|e]; simpl; [by apply Hf| |by apply He].
  apply (ok_bind answers). destruct (_call_core_raises exc cause b) as [exc' []]; simpl.
  - split; [|apply He; etrans; [exact Ho2|by apply quiet_others, quiet_same]]. by apply quiet_handles, quiet_same.
  - by apply He.
Qed.

(** *** [reset] *)

Lemma check_cancelled_ok w w' : _check_cancelled (Some i) w = (w', Ok tt) → registered w → w' = w ∧ may_commit w.
Proof.
  unfold _check_cancelled. run_seg. intros H (r & Hr & _). rewrite lookup_total_alt, Hr in H. simpl in H.
  destruct (cancel_requested r) eqn:E; simpl in H; [done|]. injection H as <-. split; [done|]. by exists r.
Qed.
Lemma may_commit_allowed q w : may_commit w → mutates q = true → steps q = None →
  allowed i q (on_request i (at_stage STAGE_ENV_STEP) w).
Proof.
  intros (r & Hr & Hc) Hm Hs. split; [|by rewrite Hs]. intros _. exists (at_stage STAGE_ENV_STEP r). simpl.
  rewrite lookup_alter_eq, Hr. split_and!; try done. by right; left.
Qed.

Definition stepped (o : outcome exception StepResult) (w : worker) : Prop :=
  ∀ s, o = Ok s → s_side_effect_applied s = true.

Lemma reset_ok sid spec rid seq w : registered w → run stepped (reset cfg (Some i) sid spec rid seq) w.
Proof.
  intros Hreg. unfold reset. apply run_next; [auto with seg nocore|done|]. intros k w1 Q1 _.
  apply (own_quiet _ _ _ Q1) in Hreg. apply run_next; [auto with seg nocore|done|]. intros [] w2 _ H2.
  destruct (check_cancelled_ok _ _ H2 Hreg) as [-> Hc]. apply run_next; [auto with seg nocore|done|]. intros pool w3 Q3 _.
  apply (own_quiet _ _ _ Q3) in Hc. apply run_bind, ok_now; simpl; [apply handles_on_request; intros r _; apply env_step_le|].
  split; [reflexivity|]. apply run_call; [by apply may_commit_allowed|done|].
  intros frames w4 _. apply ok_now; [|unfold stepped; run_seg; intros s; by destruct frames; intros [= <-]].
  apply (moves_bind (handles i)); [apply moves_effect|]. intros _. apply moves_quiet. seg.
Qed.

(** *** [_step_slot] *)

Lemma running_segment k w w' : _require_running_episode k w = (w', Ok tt) →
  w' = w ∧ ∃ s, slots w !! k = Some s ∧ is_running s = true.
Proof.
  unfold _require_running_episode, is_running. run_seg. rewrite lookup_total_alt.
  destruct (slots w !! k) as [s|] eqn:E; simpl; [|done].
  destruct (episode_id s) as [e|] eqn:Ee; [|done]. destruct (terminated s || truncated s) eqn:Et; simpl; [done|].
  intros [= <-]. split; [done|]. exists s. split; [done|]. to_prop. by rewrite Ee, H, H0.
Qed.
Lemma pool_of_segment k w w' pid p s : _pool_of k w = (w', Ok (pid, p)) → slots w !! k = Some s →
  w' = w ∧ pool_table w !! pool_key s = Some pid.
Proof.
  unfold _pool_of, live_pool. run_seg. rewrite lookup_total_alt. intros H Hs. rewrite Hs in H. simpl in H.
  destruct (pool_table w !! pool_key s) as [pid'|]; [|done]. destruct (pool_objects w !! pid') as [p'|]; [|done].
  destruct (EnvPool.the_core p'); [|done]. by simplify_eq.
Qed.

(** A step is announced only for a running episode of a request that was not cancelled. *)
Lemma commit_step_spec k w w' pid p s lanes :
  registered w → commit_step (Some i) k w = (w', Ok (pid, p, s, lanes)) →
  effected w' ∧ ∀ q, steps q = Some (pid, slot_index s) → allowed i q w'.
Proof.
  intros Hreg. unfold commit_step, segment_bind, mbind, prog_bind.
  destruct (_require_running_episode k w) as [w1 [[]|e]] eqn:H1; [|done].
  destruct (running_segment _ _ _ H1) as (-> & s0 & Hs0 & Hrun). clear H1.
  destruct (_check_cancelled (Some i) w) as [w2 [[]|e]] eqn:H2; [|done].
  destruct (check_cancelled_ok _ _ H2 Hreg) as (-> & r & Hr & Hc). clear H2.
  destruct (_pool_of k w) as [w3 [[pid' p']|e]] eqn:H3; [|done].
  destruct (pool_of_segment _ _ _ _ _ _ H3 Hs0) as (-> & Hp). clear H3.
  unfold set_stage, set_effect, slot_of. run_seg. rewrite lookup_total_alt, Hs0. simpl. intros [= <- <- <- <- <-].
  set (w' := on_request i with_effect (on_request i (at_stage STAGE_ENV_STEP) w)).
  assert (requests w' !! i = Some (with_effect (at_stage STAGE_ENV_STEP r))) as Hr'.
  { unfold w'. simpl. by rewrite lookup_alter_eq, lookup_alter_eq, Hr. }
  split; [by eexists|]. intros q Hq. split.
  - intros _. eexists. split; [exact Hr'|]. split; [done|by left].
  - intros pid0 lane0 Hq'. rewrite Hq in Hq'. injection Hq' as <- <-. split; [by eexists|]. by exists k, s0.
Qed.

Lemma commit_step_handles k w : registered w → handles i w (after (commit_step (Some i) k) w).
Proof.
  intros Hreg. unfold after. destruct (commit_step (Some i) k w) as [w2 o] eqn:E. simpl. revert E.
  unfold commit_step, segment_bind, mbind, prog_bind.
  destruct (_require_running_episode k w) as [w3 [[]|e]] eqn:H1; [|intros [= <- _]; apply quiet_handles;
    pose proof (seg_running k w) as Hq; unfold after in Hq; by rewrite H1 in Hq].
  destruct (running_segment _ _ _ H1) as (-> & _). clear H1.
  destruct (_check_cancelled (Some i) w) as [w4 [[]|e]] eqn:H2; [|intros [= <- _]; apply quiet_handles;
    pose proof (seg_check_cancelled (Some i) w) as Hq; unfold after in Hq; by rewrite H2 in Hq].
  destruct (check_cancelled_ok _ _ H2 Hreg) as (-> & _). clear H2.
  pose proof (seg_pool_of k w) as Hq. unfold after in Hq.
  destruct (_pool_of k w) as [w5 [[pid p]|e]]; [|by intros [= <- _]; apply quiet_handles].
  unfold set_stage, set_effect, slot_of. run_seg. intros [= <- _]. etrans; [by apply quiet_handles|].
  etrans; apply handles_on_request; intros r0 _; [apply env_step_le|apply effect_le].
Qed.

(** A step ends with its side effect on record. *)
Definition took_effect (o : outcome exception StepResult) (w : worker) : Prop :=
  ∀ s, o = Ok s → s_side_effect_applied s = true ∧ effected w.

Lemma absorb_segment k o rid seq :
  moves quiet (modify (on_slot k (absorb o)) ≫= λ _, s ← slot_of k; mret (step_result rid seq o s)).
Proof. seg. Qed.
Lemma absorb_rule k o rid seq w : effected w →
  run took_effect (now (modify (on_slot k (absorb o)) ≫= λ _, s ← slot_of k; mret (step_result rid seq o s))) w.
Proof.
  intros He. apply run_seg_rule; [apply absorb_segment|]. intros o' w' Hq E s ->. split; [|by eapply own_quiet].
  run_seg. by injection E as <- <-.
Qed.

Lemma step_slot_ok k block rid seq w :
  registered w → run took_effect (_step_slot cfg (Some i) k block rid seq) w.
Proof.
  intros Hreg. unfold _step_slot. apply run_tame; [apply tame_sync|done|]. intros _ w1 O1.
  apply (registered_others _ _ O1) in Hreg. apply run_bind, ok_now.
  - by apply commit_step_handles.
  - unfold after, result_of. destruct (commit_step (Some i) k w1) as [w2 [[[[pid p] s] lanes]|e]] eqn:E; [|done]. simpl.
    destruct (commit_step_spec _ _ _ _ _ _ _ Hreg E) as (He & Hall). clear E.
    destruct (EnvPool.lockstep p && coalescing cfg).
    + apply run_bind. split; [by apply Hall|]. intros w3 r w4 o O3 Ha. pose proof (answers_quiet _ _ _ _ _ Ha) as Q4.
      split; [by apply quiet_handles|]. destruct o as [o|e]; [|done]. apply absorb_rule.
      eapply own_quiet; [done|]. by eapply effected_others.
    + apply run_bind, run_call; [by apply Hall|done|]. intros outcomes w3 O3.
      apply run_seg_rule; [apply seg_first_of|]. intros [o|e] w4 Q4 _; [|done]. apply absorb_rule.
      eapply own_quiet; [done|]. by eapply effected_others.
Qed.

Lemma action_step_ok sid p rid seq w :
  registered w → run took_effect (action_step cfg (Some i) sid p rid seq) w.
Proof.
  intros Hreg. unfold action_step. apply run_next; [apply seg_budget|done|]. intros [] w1 Q1 _.
  apply run_next; [apply seg_decode|done|]. intros block w2 Q2 _.
  apply run_next; [apply seg_require_slot|done|]. intros k w3 Q3 _. apply step_slot_ok.
  by repeat (eapply own_quiet; [eassumption|]).
Qed.

(** *** Inference, and the steps of a policy *)

Definition stays_open {A} (o : outcome exception A) (w : worker) : Prop := uncommitted w.

Lemma request_inference_ok sid o p rid seq c due prio w :
  uncommitted w → run stays_open (request_inference cfg (Some i) sid o p rid seq c due prio) w.
Proof.
  intros Hu. assert (∀ w', quiet w w' → uncommitted w') as Hq by (intros w' ?; by eapply own_quiet).
  unfold request_inference. apply run_next; [apply seg_require_slot|intros e w'; apply Hq|]. intros k w1 Q1 _.
  apply Hq in Q1. apply run_next; [apply seg_slot_of|intros e w' ?; by eapply own_quiet|]. intros s w2 Q2 _.
  apply (own_quiet _ _ _ Q2) in Q1. destruct Q1 as (r & Hr & Hc). apply run_bind, ok_now.
  - apply handles_on_request. intros r' Hr'. assert (r' = r) as -> by congruence. split; [done|done|].
    intros H. left. by apply Hc.
  - apply tame_ok; [apply tame_except; [apply tame_submit|intros e; apply tame_now, seg_cancelled_waiting]|].
    intros o' w' Ho. eapply uncommitted_others; [done|]. exists (at_stage STAGE_INFERENCE r). simpl.
    split; [by rewrite lookup_alter_eq, Hr|]. by intros [|[|]].
Qed.

(** A policy step, done or not, leaves its request ready for another. *)
Definition policy_stepped (o : outcome exception StepResult) (w : worker) : Prop :=
  ∀ s, o = Ok s → s_side_effect_applied s = true ∧ uncommitted w.

Lemma policy_step_ok k p c due prio w :
  uncommitted w → run policy_stepped (_policy_step_inner cfg (Some i) k p c due prio) w.
Proof.
  intros Hu. unfold _policy_step_inner. apply run_tame; [apply tame_sync|done|]. intros _ w1 O1.
  apply (uncommitted_others _ _ O1) in Hu. apply run_next; [apply seg_running|done|]. intros [] w2 Q2 _.
  apply (own_quiet _ _ _ Q2) in Hu. apply run_next; [apply seg_check_cancelled|done|]. intros [] w3 Q3 _.
  apply (own_quiet _ _ _ Q3) in Hu. apply run_next; [apply seg_require_observation|done|]. intros o w4 Q4 _.
  apply (own_quiet _ _ _ Q4) in Hu. apply run_next; [apply seg_slot_of|done|]. intros s w5 Q5 _.
  apply (own_quiet _ _ _ Q5) in Hu. apply run_bind. eapply ok_mono; [|by apply request_inference_ok].
  intros [response|e] w6 H6; [|done]. apply run_next; [apply seg_no_error|done|]. intros [] w7 Q7 _.
  apply (own_quiet _ _ _ Q7) in H6. apply run_next; [apply seg_check_cancelled|done|]. intros [] w8 Q8 _.
  apply (own_quiet _ _ _ Q8) in H6. apply run_next; [apply seg_decode|done|]. intros block w9 Q9 _.
  apply (own_quiet _ _ _ Q9) in H6. apply run_bind. eapply ok_mono; [|apply step_slot_ok].
  - intros [step|e] w10 H10; [|done]. destruct (H10 step eq_refl) as [Hs He]. intros s' [= <-].
    split; [done|]. by apply effected_uncommitted.
  - destruct H6 as (r & Hr & _). by exists r.
Qed.


Lemma episode_loop_ok fuel k sid c r t w :
  uncommitted w → run (λ _ _, True) (episode_loop cfg fuel (Some i) k sid c r t) w.
Proof.
  revert t w. induction fuel as [|fuel IH]; intros t w Hu; cbn [episode_loop].
  - apply run_next; [apply seg_should_finish|done|]. by intros [reason|] w1 _ _.
  - apply run_next; [apply seg_should_finish|done|]. intros [reason|] w1 Q1 _; [done|].
    apply (own_quiet _ _ _ Q1) in Hu. apply run_bind, ok_except. apply run_bind.
    eapply ok_mono; [|by apply policy_step_ok]. intros [s|e] w2 H2.
    + destruct (H2 s eq_refl) as [_ Hu2].
      change (run (λ _ _, True) (now (publish_transition r s) ≫= λ _, episode_loop cfg fuel (Some i) k sid c r (tally_step s t)) w2).
      apply run_next; [apply seg_publish|done|]. intros [] w3 Q3 _.
      apply IH. by eapply own_quiet.
    + destruct (ended_inside e); cbn; done.
Qed.

Lemma run_episode_ok sid r c w : uncommitted w → run (λ _ _, True) (run_episode cfg (Some i) sid r c) w.
Proof.
  intros Hu. unfold run_episode. apply run_next; [apply seg_require_slot|done|]. intros k w1 Q1 _.
  apply (own_quiet _ _ _ Q1) in Hu. apply run_tame; [apply tame_sync|done|]. intros _ w2 O2.
  apply (uncommitted_others _ _ O2) in Hu. apply run_next; [apply seg_running|done|]. intros [] w3 Q3 _.
  apply (own_quiet _ _ _ Q3) in Hu. apply run_bind. eapply ok_mono; [|by apply episode_loop_ok].
  intros [[t reason]|e] w4 _; [|done]. apply run_next; [apply seg_slot_of|done|]. done.
Qed.

(** *** Handlers *)

(** A step result says that the environment moved. *)
Definition honest (o : outcome exception result) (w : worker) : Prop :=
  ∀ s, o = Ok (StepValue s) → s_side_effect_applied s = true.

Lemma step_value (m : task StepResult) (Post : outcome exception StepResult → worker → Prop) w :
  (∀ s w', Post (Ok s) w' → s_side_effect_applied s = true) → run Post m w →
  run honest (r ← m; mret (StepValue r)) w.
Proof.
  intros HP Hm. apply run_bind. eapply ok_mono; [|exact Hm]. intros [s|e] w' H; [|done]. intros s' [= <-]. by eapply HP.
Qed.

Lemma other_value {A} (m : task A) (f : A → result) w :
  (∀ a s, f a ≠ StepValue s) → run (λ _ _, True) m w → run honest (r ← m; mret (f r)) w.
Proof.
  intros Hf Hm. apply run_bind. eapply ok_mono; [|exact Hm]. intros [a|e] w' _; [|done]. intros s [= E]. by apply Hf in E.
Qed.

(** The head of a handler: the session and an item of the payload. *)
Ltac enter Hu :=
  let Q := fresh "Q" in
  apply run_next; [apply seg_slot_of|done|]; intros ? ? Q _; apply (own_quiet _ _ _ Q) in Hu; clear Q;
  apply run_next; [apply seg_item|done|]; intros ? ? Q _; apply (own_quiet _ _ _ Q) in Hu; clear Q.

Lemma uncommitted_registered w : uncommitted w → registered w.
Proof. intros (r & Hr & _). by exists r. Qed.

Lemma handler_ok k c h w :
  mutating c = true → handler cfg (Some i) k c = Some h → uncommitted w → run honest h w.
Proof.
  intros Hm Hh Hu. unfold handler, mutating, MUTATING_OPERATIONS, member in *.
  destruct (c_operation c); try (vm_compute in Hm; discriminate);
    apply (inj Some) in Hh; subst h; cbv beta zeta.
  - enter Hu. eapply step_value; [|by apply reset_ok, uncommitted_registered]. intros s' w2 H. by apply H.
  - enter Hu. eapply step_value; [|by apply action_step_ok, uncommitted_registered]. intros s' w2 H. by apply H.
  - enter Hu. apply run_next; [apply seg_require_slot|done|]. intros k' w2 Q2 _.
    eapply step_value; [|by apply policy_step_ok; eapply own_quiet]. intros s' w3 H. by apply H.
  - enter Hu. apply other_value; [done|]. by apply run_episode_ok.
Qed.
End operations.

Lemma handler_tame cfg i k c h : mutating c = false → handler cfg None k c = Some h → tame i h.
Proof.
  intros Hm Hh. unfold handler, mutating, MUTATING_OPERATIONS, member in *.
  destruct (c_operation c); try (vm_compute in Hm; discriminate); try discriminate Hh;
    apply (inj Some) in Hh; subst h; cbv beta zeta; tame.
Qed.

(** ** A whole command *)

Section command.
Context (cfg : config) (i : nat) (c : CommandEnvelope) (found : option nat).
Notation rid := (c_request_id c).
Notation run := (ok answers (others i) (handles i) (allowed i)).
Notation runs := (ok answers (others i) (guarantee i c found) (allowed i)).

(** What a finished command leaves: its envelope, honest about the side effect, no entry in
    the table of active requests, and its slot to the next command. *)
Definition honest_envelope (e : ResultEnvelope) (w : worker) : Prop :=
  v_side_effect_applied e = false → ∀ r, requests w !! i = Some r → side_effect_applied r = false.
Definition slot_left (w : worker) : Prop :=
  ∀ k s, found = Some k → slots w !! k = Some s → active_op s ≠ Some rid.
Record finished (o : outcome exception ResultEnvelope) (w : worker) : Prop := {
  finished_envelope : ∃ e, o = Ok e ∧ v_request_id e = rid ∧ honest_envelope e w;
  finished_active x : active w !! x ≠ Some i;
  finished_slot : is_Some (requests w !! i) → slot_left w;
}.

Lemma normalized_flag e d b : err_side_effect_applied (normalize_exception e d true b) = true.
Proof.
  unfold normalize_exception. destruct (exc_info e) as [info|]; simpl; [|done].
  by destruct (err_side_effect_applied info) eqn:E.
Qed.

Definition named_honest (e : ResultEnvelope) (w : worker) : Prop := v_request_id e = rid ∧ honest_envelope e w.
Lemma failed_segment a k e w : (a = Some i ∨ requests w !! i = None) →
  ∃ v, failed cfg a k c e w = (w, Ok v) ∧ named_honest v w.
Proof.
  intros Ha. eexists. split; [reflexivity|]. split; [done|]. unfold honest_envelope. simpl. intros Hf r Hr.
  destruct Ha as [->|Hn]; [|congruence]. rewrite lookup_total_alt, Hr in Hf. simpl in Hf.
  destruct (side_effect_applied r); [|done]. by rewrite normalized_flag in Hf.
Qed.
Lemma succeeded_segment a k v w : (a = Some i ∨ requests w !! i = None) → honest (Ok v) w →
  ∃ e, succeeded cfg a k c v w = (w, Ok e) ∧ named_honest e w.
Proof.
  intros Ha Hv. eexists. split; [reflexivity|]. split; [done|]. unfold honest_envelope. simpl. intros Hf r Hr.
  destruct Ha as [->|Hn]; [|congruence]. simpl in Hf. rewrite lookup_total_alt, Hr in Hf. simpl in Hf.
  unfold honest in Hv. destruct v as [s| | | |]; try done. simpl in Hf. by rewrite (Hv s eq_refl) in Hf.
Qed.

(** *** Registered *)

Definition only_rid (w : worker) : Prop := ∀ x, active w !! x = Some i → x = rid.

Definition on_record (w : worker) : Prop := only_rid w ∧ registered i w.
Lemma run_on_record {A} (Post : outcome exception A → worker → Prop) (m : task A) w :
  on_record w → run Post m w → run (λ o w', Post o w' ∧ on_record w') m w.
Proof.
  intros Hw Hm. eapply ok_mono; [|eapply (ok_track _ _ _ _ (λ w w', on_record w → on_record w')); [| |exact Hm]].
  - intros o w' [HP Ho]. auto.
  - intros x y H [Ho (r & Hr & _)]. split; [intros z Hz; apply Ho; by rewrite <- (handles_active _ _ _ H)|].
    pose proof (handles_own _ _ _ H) as Hown. rewrite Hr in Hown.
    destruct (requests y !! i) as [r'|] eqn:E; simpl in Hown; [|done]. by exists r'.
  - intros x y H [Ho Hr]. split; [intros z Hz; by apply Ho, (others_active _ _ _ H)|by eapply registered_others].
  Unshelve. split; [by intros ?|intros ? ? ? H1 H2; auto].
Qed.

Lemma lock_ok k h w :
  (∀ w', uncommitted i w' → run honest h w') → uncommitted i w → run honest (with_slot_lock k h) w.
Proof.
  intros Hh Hu. unfold with_slot_lock. apply run_bind. split; [by apply allowed_harmless|].
  intros w1 r w2 o O1 Ha. pose proof (answers_quiet _ _ _ _ _ Ha) as Q2. split; [by apply quiet_handles|].
  destruct o as [[]|e]; [|done]. apply ok_finally. eapply ok_mono; [|apply Hh].
  - intros o w3 Ho. apply run_seg_rule; [apply seg_lock|]. by intros [[]|e] w4 _ _.
  - eapply own_quiet; [done|]. by eapply uncommitted_others.
Qed.

Lemma ended_step k : found = Some k → ∀ s, slot_step c found k s (ended c s).
Proof.
  intros Hk s. unfold ended. split.
  - split; [done| |by left]. simpl. destruct (c_operation_seq c); lia.
  - case_bool_decide as Hop; [|by left]. right. right. split_and!; try done. intros n Hn. simpl. rewrite Hn. lia.
Qed.
Lemma guarantee_end k w : found = Some k → registered i w → guarantee i c found w (on_slot k (ended c) w).
Proof.
  intros Hk (r & Hr & _). split; simpl; [|done|by destruct (requests w !! i)|by left|by intros -> [? ?]|done|congruence]. intros k'.
  destruct (decide (k = k')) as [->|Hne].
  - rewrite lookup_alter_eq. destruct (slots w !! k'); simpl; [by apply ended_step|done].
  - rewrite lookup_alter_ne by done. destruct (slots w !! k'); simpl; [reflexivity|done].
Qed.
Lemma ended_left k w : found = Some k → slot_left (on_slot k (ended c) w).
Proof.
  intros Hk k' s Hk' Hs. assert (k' = k) as -> by congruence. simpl in Hs. rewrite lookup_alter_eq in Hs.
  destruct (slots w !! k) as [s0|]; simpl in Hs; [|done]. injection Hs as <-. unfold ended. simpl.
  by case_bool_decide.
Qed.

Definition put_away (w : worker) : worker :=
  on_request i (at_stage STAGE_DONE) (set_requests (delete rid (active w)) (requests w) w).
Lemma guarantee_put_away w : guarantee i c found w (put_away w).
Proof.
  split; simpl.
  - intros k. destruct (slots w !! k); simpl; [reflexivity|done].
  - intros j Hj. by rewrite lookup_alter_ne.
  - rewrite lookup_alter_eq. destruct (requests w !! i); simpl; [|done]. split; [done|done|by right; right].
  - intros r j Hj. left. by apply lookup_delete_Some in Hj as [_ ?].
  - rewrite lookup_alter_eq. by intros -> [? ?].
  - done.
  - intros k s s' _ Hs Hs'. congruence.
Qed.
Lemma put_away_finished e w : only_rid w → slot_left w → named_honest e w → finished (Ok e) (put_away w).
Proof.
  intros Ho Hs [Hn He]. split; simpl.
  - exists e. split; [done|]. split; [done|]. intros Hf r. simpl. rewrite lookup_alter_eq.
    destruct (requests w !! i) as [r0|] eqn:E; simpl; [|done]. intros [= <-]. by apply (He Hf r0).
  - intros x Hx. apply lookup_delete_Some in Hx as [Hne Hx]. apply Hne. symmetry. by apply Ho.
  - done.
Qed.

Lemma run_registered_ok k h w :
  found = Some k → (∀ w', uncommitted i w' → run honest h w') → uncommitted i w → only_rid w →
  runs finished (run_registered cfg i k c h) w.
Proof.
  intros Hk Hh Hu Ho. assert (on_record w) as Hon by (split; [done|by apply uncommitted_registered]). unfold run_registered. apply ok_finally, ok_except, (ok_bind answers), ok_finally.
  eapply ok_mono; [|eapply ok_weaken; [apply handles_guarantee|]; apply run_on_record; [done|by apply lock_ok]].
  intros o w1 [Hv [Ho1 Hreg1]]. apply ok_now; [by apply guarantee_end|].
  change (result_of (_end_active_slot k c) w1) with (Ok tt : outcome exception unit).
  change (after (_end_active_slot k c) w1) with (on_slot k (ended c) w1). set (w2 := on_slot k (ended c) w1).
  cbv beta iota.
  assert (slot_left w2) as Hs2 by by apply ended_left. assert (only_rid w2) as Ho2 by done.
  assert (∀ e, runs (λ o' w', runs (λ o'' w'', finished match o'' with Ok _ => o' | Raise e' => Raise e' end w'')
    (now (modify put_away)) w') (now (failed cfg (Some i) (Some k) c e)) w2) as Hfail.
  { intros e. destruct (failed_segment (Some i) (Some k) e w2) as (v & Ev & Hn); [by left|].
    apply ok_now; unfold after, result_of; rewrite Ev; [reflexivity|].
    split; [apply guarantee_put_away|]. by apply put_away_finished. }
  destruct o as [v|e]; cbv beta iota; [|apply Hfail].
  destruct (succeeded_segment (Some i) k v w2) as (e & Ee & Hn); [by left|done|].
  apply ok_now; unfold after, result_of; rewrite Ee; [reflexivity|].
  split; [apply guarantee_put_away|]. by apply put_away_finished.
Qed.

(** *** Arriving *)

(** A task whose request is not registered, or never will be. *)
Definition unborn (w : worker) : Prop := requests w !! i = None ∧ ∀ x, active w !! x ≠ Some i.
Lemma unborn_quiet w w' : quiet w w' → unborn w → unborn w'.
Proof. intros [_ Hr Ha _] [H1 H2]. split; [by rewrite Hr|intros x; by rewrite Ha]. Qed.
Lemma unborn_others w w' : others i w w' → unborn w → unborn w'.
Proof.
  intros [Hr Ha] [H1 H2]. split; [destruct Hr as [->| ->]; by rewrite H1|]. intros x Hx. by apply (H2 x), Ha.
Qed.
Lemma unborn_finished e w : unborn w → named_honest e w → finished (Ok e) w.
Proof. intros [Hr Ha] [Hn He]. split; [by exists e|done|]. rewrite Hr. by intros [? ?]. Qed.
Lemma fail_unborn k e w : unborn w → runs finished (now (failed cfg None k c e)) w.
Proof.
  intros Hu. destruct (failed_segment None k e w) as (v & Ev & Hn); [right; apply Hu|].
  apply ok_now; unfold after, result_of; rewrite Ev; [reflexivity|]. by apply unborn_finished.
Qed.

Lemma require_slot_found sid token w w' k :
  _require_slot cfg sid token w = (w', Ok k) → w' = w ∧ find_session sid w = Some k.
Proof.
  unfold _require_slot, count_stale. run_seg. destruct (find_session sid w) as [k'|]; [|done].
  destruct token as [t|]; [|by intros [= <- <-]]. destruct (String.eqb _ _); [by intros [= <- <-]|done].
Qed.
Lemma reject_stale_passed k w w' : _reject_stale k c w = (w', Ok tt) →
  w' = w ∧ ∀ n, c_operation_seq c = Some n → last_operation_seq (slots w !!! k) < n.
Proof.
  unfold _reject_stale, slot_of, count_stale. run_seg.
  destruct (c_episode_id c) as [e|], (episode_id (slots w !!! k)) as [cur|]; simpl;
    try (destruct (e <? cur); simpl; [done|]);
    (destruct (c_operation_seq c) as [n|]; simpl;
      [destruct (n <=? last_operation_seq (slots w !!! k)) eqn:E; simpl; [done|]; intros [= <-]; split; [done|];
       intros n' [= <-]; to_prop; lia|intros [= <-]; by split]).
Qed.

(** Taking the slot and registering, in one segment. *)
Lemma begin_segment k w :
  found = Some k → is_Some (slots w !! k) → unborn w →
  (∀ n, c_operation_seq c = Some n → last_operation_seq (slots w !!! k) < n) →
  let o := (_begin_active_slot k c ≫= λ _, _register_active i c) w in
  guarantee i c found w o.1 ∧
  match o.2 with Ok _ => uncommitted i o.1 ∧ only_rid o.1 | Raise _ => unborn o.1 end.
Proof.
  intros Hk [s Hs] Hun Hseq. rewrite lookup_total_alt, Hs in Hseq. simpl in Hseq.
  unfold _begin_active_slot, _register_active, slot_of. run_seg. rewrite lookup_total_alt, Hs. simpl.
  destruct Hun as [Hr Ha].
  assert (∀ w0, slots w0 = slots w → requests w0 = requests w → active w0 = active w → sessions w0 = sessions w →
    mine c (active_op s) →
    let w1 := set_requests (<[rid:=i]> (active w0))
      (<[i:=Active rid (c_session_id c) (c_operation c) STAGE_QUEUED false false]> (requests w0))
      (on_slot k (λ s0, with_active (Some rid) (last_operation_seq s0) s0) w0) in
    guarantee i c found w w1 ∧ uncommitted i w1 ∧ only_rid w1) as Htake.
  { intros w0 E1 E2 E3 E4 Hm w1. unfold w1. split; [|split].
    - split; simpl; rewrite ?E1, ?E2, ?E3.
      + intros k'. destruct (decide (k = k')) as [<-|Hne].
        * rewrite lookup_alter_eq, Hs. simpl. split; [split; [done|simpl; lia|by left]|]. by right; left.
        * rewrite lookup_alter_ne by done. destruct (slots w !! k'); simpl; [reflexivity|done].
      + intros j Hj. by rewrite lookup_insert_ne.
      + by rewrite Hr, lookup_insert_eq.
      + intros r j Hj. apply lookup_insert_Some in Hj as [[<- <-]|[_ Hj]]; [|by left].
        right. rewrite lookup_insert_eq. by eauto.
      + intros _ _. split; [by exists k, s|]. intros k' s' Hk' Hs'. assert (k' = k) as -> by congruence. simpl in Hs'.
        rewrite ?E1, lookup_alter_eq, Hs in Hs'. simpl in Hs'. injection Hs' as <-. by left.
      + done.
      + intros k' s0 s'. by rewrite lookup_insert_eq.
    - eexists. simpl. split; [apply lookup_insert_eq|]. by intros [|[|]].
    - intros x Hx. simpl in Hx. rewrite E3 in Hx. apply lookup_insert_Some in Hx as [[<- _]|[_ Hx]]; [done|].
      by apply Ha in Hx. }
  destruct (active_op s) as [op|] eqn:Eop; simpl.
  - destruct (String.eqb op rid) eqn:E; simpl.
    + apply String.eqb_eq in E as ->. apply (Htake w); try done. by right.
    + split; [by apply quiet_guarantee, quiet_same|]. by split.
  - apply (Htake w); try done. by left.
Qed.

Lemma tame_runs {A} (Post : outcome exception A → worker → Prop) (m : task A) w :
  tame i m → (∀ o w', others i w w' → Post o w') → runs Post m w.
Proof. intros Hm HP. eapply ok_weaken; [apply handles_guarantee|]. by apply tame_ok. Qed.

(** The body of a command whose slot was found, once its lateness was checked. *)
Lemma body_ok k w :
  found = Some k → is_Some (slots w !! k) → unborn w →
  (∀ n, c_operation_seq c = Some n → last_operation_seq (slots w !!! k) < n) →
  let a := if mutating c then Some i else None in
  runs (λ o w', match o with Ok e => finished (Ok e) w' | Raise e => unborn w' end)
    (match handler cfg a k c with
     | None => mret None
     | Some h => (if mutating c then now (_begin_active_slot k c ≫= λ _, _register_active i c) else mret tt) ≫= λ _,
         mret (Some h)
     end ≫= λ h,
     match h with
     | None => mret (_failure c (error_of ErrorCode.INVALID_ARGUMENT
         ("unsupported command operation: " +:+ EnvOperation.name (c_operation c)) []) None)
     | Some h => if mutating c then run_registered cfg i k c h else v ← h; now (succeeded cfg None k c v)
     end) w.
Proof.
  intros Hk Hs Hun Hseq a. destruct (handler cfg a k c) as [h|] eqn:Hh.
  - unfold a in *. destruct (mutating c) eqn:Hm.
    + pose proof (begin_segment k w Hk Hs Hun Hseq) as [HG Ho].
      apply (ok_bind answers), (ok_bind answers), ok_now; [exact HG|]. unfold result_of, after in *.
      destruct ((_begin_active_slot k c ≫= λ _, _register_active i c) w) as [w1 [[]|e]]; [|exact Ho].
      destruct Ho as [Hu Ho]. cbn [fst] in Hu, Ho.
      change (runs (λ o w', match o with Ok e => finished (Ok e) w' | Raise e => unborn w' end)
        (run_registered cfg i k c h) w1). eapply ok_mono; [|apply run_registered_ok; [exact Hk| |exact Hu|exact Ho]].
      * intros [e|e] w2 Hf; [done|]. by destruct (finished_envelope _ _ Hf) as (? & [=] & _).
      * intros w' Hu'. by eapply handler_ok.
    + change (runs (λ o w', match o with Ok e => finished (Ok e) w' | Raise e => unborn w' end)
        (v ← h; now (succeeded cfg None k c v)) w). apply (ok_bind answers). apply tame_runs; [by eapply handler_tame|].
      intros [v|e] w1 O1; [|by eapply unborn_others]. apply (unborn_others _ _ O1) in Hun.
      apply ok_now; unfold after, result_of; simpl; [reflexivity|]. apply unborn_finished; [done|].
      split; [done|]. intros _ r Hr. destruct Hun as [Hun _]. congruence.
  - simpl. apply unborn_finished; [done|]. split; [done|]. intros _ r Hr. destruct Hun as [Hun _]. congruence.
Qed.

(** Every command keeps the guarantee, and ends with its envelope. *)
Lemma handle_command_ok w :
  found = find_session (c_session_id c) w → (∀ k, found = Some k → is_Some (slots w !! k)) → unborn w →
  runs finished (handle_command cfg i c) w.
Proof.
  intros Hf Hslots Hun. unfold handle_command. apply ok_andthen.
  apply ok_now; [apply quiet_guarantee, seg_require_slot|]. pose proof (seg_require_slot cfg (c_session_id c) (c_binding_token c) w) as Hq.
  unfold after, result_of in *. destruct (_require_slot cfg _ _ w) as [w1 [k|e]] eqn:E; cbn [fst snd] in *; cbv beta iota; cycle 1.
  { apply fail_unborn. by eapply unborn_quiet. }
  destruct (require_slot_found _ _ _ _ _ E) as [-> Hk]. clear E Hq. rewrite Hk in Hf.
  apply ok_except. apply (ok_bind answers). apply ok_now; [apply quiet_guarantee, seg_reject_stale|].
  pose proof (seg_reject_stale k c w) as Hq. unfold after, result_of in *.
  destruct (_reject_stale k c w) as [w1 [[]|e]] eqn:E; cbn [fst snd] in *; cbv beta iota; cycle 1.
  { apply fail_unborn. by eapply unborn_quiet. }
  destruct (reject_stale_passed _ _ _ E) as [-> Hseq]. clear E Hq. cbv beta iota zeta.
  eapply ok_mono; [|apply (body_ok k w); try done; by apply Hslots].
  intros [e|e] w1 H; [done|]. by apply fail_unborn.
Qed.
End command.

End EnvCommands.
