(* ===== verification/EnvRuns.v ===== *)
(** * Runs of an environment worker

    Theorems about every run of [EnvWorker.v], whatever the environment answers, in whatever
    order, and whichever tasks it cancels: an acknowledged cancellation is final, answers are
    honest, finished episodes are not stepped, operations are admitted in order, a worker at
    rest is clean.  The events that are not tasks are steps of the environment ([env_step]);
    the invariants of the loop follow from the guarantee of each command ([EnvCommands.v]).
    Two concrete runs show what the worker does not exclude. *)

From Stdlib Require Import FunctionalExtensionality.
From stdpp Require Import pretty.
From S2P Require Import Prelude PyDict Sorting Codec Api Messages Async EnvPool EnvWorker EnvCommands.

Open Scope string_scope.
Open Scope list_scope.
Open Scope Z_scope.

Module EnvRuns.
Import EnvWorker EnvCommands.

(** ** The other events *)

Definition sessions_point (w : worker) : Prop := ∀ sid k, find_session sid w = Some k → is_Some (slots w !! k).
Record env_step (w w' : worker) : Prop := {
  es_request i : touched (requests w !! i) (requests w' !! i);
  es_active : active w' = active w;
  es_slots k s : slots w !! k = Some s → ∃ s', slots w' !! k = Some s' ∧ same_op s s';
  es_new k s' : slots w !! k = None → slots w' !! k = Some s' → active_op s' = None;
  es_sessions : sessions_point w → sessions_point w';
}.
#[global] Instance env_step_preorder : PreOrder env_step.
Proof.
  split.
  - intros w. split; [by left|done|intros k s ?; by exists s|intros; congruence|done].
  - intros w1 w2 w3 [R1 A1 S1 N1 P1] [R2 A2 S2 N2 P2]. split; [|congruence| | |auto].
    + intros i. specialize (R1 i). specialize (R2 i). unfold touched in *.
      destruct R1 as [E1|E1], R2 as [E2|E2]; rewrite E2, E1; [by left|by right|by right|right].
      by destruct (requests w1 !! i).
    + intros k s Hs. destruct (S1 k s Hs) as (s2 & H2 & L2). destruct (S2 k s2 H2) as (s3 & H3 & L3).
      exists s3. split; [done|by etrans].
    + intros k s' Hn Hs. destruct (slots w2 !! k) as [s2|] eqn:E; [|by eapply N2].
      destruct (S2 k s2 E) as (s3 & H3 & [_ L3]). rewrite H3 in Hs. injection Hs as <-. rewrite L3. by eapply N1.
Qed.
Lemma env_others w w' i : env_step w w' → others i w w'.
Proof. intros [R A _ _ _]. split; [apply R|intros r; by rewrite A]. Qed.

Lemma env_same w w' : slots w' = slots w → requests w' = requests w → active w' = active w →
  (sessions_point w → sessions_point w') → env_step w w'.
Proof.
  intros Hs Hr Ha Hp. split; [by left; rewrite Hr|done|intros k s ?; exists s; by rewrite Hs|intros; congruence|done].
Qed.
Lemma env_quiet w w' : quiet w w' → env_step w w'.
Proof.
  intros [Hs Hr Ha He]. split; [by left; rewrite Hr|done| | |].
  - intros k s Hk. specialize (Hs k). rewrite Hk in Hs. destruct (slots w' !! k) as [s'|]; simpl in Hs; [|done]. by exists s'.
  - intros k s' Hn Hk. specialize (Hs k). by rewrite Hn, Hk in Hs.
  - intros H sid k Hf. unfold find_session in *. rewrite He in Hf. destruct (H sid k Hf) as [s Hk]. specialize (Hs k).
    rewrite Hk in Hs. by destruct (slots w' !! k).
Qed.

Lemma env_cancel i w : env_step w (on_request i with_cancel w).
Proof.
  split; [|done|intros k s ?; by exists s|simpl; intros; congruence|done]. intros j. simpl.
  destruct (decide (i = j)) as [->|Hne]; [right; by rewrite lookup_alter_eq|left; by rewrite lookup_alter_ne].
Qed.
Lemma env_bind k sid token key lane lease w :
  slots w !! k = None → env_step w (after (bind k sid token key lane lease) w).
Proof.
  intros Hk. split; simpl; [by left|done| | |].
  - intros k' s Hs. exists s. rewrite lookup_insert_ne by congruence. done.
  - intros k' s' Hn Hs. apply lookup_insert_Some in Hs as [[_ <-]|[_ Hs]]; [done|congruence].
  - intros H sid' k'. unfold find_session. simpl. destruct (decide (sid' = sid)) as [->|Hne].
    + rewrite assoc_lookup_insert, decide_True by done. intros E. injection E as <-. rewrite lookup_insert_eq. by eexists.
    + rewrite assoc_lookup_insert, decide_False by done. intros Hf. destruct (H sid' k' Hf) as [s Hs].
      exists s. rewrite lookup_insert_ne by congruence. done.
Qed.
Lemma assoc_delete_lookup {V} (sid sid' : string) (l : list (string * V)) v :
  assoc_lookup sid' (assoc_delete sid l) = Some v → assoc_lookup sid' l = Some v.
Proof.
  unfold assoc_delete. induction l as [|[x y] l IH]; [done|]. rewrite filter_cons. simpl.
  destruct (decide (x ≠ sid)) as [Hne|Heq]; simpl.
  - destruct (decide (sid' = x)); auto.
  - apply dec_stable in Heq as ->. intros H. destruct (decide (sid' = sid)) as [->|]; [|auto]. exfalso.
    clear IH. induction l as [|[x' y'] l IH]; [done|]. rewrite filter_cons in H. simpl in H.
    destruct (decide (x' ≠ sid)) as [Hne|]; [|auto]. simpl in H. rewrite decide_False in H by done. auto.
Qed.
Lemma env_release sid w : env_step w (after (release_binding sid) w).
Proof.
  unfold release_binding. run_seg. destruct (find_session sid w) as [k|] eqn:Ek; simpl; [|reflexivity].
  assert (env_step w (set_sessions (assoc_delete sid (sessions w)) w)) as H1.
  { apply env_same; try done. intros H sid' k' Hf. apply (H sid'). revert Hf. unfold find_session. simpl.
    apply assoc_delete_lookup. }
  destruct (pool_table w !! _) as [pid|]; [|exact H1]. etrans; [exact H1|]. by apply env_same.
Qed.
Lemma env_for_each {A} (f : A → segment unit) l w :
  (∀ a w, env_step w (after (f a) w)) → env_step w (after (for_each f l) w).
Proof. intros Hf. exact (moves_for_each env_step f l Hf w). Qed.

Lemma act_env e w : env_step w (after (act e) w).
Proof.
  destruct e as [c|i r|r|rid|k sid token key lane lease|sid|sid lease| |table objects|ch|now]; simpl; try reflexivity.
  - unfold act, deliver. run_seg. destruct (pending _ !! _) as [f|]; [destruct (_expected _ !! _) as [x|]|];
      try by apply env_same. destruct (done _); [by apply env_same|]. by destruct (negb _); apply env_same.
  - unfold act, cancel_request. run_seg. destruct (active w !! rid) as [i|]; [|reflexivity]. simpl.
    destruct (negb _); [apply env_cancel|]. destruct (pending _ !! rid) as [f|]; [|apply env_cancel].
    destruct (done _); [apply env_cancel|]. etrans; [apply (env_cancel i)|]. by apply env_same.
  - unfold act. run_seg. destruct (slots w !! k) eqn:E; [reflexivity|]. by apply env_bind.
  - apply env_release.
  - unfold act, renew_lease. run_seg. destruct (find_session sid w) as [k|]; [|reflexivity].
    apply env_quiet, quiet_on_slot. intros s. apply same_op_lease.
  - unfold act, recover_expired_sessions. run_seg. pose proof (env_for_each release_binding (expired w) w env_release) as H.
    unfold after in H. by destruct (for_each release_binding (expired w) w) as [w' [[]|e]].
  - by apply env_same.
  - by apply env_same.
  - by apply env_same.
Qed.

(** ** Invariants of runs *)

Section runs.
Context (cfg : config) (info : nat → CommandEnvelope * option nat).
Notation rid_of i := (c_request_id (info i).1).
Notation guarantees := (λ i, guarantee i (info i).1 (info i).2).
Notation finishes := (λ i, finished i (info i).1 (info i).2).
Notation parked_all := (all_parked answers others guarantees allowed finishes).
Notation task_moved := (moved guarantees allowed finishes).
Notation loop_system := (system (S := worker) (E := exception) query_reply ResultEnvelope).

Lemma guarantees_rely i j w w' : i ≠ j → guarantees i w w' → others j w w'.
Proof.
  intros Hne H. split; [left; by apply (g_others _ _ _ _ _ H)|]. intros r Hr.
  by apply (g_active _ _ _ _ _ H) in Hr as [?|[-> _]].
Qed.

(** [n] commands have arrived. *)
Record inv (n : nat) (x : loop_system) : Prop := {
  i_parked : parked_all x;
  i_tasks i m : tasks x !! i = Some m → (i < n)%nat;
  i_unborn i : (n ≤ i)%nat → unborn i (st x);
  i_sessions : sessions_point (st x);
  i_issued i q : (i, q) ∈ issued x → (mutates q = true → own i committed (st x)) ∧ (is_Some (steps q) → effected i (st x));
  i_done i o : tasks x !! i = Some (Ret o) →
    ∃ e, o = Ok e ∧ v_request_id e = rid_of i ∧ honest_envelope i e (st x);
}.

Lemma g_keeps i j P w w' :
  (∀ r r', req_le r r' → P r → P r') → guarantees j w w' → own i P w → own i P w'.
Proof.
  intros HP HG (r & Hr & H). destruct (decide (i = j)) as [->|Hne].
  - pose proof (g_own _ _ _ _ _ HG) as Ho. rewrite Hr in Ho. destruct (requests w' !! j) as [r'|] eqn:E; simpl in Ho; [|done].
    exists r'. split; [done|]. by eapply HP.
  - exists r. split; [|done]. by rewrite (g_others _ _ _ _ _ HG i Hne).
Qed.
Lemma env_keeps i P w w' : (∀ r, P r → P (with_cancel r)) → env_step w w' → own i P w → own i P w'.
Proof. intros HP HE. by apply own_others, env_others. Qed.
Lemma committed_le r r' : req_le r r' → committed r → committed r'.
Proof. intros H. apply H. Qed.
Lemma effect_up r r' : req_le r r' → side_effect_applied r = true → side_effect_applied r' = true.
Proof. intros H. apply H. Qed.

Lemma honest_stable i e w w' : (requests w' !! i = requests w !! i ∨ others i w w') →
  honest_envelope i e w → honest_envelope i e w'.
Proof.
  unfold honest_envelope. intros [E|[[E|E] _]] H Hf r; rewrite E; [by apply H|by apply H|].
  destruct (requests w !! i) as [r0|] eqn:E0; simpl; [|done]. intros [= <-]. by apply (H Hf r0).
Qed.

Lemma move_inv n i x y : inv n x → parked_all y → (i < n)%nat → task_moved i x y → inv n y.
Proof.
  intros [Ip It Iu Is Ii Id] Hp Hi Hm. pose proof (moved_state _ _ _ _ _ _ Hm) as HG. split.
  - done.
  - intros j m Hj. destruct (decide (j = i)) as [->|Hne]; [done|]. rewrite (moved_tasks _ _ _ _ _ _ Hm j Hne) in Hj. by eapply It.
  - intros j Hj. apply (unborn_others _ (st x)); [|by apply Iu]. apply (guarantees_rely i j); [lia|done].
  - intros sid k Hf. unfold find_session in Hf. rewrite (g_sessions _ _ _ _ _ HG) in Hf. destruct (Is sid k Hf) as [s Hs].
    pose proof (g_slots _ _ _ _ _ HG k) as Hk. rewrite Hs in Hk. by destruct (slots (st y) !! k).
  - intros j q Hj. assert ((j, q) ∈ issued x ∨ (j = i ∧ allowed i q (st y))) as [Hold|[-> Ha]].
    { destruct (moved_issued _ _ _ _ _ _ Hm) as [[E _]|(q' & k & E & _ & Ha)]; rewrite E in Hj; [by left|].
      apply elem_of_app in Hj as [?|Hj]; [by left|]. apply list_elem_of_singleton in Hj. injection Hj as -> ->. by right. }
    + destruct (Ii j q Hold) as [H1 H2]. split; intros H.
      * by apply (g_keeps j i committed _ _ committed_le HG), H1.
      * by apply (g_keeps j i _ _ _ effect_up HG), H2.
    + destruct Ha as [H1 H2]. split.
      * intros H. destruct (H1 H) as (r & Hr & _ & Hc). by exists r.
      * intros [[pid lane] H]. apply (H2 pid lane H).
  - intros j o Hj. destruct (decide (j = i)) as [->|Hne].
    + destruct (moved_issued _ _ _ _ _ _ Hm) as [(_ & o' & Ho & Hf)|(q' & k & _ & Ho & _)]; rewrite Hj in Ho; [|done].
      injection Ho as <-. apply Hf.
    + rewrite (moved_tasks _ _ _ _ _ _ Hm j Hne) in Hj. destruct (Id j o Hj) as (e & He & Hn & Hh).
      exists e. split; [done|]. split; [done|]. eapply honest_stable; [left|done]. by apply (g_others _ _ _ _ _ HG).
Qed.

Lemma env_inv n x f : inv n x → (∀ w, env_step w (f w)) → inv n (poke f x).
Proof.
  intros [Ip It Iu Is Ii Id] Hf. specialize (Hf (st x)). split; simpl.
  - apply poke_sound; [typeclasses eauto|done|]. intros i. by apply env_others.
  - done.
  - intros j Hj. eapply unborn_others; [by apply env_others|by apply Iu].
  - by apply (es_sessions _ _ Hf).
  - intros j q Hj. destruct (Ii j q Hj) as [H1 H2].
    split; intros H.
    + apply (env_keeps j committed _ _ ltac:(by intros []) Hf). by apply H1.
    + apply (env_keeps j (λ r, side_effect_applied r = true) _ _ ltac:(by intros []) Hf). by apply H2.
  - intros j o Hj. destruct (Id j o Hj) as (e & He & Hn & Hh). exists e. split; [done|]. split; [done|].
    eapply honest_stable; [right; by apply env_others|done].
Qed.

Lemma inv_more n m x : (n ≤ m)%nat → inv n x → inv m x.
Proof.
  intros Hnm [Ip It Iu Is Ii Id]. split; try done.
  - intros i t Ht. specialize (It i t Ht). lia.
  - intros i Hi. apply Iu. lia.
Qed.

(** One event. *)
Lemma wake_step n i r x : inv n x →
  inv n (wake answers i r x) ∧ (wake answers i r x = x ∨ ((i < n)%nat ∧ task_moved i x (wake answers i r x))).
Proof.
  intros Hx. destruct (wake_sound answers others guarantees allowed finishes guarantees_rely i r x (i_parked _ _ Hx)) as [Hp Hm].
  destruct (tasks x !! i) as [m|] eqn:E.
  - assert (i < n)%nat as Hi by by eapply i_tasks. destruct Hm as [->|Hm]; [by split; [|left]|].
    split; [by eapply move_inv|by right].
  - unfold wake. rewrite E. by split; [|left].
Qed.
Lemma spawn_step n c x : inv n x → info n = (c, find_session (c_session_id c) (st x)) →
  let y := spawn n (handle_command cfg n c) x in inv (S n) y ∧ task_moved n x y.
Proof.
  intros Hx Hn y. unfold y.
  destruct (spawn_sound answers others guarantees allowed finishes guarantees_rely n (handle_command cfg n c) x (i_parked _ _ Hx)) as [Hp Hm].
  - rewrite Hn. simpl. apply handle_command_ok; [done| |by apply (i_unborn _ _ Hx)].
    intros k Hk. by eapply (i_sessions _ _ Hx).
  - split; [|done]. apply (move_inv (S n) n x); [by eapply inv_more; [|exact Hx]; lia|done|lia|done].
Qed.

Lemma start_inv : inv 0 (sys start).
Proof.
  split; try done. intros i q Hq. by apply elem_of_nil in Hq.
Qed.

(** *** Who occupies a slot, and in which order *)

Definition unfinished (x : loop_system) (j : nat) : Prop :=
  ∃ m, tasks x !! j = Some m ∧ result_of_task m = None.
(** Command [j] holds the slot [k]. *)
Definition occupies (x : loop_system) (j k : nat) : Prop :=
  unfinished x j ∧ registered j (st x) ∧ (info j).2 = Some k.
Record tidy (x : loop_system) : Prop := {
  t_active r j : active (st x) !! r = Some j → unfinished x j ∧ registered j (st x);
  t_op k s r : slots (st x) !! k = Some s → active_op s = Some r → ∃ j, occupies x j k ∧ rid_of j = r;
}.

Lemma registered_moves i j w w' : guarantees i w w' → registered j w → registered j w'.
Proof. by apply g_keeps. Qed.

(** What a task that just moved is now. *)
Lemma moved_task i x y : task_moved i x y →
  unfinished y i ∨ ∃ o, tasks y !! i = Some (Ret o) ∧ finishes i o (st y).
Proof.
  intros Hm. destruct (moved_issued _ _ _ _ _ _ Hm) as [(_ & o & Ho & Hf)|(q & k & _ & Ho & _)]; [right|left]; by eexists.
Qed.
Lemma moved_unfinished i j x y : task_moved i x y → j ≠ i → unfinished x j → unfinished y j.
Proof. intros Hm Hne (m & Ht & Hr). exists m. by rewrite (moved_tasks _ _ _ _ _ _ Hm j Hne). Qed.

Lemma tidy_move i x y : tidy x → task_moved i x y → tidy y.
Proof.
  intros [Ta To] Hm. pose proof (moved_state _ _ _ _ _ _ Hm) as HG. split.
  - intros r j Hj. destruct (decide (j = i)) as [->|Hne].
    + destruct (moved_task i x y Hm) as [Hu|(o & _ & Hf)]; [|by apply (finished_active _ _ _ _ _ Hf) in Hj].
      split; [done|]. apply (g_active _ _ _ _ _ HG) in Hj as [Hj|(_ & _ & ri & Hri)]; [|by exists ri].
      exact (registered_moves _ _ _ _ HG (proj2 (Ta r i Hj))).
    + apply (g_active _ _ _ _ _ HG) in Hj as [Hj|[? _]]; [|done]. destruct (Ta r j Hj) as [Hu Hr].
      split; [exact (moved_unfinished i j x y Hm Hne Hu)|exact (registered_moves _ _ _ _ HG Hr)].
  - intros k s' r Hs' Hop. pose proof (g_slots _ _ _ _ _ HG k) as Hk. rewrite Hs' in Hk.
    destruct (slots (st x) !! k) as [s|] eqn:Hs; simpl in Hk; [|done]. destruct Hk as [_ Ho].
    assert (active_op s = Some r ∨ (registered i (st y) ∧ (info i).2 = Some k ∧ rid_of i = r)) as [Hold|(Hreg & Hf & Hr)].
    { destruct (requests (st y) !! i) as [ri|] eqn:E; [|left; pose proof (g_free _ _ _ _ _ HG k s s' E Hs Hs'); congruence].
      destruct Ho as [H|[(Hf & _ & H)|(_ & _ & H & _)]]; [left; congruence|right|congruence].
      split; [by exists ri|]. split; [done|congruence]. }
    + destruct (To k s r Hs Hold) as (j & (Hu & Hreg & Hf) & Hr). destruct (decide (j = i)) as [->|Hne].
      * exists i. split; [|done]. split; [|split; [exact (registered_moves _ _ _ _ HG Hreg)|done]].
        destruct (moved_task i x y Hm) as [|(o & _ & Hfin)]; [done|]. exfalso.
        destruct (registered_moves _ _ _ _ HG Hreg) as (ri & Hri & _).
        apply (finished_slot _ _ _ _ _ Hfin ltac:(by exists ri) k s' Hf Hs'). congruence.
      * exists j. split; [|done]. split; [by apply (moved_unfinished i j x y Hm Hne)|]. split; [exact (registered_moves _ _ _ _ HG Hreg)|done].
    + exists i. split; [|done]. split; [|done]. destruct (moved_task i x y Hm) as [|(o & _ & Hfin)]; [done|]. exfalso.
      destruct Hreg as (ri & Hri & _). apply (finished_slot _ _ _ _ _ Hfin ltac:(by exists ri) k s' Hf Hs'). congruence.
Qed.

Lemma tidy_env x f : (∀ w, env_step w (f w)) → tidy x → tidy (poke f x).
Proof.
  intros Hf [Ta To]. specialize (Hf (st x)). split; simpl.
  - intros r j. rewrite (es_active _ _ Hf). intros Hj. destruct (Ta r j Hj) as [Hu Hr]. split; [done|].
    by apply (env_keeps j (λ _, True) _ _ ltac:(done) Hf).
  - intros k s' r Hs' Hop. destruct (slots (st x) !! k) as [s|] eqn:Hs.
    + destruct (es_slots _ _ Hf k s Hs) as (s2 & Hs2 & [_ E]). assert (s2 = s') as -> by congruence.
      destruct (To k s r Hs ltac:(congruence)) as (j & (Hu & Hr & Hfd) & Hrid). exists j. split; [|done].
      split; [done|]. split; [|done]. by apply (env_keeps j (λ _, True) _ _ ltac:(done) Hf).
    + by rewrite (es_new _ _ Hf k s' Hs Hs') in Hop.
Qed.

Lemma start_tidy : tidy (sys start).
Proof. done. Qed.

(** Numbers on a slot: a registered command holds it, or has been counted. *)
Definition counted (i : nat) (w : worker) : Prop := ∃ k s, (info i).2 = Some k ∧ slots w !! k = Some s ∧
  (active_op s = Some (rid_of i) ∨ executed (info i).1 s).
Definition ordered (n : nat) (x : loop_system) : Prop := ∀ i, (i < n)%nat → registered i (st x) → counted i (st x).

Section sequence.
Context (n : nat).
Context (same_number : ∀ i j, (i < n)%nat → (j < n)%nat → rid_of i = rid_of j →
  c_operation_seq (info i).1 = c_operation_seq (info j).1).

Lemma counted_other i j w w' : (i < n)%nat → (j < n)%nat → guarantees j w w' → counted i w → counted i w'.
Proof.
  intros Hi Hj HG (k & s & Hk & Hs & H). pose proof (g_slots _ _ _ _ _ HG k) as Ho. rewrite Hs in Ho.
  destruct (slots w' !! k) as [s'|] eqn:Hs'; simpl in Ho; [|done]. destruct Ho as [[_ Hle _] Ho].
  exists k, s'. split; [done|]. split; [done|].
  assert (executed (info i).1 s → executed (info i).1 s') as Hmono.
  { intros Hx m Hm. specialize (Hx m Hm). lia. }
  destruct H as [Ha|Hx]; [|by right; apply Hmono]. destruct Ho as [->|[(_ & Hmine & Ho)|(_ & Ho & _ & Hx)]]; [by left| |].
  - destruct Hmine as [?|Hmine]; [congruence|]. left. congruence.
  - right. intros m Hm. apply Hx. rewrite <- Hm. symmetry. apply same_number; [done|done|congruence].
Qed.
Lemma counted_own i w w' : guarantees i w w' → registered i w' → (registered i w → counted i w) → counted i w'.
Proof.
  intros HG Hreg Hold. destruct (requests w !! i) as [r|] eqn:E.
  - destruct Hold as (k & s & Hk & Hs & H); [by exists r|]. pose proof (g_slots _ _ _ _ _ HG k) as Ho. rewrite Hs in Ho.
    destruct (slots w' !! k) as [s'|] eqn:Hs'; simpl in Ho; [|done]. destruct Ho as [[_ Hle _] Ho].
    exists k, s'. split; [done|]. split; [done|]. destruct Ho as [->|[(_ & _ & Ho)|(_ & _ & _ & Hx)]]; [|by left|by right].
    destruct H as [?|Hx]; [by left|right]. intros m Hm. specialize (Hx m Hm). lia.
  - destruct Hreg as (r' & Hr' & _). destruct (g_registers _ _ _ _ _ HG E ltac:(by exists r')) as [(k & s & Hk & Hs & _) Hh].
    pose proof (g_slots _ _ _ _ _ HG k) as Ho. rewrite Hs in Ho.
    destruct (slots w' !! k) as [s'|] eqn:Hs'; simpl in Ho; [|done]. exists k, s'. split; [done|]. split; [done|].
    exact (Hh k s' Hk Hs').
Qed.
Lemma counted_env i w w' : env_step w w' → counted i w → counted i w'.
Proof.
  intros HE (k & s & Hk & Hs & H). destruct (es_slots _ _ HE k s Hs) as (s' & Hs' & [[_ Hle _] Ho]).
  exists k, s'. split; [done|]. split; [done|]. destruct H as [?|Hx]; [left; congruence|right].
  intros m Hm. specialize (Hx m Hm). lia.
Qed.

(** A command is registered only above every number before it. *)
Lemma registers_above i j w w' k ni nj :
  guarantees j w w' → requests w !! j = None → registered j w' → counted i w →
  (info i).2 = Some k → (info j).2 = Some k → rid_of i ≠ rid_of j →
  c_operation_seq (info i).1 = Some ni → c_operation_seq (info j).1 = Some nj → ni < nj.
Proof.
  intros HG Hn (r & Hr & _) (k1 & s1 & Hk1 & Hs1 & H) Hki Hkj Hne Hni Hnj.
  destruct (g_registers _ _ _ _ _ HG Hn ltac:(by exists r)) as [(k2 & s2 & Hk2 & Hs2 & Hmine & Hlast) _].
  assert (k1 = k ∧ k2 = k) as [-> ->] by (split; congruence). assert (s2 = s1) as -> by congruence.
  specialize (Hlast nj Hnj). destruct H as [Ha|Hx]; [|specialize (Hx ni Hni); lia].
  destruct Hmine as [?|Hmine]; congruence.
Qed.
End sequence.
End runs.

(** ** Runs *)

#[export] Instance command_inhabited : Inhabited CommandEnvelope := populate
  (Command "" "" None None None EnvOperation.RESET None Priority.INTERACTIVE
    (CommandPayload None None None None None None None) "").
(** The [i]-th command of a history. *)
Definition info_of (h : list (CommandEnvelope * option nat)) (i : nat) : CommandEnvelope * option nat := h !!! i.
Definition state (l : loop) : worker := st (sys l).
Definition arrived (l : loop) : nat := length (history l).

Lemma history_grows cfg es l : ∃ t, history (run cfg es l) = history l ++ t.
Proof.
  revert l. induction es as [|e es IH]; intros l; [exists []; by rewrite app_nil_r|].
  destruct (IH (exec cfg e l)) as [t Ht]. simpl. rewrite Ht. destruct e; simpl; eauto. eexists. by rewrite <- app_assoc.
Qed.

Section invariant.
Context (cfg : config) (info : nat → CommandEnvelope * option nat).
Definition agrees (l : loop) : Prop := ∀ i x, history l !! i = Some x → info i = x.
Notation good l := (inv info (arrived l) (sys l) ∧ tidy info (sys l)).

Lemma agrees_before es l : agrees (run cfg es l) → agrees l.
Proof. destruct (history_grows cfg es l) as [t Ht]. intros H i x Hi. apply H. rewrite Ht. by apply lookup_app_l_Some. Qed.

(** What an event does: nothing, a move of a task, or a step of the environment. *)
Lemma exec_cases e l : good l → agrees (exec cfg e l) →
  let l' := exec cfg e l in
  inv info (arrived l') (sys l') ∧
  (sys l' = sys l ∨
   (∃ i, (i < arrived l')%nat ∧
      moved (λ i, guarantee i (info i).1 (info i).2) allowed (λ i, finished i (info i).1 (info i).2) i (sys l) (sys l'))
   ∨ (∃ f, (∀ w, env_step w (f w)) ∧ sys l' = poke f (sys l))).
Proof.
  intros [Hi _] Ha l'. destruct e as [c|i r|r|rid|k sid token key lane lease|sid|sid lease| |table objects|ch|now];
    try (split; [apply env_inv; [exact Hi|apply act_env]|right; right; eexists; split; [|reflexivity]; apply act_env]).
  - assert (info (arrived l) = (c, find_session (c_session_id c) (st (sys l)))) as E.
    { apply Ha. simpl. by rewrite lookup_app_r, Nat.sub_diag. }
    destruct (spawn_step cfg info (arrived l) c (sys l) Hi E) as [H1 H2]. unfold l', arrived. simpl. rewrite length_app. simpl.
    rewrite Nat.add_comm. split; [done|]. right. left. exists (length (history l)). split; [lia|done].
  - destruct (wake_step info (arrived l) i r (sys l) Hi) as [H1 [H2|[H2 H3]]]; (split; [done|]); [by left|].
    right. left. by exists i.
Qed.
Lemma exec_good e l : good l → agrees (exec cfg e l) → good (exec cfg e l).
Proof.
  intros Hg Ha. destruct (exec_cases e l Hg Ha) as [H1 H2]. split; [done|].
  destruct H2 as [->|[(i & _ & Hm)|(f & Hf & ->)]]; [apply Hg|eapply tidy_move; [apply Hg|done]|apply tidy_env; [done|apply Hg]].
Qed.
Lemma run_good es l : good l → agrees (run cfg es l) → good (run cfg es l).
Proof.
  revert l. induction es as [|e es IH]; intros l Hg Ha; [done|]. simpl in *. apply IH; [|done].
  apply exec_good; [done|]. by apply (agrees_before es).
Qed.
Lemma start_good : good start.
Proof. split; [apply start_inv|apply start_tidy]. Qed.
End invariant.

Lemma agrees_self l : agrees (info_of (history l)) l.
Proof. intros i x Hi. unfold info_of. by rewrite (list_lookup_total_correct _ _ x). Qed.

(** The invariants of a run, for the histories of the runs that extend it. *)
Lemma reachable cfg es es' :
  let l := run cfg es start in let info := info_of (history (run cfg es' l)) in
  inv info (arrived l) (sys l) ∧ tidy info (sys l) ∧ agrees info l.
Proof.
  intros l info. assert (agrees info l) as Ha by (eapply agrees_before, agrees_self).
  destruct (run_good cfg info es start (start_good info) Ha). done.
Qed.

(** *** Cancellation *)

(** A request that was cancelled in time: no call was made for it, and none will be. *)
Definition cancelled_early (i : nat) (l : loop) : Prop :=
  own i (λ r, cancel_requested r = true) (state l) ∧ ∀ q, (i, q) ∈ issued (sys l) → mutates q = false.

Lemma cancelled_early_step cfg info i e l :
  inv info (arrived l) (sys l) ∧ tidy info (sys l) → agrees info (exec cfg e l) →
  cancelled_early i l → cancelled_early i (exec cfg e l).
Proof.
  intros Hg Ha [Hc Hq]. destruct (exec_cases cfg info e l Hg Ha) as [_ [E|[(j & Hj & Hm)|(f & Hf & E)]]].
  - unfold cancelled_early, state. by rewrite E.
  - pose proof (moved_state _ _ _ _ _ _ Hm) as HG.
    assert (own i (λ r, cancel_requested r = true) (state (exec cfg e l))) as Hc'.
    { eapply (g_keeps info); [|exact HG|exact Hc]. intros r r' [H _ _] ?. congruence. }
    split; [done|]. intros q Hin.
    destruct (moved_issued _ _ _ _ _ _ Hm) as [[E _]|(q' & k & E & _ & Hal)]; rewrite E in Hin; [by apply Hq|].
    apply elem_of_app in Hin as [?|Hin]; [by apply Hq|]. apply list_elem_of_singleton in Hin. injection Hin as -> ->.
    destruct (mutates q') eqn:Hmut; [|done]. exfalso. destruct (allowed_mutates _ _ _ Hal Hmut) as (r & Hr & Hn & _).
    destruct Hc' as (r' & Hr' & Hy). unfold state in *. congruence.
  - unfold cancelled_early, state. rewrite E. simpl. split; [|done].
    by refine (env_keeps i (λ r, cancel_requested r = true) _ _ _ (Hf _) Hc).
Qed.
Lemma cancelled_early_run cfg info i es l :
  inv info (arrived l) (sys l) ∧ tidy info (sys l) → agrees info (run cfg es l) →
  cancelled_early i l → cancelled_early i (run cfg es l).
Proof.
  revert l. induction es as [|e es IH]; intros l Hg Ha Hc; [done|]. simpl in *.
  assert (agrees info (exec cfg e l)) as Ha' by by apply (agrees_before cfg info es).
  apply IH; [by apply exec_good|done|by eapply cancelled_early_step].
Qed.

Lemma cancel_true rid i w : active w !! rid = Some i → result_of (cancel_request rid) w = Ok true →
  registered i w → own i (λ r, ¬ committed r) w ∧ own i (λ r, cancel_requested r = true) (after (cancel_request rid) w).
Proof.
  intros Ha Hres (r & Hr & _). unfold cancel_request in *. run_seg. rewrite Ha in *. simpl in *.
  rewrite lookup_total_alt, Hr in *. simpl in *. destruct (cancellable r) eqn:Ec; simpl in *; [|done]. split.
  - exists r. split; [done|]. unfold cancellable, member, committed in *. apply andb_true_iff in Ec as [E1 E2].
    apply negb_true_iff in E1. apply bool_decide_eq_true in E2. intros [H|[H|H]]; [congruence|rewrite H in E2; set_solver|rewrite H in E2; set_solver].
  - exists (with_cancel r). split; [|done]. destruct (pending (inference w) !! rid) as [f|]; simpl.
    + destruct (done _); simpl; by rewrite lookup_alter_eq, Hr.
    + by rewrite lookup_alter_eq, Hr.
Qed.

(** C8: a cancellation that was acknowledged is final.  When [cancel] answers true, no call
    that could move the environment was made for that command, and none is ever made:
    whatever the environment answers and whatever else arrives. *)
Theorem acknowledged_cancellation_is_final cfg es es' rid i :
  let l := run cfg es start in
  active (state l) !! rid = Some i → result_of (cancel_request rid) (state l) = Ok true →
  ∀ q, (i, q) ∈ issued (sys (run cfg (Cancels rid :: es') l)) → mutates q = false.
Proof.
  intros l Ha Hres. set (info := info_of (history (run cfg (Cancels rid :: es') l))).
  destruct (reachable cfg es (Cancels rid :: es')) as (Hi & Ht & Hag). fold l info in Hi, Ht, Hag.
  assert (agrees info (run cfg (Cancels rid :: es') l)) as Hall by apply agrees_self.
  destruct (cancel_true rid i (state l) Ha Hres) as [Hn Hc]; [apply (t_active _ _ Ht rid i Ha)|].
  assert (cancelled_early i (exec cfg (Cancels rid) l)) as Hearly.
  { split.
    - assert (state (exec cfg (Cancels rid) l) = after (cancel_request rid) (state l)) as ->; [|done].
      unfold state, exec, poke, act, after, mbind, segment_bind, prog_bind. cbn [sys st].
      by destruct (cancel_request rid (st (sys l))) as [w' [b|e]].
    - simpl. intros q Hq. destruct (mutates q) eqn:E; [|done]. exfalso.
      destruct (proj1 (i_issued _ _ _ Hi i q Hq) E) as (r & Hr & Hcom). destruct Hn as (r' & Hr' & Hn).
      unfold state in *. apply Hn. congruence. }
  change (run cfg (Cancels rid :: es') l) with (run cfg es' (exec cfg (Cancels rid) l)) in *.
  apply (cancelled_early_run cfg info i es'); [|done|done]. apply exec_good; [done|].
  exact (agrees_before cfg info es' _ Hall).
Qed.

(** *** Answers *)

Lemma task_has_arrived cfg es i m :
  let l := run cfg es start in tasks (sys l) !! i = Some m → ∃ c found, history l !! i = Some (c, found) ∧
    info_of (history l) i = (c, found).
Proof.
  intros l Hm. destruct (reachable cfg es []) as (Hi & _ & _). apply (i_tasks _ _ _ Hi) in Hm.
  destruct (lookup_lt_is_Some_2 _ _ Hm) as [[c found] Hc]. exists c, found. split; [done|].
  unfold info_of. by apply list_lookup_total_correct.
Qed.

(** C11: every command is answered, and honestly.  A task never ends with an exception but
    with an envelope that names its request; an envelope that says that no side effect was
    applied is only given when no step was ever requested of the environment for the
    command. *)
Theorem answers_are_honest cfg es i o :
  let l := run cfg es start in
  tasks (sys l) !! i = Some (Ret o) →
  ∃ c found e, history l !! i = Some (c, found) ∧ o = Ok e ∧ v_request_id e = c_request_id c ∧
    (v_side_effect_applied e = false → ∀ q, (i, q) ∈ issued (sys l) → steps q = None).
Proof.
  intros l Ho. destruct (task_has_arrived cfg es i _ Ho) as (c & found & Hc & Hinfo).
  destruct (reachable cfg es []) as (Hi & _ & _). destruct (i_done _ _ _ Hi i o Ho) as (e & He & Hn & Hh).
  exists c, found, e. change (run cfg [] (run cfg es start)) with (run cfg es start) in Hn. rewrite Hinfo in Hn.
  split_and!; try done. intros Hf q Hq. destruct (steps q) as [p|] eqn:E; [|done]. exfalso.
  destruct (proj2 (i_issued _ _ _ Hi i q Hq) ltac:(by rewrite E)) as (r & Hr & Hs). specialize (Hh Hf r Hr). congruence.
Qed.

(** *** Episodes *)

Definition slots_advance (w w' : worker) : Prop :=
  ∀ k s, slots w !! k = Some s → ∃ s', slots w' !! k = Some s' ∧ slot_le s s'.
#[global] Instance slots_advance_preorder : PreOrder slots_advance.
Proof.
  split; [by intros w k s ?; exists s|]. intros w1 w2 w3 H1 H2 k s Hs. destruct (H1 k s Hs) as (s2 & Hs2 & L2).
  destruct (H2 k s2 Hs2) as (s3 & Hs3 & L3). exists s3. split; [done|by etrans].
Qed.
Lemma guarantee_advances i c found w w' : guarantee i c found w w' → slots_advance w w'.
Proof.
  intros HG k s Hs. pose proof (g_slots _ _ _ _ _ HG k) as Hk. rewrite Hs in Hk.
  destruct (slots w' !! k) as [s'|]; simpl in Hk; [|done]. exists s'. split; [done|apply Hk].
Qed.
Lemma run_advances cfg info es l :
  inv info (arrived l) (sys l) ∧ tidy info (sys l) → agrees info (run cfg es l) →
  slots_advance (state l) (state (run cfg es l)).
Proof.
  revert l. induction es as [|e es IH]; intros l Hg Ha; [reflexivity|].
  change (run cfg (e :: es) l) with (run cfg es (exec cfg e l)) in *.
  assert (agrees info (exec cfg e l)) as Ha' by exact (agrees_before cfg info es _ Ha).
  etrans; [|apply IH; [by apply exec_good|done]].
  destruct (exec_cases cfg info e l Hg Ha') as [_ [E|[(i & _ & Hm)|(f & Hf & E)]]]; unfold state.
  - by rewrite E.
  - eapply guarantee_advances. exact (moved_state _ _ _ _ _ _ Hm).
  - rewrite E. simpl. intros k s Hs. destruct (es_slots _ _ (Hf _) k s Hs) as (s' & Hs' & [L _]). by exists s'.
Qed.

(** C12: episodes end once, and a finished one is never stepped.  Along any run a slot keeps
    its binding, its executed number never falls, its episode number never falls, and within
    an episode [terminated] and [truncated] never fall back; and whenever a task asks the
    environment to step a lane, a running episode is bound to that lane. *)
Theorem finished_episodes_are_not_stepped cfg es es' :
  let l := run cfg es start in
  slots_advance (state l) (state (run cfg es' l)) ∧
  ∀ e i q pid lane, issued (sys (exec cfg e l)) = issued (sys l) ++ [(i, q)] → steps q = Some (pid, lane) →
    runs_on pid lane (state (exec cfg e l)).
Proof.
  intros l. split.
  - destruct (reachable cfg es es') as (Hi & Ht & _). eapply run_advances; [by split|apply agrees_self].
  - intros e i q pid lane Hq Hs. destruct (reachable cfg es [e]) as (Hi & Ht & _). fold l in Hi, Ht.
    change (run cfg [e] l) with (exec cfg e l) in *. set (info := info_of (history (exec cfg e l))) in *.
    destruct (exec_cases cfg info e l ltac:(by split) (agrees_self _)) as [_ [E|[(j & _ & Hm)|(f & _ & E)]]].
    + rewrite E in Hq. apply (f_equal length) in Hq. rewrite length_app in Hq. simpl in Hq. lia.
    + destruct (moved_issued _ _ _ _ _ _ Hm) as [[E _]|(q' & k & E & _ & Ha)]; rewrite E in Hq.
      * apply (f_equal length) in Hq. rewrite length_app in Hq. simpl in Hq. lia.
      * apply app_inv_head in Hq. injection Hq as -> ->. apply (allowed_steps _ _ _ Ha pid lane Hs).
    + rewrite E in Hq. simpl in Hq. apply (f_equal length) in Hq. rewrite length_app in Hq. simpl in Hq. lia.
Qed.

(** *** Order *)

(** A request identifier is used for one operation number. *)
Definition numbers_follow_ids (h : list (CommandEnvelope * option nat)) : Prop :=
  ∀ a b ca cb, h !! a = Some ca → h !! b = Some cb → c_request_id ca.1 = c_request_id cb.1 →
    c_operation_seq ca.1 = c_operation_seq cb.1.

Lemma exec_numbered cfg info n e l :
  (∀ i j, (i < n)%nat → (j < n)%nat → c_request_id (info i).1 = c_request_id (info j).1 →
    c_operation_seq (info i).1 = c_operation_seq (info j).1) →
  inv info (arrived l) (sys l) ∧ tidy info (sys l) → agrees info (exec cfg e l) → (arrived (exec cfg e l) ≤ n)%nat →
  ordered info n (sys l) → ordered info n (sys (exec cfg e l)).
Proof.
  intros Hsame Hg Ha Hn Hord. destruct (exec_cases cfg info e l Hg Ha) as [_ [E|[(j & Hj & Hm)|(f & Hf & E)]]].
  - by rewrite E.
  - pose proof (moved_state _ _ _ _ _ _ Hm) as HG. intros i Hi Hreg. destruct (decide (i = j)) as [->|Hne].
    + eapply (counted_own info); [exact HG|exact Hreg|]. by apply Hord.
    + eapply (counted_other info n Hsame i j); [done|lia|exact HG|]. apply Hord; [done|].
      destruct Hreg as (r & Hr & _). exists r. by rewrite <- (g_others _ _ _ _ _ HG i Hne).
  - rewrite E. intros i Hi Hreg. simpl in *. eapply counted_env; [apply Hf|]. apply Hord; [done|].
    destruct Hreg as (r & Hr & _). destruct (es_request _ _ (Hf (st (sys l))) i) as [E1|E1]; rewrite E1 in Hr; [by exists r|].
    destruct (requests (st (sys l)) !! i) as [r0|] eqn:E0; [|done]. by exists r0.
Qed.
Lemma run_numbered cfg info n es l :
  (∀ i j, (i < n)%nat → (j < n)%nat → c_request_id (info i).1 = c_request_id (info j).1 →
    c_operation_seq (info i).1 = c_operation_seq (info j).1) →
  inv info (arrived l) (sys l) ∧ tidy info (sys l) → agrees info (run cfg es l) → (arrived (run cfg es l) ≤ n)%nat →
  ordered info n (sys l) → ordered info n (sys (run cfg es l)).
Proof.
  intros Hsame. revert l. induction es as [|e es IH]; intros l Hg Ha Hn Hord; [done|].
  change (run cfg (e :: es) l) with (run cfg es (exec cfg e l)) in *.
  assert (agrees info (exec cfg e l)) as Ha' by exact (agrees_before cfg info es _ Ha).
  apply IH; [by apply exec_good|done|done|]. apply exec_numbered; try done.
  destruct (history_grows cfg es (exec cfg e l)) as [t Ht]. unfold arrived in *. rewrite Ht, length_app in Hn. lia.
Qed.

(** C9: the operations of a binding execute in the order of their numbers.  When a mutating
    command is admitted to execution, its operation number is above the number of every
    other command admitted on that binding before; a late or overtaken command is never
    admitted. *)
Theorem commands_admitted_in_order cfg es e i j ci cj k ni nj :
  let l := run cfg es start in let l' := exec cfg e l in
  numbers_follow_ids (history l') →
  history l' !! i = Some (ci, Some k) → history l' !! j = Some (cj, Some k) →
  c_request_id ci ≠ c_request_id cj → c_operation_seq ci = Some ni → c_operation_seq cj = Some nj →
  is_Some (requests (state l) !! i) → requests (state l) !! j = None → is_Some (requests (state l') !! j) →
  ni < nj.
Proof.
  intros l l' Hids Hi Hj Hne Hni Hnj [ri Hri] Hrj [rj Hrj'].
  destruct (reachable cfg es [e]) as (Hinv & Ht & _). fold l in Hinv, Ht. change (run cfg [e] l) with l' in Hinv, Ht.
  set (info := info_of (history l')) in *. assert (agrees info l') as Hag by apply agrees_self.
  assert (info i = (ci, Some k) ∧ info j = (cj, Some k)) as [Ei Ej] by (split; by apply Hag).
  assert (∀ a b, (a < arrived l')%nat → (b < arrived l')%nat → c_request_id (info a).1 = c_request_id (info b).1 →
    c_operation_seq (info a).1 = c_operation_seq (info b).1) as Hsame.
  { intros a b Hla Hlb. destruct (lookup_lt_is_Some_2 _ _ Hla) as [ca Hca], (lookup_lt_is_Some_2 _ _ Hlb) as [cb Hcb].
    rewrite (Hag a ca Hca), (Hag b cb Hcb). by apply (Hids a b). }
  assert (agrees info l) as Hag0 by exact (agrees_before cfg info [e] l Hag).
  assert (arrived l ≤ arrived l')%nat as Hle.
  { destruct (history_grows cfg [e] l) as [t E]. change (run cfg [e] l) with l' in E. unfold arrived. rewrite E, length_app. lia. }
  assert (ordered info (arrived l') (sys l)) as Hord.
  { apply run_numbered; [done|apply start_good|done|done|]. intros a _ (r & Hr & _). done. }
  destruct (exec_cases cfg info e l ltac:(by split) Hag) as [_ [E|[(a & _ & Hm)|(f & Hf & E)]]].
  - unfold state in *. fold l' in E. rewrite E in Hrj'. congruence.
  - pose proof (moved_state _ _ _ _ _ _ Hm) as HG. destruct (decide (j = a)) as [->|Hja].
    + eapply (registers_above info i a); [exact HG|done|by exists rj| |by rewrite Ei|by rewrite Ej|by rewrite Ei, Ej|by rewrite Ei|by rewrite Ej].
      apply Hord; [by eapply lookup_lt_Some|by exists ri].
    + pose proof (g_others _ _ _ _ _ HG j Hja) as E. unfold state in *. fold l' in E. congruence.
  - destruct (es_request _ _ (Hf (st (sys l))) j) as [E1|E1]; unfold state in *; fold l' in E; rewrite E in Hrj';
      simpl in Hrj'; rewrite E1, Hrj in Hrj'; done.
Qed.

(** *** Rest *)

(** C14: a worker at rest is clean.  When every command has been answered, no request is
    registered as active and no slot is marked as executing, so every binding whose lease has
    run out is collected by the next round of recovery: no failure, cancellation or late
    answer can leave a slot occupied. *)
Theorem idle_worker_is_clean cfg es :
  let l := run cfg es start in
  (∀ i m, tasks (sys l) !! i = Some m → is_Some (result_of_task m)) →
  active (state l) = ∅ ∧ (∀ k s, slots (state l) !! k = Some s → active_op s = None) ∧
  ∀ sid k s, (sid, k) ∈ sessions (state l) → slots (state l) !! k = Some s →
    lease_expiration s ≠ 0 → lease_expiration s ≤ clock (state l) → sid ∈ expired (state l).
Proof.
  intros l Hdone. destruct (reachable cfg es []) as (_ & [Ta To] & _). fold l in Ta, To.
  assert (∀ j, ¬ unfinished (sys l) j) as Hnone.
  { intros j (m & Hm & Hr). destruct (Hdone j m Hm) as [o Ho]. congruence. }
  assert (∀ k s, slots (state l) !! k = Some s → active_op s = None) as Hops.
  { intros k s Hs. destruct (active_op s) as [r|] eqn:E; [|done]. destruct (To k s r Hs E) as (j & (Hu & _) & _).
    by apply Hnone in Hu. }
  split; [|split; [done|]].
  - apply map_empty. intros r. destruct (active (state l) !! r) as [j|] eqn:E; [|done].
    destruct (Ta r j E) as [Hu _]. by apply Hnone in Hu.
  - intros sid k s Hin Hs Hl Hc. unfold expired. apply list_elem_of_fmap. exists (sid, k). split; [done|].
    apply elem_of_bfilter. split; [|done]. simpl. rewrite lookup_total_alt, Hs. simpl. rewrite (Hops k s Hs).
    rewrite bool_decide_true by done. apply andb_true_iff. split; [|done]. apply andb_true_iff.
    rewrite negb_true_iff, Z.eqb_neq, Z.leb_le. lia.
Qed.

(** *** The fuel of an episode *)

Lemma andthen_ext {A B} (m : task A) (f g : outcome exception A → task B) :
  (∀ o, f o = g o) → andthen m f = andthen m g.
Proof. intros H. f_equal. by apply functional_extensionality. Qed.

Lemma andthen_now_ext {A B} (m : segment A) (f g : outcome exception A → task B) :
  (∀ w, f (result_of m w) = g (result_of m w)) → andthen (now m) f = andthen (now m) g.
Proof.
  intros H. unfold now. simpl. f_equal. apply functional_extensionality. intros w. specialize (H w).
  unfold result_of in H. destruct (m w) as [w' o]. simpl in *. by f_equal.
Qed.
Lemma should_finish_stops a sid r n w :
  max_steps r ≤ n → ∃ reason, result_of (should_finish_episode a sid r n) w = Ok (Some reason).
Proof.
  intros Hn. unfold should_finish_episode. run_seg. apply Z.leb_le in Hn. rewrite Hn.
  destruct (find_session sid w) as [k|]; [|by eexists]. destruct (terminated _); [by eexists|].
  destruct (truncated _ && _); [by eexists|]. destruct (match a with Some i => _ | None => false end); [by eexists|].
  destruct (match deadline r with Some d => _ | None => false end); by eexists.
Qed.

(** [max_steps] rounds are enough: more fuel changes nothing, so the bound of the model is
    never what ends an episode. *)
Theorem episode_rounds_suffice cfg fuel a k sid c r t :
  (Z.to_nat (max_steps r - EnvWorker.steps t) ≤ fuel)%nat →
  episode_loop cfg (S fuel) a k sid c r t = episode_loop cfg fuel a k sid c r t.
Proof.
  revert t. induction fuel as [|fuel IH]; intros t Hf.
  - cbn [episode_loop]. apply andthen_now_ext. intros w.
    destruct (should_finish_stops a sid r (EnvWorker.steps t) w) as [reason ->]; [lia|done].
  - change (episode_loop cfg (S (S fuel)) a k sid c r t) with
      (reason ← now (should_finish_episode a sid r (EnvWorker.steps t));
       match reason with
       | Some reason => mret (t, reason)
       | None =>
           step ← except (s ← _policy_step_inner cfg a k (policy r) c (deadline r) Priority.INTERACTIVE; mret (inl s))
             (λ e, if ended_inside e then
                     s ← now (slot_of k); mret (inr (if terminated s then "terminated" else "truncated"))
                   else throw e);
           match step with
           | inr reason => mret (t, reason)
           | inl s => now (publish_transition r s) ≫= λ _, episode_loop cfg (S fuel) a k sid c r (tally_step s t)
           end
       end : task (tally * string)).
    cbn [episode_loop]. apply andthen_ext. intros [[reason|]|e]; [done| |done].
    apply andthen_ext. intros [[s|reason]|e]; [|done|done]. apply andthen_ext. intros [[]|e]; [|done].
    apply IH. simpl. lia.
Qed.

(** ** Concrete runs *)

Definition one_slot_each : config := Config 0 "env" "pi" true (λ _, "fake") (λ _, true) (λ _, []).
Definition chunk : PayloadRef := Payload 8 (Ok (Matrix [VInt 1], true)).
Definition the_policy : PolicyRequest := Policy None None VNone None.
(** A command for the session [sid] under the token [tok]. *)
Definition command (sid tok rid : string) (op : EnvOperation.t) (seq : Z) : CommandEnvelope :=
  Command rid sid (Some tok) None (Some seq) op None Priority.INTERACTIVE
    (CommandPayload (Some VNone) (Some (Some chunk)) (Some the_policy) (Some (Episode 2 the_policy None None true))
      None None None) "app".
Definition frame (n : Z) : Observation := Obs "" 0 n VNone.
Definition outcome_at (n : Z) (over : bool) : ChunkOutcome := Outcome (Some (frame n)) (QArith_base.inject_Z 1) over false 1 VNone true [].
Definition inferred (rid tok : string) : ActionResponse := Response rid (Some tok) (Some 1) (Some chunk) "v1" VNone None.
Definition one_pool : EnvPool.t := EnvPool.make "key" 1 1 (Some (EnvPool.Core 1 true false)).
(** A worker with a pool of one slot, an inference channel, and session ["a"] on the slot. *)
Definition booted : list event :=
  [PoolsBecome {["key" := 0%nat]} {[0%nat := one_pool]}; ChannelBecomes (Some (0, 8)); Binds 0 "a" "ta" "key" 0 100].
Definition reset_a : list event :=
  [Arrives (command "a" "ta" "r1" EnvOperation.RESET 1); Answers 0 Granted; Answers 0 (Frames [frame 0])].
(** A policy step that waits for its inference. *)
Definition policy_waits : list event :=
  [Arrives (command "a" "ta" "r2" EnvOperation.POLICY_STEP 2); Answers 1 Granted; Answers 1 Accepted].
Definition policy_steps : list event :=
  [Delivers (inferred "r2" "ta"); Answers 1 Resolved; Answers 1 (Outcomes [outcome_at 1 true])].

(** The commands whose answers are in. *)
Definition answered (l : loop) : list (option (OperationState.t * bool)) :=
  (λ i, match tasks (sys l) !! i with
        | Some (Ret (Ok e)) => Some (v_state e, v_side_effect_applied e)
        | _ => None
        end) <$> seq 0 (arrived l).
Definition steps_issued (l : loop) : list (nat * (nat * Z)) := omap (λ p, (p.1,.) <$> steps p.2) (issued (sys l)).

Example a_policy_step :
  let l := run one_slot_each (booted ++ reset_a ++ policy_waits ++ policy_steps) start in
  answered l = [Some (OperationState.SUCCEEDED, true); Some (OperationState.SUCCEEDED, true)] ∧
  steps_issued l = [(1%nat, (0%nat, 0))] ∧
  (terminated <$> slots (state l) !! 0%nat) = Some true.
Proof. vm_compute. done. Qed.

Lemma acknowledged_cancellation_is_final_witness :
  Forall (λ p, p.1 = 1%nat → mutates p.2 = false) (issued (sys (run one_slot_each (Cancels "r2" :: policy_steps)
    (run one_slot_each (booted ++ reset_a ++ policy_waits) start)))).
Proof.
  apply Forall_forall. intros [i q] Hq. simpl. intros ->.
  apply (acknowledged_cancellation_is_final one_slot_each (booted ++ reset_a ++ policy_waits) policy_steps "r2" 1);
    [vm_compute; reflexivity|vm_compute; reflexivity|exact Hq].
Defined.

Definition cancelled_run : loop :=
  run one_slot_each (booted ++ reset_a ++ policy_waits ++ [Cancels "r2"; Answers 1 Resolved]) start.
Lemma answers_are_honest_witness :
  ∃ c found e, history cancelled_run !! 1%nat = Some (c, found) ∧
    match tasks (sys cancelled_run) !! 1%nat with Some (Ret o) => o = Ok e | _ => False end ∧
    v_request_id e = c_request_id c ∧
    (v_side_effect_applied e = false → ∀ q, (1%nat, q) ∈ issued (sys cancelled_run) → steps q = None).
Proof.
  assert (∃ o, tasks (sys cancelled_run) !! 1%nat = Some (Ret o)) as [o Ho] by (vm_compute; eauto).
  rewrite Ho. exact (answers_are_honest one_slot_each _ 1 o Ho).
Defined.

Lemma finished_episodes_are_not_stepped_witness :
  let l := run one_slot_each (booted ++ reset_a ++ policy_waits ++ [Delivers (inferred "r2" "ta")]) start in
  runs_on 0 0 (state (exec one_slot_each (Answers 1 Resolved) l)).
Proof.
  apply (proj2 (finished_episodes_are_not_stepped one_slot_each
    (booted ++ reset_a ++ policy_waits ++ [Delivers (inferred "r2" "ta")]) []) (Answers 1 Resolved) 1%nat
    (Core 0 (ChunkStep 0 [VInt 1]))); vm_compute; reflexivity.
Defined.

Lemma commands_admitted_in_order_witness : 1 < 2.
Proof.
  apply (commands_admitted_in_order one_slot_each (booted ++ reset_a)
    (Arrives (command "a" "ta" "r2" EnvOperation.POLICY_STEP 2)) 0 1 (command "a" "ta" "r1" EnvOperation.RESET 1)
    (command "a" "ta" "r2" EnvOperation.POLICY_STEP 2) 0); try (vm_compute; eauto; fail).
  - intros [|[|a]] [|[|b]] ca cb Ha Hb; vm_compute in Ha, Hb; try discriminate;
      injection Ha as <-; injection Hb as <-; vm_compute; congruence.
  - vm_compute. discriminate.
Defined.

Lemma idle_worker_is_clean_witness :
  let l := run one_slot_each (booted ++ reset_a ++ policy_waits ++ policy_steps ++ [Ticks 200]) start in
  active (state l) = ∅ ∧ "a" ∈ expired (state l).
Proof.
  set (es := booted ++ reset_a ++ policy_waits ++ policy_steps ++ [Ticks 200]).
  destruct (idle_worker_is_clean one_slot_each es) as (H1 & _ & H3).
  - intros i m Hm. assert (i < 2)%nat as Hi.
    { destruct (reachable one_slot_each es []) as (Hi & _ & _). exact (i_tasks _ _ _ Hi i m Hm). }
    destruct i as [|[|i]]; [| |lia]; vm_compute in Hm; injection Hm as <-; vm_compute; eauto.
  - split; [exact H1|]. eapply (H3 "a" 0%nat); [vm_compute; left|vm_compute; reflexivity|vm_compute; discriminate|vm_compute; discriminate].
Defined.

(** A lane can be stepped by a session that no longer owns it.  While a policy step of
    one session waits for its action, [release_binding] gives the slot back and another
    session is bound to it; the step goes on with the slot object it kept: it moves the
    environment of the new session, and reports success. *)
Theorem released_lane_is_stepped :
  let l := run one_slot_each (booted ++ reset_a ++ policy_waits ++
    [Releases "a"; Binds 1 "b" "tb" "key" 0 100;
     Arrives (command "b" "tb" "r3" EnvOperation.RESET 1); Answers 2 Granted; Answers 2 (Frames [frame 0])] ++
    policy_steps) start in
  sessions (state l) = [("b", 1%nat)] ∧ steps_issued l = [(1%nat, (0%nat, 0))] ∧
  nth_error (answered l) 1 = Some (Some (OperationState.SUCCEEDED, true)) ∧
  (step_index <$> slots (state l) !! 1%nat) = Some 0.
Proof. vm_compute. done. Qed.

(** A command delivered twice is executed twice when the second copy arrives while the
    first is running: the guard on the slot compares request identifiers and lets its own
    pass, and the operation number is recorded only at the end. *)
Theorem duplicate_command_steps_twice :
  let c := command "a" "ta" "r2" EnvOperation.ACTION_STEP 2 in
  let l := run one_slot_each (booted ++ reset_a ++
    [Arrives c; Answers 1 Granted; Arrives c; Answers 1 (Outcomes [outcome_at 1 false]);
     Answers 2 Granted; Answers 2 (Outcomes [outcome_at 2 false])]) start in
  steps_issued l = [(1%nat, (0%nat, 0)); (2%nat, (0%nat, 0))] ∧
  answered l = replicate 3 (Some (OperationState.SUCCEEDED, true)).
Proof. vm_compute. done. Qed.

End EnvRuns.
