(* ===== verification/JsonIO.v ===== *)
(** * Canonical JSON files and the append-only ledger: [zetta/evolution/jsonio.py]

    JSON values are the [native] structures of [Codec.v] (no bytes, finite floats).
    [canonical_json_bytes] sorts keys and ends with a newline; a ledger file is the list
    of the records its lines parse to.  [append] is what a call does under the ledger's lock,
    with its checks of the key; the lock itself, and a process that dies with it, are in
    [CampaignStore.v].  Theorem: a ledger never holds two records of one key, appending is
    idempotent, and a conflicting record is refused. *)

From S2P Require Import Prelude PyDict Sorting Sha256 Codec CanonicalJson.

Open Scope string_scope.
Open Scope list_scope.
Open Scope Z_scope.

Definition json_object : Type := list (string * native).

(** [value.get(key)] *)
Definition obj_get (key : string) (d : json_object) : native :=
  default NNone (assoc_lookup key d).

Definition newline : string := char 10.

Definition canonical_json_bytes (v : native) : string := render (sort_keys v) +:+ newline.

Definition canonical_sha256 (v : native) : string := sha256_hex (canonical_json_bytes v).

Lemma str_length_app (s t : string) :
  String.length (s +:+ t) = (String.length s + String.length t)%nat.
Proof. induction s as [|c s IH]; [done|]. rewrite str_app_cons. simpl. by rewrite IH. Qed.

Lemma str_app_inj_r (s t u : string) : s +:+ u = t +:+ u → s = t.
Proof.
  revert t. induction s as [|c s IH]; intros [|c' t]; rewrite ?str_app_nil, ?str_app_cons.
  - done.
  - intros H%(f_equal String.length). simpl in H. rewrite str_length_app in H. lia.
  - intros H%(f_equal String.length). simpl in H. rewrite str_length_app in H. lia.
  - intros [= -> H]. f_equal. by apply IH.
Qed.

(** The bytes determine the value up to the order of object keys. *)
Lemma canonical_json_bytes_inj (v w : native) :
  plain v = true → plain w = true →
  canonical_json_bytes v = canonical_json_bytes w ↔ sort_keys v = sort_keys w.
Proof.
  intros Hv Hw. unfold canonical_json_bytes. split; [|by intros ->].
  intros H%str_app_inj_r. apply (f_equal (λ s, s +:+ EmptyString)) in H.
  by apply render_split in H as [? _]; auto using plain_sort_keys.
Qed.

Module AppendOnlyLedger.
Section ledger.
Context (key : string).

(** The identity a record is filed under: a nonempty string. *)
Definition identity (record : json_object) : option string :=
  match obj_get key record with
  | NStr s => if str_true s then Some s else None
  | _ => None
  end.

(** The records of the file, oldest first. *)
Definition t : Type := list json_object.

Definition matches (identity : string) (rows : t) : t :=
  bfilter (λ row, bool_decide (obj_get key row = NStr identity)) rows.

Definition append (record : json_object) : prog t py_error bool :=
  match identity record with
  | None => raise (ValueError ("ledger record requires non-empty '" +:+ key +:+ "'"))
  | Some i =>
      let payload := canonical_json_bytes (NDict record) in
      rows ← get_state;
      match matches i rows with
      | [] => modify (λ rows, rows ++ [record]);; mret true
      | [row] =>
          if String.eqb (canonical_json_bytes (NDict row)) payload then mret false
          else raise (ValueError ("duplicate ledger key with different payload: " +:+ key +:+ "=" +:+ i))
      | _ => raise (ValueError ("duplicate ledger key with different payload: " +:+ key +:+ "=" +:+ i))
      end
  end.

Inductive step : t → t → Prop :=
  | step_append record s : step s (after (append record) s).

(** Every row has an identity and no two rows have the same. *)
Definition wf (rows : t) : Prop :=
  (∀ row, row ∈ rows → is_Some (identity row)) ∧ NoDup (identity <$> rows).

Lemma identity_eq row i : identity row = Some i ↔ obj_get key row = NStr i ∧ str_true i = true.
Proof.
  unfold identity. destruct (obj_get key row) as [ | | | |s| | |]; try naive_solver.
  destruct (str_true s) eqn:E; naive_solver congruence.
Qed.

Lemma elem_of_matches i rows row :
  str_true i = true → row ∈ matches i rows ↔ row ∈ rows ∧ identity row = Some i.
Proof.
  intros Hi. unfold matches. rewrite elem_of_bfilter, bool_decide_eq_true, identity_eq. naive_solver.
Qed.

Lemma matches_unique i rows : NoDup (identity <$> rows) → str_true i = true → zlen (matches i rows) ≤ 1.
Proof.
  intros Hnd Hi. induction rows as [|r rows IH]; [done|]. csimpl in Hnd.
  apply NoDup_cons in Hnd as [Hr Hnd]. specialize (IH Hnd). unfold matches in *.
  rewrite bfilter_cons. case_bool_decide as E; [|done]. rewrite bfilter_none; [done|].
  intros x Hx. apply bool_decide_eq_false. intros Ex. apply Hr.
  assert (identity r = identity x) as ->; [|by apply list_elem_of_fmap_2].
  unfold identity. by rewrite E, Ex.
Qed.

(** What [append] does, by the row filed under the record's identity. *)
Lemma append_cases record rows :
  wf rows →
  (identity record = None ∧ ∃ e, append record rows = (rows, Raise e)) ∨
  ∃ i, identity record = Some i ∧
    ((matches i rows = [] ∧ append record rows = (rows ++ [record], Ok true)) ∨
     ∃ row, matches i rows = [row] ∧ row ∈ rows ∧ identity row = Some i ∧
       if decide (canonical_json_bytes (NDict row) = canonical_json_bytes (NDict record))
       then append record rows = (rows, Ok false)
       else ∃ e, append record rows = (rows, Raise e)).
Proof.
  intros [_ Hnd]. unfold append. destruct (identity record) as [i|] eqn:Hi; [|left; split; [done|by eexists]].
  right. exists i. split; [done|]. apply identity_eq in Hi as [_ Hi].
  pose proof (matches_unique i rows Hnd Hi) as Hl.
  unfold mbind, prog_bind, get_state. cbv beta iota.
  destruct (matches i rows) as [|row [|? ?]] eqn:Hm; [by left| |unfold zlen in Hl; simpl in Hl; lia].
  right. exists row. assert (row ∈ matches i rows) as Hin by (rewrite Hm; by left).
  apply elem_of_matches in Hin as [??]; [|done]. split; [done|]. split; [done|]. split; [done|].
  destruct (String.eqb_spec (canonical_json_bytes (NDict row)) (canonical_json_bytes (NDict record)));
    case_decide; try done. by eexists.
Qed.

Lemma append_preserves_wf record rows : wf rows → wf (after (append record) rows).
Proof.
  intros Hwf. unfold after.
  destruct (append_cases record rows Hwf) as [(_ & e & ->)|(i & Hi & [[Hm ->]|(row & _ & _ & _ & H)])];
    [done| |case_decide; [by rewrite H|by destruct H as [e ->]]].
  destruct Hwf as [Hs Hnd]. split; simpl.
  - intros row [? | ->%list_elem_of_singleton]%elem_of_app; [auto|by eexists].
  - rewrite fmap_app. apply NoDup_app. split; [done|]. split; [|apply NoDup_singleton].
    intros o (row & -> & Hrow)%list_elem_of_fmap Ho%list_elem_of_singleton.
    assert (row ∈ matches i rows) as Hin; [|rewrite Hm in Hin; by apply elem_of_nil in Hin].
    apply elem_of_matches; [by apply identity_eq in Hi as [_ ?]|]. split; [done|congruence].
Qed.

Lemma ledger_reachable_wf rows : rtc step [] rows → wf rows.
Proof.
  intros H. eapply (rtc_invariant step wf); [|exact H|].
  - intros s1 s2 Hs Hst. inversion Hst; subst. by apply append_preserves_wf.
  - split; [by intros ? ?%elem_of_nil|constructor].
Qed.

End ledger.

(** The ledger is append-only and keyed.  After any sequence of appends no two records
    share a key; an append either adds its record at the end (and the key was absent), or
    reports that a record with the same canonical bytes is already filed, or raises because
    the record has no key or its key is filed with other bytes; in the last two cases the file is
    unchanged, so repeating an append never adds a second record. *)
Theorem ledger_append_spec (key : string) (rows : t) (record : json_object) :
  rtc (step key) [] rows →
  NoDup (identity key <$> rows) ∧
  match append key record rows with
  | (rows', Ok true) =>
      rows' = rows ++ [record] ∧ identity key record ∉ identity key <$> rows ∧
      append key record rows' = (rows', Ok false)
  | (rows', Ok false) =>
      rows' = rows ∧ ∃ row, row ∈ rows ∧ identity key row = identity key record ∧
        canonical_json_bytes (NDict row) = canonical_json_bytes (NDict record)
  | (rows', Raise _) =>
      rows' = rows ∧
      (identity key record = None ∨ ∃ row, row ∈ rows ∧ identity key row = identity key record ∧
        canonical_json_bytes (NDict row) ≠ canonical_json_bytes (NDict record))
  end.
Proof.
  intros Hr. pose proof (ledger_reachable_wf key rows Hr) as Hwf. split; [apply Hwf|].
  pose proof (append_preserves_wf key record rows Hwf) as Hwf'. unfold after in Hwf'.
  destruct (append_cases key record rows Hwf)
    as [(Hn & e & ->)|(i & Hi & [[Hm Ha]|(row & _ & Hin & Hrow & H)])].
  - auto.
  - rewrite Ha in Hwf' |- *. simpl in Hwf'. split; [done|].
    assert (Hin : record ∈ rows ++ [record]) by (apply elem_of_app; right; by left).
    split.
    { destruct Hwf' as [_ Hnd]. rewrite fmap_app in Hnd. apply NoDup_app in Hnd as (_ & Hd & _).
      intros Hin'. apply (Hd _ Hin'). by left. }
    destruct (append_cases key record (rows ++ [record]) Hwf')
      as [(Hn & _)|(i' & Hi' & [[Hm' _]|(row & Hm' & _ & _ & H)])]; [congruence| |].
    + assert (record ∈ matches key i' (rows ++ [record])) as Hx; [|rewrite Hm' in Hx; by apply elem_of_nil in Hx].
      apply elem_of_matches; [by apply identity_eq in Hi' as [_ ?]|done].
    + assert (record ∈ matches key i' (rows ++ [record])) as Hx
        by (apply elem_of_matches; [by apply identity_eq in Hi' as [_ ?]|done]).
      rewrite Hm' in Hx. apply list_elem_of_singleton in Hx as ->. by rewrite decide_True in H.
  - case_decide as Hd; [rewrite H|destruct H as [e ->]]; (split; [done|]); [|right];
      exists row; (split; [done|]); split; congruence.
Qed.

Definition demo_record : json_object := [("event_id", NStr "e1"); ("at", NInt 1)].

Lemma ledger_append_spec_witness :
  append "event_id" demo_record [] = ([demo_record], Ok true) ∧ NoDup (identity "event_id" <$> []).
Proof.
  split; [reflexivity|]. apply (ledger_append_spec "event_id" [] demo_record). constructor.
Defined.

End AppendOnlyLedger.
