(* ===== verification/EvolutionModels.v ===== *)
(** * Evolution data: [zetta/evolution/models.py]

    Episodes, failure segments and gate decisions with the checks their constructors
    run ([__post_init__]).  A [float] is its value ([PyFloat.v]); JSON-typed fields are
    [native] objects.  [int(text, 16)] is modelled on ASCII text. *)

From Stdlib Require Import QArith Ascii.
From stdpp Require Import pretty.
From S2P Require Import Prelude PyDict Codec JsonIO PyFloat.

Open Scope string_scope.
Open Scope list_scope.
Open Scope Z_scope.

(** The exceptions of the evolution layer. *)
Inductive evo_error :=
  | ValueError (msg : string)
  | ZeroDivisionError
  | KeyError (key : Z).

Definition SHA256_LENGTH : Z := 64.

Definition is_space (c : ascii) : bool :=
  code_between 9 13 c || code_between 28 32 c.
Definition is_hex_digit (c : ascii) : bool :=
  code_between 48 57 c || code_between 65 70 c || code_between 97 102 c.

Fixpoint strip_left (s : string) : string :=
  match s with
  | String c s' => if is_space c then strip_left s' else s
  | EmptyString => s
  end.

(** Digits with single underscores between them, then blanks. *)
Fixpoint hex_digits (after_digit : bool) (s : string) : bool :=
  match s with
  | EmptyString => after_digit
  | String c s' =>
      if is_hex_digit c then hex_digits true s'
      else if Ascii.eqb c "_" then
        if after_digit then match s' with String d _ => is_hex_digit d && hex_digits false s' | _ => false end
        else false
      else after_digit && is_space c && String.eqb (strip_left s') EmptyString
  end.

Definition drop_if (p : ascii → bool) (s : string) : string :=
  match s with String c s' => if p c then s' else s | EmptyString => s end.

(** [int(value, 16)] does not raise. *)
Definition is_int16 (s : string) : bool :=
  let s := drop_if (λ c, Ascii.eqb c "+" || Ascii.eqb c "-") (strip_left s) in
  match s with
  | String z (String x s') =>
      if Ascii.eqb z "0" && (Ascii.eqb x "x" || Ascii.eqb x "X")
      then hex_digits false (drop_if (Ascii.eqb "_") s') else hex_digits false s
  | _ => hex_digits false s
  end.

Definition _require_sha (name : string) (value : option string) (optional : bool) :
    outcome evo_error unit :=
  match value with
  | None =>
      if optional then Ok tt else Raise (ValueError (name +:+ " must be a 64-character sha256"))
  | Some s =>
      ensure (zlen (code_points s) =? SHA256_LENGTH)
        (ValueError (name +:+ " must be a 64-character sha256"));;
      ensure (is_int16 s) (ValueError (name +:+ " must be hexadecimal"))
  end.

Record FailureSegment := {
  segment_id : string;
  segment_episode_id : string;
  failure_class : string;
  stage : string;
  tool : option string;
  summary : string;
  earliest_divergence_step : option Z;
  start_step : Z;
  end_step : Z;
  severity : Q;
  state_signature : list Q;
  embedding : list Q;
  artifact_paths : list string;
}.

#[export] Instance Q_eq_dec : EqDecision Q.
Proof. solve_decision. Defined.
#[export] Instance FailureSegment_eq_dec : EqDecision FailureSegment.
Proof. solve_decision. Defined.

Definition check_failure_segment (x : FailureSegment) : outcome evo_error unit :=
  guards [
    (str_true (segment_id x) && str_true (segment_episode_id x) && str_true (failure_class x),
     ValueError "failure segment identifiers are required");
    match earliest_divergence_step x with
    | None =>
        ((0 <=? start_step x) && (start_step x <=? end_step x),
         ValueError "unknown-divergence segment step interval is inconsistent")
    | Some d =>
        ((0 <=? start_step x) && (start_step x <=? d) && (d <=? end_step x),
         ValueError "failure segment step interval is inconsistent")
    end;
    (Qle_bool 0 (severity x) && Qle_bool (severity x) 1, ValueError "severity must be in [0, 1]")].

(** [EpisodeStatus] *)
Inductive EpisodeStatus := valid | infra_invalid.
#[export] Instance EpisodeStatus_eq_dec : EqDecision EpisodeStatus.
Proof. solve_decision. Defined.

Record EpisodeRecord := {
  episode_id : string;
  logical_id : string;
  generation : Z;
  seed : Z;
  policy_rng : Z;
  bundle_sha256 : option string;
  status : EpisodeStatus;
  success : option bool;
  started_at : string;
  finished_at : string;
  elapsed_s : Q;
  artifact_index : json_object;
  safety_events : list string;
  failure_segment : option FailureSegment;
  failure_segments : list FailureSegment;
  invalid_reason : option string;
  attempt_index : Z;
  schema_version : Z;
}.

Definition is_valid (r : EpisodeRecord) : bool := bool_decide (status r = valid).

(** The record carries a segment. *)
Definition has_segments (r : EpisodeRecord) : bool :=
  bool_decide (is_Some (failure_segment r)) || negb (bool_decide (failure_segments r = [])).

Definition check_episode_record (r : EpisodeRecord) : outcome evo_error unit :=
  _require_sha "bundle_sha256" (bundle_sha256 r) true;;
  guards [
    (negb (is_valid r && bool_decide (success r = None)),
     ValueError "valid episode requires a boolean success value");
    (negb (negb (is_valid r) && bool_decide (is_Some (success r))),
     ValueError "infra-invalid episode cannot carry a success value");
    (negb (negb (is_valid r) && negb (str_true (default EmptyString (invalid_reason r)))),
     ValueError "infra-invalid episode requires invalid_reason");
    (negb (bool_decide (success r = Some true) && has_segments r),
     ValueError "successful episode cannot carry failure segments");
    (negb (negb (is_valid r) && has_segments r),
     ValueError "infra-invalid episode cannot carry failure segments");
    (match failure_segment r with
     | Some x => String.eqb (segment_episode_id x) (episode_id r) | None => true end,
     ValueError "primary failure segment belongs to another episode");
    (forallb (λ x, String.eqb (segment_episode_id x) (episode_id r)) (failure_segments r),
     ValueError "failure segment belongs to another episode");
    (bool_decide (NoDup (segment_id <$> failure_segments r)),
     ValueError "failure segment identifiers must be unique per episode");
    (match failure_segment r, failure_segments r with
     | Some x, y :: _ => bool_decide (x = y) | _, _ => true end,
     ValueError "primary failure segment must be the first full segment");
    (Qle_bool 0 (elapsed_s r), ValueError "elapsed_s must be non-negative");
    (0 <=? attempt_index r, ValueError "attempt_index must be non-negative")].

(** [f"{z:03d}"] of a non-negative integer *)
Definition pad3 (z : Z) : string :=
  let s := pretty z in zeros (3 - String.length s) +:+ s.

Definition attempt_id (r : EpisodeRecord) : string :=
  logical_id r +:+ "-a" +:+ pad3 (attempt_index r).

Definition all_failure_segments (r : EpisodeRecord) : list FailureSegment :=
  match failure_segments r with
  | [] => match failure_segment r with Some x => [x] | None => [] end
  | l => l
  end.

(** [GateKind] *)
Inductive GateKind := same_seed | regression | heldout_10 | heldout_20 | heldout_50.
#[export] Instance GateKind_eq_dec : EqDecision GateKind.
Proof. solve_decision. Defined.

Definition kind_name (k : GateKind) : string :=
  match k with
  | same_seed => "same_seed" | regression => "regression"
  | heldout_10 => "heldout_10" | heldout_20 => "heldout_20" | heldout_50 => "heldout_50"
  end.

(** The [rationale] texts with the values they interpolate; the numbers are not
    rendered. *)
Inductive rationale_text :=
  | never_changed_trajectory
  | met_same_seed (successes n required : Z)
  | missed_same_seed (successes n required : Z)
  | met_same_seed_causal (successes n required causal rescued : Z)
  | missed_same_seed_causal (successes n required : Z)
  | resolved_regression
  | unresolved_regression (successes n : Z)
  | mcnemar (p_value alpha : Q) (require_significance : bool) (gain min_gain : Z)
      (success_rate min_success_rate : Q) (no_safety_regression : bool).

(** A text and the number of pairs whose camera digests differ, reported if not zero. *)
Record Rationale := { text : rationale_text; camera_mismatches : Z }.

Record GateDecision := {
  decision_id : string;
  candidate_sha256 : string;
  parent_sha256 : option string;
  kind : GateKind;
  passed : bool;
  conclusive : bool;
  candidate_successes : Z;
  parent_successes : Z;
  paired_count : Z;
  candidate_wins : Z;
  parent_wins : Z;
  p_value : option Q;
  alpha : option Q;
  candidate_safety_events : Z;
  parent_safety_events : Z;
  rationale : Rationale;
}.

Definition check_gate_decision (d : GateDecision) : outcome evo_error unit :=
  _require_sha "candidate_sha256" (Some (candidate_sha256 d)) false;;
  _require_sha "parent_sha256" (parent_sha256 d) true;;
  ensure (1 <=? paired_count d) (ValueError "gate requires at least one paired episode");;
  ensure (negb (passed d && negb (conclusive d))) (ValueError "an inconclusive gate cannot pass").

(** ** Lemmas *)

(** A checked record is a successful episode without failure segments, a failed one, or
    an infrastructure failure without an outcome. *)
Lemma checked_episode r :
  check_episode_record r = Ok tt →
  match status r, success r with
  | valid, Some true | infra_invalid, None => all_failure_segments r = []
  | valid, Some false => ∀ x, x ∈ failure_segments r → segment_episode_id x = episode_id r
  | _, _ => False
  end.
Proof.
  unfold check_episode_record. intros (_ & _ & H)%outcome_bind_ok. apply guards_ok in H.
  repeat (apply Forall_cons in H as [? H]); simpl in *. clear H.
  unfold is_valid, all_failure_segments, has_segments in *.
  destruct (status r), (success r) as [[]|], (failure_segment r), (failure_segments r);
    simpl in *; try done; intros x Hx; try (by apply elem_of_nil in Hx);
    repeat match goal with H : (_ && _) = true |- _ => apply andb_true_iff in H as [??] end;
    apply elem_of_cons in Hx as [-> | Hx]; try (by apply String.eqb_eq);
    match goal with H : forallb _ _ = true |- _ => rewrite forallb_forall in H end;
    apply String.eqb_eq; apply list_elem_of_In in Hx; auto.
Qed.
