(* ===== verification/CampaignModels.v ===== *)
(** * Campaign contracts: [zetta/evolution/models.py]

    The contracts [EvolutionModels.v] leaves out: the campaign manifest, trajectory
    indices, diagnoses, critic and recovery rules, and candidate bundles, a Module per
    class.  [check] is its [__post_init__], [as_dict] the JSON object it is stored as and
    [from_dict] the reader of that object.  Python does not check the types of fields: a
    field read from JSON of another type than the annotation is outside the model, and
    answers [TypeError].  A number that is never computed with ([threshold],
    [target_valid_episodes_per_hour]) is kept as the JSON value it came as.

    Theorems: a stored manifest or candidate is read back as itself, up to the key order
    of the objects it carries, under the same digest; and what an accepted candidate
    guarantees about its rules. *)

From Stdlib Require Import QArith Ascii.
From stdpp Require Import pretty.
From S2P Require Import Prelude PyDict Sorting Sha256 Codec CanonicalJson JsonIO PyFloat EvolutionModels.

Open Scope string_scope.
Open Scope list_scope.
Open Scope Z_scope.

(** The exceptions of the campaign layer; [ValueErrorOf] is a message that lists values. *)
Inductive campaign_error :=
  | evolution_error (e : evo_error)
  | ledger_error (e : py_error)
  | ValueErrorOf (msg : string) (values : list string)
  | MissingKey (key : string)
  | TypeError (msg : string)
  | FileExistsError (path : string)
  | FileNotFoundError (path : string)
  | TimeoutError (msg : string).
Coercion evolution_error : evo_error >-> campaign_error.
Coercion ledger_error : py_error >-> campaign_error.

Definition lift_evo {A} (o : outcome evo_error A) : outcome campaign_error A :=
  match o with Ok a => Ok a | Raise e => Raise (e : campaign_error) end.

(** [if not condition: raise ValueError(msg)], once and in sequence. *)
Definition require (b : bool) (msg : string) : outcome campaign_error unit :=
  ensure b (evolution_error (ValueError msg)).
Definition requires (l : list (bool * string)) : outcome campaign_error unit :=
  guards (prod_map id (λ msg, evolution_error (ValueError msg)) <$> l).

Lemma requires_ok l : requires l = Ok tt ↔ Forall (λ p, p.1 = true) l.
Proof. unfold requires. rewrite guards_ok, Forall_fmap. done. Qed.

Definition require_sha (name : string) (value : option string) (optional : bool) :
    outcome campaign_error unit := lift_evo (_require_sha name value optional).

(** ** Text *)

(** The code points [str.strip] removes, in UTF-8. *)
Definition utf8 (bytes : list nat) : string :=
  String.concat EmptyString (char <$> bytes).
Definition wide_spaces : list string := utf8 <$> [
  [194; 133]; [194; 160]; [225; 154; 128]; [226; 128; 128]; [226; 128; 129]; [226; 128; 130];
  [226; 128; 131]; [226; 128; 132]; [226; 128; 133]; [226; 128; 134]; [226; 128; 135];
  [226; 128; 136]; [226; 128; 137]; [226; 128; 138]; [226; 128; 168]; [226; 128; 169];
  [226; 128; 175]; [226; 129; 159]; [227; 128; 128]]%nat.
Definition py_space (cp : string) : bool :=
  match cp with
  | String c EmptyString => is_space c
  | _ => member cp wide_spaces
  end.

(** [not text.strip()] *)
Definition blank (s : string) : bool := forallb py_space (code_points s).

Fixpoint drop_while {A} (p : A → bool) (l : list A) : list A :=
  match l with x :: l' => if p x then drop_while p l' else l | [] => [] end.
Definition strip (s : string) : string :=
  String.concat EmptyString
    (reverse (drop_while py_space (reverse (drop_while py_space (code_points s))))).

(** [str.casefold] on ASCII text. *)
Definition fold_char (c : ascii) : ascii :=
  if code_between 65 90 c then ascii_of_nat (nat_of_ascii c + 32) else c.
Fixpoint casefold (s : string) : string :=
  match s with String c s' => String (fold_char c) (casefold s') | EmptyString => EmptyString end.

(** ** Fields of JSON objects *)

Class JsonField (A : Type) := {
  to_json : A → native;
  of_json : native → outcome campaign_error A;
  of_to_json a : of_json (to_json a) = Ok a;
}.

(** Values that are never [null]. *)
Class NonNull (A : Type) `{JsonField A} := to_json_not_null (a : A) : to_json a ≠ NNone.

Definition wrong_type {A} : outcome campaign_error A := Raise (TypeError "unexpected JSON type").

#[export] Instance json_native : JsonField native :=
  {| to_json := id; of_json := Ok; of_to_json _ := eq_refl |}.
#[export] Instance json_string_field : JsonField string :=
  {| to_json := NStr; of_json v := match v with NStr s => Ok s | _ => wrong_type end;
     of_to_json _ := eq_refl |}.
#[export] Instance json_Z : JsonField Z :=
  {| to_json := NInt; of_json v := match v with NInt z => Ok z | _ => wrong_type end;
     of_to_json _ := eq_refl |}.
#[export] Instance json_bool : JsonField bool :=
  {| to_json := NBool; of_json v := match v with NBool b => Ok b | _ => wrong_type end;
     of_to_json _ := eq_refl |}.
#[export] Instance json_dict : JsonField json_object :=
  {| to_json := NDict; of_json v := match v with NDict d => Ok d | _ => wrong_type end;
     of_to_json _ := eq_refl |}.

Lemma traverse_fmap {A B E} (f : A → outcome E B) (g : B → A) l :
  (∀ x, x ∈ l → f (g x) = Ok x) → traverse f (g <$> l) = Ok l.
Proof.
  intros H. apply traverse_ok, Forall2_fmap_l, Forall_Forall2_diag, Forall_forall, H.
Qed.

Definition list_of_json {A} `{JsonField A} (v : native) : outcome campaign_error (list A) :=
  match v with NList l => traverse of_json l | _ => wrong_type end.
#[export] Instance json_list {A} `{JsonField A} : JsonField (list A).
Proof.
  refine {| to_json l := NList (to_json <$> l); of_json := list_of_json |}.
  abstract (intros l; apply traverse_fmap; intros; apply of_to_json).
Defined.

Definition option_to_json {A} `{JsonField A} (o : option A) : native :=
  match o with Some a => to_json a | None => NNone end.
Definition option_of_json {A} `{JsonField A} (v : native) : outcome campaign_error (option A) :=
  match v with NNone => Ok None | _ => a ← of_json v; Ok (Some a) end.
Lemma option_of_to_json {A} `{NonNull A} (o : option A) : option_of_json (option_to_json o) = Ok o.
Proof.
  destruct o as [a|]; [|done]. simpl. pose proof (to_json_not_null a). pose proof (of_to_json a) as E.
  unfold option_of_json. destruct (to_json a); try done; by rewrite E.
Qed.
#[export] Instance json_option {A} `{NonNull A} : JsonField (option A) :=
  {| to_json := option_to_json; of_json := option_of_json; of_to_json := option_of_to_json |}.
#[export] Instance string_not_null : NonNull string.
Proof. done. Qed.
#[export] Instance Z_not_null : NonNull Z.
Proof. done. Qed.
#[export] Instance dict_not_null : NonNull json_object.
Proof. done. Qed.

(** A dictionary as keyword arguments: no unknown name, and no required one missing. *)
Definition kwargs (required optional : list string) (d : json_object) : outcome campaign_error unit :=
  ensure (forallb (λ kv, member kv.1 (required ++ optional)) d)
    (TypeError "got an unexpected keyword argument");;
  ensure (forallb (λ k, bool_decide (is_Some (assoc_lookup k d))) required)
    (TypeError "missing required arguments").

(** [payload[key]], and [payload.get(key, default)] *)
Definition field {A} `{JsonField A} (key : string) (d : json_object) : outcome campaign_error A :=
  match assoc_lookup key d with Some v => of_json v | None => Raise (MissingKey key) end.
Definition field_or {A} `{JsonField A} (key : string) (x : A) (d : json_object) :
    outcome campaign_error A :=
  match assoc_lookup key d with Some v => of_json v | None => Ok x end.

(** ** Critic rules *)

Module CriticPredicate.
Record t := {
  feature : string;
  operator : string;
  threshold : native;
}.

Definition check (p : t) : outcome campaign_error unit :=
  require (negb (blank (feature p))) "critic predicate feature is required".

Definition as_dict (p : t) : json_object := [
  ("feature", NStr (feature p)); ("operator", NStr (operator p)); ("threshold", threshold p)].

(** [CriticPredicate] of the items of a dictionary *)
Definition from_dict (d : json_object) : outcome campaign_error t :=
  kwargs ["feature"; "operator"; "threshold"] [] d;;
  feature ← field "feature" d;
  operator ← field "operator" d;
  threshold ← field "threshold" d;
  let p := {| feature := feature; operator := operator; threshold := threshold |} in
  check p;; Ok p.
End CriticPredicate.

Module CriticRule.
Record t := {
  rule_id : string;
  title : string;
  feature : string;
  operator : string;
  threshold : native;
  dwell_steps : Z;
  cooldown_steps : Z;
  proposal : string;
  evidence_ids : list string;
  safety_only : bool;
  activation_conditions : list CriticPredicate.t;
}.

Definition check (r : t) : outcome campaign_error unit := requires [
  (negb (blank (feature r)), "critic feature is required");
  ((1 <=? dwell_steps r) && (0 <=? cooldown_steps r),
   "critic dwell/cooldown values are invalid");
  (negb (bool_decide (evidence_ids r = [])), "critic rule requires evidence")].

Definition as_dict (r : t) : json_object := [
  ("rule_id", NStr (rule_id r)); ("title", NStr (title r)); ("feature", NStr (feature r));
  ("operator", NStr (operator r)); ("threshold", threshold r); ("dwell_steps", NInt (dwell_steps r));
  ("cooldown_steps", NInt (cooldown_steps r)); ("proposal", NStr (proposal r));
  ("evidence_ids", to_json (evidence_ids r)); ("safety_only", NBool (safety_only r));
  ("activation_conditions", NList ((λ p, NDict (CriticPredicate.as_dict p)) <$> activation_conditions r))].

Definition from_dict (d : json_object) : outcome campaign_error t :=
  evidence_ids ← field_or "evidence_ids" [] d;
  conditions ← field_or "activation_conditions" [] d;
  activation_conditions ← traverse CriticPredicate.from_dict conditions;
  kwargs ["rule_id"; "title"; "feature"; "operator"; "threshold"; "dwell_steps"; "cooldown_steps";
          "proposal"] ["evidence_ids"; "safety_only"; "activation_conditions"] d;;
  rule_id ← field "rule_id" d;
  title ← field "title" d;
  feature ← field "feature" d;
  operator ← field "operator" d;
  threshold ← field "threshold" d;
  dwell_steps ← field "dwell_steps" d;
  cooldown_steps ← field "cooldown_steps" d;
  proposal ← field "proposal" d;
  safety_only ← field_or "safety_only" false d;
  let r := {| rule_id := rule_id; title := title; feature := feature; operator := operator;
    threshold := threshold; dwell_steps := dwell_steps; cooldown_steps := cooldown_steps;
    proposal := proposal; evidence_ids := evidence_ids; safety_only := safety_only;
    activation_conditions := activation_conditions |} in
  check r;; Ok r.
End CriticRule.

(** ** Recovery rules *)

Module RecoveryStep.
Record t := {
  tool : string;
  parameters : json_object;
  stop_when : string;
}.

Definition as_dict (s : t) : json_object := [
  ("tool", NStr (tool s)); ("parameters", NDict (parameters s)); ("stop_when", NStr (stop_when s))].

(** [RecoveryStep] of the items of a dictionary *)
Definition from_dict (d : json_object) : outcome campaign_error t :=
  kwargs ["tool"; "parameters"; "stop_when"] [] d;;
  tool ← field "tool" d;
  parameters ← field "parameters" d;
  stop_when ← field "stop_when" d;
  Ok {| tool := tool; parameters := parameters; stop_when := stop_when |}.
End RecoveryStep.

Module RecoveryRule.
Record t := {
  recovery_id : string;
  title : string;
  trigger_rule_ids : list string;
  precondition : string;
  steps : list RecoveryStep.t;
  safety_constraints : list string;
  stop_condition : string;
  fallback : string;
  evidence_ids : list string;
}.

Definition check (r : t) : outcome campaign_error unit := requires [
  (negb (bool_decide (trigger_rule_ids r = [])),
   "recovery rule requires at least one critic trigger");
  (negb (bool_decide (length (steps r) = 0%nat)),
   "recovery rule requires at least one actor step");
  (negb (bool_decide (evidence_ids r = [])), "recovery rule requires evidence")].

Definition as_dict (r : t) : json_object := [
  ("recovery_id", NStr (recovery_id r)); ("title", NStr (title r));
  ("trigger_rule_ids", to_json (trigger_rule_ids r)); ("precondition", NStr (precondition r));
  ("steps", NList ((λ s, NDict (RecoveryStep.as_dict s)) <$> steps r));
  ("safety_constraints", to_json (safety_constraints r));
  ("stop_condition", NStr (stop_condition r)); ("fallback", NStr (fallback r));
  ("evidence_ids", to_json (evidence_ids r))].

(** The reader of one item of [recovery_rules]; other keys are ignored. *)
Definition from_dict (d : json_object) : outcome campaign_error t :=
  recovery_id ← field "recovery_id" d;
  title ← field "title" d;
  trigger_rule_ids ← field_or "trigger_rule_ids" [] d;
  precondition ← field "precondition" d;
  rows ← field "steps" d;
  steps ← traverse RecoveryStep.from_dict rows;
  safety_constraints ← field_or "safety_constraints" [] d;
  stop_condition ← field "stop_condition" d;
  fallback ← field "fallback" d;
  evidence_ids ← field_or "evidence_ids" [] d;
  let r := {| recovery_id := recovery_id; title := title; trigger_rule_ids := trigger_rule_ids;
    precondition := precondition; steps := steps; safety_constraints := safety_constraints;
    stop_condition := stop_condition; fallback := fallback; evidence_ids := evidence_ids |} in
  check r;; Ok r.
End RecoveryRule.

(** ** Candidate bundles *)

Module CandidateBundle.
Record t := {
  candidate_id : string;
  generation : Z;
  parent_sha256 : option string;
  diagnosis_sha256 : string;
  causal_hypothesis : string;
  mechanism_change : string;
  validation_plan : string;
  critic_rules : list CriticRule.t;
  recovery_rules : list RecoveryRule.t;
  tool_plugin : option json_object;
  schema_version : Z;
}.

Definition rule_ids (c : t) : list string := CriticRule.rule_id <$> critic_rules c.
Definition triggers (c : t) : list string :=
  recovery_rules c ≫= RecoveryRule.trigger_rule_ids.

(** [bool(self.tool_plugin)] *)
Definition has_plugin (c : t) : bool :=
  match tool_plugin c with Some (_ :: _) => true | _ => false end.

(** [sorted] of a set *)
Definition sorted_set (l : list string) : list string := sort_by str_leb (remove_dups l).

Definition unknown_triggers (c : t) : list string :=
  bfilter (λ x, negb (member x (rule_ids c))) (triggers c).
Definition uncovered_rules (c : t) : list string :=
  bfilter (λ x, negb (member x (triggers c))) (rule_ids c).

Definition check (c : t) : outcome campaign_error unit :=
  require_sha "parent_sha256" (parent_sha256 c) true;;
  require_sha "diagnosis_sha256" (Some (diagnosis_sha256 c)) false;;
  requires [
    (negb (blank (causal_hypothesis c)), "candidate must bind exactly one causal hypothesis");
    (negb (blank (mechanism_change c) || blank (validation_plan c)),
     "candidate requires one mechanism change and validation plan");
    (negb (bool_decide (length (critic_rules c) = 0%nat) && bool_decide (length (recovery_rules c) = 0%nat)
           && negb (has_plugin c)),
     "candidate bundle must change one auditable behavior");
    (negb (has_plugin c && (negb (bool_decide (length (critic_rules c) = 0%nat))
                            || negb (bool_decide (length (recovery_rules c) = 0%nat)))),
     "an isolated tool-plugin candidate cannot mix critic/recovery changes");
    (bool_decide (NoDup (rule_ids c)) && bool_decide (NoDup (RecoveryRule.recovery_id <$> recovery_rules c)),
     "candidate rule identifiers must be unique")];;
  ensure (bool_decide (unknown_triggers c = []))
    (ValueErrorOf "recovery rules reference unknown critic rules: " (sorted_set (unknown_triggers c)));;
  ensure (bool_decide (uncovered_rules c = []))
    (ValueErrorOf "every critic rejection must have a frozen executable recovery path: "
      (sorted_set (uncovered_rules c))).

Definition as_dict (c : t) : json_object := [
  ("candidate_id", NStr (candidate_id c)); ("generation", NInt (generation c));
  ("parent_sha256", to_json (parent_sha256 c)); ("diagnosis_sha256", NStr (diagnosis_sha256 c));
  ("causal_hypothesis", NStr (causal_hypothesis c)); ("mechanism_change", NStr (mechanism_change c));
  ("validation_plan", NStr (validation_plan c));
  ("critic_rules", NList ((λ r, NDict (CriticRule.as_dict r)) <$> critic_rules c));
  ("recovery_rules", NList ((λ r, NDict (RecoveryRule.as_dict r)) <$> recovery_rules c));
  ("tool_plugin", to_json (tool_plugin c)); ("schema_version", NInt (schema_version c))].

Definition sha256 (c : t) : string := canonical_sha256 (NDict (as_dict c)).

Definition from_dict (d : json_object) : outcome campaign_error t :=
  critic_rows ← field_or "critic_rules" [] d;
  critic_rules ← traverse CriticRule.from_dict critic_rows;
  recovery_rows ← field_or "recovery_rules" [] d;
  recovery_rules ← traverse RecoveryRule.from_dict recovery_rows;
  candidate_id ← field "candidate_id" d;
  generation ← field "generation" d;
  parent_sha256 ← field_or "parent_sha256" None d;
  diagnosis_sha256 ← field "diagnosis_sha256" d;
  causal_hypothesis ← field "causal_hypothesis" d;
  mechanism_change ← field "mechanism_change" d;
  validation_plan ← field "validation_plan" d;
  tool_plugin ← field_or "tool_plugin" None d;
  schema_version ← field_or "schema_version" 1 d;
  let c := {| candidate_id := candidate_id; generation := generation; parent_sha256 := parent_sha256;
    diagnosis_sha256 := diagnosis_sha256; causal_hypothesis := causal_hypothesis;
    mechanism_change := mechanism_change; validation_plan := validation_plan;
    critic_rules := critic_rules; recovery_rules := recovery_rules; tool_plugin := tool_plugin;
    schema_version := schema_version |} in
  check c;; Ok c.

(** The rules of a candidate passed their own checks when they were constructed. *)
Definition constructed (c : t) : Prop :=
  check c = Ok tt ∧
  (∀ r, r ∈ critic_rules c → CriticRule.check r = Ok tt ∧
     ∀ p, p ∈ CriticRule.activation_conditions r → CriticPredicate.check p = Ok tt) ∧
  (∀ r, r ∈ recovery_rules c → RecoveryRule.check r = Ok tt).
End CandidateBundle.

(** ** Trajectory indices, clusters, diagnoses *)

Module TrajectoryIndex.
Record t := {
  episode_id : string;
  logical_id : string;
  success : bool;
  action_count : Z;
  event_count : Z;
  artifact_paths : list (string * string);
  artifact_sha256 : list (string * string);
  video_paths : list string;
  schema_version : Z;
}.

Definition check (x : t) : outcome campaign_error unit :=
  requires [
    (str_true (episode_id x) && str_true (logical_id x), "trajectory index requires episode and logical IDs");
    ((0 <=? action_count x) && (0 <=? event_count x), "trajectory counts must be non-negative");
    (bool_decide (list_to_set (C := gset string) (artifact_paths x).*1 = list_to_set (artifact_sha256 x).*1),
     "every indexed artifact must have a digest")];;
  _ ← traverse (λ kv, require_sha ("artifact_sha256[" +:+ kv.1 +:+ "]") (Some kv.2) false) (artifact_sha256 x);
  Ok tt.

Definition texts (l : list (string * string)) : native := NDict (prod_map id NStr <$> l).

Definition as_dict (x : t) : json_object := [
  ("episode_id", NStr (episode_id x)); ("logical_id", NStr (logical_id x));
  ("success", NBool (success x)); ("action_count", NInt (action_count x));
  ("event_count", NInt (event_count x)); ("artifact_paths", texts (artifact_paths x));
  ("artifact_sha256", texts (artifact_sha256 x)); ("video_paths", to_json (video_paths x));
  ("schema_version", NInt (schema_version x))].

Definition sha256 (x : t) : string := canonical_sha256 (NDict (as_dict x)).
End TrajectoryIndex.

Module FailureCluster.
Record t := {
  cluster_id : string;
  hard_key : string * string * string;
  member_segment_ids : list string;
  episode_ids : list string;
  representative_segment_ids : list string;
  medoid_segment_id : string;
  summary : string;
  prevalence : Q;
  mean_severity : Q;
}.

Definition as_dict (x : t) : json_object := [
  ("cluster_id", NStr (cluster_id x));
  ("hard_key", to_json [(hard_key x).1.1; (hard_key x).1.2; (hard_key x).2]);
  ("member_segment_ids", to_json (member_segment_ids x)); ("episode_ids", to_json (episode_ids x));
  ("representative_segment_ids", to_json (representative_segment_ids x));
  ("medoid_segment_id", NStr (medoid_segment_id x)); ("summary", NStr (summary x));
  ("prevalence", NFloat (repr64 (prevalence x))); ("mean_severity", NFloat (repr64 (mean_severity x)))].
End FailureCluster.

Module CausalDiagnosis.
Record t := {
  diagnosis_id : string;
  cluster_id : string;
  outcome_text : string;
  immediate_trigger : string;
  root_cause : string;
  contributing_causes : list string;
  competing_hypotheses : list string;
  owner_layer : string;
  affected_component : string;
  earliest_divergence : string;
  supporting_evidence_ids : list string;
  counterevidence_ids : list string;
  falsifier : string;
  distinguishing_check : string;
  required_validation : string;
  confidence : Q;
  visual_evidence : list native;
  task_contract : json_object;
}.

Definition required_text (d : t) : list (string * string) := [
  ("diagnosis_id", diagnosis_id d); ("cluster_id", cluster_id d); ("outcome", outcome_text d);
  ("immediate_trigger", immediate_trigger d); ("root_cause", root_cause d);
  ("affected_component", affected_component d); ("earliest_divergence", earliest_divergence d);
  ("falsifier", falsifier d); ("distinguishing_check", distinguishing_check d);
  ("required_validation", required_validation d)].

Definition missing (d : t) : list string := (bfilter (λ kv, blank kv.2) (required_text d)).*1.

Definition is_str (v : native) : bool := match v with NStr _ => true | _ => false end.

Definition check_visual (item : native) : outcome campaign_error unit :=
  match item with
  | NDict d => requires [
      (is_str (obj_get "content_id" d), "visual evidence requires an opaque content_id");
      (is_str (obj_get "access_record_id" d), "visual evidence requires an immutable access_record_id")]
  | _ => Raise (ValueError "visual evidence requires an opaque content_id" : campaign_error)
  end.

Definition contract_field (d : t) (key : string) : outcome campaign_error unit :=
  require (match obj_get key (task_contract d) with NStr s => negb (blank s) | _ => false end)
    ("task_contract." +:+ key +:+ " is required").

Definition check (d : t) : outcome campaign_error unit :=
  ensure (bool_decide (missing d = []))
    (ValueErrorOf "diagnosis text fields are required: " (sort_by str_leb (missing d)));;
  require (Qle_bool 0 (confidence d) && Qle_bool (confidence d) 1) "diagnosis confidence must be in [0, 1]";;
  _ ← traverse check_visual (visual_evidence d);
  requires [
    (negb (bool_decide (supporting_evidence_ids d = [])), "diagnosis requires supporting evidence");
    (2 <=? zlen (remove_dups ((λ s, casefold (strip s)) <$> competing_hypotheses d)),
     "diagnosis requires at least two competing hypotheses")];;
  if bool_decide (task_contract d = []) then Ok tt
  else _ ← traverse (contract_field d) ["suite"; "task"; "language"]; Ok tt.

Definition as_dict (d : t) : json_object :=
  [("diagnosis_id", NStr (diagnosis_id d)); ("cluster_id", NStr (cluster_id d));
   ("outcome", NStr (outcome_text d)); ("immediate_trigger", NStr (immediate_trigger d));
   ("root_cause", NStr (root_cause d)); ("contributing_causes", to_json (contributing_causes d));
   ("competing_hypotheses", to_json (competing_hypotheses d)); ("owner_layer", NStr (owner_layer d));
   ("affected_component", NStr (affected_component d));
   ("earliest_divergence", NStr (earliest_divergence d));
   ("supporting_evidence_ids", to_json (supporting_evidence_ids d));
   ("counterevidence_ids", to_json (counterevidence_ids d)); ("falsifier", NStr (falsifier d));
   ("distinguishing_check", NStr (distinguishing_check d));
   ("required_validation", NStr (required_validation d));
   ("confidence", NFloat (repr64 (confidence d)))]
  ++ (if bool_decide (visual_evidence d = []) then [] else [("visual_evidence", NList (visual_evidence d))])
  ++ (if bool_decide (task_contract d = []) then [] else [("task_contract", NDict (task_contract d))]).

Definition sha256 (d : t) : string := canonical_sha256 (NDict (as_dict d)).
End CausalDiagnosis.

(** ** The campaign manifest *)

(** [CampaignPhase] *)
Inductive CampaignPhase :=
  | ROLLOUT | CLUSTER | DIAGNOSE | PROPOSE | SAME_SEED_GATE | REGRESSION_GATE | HELDOUT_GATE
  | PROMOTE | COMPLETE.
#[export] Instance phase_eq_dec : EqDecision CampaignPhase.
Proof. solve_decision. Defined.

Definition phase_value (p : CampaignPhase) : string :=
  match p with
  | ROLLOUT => "rollout" | CLUSTER => "cluster" | DIAGNOSE => "diagnose" | PROPOSE => "propose"
  | SAME_SEED_GATE => "same_seed_gate" | REGRESSION_GATE => "regression_gate"
  | HELDOUT_GATE => "heldout_gate" | PROMOTE => "promote" | COMPLETE => "complete"
  end.

Module SafetyLayerConfig.
Record t := {
  action_contract : string;
  control_limits : string;
  simulation_health : string;
  joint_limit_shield : string;
  contact_policy : string;
}.

Definition default_config : t := {|
  action_contract := "robocasa_named_action_v1";
  control_limits := "normalized_input_and_post_scale_clip_v1";
  simulation_health := "finite_observation_state_v1";
  joint_limit_shield := "not_implemented";
  contact_policy := "environment_native_only" |}.

Definition check (s : t) : outcome campaign_error unit :=
  require (forallb str_true [action_contract s; control_limits s; simulation_health s;
                             joint_limit_shield s; contact_policy s])
    "every safety-layer field must be a non-empty string".

Definition as_dict (s : t) : json_object := [
  ("action_contract", NStr (action_contract s)); ("control_limits", NStr (control_limits s));
  ("simulation_health", NStr (simulation_health s)); ("joint_limit_shield", NStr (joint_limit_shield s));
  ("contact_policy", NStr (contact_policy s))].

Definition from_dict (d : json_object) : outcome campaign_error t :=
  kwargs [] ["action_contract"; "control_limits"; "simulation_health"; "joint_limit_shield";
             "contact_policy"] d;;
  a ← field_or "action_contract" (action_contract default_config) d;
  c ← field_or "control_limits" (control_limits default_config) d;
  h ← field_or "simulation_health" (simulation_health default_config) d;
  j ← field_or "joint_limit_shield" (joint_limit_shield default_config) d;
  p ← field_or "contact_policy" (contact_policy default_config) d;
  let s := {| action_contract := a; control_limits := c; simulation_health := h;
              joint_limit_shield := j; contact_policy := p |} in
  check s;; Ok s.
End SafetyLayerConfig.

Module CampaignManifest.
Record t := {
  campaign_id : string;
  environment : string;
  task : string;
  generation : Z;
  code_commit : string;
  prompt_sha256 : string;
  model : string;
  tool_catalog_sha256 : string;
  rollout_seeds : list Z;
  heldout_seeds : list Z;
  policy_rng_by_seed : list (string * Z);
  parent_bundle_sha256 : option string;
  baseline_mode : option string;
  active_bundle_sha256 : option string;
  safety_layer : SafetyLayerConfig.t;
  expected_rollouts : Z;
  expected_heldout : Z;
  initial_logical_slots : Z;
  maximum_logical_slots : Z;
  continuous_logical_slots : Z;
  maximum_api_concurrency : Z;
  episode_timeout_s : Z;
  no_progress_timeout_s : Z;
  target_valid_episodes_per_hour : native;
  max_infrastructure_attempts : Z;
  reasoning_effort : option string;
  runtime : json_object;
  schema_version : Z;
  protocol_explicit : bool;
}.

(** The two fields [__post_init__] fills in. *)
Definition set_baseline (mode active : option string) (m : t) : t := {|
  campaign_id := campaign_id m; environment := environment m; task := task m;
  generation := generation m; code_commit := code_commit m; prompt_sha256 := prompt_sha256 m;
  model := model m; tool_catalog_sha256 := tool_catalog_sha256 m; rollout_seeds := rollout_seeds m;
  heldout_seeds := heldout_seeds m; policy_rng_by_seed := policy_rng_by_seed m;
  parent_bundle_sha256 := parent_bundle_sha256 m; baseline_mode := mode;
  active_bundle_sha256 := active; safety_layer := safety_layer m;
  expected_rollouts := expected_rollouts m; expected_heldout := expected_heldout m;
  initial_logical_slots := initial_logical_slots m; maximum_logical_slots := maximum_logical_slots m;
  continuous_logical_slots := continuous_logical_slots m;
  maximum_api_concurrency := maximum_api_concurrency m; episode_timeout_s := episode_timeout_s m;
  no_progress_timeout_s := no_progress_timeout_s m;
  target_valid_episodes_per_hour := target_valid_episodes_per_hour m;
  max_infrastructure_attempts := max_infrastructure_attempts m; reasoning_effort := reasoning_effort m;
  runtime := runtime m; schema_version := schema_version m; protocol_explicit := protocol_explicit m |}.

Definition truthy (o : option string) : bool := match o with Some s => str_true s | None => false end.

Definition inferred_mode (m : t) : string :=
  match baseline_mode m with
  | Some mode => mode
  | None => if truthy (parent_bundle_sha256 m) then "active_bundle" else "strict_pure_vla"
  end.
Definition inferred_active (m : t) : option string :=
  match active_bundle_sha256 m with
  | None => if String.eqb (inferred_mode m) "active_bundle" then parent_bundle_sha256 m else None
  | active => active
  end.

(** [_require_unique] *)
Definition _require_unique (name : string) (values : list Z) (expected : Z) : outcome campaign_error unit :=
  requires [
    (zlen values =? expected, name +:+ " must contain exactly " +:+ pretty expected +:+ " entries");
    (bool_decide (NoDup values), name +:+ " must not contain duplicates")].

Definition check_baseline (m : t) : outcome campaign_error unit :=
  match baseline_mode m with
  | Some "strict_pure_vla" => requires [
      (bool_decide (active_bundle_sha256 m = None), "strict pure-VLA baseline cannot activate a bundle");
      (negb (negb (generation m =? 0) || bool_decide (is_Some (parent_bundle_sha256 m))),
       "strict pure-VLA baseline is only valid for generation 0")]
  | Some "active_bundle" => requires [
      (bool_decide (is_Some (active_bundle_sha256 m)), "active-bundle mode requires active_bundle_sha256");
      (bool_decide (active_bundle_sha256 m = parent_bundle_sha256 m),
       "active bundle must be the frozen campaign parent")]
  | _ => Raise (ValueError "unsupported baseline_mode" : campaign_error)
  end.

Definition seeds (m : t) : list Z := rollout_seeds m ++ heldout_seeds m.

(** What [__post_init__] requires of the manifest once the two fields are filled in; it
    checks the first group before it fills them. *)
Definition check (m : t) : outcome campaign_error unit :=
  requires [
    (schema_version m =? 1, "unsupported campaign manifest schema");
    (str_true (campaign_id m) && str_true (environment m) && str_true (task m),
     "campaign_id, environment, and task are required");
    (0 <=? generation m, "generation must be non-negative");
    (zlen (code_points (code_commit m)) =? 40, "code_commit must be a full 40-character git sha")];;
  require_sha "prompt_sha256" (Some (prompt_sha256 m)) false;;
  require_sha "tool_catalog_sha256" (Some (tool_catalog_sha256 m)) false;;
  require_sha "parent_bundle_sha256" (parent_bundle_sha256 m) true;;
  require_sha "active_bundle_sha256" (active_bundle_sha256 m) true;;
  check_baseline m;;
  _require_unique "rollout_seeds" (rollout_seeds m) (expected_rollouts m);;
  _require_unique "heldout_seeds" (heldout_seeds m) (expected_heldout m);;
  requires [
    (negb (existsb (λ s, member s (heldout_seeds m)) (rollout_seeds m)),
     "rollout and heldout seeds must be disjoint");
    (bool_decide (list_to_set (C := gset string) (policy_rng_by_seed m).*1 = list_to_set (pretty <$> seeds m)),
     "policy_rng_by_seed must exactly cover every preregistered seed");
    ((1 <=? continuous_logical_slots m) && (continuous_logical_slots m <=? initial_logical_slots m)
      && (initial_logical_slots m <=? maximum_logical_slots m), "logical slot limits are inconsistent");
    (no_progress_timeout_s m <? episode_timeout_s m, "episode timeout must exceed no-progress timeout");
    (1 <=? maximum_api_concurrency m, "maximum_api_concurrency must be positive");
    (negb (protocol_explicit m && (20 <? maximum_api_concurrency m)),
     "maximum_api_concurrency must not exceed 20");
    (1 <=? max_infrastructure_attempts m, "max_infrastructure_attempts must be positive");
    (member (reasoning_effort m) [None; Some "low"; Some "medium"; Some "high"; Some "xhigh"],
     "unsupported campaign reasoning_effort")].

Definition filled (m : t) : t := set_baseline (Some (inferred_mode m)) (inferred_active m) m.

(** [__post_init__]: the manifest with the inferred fields, or the error. *)
Definition post_init (m : t) : outcome campaign_error t := check (filled m);; Ok (filled m).

Definition rng_json (l : list (string * Z)) : json_object := prod_map id NInt <$> l.

(** [as_dict]: a legacy manifest keeps the payload it was read from. *)
Definition as_dict (m : t) : json_object :=
  [("campaign_id", NStr (campaign_id m)); ("environment", NStr (environment m)); ("task", NStr (task m));
   ("generation", NInt (generation m)); ("code_commit", NStr (code_commit m));
   ("prompt_sha256", NStr (prompt_sha256 m)); ("model", NStr (model m));
   ("tool_catalog_sha256", NStr (tool_catalog_sha256 m)); ("rollout_seeds", to_json (rollout_seeds m));
   ("heldout_seeds", to_json (heldout_seeds m));
   ("policy_rng_by_seed", NDict (rng_json (policy_rng_by_seed m)));
   ("parent_bundle_sha256", to_json (parent_bundle_sha256 m))]
  ++ (if protocol_explicit m then
        [("baseline_mode", to_json (baseline_mode m));
         ("active_bundle_sha256", to_json (active_bundle_sha256 m));
         ("safety_layer", NDict (SafetyLayerConfig.as_dict (safety_layer m)))]
      else [])
  ++ [("expected_rollouts", NInt (expected_rollouts m)); ("expected_heldout", NInt (expected_heldout m));
      ("initial_logical_slots", NInt (initial_logical_slots m));
      ("maximum_logical_slots", NInt (maximum_logical_slots m));
      ("continuous_logical_slots", NInt (continuous_logical_slots m));
      ("maximum_api_concurrency", NInt (maximum_api_concurrency m));
      ("episode_timeout_s", NInt (episode_timeout_s m));
      ("no_progress_timeout_s", NInt (no_progress_timeout_s m));
      ("target_valid_episodes_per_hour", target_valid_episodes_per_hour m);
      ("max_infrastructure_attempts", NInt (max_infrastructure_attempts m));
      ("reasoning_effort", to_json (reasoning_effort m)); ("runtime", NDict (runtime m));
      ("schema_version", NInt (schema_version m))].

Definition sha256 (m : t) : string := canonical_sha256 (NDict (as_dict m)).

Definition required_fields : list string := [
  "campaign_id"; "environment"; "task"; "generation"; "code_commit"; "prompt_sha256"; "model";
  "tool_catalog_sha256"; "rollout_seeds"; "heldout_seeds"; "policy_rng_by_seed"].
Definition optional_fields : list string := [
  "parent_bundle_sha256"; "baseline_mode"; "active_bundle_sha256"; "safety_layer"; "expected_rollouts";
  "expected_heldout"; "initial_logical_slots"; "maximum_logical_slots"; "continuous_logical_slots";
  "maximum_api_concurrency"; "episode_timeout_s"; "no_progress_timeout_s";
  "target_valid_episodes_per_hour"; "max_infrastructure_attempts"; "reasoning_effort"; "runtime";
  "schema_version"; "protocol_explicit"].

Definition rng_of_json (d : json_object) : outcome campaign_error (list (string * Z)) :=
  traverse (λ kv, z ← of_json kv.2; Ok (kv.1, z)) d.

(** [payload.pop("protocol_explicit", None)] is the caller's: the flag is never read. *)
Definition from_dict (payload : json_object) : outcome campaign_error t :=
  let d := assoc_delete "protocol_explicit" payload in
  rollout_seeds ← field "rollout_seeds" d;
  heldout_seeds ← field "heldout_seeds" d;
  rng ← field "policy_rng_by_seed" d;
  policy_rng_by_seed ← rng_of_json rng;
  safety_layer ← match assoc_lookup "safety_layer" d with
    | Some v => x ← of_json v; SafetyLayerConfig.from_dict x
    | None => Ok SafetyLayerConfig.default_config
    end;
  parent ← field_or "parent_bundle_sha256" None d;
  let explicit := bool_decide (is_Some (assoc_lookup "baseline_mode" d)) in
  mode ← (if explicit then field_or "baseline_mode" None d
          else Ok (Some (if truthy parent then "active_bundle" else "strict_pure_vla")));
  active ← (if explicit then field_or "active_bundle_sha256" None d else Ok parent);
  kwargs required_fields optional_fields d;;
  campaign_id ← field "campaign_id" d;
  environment ← field "environment" d;
  task ← field "task" d;
  generation ← field "generation" d;
  code_commit ← field "code_commit" d;
  prompt_sha256 ← field "prompt_sha256" d;
  model ← field "model" d;
  tool_catalog_sha256 ← field "tool_catalog_sha256" d;
  expected_rollouts ← field_or "expected_rollouts" 50 d;
  expected_heldout ← field_or "expected_heldout" 50 d;
  initial ← field_or "initial_logical_slots" 8 d;
  maximum ← field_or "maximum_logical_slots" 12 d;
  continuous ← field_or "continuous_logical_slots" 8 d;
  concurrency ← field_or "maximum_api_concurrency" 8 d;
  episode_timeout_s ← field_or "episode_timeout_s" 900 d;
  no_progress_timeout_s ← field_or "no_progress_timeout_s" 240 d;
  target ← field_or "target_valid_episodes_per_hour" (NFloat "25.0") d;
  attempts ← field_or "max_infrastructure_attempts" 2 d;
  effort ← field_or "reasoning_effort" None d;
  runtime ← field_or "runtime" [] d;
  schema_version ← field_or "schema_version" 1 d;
  post_init {|
    campaign_id := campaign_id; environment := environment; task := task; generation := generation;
    code_commit := code_commit; prompt_sha256 := prompt_sha256; model := model;
    tool_catalog_sha256 := tool_catalog_sha256; rollout_seeds := rollout_seeds;
    heldout_seeds := heldout_seeds; policy_rng_by_seed := policy_rng_by_seed;
    parent_bundle_sha256 := parent; baseline_mode := mode; active_bundle_sha256 := active;
    safety_layer := safety_layer; expected_rollouts := expected_rollouts;
    expected_heldout := expected_heldout; initial_logical_slots := initial;
    maximum_logical_slots := maximum; continuous_logical_slots := continuous;
    maximum_api_concurrency := concurrency; episode_timeout_s := episode_timeout_s;
    no_progress_timeout_s := no_progress_timeout_s; target_valid_episodes_per_hour := target;
    max_infrastructure_attempts := attempts; reasoning_effort := effort; runtime := runtime;
    schema_version := schema_version; protocol_explicit := explicit |}.

(** [agent_view]: what prompts may see; no seed. *)
Definition agent_view (m : t) : json_object := [
  ("campaign_id", NStr (campaign_id m)); ("environment", NStr (environment m)); ("task", NStr (task m));
  ("generation", NInt (generation m)); ("model", NStr (model m));
  ("reasoning_effort", to_json (reasoning_effort m)); ("episode_count", NInt (zlen (rollout_seeds m)));
  ("parent_bundle_sha256", to_json (parent_bundle_sha256 m)); ("baseline_mode", to_json (baseline_mode m));
  ("active_bundle_sha256", to_json (active_bundle_sha256 m));
  ("safety_layer", NDict (SafetyLayerConfig.as_dict (safety_layer m)))].

(** A manifest the constructor returned: the legacy form has the inferred fields. *)
Definition constructed (m : t) : Prop :=
  check m = Ok tt ∧ filled m = m ∧ SafetyLayerConfig.check (safety_layer m) = Ok tt ∧
  NoDup (policy_rng_by_seed m).*1 ∧
  (protocol_explicit m = false →
   safety_layer m = SafetyLayerConfig.default_config ∧
   active_bundle_sha256 m = parent_bundle_sha256 m ∧
   baseline_mode m = Some (if truthy (parent_bundle_sha256 m) then "active_bundle" else "strict_pure_vla")).
End CampaignManifest.

(** ** What reading a file back gives: objects with their keys sorted *)

Definition sorted_object (d : json_object) : json_object :=
  sort_items ((λ kv, (kv.1, sort_keys kv.2)) <$> d).

(** The objects a candidate carries, with their keys sorted. *)
Definition reread_predicate (p : CriticPredicate.t) : CriticPredicate.t :=
  let '(CriticPredicate.Build_t f o th) := p in CriticPredicate.Build_t f o (sort_keys th).
Definition reread_critic (r : CriticRule.t) : CriticRule.t :=
  let '(CriticRule.Build_t i ti f o th dw co pr ev sa ac) := r in
  CriticRule.Build_t i ti f o (sort_keys th) dw co pr ev sa (reread_predicate <$> ac).
Definition reread_step (s : RecoveryStep.t) : RecoveryStep.t :=
  let '(RecoveryStep.Build_t to pa st) := s in RecoveryStep.Build_t to (sorted_object pa) st.
Definition reread_recovery (r : RecoveryRule.t) : RecoveryRule.t :=
  let '(RecoveryRule.Build_t i ti tr pr st sa sc fa ev) := r in
  RecoveryRule.Build_t i ti tr pr (reread_step <$> st) sa sc fa ev.
Definition reread_candidate (c : CandidateBundle.t) : CandidateBundle.t :=
  let '(CandidateBundle.Build_t i g pa di ca me va cr re pl sv) := c in
  CandidateBundle.Build_t i g pa di ca me va (reread_critic <$> cr) (reread_recovery <$> re)
    (sorted_object <$> pl) sv.

Definition reread_manifest (m : CampaignManifest.t) : CampaignManifest.t :=
  let '(CampaignManifest.Build_t i en ta ge co pr mo tc ro he rng pa ba ac sa er eh il ml cl ma et np tv mi re ru
    sv ex) := m in
  CampaignManifest.Build_t i en ta ge co pr mo tc ro he
    (sort_items rng) pa ba ac sa er eh il ml cl ma et np
    (sort_keys tv) mi re (sorted_object ru) sv ex.

Lemma sorted_object_perm d : sorted_object d ≡ₚ (λ kv, (kv.1, sort_keys kv.2)) <$> d.
Proof. apply sort_by_perm. Qed.

Lemma sort_keys_dict d : sort_keys (NDict d) = NDict (sorted_object d).
Proof. done. Qed.

Lemma sorted_object_keys d : (sorted_object d).*1 ≡ₚ d.*1.
Proof. rewrite sorted_object_perm, <- list_fmap_compose. done. Qed.

Lemma assoc_lookup_fmap {A B} (f : A → B) k (l : list (string * A)) :
  assoc_lookup k ((λ kv, (kv.1, f kv.2)) <$> l) = f <$> assoc_lookup k l.
Proof. induction l as [|[k' v] l IH]; [done|]. csimpl. by case_decide. Qed.

Lemma assoc_lookup_perm {A} k (l1 l2 : list (string * A)) :
  NoDup l1.*1 → l1 ≡ₚ l2 → assoc_lookup k l1 = assoc_lookup k l2.
Proof.
  intros Hnd Hp. apply option_eq. intros v.
  assert (H : ∀ l, NoDup l.*1 → assoc_lookup k l = Some v ↔ (k, v) ∈ l).
  { intros l Hl. split; [apply (lookup_Some_items (PyDict l))|by apply assoc_lookup_in]. }
  rewrite !H by (try done; by rewrite <- Hp). by rewrite Hp.
Qed.

Lemma sorted_object_lookup k d :
  NoDup d.*1 → assoc_lookup k (sorted_object d) = sort_keys <$> assoc_lookup k d.
Proof.
  intros Hnd. rewrite <- assoc_lookup_fmap. symmetry. apply assoc_lookup_perm.
  - by rewrite <- list_fmap_compose.
  - symmetry. apply sorted_object_perm.
Qed.

Section fields.
Context {A : Type} `{JsonField A}.

Lemma field_sorted k d :
  NoDup d.*1 → field (A := A) k (sorted_object d) =
    match assoc_lookup k d with Some v => of_json (sort_keys v) | None => Raise (MissingKey k) end.
Proof. intros Hd. unfold field. rewrite sorted_object_lookup by done. by destruct (assoc_lookup k d). Qed.

Lemma field_or_sorted k x d :
  NoDup d.*1 → field_or (A := A) k x (sorted_object d) =
    match assoc_lookup k d with Some v => of_json (sort_keys v) | None => Ok x end.
Proof. intros Hd. unfold field_or. rewrite sorted_object_lookup by done. by destruct (assoc_lookup k d). Qed.
End fields.

Lemma forallb_perm {A} (p : A → bool) l1 l2 : l1 ≡ₚ l2 → forallb p l1 = forallb p l2.
Proof. induction 1; simpl; [done|congruence| |congruence]. by destruct (p x), (p y). Qed.

Lemma forallb_fmap {A B} (p : B → bool) (f : A → B) l : forallb p (f <$> l) = forallb (λ x, p (f x)) l.
Proof. induction l as [|x l IH]; [done|]. csimpl. by rewrite IH. Qed.

Lemma forallb_ext {A} (p q : A → bool) l : (∀ x, p x = q x) → forallb p l = forallb q l.
Proof. intros H. induction l as [|x l IH]; [done|]. csimpl. by rewrite IH, H. Qed.

Lemma kwargs_sorted required optional d :
  NoDup d.*1 → kwargs required optional (sorted_object d) = kwargs required optional d.
Proof.
  intros Hd. unfold kwargs. rewrite (forallb_perm _ _ _ (sorted_object_perm d)), forallb_fmap.
  rewrite (forallb_ext _ (λ k, bool_decide (is_Some (assoc_lookup k d)))); [done|]. intros k.
  rewrite sorted_object_lookup by done. apply bool_decide_ext. by rewrite fmap_is_Some.
Qed.

(** Lists of objects and of strings under [sort_keys]. *)
Lemma sorted_objects {B} (f : B → json_object) l :
  of_json (sort_keys (NList ((λ x, NDict (f x)) <$> l))) = Ok ((λ x, sorted_object (f x)) <$> l).
Proof.
  simpl. apply traverse_ok. rewrite <- list_fmap_compose. apply Forall2_fmap. by apply Forall_Forall2_diag, Forall_true.
Qed.

Lemma sorted_strings (l : list string) : sort_keys (to_json l) = to_json l.
Proof. simpl. f_equal. induction l as [|x l IH]; [done|]. csimpl. by rewrite IH. Qed.

#[local] Ltac keys_distinct := (apply (bool_decide_unpack _); vm_compute; exact I).

(** Reading the fields of a stored object whose keys are known. *)
#[local] Ltac read_fields :=
  repeat (first
    [ rewrite kwargs_sorted by keys_distinct
    | rewrite field_sorted by keys_distinct
    | rewrite field_or_sorted by keys_distinct ]).

Lemma predicate_reread p :
  CriticPredicate.check p = Ok tt →
  CriticPredicate.from_dict (sorted_object (CriticPredicate.as_dict p)) = Ok (reread_predicate p).
Proof.
  destruct p as [f o th]. intros Hc. unfold CriticPredicate.from_dict. read_fields. simpl.
  unfold CriticPredicate.check in *. simpl in *. by rewrite Hc.
Qed.

Lemma sort_by_sorted_id {A} (leb : A → A → bool) l :
  StronglySorted (le_rel leb) l → sort_by leb l = l.
Proof.
  induction 1 as [|x l _ IH Hx]; [done|]. simpl. rewrite IH.
  destruct l as [|y l]; [done|]. simpl. by rewrite (Forall_inv Hx).
Qed.

Lemma sort_by_idem {A} (leb : A → A → bool) `{!TotalPreorder leb} l :
  sort_by leb (sort_by leb l) = sort_by leb l.
Proof. apply sort_by_sorted_id, sort_by_sorted, _. Qed.


Lemma fmap_sort_keys_idem (l : list native) :
  Forall (λ v, sort_keys (sort_keys v) = sort_keys v) l → sort_keys <$> (sort_keys <$> l) = sort_keys <$> l.
Proof. induction 1 as [|v l Hv _ IH]; [done|]. csimpl. by rewrite Hv, IH. Qed.

Lemma sort_keys_idem v : sort_keys (sort_keys v) = sort_keys v.
Proof.
  induction v as [ | | | | | |l Hl|its Hits] using native_nested_ind; simpl; try done.
  - f_equal. by apply fmap_sort_keys_idem.
  - f_equal. rewrite <- (sort_items_fmap sort_keys). unfold sort_items at 1 2. rewrite sort_by_idem by apply _.
    unfold sort_items. f_equal. rewrite <- list_fmap_compose.
    induction Hits as [|[k v] its Hv _ IH]; [done|]. csimpl in *. by rewrite Hv, IH.
Qed.

Lemma sorted_object_idem d : sorted_object (sorted_object d) = sorted_object d.
Proof. pose proof (sort_keys_idem (NDict d)) as E. by injection E. Qed.

(** ** Candidates read back *)

Lemma strings_reread (l : list string) : of_json (sort_keys (to_json l)) = Ok l.
Proof. rewrite sorted_strings. apply of_to_json. Qed.

Lemma parent_reread (o : option string) : of_json (sort_keys (to_json o)) = Ok o.
Proof. by destruct o. Qed.

Lemma traverse_rows {B C} (f : json_object → outcome campaign_error C) (g : B → json_object) (h : B → C) l :
  (∀ x, x ∈ l → f (sorted_object (g x)) = Ok (h x)) →
  traverse f ((λ x, sorted_object (g x)) <$> l) = Ok (h <$> l).
Proof.
  intros H. apply traverse_ok, Forall2_fmap, Forall_Forall2_diag, Forall_forall, H.
Qed.

Lemma str_reread s : of_json (sort_keys (NStr s)) = Ok s. Proof. done. Qed.
Lemma int_reread z : of_json (sort_keys (NInt z)) = Ok z. Proof. done. Qed.
Lemma bool_reread b : of_json (sort_keys (NBool b)) = Ok b. Proof. done. Qed.
Lemma any_reread v : of_json (sort_keys v) = Ok (sort_keys v). Proof. done. Qed.
Lemma dict_reread d : of_json (sort_keys (NDict d)) = Ok (sorted_object d). Proof. done. Qed.
Lemma plugin_reread (o : option json_object) :
  of_json (sort_keys (to_json o)) = Ok (sorted_object <$> o).
Proof. by destruct o. Qed.

#[local] Opaque sort_keys to_json of_json.

(** The binds of a reader whose fields are known. *)
#[local] Ltac read_binds :=
  simpl; repeat (first [ rewrite str_reread | rewrite int_reread | rewrite bool_reread
    | rewrite strings_reread | rewrite parent_reread | rewrite dict_reread | rewrite plugin_reread
    | rewrite sorted_objects | rewrite any_reread ]; simpl).

Lemma critic_reread r :
  CriticRule.check r = Ok tt →
  (∀ p, p ∈ CriticRule.activation_conditions r → CriticPredicate.check p = Ok tt) →
  CriticRule.from_dict (sorted_object (CriticRule.as_dict r)) = Ok (reread_critic r).
Proof.
  destruct r as [i ti f o th dw co pr ev sa ac]. intros Hc Hp. unfold CriticRule.from_dict. read_fields.
  read_binds. rewrite (traverse_rows _ _ reread_predicate) by (intros; by apply predicate_reread, Hp).
  read_binds. unfold CriticRule.check in *. simpl in *. by rewrite Hc.
Qed.

Lemma step_reread s :
  RecoveryStep.from_dict (sorted_object (RecoveryStep.as_dict s)) = Ok (reread_step s).
Proof. destruct s. unfold RecoveryStep.from_dict. read_fields. by read_binds. Qed.

Lemma recovery_reread r :
  RecoveryRule.check r = Ok tt →
  RecoveryRule.from_dict (sorted_object (RecoveryRule.as_dict r)) = Ok (reread_recovery r).
Proof.
  destruct r as [i ti tr pr st sa sc fa ev]. intros Hc. unfold RecoveryRule.from_dict. read_fields.
  read_binds. rewrite (traverse_rows _ _ reread_step) by (intros; apply step_reread).
  read_binds. unfold RecoveryRule.check in *. simpl in *. rewrite length_fmap. by rewrite Hc.
Qed.

Lemma reread_rule_ids c :
  CandidateBundle.rule_ids (reread_candidate c) = CandidateBundle.rule_ids c.
Proof.
  destruct c. unfold CandidateBundle.rule_ids. simpl. rewrite <- list_fmap_compose.
  apply list_fmap_ext. by intros ? [] ?.
Qed.

Lemma reread_triggers c :
  CandidateBundle.triggers (reread_candidate c) = CandidateBundle.triggers c.
Proof.
  destruct c as [i g pa di ca me va cr re pl sv]. unfold CandidateBundle.triggers. simpl.
  induction re as [|[] re IH]; [done|]. csimpl. by rewrite IH.
Qed.

Lemma reread_plugin c :
  CandidateBundle.has_plugin (reread_candidate c) = CandidateBundle.has_plugin c.
Proof.
  destruct c as [i g pa di ca me va cr re [pl|] sv]; [|done]. unfold CandidateBundle.has_plugin. simpl.
  pose proof (Permutation_length (sorted_object_perm pl)) as E. rewrite length_fmap in E.
  by destruct pl, (sorted_object _).
Qed.

Lemma reread_check c : CandidateBundle.check (reread_candidate c) = CandidateBundle.check c.
Proof.
  unfold CandidateBundle.check, CandidateBundle.unknown_triggers, CandidateBundle.uncovered_rules.
  rewrite reread_rule_ids, reread_triggers, reread_plugin.
  destruct c as [i g pa di ca me va cr re pl sv]. simpl. rewrite !length_fmap.
  assert (RecoveryRule.recovery_id <$> (reread_recovery <$> re) = RecoveryRule.recovery_id <$> re) as ->;
    [|done].
  rewrite <- list_fmap_compose. apply list_fmap_ext. by intros ? [] ?.
Qed.

Lemma candidate_from_dict c :
  CandidateBundle.constructed c →
  CandidateBundle.from_dict (sorted_object (CandidateBundle.as_dict c)) = Ok (reread_candidate c).
Proof.
  intros (Hc & Hcr & Hre). rewrite <- reread_check in Hc.
  destruct c as [i g pa di ca me va cr re pl sv]. unfold CandidateBundle.from_dict. read_fields.
  read_binds. rewrite (traverse_rows _ _ reread_critic) by (intros r Hr; by apply critic_reread; apply Hcr).
  read_binds. rewrite (traverse_rows _ _ reread_recovery) by (intros r Hr; by apply recovery_reread, Hre).
  read_binds. simpl in Hc. by rewrite Hc.
Qed.

#[local] Transparent sort_keys to_json of_json.

(** ** The digest of what is read back *)

Lemma canonical_sha256_ext v w : sort_keys v = sort_keys w → canonical_sha256 v = canonical_sha256 w.
Proof. intros E. unfold canonical_sha256, canonical_json_bytes. by rewrite E. Qed.

Lemma canonical_sha256_sorted v : canonical_sha256 (sort_keys v) = canonical_sha256 v.
Proof. apply canonical_sha256_ext, sort_keys_idem. Qed.

Lemma dict_canon d1 d2 :
  (λ kv, (kv.1, sort_keys kv.2)) <$> d1 = (λ kv, (kv.1, sort_keys kv.2)) <$> d2 →
  sort_keys (NDict d1) = sort_keys (NDict d2).
Proof. intros E. simpl. by rewrite E. Qed.

Lemma rows_canon {B} (f : B → json_object) (h : B → B) l :
  (∀ x, sort_keys (NDict (f (h x))) = sort_keys (NDict (f x))) →
  sort_keys (NList ((λ x, NDict (f x)) <$> (h <$> l))) = sort_keys (NList ((λ x, NDict (f x)) <$> l)).
Proof.
  intros H. simpl. f_equal. induction l as [|x l IH]; [done|]. csimpl. rewrite IH. f_equal. exact (H x).
Qed.

#[local] Opaque sort_keys to_json.

Lemma predicate_canon p :
  sort_keys (NDict (CriticPredicate.as_dict (reread_predicate p))) =
  sort_keys (NDict (CriticPredicate.as_dict p)).
Proof. destruct p. apply dict_canon. csimpl. by rewrite sort_keys_idem. Qed.

Lemma critic_canon r :
  sort_keys (NDict (CriticRule.as_dict (reread_critic r))) = sort_keys (NDict (CriticRule.as_dict r)).
Proof.
  destruct r. apply dict_canon. csimpl. rewrite sort_keys_idem.
  by rewrite (rows_canon CriticPredicate.as_dict) by apply predicate_canon.
Qed.

Lemma step_canon s :
  sort_keys (NDict (RecoveryStep.as_dict (reread_step s))) = sort_keys (NDict (RecoveryStep.as_dict s)).
Proof. destruct s. apply dict_canon. csimpl. by rewrite <- sort_keys_dict, sort_keys_idem. Qed.

Lemma recovery_canon r :
  sort_keys (NDict (RecoveryRule.as_dict (reread_recovery r))) = sort_keys (NDict (RecoveryRule.as_dict r)).
Proof.
  destruct r. apply dict_canon. csimpl. by rewrite (rows_canon RecoveryStep.as_dict) by apply step_canon.
Qed.

Lemma candidate_canon c :
  sort_keys (NDict (CandidateBundle.as_dict (reread_candidate c))) =
  sort_keys (NDict (CandidateBundle.as_dict c)).
Proof.
  destruct c as [i g pa di ca me va cr re pl sv]. apply dict_canon. csimpl.
  rewrite (rows_canon CriticRule.as_dict) by apply critic_canon.
  rewrite (rows_canon RecoveryRule.as_dict) by apply recovery_canon.
  assert (sort_keys (to_json (sorted_object <$> pl)) = sort_keys (to_json pl)) as ->; [|done].
  destruct pl as [pl|]; [|done]. exact (sort_keys_idem (NDict pl)).
Qed.

#[local] Transparent sort_keys to_json.

(** ** Manifests read back *)

Lemma assoc_delete_sorted k d : k ∉ d.*1 → assoc_delete k (sorted_object d) = sorted_object d.
Proof. intros Hk. apply assoc_delete_notin. by rewrite sorted_object_keys. Qed.

Lemma rng_reread rng :
  CampaignManifest.rng_of_json (sorted_object (CampaignManifest.rng_json rng)) = Ok (sort_items rng).
Proof.
  unfold sorted_object, CampaignManifest.rng_json.
  assert ((λ kv, (kv.1, sort_keys kv.2)) <$> (prod_map id NInt <$> rng) = (λ kv, (kv.1, NInt kv.2)) <$> rng) as ->.
  { rewrite <- list_fmap_compose. by apply list_fmap_ext. }
  rewrite sort_items_fmap. apply traverse_ok, Forall2_fmap_l, Forall_Forall2_diag, Forall_forall.
  by intros [k z] _.
Qed.

Lemma safety_reread s :
  SafetyLayerConfig.check s = Ok tt →
  SafetyLayerConfig.from_dict (sorted_object (SafetyLayerConfig.as_dict s)) = Ok s.
Proof.
  destruct s. intros Hc. unfold SafetyLayerConfig.from_dict. read_fields. read_binds.
  unfold SafetyLayerConfig.check in *. simpl in *. by rewrite Hc.
Qed.

Lemma reread_filled m :
  CampaignManifest.filled m = m → CampaignManifest.filled (reread_manifest m) = reread_manifest m.
Proof.
  intros E. pose proof (f_equal CampaignManifest.baseline_mode E) as E1.
  pose proof (f_equal CampaignManifest.active_bundle_sha256 E) as E2. clear E. simpl in E1, E2.
  unfold CampaignManifest.filled.
  assert (CampaignManifest.inferred_mode (reread_manifest m) = CampaignManifest.inferred_mode m) as ->
    by by destruct m.
  assert (CampaignManifest.inferred_active (reread_manifest m) = CampaignManifest.inferred_active m) as ->
    by by destruct m.
  rewrite E1, E2. by destruct m.
Qed.

Lemma reread_manifest_check m :
  CampaignManifest.check (reread_manifest m) = CampaignManifest.check m.
Proof.
  destruct m as [i en ta ge co pr mo tc ro he rng pa ba ac sa er eh il ml cl ma et np tv mi re ru sv ex].
  unfold CampaignManifest.check. simpl.
  assert (list_to_set (C := gset string) (sort_items rng).*1 = list_to_set rng.*1) as ->; [|done].
  apply set_eq. intros x. rewrite !elem_of_list_to_set. unfold sort_items. by rewrite sort_by_perm.
Qed.

Lemma ints_reread (l : list Z) : of_json (sort_keys (to_json l)) = Ok l.
Proof.
  assert (sort_keys (to_json l) = to_json l) as ->; [|apply of_to_json].
  simpl. f_equal. induction l as [|x l IH]; [done|]. csimpl. by rewrite IH.
Qed.

#[local] Opaque sort_keys to_json of_json CampaignManifest.check.

#[local] Ltac read_manifest_binds :=
  read_binds; repeat (first [ rewrite ints_reread | rewrite rng_reread | rewrite safety_reread by done ]; read_binds).

Lemma manifest_from_dict m :
  CampaignManifest.constructed m →
  CampaignManifest.from_dict (sorted_object (CampaignManifest.as_dict m)) = Ok (reread_manifest m).
Proof.
  intros (Hc & Hf%reread_filled & Hs & Hnd & Hl). rewrite <- reread_manifest_check, <- Hf in Hc.
  destruct m as [i en ta ge co pr mo tc ro he rng pa ba ac sa er eh il ml cl ma et np tv mi re ru sv ex].
  simpl in Hs, Hl. unfold CampaignManifest.from_dict. destruct ex.
  - rewrite assoc_delete_sorted by (apply (bool_decide_unpack _); vm_compute; exact I).
    read_fields. rewrite !sorted_object_lookup by keys_distinct. read_manifest_binds.
    unfold CampaignManifest.post_init. simpl in Hc, Hf. by rewrite Hc, Hf.
  - destruct Hl as (-> & -> & ->); [done|].
    rewrite assoc_delete_sorted by (apply (bool_decide_unpack _); vm_compute; exact I).
    read_fields. rewrite !sorted_object_lookup by keys_distinct. read_manifest_binds.
    unfold CampaignManifest.post_init. simpl in Hc, Hf. by rewrite Hc, Hf.
Qed.

Lemma manifest_canon m :
  NoDup (CampaignManifest.policy_rng_by_seed m).*1 →
  sort_keys (NDict (CampaignManifest.as_dict (reread_manifest m))) =
  sort_keys (NDict (CampaignManifest.as_dict m)).
Proof.
  destruct m as [i en ta ge co pr mo tc ro he rng pa ba ac sa er eh il ml cl ma et np tv mi re ru sv ex].
  intros Hnd. simpl in Hnd.
  assert (sort_keys (NDict (CampaignManifest.rng_json (sort_items rng))) =
    sort_keys (NDict (CampaignManifest.rng_json rng))) as E1.
  { apply sort_keys_perm; unfold CampaignManifest.rng_json.
    - rewrite <- list_fmap_compose. unfold sort_items. rewrite sort_by_perm. exact Hnd.
    - apply fmap_Permutation, sort_by_perm. }
  assert (sort_keys (NDict (sorted_object ru)) = sort_keys (NDict ru)) as E2 by exact (sort_keys_idem (NDict ru)).
  apply dict_canon. destruct ex; csimpl; by rewrite E1, E2, sort_keys_idem.
Qed.

#[local] Transparent sort_keys to_json of_json CampaignManifest.check.

(** ** What the checks guarantee *)

Lemma bfilter_nil {A} (p : A → bool) l : bfilter p l = [] → ∀ x, x ∈ l → p x = false.
Proof.
  intros E x Hx. destruct (p x) eqn:Hp; [|done].
  assert (x ∈ bfilter p l) as H by (by apply elem_of_bfilter). rewrite E in H. by apply elem_of_nil in H.
Qed.

Lemma NoDup_fmap_inj_on {A B} (f : A → B) l x y :
  NoDup (f <$> l) → x ∈ l → y ∈ l → f x = f y → x = y.
Proof.
  induction l as [|z l IH]; [by intros _ ?%elem_of_nil|]. csimpl. intros [Hz Hnd]%NoDup_cons.
  rewrite !elem_of_cons. intros [->|Hx] [->|Hy] E; auto; destruct Hz.
  - rewrite E. by apply list_elem_of_fmap_2.
  - rewrite <- E. by apply list_elem_of_fmap_2.
Qed.

Lemma accepted_candidate c :
  CandidateBundle.check c = Ok tt →
  NoDup (CandidateBundle.rule_ids c) ∧
  (∀ x, x ∈ CandidateBundle.triggers c → x ∈ CandidateBundle.rule_ids c) ∧
  (∀ x, x ∈ CandidateBundle.rule_ids c → x ∈ CandidateBundle.triggers c).
Proof.
  unfold CandidateBundle.check. intros (_ & _ & H)%outcome_bind_ok.
  apply outcome_bind_ok in H as (_ & _ & H). apply outcome_bind_ok in H as ([] & Hr & H).
  apply ensure_bind_ok in H as [Hun Hcov]. apply ensure_ok in Hcov. rewrite bool_decide_eq_true in Hun, Hcov.
  apply requires_ok in Hr. rewrite !Forall_cons in Hr. destruct Hr as (_ & _ & _ & _ & Hnd & _).
  apply andb_true_iff in Hnd as [Hnd%bool_decide_eq_true _]. split_and!; [done| |].
  - intros x Hx. by apply (bfilter_nil _ _ Hun), negb_false_iff, bool_decide_eq_true in Hx.
  - intros x Hx. by apply (bfilter_nil _ _ Hcov), negb_false_iff, bool_decide_eq_true in Hx.
Qed.

Lemma recovery_has_steps r : RecoveryRule.check r = Ok tt → RecoveryRule.steps r ≠ [].
Proof.
  intros Hr%requires_ok. rewrite !Forall_cons in Hr. destruct Hr as (_ & Hs & _). simpl in Hs.
  by destruct (RecoveryRule.steps r).
Qed.

Lemma reread_constructed c :
  CandidateBundle.constructed c → CandidateBundle.constructed (reread_candidate c).
Proof.
  intros (Hc & Hcr & Hre). rewrite <- reread_check in Hc. split; [done|].
  destruct c as [i g pa di ca me va cr re pl sv]. simpl in *. split.
  - intros r' (r & -> & Hr)%list_elem_of_fmap. destruct (Hcr r Hr) as [H1 H2]. destruct r. simpl in *.
    split; [done|]. intros p' (p & -> & Hp)%list_elem_of_fmap. specialize (H2 p Hp). by destruct p.
  - intros r' (r & -> & Hr)%list_elem_of_fmap. specialize (Hre r Hr). destruct r. simpl in *.
    unfold RecoveryRule.check in *. simpl in *. by rewrite length_fmap.
Qed.

(** C38: a candidate is its digest.  Of a candidate the constructors accepted, the stored
    bundle file has the candidate's own digest, the reader accepts it, and what it returns
    has that digest again, so the digest checks of a recovery never refuse an intact file. *)
Theorem candidate_reads_back (c : CandidateBundle.t) (stored : json_object) :
  CandidateBundle.constructed c →
  sort_keys (NDict (CandidateBundle.as_dict c)) = NDict stored →
  canonical_sha256 (NDict stored) = CandidateBundle.sha256 c ∧
  ∃ c', CandidateBundle.from_dict stored = Ok c' ∧ CandidateBundle.constructed c' ∧
    CandidateBundle.sha256 c' = CandidateBundle.sha256 c ∧
    CandidateBundle.parent_sha256 c' = CandidateBundle.parent_sha256 c.
Proof.
  intros Hc Hs. split.
  { rewrite <- Hs. apply canonical_sha256_sorted. }
  rewrite sort_keys_dict in Hs. injection Hs as <-. exists (reread_candidate c).
  split_and!; [by apply candidate_from_dict| |apply canonical_sha256_ext, candidate_canon|by destruct c].
  by apply reread_constructed.
Qed.

(** A manifest is its digest: what [manifest()] reads back from the file a manifest was
    stored in is accepted, has the digest of the manifest, for legacy manifests too, and
    is the same campaign. *)
Theorem manifest_reads_back (m : CampaignManifest.t) (stored : json_object) :
  CampaignManifest.constructed m →
  sort_keys (NDict (CampaignManifest.as_dict m)) = NDict stored →
  CampaignManifest.from_dict stored = Ok (reread_manifest m) ∧
  CampaignManifest.sha256 (reread_manifest m) = CampaignManifest.sha256 m.
Proof.
  intros Hm Hs. rewrite sort_keys_dict in Hs. injection Hs as <-. split; [by apply manifest_from_dict|].
  apply canonical_sha256_ext, manifest_canon. apply Hm.
Qed.

(** C40: in an accepted candidate every critic rule has a recovery that it triggers, with at
    least one step, and every trigger of a recovery is one of its critic rules. *)
Theorem accepted_candidate_is_closed (c : CandidateBundle.t) :
  CandidateBundle.constructed c →
  (∀ r, r ∈ CandidateBundle.critic_rules c → ∃ rec,
     rec ∈ CandidateBundle.recovery_rules c ∧
     CriticRule.rule_id r ∈ RecoveryRule.trigger_rule_ids rec ∧ RecoveryRule.steps rec ≠ []) ∧
  (∀ rec x, rec ∈ CandidateBundle.recovery_rules c → x ∈ RecoveryRule.trigger_rule_ids rec →
     ∃ r, r ∈ CandidateBundle.critic_rules c ∧ CriticRule.rule_id r = x ∧
       ∀ r', r' ∈ CandidateBundle.critic_rules c → CriticRule.rule_id r' = x → r' = r).
Proof.
  intros (Hc & _ & Hre). apply accepted_candidate in Hc as (Hnd & Hun & Hcov). split.
  - intros r Hr. specialize (Hcov (CriticRule.rule_id r)).
    apply list_elem_of_bind in Hcov as (rec & Hx & Hrec); [|by apply list_elem_of_fmap_2].
    exists rec. split_and!; [done..|]. by apply recovery_has_steps, Hre.
  - intros rec x Hrec Hx.
    assert (x ∈ CandidateBundle.rule_ids c) as (r & -> & Hr)%list_elem_of_fmap.
    { apply Hun, list_elem_of_bind. eauto. }
    exists r. split_and!; [done..|]. intros r' Hr' E. by apply (NoDup_fmap_inj_on CriticRule.rule_id _ _ _ Hnd).
Qed.

(** ** A concrete campaign *)

Fixpoint repeat_text (n : nat) (s : string) : string :=
  match n with O => EmptyString | S n' => s +:+ repeat_text n' s end.
Definition hex64 (s : string) : string := repeat_text 64 s.

Definition sample_critic : CriticRule.t := {|
  CriticRule.rule_id := "stuck"; CriticRule.title := "no progress"; CriticRule.feature := "gripper.gap";
  CriticRule.operator := "stagnant"; CriticRule.threshold := NFloat "0.01";
  CriticRule.dwell_steps := 3; CriticRule.cooldown_steps := 2; CriticRule.proposal := "retry";
  CriticRule.evidence_ids := ["e1"]; CriticRule.safety_only := false;
  CriticRule.activation_conditions := [{| CriticPredicate.feature := "contact";
    CriticPredicate.operator := "eq"; CriticPredicate.threshold := NBool true |}] |}.

Definition sample_recovery : RecoveryRule.t := {|
  RecoveryRule.recovery_id := "regrasp"; RecoveryRule.title := "regrasp";
  RecoveryRule.trigger_rule_ids := ["stuck"]; RecoveryRule.precondition := "holding";
  RecoveryRule.steps := [{| RecoveryStep.tool := "move";
    RecoveryStep.parameters := [("z", NFloat "0.1"); ("dx", NInt 0)]; RecoveryStep.stop_when := "lifted" |}];
  RecoveryRule.safety_constraints := []; RecoveryRule.stop_condition := "done";
  RecoveryRule.fallback := "none"; RecoveryRule.evidence_ids := ["e1"] |}.

Definition sample_candidate : CandidateBundle.t := {|
  CandidateBundle.candidate_id := "c1"; CandidateBundle.generation := 0;
  CandidateBundle.parent_sha256 := None; CandidateBundle.diagnosis_sha256 := hex64 "d";
  CandidateBundle.causal_hypothesis := "slips"; CandidateBundle.mechanism_change := "regrasp";
  CandidateBundle.validation_plan := "gates"; CandidateBundle.critic_rules := [sample_critic];
  CandidateBundle.recovery_rules := [sample_recovery]; CandidateBundle.tool_plugin := None;
  CandidateBundle.schema_version := 1 |}.

Definition sample_manifest : CampaignManifest.t := {|
  CampaignManifest.campaign_id := "camp"; CampaignManifest.environment := "libero";
  CampaignManifest.task := "lift"; CampaignManifest.generation := 0;
  CampaignManifest.code_commit := repeat_text 40 "0"; CampaignManifest.prompt_sha256 := hex64 "1";
  CampaignManifest.model := "m"; CampaignManifest.tool_catalog_sha256 := hex64 "2";
  CampaignManifest.rollout_seeds := [11; 5]; CampaignManifest.heldout_seeds := [7];
  CampaignManifest.policy_rng_by_seed := [("11", 1); ("5", 2); ("7", 3)];
  CampaignManifest.parent_bundle_sha256 := None;
  CampaignManifest.baseline_mode := Some "strict_pure_vla";
  CampaignManifest.active_bundle_sha256 := None;
  CampaignManifest.safety_layer := SafetyLayerConfig.default_config;
  CampaignManifest.expected_rollouts := 2; CampaignManifest.expected_heldout := 1;
  CampaignManifest.initial_logical_slots := 8; CampaignManifest.maximum_logical_slots := 12;
  CampaignManifest.continuous_logical_slots := 8; CampaignManifest.maximum_api_concurrency := 8;
  CampaignManifest.episode_timeout_s := 900; CampaignManifest.no_progress_timeout_s := 240;
  CampaignManifest.target_valid_episodes_per_hour := NFloat "25.0";
  CampaignManifest.max_infrastructure_attempts := 2; CampaignManifest.reasoning_effort := None;
  CampaignManifest.runtime := [("heldout_gate_kind", NStr "heldout_20"); ("a", NInt 1)];
  CampaignManifest.schema_version := 1; CampaignManifest.protocol_explicit := true |}.

Lemma sample_candidate_constructed : CandidateBundle.constructed sample_candidate.
Proof.
  split; [by vm_compute|]. split.
  - intros r ->%list_elem_of_singleton. split; [by vm_compute|].
    intros p ->%list_elem_of_singleton. by vm_compute.
  - intros r ->%list_elem_of_singleton. by vm_compute.
Qed.

Lemma sample_manifest_constructed : CampaignManifest.constructed sample_manifest.
Proof.
  split; [by vm_compute|]. split; [by vm_compute|]. split; [by vm_compute|]. split; [|done].
  apply (bool_decide_unpack _). by vm_compute.
Qed.

Definition object_of (v : native) : json_object := match v with NDict d => d | _ => [] end.

Lemma candidate_reads_back_witness :
  ∃ c', CandidateBundle.from_dict (object_of (sort_keys (NDict (CandidateBundle.as_dict sample_candidate)))) = Ok c' ∧
    CandidateBundle.sha256 c' = CandidateBundle.sha256 sample_candidate.
Proof.
  destruct (candidate_reads_back sample_candidate
    (object_of (sort_keys (NDict (CandidateBundle.as_dict sample_candidate)))))
    as (_ & c' & Hc & _ & Hs & _); [apply sample_candidate_constructed|done|].
  exists c'. exact (conj Hc Hs).
Defined.

Lemma manifest_reads_back_witness :
  CampaignManifest.runtime (reread_manifest sample_manifest) =
    [("a", NInt 1); ("heldout_gate_kind", NStr "heldout_20")] ∧
  CampaignManifest.sha256 (reread_manifest sample_manifest) = CampaignManifest.sha256 sample_manifest.
Proof.
  split; [by vm_compute|].
  refine (proj2 (manifest_reads_back sample_manifest
    (object_of (sort_keys (NDict (CampaignManifest.as_dict sample_manifest)))) _ eq_refl)).
  apply sample_manifest_constructed.
Defined.

Lemma accepted_candidate_is_closed_witness :
  ∃ rec, rec ∈ CandidateBundle.recovery_rules sample_candidate ∧
    "stuck" ∈ RecoveryRule.trigger_rule_ids rec ∧ RecoveryRule.steps rec ≠ [].
Proof.
  refine (proj1 (accepted_candidate_is_closed sample_candidate _) sample_critic _).
  - apply sample_candidate_constructed.
  - by left.
Defined.
