(* ===== verification/Critic.v ===== *)
(** * The temporal critic: [TemporalCritic] of [zetta/evolution/critic.py]

    While a chunk of actions runs, frozen rules watch the observations.  A rule is active
    while its guards hold; it proposes an intervention when its condition held for
    [dwell_steps] steps in a row (or when its feature hardly moved over a window of so many
    steps), and is silent for [cooldown_steps] afterwards.  [evaluate] is a program over the
    state of the rules; an exception in a rule leaves what was done before it.

    Observations are JSON values; [py_eq] is [==].

    Theorems: for a critic whose rules have different names, the rule state machine is
    exactly its declarative reading over the trace of observations ([critic_exact]): which
    steps propose, whatever the guards and the other rules do.  A concrete run shows that a
    guard that flickers lifts a cooldown. *)

From Stdlib Require Import QArith Ascii.
From stdpp Require Import pretty.
From S2P Require Import Prelude PyDict Codec JsonIO PyFloat EvolutionModels CampaignModels.

Open Scope string_scope.
Open Scope list_scope.
Open Scope Z_scope.

(** ** Values *)

(** The exact number a bool, an int or a finite float is. *)
Definition number (x : native) : option Q :=
  match x with
  | NBool b => Some (inject_Z (Z.b2z b))
  | NInt z => Some (inject_Z z)
  | NFloat r => float_value r
  | _ => None
  end.

(** [x == y] *)
Fixpoint py_eq (x y : native) {struct x} : bool :=
  match x, y with
  | NNone, NNone => true
  | NStr a, NStr b | NBytes a, NBytes b => String.eqb a b
  | NFloat a, NFloat b =>
      match float_value a, float_value b with
      | Some p, Some q => Qeq_bool p q
      | None, None => String.eqb a b && negb (String.eqb a "nan")
      | _, _ => false
      end
  | NList l, NList l' =>
      (fix eqs (l l' : list native) {struct l} : bool :=
         match l, l' with [], [] => true | x :: l, y :: l' => py_eq x y && eqs l l' | _, _ => false end) l l'
  | NDict d, NDict d' =>
      (length d =? length d')%nat &&
      (fix eqs (d : list (string * native)) : bool :=
         match d with
         | [] => true
         | (k, x) :: d => match assoc_lookup k d' with Some y => py_eq x y | None => false end && eqs d
         end) d
  | _, _ =>
      match number x, number y with
      | Some p, Some q => Qeq_bool p q
      | _, _ => false
      end
  end.

Definition type_name (x : native) : string :=
  match x with
  | NNone => "NoneType" | NBool _ => "bool" | NInt _ => "int" | NFloat _ => "float"
  | NStr _ => "str" | NBytes _ => "bytes" | NList _ => "list" | NDict _ => "dict"
  end.

(** What a rule may raise: [KeyError], [TypeError], [ValueError], or [KeyError] of an operator. *)
Inductive critic_error :=
  | Unavailable (path : string)
  | NotNumeric (type : string)
  | NotFinite
  | UnknownOperator (op : string).

Fixpoint split_dots (s : string) : list string :=
  match s with
  | EmptyString => [""]
  | String c s' =>
      if Ascii.eqb c "." then "" :: split_dots s'
      else match split_dots s' with p :: ps => String c p :: ps | [] => [String c ""] end
  end.
Fixpoint walk (parts : list string) (x : native) : option native :=
  match parts with
  | [] => Some x
  | p :: ps => match x with NDict d => match assoc_lookup p d with Some y => walk ps y | None => None end | _ => None end
  end.
Definition resolve_feature (observation : json_object) (dotted_path : string) : outcome critic_error native :=
  match assoc_lookup dotted_path observation with
  | Some x => Ok x
  | None =>
      match walk (split_dots dotted_path) (NDict observation) with
      | Some x => Ok x
      | None => Raise (Unavailable dotted_path)
      end
  end.

Definition _numeric (x : native) : outcome critic_error Q :=
  match x with
  | NInt z => Ok (of_int z)
  | NFloat r => match float_value r with Some q => Ok q | None => Raise NotFinite end
  | _ => Raise (NotNumeric (type_name x))
  end.

Definition compare (op : string) (observed threshold : Q) : outcome critic_error bool :=
  if String.eqb op "lt" then Ok (flt observed threshold)
  else if String.eqb op "le" then Ok (Qle_bool observed threshold)
  else if String.eqb op "gt" then Ok (flt threshold observed)
  else if String.eqb op "ge" then Ok (Qle_bool threshold observed)
  else Raise (UnknownOperator op).

(** [==], [!=] or a comparison of numbers. *)
Definition test (op : string) (x threshold : native) : outcome critic_error bool :=
  if String.eqb op "eq" then Ok (py_eq x threshold)
  else if String.eqb op "ne" then Ok (negb (py_eq x threshold))
  else
    observed ← _numeric x;
    limit ← _numeric threshold;
    compare op observed limit.

(** ** Rules *)

Module TemporalCritic.

Record _RuleState := RuleState { consecutive : Z; cooldown_remaining : Z; history : list native }.
Definition fresh_state : _RuleState := RuleState 0 0 [].

Record condition_report := Condition { c_predicate : CriticPredicate.t; c_observed : native }.
Record proposal := Proposal {
  p_rule_id : string;
  p_step_index : Z;
  p_feature : string;
  p_observed_value : native;
  p_activation_conditions : list condition_report;
  p_proposal : string;
  p_safety_only : bool;
  p_environment_write : bool;
}.

Notation states := (gmap string _RuleState).
Definition critic (A : Type) : Type := prog states critic_error A.
Definition lift {A} (o : outcome critic_error A) : critic A := λ s, (s, o).

(** [reset()] *)
Definition reset (rules : list CriticRule.t) : states :=
  list_to_map ((λ r, (CriticRule.rule_id r, fresh_state)) <$> rules).

Definition _predicate (p : CriticPredicate.t) (observation : json_object) : outcome critic_error bool :=
  match resolve_feature observation (CriticPredicate.feature p) with
  | Raise _ => Ok false
  | Ok x => test (CriticPredicate.operator p) x (CriticPredicate.threshold p)
  end.
(** [all(…)]: up to the first guard that does not hold. *)
Fixpoint all_hold (ps : list CriticPredicate.t) (observation : json_object) : outcome critic_error bool :=
  match ps with
  | [] => Ok true
  | p :: ps => b ← _predicate p observation; if (b : bool) then all_hold ps observation else Ok false
  end.

Definition stagnant (r : CriticRule.t) : bool := String.eqb (CriticRule.operator r) "stagnant".

Definition _condition (r : CriticRule.t) (x : native) (history : list native) : outcome critic_error bool :=
  if stagnant r then
    if zlen history <? CriticRule.dwell_steps r then Ok false
    else
      numbers ← traverse _numeric history;
      limit ← _numeric (CriticRule.threshold r);
      Ok (Qle_bool (fsub (max_of numbers) (min_of numbers)) limit)
  else test (CriticRule.operator r) x (CriticRule.threshold r).

Definition required_consecutive (r : CriticRule.t) : Z := if stagnant r then 1 else CriticRule.dwell_steps r.

(** [history.append(value); if len(history) > dwell_steps: history.pop(0)] *)
Definition remember (r : CriticRule.t) (x : native) (h : list native) : list native :=
  let h := h ++ [x] in if CriticRule.dwell_steps r <? zlen h then drop 1 h else h.

Definition report (observation : json_object) (p : CriticPredicate.t) : outcome critic_error condition_report :=
  x ← resolve_feature observation (CriticPredicate.feature p); Ok (Condition p x).
Definition propose (r : CriticRule.t) (observation : json_object) (step_index : Z) (x : native) :
    outcome critic_error proposal :=
  conditions ← traverse (report observation) (CriticRule.activation_conditions r);
  Ok (Proposal (CriticRule.rule_id r) step_index (CriticRule.feature r) x conditions (CriticRule.proposal r)
        (CriticRule.safety_only r) false).

(** One rule of the loop, on its own state. *)
Definition rule_step (r : CriticRule.t) (observation : json_object) (step_index : Z) :
    prog _RuleState critic_error (option proposal) := λ s,
  match all_hold (CriticRule.activation_conditions r) observation with
  | Raise e => (s, Raise e)
  | Ok false => (RuleState 0 0 [], Ok None)
  | Ok true =>
      match resolve_feature observation (CriticRule.feature r) with
      | Raise e => (s, Raise e)
      | Ok x =>
          let h := remember r x (history s) in
          if 0 <? cooldown_remaining s then (RuleState 0 (cooldown_remaining s - 1) h, Ok None)
          else
            match _condition r x h with
            | Raise e => (RuleState (consecutive s) (cooldown_remaining s) h, Raise e)
            | Ok b =>
                let n := if (b : bool) then consecutive s + 1 else 0 in
                if required_consecutive r <=? n then
                  match propose r observation step_index x with
                  | Raise e => (RuleState n (cooldown_remaining s) h, Raise e)
                  | Ok p => (RuleState 0 (CriticRule.cooldown_steps r) h, Ok (Some p))
                  end
                else (RuleState n (cooldown_remaining s) h, Ok None)
            end
      end
  end.

(** [self._state[rule.rule_id]]: there is one for every rule. *)
Definition on_rule (r : CriticRule.t) {A} (m : prog _RuleState critic_error A) : critic A := λ w,
  let '(s, o) := m (default fresh_state (w !! CriticRule.rule_id r)) in
  (<[CriticRule.rule_id r := s]> w, o).
Fixpoint evaluate (rules : list CriticRule.t) (observation : json_object) (step_index : Z) : critic (list proposal) :=
  match rules with
  | [] => mret []
  | r :: rules =>
      p ← on_rule r (rule_step r observation step_index);
      ps ← evaluate rules observation step_index;
      mret (option_list p ++ ps)
  end.

(** The critic over the observations of an episode, from step [n] on. *)
Fixpoint watch (rules : list CriticRule.t) (n : Z) (l : list json_object) : critic (list (list proposal)) :=
  match l with
  | [] => mret []
  | o :: l => ps ← evaluate rules o n; rest ← watch rules (n + 1) l; mret (ps :: rest)
  end.

(** ** The declarative reading *)

Section reading.
Context (r : CriticRule.t).

(** The guards of the rule hold at a step. *)
Definition active (l : list json_object) (m : nat) : Prop :=
  ∃ o, l !! m = Some o ∧ all_hold (CriticRule.activation_conditions r) o = Ok true.

(** The values of the feature since the guards hold, newest first, for observations given
    newest first. *)
Fixpoint epoch (past : list json_object) : list native :=
  match past with
  | [] => []
  | o :: past =>
      match all_hold (CriticRule.activation_conditions r) o, resolve_feature o (CriticRule.feature r) with
      | Ok true, Ok x => x :: epoch past
      | _, _ => []
      end
  end.
(** The last [dwell_steps] of them up to step [m], oldest first. *)
Definition window (l : list json_object) (m : nat) : list native :=
  reverse (take (Z.to_nat (CriticRule.dwell_steps r)) (epoch (reverse (take (S m) l)))).
Definition holds (l : list json_object) (m : nat) : Prop :=
  ∃ o x, l !! m = Some o ∧ resolve_feature o (CriticRule.feature r) = Ok x ∧ _condition r x (window l m) = Ok true.

Definition fired (outs : list (option proposal)) (m : nat) : Prop := ∃ p, outs !! m = Some (Some p).
(** A step is in the cooldown of an earlier proposal, which no guard has cut short. *)
Definition cooling (l : list json_object) (outs : list (option proposal)) (m : nat) : Prop :=
  ∃ p, (p < m)%nat ∧ fired outs p ∧ Z.of_nat m ≤ Z.of_nat p + CriticRule.cooldown_steps r ∧
    ∀ j, (p < j < m)%nat → active l j.
Definition counts (l : list json_object) (outs : list (option proposal)) (m : nat) : Prop :=
  active l m ∧ ¬ cooling l outs m ∧ holds l m.
(** The rule is due at step [n]: it counts as many steps in a row as it requires, and it has
    not proposed at the earlier ones. *)
Definition due (l : list json_object) (outs : list (option proposal)) (n : nat) : Prop :=
  ∀ k, Z.of_nat k < required_consecutive r →
    (k ≤ n)%nat ∧ counts l outs (n - k) ∧ ((0 < k)%nat → ¬ fired outs (n - k)).

(** ** The state machine of one rule *)

Record reads (l : list json_object) (outs : list (option proposal)) (s : _RuleState) : Prop := {
  r_length : length outs = length l;
  r_history : history s = reverse (take (Z.to_nat (CriticRule.dwell_steps r)) (epoch (reverse l)));
  r_cooldown_pos : 0 ≤ cooldown_remaining s;
  r_cooldown k : 0 < k → k ≤ cooldown_remaining s ↔
    ∃ p, (p < length l)%nat ∧ fired outs p ∧ Z.of_nat (length l) - 1 + k ≤ Z.of_nat p + CriticRule.cooldown_steps r ∧
      ∀ j, (p < j < length l)%nat → active l j;
  r_consecutive : 0 ≤ consecutive s < required_consecutive r ∧ consecutive s ≤ Z.of_nat (length l);
  r_counted k : Z.of_nat k < consecutive s → counts l outs (length l - 1 - k) ∧ ¬ fired outs (length l - 1 - k);
  r_maximal : consecutive s < Z.of_nat (length l) →
    ¬ (counts l outs (length l - 1 - Z.to_nat (consecutive s)) ∧ ¬ fired outs (length l - 1 - Z.to_nat (consecutive s)));
  r_due n : (n < length l)%nat → fired outs n ↔ due l outs n;
}.

Lemma active_app l o m : (m < length l)%nat → active (l ++ [o]) m ↔ active l m.
Proof. intros H. unfold active. by rewrite lookup_app_l. Qed.
Lemma fired_app outs o m : (m < length outs)%nat → fired (outs ++ [o]) m ↔ fired outs m.
Proof. intros H. unfold fired. by rewrite lookup_app_l. Qed.
Lemma cooling_app l outs o p m :
  length outs = length l → (m ≤ length l)%nat → cooling (l ++ [o]) (outs ++ [p]) m ↔ cooling l outs m.
Proof.
  intros Hlen Hm. unfold cooling. f_equiv. intros q. split; intros (H1 & H2 & H3 & H4); split_and!; try done.
  - by rewrite fired_app in H2 by lia.
  - intros j Hj. rewrite <- (active_app l o) by lia. by apply H4.
  - rewrite fired_app by lia. done.
  - intros j Hj. rewrite active_app by lia. by apply H4.
Qed.
Lemma window_app l o m : (m < length l)%nat → window (l ++ [o]) m = window l m.
Proof. intros H. unfold window. by rewrite take_app_le by lia. Qed.
Lemma counts_app l outs o p m :
  length outs = length l → (m < length l)%nat → counts (l ++ [o]) (outs ++ [p]) m ↔ counts l outs m.
Proof.
  intros Hlen Hm. unfold counts, holds. rewrite active_app, cooling_app, window_app, lookup_app_l by lia. done.
Qed.
Lemma due_app l outs o p n :
  length outs = length l → (n < length l)%nat → due (l ++ [o]) (outs ++ [p]) n ↔ due l outs n.
Proof.
  intros Hlen Hn. unfold due. split; intros H k Hk; destruct (H k Hk) as (H1 & H2 & H3); split; try done;
    rewrite counts_app, fired_app in * by lia; done.
Qed.

Lemma active_last l o : active (l ++ [o]) (length l) ↔ all_hold (CriticRule.activation_conditions r) o = Ok true.
Proof.
  unfold active. rewrite list_lookup_middle by done. split; [by intros (? & [= <-] & ?)|eauto].
Qed.
Lemma fired_last outs p : fired (outs ++ [p]) (length outs) ↔ is_Some p.
Proof.
  unfold fired. rewrite list_lookup_middle by done. split; [by intros (? & [= ->])|by intros [x ->]; exists x].
Qed.
Lemma window_last l o : window (l ++ [o]) (length l) =
  reverse (take (Z.to_nat (CriticRule.dwell_steps r)) (epoch (reverse (l ++ [o])))).
Proof. unfold window. rewrite (take_ge (l ++ [o])); [done|]. rewrite length_app. simpl. lia. Qed.

Lemma take_reverse_push {A} (h : list A) x d :
  (0 < d)%nat → (length h ≤ d)%nat →
  (if (d <? length (h ++ [x]))%nat then drop 1 (h ++ [x]) else h ++ [x]) = reverse (take d (x :: reverse h)).
Proof.
  intros Hd Hh. destruct d as [|d]; [lia|]. simpl take. rewrite reverse_cons.
  rewrite length_app. simpl. destruct (Nat.ltb_spec (S d) (length h + 1)).
  - assert (length h = S d) as Hl by lia. destruct h as [|y h]; [done|]. simpl in *. rewrite reverse_cons.
    rewrite take_app_le by (rewrite length_reverse; lia). by rewrite take_ge, reverse_involutive by (rewrite length_reverse; lia).
  - by rewrite take_ge, reverse_involutive by (rewrite length_reverse; lia).
Qed.

Context (Hdwell : 1 ≤ CriticRule.dwell_steps r) (Hcooldown : 0 ≤ CriticRule.cooldown_steps r).

Lemma required_pos : 1 ≤ required_consecutive r.
Proof. unfold required_consecutive. destruct (stagnant r); lia. Qed.

(** The counter is the number of steps in a row that count. *)
Lemma run_length l outs s q :
  reads l outs s → 0 ≤ q →
  (∀ k, Z.of_nat k < q → (k < length l)%nat ∧ counts l outs (length l - 1 - k) ∧ ¬ fired outs (length l - 1 - k)) ↔ q ≤ consecutive s.
Proof.
  intros [_ _ _ _ Hc Hn Hm _] Hq. split.
  - intros H. destruct (Z_le_gt_dec q (consecutive s)) as [|Hlt]; [done|]. exfalso.
    destruct (H (Z.to_nat (consecutive s))) as (H1 & H2); [lia|]. apply Hm; [lia|done].
  - intros H k Hk. split; [lia|]. apply Hn. lia.
Qed.
Lemma due_last l outs s o p :
  reads l outs s →
  due (l ++ [o]) (outs ++ [p]) (length l) ↔ counts (l ++ [o]) (outs ++ [p]) (length l) ∧ required_consecutive r - 1 ≤ consecutive s.
Proof.
  intros Hr. pose proof required_pos as Hpos. pose proof (r_length _ _ _ Hr) as Hlen.
  rewrite <- (run_length l outs s) by (done || lia). split.
  - intros H. split; [destruct (H 0%nat) as (_ & H0 & _); [lia|by rewrite Nat.sub_0_r in H0]|].
    intros k Hk. destruct (H (S k)) as (H1 & H2 & H3); [lia|]. replace (length l - S k)%nat with (length l - 1 - k)%nat in * by lia.
    rewrite counts_app in H2 by lia. rewrite fired_app in H3 by lia. split_and!; [lia|done|apply H3; lia].
  - intros [H0 H] [|k] Hk; [rewrite Nat.sub_0_r; split_and!; [lia|done|lia]|].
    destruct (H k) as (H1 & H2 & H3); [lia|]. replace (length l - S k)%nat with (length l - 1 - k)%nat by lia.
    rewrite counts_app, fired_app by lia. split_and!; [lia|done|done].
Qed.
Lemma cooling_last l outs s o p :
  reads l outs s → cooling (l ++ [o]) (outs ++ [p]) (length l) ↔ 0 < cooldown_remaining s.
Proof.
  intros Hr. rewrite cooling_app by (done || apply Hr). unfold cooling.
  transitivity (1 ≤ cooldown_remaining s); [|lia]. rewrite (r_cooldown _ _ _ Hr) by lia.
  f_equiv. intros q. split; intros (H1 & H2 & H3 & H4); split_and!; try done; lia.
Qed.

(** What one step has to do. *)
Lemma reads_snoc l outs s o p s' :
  reads l outs s →
  history s' = reverse (take (Z.to_nat (CriticRule.dwell_steps r)) (epoch (o :: reverse l))) →
  (is_Some p ↔ counts (l ++ [o]) (outs ++ [p]) (length l) ∧ required_consecutive r - 1 ≤ consecutive s) →
  (consecutive s' = consecutive s + 1 ∧ counts (l ++ [o]) (outs ++ [p]) (length l) ∧ p = None ∨
   consecutive s' = 0 ∧ (is_Some p ∨ ¬ counts (l ++ [o]) (outs ++ [p]) (length l))) →
  (is_Some p ∧ cooldown_remaining s' = CriticRule.cooldown_steps r ∨
   p = None ∧ all_hold (CriticRule.activation_conditions r) o = Ok true ∧
     cooldown_remaining s' = Z.max 0 (cooldown_remaining s - 1) ∨
   p = None ∧ all_hold (CriticRule.activation_conditions r) o ≠ Ok true ∧ cooldown_remaining s' = 0) →
  reads (l ++ [o]) (outs ++ [p]) s'.
Proof.
  intros Hr Hhist Hfire Hcons Hcool. pose proof Hr as [Hlen _ Hcd Hk Hc Hn Hm Hdue]. pose proof required_pos as Hpos.
  assert (length (l ++ [o]) = S (length l)) as Hlen' by (rewrite length_app; simpl; lia).
  assert (fired (outs ++ [p]) (length l) ↔ is_Some p) as Hf by (rewrite <- Hlen; apply fired_last).
  split; rewrite ?Hlen'.
  - rewrite !length_app. simpl. lia.
  - rewrite Hhist. by rewrite reverse_app.
  - destruct Hcool as [(_ & ->)|[(_ & _ & ->)|(_ & _ & ->)]]; lia.
  - intros k Hk0. destruct Hcool as [(Hp & ->)|[(-> & Ha & ->)|(-> & Ha & ->)]].
    + split; [intros H; exists (length l); split_and!; [lia|by apply Hf|lia|lia]|]. intros (q & H1 & H2 & H3 & _). lia.
    + transitivity (k + 1 ≤ cooldown_remaining s); [lia|]. rewrite Hk by lia. f_equiv. intros q. split; intros (H1 & H2 & H3 & H4).
      * split_and!; [lia|by rewrite fired_app by lia|lia|]. intros j Hj. destruct (decide (j = length l)) as [->|]; [by apply active_last|].
        rewrite active_app by lia. apply H4. lia.
      * assert (q ≠ length l) as Hq by (intros ->; by apply Hf in H2 as []).
        split_and!; [lia|by rewrite fired_app in H2 by lia|lia|]. intros j Hj. rewrite <- (active_app l o) by lia. apply H4. lia.
    + split; [lia|]. intros (q & H1 & H2 & H3 & H4). exfalso. destruct (decide (q = length l)) as [->|].
      * by apply Hf in H2 as [].
      * apply Ha, (active_last l o), H4. lia.
  - destruct Hcons as [(-> & Hct & ->)|(-> & _)]; [|lia]. split; [|lia].
    destruct (Z_lt_le_dec (consecutive s + 1) (required_consecutive r)); [lia|]. exfalso.
    assert (is_Some (@None proposal)) as []; [|done]. apply Hfire. split; [done|lia].
  - intros k Hkc. destruct Hcons as [(Hcons & Hct & ->)|(Hcons & _)]; [|lia]. destruct k as [|k].
    + replace (S (length l) - 1 - 0)%nat with (length l) by lia. split; [done|]. rewrite Hf. by intros [].
    + replace (S (length l) - 1 - S k)%nat with (length l - 1 - k)%nat by lia. rewrite counts_app, fired_app by lia. apply Hn. lia.
  - intros Hlt. destruct Hcons as [(E & Hct & ->)|(E & Hno)]; rewrite E in *.
    + replace (S (length l) - 1 - Z.to_nat (consecutive s + 1))%nat with (length l - 1 - Z.to_nat (consecutive s))%nat by lia.
      rewrite counts_app, fired_app by lia. apply Hm. lia.
    + replace (S (length l) - 1 - Z.to_nat 0)%nat with (length l) by lia. rewrite Hf. destruct Hno; naive_solver.
  - intros n Hlt. destruct (decide (n = length l)) as [->|].
    + rewrite Hf, (due_last l outs s) by done. done.
    + rewrite fired_app, due_app by lia. apply Hdue. lia.
Qed.

Lemma epoch_active o l x :
  all_hold (CriticRule.activation_conditions r) o = Ok true → resolve_feature o (CriticRule.feature r) = Ok x →
  epoch (o :: l) = x :: epoch l.
Proof. intros Ha Hx. simpl. by rewrite Ha, Hx. Qed.

Lemma remember_spec l outs s o x :
  reads l outs s → all_hold (CriticRule.activation_conditions r) o = Ok true →
  resolve_feature o (CriticRule.feature r) = Ok x →
  remember r x (history s) = reverse (take (Z.to_nat (CriticRule.dwell_steps r)) (epoch (o :: reverse l))).
Proof.
  intros Hr Ha Hx. rewrite (epoch_active o _ x) by done. unfold remember.
  set (d := CriticRule.dwell_steps r) in *. assert (length (history s) ≤ Z.to_nat d)%nat as Hl.
  { rewrite (r_history _ _ _ Hr), length_reverse, length_take. fold d. lia. }
  assert ((d <? zlen (history s ++ [x])) = (Z.to_nat d <? length (history s ++ [x]))%nat) as ->.
  { unfold zlen. destruct (Z.ltb_spec d (Z.of_nat (length (history s ++ [x])))), (Nat.ltb_spec (Z.to_nat d) (length (history s ++ [x]))); lia. }
  rewrite take_reverse_push by lia. rewrite (r_history _ _ _ Hr), reverse_involutive. f_equal. fold d.
  destruct (Z.to_nat d) as [|n] eqn:E; [done|]. simpl. f_equal. rewrite take_take. f_equal. lia.
Qed.

Lemma rule_step_reads l outs s o n s' p :
  reads l outs s → rule_step r o n s = (s', Ok p) → reads (l ++ [o]) (outs ++ [p]) s'.
Proof.
  intros Hr. unfold rule_step. pose proof (r_cooldown_pos _ _ _ Hr) as Hcd. pose proof required_pos as Hpos.
  pose proof (r_consecutive _ _ _ Hr) as Hcs.
  destruct (all_hold _ o) as [[]|] eqn:Ha; [| |done].
  2: { intros [= <- <-]. assert (¬ counts (l ++ [o]) (outs ++ [None]) (length l)) as Hno
         by (intros (H & _); apply active_last in H; congruence).
       eapply reads_snoc; [done|..]; simpl; rewrite ?Ha.
       - by rewrite take_nil.
       - split; [by intros []|naive_solver].
       - right. auto.
       - right. right. split_and!; [done|congruence|done]. }
  destruct (resolve_feature o _) as [x|] eqn:Hx; [|done]. pose proof (remember_spec l outs s o x Hr Ha Hx) as Hrem.
  assert (∀ p, counts (l ++ [o]) (outs ++ [p]) (length l) ↔ cooldown_remaining s ≤ 0 ∧ _condition r x (remember r x (history s)) = Ok true) as Hct.
  { intros p'. unfold counts. rewrite active_last, (cooling_last l outs s) by done. unfold holds. rewrite list_lookup_middle by done.
    rewrite window_last, reverse_app. change (reverse [o] ++ reverse l) with (o :: reverse l). rewrite <- Hrem. split.
    - intros (_ & H1 & o' & x' & [= <-] & H2 & H3). split; [lia|]. rewrite Hx in H2. injection H2 as <-. done.
    - intros (H1 & H2). split_and!; [done|lia|]. by exists o, x. }
  destruct (Z.ltb_spec 0 (cooldown_remaining s)) as [Hpos'|Hzero].
  { intros [= <- <-]. eapply reads_snoc; [done|done|..]; rewrite ?Hct; simpl.
    - split; [by intros []|lia].
    - right. split; [done|]. right. lia.
    - right. left. split_and!; [done|done|lia]. }
  destruct (_condition r x _) as [b|] eqn:Hb; [|done].
  destruct (Z.leb_spec (required_consecutive r) (if b then consecutive s + 1 else 0)) as [Hreq|Hreq].
  - destruct b; [|lia]. destruct (propose _ _ _ _) as [q|]; [|done]. intros [= <- <-].
    eapply reads_snoc; [done|done|..]; rewrite ?Hct; simpl.
    + split; [intros _; split; [done|lia]|eauto].
    + right. split; [done|]. left. eauto.
    + left. eauto.
  - intros [= <- <-]. eapply reads_snoc; [done|done|..]; rewrite ?Hct; simpl.
    + split; [by intros []|]. intros [[_ E] Hq]. assert (b = true) as -> by congruence. lia.
    + destruct b; [left; by split_and!|right]. split; [done|]. right. naive_solver.
    + right. left. split_and!; [done|done|lia].
Qed.

Lemma reads_start : reads [] [] fresh_state.
Proof.
  pose proof required_pos. split; simpl; try done; try lia.
  - by rewrite take_nil.
  - intros k Hk. split; [lia|]. intros (p & ? & _). lia.
Qed.

(** One rule over the observations. *)
Fixpoint rule_watch (n : Z) (l : list json_object) : prog _RuleState critic_error (list (option proposal)) :=
  match l with
  | [] => mret []
  | o :: l => p ← rule_step r o n; rest ← rule_watch (n + 1) l; mret (p :: rest)
  end.
Lemma rule_watch_reads n l2 l1 outs1 s s' outs2 :
  reads l1 outs1 s → rule_watch n l2 s = (s', Ok outs2) → reads (l1 ++ l2) (outs1 ++ outs2) s'.
Proof.
  revert n l1 outs1 s outs2. induction l2 as [|o l2 IH]; intros n l1 outs1 s outs2 Hr; simpl.
  - intros [= <- <-]. by rewrite !app_nil_r.
  - unfold mbind, prog_bind. destruct (rule_step r o n s) as [s1 [p|]] eqn:Hs; [|done].
    destruct (rule_watch (n + 1) l2 s1) as [s2 [rest|]] eqn:Hw; [|done]. intros [= <- <-].
    pose proof (rule_step_reads l1 outs1 s o n s1 p Hr Hs) as Hr1. pose proof (IH _ _ _ _ _ Hr1 Hw) as H.
    by rewrite <- !app_assoc in H.
Qed.
End reading.

(** ** All rules together *)

Definition state_of (r : CriticRule.t) (w : states) : _RuleState := default fresh_state (w !! CriticRule.rule_id r).
(** What a rule proposed at a step. *)
Definition mine (r : CriticRule.t) (ps : list proposal) : option proposal :=
  head (bfilter (λ p, String.eqb (p_rule_id p) (CriticRule.rule_id r)) ps).

Lemma rule_step_proposal r o n s s' p :
  rule_step r o n s = (s', Ok (Some p)) →
  p_rule_id p = CriticRule.rule_id r ∧ p_step_index p = n ∧
  resolve_feature o (CriticRule.feature r) = Ok (p_observed_value p) ∧ p_environment_write p = false.
Proof.
  unfold rule_step. destruct (all_hold _ o) as [[]|]; try done. destruct (resolve_feature o _) as [x|] eqn:Hx; [|done].
  destruct (0 <? _); [done|]. destruct (_condition _ _ _); [|done]. destruct (_ <=? _); [|done].
  unfold propose, mbind, outcome_bind. destruct (traverse _ _); [|done]. by intros [= _ <-].
Qed.

Lemma evaluate_others rules o n w w' ps r :
  evaluate rules o n w = (w', Ok ps) → CriticRule.rule_id r ∉ CriticRule.rule_id <$> rules →
  w' !! CriticRule.rule_id r = w !! CriticRule.rule_id r ∧ mine r ps = None.
Proof.
  revert w w' ps. induction rules as [|q rules IH]; intros w w' ps; simpl; [by intros [= -> <-]|].
  unfold mbind, prog_bind, on_rule. destruct (rule_step q o n _) as [s [p|]] eqn:Hs; [|done].
  destruct (evaluate rules o n _) as [w1 [rest|]] eqn:He; [|done]. intros [= -> <-] [Hne Hr]%not_elem_of_cons.
  destruct (IH _ _ _ He Hr) as [H1 H2]. rewrite lookup_insert_ne in H1 by done. split; [done|].
  destruct p as [p|]; [|done]. apply rule_step_proposal in Hs as (Hid & _). unfold mine. simpl. rewrite bfilter_cons.
  destruct (String.eqb_spec (p_rule_id p) (CriticRule.rule_id r)); [congruence|done].
Qed.
Lemma evaluate_mine rules o n w w' ps r :
  evaluate rules o n w = (w', Ok ps) → NoDup (CriticRule.rule_id <$> rules) → r ∈ rules →
  rule_step r o n (state_of r w) = (state_of r w', Ok (mine r ps)).
Proof.
  revert w w' ps. induction rules as [|q rules IH]; intros w w' ps; simpl; [by intros _ _ ?%elem_of_nil|].
  unfold mbind, prog_bind, on_rule. destruct (rule_step q o n _) as [s [p|]] eqn:Hs; [|done].
  destruct (evaluate rules o n _) as [w1 [rest|]] eqn:He; [|done]. intros [= -> <-] [Hq Hnd]%NoDup_cons Hr.
  apply elem_of_cons in Hr as [->|Hr].
  - destruct (evaluate_others _ _ _ _ _ _ q He Hq) as [H1 H2]. unfold state_of in *. rewrite Hs, H1, lookup_insert_eq. simpl.
    f_equal. f_equal. destruct p as [p|]; [|done]. apply rule_step_proposal in Hs as (Hid & _). unfold mine. simpl. rewrite bfilter_cons.
    by rewrite Hid, String.eqb_refl.
  - assert (CriticRule.rule_id r ≠ CriticRule.rule_id q) as Hne.
    { intros E. apply Hq. rewrite <- E. by apply list_elem_of_fmap_2. }
    pose proof (IH _ _ _ He Hnd Hr) as H. unfold state_of in H at 1. rewrite lookup_insert_ne in H by done. unfold state_of at 1. rewrite H.
    f_equal. f_equal. destruct p as [p|]; [|done]. apply rule_step_proposal in Hs as (Hid & _). unfold mine. simpl. rewrite bfilter_cons.
    destruct (String.eqb_spec (p_rule_id p) (CriticRule.rule_id r)); [congruence|done].
Qed.
Lemma watch_mine rules n l w w' outs r :
  watch rules n l w = (w', Ok outs) → NoDup (CriticRule.rule_id <$> rules) → r ∈ rules →
  rule_watch r n l (state_of r w) = (state_of r w', Ok (mine r <$> outs)).
Proof.
  intros Hw Hnd Hr. revert n w w' outs Hw. induction l as [|o l IH]; intros n w w' outs; simpl; [by intros [= -> <-]|].
  unfold mbind, prog_bind. destruct (evaluate rules o n w) as [w1 [ps|]] eqn:He; [|done].
  destruct (watch rules (n + 1) l w1) as [w2 [rest|]] eqn:Hw; [|done]. intros [= -> <-].
  rewrite (evaluate_mine _ _ _ _ _ _ r He Hnd Hr), (IH _ _ _ _ Hw). done.
Qed.
Lemma reset_fresh rules r : state_of r (reset rules) = fresh_state.
Proof.
  unfold state_of, reset. destruct (_ !! _) as [s|] eqn:E; [|done]. apply elem_of_list_to_map_2 in E.
  by apply list_elem_of_fmap in E as (? & [= _ ->] & _).
Qed.

Lemma watch_contents rules n l w w' outs k ps p :
  watch rules n l w = (w', Ok outs) → outs !! k = Some ps → p ∈ ps →
  ∃ r o, r ∈ rules ∧ l !! k = Some o ∧ p_rule_id p = CriticRule.rule_id r ∧ p_step_index p = n + Z.of_nat k ∧
    resolve_feature o (CriticRule.feature r) = Ok (p_observed_value p) ∧ p_environment_write p = false.
Proof.
  assert (∀ rules o n w w' ps, evaluate rules o n w = (w', Ok ps) → ∀ p, p ∈ ps → ∃ r, r ∈ rules ∧
    p_rule_id p = CriticRule.rule_id r ∧ p_step_index p = n ∧
    resolve_feature o (CriticRule.feature r) = Ok (p_observed_value p) ∧ p_environment_write p = false) as Heval.
  { clear. intros rules o n. induction rules as [|q rules IH]; intros w w' ps; simpl; [by intros [= _ <-] p ?%elem_of_nil|].
    unfold mbind, prog_bind, on_rule. destruct (rule_step q o n _) as [s [x|]] eqn:Hs; [|done].
    destruct (evaluate rules o n _) as [w1 [rest|]] eqn:He; [|done]. intros [= -> <-] p [Hp|Hp]%elem_of_app.
    - destruct x as [x|]; [|by apply elem_of_nil in Hp]. apply list_elem_of_singleton in Hp as ->. exists q.
      split; [by left|]. by eapply rule_step_proposal.
    - destruct (IH _ _ _ He p Hp) as (r & Hr & H). exists r. split; [by right|done]. }
  revert n w w' outs k. induction l as [|o l IH]; intros n w w' outs k; simpl; [by intros [= _ <-]|].
  unfold mbind, prog_bind. destruct (evaluate rules o n w) as [w1 [ps1|]] eqn:He; [|done].
  destruct (watch rules (n + 1) l w1) as [w2 [rest|]] eqn:Hw; [|done]. intros [= -> <-] Hk Hp. destruct k as [|k].
  - injection Hk as <-. destruct (Heval _ _ _ _ _ _ He p Hp) as (r & Hr & H1 & H2 & H3). exists r, o. split_and!; try done; try lia; apply H3.
  - destruct (IH _ _ _ _ k Hw Hk Hp) as (r & o' & Hr & Ho & H1 & H2 & H3). exists r, o'. split_and!; try done; try lia; apply H3.
Qed.

(** C27: the critic proposes exactly what its rules say.  For rules with different names and
    an episode whose observations it evaluates: a rule proposes at a step if and only if it
    is due, that is, its guards held, its condition held on its window and it was not
    cooling down, at this step and at as many before it as it requires, none of which
    proposed; and every proposal carries its step and the value observed there, and writes
    nothing to the environment. *)
Theorem critic_exact rules l w outs :
  NoDup (CriticRule.rule_id <$> rules) → Forall (λ r, CriticRule.check r = Ok tt) rules →
  watch rules 0 l (reset rules) = (w, Ok outs) →
  length outs = length l ∧
  (∀ r n, r ∈ rules → (n < length l)%nat → fired (mine r <$> outs) n ↔ due r l (mine r <$> outs) n) ∧
  (∀ n ps p, outs !! n = Some ps → p ∈ ps → ∃ r o, r ∈ rules ∧ l !! n = Some o ∧
    p_rule_id p = CriticRule.rule_id r ∧ p_step_index p = Z.of_nat n ∧
    resolve_feature o (CriticRule.feature r) = Ok (p_observed_value p) ∧ p_environment_write p = false).
Proof.
  intros Hnd Hcheck Hw.
  assert (∀ r, r ∈ rules → reads r l (mine r <$> outs) (state_of r w)) as Hreads.
  { intros r Hr. pose proof (watch_mine _ _ _ _ _ _ r Hw Hnd Hr) as H. rewrite reset_fresh in H.
    rewrite Forall_forall in Hcheck. specialize (Hcheck r Hr). unfold CriticRule.check in Hcheck.
    apply requires_ok in Hcheck. rewrite !Forall_cons in Hcheck. destruct Hcheck as (_ & [H1 H2]%andb_prop & _).
    apply Z.leb_le in H1, H2. exact (rule_watch_reads r H1 H2 0 l [] [] fresh_state (state_of r w) _ (reads_start r H1) H). }
  split_and!.
  - clear Hreads Hnd Hcheck. revert Hw. generalize (reset rules) as w0. generalize 0 as n. revert outs.
    induction l as [|o l IH]; intros outs n w0; simpl; [by intros [= _ <-]|]. unfold mbind, prog_bind.
    destruct (evaluate rules o n w0) as [w1 [ps|]]; [|done]. destruct (watch rules (n + 1) l w1) as [w2 [rest|]] eqn:E; [|done].
    intros [= <- <-]. simpl. f_equal. by eapply IH.
  - intros r n Hr Hn. by apply (r_due r l _ _ (Hreads r Hr)).
  - intros n ps p Hn Hp. destruct (watch_contents _ _ _ _ _ _ n ps p Hw Hn Hp) as (r & o & H). exists r, o. exact H.
Qed.

(** ** Concrete runs *)

Definition close_rule : CriticRule.t := {|
  CriticRule.rule_id := "slip"; CriticRule.title := "The object slips"; CriticRule.feature := "grip.force";
  CriticRule.operator := "lt"; CriticRule.threshold := NFloat "0.5"; CriticRule.dwell_steps := 2; CriticRule.cooldown_steps := 3;
  CriticRule.proposal := "regrasp"; CriticRule.evidence_ids := ["e1"]; CriticRule.safety_only := false;
  CriticRule.activation_conditions := [{| CriticPredicate.feature := "contact"; CriticPredicate.operator := "eq";
    CriticPredicate.threshold := NBool true |}] |}.
Definition still_rule : CriticRule.t := {|
  CriticRule.rule_id := "stuck"; CriticRule.title := "The arm does not move"; CriticRule.feature := "pose.x";
  CriticRule.operator := "stagnant"; CriticRule.threshold := NFloat "0.01"; CriticRule.dwell_steps := 3; CriticRule.cooldown_steps := 2;
  CriticRule.proposal := "retreat"; CriticRule.evidence_ids := ["e2"]; CriticRule.safety_only := true;
  CriticRule.activation_conditions := [] |}.
Definition seen (contact : Z) (force x : string) : json_object :=
  [("contact", NInt contact); ("grip", NDict [("force", NFloat force)]); ("pose.x", NFloat x)].
Definition episode : list json_object :=
  [seen 1 "0.9" "0.1"; seen 1 "0.4" "0.2"; seen 1 "0.3" "0.2"; seen 1 "0.2" "0.201"; seen 1 "0.2" "0.202";
   seen 1 "0.2" "0.203"; seen 1 "0.2" "0.9"; seen 1 "1e-05" "0.9"].
Definition rules_of_episode : list CriticRule.t := [close_rule; still_rule].
Definition proposed (l : list json_object) : list (list (string * Z)) :=
  match result_of (watch rules_of_episode 0 l) (reset rules_of_episode) with
  | Ok outs => map (map (λ p, (p_rule_id p, p_step_index p))) outs
  | Raise _ => []
  end.
Example episode_proposals :
  proposed episode = [[]; []; [("slip", 2)]; [("stuck", 3)]; []; []; []; [("slip", 7)]].
Proof. vm_compute. reflexivity. Qed.

Lemma critic_exact_witness :
  let outs := match result_of (watch rules_of_episode 0 episode) (reset rules_of_episode) with Ok outs => outs | Raise _ => [] end in
  length outs = 8%nat ∧ (fired (mine close_rule <$> outs) 7 ↔ due close_rule episode (mine close_rule <$> outs) 7).
Proof.
  assert (NoDup (CriticRule.rule_id <$> rules_of_episode)) as H1 by (apply (bool_decide_unpack _); vm_compute; exact I).
  assert (Forall (λ r, CriticRule.check r = Ok tt) rules_of_episode) as H2 by (repeat constructor).
  set (outs := match result_of (watch rules_of_episode 0 episode) (reset rules_of_episode) with Ok outs => outs | Raise _ => [] end).
  assert (watch rules_of_episode 0 episode (reset rules_of_episode) =
    (after (watch rules_of_episode 0 episode) (reset rules_of_episode), Ok outs)) as H3 by (vm_compute; reflexivity).
  destruct (critic_exact rules_of_episode episode _ outs H1 H2 H3) as (Hlen & Hdue & _). split; [exact Hlen|].
  apply Hdue; [by left|]. simpl. lia.
Defined.

(** A guard that is lost for one step ends the cooldown: the rule proposes again after
    [dwell_steps] steps, although its cooldown is longer. *)
Example flicker_lifts_cooldown :
  proposed [seen 1 "0.1" "0"; seen 1 "0.1" "1"; seen 0 "0.1" "2"; seen 1 "0.1" "3"; seen 1 "0.1" "4"] =
  [[]; [("slip", 1)]; []; []; [("slip", 4)]] ∧
  proposed [seen 1 "0.1" "0"; seen 1 "0.1" "1"; seen 1 "0.1" "2"; seen 1 "0.1" "3"; seen 1 "0.1" "4"] =
  [[]; [("slip", 1)]; []; []; []].
Proof. split; vm_compute; reflexivity. Qed.

(** A guard whose feature is missing is silent; a rule whose own feature is missing raises. *)
Example missing_features :
  proposed [[("pose.x", NInt 1)]] = [[]] ∧
  result_of (watch rules_of_episode 0 [[("contact", NInt 1)]]) (reset rules_of_episode) = Raise (Unavailable "grip.force").
Proof. split; vm_compute; reflexivity. Qed.
End TemporalCritic.
