(* ===== verification/Clustering.v ===== *)
(** * Failure clusters: [zetta/evolution/clustering.py]

    Segments of failed episodes are grouped by failure class, stage and tool; inside a group
    complete-link clustering merges the most similar pair of clusters, as long as every two
    of their members are similar enough; clusters are ranked by size, and each gets a medoid
    and representatives.

    Similarities are binary64 values ([PyFloat.v]), so ties and thresholds are decided by the
    rounded numbers, as in the code.  Summaries are ASCII (the pattern ignores case by
    Unicode rules otherwise).  The [while True] loop has as fuel the number of segments of
    its group: every round merges two clusters ([complete_link_maximal]).

    Theorems: the clusters are a partition of the segments; all members of a cluster agree on
    the hard key and are pairwise similar, and no two clusters that agree on it could be
    merged; the report does not depend on the order of the input. *)

From Stdlib Require Import QArith Ascii Lqa.
From stdpp Require Import pretty.
From S2P Require Import Prelude PyDict Sorting PyFloat EvolutionModels CampaignModels.

Open Scope string_scope.
Open Scope list_scope.
Open Scope Z_scope.

(** ** Similarity *)

Definition in_token (c : ascii) : bool :=
  code_between 97 122 c || code_between 65 90 c || code_between 48 57 c || member c ["_"%char; "-"%char].
Definition to_lower (c : ascii) : ascii :=
  if code_between 65 90 c then ascii_of_nat (nat_of_ascii c + 32) else c.
(** [TOKEN_PATTERN.findall(text)], in lower case: the maximal runs of token characters. *)
Fixpoint find_tokens (s : string) (current : string) : list string :=
  match s with
  | EmptyString => if str_true current then [current] else []
  | String c s' =>
      if in_token c then find_tokens s' (current +:+ String (to_lower c) "")
      else (if str_true current then [current] else []) ++ find_tokens s' ""
  end.
Definition counter : Type := pydict string Z.
Definition count_token (d : counter) (t : string) : counter := <[t := get_or d t 0 + 1]> d.
Definition _tokens (text : string) : counter := foldl count_token ∅ (find_tokens text "").

Definition square (x : Q) : Q := fmul x x.
Definition sum_squares (d : counter) : Z := sumZ (λ v, v * v) (values d).
Definition counter_dot (left right : counter) : Z := sumZ (λ kv, kv.2 * get_or right kv.1 0) (items left).

Definition _counter_cosine (left right : counter) : Q :=
  match items left, items right with
  | [], _ | _, [] => 0%Q
  | _, _ =>
      let left_norm := fsqrt (of_int (sum_squares left)) in
      let right_norm := fsqrt (of_int (sum_squares right)) in
      if Qeq_bool left_norm 0 || Qeq_bool right_norm 0 then 0%Q
      else fdiv (of_int (counter_dot left right)) (fmul left_norm right_norm)
  end.

Definition _vector_cosine (left right : list Q) : option Q :=
  if bool_decide (left = []) || negb (length left =? length right)%nat then None
  else
    let dot := fsum (zip_with fmul left right) in
    let left_norm := fsqrt (fsum (square <$> left)) in
    let right_norm := fsqrt (fsum (square <$> right)) in
    if Qeq_bool left_norm 0 || Qeq_bool right_norm 0 then None
    else Some (fdiv dot (fmul left_norm right_norm)).

(** A literal such as [0.6]. *)
Definition literal (x : Q) : Q := round64 x.
Definition positive_part (x : Q) : Q := if flt 0 x then x else 0%Q.

Definition segment_similarity (left right : FailureSegment) : Q :=
  let text_similarity := _counter_cosine (_tokens (summary left)) (_tokens (summary right)) in
  let weighted :=
    (text_similarity, literal (6 # 10))
    :: match _vector_cosine (embedding left) (embedding right) with
       | Some x => [(positive_part x, literal (3 # 10))] | None => [] end
    ++ match _vector_cosine (state_signature left) (state_signature right) with
       | Some x => [(positive_part x, literal (1 # 10))] | None => [] end in
  let total_weight := fsum (snd <$> weighted) in
  fdiv (fsum ((λ vw, fmul vw.1 vw.2) <$> weighted)) total_weight.

(** ** Complete-link clusters *)

Definition by_id : FailureSegment → FailureSegment → bool := on_key str_leb segment_id.
Definition sorted_segments (l : list FailureSegment) : list FailureSegment := sort_by by_id l.

(** [a < b] of tuples of strings. *)
Fixpoint strs_leb (a b : list string) : bool :=
  match a, b with
  | [], _ => true
  | _ :: _, [] => false
  | x :: a, y :: b => if String.eqb x y then strs_leb a b else str_leb x y
  end.

(** [min(segment_similarity(a, b) for a in left for b in right)] *)
Definition link (left right : list FailureSegment) : Q :=
  min_of (a ← left; (λ b, segment_similarity a b) <$> right).

Record candidate := Candidate { c_similarity : Q; c_identifiers : list string; c_left : nat; c_right : nat }.
(** [(-a.similarity, a.identifiers) < (-b.similarity, b.identifiers)] *)
Definition better (a b : candidate) : bool :=
  if Qeq_bool (c_similarity a) (c_similarity b)
  then negb (strs_leb (c_identifiers b) (c_identifiers a))
  else flt (c_similarity b) (c_similarity a).
Definition choose (best : option candidate) (c : candidate) : option candidate :=
  match best with None => Some c | Some b => if better c b then Some c else best end.

(** The pairs of the two loops, in their order. *)
Definition pairs_of (n : nat) : list (nat * nat) := i ← seq 0 n; (λ j, (i, j)) <$> seq (S i) (n - S i).
Definition candidate_of (threshold : Q) (clusters : list (list FailureSegment)) (ij : nat * nat) : option candidate :=
  let left := clusters !!! ij.1 in
  let right := clusters !!! ij.2 in
  let similarity := link left right in
  if flt similarity threshold then None
  else Some (Candidate similarity (sort_by str_leb (segment_id <$> (left ++ right))) ij.1 ij.2).
Definition best_pair (threshold : Q) (clusters : list (list FailureSegment)) : option candidate :=
  foldl choose None (omap (candidate_of threshold clusters) (pairs_of (length clusters))).

(** [clusters[left_index] = merged; del clusters[right_index]] *)
Definition merge (i j : nat) (clusters : list (list FailureSegment)) : list (list FailureSegment) :=
  delete j (<[i := sorted_segments (clusters !!! i ++ clusters !!! j)]> clusters).
Fixpoint merge_loop (fuel : nat) (threshold : Q) (clusters : list (list FailureSegment)) : list (list FailureSegment) :=
  match fuel with
  | O => clusters
  | S fuel =>
      match best_pair threshold clusters with
      | None => clusters
      | Some c => merge_loop fuel threshold (merge (c_left c) (c_right c) clusters)
      end
  end.
Definition _complete_link_clusters (group : list FailureSegment) (threshold : Q) : list (list FailureSegment) :=
  merge_loop (length group) threshold ((λ s, [s]) <$> sorted_segments group).

(** ** The report *)

Definition hard_key_of (s : FailureSegment) : string * string * string :=
  (failure_class s, stage s, default "" (tool s)).
Notation hard_groups := (pydict (string * string * string) (list FailureSegment)).
Definition add_to_group (d : hard_groups) (s : FailureSegment) : hard_groups :=
  <[hard_key_of s := get_or d (hard_key_of s) [] ++ [s]]> d.
Definition key_leb : string * string * string → string * string * string → bool := lex_leb (lex_leb str_leb str_leb) str_leb.

Notation raw_cluster := ((string * string * string) * list FailureSegment)%type.
Definition raw_clusters (ordered : list FailureSegment) (threshold : Q) : list raw_cluster :=
  kg ← sort_by (on_key key_leb fst) (items (foldl add_to_group ∅ ordered));
  (λ component, (kg.1, component)) <$> _complete_link_clusters kg.2 threshold.

Definition Q_leb (x y : Q) : bool := Qle_bool x y.
(** [key=lambda item: (-len(item[1]), -sum(severities), item[0], item[1][0].segment_id)] *)
Definition rank (c : raw_cluster) : Z * (Q * ((string * string * string) * string)) :=
  (- zlen c.2, (Qopp (fsum (severity <$> c.2)), (c.1, default "" (head (segment_id <$> c.2))))).
Definition rank_leb : raw_cluster → raw_cluster → bool :=
  on_key (lex_leb Z.leb (lex_leb Q_leb (lex_leb key_leb str_leb))) rank.

Definition pair_score (members : list FailureSegment) (m : FailureSegment) : Q :=
  fsum (segment_similarity m <$> members).
Definition medoid_leb (members : list FailureSegment) : FailureSegment → FailureSegment → bool :=
  on_key (lex_leb Q_leb str_leb) (λ m, (Qopp (pair_score members m), segment_id m)).
Definition representative_leb (members : list FailureSegment) : FailureSegment → FailureSegment → bool :=
  on_key (lex_leb Q_leb (lex_leb Q_leb str_leb)) (λ m, (Qopp (severity m), (Qopp (pair_score members m), segment_id m))).

Definition cluster_of (total : Z) (representatives : Z) (index : Z) (c : raw_cluster) : FailureCluster.t :=
  let members := c.2 in
  let medoid := min_by (medoid_leb members) members in
  let ranked := take (Z.to_nat (Z.max 1 representatives)) (sort_by (representative_leb members) members) in
  {| FailureCluster.cluster_id := "cluster-" +:+ pad3 index;
     FailureCluster.hard_key := c.1;
     FailureCluster.member_segment_ids := segment_id <$> members;
     FailureCluster.episode_ids := sort_by str_leb (remove_dups (segment_episode_id <$> members));
     FailureCluster.representative_segment_ids := segment_id <$> ranked;
     FailureCluster.medoid_segment_id := default "" (segment_id <$> medoid);
     FailureCluster.summary := default "" (summary <$> medoid);
     FailureCluster.prevalence := int_div (zlen members) total;
     FailureCluster.mean_severity := fdiv (fsum (severity <$> members)) (of_int (zlen members)) |}.

Definition cluster_failure_segments (segments : list FailureSegment) (similarity_threshold : Q) (representatives : Z) :
    outcome evo_error (list FailureCluster.t) :=
  ensure (Qle_bool 0 similarity_threshold && Qle_bool similarity_threshold 1)
    (ValueError "similarity_threshold must be in [0, 1]");;
  let ordered := sorted_segments segments in
  ensure (bool_decide (NoDup (segment_id <$> ordered))) (ValueError "failure segment identifiers must be unique");;
  Ok (imap (λ i c, cluster_of (zlen ordered) representatives (Z.of_nat i + 1) c)
        (sort_by rank_leb (raw_clusters ordered similarity_threshold))).

(** ** Similarity is symmetric *)

Lemma Qmult_swap x y : Qmult x y = Qmult y x.
Proof. unfold Qmult. by rewrite (Z.mul_comm (Qnum x)), (Pos.mul_comm (Qden x)). Qed.
Lemma fmul_comm x y : fmul x y = fmul y x.
Proof. unfold fmul. by rewrite Qmult_swap. Qed.

Lemma sumZ_mul {A} (f : A → Z) k l : k * sumZ f l = sumZ (λ x, k * f x) l.
Proof. unfold sumZ. induction l as [|x l IH]; simpl; lia. Qed.
Lemma sumZ_plus {A} (f g : A → Z) l : sumZ (λ x, f x + g x) l = sumZ f l + sumZ g l.
Proof. unfold sumZ. induction l as [|x l IH]; simpl; lia. Qed.
Lemma sumZ_zero {A} (l : list A) : sumZ (λ _, 0) l = 0.
Proof. unfold sumZ. by induction l. Qed.
Lemma sumZ_swap {A B} (f : A → B → Z) (l : list A) (k : list B) :
  sumZ (λ x, sumZ (f x) k) l = sumZ (λ y, sumZ (λ x, f x y) l) k.
Proof.
  induction l as [|x l IH]; [unfold sumZ at 1; simpl; by rewrite sumZ_zero|].
  rewrite sumZ_cons, IH, <- sumZ_plus. apply sumZ_ext. intros y _. by rewrite sumZ_cons.
Qed.

(** What a counter says of a key, as a sum over its items. *)
Lemma get_or_sum (d : counter) k :
  dict_wf d → get_or d k 0 = sumZ (λ kv, if bool_decide (kv.1 = k) then kv.2 else 0) (items d).
Proof.
  unfold get_or, dict_wf, keys. change (d !! k) with (assoc_lookup k (items d)). generalize (items d) as l.
  induction l as [|[k' v] l IH]; intros Hn; [done|]. simpl in Hn. apply NoDup_cons in Hn as [Hk Hn]. rewrite sumZ_cons. simpl.
  destruct (decide (k = k')) as [->|Hne].
  - rewrite bool_decide_true by done. simpl. assert (sumZ (λ kv, if bool_decide (kv.1 = k') then kv.2 else 0) l = 0) as ->; [|lia].
    transitivity (sumZ (λ _ : string * Z, 0) l); [|apply sumZ_zero]. apply sumZ_ext. intros [k v'] Hin.
    rewrite bool_decide_false; [done|]. simpl. intros ->. apply Hk. by apply (list_elem_of_fmap_2 fst) in Hin.
  - rewrite bool_decide_false by done. by rewrite IH.
Qed.
Lemma counter_dot_comm left right : dict_wf left → dict_wf right → counter_dot left right = counter_dot right left.
Proof.
  intros Hl Hr. unfold counter_dot.
  transitivity (sumZ (λ x, sumZ (λ y, if bool_decide (y.1 = x.1) then x.2 * y.2 else 0) (items right)) (items left)).
  - apply sumZ_ext. intros x _. rewrite get_or_sum, sumZ_mul by done. apply sumZ_ext. intros y _. case_bool_decide; lia.
  - rewrite sumZ_swap. apply sumZ_ext. intros y _. rewrite get_or_sum, sumZ_mul by done. apply sumZ_ext. intros x _.
    rewrite (bool_decide_ext (y.1 = x.1) (x.1 = y.1)) by done. case_bool_decide; lia.
Qed.
Lemma tokens_wf text : dict_wf (_tokens text).
Proof.
  unfold _tokens. assert (dict_wf (∅ : counter)) as H by apply dict_wf_empty. revert H. generalize (∅ : counter) as d.
  induction (find_tokens text "") as [|t l IH]; intros d H; [done|]. by apply IH, dict_wf_insert.
Qed.

Lemma counter_cosine_comm a b : dict_wf a → dict_wf b → _counter_cosine a b = _counter_cosine b a.
Proof.
  intros Ha Hb. unfold _counter_cosine. rewrite (counter_dot_comm a b) by done.
  destruct (items a), (items b); try done. by rewrite orb_comm, fmul_comm.
Qed.
Lemma vector_cosine_comm a b : _vector_cosine a b = _vector_cosine b a.
Proof.
  unfold _vector_cosine. destruct (Nat.eqb_spec (length a) (length b)) as [E|E].
  - rewrite E, Nat.eqb_refl, (bool_decide_ext (a = []) (b = [])).
    + destruct (bool_decide (b = []) || negb true); [done|]. rewrite orb_comm, fmul_comm.
      assert (zip_with fmul a b = zip_with fmul b a) as ->; [|done].
      rewrite <- zip_with_flip. apply zip_with_ext; [|done|done]. intros x y. apply fmul_comm.
    + split; intros ->; [by destruct b|by destruct a].
  - rewrite (proj2 (Nat.eqb_neq _ _)) by lia. by rewrite !orb_true_r.
Qed.
Lemma similarity_comm a b : segment_similarity a b = segment_similarity b a.
Proof.
  unfold segment_similarity. rewrite (counter_cosine_comm (_tokens (summary a))) by apply tokens_wf.
  by rewrite (vector_cosine_comm (embedding a)), (vector_cosine_comm (state_signature a)).
Qed.

(** ** The loop *)

Lemma elem_of_pairs n ij : ij ∈ pairs_of n ↔ (ij.1 < ij.2 < n)%nat.
Proof.
  unfold pairs_of. rewrite list_elem_of_bind. destruct ij as [i j]. simpl. split.
  - intros (x & (y & E & Hy)%list_elem_of_fmap & Hx). injection E as -> ->. apply elem_of_seq in Hx, Hy. lia.
  - intros H. exists i. split; [apply list_elem_of_fmap; exists j; split; [done|]|]; apply elem_of_seq; lia.
Qed.

Definition choice_of (best : option candidate) (l : list candidate) : option candidate := foldl choose best l.
Lemma choice_some best l : is_Some best → is_Some (choice_of best l).
Proof.
  revert best. induction l as [|c l IH]; intros best H; [done|]. apply IH. destruct H as [b ->]. simpl. by destruct (better c b); eexists.
Qed.
Lemma choice_in best l c : choice_of best l = Some c → best = Some c ∨ c ∈ l.
Proof.
  revert best. induction l as [|d l IH]; intros best H; [by left|]. destruct (IH _ H) as [E|Hin]; [|right; by right].
  destruct best as [b|]; simpl in E; [destruct (better d b)|]; simplify_eq; [right; by left|by left|right; by left].
Qed.
Lemma best_pair_some threshold clusters c :
  best_pair threshold clusters = Some c →
  (c_left c < c_right c < length clusters)%nat ∧ (threshold <= link (clusters !!! c_left c) (clusters !!! c_right c))%Q.
Proof.
  intros [|H]%choice_in; [done|]. apply list_elem_of_omap in H as (ij & Hij & Hc). unfold candidate_of in Hc.
  destruct (flt _ _) eqn:E; [done|]. injection Hc as <-. simpl. split; [by apply elem_of_pairs|].
  apply Qnot_lt_le. rewrite <- flt_spec. by rewrite E.
Qed.
Lemma best_pair_none threshold clusters i j :
  best_pair threshold clusters = None → (i < j < length clusters)%nat → (link (clusters !!! i) (clusters !!! j) < threshold)%Q.
Proof.
  intros H Hij. apply flt_spec. destruct (flt _ _) eqn:E; [done|]. exfalso.
  assert (omap (candidate_of threshold clusters) (pairs_of (length clusters)) = []) as Hnil.
  { unfold best_pair in H. destruct (omap _ _) as [|c l]; [done|]. destruct (choice_some (Some c) l) as [b Hb]; [done|].
    unfold choice_of in Hb. simpl in H. congruence. }
  assert (∃ c, c ∈ omap (candidate_of threshold clusters) (pairs_of (length clusters))) as [c Hc]; [|by rewrite Hnil in Hc; apply elem_of_nil in Hc].
  eexists. apply list_elem_of_omap. exists (i, j). split; [by apply elem_of_pairs|]. unfold candidate_of. simpl. by rewrite E.
Qed.

Lemma link_le left right a b : a ∈ left → b ∈ right → (link left right <= segment_similarity a b)%Q.
Proof.
  intros Ha Hb. apply min_of_le. apply list_elem_of_bind. exists a. split; [|done]. by apply list_elem_of_fmap_2.
Qed.
Lemma link_elem left right : left ≠ [] → right ≠ [] → ∃ a b, a ∈ left ∧ b ∈ right ∧ link left right = segment_similarity a b.
Proof.
  intros Hl Hr. assert ((a ← left; (λ b, segment_similarity a b) <$> right) ≠ []) as Hne by (by destruct left, right).
  pose proof (min_of_elem _ Hne) as H. apply list_elem_of_bind in H as (a & H & Ha). apply list_elem_of_fmap in H as (b & H & Hb).
  by exists a, b.
Qed.

(** Clusters in which every two different members are similar. *)
Definition similar (threshold : Q) (c : list FailureSegment) : Prop :=
  ∀ a b, a ∈ c → b ∈ c → segment_id a ≠ segment_id b → (threshold <= segment_similarity a b)%Q.
Definition tight (threshold : Q) (clusters : list (list FailureSegment)) : Prop :=
  ∀ c, c ∈ clusters → c ≠ [] ∧ similar threshold c.
(** No two clusters can be merged. *)
Definition apart (threshold : Q) (clusters : list (list FailureSegment)) : Prop :=
  ∀ i j c d, i ≠ j → clusters !! i = Some c → clusters !! j = Some d →
    ∃ a b, a ∈ c ∧ b ∈ d ∧ (segment_similarity a b < threshold)%Q.

Section merging.
Context (i j : nat) (clusters : list (list FailureSegment)) (Hij : (i < j < length clusters)%nat).
Let left := clusters !!! i.
Let right := clusters !!! j.
Let merged := sorted_segments (left ++ right).

#[local] Lemma at_left : clusters !! i = Some left.
Proof. apply list_lookup_lookup_total_lt. lia. Qed.
#[local] Lemma at_right : clusters !! j = Some right.
Proof. apply list_lookup_lookup_total_lt. lia. Qed.

Lemma merge_spec : ∃ rest, clusters ≡ₚ left :: right :: rest ∧ merge i j clusters ≡ₚ merged :: rest.
Proof.
  pose proof at_left as Hl. pose proof at_right as Hr.
  exists (delete i (delete j clusters)). split.
  - etrans; [by apply (delete_Permutation clusters j right)|]. etrans; [|apply perm_swap]. apply Permutation_skip.
    apply delete_Permutation. by rewrite list_lookup_delete_lt by lia.
  - unfold merge. fold left right merged.
    assert (delete j (<[i := merged]> clusters) !! i = Some merged) as Hm.
    { rewrite list_lookup_delete_lt by lia. apply list_lookup_insert_eq. lia. }
    transitivity (merged :: delete i (delete j (<[i := merged]> clusters))); [by apply delete_Permutation|].
    apply Permutation_skip. assert (delete i (delete j (<[i := merged]> clusters)) = delete i (delete j clusters)) as ->; [|done].
    apply list_eq. intros k. destruct (decide (k < i)%nat).
    + rewrite !list_lookup_delete_lt by lia. by rewrite list_lookup_insert_ne by lia.
    + rewrite !(list_lookup_delete_ge _ i) by lia. destruct (decide (S k < j)%nat).
      * rewrite !list_lookup_delete_lt by lia. by rewrite list_lookup_insert_ne by lia.
      * rewrite !list_lookup_delete_ge by lia. by rewrite list_lookup_insert_ne by lia.
Qed.
Lemma length_merge : S (length (merge i j clusters)) = length clusters.
Proof.
  destruct merge_spec as (rest & H1%Permutation_length & H2%Permutation_length). by rewrite H1, H2.
Qed.
Lemma concat_merge : concat (merge i j clusters) ≡ₚ concat clusters.
Proof.
  destruct merge_spec as (rest & H1 & H2). rewrite H2. transitivity (concat (left :: right :: rest)); [|by rewrite <- H1].
  simpl. unfold merged, sorted_segments. by rewrite sort_by_perm, app_assoc.
Qed.
Lemma tight_merge threshold :
  (threshold <= link left right)%Q → tight threshold clusters → tight threshold (merge i j clusters).
Proof.
  intros Hlink Ht. destruct merge_spec as (rest & H1 & H2).
  assert (∀ c, c ∈ left :: right :: rest → c ≠ [] ∧ similar threshold c) as Ht' by (intros c Hc; apply Ht; by rewrite H1).
  destruct (Ht' left) as [Hln Hls]; [set_solver|]. destruct (Ht' right) as [Hrn Hrs]; [set_solver|].
  intros c Hc. rewrite H2 in Hc. apply elem_of_cons in Hc as [->|Hc]; [|apply Ht'; set_solver].
  assert (∀ a, a ∈ merged ↔ a ∈ left ∨ a ∈ right) as Hm.
  { intros a. unfold merged, sorted_segments. by rewrite elem_of_sort_by, elem_of_app. }
  split.
  - intros E. destruct left as [|a l]; [done|]. assert (a ∈ merged) as Ha by (apply Hm; left; by left). rewrite E in Ha. by apply elem_of_nil in Ha.
  - intros a b [Ha|Ha]%Hm [Hb|Hb]%Hm Hne; [by apply Hls| | |by apply Hrs].
    + eapply Qle_trans; [exact Hlink|]. by apply link_le.
    + rewrite similarity_comm. eapply Qle_trans; [exact Hlink|]. by apply link_le.
Qed.
End merging.

Lemma merge_loop_spec fuel threshold clusters :
  (length clusters ≤ fuel)%nat → tight threshold clusters →
  let result := merge_loop fuel threshold clusters in
  concat result ≡ₚ concat clusters ∧ tight threshold result ∧ best_pair threshold result = None.
Proof.
  revert clusters. induction fuel as [|fuel IH]; intros clusters Hf Ht; simpl.
  - destruct clusters; [done|]. simpl in Hf. lia.
  - destruct (best_pair threshold clusters) as [c|] eqn:Hb; [|done].
    apply best_pair_some in Hb as [Hij Hlink]. pose proof (length_merge _ _ _ Hij) as Hlen.
    destruct (IH (merge (c_left c) (c_right c) clusters)) as (H1 & H2 & H3); [lia|by apply tight_merge|].
    split_and!; try done. rewrite H1. by apply concat_merge.
Qed.

Lemma link_apart threshold clusters : tight threshold clusters → best_pair threshold clusters = None → apart threshold clusters.
Proof.
  intros Ht Hb. assert (∀ i j c d, (i < j)%nat → clusters !! i = Some c → clusters !! j = Some d →
    ∃ a b, a ∈ c ∧ b ∈ d ∧ (segment_similarity a b < threshold)%Q) as H.
  { intros i j c d Hij Hc Hd. pose proof (best_pair_none threshold clusters i j Hb) as Hlink.
    rewrite (list_lookup_total_correct _ _ _ Hc), (list_lookup_total_correct _ _ _ Hd) in Hlink.
    destruct (link_elem c d) as (a & b & Ha & Hb' & E).
    - apply Ht. by eapply list_elem_of_lookup_2.
    - apply Ht. by eapply list_elem_of_lookup_2.
    - exists a, b. split_and!; [done|done|]. rewrite <- E. apply Hlink. split; [done|]. by eapply lookup_lt_Some. }
  intros i j c d Hne Hc Hd. destruct (decide (i < j)%nat); [by eapply H|].
  destruct (H j i d c) as (a & b & Ha & Hb' & Hlt); [lia|done|done|]. exists b, a. by rewrite similarity_comm.
Qed.

Lemma complete_link_spec group threshold :
  NoDup (segment_id <$> group) →
  let clusters := _complete_link_clusters group threshold in
  concat clusters ≡ₚ group ∧ tight threshold clusters ∧ apart threshold clusters.
Proof.
  intros Hn. unfold _complete_link_clusters. set (singles := (λ s, [s]) <$> sorted_segments group).
  assert (concat singles = sorted_segments group) as Hc.
  { unfold singles. induction (sorted_segments group) as [|s l IH]; [done|]. simpl. by f_equal. }
  assert (tight threshold singles) as Ht.
  { intros c (s & -> & _)%list_elem_of_fmap. split; [done|]. intros a b ->%list_elem_of_singleton ->%list_elem_of_singleton H. done. }
  destruct (merge_loop_spec (length group) threshold singles) as (H1 & H2 & H3); [|done|].
  - unfold singles, sorted_segments. by rewrite length_fmap, length_sort_by.
  - split_and!; [|done|by apply link_apart]. rewrite H1, Hc. apply sort_by_perm.
Qed.

(** Every cluster lists its members by identifier. *)
Lemma merge_loop_sorted fuel threshold clusters :
  Forall (StronglySorted (le_rel by_id)) clusters → Forall (StronglySorted (le_rel by_id)) (merge_loop fuel threshold clusters).
Proof.
  revert clusters. induction fuel as [|fuel IH]; intros clusters H; [done|]. simpl. destruct (best_pair threshold clusters) as [c|]; [|done].
  apply IH. unfold merge. rewrite delete_take_drop. apply Forall_app. set (l := <[_:=_]> clusters).
  assert (Forall (StronglySorted (le_rel by_id)) l) as Hl by (apply Forall_insert; [done|apply sort_by_sorted, _]).
  split; [by apply Forall_take|by apply Forall_drop].
Qed.

(** ** Hard groups *)

#[export] Instance Q_leb_preorder : TotalPreorder Q_leb.
Proof.
  unfold Q_leb. split; intros *; rewrite !Qle_bool_iff; [|apply Qle_trans].
  destruct (Qlt_le_dec x y); [left; by apply Qlt_le_weak|by right].
Qed.

Definition grouped (l : list FailureSegment) (d : hard_groups) : Prop :=
  dict_wf d ∧ concat (values d) ≡ₚ l ∧ ∀ k g, (k, g) ∈ items d → ∀ a, a ∈ g → hard_key_of a = k.
Lemma grouped_add l d s : grouped l d → grouped (s :: l) (add_to_group d s).
Proof.
  intros (Hwf & Hc & Hk). unfold add_to_group. set (k := hard_key_of s). split_and!.
  - by apply dict_wf_insert.
  - unfold get_or. rewrite values_insert_perm by done. simpl. destruct (d !! k) as [g|] eqn:E; simpl.
    + rewrite <- Hc, (values_delete_perm d k g) by done. simpl. solve_Permutation.
    + by rewrite delete_absent, Hc by done.
  - intros k' g Hin a Ha. apply items_lookup in Hin; [|by apply dict_wf_insert]. rewrite dict_lookup_insert in Hin.
    destruct (decide (k' = k)) as [->|]; [|apply lookup_Some_items in Hin; by eapply Hk]. injection Hin as <-.
    apply elem_of_app in Ha as [Ha| ->%list_elem_of_singleton]; [|done]. unfold get_or in Ha.
    destruct (d !! k) as [g|] eqn:E; [|by apply elem_of_nil in Ha]. apply lookup_Some_items in E. by eapply Hk.
Qed.
Lemma grouped_all l : grouped l (foldl add_to_group ∅ l).
Proof.
  assert (∀ l' d, grouped l' d → grouped (l ++ l') (foldl add_to_group d l)) as H.
  { induction l as [|s l IH]; intros l' d Hd; simpl; [done|]. pose proof (IH (s :: l') _ (grouped_add _ _ s Hd)) as (H1 & H2 & H3).
    split_and!; [done| |done]. rewrite H2. solve_Permutation. }
  rewrite <- (app_nil_r l) at 1. apply H. split_and!; [apply dict_wf_empty|done|]. intros k g Hin. by apply elem_of_nil in Hin.
Qed.

Lemma NoDup_concat_part {A} (ls : list (list A)) l : NoDup (concat ls) → l ∈ ls → NoDup l.
Proof.
  intros Hn [i Hi]%list_elem_of_lookup. rewrite <- (take_drop_middle ls i l Hi), concat_app in Hn. simpl in Hn.
  apply NoDup_app in Hn as (_ & _ & Hn). by apply NoDup_app in Hn as (Hn & _).
Qed.
Lemma NoDup_parts_differ {A} (ls : list (list A)) i j l l' x :
  NoDup (concat ls) → i ≠ j → ls !! i = Some l → ls !! j = Some l' → x ∈ l → x ∉ l'.
Proof.
  assert (∀ i j l l', NoDup (concat ls) → (i < j)%nat → ls !! i = Some l → ls !! j = Some l' → ∀ x, x ∈ l → x ∉ l') as H.
  { clear. intros i j l l' Hn Hij Hi Hj x Hx Hx'. rewrite <- (take_drop_middle ls i l Hi), concat_app in Hn. simpl in Hn.
    apply NoDup_app in Hn as (_ & _ & Hn). apply NoDup_app in Hn as (_ & Hn & _). apply (Hn x Hx).
    rewrite list_elem_of_In, in_concat. exists l'. rewrite <- !list_elem_of_In. split; [|done].
    apply list_elem_of_lookup. exists (j - S i)%nat. rewrite lookup_drop. by replace (S i + (j - S i))%nat with j by lia. }
  intros Hn Hne Hi Hj Hx. destruct (decide (i < j)%nat); [by eapply H|]. intros Hx'. assert (j < i)%nat as Hlt by lia.
  by apply (H j i l' l Hn Hlt Hj Hi x Hx').
Qed.

Record good_clusters (threshold : Q) (ordered : list FailureSegment) (raw : list raw_cluster) : Prop := {
  g_partition : concat (snd <$> raw) ≡ₚ ordered;
  g_nonempty c : c ∈ raw → c.2 ≠ [];
  g_key c a : c ∈ raw → a ∈ c.2 → hard_key_of a = c.1;
  g_similar c : c ∈ raw → similar threshold c.2;
  g_apart c d : c ∈ raw → d ∈ raw → c.1 = d.1 → c.2 ≠ d.2 →
    ∃ a b, a ∈ c.2 ∧ b ∈ d.2 ∧ (segment_similarity a b < threshold)%Q;
}.
Lemma raw_clusters_good threshold ordered :
  NoDup (segment_id <$> ordered) → good_clusters threshold ordered (raw_clusters ordered threshold).
Proof.
  intros Hn. destruct (grouped_all ordered) as (Hwf & Hc & Hk). unfold raw_clusters.
  set (l := sort_by (on_key key_leb fst) (items (foldl add_to_group ∅ ordered))).
  assert (l ≡ₚ items (foldl add_to_group ∅ ordered)) as Hl by apply sort_by_perm.
  assert (concat (snd <$> l) ≡ₚ ordered) as Hcl by (rewrite Hl; done).
  assert (NoDup (fst <$> l)) as Hkeys by (rewrite Hl; done).
  assert (∀ kg, kg ∈ l → NoDup (segment_id <$> kg.2)) as Hids.
  { intros kg Hkg. rewrite <- Hcl in Hn. apply (list_elem_of_fmap_2 snd) in Hkg.
    assert (segment_id <$> concat (snd <$> l) = concat (map segment_id <$> (snd <$> l))) as E by exact (concat_map segment_id (snd <$> l)).
    rewrite E in Hn. eapply NoDup_concat_part; [exact Hn|]. by apply (list_elem_of_fmap_2 (map segment_id)). }
  assert (∀ kg, kg ∈ l → let cs := _complete_link_clusters kg.2 threshold in concat cs ≡ₚ kg.2 ∧ tight threshold cs ∧ apart threshold cs) as Hspec
    by (intros kg Hkg; by apply complete_link_spec, Hids).
  assert (∀ c, c ∈ (kg ← l; (λ component, (kg.1, component)) <$> _complete_link_clusters kg.2 threshold) ↔
    ∃ kg, kg ∈ l ∧ c.1 = kg.1 ∧ c.2 ∈ _complete_link_clusters kg.2 threshold) as Hraw.
  { intros [k g]. rewrite list_elem_of_bind. split.
    - intros (kg & (x & E & Hx)%list_elem_of_fmap & Hkg). injection E as -> ->. by exists kg.
    - intros (kg & Hkg & E & Hx). simpl in *. subst. exists kg. split; [|done]. by apply list_elem_of_fmap_2. }
  split.
  - rewrite <- Hcl. assert (∀ kg, kg ∈ l → concat (_complete_link_clusters kg.2 threshold) ≡ₚ kg.2) as H by (intros kg Hkg; by apply Hspec).
    clear -H. induction l as [|kg l IH]; [done|]. simpl. rewrite fmap_app, concat_app, <- list_fmap_compose.
    change (snd ∘ (λ component, (kg.1, component))) with (@id (list FailureSegment)). rewrite list_fmap_id, H by by left.
    rewrite IH; [done|]. intros kg' Hkg'. apply H. by right.
  - intros c (kg & Hkg & _ & Hin)%Hraw. by apply (proj1 (proj2 (Hspec kg Hkg)) _ Hin).
  - intros c a (kg & Hkg & -> & Hin)%Hraw Ha. apply (Hk kg.1 kg.2); [rewrite <- Hl; by destruct kg|].
    rewrite <- (proj1 (Hspec kg Hkg)). rewrite list_elem_of_In, in_concat. exists c.2. by rewrite <- !list_elem_of_In.
  - intros c (kg & Hkg & _ & Hin)%Hraw. by apply (proj1 (proj2 (Hspec kg Hkg)) _ Hin).
  - intros c d (kg & Hkg & E1 & Hin)%Hraw (kg' & Hkg' & E2 & Hin')%Hraw E Hne. assert (kg = kg') as <-.
    { apply list_elem_of_lookup in Hkg as [i Hi], Hkg' as [j Hj]. assert (i = j) as <-.
      { eapply (NoDup_lookup _ i j kg.1 Hkeys); rewrite list_lookup_fmap; [by rewrite Hi|rewrite Hj; simpl; congruence]. }
      congruence. }
    apply list_elem_of_lookup in Hin as [i Hi], Hin' as [j Hj]. destruct (Hspec kg Hkg) as (_ & _ & Ha).
    apply (Ha i j); [congruence|done|done].
Qed.

(** ** The report is right *)

Lemma sorted_segments_perm l : sorted_segments l ≡ₚ l.
Proof. apply sort_by_perm. Qed.

Lemma cluster_ok segments threshold n clusters :
  cluster_failure_segments segments threshold n = Ok clusters →
  NoDup (segment_id <$> segments) ∧ (0 <= threshold <= 1)%Q ∧
  clusters = imap (λ i c, cluster_of (zlen (sorted_segments segments)) n (Z.of_nat i + 1) c)
    (sort_by rank_leb (raw_clusters (sorted_segments segments) threshold)).
Proof.
  unfold cluster_failure_segments. rewrite ensure_bind_ok. intros [[H1 H2]%andb_prop H]. rewrite ensure_bind_ok in H.
  destruct H as [H3 H]. apply bool_decide_eq_true in H3. rewrite sorted_segments_perm in H3.
  apply Qle_bool_iff in H1, H2. injection H as <-. done.
Qed.

Lemma sorted_lookup {A} (R : relation A) l i j x y :
  StronglySorted R l → (i < j)%nat → l !! i = Some x → l !! j = Some y → R x y.
Proof.
  intros Hs. revert i j. induction Hs as [|z l Hs IH Hz]; intros i j Hij Hi Hj; [done|].
  destruct j as [|j]; [lia|]. simpl in Hj. destruct i as [|i]; [|eapply IH; [|done..]; lia].
  injection Hi as <-. rewrite Forall_forall in Hz. apply Hz. by eapply list_elem_of_lookup_2.
Qed.
Lemma rank_size c d : le_rel rank_leb c d → zlen d.2 ≤ zlen c.2.
Proof.
  unfold le_rel, rank_leb, on_key, lex_leb at 1. simpl. destruct (_ <=? _) eqn:E; [|done]. to_prop. lia.
Qed.

(** C28: clustering is a partition into pairwise similar groups that cannot be merged.  When
    [cluster_failure_segments] returns clusters, they are the images, in order, of groups of
    segments that together are exactly the given segments; a group is not empty, agrees on
    the hard key, has every two different members at least as similar as the threshold, and
    has its medoid and its representatives among its members; two groups with the same hard
    key have members less similar than the threshold; groups come by decreasing size and are
    numbered from 1. *)
Theorem clusters_partition_segments segments threshold n clusters :
  cluster_failure_segments segments threshold n = Ok clusters →
  ∃ groups : list (list FailureSegment),
    concat groups ≡ₚ segments ∧ length groups = length clusters ∧
    (∀ i c g, clusters !! i = Some c → groups !! i = Some g →
      FailureCluster.cluster_id c = "cluster-" +:+ pad3 (Z.of_nat i + 1) ∧
      FailureCluster.member_segment_ids c = segment_id <$> g ∧ g ≠ [] ∧ similar threshold g ∧
      (∀ a, a ∈ g → hard_key_of a = FailureCluster.hard_key c) ∧
      (∃ m, m ∈ g ∧ FailureCluster.medoid_segment_id c = segment_id m ∧ FailureCluster.summary c = summary m) ∧
      ∀ s, s ∈ FailureCluster.representative_segment_ids c → s ∈ segment_id <$> g) ∧
    (∀ i j c d g h, clusters !! i = Some c → clusters !! j = Some d → groups !! i = Some g → groups !! j = Some h →
      i ≠ j → FailureCluster.hard_key c = FailureCluster.hard_key d →
      ∃ a b, a ∈ g ∧ b ∈ h ∧ (segment_similarity a b < threshold)%Q) ∧
    (∀ i j g h, (i < j)%nat → groups !! i = Some g → groups !! j = Some h → (length h ≤ length g)%nat).
Proof.
  intros H. apply cluster_ok in H as (Hn & _ & ->). set (ordered := sorted_segments segments).
  assert (NoDup (segment_id <$> ordered)) as Hn' by (unfold ordered; by rewrite sorted_segments_perm).
  set (raw := sort_by rank_leb (raw_clusters ordered threshold)).
  assert (raw ≡ₚ raw_clusters ordered threshold) as Hperm by apply sort_by_perm.
  pose proof (raw_clusters_good threshold ordered Hn') as [G1 G2 G3 G4 G5].
  assert (∀ c, c ∈ raw → c ∈ raw_clusters ordered threshold) as Hin by (intros c; by rewrite Hperm).
  assert (∀ i c, imap (λ i c, cluster_of (zlen ordered) n (Z.of_nat i + 1) c) raw !! i = Some c →
    ∃ r, raw !! i = Some r ∧ r ∈ raw_clusters ordered threshold ∧ c = cluster_of (zlen ordered) n (Z.of_nat i + 1) r) as Hc.
  { intros i c Hi. rewrite list_lookup_imap in Hi. destruct (raw !! i) as [r|] eqn:E; [|done]. injection Hi as <-.
    exists r. split_and!; [done| |done]. apply Hin. by eapply list_elem_of_lookup_2. }
  assert (concat (snd <$> raw) ≡ₚ segments) as Hconcat by (rewrite Hperm, G1; apply sorted_segments_perm).
  exists (snd <$> raw). split_and!.
  - done.
  - by rewrite length_imap, length_fmap.
  - intros i c g Hi Hg. destruct (Hc i c Hi) as (r & Hr & Hr' & ->). rewrite list_lookup_fmap, Hr in Hg. injection Hg as <-.
    split_and!; [done|done|by apply G2|by apply G4|by intros a; apply G3| |].
    + simpl. destruct (min_by (medoid_leb r.2) r.2) as [m|] eqn:E; [|by apply min_by_None in E; apply G2 in Hr'].
      exists m. split_and!; [by eapply min_by_elem|done|done].
    + intros s (a & -> & Ha)%list_elem_of_fmap. apply list_elem_of_fmap_2. apply elem_of_take in Ha as (k & Ha & _).
      by apply list_elem_of_lookup_2, elem_of_sort_by in Ha.
  - intros i j c d g h Hi Hj Hg Hh Hne Hkey. destruct (Hc i c Hi) as (r & Hr & Hr' & ->), (Hc j d Hj) as (q & Hq & Hq' & ->).
    pose proof Hg as Hg0. pose proof Hh as Hh0. rewrite list_lookup_fmap, Hr in Hg. rewrite list_lookup_fmap, Hq in Hh.
    injection Hg as <-. injection Hh as <-. apply G5; [done|done|done|]. intros E.
    destruct (r.2) as [|a l] eqn:Er; [by apply (G2 r)|]. assert (NoDup (concat (snd <$> raw))) as Hnd.
    { apply (NoDup_fmap_1 segment_id). by rewrite Hconcat. }
    apply (NoDup_parts_differ _ i j _ _ a Hnd Hne Hg0 Hh0); [by left|]. rewrite <- E. by left.
  - intros i j g h Hij Hg Hh. rewrite list_lookup_fmap in Hg, Hh. destruct (raw !! i) as [r|] eqn:Hr; [|done].
    destruct (raw !! j) as [q|] eqn:Hq; [|done]. injection Hg as <-. injection Hh as <-.
    assert (le_rel rank_leb r q) as Hle by (eapply (sorted_lookup _ raw); [apply sort_by_sorted, _|done..]).
    apply rank_size in Hle. unfold zlen in Hle. lia.
Qed.

(** The report of the clusters depends on the segments, not on their order. *)
Theorem clusters_ignore_order segments segments' threshold n :
  segments ≡ₚ segments' →
  cluster_failure_segments segments threshold n = cluster_failure_segments segments' threshold n.
Proof.
  intros Hp. unfold cluster_failure_segments. destruct (decide (NoDup (segment_id <$> segments))) as [Hn|Hn].
  - assert (sorted_segments segments = sorted_segments segments') as ->; [|done]. apply sort_by_unique; [apply _| |done].
    intros x y Hx Hy H1 H2. pose proof (str_leb_antisymm _ _ H1 H2) as E.
    apply list_elem_of_lookup in Hx as [i Hi], Hy as [j Hj]. assert (i = j) as <-; [|congruence].
    eapply (NoDup_lookup _ i j (segment_id x) Hn); rewrite list_lookup_fmap; [by rewrite Hi|rewrite Hj; simpl; congruence].
  - rewrite !(bool_decide_eq_false_2 (NoDup _)); [done|by rewrite sorted_segments_perm, <- Hp|by rewrite sorted_segments_perm].
Qed.

(** ** A concrete report *)

Definition segment (id episode tool text : string) (severity : Q) : FailureSegment := {|
  segment_id := id; segment_episode_id := episode; failure_class := "grasp"; stage := "lift"; tool := Some tool;
  summary := text; earliest_divergence_step := None; start_step := 0; end_step := 3; severity := severity;
  state_signature := []; embedding := [1%Q; (1 # 2)%Q]; artifact_paths := [] |}.
Definition segments_demo : list FailureSegment :=
  [segment "s3" "e2" "grip" "gripper slips off the handle" (1 # 2); segment "s1" "e1" "grip" "gripper slips off handle" (3 # 4);
   segment "s2" "e1" "grip" "arm collides with the door" (1 # 4); segment "s4" "e3" "press" "gripper slips off handle" 1].
Example report_demo :
  (λ o, match o with
    | Ok cs => Some (map (λ c, (FailureCluster.cluster_id c, FailureCluster.member_segment_ids c, FailureCluster.medoid_segment_id c)) cs)
    | Raise _ => None end) (cluster_failure_segments segments_demo (literal (72 # 100)) 3) =
  Some [("cluster-001", ["s1"; "s3"], "s1"); ("cluster-002", ["s4"], "s4"); ("cluster-003", ["s2"], "s2")].
Proof. vm_compute. reflexivity. Qed.

Lemma clusters_partition_segments_witness :
  let clusters := match cluster_failure_segments segments_demo (literal (72 # 100)) 3 with Ok cs => cs | Raise _ => [] end in
  ∃ groups, concat groups ≡ₚ segments_demo ∧ length groups = 3%nat.
Proof.
  set (clusters := match cluster_failure_segments segments_demo (literal (72 # 100)) 3 with Ok cs => cs | Raise _ => [] end).
  assert (cluster_failure_segments segments_demo (literal (72 # 100)) 3 = Ok clusters) as H by (vm_compute; reflexivity).
  destruct (clusters_partition_segments segments_demo _ 3 clusters H) as (groups & H1 & H2 & _).
  exists groups. split; [exact H1|]. rewrite H2. vm_compute. reflexivity.
Defined.

Lemma clusters_ignore_order_witness :
  cluster_failure_segments segments_demo (literal (72 # 100)) 3 =
  cluster_failure_segments (reverse segments_demo) (literal (72 # 100)) 3.
Proof. apply (clusters_ignore_order segments_demo). symmetry. apply reverse_Permutation. Defined.
