(* ===== verification/CampaignStore.v ===== *)
(** * The campaign store: [zetta/evolution/store.py]

    A campaign is a directory: a manifest, a small mutable [state.json], artifacts that are
    written once, and ledgers that are only appended to.  [disk] maps the path of a file
    (relative to the root) to the JSON it holds, and the path of a ledger to its rows; both
    are as they read back, with sorted keys.  A call runs with a crash budget
    ([Durable.v]): its durable effects are, in order, the atomic writes it makes and, of each
    ledger append, the lock directory it makes, the row it adds, and the removal of the lock.
    Nobody takes over the lock of a process that died.  Calls run one after the other, so a
    lock that is found is one that was left; the 30 seconds an append waits for it are not
    counted.  A row is one write: it is not torn (a torn one would be under a lock that is
    left).  [now] is the text of the clock a call reads, and
    identifiers that become path components contain no separators.

    Theorems: history is append-only; every episode of a campaign is preregistered; a
    promotion is earned by the gates its ledger holds; calls interrupted by a crash that
    leaves no lock can be made again, whatever the clock reads then; a lock that is left
    wedges its ledger; the life cycle. *)

From Stdlib Require Import QArith.
From stdpp Require Import pretty.
From S2P Require Import Prelude Durable PyDict Sorting Sha256 Codec CanonicalJson JsonIO PyFloat EvolutionModels CampaignModels.

Open Scope string_scope.
Open Scope list_scope.
Open Scope Z_scope.

(** ** JSON helpers *)

(** [bool(value)] *)
Definition truth (v : native) : bool :=
  match v with
  | NNone => false
  | NBool b => b
  | NInt z => negb (z =? 0)
  | NFloat r => negb (member r ["0.0"; "-0.0"])
  | NStr s | NBytes s => str_true s
  | NList l => match l with [] => false | _ => true end
  | NDict d => match d with [] => false | _ => true end
  end.

(** [{**d, **updates}] *)
Definition merge (d updates : json_object) : json_object :=
  foldl (λ d kv, assoc_insert kv.1 kv.2 d) d updates.

Definition has (key : string) (d : json_object) : bool := bool_decide (is_Some (assoc_lookup key d)).

(** [f"{z:04d}"] of a non-negative integer *)
Definition pad4 (z : Z) : string := let s := pretty z in zeros (4 - String.length s) +:+ s.

(** [FailureSegment.as_dict], [EpisodeRecord.as_dict], [GateDecision.as_dict]; a decision's
    rationale is given as the text it has. *)
Definition floats (l : list Q) : native := NList ((λ q, NFloat (repr64 q)) <$> l).

Definition segment_dict (x : FailureSegment) : json_object := [
  ("segment_id", NStr (segment_id x)); ("episode_id", NStr (segment_episode_id x));
  ("failure_class", NStr (failure_class x)); ("stage", NStr (stage x)); ("tool", to_json (tool x));
  ("summary", NStr (summary x)); ("earliest_divergence_step", to_json (earliest_divergence_step x));
  ("start_step", NInt (start_step x)); ("end_step", NInt (end_step x));
  ("severity", NFloat (repr64 (severity x))); ("state_signature", floats (state_signature x));
  ("embedding", floats (embedding x)); ("artifact_paths", to_json (artifact_paths x))].

Definition status_value (s : EpisodeStatus) : string :=
  match s with valid => "valid" | infra_invalid => "infra_invalid" end.

Definition episode_dict (r : EpisodeRecord) : json_object := [
  ("episode_id", NStr (episode_id r)); ("logical_id", NStr (logical_id r));
  ("generation", NInt (generation r)); ("seed", NInt (seed r)); ("policy_rng", NInt (policy_rng r));
  ("bundle_sha256", to_json (bundle_sha256 r)); ("status", NStr (status_value (status r)));
  ("success", match success r with Some b => NBool b | None => NNone end);
  ("started_at", NStr (started_at r)); ("finished_at", NStr (finished_at r));
  ("elapsed_s", NFloat (repr64 (elapsed_s r))); ("artifact_index", NDict (artifact_index r));
  ("safety_events", to_json (safety_events r));
  ("failure_segment", match failure_segment r with Some x => NDict (segment_dict x) | None => NNone end);
  ("failure_segments", NList ((λ x, NDict (segment_dict x)) <$> failure_segments r));
  ("invalid_reason", to_json (invalid_reason r)); ("attempt_index", NInt (attempt_index r));
  ("schema_version", NInt (schema_version r))].

Definition decision_dict (d : GateDecision) (rationale_text : string) : json_object := [
  ("decision_id", NStr (decision_id d)); ("candidate_sha256", NStr (candidate_sha256 d));
  ("parent_sha256", to_json (parent_sha256 d)); ("kind", NStr (kind_name (kind d)));
  ("passed", NBool (passed d)); ("conclusive", NBool (conclusive d));
  ("candidate_successes", NInt (candidate_successes d)); ("parent_successes", NInt (parent_successes d));
  ("paired_count", NInt (paired_count d)); ("candidate_wins", NInt (candidate_wins d));
  ("parent_wins", NInt (parent_wins d));
  ("p_value", match p_value d with Some q => NFloat (repr64 q) | None => NNone end);
  ("alpha", match alpha d with Some q => NFloat (repr64 q) | None => NNone end);
  ("candidate_safety_events", NInt (candidate_safety_events d));
  ("parent_safety_events", NInt (parent_safety_events d)); ("rationale", NStr rationale_text)].

(** ** Phases *)

Definition phases : list CampaignPhase := [ROLLOUT; CLUSTER; DIAGNOSE; PROPOSE; SAME_SEED_GATE;
  REGRESSION_GATE; HELDOUT_GATE; PROMOTE; COMPLETE].

Definition ALLOWED_TRANSITIONS (p : CampaignPhase) : list CampaignPhase :=
  match p with
  | ROLLOUT => [CLUSTER]
  | CLUSTER => [DIAGNOSE; COMPLETE]
  | DIAGNOSE => [PROPOSE; COMPLETE]
  | PROPOSE => [SAME_SEED_GATE; COMPLETE]
  | SAME_SEED_GATE => [DIAGNOSE; PROPOSE; REGRESSION_GATE; HELDOUT_GATE; PROMOTE; COMPLETE]
  | REGRESSION_GATE => [DIAGNOSE; PROPOSE; HELDOUT_GATE; PROMOTE; COMPLETE]
  | HELDOUT_GATE => [DIAGNOSE; PROPOSE; PROMOTE; COMPLETE]
  | PROMOTE => [ROLLOUT; COMPLETE]
  | COMPLETE => []
  end.

(** [CampaignPhase(state["phase"])] *)
Definition phase_of (state : json_object) : outcome campaign_error CampaignPhase :=
  match assoc_lookup "phase" state with
  | None => Raise (MissingKey "phase")
  | Some (NStr s) =>
      match list_find (λ p, phase_value p = s) phases with
      | Some (_, p) => Ok p
      | None => Raise (ValueError "not a valid CampaignPhase" : campaign_error)
      end
  | Some _ => Raise (ValueError "not a valid CampaignPhase" : campaign_error)
  end.

Definition expected_phase (k : GateKind) : CampaignPhase :=
  match k with
  | same_seed => SAME_SEED_GATE
  | regression => REGRESSION_GATE
  | heldout_10 | heldout_20 | heldout_50 => HELDOUT_GATE
  end.

Module CampaignStore.

(** The seven ledgers, with the file and the key of each. *)
Inductive ledger :=
  | episodes | attempts | gates | diagnoses | candidate_ledger | promotions
  | same_seed_threshold_authorizations.
#[export] Instance ledger_eq_dec : EqDecision ledger.
Proof. solve_decision. Defined.

Definition ledger_file (l : ledger) : string :=
  match l with
  | episodes => "ledgers/episodes.jsonl"
  | attempts => "ledgers/attempts.jsonl"
  | gates => "ledgers/gates.jsonl"
  | diagnoses => "ledgers/diagnoses.jsonl"
  | candidate_ledger => "ledgers/candidates.jsonl"
  | promotions => "ledgers/promotions.jsonl"
  | same_seed_threshold_authorizations => "ledgers/same-seed-threshold-authorizations.jsonl"
  end.
Definition lock_file (l : ledger) : string :=
  match l with
  | episodes => "ledgers/.episodes.jsonl.lock"
  | attempts => "ledgers/.attempts.jsonl.lock"
  | gates => "ledgers/.gates.jsonl.lock"
  | diagnoses => "ledgers/.diagnoses.jsonl.lock"
  | candidate_ledger => "ledgers/.candidates.jsonl.lock"
  | promotions => "ledgers/.promotions.jsonl.lock"
  | same_seed_threshold_authorizations => "ledgers/.same-seed-threshold-authorizations.jsonl.lock"
  end.
Definition ledger_key (l : ledger) : string :=
  match l with
  | episodes => "logical_id"
  | attempts => "attempt_id"
  | gates => "decision_id"
  | diagnoses => "diagnosis_id"
  | candidate_ledger => "candidate_sha256"
  | promotions => "promotion_id"
  | same_seed_threshold_authorizations => "authorization_id"
  end.

Record t := Disk {
  files : gmap string native;
  ledgers : gmap string AppendOnlyLedger.t;
  locks : gset string;
}.

Definition init : t := Disk ∅ ∅ ∅.

Definition set_files (f : gmap string native) (d : t) : t := Disk f (ledgers d) (locks d).
Definition set_ledgers (l : gmap string AppendOnlyLedger.t) (d : t) : t := Disk (files d) l (locks d).
Definition set_locks (l : gset string) (d : t) : t := Disk (files d) (ledgers d) l.

Definition op (A : Type) : Type := durable_op t campaign_error A.

Definition fail {A} (msg : string) : op A := throw (evolution_error (ValueError msg)).
(** [if condition: raise ValueError(msg)] *)
Definition reject_if (b : bool) (msg : string) : op unit := if b then fail msg else mret tt.

Definition manifest_path : string := "manifest.json".
Definition state_path : string := "state.json".

(** [AppendOnlyLedger.records] *)
Definition records (l : ledger) (d : t) : AppendOnlyLedger.t := default [] (ledgers d !! ledger_file l).

(** [read_json], of a file that holds an object. *)
Definition read_object (path : string) : op json_object :=
  d ← read_disk;
  match files d !! path with
  | None => throw (FileNotFoundError path)
  | Some (NDict x) => mret x
  | Some _ => throw (TypeError "not an object")
  end.

(** [atomic_write_json] *)
Definition atomic_write_json (path : string) (v : native) (overwrite : bool) : op string :=
  d ← read_disk;
  let publish := durable (λ d, set_files (<[path := sort_keys v]> (files d)) d) in
  match files d !! path, overwrite with
  | Some existing, false =>
      if String.eqb (canonical_json_bytes existing) (canonical_json_bytes v)
      then mret (canonical_sha256 v)
      else throw (FileExistsError ("immutable artifact already differs: " +:+ path))
  | _, _ => publish ≫= λ _, mret (canonical_sha256 v)
  end.

(** [directory_lock], of the ledger's lock: a directory that is made, and removed at the end
    of the body, also when it raises.  Nobody takes it over from a process that died: who
    finds it there waits and gives up. *)
Definition locked (l : ledger) (d : t) : bool := bool_decide (lock_file l ∈ locks d).
Definition take_lock (l : ledger) (d : t) : t := set_locks ({[lock_file l]} ∪ locks d) d.
Definition drop_lock (l : ledger) (d : t) : t := set_locks (locks d ∖ {[lock_file l]}) d.
Definition lock_timeout (l : ledger) : campaign_error :=
  TimeoutError ("timed out acquiring filesystem lock: " +:+ lock_file l).
Definition directory_lock {A} (l : ledger) (body : op A) : op A :=
  d ← read_disk;
  if locked l d then throw (lock_timeout l)
  else durable (take_lock l) ≫= λ _, finally body (durable (drop_lock l)).

(** The section of [AppendOnlyLedger.append] that holds the lock. *)
Definition append_locked (l : ledger) (record : json_object) : op bool :=
  d ← read_disk;
  match AppendOnlyLedger.append (ledger_key l) (sorted_object record) (records l d) with
  | (rows, Ok true) =>
      durable (λ d, set_ledgers (<[ledger_file l := rows]> (ledgers d)) d) ≫= λ _, mret true
  | (_, Ok false) => mret false
  | (_, Raise e) => throw (ledger_error e)
  end.

(** [AppendOnlyLedger.append]; a record without a key is refused before the lock is taken. *)
Definition append (l : ledger) (record : json_object) : op bool :=
  match AppendOnlyLedger.identity (ledger_key l) (sorted_object record) with
  | Some _ => directory_lock l (append_locked l record)
  | None => append_locked l record
  end.

(** ** Manifest and state *)

(** [manifest] *)
Definition manifest : op CampaignManifest.t :=
  payload ← read_object manifest_path; attempt (CampaignManifest.from_dict payload).

Definition bound_to (m : CampaignManifest.t) (state : json_object) : bool :=
  bool_decide (obj_get "manifest_sha256" state = NStr (CampaignManifest.sha256 m)).

(** [state] *)
Definition state : op json_object :=
  s ← read_object state_path;
  m ← manifest;
  reject_if (negb (bound_to m s)) "state/manifest digest mismatch" ≫= λ _, mret s.

Definition initial_state (m : CampaignManifest.t) (now : string) : json_object := [
  ("schema_version", NInt 1); ("manifest_sha256", NStr (CampaignManifest.sha256 m));
  ("phase", NStr (phase_value ROLLOUT)); ("generation", NInt (CampaignManifest.generation m));
  ("current_bundle_sha256", to_json (CampaignManifest.parent_bundle_sha256 m));
  ("candidate_sha256", NNone); ("updated_at", NStr now)].

(** [initialize] *)
Definition initialize (m : CampaignManifest.t) (now : string) : op json_object :=
  atomic_write_json manifest_path (NDict (CampaignManifest.as_dict m)) false ≫= λ _,
  d ← read_disk;
  match files d !! state_path with
  | Some _ =>
      s ← read_object state_path;
      reject_if (negb (bound_to m s)) "campaign root is bound to a different manifest" ≫= λ _, mret s
  | None =>
      atomic_write_json state_path (NDict (initial_state m now)) false ≫= λ _, mret (initial_state m now)
  end.

(** [atomic_write_json(self.state_path, updated, overwrite=True)] and return it. *)
Definition write_state (updated : json_object) : op json_object :=
  atomic_write_json state_path (NDict updated) true ≫= λ _, mret updated.

(** [transition] *)
Definition transition (target : CampaignPhase) (updates : json_object) (now : string) : op json_object :=
  s ← state;
  source ← attempt (phase_of s);
  reject_if (negb (member target (ALLOWED_TRANSITIONS source)))
    ("invalid campaign transition: " +:+ phase_value source +:+ " -> " +:+ phase_value target) ≫= λ _,
  reject_if (has "phase" updates || has "manifest_sha256" updates)
    "state_updates cannot replace phase or manifest binding" ≫= λ _,
  write_state (merge (merge s updates) [("phase", NStr (phase_value target)); ("updated_at", NStr now)]).

(** [update_state] *)
Definition update_state (updates : json_object) (now : string) : op json_object :=
  reject_if (has "phase" updates || has "manifest_sha256" updates)
    "state update cannot replace phase or manifest binding" ≫= λ _,
  s ← state;
  write_state (merge (merge s updates) [("updated_at", NStr now)]).

Definition len (s : string) : Z := zlen (code_points s).

(** [reopen_completed_provisional_hypothesis] *)
Definition reopen_completed_provisional_hypothesis (authorization_id authorization_sha256
    diagnosis_sha256 : string) (same_seed_pass_rate : Q) (skip_regression : bool) (now : string) :
    op json_object :=
  s ← state;
  phase ← attempt (phase_of s);
  reject_if (negb (bool_decide (phase = COMPLETE)))
    "provisional recovery requires a complete campaign" ≫= λ _,
  reject_if (negb (bool_decide (obj_get "optimization_outcome" s = NStr "no_actionable_cluster_diagnosis")))
    "campaign did not complete from inconclusive diagnosis" ≫= λ _,
  reject_if (negb (bool_decide (obj_get "candidate_sha256" s = NNone)))
    "provisional recovery cannot replace an active candidate" ≫= λ _,
  d ← read_disk;
  reject_if (negb (bool_decide (records candidate_ledger d = []) && bool_decide (records gates d = [])
                   && bool_decide (records promotions d = [])))
    "provisional recovery requires an ungated generation" ≫= λ _,
  reject_if (negb (str_true authorization_id) || negb (len authorization_sha256 =? 64))
    "provisional recovery authorization is invalid" ≫= λ _,
  reject_if (negb (len diagnosis_sha256 =? 64))
    "provisional recovery diagnosis digest is invalid" ≫= λ _,
  reject_if (negb (flt 0 same_seed_pass_rate && Qle_bool same_seed_pass_rate 1))
    "provisional same-seed pass rate must be in (0, 1]" ≫= λ _,
  write_state (merge s [
    ("phase", NStr (phase_value PROPOSE));
    ("optimization_outcome", NStr "provisional_hypothesis_gate_authorized");
    ("provisional_authorization_id", NStr authorization_id);
    ("provisional_authorization_sha256", NStr authorization_sha256);
    ("provisional_diagnosis_sha256", NStr diagnosis_sha256);
    ("provisional_same_seed_pass_rate", NFloat (repr64 same_seed_pass_rate));
    ("provisional_skip_regression", NBool skip_regression);
    ("candidate_round", NInt 0); ("updated_at", NStr now)]).

(** [transition_timeboxed_same_seed_to_heldout] *)
Definition transition_timeboxed_same_seed_to_heldout (authorization_id authorization_sha256 now : string) :
    op json_object :=
  s ← state;
  phase ← attempt (phase_of s);
  reject_if (negb (bool_decide (phase = SAME_SEED_GATE)))
    "timeboxed heldout transition requires same-seed phase" ≫= λ _,
  reject_if (negb (truth (obj_get "provisional_skip_regression" s)))
    "regression skip was not authorized" ≫= λ _,
  reject_if (negb (bool_decide (obj_get "provisional_authorization_id" s = NStr authorization_id))
             || negb (bool_decide (obj_get "provisional_authorization_sha256" s = NStr authorization_sha256)))
    "timeboxed authorization binding changed" ≫= λ _,
  write_state (merge s [
    ("phase", NStr (phase_value HELDOUT_GATE));
    ("optimization_outcome", NStr "same_seed_passed_regression_skipped_timeboxed");
    ("updated_at", NStr now)]).

(** ** Episodes, candidates, diagnoses, gates *)

Definition attempt_path (r : EpisodeRecord) : string :=
  "attempts/" +:+ logical_id r +:+ "/attempt-" +:+ pad3 (attempt_index r) +:+ "/record.json".
Definition episode_path (r : EpisodeRecord) : string :=
  "episodes/" +:+ logical_id r +:+ "/record.json".
Definition attempt_payload (r : EpisodeRecord) : json_object :=
  ("attempt_id", NStr (attempt_id r)) :: episode_dict r.

(** What [record_episode] requires of an episode, of the manifest and the state it reads. *)
Definition preregistered (m : CampaignManifest.t) (r : EpisodeRecord) : outcome campaign_error unit :=
  requires [
    (generation r =? CampaignManifest.generation m, "episode generation does not match campaign");
    (bool_decide (assoc_lookup (pretty (seed r)) (CampaignManifest.policy_rng_by_seed m) = Some (policy_rng r)),
     "episode seed/policy RNG is not preregistered")].

(** [record_episode] *)
Definition record_episode (r : EpisodeRecord) : op bool :=
  m ← manifest;
  attempt (preregistered m r) ≫= λ _,
  s ← state;
  reject_if (negb (bool_decide (to_json (bundle_sha256 r) = obj_get "current_bundle_sha256" s)))
    "episode did not use the frozen current bundle" ≫= λ _,
  atomic_write_json (attempt_path r) (NDict (attempt_payload r)) false ≫= λ _,
  append attempts (attempt_payload r) ≫= λ _,
  if bool_decide (status r = infra_invalid) then mret false
  else
    atomic_write_json (episode_path r) (NDict (episode_dict r)) false ≫= λ _,
    append episodes (episode_dict r).

Definition bundle_path (sha : string) : string := "candidates/" +:+ sha +:+ "/bundle.json".

(** [register_candidate] *)
Definition register_candidate (c : CandidateBundle.t) (now : string) : op string :=
  s ← state;
  phase ← attempt (phase_of s);
  reject_if (negb (bool_decide (phase = PROPOSE))) "candidate registration requires propose phase" ≫= λ _,
  reject_if (negb (bool_decide (to_json (CandidateBundle.parent_sha256 c) = obj_get "current_bundle_sha256" s)))
    "candidate parent is stale" ≫= λ _,
  let sha := CandidateBundle.sha256 c in
  atomic_write_json (bundle_path sha) (NDict (CandidateBundle.as_dict c)) false ≫= λ _,
  append candidate_ledger [
    ("candidate_sha256", NStr sha); ("candidate_id", NStr (CandidateBundle.candidate_id c));
    ("generation", NInt (CandidateBundle.generation c));
    ("parent_sha256", to_json (CandidateBundle.parent_sha256 c));
    ("diagnosis_sha256", NStr (CandidateBundle.diagnosis_sha256 c))] ≫= λ _,
  write_state (merge s [("candidate_sha256", NStr sha); ("updated_at", NStr now)]) ≫= λ _,
  mret sha.

(** The rows of a ledger about a candidate. *)
Definition rows_of (sha : native) (rows : AppendOnlyLedger.t) : AppendOnlyLedger.t :=
  bfilter (λ row, bool_decide (obj_get "candidate_sha256" row = sha)) rows.

(** The candidate that is active may be replaced only after its last gate failed. *)
Definition replaceable (active : native) (rows : AppendOnlyLedger.t) : bool :=
  match last (rows_of active rows) with
  | Some row => negb (truth (obj_get "passed" row))
  | None => false
  end.

(** [recover_registered_candidate] *)
Definition recover_registered_candidate (sha now : string) : op json_object :=
  s ← state;
  phase ← attempt (phase_of s);
  reject_if (negb (bool_decide (phase = PROPOSE)))
    "candidate registration recovery requires propose phase" ≫= λ _,
  d ← read_disk;
  let rows := records candidate_ledger d in
  reject_if (negb match rows_of (NStr sha) rows, last rows with
    | [row], Some row' => bool_decide (row = row') | _, _ => false end)
    "candidate recovery requires the latest unique ledger row" ≫= λ _,
  bundle ← read_object (bundle_path sha);
  reject_if (negb (String.eqb (canonical_sha256 (NDict bundle)) sha))
    "candidate recovery bundle digest mismatch" ≫= λ _,
  c ← attempt (CandidateBundle.from_dict bundle);
  reject_if (negb (bool_decide (to_json (CandidateBundle.parent_sha256 c) = obj_get "current_bundle_sha256" s)))
    "candidate recovery parent is stale" ≫= λ _,
  let active := obj_get "candidate_sha256" s in
  reject_if (negb (member active [NNone; NStr sha]) && negb (replaceable active (records gates d)))
    "candidate recovery would overwrite an active candidate" ≫= λ _,
  write_state (merge s [("candidate_sha256", NStr sha); ("updated_at", NStr now)]).

(** [register_diagnosis] *)
Definition register_diagnosis (x : CausalDiagnosis.t) : op bool :=
  s ← state;
  phase ← attempt (phase_of s);
  reject_if (negb (bool_decide (phase = DIAGNOSE))) "diagnosis registration requires diagnose phase" ≫= λ _,
  atomic_write_json ("diagnoses/" +:+ CausalDiagnosis.diagnosis_id x +:+ "/diagnosis.json")
    (NDict (CausalDiagnosis.as_dict x)) false ≫= λ _,
  append diagnoses (CausalDiagnosis.as_dict x).

(** [record_gate] *)
Definition record_gate (x : GateDecision) (rationale_text : string) : op bool :=
  s ← state;
  reject_if (negb (bool_decide (NStr (candidate_sha256 x) = obj_get "candidate_sha256" s)))
    "gate decision targets a stale candidate" ≫= λ _,
  phase ← attempt (phase_of s);
  reject_if (negb (bool_decide (phase = expected_phase (kind x))))
    (kind_name (kind x) +:+ " decision cannot be recorded in " +:+ phase_value phase) ≫= λ _,
  append gates (decision_dict x rationale_text).

(** ** Promotion *)

(** [runtime.get("evolution_policy", {})], as an object. *)
Definition evolution_policy (m : CampaignManifest.t) : json_object :=
  match assoc_lookup "evolution_policy" (CampaignManifest.runtime m) with
  | Some (NDict d) => d
  | _ => []
  end.
Definition policy_skips_regression (m : CampaignManifest.t) : bool :=
  truth (obj_get "skip_regression_gate" (evolution_policy m)).
(** [str(policy.get("heldout_mode", "validation")) == "test"] *)
Definition heldout_is_test (m : CampaignManifest.t) : bool :=
  bool_decide (assoc_lookup "heldout_mode" (evolution_policy m) = Some (NStr "test")).

(** The exception bound to one candidate in the state. *)
Definition authorized_to_skip (sha : string) (s : json_object) : bool :=
  bool_decide (obj_get "same_seed_threshold_authorization_candidate_sha256" s = NStr sha)
  && truth (obj_get "same_seed_threshold_authorization_skip_regression" s).

Definition heldout_kinds : list native := [NStr "heldout_10"; NStr "heldout_20"; NStr "heldout_50"].
Definition kinds_of (rows : AppendOnlyLedger.t) : list native := obj_get "kind" <$> rows.
Definition passed_rows (rows : AppendOnlyLedger.t) : AppendOnlyLedger.t :=
  bfilter (λ row, truth (obj_get "passed" row)) rows.
Definition intersects (xs ys : list native) : bool := existsb (λ x, member x ys) xs.

(** What [promote] requires of the rows about the candidate. *)
Definition gates_support (skip_regression test_mode : bool) (rows : AppendOnlyLedger.t) :
    outcome campaign_error unit :=
  let kinds := kinds_of (passed_rows rows) in
  let required := if skip_regression then [NStr "same_seed"] else [NStr "same_seed"; NStr "regression"] in
  requires [
    (forallb (λ k, member k kinds) required, "candidate has not passed all required pre-heldout gates");
    (negb (test_mode && intersects (kinds_of rows) heldout_kinds),
     "final test seeds were used during development");
    (test_mode || intersects heldout_kinds kinds, "candidate has not passed a heldout gate")].

Definition text_of (v : native) : string := match v with NStr s => s | _ => EmptyString end.
(** [sorted(row["decision_id"] for row in rows)]; the ledger's keys are texts. *)
Definition gate_ids (rows : AppendOnlyLedger.t) : list string :=
  sort_by str_leb ((λ row, text_of (obj_get "decision_id" row)) <$> rows).

Definition promotion_id (sha : string) : string := "promote-" +:+ String.substring 0 20 sha.
Definition promotion_row (sha : string) (parent generation : native) (now : string) (ids : list string) :
    json_object := [
  ("promotion_id", NStr (promotion_id sha)); ("candidate_sha256", NStr sha); ("parent_sha256", parent);
  ("generation", generation); ("promoted_at", NStr now); ("gate_decision_ids", to_json ids)].

Definition bundles_path (generation : native) : string :=
  "bundles/generation-" +:+ match generation with NInt g => pad4 g | _ => EmptyString end +:+ ".json".

(** [promote]; [now1] and [now2] are its two readings of the clock. *)
Definition promote (sha now1 now2 : string) : op json_object :=
  s ← state;
  phase ← attempt (phase_of s);
  reject_if (negb (bool_decide (phase = PROMOTE))) "promotion requires promote phase" ≫= λ _,
  m ← manifest;
  reject_if (bool_decide (obj_get "evaluation_scope" (CampaignManifest.runtime m) = NStr "paired_heldout_only"))
    "heldout-only evaluation campaigns cannot promote" ≫= λ _,
  reject_if (negb (bool_decide (obj_get "candidate_sha256" s = NStr sha)))
    "promotion candidate is stale" ≫= λ _,
  candidate ← read_object (bundle_path sha);
  reject_if (negb (String.eqb (canonical_sha256 (NDict candidate)) sha))
    "candidate artifact digest mismatch" ≫= λ _,
  let parent := obj_get "current_bundle_sha256" s in
  reject_if (negb (bool_decide (obj_get "parent_sha256" candidate = parent)))
    "candidate parent no longer matches current bundle" ≫= λ _,
  d ← read_disk;
  let rows := rows_of (NStr sha) (records gates d) in
  attempt (gates_support (policy_skips_regression m || authorized_to_skip sha s) (heldout_is_test m) rows) ≫= λ _,
  generation ← attempt (field "generation" s);
  let promotion := promotion_row sha parent generation now1 (gate_ids rows) in
  append promotions promotion ≫= λ _,
  write_state (merge s [("current_bundle_sha256", NStr sha); ("candidate_sha256", NNone);
                        ("updated_at", NStr now2)]) ≫= λ _,
  atomic_write_json (bundles_path generation) (NDict candidate) false ≫= λ _,
  mret promotion.

(** ** Status *)

(** [path.split("/")] *)
Fixpoint components (path : string) : list string :=
  match path with
  | EmptyString => [EmptyString]
  | String c rest =>
      if Ascii.eqb c (Ascii.ascii_of_nat 47) then EmptyString :: components rest
      else match components rest with x :: xs => String c x :: xs | [] => [String c EmptyString] end
  end.
Definition is_bundle (path : string) : bool :=
  match components path with ["candidates"; _; "bundle.json"] => true | _ => false end.

Record report := Report {
  report_manifest : CampaignManifest.t;
  report_state : json_object;
  total_attempts : Z;
  valid_episodes : Z;
  infra_invalid_attempts : Z;
  successes : Z;
  candidates : Z;
  diagnosis_count : Z;
  report_candidates : AppendOnlyLedger.t;
  report_gates : AppendOnlyLedger.t;
  report_promotions : AppendOnlyLedger.t;
}.

(** [status] *)
Definition status_report : op report :=
  d ← read_disk;
  m ← manifest;
  s ← state;
  mret {|
    report_manifest := m; report_state := s;
    total_attempts := zlen (records attempts d); valid_episodes := zlen (records episodes d);
    infra_invalid_attempts :=
      count (λ row, bool_decide (obj_get "status" row = NStr "infra_invalid")) (records attempts d);
    successes := count (λ row, truth (obj_get "success" row)) (records episodes d);
    candidates := count is_bundle (map_to_list (files d)).*1;
    diagnosis_count := zlen (records diagnoses d);
    report_candidates := records candidate_ledger d; report_gates := records gates d;
    report_promotions := records promotions d |}.

(** ** Steps: a call of a process that may die in it *)

Inductive call :=
  | Initialize (m : CampaignManifest.t) (now : string)
  | Transition (target : CampaignPhase) (updates : json_object) (now : string)
  | UpdateState (updates : json_object) (now : string)
  | Reopen (authorization_id authorization_sha256 diagnosis_sha256 : string) (rate : Q)
      (skip_regression : bool) (now : string)
  | Timebox (authorization_id authorization_sha256 now : string)
  | RecordEpisode (r : EpisodeRecord)
  | RegisterCandidate (c : CandidateBundle.t) (now : string)
  | RecoverCandidate (sha now : string)
  | RegisterDiagnosis (x : CausalDiagnosis.t)
  | RecordGate (x : GateDecision) (rationale_text : string)
  | Authorize (record : json_object)
  | Promote (sha now1 now2 : string).

(** What a call answers. *)
Inductive answer := AState (s : json_object) | ABool (b : bool) | AText (s : string).

Definition perform (c : call) : op answer :=
  match c with
  | Initialize m now => x ← initialize m now; mret (AState x)
  | Transition p u now => x ← transition p u now; mret (AState x)
  | UpdateState u now => x ← update_state u now; mret (AState x)
  | Reopen a s x q b now => y ← reopen_completed_provisional_hypothesis a s x q b now; mret (AState y)
  | Timebox a s now => x ← transition_timeboxed_same_seed_to_heldout a s now; mret (AState x)
  | RecordEpisode r => b ← record_episode r; mret (ABool b)
  | RegisterCandidate c now => sha ← register_candidate c now; mret (AText sha)
  | RecoverCandidate sha now => x ← recover_registered_candidate sha now; mret (AState x)
  | RegisterDiagnosis x => b ← register_diagnosis x; mret (ABool b)
  | RecordGate x text => b ← record_gate x text; mret (ABool b)
  | Authorize record => b ← append same_seed_threshold_authorizations record; mret (ABool b)
  | Promote sha now1 now2 => x ← promote sha now1 now2; mret (AState x)
  end.

Definition exec (d : t) (b : nat) (c : call) : t := disk (after (perform c) (World d b)).

(** Calls in order, each with the durable effects its process lives to make. *)
Definition run (cs : list (call * nat)) (d : t) : t := foldl (λ d cb, exec d cb.2 cb.1) d cs.

(** ** Merging objects *)

Lemma merge_app d u1 u2 : merge (merge d u1) u2 = merge d (u1 ++ u2).
Proof. unfold merge. by rewrite foldl_app. Qed.

Lemma lookup_merge k d u :
  assoc_lookup k (merge d u) = match assoc_lookup k (reverse u) with Some v => Some v | None => assoc_lookup k d end.
Proof.
  induction u as [|[k' v] u IH] using rev_ind; [done|]. unfold merge in *. rewrite foldl_app, reverse_app. simpl.
  rewrite assoc_lookup_insert. by destruct (decide (k = k')).
Qed.

Lemma has_false k u : has k u = false ↔ assoc_lookup k u = None.
Proof. unfold has. rewrite bool_decide_eq_false. by rewrite <- eq_None_not_Some. Qed.

Lemma lookup_app_None {A} k (u1 u2 : list (string * A)) :
  assoc_lookup k u1 = None → assoc_lookup k u2 = None → assoc_lookup k (u1 ++ u2) = None.
Proof. intros H1 H2. induction u1 as [|[k' v] u1 IH]; [done|]. simpl in *. case_decide; auto. Qed.

Lemma lookup_reverse_None {A} k (u : list (string * A)) : assoc_lookup k u = None → assoc_lookup k (reverse u) = None.
Proof.
  intros H. apply (lookup_None_keys (PyDict (reverse u)) k).
  apply (lookup_None_keys (PyDict u) k) in H. unfold keys in *. simpl in *. intros Hin. apply H.
  rewrite fmap_reverse in Hin. by apply elem_of_reverse.
Qed.

Lemma lookup_merge_keep k d u : has k u = false → assoc_lookup k (merge d u) = assoc_lookup k d.
Proof. intros H%has_false%lookup_reverse_None. by rewrite lookup_merge, H. Qed.

Lemma merge_NoDup d u : NoDup d.*1 → NoDup (merge d u).*1.
Proof.
  revert d. induction u as [|[k v] u IH]; intros d Hd; [done|]. simpl. apply IH.
  exact (dict_wf_insert (PyDict d) k v Hd).
Qed.

Lemma phase_of_value p : phase_of [("phase", NStr (phase_value p))] = Ok p.
Proof. by destruct p; vm_compute. Qed.

Lemma phase_of_lookup s s' : assoc_lookup "phase" s = assoc_lookup "phase" s' → phase_of s = phase_of s'.
Proof. unfold phase_of. by intros ->. Qed.

Lemma phase_of_sorted s : NoDup s.*1 → phase_of (sorted_object s) = phase_of s.
Proof.
  intros Hs. unfold phase_of. rewrite sorted_object_lookup by done.
  by destruct (assoc_lookup "phase" s) as [[]|].
Qed.

(** The phase after a write of the state. *)
Lemma merge_phase_keep s u :
  NoDup s.*1 → has "phase" u = false → phase_of (sorted_object (merge s u)) = phase_of s.
Proof.
  intros Hs Hu. rewrite phase_of_sorted by by apply merge_NoDup. by apply phase_of_lookup, lookup_merge_keep.
Qed.
Lemma merge_phase_set s u q :
  NoDup s.*1 → assoc_lookup "phase" (reverse u) = Some (NStr (phase_value q)) →
  phase_of (sorted_object (merge s u)) = Ok q.
Proof.
  intros Hs Hu. rewrite phase_of_sorted by by apply merge_NoDup. rewrite <- (phase_of_value q).
  apply phase_of_lookup. by rewrite lookup_merge, Hu.
Qed.

(** ** What the disk holds *)

Definition holds_manifest (d : t) (m : CampaignManifest.t) : Prop :=
  ∃ p, files d !! manifest_path = Some (NDict p) ∧ CampaignManifest.from_dict p = Ok m.
Definition holds_state (d : t) (s : json_object) : Prop :=
  files d !! state_path = Some (NDict s) ∧ ∃ m, holds_manifest d m ∧ bound_to m s = true.
Definition phase_at (d : t) (p : CampaignPhase) : Prop :=
  ∃ s, files d !! state_path = Some (NDict s) ∧ phase_of s = Ok p.

(** What a promotion rests on: the disk [d] it was decided on. *)
Record earned (d : t) (sha now : string) (row : json_object) (m : CampaignManifest.t)
    (s bundle : json_object) : Prop := {
  earned_manifest : holds_manifest d m;
  earned_state : holds_state d s;
  earned_phase : phase_of s = Ok PROMOTE;
  earned_scope : obj_get "evaluation_scope" (CampaignManifest.runtime m) ≠ NStr "paired_heldout_only";
  earned_candidate : obj_get "candidate_sha256" s = NStr sha;
  earned_file : files d !! bundle_path sha = Some (NDict bundle);
  earned_digest : canonical_sha256 (NDict bundle) = sha;
  earned_parent : obj_get "parent_sha256" bundle = obj_get "current_bundle_sha256" s;
  earned_gates : gates_support (policy_skips_regression m || authorized_to_skip sha s)
    (heldout_is_test m) (rows_of (NStr sha) (records gates d)) = Ok tt;
  earned_row : ∃ generation, field "generation" s = Ok generation ∧
    row = promotion_row sha (obj_get "current_bundle_sha256" s) generation now
      (gate_ids (rows_of (NStr sha) (records gates d)));
}.

(** What a row of the episodes ledger is. *)
Definition canonical_episode (d : t) (r : EpisodeRecord) : Prop :=
  ∃ m s, holds_manifest d m ∧ holds_state d s ∧ preregistered m r = Ok tt ∧
    to_json (bundle_sha256 r) = obj_get "current_bundle_sha256" s ∧ status r = valid.

(** What a gate row is: about the active candidate, in the phase of its kind. *)
Definition gate_in_phase (d : t) (x : GateDecision) : Prop :=
  ∃ s, holds_state d s ∧ obj_get "candidate_sha256" s = NStr (candidate_sha256 x) ∧
    phase_of s = Ok (expected_phase (kind x)).

(** [append] raises, finds the row, or adds it. *)
Lemma append_outcome l record (d : t) :
  let '(rows, o) := AppendOnlyLedger.append (ledger_key l) (sorted_object record) (records l d) in
  match o with
  | Raise _ => True
  | Ok false => rows = records l d
  | Ok true => rows = records l d ++ [sorted_object record] ∧
      is_Some (AppendOnlyLedger.identity (ledger_key l) (sorted_object record))
  end.
Proof.
  unfold AppendOnlyLedger.append. destruct (AppendOnlyLedger.identity _ _) as [i|]; [|done].
  unfold mbind, prog_bind, get_state, modify, mret, prog_ret, raise.
  destruct (AppendOnlyLedger.matches _ i (records l d)) as [|row [|]]; [by simpl; eauto| |done].
  by destruct (String.eqb _ _).
Qed.

(** ** Durable effects of a call [c] begun on the disk [d0] *)

Section effects.
Context (c : call) (d0 : t).

Definition justified (l : ledger) (row : json_object) : Prop :=
  match l with
  | episodes => ∃ r, c = RecordEpisode r ∧ row = episode_dict r ∧ canonical_episode d0 r
  | gates => ∃ x text, c = RecordGate x text ∧ row = decision_dict x text ∧ gate_in_phase d0 x
  | promotions => ∃ sha now1 now2, c = Promote sha now1 now2 ∧
      ∃ m s bundle, earned d0 sha now1 row m s bundle
  | _ => True
  end.

(** How a call may change the phase. *)
Definition phase_change (p q : CampaignPhase) : Prop :=
  p = q ∨ q ∈ ALLOWED_TRANSITIONS p ∨
  (p = COMPLETE ∧ q = PROPOSE ∧ records candidate_ledger d0 = [] ∧ records gates d0 = [] ∧
   records promotions d0 = []).

Inductive effect : t → t → Prop :=
  | e_publish d path v : files d !! path = None → path ≠ state_path →
      (path = manifest_path → ∃ m, v = NDict (CampaignManifest.as_dict m) ∧ ∃ now, c = Initialize m now) →
      effect d (set_files (<[path := sort_keys v]> (files d)) d)
  | e_initial d m now : files d !! state_path = None → c = Initialize m now →
      (∃ v, files d !! manifest_path = Some v ∧
         canonical_json_bytes v = canonical_json_bytes (NDict (CampaignManifest.as_dict m))) →
      effect d (set_files (<[state_path := sort_keys (NDict (initial_state m now))]> (files d)) d)
  | e_state d s u : holds_state d0 s → has "manifest_sha256" u = false →
      (∀ p, phase_of s = Ok p → NoDup s.*1 → ∃ q, phase_of (sorted_object (merge s u)) = Ok q ∧ phase_change p q) →
      effect d (set_files (<[state_path := sort_keys (NDict (merge s u))]> (files d)) d)
  | e_append d l record : justified l record → lock_file l ∉ locks d0 →
      is_Some (AppendOnlyLedger.identity (ledger_key l) (sorted_object record)) →
      AppendOnlyLedger.append (ledger_key l) (sorted_object record) (records l d) =
        (records l d ++ [sorted_object record], Ok true) →
      effect d (set_ledgers (<[ledger_file l := records l d ++ [sorted_object record]]> (ledgers d)) d)
  | e_lock d l : lock_file l ∉ locks d → effect d (take_lock l d)
  | e_unlock d l : lock_file l ∉ locks d0 → effect d (drop_lock l d).

#[local] Notation eff := (eff effect).

(** *** Reading *)

Lemma eff_read_object {B} path (k : json_object → op B) q0 (R : B → t → Prop) w :
  rtc effect q0 (disk w) →
  (∀ x, files (disk w) !! path = Some (NDict x) → wp (k x) w (eff q0 R)) →
  wp (read_object path ≫= k) w (eff q0 R).
Proof.
  intros Hs Hk. unfold read_object, mbind, prog_bind, wp, after, result_of. simpl.
  destruct (files (disk w) !! path) as [[| | | | | | |x]|] eqn:E; try (by split). exact (Hk x eq_refl).
Qed.

Lemma eff_manifest {B} (k : CampaignManifest.t → op B) q0 (R : B → t → Prop) w :
  rtc effect q0 (disk w) → (∀ m, holds_manifest (disk w) m → wp (k m) w (eff q0 R)) →
  wp (manifest ≫= k) w (eff q0 R).
Proof.
  intros Hs Hk. unfold manifest. apply wp_assoc. apply eff_read_object; [done|]. intros p Hp.
  apply eff_attempt; [done|]. intros m Hm. apply Hk. by exists p.
Qed.

Lemma eff_reject {B} b msg (k : unit → op B) q0 (R : B → t → Prop) w :
  rtc effect q0 (disk w) → (b = false → wp (k tt) w (eff q0 R)) →
  wp (reject_if b msg ≫= k) w (eff q0 R).
Proof. intros Hs Hk. destruct b; [by split|]. by apply Hk. Qed.

Lemma eff_state {B} (k : json_object → op B) q0 (R : B → t → Prop) w :
  rtc effect q0 (disk w) → (∀ s, holds_state (disk w) s → wp (k s) w (eff q0 R)) →
  wp (state ≫= k) w (eff q0 R).
Proof.
  intros Hs Hk. unfold state. apply wp_assoc. apply eff_read_object; [done|]. intros s Hp.
  apply wp_assoc. apply eff_manifest; [done|]. intros m Hm. apply wp_assoc.
  apply eff_reject; [done|]. intros Hb. apply Hk. split; [done|]. exists m. split; [done|].
  by apply negb_false_iff.
Qed.

(** *** Writing *)

Lemma eff_publish {B} path v (k : string → op B) q0 (R : B → t → Prop) w :
  rtc effect q0 (disk w) → path ≠ state_path →
  (path = manifest_path → ∃ m, v = NDict (CampaignManifest.as_dict m) ∧ ∃ now, c = Initialize m now) →
  (∀ w', rtc effect q0 (disk w') → (∃ e, files (disk w') !! path = Some e ∧
      canonical_json_bytes e = canonical_json_bytes v) →
    (disk w' = disk w ∨ disk w' = set_files (<[path := sort_keys v]> (files (disk w))) (disk w)) →
    wp (k (canonical_sha256 v)) w' (eff q0 R)) →
  wp (atomic_write_json path v false ≫= k) w (eff q0 R).
Proof.
  intros Hs Hp Hm Hk. unfold atomic_write_json. apply wp_assoc, eff_read.
  destruct (files (disk w) !! path) as [e|] eqn:E.
  - destruct (String.eqb_spec (canonical_json_bytes e) (canonical_json_bytes v)); [|by apply eff_throw].
    apply Hk; [done|by exists e|by left].
  - apply wp_assoc. eapply eff_bind; [by apply (eff_durable effect), e_publish|].
    intros [] w' Hs' Hw'. apply Hk; [done| |by right]. rewrite Hw'. exists (sort_keys v). split.
    + apply lookup_insert_eq.
    + unfold canonical_json_bytes. by rewrite sort_keys_idem.
Qed.

(** A call gives back only the locks it took. *)
Lemma locks_kept d : rtc effect d0 d → locks d0 ⊆ locks d.
Proof.
  revert d. refine (rtc_ind_r _ d0 _ _); [done|]. intros d d' _ He IH. destruct He; simpl; set_solver.
Qed.

Lemma eff_append_locked l record q0 w :
  rtc effect q0 (disk w) → justified l record →
  (is_Some (AppendOnlyLedger.identity (ledger_key l) (sorted_object record)) → lock_file l ∉ locks d0) →
  wp (append_locked l record) w (eff q0 (λ _ q, files q = files (disk w))).
Proof.
  intros Hs Hj Hn. unfold append_locked. apply eff_read.
  pose proof (append_outcome l record (disk w)) as Ha.
  destruct (AppendOnlyLedger.append _ _ _) as [rows [[]|e]] eqn:E; [|by apply eff_ret|by apply eff_throw].
  destruct Ha as [-> Hi]. eapply eff_bind; [by apply (eff_durable effect), e_append; auto|].
  intros [] w' Hs' Hw'. apply eff_ret; [done|]. by rewrite Hw'.
Qed.

Lemma eff_append {B} l record (k : bool → op B) (R : B → t → Prop) w :
  rtc effect d0 (disk w) → justified l record →
  (∀ b w', rtc effect d0 (disk w') → files (disk w') = files (disk w) → wp (k b) w' (eff d0 R)) →
  wp (append l record ≫= k) w (eff d0 R).
Proof.
  intros Hs Hj Hk. unfold append. destruct (AppendOnlyLedger.identity _ _) eqn:Hi.
  2: { eapply eff_bind; [apply eff_append_locked; try done; rewrite Hi; by intros [? ?]|]. intros b w' Hs' Hf. by apply Hk. }
  unfold directory_lock, locked. apply wp_assoc, eff_read. case_bool_decide as Hn; [by apply eff_throw|].
  assert (lock_file l ∉ locks d0) as Hn0 by (pose proof (locks_kept _ Hs); set_solver).
  apply wp_assoc. eapply eff_bind; [by apply (eff_durable effect), e_lock|]. intros [] w1 Hs1 Hw1.
  apply (eff_bind effect _ _ d0 (λ _ q, files q = files (disk w))); [|intros b w' Hs' Hf; by apply Hk].
  eapply eff_finally; [by apply eff_append_locked| |].
  - intros d _. by apply e_unlock.
  - intros b d Hf. cbn [files drop_lock set_locks]. by rewrite Hf, Hw1.
Qed.

Lemma eff_write_state {B} s u (k : json_object → op B) q0 (R : B → t → Prop) w :
  rtc effect q0 (disk w) → holds_state d0 s → has "manifest_sha256" u = false →
  (∀ p, phase_of s = Ok p → NoDup s.*1 → ∃ q, phase_of (sorted_object (merge s u)) = Ok q ∧ phase_change p q) →
  (∀ w', rtc effect q0 (disk w') →
    disk w' = set_files (<[state_path := sort_keys (NDict (merge s u))]> (files (disk w))) (disk w) →
    wp (k (merge s u)) w' (eff q0 R)) →
  wp (write_state (merge s u) ≫= k) w (eff q0 R).
Proof.
  intros Hs Hh Hu Hp Hk. unfold write_state, atomic_write_json. apply wp_assoc, wp_assoc, eff_read.
  destruct (files (disk w) !! state_path); apply wp_assoc;
    (eapply eff_bind; [by apply (eff_durable effect), e_state|]); intros [] w' Hs' Hw'; by apply Hk.
Qed.

(** *** The calls *)

#[local] Ltac path_differs := intros E; exfalso; by apply (f_equal (String.get 0)) in E.

#[local] Ltac keeps_phase :=
  intros p Hp Hnd; exists p; split; [by rewrite merge_phase_keep|by left].

Lemma initialize_eff m now w :
  c = Initialize m now → disk w = d0 → wp (initialize m now) w (eff d0 (λ _ _, True)).
Proof.
  intros Hc Hw. assert (rtc effect d0 (disk w)) as Hs0 by by rewrite Hw.
  unfold initialize. apply eff_publish; [done|path_differs|intros _; eauto|].
  intros w1 Hs1 He _. apply eff_read. destruct (files (disk w1) !! state_path) as [v|] eqn:Hst.
  - apply eff_read_object; [done|]. intros s Hf. apply eff_reject; [done|]. intros _. by apply eff_ret.
  - unfold atomic_write_json. apply wp_assoc, eff_read. rewrite Hst. apply wp_assoc.
    eapply eff_bind; [by apply (eff_durable effect); [done|eapply e_initial]|]. intros [] w2 Hs2 _. by apply eff_ret.
Qed.

Lemma transition_eff target updates now w :
  disk w = d0 → wp (transition target updates now) w (eff d0 (λ _ _, True)).
Proof.
  intros Hw. assert (rtc effect d0 (disk w)) as Hs0 by by rewrite Hw.
  unfold transition. apply eff_state; [done|]. intros s Hst.
  apply eff_attempt; [done|]. intros source Hsrc. apply eff_reject; [done|].
  intros Hal%negb_false_iff%bool_decide_eq_true. apply eff_reject; [done|]. intros [Hph Hma]%orb_false_iff.
  rewrite merge_app. apply wp_ret_r, eff_write_state; [done|by rewrite <- Hw| | |by intros; apply eff_ret].
  - rewrite has_false in *. by apply lookup_app_None.
  - intros p Hp Hnd. rewrite Hsrc in Hp. simplify_eq. exists target. split; [|by right; left].
    apply merge_phase_set; [done|]. by rewrite reverse_app.
Qed.

Lemma update_state_eff updates now w :
  disk w = d0 → wp (update_state updates now) w (eff d0 (λ _ _, True)).
Proof.
  intros Hw. assert (rtc effect d0 (disk w)) as Hs0 by by rewrite Hw.
  unfold update_state. apply eff_reject; [done|]. intros [Hph Hma]%orb_false_iff.
  apply eff_state; [done|]. intros s Hst. rewrite merge_app.
  apply wp_ret_r, eff_write_state; [done|by rewrite <- Hw| | |by intros; apply eff_ret].
  - rewrite has_false in *. by apply lookup_app_None.
  - intros p Hp Hnd. exists p. split; [|by left]. rewrite merge_phase_keep; [done..|].
    rewrite has_false in *. by apply lookup_app_None.
Qed.

Lemma reopen_eff a x y rate skip now w :
  disk w = d0 →
  wp (reopen_completed_provisional_hypothesis a x y rate skip now) w (eff d0 (λ _ _, True)).
Proof.
  intros Hw. assert (rtc effect d0 (disk w)) as Hs0 by by rewrite Hw.
  unfold reopen_completed_provisional_hypothesis. apply eff_state; [done|]. intros s Hst.
  apply eff_attempt; [done|]. intros phase Hphase. apply eff_reject; [done|].
  intros ->%negb_false_iff%bool_decide_eq_true. do 2 (apply eff_reject; [done|]; intros _).
  apply eff_read, eff_reject; [done|]. intros Hn%negb_false_iff. rewrite !andb_true_iff, !bool_decide_eq_true in Hn.
  do 3 (apply eff_reject; [done|]; intros _).
  apply wp_ret_r, eff_write_state; [done|by rewrite <- Hw|done| |by intros; apply eff_ret].
  intros p Hp Hnd. rewrite Hphase in Hp. simplify_eq. exists PROPOSE. split; [by apply merge_phase_set|].
  right; right. rewrite Hw in Hn. by destruct Hn as [[? ?] ?].
Qed.

Lemma timebox_eff a x now w :
  disk w = d0 → wp (transition_timeboxed_same_seed_to_heldout a x now) w (eff d0 (λ _ _, True)).
Proof.
  intros Hw. assert (rtc effect d0 (disk w)) as Hs0 by by rewrite Hw.
  unfold transition_timeboxed_same_seed_to_heldout. apply eff_state; [done|]. intros s Hst.
  apply eff_attempt; [done|]. intros phase Hphase. apply eff_reject; [done|].
  intros ->%negb_false_iff%bool_decide_eq_true. do 2 (apply eff_reject; [done|]; intros _).
  apply wp_ret_r, eff_write_state; [done|by rewrite <- Hw|done| |by intros; apply eff_ret].
  intros p Hp Hnd. rewrite Hphase in Hp. simplify_eq. exists HELDOUT_GATE. split; [by apply merge_phase_set|].
  right; left. simpl. by repeat (first [left|right]).
Qed.

Lemma record_episode_eff r w :
  c = RecordEpisode r → disk w = d0 → wp (record_episode r) w (eff d0 (λ _ _, True)).
Proof.
  intros Hcall Hw. assert (rtc effect d0 (disk w)) as Hs0 by by rewrite Hw.
  unfold record_episode. apply eff_manifest; [done|]. intros m Hm.
  apply eff_attempt; [done|]. intros [] Hpre. apply eff_state; [done|]. intros s Hst.
  apply eff_reject; [done|]. intros Hb%negb_false_iff%bool_decide_eq_true.
  apply eff_publish; [done|path_differs|path_differs|]. intros w1 Hs1 _ _.
  apply eff_append; [done|done|]. intros _ w2 Hs2 _.
  destruct (bool_decide (status r = infra_invalid)) eqn:Hv; [by apply eff_ret|].
  apply eff_publish; [done|path_differs|path_differs|]. intros w3 Hs3 _ _.
  apply wp_ret_r, eff_append; [done| |by intros; apply eff_ret]. exists r. split; [done|]. split; [done|].
  exists m, s. rewrite <- Hw. split_and!; try done.
  apply bool_decide_eq_false in Hv. by destruct (status r).
Qed.

Lemma register_candidate_eff x now w :
  disk w = d0 → wp (register_candidate x now) w (eff d0 (λ _ _, True)).
Proof.
  intros Hw. assert (rtc effect d0 (disk w)) as Hs0 by by rewrite Hw.
  unfold register_candidate. apply eff_state; [done|]. intros s Hst.
  apply eff_attempt; [done|]. intros phase Hphase. apply eff_reject; [done|]. intros _.
  apply eff_reject; [done|]. intros _. cbn zeta.
  apply eff_publish; [done|path_differs|path_differs|]. intros w1 Hs1 _ _.
  apply eff_append; [done|done|]. intros _ w2 Hs2 _.
  apply eff_write_state; [done|by rewrite <- Hw|done|keeps_phase|]. intros; by apply eff_ret.
Qed.

Lemma recover_candidate_eff sha now w :
  disk w = d0 → wp (recover_registered_candidate sha now) w (eff d0 (λ _ _, True)).
Proof.
  intros Hw. assert (rtc effect d0 (disk w)) as Hs0 by by rewrite Hw.
  unfold recover_registered_candidate. apply eff_state; [done|]. intros s Hst.
  apply eff_attempt; [done|]. intros phase Hphase. apply eff_reject; [done|]. intros _.
  apply eff_read. cbn zeta. apply eff_reject; [done|]. intros _.
  apply eff_read_object; [done|]. intros b Hb. apply eff_reject; [done|]. intros _.
  apply eff_attempt; [done|]. intros x Hx. apply eff_reject; [done|]. intros _. apply eff_reject; [done|]. intros _.
  apply wp_ret_r, eff_write_state; [done|by rewrite <- Hw|done|keeps_phase|by intros; apply eff_ret].
Qed.

Lemma register_diagnosis_eff x w :
  disk w = d0 → wp (register_diagnosis x) w (eff d0 (λ _ _, True)).
Proof.
  intros Hw. assert (rtc effect d0 (disk w)) as Hs0 by by rewrite Hw.
  unfold register_diagnosis. apply eff_state; [done|]. intros s Hst.
  apply eff_attempt; [done|]. intros phase Hphase. apply eff_reject; [done|]. intros _.
  apply eff_publish; [done|path_differs|path_differs|]. intros w1 Hs1 _ _.
  apply wp_ret_r, eff_append; [done..|]. by intros; apply eff_ret.
Qed.

Lemma record_gate_eff x text w :
  c = RecordGate x text → disk w = d0 → wp (record_gate x text) w (eff d0 (λ _ _, True)).
Proof.
  intros Hcall Hw. assert (rtc effect d0 (disk w)) as Hs0 by by rewrite Hw.
  unfold record_gate. apply eff_state; [done|]. intros s Hst. apply eff_reject; [done|].
  intros Hc%negb_false_iff%bool_decide_eq_true. apply eff_attempt; [done|]. intros phase Hphase.
  apply eff_reject; [done|]. intros ->%negb_false_iff%bool_decide_eq_true.
  apply wp_ret_r, eff_append; [done| |by intros; apply eff_ret]. exists x, text.
  split; [done|]. split; [done|]. exists s. by rewrite <- Hw.
Qed.

Lemma promote_eff sha now1 now2 w :
  c = Promote sha now1 now2 → disk w = d0 → wp (promote sha now1 now2) w (eff d0 (λ _ _, True)).
Proof.
  intros Hc Hw. assert (rtc effect d0 (disk w)) as Hs0 by by rewrite Hw.
  unfold promote. apply eff_state; [done|]. intros s Hst.
  apply eff_attempt; [done|]. intros phase Hphase. apply eff_reject; [done|].
  intros ->%negb_false_iff%bool_decide_eq_true. apply eff_manifest; [done|]. intros m Hm.
  apply eff_reject; [done|]. intros Hscope%bool_decide_eq_false. apply eff_reject; [done|].
  intros Hcand%negb_false_iff%bool_decide_eq_true. apply eff_read_object; [done|]. intros b Hb.
  apply eff_reject; [done|]. intros Hdig%negb_false_iff%String.eqb_eq. cbn zeta. apply eff_reject; [done|].
  intros Hpar%negb_false_iff%bool_decide_eq_true. apply eff_read. apply eff_attempt; [done|]. intros [] Hg.
  apply eff_attempt; [done|]. intros generation Hgen.
  apply eff_append; [done| |].
  { exists sha, now1, now2. split; [done|]. exists m, s, b. rewrite <- Hw. split; eauto. }
  intros _ w2 Hs2 _. apply eff_write_state; [done|by rewrite <- Hw|done|keeps_phase|]. intros w3 Hs3 _.
  apply eff_publish; [done|path_differs|path_differs|]. intros w4 Hs4 _ _. by apply eff_ret.
Qed.

Lemma perform_eff b : wp (perform c) (World d0 b) (eff d0 (λ _ _, True)).
Proof.
  assert (Hk : ∀ {A} (m : op A) (f : A → answer), perform c = (m ≫= λ a, mret (f a)) →
    wp m (World d0 b) (eff d0 (λ _ _, True)) → wp (perform c) (World d0 b) (eff d0 (λ _ _, True))).
  { intros A m f -> Hm. eapply eff_bind; [exact Hm|]. intros. by apply eff_ret. }
  destruct c eqn:Hc; cbn [perform] in Hk; (eapply Hk; [reflexivity|]).
  - by apply initialize_eff.
  - by apply transition_eff.
  - by apply update_state_eff.
  - by apply reopen_eff.
  - by apply timebox_eff.
  - by apply record_episode_eff.
  - by apply register_candidate_eff.
  - by apply recover_candidate_eff.
  - by apply register_diagnosis_eff.
  - by apply record_gate_eff.
  - apply wp_ret_r, eff_append; [done..|]. by intros; apply eff_ret.
  - by apply promote_eff.
Qed.
End effects.

(** ** What every run preserves *)

Lemma exec_effects c d b : rtc (effect c d) d (exec d b c).
Proof. destruct (perform_eff c d b) as [H _]. exact H. Qed.

Lemma ledger_file_inj l l' : ledger_file l = ledger_file l' → l = l'.
Proof. by destruct l, l'. Qed.

Lemma records_set_ledgers l l' rows d :
  records l (set_ledgers (<[ledger_file l' := rows]> (ledgers d)) d) =
    if decide (l = l') then rows else records l d.
Proof.
  unfold records. simpl. case_decide as E; [by rewrite E, lookup_insert_eq|].
  rewrite lookup_insert_ne; [done|]. intros H. by apply E, ledger_file_inj.
Qed.

(** Files written once stay, rows stay in their places. *)
Definition extends (d d' : t) : Prop :=
  (∀ path v, path ≠ state_path → files d !! path = Some v → files d' !! path = Some v) ∧
  (∀ l, records l d `prefix_of` records l d').

#[export] Instance extends_preorder : PreOrder extends.
Proof.
  split; [intros d; split; [done|intros l; reflexivity]|]. intros d1 d2 d3 [F1 L1] [F2 L2]. split; [auto|].
  intros l. exact (PreOrder_Transitive _ _ _ (L1 l) (L2 l)).
Qed.

Lemma effect_extends c d0 d d' : effect c d0 d d' → extends d d'.
Proof.
  intros He. destruct He as [d path v Hn Hp _|d m now _ _ _|d s u _ _ _|d l record _ _ _ _|d l _|d l _]; split; simpl; try done.
  - intros path' v' _ H. rewrite lookup_insert_ne; [done|]. congruence.
  - intros path' v' H1 H2. by rewrite lookup_insert_ne.
  - intros path' v' H1 H2. by rewrite lookup_insert_ne.
  - intros l'. rewrite records_set_ledgers. case_decide as E; [|done]. rewrite E. by eexists.
Qed.

Lemma effects_extend c d0 d d' : rtc (effect c d0) d d' → extends d d'.
Proof. apply (rtc_monotone (effect c d0) extends). apply effect_extends. Qed.

Lemma exec_extends c d b : extends d (exec d b c).
Proof. eapply effects_extend, exec_effects. Qed.

(** A lock that is held when a call begins stays, and its ledger stays as it is. *)
Lemma exec_locked c d b l :
  lock_file l ∈ locks d → lock_file l ∈ locks (exec d b c) ∧ records l (exec d b c) = records l d.
Proof.
  intros Hl. split; [exact (locks_kept c d _ (exec_effects c d b) _ Hl)|].
  generalize (exec_effects c d b). generalize (exec d b c) as d'. intros d' H. revert d' H.
  refine (rtc_ind_r _ d _ _); [done|]. intros d1 d2 _ He IH.
  destruct He as [d1 path v _ _ _|d1 m now _ _ _|d1 s u _ _ _|d1 l' record _ Hn _ _|d1 l' _|d1 l' _]; try exact IH.
  rewrite records_set_ledgers. case_decide as E; [congruence|exact IH].
Qed.

Lemma run_locked cs d l :
  lock_file l ∈ locks d → lock_file l ∈ locks (run cs d) ∧ records l (run cs d) = records l d.
Proof.
  revert d. induction cs as [|[c b] cs IH]; intros d Hl; [done|]. simpl.
  destruct (exec_locked c d b l Hl) as [Hl' Hr]. destruct (IH _ Hl') as [? ->]. done.
Qed.

Lemma run_extends cs d : extends d (run cs d).
Proof.
  revert d. induction cs as [|[c b] cs IH]; intros d; [done|]. simpl. etrans; [apply exec_extends|apply IH].
Qed.

Lemma run_app cs1 cs2 d : run (cs1 ++ cs2) d = run cs2 (run cs1 d).
Proof. apply foldl_app. Qed.

Lemma extends_manifest d d' m : extends d d' → holds_manifest d m → holds_manifest d' m.
Proof. intros [Hf _] (p & Hp & Hm). exists p. split; [by apply Hf|done]. Qed.

(** Every new row of a ledger was justified on the disk its call began on. *)
Lemma effects_justify c d0 d l row :
  rtc (effect c d0) d0 d → row ∈ records l d →
  row ∈ records l d0 ∨ ∃ record, row = sorted_object record ∧ justified c d0 l record.
Proof.
  intros H. revert d H. refine (rtc_ind_r _ d0 _ _); [by left|]. intros d d' _ He IH Hrow.
  destruct He as [d path v Hn Hp _|d m now _ _ _|d s u _ _ _|d l' record Hj _ _ _|d l' _|d l' _]; auto.
  rewrite records_set_ledgers in Hrow. case_decide as E; [|auto]. subst l'.
  apply elem_of_app in Hrow as [?| ->%list_elem_of_singleton]; eauto.
Qed.

(** A row of the final ledger was added by one call of the run. *)
Lemma run_justifies cs l row :
  row ∈ records l (run cs init) →
  ∃ cs1 c b cs2 record, cs = cs1 ++ (c, b) :: cs2 ∧ row = sorted_object record ∧
    justified c (run cs1 init) l record.
Proof.
  induction cs as [|[c b] cs IH] using rev_ind; [by intros ?%elem_of_nil|]. rewrite run_app. simpl. intros Hrow.
  destruct (effects_justify c (run cs init) (exec (run cs init) b c) l row (exec_effects _ _ _) Hrow)
    as [H|(record & -> & Hj)].
  - destruct (IH H) as (cs1 & c1 & b1 & cs2 & record & -> & -> & Hj).
    exists cs1, c1, b1, (cs2 ++ [(c, b)]), record. by rewrite <- app_assoc.
  - exists cs, c, b, [], record. done.
Qed.

Definition ledgers_wf (d : t) : Prop := ∀ l, AppendOnlyLedger.wf (ledger_key l) (records l d).

Lemma effect_ledgers_wf c d0 d d' : effect c d0 d d' → ledgers_wf d → ledgers_wf d'.
Proof.
  intros He Hwf l. destruct He as [d path v Hn Hp _|d m now _ _ _|d s u _ _ _|d l' record Hj _ Hi Ha|d l' _|d l' _]; try apply Hwf.
  rewrite records_set_ledgers. case_decide as E; [|apply Hwf]. subst l'.
  pose proof (AppendOnlyLedger.append_preserves_wf (ledger_key l) (sorted_object record) (records l d) (Hwf l)) as H.
  unfold after in H. by rewrite Ha in H.
Qed.

Lemma run_ledgers_wf cs : ledgers_wf (run cs init).
Proof.
  induction cs as [|[c b] cs IH] using rev_ind.
  { intros l. split; [by intros row ?%elem_of_nil|constructor]. }
  rewrite run_app. simpl. eapply (rtc_invariant (effect c (run cs init)) ledgers_wf); [|apply exec_effects|done].
  intros x y Hx Hxy. by eapply effect_ledgers_wf.
Qed.

(** ** The phase *)

Definition state_wf (d : t) : Prop :=
  ∀ v, files d !! state_path = Some v → ∃ s p, v = NDict s ∧ NoDup s.*1 ∧ phase_of s = Ok p.

Lemma sorted_object_NoDup d : NoDup d.*1 → NoDup (sorted_object d).*1.
Proof. by rewrite sorted_object_keys. Qed.

Lemma initial_state_phase m now : phase_of (sorted_object (initial_state m now)) = Ok ROLLOUT.
Proof. rewrite phase_of_sorted by (apply (bool_decide_unpack _); vm_compute; exact I). done. Qed.

(** What the state file holds after some effects of a call. *)
Lemma effects_state c d0 d :
  state_wf d0 → rtc (effect c d0) d0 d →
  files d !! state_path = files d0 !! state_path ∨
  (∃ s, files d !! state_path = Some (NDict s) ∧ NoDup s.*1 ∧
    ((files d0 !! state_path = None ∧ phase_of s = Ok ROLLOUT) ∨
     ∃ s0 p q, holds_state d0 s0 ∧ phase_of s0 = Ok p ∧ phase_of s = Ok q ∧ phase_change d0 p q)).
Proof.
  intros Hwf H. revert d H. refine (rtc_ind_r _ d0 _ _); [by left|]. intros d d' _ He IH.
  destruct He as [d path v Hn Hp _|d m now Hst _ _|d s u Hst _ Hph|d l record _ _ _ _|d l _|d l _]; simpl; [| | |exact IH..].
  - by rewrite lookup_insert_ne.
  - right. exists (sorted_object (initial_state m now)). split; [apply lookup_insert_eq|]. split.
    + apply sorted_object_NoDup, (bool_decide_unpack _). vm_compute. exact I.
    + left. split; [|apply initial_state_phase]. destruct IH as [<-|(s & Hs & _)]; [done|congruence].
  - right. exists (sorted_object (merge s u)). split; [apply lookup_insert_eq|].
    destruct Hst as [Hf Hb]. destruct (Hwf _ Hf) as (s' & p & [= <-] & Hnd & Hp). split.
    + by apply sorted_object_NoDup, merge_NoDup.
    + right. destruct (Hph p Hp Hnd) as (q & Hq & Hpq). by exists s, p, q.
Qed.

Lemma exec_state_wf c d b : state_wf d → state_wf (exec d b c).
Proof.
  intros Hwf v Hv. destruct (effects_state c d _ Hwf (exec_effects c d b)) as [E|(s & Hs & Hnd & Hp)].
  - apply Hwf. by rewrite <- E.
  - rewrite Hv in Hs. injection Hs as ->. exists s. destruct Hp as [[_ Hp]|(s0 & p & q & _ & _ & Hq & _)]; eauto.
Qed.

Lemma run_state_wf cs d : state_wf d → state_wf (run cs d).
Proof. revert d. induction cs as [|[c b] cs IH]; intros d Hd; [done|]. simpl. by apply IH, exec_state_wf. Qed.

Lemma init_state_wf : state_wf init.
Proof. intros v H. simpl in H. by rewrite lookup_empty in H. Qed.

Lemma exec_phase c d b p :
  state_wf d → phase_at d p → ∃ q, phase_at (exec d b c) q ∧ phase_change d p q.
Proof.
  intros Hwf (s & Hs & Hp).
  destruct (effects_state c d _ Hwf (exec_effects c d b)) as [E|(s' & Hs' & _ & [[E _]|(s0 & p0 & q & H0 & Hp0 & Hq & Hc)])].
  - exists p. split; [exists s; by rewrite E|by left].
  - congruence.
  - destruct H0 as [H0 _]. rewrite Hs in H0. injection H0 as ->. assert (p0 = p) as -> by congruence.
    exists q. split; [by exists s'|done].
Qed.

Lemma phase_at_unique d p q : phase_at d p → phase_at d q → p = q.
Proof. intros (s & Hs & Hp) (s' & Hs' & Hq). congruence. Qed.

(** ** Rows *)

(** A row about a candidate that passed a gate. *)
Definition passed_gate (sha kind : string) (rows : AppendOnlyLedger.t) : Prop :=
  ∃ row, row ∈ rows ∧ obj_get "candidate_sha256" row = NStr sha ∧ obj_get "kind" row = NStr kind ∧
    truth (obj_get "passed" row) = true.

Lemma elem_of_kinds k rows :
  k ∈ kinds_of (passed_rows rows) ↔ ∃ row, row ∈ rows ∧ obj_get "kind" row = k ∧ truth (obj_get "passed" row) = true.
Proof.
  unfold kinds_of, passed_rows. rewrite list_elem_of_fmap. split.
  - intros (row & -> & [H1 H2]%elem_of_bfilter). eauto.
  - intros (row & H1 & <- & H2). exists row. split; [done|]. by apply elem_of_bfilter.
Qed.

Lemma intersects_spec xs ys : intersects xs ys = true ↔ ∃ x, x ∈ xs ∧ x ∈ ys.
Proof.
  unfold intersects. rewrite existsb_exists. setoid_rewrite <- list_elem_of_In.
  unfold member. by setoid_rewrite bool_decide_eq_true.
Qed.

(** What [promote] finds in the ledger, in words. *)
Lemma gates_support_spec skip test sha rows :
  gates_support skip test (rows_of (NStr sha) rows) = Ok tt →
  passed_gate sha "same_seed" rows ∧
  (skip = false → passed_gate sha "regression" rows) ∧
  (test = false → ∃ k, k ∈ ["heldout_10"; "heldout_20"; "heldout_50"] ∧ passed_gate sha k rows) ∧
  (test = true → ∀ row k, row ∈ rows → obj_get "candidate_sha256" row = NStr sha →
     obj_get "kind" row = NStr k → k ∉ ["heldout_10"; "heldout_20"; "heldout_50"]).
Proof.
  assert (Hrow : ∀ k, NStr k ∈ kinds_of (passed_rows (rows_of (NStr sha) rows)) → passed_gate sha k rows).
  { intros k (row & [Hs%bool_decide_eq_true Hr]%elem_of_bfilter & Hk & Hp)%elem_of_kinds. by exists row. }
  intros H%requires_ok. rewrite !Forall_cons in H. destruct H as (H1 & H2 & H3 & _). cbn [fst] in *.
  assert (Hreq : ∀ k, k ∈ (if skip then [NStr "same_seed"] else [NStr "same_seed"; NStr "regression"]) →
    k ∈ kinds_of (passed_rows (rows_of (NStr sha) rows))).
  { intros k Hk. rewrite forallb_forall in H1. apply list_elem_of_In, H1, bool_decide_eq_true in Hk. done. }
  split_and!.
  - apply Hrow, Hreq. destruct skip; by left.
  - intros ->. apply Hrow, Hreq. right. by left.
  - intros ->. apply intersects_spec in H3 as (k & Hk & Hin).
    unfold heldout_kinds in Hk. rewrite !elem_of_cons, elem_of_nil in Hk.
    destruct Hk as [-> |[-> |[-> |[]]]]; eexists; (split; [|by apply Hrow]); set_solver.
  - intros -> row k Hr Hs Hk Hin. rewrite andb_true_l in H2. apply negb_true_iff in H2.
    assert (intersects (kinds_of (rows_of (NStr sha) rows)) heldout_kinds = true); [|congruence].
    apply intersects_spec. exists (NStr k). split.
    + unfold kinds_of. rewrite <- Hk. apply list_elem_of_fmap_2, elem_of_bfilter. by rewrite bool_decide_eq_true.
    + rewrite !elem_of_cons, elem_of_nil in Hin. unfold heldout_kinds.
      destruct Hin as [-> |[-> |[-> |[]]]]; set_solver.
Qed.

Lemma passed_gate_extends sha k d d' :
  extends d d' → passed_gate sha k (records gates d) → passed_gate sha k (records gates d').
Proof.
  intros [_ Hl] (row & Hr & H). exists row. split; [|done]. destruct (Hl gates) as [rest ->].
  apply elem_of_app. by left.
Qed.

(** ** Calls interrupted by a crash *)

(** What the rest of a call leaves alone before its last write. *)
Definition keeps (d d' : t) : Prop := extends d d' ∧ files d' !! state_path = files d !! state_path.

#[export] Instance keeps_preorder : PreOrder keeps.
Proof.
  split; [by intros d|]. intros d1 d2 d3 [H1 E1] [H2 E2]. split; [by etrans|congruence].
Qed.

#[local] Notation resumes := (resumes locks keeps ledgers_wf).
#[local] Notation settles := (settles locks keeps ledgers_wf).
#[local] Notation once := (once locks).

(** *** An append, by the effects its process lives to make *)

Lemma drop_take l d : lock_file l ∉ locks d → drop_lock l (take_lock l d) = d.
Proof.
  intros Hn. destruct d as [f g k]. unfold drop_lock, take_lock, set_locks. simpl in *. f_equal.
  apply leibniz_equiv. set_solver.
Qed.

Lemma locked_false l d : locked l d = false ↔ lock_file l ∉ locks d.
Proof. unfold locked. apply bool_decide_eq_false. Qed.

Definition row_added (l : ledger) (record : json_object) (d : t) : t :=
  set_ledgers (<[ledger_file l := records l d ++ [sorted_object record]]> (ledgers d)) d.

Lemma append_run l record d b :
  is_Some (AppendOnlyLedger.identity (ledger_key l) (sorted_object record)) →
  append l record (World d b) =
    if locked l d then (World d b, Raise (Exn (lock_timeout l))) else
    match b, (AppendOnlyLedger.append (ledger_key l) (sorted_object record) (records l d)).2 with
    | 0, _ => (World d 0, Raise Crash)
    | 1, _ => (World (take_lock l d) 0, Raise Crash)
    | 2, Ok true => (World (take_lock l (row_added l record d)) 0, Raise Crash)
    | S (S (S b)), Ok true => (World (row_added l record d) b, Ok true)
    | S (S b), Ok false => (World d b, Ok false)
    | S (S b), Raise e => (World d b, Raise (Exn (ledger_error e)))
    end%nat.
Proof.
  intros [i Hi]. unfold append. rewrite Hi. unfold directory_lock, append_locked, finally, mbind, prog_bind.
  cbn [read_disk disk]. destruct (locked l d) eqn:El; [done|]. apply locked_false in El.
  destruct b as [|b]; [done|]. cbn [durable budget disk]. change (records l (take_lock l d)) with (records l d).
  pose proof (append_outcome l record d) as Ha.
  destruct (AppendOnlyLedger.append _ _ _) as [rows [[]|e]]; cbn [snd]; [destruct Ha as [-> _]| |].
  - destruct b as [|[|b]]; [done|done|]. cbn. do 2 f_equal.
    exact (drop_take l (row_added l record d) El).
  - destruct b as [|b]; [done|]. cbn. rewrite drop_take by done. by destruct b.
  - destruct b as [|b]; [done|]. cbn. rewrite drop_take by done. by destruct b.
Qed.

Lemma append_refused l record w :
  AppendOnlyLedger.identity (ledger_key l) (sorted_object record) = None →
  ∃ e, append l record w = (w, Raise (Exn e)).
Proof.
  intros Hi. unfold append. rewrite Hi. unfold append_locked, mbind, prog_bind, AppendOnlyLedger.append. cbn [read_disk].
  rewrite Hi. by eexists.
Qed.

Lemma uniform_read_object path : uniform (read_object path).
Proof.
  intros d b. unfold read_object, mbind, prog_bind. simpl.
  by destruct (files d !! path) as [[]|].
Qed.
Lemma uniform_reject b msg : uniform (reject_if b msg).
Proof. by destruct b. Qed.
Lemma uniform_manifest : uniform manifest.
Proof. apply uniform_bind; [apply uniform_read_object|]. intros p. apply uniform_attempt. Qed.
Lemma uniform_state : uniform state.
Proof.
  apply uniform_bind; [apply uniform_read_object|]. intros s.
  apply uniform_bind; [apply uniform_manifest|]. intros m.
  apply uniform_bind; [apply uniform_reject|]. intros []. apply uniform_ret.
Qed.
Lemma uniform_write path v o : uniform (atomic_write_json path v o).
Proof.
  apply uniform_bind; [apply uniform_read|]. intros d. 
  destruct (files d !! path) as [x|], o; try (apply uniform_bind; [apply uniform_durable|]; intros; apply uniform_ret).
  destruct (String.eqb _ _); [apply uniform_ret|apply uniform_throw].
Qed.
Lemma uniform_append_locked l record : uniform (append_locked l record).
Proof.
  apply uniform_bind; [apply uniform_read|]. intros d. destruct (AppendOnlyLedger.append _ _ _) as [rows [[]|e]].
  - apply uniform_bind; [apply uniform_durable|]. intros; apply uniform_ret.
  - apply uniform_ret.
  - apply uniform_throw.
Qed.
Lemma uniform_append l record : uniform (append l record).
Proof.
  unfold append. destruct (AppendOnlyLedger.identity _ _); [|apply uniform_append_locked].
  apply uniform_bind; [apply uniform_read|]. intros d. destruct (locked l d); [apply uniform_throw|].
  apply uniform_bind; [apply uniform_durable|]. intros [].
  apply uniform_finally; [apply uniform_append_locked|apply uniform_durable].
Qed.

Lemma quiet_read_object path : quiet (read_object path).
Proof. intros [d b]. unfold read_object, mbind, prog_bind. simpl. by destruct (files d !! path) as [[]|]. Qed.
Lemma quiet_reject b msg : quiet (reject_if b msg).
Proof. by destruct b. Qed.
Lemma quiet_manifest : quiet manifest.
Proof. apply quiet_bind; [apply quiet_read_object|]. intros. apply quiet_attempt. Qed.
Lemma quiet_state : quiet state.
Proof.
  apply quiet_bind; [apply quiet_read_object|]. intros s. apply quiet_bind; [apply quiet_manifest|]. intros m.
  apply quiet_bind; [apply quiet_reject|]. by intros [].
Qed.

#[local] Hint Resolve quiet_read_object quiet_reject quiet_manifest quiet_state quiet_attempt quiet_read : quiet.

(** *** One write, one append *)

Lemma write_once path v o : once (atomic_write_json path v o).
Proof.
  intros d b d' b1 E _. revert E. unfold atomic_write_json, mbind, prog_bind. simpl.
  destruct (files d !! path) as [x|], o, b; simpl; try done; try (by intros [= <- <-]); by case_match.
Qed.

Lemma take_lock_changes l d d' : lock_file l ∉ locks d → locks d' = locks d → locks (take_lock l d') ≠ locks d.
Proof. intros Hn El E. apply Hn. rewrite <- E. simpl. set_solver. Qed.

Lemma append_once l record : once (append l record).
Proof.
  intros d b d' b1 E Hl. destruct (AppendOnlyLedger.identity (ledger_key l) (sorted_object record)) as [i|] eqn:Hi.
  - rewrite append_run in E by eauto. destruct (locked l d) eqn:Elk; [done|]. apply locked_false in Elk.
    destruct (AppendOnlyLedger.append _ _ _).2 as [[]|e], b as [|[|[|b]]]; try done;
      injection E as <- _; try done;
      [|destruct (take_lock_changes l (row_added l record d) d Elk eq_refl Hl)|..];
      by destruct (take_lock_changes l d d Elk eq_refl Hl).
  - by destruct (append_refused l record (World d b) Hi) as [e He]; rewrite He in E.
Qed.

(** Reads see what they saw. *)
Lemma read_object_ok path d b w x :
  read_object path (World d b) = (w, Ok x) ↔ w = World d b ∧ files d !! path = Some (NDict x).
Proof.
  unfold read_object, mbind, prog_bind. simpl.
  destruct (files d !! path) as [[]|]; (split; [by intros [= <- <-]|by intros [-> [= <-]]]).
Qed.

Lemma keeps_file path d d' v : keeps d d' → files d !! path = Some v → files d' !! path = Some v.
Proof.
  intros [[Hf _] Hs] H. destruct (decide (path = state_path)) as [->|Hne]; [by rewrite Hs|by apply Hf].
Qed.

(** A part that only reads and settles. *)
Definition stable {A} (m : op A) : Prop := ∀ d d2 b b2 a,
  keeps d d2 → m (World d b) = (World d b, Ok a) → m (World d2 b2) = (World d2 b2, Ok a).

Lemma stable_bind {A B} (m : op A) (k : A → op B) :
  quiet m → stable m → (∀ a, stable (k a)) → stable (m ≫= k).
Proof.
  intros Hq Hm Hk d d2 b b2 x He. unfold mbind, prog_bind. pose proof (Hq (World d b)) as [E0 _].
  destruct (m (World d b)) as [w [a|e]] eqn:Em; [|done]. simpl in E0. subst w.
  rewrite (Hm d d2 b b2 a He Em). by apply Hk.
Qed.
Lemma stable_attempt {A} (o : outcome campaign_error A) : stable (attempt o).
Proof. intros d d2 b b2 a _. destruct o; [|done]. by intros [= ->]. Qed.
Lemma stable_reject b msg : stable (reject_if b msg).
Proof. destruct b; [done|]. apply (stable_attempt (Ok tt)). Qed.
Lemma stable_read path : stable (read_object path).
Proof.
  intros d d2 b b2 a He [_ Hf]%read_object_ok. apply read_object_ok. split; [done|]. by eapply keeps_file.
Qed.
Lemma stable_manifest : stable manifest.
Proof. apply stable_bind; [apply quiet_read_object|apply stable_read|]. intros p. apply stable_attempt. Qed.
Lemma stable_state : stable state.
Proof.
  apply stable_bind; [apply quiet_read_object|apply stable_read|]. intros s.
  apply stable_bind; [apply quiet_manifest|apply stable_manifest|]. intros m.
  apply stable_bind; [apply quiet_reject|apply stable_reject|]. intros []. apply (stable_attempt (Ok s)).
Qed.

(** Continue a call after a part that reads. *)
Lemma then_stable {A B} (m : op A) (k k' : A → op B) :
  uniform m → quiet m → stable m → (∀ a, uniform (k' a)) → (∀ a, resumes (k a) (k' a)) →
  resumes (m ≫= k) (m ≫= k').
Proof.
  intros Hu Hq Hs Hu' Hk. apply (resumes_bind locks keeps ledgers_wf m k k' eq); try done.
  - by apply resumes_quiet; [apply _|].
  - apply settles_quiet; [apply _|done|]. intros d d2 b b2 a. apply Hs.
  - by intros a a' ->.
Qed.
Lemma then_state {B} (k k' : json_object → op B) :
  (∀ s, uniform (k' s)) → (∀ s, resumes (k s) (k' s)) → resumes (state ≫= k) (state ≫= k').
Proof. apply then_stable; [apply uniform_state|apply quiet_state|apply stable_state]. Qed.
Lemma then_manifest {B} (k k' : CampaignManifest.t → op B) :
  (∀ m, uniform (k' m)) → (∀ m, resumes (k m) (k' m)) → resumes (manifest ≫= k) (manifest ≫= k').
Proof. apply then_stable; [apply uniform_manifest|apply quiet_manifest|apply stable_manifest]. Qed.
Lemma then_reject {B} b msg (k k' : unit → op B) :
  (∀ u, uniform (k' u)) → (∀ u, resumes (k u) (k' u)) → resumes (reject_if b msg ≫= k) (reject_if b msg ≫= k').
Proof. apply then_stable; [apply uniform_reject|apply quiet_reject|apply stable_reject]. Qed.
Lemma then_attempt {A B} (o : outcome campaign_error A) (k k' : A → op B) :
  (∀ a, uniform (k' a)) → (∀ a, resumes (k a) (k' a)) → resumes (attempt o ≫= k) (attempt o ≫= k').
Proof. apply then_stable; [apply uniform_attempt|apply quiet_attempt|apply stable_attempt]. Qed.

(** A published file answers the next writer alike. *)
Lemma publish_found path v d b e :
  files d !! path = Some e → canonical_json_bytes e = canonical_json_bytes v →
  atomic_write_json path v false (World d b) = (World d b, Ok (canonical_sha256 v)).
Proof.
  intros He Hb. unfold atomic_write_json, mbind, prog_bind. simpl. rewrite He, Hb. by rewrite String.eqb_refl.
Qed.

Lemma publish_ends path v d b d1 b1 a :
  atomic_write_json path v false (World d b) = (World d1 b1, Ok a) →
  a = canonical_sha256 v ∧ locks d1 = locks d ∧ ledgers d1 = ledgers d ∧ (path ≠ state_path → keeps d d1) ∧
  ∃ e, files d1 !! path = Some e ∧ canonical_json_bytes e = canonical_json_bytes v.
Proof.
  unfold atomic_write_json, mbind, prog_bind. simpl. destruct (files d !! path) as [e|] eqn:E.
  - destruct (String.eqb _ _) eqn:Eb; [|done]. intros [= <- <- <-]. apply String.eqb_eq in Eb. split_and!; try done.
    by exists e.
  - destruct b as [|b]; [done|]. intros [= <- <- <-]. split_and!; try done.
    + intros Hp. split; [split|]; simpl; [|done|by rewrite lookup_insert_ne].
      intros path' v' _ H. rewrite lookup_insert_ne; [done|]. congruence.
    + exists (sort_keys v). split; [apply lookup_insert_eq|]. unfold canonical_json_bytes. by rewrite sort_keys_idem.
Qed.

Lemma settles_publish path v : path ≠ state_path → settles (atomic_write_json path v false) eq.
Proof.
  intros Hp d b d1 b1 a Hok (-> & Hl & Hg & Hk & e & He & Hb)%publish_ends.
  split; [|split; [by apply Hk|split; [done|]]].
  - intros l. unfold records. rewrite Hg. apply Hok.
  - intros d2 _ Hk2 _. exists (canonical_sha256 v). split; [|done]. exists 0%nat, 0%nat. split; [|discriminate].
    eapply publish_found; [by eapply keeps_file|done].
Qed.

(** The ledger has the record: under its key, with its bytes. *)
Definition filed (l : ledger) (record : json_object) (d : t) : Prop :=
  ∃ row i, row ∈ records l d ∧ AppendOnlyLedger.identity (ledger_key l) row = Some i ∧
    AppendOnlyLedger.identity (ledger_key l) (sorted_object record) = Some i ∧
    canonical_json_bytes (NDict row) = canonical_json_bytes (NDict (sorted_object record)).

Lemma filed_extends l record d d' : extends d d' → filed l record d → filed l record d'.
Proof.
  intros [_ Hl] (row & i & Hr & H). exists row, i. split; [|done]. destruct (Hl l) as [rest ->].
  apply elem_of_app. by left.
Qed.

(** A filed record is found by the next writer. *)
Lemma filed_found l record d :
  ledgers_wf d → filed l record d →
  (AppendOnlyLedger.append (ledger_key l) (sorted_object record) (records l d)).2 = Ok false.
Proof.
  intros Hwf (row & i & Hin & Hrow & Hi & Hb).
  assert (Hti : str_true i = true) by (by apply AppendOnlyLedger.identity_eq in Hi as [_ ?]).
  assert (Hm : row ∈ AppendOnlyLedger.matches (ledger_key l) i (records l d))
    by (by apply AppendOnlyLedger.elem_of_matches).
  destruct (AppendOnlyLedger.append_cases (ledger_key l) (sorted_object record) (records l d) (Hwf l))
    as [[Hn _]|(j & Hj & Hc)]; [congruence|]. assert (j = i) as -> by congruence.
  destruct Hc as [[Hm' _]|(row' & Hm' & _ & _ & Hc)]; rewrite Hm' in Hm.
  - by apply elem_of_nil in Hm.
  - apply list_elem_of_singleton in Hm as <-. rewrite decide_True in Hc by done. by rewrite Hc.
Qed.

Lemma append_again l record d b :
  ledgers_wf d → filed l record d → lock_file l ∉ locks d →
  append l record (World d (S (S b))) = (World d b, Ok false).
Proof.
  intros Hwf Hf Hn. rewrite append_run by (destruct Hf as (row & i & _ & _ & Hi & _); eauto).
  apply locked_false in Hn. rewrite Hn, (filed_found l record d Hwf Hf). by destruct b.
Qed.

Lemma append_false l record d rows :
  ledgers_wf d →
  AppendOnlyLedger.append (ledger_key l) (sorted_object record) (records l d) = (rows, Ok false) →
  filed l record d.
Proof.
  intros Hwf E.
  destruct (AppendOnlyLedger.append_cases (ledger_key l) (sorted_object record) (records l d) (Hwf l))
    as [[_ [e Ha]]|(i & Hi & [[_ Ha]|(row & Hm & Hr & Hid & Ha)])]; [congruence..|].
  case_decide as Hb; [|destruct Ha as [e Ha]; congruence]. by exists row, i.
Qed.

Lemma append_true_wf l record d rows :
  ledgers_wf d →
  AppendOnlyLedger.append (ledger_key l) (sorted_object record) (records l d) = (rows, Ok true) →
  ledgers_wf (set_ledgers (<[ledger_file l := rows]> (ledgers d)) d).
Proof.
  intros Hwf E l'. rewrite records_set_ledgers. case_decide as El; [|apply Hwf]. subst l'.
  pose proof (AppendOnlyLedger.append_preserves_wf (ledger_key l) (sorted_object record) (records l d) (Hwf l)) as H.
  unfold after in H. by rewrite E in H.
Qed.

Lemma append_keeps l rest d :
  keeps d (set_ledgers (<[ledger_file l := records l d ++ rest]> (ledgers d)) d).
Proof.
  split; [split; [done|]|done]. intros l'. rewrite records_set_ledgers. case_decide as El; [|done].
  subst l'. by eexists.
Qed.

(** An append that returns found the lock free, leaves it free, and the record is filed. *)
Lemma append_ends l record d b d1 b1 a :
  ledgers_wf d → append l record (World d b) = (World d1 b1, Ok a) →
  lock_file l ∉ locks d ∧ locks d1 = locks d ∧ keeps d d1 ∧ ledgers_wf d1 ∧ filed l record d1.
Proof.
  intros Hwf E. destruct (AppendOnlyLedger.identity (ledger_key l) (sorted_object record)) as [i|] eqn:Hi.
  - rewrite append_run in E by eauto. destruct (locked l d) eqn:Elk; [done|]. apply locked_false in Elk.
    split; [done|]. pose proof (append_outcome l record d) as Ha.
    destruct (AppendOnlyLedger.append _ _ (records l d)) as [rows [[]|e]] eqn:E0, b as [|[|[|b]]]; try done;
      injection E as <- _ _.
    + destruct Ha as [-> _]. split_and!; [done|apply append_keeps|by eapply append_true_wf|].
      exists (sorted_object record), i. split_and!; [|done..]. unfold row_added.
      rewrite records_set_ledgers, decide_True by done. apply elem_of_app. right. by left.
    + split_and!; try done. by eapply append_false.
    + split_and!; try done. by eapply append_false.
  - by destruct (append_refused l record (World d b) Hi) as [e He]; rewrite He in E.
Qed.

Lemma settles_append l record : settles (append l record) (λ _ _, True).
Proof.
  intros d b d1 b1 a Hok E. destruct (append_ends l record d b d1 b1 a Hok E) as (Hn & Hl & Hk & Hok1 & Hf).
  split_and!; try done. intros d2 Hok2 [He _] El. exists false. split; [|done]. exists 2%nat, 0%nat.
  split; [|discriminate]. apply append_again; [done|by eapply filed_extends|]. by rewrite El, Hl.
Qed.

Lemma then_publish {B} path v (k k' : string → op B) :
  path ≠ state_path → (∀ x, uniform (k' x)) → (∀ x, resumes (k x) (k' x)) →
  resumes (atomic_write_json path v false ≫= k) (atomic_write_json path v false ≫= k').
Proof.
  intros Hp Hu Hk. apply (resumes_bind locks keeps ledgers_wf _ k k' eq); try done.
  - apply uniform_write.
  - apply resumes_once; [apply _|apply write_once].
  - by apply settles_publish.
  - by intros a a' ->.
Qed.

(** Continue after an append whose answer is not used. *)
Lemma then_append {B} l record (k k' : op B) :
  uniform k' → resumes k k' → resumes (append l record ≫= λ _, k) (append l record ≫= λ _, k').
Proof.
  intros Hu Hk. apply (resumes_bind locks keeps ledgers_wf _ (λ _, k) (λ _, k') (λ _ _, True)); try done.
  - apply uniform_append.
  - apply resumes_once; [apply _|apply append_once].
  - apply settles_append.
Qed.

Lemma once_write_state s : once (write_state s).
Proof. apply once_map, write_once. Qed.

(** *** The calls: what they need, and their parts *)

Lemma uniform_write_state s : uniform (write_state s).
Proof. apply uniform_bind; [apply uniform_write|]. intros. apply uniform_ret. Qed.

#[local] Hint Resolve uniform_ret uniform_throw uniform_attempt uniform_read uniform_read_object uniform_reject
  uniform_manifest uniform_state uniform_write uniform_append uniform_write_state : uniform.
#[local] Ltac uniformly := intros; repeat first
  [solve [auto 2 with uniform] | apply uniform_bind; [solve [auto 2 with uniform]|intros ?; cbn zeta] | case_match].

Lemma uniform_initialize m now : uniform (initialize m now).
Proof. unfold initialize. uniformly. Qed.
Lemma uniform_record_episode r : uniform (record_episode r).
Proof. unfold record_episode. uniformly. Qed.
Lemma uniform_register_candidate x now : uniform (register_candidate x now).
Proof. unfold register_candidate. uniformly. Qed.
Lemma uniform_promote sha now1 now2 : uniform (promote sha now1 now2).
Proof. unfold promote. uniformly. Qed.
#[local] Hint Resolve uniform_initialize uniform_record_episode uniform_register_candidate uniform_promote : uniform.
#[local] Ltac part_uniform := first [apply uniform_initialize|apply uniform_record_episode
  |apply uniform_register_candidate|apply uniform_promote|unfold transition, update_state,
     reopen_completed_provisional_hypothesis, transition_timeboxed_same_seed_to_heldout,
     recover_registered_candidate, register_diagnosis, record_gate; uniformly].

Lemma uniform_perform c : uniform (perform c).
Proof. destruct c; (apply uniform_bind; [part_uniform|intros; apply uniform_ret]). Qed.

Lemma within_write path v o : within 1 (atomic_write_json path v o).
Proof.
  intros d b Hb. unfold atomic_write_json, mbind, prog_bind. simpl. destruct b as [|b]; [lia|].
  destruct (files d !! path) as [x|], o; simpl; try (split; [done|lia]).
  destruct (String.eqb _ _); simpl; (split; [done|lia]).
Qed.
Lemma within_append l record : within 3 (append l record).
Proof.
  intros d b Hb. destruct (AppendOnlyLedger.identity (ledger_key l) (sorted_object record)) as [i|] eqn:Hi.
  - rewrite append_run by eauto. destruct (locked l d); [split; [done|simpl; lia]|].
    destruct (AppendOnlyLedger.append _ _ _).2 as [[]|e], b as [|[|[|b]]]; simpl; try lia; (split; [done|lia]).
  - destruct (append_refused l record (World d b) Hi) as [e ->]. split; [done|simpl; lia].
Qed.
Lemma within_write_state s : within 1 (write_state s).
Proof. apply (within_bind 1 0); [apply within_write|]. intros. apply within_ret. Qed.

(** A part that reads, writes or appends, and the rest. *)
Lemma within_then {A B} n k j (m : op A) (f : A → op B) :
  within k m → (k ≤ n)%nat → j = (n - k)%nat → (∀ a, within j (f a)) → within n (m ≫= f).
Proof. intros Hm Hk -> Hf. eapply within_le; [by apply within_bind|]. lia. Qed.

#[local] Hint Resolve within_write within_append within_write_state within_ret within_throw : within.
#[local] Ltac withinly := repeat first
  [ eapply within_le; [solve [auto 2 with within]|lia]
  | eapply (within_then _ 0 _); [apply within_quiet; solve [auto with quiet]|lia|reflexivity|intros ?; cbn zeta; cbn [Nat.sub]]
  | eapply within_then; [solve [auto 2 with within]|lia|reflexivity|intros ?; cbn zeta; cbn [Nat.sub]]
  | case_match].

(** The effects the longest call makes. *)
Definition enough : nat := 8.

Lemma within_perform c : within enough (perform c).
Proof.
  destruct c; (apply (within_bind enough 0); [|intros; apply within_ret]);
    unfold enough, initialize, transition, update_state, reopen_completed_provisional_hypothesis,
      transition_timeboxed_same_seed_to_heldout, record_episode, register_candidate,
      recover_registered_candidate, register_diagnosis, record_gate, promote; withinly.
 Qed.

(** Calls with one effect. *)
#[local] Ltac one_effect :=
  repeat (first [apply once_write_state|apply append_once
    |apply once_bind; [solve [auto with quiet]|intros; cbn zeta]]).

Lemma initialize_resumes m now now' : resumes (initialize m now) (initialize m now').
Proof.
  apply then_publish; [by intros E; apply (f_equal (String.get 0)) in E|uniformly|]. intros _.
  apply resumes_once; [apply _|]. apply once_bind; [apply quiet_read|]. intros d.
  destruct (files d !! state_path).
  - apply once_bind; [apply quiet_read_object|]. intros s. apply once_bind; [apply quiet_reject|]. by intros [].
  - apply (once_map _ _ (λ _, initial_state m now)), write_once.
Qed.

Lemma record_episode_resumes r : resumes (record_episode r) (record_episode r).
Proof.
  apply then_manifest; [uniformly|]. intros m. apply then_attempt; [uniformly|]. intros _.
  apply then_state; [uniformly|]. intros s. apply then_reject; [uniformly|]. intros _.
  apply then_publish; [by intros E; apply (f_equal (String.get 0)) in E|uniformly|]. intros _.
  apply then_append; [uniformly|]. destruct (bool_decide _); [by apply resumes_quiet; [apply _|]|].
  apply then_publish; [by intros E; apply (f_equal (String.get 0)) in E|uniformly|]. intros _.
  apply resumes_once; [apply _|apply append_once].
Qed.

Lemma register_candidate_resumes x now now' : resumes (register_candidate x now) (register_candidate x now').
Proof.
  apply then_state; [uniformly|]. intros s. apply then_attempt; [uniformly|]. intros phase.
  apply then_reject; [uniformly|]. intros _. apply then_reject; [uniformly|]. intros _. cbn zeta.
  apply then_publish; [by intros E; apply (f_equal (String.get 0)) in E|uniformly|]. intros _.
  apply then_append; [uniformly|].
  apply (resumes_map locks keeps ledgers_wf _ _ (λ _, CandidateBundle.sha256 x) (λ _, CandidateBundle.sha256 x));
    [apply uniform_write_state|done|].
  apply resumes_once; [apply _|apply once_write_state].
Qed.

Lemma register_diagnosis_resumes x : resumes (register_diagnosis x) (register_diagnosis x).
Proof.
  apply then_state; [uniformly|]. intros s. apply then_attempt; [uniformly|]. intros phase.
  apply then_reject; [uniformly|]. intros _.
  apply then_publish; [by intros E; apply (f_equal (String.get 0)) in E|uniformly|]. intros _.
  apply resumes_once; [apply _|apply append_once].
Qed.

Definition is_promotion (c : call) : bool := match c with Promote _ _ _ => true | _ => false end.

(** The call as it is made when the clock reads [now]. *)
Definition at_clock (now : string) (c : call) : call :=
  match c with
  | Initialize m _ => Initialize m now
  | Transition p u _ => Transition p u now
  | UpdateState u _ => UpdateState u now
  | Reopen a s x q b _ => Reopen a s x q b now
  | Timebox a s _ => Timebox a s now
  | RegisterCandidate c _ => RegisterCandidate c now
  | RecoverCandidate sha _ => RecoverCandidate sha now
  | Promote sha _ _ => Promote sha now now
  | RecordEpisode _ | RegisterDiagnosis _ | RecordGate _ _ | Authorize _ => c
  end.

Lemma perform_resumes c now : is_promotion c = false → resumes (perform c) (perform (at_clock now c)).
Proof.
  destruct c; intros Hp; try done; simpl;
    try (apply resumes_once; [apply _|]; apply once_map; solve [one_effect]);
    (apply resumes_map; [part_uniform|done|]).
  - apply initialize_resumes.
  - apply record_episode_resumes.
  - apply register_candidate_resumes.
  - apply register_diagnosis_resumes.
Qed.

(** ** Theorems *)

(** A decision the run recorded: passed, about the candidate, in the phase of its kind. *)
Definition decided (cs : list (call * nat)) (sha : string) (k : GateKind) : Prop :=
  ∃ cs1 x text b cs2, cs = cs1 ++ (RecordGate x text, b) :: cs2 ∧ candidate_sha256 x = sha ∧ kind x = k ∧
    passed x = true ∧ phase_at (run cs1 init) (expected_phase k).

Lemma kind_name_inj k k' : kind_name k = kind_name k' → k = k'.
Proof. by destruct k, k'. Qed.

Lemma decision_row k d text :
  obj_get k (sorted_object (decision_dict d text)) = default NNone (sort_keys <$> assoc_lookup k (decision_dict d text)).
Proof.
  unfold obj_get. rewrite sorted_object_lookup; [done|]. apply (bool_decide_unpack _). vm_compute. exact I.
Qed.

Lemma passed_gate_decided cs sha k :
  passed_gate sha (kind_name k) (records gates (run cs init)) → decided cs sha k.
Proof.
  intros (row & Hrow & Hs & Hk & Hp).
  destruct (run_justifies cs gates row Hrow) as (cs1 & c & b & cs2 & record & -> & -> & x & text & -> & -> & s & Hst & Hc & Hph).
  rewrite decision_row in Hs, Hk, Hp. injection Hs as Hs. injection Hk as Hk%kind_name_inj. subst.
  exists cs1, x, text, b, cs2. split_and!; try done. exists s. split; [apply Hst|done].
Qed.

Lemma decided_app cs cs' sha k : decided cs sha k → decided (cs ++ cs') sha k.
Proof.
  intros (cs1 & x & text & b & cs2 & -> & H). exists cs1, x, text, b, (cs2 ++ cs'). by rewrite <- app_assoc.
Qed.

(** C4: a promotion is earned.  Every row of the promotions ledger, after any run of calls
    with crashes anywhere, was added by a call of [promote] made in the promote phase for the
    candidate that was active then, whose stored bundle has that digest and the bundle then
    current as its parent; and before that call, decisions on this candidate were recorded
    as passed, each in the phase of its gate: same-seed; regression unless the policy or an
    authorization for this very candidate skips it; and a held-out one unless held-out seeds
    are a final test, in which case none had touched them. *)
Theorem promotions_are_earned (cs : list (call * nat)) (row : json_object) :
  row ∈ records promotions (run cs init) →
  ∃ cs1 sha now1 now2 b cs2 m s bundle, cs = cs1 ++ (Promote sha now1 now2, b) :: cs2 ∧
    obj_get "candidate_sha256" row = NStr sha ∧
    holds_manifest (run cs1 init) m ∧ holds_state (run cs1 init) s ∧
    phase_of s = Ok PROMOTE ∧ obj_get "candidate_sha256" s = NStr sha ∧
    files (run cs1 init) !! bundle_path sha = Some (NDict bundle) ∧ canonical_sha256 (NDict bundle) = sha ∧
    obj_get "parent_sha256" bundle = obj_get "current_bundle_sha256" s ∧
    decided cs1 sha same_seed ∧
    (policy_skips_regression m = false → authorized_to_skip sha s = false → decided cs1 sha regression) ∧
    (heldout_is_test m = false → ∃ k, k ∈ [heldout_10; heldout_20; heldout_50] ∧ decided cs1 sha k) ∧
    (heldout_is_test m = true → ∀ r k, r ∈ records gates (run cs1 init) →
       obj_get "candidate_sha256" r = NStr sha → obj_get "kind" r = NStr k →
       k ∉ ["heldout_10"; "heldout_20"; "heldout_50"]).
Proof.
  intros Hrow.
  destruct (run_justifies cs promotions row Hrow)
    as (cs1 & c & b & cs2 & record & -> & -> & sha & now1 & now2 & -> & m & s & bundle & He).
  exists cs1, sha, now1, now2, b, cs2, m, s, bundle.
  destruct He as [Hm Hs Hph _ Hc Hf Hd Hpar Hg (generation & _ & ->)].
  destruct (gates_support_spec _ _ _ _ Hg) as (G1 & G2 & G3 & G4). split_and!; try done.
  - by apply passed_gate_decided.
  - intros Hp Ha. apply passed_gate_decided, G2. by rewrite Hp, Ha.
  - intros Ht. destruct (G3 Ht) as (k & Hk & Hk2). rewrite !elem_of_cons, elem_of_nil in Hk.
    destruct Hk as [-> |[-> |[-> |[]]]];
      [exists heldout_10|exists heldout_20|exists heldout_50]; (split; [set_solver|by apply passed_gate_decided]).
Qed.

(** C21: the episodes of a campaign are the preregistered ones.  Every row of the episodes
    ledger is a valid episode some call recorded, of the campaign's generation, with a seed
    of the manifest and the policy seed registered for it, and no two rows are of the same
    logical episode. *)
Theorem episodes_are_preregistered (cs : list (call * nat)) (row : json_object) :
  row ∈ records episodes (run cs init) →
  (∃ r m b, (RecordEpisode r, b) ∈ cs ∧ row = sorted_object (episode_dict r) ∧
     holds_manifest (run cs init) m ∧ status r = valid ∧ generation r = CampaignManifest.generation m ∧
     assoc_lookup (pretty (seed r)) (CampaignManifest.policy_rng_by_seed m) = Some (policy_rng r)) ∧
  (∀ row', row' ∈ records episodes (run cs init) →
     obj_get "logical_id" row' = obj_get "logical_id" row → row' = row).
Proof.
  intros Hrow. split.
  - destruct (run_justifies cs episodes row Hrow)
      as (cs1 & c & b & cs2 & record & -> & -> & r & -> & -> & m & s & Hm & Hs & Hpre & _ & Hv).
    exists r, m, b. apply requires_ok in Hpre. rewrite !Forall_cons in Hpre. destruct Hpre as (Hg & Hr & _).
    split_and!; try done.
    + apply elem_of_app. right. by left.
    + rewrite run_app. eapply extends_manifest; [apply run_extends|done].
    + by apply Z.eqb_eq.
    + by apply bool_decide_eq_true in Hr.
  - intros row' Hrow' E. destruct (run_ledgers_wf cs episodes) as [_ Hnd].
    apply (NoDup_fmap_inj_on (AppendOnlyLedger.identity "logical_id") (records episodes (run cs init))); try done.
    unfold AppendOnlyLedger.identity. by rewrite E.
Qed.

(** History is append-only.  Whatever calls are made and wherever processes die, a file
    other than the state, once written, stays as it is, and every ledger only grows at its
    end. *)
Theorem history_is_append_only (cs : list (call * nat)) (d : t) :
  (∀ path v, path ≠ state_path → files d !! path = Some v → files (run cs d) !! path = Some v) ∧
  (∀ l, records l d `prefix_of` records l (run cs d)).
Proof. apply run_extends. Qed.


(** A process that dies in an append before it removes its lock leaves the ledger wedged:
    whatever calls are made afterwards, the ledger stays as it is, and every append to it
    of a record with a key gives up. *)
Theorem held_lock_wedges_ledger (l : ledger) (record record' : json_object) (d : t) (cs : list (call * nat)) :
  is_Some (AppendOnlyLedger.identity (ledger_key l) (sorted_object record)) →
  is_Some (AppendOnlyLedger.identity (ledger_key l) (sorted_object record')) →
  lock_file l ∉ locks d →
  let d' := run cs (disk (after (append l record) (World d 1))) in
  records l d' = records l d ∧
  ∀ b, append l record' (World d' b) = (World d' b, Raise (Exn (lock_timeout l))).
Proof.
  intros Hi Hi' Hn. cbv zeta. unfold after. rewrite append_run by done.
  apply locked_false in Hn. rewrite Hn.
  assert (lock_file l ∈ locks (take_lock l d)) as Hl by (simpl; set_solver).
  destruct (run_locked cs _ _ Hl) as [Hl' Hr].
  cbn [fst disk]. split; [exact Hr|]. intros b. rewrite append_run by done.
  apply (bool_decide_eq_true_2 (lock_file l ∈ locks _)) in Hl'. unfold locked. by rewrite Hl'.
Qed.

(** A call moves a campaign along [ALLOWED_TRANSITIONS], at most one edge, or reopens a
    campaign that completed before anything was proposed or gated; so a campaign that
    completed with a candidate, a gate decision or a promotion stays complete. *)
Theorem life_cycle (cs : list (call * nat)) (c : call) (b : nat) (p : CampaignPhase) :
  phase_at (run cs init) p →
  (∃ q, phase_at (exec (run cs init) b c) q ∧ (p = q ∨ q ∈ ALLOWED_TRANSITIONS p ∨ (p = COMPLETE ∧ q = PROPOSE))) ∧
  (p = COMPLETE →
   (∃ l row, l ∈ [candidate_ledger; gates; promotions] ∧ row ∈ records l (run cs init)) →
   ∀ cs', phase_at (run cs' (run cs init)) COMPLETE).
Proof.
  intros Hp. pose proof (run_state_wf cs init init_state_wf) as Hwf. split.
  - destruct (exec_phase c (run cs init) b p Hwf Hp) as (q & Hq & Hc). exists q. split; [done|].
    unfold phase_change in Hc. naive_solver.
  - intros -> (l & row & Hl & Hrow) cs'. revert Hp Hrow Hwf. generalize (run cs init) as d.
    induction cs' as [|[c' b'] cs' IH]; intros d Hp Hrow Hwf; [done|]. simpl. apply IH.
    + destruct (exec_phase c' d b' COMPLETE Hwf Hp) as (q & Hq & [<-|[H|(_ & _ & E1 & E2 & E3)]]);
        [done|by apply elem_of_nil in H|].
      rewrite !elem_of_cons, elem_of_nil in Hl.
      destruct Hl as [-> |[-> |[-> |[]]]]; rewrite ?E1, ?E2, ?E3 in Hrow; by apply elem_of_nil in Hrow.
    + destruct (exec_extends c' d b') as [_ Hpre]. destruct (Hpre l) as [rest ->]. apply elem_of_app. by left.
    + by apply exec_state_wf.
Qed.

(** ** A campaign from its first call to its promotion *)

Definition sample_sha : string := Eval vm_compute in CandidateBundle.sha256 sample_candidate.

Definition sample_decision (id : string) (k : GateKind) (ok : bool) : GateDecision := {|
  decision_id := id; candidate_sha256 := sample_sha; parent_sha256 := None; kind := k; passed := ok;
  conclusive := true; candidate_successes := 2; parent_successes := 0; paired_count := 2;
  candidate_wins := 2; parent_wins := 0; p_value := None; alpha := None; candidate_safety_events := 0;
  parent_safety_events := 0; rationale := {| text := never_changed_trajectory; camera_mismatches := 0 |} |}.

Definition sample_episode : EpisodeRecord := {|
  episode_id := "ep"; logical_id := "g0000-rollout-000"; generation := 0; seed := 11; policy_rng := 1;
  bundle_sha256 := None; status := valid; success := Some true; started_at := "a"; finished_at := "b";
  elapsed_s := 1; artifact_index := []; safety_events := []; failure_segment := None;
  failure_segments := []; invalid_reason := None; attempt_index := 0; schema_version := 1 |}.

(** Up to the promote phase; the episode is recorded by a process that dies after the attempt's
    artifact, by one that dies after the attempt's row, and again. *)
Definition sample_calls : list (call * nat) := ((λ c, (c, 9%nat)) <$> [
  Initialize sample_manifest "t0"]) ++ [(RecordEpisode sample_episode, 1%nat);
    (RecordEpisode sample_episode, 4%nat); (RecordEpisode sample_episode, 9%nat)] ++
  ((λ c, (c, 9%nat)) <$> [
  Transition CLUSTER [] "t1"; Transition DIAGNOSE [] "t2"; Transition PROPOSE [] "t3";
  RegisterCandidate sample_candidate "t4"; Transition SAME_SEED_GATE [] "t5";
  RecordGate (sample_decision "gate-1" same_seed true) "met"; Transition REGRESSION_GATE [] "t6";
  RecordGate (sample_decision "gate-2" regression true) "met"; Transition HELDOUT_GATE [] "t7";
  RecordGate (sample_decision "gate-3" heldout_20 true) "met"; Transition PROMOTE [] "t8"]).

Definition sample_promotion : list (call * nat) := sample_calls ++ [(Promote sample_sha "t9" "t10", 9%nat)].

Definition sample_row : json_object :=
  sorted_object (promotion_row sample_sha NNone (NInt 0) "t9" ["gate-1"; "gate-2"; "gate-3"]).

Example sample_run :
  records promotions (run sample_promotion init) = [sample_row] ∧
  records episodes (run sample_promotion init) = [sorted_object (episode_dict sample_episode)].
Proof. by vm_compute. Qed.

Lemma sample_row_recorded : sample_row ∈ records promotions (run sample_promotion init).
Proof. destruct sample_run as [-> _]. by left. Qed.
Lemma sample_episode_recorded :
  sorted_object (episode_dict sample_episode) ∈ records episodes (run sample_promotion init).
Proof. destruct sample_run as [_ ->]. by left. Qed.

Lemma promotions_are_earned_witness :
  ∃ cs1 sha now1 now2 b cs2, sample_promotion = cs1 ++ (Promote sha now1 now2, b) :: cs2 ∧
    decided cs1 sha same_seed.
Proof.
  destruct (promotions_are_earned sample_promotion sample_row sample_row_recorded)
    as (cs1 & sha & now1 & now2 & b & cs2 & m & s & bundle & E & _ & _ & _ & _ & _ & _ & _ & _ & H & _).
  exists cs1, sha, now1, now2, b, cs2. exact (conj E H).
Defined.

Lemma episodes_are_preregistered_witness :
  ∃ r b, (RecordEpisode r, b) ∈ sample_promotion ∧ status r = valid.
Proof.
  destruct (episodes_are_preregistered sample_promotion _ sample_episode_recorded)
    as [(r & m & b & Hin & _ & _ & Hv & _) _].
  exists r, b. exact (conj Hin Hv).
Defined.

Definition sample_start : list (call * nat) := [(Initialize sample_manifest "t0", 9%nat)].

Lemma sample_crash :
  result_of (perform (RecordEpisode sample_episode)) (World (run sample_start init) 4) = Raise Crash ∧
  locks (exec (run sample_start init) 4 (RecordEpisode sample_episode)) = locks (run sample_start init).
Proof. by vm_compute. Qed.


Lemma held_lock_wedges_ledger_witness :
  append attempts (attempt_payload sample_episode)
    (World (disk (after (append attempts (attempt_payload sample_episode)) (World init 1))) 9) =
  (World (disk (after (append attempts (attempt_payload sample_episode)) (World init 1))) 9,
   Raise (Exn (lock_timeout attempts))).
Proof.
  destruct (held_lock_wedges_ledger attempts (attempt_payload sample_episode) (attempt_payload sample_episode)
    init []) as [_ H]; [by eexists; vm_compute|by eexists; vm_compute|set_solver|]. apply (H 9%nat).
Defined.

Lemma sample_phase : phase_at (run sample_start init) ROLLOUT.
Proof. eexists. split; [vm_compute; reflexivity|by vm_compute]. Qed.

Lemma life_cycle_witness :
  ∃ q, phase_at (exec (run sample_start init) 9 (Transition CLUSTER [] "t1")) q.
Proof.
  destruct (life_cycle sample_start (Transition CLUSTER [] "t1") 9 ROLLOUT sample_phase) as [(q & Hq & _) _].
  exists q. exact Hq.
Defined.
End CampaignStore.
