(* ===== verification/EpisodeJson.v ===== *)
(** * Reading episodes back: [from_dict] of [zetta/evolution/models.py]

    The readers of failure segments and episode records, whose writers are
    [segment_dict] and [episode_dict] of [CampaignStore.v].  As in [CampaignModels.v] a
    field of another JSON type than its annotation answers [TypeError]; so does a status
    that is neither of the two, and a float that is not finite. *)

From Stdlib Require Import QArith.
From stdpp Require Import pretty.
From S2P Require Import Prelude PyDict Codec JsonIO PyFloat EvolutionModels CampaignModels CampaignStore.

Open Scope string_scope.
Open Scope list_scope.
Open Scope Z_scope.

(** A field of type [float]. *)
Definition float_of_json (v : native) : outcome campaign_error Q :=
  match v with
  | NFloat r => match float_value r with Some q => Ok q | None => wrong_type end
  | _ => wrong_type
  end.
Definition floats_of_json (v : native) : outcome campaign_error (list Q) :=
  match v with NList l => traverse float_of_json l | _ => wrong_type end.

(** [value.get(key, default)] of a float or a list of floats. *)
Definition get_with {A} (read : native → outcome campaign_error A) (key : string) (x : A) (d : json_object) :
    outcome campaign_error A :=
  match assoc_lookup key d with Some v => read v | None => Ok x end.

(** The [FailureSegment] of an object; its tuples are read first. *)
Definition segment_of_dict (d : json_object) : outcome campaign_error FailureSegment :=
  signature ← get_with floats_of_json "state_signature" [] d;
  vector ← get_with floats_of_json "embedding" [] d;
  paths ← field_or "artifact_paths" [] d;
  kwargs ["segment_id"; "episode_id"; "failure_class"; "stage"; "tool"; "summary";
          "earliest_divergence_step"; "start_step"; "end_step"]
    ["severity"; "state_signature"; "embedding"; "artifact_paths"] d;;
  id ← field "segment_id" d; episode ← field "episode_id" d;
  class ← field "failure_class" d; stage ← field "stage" d; tool ← field "tool" d;
  summary ← field "summary" d; divergence ← field "earliest_divergence_step" d;
  first ← field "start_step" d; last ← field "end_step" d;
  severity ← get_with float_of_json "severity" 1%Q d;
  let x := {| segment_id := id; segment_episode_id := episode; failure_class := class; stage := stage;
    tool := tool; summary := summary; earliest_divergence_step := divergence; start_step := first;
    end_step := last; severity := severity; state_signature := signature; embedding := vector;
    artifact_paths := paths |} in
  lift_evo (check_failure_segment x);; Ok x.

(** [parse_segment] *)
Definition parse_segment (v : native) : outcome campaign_error (option FailureSegment) :=
  match v with
  | NNone => Ok None
  | NDict d => x ← segment_of_dict d; Ok (Some x)
  | _ => Raise (evolution_error (ValueError "failure segment must be an object"))
  end.
Definition parse_segments (v : native) : outcome campaign_error (list FailureSegment) :=
  match v with NList l => xs ← traverse parse_segment l; Ok (omap (λ x, x) (xs : list (option FailureSegment))) | _ => wrong_type end.

Definition status_of_json (v : native) : outcome campaign_error EpisodeStatus :=
  match v with
  | NStr s => if String.eqb s "valid" then Ok valid
              else if String.eqb s "infra_invalid" then Ok infra_invalid else wrong_type
  | _ => wrong_type
  end.
Definition success_of_json (v : native) : outcome campaign_error (option bool) :=
  match v with NNone => Ok None | NBool b => Ok (Some b) | _ => wrong_type end.

(** [EpisodeRecord.from_dict] *)
Definition episode_of_dict (d : json_object) : outcome campaign_error EpisodeRecord :=
  segment ← parse_segment (obj_get "failure_segment" d);
  segments ← get_with parse_segments "failure_segments" [] d;
  events ← field_or "safety_events" [] d;
  kwargs ["episode_id"; "logical_id"; "generation"; "seed"; "policy_rng"; "bundle_sha256"; "status";
          "success"; "started_at"; "finished_at"; "elapsed_s"; "artifact_index"]
    ["safety_events"; "failure_segment"; "failure_segments"; "invalid_reason"; "attempt_index";
     "schema_version"] d;;
  episode ← field "episode_id" d; logical ← field "logical_id" d; generation ← field "generation" d;
  seed ← field "seed" d; rng ← field "policy_rng" d; bundle ← field "bundle_sha256" d;
  status ← status_of_json (obj_get "status" d); success ← success_of_json (obj_get "success" d);
  started ← field "started_at" d; finished ← field "finished_at" d;
  elapsed ← float_of_json (obj_get "elapsed_s" d); artifacts ← field "artifact_index" d;
  reason ← field_or "invalid_reason" None d; attempt ← field_or "attempt_index" 0 d;
  version ← field_or "schema_version" 1 d;
  let r := {| episode_id := episode; logical_id := logical; generation := generation; seed := seed;
    policy_rng := rng; bundle_sha256 := bundle; status := status; success := success;
    started_at := started; finished_at := finished; elapsed_s := elapsed; artifact_index := artifacts;
    safety_events := events; failure_segment := segment; failure_segments := segments;
    invalid_reason := reason; attempt_index := attempt; schema_version := version |} in
  lift_evo (check_episode_record r);; Ok r.

(** A record read from its own dictionary, as written and with sorted keys. *)
Example episode_round_trip :
  episode_of_dict (episode_dict CampaignStore.sample_episode) = Ok CampaignStore.sample_episode ∧
  episode_of_dict (sorted_object (episode_dict CampaignStore.sample_episode)) = Ok CampaignStore.sample_episode.
Proof. by vm_compute. Qed.
