(* ===== verification/Schedule.v ===== *)
(** * Preregistered seeds: [zetta/evolution/schedule.py]

    The environment seeds of a campaign's rollouts and of its held-out block, and the policy
    seed bound to each.  [shuffle] is [random.Random(master_seed).shuffle]: a parameter, of
    which only what Python documents is assumed, that it permutes.  Theorem: when a schedule
    is produced, and what it promises: the counts, no seed twice, no seed on both sides, and
    exactly one policy seed per environment seed. *)

From stdpp Require Import pretty.
From S2P Require Import Prelude PyDict Sorting Sha256 Codec EvolutionModels CampaignModels.

Open Scope string_scope.
Open Scope list_scope.
Open Scope Z_scope.

Definition policy_rng_seed (master_seed : Z) (task : string) (environment_seed : Z) : Z :=
  let payload := pretty master_seed +:+ char 0 +:+ task +:+ char 0 +:+ pretty environment_seed in
  Z.land (int_from_bytes (take 8 (sha256_digest payload))) 2147483647.

Example policy_rng_seed_examples :
  policy_rng_seed 7 "lift" 11 = 1063801434 ∧ policy_rng_seed (-3) "x" 0 = 83075159.
Proof. by vm_compute. Qed.

(** [list(dict.fromkeys(l))] *)
Definition fromkeys (l : list Z) : list Z := reverse (remove_dups (reverse l)).

Definition without (protected l : list Z) : list Z := bfilter (λ s, negb (member s protected)) l.

Definition show_ints (l : list Z) : list string := pretty <$> sort_by Z.leb (remove_dups l).

Section schedule.
Context (shuffle : Z → list Z → list Z).

(** The policy of the seeds, in order. *)
Definition policy_of (master_seed : Z) (task : string) (seeds : list Z) : list (string * Z) :=
  foldl (λ d s, assoc_insert (pretty s) (policy_rng_seed master_seed task s) d) [] seeds.

(** The candidates left for the rollouts once a fixed held-out block is taken out. *)
Definition isolate (candidates : list Z) (rollout_count heldout_count : Z) (fixed : list Z) :
    outcome campaign_error (list Z) :=
  requires [
    (zlen fixed =? heldout_count, "fixed heldout schedule has " +:+ pretty (zlen fixed)
       +:+ " values; expected " +:+ pretty heldout_count);
    (bool_decide (NoDup fixed), "fixed heldout schedule contains duplicate seeds")];;
  let missing := without candidates fixed in
  ensure (bool_decide (missing = []))
    (ValueErrorOf "fixed heldout seeds are outside the population: " (show_ints missing));;
  let rest := without fixed candidates in
  require (rollout_count <=? zlen rest) ("seed population has " +:+ pretty (zlen rest)
    +:+ " rollout values after heldout isolation; need " +:+ pretty rollout_count);;
  Ok rest.

Definition preregister_seed_schedule (master_seed : Z) (task : string) (rollout_count heldout_count : Z)
    (population : list Z) (heldout_seeds : option (list Z)) :
    outcome campaign_error (list Z * list Z * list (string * Z)) :=
  require ((1 <=? rollout_count) && (1 <=? heldout_count))
    "rollout_count and heldout_count must be positive";;
  let candidates := fromkeys population in
  candidates ← match heldout_seeds with
    | Some fixed => isolate candidates rollout_count heldout_count fixed
    | None =>
        require (rollout_count + heldout_count <=? zlen candidates) ("seed population has "
          +:+ pretty (zlen candidates) +:+ " values; need " +:+ pretty (rollout_count + heldout_count));;
        Ok candidates
    end;
  let shuffled := shuffle master_seed candidates in
  let rollout := take (Z.to_nat rollout_count) shuffled in
  let heldout := default (take (Z.to_nat heldout_count) (drop (Z.to_nat rollout_count) shuffled)) heldout_seeds in
  Ok (rollout, heldout, policy_of master_seed task (rollout ++ heldout)).

(** What Python documents of [shuffle]. *)
Context (shuffle_perm : ∀ seed l, shuffle seed l ≡ₚ l).

Lemma elem_of_fromkeys x l : x ∈ fromkeys l ↔ x ∈ l.
Proof. unfold fromkeys. by rewrite elem_of_reverse, elem_of_remove_dups, elem_of_reverse. Qed.
Lemma NoDup_fromkeys l : NoDup (fromkeys l).
Proof. unfold fromkeys. rewrite reverse_Permutation. apply NoDup_remove_dups. Qed.

Lemma elem_of_without x p l : x ∈ without p l ↔ x ∈ l ∧ x ∉ p.
Proof.
  unfold without. rewrite elem_of_bfilter, negb_true_iff. unfold member. rewrite bool_decide_eq_false. tauto.
Qed.

Lemma policy_lookup master task seeds k :
  (∀ s, s ∈ seeds → k = pretty s → assoc_lookup k (policy_of master task seeds) = Some (policy_rng_seed master task s)) ∧
  ((∀ s, s ∈ seeds → k ≠ pretty s) → assoc_lookup k (policy_of master task seeds) = None).
Proof.
  unfold policy_of. induction seeds as [|x l IH] using rev_ind.
  { split; [by intros s ?%elem_of_nil|done]. }
  destruct IH as [IH1 IH2]. setoid_rewrite elem_of_app. setoid_rewrite list_elem_of_singleton.
  rewrite foldl_app. simpl. rewrite assoc_lookup_insert. split.
  - intros s Hs ->. case_decide as E; [apply (inj pretty) in E; by subst|]. destruct Hs as [Hs| ->]; [by apply IH1|done].
  - intros H. rewrite decide_False by (apply H; by right). apply IH2. intros s Hs. apply H. by left.
Qed.

Lemma policy_keys master task seeds k :
  k ∈ (policy_of master task seeds).*1 ↔ k ∈ pretty <$> seeds.
Proof.
  destruct (policy_lookup master task seeds k) as [H1 H2].
  destruct (decide (k ∈ pretty <$> seeds)) as [Hk|Hk].
  - split; [done|]. intros _. apply list_elem_of_fmap in Hk as (s & Es & Hs).
    exact (lookup_Some_keys (PyDict _) _ _ (H1 s Hs Es)).
  - split; [|done]. intros Hin. exfalso. apply (lookup_None_keys (PyDict (policy_of master task seeds)) k); [|done].
    apply H2. intros s Hs ->. apply Hk. by apply list_elem_of_fmap_2.
Qed.

Lemma policy_NoDup master task seeds : NoDup (policy_of master task seeds).*1.
Proof.
  unfold policy_of. induction seeds as [|x l IH] using rev_ind; [constructor|].
  rewrite foldl_app. exact (dict_wf_insert (PyDict _) _ _ IH).
Qed.

(** What a schedule promises about the population [pop] and the fixed block, if any. *)
Record sound (pop : list Z) (fixed : option (list Z)) (rollout_count heldout_count : Z)
    (rollout heldout : list Z) : Prop := {
  rollout_size : zlen rollout = rollout_count;
  heldout_size : zlen heldout = heldout_count;
  seeds_distinct : NoDup (rollout ++ heldout);
  seeds_known x : x ∈ rollout ++ heldout → x ∈ pop;
  heldout_fixed l : fixed = Some l → heldout = l;
}.

(** What is left for rollouts, and a held-out block that is not among it. *)
Lemma shuffled_sound pop fixed rest seed rc hc :
  0 ≤ rc → 0 ≤ hc → NoDup rest → (∀ x, x ∈ rest → x ∈ pop) →
  match fixed with
  | Some l => zlen l = hc ∧ NoDup l ∧ (∀ x, x ∈ l → x ∈ pop ∧ x ∉ rest) ∧ rc ≤ zlen rest
  | None => rc + hc ≤ zlen rest
  end →
  sound pop fixed rc hc (take (Z.to_nat rc) (shuffle seed rest))
    (default (take (Z.to_nat hc) (drop (Z.to_nat rc) (shuffle seed rest))) fixed).
Proof.
  intros Hrc Hhc Hnd Hpop Hfixed. pose proof (shuffle_perm seed rest) as Hp.
  assert (Hlen : zlen (shuffle seed rest) = zlen rest) by (unfold zlen; by rewrite Hp).
  assert (Hnd' : NoDup (shuffle seed rest)) by by rewrite Hp.
  assert (Hin : ∀ x, x ∈ shuffle seed rest → x ∈ rest) by (intros x; by rewrite Hp).
  set (l := shuffle seed rest) in *. rewrite <- (take_drop (Z.to_nat rc) l) in Hnd'.
  apply NoDup_app in Hnd' as (N1 & N2 & N3). unfold zlen in *.
  destruct fixed as [f|]; simpl.
  - destruct Hfixed as (Hf & Nf & Ff & Hle). split; try done.
    + unfold zlen. rewrite length_take. lia.
    + apply NoDup_app. split_and!; [done| |done]. intros x Hx Hxf. destruct (Ff x Hxf) as [_ Hr].
      apply Hr, Hin. eapply elem_of_take in Hx as (i & Hx & _). by eapply list_elem_of_lookup_2.
    + intros x [Hx|Hx]%elem_of_app; [|by apply Ff]. apply Hpop, Hin.
      apply elem_of_take in Hx as (i & Hx & _). by eapply list_elem_of_lookup_2.
    + by intros l' [= ->].
  - split; try done.
    + unfold zlen. rewrite length_take. lia.
    + unfold zlen. rewrite length_take, length_drop. lia.
    + apply NoDup_app. split_and!; [done| |eapply sublist_NoDup; [exact N3|apply sublist_take]].
      intros x Hx Hx'. apply (N2 x Hx). apply elem_of_take in Hx' as (i & Hx' & _). by eapply list_elem_of_lookup_2.
    + intros x Hx. apply Hpop, Hin. apply elem_of_app in Hx as [Hx|Hx].
      * apply elem_of_take in Hx as (i & Hx & _). by eapply list_elem_of_lookup_2.
      * apply elem_of_take in Hx as (i & Hx & _). rewrite lookup_drop in Hx. by eapply list_elem_of_lookup_2.
Qed.

Lemma isolate_ok candidates rc hc fixed rest :
  isolate candidates rc hc fixed = Ok rest ↔
  rest = without fixed candidates ∧ zlen fixed = hc ∧ NoDup fixed ∧ (∀ x, x ∈ fixed → x ∈ candidates) ∧
  rc ≤ zlen rest.
Proof.
  assert (Hmiss : without candidates fixed = [] ↔ ∀ x, x ∈ fixed → x ∈ candidates).
  { split.
    - intros H x Hx. destruct (decide (x ∈ candidates)); [done|]. exfalso.
      assert (x ∈ without candidates fixed) as Hw by by apply elem_of_without. rewrite H in Hw. by apply elem_of_nil in Hw.
    - intros H. apply elem_of_nil_inv. intros x [Hx Hn]%elem_of_without. by apply Hn, H. }
  unfold isolate, require. split.
  - intros ([] & Hr & H)%outcome_bind_ok. apply requires_ok in Hr. rewrite !Forall_cons in Hr. simpl in Hr.
    destruct Hr as (Hl%Z.eqb_eq & Hnd%bool_decide_eq_true & _).
    apply ensure_bind_ok in H as [Hm%bool_decide_eq_true H]. apply ensure_bind_ok in H as [Hle%Z.leb_le [= <-]].
    split_and!; try done. by apply Hmiss.
  - intros (-> & Hl%Z.eqb_eq & Hnd & Hm%Hmiss & Hle%Z.leb_le). apply outcome_bind_ok. exists tt. split.
    + apply requires_ok. rewrite !Forall_cons. simpl. rewrite bool_decide_eq_true. auto.
    + apply ensure_bind_ok. rewrite bool_decide_eq_true. split; [done|]. by apply ensure_bind_ok.
Qed.

Lemma schedule_sound seed task rc hc pop fixed rollout heldout policy :
  preregister_seed_schedule seed task rc hc pop fixed = Ok (rollout, heldout, policy) →
  sound pop fixed rc hc rollout heldout ∧ NoDup policy.*1 ∧
  ∀ k z, assoc_lookup k policy = Some z ↔
    ∃ s, s ∈ rollout ++ heldout ∧ k = pretty s ∧ z = policy_rng_seed seed task s.
Proof.
  unfold preregister_seed_schedule, require. 
  intros [[Hrc Hhc]%andb_true_iff H]%ensure_bind_ok. rewrite Z.leb_le in Hrc, Hhc.
  apply outcome_bind_ok in H as (rest & Hrest & [= <- <- <-]). split; [|split; [apply policy_NoDup|]].
  + destruct fixed as [l|].
    * apply isolate_ok in Hrest as (-> & Hl & Hnd & Hin & Hle). apply shuffled_sound; try lia.
      { apply (sublist_NoDup _ (fromkeys pop)); [apply NoDup_fromkeys|apply bfilter_sublist]. }
      { intros x [Hx _]%elem_of_without. by apply elem_of_fromkeys. }
      split_and!; try done. intros x Hx. split; [by apply elem_of_fromkeys, Hin|]. by intros [_ ?]%elem_of_without.
    * apply ensure_bind_ok in Hrest as [Hle [= <-]]. apply Z.leb_le in Hle.
      apply shuffled_sound; try lia; [apply NoDup_fromkeys|]. intros x. apply elem_of_fromkeys.
  + intros k z. set (seeds := take _ _ ++ _). destruct (policy_lookup seed task seeds k) as [H1 H2]. split.
    * intros Hz. destruct (decide (k ∈ pretty <$> seeds)) as [(s & -> & Hs)%list_elem_of_fmap|Hk].
      { exists s. rewrite (H1 s Hs eq_refl) in Hz. by simplify_eq. }
      exfalso. rewrite H2 in Hz; [done|]. intros s Hs ->. apply Hk. by apply list_elem_of_fmap_2.
    * intros (s & Hs & Ek & ->). by apply H1.
Qed.

Lemma schedule_enough seed task rc hc pop fixed :
  is_ok (preregister_seed_schedule seed task rc hc pop fixed) = true ↔
  1 ≤ rc ∧ 1 ≤ hc ∧
  match fixed with
  | Some l => zlen l = hc ∧ NoDup l ∧ (∀ x, x ∈ l → x ∈ pop) ∧ rc ≤ zlen (without l (fromkeys pop))
  | None => rc + hc ≤ zlen (fromkeys pop)
  end.
Proof.
  unfold preregister_seed_schedule, require. split.
  + intros H. destruct (ensure _ _ ≫= _) as [[[ro he] po]|] eqn:E; [|done].
    apply ensure_bind_ok in E as [[Hrc Hhc]%andb_true_iff E]. rewrite Z.leb_le in Hrc, Hhc.
    apply outcome_bind_ok in E as (rest & Hrest & _). split_and!; [done..|]. destruct fixed as [l|].
    * apply isolate_ok in Hrest as (-> & Hl & Hnd & Hin & Hle). split_and!; try done.
      intros x Hx. by apply elem_of_fromkeys, Hin.
    * apply ensure_bind_ok in Hrest as [Hle%Z.leb_le _]. done.
  + intros (Hrc & Hhc & H). apply Z.leb_le in Hrc, Hhc. rewrite Hrc, Hhc. simpl. destruct fixed as [l|].
    * destruct H as (Hl & Hnd & Hin & Hle).
      assert (isolate (fromkeys pop) rc hc l = Ok (without l (fromkeys pop))) as ->; [|done].
      apply isolate_ok. split_and!; try done. intros x Hx. by apply elem_of_fromkeys, Hin.
    * apply Z.leb_le in H. by rewrite H.
Qed.

(** C32: a schedule is sound, and there is one whenever there can be.  A schedule that is
    produced has the counts asked for, all its seeds distinct and in the population, no seed
    both rolled out and held out, the fixed held-out block if one was given, and exactly one
    policy seed per environment seed.  And one is produced exactly when both counts are
    positive and the population suffices, beside a fixed block of the right size without
    repetitions. *)
Theorem schedule_exact (seed : Z) (task : string) (rc hc : Z) (pop : list Z) (fixed : option (list Z)) :
  (∀ rollout heldout policy,
     preregister_seed_schedule seed task rc hc pop fixed = Ok (rollout, heldout, policy) →
     sound pop fixed rc hc rollout heldout ∧ NoDup policy.*1 ∧
     ∀ k z, assoc_lookup k policy = Some z ↔
       ∃ s, s ∈ rollout ++ heldout ∧ k = pretty s ∧ z = policy_rng_seed seed task s) ∧
  (is_ok (preregister_seed_schedule seed task rc hc pop fixed) = true ↔
     1 ≤ rc ∧ 1 ≤ hc ∧
     match fixed with
     | Some l => zlen l = hc ∧ NoDup l ∧ (∀ x, x ∈ l → x ∈ pop) ∧ rc ≤ zlen (without l (fromkeys pop))
     | None => rc + hc ≤ zlen (fromkeys pop)
     end).
Proof. split; [apply schedule_sound|apply schedule_enough]. Qed.
End schedule.

Lemma schedule_exact_witness :
  sound [5; 3; 5; 9; 4] None 2 1 [4; 9] [3] ∧
  is_ok (preregister_seed_schedule (λ _ l, reverse l) 7 "lift" 2 1 [5; 3; 5; 9; 4] (Some [3])) = true.
Proof.
  assert (Hs : ∀ (seed : Z) (l : list Z), reverse l ≡ₚ l) by (intros; apply reverse_Permutation).
  split.
  - refine (proj1 (proj1 (schedule_exact (λ _ l, reverse l) Hs 7 "lift" 2 1 [5; 3; 5; 9; 4] None) [4; 9] [3] _ _)).
    vm_compute. reflexivity.
  - apply (proj2 (schedule_exact (λ _ l, reverse l) Hs 7 "lift" 2 1 [5; 3; 5; 9; 4] (Some [3]))).
    split; [lia|]. split; [lia|]. split; [reflexivity|]. split.
    + apply (bool_decide_unpack _). vm_compute. exact I.
    + split; [|vm_compute; discriminate]. intros x ->%list_elem_of_singleton. right. by left.
Defined.
