(* ===== verification/Promotion.v ===== *)
(** * Promotion: [zetta/evolution/supervisor.py], [lifecycle.py]

    What the supervisor does in the promote phase: it promotes the active candidate, or
    finishes a promotion whose process died ([_recover_or_promote]).  The next generation is
    in [Generations.v].

    Theorems: an interrupted promotion, without an authorized skip of the regression gate
    and with no lock left, is finished as if it had not been interrupted; a promotion that rests on an authorized skip of the regression gate is refused after it
    was made, for ever, and a provisional campaign cannot promote. *)

From Stdlib Require Import QArith.
From stdpp Require Import pretty.
From S2P Require Import Prelude Durable PyDict Sorting Sha256 Codec CanonicalJson JsonIO PyFloat EvolutionModels CampaignModels CampaignStore Schedule.

Import CampaignStore.CampaignStore.

Open Scope string_scope.
Open Scope list_scope.
Open Scope Z_scope.

Module Supervisor.

(** ** Promote, or finish an interrupted promotion *)

(** The formal gates as the supervisor checks them: by the policy of the manifest alone. *)
Definition formal_gates (m : CampaignManifest.t) (rows : AppendOnlyLedger.t) : bool :=
  let kinds := kinds_of (passed_rows rows) in
  let required := if policy_skips_regression m then [NStr "same_seed"] else [NStr "same_seed"; NStr "regression"] in
  let wrong_heldout_evidence :=
    if heldout_is_test m then intersects heldout_kinds (kinds_of rows)
    else negb (intersects heldout_kinds kinds) in
  forallb (λ k, member k kinds) required && negb wrong_heldout_evidence.

(** The promotion to finish, its digest, and whether the state still has to follow it. *)
Definition pending_promotion (s : json_object) (row : json_object) : op (json_object * bool) :=
  match obj_get "candidate_sha256" row with
  | NStr promoted =>
      let active := obj_get "candidate_sha256" s in
      reject_if (negb (member active [NNone; NStr promoted]))
        "promotion ledger conflicts with active candidate" ≫= λ _,
      reject_if (negb (bool_decide (obj_get "generation" row = obj_get "generation" s)))
        "promotion ledger generation changed" ≫= λ _,
      mret (row, bool_decide (active = NStr promoted)
                 || negb (bool_decide (obj_get "current_bundle_sha256" s = NStr promoted)))
  | _ => fail "promotion ledger has no candidate digest"
  end.

Definition choose_promotion (s : json_object) (phase : CampaignPhase) (rows : AppendOnlyLedger.t)
    (now1 now2 : string) : op (json_object * bool) :=
  match rows with
  | [] =>
      match phase, obj_get "candidate_sha256" s with
      | PROMOTE, NStr active => row ← promote active now1 now2; mret (row, false)
      | _, _ => fail "promotion recovery is missing a unique candidate"
      end
  | row :: _ => pending_promotion s row
  end.

Definition follow_pointer (sha now3 : string) (recover_state_pointer : bool) : op unit :=
  if recover_state_pointer then
    update_state [("current_bundle_sha256", NStr sha); ("candidate_sha256", NNone)] now3 ≫= λ _, mret tt
  else mret tt.

(** Validate the promotion against the artifacts and the ledger, and finish its writes. *)
Definition finish_promotion (row : json_object) (recover_state_pointer : bool) (now3 : string) : op json_object :=
  let sha := text_of (obj_get "candidate_sha256" row) in
  candidate ← read_object (bundle_path sha);
  reject_if (negb (String.eqb (canonical_sha256 (NDict candidate)) sha))
    "promotion candidate artifact digest mismatch" ≫= λ _,
  reject_if (negb (bool_decide (obj_get "parent_sha256" candidate = obj_get "parent_sha256" row)))
    "promotion candidate parent changed" ≫= λ _,
  reject_if (negb (bool_decide (obj_get "promotion_id" row = NStr (promotion_id sha))))
    "promotion ledger identity changed" ≫= λ _,
  d ← read_disk;
  let rows := rows_of (NStr sha) (records gates d) in
  m ← manifest;
  reject_if (negb (formal_gates m rows))
    "promotion ledger is not supported by all formal gates" ≫= λ _,
  reject_if (negb (bool_decide (obj_get "gate_decision_ids" row = to_json (gate_ids rows))))
    "promotion gate evidence changed" ≫= λ _,
  follow_pointer sha now3 recover_state_pointer ≫= λ _,
  atomic_write_json (bundles_path (NInt (CampaignManifest.generation m))) (NDict candidate) false ≫= λ _,
  mret row.

Definition _recover_or_promote (now1 now2 now3 : string) : op json_object :=
  s ← state;
  phase ← attempt (phase_of s);
  reject_if (negb (member phase [PROMOTE; COMPLETE]))
    "generation continuation requires promote/complete phase" ≫= λ _,
  d ← read_disk;
  let rows := records promotions d in
  reject_if (1 <? zlen rows) "generation has multiple promotion ledger rows" ≫= λ _,
  choice ← choose_promotion s phase rows now1 now2;
  finish_promotion choice.1 choice.2 now3.

(** [promote_and_complete] of [lifecycle.py] *)
Definition promote_and_complete (now1 now2 now3 : string) : op json_object :=
  s ← state;
  match obj_get "candidate_sha256" s with
  | NStr candidate =>
      if str_true candidate then
        promotion ← promote candidate now1 now2;
        transition COMPLETE [] now3 ≫= λ _, mret promotion
      else fail "no candidate is ready for promotion"
  | _ => fail "no candidate is ready for promotion"
  end.

(** ** Running calls on a known disk *)

Lemma run_read_object {B} path x (k : json_object → op B) d b :
  files d !! path = Some (NDict x) → (read_object path ≫= k) (World d b) = k x (World d b).
Proof. intros E. unfold read_object, mbind, prog_bind. simpl. by rewrite E. Qed.
Lemma manifest_value m d b : holds_manifest d m → manifest (World d b) = (World d b, Ok m).
Proof.
  intros (p & Hp & Hm). unfold manifest. rewrite (run_read_object _ p) by done. unfold attempt. by rewrite Hm.
Qed.
Lemma run_manifest {B} m (k : CampaignManifest.t → op B) d b :
  holds_manifest d m → (manifest ≫= k) (World d b) = k m (World d b).
Proof. intros Hm. unfold mbind, prog_bind. by rewrite (manifest_value m). Qed.
Lemma run_state {B} s (k : json_object → op B) d b :
  holds_state d s → (state ≫= k) (World d b) = k s (World d b).
Proof.
  intros (Hs & m & Hm & Hb). unfold mbind, prog_bind.
  assert (state (World d b) = (World d b, Ok s)) as ->; [|done].
  unfold state. rewrite (run_read_object _ s) by done. rewrite (run_manifest m) by done. by rewrite Hb.
Qed.
Lemma run_reject {B} c msg (k : unit → op B) w : c = false → (reject_if c msg ≫= k) w = k tt w.
Proof. by intros ->. Qed.
Lemma run_attempt {A B} (o : outcome campaign_error A) a (k : A → op B) w :
  o = Ok a → (attempt o ≫= k) w = k a w.
Proof. by intros ->. Qed.

(** What a call that did not raise has read. *)
Definition no_exn {A} (o : outcome (stop campaign_error) A) : Prop := ∀ e, o ≠ Raise (Exn e).

Lemma quiet_inv {A B} (m : op A) (k : A → op B) w w' o :
  quiet m → (m ≫= k) w = (w', o) → no_exn o → ∃ a, m w = (w, Ok a) ∧ k a w = (w', o).
Proof.
  intros Hq. specialize (Hq w). unfold mbind, prog_bind. destruct (m w) as [w1 [a|[e|]]]; simpl in *;
    destruct Hq as [-> Hc].
  - intros E _. by exists a.
  - intros [= <- <-] Hn. by destruct (Hn e).
  - by destruct Hc.
Qed.
Lemma reject_inv {B} c msg (k : unit → op B) w w' o :
  (reject_if c msg ≫= k) w = (w', o) → no_exn o → c = false ∧ k tt w = (w', o).
Proof. destruct c; [|done]. intros [= <- <-] Hn. by destruct (Hn (evolution_error (ValueError msg))). Qed.
Lemma attempt_inv {A B} (x : outcome campaign_error A) (k : A → op B) w w' o :
  (attempt x ≫= k) w = (w', o) → no_exn o → ∃ a, x = Ok a ∧ k a w = (w', o).
Proof. destruct x as [a|e]; [by exists a|]. intros [= <- <-] Hn. by destruct (Hn e). Qed.
Lemma object_inv {B} path (k : json_object → op B) d b w' o :
  (read_object path ≫= k) (World d b) = (w', o) → no_exn o →
  ∃ x, files d !! path = Some (NDict x) ∧ k x (World d b) = (w', o).
Proof.
  intros E Hn. destruct (quiet_inv _ _ _ _ _ (quiet_read_object path) E Hn) as (x & Hx & Hk).
  apply read_object_ok in Hx as [_ Hx]. by exists x.
Qed.
Lemma manifest_inv {B} (k : CampaignManifest.t → op B) d b w' o :
  (manifest ≫= k) (World d b) = (w', o) → no_exn o →
  ∃ m, holds_manifest d m ∧ k m (World d b) = (w', o).
Proof.
  intros E Hn. destruct (quiet_inv _ _ _ _ _ quiet_manifest E Hn) as (m & Hm & Hk). exists m. split; [|done].
  destruct (object_inv _ _ _ _ _ _ Hm) as (p & Hp & Ha); [done|].
  exists p. split; [done|]. unfold attempt in Ha.
  destruct (CampaignManifest.from_dict p); [|done]. by injection Ha as ->.
Qed.
Lemma state_inv {B} (k : json_object → op B) d b w' o :
  (state ≫= k) (World d b) = (w', o) → no_exn o → ∃ s, holds_state d s ∧ k s (World d b) = (w', o).
Proof.
  intros E Hn. destruct (quiet_inv _ _ _ _ _ quiet_state E Hn) as (s & Hs & Hk). exists s. split; [|done].
  unfold state in Hs. destruct (object_inv _ _ _ _ _ _ Hs) as (s' & Hs' & H1); [done|].
  destruct (manifest_inv _ _ _ _ _ H1) as (m & Hm & H2); [done|].
  destruct (reject_inv _ _ _ _ _ _ H2) as [Hb H3]; [done|]. injection H3 as <-.
  split; [done|]. exists m. split; [done|]. by apply negb_false_iff.
Qed.

(** ** A promotion and its writes *)

Definition pointer (sha t : string) : json_object :=
  [("current_bundle_sha256", NStr sha); ("candidate_sha256", NNone); ("updated_at", NStr t)].

(** The durable part of [promote]. *)
Definition promotion_writes (s bundle row : json_object) (sha now2 : string) (generation : native) : op json_object :=
  append promotions row ≫= λ _,
  write_state (merge s (pointer sha now2)) ≫= λ _,
  atomic_write_json (bundles_path generation) (NDict bundle) false ≫= λ _,
  mret row.

Lemma promote_inv sha now1 now2 d b w' o :
  promote sha now1 now2 (World d b) = (w', o) → no_exn o →
  ∃ row m s bundle generation, earned d sha now1 row m s bundle ∧ field "generation" s = Ok generation ∧
    row = promotion_row sha (obj_get "current_bundle_sha256" s) generation now1
      (gate_ids (rows_of (NStr sha) (records gates d))) ∧
    promotion_writes s bundle row sha now2 generation (World d b) = (w', o).
Proof.
  intros E Hn. unfold promote in E.
  apply state_inv in E as (s & Hs & E); [|done]. apply attempt_inv in E as (phase & Hph & E); [|done].
  apply reject_inv in E as [Hp E]; [|done]. apply negb_false_iff, bool_decide_eq_true in Hp as ->.
  apply manifest_inv in E as (m & Hm & E); [|done]. apply reject_inv in E as [Hsc E]; [|done].
  apply bool_decide_eq_false in Hsc. apply reject_inv in E as [Hc E]; [|done].
  apply negb_false_iff, bool_decide_eq_true in Hc. apply object_inv in E as (bundle & Hf & E); [|done].
  apply reject_inv in E as [Hd E]; [|done]. apply negb_false_iff, String.eqb_eq in Hd. cbn zeta in E.
  apply reject_inv in E as [Hpar E]; [|done]. apply negb_false_iff, bool_decide_eq_true in Hpar.
  apply (quiet_inv read_disk) in E as (d' & [= <-] & E); [|apply quiet_read|done].
  apply attempt_inv in E as ([] & Hg & E); [|done]. apply attempt_inv in E as (generation & Hgen & E); [|done].
  eexists _, m, s, bundle, generation. split; [|split; [done|split; [reflexivity|exact E]]].
  split; try done. eauto.
Qed.

Lemma promote_run sha now1 now2 d b row m s bundle generation :
  earned d sha now1 row m s bundle → field "generation" s = Ok generation →
  promote sha now1 now2 (World d b) =
    promotion_writes s bundle (promotion_row sha (obj_get "current_bundle_sha256" s) generation now1
      (gate_ids (rows_of (NStr sha) (records gates d)))) sha now2 generation (World d b).
Proof.
  intros [Hm Hs Hph Hsc Hc Hf Hd Hpar Hg _] Hgen. unfold promote.
  rewrite (run_state s) by done. rewrite (run_attempt _ PROMOTE) by done. rewrite run_reject by done.
  rewrite (run_manifest m) by done. rewrite run_reject by by apply bool_decide_eq_false.
  rewrite run_reject by by apply negb_false_iff, bool_decide_eq_true.
  rewrite (run_read_object _ bundle) by done. rewrite run_reject by by apply negb_false_iff, String.eqb_eq.
  cbn zeta. rewrite run_reject by by apply negb_false_iff, bool_decide_eq_true.
  unfold mbind at 1, prog_bind at 1. cbn [read_disk disk]. rewrite (run_attempt _ tt) by done.
  by rewrite (run_attempt _ generation).
Qed.

Definition ledger_written (d : t) (row : json_object) : t :=
  set_ledgers (<[ledger_file promotions := [sorted_object row]]> (ledgers d)) d.
Definition pointer_written (d : t) (s : json_object) (sha now : string) : t :=
  set_files (<[state_path := NDict (sorted_object (merge s (pointer sha now)))]> (files d)) d.
Definition bundle_written (d : t) (path : string) (bundle : json_object) : t :=
  set_files (<[path := NDict (sorted_object bundle)]> (files d)) d.

Lemma promotion_identity sha parent generation now ids :
  AppendOnlyLedger.identity (ledger_key promotions) (sorted_object (promotion_row sha parent generation now ids)) =
    Some (promotion_id sha).
Proof.
  apply AppendOnlyLedger.identity_eq. split; [|done].
  unfold obj_get. rewrite sorted_object_lookup; [done|]. apply (bool_decide_unpack _). vm_compute. exact I.
Qed.

Lemma append_first sha parent generation now ids d b :
  let row := promotion_row sha parent generation now ids in
  lock_file promotions ∉ locks d → records promotions d = [] →
  append promotions row (World d b) =
    match b with
    | 0 => (World d 0, Raise Crash)
    | 1 => (World (take_lock promotions d) 0, Raise Crash)
    | 2 => (World (take_lock promotions (ledger_written d row)) 0, Raise Crash)
    | S (S (S b)) => (World (ledger_written d row) b, Ok true)
    end%nat.
Proof.
  intros row Hn Hr. rewrite append_run by (unfold row; rewrite promotion_identity; eauto).
  apply locked_false in Hn. rewrite Hn. unfold row_added. rewrite Hr.
  unfold AppendOnlyLedger.append, row. rewrite promotion_identity. by destruct b as [|[|[|b]]].
Qed.

Lemma write_pointer s sha now d b :
  write_state (merge s (pointer sha now)) (World d b) =
    match b with
    | O => (World d 0, Raise Crash)
    | S b => (World (pointer_written d s sha now) b, Ok (merge s (pointer sha now)))
    end.
Proof.
  unfold write_state, atomic_write_json, mbind, prog_bind. cbn [read_disk disk].
  by destruct (files d !! state_path), b.
Qed.

Lemma publish_new path bundle d b :
  files d !! path = None →
  atomic_write_json path (NDict bundle) false (World d b) =
    match b with
    | O => (World d 0, Raise Crash)
    | S b => (World (bundle_written d path bundle) b, Ok (canonical_sha256 (NDict bundle)))
    end.
Proof.
  intros Hf. unfold atomic_write_json, mbind, prog_bind. cbn [read_disk disk]. rewrite Hf. by destruct b.
Qed.
Lemma publish_again path bundle d b :
  files d !! path = Some (NDict (sorted_object bundle)) →
  atomic_write_json path (NDict bundle) false (World d b) = (World d b, Ok (canonical_sha256 (NDict bundle))).
Proof.
  intros Hf. unfold atomic_write_json, mbind, prog_bind. cbn [read_disk disk]. rewrite Hf.
  assert (canonical_json_bytes (NDict (sorted_object bundle)) = canonical_json_bytes (NDict bundle)) as ->.
  { unfold canonical_json_bytes. do 2 f_equal. exact (sort_keys_idem (NDict bundle)). }
  by rewrite String.eqb_refl.
Qed.

(** The disk a completed promotion leaves. *)
Definition promoted (d : t) (s bundle row : json_object) (sha now : string) (generation : native) : t :=
  bundle_written (pointer_written (ledger_written d row) s sha now) (bundles_path generation) bundle.

Lemma bundles_path_other generation : bundles_path generation ≠ state_path.
Proof. intros E. by apply (f_equal (String.get 0)) in E. Qed.

Lemma promotion_writes_run s bundle sha parent generation g now1 now2 ids d b :
  let row := promotion_row sha parent g now1 ids in
  lock_file promotions ∉ locks d → records promotions d = [] → files d !! bundles_path generation = None →
  promotion_writes s bundle row sha now2 generation (World d b) =
    match b with
    | 0 => (World d 0, Raise Crash)
    | 1 => (World (take_lock promotions d) 0, Raise Crash)
    | 2 => (World (take_lock promotions (ledger_written d row)) 0, Raise Crash)
    | 3 => (World (ledger_written d row) 0, Raise Crash)
    | 4 => (World (pointer_written (ledger_written d row) s sha now2) 0, Raise Crash)
    | S (S (S (S (S b)))) => (World (promoted d s bundle row sha now2 generation) b, Ok row)
    end%nat.
Proof.
  intros row Hn Hr Hf. unfold promotion_writes, mbind, prog_bind. unfold row. rewrite append_first by done.
  destruct b as [|[|[|b]]]; [done..|]. rewrite write_pointer. destruct b as [|b]; [done|].
  assert (files (pointer_written (ledger_written d (promotion_row sha parent g now1 ids)) s sha now2)
    !! bundles_path generation = None) as Hf'.
  { simpl. rewrite lookup_insert_ne; [done|]. intros E. by apply (bundles_path_other generation). }
  rewrite publish_new by done. by destruct b.
Qed.

(** Files are stored with sorted keys. *)
Definition sorted_files (d : t) : Prop := ∀ path v, files d !! path = Some v → sort_keys v = v.

Lemma run_sorted_files cs : sorted_files (run cs init).
Proof.
  induction cs as [|[c b] cs IH] using rev_ind; [intros path v; simpl; by rewrite lookup_empty|].
  rewrite run_app. simpl. eapply (rtc_invariant (effect c (run cs init)) sorted_files); [|apply exec_effects|done].
  intros x y Hx Hxy path v. destruct Hxy; cbn [files set_files set_ledgers set_locks take_lock drop_lock]; try apply Hx;
    (intros [[<- <-]|[? ?]]%lookup_insert_Some; [apply sort_keys_idem|by eapply Hx]).
Qed.

Lemma sorted_get k s : NoDup s.*1 → sort_keys (NDict s) = NDict s → sort_keys (obj_get k s) = obj_get k s.
Proof.
  intros Hnd E. rewrite sort_keys_dict in E. injection E as E. unfold obj_get.
  rewrite <- E at 2. rewrite sorted_object_lookup by done. by destruct (assoc_lookup k s).
Qed.

(** ** Finishing an interrupted promotion *)

(** What a promotion row says, before and after it is stored. *)
Record says (row : json_object) (sha : string) (parent generation : native) (ids : list string) : Prop := {
  says_candidate : obj_get "candidate_sha256" row = NStr sha;
  says_parent : obj_get "parent_sha256" row = parent;
  says_id : obj_get "promotion_id" row = NStr (promotion_id sha);
  says_generation : obj_get "generation" row = generation;
  says_ids : obj_get "gate_decision_ids" row = to_json ids;
}.

Lemma promotion_row_says sha parent generation now ids :
  says (promotion_row sha parent generation now ids) sha parent generation ids.
Proof. by split. Qed.

Lemma sort_keys_strings (l : list string) : sort_keys (to_json l) = to_json l.
Proof.
  transitivity (NList (sort_keys <$> (NStr <$> l))); [done|]. rewrite <- list_fmap_compose. done.
Qed.

Lemma stored_row_says sha parent g now ids :
  sort_keys parent = parent →
  says (sorted_object (promotion_row sha parent (NInt g) now ids)) sha parent (NInt g) ids.
Proof.
  intros Hp. assert (NoDup (promotion_row sha parent (NInt g) now ids).*1) as Hnd.
  { apply (bool_decide_unpack _). vm_compute. exact I. }
  split; unfold obj_get; rewrite sorted_object_lookup by done; [done| |done|done|].
  - exact Hp.
  - exact (sort_keys_strings ids).
Qed.

Lemma intersects_comm xs ys : intersects xs ys = intersects ys xs.
Proof.
  apply eq_bool_prop_intro. rewrite !Is_true_true, !intersects_spec. naive_solver.
Qed.

(** Without an authorized exception the supervisor asks what the store asked. *)
Lemma formal_gates_supported m rows :
  gates_support (policy_skips_regression m) (heldout_is_test m) rows = Ok tt → formal_gates m rows = true.
Proof.
  intros H%requires_ok. rewrite !Forall_cons in H. destruct H as (H1 & H2 & H3 & _). cbn [fst] in *.
  unfold formal_gates. cbn zeta. rewrite H1, andb_true_l. destruct (heldout_is_test m); cbn [andb orb negb] in *.
  - by rewrite (intersects_comm heldout_kinds).
  - by rewrite H3.
Qed.

(** The disk a promotion may be finished on. *)
Record finishable (d : t) (m : CampaignManifest.t) (bundle : json_object) (sha : string) (parent : native)
    (ids : list string) : Prop := {
  fin_manifest : holds_manifest d m;
  fin_file : files d !! bundle_path sha = Some (NDict bundle);
  fin_digest : canonical_sha256 (NDict bundle) = sha;
  fin_parent : obj_get "parent_sha256" bundle = parent;
  fin_gates : formal_gates m (rows_of (NStr sha) (records gates d)) = true;
  fin_ids : gate_ids (rows_of (NStr sha) (records gates d)) = ids;
}.

Lemma finish_run d m bundle row sha parent g ids flag now3 b :
  finishable d m bundle sha parent ids → says row sha parent g ids →
  finish_promotion row flag now3 (World d b) =
    (follow_pointer sha now3 flag ≫= λ _,
     atomic_write_json (bundles_path (NInt (CampaignManifest.generation m))) (NDict bundle) false ≫= λ _,
     mret row) (World d b).
Proof.
  intros [Hm Hf Hd Hp Hg Hi] [Rs Rp Rid _ Ri]. unfold finish_promotion. rewrite Rs. cbn [text_of].
  rewrite (run_read_object _ bundle) by done. rewrite run_reject by by apply negb_false_iff, String.eqb_eq.
  rewrite run_reject by (apply negb_false_iff, bool_decide_eq_true; congruence).
  rewrite run_reject by by apply negb_false_iff, bool_decide_eq_true.
  unfold mbind at 1, prog_bind at 1. cbn [read_disk disk]. rewrite (run_manifest m) by done.
  rewrite run_reject by by rewrite Hg.
  rewrite run_reject by (rewrite Hi; by apply negb_false_iff, bool_decide_eq_true). done.
Qed.

Lemma update_pointer s sha now3 d b :
  holds_state d s →
  update_state [("current_bundle_sha256", NStr sha); ("candidate_sha256", NNone)] now3 (World d b) =
  write_state (merge s (pointer sha now3)) (World d b).
Proof.
  intros Hs. unfold update_state. rewrite run_reject by done. rewrite (run_state s) by done. by rewrite merge_app.
Qed.

(** The state after the pointer moved. *)
Lemma bound_to_sorted m s s' :
  NoDup s'.*1 → assoc_lookup "manifest_sha256" s' = assoc_lookup "manifest_sha256" s →
  bound_to m s = true → bound_to m (sorted_object s') = true.
Proof.
  intros Hnd E. unfold bound_to. rewrite !bool_decide_eq_true. unfold obj_get.
  rewrite sorted_object_lookup, E by done. by destruct (assoc_lookup "manifest_sha256" s) as [x|]; simpl; [intros ->|].
Qed.

Lemma merged_get k s u v :
  NoDup s.*1 → assoc_lookup k (reverse u) = Some v → sort_keys v = v →
  obj_get k (sorted_object (merge s u)) = v.
Proof.
  intros Hnd Hu Hv. unfold obj_get. rewrite sorted_object_lookup by by apply merge_NoDup.
  rewrite lookup_merge, Hu. exact Hv.
Qed.
Lemma merged_kept k s u :
  NoDup s.*1 → sort_keys (NDict s) = NDict s → has k u = false →
  obj_get k (sorted_object (merge s u)) = obj_get k s.
Proof.
  intros Hnd Hs Hu. rewrite <- (sorted_get k s) by done. unfold obj_get.
  rewrite sorted_object_lookup by by apply merge_NoDup. rewrite lookup_merge_keep by done.
  by destruct (assoc_lookup k s).
Qed.

Lemma holds_manifest_unique d m m' : holds_manifest d m → holds_manifest d m' → m = m'.
Proof. intros (p & Hp & Hm) (p' & Hp' & Hm'). congruence. Qed.

(** The three places where a promotion may have stopped. *)
Section recovery.
Context (d : t) (m : CampaignManifest.t) (s bundle : json_object) (sha : string) (ids : list string).
Context (now1 now2 : string).
Let g := NInt (CampaignManifest.generation m).
Let parent := obj_get "current_bundle_sha256" s.
Let row := promotion_row sha parent g now1 ids.

Context (Hm : holds_manifest d m) (Hs : holds_state d s) (Hph : phase_of s = Ok PROMOTE).
Context (Hact : obj_get "candidate_sha256" s = NStr sha) (Hgen : obj_get "generation" s = g).
Context (Hfin : finishable d m bundle sha parent ids).
Context (Hnd : NoDup s.*1) (Hsorted : sort_keys (NDict s) = NDict s).
Context (Hbundles : files d !! bundles_path g = None).

Let d1 := ledger_written d row.
Let d2 := pointer_written d1 s sha now2.
Let s2 := sorted_object (merge s (pointer sha now2)).

Lemma parent_sorted : sort_keys parent = parent.
Proof. by apply sorted_get. Qed.
Lemma records_written l : records l d1 = if decide (l = promotions) then [sorted_object row] else records l d.
Proof. apply records_set_ledgers. Qed.

Lemma finishable_ledger : finishable d1 m bundle sha parent ids.
Proof.
  destruct Hfin as [H1 H2 H3 H4 H5 H6]. split; try done; by rewrite records_written.
Qed.
Lemma finishable_pointer : finishable d2 m bundle sha parent ids.
Proof.
  destruct finishable_ledger as [(p & Hp & Hm') H2 H3 H4 H5 H6]. split; try done.
  - exists p. split; [|done]. unfold d2, pointer_written. cbn [files set_files]. by rewrite lookup_insert_ne.
  - unfold d2, pointer_written. cbn [files set_files]. rewrite lookup_insert_ne; [done|].
    intros E. by apply (f_equal (String.get 0)) in E.
Qed.
Lemma state_ledger : holds_state d1 s.
Proof. exact Hs. Qed.
Lemma state_pointer : holds_state d2 s2.
Proof.
  split; [apply lookup_insert_eq|]. exists m. split; [apply finishable_pointer|].
  destruct Hs as (_ & m' & Hm' & Hb). assert (m' = m) as -> by by eapply holds_manifest_unique.
  eapply bound_to_sorted; [by apply merge_NoDup| |done]. by apply lookup_merge_keep.
Qed.

Lemma recover_reads d' s' b n1 n2 n3 :
  holds_state d' s' → phase_of s' = Ok PROMOTE → zlen (records promotions d') ≤ 1 →
  _recover_or_promote n1 n2 n3 (World d' b) =
    (choice ← choose_promotion s' PROMOTE (records promotions d') n1 n2;
     finish_promotion choice.1 choice.2 n3) (World d' b).
Proof.
  intros H1 H2 H3. unfold _recover_or_promote. rewrite (run_state s') by done.
  rewrite (run_attempt _ PROMOTE) by done. rewrite run_reject by done.
  unfold mbind at 1, prog_bind at 1. cbn [read_disk disk]. rewrite run_reject; [done|].
  by apply Z.ltb_ge.
Qed.

Lemma choose_pending s' row' rows b d' n1 n2 flag :
  says row' sha parent g ids → obj_get "generation" s' = g →
  member (obj_get "candidate_sha256" s') [NNone; NStr sha] = true →
  flag = bool_decide (obj_get "candidate_sha256" s' = NStr sha)
         || negb (bool_decide (obj_get "current_bundle_sha256" s' = NStr sha)) →
  choose_promotion s' PROMOTE (row' :: rows) n1 n2 (World d' b) = (World d' b, Ok (row', flag)).
Proof.
  intros [Rs _ _ Rg _] Hg Hmem ->. simpl. unfold pending_promotion. rewrite Rs.
  rewrite run_reject by by rewrite Hmem.
  rewrite run_reject; [done|]. rewrite Rg, Hg. by apply negb_false_iff, bool_decide_eq_true.
Qed.

(** The ledger has the row, the state does not follow it yet. *)
Lemma recover_ledger b n1 n2 n3 :
  _recover_or_promote n1 n2 n3 (World d1 (2 + b)) =
    (World (promoted d s bundle row sha n3 g) b, Ok (sorted_object row)).
Proof.
  assert (says (sorted_object row) sha parent g ids) as Hsays by apply stored_row_says, parent_sorted.
  rewrite (recover_reads d1 s) by first [done|by rewrite records_written].
  rewrite records_written. cbn [decide decide_rel ledger_eq_dec]. rewrite decide_True by done.
  unfold mbind at 1, prog_bind at 1. rewrite (choose_pending s (sorted_object row) [] _ _ _ _ true); try done.
  2: { by rewrite Hact; apply bool_decide_eq_true; set_solver. }
  2: { by rewrite Hact, bool_decide_true. }
  cbn [fst snd]. rewrite (finish_run d1 m bundle _ sha parent g ids) by first [done|apply finishable_ledger].
  unfold follow_pointer. unfold mbind, prog_bind. rewrite (update_pointer s) by done. rewrite write_pointer.
  cbn [Nat.add]. unfold mret, prog_ret. cbv beta iota. rewrite publish_new; [done|].
  unfold pointer_written. cbn [files set_files]. rewrite lookup_insert_ne; [done|].
  intros E. by apply (bundles_path_other g).
Qed.

(** The state follows it, the bundle of the generation is not published. *)
Lemma recover_pointer b n1 n2 n3 :
  _recover_or_promote n1 n2 n3 (World d2 (1 + b)) =
    (World (promoted d s bundle row sha now2 g) b, Ok (sorted_object row)).
Proof.
  assert (says (sorted_object row) sha parent g ids) as Hsays by apply stored_row_says, parent_sorted.
  assert (records promotions d2 = [sorted_object row]) as Hrec.
  { transitivity (records promotions d1); [done|]. rewrite records_written. by rewrite decide_True. }
  rewrite (recover_reads d2 s2); [|apply state_pointer| |by rewrite Hrec].
  2: { unfold s2. by rewrite merge_phase_keep. }
  rewrite Hrec. unfold mbind at 1, prog_bind at 1.
  assert (obj_get "candidate_sha256" s2 = NNone) as Hc by by apply merged_get.
  assert (obj_get "current_bundle_sha256" s2 = NStr sha) as Hp by by apply merged_get.
  rewrite (choose_pending s2 (sorted_object row) [] _ _ _ _ false); try done.
  2: { unfold s2. by rewrite merged_kept. }
  2: { by rewrite Hc; apply bool_decide_eq_true; set_solver. }
  2: { by rewrite Hc, Hp, bool_decide_false, bool_decide_true. }
  cbn [fst snd]. rewrite (finish_run d2 m bundle _ sha parent g ids) by first [done|apply finishable_pointer].
  unfold follow_pointer. unfold mbind, prog_bind, mret, prog_ret.
  cbn [Nat.add]. rewrite publish_new; [done|].
  unfold d2, pointer_written. cbn [files set_files]. rewrite lookup_insert_ne; [done|].
  intros E. by apply (bundles_path_other g).
Qed.
End recovery.

Lemma promote_writes sha now1 now2 d b m s bundle row :
  earned d sha now1 row m s bundle → lock_file promotions ∉ locks d → records promotions d = [] →
  let g := NInt (CampaignManifest.generation m) in
  obj_get "generation" s = g → files d !! bundles_path g = None →
  let row := promotion_row sha (obj_get "current_bundle_sha256" s) g now1
               (gate_ids (rows_of (NStr sha) (records gates d))) in
  promote sha now1 now2 (World d b) =
    match b with
    | 0 => (World d 0, Raise Crash)
    | 1 => (World (take_lock promotions d) 0, Raise Crash)
    | 2 => (World (take_lock promotions (ledger_written d row)) 0, Raise Crash)
    | 3 => (World (ledger_written d row) 0, Raise Crash)
    | 4 => (World (pointer_written (ledger_written d row) s sha now2) 0, Raise Crash)
    | S (S (S (S (S b)))) => (World (promoted d s bundle row sha now2 g) b, Ok row)
    end%nat.
Proof.
  intros He Hn Hr g Hg Hf row'. assert (field "generation" s = Ok g) as Hfield.
  { unfold obj_get in Hg. unfold field. destruct (assoc_lookup "generation" s); [by rewrite <- Hg|done]. }
  rewrite (promote_run _ _ _ _ _ row m s bundle g) by done. by apply promotion_writes_run.
Qed.

Lemma earned_at d sha now row m s bundle now' :
  earned d sha now row m s bundle → 
  let g := NInt (CampaignManifest.generation m) in
  obj_get "generation" s = g →
  earned d sha now' (promotion_row sha (obj_get "current_bundle_sha256" s) g now'
    (gate_ids (rows_of (NStr sha) (records gates d)))) m s bundle.
Proof.
  intros [] g Hg. split; try done. exists g. split; [|done].
  unfold obj_get in Hg. unfold field. destruct (assoc_lookup "generation" s); [by rewrite <- Hg|done].
Qed.

(** Nothing was written: the supervisor promotes, and finds the promotion complete. *)
Lemma recover_nothing d m s bundle sha row now b n1 n2 n3 :
  earned d sha now row m s bundle → lock_file promotions ∉ locks d → records promotions d = [] →
  let g := NInt (CampaignManifest.generation m) in
  let ids := gate_ids (rows_of (NStr sha) (records gates d)) in
  let row := promotion_row sha (obj_get "current_bundle_sha256" s) g n1 ids in
  obj_get "generation" s = g → files d !! bundles_path g = None →
  finishable d m bundle sha (obj_get "current_bundle_sha256" s) ids →
  _recover_or_promote n1 n2 n3 (World d (5 + b)) = (World (promoted d s bundle row sha n2 g) b, Ok row).
Proof.
  intros He Hn Hr g ids row' Hg Hf Hfin.
  rewrite (recover_reads d s) by first [apply He|by rewrite Hr]. rewrite Hr.
  unfold choose_promotion. rewrite (earned_candidate _ _ _ _ _ _ _ He).
  pose proof (earned_at _ _ _ _ _ _ _ n1 He Hg) as He'. fold g ids row' in He'.
  unfold mbind at 1 2, prog_bind at 1 2.
  rewrite (promote_writes sha n1 n2 d _ m s bundle row') by done. cbn [Nat.add].
  unfold mret at 1, prog_ret at 1. cbv beta iota. cbn [fst snd].
  rewrite (finish_run _ m bundle _ sha (obj_get "current_bundle_sha256" s) g ids); [| |apply promotion_row_says].
  - unfold follow_pointer, mbind, prog_bind, mret, prog_ret. rewrite publish_again; [done|apply lookup_insert_eq].
  - destruct (finishable_pointer d m s bundle sha ids n1 n2) as [(p & Hp & Hm) H2 H3 H4 H5 H6]; try done.
    split; try done; unfold promoted, bundle_written; cbn [files set_files].
    + exists p. split; [|done]. cbn [files set_files]. by rewrite lookup_insert_ne.
    + rewrite lookup_insert_ne; [done|]. intros E. by apply (f_equal (String.get 0)) in E.
Qed.

(** The gates the store accepts are the ones the supervisor asks for. *)
Lemma earned_finishable d sha now row m s bundle :
  earned d sha now row m s bundle → authorized_to_skip sha s = false →
  finishable d m bundle sha (obj_get "current_bundle_sha256" s) (gate_ids (rows_of (NStr sha) (records gates d))).
Proof.
  intros [] Ha. split; try done. apply formal_gates_supported. by rewrite Ha, orb_false_r in earned_gates0.
Qed.

(** A promotion that dies at its writes found the ledger's lock free. *)
Lemma crashed_unlocked s bundle sha parent g ids now1 now2 generation d b w :
  promotion_writes s bundle (promotion_row sha parent g now1 ids) sha now2 generation (World d b) =
    (w, Raise Crash) → lock_file promotions ∉ locks d.
Proof.
  unfold promotion_writes, mbind at 1, prog_bind at 1.
  rewrite append_run by (rewrite promotion_identity; eauto).
  destruct (locked promotions d) eqn:El; [done|]. by apply locked_false in El.
Qed.

Lemma run_state_facts cs s :
  holds_state (run cs init) s → NoDup s.*1 ∧ sort_keys (NDict s) = NDict s.
Proof.
  intros [H _]. split; [|by apply (run_sorted_files cs _ _ H)].
  destruct (run_state_wf cs init init_state_wf _ H) as (s' & p & E & Hnd & _). by injection E as ->.
Qed.

(** C5: in a run of the store's calls, the first promotion of a campaign (none is recorded,
    the bundle of its generation is not published, the state has the manifest's generation),
    of a candidate with no authorization to skip the regression gate, whose process dies after any of its durable effects and leaves
    no lock of a ledger behind, is finished by the supervisor: the process that runs
    [_recover_or_promote] next returns the promotion, and the disk is the one an
    uninterrupted [promote] leaves (with the clock readings of the writes that were made).
    With an authorization the recovery refuses the promotion
    ([authorized_promotion_cannot_continue]); a lock that is left is in its way
    ([held_lock_wedges_ledger]). *)
Theorem interrupted_promotion_recovers cs sha now1 now2 b m s n1 n2 n3 rest :
  let d := run cs init in
  let d' := disk (after (promote sha now1 now2) (World d b)) in
  let g := NInt (CampaignManifest.generation m) in
  holds_manifest d m → holds_state d s → records promotions d = [] →
  obj_get "generation" s = g → files d !! bundles_path g = None → authorized_to_skip sha s = false →
  result_of (promote sha now1 now2) (World d b) = Raise Crash → locks d' = locks d →
  ∃ t1 t2 row rest',
    _recover_or_promote n1 n2 n3 (World d' (5 + rest)) =
      (World (disk (after (promote sha t1 t2) (World d 5))) rest', Ok row) ∧
    obj_get "candidate_sha256" row = NStr sha.
Proof.
  intros d d' g Hm Hs Hr Hg Hf Ha Hc Hl. unfold d' in *. clear d'.
  destruct (promote sha now1 now2 (World d b)) as [w o] eqn:E.
  unfold result_of in Hc. rewrite E in Hc. cbn [snd] in Hc. subst o.
  destruct (promote_inv sha now1 now2 d b _ _ E) as (row & m' & s' & bundle & g' & He & _ & -> & Ew); [done|].
  assert (m' = m) as -> by (eapply holds_manifest_unique; [apply He|done]).
  assert (s' = s) as ->.
  { destruct (earned_state _ _ _ _ _ _ _ He) as [H1 _], Hs as [H2 _]. congruence. }
  pose proof (earned_finishable _ _ _ _ _ _ _ He Ha) as Hfin.
  destruct (run_state_facts cs s Hs) as [Hnd Hsort]. fold d in Hnd.
  pose proof (crashed_unlocked _ _ _ _ _ _ _ _ _ _ _ _ Ew) as Hn.
  pose proof (λ t1 t2 k, promote_writes sha t1 t2 d k m s bundle _ (earned_at _ _ _ _ _ _ _ t1 He Hg) Hn Hr Hg Hf) as Hw.
  pose proof E as E'. rewrite Hw in E'. unfold after in *. rewrite E in Hl |- *.
  pose proof (earned_phase _ _ _ _ _ _ _ He) as Hph. pose proof (earned_candidate _ _ _ _ _ _ _ He) as Hact.
  destruct b as [|[|[|[|[|b]]]]]; [| | | | |by injection E']; injection E' as <-; cbn [fst disk] in *.
  - eexists n1, n2, _, rest. rewrite Hw.
    rewrite (recover_nothing d m s bundle sha _ now1 rest n1 n2 n3 He Hn Hr Hg Hf Hfin). done.
  - by destruct (take_lock_changes promotions d d Hn eq_refl).
  - by destruct (take_lock_changes promotions d _ Hn eq_refl Hl).
  - eexists now1, n3, _, (3 + rest)%nat. rewrite Hw. change (5 + rest)%nat with (2 + (3 + rest))%nat.
    rewrite (recover_ledger d m s bundle sha _ now1 Hm Hs Hph Hact Hg Hfin Hnd Hsort Hf (3 + rest) n1 n2 n3).
    split; [done|]. apply (stored_row_says sha _ _ now1). by apply sorted_get.
  - eexists now1, now2, _, (4 + rest)%nat. rewrite Hw. change (5 + rest)%nat with (1 + (4 + rest))%nat.
    rewrite (recover_pointer d m s bundle sha _ now1 now2 Hm Hs Hph Hact Hg Hfin Hnd Hsort Hf (4 + rest) n1 n2 n3).
    split; [done|]. apply (stored_row_says sha _ _ now1). by apply sorted_get.
Qed.

(** ** Concrete campaigns *)

Lemma phase_at_read d p :
  match files d !! state_path with Some (NDict s) => phase_of s | _ => Raise (ValueError EmptyString : campaign_error) end = Ok p →
  phase_at d p.
Proof. unfold phase_at. destruct (files d !! state_path) as [[]|]; try done. intros E. eexists. by split. Qed.

Definition gated (k : GateKind) (id : string) : call * nat := (RecordGate (sample_decision id k true) "met", 9%nat).
Definition steps (cs : list call) : list (call * nat) := (λ c, (c, 9%nat)) <$> cs.

Definition sample_proposed : list (call * nat) := steps [
  Initialize sample_manifest "t0"; Transition CLUSTER [] "t1"; Transition DIAGNOSE [] "t2";
  Transition PROPOSE [] "t3"; RegisterCandidate sample_candidate "t4"; Transition SAME_SEED_GATE [] "t5"].

(** The operator authorizes the candidate to skip the regression gate
    ([authorize_same_seed_threshold_override]); it passes its other gates. *)
Definition authorized_calls : list (call * nat) := sample_proposed ++ steps [
  Authorize [("authorization_id", NStr "same-seed-threshold-1"); ("candidate_sha256", NStr sample_sha)];
  UpdateState [("same_seed_threshold_authorization_candidate_sha256", NStr sample_sha);
               ("same_seed_threshold_authorization_skip_regression", NBool true)] "t6"] ++
  [gated same_seed "gate-1"] ++ steps [Transition HELDOUT_GATE [] "t7"] ++ [gated heldout_20 "gate-2"] ++
  steps [Transition PROMOTE [] "t8"].

(** [promote] honours an authorized skip of the regression gate and writes the
    promotion; [_recover_or_promote], which every continuation into a child generation runs
    first, checks the policy of the manifest only and refuses that promotion, each time. *)
Theorem authorized_promotion_cannot_continue n1 n2 n3 b :
  is_ok (result_of (promote sample_sha "t9" "t10") (World (run authorized_calls init) 5)) = true ∧
  result_of (_recover_or_promote n1 n2 n3)
    (World (disk (after (promote sample_sha "t9" "t10") (World (run authorized_calls init) 5))) b) =
    Raise (Exn (evolution_error (ValueError "promotion ledger is not supported by all formal gates"))).
Proof. split; vm_compute; reflexivity. Qed.

(** The operator reopens a campaign that ended without a diagnosis, with a provisional
    authorization that skips the regression gate; the candidate passes its other gates. *)
Definition provisional_calls : list (call * nat) := steps [
  Initialize sample_manifest "t0"; Transition CLUSTER [] "t1";
  Transition COMPLETE [("optimization_outcome", NStr "no_actionable_cluster_diagnosis")] "t2";
  Reopen "provisional-1" sample_sha sample_sha 1 true "t3"; RegisterCandidate sample_candidate "t4";
  Transition SAME_SEED_GATE [] "t5"] ++ [gated same_seed "gate-1"] ++
  steps [Timebox "provisional-1" sample_sha "t6"] ++ [gated heldout_20 "gate-2"] ++ steps [Transition PROMOTE [] "t7"].

(** The skip of the regression gate that [reopen_completed_provisional_hypothesis]
    records and [transition_timeboxed_same_seed_to_heldout] honours is not honoured by
    [promote]: the campaign arrives in the promote phase, where every promotion is refused. *)
Theorem provisional_campaign_cannot_promote now1 now2 b :
  phase_at (run provisional_calls init) PROMOTE ∧
  result_of (promote sample_sha now1 now2) (World (run provisional_calls init) b) =
    Raise (Exn (evolution_error (ValueError "candidate has not passed all required pre-heldout gates"))).
Proof.
  split; [|vm_compute; reflexivity].
  apply phase_at_read. vm_compute. reflexivity.
Qed.

(** The disk of [sample_calls], and what it holds. *)
Definition sample_disk : t := Eval vm_compute in run sample_calls init.
Definition sample_stored : CampaignManifest.t := Eval vm_compute in reread_manifest sample_manifest.
Definition sample_state : json_object := Eval vm_compute in
  match files sample_disk !! state_path with Some (NDict s) => s | _ => [] end.
Definition sample_payload : json_object := Eval vm_compute in
  match files sample_disk !! manifest_path with Some (NDict p) => p | _ => [] end.

Lemma sample_disk_run : run sample_calls init = sample_disk.
Proof. vm_compute. reflexivity. Qed.

Lemma sample_promotable :
  holds_manifest (run sample_calls init) sample_stored ∧ holds_state (run sample_calls init) sample_state ∧
  records promotions (run sample_calls init) = [] ∧
  files (run sample_calls init) !! bundles_path (NInt (CampaignManifest.generation sample_stored)) = None ∧
  result_of (promote sample_sha "t9" "t10") (World (run sample_calls init) 3) = Raise Crash ∧
  locks (disk (after (promote sample_sha "t9" "t10") (World (run sample_calls init) 3))) = locks (run sample_calls init).
Proof.
  rewrite sample_disk_run.
  assert (holds_manifest sample_disk sample_stored) as Hm by (exists sample_payload; split; vm_compute; reflexivity).
  split; [done|]. split; [|split_and!; vm_compute; reflexivity].
  split; [vm_compute; reflexivity|]. exists sample_stored. split; [done|]. by vm_compute.
Qed.

Lemma interrupted_promotion_recovers_witness :
  ∃ t1 t2 row rest',
    _recover_or_promote "u1" "u2" "u3"
      (World (disk (after (promote sample_sha "t9" "t10") (World (run sample_calls init) 3))) (5 + 0)) =
      (World (disk (after (promote sample_sha t1 t2) (World (run sample_calls init) 5))) rest', Ok row) ∧
    obj_get "candidate_sha256" row = NStr sample_sha.
Proof.
  destruct sample_promotable as (Hm & Hs & Hp & Hb & Hc & Hl).
  exact (interrupted_promotion_recovers sample_calls sample_sha "t9" "t10" 3 sample_stored sample_state
    "u1" "u2" "u3" 0 Hm Hs Hp eq_refl Hb eq_refl Hc Hl).
Defined.

End Supervisor.
