(* ===== verification/Generations.v ===== *)
(** * The next generation: [build_child_manifest] of [zetta/evolution/supervisor.py]

    A promoted bundle becomes the parent of a child campaign, whose manifest is derived from
    the parent's and preregistered before the child exists.  [shuffle] is the generator of
    [Schedule], [root] the resolved path of the parent's directory.  A JSON number in an
    integer field is an integer.

    Theorems: a child is a well-formed campaign bound to the promoted bundle, with the
    held-out block of its parent; along a lineage no rollout seed is ever used twice and no
    rollout touches a held-out seed. *)

From Stdlib Require Import QArith.
From stdpp Require Import pretty.
From S2P Require Import Prelude Durable PyDict Sorting Sha256 Codec CanonicalJson JsonIO PyFloat EvolutionModels CampaignModels CampaignStore Schedule Promotion.

Import CampaignStore.CampaignStore Promotion.Supervisor.

Open Scope string_scope.
Open Scope list_scope.
Open Scope Z_scope.

Module Generations.

(** ** JSON values as Python reads them *)

(** [str(value)] of a JSON scalar *)
Definition str_of (v : native) : outcome campaign_error string :=
  match v with
  | NStr s => Ok s
  | NInt z => Ok (pretty z)
  | NFloat r => Ok r
  | NBool b => Ok (if b then "True" else "False")
  | NNone => Ok "None"
  | _ => wrong_type
  end.

(** [int(value)] of a JSON integer or boolean *)
Definition int_of (v : native) : outcome campaign_error Z :=
  match v with NInt z => Ok z | NBool b => Ok (Z.b2z b) | _ => wrong_type end.

(** [dict(value)] *)
Definition dict_of (v : native) : outcome campaign_error json_object :=
  match v with NDict d => Ok d | NList [] => Ok [] | _ => wrong_type end.

(** [int(text, 16)] of a digest *)
Definition hex_digit_value (c : Ascii.ascii) : Z :=
  let n := Z.of_nat (Ascii.nat_of_ascii c) in if n <? 58 then n - 48 else n - 87.
Fixpoint hex_int (acc : Z) (s : string) : Z :=
  match s with String c s' => hex_int (acc * 16 + hex_digit_value c) s' | EmptyString => acc end.

(** ** The derivation *)

Definition _derived_child_master_seed (parent : CampaignManifest.t) (promoted_sha256 : string) : Z :=
  let digest := canonical_sha256 (NDict [
    ("parent_manifest_sha256", NStr (CampaignManifest.sha256 parent));
    ("promoted_bundle_sha256", NStr promoted_sha256);
    ("child_generation", NInt (CampaignManifest.generation parent + 1));
    ("purpose", NStr "child-preregistered-seed-schedule")]) in
  Z.land (hex_int 0 (String.substring 0 16 digest)) 2147483647.

(** [parent_runtime.get("evolution_lineage_used_seeds", ())], an array of integers. *)
Definition historical_seeds (runtime : json_object) : outcome campaign_error (list Z) :=
  match assoc_lookup "evolution_lineage_used_seeds" runtime with
  | None => Ok []
  | Some (NList l) =>
      match traverse int_of l with
      | Ok seeds => Ok seeds
      | Raise _ => Raise (ValueError "evolution_lineage_used_seeds must be an integer array" : campaign_error)
      end
  | Some _ => Raise (ValueError "evolution_lineage_used_seeds must be an integer array" : campaign_error)
  end.

(** [used]: every rollout seed of the lineage, the parent's included; a set, here sorted. *)
Definition used_seeds (parent : CampaignManifest.t) (historical : list Z) : list Z :=
  sort_by Z.leb (remove_dups (historical ++ CampaignManifest.rollout_seeds parent)).

Definition child_runtime (parent : CampaignManifest.t) (promotion : json_object) (used : list Z)
    (master_seed : Z) (bundle_files : json_object) (lineage_id : string) : json_object :=
  merge (CampaignManifest.runtime parent) [
    ("bundle_files_by_sha", NDict bundle_files); ("campaign_lineage_id", NStr lineage_id);
    ("evolution_lineage_used_seeds", to_json used);
    ("generation_parent_manifest_sha256", NStr (CampaignManifest.sha256 parent));
    ("generation_promotion_sha256", NStr (canonical_sha256 (NDict promotion)));
    ("generation_schedule_master_seed", NInt master_seed);
    ("rollout_requires_api", NBool true); ("candidate_rollout_requires_api", NBool true)].

(** [replace(parent, ...)], before the constructor's checks. *)
Definition successor (parent : CampaignManifest.t) (promoted lineage_id : string)
    (count : Z) (rollout heldout : list Z) (rng : list (string * Z)) (runtime : json_object) : CampaignManifest.t :=
  let generation := CampaignManifest.generation parent + 1 in {|
    CampaignManifest.campaign_id := lineage_id +:+ "-g" +:+ pad4 generation;
    CampaignManifest.environment := CampaignManifest.environment parent;
    CampaignManifest.task := CampaignManifest.task parent;
    CampaignManifest.generation := generation;
    CampaignManifest.code_commit := CampaignManifest.code_commit parent;
    CampaignManifest.prompt_sha256 := CampaignManifest.prompt_sha256 parent;
    CampaignManifest.model := CampaignManifest.model parent;
    CampaignManifest.tool_catalog_sha256 := CampaignManifest.tool_catalog_sha256 parent;
    CampaignManifest.rollout_seeds := rollout;
    CampaignManifest.heldout_seeds := heldout;
    CampaignManifest.policy_rng_by_seed := rng;
    CampaignManifest.parent_bundle_sha256 := Some promoted;
    CampaignManifest.baseline_mode := Some "active_bundle";
    CampaignManifest.active_bundle_sha256 := Some promoted;
    CampaignManifest.safety_layer := CampaignManifest.safety_layer parent;
    CampaignManifest.expected_rollouts := count;
    CampaignManifest.expected_heldout := CampaignManifest.expected_heldout parent;
    CampaignManifest.initial_logical_slots := CampaignManifest.initial_logical_slots parent;
    CampaignManifest.maximum_logical_slots := CampaignManifest.maximum_logical_slots parent;
    CampaignManifest.continuous_logical_slots := CampaignManifest.continuous_logical_slots parent;
    CampaignManifest.maximum_api_concurrency := CampaignManifest.maximum_api_concurrency parent;
    CampaignManifest.episode_timeout_s := CampaignManifest.episode_timeout_s parent;
    CampaignManifest.no_progress_timeout_s := CampaignManifest.no_progress_timeout_s parent;
    CampaignManifest.target_valid_episodes_per_hour := CampaignManifest.target_valid_episodes_per_hour parent;
    CampaignManifest.max_infrastructure_attempts := CampaignManifest.max_infrastructure_attempts parent;
    CampaignManifest.reasoning_effort := CampaignManifest.reasoning_effort parent;
    CampaignManifest.runtime := runtime;
    CampaignManifest.schema_version := CampaignManifest.schema_version parent;
    CampaignManifest.protocol_explicit := CampaignManifest.protocol_explicit parent |}.

Definition preregistration_path (generation : Z) : string :=
  "analysis/child-preregistration-g" +:+ pad4 generation +:+ ".json".
Definition preregistration (parent child : CampaignManifest.t) (promotion : json_object) (promoted : string)
    (master_seed : Z) (used : list Z) : json_object := [
  ("schema_version", NInt 1); ("parent_manifest_sha256", NStr (CampaignManifest.sha256 parent));
  ("promotion_sha256", NStr (canonical_sha256 (NDict promotion)));
  ("promoted_bundle_sha256", NStr promoted); ("master_seed", NInt master_seed);
  ("excluded_seed_sha256", NStr (canonical_sha256 (to_json used)));
  ("child_manifest", NDict (CampaignManifest.as_dict child));
  ("child_manifest_sha256", NStr (CampaignManifest.sha256 child))].

(** [policy_rng[str(seed)] = parent.policy_rng_by_seed[str(seed)]] *)
Definition keep_rng (parent : CampaignManifest.t) (rng : list (string * Z)) (seed : Z) :
    outcome campaign_error (list (string * Z)) :=
  match assoc_lookup (pretty seed) (CampaignManifest.policy_rng_by_seed parent) with
  | Some z => Ok (assoc_insert (pretty seed) z rng)
  | None => Raise (MissingKey (pretty seed))
  end.
Fixpoint keep_heldout_rng (parent : CampaignManifest.t) (heldout : list Z) (rng : list (string * Z)) :
    outcome campaign_error (list (string * Z)) :=
  match heldout with
  | [] => Ok rng
  | seed :: heldout => rng ← keep_rng parent rng seed; keep_heldout_rng parent heldout rng
  end.

Section derivation.
Context (root : string) (shuffle : Z → list Z → list Z).

(** The seeds of the child: the count, the schedule outside the used seeds, and the
    parent's held-out block with the policy seeds it had. *)
Definition child_schedule (parent : CampaignManifest.t) (used : list Z) (master_seed : Z) (population : list Z) :
    outcome campaign_error (Z * list Z * list Z * list (string * Z)) :=
  count ← match assoc_lookup "subsequent_rollout_count" (CampaignManifest.runtime parent) with
    | Some v => int_of v
    | None => Ok (CampaignManifest.expected_rollouts parent)
    end;
  require (1 <=? count) "subsequent_rollout_count must be positive";;
  schedule ← preregister_seed_schedule shuffle master_seed (CampaignManifest.task parent) count
    (CampaignManifest.expected_heldout parent) (without used population)
    (Some (CampaignManifest.heldout_seeds parent));
  let '(rollout, heldout, rng) := schedule in
  rng ← keep_heldout_rng parent heldout rng;
  Ok (count, rollout, heldout, rng).

(** The child once the bundle was found: its runtime, and the constructor. *)
Definition child_of (parent : CampaignManifest.t) (promoted : string) (promotion : json_object)
    (used : list Z) (master_seed : Z) (seeds : Z * list Z * list Z * list (string * Z)) :
    outcome campaign_error CampaignManifest.t :=
  let runtime := CampaignManifest.runtime parent in
  bundle_files ← dict_of (default (NDict []) (assoc_lookup "bundle_files_by_sha" runtime));
  lineage_id ← str_of (default (NStr (CampaignManifest.campaign_id parent))
                         (assoc_lookup "campaign_lineage_id" runtime));
  let bundle_files := assoc_insert promoted (NStr (root +:+ "/" +:+ bundle_path promoted)) bundle_files in
  let '(count, rollout, heldout, rng) := seeds in
  CampaignManifest.post_init (successor parent promoted lineage_id count rollout heldout rng
    (child_runtime parent promotion used master_seed bundle_files lineage_id)).

Definition build_child_manifest (promoted : string) (next_master_seed : option Z) (population : list Z) :
    op CampaignManifest.t :=
  parent ← manifest;
  s ← state;
  phase ← attempt (phase_of s);
  reject_if (negb (member phase [PROMOTE; COMPLETE])) "child manifest requires a promoted parent campaign" ≫= λ _,
  d ← read_disk;
  match rows_of (NStr promoted) (records promotions d) with
  | [promotion] =>
      historical ← attempt (historical_seeds (CampaignManifest.runtime parent));
      let used := used_seeds parent historical in
      let master_seed := default (_derived_child_master_seed parent promoted) next_master_seed in
      seeds ← attempt (child_schedule parent used master_seed population);
      reject_if match files d !! bundle_path promoted with
        | Some bundle => negb (String.eqb (canonical_sha256 bundle) promoted) | None => true end
        "promoted bundle artifact is missing or corrupted" ≫= λ _,
      child ← attempt (child_of parent promoted promotion used master_seed seeds);
      let record := NDict (preregistration parent child promotion promoted master_seed used) in
      let path := preregistration_path (CampaignManifest.generation parent + 1) in
      atomic_write_json path record false ≫= λ _,
      d ← read_disk;
      reject_if match files d !! path with
        | Some stored => negb (String.eqb (canonical_sha256 stored) (canonical_sha256 record)) | None => true end
        "child preregistration changed during recovery" ≫= λ _,
      mret child
  | _ => fail "child manifest requires one immutable promotion record"
  end.
End derivation.

(** ** What a derivation returns *)

Lemma elem_of_used x parent h : x ∈ used_seeds parent h ↔ x ∈ h ∨ x ∈ CampaignManifest.rollout_seeds parent.
Proof. unfold used_seeds. by rewrite sort_by_perm, elem_of_remove_dups, elem_of_app. Qed.

(** The held-out seeds get the parent's policy seeds; the others keep theirs. *)
Lemma keep_heldout_ok parent heldout rng rng' :
  keep_heldout_rng parent heldout rng = Ok rng' →
  (∀ s, s ∈ heldout → assoc_lookup (pretty s) rng' =
     assoc_lookup (pretty s) (CampaignManifest.policy_rng_by_seed parent)) ∧
  (∀ k, k ∉ pretty <$> heldout → assoc_lookup k rng' = assoc_lookup k rng) ∧
  (NoDup rng.*1 → NoDup rng'.*1).
Proof.
  revert rng. induction heldout as [|x l IH]; intros rng; simpl.
  { intros [= ->]. split_and!; [by intros s ?%elem_of_nil|done|done]. }
  intros (rng1 & E1 & E)%outcome_bind_ok. unfold keep_rng in E1.
  destruct (assoc_lookup (pretty x) (CampaignManifest.policy_rng_by_seed parent)) as [z|] eqn:Ez; [|done].
  injection E1 as <-. revert E.
  intros (H1 & H2 & H3)%IH. split_and!.
  - intros s. destruct (decide (s ∈ l)) as [Hs|Hs]; [intros _; by apply H1|].
    intros [-> |Hin]%elem_of_cons; [|done]. rewrite H2, assoc_lookup_insert, decide_True by
      (done || (intros (y & Ey%(inj pretty) & Hy)%list_elem_of_fmap; by subst)). done.
  - intros k Hk. rewrite elem_of_cons in Hk. rewrite H2 by naive_solver.
    rewrite assoc_lookup_insert, decide_False; [done|]. naive_solver.
  - intros Hnd. apply H3. exact (dict_wf_insert (PyDict rng) _ _ Hnd).
Qed.

(** The rollout seeds of a campaign and of its ancestors, as its manifest tells them. *)
Definition lineage_of (m : CampaignManifest.t) (l : list Z) : Prop :=
  ∃ h, historical_seeds (CampaignManifest.runtime m) = Ok h ∧
    ∀ x, x ∈ l ↔ x ∈ h ∨ x ∈ CampaignManifest.rollout_seeds m.

(** A well-formed campaign bound to the promoted bundle, outside the lineage of its parent. *)
Record continues (parent child : CampaignManifest.t) (promoted : string) : Prop := {
  child_constructed : CampaignManifest.constructed child;
  child_generation : CampaignManifest.generation child = CampaignManifest.generation parent + 1;
  child_world : CampaignManifest.environment child = CampaignManifest.environment parent ∧
    CampaignManifest.task child = CampaignManifest.task parent;
  child_bundle : CampaignManifest.baseline_mode child = Some "active_bundle" ∧
    CampaignManifest.active_bundle_sha256 child = Some promoted ∧
    CampaignManifest.parent_bundle_sha256 child = Some promoted;
  child_heldout : CampaignManifest.heldout_seeds child = CampaignManifest.heldout_seeds parent;
  child_heldout_rng s : s ∈ CampaignManifest.heldout_seeds child →
    assoc_lookup (pretty s) (CampaignManifest.policy_rng_by_seed child) =
    assoc_lookup (pretty s) (CampaignManifest.policy_rng_by_seed parent);
  child_fresh l s : lineage_of parent l → s ∈ CampaignManifest.rollout_seeds child → s ∉ l;
  child_lineage l : lineage_of parent l →
    ∃ h, historical_seeds (CampaignManifest.runtime child) = Ok h ∧ ∀ x, x ∈ h ↔ x ∈ l;
  child_runtime_keys : NoDup (CampaignManifest.runtime parent).*1 → NoDup (CampaignManifest.runtime child).*1;
}.

(** A checked manifest names a digest, and keeps its rollouts off its held-out block. *)
Lemma check_facts m :
  CampaignManifest.check m = Ok tt →
  (∀ sha, CampaignManifest.parent_bundle_sha256 m = Some sha → str_true sha = true) ∧
  (∀ s, s ∈ CampaignManifest.rollout_seeds m → s ∉ CampaignManifest.heldout_seeds m).
Proof.
  unfold CampaignManifest.check.
  intros ([] & _ & ([] & _ & ([] & _ & ([] & Hp & H)%outcome_bind_ok)%outcome_bind_ok)%outcome_bind_ok)%outcome_bind_ok.
  split.
  - intros [|c s] E; [|done]. rewrite E in Hp. by vm_compute in Hp.
  - apply outcome_bind_ok in H as ([] & _ & H). apply outcome_bind_ok in H as ([] & _ & H).
    apply outcome_bind_ok in H as ([] & _ & H). apply outcome_bind_ok in H as ([] & _ & H).
    apply requires_ok in H. apply Forall_cons in H as [H _]. cbn [fst] in H. intros s Hs Hh.
    apply negb_true_iff, not_true_iff_false in H. apply H, existsb_exists. exists s.
    split; [by apply list_elem_of_In|]. by apply bool_decide_eq_true.
Qed.

Section lineage.
Context (root : string) (shuffle : Z → list Z → list Z) (shuffle_perm : ∀ seed l, shuffle seed l ≡ₚ l).

(** The schedule of a child: fresh seeds, the parent's held-out block and its policy seeds. *)
Lemma child_schedule_ok parent h master population count rollout heldout rng :
  child_schedule shuffle parent (used_seeds parent h) master population = Ok (count, rollout, heldout, rng) →
  heldout = CampaignManifest.heldout_seeds parent ∧ NoDup rng.*1 ∧
  (∀ s, s ∈ rollout → s ∉ used_seeds parent h) ∧
  (∀ s, s ∈ heldout → assoc_lookup (pretty s) rng =
     assoc_lookup (pretty s) (CampaignManifest.policy_rng_by_seed parent)).
Proof.
  unfold child_schedule, require. intros (n & _ & H)%outcome_bind_ok. apply ensure_bind_ok in H as [_ H].
  apply outcome_bind_ok in H as ([[ro he] po] & Hs & H). apply outcome_bind_ok in H as (rng' & Hk & [= <- <- <- <-]).
  apply (schedule_sound shuffle shuffle_perm) in Hs as ([_ _ _ Hknown Hfix] & Hnd & _).
  apply keep_heldout_ok in Hk as (H1 & _ & H3). split_and!; [by apply Hfix|by apply H3| |exact H1].
  intros s Hin. assert (s ∈ ro ++ he) as Hin' by (apply elem_of_app; by left).
  apply Hknown, elem_of_without in Hin' as [_ Hin']. exact Hin'.
Qed.

Lemma child_of_ok parent promoted promotion used master count rollout heldout rng child :
  child_of root parent promoted promotion used master (count, rollout, heldout, rng) = Ok child →
  ∃ files id, child = successor parent promoted id count rollout heldout rng
      (child_runtime parent promotion used master files id) ∧ CampaignManifest.check child = Ok tt.
Proof.
  unfold child_of. intros (files & _ & H)%outcome_bind_ok. apply outcome_bind_ok in H as (id & _ & H).
  unfold CampaignManifest.post_init in H. apply outcome_bind_ok in H as ([] & Hc & [= <-]).
  eexists _, _. split; [reflexivity|exact Hc].
Qed.

Lemma successor_constructed parent promoted id count rollout heldout rng runtime :
  let child := successor parent promoted id count rollout heldout rng runtime in
  CampaignManifest.constructed parent → CampaignManifest.check child = Ok tt → NoDup rng.*1 →
  CampaignManifest.constructed child.
Proof.
  intros child (_ & _ & Hsafe & _ & Hlegacy) Hc Hnd. destruct (check_facts _ Hc) as [Hsha _].
  split_and!; try done. intros Hex. destruct (Hlegacy Hex) as [Hdef _]. split_and!; [exact Hdef|done|].
  simpl. by rewrite (Hsha promoted eq_refl).
Qed.

Lemma historical_of_ints runtime l :
  assoc_lookup "evolution_lineage_used_seeds" runtime = Some (to_json l) → historical_seeds runtime = Ok l.
Proof.
  intros E. unfold historical_seeds. rewrite E. simpl.
  assert (traverse int_of (NInt <$> l) = Ok l) as ->; [|done]. by apply traverse_fmap.
Qed.

Lemma child_runtime_lineage parent promotion used master files id :
  historical_seeds (child_runtime parent promotion used master files id) = Ok used.
Proof. apply historical_of_ints. unfold child_runtime. by rewrite lookup_merge. Qed.

(** The parts of a call that returned. *)
Lemma build_child_inv promoted seed population d b w child :
  build_child_manifest root shuffle promoted seed population (World d b) = (w, Ok child) →
  ∃ parent promotion h master seeds, holds_manifest d parent ∧
    rows_of (NStr promoted) (records promotions d) = [promotion] ∧
    historical_seeds (CampaignManifest.runtime parent) = Ok h ∧
    child_schedule shuffle parent (used_seeds parent h) master population = Ok seeds ∧
    child_of root parent promoted promotion (used_seeds parent h) master seeds = Ok child ∧
    ∃ stored, files (disk w) !! preregistration_path (CampaignManifest.generation parent + 1) = Some stored ∧
      canonical_sha256 stored = canonical_sha256
        (NDict (preregistration parent child promotion promoted master (used_seeds parent h))).
Proof.
  intros E. assert (no_exn (Ok child)) as Hn by done. unfold build_child_manifest in E.
  apply manifest_inv in E as (parent & Hm & E); [|done].
  apply state_inv in E as (s & _ & E); [|done].
  apply attempt_inv in E as (phase & _ & E); [|done].
  apply reject_inv in E as [_ E]; [|done].
  apply (quiet_inv read_disk) in E as (d' & [= <-] & E); [|apply quiet_read|done].
  destruct (rows_of (NStr promoted) (records promotions d)) as [|promotion [|]] eqn:Hr; try done.
  apply attempt_inv in E as (h & Hh & E); [|done]. cbn zeta in E.
  apply attempt_inv in E as (seeds & Hs & E); [|done].
  apply reject_inv in E as [_ E]; [|done].
  apply attempt_inv in E as (c & Hc & E); [|done].
  exists parent, promotion, h. eexists _, seeds.
  unfold mbind at 1, prog_bind at 1 in E. destruct (atomic_write_json _ _ _ _) as [w1 [sha|]]; [|done].
  unfold mbind at 1, prog_bind at 1 in E. cbn [read_disk] in E.
  apply reject_inv in E as [Hst E]; [|done]. injection E as <- ->. split_and!; try done.
  destruct (files (disk w1) !! _) as [stored|]; [|done]. exists stored. split; [done|].
  by apply negb_false_iff, String.eqb_eq in Hst.
Qed.

Lemma child_continues_full promoted seed population d b w child parent :
  holds_manifest d parent → CampaignManifest.constructed parent →
  build_child_manifest root shuffle promoted seed population (World d b) = (w, Ok child) →
  continues parent child promoted ∧
  ∃ promotion master used stored, rows_of (NStr promoted) (records promotions d) = [promotion] ∧
    files (disk w) !! preregistration_path (CampaignManifest.generation child) = Some stored ∧
    canonical_sha256 stored = canonical_sha256 (NDict (preregistration parent child promotion promoted master used)).
Proof.
  intros Hm Hc H. apply build_child_inv in H as
    (parent' & promotion & h & master & [[[count rollout] heldout] rng] & Hm' & Hr & Hh & Hs & Hch & stored & Hst).
  assert (parent' = parent) as -> by by eapply holds_manifest_unique.
  apply child_schedule_ok in Hs as (-> & Hnd & Hfresh & Hrng). apply child_of_ok in Hch as (fs & id & -> & Hck).
  split; [|exists promotion, master, (used_seeds parent h), stored; done].
  split; try done.
  - by apply successor_constructed.
  - intros l s (h' & Hh' & Hl) Hin. assert (h' = h) as -> by congruence. rewrite Hl.
    intros Hor%elem_of_used. by apply (Hfresh s).
  - intros l (h' & Hh' & Hl). assert (h' = h) as -> by congruence. exists (used_seeds parent h).
    split; [apply child_runtime_lineage|]. intros x. by rewrite Hl, elem_of_used.
  - intros Hrt. by apply merge_NoDup.
Qed.

Lemma child_continues_aux promoted seed population d b w child parent :
  holds_manifest d parent → CampaignManifest.constructed parent →
  build_child_manifest root shuffle promoted seed population (World d b) = (w, Ok child) →
  continues parent child promoted.
Proof. intros Hm Hc H. by destruct (child_continues_full promoted seed population d b w child parent Hm Hc H). Qed.

(** C31: what a promotion leads to.  A child that [build_child_manifest] returns is a
    well-formed campaign: one generation later, in the same world, active on the promoted
    bundle, with the held-out block of its parent under the policy seeds it had there, and
    with rollout seeds none of its ancestors used; it records all of them; and it was
    preregistered, in the file named by its generation, before it was returned. *)
Theorem child_continues_parent promoted seed population d b w child parent :
  holds_manifest d parent → CampaignManifest.constructed parent →
  build_child_manifest root shuffle promoted seed population (World d b) = (w, Ok child) →
  continues parent child promoted ∧
  ∃ promotion master used stored, rows_of (NStr promoted) (records promotions d) = [promotion] ∧
    files (disk w) !! preregistration_path (CampaignManifest.generation child) = Some stored ∧
    canonical_sha256 stored = canonical_sha256 (NDict (preregistration parent child promotion promoted master used)).
Proof. apply child_continues_full. Qed.

(** A lineage, the youngest campaign first; a child is read back from its own store. *)
Inductive lineage : list CampaignManifest.t → Prop :=
  | founder m h : CampaignManifest.constructed m → NoDup (CampaignManifest.runtime m).*1 →
      historical_seeds (CampaignManifest.runtime m) = Ok h → lineage [m]
  | generation_after parent ms promoted seed population d b w child :
      lineage (parent :: ms) → holds_manifest d parent →
      build_child_manifest root shuffle promoted seed population (World d b) = (w, Ok child) →
      lineage (reread_manifest child :: parent :: ms).

(** What reading a manifest back leaves as it was. *)
Lemma reread_facts m :
  CampaignManifest.constructed m → NoDup (CampaignManifest.runtime m).*1 →
  let r := reread_manifest m in
  CampaignManifest.constructed r ∧ NoDup (CampaignManifest.runtime r).*1 ∧
  CampaignManifest.rollout_seeds r = CampaignManifest.rollout_seeds m ∧
  CampaignManifest.heldout_seeds r = CampaignManifest.heldout_seeds m ∧
  CampaignManifest.generation r = CampaignManifest.generation m ∧
  (∀ k, assoc_lookup k (CampaignManifest.policy_rng_by_seed r) = assoc_lookup k (CampaignManifest.policy_rng_by_seed m)).
Proof.
  intros (Hc & Hf & Hs & Hnd & Hl) Hrt r. split_and!; [split_and!| | | | |].
  - unfold r. by rewrite reread_manifest_check.
  - by apply reread_filled.
  - unfold r. by destruct m.
  - unfold r. destruct m. simpl in *. unfold sort_items. by rewrite sort_by_perm.
  - unfold r. by destruct m.
  - unfold r. destruct m. simpl in *. by apply sorted_object_NoDup.
  - unfold r. by destruct m.
  - unfold r. by destruct m.
  - unfold r. by destruct m.
  - intros k. unfold r. destruct m. simpl in *. symmetry. apply assoc_lookup_perm; [done|].
    unfold sort_items. by rewrite sort_by_perm.
Qed.

Lemma traverse_ints_sorted l h : traverse int_of l = Ok h → traverse int_of (sort_keys <$> l) = Ok h.
Proof.
  rewrite !traverse_ok, Forall2_fmap_l. intros H. eapply Forall2_impl; [exact H|]. by intros [].
Qed.

Lemma reread_historical m h :
  NoDup (CampaignManifest.runtime m).*1 → historical_seeds (CampaignManifest.runtime m) = Ok h →
  historical_seeds (CampaignManifest.runtime (reread_manifest m)) = Ok h.
Proof.
  intros Hnd H. destruct m as [i en ta ge co pr mo tc ro he rng pa ba ac sa er eh il ml cl ma et np tv mi re ru sv ex].
  simpl in *. unfold historical_seeds in *. rewrite sorted_object_lookup by done.
  destruct (assoc_lookup "evolution_lineage_used_seeds" ru) as [[]|]; try done. simpl.
  destruct (traverse int_of l) as [h'|] eqn:E; [|done].
  by rewrite (traverse_ints_sorted l h').
Qed.

(** What holds at the head of a lineage: the manifest tells the seeds of all of it. *)
Record head_wf (m : CampaignManifest.t) (ms : list CampaignManifest.t) : Prop := {
  head_constructed : CampaignManifest.constructed m;
  head_runtime : NoDup (CampaignManifest.runtime m).*1;
  head_remembers : ∃ h, historical_seeds (CampaignManifest.runtime m) = Ok h ∧
    ∀ a s, a ∈ ms → s ∈ CampaignManifest.rollout_seeds a → s ∈ h;
}.

(** How a campaign relates to its ancestors. *)
Definition apart (child ancestor : CampaignManifest.t) : Prop :=
  CampaignManifest.generation ancestor < CampaignManifest.generation child ∧
  (∀ s, s ∈ CampaignManifest.rollout_seeds child → s ∉ CampaignManifest.rollout_seeds ancestor) ∧
  CampaignManifest.heldout_seeds child = CampaignManifest.heldout_seeds ancestor ∧
  ∀ s, s ∈ CampaignManifest.heldout_seeds child →
    assoc_lookup (pretty s) (CampaignManifest.policy_rng_by_seed child) =
    assoc_lookup (pretty s) (CampaignManifest.policy_rng_by_seed ancestor).

Lemma lineage_head m ms : lineage (m :: ms) → head_wf m ms ∧ Forall (apart m) ms.
Proof.
  intros H. remember (m :: ms) as l eqn:E. revert m ms E.
  induction H as [m h Hc Hrt Hh|parent ms promoted seed population d b w child Hl IH Hm Hb]; intros m0 ms0 [= <- <-].
  { split; [|constructor]. split; [done..|]. exists h. split; [done|]. by intros a s ?%elem_of_nil. }
  destruct (IH parent ms eq_refl) as [[Hc Hrt (h & Hh & Hmem)] Hap]. clear IH.
  assert (lineage_of parent (used_seeds parent h)) as Hlin by (exists h; split; [done|]; intros x; apply elem_of_used).
  destruct (child_continues_aux promoted seed population d b w child parent Hm Hc Hb) as [C1 C2 C3 C4 C5 C6 C7 C8 C9].
  specialize (C9 Hrt). destruct (reread_facts child C1 C9) as (R1 & R2 & R3 & R4 & R5 & R6).
  destruct (C8 _ Hlin) as (h' & Hh' & Hin'). split.
  - split; [done..|]. exists h'. split; [by apply reread_historical|].
    intros a s [-> |Ha]%elem_of_cons Hs; apply Hin', elem_of_used; [by right|]. left. by eapply Hmem.
  - assert (apart (reread_manifest child) parent) as Hparent.
    { split_and!; [lia| |congruence|].
      - intros s Hs Hp. rewrite R3 in Hs. eapply C7; [exact Hlin|exact Hs|]. apply elem_of_used. by right.
      - intros s Hs. rewrite R6. apply C6. by rewrite <- R4. }
    constructor; [done|]. rewrite Forall_forall in Hap |- *. intros a Ha.
    destruct (Hap a Ha) as (A1 & A2 & A3 & A4), Hparent as (P1 & P2 & P3 & P4). split_and!; [lia| |congruence|].
    + intros s Hs Hsa. rewrite R3 in Hs. eapply C7; [exact Hlin|exact Hs|]. apply elem_of_used. left. by eapply Hmem.
    + intros s Hs. rewrite P4 by done. apply A4. congruence.
Qed.

(** C18: along any lineage of generations, no rollout seed of a campaign is one of an
    ancestor's, every campaign has the held-out block of the founder under the same policy
    seeds, and no campaign of the lineage rolls out a held-out seed of any other. *)
Theorem lineage_never_reuses_seeds ms :
  lineage ms →
  ForallOrdPairs apart ms ∧
  ∀ m a s, m ∈ ms → a ∈ ms → s ∈ CampaignManifest.rollout_seeds m → s ∉ CampaignManifest.heldout_seeds a.
Proof.
  intros H. assert (ForallOrdPairs apart ms ∧ Forall CampaignManifest.constructed ms) as [Hp Hc].
  { induction H as [m h Hc Hrt Hh|parent ms promoted seed population d b w child Hl IH Hm Hb].
    - split; [constructor; constructor|by apply Forall_singleton].
    - destruct (lineage_head (reread_manifest child) (parent :: ms)) as [[Hc _ _] Ha]; [by eapply generation_after|].
      destruct IH as [IH1 IH2]. split; by constructor. }
  split; [done|]. intros m a s Hm Ha Hs. rewrite Forall_forall in Hc.
  assert (CampaignManifest.heldout_seeds m = CampaignManifest.heldout_seeds a) as <-.
  { clear -Hp Hm Ha. induction Hp as [|x l Hx Hp IH]; [by apply elem_of_nil in Hm|].
    rewrite Forall_forall in Hx. apply elem_of_cons in Hm as [-> |Hm], Ha as [-> |Ha]; try done.
    - by destruct (Hx a Ha) as (_ & _ & ? & _).
    - by destruct (Hx m Hm) as (_ & _ & ? & _).
    - by apply IH. }
  destruct (Hc m Hm) as (Hck & _). by apply (check_facts m Hck).
Qed.
End lineage.

(** ** The child of the sample campaign *)

Definition backwards (_ : Z) (l : list Z) : list Z := reverse l.
Lemma backwards_perm seed l : backwards seed l ≡ₚ l.
Proof. apply reverse_Permutation. Qed.

Definition promoted_disk : t := Eval vm_compute in disk (after (promote sample_sha "t9" "t10") (World sample_disk 9)).
Definition sample_outcome : world t * outcome (stop campaign_error) CampaignManifest.t := Eval vm_compute in
  build_child_manifest "/runs/camp" backwards sample_sha None [3; 4; 5; 7; 11] (World promoted_disk 9).
Definition sample_child : CampaignManifest.t := match sample_outcome.2 with Ok c => c | _ => sample_stored end.

Lemma sample_built :
  build_child_manifest "/runs/camp" backwards sample_sha None [3; 4; 5; 7; 11] (World promoted_disk 9) =
    (sample_outcome.1, Ok sample_child).
Proof. vm_compute. reflexivity. Qed.
Lemma sample_parent : holds_manifest promoted_disk sample_stored.
Proof. exists sample_payload. split; vm_compute; reflexivity. Qed.
Lemma sample_stored_constructed : CampaignManifest.constructed sample_stored.
Proof.
  split_and!; try (vm_compute; reflexivity); [|done].
  apply (bool_decide_unpack _). vm_compute. exact I.
Qed.

Lemma child_continues_parent_witness :
  CampaignManifest.rollout_seeds sample_child = [4; 3] ∧ continues sample_stored sample_child sample_sha.
Proof.
  split; [reflexivity|].
  exact (proj1 (child_continues_parent "/runs/camp" backwards backwards_perm sample_sha None [3; 4; 5; 7; 11]
    promoted_disk 9 sample_outcome.1 sample_child sample_stored sample_parent sample_stored_constructed sample_built)).
Defined.

Lemma sample_lineage : lineage "/runs/camp" backwards [reread_manifest sample_child; sample_stored].
Proof.
  eapply generation_after; [|exact sample_parent|exact sample_built].
  apply (founder _ _ _ []); [exact sample_stored_constructed| |vm_compute; reflexivity].
  apply (bool_decide_unpack _). vm_compute. exact I.
Qed.

Lemma lineage_never_reuses_seeds_witness :
  ForallOrdPairs apart [reread_manifest sample_child; sample_stored].
Proof. exact (proj1 (lineage_never_reuses_seeds "/runs/camp" backwards backwards_perm _ sample_lineage)). Defined.

End Generations.
