(* ===== verification/Gating.v ===== *)
(** * Paired candidate gates: [zetta/evolution/gating.py]

    A gate compares the episodes of a candidate bundle with those of its parent, seed by
    seed, and decides promotion: the same-seed gate (the candidate rescues what the
    parent failed), the regression gate, and the preregistered held-out gates with the
    one-sided exact McNemar test.  [Gate] holds the keyword arguments of
    [evaluate_paired_gate].  Floats are binary64 values ([PyFloat.v]), so every rounding
    of the code is in the model; the decision's [rationale] keeps the message and its
    values without rendering the numbers.

    Theorems: the p-value is the rounded fraction of fair coin flips, a passed held-out
    gate means that the exact tail is below alpha, a passed same-seed gate exhibits a
    rescued seed the candidate intervened on, decisions do not depend on the order of the
    records or on invalid ones, and which decision identities coincide. *)

From Stdlib Require Import QArith Qround Lqa.
From stdpp Require Import pretty.
From S2P Require Import Prelude PyDict Sorting Sha256 Codec CanonicalJson JsonIO PyFloat EvolutionModels.

Open Scope string_scope.
Open Scope list_scope.
Open Scope Z_scope.

(** [math.comb], by rows of Pascal's triangle. *)
Fixpoint pascal (n : nat) : list Z :=
  match n with
  | O => [1]
  | S n' => zip_with Z.add (0 :: pascal n') (pascal n' ++ [0])
  end.
Definition comb (n k : Z) : Z := default 0 (pascal (Z.to_nat n) !! Z.to_nat k).

(** The number of outcomes of [n] flips with at least [k] heads. *)
Definition tail_count (k n : Z) : Z := sumZ (comb n) (seqZ k (n + 1 - k)).

Definition one_sided_exact_mcnemar (candidate_wins parent_wins : Z) : outcome evo_error Q :=
  if (candidate_wins <? 0) || (parent_wins <? 0) then
    Raise (ValueError "paired win counts must be non-negative")
  else
    let discordant := candidate_wins + parent_wins in
    if discordant =? 0 then Ok 1%Q
    else Ok (int_div (tail_count candidate_wins discordant) (2 ^ discordant)).

(** The records by seed; an infrastructure failure is skipped. *)
Fixpoint _valid_by_seed (records : list EpisodeRecord) (result : pydict Z EpisodeRecord) :
    outcome evo_error (pydict Z EpisodeRecord) :=
  match records with
  | [] => Ok result
  | r :: records' =>
      if negb (is_valid r) then _valid_by_seed records' result
      else if has_key result (seed r) then
        Raise (ValueError ("duplicate valid paired seed: " +:+ pretty (seed r)))
      else _valid_by_seed records' (<[seed r := r]> result)
  end.

(** [f"{seeds}"] *)
Definition show_seeds (l : list Z) : string := "[" +:+ join ", " (pretty <$> l) +:+ "]".

Definition _assert_bundle_binding (records : pydict Z EpisodeRecord) (expected : option string)
    (arm : string) : outcome evo_error unit :=
  let mismatched := sort_by Z.leb
    (bfilter (λ kv, negb (bool_decide (bundle_sha256 kv.2 = expected))) (items records)).*1 in
  ensure (bool_decide (mismatched = []))
    (ValueError (arm +:+ " gate records are not bound to the declared bundle: "
                   +:+ show_seeds mismatched)).

Definition _action_artifact_sha (r : EpisodeRecord) : option string :=
  match obj_get "trajectory_index" (artifact_index r) with
  | NDict trajectory =>
      match obj_get "artifact_sha256" trajectory with
      | NDict hashes => match obj_get "actions" hashes with NStr s => Some s | _ => None end
      | _ => None
      end
  | _ => None
  end.

(** [bool(value)] of a JSON value *)
Definition json_truthy (n : native) : bool :=
  match n with
  | NNone => false
  | NBool b => b
  | NInt z => negb (z =? 0)
  | NFloat r => negb (String.eqb r "0.0" || String.eqb r "-0.0")
  | NStr s | NBytes s => str_true s
  | NList l => negb (Nat.eqb (length l) 0)
  | NDict l => negb (Nat.eqb (length l) 0)
  end.

Definition _candidate_intervened (r : EpisodeRecord) : bool :=
  match obj_get "candidate_intervention" (artifact_index r) with
  | NNone => existsb (λ kv, String.prefix "role1:" kv.1) (artifact_index r)
  | declared => json_truthy declared
  end.

(** [value.get(key, {})] *)
Definition get_object (key : string) (d : json_object) : native :=
  default (NDict []) (assoc_lookup key d).

Definition digest_text (n : native) : option string :=
  match n with NStr s => if str_true s then Some s else None | _ => None end.

Definition _same_physical_reset (candidate parent : json_object) : outcome evo_error (bool * bool) :=
  match obj_get "state_sha256" candidate, obj_get "state_sha256" parent with
  | NNone, NNone =>
      Ok (String.eqb (canonical_sha256 (NDict candidate)) (canonical_sha256 (NDict parent)), false)
  | candidate_state, parent_state =>
      match digest_text candidate_state with
      | None => Raise (ValueError "candidate reset identity has no physical state digest")
      | Some c =>
          match digest_text parent_state with
          | None => Raise (ValueError "parent reset identity has no physical state digest")
          | Some p =>
              Ok (String.eqb c p,
                  negb (String.eqb (canonical_sha256 (get_object "camera_sha256" candidate))
                          (canonical_sha256 (get_object "camera_sha256" parent))))
          end
      end
  end.

(** A nonempty object, or the error. *)
Definition identity_of (who : string) (r : EpisodeRecord) : outcome evo_error json_object :=
  match obj_get "initial_observation_identity" (artifact_index r) with
  | NDict ((_ :: _) as d) => Ok d
  | _ => Raise (ValueError (who +:+ " is missing initial observation identity"))
  end.

Definition _assert_paired_evidence (candidate parent : EpisodeRecord) (require_divergence : bool) :
    outcome evo_error (bool * bool) :=
  ensure (policy_rng candidate =? policy_rng parent)
    (ValueError "paired gate requires identical policy RNG per seed");;
  candidate_identity ← identity_of "candidate" candidate;
  parent_identity ← identity_of "parent" parent;
  reset ← _same_physical_reset candidate_identity parent_identity;
  ensure reset.1 (ValueError "paired gate initial observation identity differs");;
  if require_divergence then
    match _action_artifact_sha candidate, _action_artifact_sha parent with
    | Some c, Some p =>
        if str_true c && str_true p then Ok (negb (String.eqb c p), reset.2)
        else Raise (ValueError "same-seed gate requires action trajectory digests")
    | _, _ => Raise (ValueError "same-seed gate requires action trajectory digests")
    end
  else Ok (false, reset.2).

(** The keyword arguments of [evaluate_paired_gate]. *)
Record Gate := {
  gate_kind : GateKind;
  gate_candidate : string;
  gate_parent : option string;
  candidate_records : list EpisodeRecord;
  parent_records : list EpisodeRecord;
  expected_seeds : list Z;
  gate_alpha : option Q;
  same_seed_pass_rate : Q;
  heldout_min_gain : Z;
  heldout_min_success_rate : Q;
  heldout_require_significance : bool;
}.

Definition same_elements (l k : list Z) : bool :=
  forallb (λ x, member x k) l && forallb (λ x, member x l) k.

(** [sorted(expected - set(found))] *)
Definition missing_seeds (expected found : list Z) : list Z :=
  sort_by Z.leb (remove_dups (bfilter (λ x, negb (member x found)) expected)).

(** The two arms, with exactly one valid episode for every expected seed. *)
Definition paired_arms (g : Gate) :
    outcome evo_error (pydict Z EpisodeRecord * pydict Z EpisodeRecord) :=
  candidate ← _valid_by_seed (candidate_records g) ∅;
  parent ← _valid_by_seed (parent_records g) ∅;
  _assert_bundle_binding candidate (Some (gate_candidate g)) "candidate";;
  _assert_bundle_binding parent (gate_parent g) "parent";;
  ensure (same_elements (keys candidate) (expected_seeds g) &&
          same_elements (keys parent) (expected_seeds g))
    (ValueError ("paired gate requires exactly one valid result per seed; candidate_missing="
       +:+ show_seeds (missing_seeds (expected_seeds g) (keys candidate)) +:+ ", parent_missing="
       +:+ show_seeds (missing_seeds (expected_seeds g) (keys parent))));;
  ensure (flt 0 (same_seed_pass_rate g) && Qle_bool (same_seed_pass_rate g) 1)
    (ValueError "same-seed pass rate must be in (0, 1]");;
  Ok (candidate, parent).

Record Evidence := { divergence : bool; camera_mismatch : bool; intervention : bool }.

(** [records[seed]] *)
Definition at_seed (records : pydict Z EpisodeRecord) (s : Z) : outcome evo_error EpisodeRecord :=
  match records !! s with Some r => Ok r | None => Raise (KeyError s) end.

(** One round of the loop over the expected seeds. *)
Definition pair_evidence (require_divergence : bool) (candidate parent : pydict Z EpisodeRecord)
    (s : Z) : outcome evo_error Evidence :=
  c ← at_seed candidate s;
  p ← at_seed parent s;
  e ← _assert_paired_evidence c p require_divergence;
  Ok {| divergence := e.1; camera_mismatch := e.2; intervention := _candidate_intervened c |}.

(** The loop, filling the dictionaries. *)
Fixpoint collect_evidence (require_divergence : bool) (candidate parent : pydict Z EpisodeRecord)
    (seeds : list Z) (by_seed : pydict Z Evidence) : outcome evo_error (pydict Z Evidence) :=
  match seeds with
  | [] => Ok by_seed
  | s :: seeds' =>
      e ← pair_evidence require_divergence candidate parent s;
      collect_evidence require_divergence candidate parent seeds' (<[s := e]> by_seed)
  end.

(** What the code counts over the expected seeds. *)
Definition succeeded (records : pydict Z EpisodeRecord) (s : Z) : bool :=
  match records !! s with Some r => default false (success r) | None => false end.

Definition safety_count (records : pydict Z EpisodeRecord) (s : Z) : Z :=
  match records !! s with Some r => zlen (safety_events r) | None => 0 end.

Definition diverged_and_intervened (evidence : pydict Z Evidence) (s : Z) : bool :=
  match evidence !! s with Some e => divergence e && intervention e | None => false end.

Record Tally := {
  n_seeds : Z;
  mechanism_diverged : bool;
  candidate_success_count : Z;
  parent_success_count : Z;
  candidate_win_count : Z;
  parent_win_count : Z;
  candidate_safety : Z;
  parent_safety : Z;
  rescued_seeds : list Z;
  causally_rescued_seeds : list Z;
}.

Definition tally (seeds : list Z) (candidate parent : pydict Z EpisodeRecord)
    (evidence : pydict Z Evidence) : Tally :=
  let rescued s := succeeded candidate s && negb (succeeded parent s) in
  {| n_seeds := zlen seeds;
     mechanism_diverged := existsb (diverged_and_intervened evidence) seeds;
     candidate_success_count := count (succeeded candidate) seeds;
     parent_success_count := count (succeeded parent) seeds;
     candidate_win_count := count rescued seeds;
     parent_win_count := count (λ s, succeeded parent s && negb (succeeded candidate s)) seeds;
     candidate_safety := sumZ (safety_count candidate) seeds;
     parent_safety := sumZ (safety_count parent) seeds;
     rescued_seeds := bfilter rescued seeds;
     causally_rescued_seeds := bfilter (diverged_and_intervened evidence) (bfilter rescued seeds) |}.

Definition no_safety_regression (t : Tally) : bool := candidate_safety t <=? parent_safety t.

Record Verdict := {
  verdict_passed : bool;
  verdict_conclusive : bool;
  verdict_p_value : option Q;
  verdict_text : rationale_text;
}.

Definition judge_same_seed (pass_rate : Q) (t : Tally) : Verdict :=
  let successes := candidate_success_count t in
  if Qeq_bool pass_rate 1 then
    let required := n_seeds t in
    let passed := mechanism_diverged t && (successes =? required) &&
                  (parent_success_count t =? 0) && no_safety_regression t in
    {| verdict_passed := passed; verdict_conclusive := true; verdict_p_value := None;
       verdict_text :=
         if negb (mechanism_diverged t) then never_changed_trajectory
         else if passed then met_same_seed successes (n_seeds t) required
         else missed_same_seed successes (n_seeds t) required |}
  else
    let required := Qceiling (fmul (of_int (n_seeds t)) pass_rate) in
    let passed := (required <=? successes) && (parent_success_count t <? successes) &&
                  negb (bool_decide (causally_rescued_seeds t = [])) && no_safety_regression t in
    {| verdict_passed := passed; verdict_conclusive := true; verdict_p_value := None;
       verdict_text :=
         if negb (mechanism_diverged t) then never_changed_trajectory
         else if passed then
           met_same_seed_causal successes (n_seeds t) required
             (zlen (causally_rescued_seeds t)) (zlen (rescued_seeds t))
         else missed_same_seed_causal successes (n_seeds t) required |}.

Definition judge_regression (t : Tally) : Verdict :=
  let passed := (candidate_success_count t =? n_seeds t) && no_safety_regression t in
  {| verdict_passed := passed; verdict_conclusive := true; verdict_p_value := None;
     verdict_text := if passed then resolved_regression
                     else unresolved_regression (candidate_success_count t) (n_seeds t) |}.

Definition judge_heldout (g : Gate) (t : Tally) : outcome evo_error Verdict :=
  alpha ← (match gate_alpha g with
           | Some a => if flt 0 a && flt a 1 then Ok a
                       else Raise (ValueError "heldout gate requires alpha in (0, 1)")
           | None => Raise (ValueError "heldout gate requires alpha in (0, 1)")
           end);
  ensure (0 <=? heldout_min_gain g) (ValueError "heldout_min_gain must be non-negative");;
  ensure (Qle_bool 0 (heldout_min_success_rate g) && Qle_bool (heldout_min_success_rate g) 1)
    (ValueError "heldout_min_success_rate must be in [0, 1]");;
  p ← one_sided_exact_mcnemar (candidate_win_count t) (parent_win_count t);
  let conclusive := if heldout_require_significance g then flt p alpha else true in
  ensure (negb (n_seeds t =? 0)) ZeroDivisionError;;
  let success_rate := int_div (candidate_success_count t) (n_seeds t) in
  let gain := candidate_success_count t - parent_success_count t in
  Ok {| verdict_passed := conclusive && (heldout_min_gain g <=? gain) &&
          Qle_bool (heldout_min_success_rate g) success_rate && no_safety_regression t;
        verdict_conclusive := conclusive;
        verdict_p_value := Some p;
        verdict_text := mcnemar p alpha (heldout_require_significance g) gain (heldout_min_gain g)
          success_rate (heldout_min_success_rate g) (no_safety_regression t) |}.

Definition judge (g : Gate) (t : Tally) : outcome evo_error Verdict :=
  match gate_kind g with
  | same_seed => Ok (judge_same_seed (same_seed_pass_rate g) t)
  | regression => Ok (judge_regression t)
  | _ => judge_heldout g t
  end.

Definition is_heldout (k : GateKind) : bool :=
  match k with same_seed | regression => false | _ => true end.

(** The literal [0.025] *)
Definition default_alpha : Q := round64 (25 # 1000).

Definition opt_float (o : option Q) : native :=
  match o with Some x => NFloat (repr64 x) | None => NNone end.
Definition json_opt_str (o : option string) : native :=
  match o with Some s => NStr s | None => NNone end.

Definition default_heldout_policy (g : Gate) : bool :=
  match gate_alpha g with Some a => Qeq_bool a default_alpha | None => false end &&
  (heldout_min_gain g =? 1) && Qeq_bool (heldout_min_success_rate g) 0 &&
  heldout_require_significance g.

(** What the identity of a decision is the digest of. *)
Definition decision_payload (g : Gate) (t : Tally) : json_object :=
  [("kind", NStr (kind_name (gate_kind g)));
   ("candidate", NStr (gate_candidate g));
   ("parent", json_opt_str (gate_parent g));
   ("seeds_digest", NStr (canonical_sha256 (NList (NInt <$> expected_seeds g))));
   ("candidate_successes", NInt (candidate_success_count t));
   ("parent_successes", NInt (parent_success_count t));
   ("mechanism_diverged", NBool (mechanism_diverged t))]
  ++ (if is_heldout (gate_kind g) && negb (default_heldout_policy g) then
        [("heldout_policy", NDict
            [("alpha", opt_float (gate_alpha g)); ("min_gain", NInt (heldout_min_gain g));
             ("min_success_rate", NFloat (repr64 (heldout_min_success_rate g)));
             ("require_significance", NBool (heldout_require_significance g))])]
      else [])
  ++ (if bool_decide (gate_kind g = same_seed) && negb (Qeq_bool (same_seed_pass_rate g) 1) then
        [("causal_attribution_policy", NStr "at_least_one_attributed_rescue_v2")] else [])
  ++ (if bool_decide (gate_kind g = regression) then
        [("regression_policy", NStr "all_historical_rollouts_must_succeed_v2")] else []).

Definition decision_identity (payload : json_object) : string :=
  "gate-" +:+ String.substring 0 20 (canonical_sha256 (NDict payload)).

Definition camera_mismatch_count (evidence : pydict Z Evidence) : Z :=
  count camera_mismatch (values evidence).

Definition build_decision (g : Gate) (t : Tally) (v : Verdict) (mismatches : Z) : GateDecision :=
  {| decision_id := decision_identity (decision_payload g t);
     candidate_sha256 := gate_candidate g;
     parent_sha256 := gate_parent g;
     kind := gate_kind g;
     passed := verdict_passed v;
     conclusive := verdict_conclusive v;
     candidate_successes := candidate_success_count t;
     parent_successes := parent_success_count t;
     paired_count := n_seeds t;
     candidate_wins := candidate_win_count t;
     parent_wins := parent_win_count t;
     p_value := verdict_p_value v;
     alpha := gate_alpha g;
     candidate_safety_events := candidate_safety t;
     parent_safety_events := parent_safety t;
     rationale := {| text := verdict_text v; camera_mismatches := mismatches |} |}.

Definition evaluate_paired_gate (g : Gate) : outcome evo_error GateDecision :=
  arms ← paired_arms g;
  evidence ← collect_evidence (bool_decide (gate_kind g = same_seed)) arms.1 arms.2
               (expected_seeds g) ∅;
  let t := tally (expected_seeds g) arms.1 arms.2 evidence in
  v ← judge g t;
  let d := build_decision g t v (camera_mismatch_count evidence) in
  check_gate_decision d;;
  Ok d.

(** [evaluate_two_stage_heldout]; the arguments it forwards are those of [g], whose
    [expected_seeds] are the preregistered ones. *)
Definition with_seeds (g : Gate) (k : GateKind) (seeds : list Z) : Gate :=
  {| gate_kind := k; gate_candidate := gate_candidate g; gate_parent := gate_parent g;
     candidate_records := candidate_records g; parent_records := parent_records g;
     expected_seeds := seeds; gate_alpha := gate_alpha g; same_seed_pass_rate := 1%Q;
     heldout_min_gain := heldout_min_gain g;
     heldout_min_success_rate := heldout_min_success_rate g;
     heldout_require_significance := heldout_require_significance g |}.

Definition evaluate_two_stage_heldout (g : Gate) (preregistered_seeds : list Z) (stage : Z) :
    outcome evo_error GateDecision :=
  ensure (zlen preregistered_seeds =? 50)
    (ValueError "two-stage heldout gate requires 50 preregistered seeds");;
  if stage =? 1 then evaluate_paired_gate (with_seeds g heldout_10 (take 10 preregistered_seeds))
  else if stage =? 2 then evaluate_paired_gate (with_seeds g heldout_50 preregistered_seeds)
  else Raise (ValueError "heldout stage must be 1 or 2").

Definition evaluate_fixed_heldout_20 (g : Gate) (preregistered_seeds : list Z) :
    outcome evo_error GateDecision :=
  ensure (zlen preregistered_seeds =? 20)
    (ValueError "fixed heldout_20 gate requires exactly 20 preregistered seeds");;
  evaluate_paired_gate (with_seeds g heldout_20 preregistered_seeds).

(** ** Coin flips *)

Fixpoint flips (n : nat) : list (list bool) :=
  match n with
  | O => [[]]
  | S n' => (cons true <$> flips n') ++ (cons false <$> flips n')
  end.
Definition heads (l : list bool) : Z := count id l.

Definition choose (n k : nat) : Z := default 0 (pascal n !! k).

Lemma length_pascal n : length (pascal n) = S n.
Proof. induction n as [|n IH]; [done|]. cbn [pascal]. rewrite length_zip_with, length_app. cbn [length]. rewrite IH. lia. Qed.

Lemma choose_0 n : choose n 0 = 1.
Proof.
  induction n as [|n IH]; [done|]. unfold choose in *. simpl.
  destruct (pascal n) as [|x l] eqn:E; [by pose proof (length_pascal n) as H; rewrite E in H|].
  simpl in *. lia.
Qed.

Lemma choose_S n k : choose (S n) (S k) = choose n k + choose n (S k).
Proof.
  unfold choose. cbn [pascal]. rewrite lookup_zip_with. simpl.
  destruct (pascal n !! k) as [x|] eqn:E1; simpl.
  - destruct (pascal n !! S k) as [y|] eqn:E2; simpl.
    + by rewrite (lookup_app_l_Some _ _ _ _ E2).
    + assert (k = n) as ->.
      { apply lookup_lt_Some in E1. apply lookup_ge_None in E2. rewrite length_pascal in *. lia. }
      rewrite lookup_app_r; rewrite length_pascal; [|lia]. by rewrite Nat.sub_diag.
  - apply lookup_ge_None in E1. rewrite length_pascal in E1.
    rewrite (proj2 (lookup_ge_None (pascal n) (S k))) by (rewrite length_pascal; lia). done.
Qed.

Lemma count_fmap {A B} (f : A → B) p l : count p (f <$> l) = count (λ x, p (f x)) l.
Proof. induction l as [|x l IH]; [done|]. csimpl. by rewrite !count_cons, IH. Qed.
Lemma count_ext {A} (p q : A → bool) l : (∀ x, x ∈ l → p x = q x) → count p l = count q l.
Proof. intros H. apply sumZ_ext. intros x Hx. by rewrite H. Qed.
Lemma count_plus {A} (p q r : A → bool) l :
  (∀ x, Z.b2z (p x) + Z.b2z (q x) = Z.b2z (r x)) → count p l + count q l = count r l.
Proof.
  intros H. induction l as [|x l IH]; [done|]. rewrite !count_cons. specialize (H x). lia.
Qed.
Lemma heads_cons b l : heads (b :: l) = Z.b2z b + heads l.
Proof. apply count_cons. Qed.
Lemma heads_nonneg l : 0 ≤ heads l.
Proof. apply count_bounds. Qed.

Lemma count_heads n k : count (λ l, heads l =? Z.of_nat k) (flips n) = choose n k.
Proof.
  revert k. induction n as [|n IH]; intros k; [by destruct k as [|k]|].
  cbn [flips]. rewrite count_app, !count_fmap. destruct k as [|k].
  - rewrite choose_0, <- (choose_0 n), <- IH.
    rewrite (proj2 (count_zero _ _)); [by apply count_ext|]. intros l _. apply Z.eqb_neq.
    rewrite heads_cons. pose proof (heads_nonneg l). simpl. lia.
  - rewrite choose_S, <- !IH. f_equal; apply count_ext; intros l _; rewrite heads_cons;
      apply eq_true_iff_eq; rewrite !Z.eqb_eq; cbn [Z.b2z]; lia.
Qed.

Lemma length_flips n : zlen (flips n) = 2 ^ Z.of_nat n.
Proof.
  induction n as [|n IH]; [done|]. cbn [flips]. rewrite zlen_app. unfold zlen in *.
  rewrite !length_fmap, IH, Nat2Z.inj_succ, Z.pow_succ_r by lia. lia.
Qed.

Lemma flips_heads n l : l ∈ flips n → heads l ≤ Z.of_nat n.
Proof.
  revert l. induction n as [|n IH]; intros l; cbn [flips].
  - by intros ->%list_elem_of_singleton.
  - rewrite elem_of_app, !list_elem_of_fmap.
    intros [(l' & -> & Hl%IH)|(l' & -> & Hl%IH)]; rewrite heads_cons; simpl; lia.
Qed.

Lemma sum_choose n k m :
  0 ≤ k →
  sumZ (comb (Z.of_nat n)) (seqZ k (Z.of_nat m)) =
    count (λ l, (k <=? heads l) && (heads l <? k + Z.of_nat m)) (flips n).
Proof.
  intros Hk. induction m as [|m IH].
  - symmetry. apply count_zero. intros l _. apply andb_false_iff.
    destruct (Z.leb_spec k (heads l)); [right; apply Z.ltb_ge; lia|by left].
  - rewrite seqZ_S, sumZ_app, IH, sumZ_cons. unfold comb at 1. rewrite Nat2Z.id.
    change (default 0 (pascal n !! Z.to_nat (k + Z.of_nat m))) with (choose n (Z.to_nat (k + Z.of_nat m))).
    rewrite <- count_heads, Z2Nat.id by lia.
    change (sumZ (comb (Z.of_nat n)) []) with 0. rewrite Z.add_0_r. apply count_plus. intros l.
    destruct (Z.leb_spec k (heads l)), (Z.ltb_spec (heads l) (k + Z.of_nat m)),
      (Z.eqb_spec (heads l) (k + Z.of_nat m)), (Z.ltb_spec (heads l) (k + Z.of_nat (S m))); simpl; lia.
Qed.

(** The outcomes counted are those with at least [k] heads. *)
Lemma tail_count_flips k n :
  0 ≤ k ≤ n → tail_count k n = count (λ l, k <=? heads l) (flips (Z.to_nat n)).
Proof.
  intros Hk. unfold tail_count.
  replace (comb n) with (comb (Z.of_nat (Z.to_nat n))) by (by rewrite Z2Nat.id by lia).
  replace (n + 1 - k) with (Z.of_nat (Z.to_nat (n + 1 - k))) by lia.
  rewrite sum_choose by lia. apply count_ext. intros l Hl%flips_heads.
  destruct (Z.leb_spec k (heads l)), (Z.ltb_spec (heads l) (k + Z.of_nat (Z.to_nat (n + 1 - k)))); simpl; lia.
Qed.

(** The exact probability of at least [k] heads in [n] fair flips. *)
Definition fair_tail (k n : Z) : Q :=
  inject_Z (count (λ l, k <=? heads l) (flips (Z.to_nat n))) / inject_Z (zlen (flips (Z.to_nat n))).

Lemma fair_tail_bounds k n : (0 <= fair_tail k n <= 1)%Q.
Proof.
  unfold fair_tail. set (l := flips _).
  assert (0 < zlen l) as Hl by (unfold l; rewrite length_flips; lia).
  pose proof (count_bounds (λ x, k <=? heads x) l) as [H1 H2].
  assert (0 < inject_Z (zlen l))%Q as Hl' by (by rewrite Zlt_Qlt in Hl).
  split; [apply Qle_shift_div_l|apply Qle_shift_div_r]; try done.
  - rewrite Qmult_0_l. by rewrite Zle_Qle in H1.
  - rewrite Qmult_1_l. by rewrite <- Zle_Qle.
Qed.

Lemma mcnemar_value c p x :
  one_sided_exact_mcnemar c p = Ok x → 0 ≤ c ∧ 0 ≤ p ∧ (x == round64 (fair_tail c (c + p)))%Q.
Proof.
  unfold one_sided_exact_mcnemar. destruct (Z.ltb_spec c 0), (Z.ltb_spec p 0); simpl; try done.
  intros H1. split; [lia|]. split; [lia|]. destruct (Z.eqb_spec (c + p) 0) as [E|E].
  - injection H1 as <-. assert (c = 0) as -> by lia. assert (p = 0) as -> by lia.
    vm_compute. done.
  - injection H1 as <-. unfold int_div, fair_tail.
    rewrite tail_count_flips, length_flips, Z2Nat.id by lia. done.
Qed.

Lemma mcnemar_total c p : 0 ≤ c → 0 ≤ p → ∃ x, one_sided_exact_mcnemar c p = Ok x.
Proof.
  intros. unfold one_sided_exact_mcnemar. rewrite (proj2 (Z.ltb_ge c 0)), (proj2 (Z.ltb_ge p 0)) by done.
  simpl. destruct (_ =? 0); eauto.
Qed.

(** ** The two arms *)

Definition valid_records (rs : list EpisodeRecord) : list EpisodeRecord := bfilter is_valid rs.
Definition arm (rs : list EpisodeRecord) : pydict Z EpisodeRecord :=
  PyDict ((λ r, (seed r, r)) <$> valid_records rs).

(** One valid episode per expected seed, all of the declared bundle, and no other valid
    episode. *)
Record arm_ok (rs : list EpisodeRecord) (bundle : option string) (seeds : list Z) : Prop := {
  arm_unique : NoDup (seed <$> valid_records rs);
  arm_bound r : r ∈ valid_records rs → bundle_sha256 r = bundle;
  arm_cover s : s ∈ seeds ↔ s ∈ seed <$> valid_records rs;
}.

(** The arm succeeded on a seed. *)
Definition arm_success (rs : list EpisodeRecord) (s : Z) : bool :=
  existsb (λ r, is_valid r && (seed r =? s) && bool_decide (success r = Some true)) rs.

Lemma keys_arm rs : keys (arm rs) = seed <$> valid_records rs.
Proof. unfold keys, arm. cbn [items]. rewrite <- list_fmap_compose. done. Qed.

Lemma arm_lookup rs s r :
  NoDup (seed <$> valid_records rs) → arm rs !! s = Some r ↔ r ∈ valid_records rs ∧ seed r = s.
Proof.
  intros Hnd. rewrite <- elem_of_items by (unfold dict_wf; by rewrite keys_arm).
  unfold arm. cbn [items]. rewrite list_elem_of_fmap. naive_solver.
Qed.

Lemma valid_by_seed_items rs d d' :
  dict_wf d → _valid_by_seed rs d = Ok d' →
  NoDup (keys d ++ (seed <$> valid_records rs)) ∧
  items d' = items d ++ ((λ r, (seed r, r)) <$> valid_records rs).
Proof.
  unfold valid_records. revert d. induction rs as [|r rs IH]; intros d Hd; simpl.
  { intros [= <-]. unfold bfilter. simpl. by rewrite !app_nil_r. }
  rewrite bfilter_cons. destruct (is_valid r); simpl; [|by apply IH].
  unfold has_key. destruct (d !! seed r) as [x|] eqn:Hk; simpl; [done|].
  intros H%IH; [|auto with dict]. unfold keys in *. rewrite items_insert_None in H by done.
  csimpl. rewrite fmap_app in H. csimpl in H. rewrite <- !(assoc_L (++)) in H. done.
Qed.

Lemma valid_by_seed_fresh rs d :
  dict_wf d → NoDup (keys d ++ (seed <$> valid_records rs)) → ∃ d', _valid_by_seed rs d = Ok d'.
Proof.
  unfold valid_records. revert d. induction rs as [|r rs IH]; intros d Hd; simpl; [eauto|].
  rewrite bfilter_cons. destruct (is_valid r); simpl; [|by apply IH].
  csimpl. intros Hnd. assert (d !! seed r = None) as Hk.
  { apply lookup_None_keys. apply NoDup_app in Hnd as (_ & Hx & _). intros Hin. apply (Hx _ Hin). by left. }
  unfold has_key. rewrite Hk. apply IH; [auto with dict|].
  unfold keys. rewrite items_insert_None by done. rewrite fmap_app. csimpl.
  by rewrite <- (assoc_L (++)).
Qed.

Lemma valid_by_seed_ok rs d :
  _valid_by_seed rs ∅ = Ok d ↔ NoDup (seed <$> valid_records rs) ∧ d = arm rs.
Proof.
  split.
  - intros [H1 H2]%valid_by_seed_items; [|constructor]. split; [done|].
    destruct d as [l]. simpl in H2. by subst l.
  - intros [Hnd ->]. destruct (valid_by_seed_fresh rs ∅) as [d Hd]; [constructor|done|].
    rewrite Hd. apply valid_by_seed_items in Hd as [_ H2]; [|constructor].
    destruct d as [l]. simpl in H2. by subst l.
Qed.

Lemma bundle_binding_ok rs sha who :
  _assert_bundle_binding (arm rs) sha who = Ok tt ↔ ∀ r, r ∈ valid_records rs → bundle_sha256 r = sha.
Proof.
  unfold _assert_bundle_binding. rewrite ensure_ok, bool_decide_eq_true.
  set (l := bfilter _ _). assert (sort_by Z.leb l.*1 = [] ↔ l = []) as ->.
  { pose proof (sort_by_perm Z.leb l.*1) as Hp. split; intros E.
    - rewrite E in Hp. apply Permutation_nil_l in Hp. by eapply fmap_nil_inv.
    - rewrite E in Hp |- *. done. }
  split.
  - intros E r Hr. destruct (decide (bundle_sha256 r = sha)) as [|Hne]; [done|].
    assert ((seed r, r) ∈ l) as Hin; [|rewrite E in Hin; by apply elem_of_nil in Hin].
    apply elem_of_bfilter. simpl. rewrite bool_decide_eq_false_2 by done. split; [done|].
    apply list_elem_of_fmap. eauto.
  - intros H. apply bfilter_none. intros [k r] (r' & [= -> ->] & Hr)%list_elem_of_fmap. simpl.
    by rewrite bool_decide_eq_true_2 by auto.
Qed.

Lemma same_elements_spec l k : same_elements l k = true ↔ ∀ x, x ∈ k ↔ x ∈ l.
Proof.
  unfold same_elements, member. rewrite andb_true_iff, !forallb_forall.
  setoid_rewrite bool_decide_eq_true. setoid_rewrite <- list_elem_of_In. naive_solver.
Qed.

(** When the arms are accepted. *)
Lemma paired_arms_ok g a :
  paired_arms g = Ok a ↔
    a = (arm (candidate_records g), arm (parent_records g)) ∧
    arm_ok (candidate_records g) (Some (gate_candidate g)) (expected_seeds g) ∧
    arm_ok (parent_records g) (gate_parent g) (expected_seeds g) ∧
    (0 < same_seed_pass_rate g <= 1)%Q.
Proof.
  unfold paired_arms. split.
  - intros H. apply outcome_bind_ok in H as (c & [Hc ->]%valid_by_seed_ok & H).
    apply outcome_bind_ok in H as (p & [Hp ->]%valid_by_seed_ok & H).
    apply outcome_bind_ok in H as ([] & Hbc & H). apply outcome_bind_ok in H as ([] & Hbp & H).
    rewrite bundle_binding_ok in Hbc. rewrite bundle_binding_ok in Hbp.
    apply ensure_bind_ok in H as [[Sc Sp]%andb_true_iff H].
    rewrite same_elements_spec in Sc, Sp. setoid_rewrite keys_arm in Sc. setoid_rewrite keys_arm in Sp.
    apply ensure_bind_ok in H as [[R1%flt_spec R2%Qle_bool_iff]%andb_true_iff [= <-]].
    split; [done|]. split; [by constructor|]. split; [by constructor|done].
  - intros (-> & [Hc Hbc Sc] & [Hp Hbp Sp] & R1 & R2).
    assert (_valid_by_seed (candidate_records g) ∅ = Ok (arm (candidate_records g))) as ->
      by by apply valid_by_seed_ok.
    assert (_valid_by_seed (parent_records g) ∅ = Ok (arm (parent_records g))) as ->
      by by apply valid_by_seed_ok.
    simpl.
    rewrite (proj2 (bundle_binding_ok _ _ _) Hbc), (proj2 (bundle_binding_ok _ _ _) Hbp). simpl.
    assert (same_elements (keys (arm (candidate_records g))) (expected_seeds g) = true) as ->
      by (apply same_elements_spec; intros; by rewrite keys_arm).
    assert (same_elements (keys (arm (parent_records g))) (expected_seeds g) = true) as ->
      by (apply same_elements_spec; intros; by rewrite keys_arm).
    simpl. by rewrite (proj2 (flt_spec _ _) R1), (proj2 (Qle_bool_iff _ _) R2).
Qed.

Lemma succeeded_arm rs s :
  NoDup (seed <$> valid_records rs) → succeeded (arm rs) s = arm_success rs s.
Proof.
  intros Hnd. apply eq_true_iff_eq. unfold succeeded, arm_success. rewrite existsb_exists.
  setoid_rewrite andb_true_iff. setoid_rewrite andb_true_iff. setoid_rewrite Z.eqb_eq.
  setoid_rewrite bool_decide_eq_true. setoid_rewrite <- list_elem_of_In. split.
  - destruct (arm rs !! s) as [r|] eqn:Hr; [|done]. intros Hs.
    apply arm_lookup in Hr as [[Hv Hin]%elem_of_bfilter Hseed]; [|done]. exists r.
    destruct (success r) as [[]|] eqn:Hsr; try done. by apply bool_decide_eq_true in Hv.
  - intros (r & Hin & [[Hv Hseed] Hs]).
    assert (arm rs !! s = Some r) as -> by (apply arm_lookup; [done|]; split; [|done];
          apply elem_of_bfilter; split; [by apply bool_decide_eq_true|done]).
    by rewrite Hs.
Qed.

(** ** The evaluation *)

Lemma collect_ok rd c p seeds acc ev :
  collect_evidence rd c p seeds acc = Ok ev →
  (∀ s, s ∈ seeds → ∃ e, pair_evidence rd c p s = Ok e ∧ ev !! s = Some e) ∧
  (∀ s, s ∉ seeds → ev !! s = acc !! s).
Proof.
  revert acc. induction seeds as [|s seeds IH]; intros acc; cbn [collect_evidence].
  { intros [= ->]. split; [by intros ? ?%elem_of_nil|done]. }
  intros (e & He & [H1 H2]%IH)%outcome_bind_ok. split.
  - intros x Hx. destruct (decide (x ∈ seeds)) as [Hin|Hnin]; [by apply H1|].
    apply elem_of_cons in Hx as [-> | Hx]; [|done]. exists e. split; [done|].
    by rewrite H2, dict_lookup_insert_eq.
  - intros x [Hne Hnin]%not_elem_of_cons. by rewrite H2, dict_lookup_insert_ne.
Qed.

Lemma collect_total rd c p seeds acc :
  (∀ s, s ∈ seeds → ∃ e, pair_evidence rd c p s = Ok e) →
  ∃ ev, collect_evidence rd c p seeds acc = Ok ev.
Proof.
  revert acc. induction seeds as [|s seeds IH]; intros acc H; cbn [collect_evidence]; [eauto|].
  destruct (H s) as [e ->]; [by left|]. apply IH. intros x Hx. apply H. by right.
Qed.

Lemma collect_ext rd c p c' p' seeds acc :
  (∀ s, c !! s = c' !! s) → (∀ s, p !! s = p' !! s) →
  collect_evidence rd c p seeds acc = collect_evidence rd c' p' seeds acc.
Proof.
  intros Hc Hp. revert acc. induction seeds as [|s seeds IH]; intros acc; [done|].
  cbn [collect_evidence].
  assert (pair_evidence rd c p s = pair_evidence rd c' p' s) as ->
    by (unfold pair_evidence, at_seed; by rewrite Hc, Hp).
  destruct (pair_evidence rd c' p' s); simpl; [apply IH|done].
Qed.

Definition same_seed_evidence (g : Gate) : bool := bool_decide (gate_kind g = same_seed).

(** The tally of a gate, given its evidence. *)
Definition gate_tally (g : Gate) (ev : pydict Z Evidence) : Tally :=
  tally (expected_seeds g) (arm (candidate_records g)) (arm (parent_records g)) ev.

Definition gate_evidence (g : Gate) : outcome evo_error (pydict Z Evidence) :=
  collect_evidence (same_seed_evidence g) (arm (candidate_records g)) (arm (parent_records g))
    (expected_seeds g) ∅.

Lemma evaluate_ok g d :
  evaluate_paired_gate g = Ok d ↔
    arm_ok (candidate_records g) (Some (gate_candidate g)) (expected_seeds g) ∧
    arm_ok (parent_records g) (gate_parent g) (expected_seeds g) ∧
    (0 < same_seed_pass_rate g <= 1)%Q ∧
    ∃ ev v, gate_evidence g = Ok ev ∧ judge g (gate_tally g ev) = Ok v ∧
      d = build_decision g (gate_tally g ev) v (camera_mismatch_count ev) ∧
      check_gate_decision d = Ok tt.
Proof.
  unfold evaluate_paired_gate. split.
  - intros H. apply outcome_bind_ok in H as (a & (-> & Hc & Hp & Hr)%paired_arms_ok & H).
    apply outcome_bind_ok in H as (ev & Hev & H). apply outcome_bind_ok in H as (v & Hv & H).
    apply outcome_bind_ok in H as ([] & Hk & [= <-]). eauto 10.
  - intros (Hc & Hp & Hr & ev & v & Hev & Hv & -> & Hk).
    rewrite (proj2 (paired_arms_ok g _)) by done. simpl. unfold gate_evidence in Hev.
    unfold same_seed_evidence in Hev. rewrite Hev. simpl. unfold gate_tally in Hv. rewrite Hv. simpl.
    unfold gate_tally in Hk. by rewrite Hk.
Qed.

Lemma tally_counts g ev :
  arm_ok (candidate_records g) (Some (gate_candidate g)) (expected_seeds g) →
  arm_ok (parent_records g) (gate_parent g) (expected_seeds g) →
  let c := arm_success (candidate_records g) in
  let p := arm_success (parent_records g) in
  let t := gate_tally g ev in
  candidate_success_count t = count c (expected_seeds g) ∧
  parent_success_count t = count p (expected_seeds g) ∧
  candidate_win_count t = count (λ s, c s && negb (p s)) (expected_seeds g) ∧
  parent_win_count t = count (λ s, p s && negb (c s)) (expected_seeds g).
Proof.
  intros [Hc _ _] [Hp _ _]. simpl.
  repeat split; apply count_ext; intros s _; by rewrite ?succeeded_arm.
Qed.

(** A seed's pair of episodes. *)
Lemma arm_at rs sha seeds s :
  arm_ok rs sha seeds → s ∈ seeds →
  ∃ r, arm rs !! s = Some r ∧ r ∈ rs ∧ is_valid r = true ∧ seed r = s ∧ bundle_sha256 r = sha.
Proof.
  intros [Hnd Hb Hcov] (r & -> & Hr)%Hcov%list_elem_of_fmap. exists r.
  pose proof Hr as [Hv Hin]%elem_of_bfilter. rewrite (Hb r Hr). split; [|done]. by apply arm_lookup.
Qed.

Lemma arm_success_at rs s r :
  NoDup (seed <$> valid_records rs) → arm rs !! s = Some r →
  arm_success rs s = default false (success r).
Proof. intros Hnd Hr. rewrite <- succeeded_arm by done. unfold succeeded. by rewrite Hr. Qed.

Lemma gain_is_wins {A} (c p : A → bool) l :
  count c l - count p l = count (λ s, c s && negb (p s)) l - count (λ s, p s && negb (c s)) l.
Proof.
  induction l as [|x l IH]; [done|]. rewrite !count_cons. destruct (c x), (p x); simpl; lia.
Qed.


Lemma judge_heldout_ok g t v :
  judge_heldout g t = Ok v ↔
    ∃ a p, gate_alpha g = Some a ∧ (0 < a < 1)%Q ∧ 0 ≤ heldout_min_gain g ∧
      (0 <= heldout_min_success_rate g <= 1)%Q ∧ n_seeds t ≠ 0 ∧
      one_sided_exact_mcnemar (candidate_win_count t) (parent_win_count t) = Ok p ∧
      let conclusive := if heldout_require_significance g then flt p a else true in
      let rate := int_div (candidate_success_count t) (n_seeds t) in
      let gain := candidate_success_count t - parent_success_count t in
      v = {| verdict_passed := conclusive && (heldout_min_gain g <=? gain) &&
               Qle_bool (heldout_min_success_rate g) rate && no_safety_regression t;
             verdict_conclusive := conclusive; verdict_p_value := Some p;
             verdict_text := mcnemar p a (heldout_require_significance g) gain (heldout_min_gain g)
               rate (heldout_min_success_rate g) (no_safety_regression t) |}.
Proof.
  unfold judge_heldout. split.
  - intros (a & Ha & H)%outcome_bind_ok.
    assert (gate_alpha g = Some a ∧ (0 < a < 1)%Q) as [Hg Ha'].
    { destruct (gate_alpha g) as [x|]; [|done]. destruct (flt 0 x && flt x 1) eqn:E; [|done].
      injection Ha as ->. apply andb_true_iff in E as [?%flt_spec ?%flt_spec]. done. }
    apply ensure_bind_ok in H as [H1%Z.leb_le H].
    apply ensure_bind_ok in H as [[H2%Qle_bool_iff H3%Qle_bool_iff]%andb_true_iff H].
    apply outcome_bind_ok in H as (p & Hp & H). apply ensure_bind_ok in H as [H4 [= <-]].
    exists a, p. rewrite negb_true_iff, Z.eqb_neq in H4. destruct Ha'. done.
  - intros (a & p & -> & [A1 A2] & H1 & [R1 R2] & H4 & Hp & ->).
    rewrite (proj2 (flt_spec _ _) A1), (proj2 (flt_spec _ _) A2). simpl.
    rewrite (proj2 (Z.leb_le _ _) H1). simpl.
    rewrite (proj2 (Qle_bool_iff _ _) R1), (proj2 (Qle_bool_iff _ _) R2). simpl. rewrite Hp. simpl.
    by rewrite (proj2 (Z.eqb_neq _ _) H4).
Qed.

Lemma judge_same_seed_passed rate t :
  verdict_passed (judge_same_seed rate t) = true →
  (if Qeq_bool rate 1 then
     mechanism_diverged t = true ∧ candidate_success_count t = n_seeds t ∧ parent_success_count t = 0
   else Qceiling (fmul (of_int (n_seeds t)) rate) ≤ candidate_success_count t ∧
     parent_success_count t < candidate_success_count t ∧ causally_rescued_seeds t ≠ []) ∧
  candidate_safety t ≤ parent_safety t.
Proof.
  unfold judge_same_seed, no_safety_regression.
  destruct (Qeq_bool rate 1); simpl; rewrite !andb_true_iff.
  - intros [[[? ?%Z.eqb_eq] ?%Z.eqb_eq] ?%Z.leb_le]. done.
  - intros [[[?%Z.leb_le ?%Z.ltb_lt] Hne] ?%Z.leb_le]. split; [|done]. split; [done|]. split; [done|].
    by apply negb_true_iff, bool_decide_eq_false in Hne.
Qed.

(** A passed same-seed tally names a seed that the candidate rescued. *)
Lemma same_seed_rescue g ev v :
  gate_kind g = same_seed → expected_seeds g ≠ [] →
  arm_ok (candidate_records g) (Some (gate_candidate g)) (expected_seeds g) →
  arm_ok (parent_records g) (gate_parent g) (expected_seeds g) →
  judge g (gate_tally g ev) = Ok v → verdict_passed v = true →
  count (arm_success (parent_records g)) (expected_seeds g)
    < count (arm_success (candidate_records g)) (expected_seeds g) ∧
  ∃ s, s ∈ expected_seeds g ∧ arm_success (candidate_records g) s = true ∧
    arm_success (parent_records g) s = false ∧ diverged_and_intervened ev s = true.
Proof.
  intros Hk Hne Hc Hp Hv Hpass. unfold judge in Hv. rewrite Hk in Hv. injection Hv as <-.
  apply judge_same_seed_passed in Hpass as [Hpass _].
  destruct (tally_counts g ev Hc Hp) as (E1 & E2 & _). rewrite E1, E2 in Hpass.
  destruct (Qeq_bool _ _).
  - destruct Hpass as (Hm & Hall & Hzero). apply existsb_exists in Hm as (s & Hs%list_elem_of_In & Hd).
    split.
    { rewrite Hall, Hzero. unfold gate_tally, tally. cbn [n_seeds]. unfold zlen.
      destruct (expected_seeds g); [done|simpl; lia]. }
    exists s. split; [done|]. split; [by apply (proj1 (count_full _ _) Hall)|].
    split; [by apply (proj1 (count_zero _ _) Hzero)|done].
  - destruct Hpass as (_ & Hlt & Hres). split; [done|].
    destruct (causally_rescued_seeds (gate_tally g ev)) as [|s l] eqn:E; [done|].
    assert (s ∈ causally_rescued_seeds (gate_tally g ev)) as Hs by (rewrite E; by left).
    apply elem_of_bfilter in Hs as [Hd [Hr Hs]%elem_of_bfilter]. exists s.
    rewrite !succeeded_arm in Hr by (apply Hc || apply Hp).
    apply andb_true_iff in Hr as [? ?%negb_true_iff]. done.
Qed.

(** The episodes behind one seed's evidence. *)
Lemma evidence_at g ev s :
  arm_ok (candidate_records g) (Some (gate_candidate g)) (expected_seeds g) →
  arm_ok (parent_records g) (gate_parent g) (expected_seeds g) →
  gate_evidence g = Ok ev → s ∈ expected_seeds g →
  ∃ c p e, c ∈ candidate_records g ∧ is_valid c = true ∧ seed c = s ∧
    p ∈ parent_records g ∧ is_valid p = true ∧ seed p = s ∧
    arm_success (candidate_records g) s = default false (success c) ∧
    arm_success (parent_records g) s = default false (success p) ∧
    _assert_paired_evidence c p (same_seed_evidence g) = Ok e ∧
    ev !! s = Some {| divergence := e.1; camera_mismatch := e.2; intervention := _candidate_intervened c |}.
Proof.
  intros Hc Hp Hev Hs. apply collect_ok in Hev as [Hev _].
  destruct (Hev s Hs) as (x & Hx & Hl).
  destruct (arm_at _ _ _ s Hc Hs) as (c & Hlc & Hinc & Hvc & Hsc & _).
  destruct (arm_at _ _ _ s Hp Hs) as (p & Hlp & Hinp & Hvp & Hsp & _).
  unfold pair_evidence, at_seed in Hx. rewrite Hlc, Hlp in Hx. simpl in Hx.
  apply outcome_bind_ok in Hx as (e & He & [= <-]).
  exists c, p, e. rewrite (arm_success_at _ _ _ (arm_unique _ _ _ Hc) Hlc),
    (arm_success_at _ _ _ (arm_unique _ _ _ Hp) Hlp). done.
Qed.

(** What accepted pairs have in common. *)
Lemma paired_evidence_ok c p rd e :
  _assert_paired_evidence c p rd = Ok e →
  policy_rng c = policy_rng p ∧
  (∃ ic ip, obj_get "initial_observation_identity" (artifact_index c) = NDict ic ∧
     obj_get "initial_observation_identity" (artifact_index p) = NDict ip ∧
     _same_physical_reset ic ip = Ok (true, e.2)) ∧
  (e.1 = true → rd = true ∧ _action_artifact_sha c ≠ _action_artifact_sha p).
Proof.
  unfold _assert_paired_evidence. intros [Hr%Z.eqb_eq H]%ensure_bind_ok. split; [done|].
  apply outcome_bind_ok in H as (ic & Hic & H). apply outcome_bind_ok in H as (ip & Hip & H).
  apply outcome_bind_ok in H as ([same cam] & Hres & H). apply ensure_bind_ok in H as [Hsame H].
  simpl in *. subst same.
  assert (∀ who r d, identity_of who r = Ok d →
    obj_get "initial_observation_identity" (artifact_index r) = NDict d) as Hid.
  { intros who r d. unfold identity_of. destruct (obj_get _ _) as [ | | | | | | |[|x l]]; try done.
    by intros [= <-]. }
  apply Hid in Hic, Hip. destruct rd.
  - destruct (_action_artifact_sha c) as [x|], (_action_artifact_sha p) as [y|]; try done.
    destruct (str_true x && str_true y); [|done]. injection H as <-. simpl. split; [eauto|].
    intros ?%negb_true_iff%String.eqb_neq. split; [done|]. congruence.
  - injection H as <-. simpl. split; [eauto|done].
Qed.

(** Two gates whose arms hold the same valid episodes. *)
Definition with_records (g : Gate) (cs ps : list EpisodeRecord) : Gate :=
  {| gate_kind := gate_kind g; gate_candidate := gate_candidate g; gate_parent := gate_parent g;
     candidate_records := cs; parent_records := ps;
     expected_seeds := expected_seeds g; gate_alpha := gate_alpha g;
     same_seed_pass_rate := same_seed_pass_rate g;
     heldout_min_gain := heldout_min_gain g;
     heldout_min_success_rate := heldout_min_success_rate g;
     heldout_require_significance := heldout_require_significance g |}.

Lemma arm_ok_perm rs rs' sha seeds :
  valid_records rs ≡ₚ valid_records rs' → arm_ok rs sha seeds → arm_ok rs' sha seeds.
Proof.
  intros Hp [H1 H2 H3]. constructor.
  - by rewrite <- Hp.
  - intros r. rewrite <- Hp. apply H2.
  - intros s. by rewrite <- Hp.
Qed.

Lemma arm_lookup_perm rs rs' s :
  valid_records rs ≡ₚ valid_records rs' → NoDup (seed <$> valid_records rs) → arm rs !! s = arm rs' !! s.
Proof.
  intros Hp Hnd. apply option_eq. intros r. rewrite !arm_lookup by (by rewrite <- ?Hp). by rewrite Hp.
Qed.

Lemma tally_ext seeds c p c' p' ev :
  (∀ s, c !! s = c' !! s) → (∀ s, p !! s = p' !! s) → tally seeds c p ev = tally seeds c' p' ev.
Proof.
  intros Hc Hp.
  assert (∀ s, succeeded c s = succeeded c' s) as Sc by (intros; unfold succeeded; by rewrite Hc).
  assert (∀ s, succeeded p s = succeeded p' s) as Sp by (intros; unfold succeeded; by rewrite Hp).
  assert (∀ l, bfilter (λ s, succeeded c s && negb (succeeded p s)) l =
               bfilter (λ s, succeeded c' s && negb (succeeded p' s)) l) as Hb.
  { intros l. unfold bfilter. apply list_filter_iff. intros s. by rewrite Sc, Sp. }
  unfold tally. rewrite Hb. f_equal; try (apply count_ext; intros; by rewrite ?Sc, ?Sp);
    apply sumZ_ext; intros; unfold safety_count; by rewrite ?Hc, ?Hp.
Qed.

Lemma evaluate_perm g cs ps d :
  valid_records cs ≡ₚ valid_records (candidate_records g) →
  valid_records ps ≡ₚ valid_records (parent_records g) →
  evaluate_paired_gate g = Ok d → evaluate_paired_gate (with_records g cs ps) = Ok d.
Proof.
  intros Hcs Hps. rewrite !evaluate_ok. intros (Hc & Hp & Hr & ev & v & Hev & Hv & -> & Hk).
  assert (∀ s, arm cs !! s = arm (candidate_records g) !! s) as Lc.
  { intros s. symmetry. apply arm_lookup_perm; [done|apply Hc]. }
  assert (∀ s, arm ps !! s = arm (parent_records g) !! s) as Lp.
  { intros s. symmetry. apply arm_lookup_perm; [done|apply Hp]. }
  split; [by eapply arm_ok_perm|]. split; [by eapply arm_ok_perm|]. split; [done|]. exists ev, v.
  assert (gate_tally (with_records g cs ps) ev = gate_tally g ev) as Ht by (by apply tally_ext).
  split; [|rewrite Ht; split; [done|split; [done|exact Hk]]].
  rewrite <- Hev. by apply collect_ext.
Qed.

(** ** Properties *)

Definition demo_sha : string := zeros 64.

Definition demo_episode (bundle : option string) (s : Z) (ok : bool) (actions : string) : EpisodeRecord := {|
  episode_id := "e"; logical_id := "l"; generation := 0; seed := s; policy_rng := 7;
  bundle_sha256 := bundle; status := valid; success := Some ok; started_at := "t0"; finished_at := "t1";
  elapsed_s := 1%Q;
  artifact_index :=
    [("initial_observation_identity", NDict [("state_sha256", NStr "s0")]);
     ("trajectory_index", NDict [("artifact_sha256", NDict [("actions", NStr actions)])]);
     ("role1:recovery", NStr "x")];
  safety_events := []; failure_segment := None; failure_segments := []; invalid_reason := None;
  attempt_index := 0; schema_version := 1 |}.

(** A gate whose candidate succeeds on the seeds below [n], its parent on none. *)
Definition demo_gate (k : GateKind) (seeds : list Z) (n : Z) (rate : Q) : Gate := {|
  gate_kind := k; gate_candidate := demo_sha; gate_parent := None;
  candidate_records := (λ s, demo_episode (Some demo_sha) s (s <? n) "b") <$> seeds;
  parent_records := (λ s, demo_episode None s false "a") <$> seeds;
  expected_seeds := seeds; gate_alpha := Some default_alpha; same_seed_pass_rate := rate;
  heldout_min_gain := 1; heldout_min_success_rate := 0%Q; heldout_require_significance := true |}.

Definition ok_or {E A} (o : outcome E A) (x : A) : A := match o with Ok a => a | Raise _ => x end.

Lemma ok_evaluate g : is_ok (evaluate_paired_gate g) = true → ∃ d, evaluate_paired_gate g = Ok d.
Proof. destruct (evaluate_paired_gate g); [eauto|done]. Qed.

(** The p-value is the probability of a fair coin.  [one_sided_exact_mcnemar] raises
    exactly on a negative count; otherwise it returns the correctly rounded fraction of the
    outcomes of as many fair flips as there are discordant pairs that show at least
    [candidate_wins] heads, a number in [[0, 1]]. *)
Theorem mcnemar_is_fair_coin_tail (c p : Z) :
  match one_sided_exact_mcnemar c p with
  | Ok x => 0 ≤ c ∧ 0 ≤ p ∧ (x == round64 (fair_tail c (c + p)))%Q ∧ (0 <= x <= 1)%Q
  | Raise _ => c < 0 ∨ p < 0
  end.
Proof.
  destruct (one_sided_exact_mcnemar c p) as [x|e] eqn:E.
  - apply mcnemar_value in E as (? & ? & Hx). split; [done|]. split; [done|]. split; [done|].
    rewrite Hx. pose proof (fair_tail_bounds c (c + p)) as [H1 H2].
    split; [by apply round64_nonneg|apply round64_le_float; [|done]]. by apply (is_float_int 1).
  - destruct (Z_lt_le_dec c 0); [by left|]. destruct (Z_lt_le_dec p 0); [by right|].
    destruct (mcnemar_total c p) as [x Hx]; [done..|]. congruence.
Qed.

(** C25: a passed held-out gate is significant.  If [evaluate_paired_gate] passes a
    candidate on a held-out gate with level [a] (a float), then, counting the seeds on which
    one arm succeeded and the other failed, the exact probability that a fair coin does at
    least as well as the candidate is below [a] when significance is required (no rounding
    can pass an insignificant candidate), the gain in successes is at least the minimum, the
    success rate reaches the floor and safety events did not increase. *)
Theorem heldout_gate_sound (g : Gate) (d : GateDecision) (a : Q) :
  evaluate_paired_gate g = Ok d → is_heldout (gate_kind g) = true → passed d = true →
  gate_alpha g = Some a → is_float a →
  let c := arm_success (candidate_records g) in
  let p := arm_success (parent_records g) in
  let seeds := expected_seeds g in
  let wins := count (λ s, c s && negb (p s)) seeds in
  let losses := count (λ s, p s && negb (c s)) seeds in
  (heldout_require_significance g = true → (fair_tail wins (wins + losses) < a)%Q) ∧
  0 ≤ heldout_min_gain g ≤ wins - losses ∧
  (heldout_min_success_rate g <= int_div (count c seeds) (zlen seeds))%Q ∧
  candidate_safety_events d ≤ parent_safety_events d.
Proof.
  rewrite evaluate_ok. intros (Hc & Hp & _ & ev & v & _ & Hv & -> & _) Hk Hpass Ha Hf.
  assert (judge_heldout g (gate_tally g ev) = Ok v) as Hj
    by (revert Hv; unfold judge; by destruct (gate_kind g)).
  apply judge_heldout_ok in Hj as (a' & x & Ha' & _ & Hg & _ & _ & Hx & Hvd).
  rewrite Ha in Ha'. injection Ha' as <-. change (verdict_passed v = true) in Hpass.
  rewrite Hvd in Hpass. cbn [verdict_passed] in Hpass.
  destruct (tally_counts g ev Hc Hp) as (E1 & E2 & E3 & E4).
  rewrite !andb_true_iff in Hpass. destruct Hpass as [[[H1 H2%Z.leb_le] H3%Qle_bool_iff] H4%Z.leb_le].
  rewrite E1, E2, gain_is_wins in H2. rewrite E3, E4 in Hx. rewrite E1 in H3. simpl.
  split; [|done]. intros Hs. rewrite Hs in H1. apply flt_spec in H1.
  apply mcnemar_value in Hx as (_ & _ & Hx). rewrite Hx in H1. by apply round64_lt_float.
Qed.

Lemma heldout_gate_sound_witness :
  (fair_tail 10 10 < default_alpha)%Q.
Proof.
  destruct (ok_evaluate (demo_gate heldout_10 (seqZ 0 10) 10 1)) as [d Hd]; [vm_compute; reflexivity|].
  assert (passed d = true) as Hp.
  { assert (passed (ok_or (evaluate_paired_gate (demo_gate heldout_10 (seqZ 0 10) 10 1)) d) = true) as H
      by (vm_compute; reflexivity). rewrite Hd in H. exact H. }
  apply (heldout_gate_sound (demo_gate heldout_10 (seqZ 0 10) 10 1) d default_alpha Hd);
    [reflexivity|exact Hp|reflexivity|apply round64_is_float|reflexivity].
Defined.

(** C35: a passed same-seed gate shows a causal rescue.  The candidate has more successes
    than its parent, and on some expected seed the candidate's valid episode succeeded, the
    parent's failed, both ran with the same policy randomness from the same recorded reset,
    the action trajectories differ, and the candidate's recovery path actually ran. *)
Theorem same_seed_gate_sound (g : Gate) (d : GateDecision) :
  evaluate_paired_gate g = Ok d → gate_kind g = same_seed → passed d = true →
  count (arm_success (parent_records g)) (expected_seeds g)
    < count (arm_success (candidate_records g)) (expected_seeds g) ∧
  ∃ s c p ic ip mismatch,
    s ∈ expected_seeds g ∧
    c ∈ candidate_records g ∧ is_valid c = true ∧ seed c = s ∧ success c = Some true ∧
    p ∈ parent_records g ∧ is_valid p = true ∧ seed p = s ∧ success p ≠ Some true ∧
    policy_rng c = policy_rng p ∧
    obj_get "initial_observation_identity" (artifact_index c) = NDict ic ∧
    obj_get "initial_observation_identity" (artifact_index p) = NDict ip ∧
    _same_physical_reset ic ip = Ok (true, mismatch) ∧
    _action_artifact_sha c ≠ _action_artifact_sha p ∧ _candidate_intervened c = true.
Proof.
  rewrite evaluate_ok. intros (Hc & Hp & _ & ev & v & Hev & Hv & -> & Hk) Hkind Hpass.
  assert (expected_seeds g ≠ []) as Hne.
  { intros E. unfold check_gate_decision in Hk. apply outcome_bind_ok in Hk as (_ & _ & Hk).
    apply outcome_bind_ok in Hk as (_ & _ & Hk). apply ensure_bind_ok in Hk as [Hn _].
    unfold build_decision, gate_tally, tally in Hn. cbn [paired_count n_seeds] in Hn.
    by rewrite E in Hn. }
  destruct (same_seed_rescue g ev v Hkind Hne Hc Hp Hv Hpass) as (Hlt & s & Hs & Sc & Sp & Hd).
  split; [done|].
  destruct (evidence_at g ev s Hc Hp Hev Hs) as (c & p & e & H1 & H2 & H3 & H4 & H5 & H6 & E1 & E2 & He & Hl).
  apply paired_evidence_ok in He as (Hr & (ic & ip & Hic & Hip & Hres) & Hdiv).
  unfold diverged_and_intervened in Hd. rewrite Hl in Hd. simpl in Hd.
  apply andb_true_iff in Hd as [Hd1 Hint]. destruct (Hdiv Hd1) as [_ Hact]. exists s, c, p, ic, ip, e.2.
  rewrite Sc in E1. rewrite Sp in E2. split_and!; try done.
  - by destruct (success c) as [[]|].
  - by destruct (success p) as [[]|].
Qed.

Lemma same_seed_gate_sound_witness :
  count (arm_success (parent_records (demo_gate same_seed [0; 1] 1 (1 # 2)))) [0; 1] <
  count (arm_success (candidate_records (demo_gate same_seed [0; 1] 1 (1 # 2)))) [0; 1].
Proof.
  destruct (ok_evaluate (demo_gate same_seed [0; 1] 1 (1 # 2))) as [d Hd]; [vm_compute; reflexivity|].
  assert (passed d = true) as Hp.
  { assert (passed (ok_or (evaluate_paired_gate (demo_gate same_seed [0; 1] 1 (1 # 2))) d) = true) as H
      by (vm_compute; reflexivity). rewrite Hd in H. exact H. }
  apply (same_seed_gate_sound (demo_gate same_seed [0; 1] 1 (1 # 2)) d Hd); [reflexivity|exact Hp].
Defined.

(** The evidence of a decision.  A gate that returns a decision had, in each arm, exactly
    one valid episode per expected seed, no other valid episode, and every one of them
    produced by the declared bundle; the successes and wins it reports are those of these
    episodes; and any other lists of records with the same valid episodes, in any order and
    with any infrastructure failures, give the same decision. *)
Theorem gate_evidence_exact (g : Gate) (d : GateDecision) (cs ps : list EpisodeRecord) :
  evaluate_paired_gate g = Ok d →
  valid_records cs ≡ₚ valid_records (candidate_records g) →
  valid_records ps ≡ₚ valid_records (parent_records g) →
  arm_ok (candidate_records g) (Some (candidate_sha256 d)) (expected_seeds g) ∧
  arm_ok (parent_records g) (parent_sha256 d) (expected_seeds g) ∧
  candidate_successes d = count (arm_success (candidate_records g)) (expected_seeds g) ∧
  parent_successes d = count (arm_success (parent_records g)) (expected_seeds g) ∧
  candidate_wins d - parent_wins d = candidate_successes d - parent_successes d ∧
  evaluate_paired_gate (with_records g cs ps) = Ok d.
Proof.
  intros He Hcs Hps. pose proof (evaluate_perm g cs ps d Hcs Hps He) as He'.
  apply evaluate_ok in He as (Hc & Hp & _ & ev & v & _ & _ & -> & _).
  destruct (tally_counts g ev Hc Hp) as (E1 & E2 & E3 & E4). cbv zeta in E1, E2, E3, E4.
  cbn [candidate_sha256 parent_sha256 candidate_successes parent_successes candidate_wins
       parent_wins build_decision].
  rewrite E1, E2, E3, E4. split; [exact Hc|]. split; [exact Hp|]. split; [done|]. split; [done|].
  split; [symmetry; apply gain_is_wins|exact He'].
Qed.

Lemma gate_evidence_exact_witness :
  ∃ d, candidate_successes d = 1 ∧
    evaluate_paired_gate (with_records (demo_gate regression [0; 1] 1 1)
      (demo_episode (Some demo_sha) 1 false "b" :: [demo_episode (Some demo_sha) 0 true "b"])
      (parent_records (demo_gate regression [0; 1] 1 1))) = Ok d.
Proof.
  destruct (ok_evaluate (demo_gate regression [0; 1] 1 1)) as [d Hd]; [vm_compute; reflexivity|].
  exists d. destruct (gate_evidence_exact (demo_gate regression [0; 1] 1 1) d
    [demo_episode (Some demo_sha) 1 false "b"; demo_episode (Some demo_sha) 0 true "b"]
    (parent_records (demo_gate regression [0; 1] 1 1)) Hd) as (_ & _ & H & _ & _ & He).
  - apply Permutation_swap.
  - reflexivity.
  - split; [rewrite H; vm_compute; reflexivity|exact He].
Defined.

(** A decision's identity does not determine the decision.  The pass rate of a same-seed
    gate is not part of the digested payload: on the same arms a rate of one half passes, a
    rate of three quarters fails, and both decisions have the same [decision_id]. *)
Theorem decision_id_omits_pass_rate :
  ∃ d1 d2,
    evaluate_paired_gate (demo_gate same_seed [0; 1; 2; 3] 2 (1 # 2)) = Ok d1 ∧
    evaluate_paired_gate (demo_gate same_seed [0; 1; 2; 3] 2 (3 # 4)) = Ok d2 ∧
    decision_id d1 = decision_id d2 ∧ passed d1 = true ∧ passed d2 = false.
Proof.
  eexists _, _. split; [vm_compute; reflexivity|]. split; [vm_compute; reflexivity|].
  vm_compute. auto.
Qed.
