(* ===== verification/ProviderAdmission.v ===== *)
(** * Provider admission: [zetta/evolution/provider_admission.py]

    Leases on model-provider routes, shared by processes through a state file: per-route
    FIFO tickets, an additive-increase multiplicative-decrease limit, a cooldown after
    failures, and request and token budgets per minute.

    [t] is the content of the state file together with the audit ledger; every public call
    takes the lock, so each locked section is one step.  A call works on a pruned copy
    ([_prune]) and writes it back only where the code does.  Times are ticks and clock
    readings are arguments; identifiers from [uuid4] are arguments, assumed fresh where a
    step uses them; latencies and factors are binary64 values ([PyFloat.v]); the state file
    round-trips.  [acquire] is [acquire_start], then one [poll] per round of its loop.

    Most calls read the clock while they hold the lock.  [acquire] reads it before it takes
    the lock, for its ticket and in every round, and may wait for the lock in between: its
    reading may be older than those of calls that held the lock meanwhile, by [lag] at most.

    Theorems: limits and leases stay within their bounds; no window shorter by [lag] than
    the configured one has more admissions than the request budget, and one of the
    configured length may; a failure keeps its route closed for the whole cooldown; when a
    poll admits; and that a ticket whose time to live is over is never admitted although its
    caller keeps polling. *)

From Stdlib Require Import QArith Qround Ascii Lqa.
From S2P Require Import Prelude PyDict Sorting PyFloat.

Open Scope string_scope.
Open Scope list_scope.
Open Scope Z_scope.

Notation time := Z (only parsing).

Inductive adm_error :=
  | ValueError (msg : string)
  | KeyError (msg : string)
  | RuntimeError (msg : string)
  | ProviderAdmissionTimeout
  | ProviderAdmissionCancelled.

Module ProviderFailure.
Inductive t := RATE_LIMIT | QUOTA | TRANSPORT | STREAM | OOM | OTHER_RETRYABLE.
#[global] Instance t_eq_dec : EqDecision t.
Proof. solve_decision. Defined.
Definition value (f : t) : string :=
  match f with
  | RATE_LIMIT => "rate_limit" | QUOTA => "quota" | TRANSPORT => "transport"
  | STREAM => "stream" | OOM => "oom" | OTHER_RETRYABLE => "other_retryable"
  end.
Definition members : list t := [RATE_LIMIT; QUOTA; TRANSPORT; STREAM; OOM; OTHER_RETRYABLE].
(** [ProviderFailure(text)] *)
Definition of_value (s : string) : option t :=
  List.find (λ f, String.eqb (value f) s) members.
End ProviderFailure.

Record ProviderAdmissionConfig := {
  config_initial_limit : Z;
  min_limit : Z;
  config_max_limit : Z;
  increase_step : Z;
  healthy_successes_to_increase : Z;
  decrease_factor : Q;
  cooldown_s : time;
  rpm_window_s : time;
  metric_window_s : time;
  max_metric_samples : Z;
  p95_latency_limit_s : Q;
  p95_degrade_ratio : Q;
  min_latency_samples : Z;
  lease_ttl_s : time;
  waiter_ttl_s : time;
  poll_s : time;
  lock_timeout_s : time;
  lock_stale_s : time;
}.

(** [__post_init__] *)
Definition check_config (c : ProviderAdmissionConfig) : outcome adm_error unit :=
  guards [
    (1 <=? config_initial_limit c, ValueError "initial_limit must be positive");
    (1 <=? min_limit c, ValueError "min_limit must be positive");
    (1 <=? config_max_limit c, ValueError "max_limit must be positive");
    (1 <=? increase_step c, ValueError "increase_step must be positive");
    (1 <=? healthy_successes_to_increase c,
     ValueError "healthy_successes_to_increase must be positive");
    (1 <=? max_metric_samples c, ValueError "max_metric_samples must be positive");
    (1 <=? min_latency_samples c, ValueError "min_latency_samples must be positive");
    ((min_limit c <=? config_initial_limit c) && (config_initial_limit c <=? config_max_limit c),
     ValueError "limits must satisfy min_limit <= initial_limit <= max_limit");
    (flt 0 (decrease_factor c) && flt (decrease_factor c) 1,
     ValueError "decrease_factor must be between zero and one");
    (0 <? cooldown_s c, ValueError "cooldown_s must be positive");
    (0 <? rpm_window_s c, ValueError "rpm_window_s must be positive");
    (0 <? metric_window_s c, ValueError "metric_window_s must be positive");
    (flt 0 (p95_latency_limit_s c), ValueError "p95_latency_limit_s must be positive");
    (0 <? lease_ttl_s c, ValueError "lease_ttl_s must be positive");
    (0 <? waiter_ttl_s c, ValueError "waiter_ttl_s must be positive");
    (0 <? poll_s c, ValueError "poll_s must be positive");
    (0 <? lock_timeout_s c, ValueError "lock_timeout_s must be positive");
    (0 <? lock_stale_s c, ValueError "lock_stale_s must be positive");
    (flt 1 (p95_degrade_ratio c), ValueError "p95_degrade_ratio must be greater than one")].

Record Sample := {
  at_unix : time;
  tokens : Z;
  latency_s : option Q;
  sample_success : bool;
  stream_error : bool;
  failure : option ProviderFailure.t;
}.

Record Route := {
  initial_limit : Z;
  max_limit : Z;
  rpm_limit : option Z;
  tpm_limit : option Z;
  limit : Z;
  cooldown_until_unix : time;
  healthy_successes : Z;
  best_p95_latency_s : option Q;
  successful_requests : Z;
  failed_requests : Z;
  request_starts : list time;
  samples : list Sample;
}.

Record Lease := {
  lease_route : string;
  lease_owner : string;
  acquired_at_unix : time;
  lease_expires : time;
  reserved_tokens : Z;
}.

Record Waiter := {
  ticket_id : string;
  waiter_route : string;
  waiter_owner : string;
  created_at_unix : time;
  waiter_expires : time;
}.

(** The audit events, with the fields the theorems read. *)
Inductive Event :=
  | route_registered (route : string) (limit : Z)
  | wait_started (route ticket : string)
  | lease_acquired (route lease : string) (limit : Z)
  | lease_heartbeat (route lease : string)
  | request_completed (route lease : string) (tokens : Z) (latency : option Q)
  | request_failed (route lease : string) (f : ProviderFailure.t) (tokens : Z) (latency : option Q)
  | limit_changed (route : string) (old new : Z) (reason : string) (cooldown_until : time)
  | lease_released (route lease : string) (outcome_reported : bool)
  | lease_expired (route lease : string)
  | waiter_expired (route ticket : string)
  | waiter_removed (name route ticket : string).

Record RouteSnapshot := {
  snap_limit : Z; snap_initial_limit : Z; snap_max_limit : Z;
  snap_rpm_limit : option Z; snap_tpm_limit : option Z;
  snap_reserved_tokens : Z; active_leases : Z; waiting : Z; cooldown_remaining_s : time;
  rolling_rpm : Z; rolling_tpm : Z; rolling_stream_errors : Z; rolling_failures : Z;
  p50_latency_s : option Q; p95_latency_s : option Q;
  snap_successful_requests : Z; snap_failed_requests : Z;
}.

Definition char_in (ranges : list (nat * nat)) (c : ascii) : bool :=
  let n := nat_of_ascii c in existsb (λ r, (r.1 <=? n)%nat && (n <=? r.2)%nat) ranges.
Fixpoint all_in (p : ascii → bool) (s : string) : bool :=
  match s with EmptyString => true | String c s' => p c && all_in p s' end.

Definition alphanumeric : list (nat * nat) := [(48, 57); (65, 90); (97, 122)]%nat.

(** [_ROUTE_ID.fullmatch] *)
Definition is_route_id (s : string) : bool :=
  match s with
  | EmptyString => false
  | String c s' => char_in alphanumeric c && (String.length s' <=? 79)%nat &&
      all_in (char_in ((95, 95) :: (45, 46) :: alphanumeric)%nat) s'
  end.

Definition _validate_route_id (s : string) : outcome adm_error unit :=
  ensure (is_route_id s) (ValueError
    "route_id must be a public alias containing only letters, digits, '.', '_', or '-'").

Definition _validate_opaque_id (s name : string) : outcome adm_error unit :=
  ensure ((String.length s =? 32)%nat && all_in (char_in [(97, 102); (48, 57)]%nat) s)
    (ValueError (name +:+ " is not a valid opaque identifier")).

Definition _new_route (initial maximum : Z) (rpm tpm : option Z) : Route := {|
  initial_limit := initial; max_limit := maximum; rpm_limit := rpm; tpm_limit := tpm;
  limit := initial; cooldown_until_unix := 0; healthy_successes := 0;
  best_p95_latency_s := None; successful_requests := 0; failed_requests := 0;
  request_starts := []; samples := [] |}.

Definition _latencies (l : list Sample) : list Q := sort_by Qle_bool (omap latency_s l).

(** Linear interpolation between the two neighbouring order statistics. *)
Definition _percentile (values : list Q) (quantile : Q) : option Q :=
  match values with
  | [] => None
  | [x] => Some x
  | x :: _ =>
      let position := fmul (of_int (zlen values - 1)) quantile in
      let lower := Qfloor position in
      let upper := Qceiling position in
      let at_ i := List.nth (Z.to_nat i) values x in
      if lower =? upper then Some (at_ lower)
      else
        let weight := fsub position (of_int lower) in
        Some (fadd (fmul (at_ lower) (fsub 1 weight)) (fmul (at_ upper) weight))
  end.

(** The literals [0.50] and [0.95] *)
Definition half : Q := 1 # 2.
Definition ninety_five : Q := round64 (95 # 100).

Module ProviderAdmission.

Record t := State {
  routes : pydict string Route;
  leases : pydict string Lease;
  waiters : list Waiter;
  ledger : list (time * Event);
}.

Definition _new_state : t := State ∅ ∅ [] [].

Section controller.
Context (config : ProviderAdmissionConfig).

Definition set_routes (d : pydict string Route) (s : t) : t :=
  State d (leases s) (waiters s) (ledger s).
Definition set_leases (d : pydict string Lease) (s : t) : t :=
  State (routes s) d (waiters s) (ledger s).
Definition set_waiters (l : list Waiter) (s : t) : t :=
  State (routes s) (leases s) l (ledger s).
(** [_append_event] *)
Definition record_events (now : time) (es : list Event) (s : t) : t :=
  State (routes s) (leases s) (waiters s) (ledger s ++ ((λ e, (now, e)) <$> es)).

(** ** Reading the state *)

Definition _active_for_route (s : t) (route_id : string) : Z :=
  count (λ l, String.eqb (lease_route l) route_id) (values (leases s)).

Definition reserved_for_route (s : t) (route_id : string) : Z :=
  sumZ (λ l, if String.eqb (lease_route l) route_id then reserved_tokens l else 0) (values (leases s)).

Definition recent_starts (now : time) (r : Route) : list time :=
  bfilter (λ x, now - rpm_window_s config <=? x) (request_starts r).
Definition recent_samples (now : time) (r : Route) : list Sample :=
  bfilter (λ x, now - rpm_window_s config <=? at_unix x) (samples r).

(** [l[-n:]] *)
Definition last_n {A} (n : Z) (l : list A) : list A := drop (length l - Z.to_nat n) l.

Definition prune_route (now : time) (r : Route) : Route := {|
  initial_limit := initial_limit r; max_limit := max_limit r; rpm_limit := rpm_limit r;
  tpm_limit := tpm_limit r; limit := limit r; cooldown_until_unix := cooldown_until_unix r;
  healthy_successes := healthy_successes r; best_p95_latency_s := best_p95_latency_s r;
  successful_requests := successful_requests r; failed_requests := failed_requests r;
  request_starts := recent_starts now r;
  samples := last_n (max_metric_samples config)
    (bfilter (λ x, now - metric_window_s config <=? at_unix x) (samples r)) |}.

(** Drop what is expired: leases, tickets, starts and samples. *)
Definition _prune (now : time) (s : t) : t :=
  State (map_values (prune_route now) (routes s))
    (dict_filter (λ _ l, now <? lease_expires l) (leases s))
    (bfilter (λ w, now <? waiter_expires w) (waiters s)) (ledger s).

(** What [_prune] returns: whether it changed anything. *)
Definition prune_changed (now : time) (s : t) : bool :=
  negb (length (items (leases (_prune now s))) =? length (items (leases s)))%nat
  || negb (length (waiters (_prune now s)) =? length (waiters s))%nat
  || existsb (λ kv, let r := kv.2 in let r' := prune_route now r in
       negb (length (request_starts r') =? length (request_starts r))%nat
       || negb (length (samples r') =? length (samples r))%nat) (items (routes s)).

Definition route_snapshot (s : t) (route_id : string) (r : Route) (now : time) : RouteSnapshot :=
  let latencies := _latencies (samples r) in
  let minute := recent_samples now r in
  {| snap_limit := limit r; snap_initial_limit := initial_limit r; snap_max_limit := max_limit r;
     snap_rpm_limit := rpm_limit r; snap_tpm_limit := tpm_limit r;
     snap_reserved_tokens := reserved_for_route s route_id;
     active_leases := _active_for_route s route_id;
     waiting := count (λ w, String.eqb (waiter_route w) route_id) (waiters s);
     cooldown_remaining_s := Z.max 0 (cooldown_until_unix r - now);
     rolling_rpm := zlen (recent_starts now r);
     rolling_tpm := sumZ tokens minute;
     rolling_stream_errors := count stream_error minute;
     rolling_failures := count (λ x, negb (sample_success x)) minute;
     p50_latency_s := _percentile latencies half;
     p95_latency_s := _percentile latencies ninety_five;
     snap_successful_requests := successful_requests r;
     snap_failed_requests := failed_requests r |}.

(** [state["routes"][route_id]] *)
Definition get_route (route_id : string) (s : t) : outcome adm_error Route :=
  match routes s !! route_id with Some r => Ok r | None => Raise (KeyError route_id) end.

(** Lift an exception, without writing. *)
Definition lift {A} (o : outcome adm_error A) : prog t adm_error A := λ s, (s, o).

(** ** Routes *)

Definition limits_valid (initial maximum : Z) : bool :=
  (min_limit config <=? initial) && (initial <=? maximum) && (maximum <=? config_max_limit config).

Definition positive_or_none (o : option Z) : bool :=
  match o with Some x => 1 <=? x | None => true end.

(** An argument given explicitly that contradicts the registered value. *)
Definition conflicts (given : option Z) (registered : Z) : bool :=
  match given with Some x => negb (x =? registered) | None => false end.
Definition conflicts_opt (given registered : option Z) : bool :=
  bool_decide (is_Some given) && negb (bool_decide (given = registered)).

Definition register_route (route_id : string) (initial maximum rpm tpm : option Z) (now : time) :
    prog t adm_error RouteSnapshot :=
  lift (_validate_route_id route_id);;
  let initial' := default (config_initial_limit config) initial in
  let maximum' := default (config_max_limit config) maximum in
  check (limits_valid initial' maximum') (ValueError
    "route limits must satisfy min_limit <= initial <= max_limit <= configured max_limit");;
  check (positive_or_none rpm) (ValueError "rpm_limit must be a positive integer or null");;
  check (positive_or_none tpm) (ValueError "tpm_limit must be a positive integer or null");;
  s ← get_state;
  let pruned := _prune now s in
  match routes pruned !! route_id with
  | None =>
      let route := _new_route initial' maximum' rpm tpm in
      let s' := set_routes (<[route_id := route]> (routes pruned)) pruned in
      put_state (record_events now [route_registered route_id initial'] s');;
      mret (route_snapshot s' route_id route now)
  | Some route =>
      check (negb (conflicts initial (initial_limit route) || conflicts maximum (max_limit route)
                   || conflicts_opt rpm (rpm_limit route) || conflicts_opt tpm (tpm_limit route)))
        (ValueError "route is already registered with different limits");;
      mret (route_snapshot pruned route_id route now)
  end.

(** ** Admission *)

(** The ticket: the first locked section of [acquire]. *)
Definition start_wait (route_id owner_digest ticket : string) (timeout : time) (created : time) :
    prog t adm_error unit :=
  modify (λ s,
    let pruned := _prune created s in
    record_events created [wait_started route_id ticket]
      (set_waiters (waiters pruned ++
         [{| ticket_id := ticket; waiter_route := route_id; waiter_owner := owner_digest;
             created_at_unix := created;
             waiter_expires := Z.min (created + timeout) (created + waiter_ttl_s config) |}]) pruned)).

(** [acquire] up to its loop. *)
Definition acquire_start (route_id owner owner_digest ticket : string) (timeout : time)
    (poll : option time) (estimated_tokens : Z) (now created : time) : prog t adm_error unit :=
  lift (_validate_route_id route_id);;
  check (str_true owner) (ValueError "owner must be a non-empty string");;
  check (0 <=? timeout) (ValueError "timeout_s must be non-negative");;
  check (0 <=? estimated_tokens) (ValueError "estimated_tokens must be a non-negative integer");;
  check (0 <? default (poll_s config) poll) (ValueError "poll_s must be positive");;
  register_route route_id None None None None now;;
  start_wait route_id owner_digest ticket timeout created.

(** The first ticket of the route is this one. *)
Definition at_front (s : t) (route_id ticket : string) : bool :=
  match bfilter (λ w, String.eqb (waiter_route w) route_id) (waiters s) with
  | w :: _ => String.eqb (ticket_id w) ticket
  | [] => false
  end.

Definition within_rpm (r : Route) (now : time) : bool :=
  match rpm_limit r with Some n => zlen (recent_starts now r) <? n | None => true end.

Definition within_tpm (s : t) (route_id : string) (r : Route) (estimated_tokens : Z) (now : time) : bool :=
  match tpm_limit r with
  | Some n => sumZ tokens (recent_samples now r) + reserved_for_route s route_id + estimated_tokens <=? n
  | None => true
  end.

Definition admits (s : t) (route_id ticket : string) (r : Route) (estimated_tokens : Z) (now : time) : bool :=
  at_front s route_id ticket && (_active_for_route s route_id <? limit r)
  && (cooldown_until_unix r <=? now) && within_rpm r now
  && within_tpm s route_id r estimated_tokens now.

Definition drop_ticket (ticket : string) (l : list Waiter) : list Waiter :=
  bfilter (λ w, negb (String.eqb (ticket_id w) ticket)) l.

Definition add_start (now : time) (r : Route) : Route := {|
  initial_limit := initial_limit r; max_limit := max_limit r; rpm_limit := rpm_limit r;
  tpm_limit := tpm_limit r; limit := limit r; cooldown_until_unix := cooldown_until_unix r;
  healthy_successes := healthy_successes r; best_p95_latency_s := best_p95_latency_s r;
  successful_requests := successful_requests r; failed_requests := failed_requests r;
  request_starts := request_starts r ++ [now]; samples := samples r |}.

Definition new_lease (route_id owner_digest : string) (estimated_tokens : Z) (now : time) : Lease := {|
  lease_route := route_id; lease_owner := owner_digest; acquired_at_unix := now;
  lease_expires := now + lease_ttl_s config; reserved_tokens := estimated_tokens |}.

(** The state after the grant. *)
Definition grant (route_id ticket owner_digest lease_id : string) (r : Route) (estimated_tokens : Z)
    (now : time) (s : t) : t :=
  record_events now [lease_acquired route_id lease_id (limit r)]
    (State (<[route_id := add_start now r]> (routes s)) (<[lease_id := new_lease route_id owner_digest estimated_tokens now]> (leases s))
       (drop_ticket ticket (waiters s)) (ledger s)).

(** The locked section of one round of the loop: [Some] is a lease. *)
Definition try_acquire (route_id ticket owner_digest lease_id : string) (estimated_tokens : Z) (now : time) :
    prog t adm_error (option string) :=
  s ← get_state;
  let pruned := _prune now s in
  r ← lift (get_route route_id pruned);
  if admits pruned route_id ticket r estimated_tokens now then
    put_state (grant route_id ticket owner_digest lease_id r estimated_tokens now pruned);;
    mret (Some lease_id)
  else mret None.

Definition _remove_waiter (ticket route_id event_name : string) (now : time) : prog t adm_error unit :=
  modify (λ s,
    let left := drop_ticket ticket (waiters s) in
    if (length left =? length (waiters s))%nat then s
    else record_events now [waiter_removed event_name route_id ticket] (set_waiters left s)).

(** One round of the loop of [acquire], whose clock reads [now]; a caller that gives up
    removes its ticket, at [later], and the exception removes it again (to no effect). *)
Definition poll (route_id ticket owner_digest lease_id : string) (estimated_tokens : Z)
    (deadline : time) (cancelled : bool) (now later : time) : prog t adm_error (option string) :=
  if cancelled then
    _remove_waiter ticket route_id "wait_cancelled" later;;
    _remove_waiter ticket route_id "wait_abandoned" later;;
    raise ProviderAdmissionCancelled
  else if deadline <=? now then
    _remove_waiter ticket route_id "wait_timed_out" later;;
    _remove_waiter ticket route_id "wait_abandoned" later;;
    raise ProviderAdmissionTimeout
  else try_acquire route_id ticket owner_digest lease_id estimated_tokens now.

(** ** Leases *)

Definition heartbeat (lease_id : string) (now : time) : prog t adm_error unit :=
  lift (_validate_opaque_id lease_id "lease_id");;
  s ← get_state;
  let pruned := _prune now s in
  match leases pruned !! lease_id with
  | None => raise (KeyError "provider lease is not active")
  | Some l =>
      let l' := {| lease_route := lease_route l; lease_owner := lease_owner l;
                   acquired_at_unix := acquired_at_unix l; lease_expires := now + lease_ttl_s config;
                   reserved_tokens := reserved_tokens l |} in
      put_state (record_events now [lease_heartbeat (lease_route l) lease_id]
        (set_leases (<[lease_id := l']> (leases pruned)) pruned))
  end.

(** The sample of a completion and the counters. *)
Definition add_sample (x : Sample) (r : Route) : Route := {|
  initial_limit := initial_limit r; max_limit := max_limit r; rpm_limit := rpm_limit r;
  tpm_limit := tpm_limit r; limit := limit r; cooldown_until_unix := cooldown_until_unix r;
  healthy_successes := if sample_success x then healthy_successes r + 1 else 0;
  best_p95_latency_s := best_p95_latency_s r;
  successful_requests := if sample_success x then successful_requests r + 1 else successful_requests r;
  failed_requests := if sample_success x then failed_requests r else failed_requests r + 1;
  request_starts := request_starts r; samples := samples r ++ [x] |}.

Definition _decrease (now : time) (r : Route) : Route := {|
  initial_limit := initial_limit r; max_limit := max_limit r; rpm_limit := rpm_limit r;
  tpm_limit := tpm_limit r;
  limit := Z.max (min_limit config) (Qfloor (fmul (of_int (limit r)) (decrease_factor config)));
  cooldown_until_unix := Z.max (cooldown_until_unix r) (now + cooldown_s config);
  healthy_successes := 0; best_p95_latency_s := best_p95_latency_s r;
  successful_requests := successful_requests r; failed_requests := failed_requests r;
  request_starts := request_starts r; samples := samples r |}.

Definition with_best_p95 (p : Q) (r : Route) : Route := {|
  initial_limit := initial_limit r; max_limit := max_limit r; rpm_limit := rpm_limit r;
  tpm_limit := tpm_limit r; limit := limit r; cooldown_until_unix := cooldown_until_unix r;
  healthy_successes := healthy_successes r; best_p95_latency_s := Some p;
  successful_requests := successful_requests r; failed_requests := failed_requests r;
  request_starts := request_starts r; samples := samples r |}.

Definition increase (r : Route) : Route := {|
  initial_limit := initial_limit r; max_limit := max_limit r; rpm_limit := rpm_limit r;
  tpm_limit := tpm_limit r; limit := Z.min (max_limit r) (limit r + increase_step config);
  cooldown_until_unix := cooldown_until_unix r;
  healthy_successes := 0; best_p95_latency_s := best_p95_latency_s r;
  successful_requests := successful_requests r; failed_requests := failed_requests r;
  request_starts := request_starts r; samples := samples r |}.

Definition enough_samples (r : Route) : bool :=
  min_latency_samples config <=? zlen (_latencies (samples r)).

Definition degraded (r : Route) : bool :=
  match _percentile (_latencies (samples r)) ninety_five with
  | Some p95 =>
      enough_samples r &&
      (flt (p95_latency_limit_s config) p95 ||
       match best_p95_latency_s r with
       | Some reference => flt (fmul reference (p95_degrade_ratio config)) p95
       | None => false
       end)
  | None => false
  end.

(** The reference latency is lowered by a better percentile. *)
Definition update_best (r : Route) : Route :=
  match _percentile (_latencies (samples r)) ninety_five with
  | Some p95 =>
      if enough_samples r &&
         match best_p95_latency_s r with Some reference => flt p95 reference | None => true end
      then with_best_p95 p95 r else r
  | None => r
  end.

(** The adaptive policy after the sample was added, with the reason of a change. *)
Definition adapt (f : option ProviderFailure.t) (now : time) (r : Route) : Route * string :=
  match f with
  | Some f => (_decrease now r, ProviderFailure.value f)
  | None =>
      if degraded r then (_decrease now r, "p95_degraded")
      else if cooldown_until_unix r <=? now then
        let r' := update_best r in
        if (healthy_successes_to_increase config <=? healthy_successes r') && (limit r' <? max_limit r')
        then (increase r', "healthy_increase") else (r', EmptyString)
      else (r, EmptyString)
  end.

Definition completion_events (route_id lease_id : string) (x : Sample) (old new : Route) (reason : string) :
    list Event :=
  (match failure x with
   | None => request_completed route_id lease_id (tokens x) (latency_s x)
   | Some f => request_failed route_id lease_id f (tokens x) (latency_s x)
   end) ::
  (if limit new =? limit old then []
   else [limit_changed route_id (limit old) (limit new) reason (cooldown_until_unix new)]).

(** The locked section of [complete]. *)
Definition finalize (lease_id : string) (x : Sample) (now : time) : prog t adm_error unit :=
  s ← get_state;
  let pruned := _prune now s in
  match leases pruned !! lease_id with
  | None => raise (KeyError "provider lease is not active")
  | Some l =>
      let route_id := lease_route l in
      r ← lift (get_route route_id pruned);
      let r1 := add_sample x r in
      let adapted := adapt (failure x) now r1 in
      put_state (record_events now (completion_events route_id lease_id x r1 adapted.1 adapted.2)
        (set_routes (<[route_id := adapted.1]> (routes pruned))
          (set_leases (delete lease_id (leases pruned)) pruned)))
  end.

Definition complete (lease_id : string) (success : bool) (n_tokens : Z) (latency : option Q)
    (f : option ProviderFailure.t) (now : time) : prog t adm_error unit :=
  lift (_validate_opaque_id lease_id "lease_id");;
  check (0 <=? n_tokens) (ValueError "tokens must be a non-negative integer");;
  check (Qle_bool 0 (default 0%Q latency)) (ValueError "latency_s must be finite and non-negative");;
  check (negb (success && bool_decide (is_Some f)))
    (ValueError "a successful completion cannot include a failure");;
  check (negb (negb success && bool_decide (f = None)))
    (ValueError "a failed completion requires a sanitized failure class");;
  finalize lease_id
    {| at_unix := now; tokens := n_tokens; latency_s := latency; sample_success := success;
       stream_error := bool_decide (f = Some ProviderFailure.STREAM); failure := f |} now.

Definition release (lease_id : string) (outcome_reported : bool) (now : time) : prog t adm_error bool :=
  lift (_validate_opaque_id lease_id "lease_id");;
  s ← get_state;
  let pruned := _prune now s in
  match leases pruned !! lease_id with
  | None => mret false
  | Some l =>
      put_state (record_events now [lease_released (lease_route l) lease_id outcome_reported]
        (set_leases (delete lease_id (leases pruned)) pruned));;
      mret true
  end.

(** The events of what a prune dropped. *)
Definition expiry_events (s pruned : t) : list Event :=
  omap (λ kl, if has_key (leases pruned) kl.1 then None else Some (lease_expired (lease_route kl.2) kl.1))
    (items (leases s))
  ++ omap (λ w, if member (ticket_id w) (ticket_id <$> waiters pruned) then None
                else Some (waiter_expired (waiter_route w) (ticket_id w))) (waiters s).

Definition is_lease_expired (e : Event) : bool :=
  match e with lease_expired _ _ => true | _ => false end.

Definition reap_expired (now : time) : prog t adm_error Z :=
  s ← get_state;
  let pruned := _prune now s in
  let events := expiry_events s pruned in
  (match events with [] => mret tt | _ => put_state (record_events now events pruned) end);;
  mret (count is_lease_expired events).

Definition snapshot (route_id : option string) (now : time) :
    prog t adm_error (list (string * RouteSnapshot)) :=
  lift (match route_id with Some r => _validate_route_id r | None => Ok tt end);;
  s ← get_state;
  let pruned := _prune now s in
  (if prune_changed now s then put_state pruned else mret tt);;
  check (match route_id with Some r => has_key (routes pruned) r | None => true end)
    (KeyError (default EmptyString route_id));;
  mret (omap (λ name, match routes pruned !! name with
                      | Some r => Some (name, route_snapshot pruned name r now)
                      | None => None end)
          (match route_id with Some r => [r] | None => sort_by str_leb (keys (routes pruned)) end)).

(** ** The handle a caller holds: [ProviderLease] *)

Record Handle := { handle_lease : string; released : bool; reported : bool }.

Definition handle_heartbeat (h : Handle) (now : time) : prog t adm_error unit :=
  check (negb (released h)) (RuntimeError "cannot heartbeat a released provider lease");;
  heartbeat (handle_lease h) now.

Definition _finish (h : Handle) (success : bool) (n_tokens : Z) (latency : option Q)
    (f : option ProviderFailure.t) (now : time) : prog t adm_error Handle :=
  check (negb (released h || reported h))
    (RuntimeError "provider lease outcome was already finalized");;
  complete (handle_lease h) success n_tokens latency f now;;
  mret {| handle_lease := handle_lease h; released := true; reported := true |}.

Definition succeed (h : Handle) (n_tokens : Z) (latency : Q) (now : time) : prog t adm_error Handle :=
  _finish h true n_tokens (Some latency) None now.

Definition fail (h : Handle) (f : string) (n_tokens : Z) (latency : option Q) (now : time) :
    prog t adm_error Handle :=
  match ProviderFailure.of_value f with
  | None => raise (ValueError "unsupported provider failure class")
  | Some f => _finish h false n_tokens latency (Some f) now
  end.

Definition handle_release (h : Handle) (now : time) : prog t adm_error Handle :=
  if released h then mret h
  else release (handle_lease h) (reported h) now;;
       mret {| handle_lease := handle_lease h; released := true; reported := reported h |}.

(** ** Runs

    The latest reading of the clock and the state; every constructor is one locked section.
    The readings of [acquire] ([step_start], [step_try]) were made before the lock was
    taken: they may be older than the latest, by at most [lag]. *)

Context (lag : time).

Inductive step : time * t → time * t → Prop :=
  | step_register c s route i m rpm tpm now :
      c ≤ now → step (c, s) (now, after (register_route route i m rpm tpm now) s)
  | step_start c s route o ticket timeout created :
      c - lag ≤ created → is_Some (routes s !! route) → ticket ∉ ticket_id <$> waiters s →
      step (c, s) (Z.max c created, after (start_wait route o ticket timeout created) s)
  | step_try c s route ticket o lease tk now :
      c - lag ≤ now → leases s !! lease = None →
      step (c, s) (Z.max c now, after (try_acquire route ticket o lease tk now) s)
  | step_remove c s ticket route event_name now :
      c ≤ now → step (c, s) (now, after (_remove_waiter ticket route event_name now) s)
  | step_heartbeat c s lease now : c ≤ now → step (c, s) (now, after (heartbeat lease now) s)
  | step_complete c s lease ok tk lat f now :
      c ≤ now → step (c, s) (now, after (complete lease ok tk lat f now) s)
  | step_release c s lease b now : c ≤ now → step (c, s) (now, after (release lease b now) s)
  | step_reap c s now : c ≤ now → step (c, s) (now, after (reap_expired now) s)
  | step_snapshot c s r now : c ≤ now → step (c, s) (now, after (snapshot r now) s).

Definition reachable (x : time * t) : Prop := 0 ≤ lag ∧ ∃ c, rtc step (c, _new_state) x.

(** A round of the loop is one such section, or two that remove the ticket. *)
Lemma poll_steps c s route ticket o lease tk deadline cancelled now later :
  c - lag ≤ now → c ≤ later → leases s !! lease = None →
  ∃ c', rtc step (c, s) (c', after (poll route ticket o lease tk deadline cancelled now later) s).
Proof.
  intros Hn Hl Hlease. unfold poll. destruct cancelled; [|destruct (deadline <=? now)].
  3: { exists (Z.max c now). by apply rtc_once, step_try. }
  all: exists later; eapply rtc_l; [by eapply step_remove|]; apply rtc_once; by apply step_remove.
Qed.

(** ** The invariant

    The configuration passed its checks and its limit is exactly representable as a
    float. *)

Context (config_ok : check_config config = Ok tt).
Context (config_small : config_max_limit config ≤ 2 ^ 53).

Lemma config_facts :
  1 ≤ min_limit config ∧ 1 ≤ increase_step config ∧
  (0 < decrease_factor config < 1)%Q ∧ 0 < cooldown_s config ∧ 0 < rpm_window_s config.
Proof.
  pose proof config_ok as H. apply guards_ok in H.
  repeat (apply Forall_cons in H as [? H]); simpl in *.
  repeat match goal with
    | H : (_ && _) = true |- _ => apply andb_true_iff in H as [??]
    | H : (_ <=? _) = true |- _ => apply Z.leb_le in H
    | H : (_ <? _) = true |- _ => apply Z.ltb_lt in H
    | H : flt _ _ = true |- _ => apply flt_spec in H
    end.
  split_and!; done || lia.
Qed.

Definition acquisition_of (route_id : string) (te : time * Event) : option time :=
  match te.2 with
  | lease_acquired r _ _ => if String.eqb r route_id then Some te.1 else None
  | _ => None
  end.

(** The times at which leases of a route were granted, from the audit ledger. *)
Definition acquisitions (route_id : string) (s : t) : list time :=
  omap (acquisition_of route_id) (ledger s).

Definition since (x : time) (l : list time) : list time := bfilter (λ y, x <=? y) l.
(** [y] is in the window that ends at [x] and is shorter than the configured one by [lag]. *)
Definition in_window (x y : time) : bool := (x - (rpm_window_s config - lag) <=? y) && (y <=? x).

Record route_ok (c : time) (s : t) (n : string) (r : Route) : Prop := {
  ok_limit : min_limit config ≤ limit r ≤ max_limit r;
  ok_max : max_limit r ≤ config_max_limit config;
  ok_active : _active_for_route s n ≤ max_limit r;
  ok_starts x : c ≤ x → recent_starts x r = since (x - rpm_window_s config) (acquisitions n s);
  ok_rpm k x : rpm_limit r = Some k → count (in_window x) (acquisitions n s) ≤ k;
}.

Record inv (c : time) (s : t) : Prop := {
  inv_routes : dict_wf (routes s);
  inv_leases : dict_wf (leases s);
  inv_lease k l : leases s !! k = Some l → is_Some (routes s !! lease_route l);
  inv_waiter w : w ∈ waiters s → is_Some (routes s !! waiter_route w);
  inv_tickets : NoDup (ticket_id <$> waiters s);
  inv_unregistered n : routes s !! n = None → acquisitions n s = [];
  inv_route n r : routes s !! n = Some r → route_ok c s n r;
}.

(** How a completion may change a route. *)
Record evolves (r r' : Route) : Prop := {
  evolves_max : max_limit r' = max_limit r;
  evolves_rpm : rpm_limit r' = rpm_limit r;
  evolves_starts : request_starts r' = request_starts r;
  evolves_cooldown : cooldown_until_unix r ≤ cooldown_until_unix r';
  evolves_limit : min_limit config ≤ limit r ≤ max_limit r → max_limit r ≤ config_max_limit config →
    min_limit config ≤ limit r' ≤ max_limit r;
}.

(** The elementary changes a locked section is made of; a ticket it adds satisfies [T]. *)
Section changes.
Context (T : string → Prop).

Inductive change (now : time) : t → t → Prop :=
  | change_prune s : change now s (_prune now s)
  | change_register s n i m rpm tpm :
      routes s !! n = None → limits_valid i m = true → positive_or_none rpm = true →
      change now s (set_routes (<[n := _new_route i m rpm tpm]> (routes s)) s)
  | change_ticket s w :
      is_Some (routes s !! waiter_route w) → T (ticket_id w) → ticket_id w ∉ ticket_id <$> waiters s →
      change now s (set_waiters (waiters s ++ [w]) s)
  | change_drop s l : l `sublist_of` waiters s → change now s (set_waiters l s)
  | change_grant s n r ticket o id tk :
      routes s !! n = Some r → admits s n ticket r tk now = true → leases s !! id = None →
      change now s (grant n ticket o id r tk now s)
  | change_extend s id l l' :
      leases s !! id = Some l → lease_route l' = lease_route l →
      change now s (set_leases (<[id := l']> (leases s)) s)
  | change_release s id : change now s (set_leases (delete id (leases s)) s)
  | change_route s n r r' :
      routes s !! n = Some r → evolves r r' → change now s (set_routes (<[n := r']> (routes s)) s)
  | change_ledger s es :
      (∀ n e, e ∈ es → acquisition_of n (now, e) = None) → change now s (record_events now es s).

Lemma since_recent x r : recent_starts x r = since (x - rpm_window_s config) (request_starts r).
Proof. done. Qed.

Lemma since_since x y l : y ≤ x → since x (since y l) = since x l.
Proof.
  intros H. induction l as [|z l IH]; [done|]. unfold since in *. rewrite !bfilter_cons.
  destruct (Z.leb_spec y z); rewrite ?bfilter_cons; destruct (Z.leb_spec x z); rewrite ?IH; done || lia.
Qed.

Lemma acquisitions_record now es n s :
  acquisitions n (record_events now es s) = acquisitions n s ++ omap (λ e, acquisition_of n (now, e)) es.
Proof.
  unfold acquisitions, record_events. simpl. rewrite omap_app. f_equal.
  induction es as [|e es IH]; [done|]. csimpl. by rewrite IH.
Qed.

Lemma acquisitions_quiet now es n s :
  (∀ e, e ∈ es → acquisition_of n (now, e) = None) → acquisitions n (record_events now es s) = acquisitions n s.
Proof.
  intros H. rewrite acquisitions_record.
  assert (omap (λ e, acquisition_of n (now, e)) es = []) as ->; [|by rewrite app_nil_r].
  induction es as [|e es IH]; [done|]. csimpl. rewrite H by (by left). apply IH.
  intros e' He. apply H. by right.
Qed.

Lemma active_sublist s d n :
  values d `sublist_of` values (leases s) → _active_for_route (set_leases d s) n ≤ _active_for_route s n.
Proof. apply count_sublist. Qed.

Lemma active_zero c s n : inv c s → routes s !! n = None → _active_for_route s n = 0.
Proof.
  intros Hinv Hn. apply count_zero. intros l Hl. apply String.eqb_neq. intros <-.
  apply list_elem_of_fmap in Hl as ([k l'] & -> & Hkl).
  apply (items_lookup _ _ _ (inv_leases _ _ Hinv)) in Hkl.
  apply (inv_lease _ _ Hinv) in Hkl as [r Hr]. simpl in *. congruence.
Qed.

(** Only the clock, the leases and the acquisitions of a route matter to it. *)
Lemma route_ok_mono c c' s s' n r :
  c ≤ c' → _active_for_route s' n ≤ _active_for_route s n → acquisitions n s' = acquisitions n s →
  route_ok c s n r → route_ok c' s' n r.
Proof.
  intros Hc Ha Hq [H1 H2 H3 H4 H5]. constructor; rewrite ?Hq; try done; [lia|].
  intros x Hx. apply H4. lia.
Qed.

Lemma route_ok_same c s s' n r :
  leases s' = leases s → ledger s' = ledger s → route_ok c s n r → route_ok c s' n r.
Proof.
  intros Hl Hq. apply route_ok_mono; [lia| |].
  - unfold _active_for_route. rewrite Hl. lia.
  - unfold acquisitions. by rewrite Hq.
Qed.

Lemma inv_mono c c' s : c ≤ c' → inv c s → inv c' s.
Proof.
  intros Hc [H1 H2 H3 H4 H5 H6 H7]. constructor; try done.
  intros n r Hr%H7. apply (route_ok_mono c c' s s n r Hc); [lia|done|exact Hr].
Qed.

Lemma prune_inv c now s : now ≤ c → inv c s → inv c (_prune now s).
Proof.
  intros Hc [H1 H2 H3 H4 H5 H6 H7]. constructor; simpl.
  - unfold dict_wf in *. by rewrite keys_map_values.
  - auto with dict.
  - intros k l. rewrite dict_lookup_filter by done. rewrite dict_lookup_map_values.
    destruct (leases s !! k) as [l'|] eqn:Hl; [|done]. destruct (now <? lease_expires l'); [|done].
    intros [= <-]. apply fmap_is_Some. by eapply H3.
  - intros w [_ Hw]%elem_of_bfilter. rewrite dict_lookup_map_values. apply fmap_is_Some. by apply H4.
  - eapply sublist_NoDup; [exact H5|apply fmap_sublist, bfilter_sublist].
  - intros n. rewrite dict_lookup_map_values, fmap_None. apply H6.
  - intros n r. rewrite dict_lookup_map_values. intros (r' & Hr & ->)%fmap_Some_1.
    destruct (H7 n r' Hr) as [A1 A2 A3 A4 A5]. constructor; simpl; try done.
    + etrans; [|exact A3]. apply count_sublist, values_filter.
    + intros x Hx. change (acquisitions n _) with (acquisitions n s). rewrite <- (A4 x Hx).
      rewrite !since_recent. simpl. rewrite since_recent. apply since_since. lia.
Qed.

Lemma register_inv c s n i m rpm tpm :
  inv c s → routes s !! n = None → limits_valid i m = true → positive_or_none rpm = true →
  inv c (set_routes (<[n := _new_route i m rpm tpm]> (routes s)) s).
Proof.
  intros Hinv Hn Hl Hp. pose proof (active_zero c s n Hinv Hn) as Ha.
  destruct Hinv as [H1 H2 H3 H4 H5 H6 H7].
  assert (Hreg : ∀ x, is_Some (routes s !! x) → is_Some (<[n := _new_route i m rpm tpm]> (routes s) !! x)).
  { intros x Hx. rewrite dict_lookup_insert. case_decide; [eauto|done]. }
  constructor; simpl; auto with dict.
  - intros k l Hk. eapply Hreg, H3, Hk.
  - intros n'. rewrite dict_lookup_insert. case_decide; [done|apply H6].
  - intros n' r. rewrite dict_lookup_insert. case_decide as E.
    2: { intros Hr%H7. by apply (route_ok_same c s). }
    subst n'. intros [= <-]. unfold limits_valid in Hl. rewrite !andb_true_iff, !Z.leb_le in Hl.
    constructor; simpl; try lia.
    + change (_active_for_route s n ≤ m). destruct config_facts. lia.
    + intros x _. change (acquisitions n _) with (acquisitions n s). by rewrite H6.
    + intros k x ->. change (acquisitions n _) with (acquisitions n s). rewrite H6 by done.
      rewrite count_nil. simpl in Hp. lia.
Qed.

Lemma ticket_inv c s w :
  inv c s → is_Some (routes s !! waiter_route w) → ticket_id w ∉ ticket_id <$> waiters s →
  inv c (set_waiters (waiters s ++ [w]) s).
Proof.
  intros [H1 H2 H3 H4 H5 H6 H7] Hr Hw. constructor; simpl; try done.
  - intros w' [?|Hin%list_elem_of_singleton]%elem_of_app; [by apply H4|by subst].
  - rewrite fmap_app. apply NoDup_app. split; [done|]. split; [|apply NoDup_singleton].
    intros x Hx Hin%list_elem_of_singleton. by subst.
  - intros n r Hn%H7. by apply (route_ok_same c s).
Qed.

Lemma waiters_inv c s l : inv c s → l `sublist_of` waiters s → inv c (set_waiters l s).
Proof.
  intros [H1 H2 H3 H4 H5 H6 H7] Hl. constructor; simpl; try done.
  - intros w Hw. apply H4. eapply elem_of_submseteq; [exact Hw|by apply sublist_submseteq].
  - eapply sublist_NoDup; [exact H5|by apply fmap_sublist].
  - intros n r Hn%H7. by apply (route_ok_same c s).
Qed.

(** The bindings of a dictionary of leases determine how many are active. *)
Lemma leases_inv c s d :
  inv c s → dict_wf d →
  (∀ k l, d !! k = Some l → is_Some (routes s !! lease_route l)) →
  (∀ n, _active_for_route (set_leases d s) n ≤ _active_for_route s n) →
  inv c (set_leases d s).
Proof.
  intros [H1 H2 H3 H4 H5 H6 H7] Hd Hl Ha. constructor; simpl; try done.
  intros n r Hn%H7. apply (route_ok_mono c c s _ n r); [lia|apply Ha|done|exact Hn].
Qed.

Lemma active_insert s id l n :
  _active_for_route (set_leases (<[id := l]> (leases s)) s) n =
    _active_for_route s n - default 0 ((λ l, Z.b2z (String.eqb (lease_route l) n)) <$> leases s !! id)
    + Z.b2z (String.eqb (lease_route l) n).
Proof. apply (sum_values_insert (λ l, Z.b2z (String.eqb (lease_route l) n))). Qed.

Lemma active_delete s id n :
  dict_wf (leases s) →
  _active_for_route (set_leases (delete id (leases s)) s) n ≤ _active_for_route s n.
Proof.
  intros Hd. unfold _active_for_route, count. simpl. rewrite sum_values_delete by done.
  destruct (leases s !! id) as [l|]; simpl; [|lia]. destruct (String.eqb _ _); simpl; lia.
Qed.

Lemma evolve_inv c s n r r' :
  inv c s → routes s !! n = Some r → evolves r r' →
  inv c (set_routes (<[n := r']> (routes s)) s).
Proof.
  intros [H1 H2 H3 H4 H5 H6 H7] Hn [E1 E2 E3 E4 E5].
  assert (Hreg : ∀ x, is_Some (routes s !! x) → is_Some (<[n := r']> (routes s) !! x)).
  { intros x Hx. rewrite dict_lookup_insert. case_decide; [eauto|done]. }
  constructor; simpl; auto with dict.
  - intros k l Hk. eapply Hreg, H3, Hk.
  - intros n'. rewrite dict_lookup_insert. case_decide; [done|apply H6].
  - intros n' q. rewrite dict_lookup_insert. case_decide as E.
    2: { intros Hr%H7. by apply (route_ok_same c s). }
    subst n'. intros [= <-]. destruct (H7 n r Hn) as [A1 A2 A3 A4 A5].
    constructor; rewrite ?E1, ?E2; try done; [by apply E5|].
    intros x Hx. change (acquisitions n _) with (acquisitions n s). rewrite <- (A4 x Hx).
    unfold recent_starts. by rewrite E3.
Qed.

Lemma ledger_inv c now s es :
  (∀ n e, e ∈ es → acquisition_of n (now, e) = None) → inv c s → inv c (record_events now es s).
Proof.
  intros Hq [H1 H2 H3 H4 H5 H6 H7].
  assert (Ha : ∀ n, acquisitions n (record_events now es s) = acquisitions n s)
    by (intros; apply acquisitions_quiet; auto).
  constructor; simpl; try done.
  - intros n Hn. rewrite Ha. by apply H6.
  - intros n r Hn%H7. apply (route_ok_mono c c s _ n r); [lia|unfold _active_for_route; simpl; lia|apply Ha|done].
Qed.

(** ** Granting a lease *)

Lemma admits_facts s n ticket r tk now :
  admits s n ticket r tk now = true →
  at_front s n ticket = true ∧ _active_for_route s n < limit r ∧ cooldown_until_unix r ≤ now ∧
  within_rpm r now = true ∧ within_tpm s n r tk now = true.
Proof.
  unfold admits. rewrite !andb_true_iff, Z.ltb_lt, Z.leb_le. intros [[[[? ?] ?] ?] ?]. done.
Qed.

Lemma acquisitions_grant n' n ticket o id r tk now s :
  acquisitions n' (grant n ticket o id r tk now s) =
    acquisitions n' s ++ (if String.eqb n n' then [now] else []).
Proof.
  unfold grant. rewrite acquisitions_record. csimpl. unfold acquisition_of. simpl.
  by destruct (String.eqb n n').
Qed.

Lemma since_app x l k : since x (l ++ k) = since x l ++ since x k.
Proof. apply bfilter_app. Qed.

(** A grant within the request budget keeps every window within it: the controller still has
    all starts since the latest reading less a window, and the reading of the grant is at
    most [lag] older. *)
Lemma grant_rpm c now s n r k x :
  now ≤ c → c - lag ≤ now →
  route_ok c s n r → rpm_limit r = Some k → within_rpm r now = true →
  count (in_window x) (acquisitions n s ++ [now]) ≤ k.
Proof.
  intros Hc Hlag [_ _ _ Hst Hrpm] Hk Hw. rewrite count_app, count_cons, count_nil.
  destruct (in_window x now) eqn:E; simpl; [|specialize (Hrpm k x Hk); lia].
  unfold within_rpm in Hw. rewrite Hk in Hw. apply Z.ltb_lt in Hw.
  apply andb_true_iff in E as [E1%Z.leb_le E2%Z.leb_le].
  pose proof (Hst c ltac:(lia)) as Hall. rewrite since_recent in Hall.
  assert (Hsub : zlen (since (c - rpm_window_s config) (acquisitions n s)) ≤ zlen (recent_starts now r)).
  { rewrite <- Hall, since_recent. unfold since. rewrite !zlen_bfilter. apply count_impl.
    intros y Hy%Z.leb_le. apply Z.leb_le. lia. }
  unfold since in Hsub. rewrite zlen_bfilter in Hsub.
  pose proof (count_impl (in_window x) (λ y, c - rpm_window_s config <=? y) (acquisitions n s)) as Hi.
  assert (count (in_window x) (acquisitions n s) ≤
          count (λ y, c - rpm_window_s config <=? y) (acquisitions n s)); [|lia].
  apply Hi. intros y [Hy%Z.leb_le _]%andb_true_iff. apply Z.leb_le. lia.
Qed.

Lemma grant_route_ok c now s n r ticket o id tk :
  now ≤ c → c - lag ≤ now →
  route_ok c s n r → admits s n ticket r tk now = true → leases s !! id = None →
  route_ok c (grant n ticket o id r tk now s) n (add_start now r).
Proof.
  intros Hc Hlag Hok Had Hid. pose proof Hok as [A1 A2 A3 A4 A5].
  apply admits_facts in Had as (_ & Hact & _ & Hw & _). constructor; simpl; try done.
  - change (_active_for_route (set_leases (<[id := new_lease n o tk now]> (leases s)) s) n ≤ max_limit r).
    rewrite active_insert, Hid. simpl. destruct (String.eqb n n); simpl; lia.
  - intros x Hx. rewrite acquisitions_grant, String.eqb_refl, since_app.
    unfold recent_starts in *. simpl. rewrite bfilter_app, (A4 x Hx). done.
  - intros k x Hk. rewrite acquisitions_grant, String.eqb_refl. by apply (grant_rpm c now s n r).
Qed.

Lemma grant_inv c now s n r ticket o id tk :
  now ≤ c → c - lag ≤ now →
  inv c s → routes s !! n = Some r → admits s n ticket r tk now = true → leases s !! id = None →
  inv c (grant n ticket o id r tk now s).
Proof.
  intros Hc Hlag [H1 H2 H3 H4 H5 H6 H7] Hn Had Hid.
  assert (Hreg : ∀ x, is_Some (routes s !! x) → is_Some (<[n := add_start now r]> (routes s) !! x)).
  { intros x Hx. rewrite dict_lookup_insert. case_decide; [eauto|done]. }
  constructor; simpl; auto with dict.
  - intros k l. rewrite dict_lookup_insert. case_decide.
    + intros [= <-]. simpl. rewrite dict_lookup_insert_eq. eauto.
    + intros Hl. eapply Hreg, H3, Hl.
  - intros w [_ Hw]%elem_of_bfilter. by apply Hreg, H4.
  - eapply sublist_NoDup; [exact H5|]. apply fmap_sublist, bfilter_sublist.
  - intros n'. rewrite dict_lookup_insert. case_decide as E; [done|]. intros Hn'.
    rewrite acquisitions_grant, (H6 n' Hn'). destruct (String.eqb_spec n n'); [by subst|done].
  - intros n' q. rewrite dict_lookup_insert. case_decide as E.
    + subst n'. intros [= <-]. by apply grant_route_ok, Hid; [..|apply H7|].
    + intros Hq%H7. apply (route_ok_mono c c s _ n' q); [lia| | |exact Hq].
      * change (_active_for_route (set_leases (<[id := new_lease n o tk now]> (leases s)) s) n'
          ≤ _active_for_route s n').
        rewrite active_insert, Hid. simpl. destruct (String.eqb_spec n n'); [by subst|]. simpl. lia.
      * rewrite acquisitions_grant. destruct (String.eqb_spec n n'); [by subst|]. by rewrite app_nil_r.
Qed.

Lemma change_inv c now s s' : now ≤ c → c - lag ≤ now → change now s s' → inv c s → inv c s'.
Proof.
  intros Hle Hlag Hc Hi. destruct Hc as [s|s n i m rpm tpm|s w|s l|s n r ticket o id tk|s id l l' Hl Hr|s id|s n r r'|s es].
  - by apply prune_inv.
  - by apply register_inv.
  - by apply ticket_inv.
  - by apply waiters_inv.
  - by apply grant_inv.
  - apply leases_inv; [done|apply dict_wf_insert, Hi| |].
    + intros k x. rewrite dict_lookup_insert. case_decide; [|apply Hi].
      intros [= <-]. rewrite Hr. by apply (inv_lease _ _ Hi id).
    + intros n. rewrite active_insert, Hl. simpl. rewrite Hr. lia.
  - apply leases_inv; [done|apply dict_wf_delete, Hi| |].
    + intros k x. rewrite dict_lookup_delete. case_decide; [done|]. apply Hi.
    + intros n. apply active_delete, Hi.
  - by eapply evolve_inv.
  - by apply ledger_inv.
Qed.

(** ** Completions *)

Lemma floor_scaled_le z f :
  0 ≤ z ≤ 2 ^ 53 → (0 < f < 1)%Q → Qfloor (fmul (of_int z) f) ≤ z.
Proof.
  intros Hz [Hf0 Hf1]. rewrite <- (Qfloor_Z z) at 2. apply Qfloor_resp_le.
  unfold fmul. apply round64_le_float; [apply is_float_int; lia|].
  rewrite of_int_exact by lia. assert (0 <= inject_Z z)%Q as Hz0 by (rewrite <- (Zle_Qle 0); lia).
  rewrite <- (Qmult_1_r (inject_Z z)) at 2. rewrite !(Qmult_comm (inject_Z z)).
  apply Qmult_le_compat_r; [lra|done].
Qed.

Lemma decrease_evolves now r : evolves r (_decrease now r).
Proof.
  constructor; simpl; try done; [lia|]. intros Hl Hm. destruct config_facts as (Hmin & _ & Hf & _).
  pose proof (floor_scaled_le (limit r) (decrease_factor config)) as Hs.
  specialize (Hs ltac:(lia) Hf). lia.
Qed.

Lemma add_sample_evolves x r : evolves r (add_sample x r).
Proof. constructor; simpl; try done; lia. Qed.

Lemma evolves_trans r1 r2 r3 : evolves r1 r2 → evolves r2 r3 → evolves r1 r3.
Proof.
  intros [A1 A2 A3 A4 A5] [B1 B2 B3 B4 B5]. constructor; try congruence; [lia|].
  intros H1 H2. specialize (A5 H1 H2). rewrite A1 in B5. apply B5; lia.
Qed.

Lemma update_best_fields r :
  update_best r = r ∨ ∃ p, update_best r = with_best_p95 p r.
Proof.
  unfold update_best. destruct (_percentile _ _) as [p|]; [|by left].
  destruct (_ && _); [right; by exists p|by left].
Qed.

Lemma increase_evolves r : limit r < max_limit r → evolves r (increase r).
Proof.
  intros Hlt. destruct config_facts as (_ & Hs & _). constructor; simpl; try done; intros; lia.
Qed.

Lemma best_evolves p r : evolves r (with_best_p95 p r).
Proof. constructor; simpl; try done; lia. Qed.
Lemma evolves_refl r : evolves r r.
Proof. constructor; try done; lia. Qed.

Lemma adapt_evolves f now r : evolves r (adapt f now r).1.
Proof.
  unfold adapt. destruct f as [f|]; [apply decrease_evolves|].
  destruct (degraded r); [apply decrease_evolves|].
  destruct (cooldown_until_unix r <=? now); [|apply evolves_refl].
  assert (evolves r (update_best r)) as Hb.
  { destruct (update_best_fields r) as [->|[p ->]]; [apply evolves_refl|apply best_evolves]. }
  destruct (_ && (limit (update_best r) <? _)) eqn:E; [|exact Hb].
  apply andb_true_iff in E as [_ E%Z.ltb_lt]. eapply evolves_trans; [exact Hb|by apply increase_evolves].
Qed.

(** ** Every locked section is made of elementary changes *)

Lemma after_lift {A B} (o : outcome adm_error A) (k : A → prog t adm_error B) s :
  after (lift o ≫= k) s = match o with Ok a => after (k a) s | Raise _ => s end.
Proof. unfold after, mbind, prog_bind, lift. by destruct o. Qed.
Lemma after_check {B} b (e : adm_error) (k : unit → prog t adm_error B) s :
  after (check b e ≫= k) s = if b then after (k tt) s else s.
Proof. unfold after, mbind, prog_bind, check. by destruct b. Qed.
Lemma after_get {B} (k : t → prog t adm_error B) s : after (get_state ≫= k) s = after (k s) s.
Proof. done. Qed.
Lemma after_put {B} s' (k : unit → prog t adm_error B) s : after (put_state s' ≫= k) s = after (k tt) s'.
Proof. done. Qed.
Lemma after_modify {B} f (k : unit → prog t adm_error B) s : after (modify f ≫= k) s = after (k tt) (f s).
Proof. done. Qed.
Lemma after_mret {B} (b : B) s : after (mret b : prog t adm_error B) s = s.
Proof. done. Qed.
Lemma after_raise {B} e s : after (raise e : prog t adm_error B) s = s.
Proof. done. Qed.

(** Run a locked section up to its cases. *)
Ltac run :=
  repeat (first [rewrite after_lift | rewrite after_check | rewrite after_get | rewrite after_put
                | rewrite after_modify | rewrite after_mret | rewrite after_raise | case_match];
          cbv zeta; try apply rtc_refl).

Definition quiet (e : Event) : bool :=
  match e with lease_acquired _ _ _ => false | _ => true end.

Lemma quiet_events now es :
  forallb quiet es = true → ∀ n e, e ∈ es → acquisition_of n (now, e) = None.
Proof.
  rewrite forallb_forall. intros H n e He%list_elem_of_In. specialize (H e He). by destruct e.
Qed.

Lemma change_then now s1 s2 es :
  rtc (change now) s1 s2 → forallb quiet es = true → rtc (change now) s1 (record_events now es s2).
Proof. intros H He. eapply rtc_r; [exact H|]. apply change_ledger, quiet_events, He. Qed.

Lemma prune_then now s s' : rtc (change now) (_prune now s) s' → rtc (change now) s s'.
Proof. intros H. eapply rtc_l; [apply change_prune|exact H]. Qed.

Lemma register_changes route i m rpm tpm now s :
  rtc (change now) s (after (register_route route i m rpm tpm now) s).
Proof.
  unfold register_route. run.
  change (rtc (change now) s (record_events now
    [route_registered route (default (config_initial_limit config) i)]
    (set_routes (<[route := _new_route (default (config_initial_limit config) i)
                              (default (config_max_limit config) m) rpm tpm]>
       (routes (_prune now s))) (_prune now s)))).
  apply change_then; [|done]. apply prune_then, rtc_once. by apply change_register.
Qed.

Lemma start_changes route o ticket timeout now s :
  is_Some (routes s !! route) → T ticket → ticket ∉ ticket_id <$> waiters s →
  rtc (change now) s (after (start_wait route o ticket timeout now) s).
Proof.
  intros Hr HT Ht. unfold start_wait. change (after (modify ?f) s) with (f s). cbv beta zeta.
  apply change_then; [|done]. apply prune_then, rtc_once. apply change_ticket.
  - cbn [waiter_route _prune routes]. rewrite dict_lookup_map_values. by apply fmap_is_Some.
  - done.
  - cbn [ticket_id _prune waiters]. intros Hin. apply Ht.
    apply list_elem_of_fmap in Hin as (w & Hw & [_ Hin]%elem_of_bfilter).
    apply list_elem_of_fmap. eauto.
Qed.

Lemma remove_changes ticket route name now s :
  rtc (change now) s (after (_remove_waiter ticket route name now) s).
Proof.
  unfold _remove_waiter. change (after (modify ?f) s) with (f s). cbv beta zeta.
  destruct (length (drop_ticket ticket (waiters s)) =? length (waiters s))%nat; [apply rtc_refl|]. apply change_then; [|done].
  apply rtc_once, change_drop, bfilter_sublist.
Qed.

Lemma try_changes route ticket o lease tk now s :
  leases s !! lease = None → rtc (change now) s (after (try_acquire route ticket o lease tk now) s).
Proof.
  intros Hl. unfold try_acquire. run. unfold get_route in *.
  destruct (routes (_prune now s) !! route) as [r|] eqn:Hr; simplify_eq.
  apply prune_then, rtc_once. apply change_grant; [done..|].
  apply lookup_None_keys. apply lookup_None_keys in Hl. intros Hin. apply Hl.
  eapply elem_of_submseteq; [exact Hin|]. apply sublist_submseteq, keys_filter.
Qed.

Lemma heartbeat_changes lease now s : rtc (change now) s (after (heartbeat lease now) s).
Proof.
  unfold heartbeat. run. change (after (put_state ?x) s) with x.
  apply change_then; [|done]. apply prune_then, rtc_once. by eapply change_extend.
Qed.

Lemma release_changes lease b now s : rtc (change now) s (after (release lease b now) s).
Proof.
  unfold release. run. apply change_then; [|done]. apply prune_then, rtc_once, change_release.
Qed.

Lemma quiet_completion route lease x r1 r2 reason :
  forallb quiet (completion_events route lease x r1 r2 reason) = true.
Proof. unfold completion_events. destruct (failure x), (limit r2 =? limit r1); done. Qed.

Lemma finalize_changes lease x now s : rtc (change now) s (after (finalize lease x now) s).
Proof.
  unfold finalize. rewrite after_get. cbv zeta.
  destruct (leases (_prune now s) !! lease) as [l|] eqn:Hl; [|apply rtc_refl].
  rewrite after_lift. unfold get_route.
  destruct (routes (_prune now s) !! lease_route l) as [r|] eqn:Hr; [|apply rtc_refl].
  cbv zeta. change (after (put_state ?x) s) with x.
  apply change_then; [|apply quiet_completion]. apply prune_then.
  eapply rtc_l; [apply change_release|]. apply rtc_once.
  refine (change_route now (set_leases _ _) (lease_route l) r _ Hr _).
  eapply evolves_trans; [apply add_sample_evolves|]. apply adapt_evolves.
Qed.

Lemma complete_changes lease ok tk lat f now s :
  rtc (change now) s (after (complete lease ok tk lat f now) s).
Proof. unfold complete. run. apply finalize_changes. Qed.

Lemma reap_changes now s : rtc (change now) s (after (reap_expired now) s).
Proof.
  unfold reap_expired. rewrite after_get. cbv zeta.
  destruct (expiry_events s (_prune now s)) as [|e es] eqn:E; [apply rtc_refl|].
  change (rtc (change now) s (record_events now (e :: es) (_prune now s))).
  apply change_then; [apply rtc_once, change_prune|]. rewrite <- E. apply forallb_forall.
  intros x [Hx|Hx]%list_elem_of_In%elem_of_app; apply list_elem_of_omap in Hx as (y & _ & Hy);
    case_match; by simplify_eq.
Qed.

Lemma snapshot_changes r now s : rtc (change now) s (after (snapshot r now) s).
Proof.
  unfold snapshot. rewrite after_lift. destruct (match r with Some _ => _ | None => _ end); [|apply rtc_refl].
  rewrite after_get. cbv zeta. destruct (prune_changed now s).
  - rewrite after_put, after_check. case_match; apply rtc_once, change_prune.
  - change (rtc (change now) s (after (check (match r with Some r => has_key (routes (_prune now s)) r | None => true end)
      (KeyError (default EmptyString r));;
      mret (omap (λ name, match routes (_prune now s) !! name with
                      | Some r => Some (name, route_snapshot (_prune now s) name r now)
                      | None => None end)
          (match r with Some r => [r] | None => sort_by str_leb (keys (routes (_prune now s))) end))) s)).
    rewrite after_check. case_match; apply rtc_refl.
Qed.

Lemma changes_inv c now s s' : now ≤ c → c - lag ≤ now → rtc (change now) s s' → inv c s → inv c s'.
Proof. induction 3; eauto using change_inv. Qed.

(** Waiters are dropped, or added with an admissible ticket. *)
Lemma change_waiters now s s' w :
  change now s s' → w ∈ waiters s' → w ∈ waiters s ∨ T (ticket_id w).
Proof.
  intros H. destruct H; simpl; auto.
  - intros [_ ?]%elem_of_bfilter. auto.
  - intros [?|Hw%list_elem_of_singleton]%elem_of_app; [auto|]. subst. auto.
  - intros Hw. left. eapply elem_of_submseteq; [exact Hw|by apply sublist_submseteq].
  - intros [_ ?]%elem_of_bfilter. auto.
Qed.
Lemma changes_waiters now s s' w :
  rtc (change now) s s' → w ∈ waiters s' → w ∈ waiters s ∨ T (ticket_id w).
Proof.
  induction 1 as [|s1 s2 s3 H _ IH]; [auto|]. intros [?|?]%IH; [|auto]. by eapply change_waiters.
Qed.

(** A cooldown is never shortened. *)
Lemma change_cooldown now s s' n r :
  change now s s' → routes s !! n = Some r →
  ∃ r', routes s' !! n = Some r' ∧ cooldown_until_unix r ≤ cooldown_until_unix r'.
Proof.
  intros H Hn. assert (Hsame : ∃ r', routes s !! n = Some r' ∧ cooldown_until_unix r ≤ cooldown_until_unix r')
    by (exists r; split; [done|lia]).
  destruct H as [s|s n' i m rpm tpm Hn'| | |s n' q ticket o id tk Hn'| | |s n' q q' Hn' He|]; simpl; auto.
  - rewrite dict_lookup_map_values, Hn. eexists. split; [done|]. simpl. lia.
  - rewrite dict_lookup_insert_ne by congruence. auto.
  - rewrite dict_lookup_insert. case_decide; [|auto]. simplify_eq. eexists. split; [done|]. simpl. lia.
  - rewrite dict_lookup_insert. case_decide; [|auto]. simplify_eq. eexists. split; [done|]. apply He.
Qed.
Lemma changes_cooldown now s s' n r :
  rtc (change now) s s' → routes s !! n = Some r →
  ∃ r', routes s' !! n = Some r' ∧ cooldown_until_unix r ≤ cooldown_until_unix r'.
Proof.
  intros H. revert r. induction H as [s|s1 s2 s3 H _ IH]; intros r Hn; [exists r; split; [done|lia]|].
  destruct (change_cooldown _ _ _ _ _ H Hn) as (r2 & H2 & Hle). destruct (IH _ H2) as (r3 & H3 & Hle').
  exists r3. split; [done|lia].
Qed.

End changes.

Lemma step_changes c s c' s' :
  0 ≤ lag → step (c, s) (c', s') →
  c ≤ c' ∧ ∃ now T, now ≤ c' ∧ c' - lag ≤ now ∧ (∀ x, T x → x ∉ ticket_id <$> waiters s) ∧ rtc (change T now) s s'.
Proof.
  intros Hlag H. inversion H; subst; (split; [lia|]).
  2: { exists created, (λ x, x ∉ ticket_id <$> waiters s). split; [lia|]. split; [lia|]. split; [done|].
       by apply start_changes. }
  2: { exists now, (λ _, False). split; [lia|]. split; [lia|]. split; [done|]. by apply try_changes. }
  all: exists c', (λ _, False); split; [lia|]; split; [lia|]; split; [done|];
    auto using register_changes, remove_changes, heartbeat_changes, complete_changes,
      release_changes, reap_changes, snapshot_changes.
Qed.

Lemma step_inv c s c' s' : 0 ≤ lag → step (c, s) (c', s') → inv c s → inv c' s'.
Proof.
  intros Hlag (Hc & now & T & Hn & Hn' & _ & Hs)%step_changes Hi; [|done].
  eapply changes_inv; [exact Hn|exact Hn'|exact Hs|]. exact (inv_mono c c' s Hc Hi).
Qed.

Lemma reachable_inv c s : reachable (c, s) → inv c s.
Proof.
  intros [Hlag [c0 H]]. apply (rtc_invariant step (λ x, inv x.1 x.2) (c0, _new_state) (c, s)); [|exact H|].
  - intros [c1 s1] [c2 s2] Hi Hst. by eapply step_inv.
  - constructor; simpl; try done; try apply dict_wf_empty; [by intros ? ?%elem_of_nil|constructor].
Qed.

Lemma run_cooldown c s c' s' n r :
  0 ≤ lag → rtc step (c, s) (c', s') → routes s !! n = Some r →
  c ≤ c' ∧ ∃ r', routes s' !! n = Some r' ∧ cooldown_until_unix r ≤ cooldown_until_unix r'.
Proof.
  intros Hlag H. remember (c, s) as x eqn:Hx. remember (c', s') as y eqn:Hy. revert c s r Hx.
  induction H as [x|x [c1 s1] y H _ IH]; intros c s r -> Hn.
  { simplify_eq. split; [lia|]. exists r. split; [done|lia]. }
  apply step_changes in H as (Hc & now & T & _ & _ & _ & Hs); [|done].
  destruct (changes_cooldown _ _ _ _ _ _ Hs Hn) as (r1 & H1 & Hle).
  destruct (IH Hy _ _ _ eq_refl H1) as (Hc' & r2 & H2 & Hle'). split; [lia|]. exists r2. split; [done|lia].
Qed.

(** ** What a poll decides *)

Lemma bfilter_bfilter {A} (p q : A → bool) l : bfilter p (bfilter q l) = bfilter (λ x, p x && q x) l.
Proof.
  induction l as [|x l IH]; [done|]. rewrite !bfilter_cons. destruct (q x); rewrite ?bfilter_cons, IH;
    [by rewrite andb_true_r|]. by rewrite andb_false_r.
Qed.

Lemma count_values_filter (p : Lease → bool) (q : Lease → bool) (d : pydict string Lease) :
  count p (values (dict_filter (λ _ l, q l) d)) = count (λ l, p l && q l) (values d).
Proof.
  unfold values, dict_filter. destruct d as [l]. simpl. induction l as [|[k v] l IH]; [done|].
  rewrite bfilter_cons. csimpl. rewrite count_cons. destruct (q v); csimpl; rewrite ?count_cons, IH.
  - by rewrite andb_true_r.
  - by rewrite andb_false_r.
Qed.

(** Tickets of a route that are alive, oldest first. *)
Definition live_tickets (route : string) (now : time) (s : t) : list Waiter :=
  bfilter (λ w, String.eqb (waiter_route w) route && (now <? waiter_expires w)) (waiters s).
Definition live_leases (route : string) (now : time) (s : t) : Z :=
  count (λ l, String.eqb (lease_route l) route && (now <? lease_expires l)) (values (leases s)).

(** The conditions of an admission, on the state as it is stored. *)
Definition admissible (s : t) (route ticket : string) (r : Route) (tk : Z) (now : time) : Prop :=
  (∃ w rest, live_tickets route now s = w :: rest ∧ ticket_id w = ticket) ∧
  live_leases route now s < limit r ∧
  cooldown_until_unix r ≤ now ∧
  (∀ k, rpm_limit r = Some k →
     count (λ x, now - rpm_window_s config <=? x) (acquisitions route s) < k) ∧
  (∀ k, tpm_limit r = Some k →
     sumZ tokens (recent_samples now (prune_route now r)) + reserved_for_route (_prune now s) route + tk ≤ k).

Lemma admits_spec c s route ticket r tk now :
  inv c s → c ≤ now → routes s !! route = Some r →
  admits (_prune now s) route ticket (prune_route now r) tk now = true ↔ admissible s route ticket r tk now.
Proof.
  intros Hi Hc Hr. unfold admits, admissible. rewrite !andb_true_iff, Z.ltb_lt, Z.leb_le.
  assert (at_front (_prune now s) route ticket = true ↔
    ∃ w rest, live_tickets route now s = w :: rest ∧ ticket_id w = ticket) as ->.
  { unfold at_front, live_tickets. simpl. rewrite bfilter_bfilter.
    destruct (bfilter _ _) as [|w rest]; [naive_solver|]. rewrite String.eqb_eq. naive_solver. }
  assert (_active_for_route (_prune now s) route = live_leases route now s) as ->
    by apply count_values_filter.
  assert (within_rpm (prune_route now r) now = true ↔ ∀ k, rpm_limit r = Some k →
     count (λ x, now - rpm_window_s config <=? x) (acquisitions route s) < k) as ->.
  { unfold within_rpm. simpl. destruct (rpm_limit r) as [k|]; [|naive_solver].
    rewrite Z.ltb_lt, since_recent. simpl. rewrite since_recent, since_since by lia.
    rewrite <- since_recent, (ok_starts _ _ _ _ (inv_route _ _ Hi _ _ Hr) now Hc).
    unfold since. rewrite zlen_bfilter. naive_solver. }
  assert (within_tpm (_prune now s) route (prune_route now r) tk now = true ↔ ∀ k, tpm_limit r = Some k →
     sumZ tokens (recent_samples now (prune_route now r)) + reserved_for_route (_prune now s) route + tk ≤ k) as ->.
  { unfold within_tpm. simpl. destruct (tpm_limit r) as [k|]; [|naive_solver].
    rewrite Z.leb_le. naive_solver. }
  simpl. tauto.
Qed.

Lemma try_acquire_eq route ticket o lease tk now s r :
  routes s !! route = Some r →
  try_acquire route ticket o lease tk now s =
    if admits (_prune now s) route ticket (prune_route now r) tk now
    then (grant route ticket o lease (prune_route now r) tk now (_prune now s), Ok (Some lease))
    else (s, Ok None).
Proof.
  intros Hr. unfold try_acquire, get_state, lift, get_route, mbind, prog_bind. simpl.
  rewrite dict_lookup_map_values, Hr. simpl. by destruct (admits _ _ _ _ _ _).
Qed.

Lemma try_acquire_granted route ticket o lease tk now s x :
  result_of (try_acquire route ticket o lease tk now) s = Ok (Some x) →
  ∃ r, routes s !! route = Some r ∧
    admits (_prune now s) route ticket (prune_route now r) tk now = true.
Proof.
  destruct (routes s !! route) as [r|] eqn:Hr.
  - unfold result_of. rewrite (try_acquire_eq _ _ _ _ _ _ _ r Hr).
    destruct (admits _ _ _ _ _ _) eqn:E; [eauto|done].
  - unfold result_of, try_acquire, get_state, lift, get_route, mbind, prog_bind. simpl.
    rewrite dict_lookup_map_values, Hr. done.
Qed.

Lemma poll_granted route ticket o lease tk deadline cancelled now later s x :
  result_of (poll route ticket o lease tk deadline cancelled now later) s = Ok (Some x) →
  result_of (try_acquire route ticket o lease tk now) s = Ok (Some x).
Proof. unfold poll. destruct cancelled; [done|]. by destruct (deadline <=? now). Qed.

Lemma at_front_waiter s route ticket :
  at_front s route ticket = true → ∃ w, w ∈ waiters s ∧ ticket_id w = ticket.
Proof.
  unfold at_front. destruct (bfilter _ _) as [|w l] eqn:E; [done|]. intros Hw%String.eqb_eq.
  exists w. split; [|done]. apply (elem_of_bfilter (λ w, String.eqb (waiter_route w) route)).
  rewrite E. by left.
Qed.

(** A ticket that is gone or expired. *)
Definition dead_ticket (ticket : string) (now : time) (s : t) : Prop :=
  ∀ w, w ∈ waiters s → ticket_id w = ticket → waiter_expires w ≤ now.

Lemma dead_not_granted ticket c now later s route o lease tk deadline cancelled x :
  dead_ticket ticket c s → c ≤ now →
  result_of (poll route ticket o lease tk deadline cancelled now later) s ≠ Ok (Some x).
Proof.
  intros Hd Hc Hg%poll_granted%try_acquire_granted. destruct Hg as (r & _ & Ha%admits_facts).
  destruct Ha as [Hf _]. apply at_front_waiter in Hf as (w & [Hlive Hw]%elem_of_bfilter & Ht).
  apply Z.ltb_lt in Hlive. specialize (Hd w Hw Ht). lia.
Qed.

(** Runs in which a ticket is not issued again. *)
Definition step_without (ticket : string) (x y : time * t) : Prop :=
  step x y ∧ (ticket ∉ ticket_id <$> waiters x.2 → ticket ∉ ticket_id <$> waiters y.2).

Lemma dead_run ticket c0 c s c' s' :
  0 ≤ lag → rtc (step_without ticket) (c, s) (c', s') → dead_ticket ticket c0 s → dead_ticket ticket c0 s'.
Proof.
  intros Hlag H. remember (c, s) as x eqn:Hx. remember (c', s') as y eqn:Hy. revert c s Hx.
  induction H as [x|x [c1 s1] y H _ IH]; intros c s -> Hd; [by simplify_eq|].
  apply (IH Hy c1 s1 eq_refl). destruct H as [Hst Hfresh].
  apply step_changes in Hst as (Hc & now & T & _ & _ & HT & Hs); [|done].
  intros w Hw Ht. destruct (changes_waiters _ _ _ _ _ Hs Hw) as [Hold|Hnew]; [by apply (Hd w)|].
  exfalso. rewrite Ht in Hnew. apply (Hfresh (HT _ Hnew)). apply list_elem_of_fmap. eauto.
Qed.

(** A failed completion starts the cooldown of its route. *)
Lemma failure_cools lease tk lat f now s route l :
  dict_wf (leases s) → leases s !! lease = Some l → lease_route l = route →
  result_of (complete lease false tk lat (Some f) now) s = Ok tt →
  ∃ r, routes (after (complete lease false tk lat (Some f) now) s) !! route = Some r ∧
    now + cooldown_s config ≤ cooldown_until_unix r.
Proof.
  intros Hd Hl Hlr. unfold complete, after, result_of, lift, check, mbind, prog_bind. cbv beta.
  destruct (_validate_opaque_id _ _); [|done]. destruct (0 <=? tk); [|done].
  destruct (Qle_bool _ _); [|done]. simpl. unfold finalize, get_state, lift, mbind, prog_bind. cbv beta iota zeta.
  destruct (leases (_prune now s) !! lease) as [l'|] eqn:Hl'; [|done].
  assert (l' = l) as ->.
  { simpl in Hl'. rewrite dict_lookup_filter, Hl in Hl' by done. destruct (now <? _); congruence. }
  unfold get_route. destruct (routes (_prune now s) !! lease_route l) as [r|] eqn:Hr; [|done].
  intros _. simpl. rewrite Hlr, dict_lookup_insert_eq. eexists. split; [done|]. simpl. lia.
Qed.

End controller.

(** ** Properties *)

Definition demo_config : ProviderAdmissionConfig := {|
  config_initial_limit := 2; min_limit := 1; config_max_limit := 4; increase_step := 1;
  healthy_successes_to_increase := 2; decrease_factor := 1 # 2; cooldown_s := 30; rpm_window_s := 60;
  metric_window_s := 300; max_metric_samples := 16; p95_latency_limit_s := 120; p95_degrade_ratio := 7 # 4;
  min_latency_samples := 2; lease_ttl_s := 900; waiter_ttl_s := 10; poll_s := 1; lock_timeout_s := 30;
  lock_stale_s := 120 |}.

Definition demo_lease : string := zeros 32.

Definition demo1 : t := after (register_route demo_config "r" None None (Some 5) None 0) _new_state.
Definition demo2 : t := after (start_wait demo_config "r" "o" "t1" 100 1) demo1.
Definition demo3 : t := after (poll demo_config "r" "t1" "o" demo_lease 0 101 false 2 2) demo2.

Lemma demo_waiting_run : rtc (step demo_config 0) (0, _new_state) (1, demo2).
Proof.
  eapply rtc_l; [apply (step_register demo_config 0 0 _new_state "r" None None (Some 5) None 0); lia|].
  apply rtc_once. apply (step_start demo_config 0 0 demo1 "r" "o" "t1" 100 1); [lia|by eexists|].
  by intros ?%elem_of_nil.
Qed.
Lemma demo_waiting_reachable : reachable demo_config 0 (1, demo2).
Proof. split; [done|]. exists 0. exact demo_waiting_run. Qed.
Lemma demo_granted_reachable : reachable demo_config 0 (2, demo3).
Proof.
  split; [done|]. exists 0. eapply rtc_r; [exact demo_waiting_run|].
  by apply (step_try demo_config 0 1 demo2 "r" "t1" "o" demo_lease 0 2).
Qed.

(** C30: capacity.  With a checked configuration, in every reachable state each route keeps
    its adaptive limit between the configured minimum and the route's maximum, and never has
    more leases than that maximum, however completions, degradations, expiries and crashes
    interleave; every lease belongs to a registered route. *)
Theorem capacity_bounded (config : ProviderAdmissionConfig) (lag c : time) (s : t) (n : string) (r : Route) :
  check_config config = Ok tt → config_max_limit config ≤ 2 ^ 53 → reachable config lag (c, s) →
  routes s !! n = Some r →
  1 ≤ min_limit config ≤ limit r ∧ limit r ≤ max_limit r ≤ config_max_limit config ∧
  _active_for_route s n ≤ max_limit r ∧
  ∀ id l, leases s !! id = Some l → is_Some (routes s !! lease_route l).
Proof.
  intros Hok Hsmall Hi%reachable_inv Hr; [|done..].
  destruct (inv_route _ _ _ _ Hi n r Hr) as [H1 H2 H3 _ _]. destruct (config_facts config Hok) as [Hmin _].
  split; [lia|]. split; [lia|]. split; [done|]. intros id l. apply Hi.
Qed.

Lemma capacity_bounded_witness : ∃ r, routes demo3 !! "r" = Some r ∧ _active_for_route demo3 "r" ≤ max_limit r.
Proof.
  eexists. split; [vm_compute; reflexivity|].
  eapply (capacity_bounded demo_config 0 2 demo3 "r"); [reflexivity|vm_compute; discriminate
    |apply demo_granted_reachable|vm_compute; reflexivity].
Defined.

(** C36: the request budget.  If the reading that [acquire] makes before it takes the lock is
    at most [lag] older than the readings of the calls that held the lock before, no window
    that is shorter by [lag] than the configured length, wherever it ends, contains more
    admissions of a route (as the audit ledger records them) than the route's request
    budget, although the controller only keeps the recent ones.  With such a lag a window of
    the configured length may ([stale_reading_exceeds_budget]). *)
Theorem request_budget_respected (config : ProviderAdmissionConfig) (lag c : time) (s : t) (n : string)
    (r : Route) (k x : Z) :
  check_config config = Ok tt → config_max_limit config ≤ 2 ^ 53 → reachable config lag (c, s) →
  routes s !! n = Some r → rpm_limit r = Some k →
  count (in_window config lag x) (acquisitions n s) ≤ k.
Proof.
  intros Hok Hsmall Hi%reachable_inv Hr Hk; [|done..]. by apply (ok_rpm _ _ _ _ _ _ (inv_route _ _ _ _ Hi n r Hr)).
Qed.

(** Two admissions, the second by a caller that read the clock at 60 and got the lock after
    a call that read 61 and dropped the first. *)
Definition busy1 : t := after (register_route demo_config "r" None None (Some 1) None 0) _new_state.
Definition busy2 : t := after (start_wait demo_config "r" "o" "t1" 100 0) busy1.
Definition busy3 : t := after (try_acquire demo_config "r" "t1" "o" demo_lease 0 0) busy2.
Definition busy4 : t := after (start_wait demo_config "r" "o" "t2" 100 55) busy3.
Definition busy5 : t := after (snapshot demo_config None 61) busy4.
Definition other_lease : string := zeros 31 +:+ "1".
Definition busy6 : t := after (try_acquire demo_config "r" "t2" "o" other_lease 0 60) busy5.

Lemma busy_run : rtc (step demo_config 1) (0, _new_state) (61, busy6).
Proof.
  eapply rtc_l; [apply (step_register demo_config 1 0 _new_state "r" None None (Some 1) None 0); lia|].
  eapply rtc_l; [apply (step_start demo_config 1 0 busy1 "r" "o" "t1" 100 0); [lia|by eexists|by intros ?%elem_of_nil]|].
  eapply rtc_l; [by apply (step_try demo_config 1 0 busy2 "r" "t1" "o" demo_lease 0 0)|].
  eapply rtc_l; [apply (step_start demo_config 1 0 busy3 "r" "o" "t2" 100 55); [lia|by eexists|by intros ?%elem_of_nil]|].
  eapply rtc_l; [apply (step_snapshot demo_config 1 55 busy4 None 61); lia|].
  apply rtc_once. by apply (step_try demo_config 1 61 busy5 "r" "t2" "o" other_lease 0 60).
Qed.
Lemma busy_reachable : reachable demo_config 1 (61, busy6).
Proof. split; [done|]. exists 0. exact busy_run. Qed.

Lemma request_budget_respected_witness :
  acquisitions "r" busy6 = [0; 60] ∧ count (in_window demo_config 1 60) (acquisitions "r" busy6) ≤ 1.
Proof.
  split; [vm_compute; reflexivity|].
  eapply (request_budget_respected demo_config 1 61 busy6 "r" _ 1 60); [reflexivity|vm_compute; discriminate
    |exact busy_reachable|vm_compute; reflexivity|reflexivity].
Defined.

(** A reading that is one tick old when the lock is taken exceeds the request budget: of a
    route with one request per window of 60, the window from 0 to 60 has two admissions. *)
Theorem stale_reading_exceeds_budget :
  reachable demo_config 1 (61, busy6) ∧ rpm_window_s demo_config = 60 ∧
  rpm_limit <$> routes busy6 !! "r" = Some (Some 1) ∧
  acquisitions "r" busy6 = [0; 60] ∧
  count (λ y, (60 - rpm_window_s demo_config <=? y) && (y <=? 60)) (acquisitions "r" busy6) = 2.
Proof. split; [exact busy_reachable|]. vm_compute. repeat split; reflexivity. Qed.

(** The cooldown.  After a lease of a route was completed with a failure at [now], no
    poll, by any process and after any further calls, admits a request on that route with a
    reading before [now + cooldown_s]. *)
Theorem cooldown_respected (config : ProviderAdmissionConfig) (lag c now now' later c' : time) (s s' : t)
    (lease route ticket o lease' got : string) (tk tk' deadline : Z) (lat : option Q)
    (f : ProviderFailure.t) (cancelled : bool) (l : Lease) :
  check_config config = Ok tt → config_max_limit config ≤ 2 ^ 53 → reachable config lag (c, s) →
  leases s !! lease = Some l → lease_route l = route →
  result_of (complete config lease false tk lat (Some f) now) s = Ok tt →
  rtc (step config lag) (now, after (complete config lease false tk lat (Some f) now) s) (c', s') →
  result_of (poll config route ticket o lease' tk' deadline cancelled now' later) s' = Ok (Some got) →
  now + cooldown_s config ≤ now'.
Proof.
  intros Hok Hsmall [Hlag Hreach] Hl Hlr Hres Hrun Hpoll.
  pose proof (reachable_inv config lag Hok Hsmall c s (conj Hlag Hreach)) as Hi.
  destruct (failure_cools config lease tk lat f now s route l (inv_leases _ _ _ _ Hi) Hl Hlr Hres) as (r & Hr & Hcool).
  destruct (run_cooldown config lag Hok Hsmall _ _ _ _ _ _ Hlag Hrun Hr) as (_ & r' & Hr' & Hle).
  apply poll_granted, try_acquire_granted in Hpoll as (q & Hq & Ha).
  apply admits_facts in Ha as (_ & _ & Hcd & _). simpl in Hcd. simplify_eq. lia.
Qed.

Definition demo4 : t :=
  after (complete demo_config demo_lease false 0 None (Some ProviderFailure.QUOTA) 3) demo3.
Definition demo5 : t := after (start_wait demo_config "r" "o" "t2" 100 25) demo4.

Lemma demo5_run : rtc (step demo_config 0) (3, demo4) (25, demo5).
Proof.
  apply rtc_once. apply (step_start demo_config 0 3 demo4 "r" "o" "t2" 100 25); [lia|by eexists|].
  by intros ?%elem_of_nil.
Qed.

Lemma cooldown_respected_witness :
  result_of (poll demo_config "r" "t2" "o" demo_lease 0 125 false 33 33) demo5 = Ok (Some demo_lease) ∧
  3 + cooldown_s demo_config ≤ 33.
Proof.
  split; [vm_compute; reflexivity|].
  eapply (cooldown_respected demo_config 0 2 3 33 33 25 demo3 demo5 demo_lease "r" "t2" "o" demo_lease demo_lease
    0 0 125 None ProviderFailure.QUOTA false);
    [reflexivity|vm_compute; discriminate|apply demo_granted_reachable|vm_compute; reflexivity|reflexivity
    |vm_compute; reflexivity|exact demo5_run|vm_compute; reflexivity].
Defined.

Lemma drop_ticket_notin ticket l : ticket ∉ ticket_id <$> drop_ticket ticket l.
Proof.
  intros (w & Hw & [Hne _]%elem_of_bfilter)%list_elem_of_fmap.
  apply negb_true_iff, String.eqb_neq in Hne. congruence.
Qed.

Lemma drop_ticket_same ticket l : length (drop_ticket ticket l) = length l → drop_ticket ticket l = l.
Proof.
  intros H. apply bfilter_all, count_full. rewrite <- zlen_bfilter. unfold zlen. by f_equal.
Qed.

Lemma remove_waiter_gone ticket route name now s :
  ticket ∉ ticket_id <$> waiters (after (_remove_waiter ticket route name now) s).
Proof.
  unfold _remove_waiter. change (after (modify ?f) s) with (f s). cbv beta zeta.
  destruct (Nat.eqb_spec (length (drop_ticket ticket (waiters s))) (length (waiters s))) as [E|E].
  - rewrite <- (drop_ticket_same _ _ E). apply drop_ticket_notin.
  - simpl. apply drop_ticket_notin.
Qed.

(** What a poll decides whose reading is not stale.  A cancelled poll, or one at or after its deadline, raises and its
    ticket is gone.  Otherwise the poll admits exactly when its ticket is the oldest live
    ticket of the route (no live older ticket is overtaken), the live leases are below the
    adaptive limit, the cooldown is over, the admissions of the last window are below the
    request budget, and the tokens used and reserved leave room for the estimate; it then
    holds the lease and no ticket, and a refused poll changes nothing. *)
Theorem poll_decides (config : ProviderAdmissionConfig) (lag c now later deadline tk : Z) (s : t)
    (route ticket o lease : string) (cancelled : bool) (r : Route) :
  check_config config = Ok tt → config_max_limit config ≤ 2 ^ 53 → reachable config lag (c, s) → c ≤ now →
  routes s !! route = Some r →
  let m := poll config route ticket o lease tk deadline cancelled now later in
  let gone s' := ticket ∉ ticket_id <$> waiters s' in
  if cancelled then result_of m s = Raise ProviderAdmissionCancelled ∧ gone (after m s)
  else if deadline <=? now then result_of m s = Raise ProviderAdmissionTimeout ∧ gone (after m s)
  else (admissible config s route ticket r tk now →
          result_of m s = Ok (Some lease) ∧ gone (after m s) ∧
          leases (after m s) !! lease = Some (new_lease config route o tk now)) ∧
       (¬ admissible config s route ticket r tk now → m s = (s, Ok None)).
Proof.
  intros Hok Hsmall Hi%reachable_inv Hc Hr; [|done..]. cbv zeta. unfold poll.
  destruct cancelled; [|destruct (deadline <=? now)].
  1-2: split; [done|]; apply remove_waiter_gone.
  unfold result_of, after. rewrite (try_acquire_eq _ _ _ _ _ _ _ _ r Hr).
  pose proof (admits_spec config lag c s route ticket r tk now Hi Hc Hr) as Hspec.
  destruct (admits _ _ _ _ _ _ _) eqn:E.
  - split; [|intros []; by apply Hspec]. intros _. split; [done|].
    split; [apply drop_ticket_notin|]. simpl. apply dict_lookup_insert_eq.
  - split; [|done]. intros H%Hspec. done.
Qed.

Definition demo_route : Route := _new_route 2 4 (Some 5) None.

Lemma demo2_admissible : admissible demo_config demo2 "r" "t1" demo_route 0 2.
Proof.
  split; [eexists _, _; split; [vm_compute; reflexivity|reflexivity]|].
  split; [vm_compute; reflexivity|]. split; [vm_compute; discriminate|].
  split; [intros k [= <-]; vm_compute; reflexivity|done].
Qed.

Lemma poll_decides_witness :
  result_of (poll demo_config "r" "t1" "o" demo_lease 0 101 false 2 2) demo2 = Ok (Some demo_lease).
Proof.
  apply (poll_decides demo_config 0 1 2 2 101 0 demo2 "r" "t1" "o" demo_lease false demo_route);
    [reflexivity|vm_compute; discriminate|apply demo_waiting_reachable|lia|vm_compute; reflexivity
    |exact demo2_admissible].
Defined.

(** A ticket that outlived its time to live starves.  The time to live of a ticket is the
    smaller of the caller's timeout and [waiter_ttl_s].  Once it is over, the caller, who keeps
    polling until its own deadline, is never admitted: in every later state, for every reading
    after the end of that time and every deadline, however idle the route is. *)
Theorem expired_ticket_starves (config : ProviderAdmissionConfig) (lag c0 c c' now later : time) (s s' : t)
    (ticket route o lease got : string) (tk deadline : Z) (cancelled : bool) :
  check_config config = Ok tt → config_max_limit config ≤ 2 ^ 53 → 0 ≤ lag →
  dead_ticket ticket c0 s → rtc (step_without config lag ticket) (c, s) (c', s') → c0 ≤ now →
  result_of (poll config route ticket o lease tk deadline cancelled now later) s' ≠ Ok (Some got).
Proof.
  intros Hok Hsmall Hlag Hd Hrun Hnow. pose proof (dead_run config lag Hok Hsmall _ _ _ _ _ _ Hlag Hrun Hd).
  by eapply dead_not_granted.
Qed.

(** The route of [demo2] is idle; with a timeout of 100 and a time to live of 10, a poll at 50
    waits, and so does every later one. *)
Lemma expired_ticket_starves_witness :
  dead_ticket "t1" 11 demo2 ∧ live_leases "r" 50 demo2 = 0 ∧
  result_of (poll demo_config "r" "t1" "o" demo_lease 0 101 false 50 50) demo2 = Ok None ∧
  result_of (poll demo_config "r" "t1" "o" demo_lease 0 101 false 50 50) demo2 ≠ Ok (Some demo_lease).
Proof.
  assert (Hd : dead_ticket "t1" 11 demo2).
  { intros w Hw _. vm_compute in Hw. apply list_elem_of_singleton in Hw as ->. vm_compute. discriminate. }
  split; [exact Hd|]. split; [vm_compute; reflexivity|]. split; [vm_compute; reflexivity|].
  apply (expired_ticket_starves demo_config 0 11 11 11 50 50 demo2 demo2); [reflexivity|vm_compute; discriminate
    |lia|exact Hd|apply rtc_refl|lia].
Defined.

End ProviderAdmission.
