(* ===== verification/SlotBroker.v ===== *)
(** * Environment slot leases: [zetta/evolution/slot_broker.py]

    A host-local broker limits how many episodes own a slot of a persistent environment
    farm.  [t] is the lease directory (one file per slot) and the event ledger; a locked
    section is one step, of a process that does not die in it (its lock would be left, and
    every later section would time out, as in [CampaignStore.v]).  Times are ticks; clocks, identifiers and the process id are
    arguments.  The environment servers are outside the program: [reader] gives their
    answers, one for the read before a reclamation and one for the read before a grant,
    [None] when the request fails.  [SlotRecord] is a record of the ready manifest, with
    its fields of the types the farm writes.

    Theorems: a lease is lost only by its owner's release or after it expired and its
    environment reported FREE; which slot is granted and that the number of leases is
    bounded; and that a broker at its maximum never reclaims anything. *)

From Stdlib Require Import Ascii.
From stdpp Require Import pretty.
From S2P Require Import Prelude PyDict Sorting Codec CanonicalJson JsonIO EvolutionModels.

Open Scope string_scope.
Open Scope list_scope.
Open Scope Z_scope.

Notation time := Z (only parsing).

Inductive slot_error :=
  | ValueError (msg : string)
  | RuntimeError (msg : string)
  | TimeoutError (msg : string).

Record EnvironmentSlot := { slot : Z; gpu : string; endpoint : string; generation : Z }.

Record SlotRecord := {
  record_status : string;
  record_endpoint : option string;
  record_slot : Z;
  record_gpu : string;
  record_generation : option Z;
}.

(** A lease file. *)
Record LeaseFile := {
  lease_id : string;
  owner : string;
  job_id : string;
  lease_slot : EnvironmentSlot;
  acquired_at : time;
  heartbeat_at : time;
  expires_at : time;
  pid : Z;
}.

Inductive SlotEvent :=
  | expired_free_lease_reclaimed (at_ : time) (slot : Z) (prior_lease_id : string)
  | slot_acquired (at_ : time) (lease_id job_id : string) (slot : Z) (gpu : string)
  | slot_released (at_ : time) (lease_id job_id : string) (slot : Z) (gpu outcome : string).

(** [text.rstrip("/")] *)
Fixpoint rstrip_slash (s : string) : string :=
  match s with
  | EmptyString => EmptyString
  | String c s' =>
      match rstrip_slash s' with
      | EmptyString => if Ascii.eqb c "/" then EmptyString else String c EmptyString
      | t => String c t
      end
  end.

(** [int(text)] on ASCII text: blanks around, a sign, digits with single underscores
    between them. *)
Definition is_digit (c : ascii) : bool := code_between 48 57 c.
Fixpoint decimal_value (acc : Z) (after_digit : bool) (s : string) : option Z :=
  match s with
  | EmptyString => if after_digit then Some acc else None
  | String c s' =>
      if is_digit c then decimal_value (10 * acc + (Z.of_nat (nat_of_ascii c) - 48)) true s'
      else if Ascii.eqb c "_" then
        if after_digit then
          match s' with String d _ => if is_digit d then decimal_value acc false s' else None | _ => None end
        else None
      else if after_digit && is_space c && String.eqb (strip_left s') EmptyString then Some acc else None
  end.
Definition py_int (s : string) : option Z :=
  match strip_left s with
  | String c s' =>
      if Ascii.eqb c "-" then Z.opp <$> decimal_value 0 false s'
      else if Ascii.eqb c "+" then decimal_value 0 false s'
      else decimal_value 0 false (String c s')
  | EmptyString => None
  end.

(** [health.get("write_protocol")] and its phase *)
Definition _is_free (health : json_object) : bool :=
  bool_decide (obj_get "status" health = NStr "healthy") &&
  match obj_get "write_protocol" health with
  | NDict protocol => bool_decide (obj_get "phase" protocol = NStr "FREE")
  | _ => false
  end.

Module EnvironmentSlotBroker.

Record Config := {
  lease_s : time;
  health_timeout_s : time;
  maximum_active_slots : option Z;
}.

(** [__init__] *)
Definition check_broker (c : Config) : outcome slot_error unit :=
  guards [
    ((0 <? lease_s c) && (0 <? health_timeout_s c),
     ValueError "slot lease and health timeout must be positive");
    (match maximum_active_slots c with Some n => 1 <=? n | None => true end,
     ValueError "maximum_active_slots must be positive")].

Record t := Broker { leases : pydict Z LeaseFile; events : list SlotEvent }.
Definition init : t := Broker ∅ [].

(** What the two health reads of a slot return. *)
Definition Reader : Type := EnvironmentSlot → bool → option json_object.

Section broker.
Context (config : Config).

Definition slot_of (r : SlotRecord) : outcome slot_error (option EnvironmentSlot) :=
  if negb (String.eqb (record_status r) "ready") then Ok None
  else match record_endpoint r with
       | Some e =>
           if String.prefix "http://127.0.0.1:" e then
             Ok (Some {| slot := record_slot r; gpu := record_gpu r; endpoint := rstrip_slash e;
                         generation := default 0 (record_generation r) |})
           else Raise (ValueError "environment slot endpoint must be host-local HTTP")
       | None => Raise (ValueError "environment slot endpoint must be host-local HTTP")
       end.

Definition gpu_index (s : EnvironmentSlot) : outcome slot_error (Z * EnvironmentSlot) :=
  match py_int (gpu s) with
  | Some n => Ok (n, s)
  | None => Raise (ValueError ("invalid literal for int() with base 10: '" +:+ gpu s +:+ "'"))
  end.

Definition pair_leb : Z * Z → Z * Z → bool := lex_leb Z.leb Z.leb.

(** The ready slots, by GPU and number. *)
Definition _slots (manifest : list SlotRecord) : outcome slot_error (list EnvironmentSlot) :=
  found ← traverse slot_of manifest;
  let result := omap id found in
  ensure (negb (bool_decide (result = []))) (RuntimeError "environment farm has no ready slots");;
  keyed ← traverse gpu_index result;
  Ok (sort_by (on_key pair_leb (λ ns, (ns.1, slot ns.2))) keyed).*2.

(** [counts.get(gpu, 0)] *)
Definition active_on_gpu (s : t) (g : string) : Z :=
  count (λ l, String.eqb (gpu (lease_slot l)) g) (values (leases s)).

(** [sorted(self._slots(), key=lambda item: (counts.get(item.gpu, 0), item.slot))] *)
Definition candidates (s : t) (slots : list EnvironmentSlot) : list EnvironmentSlot :=
  sort_by (on_key pair_leb (λ x, (active_on_gpu s (gpu x), slot x))) slots.

Definition reports_free (answer : option json_object) : bool :=
  match answer with Some health => _is_free health | None => false end.

Definition unlink (x : EnvironmentSlot) (now : time) (l : LeaseFile) (s : t) : t :=
  Broker (delete (slot x) (leases s))
    (events s ++ [expired_free_lease_reclaimed now (slot x) (lease_id l)]).

Definition new_lease (id who job : string) (x : EnvironmentSlot) (process : Z) (now : time) : LeaseFile := {|
  lease_id := id; owner := who; job_id := job; lease_slot := x; acquired_at := now;
  heartbeat_at := now; expires_at := now + lease_s config; pid := process |}.

Definition write_lease (x : EnvironmentSlot) (l : LeaseFile) (now : time) (s : t) : t :=
  Broker (<[slot x := l]> (leases s))
    (events s ++ [slot_acquired now (lease_id l) (job_id l) (slot x) (gpu x)]).

(** The loop over the candidates. *)
Fixpoint scan (reader : Reader) (mk : EnvironmentSlot → LeaseFile) (now : time)
    (cs : list EnvironmentSlot) (s : t) : t * option EnvironmentSlot :=
  match cs with
  | [] => (s, None)
  | x :: cs' =>
      let go s := if reports_free (reader x true) then (write_lease x (mk x) now s, Some x)
                  else scan reader mk now cs' s in
      match leases s !! slot x with
      | Some l =>
          if now <? expires_at l then scan reader mk now cs' s
          else if negb (reports_free (reader x false)) then scan reader mk now cs' s
          else go (unlink x now l s)
      | None => go s
      end
  end.

Definition below_maximum (s : t) : bool :=
  match maximum_active_slots config with Some n => dict_len (leases s) <? n | None => true end.

(** The locked section of one round of [acquire]; the granted lease is in the directory. *)
Definition try_acquire (who job id : string) (process : Z) (manifest : list SlotRecord) (reader : Reader)
    (now : time) : prog t slot_error (option EnvironmentSlot) := λ s,
  if below_maximum s then
    match _slots manifest with
    | Raise e => (s, Raise e)
    | Ok slots =>
        let '(s', got) := scan reader (λ x, new_lease id who job x process now) now (candidates s slots) s in
        (s', Ok got)
    end
  else (s, Ok None).

Record Handle := { handle_id : string; handle_job : string; handle_slot : EnvironmentSlot; released : bool }.

(** One round of the loop of [acquire], with the monotonic clock read after it; [None]
    sleeps and polls again. *)
Definition poll (who job id : string) (process : Z) (manifest : list SlotRecord) (reader : Reader)
    (now monotonic deadline : time) : prog t slot_error (option Handle) :=
  got ← try_acquire who job id process manifest reader now;
  match got with
  | Some x => mret (Some {| handle_id := id; handle_job := job; handle_slot := x; released := false |})
  | None =>
      check (negb (deadline <=? monotonic)) (TimeoutError "timed out acquiring a healthy free environment slot");;
      mret None
  end.

(** The checks [acquire] starts with. *)
Definition acquire_arguments (who job : string) (timeout_s poll_s : time) : outcome slot_error unit :=
  guards [
    (str_true who && str_true job, ValueError "slot owner and job_id must be non-empty");
    ((0 <? timeout_s) && (0 <? poll_s),
     ValueError "slot acquire timeout and poll interval must be positive")].

Definition heartbeat (h : Handle) (now : time) : prog t slot_error unit := λ s,
  match leases s !! slot (handle_slot h) with
  | None => (s, Raise (RuntimeError "environment slot lease no longer exists"))
  | Some l =>
      if negb (String.eqb (lease_id l) (handle_id h)) then
        (s, Raise (RuntimeError "stale environment slot lease cannot heartbeat"))
      else
        let l' := {| lease_id := lease_id l; owner := owner l; job_id := job_id l; lease_slot := lease_slot l;
                     acquired_at := acquired_at l; heartbeat_at := now; expires_at := now + lease_s config;
                     pid := pid l |} in
        (Broker (<[slot (handle_slot h) := l']> (leases s)) (events s), Ok tt)
  end.

Definition release (h : Handle) (result : string) (now : time) : prog t slot_error unit := λ s,
  match leases s !! slot (handle_slot h) with
  | None => (s, Ok tt)
  | Some l =>
      if negb (String.eqb (lease_id l) (handle_id h)) then
        (s, Raise (RuntimeError "stale environment slot lease cannot release"))
      else
        (Broker (delete (slot (handle_slot h)) (leases s))
           (events s ++ [slot_released now (handle_id h) (handle_job h) (slot (handle_slot h))
                           (gpu (handle_slot h)) result]), Ok tt)
  end.

(** [EnvironmentSlotLease.heartbeat] and [release] *)
Definition handle_heartbeat (h : Handle) (now : time) : prog t slot_error unit :=
  check (negb (released h)) (RuntimeError "cannot heartbeat a released environment slot");;
  heartbeat h now.

Definition handle_release (h : Handle) (result : string) (now : time) : prog t slot_error Handle :=
  if released h then mret h
  else release h result now;;
       mret {| handle_id := handle_id h; handle_job := handle_job h; handle_slot := handle_slot h;
               released := true |}.

(** The name of a slot's lease file; the directory is read in the order of the names. *)
Definition _lease_path (n : Z) : string := "slot-" +:+ pad3 n +:+ ".json".

Definition _active_leases (s : t) : list LeaseFile :=
  (sort_by (on_key str_leb (λ kl, _lease_path kl.1)) (items (leases s))).*2.

(** [snapshot]: the number of leases, the maximum and the leases. *)
Definition snapshot (s : t) : Z * option Z * list LeaseFile :=
  (zlen (_active_leases s), maximum_active_slots config, _active_leases s).

(** ** Runs *)

Inductive op :=
  | Poll (who job id : string) (process : Z) (manifest : list SlotRecord) (reader : Reader)
      (now monotonic deadline : time)
  | Heartbeat (h : Handle) (now : time)
  | Release (h : Handle) (result : string) (now : time).

Definition exec (o : op) (s : t) : t :=
  match o with
  | Poll who job id process manifest reader now monotonic deadline =>
      after (poll who job id process manifest reader now monotonic deadline) s
  | Heartbeat h now => after (handle_heartbeat h now) s
  | Release h result now => after (handle_release h result now) s
  end.

Definition run (os : list op) (s : t) : t := foldl (λ s o, exec o s) s os.

(** A candidate can be granted: its environment is free, and its lease, if any, expired and
    reclaimable. *)
Definition available (reader : Reader) (now : time) (s : t) (x : EnvironmentSlot) : bool :=
  reports_free (reader x true) &&
  match leases s !! slot x with
  | Some l => negb (now <? expires_at l) && reports_free (reader x false)
  | None => true
  end.

Section scan.
Context (reader : Reader) (mk : EnvironmentSlot → LeaseFile) (now : time).

Lemma scan_lookup cs s n l :
  leases s !! n = Some l →
  leases (scan reader mk now cs s).1 !! n = Some l ∨
  ∃ x, slot x = n ∧ expires_at l ≤ now ∧ reports_free (reader x false) = true.
Proof.
  revert s. induction cs as [|x cs IH]; intros s Hl; [by left|]. cbn [scan].
  destruct (leases s !! slot x) as [l'|] eqn:Hx.
  - destruct (Z.ltb_spec now (expires_at l')); [by apply IH|].
    destruct (reports_free (reader x false)) eqn:Hf; simpl; [|by apply IH].
    destruct (decide (n = slot x)) as [->|Hne].
    { right. exists x. simplify_eq. split; [done|]. split; [lia|done]. }
    destruct (reports_free (reader x true)); simpl.
    + left. rewrite !dict_lookup_insert_ne, dict_lookup_delete_ne by done. done.
    + apply IH. simpl. by rewrite dict_lookup_delete_ne.
  - assert (n ≠ slot x) as Hne by congruence. destruct (reports_free (reader x true)); simpl; [|by apply IH].
    left. by rewrite dict_lookup_insert_ne.
Qed.

Lemma len_insert_fresh (d : pydict Z LeaseFile) k l : d !! k = None → dict_len (<[k := l]> d) = dict_len d + 1.
Proof. intros H. unfold dict_len. rewrite items_insert_None by done. rewrite zlen_app. done. Qed.

Lemma len_delete (d : pydict Z LeaseFile) k : dict_len (delete k d) ≤ dict_len d.
Proof.
  unfold dict_len, zlen, delete, pydict_delete, assoc_delete. simpl.
  pose proof (length_filter (λ p : Z * LeaseFile, p.1 ≠ k) (items d)). lia.
Qed.

Lemma len_insert_same (d : pydict Z LeaseFile) k l l' : d !! k = Some l → dict_len (<[k := l']> d) = dict_len d.
Proof.
  intros H. unfold dict_len, zlen. pose proof (keys_insert_Some d k l' l H) as E.
  apply (f_equal length) in E. unfold keys in E. rewrite !length_fmap in E. lia.
Qed.

Lemma scan_len cs s : dict_len (leases (scan reader mk now cs s).1) ≤ dict_len (leases s) + 1.
Proof.
  revert s. induction cs as [|x cs IH]; intros s; cbn [scan]; [simpl; lia|].
  destruct (leases s !! slot x) as [l|] eqn:Hx.
  - destruct (now <? expires_at l); [apply IH|]. destruct (reports_free (reader x false)); simpl; [|apply IH].
    pose proof (len_delete (leases s) (slot x)) as Hd. destruct (reports_free (reader x true)); simpl.
    + rewrite len_insert_fresh by apply dict_lookup_delete_eq. lia.
    + specialize (IH (unlink x now l s)). simpl in IH. lia.
  - destruct (reports_free (reader x true)); simpl; [|apply IH]. rewrite len_insert_fresh by done. lia.
Qed.

(** Availability of the later candidates does not change while the earlier are scanned. *)
Lemma available_unlink x y l s :
  slot x ≠ slot y → available reader now (unlink x now l s) y = available reader now s y.
Proof. intros Hne. unfold available. simpl. by rewrite dict_lookup_delete_ne. Qed.

Lemma scan_unavailable x cs s :
  available reader now s x = false → NoDup (slot <$> x :: cs) →
  ∃ s1, scan reader mk now (x :: cs) s = scan reader mk now cs s1 ∧
    ∀ y, y ∈ cs → available reader now s1 y = available reader now s y.
Proof.
  intros Hun [Hx _]%NoDup_cons. unfold available in Hun. cbn [scan].
  destruct (leases s !! slot x) as [l|] eqn:Hl.
  - destruct (Z.ltb_spec now (expires_at l)); [by exists s|].
    destruct (reports_free (reader x false)); simpl; [|by exists s].
    simpl in Hun. rewrite andb_true_r in Hun. rewrite Hun. exists (unlink x now l s). split; [done|].
    intros y Hy. apply available_unlink. intros E. apply Hx. rewrite E. by apply list_elem_of_fmap_2.
  - rewrite andb_true_r in Hun. rewrite Hun. by exists s.
Qed.

Lemma scan_available x cs s :
  available reader now s x = true →
  (scan reader mk now (x :: cs) s).2 = Some x ∧
  leases (scan reader mk now (x :: cs) s).1 !! slot x = Some (mk x).
Proof.
  intros [Hf Hl]%andb_true_iff. cbn [scan]. destruct (leases s !! slot x) as [l|] eqn:E.
  - apply andb_true_iff in Hl as [Hl1%negb_true_iff Hl2]. rewrite Hl1, Hl2, Hf. simpl.
    split; [done|]. apply dict_lookup_insert_eq.
  - rewrite Hf. simpl. split; [done|]. apply dict_lookup_insert_eq.
Qed.

(** The first available candidate is granted. *)
Lemma scan_first cs s :
  NoDup (slot <$> cs) →
  (scan reader mk now cs s).2 = List.find (available reader now s) cs ∧
  ∀ x, (scan reader mk now cs s).2 = Some x → leases (scan reader mk now cs s).1 !! slot x = Some (mk x).
Proof.
  revert s. induction cs as [|x cs IH]; intros s Hnd; [done|]. simpl List.find.
  destruct (available reader now s x) eqn:Hav.
  - destruct (scan_available x cs s Hav) as [H1 H2]. split; [done|]. intros y Hy. by simplify_eq.
  - destruct (scan_unavailable x cs s Hav Hnd) as (s1 & -> & Hs1).
    apply NoDup_cons in Hnd as [_ Hnd]. destruct (IH s1 Hnd) as [H1 H2]. split; [|done]. rewrite H1.
    clear -Hs1. induction cs as [|y cs IH]; [done|]. simpl.
    rewrite Hs1 by (by left). rewrite IH; [done|]. intros z Hz. apply Hs1. by right.
Qed.
End scan.

Lemma poll_state who job id process manifest reader now monotonic deadline s :
  after (poll who job id process manifest reader now monotonic deadline) s =
  after (try_acquire who job id process manifest reader now) s.
Proof.
  unfold after, poll, mbind, prog_bind. destruct (try_acquire _ _ _ _ _ _ _ s) as [s' [[x|]|e]]; simpl; try done.
  unfold check. by destruct (deadline <=? monotonic).
Qed.

Lemma try_acquire_cases who job id process manifest reader now s :
  after (try_acquire who job id process manifest reader now) s = s ∨
  ∃ slots, below_maximum s = true ∧ _slots manifest = Ok slots ∧
    after (try_acquire who job id process manifest reader now) s =
      (scan reader (λ x, new_lease id who job x process now) now (candidates s slots) s).1.
Proof.
  unfold after, try_acquire. destruct (below_maximum s); [|by left].
  destruct (_slots manifest) as [slots|e]; [|by left]. right. exists slots.
  destruct (scan _ _ _ _ _); done.
Qed.

Lemma exec_len n o s :
  maximum_active_slots config = Some n → dict_len (leases s) ≤ n → dict_len (leases (exec o s)) ≤ n.
Proof.
  intros Hn Hs. destruct o as [who job id process manifest reader now monotonic deadline|h now|h result now]; simpl.
  - rewrite poll_state. destruct (try_acquire_cases who job id process manifest reader now s)
      as [-> |(slots & Hb & _ & ->)]; [done|].
    unfold below_maximum in Hb. rewrite Hn in Hb. apply Z.ltb_lt in Hb.
    etrans; [apply scan_len|]. lia.
  - unfold handle_heartbeat, after, mbind, prog_bind, check. destruct (negb (released h)); [|done]. simpl.
    unfold heartbeat. destruct (leases s !! _) as [l|] eqn:El; [|done].
    destruct (negb _); [done|]. simpl. by rewrite (len_insert_same _ _ l).
  - unfold handle_release, after, mbind, prog_bind. destruct (released h); [done|].
    unfold release. destruct (leases s !! _) as [l|] eqn:El; [|done].
    destruct (negb _); [done|]. simpl. etrans; [apply len_delete|done].
Qed.

End broker.

(** ** Properties *)

Definition healthy (phase : string) : json_object :=
  [("status", NStr "healthy"); ("write_protocol", NDict [("phase", NStr phase)])].
Definition demo_record (n : Z) (g : string) : SlotRecord := {|
  record_status := "ready"; record_endpoint := Some "http://127.0.0.1:9000/"; record_slot := n;
  record_gpu := g; record_generation := None |}.
Definition all_free : Reader := λ _ _, Some (healthy "FREE").
Definition demo_config : Config := {| lease_s := 120; health_timeout_s := 2; maximum_active_slots := Some 1 |}.
Definition demo_manifest : list SlotRecord := [demo_record 1 "1"; demo_record 0 "0"].
Definition demo_acquire (id : string) (now : time) : op :=
  Poll "worker" "job" id 7 demo_manifest all_free now now (now + 60).
Definition demo1 : t := exec demo_config (demo_acquire "slot-lease-1" 0) init.

(** C37: a lease is lost only with a reason.  A poll, heartbeat or release by anyone leaves the
    lease file of a slot as it is, except that the lease's own holder may renew it; or it is a
    release by the holder of that very lease; or it is an acquisition at a time when the lease
    had expired and the environment of the slot answered healthy and FREE.  In particular no
    second actor gets a slot from a live holder, and a stale handle can neither renew nor
    release its successor's lease. *)
Theorem lease_lost_only_with_reason (config : Config) (o : op) (s : t) (n : Z) (l : LeaseFile) :
  leases s !! n = Some l →
  leases (exec config o s) !! n = Some l ∨
  match o with
  | Poll _ _ _ _ _ reader now _ _ =>
      ∃ x, slot x = n ∧ expires_at l ≤ now ∧ reports_free (reader x false) = true
  | Heartbeat h now =>
      slot (handle_slot h) = n ∧ handle_id h = lease_id l ∧ released h = false ∧
      ∃ l', leases (exec config o s) !! n = Some l' ∧ lease_id l' = lease_id l ∧
        lease_slot l' = lease_slot l ∧ expires_at l' = now + lease_s config
  | Release h _ _ => slot (handle_slot h) = n ∧ handle_id h = lease_id l ∧ released h = false
  end.
Proof.
  intros Hl. destruct o as [who job id process manifest reader now monotonic deadline|h now|h result now]; simpl.
  - rewrite poll_state. destruct (try_acquire_cases config who job id process manifest reader now s)
      as [-> |(slots & _ & _ & ->)]; [by left|]. by apply scan_lookup.
  - unfold handle_heartbeat, after, mbind, prog_bind, check. destruct (released h); simpl; [by left|].
    unfold heartbeat. destruct (leases s !! slot (handle_slot h)) as [l0|] eqn:E; simpl; [|by left].
    destruct (String.eqb_spec (lease_id l0) (handle_id h)) as [Hid|Hid]; simpl; [|by left].
    destruct (decide (n = slot (handle_slot h))) as [->|Hne]; [|left; by rewrite dict_lookup_insert_ne].
    simplify_eq. right. split; [done|]. split; [done|]. split; [done|].
    rewrite dict_lookup_insert_eq. by eexists.
  - unfold handle_release, after, mbind, prog_bind. destruct (released h); simpl; [by left|].
    unfold release. destruct (leases s !! slot (handle_slot h)) as [l0|] eqn:E; simpl; [|by left].
    destruct (String.eqb_spec (lease_id l0) (handle_id h)) as [Hid|Hid]; simpl; [|by left].
    destruct (decide (n = slot (handle_slot h))) as [->|Hne]; [|left; by rewrite dict_lookup_delete_ne].
    simplify_eq. by right.
Qed.

Lemma lease_lost_only_with_reason_witness :
  ∃ l, leases demo1 !! 0 = Some l ∧ leases (exec demo_config (demo_acquire "slot-lease-2" 50) demo1) !! 0 = Some l.
Proof.
  eexists. split; [vm_compute; reflexivity|].
  edestruct (lease_lost_only_with_reason demo_config (demo_acquire "slot-lease-2" 50) demo1 0)
    as [H|(x & _ & Hle & _)]; [vm_compute; reflexivity|exact H|]. vm_compute in Hle. by destruct Hle.
Defined.

(** Which slot is granted.  For a manifest with distinct slot numbers and a broker below
    its maximum, one round of [acquire] grants the first candidate, in the order of the number
    of leases on its GPU and then of its number, that is available: its environment is free
    and its old lease, if any, has expired and is reclaimable.  The grant is the slot's new
    lease file; without an available candidate nothing is granted. *)
Theorem acquire_grants_first (config : Config) (who job id : string) (process : Z)
    (manifest : list SlotRecord) (reader : Reader) (now : time) (s : t) (slots : list EnvironmentSlot) :
  below_maximum config s = true → _slots manifest = Ok slots → NoDup (slot <$> slots) →
  match try_acquire config who job id process manifest reader now s with
  | (s', Ok (Some x)) =>
      x ∈ slots ∧ available reader now s x = true ∧
      leases s' !! slot x = Some (new_lease config id who job x process now) ∧
      ∀ y, y ∈ slots → available reader now s y = true →
        pair_leb (active_on_gpu s (gpu x), slot x) (active_on_gpu s (gpu y), slot y) = true
  | (_, Ok None) => ∀ y, y ∈ slots → available reader now s y = false
  | (_, Raise _) => False
  end.
Proof.
  intros Hb Hm Hnd. unfold try_acquire. rewrite Hb, Hm.
  set (mk := λ x, new_lease config id who job x process now).
  assert (Hp : candidates s slots ≡ₚ slots) by apply sort_by_perm.
  destruct (scan_first reader mk now (candidates s slots) s) as [Hfind Hlease]; [by rewrite Hp|].
  destruct (scan reader mk now (candidates s slots) s) as [s' got]. simpl in Hfind, Hlease. subst got.
  assert (Hsorted := sort_by_sorted (on_key pair_leb (λ x, (active_on_gpu s (gpu x), slot x))) slots).
  fold (candidates s slots) in Hsorted.
  destruct (List.find (available reader now s) (candidates s slots)) as [x|] eqn:Hf.
  - pose proof (List.find_some _ _ Hf) as [Hin Hav]. apply list_elem_of_In in Hin.
    split; [by rewrite <- Hp|]. split; [done|]. split; [by apply Hlease|].
    intros y Hy Hyav. rewrite <- Hp in Hy. clear Hp Hlease Hin.
    induction Hsorted as [|z cs Hcs IH Hz]; [done|]. simpl in Hf.
    destruct (available reader now s z) eqn:Hzav.
    + simplify_eq. apply elem_of_cons in Hy as [->|Hy]; [apply (leb_refl pair_leb)|].
      rewrite Forall_forall in Hz. by apply (Hz y).
    + apply elem_of_cons in Hy as [->|Hy]; [congruence|]. by apply IH.
  - intros y Hy. apply (List.find_none _ _ Hf). by apply list_elem_of_In; rewrite Hp.
Qed.

Definition demo_slot (n : Z) (g : string) : EnvironmentSlot :=
  {| slot := n; gpu := g; endpoint := "http://127.0.0.1:9000"; generation := 0 |}.

Lemma acquire_grants_first_witness :
  available all_free 0 init (demo_slot 0 "0") = true ∧
  leases (try_acquire demo_config "worker" "job" "slot-lease-1" 7 demo_manifest all_free 0 init).1 !! 0 =
    Some (new_lease demo_config "slot-lease-1" "worker" "job" (demo_slot 0 "0") 7 0).
Proof.
  pose proof (acquire_grants_first demo_config "worker" "job" "slot-lease-1" 7 demo_manifest all_free 0 init
    [demo_slot 0 "0"; demo_slot 1 "1"]) as H.
  assert (E : (try_acquire demo_config "worker" "job" "slot-lease-1" 7 demo_manifest all_free 0 init).2
    = Ok (Some (demo_slot 0 "0"))) by (vm_compute; reflexivity).
  destruct (try_acquire demo_config "worker" "job" "slot-lease-1" 7 demo_manifest all_free 0 init) as [s' r].
  simpl in E. subst r. destruct H as (_ & Hav & Hl & _); [reflexivity|vm_compute; reflexivity| |exact (conj Hav Hl)].
  apply (bool_decide_unpack (NoDup [0; 1])). vm_compute. exact I.
Defined.

(** A full broker never reclaims.  The number of leases never exceeds the configured
    maximum; but once it is reached, [acquire] looks at no slot at all: however long ago the
    leases expired and whatever the environments report, it grants and reclaims nothing, so
    as long as the crashed holders do not release, every caller times out. *)
Theorem full_broker_never_reclaims (config : Config) (maximum : Z) (os : list op) :
  check_broker config = Ok tt → maximum_active_slots config = Some maximum →
  let s := run config os init in
  dict_len (leases s) ≤ maximum ∧
  (dict_len (leases s) = maximum → ∀ who job id process manifest reader now,
     try_acquire config who job id process manifest reader now s = (s, Ok None)).
Proof.
  intros Hok Hmax. simpl. split.
  - assert (H0 : dict_len (leases init) ≤ maximum).
    { apply guards_ok in Hok. apply Forall_cons in Hok as [_ Hok]. apply Forall_cons in Hok as [Hok _].
      simpl in Hok. rewrite Hmax in Hok. apply Z.leb_le in Hok. unfold dict_len, zlen. simpl. lia. }
    unfold run. revert H0. generalize init. induction os as [|o os IH]; intros s Hs; [done|].
    apply IH. by apply exec_len.
  - intros Hlen who job id process manifest reader now. unfold try_acquire, below_maximum. rewrite Hmax, Hlen.
    by rewrite Z.ltb_irrefl.
Qed.

(** The lease of [demo1] expired at 120 and its environment is free. *)
Lemma full_broker_never_reclaims_witness :
  (expires_at <$> leases demo1 !! 0) = Some 120 ∧
  try_acquire demo_config "worker" "job" "slot-lease-2" 7 demo_manifest all_free 100000 demo1 = (demo1, Ok None).
Proof.
  split; [vm_compute; reflexivity|].
  apply (full_broker_never_reclaims demo_config 1 [demo_acquire "slot-lease-1" 0]); reflexivity.
Defined.

End EnvironmentSlotBroker.
