(* ===== verification/HostQueue.v ===== *)
(** * Rollout queues on a shared filesystem: [zetta/evolution/queue.py]

    A supervisor enqueues rollout jobs for a host; the workers of the host claim them,
    renew their claims while an episode runs, and commit one terminal envelope per job;
    the supervisor closes claims whose worker died.  Everything is a file: [t] holds the
    four directories of one host, file name to modification time and contents, and the
    fairness cursor.  A file is published atomically, so the durable effects of a call are
    the writes, renames and unlinks it makes, in order.  The process may die between any
    two: a call runs with a budget of durable effects and stops ([Crash]) when it is spent.

    A call holds the host's lock directory from its first read to its last write, and the
    lock is taken over only after two minutes: calls are assumed to be shorter, and are
    single steps.  [recover_abandoned] takes the lock once per claim, so each of its rounds
    is a step.  The contents of a file are typed: old raw jobs ([Raw]) and the envelopes of
    this version.  Clock readings, modification times and new tokens are arguments; times
    are microseconds.

    Theorems: terminals are immutable and unique, no job is lost, none is handed out twice,
    what may finish a claim, retrying after a crash, and the fairness of the cursor. *)

From stdpp Require Import pretty.
From S2P Require Import Prelude Durable PyDict Sorting Sha256 Codec CanonicalJson JsonIO.

Open Scope string_scope.
Open Scope list_scope.
Open Scope Z_scope.

Notation time := Z (only parsing).

Inductive queue_error :=
  | ValueError (msg : string)
  | FileExistsError (name : string)
  | FileNotFoundError (name : string).

Definition seconds (n : Z) : time := 1000000 * n.
Definition _DEFAULT_CLAIM_LEASE_S : time := seconds 7200.

Record RolloutJob := {
  job_id : string;
  campaign_root : string;
  logical_id : string;
  attempt_index : Z;
  task : string;
  seed : Z;
  policy_rng : Z;
  bundle_sha256 : option string;
  command : list string;
  output_dir : string;
  result_file : string;
  heartbeat_file : string;
  timeout_s : Z;
  no_progress_timeout_s : Z;
  requires_api : bool;
  requires_environment_slot : bool;
}.

#[export] Instance job_eq_dec : EqDecision RolloutJob.
Proof. solve_decision. Defined.

(** [RolloutJob.as_dict] *)
Definition as_dict (j : RolloutJob) : json_object := [
  ("job_id", NStr (job_id j)); ("campaign_root", NStr (campaign_root j));
  ("logical_id", NStr (logical_id j)); ("attempt_index", NInt (attempt_index j));
  ("task", NStr (task j)); ("seed", NInt (seed j)); ("policy_rng", NInt (policy_rng j));
  ("bundle_sha256", match bundle_sha256 j with Some s => NStr s | None => NNone end);
  ("command", NList (NStr <$> command j)); ("output_dir", NStr (output_dir j));
  ("result_file", NStr (result_file j)); ("heartbeat_file", NStr (heartbeat_file j));
  ("timeout_s", NInt (timeout_s j)); ("no_progress_timeout_s", NInt (no_progress_timeout_s j));
  ("requires_api", NBool (requires_api j));
  ("requires_environment_slot", NBool (requires_environment_slot j))].

(** [RolloutJob.scheduling_key]: [self.bundle_sha256 or 'parent'] *)
Definition scheduling_key (j : RolloutJob) : string :=
  task j +:+ ":" +:+ match bundle_sha256 j with
    | Some s => str_or s "parent"
    | None => "parent"
    end.

(** [_job_id_from_result] *)
Definition declared_id (v : native) : option string :=
  match v with NStr s => if str_true s then Some s else None | _ => None end.
Definition _job_id_from_result (result : json_object) : option string :=
  match declared_id (obj_get "job_id" result) with
  | Some s => Some s
  | None => match obj_get "job" result with
            | NDict nested => declared_id (obj_get "job_id" nested)
            | _ => None
            end
  end.

(** ** Files *)

Record Claim := {
  claim_job : RolloutJob;
  claim_token : string;
  worker_id : string;
  acquired_at : time;
  heartbeat_at : time;
  expires_at : time;
}.

Record Terminal := {
  term_job : RolloutJob;
  term_token : string;
  term_worker : string;
  term_acquired_at : time;
  last_heartbeat : time;
  finished_at : time;
  success : bool;
  commit_source : string;
  result_digest : string;
  result : json_object;
}.

Inductive envelope :=
  | Raw (j : RolloutJob)
  | Pending (j : RolloutJob)
  | Claimed (c : Claim)
  | Terminated (x : Terminal).

(** [_job_from_envelope] *)
Definition _job_from_envelope (e : envelope) : RolloutJob :=
  match e with
  | Raw j | Pending j => j
  | Claimed c => claim_job c
  | Terminated x => term_job x
  end.

Record file := File { mtime : time; contents : envelope }.

Module SharedHostQueue.

Record t := Queue {
  pending : gmap string file;
  running : gmap string file;
  completed : gmap string file;
  failed : gmap string file;
  last_scheduling_key : option string;
}.

Definition init : t := Queue ∅ ∅ ∅ ∅ None.

Definition set_pending (d : gmap string file) (q : t) : t :=
  Queue d (running q) (completed q) (failed q) (last_scheduling_key q).
Definition set_running (d : gmap string file) (q : t) : t :=
  Queue (pending q) d (completed q) (failed q) (last_scheduling_key q).
Definition set_cursor (k : string) (q : t) : t :=
  Queue (pending q) (running q) (completed q) (failed q) (Some k).
Definition bucket (ok : bool) (q : t) : gmap string file := if ok then completed q else failed q.
Definition set_bucket (ok : bool) (d : gmap string file) (q : t) : t :=
  if ok then Queue (pending q) (running q) d (failed q) (last_scheduling_key q)
  else Queue (pending q) (running q) (completed q) d (last_scheduling_key q).

(** What a call does to the directories ([Durable.v]). *)
Definition op (A : Type) : Type := durable_op t queue_error A.

(** [sorted(directory.glob("*.json"))] *)
Definition names (d : gmap string file) : list string := sort_by str_leb (map_to_list d).*1.

Definition _job_filename (id : string) : op string :=
  if str_true id then mret ("job-" +:+ String.substring 0 32 (canonical_sha256 (NStr id)) +:+ ".json")
  else throw (ValueError "queue job_id must be a non-empty string").

Definition _claim_envelope (j : RolloutJob) (token worker : string) (acquired lease : time) : Claim := {|
  claim_job := j; claim_token := token; worker_id := worker; acquired_at := acquired;
  heartbeat_at := acquired; expires_at := acquired + lease |}.

Definition _legacy_claim_envelope (name : string) (f : file) : Claim :=
  let j := _job_from_envelope (contents f) in
  _claim_envelope j ("legacy-" +:+ String.substring 0 32 (canonical_sha256
    (NDict [("job_id", NStr (job_id j)); ("claim_file", NStr name)])))
    "legacy-worker" (mtime f) _DEFAULT_CLAIM_LEASE_S.

Definition _claim_fields (c : Claim) : op unit :=
  if negb (str_true (claim_token c)) then
    throw (ValueError "running claim requires a non-empty claim_token")
  else if negb (str_true (worker_id c)) then
    throw (ValueError "running claim requires a non-empty worker_id")
  else mret tt.

(** [_read_claim], of a file that exists or not; an old envelope is upgraded in place. *)
Definition _read_claim (mt : time) (name : string) : op Claim :=
  q ← read_disk;
  match running q !! name with
  | None => throw (FileNotFoundError name)
  | Some f =>
      match contents f with
      | Claimed c => _claim_fields c ≫= λ _, mret c
      | _ =>
          let c := _legacy_claim_envelope name f in
          durable (λ q, set_running (<[name := File mt (Claimed c)]> (running q)) q) ≫= λ _,
          _claim_fields c ≫= λ _, mret c
      end
  end.

Definition _result_digest (ok : bool) (r : json_object) : string :=
  canonical_sha256 (NDict [("success", NBool ok); ("result", NDict r)]).

Definition _terminal_envelope (c : Claim) (ok : bool) (r : json_object) (source : string)
    (now : time) : Terminal := {|
  term_job := claim_job c; term_token := claim_token c; term_worker := worker_id c;
  term_acquired_at := acquired_at c; last_heartbeat := heartbeat_at c; finished_at := now;
  success := ok; commit_source := source; result_digest := _result_digest ok r; result := r |}.

(** Which bucket a job has terminals in. *)
Definition _terminal_candidates (name : string) (q : t) : list bool :=
  bfilter (λ ok, bool_decide (is_Some (bucket ok q !! name))) [true; false].

(** [_find_terminal]: the terminal of a job and where it is. *)
Definition _find_terminal (id : string) : op (option ((bool * string) * envelope)) :=
  name ← _job_filename id;
  q ← read_disk;
  match _terminal_candidates name q with
  | [] => mret None
  | [ok] =>
      match bucket ok q !! name with
      | Some f =>
          if negb (String.eqb (job_id (_job_from_envelope (contents f))) id)
          then throw (ValueError "terminal filename and envelope identity differ")
          else mret (Some ((ok, name), contents f))
      | None => mret None
      end
  | _ => throw (ValueError "job has conflicting completed and failed terminals")
  end.

Definition _assert_same_terminal (existing : envelope) (id token : string) (ok : bool)
    (r : json_object) (source : string) : outcome queue_error unit :=
  match existing with
  | Terminated x =>
      guards [
        (String.eqb (job_id (term_job x)) id, ValueError "terminal envelope job_id mismatch");
        (String.eqb (term_token x) token, ValueError "stale claim token cannot finish this job");
        (String.eqb (commit_source x) source,
         ValueError "claim was already closed by a different authority");
        (String.eqb (result_digest x) (_result_digest ok r),
         ValueError "terminal result digest differs from immutable commit")]
  | _ => Raise (ValueError "terminal path contains a non-terminal envelope")
  end.

(** ** The public calls *)

(** [atomic_write_json(overwrite=False)]: writing the same bytes again is accepted. *)
Definition enqueue (mt : time) (j : RolloutJob) : op string :=
  name ← _job_filename (job_id j);
  q ← read_disk;
  match pending q !! name with
  | None =>
      durable (λ q, set_pending (<[name := File mt (Pending j)]> (pending q)) q) ≫= λ _, mret name
  | Some f =>
      match contents f with
      | Pending j' => if bool_decide (j' = j) then mret name else throw (FileExistsError name)
      | _ => throw (FileExistsError name)
      end
  end.

Definition unlink_pending (name : string) : op unit :=
  durable (λ q, set_pending (delete name (pending q)) q).
Definition unlink_running (name : string) : op unit :=
  durable (λ q, set_running (delete name (running q)) q).

(** The jobs still to run, oldest name first; files of finished jobs are removed. *)
Fixpoint scan (ns : list string) : op (list (string * RolloutJob)) :=
  match ns with
  | [] => mret []
  | name :: ns' =>
      q ← read_disk;
      match pending q !! name with
      | None => throw (FileNotFoundError name)
      | Some f =>
          let j := _job_from_envelope (contents f) in
          terminal ← _find_terminal (job_id j);
          match terminal with
          | Some _ => unlink_pending name ≫= λ _, scan ns'
          | None => rest ← scan ns'; mret ((name, j) :: rest)
          end
      end
  end.

(** [keys[start:] + keys[:start]], from the key after the last one served. *)
Definition rotate (last : option string) (keys : list string) : list string :=
  match last with
  | Some k =>
      match list_find (eq k) keys with
      | Some (i, _) =>
          let start := ((i + 1) mod length keys)%nat in drop start keys ++ take start keys
      | None => keys
      end
  | None => keys
  end.

Definition keys_of (available : list (string * RolloutJob)) : list string :=
  sort_by str_leb (remove_dups ((λ x, scheduling_key x.2) <$> available)).

(** The key whose turn it is, and its oldest job. *)
Definition choose (q : t) (available : list (string * RolloutJob)) :
    option (string * (string * RolloutJob)) :=
  match rotate (last_scheduling_key q) (keys_of available) with
  | [] => None
  | key :: _ =>
      let age x := (from_option mtime 0 (pending q !! x.1), x.1) in
      (λ x, (key, x)) <$> min_by (on_key (lex_leb Z.leb str_leb) age)
        (bfilter (λ x, String.eqb (scheduling_key x.2) key) available)
  end.

Definition claim_name (token : string) : string := "claim-" +:+ token +:+ ".json".

(** [claim]: [token] is the new [uuid4], [worker] the owner. *)
Definition claim (worker : string) (lease : time) (token : string) (now mt : time) :
    op (option (string * RolloutJob)) :=
  if lease <=? 0 then throw (ValueError "claim lease_s must be positive")
  else
    q ← read_disk;
    available ← scan (names (pending q));
    q ← read_disk;
    match choose q available with
    | None => mret None
    | Some (key, (source, j)) =>
        let f := File mt (Claimed (_claim_envelope j token worker now lease)) in
        durable (λ q, set_pending (<[source := f]> (pending q)) q) ≫= λ _,
        durable (λ q, set_running (<[claim_name token := f]> (running q))
                        (set_pending (delete source (pending q)) q)) ≫= λ _,
        durable (set_cursor key) ≫= λ _,
        mret (Some (claim_name token, j))
    end.

(** [claim_token] *)
Definition get_claim_token (mt : time) (name : string) : op string :=
  c ← _read_claim mt name; mret (claim_token c).

Definition heartbeat (now mt : time) (name token : string) (lease : time) : op unit :=
  if lease <=? 0 then throw (ValueError "claim heartbeat lease_s must be positive")
  else
    q ← read_disk;
    match running q !! name with
    | None => throw (ValueError "cannot heartbeat a non-active claim")
    | Some _ =>
        c ← _read_claim mt name;
        if negb (String.eqb (claim_token c) token) then
          throw (ValueError "stale claim token cannot renew this job")
        else if expires_at c <? now then
          throw (ValueError "expired claim token cannot renew this job")
        else
          let c' := {| claim_job := claim_job c; claim_token := claim_token c;
                       worker_id := worker_id c; acquired_at := acquired_at c;
                       heartbeat_at := now; expires_at := now + lease |} in
          durable (λ q, set_running (<[name := File mt (Claimed c')]> (running q)) q)
    end.

(** Drop a claim that is still held under the token. *)
Definition release_claim (mt : time) (name token msg : string) : op unit :=
  q ← read_disk;
  match running q !! name with
  | None => mret tt
  | Some _ =>
      c ← _read_claim mt name;
      if String.eqb (claim_token c) token then unlink_running name else throw (ValueError msg)
  end.

(** The claim behind a file to finish: what is persisted wins over what is given. *)
Definition active_claim (now mt : time) (name : string) (r : json_object)
    (token : option string) (source : string) : op (option Claim) :=
  q ← read_disk;
  match running q !! name with
  | Some _ =>
      c ← _read_claim mt name;
      attempt (guards [
        (match token with Some tk => String.eqb (claim_token c) tk | None => true end,
         ValueError "stale claim token cannot finish this job");
        (negb (String.eqb source "worker" && (expires_at c <? now)),
         ValueError "expired claim token cannot finish this job");
        (match _job_id_from_result r with
         | Some id => String.eqb id (job_id (claim_job c))
         | None => true
         end, ValueError "result job_id does not match running claim")]) ≫= λ _,
      mret (Some c)
  | None =>
      match _job_id_from_result r, token with
      | Some _, Some _ => mret None
      | _, _ => throw (ValueError "finishing a missing claim requires result job_id and claim_token")
      end
  end.

(** [_finish_locked]; the path is the bucket and the file name of the terminal. *)
Definition _finish_locked (now1 now2 mt : time) (name : string) (ok : bool) (r : json_object)
    (token : option string) (source : string) : op (bool * string) :=
  active ← active_claim now1 mt name r token source;
  let id := match active with
    | Some c => job_id (claim_job c)
    | None => default EmptyString (_job_id_from_result r)
    end in
  let tk := match active with Some c => claim_token c | None => default EmptyString token end in
  existing ← _find_terminal id;
  match existing with
  | Some (path, payload) =>
      attempt (_assert_same_terminal payload id tk ok r source) ≫= λ _,
      release_claim mt name tk "stale running claim cannot be cleaned" ≫= λ _, mret path
  | None =>
      match active with
      | None => throw (ValueError "terminal commit is missing its active running claim")
      | Some c =>
          target ← _job_filename (job_id (claim_job c));
          let x := _terminal_envelope c ok r source now2 in
          durable (λ q, set_bucket ok (<[target := File mt (Terminated x)]> (bucket ok q)) q) ≫= λ _,
          release_claim mt name tk "claim token changed during terminal commit" ≫= λ _,
          mret (ok, target)
      end
  end.

Definition finish (now1 now2 mt : time) (name : string) (ok : bool) (r : json_object)
    (token : option string) : op (bool * string) :=
  _finish_locked now1 now2 mt name ok r token "worker".


(** [v == n] for an integer [n]: bools and floats compare by value. *)
Definition equals_int (v : native) (n : Z) : bool :=
  match v with
  | NInt z => z =? n
  | NBool b => Z.b2z b =? n
  | NFloat s => String.eqb s (pretty n +:+ ".0")
  | _ => false
  end.

(** [_valid_published_result], of the parsed result file of the job, if there is one. *)
Definition _valid_published_result (j : RolloutJob) (payload : option native) : option json_object :=
  match payload with
  | Some (NDict d) =>
      let attempt := match assoc_lookup "attempt_index" d with Some v => v | None => NInt (attempt_index j) end in
      if negb (bool_decide (obj_get "logical_id" d = NStr (logical_id j))) then None
      else if negb (equals_int attempt (attempt_index j)) then None
      else if match obj_get "job_id" d with
              | NNone => false
              | v => negb (bool_decide (v = NStr (job_id j)))
              end then None
      else if negb (member (obj_get "status" d) [NStr "valid"; NStr "infra_invalid"]) then None
      else Some [
        ("job_id", NStr (job_id j)); ("logical_id", NStr (logical_id j));
        ("attempt_index", NInt (attempt_index j)); ("success", NBool true);
        ("recovery_reason", NStr "published_result_file_after_worker_crash");
        ("result", NDict d); ("job", NDict (as_dict j))]
  | _ => None
  end.

(** [_legacy_sidecar_result], of the parsed sidecar in [completed] or [failed]. *)
Definition _legacy_sidecar_result (j : RolloutJob) (sidecar : option (bool * native)) :
    outcome queue_error (option (bool * json_object)) :=
  match sidecar with
  | None => Ok None
  | Some (ok, NDict d) =>
      match _job_id_from_result d with
      | Some id =>
          if String.eqb id (job_id j) then Ok (Some (ok, d))
          else Raise (ValueError "legacy sidecar job_id does not match running claim")
      | None => Ok (Some (ok, d))
      end
  | Some _ => Raise (ValueError "legacy result sidecar must be an object")
  end.

(** The result of a claim nobody finished; [elapsed] is the JSON of its age. *)
Definition abandoned_result (j : RolloutJob) (elapsed : native) : json_object := [
  ("job_id", NStr (job_id j)); ("logical_id", NStr (logical_id j));
  ("attempt_index", NInt (attempt_index j)); ("success", NBool false);
  ("watchdog_reason", NStr "abandoned_worker_process"); ("elapsed_s", elapsed);
  ("job", NDict (as_dict j))].

(** One round of [recover_abandoned]: whether the claim was recovered.  [sidecar] and
    [published] are the files an old version or the rollout itself may have left. *)
Definition recover_claim (stale_after : time) (now now1 now2 mt : time) (elapsed : native)
    (sidecar : option (bool * native)) (published : option native) (name : string) : op bool :=
  q ← read_disk;
  match running q !! name with
  | None => mret false
  | Some f =>
      c ← _read_claim mt name;
      terminal ← _find_terminal (job_id (claim_job c));
      match terminal with
      | Some (_, payload) =>
          if match payload with Terminated x => String.eqb (term_token x) (claim_token c) | _ => false end
          then unlink_running name ≫= λ _, mret true
          else throw (ValueError "terminal belongs to a different claim token")
      | None =>
          q ← read_disk;
          let written := from_option mtime 0 (running q !! name) in
          let age := Z.max (Z.max 0 (now - heartbeat_at c)) (Z.max 0 (now - written)) in
          if negb (expires_at c <? now) && (age <? stale_after) then mret false
          else
            let j := claim_job c in
            match _legacy_sidecar_result j sidecar with
            | Raise e => throw e
            | Ok legacy =>
                let '(ok, r) := match legacy, _valid_published_result j published with
                  | Some x, _ => x
                  | None, Some r => (true, r)
                  | None, None => (false, abandoned_result j elapsed)
                  end in
                _finish_locked now1 now2 mt name ok r (Some (claim_token c)) "recovery" ≫= λ _,
                mret true
            end
      end
  end.

(** What a round reads: the clocks, and the files about its claim. *)
Record glance := Glance {
  seen_at : time;
  check_at : time;
  finish_at : time;
  write_at : time;
  age_json : native;
  sidecar_file : option (bool * native);
  published_file : option native;
}.

(** [recover_abandoned] of an undisturbed directory; [look] is what it reads for a claim. *)
Fixpoint recover_all (stale_after : time) (look : string → glance) (ns : list string) : op Z :=
  match ns with
  | [] => mret 0
  | name :: ns' =>
      let g := look name in
      b ← recover_claim stale_after (seen_at g) (check_at g) (finish_at g) (write_at g) (age_json g)
        (sidecar_file g) (published_file g) name;
      n ← recover_all stale_after look ns';
      mret (if b : bool then n + 1 else n)
  end.
Definition recover_abandoned (stale_after : time) (look : string → glance) : op Z :=
  if stale_after <? 0 then throw (ValueError "stale_after_s must be non-negative")
  else q ← read_disk; recover_all stale_after look (names (running q)).

(** [known_job_ids], of this host. *)
Definition ids_in (d : gmap string file) : list string :=
  (λ kf, job_id (_job_from_envelope (contents kf.2))) <$> map_to_list d.
Definition known_job_ids (q : t) : list string :=
  ids_in (pending q) ++ ids_in (running q) ++ ids_in (completed q) ++ ids_in (failed q).

(** [counts], of this host. *)
Definition counts (q : t) : Z * Z * Z * Z :=
  let n d := Z.of_nat (size (d : gmap string file)) in
  (n (pending q), n (running q), n (completed q), n (failed q)).

(** ** Steps: a call of a process that may die in it *)

Inductive call :=
  | Enqueue (mt : time) (j : RolloutJob)
  | ClaimNext (worker : string) (lease : time) (token : string) (now mt : time)
  | ReadToken (mt : time) (name : string)
  | Heartbeat (now mt : time) (name token : string) (lease : time)
  | Finish (now1 now2 mt : time) (name : string) (ok : bool) (r : json_object) (token : option string)
  | Recover (stale_after now now1 now2 mt : time) (elapsed : native)
      (sidecar : option (bool * native)) (published : option native) (name : string).

(** What the call answers, besides the disk it leaves. *)
Inductive answer :=
  | Path (name : string)
  | Handed (c : option (string * RolloutJob))
  | Token (token : string)
  | Done
  | Committed (path : bool * string)
  | Recovered (b : bool).

Definition perform (c : call) : op answer :=
  match c with
  | Enqueue mt j => n ← enqueue mt j; mret (Path n)
  | ClaimNext w l tk now mt => x ← claim w l tk now mt; mret (Handed x)
  | ReadToken mt n => tk ← get_claim_token mt n; mret (Token tk)
  | Heartbeat now mt n tk l => heartbeat now mt n tk l ≫= λ _, mret Done
  | Finish n1 n2 mt n ok r tk => p ← finish n1 n2 mt n ok r tk; mret (Committed p)
  | Recover s now n1 n2 mt el sc pb n => b ← recover_claim s now n1 n2 mt el sc pb n; mret (Recovered b)
  end.

Definition exec (q : t) (b : nat) (c : call) : t := disk (after (perform c) (World q b)).
Definition reply (q : t) (b : nat) (c : call) : outcome (stop queue_error) answer := result_of (perform c) (World q b).

(** Calls in order, each with the effects its process lives to make. *)
Definition run (cs : list (call * nat)) (q : t) : t := foldl (λ q cb, exec q cb.2 cb.1) q cs.

(** The jobs handed to workers by the claims of a run, newest first. *)
Definition handed_by (q : t) (b : nat) (c : call) : list RolloutJob :=
  match reply q b c with Ok (Handed (Some (_, j))) => [j] | _ => [] end.
Fixpoint handed (cs : list (call * nat)) (q : t) : list RolloutJob :=
  match cs with
  | [] => []
  | (c, b) :: cs' => handed_by q b c ++ handed cs' (exec q b c)
  end.

(** A new token is new; which jobs are enqueued is [may].  The supervisor enqueues jobs
    that are not known ([new_job]). *)
Definition any_job (_ : RolloutJob) (_ : t) : Prop := True.
Definition new_job (j : RolloutJob) (q : t) : Prop := job_id j ∉ known_job_ids q.
Definition legal (may : RolloutJob → t → Prop) (q : t) (c : call) : Prop :=
  match c with
  | Enqueue _ j => may j q
  | ClaimNext _ _ token _ _ => running q !! claim_name token = None
  | _ => True
  end.
Fixpoint legal_run (may : RolloutJob → t → Prop) (cs : list (call * nat)) (q : t) : Prop :=
  match cs with
  | [] => True
  | (c, b) :: cs' => legal may q c ∧ legal_run may cs' (exec q b c)
  end.

(** ** Durable effects

    Every call is a sequence of these effects, cut short by a crash; what holds of each of
    them holds of every run. *)

Definition job_of (f : file) : RolloutJob := _job_from_envelope (contents f).

(** The file name of a job. *)
Definition filed (id name : string) : Prop := ∀ w, _job_filename id w = (w, Ok name).

Definition has_terminal (q : t) (id : string) : Prop :=
  ∃ ok name f, filed id name ∧ bucket ok q !! name = Some f ∧ job_id (job_of f) = id.

Section effects.
Context (may : RolloutJob → t → Prop).

Inductive effect : t → t → Prop :=
  | e_enqueue q j name mt : filed (job_id j) name → pending q !! name = None →
      may j q →
      effect q (set_pending (<[name := File mt (Pending j)]> (pending q)) q)
  | e_mark q name f mt c : pending q !! name = Some f → claim_job c = job_of f →
      effect q (set_pending (<[name := File mt (Claimed c)]> (pending q)) q)
  | e_drop q name f : pending q !! name = Some f → has_terminal q (job_id (job_of f)) →
      effect q (set_pending (delete name (pending q)) q)
  | e_take q name f c : pending q !! name = Some f → contents f = Claimed c →
      running q !! claim_name (claim_token c) = None →
      effect q (set_running (<[claim_name (claim_token c) := f]> (running q))
                  (set_pending (delete name (pending q)) q))
  | e_cursor q key : effect q (set_cursor key q)
  | e_renew q name f c c' mt : running q !! name = Some f → contents f = Claimed c →
      claim_job c' = claim_job c → claim_token c' = claim_token c →
      effect q (set_running (<[name := File mt (Claimed c')]> (running q)) q)
  | e_commit q name f c target ok x mt : running q !! name = Some f → contents f = Claimed c →
      filed (job_id (claim_job c)) target → term_job x = claim_job c →
      bucket true q !! target = None → bucket false q !! target = None →
      effect q (set_bucket ok (<[target := File mt (Terminated x)]> (bucket ok q)) q)
  | e_close q name f : running q !! name = Some f → has_terminal q (job_id (job_of f)) →
      effect q (set_running (delete name (running q)) q).

(** ** The invariant of the directories *)

Record wf (q : t) : Prop := {
  wf_pending name f : pending q !! name = Some f → filed (job_id (job_of f)) name;
  wf_running name f : running q !! name = Some f → ∃ c, contents f = Claimed c;
  wf_bucket ok name f : bucket ok q !! name = Some f →
    filed (job_id (job_of f)) name ∧ ∃ x, contents f = Terminated x;
  wf_once name : bucket true q !! name = None ∨ bucket false q !! name = None;
}.

Lemma queue_init_wf : wf init.
Proof.
  split; try (intros name f H; simpl in H; by rewrite lookup_empty in H).
  - intros [] name f H; simpl in H; by rewrite lookup_empty in H.
  - intros name. left. apply lookup_empty.
Qed.

Lemma bucket_set_bucket ok ok' d q :
  bucket ok (set_bucket ok' d q) = if decide (ok = ok') then d else bucket ok q.
Proof. by destruct ok, ok'. Qed.
Lemma pending_set_bucket ok d q : pending (set_bucket ok d q) = pending q.
Proof. by destruct ok. Qed.
Lemma running_set_bucket ok d q : running (set_bucket ok d q) = running q.
Proof. by destruct ok. Qed.
Lemma bucket_other ok q q' : completed q' = completed q → failed q' = failed q → bucket ok q' = bucket ok q.
Proof. by destruct ok. Qed.

(** A terminal stays where and what it is. *)
Lemma effect_terminals q q' ok name f :
  effect q q' → bucket ok q !! name = Some f → bucket ok q' !! name = Some f.
Proof.
  intros He Hf. destruct He as [| | | | | |q name0 f0 c target ok' x mt _ _ _ _ H1 H2|];
    try (by rewrite (bucket_other ok q); [|by simpl..]).
  rewrite bucket_set_bucket. case_decide as E; [|done]. subst.
  rewrite lookup_insert_ne; [done|]. intros ->. destruct ok'; congruence.
Qed.

Lemma effect_has_terminal q q' id : effect q q' → has_terminal q id → has_terminal q' id.
Proof. intros He (ok & name & f & Hn & Hf & Hid). exists ok, name, f. split; [done|]. split; [by eapply effect_terminals|done]. Qed.

Lemma effect_wf q q' : effect q q' → wf q → wf q'.
Proof.
  intros He [Hp Hr Hb Ho].
  destruct He as [q j name mt Hn _ _|q name f mt c Hf Hc|q name f Hf _|q name f c Hf Hc Hfr|q key
    |q name f c c' mt Hf Hc Hj Ht|q name f c target ok' x mt Hf Hc Hn Hx H1 H2|q name f Hf _];
    split; simpl; try done.
  all: try (intros ? ? [[<- <-]|[? ?]]%lookup_insert_Some; [|by eauto]; try by eauto).
  all: try (intros ? ? [? ?]%lookup_delete_Some; by eauto).
  - unfold job_of. simpl. rewrite Hc. by apply Hp.
  - rewrite pending_set_bucket. done.
  - rewrite running_set_bucket. done.
  - intros ok name' f'. rewrite bucket_set_bucket. case_decide; [|by apply (Hb ok)]. subst.
    intros [[<- <-]|[? ?]]%lookup_insert_Some; [|by apply (Hb ok')]. unfold job_of. simpl. rewrite Hx.
    split; [done|by eexists].
  - intros name'. destruct (decide (name' = target)) as [->|Hne]; [destruct ok'; simpl; auto|].
    destruct (Ho name') as [H|H]; [left|right]; destruct ok'; simpl; by rewrite ?lookup_insert_ne.
Qed.

(** ** What is known of jobs *)

Definition in_pending (q : t) (id : string) : Prop := ∃ name f, pending q !! name = Some f ∧ job_id (job_of f) = id.
Definition in_running (q : t) (id : string) : Prop := ∃ name f, running q !! name = Some f ∧ job_id (job_of f) = id.
Definition in_terminal (q : t) (id : string) : Prop := ∃ ok name f, bucket ok q !! name = Some f ∧ job_id (job_of f) = id.

Lemma elem_of_ids_in d id : id ∈ ids_in d ↔ ∃ name f, d !! name = Some f ∧ job_id (job_of f) = id.
Proof.
  unfold ids_in. rewrite list_elem_of_fmap. split.
  - intros ([name f] & -> & H%elem_of_map_to_list). eauto.
  - intros (name & f & H & <-). exists (name, f). split; [done|]. by apply elem_of_map_to_list.
Qed.

Lemma elem_of_known q id :
  id ∈ known_job_ids q ↔ in_pending q id ∨ in_running q id ∨ in_terminal q id.
Proof.
  unfold known_job_ids. rewrite !elem_of_app, !elem_of_ids_in. unfold in_pending, in_running, in_terminal.
  split.
  - intros [H|[H|[(name & f & H)|(name & f & H)]]]; auto; right; right;
      [by exists true, name, f|by exists false, name, f].
  - intros [H|[H|([] & name & f & H)]]; eauto 10.
Qed.

Lemma has_in_terminal q id : has_terminal q id → in_terminal q id.
Proof. intros (ok & name & f & _ & H). by exists ok, name, f. Qed.

Lemma in_has_terminal q id : wf q → in_terminal q id → has_terminal q id.
Proof. intros Hwf (ok & name & f & Hf & <-). exists ok, name, f. split; [|done]. by apply (wf_bucket _ Hwf ok). Qed.

Lemma effect_in_terminal q q' id : effect q q' → in_terminal q id → in_terminal q' id.
Proof. intros He (ok & name & f & Hf & Hid). exists ok, name, f. split; [by eapply effect_terminals|done]. Qed.

(** A job that runs or has ended goes on running or has ended. *)
Lemma effect_busy q q' id :
  effect q q' → in_running q id ∨ in_terminal q id → in_running q' id ∨ in_terminal q' id.
Proof.
  intros He [(name' & f' & Hf' & Hid)|Ht]; [|right; by eapply effect_in_terminal].
  destruct He as [| | |q name f c Hf Hc Hfr| |q name f c c' mt Hf Hc Hj Ht|q name f c target ok x mt
    |q name f Hf Ht]; try (left; by exists name', f').
  - left. exists name', f'. split; [|done]. simpl. rewrite lookup_insert_ne; [done|]. congruence.
  - left. destruct (decide (name' = name)) as [->|Hne].
    + exists name, (File mt (Claimed c')). simpl. rewrite lookup_insert_eq. split; [done|]. simplify_eq.
      unfold job_of. simpl. by rewrite Hj, Hc.
    + exists name', f'. simpl. by rewrite lookup_insert_ne.
  - left. exists name', f'. rewrite running_set_bucket. done.
  - destruct (decide (name' = name)) as [->|Hne].
    + right. simplify_eq. apply has_in_terminal in Ht. exact Ht.
    + left. exists name', f'. simpl. by rewrite lookup_delete_ne.
Qed.

(** No effect forgets a job. *)
Lemma effect_known q q' id : effect q q' → id ∈ known_job_ids q → id ∈ known_job_ids q'.
Proof.
  intros He. rewrite !elem_of_known. intros [Hp|Hb]; [|right; by eapply effect_busy].
  destruct Hp as (name' & f' & Hf' & Hid).
  destruct He as [q j name mt Hn Hfree _|q name f mt c Hf Hc|q name f Hf Ht|q name f c Hf Hc Hfr|
    |q name f c c' mt Hf Hc Hj Ht|q name f c target ok x mt|q name f Hf Ht];
    try (left; exists name', f'; rewrite ?pending_set_bucket; by simpl).
  - left. exists name', f'. simpl. rewrite lookup_insert_ne by congruence. done.
  - left. destruct (decide (name' = name)) as [->|Hne].
    + exists name, (File mt (Claimed c)). simpl. rewrite lookup_insert_eq. simplify_eq.
      unfold job_of at 1. simpl. by rewrite Hc.
    + exists name', f'. simpl. by rewrite lookup_insert_ne.
  - destruct (decide (name' = name)) as [->|Hne].
    + right. right. simplify_eq. apply has_in_terminal in Ht. exact Ht.
    + left. exists name', f'. simpl. by rewrite lookup_delete_ne.
  - destruct (decide (name' = name)) as [->|Hne].
    + right. left. exists (claim_name (claim_token c)), f. simpl. rewrite lookup_insert_eq. by simplify_eq.
    + left. exists name', f'. simpl. by rewrite lookup_delete_ne.
Qed.

(** A job of some file of the queue. *)
Definition holds_job (q : t) (j : RolloutJob) : Prop :=
  ∃ name f, (pending q !! name = Some f ∨ running q !! name = Some f ∨ completed q !! name = Some f ∨
             failed q !! name = Some f) ∧ job_of f = j.

Lemma elem_of_known_jobs q id : id ∈ known_job_ids q ↔ ∃ j, holds_job q j ∧ job_id j = id.
Proof.
  unfold known_job_ids. rewrite !elem_of_app, !elem_of_ids_in. split.
  - intros [H|[H|[H|H]]]; destruct H as (name & f & Hf & <-); exists (job_of f); (split; [|done]); exists name, f; auto.
  - intros (j & (name & f & [Hf|[Hf|[Hf|Hf]]] & <-) & <-); eauto 10.
Qed.

Lemma terminal_holds_job q ok name f : bucket ok q !! name = Some f → holds_job q (job_of f).
Proof. intros Hf. exists name, f. split; [|done]. destruct ok; auto. Qed.

(** The jobs of a queue were there or are enqueued. *)
Lemma effect_jobs q q' j : effect q q' → holds_job q' j → holds_job q j ∨ may j q.
Proof.
  intros He (n & g & Hg & <-).
  assert (Hold : ∀ h, (pending q !! n = Some h ∨ running q !! n = Some h ∨ completed q !! n = Some h ∨ failed q !! n = Some h) →
    holds_job q (job_of h) ∨ may (job_of h) q) by (intros h Hh; left; by exists n, h).
  assert (Hsame : ∀ name f h, pending q !! name = Some f ∨ running q !! name = Some f → job_of h = job_of f →
    holds_job q (job_of h) ∨ may (job_of h) q).
  { intros name f h Hf ->. left. exists name, f. split; [|done]. tauto. }
  destruct He as [q j name mt Hn Hfree Hmay|q name f mt c Hf Hc|q name f Hf Ht|q name f c Hf Hc Hfr|q key
    |q name f c c' mt Hf Hc Hj Ht|q name f c target ok x mt Hf Hc Hn Hx H1 H2|q name f Hf Ht];
    try destruct ok; simpl in Hg; rewrite ?lookup_insert_Some, ?lookup_delete_Some in Hg;
    destruct Hg as [Hg|[Hg|[Hg|Hg]]]; try (apply Hold; tauto); destruct Hg as [[<- <-]|[_ Hg]]; try (apply Hold; tauto).
  - by right.
  - by apply (Hsame name f); [left|].
  - by apply (Hsame name f); [left|].
  - apply (Hsame name f); [by right|]. unfold job_of. simpl. by rewrite Hj, Hc.
  - apply (Hsame name f); [by right|]. unfold job_of. simpl. by rewrite Hx, Hc.
  - apply (Hsame name f); [by right|]. unfold job_of. simpl. by rewrite Hx, Hc.
Qed.

(** Where only unknown jobs are enqueued, a pending job neither runs nor has ended. *)
Definition exclusive (q : t) : Prop := ∀ id, in_pending q id → ¬ (in_running q id ∨ in_terminal q id).

End effects.

(** ** The calls are sequences of effects *)

Lemma filed_unique id name name' : filed id name → filed id name' → name = name'.
Proof. intros H H'. specialize (H (World init 0)). specialize (H' (World init 0)). congruence. Qed.

Lemma job_filename_spec id w :
  (∃ name, _job_filename id w = (w, Ok name) ∧ filed id name) ∨ (∃ e, _job_filename id w = (w, Raise e)).
Proof.
  unfold filed, _job_filename. destruct (str_true id); [left|right]; eexists; [split; [reflexivity|done]|reflexivity].
Qed.

Section calls.
Context (may : RolloutJob → t → Prop).

Lemma rtc_wf q q' : wf q → rtc (effect may) q q' → wf q'.
Proof. intros Hwf H. eapply (rtc_invariant (effect may) wf); [|done..]. intros a b Ha Hab. by eapply effect_wf. Qed.

(** What [_find_terminal] found. *)
Definition found (id : string) (x : option ((bool * string) * envelope)) (q : t) : Prop :=
  match x with
  | Some ((ok, name), e) => filed id name ∧ ∃ f, bucket ok q !! name = Some f ∧ contents f = e ∧ job_id (job_of f) = id
  | None => ∃ name, filed id name ∧ bucket true q !! name = None ∧ bucket false q !! name = None
  end.

Lemma found_terminal id ok name e q : found id (Some ((ok, name), e)) q → has_terminal q id.
Proof. intros (Hn & f & Hf & _ & Hid). by exists ok, name, f. Qed.

Lemma find_terminal_spec id w : after (_find_terminal id) w = w ∧
  ∀ x, result_of (_find_terminal id) w = Ok x → found id x (disk w).
Proof.
  unfold after, result_of, _find_terminal, throw, raise, mbind, prog_bind, mret, prog_ret.
  destruct (job_filename_spec id w) as [(name & -> & Hn)|[e ->]]; [|done].
  unfold read_disk, _terminal_candidates. cbv beta iota. rewrite !bfilter_cons. change (bfilter _ []) with (@nil bool).
  cbn [bucket]. destruct (completed (disk w) !! name) as [f1|] eqn:E1, (failed (disk w) !! name) as [f2|] eqn:E2;
    rewrite ?(bool_decide_true (is_Some (Some _))), ?(bool_decide_false (is_Some None)) by (done || by intros []);
    cbn [bucket]; rewrite ?E1, ?E2.
  - done.
  - destruct (String.eqb_spec (job_id (_job_from_envelope (contents f1))) id) as [E|]; [|done]. cbn [negb].
    split; [done|]. intros x [= <-]. split; [done|]. by exists f1.
  - destruct (String.eqb_spec (job_id (_job_from_envelope (contents f2))) id) as [E|]; [|done]. cbn [negb].
    split; [done|]. intros x [= <-]. split; [done|]. by exists f2.
  - split; [done|]. intros x [= <-]. by exists name.
Qed.

Lemma find_wp id w : wp (_find_terminal id) w (λ w' o, w' = w ∧ ∀ x, o = Ok x → found id x (disk w)).
Proof. apply find_terminal_spec. Qed.

Lemma eff_find {B} id (k : _ → op B) q0 (R : B → t → Prop) w :
  rtc (effect may) q0 (disk w) → (∀ x, found id x (disk w) → wp (k x) w (eff (effect may) q0 R)) →
  wp (_find_terminal id ≫= k) w (eff (effect may) q0 R).
Proof.
  intros Hs Hk. destruct (find_terminal_spec id w) as [Ha Hr]. apply wp_bind. unfold wp at 1. rewrite Ha.
  destruct (result_of (_find_terminal id) w) as [x|e]; [by apply Hk, Hr|done].
Qed.

(** A claim of this version is read as it is. *)
Lemma wp_read_claim {B} mt name c f (k : Claim → op B) w Φ :
  running (disk w) !! name = Some f → contents f = Claimed c →
  wp (k c) w Φ → (∀ e, Φ w (Raise e)) → wp (_read_claim mt name ≫= k) w Φ.
Proof.
  intros Hf Hc Hk He. apply wp_bind. unfold wp at 1, _read_claim, after, result_of, mbind, prog_bind, read_disk.
  simpl. rewrite Hf, Hc. unfold _claim_fields, throw, raise, mret, prog_ret.
  destruct (negb (str_true (claim_token c))); [apply He|]. destruct (negb (str_true (worker_id c))); [apply He|done].
Qed.
Lemma eff_read_claim {B} mt name c f (k : Claim → op B) q0 (R : B → t → Prop) w :
  rtc (effect may) q0 (disk w) → running (disk w) !! name = Some f → contents f = Claimed c →
  wp (k c) w (eff (effect may) q0 R) → wp (_read_claim mt name ≫= k) w (eff (effect may) q0 R).
Proof. intros Hs Hf Hc Hk. by eapply wp_read_claim. Qed.

(** *** Enqueue *)

Lemma enqueue_eff mt j w :
  may j (disk w) →
  wp (enqueue mt j) w (eff (effect may) (disk w) (λ _ _, True)).
Proof.
  intros Hl. unfold enqueue. destruct (job_filename_spec (job_id j) w) as [(name & E & Hn)|[e E]].
  2:{ apply wp_bind. unfold wp, after, result_of. by rewrite E. }
  apply wp_bind. unfold wp at 1, after, result_of. rewrite E. simpl. apply eff_read.
  destruct (pending (disk w) !! name) as [f|] eqn:Hf.
  - destruct (contents f); try by apply eff_throw. case_bool_decide; [by apply eff_ret|by apply eff_throw].
  - eapply eff_bind; [apply (eff_durable (effect may)); [done|by apply e_enqueue]|]. intros [] w' Hs _. by apply eff_ret.
Qed.

(** *** Claim *)

Lemma names_NoDup d : NoDup (names d).
Proof. unfold names. rewrite (sort_by_perm str_leb). apply NoDup_fst_map_to_list. Qed.

Lemma elem_of_names d name : name ∈ names d ↔ is_Some (d !! name).
Proof.
  unfold names. rewrite elem_of_sort_by, list_elem_of_fmap. split.
  - intros ([n f] & -> & H%elem_of_map_to_list). by exists f.
  - intros [f Hf]. exists (name, f). split; [done|]. by apply elem_of_map_to_list.
Qed.

(** What [scan] leaves and what it has found, among the files [ns]. *)
Record scanned (ns : list string) (q : t) (found : list (string * RolloutJob)) (q' : t) : Prop := {
  scan_frame name : name ∉ ns → pending q' !! name = pending q !! name;
  scan_rest : running q' = running q ∧ completed q' = completed q ∧ failed q' = failed q ∧
    last_scheduling_key q' = last_scheduling_key q;
  scan_kept name j : (name, j) ∈ found →
    name ∈ ns ∧ ∃ f, pending q' !! name = Some f ∧ pending q !! name = Some f ∧ job_of f = j;
}.

Lemma scan_eff ns q0 w :
  rtc (effect may) q0 (disk w) → NoDup ns → wp (scan ns) w (eff (effect may) q0 (scanned ns (disk w))).
Proof.
  revert w. induction ns as [|name ns IH]; intros w Hs Hnd.
  { apply eff_ret; [done|]. split; [done..|]. by intros ? ? ?%elem_of_nil. }
  apply NoDup_cons in Hnd as [Hni Hnd]. cbn [scan]. apply eff_read.
  destruct (pending (disk w) !! name) as [f|] eqn:Hf; [|by apply eff_throw].
  apply eff_find; [done|]. intros [[[ok n] e]|] Hfound.
  - eapply eff_bind; [apply (eff_durable (effect may)); [done|]|].
    { eapply (e_drop _ _ name f); [done|]. by eapply found_terminal. }
    intros [] w' Hs' Hd. eapply wp_mono; [|by apply IH]. intros w'' [l|] [Hs'' HQ]; [|done]. split; [done|].
    rewrite Hd in HQ. destruct HQ as [H1 H2 H3]. split.
    + intros m [Hm Hm']%not_elem_of_cons. rewrite H1 by done. simpl. by rewrite lookup_delete_ne.
    + exact H2.
    + intros m j (Hm & g & G1 & G2 & G3)%H3. split; [by right|]. exists g. split; [done|]. split; [|done].
      simpl in G2. by apply lookup_delete_Some in G2 as [_ ?].
  - eapply eff_bind; [by apply IH|]. intros l w' Hs' [H1 H2 H3]. apply eff_ret; [done|]. split.
    + intros m [_ Hm']%not_elem_of_cons. by apply H1.
    + exact H2.
    + intros m j [[= -> ->]|Hin]%elem_of_cons.
      * split; [by left|]. exists f. split; [|done]. by rewrite H1.
      * destruct (H3 m j Hin) as (Hm & Hg). split; [by right|done].
Qed.

Lemma choose_available q available key source j :
  choose q available = Some (key, (source, j)) → (source, j) ∈ available ∧ scheduling_key j = key.
Proof.
  unfold choose. destruct (rotate _ _) as [|k ks]; [done|].
  intros (x & Hx & [= -> <-])%fmap_Some. apply min_by_elem, elem_of_bfilter in Hx as [Hk Hin].
  split; [done|]. by apply String.eqb_eq in Hk.
Qed.

(** A job handed out was pending, and its claim is where the answer says. *)
Definition handed_from (q : t) (x : option (string * RolloutJob)) (q' : t) : Prop :=
  match x with
  | Some (name, j) => in_pending q (job_id j) ∧
      ∃ f c, running q' !! name = Some f ∧ contents f = Claimed c ∧ claim_job c = j
  | None => True
  end.

Lemma claim_eff worker lease token now mt w :
  running (disk w) !! claim_name token = None →
  wp (claim worker lease token now mt) w (eff (effect may) (disk w) (handed_from (disk w))).
Proof.
  intros Hfresh. unfold claim. destruct (lease <=? 0); [by apply eff_throw|]. apply eff_read.
  eapply eff_bind; [apply scan_eff; [done|apply names_NoDup]|]. intros available w1 H1 [F1 (F2 & F3 & F4 & F5) F6].
  apply eff_read. destruct (choose (disk w1) available) as [[key [source j]]|] eqn:Hch; [|by apply eff_ret].
  apply choose_available in Hch as [Hin _]. destruct (F6 _ _ Hin) as (_ & f & Hf & Hf0 & Hj).
  set (c := _claim_envelope j token worker now lease). cbv zeta.
  eapply eff_bind; [apply (eff_durable (effect may)); [done|by apply (e_mark _ _ source f mt c)]|].
  intros [] w2 H2 Hw2. eapply eff_bind; [apply (eff_durable (effect may)); [done|]|].
  { rewrite Hw2. apply (e_take _ _ source (File mt (Claimed c)) c); simpl; [by rewrite lookup_insert_eq|done|].
    by rewrite F2. }
  intros [] w3 H3 Hw3. eapply eff_bind; [apply (eff_durable (effect may)); [done|apply e_cursor]|].
  intros [] w4 H4 Hw4. apply eff_ret; [done|]. split.
  - exists source, f. split; [done|]. by rewrite Hj.
  - exists (File mt (Claimed c)), c. split; [|done]. rewrite Hw4. simpl. rewrite Hw3. simpl. by rewrite lookup_insert_eq.
Qed.


(** *** Claims *)

Lemma heartbeat_eff now mt name token lease w :
  wf (disk w) → wp (heartbeat now mt name token lease) w (eff (effect may) (disk w) (λ _ _, True)).
Proof.
  intros Hwf. unfold heartbeat. destruct (lease <=? 0); [by apply eff_throw|]. apply eff_read.
  destruct (running (disk w) !! name) as [f|] eqn:Hf; [|by apply eff_throw].
  destruct (wf_running _ Hwf _ _ Hf) as [c Hc]. eapply eff_read_claim; [done..|].
  destruct (String.eqb_spec (claim_token c) token); [|by apply eff_throw]. cbn [negb].
  destruct (expires_at c <? now); [by apply eff_throw|].
  eapply wp_mono; [|apply (eff_durable (effect may)); [done|by eapply e_renew]]. intros w' o [Hs _]. split; [done|by destruct o].
Qed.

Lemma release_eff mt name token msg q0 w :
  rtc (effect may) q0 (disk w) → wf (disk w) →
  (∀ f, running (disk w) !! name = Some f → has_terminal (disk w) (job_id (job_of f))) →
  wp (release_claim mt name token msg) w (eff (effect may) q0 (λ _ _, True)).
Proof.
  intros Hs Hwf Ht. unfold release_claim. apply eff_read.
  destruct (running (disk w) !! name) as [f|] eqn:Hf; [|by apply eff_ret].
  destruct (wf_running _ Hwf _ _ Hf) as [c Hc]. eapply eff_read_claim; [done..|].
  destruct (String.eqb_spec (claim_token c) token); [|by apply eff_throw].
  eapply wp_mono; [|apply (eff_durable (effect may)); [done|by eapply e_close, Ht]]. intros w' o [Hs' _].
  split; [done|by destruct o].
Qed.

(** The claim to finish, and what is checked of it. *)
Definition activates (now : time) (name : string) (r : json_object) (token : option string)
    (source : string) (q : t) (active : option Claim) : Prop :=
  match active with
  | Some c => (∃ f, running q !! name = Some f ∧ contents f = Claimed c) ∧
      (∀ tk, token = Some tk → tk = claim_token c) ∧
      (source = "worker" → now ≤ expires_at c) ∧
      (∀ id, _job_id_from_result r = Some id → id = job_id (claim_job c))
  | None => running q !! name = None ∧ is_Some (_job_id_from_result r) ∧ is_Some token
  end.

Lemma active_spec now mt name r token source w :
  wf (disk w) → wp (active_claim now mt name r token source) w (λ w' o, w' = w ∧
    ∀ a, o = Ok a → activates now name r token source (disk w) a).
Proof.
  intros Hwf. unfold active_claim. apply wp_bind. unfold wp at 1. cbn [result_of after read_disk fst snd].
  destruct (running (disk w) !! name) as [f|] eqn:Hf.
  - destruct (wf_running _ Hwf _ _ Hf) as [c Hc]. eapply wp_read_claim; [done..| |done].
    apply wp_of_attempt; [|done]. intros [] Hg. apply guards_ok in Hg. rewrite !Forall_cons in Hg. simpl in Hg.
    destruct Hg as (G1 & G2 & G3 & _). split; [done|]. intros a [= <-]. split; [by exists f|]. split; [|split].
    + intros tk ->. by apply String.eqb_eq in G1.
    + intros ->. simpl in G2. destruct (Z.ltb_spec (expires_at c) now); [done|lia].
    + intros id E. rewrite E in G3. by apply String.eqb_eq in G3.
  - destruct (_job_id_from_result r) eqn:Hr; [|done]. destruct token; [|done].
    split; [done|]. intros a [= <-]. split; [done|]. by rewrite Hr.
Qed.

Lemma active_eff {B} now mt name r token source (k : option Claim → op B) q0 R w :
  rtc (effect may) q0 (disk w) → wf (disk w) →
  (∀ active, activates now name r token source (disk w) active → wp (k active) w (eff (effect may) q0 R)) →
  wp (active_claim now mt name r token source ≫= k) w (eff (effect may) q0 R).
Proof.
  intros Hs Hwf Hk. apply wp_bind. eapply wp_mono; [|by apply active_spec].
  intros w' [a|e] [-> Ha]; [by apply Hk, Ha|done].
Qed.

(** The answer of a commit: a terminal that is there. *)
Definition committed (path : bool * string) (q : t) : Prop := is_Some (bucket path.1 q !! path.2).

Lemma finish_eff now1 now2 mt name ok r token source q0 w :
  rtc (effect may) q0 (disk w) → wf (disk w) →
  wp (_finish_locked now1 now2 mt name ok r token source) w (eff (effect may) q0 (λ _ _, True)).
Proof.
  intros Hs Hwf. unfold _finish_locked. apply active_eff; [done..|]. intros active Hact. cbv zeta.
  apply eff_find; [done|]. intros [[[ok' n] e]|] Hfound.
  - apply eff_attempt; [done|]. intros [] _. eapply eff_bind; [apply release_eff; [done..|]|by intros; apply eff_ret].
    intros f Hf. apply found_terminal in Hfound. destruct active as [c|].
    + destruct Hact as [(f' & Hf' & Hc) _]. simplify_eq. unfold job_of. by rewrite Hc.
    + destruct Hact as [Hn _]. congruence.
  - destruct active as [c|]; [|by apply eff_throw]. destruct Hact as [(f & Hf & Hc) _].
    destruct Hfound as (n & Hn & H1 & H2). destruct (job_filename_spec (job_id (claim_job c)) w) as [(n' & E & Hn')|[e E]].
    2:{ apply wp_bind. unfold wp, after, result_of. by rewrite E. }
    assert (n' = n) as -> by by eapply filed_unique.
    apply wp_bind. unfold wp at 1, after, result_of. rewrite E. cbn [fst snd].
    set (x := _terminal_envelope c ok r source now2).
    assert (He : effect may (disk w) (set_bucket ok (<[n := File mt (Terminated x)]> (bucket ok (disk w))) (disk w))).
    { by eapply (e_commit _ _ name f c n ok x mt). }
    eapply eff_bind; [apply (eff_durable (effect may)); [done|exact He]|]. intros [] w' Hs' Hw'.
    eapply eff_bind; [apply release_eff; [done| |]|by intros; apply eff_ret].
    + rewrite Hw'. by eapply effect_wf.
    + intros f' Hf'. rewrite Hw', running_set_bucket in Hf'. simplify_eq.
      exists ok, n, (File mt (Terminated x)). unfold job_of. rewrite Hc. split; [done|].
      rewrite Hw', bucket_set_bucket, decide_True by done. by rewrite lookup_insert_eq.
Qed.

Lemma recover_eff stale now now1 now2 mt elapsed sidecar published name w :
  wf (disk w) →
  wp (recover_claim stale now now1 now2 mt elapsed sidecar published name) w (eff (effect may) (disk w) (λ _ _, True)).
Proof.
  intros Hwf. unfold recover_claim. apply eff_read.
  destruct (running (disk w) !! name) as [f|] eqn:Hf; [|by apply eff_ret].
  destruct (wf_running _ Hwf _ _ Hf) as [c Hc]. eapply eff_read_claim; [done..|].
  apply eff_find; [done|]. intros [[[ok n] e]|] Hfound.
  - apply found_terminal in Hfound. destruct (match e with Terminated _ => _ | _ => _ end); [|by apply eff_throw].
    eapply eff_bind; [apply (eff_durable (effect may)); [done|]|by intros; apply eff_ret].
    eapply e_close; [done|]. unfold job_of. by rewrite Hc.
  - apply eff_read. cbv zeta. destruct (_ && _); [by apply eff_ret|].
    destruct (_legacy_sidecar_result _ _) as [legacy|]; [|by apply eff_throw].
    destruct (match legacy with Some x => x | None => _ end) as [ok r].
    eapply eff_bind; [by apply finish_eff|]. intros p w' Hs' _. by apply eff_ret.
Qed.

(** *** A call, whatever becomes of its process *)

Lemma call_effects c q b :
  wf q → legal may q c → rtc (effect may) q (exec q b c) ∧
  ∀ j, j ∈ handed_by q b c → in_pending q (job_id j) ∧ in_running (exec q b c) (job_id j).
Proof.
  intros Hwf Hl.
  assert (Hno : ∀ (Hn : ∀ x, reply q b c ≠ Ok (Handed (Some x))), ∀ j, j ∈ handed_by q b c → False).
  { intros Hn j. unfold handed_by. destruct (reply q b c) as [[| [x|]| | | |]|]; try by intros ?%elem_of_nil.
    by destruct (Hn x). }
  assert (Hk : ∀ {A} (m : op A) (f : A → answer), perform c = (x ← m; mret (f x)) →
    (∀ a x, f a ≠ Handed (Some x)) → wp m (World q b) (eff (effect may) q (λ _ _, True)) →
    rtc (effect may) q (exec q b c) ∧ ∀ j, j ∈ handed_by q b c → in_pending q (job_id j) ∧
      in_running (exec q b c) (job_id j)).
  { intros A m f Hp Hf Hm. assert (H : wp (perform c) (World q b) (eff (effect may) q (λ a _, ∀ x, a ≠ Handed (Some x)))).
    { rewrite Hp. eapply eff_bind; [exact Hm|]. intros a w' Hs _. by apply eff_ret. }
    destruct H as [Hs Hr]. split; [exact Hs|]. intros j Hj. exfalso. eapply Hno; [|exact Hj].
    intros x Hx. unfold reply in Hx. rewrite Hx in Hr. by apply (Hr x). }
  destruct c as [mt j|worker lease token now mt|mt name|now mt name token lease|now1 now2 mt name ok r token
    |stale now now1 now2 mt el sc pb name].
  - by eapply Hk; [reflexivity| |apply enqueue_eff].
  - clear Hk Hno. assert (H : wp (perform (ClaimNext worker lease token now mt)) (World q b)
      (eff (effect may) q (λ a q', ∀ n j, a = Handed (Some (n, j)) → handed_from q (Some (n, j)) q'))).
    { eapply eff_bind; [by apply claim_eff|]. intros x w' Hs HQ. apply eff_ret; [done|]. by intros n j [= ->]. }
    destruct H as [Hs Hr]. split; [exact Hs|]. intros j. unfold handed_by. fold (reply q b (ClaimNext worker lease token now mt)) in Hr.
    destruct (reply q b _) as [[| [[n j']|]| | | |]|]; try by intros ?%elem_of_nil.
    intros ->%list_elem_of_singleton. destruct (Hr n j' eq_refl) as [Hp (f & c & Hf & Hc & Hj)]. split; [exact Hp|].
    exists n, f. split; [exact Hf|]. unfold job_of. by rewrite Hc, <- Hj.
  - eapply (Hk _ (get_claim_token mt name) Token); [reflexivity|done|]. unfold get_claim_token.
    destruct (running q !! name) as [f|] eqn:Hf.
    + destruct (wf_running _ Hwf _ _ Hf) as [c Hc]. eapply eff_read_claim; [done..|]. by apply eff_ret.
    + apply wp_bind. unfold wp, _read_claim, after, result_of, mbind, prog_bind, read_disk. simpl. by rewrite Hf.
  - by eapply Hk; [reflexivity| |apply heartbeat_eff].
  - by eapply Hk; [reflexivity| |apply finish_eff].
  - by eapply Hk; [reflexivity| |apply recover_eff].
Qed.

Lemma run_effects cs q : wf q → legal_run may cs q → rtc (effect may) q (run cs q).
Proof.
  revert q. induction cs as [|[c b] cs IH]; intros q Hwf; [done|]. intros [Hl Hls].
  destruct (call_effects c q b Hwf Hl) as [Hs _]. etrans; [exact Hs|]. apply IH; [by eapply rtc_wf|done].
Qed.

End calls.

(** ** Nothing is handed out twice *)

Lemma effect_exclusive q q' : wf q → effect new_job q q' → exclusive q → exclusive q'.
Proof.
  intros Hwf He Hx id Hp Hb.
  destruct He as [q j name mt Hn Hfree Hnew|q name f mt c Hf Hc|q name f Hf Ht|q name f c Hf Hc Hfr|q key
    |q name f c c' mt Hf Hc Hj Ht|q name f c target ok x mt Hf Hc Hn Hx' H1 H2|q name f Hf Ht];
    unfold in_pending, in_running in Hp, Hb; simpl in Hp, Hb.
  - destruct Hp as (n & g & [[<- <-]|[_ Hg]]%lookup_insert_Some & Hid); [|by apply (Hx id); [exists n, g|]].
    apply Hnew. rewrite elem_of_known. right. rewrite <- Hid in Hb. exact Hb.
  - apply (Hx id); [|exact Hb]. destruct Hp as (n & g & [[<- <-]|[_ Hg]]%lookup_insert_Some & Hid);
      [exists name, f|by exists n, g]. split; [done|]. rewrite <- Hid. unfold job_of at 2. simpl. by rewrite Hc.
  - apply (Hx id); [|exact Hb]. destruct Hp as (n & g & [_ Hg]%lookup_delete_Some & Hid). by exists n, g.
  - destruct Hp as (n & g & [Hne Hg]%lookup_delete_Some & Hid).
    destruct Hb as [(m & h & [[<- <-]|[_ Hh]]%lookup_insert_Some & Hid')|Ht].
    + apply Hne. eapply filed_unique; [|by apply (wf_pending _ Hwf _ _ Hg)].
      rewrite Hid, <- Hid'. by apply (wf_pending _ Hwf).
    + apply (Hx id); [by exists n, g|]. left. by exists m, h.
    + apply (Hx id); [by exists n, g|]. right. destruct Ht as (ok & m & h & Hh & Hid'). exists ok, m, h.
      by destruct ok.
  - apply (Hx id); [exact Hp|]. destruct Hb as [Hr|(ok & m & h & Hh & Hid')]; [by left|right].
    exists ok, m, h. by destruct ok.
  - apply (Hx id); [exact Hp|]. destruct Hb as [(m & h & [[<- <-]|[_ Hh]]%lookup_insert_Some & Hid')|Ht'].
    + left. exists name, f. split; [done|]. rewrite <- Hid'. unfold job_of. simpl. by rewrite Hj, Hc.
    + left. by exists m, h.
    + right. destruct Ht' as (ok & m & h & Hh & Hid'). exists ok, m, h. by destruct ok.
  - apply (Hx id); [destruct Hp as (n & g & Hg & Hid); rewrite pending_set_bucket in Hg; by exists n, g|].
    destruct Hb as [(m & h & Hh & Hid')|(ok' & m & h & Hh & Hid')].
    + left. rewrite running_set_bucket in Hh. by exists m, h.
    + rewrite bucket_set_bucket in Hh. case_decide; [|right; by exists ok', m, h]. subst.
      apply lookup_insert_Some in Hh as [[-> <-]|[_ Hh]]; [|right; by exists ok, m, h].
      left. exists name, f. split; [done|]. unfold job_of. rewrite Hc. simpl. by rewrite Hx'.
  - apply (Hx id); [exact Hp|]. destruct Hb as [(m & h & [_ Hh]%lookup_delete_Some & Hid')|Ht'].
    + left. by exists m, h.
    + right. destruct Ht' as (ok & m & h & Hh & Hid'). exists ok, m, h. by destruct ok.
Qed.

Lemma init_exclusive : exclusive init.
Proof. intros id (n & f & Hf & _). simpl in Hf. by rewrite lookup_empty in Hf. Qed.

Lemma rtc_exclusive q q' : wf q → exclusive q → rtc (effect new_job) q q' → exclusive q'.
Proof.
  intros Hwf Hx Hs. assert (wf q' ∧ exclusive q') as [_ ?]; [|done].
  eapply (rtc_invariant (effect new_job) (λ q, wf q ∧ exclusive q)); [|exact Hs|by split].
  intros a b [Ha1 Ha2] Hab. split; [by eapply effect_wf|by eapply effect_exclusive].
Qed.

Definition busy (q : t) (id : string) : Prop := in_running q id ∨ in_terminal q id.

Lemma rtc_busy q q' id : rtc (effect new_job) q q' → busy q id → busy q' id.
Proof.
  induction 1 as [|a b c Hab _ IH]; [done|]. intros Hb. apply IH. by eapply effect_busy.
Qed.

Lemma handed_once cs q :
  wf q → exclusive q → legal_run new_job cs q →
  NoDup (job_id <$> handed cs q) ∧ ∀ id, busy q id → id ∉ job_id <$> handed cs q.
Proof.
  revert q. induction cs as [|[c b] cs IH]; intros q Hwf Hx; [split; [constructor|by intros id _ ?%elem_of_nil]|].
  intros [Hl Hls]. destruct (call_effects new_job c q b Hwf Hl) as [Hs Hh].
  destruct (IH (exec q b c)) as [Hnd Hno]; [by eapply rtc_wf|by eapply rtc_exclusive|done|].
  cbn [handed]. rewrite fmap_app. assert (Hone : (length (handed_by q b c) ≤ 1)%nat).
  { unfold handed_by. destruct (reply q b c) as [[| [[]|]| | | |]|]; simpl; lia. }
  destruct (handed_by q b c) as [|j [|]]; [|clear Hone|simpl in Hone; lia].
  - split; [exact Hnd|]. intros id Hb. apply Hno. by eapply rtc_busy.
  - destruct (Hh j ltac:(by left)) as [Hp Hr]. split.
    + simpl. constructor; [|exact Hnd]. apply Hno. by left.
    + intros id Hb. simpl. intros [->|Hin]%elem_of_cons; [by apply (Hx _ Hp)|].
      apply (Hno id); [by eapply rtc_busy|exact Hin].
Qed.

Lemma rtc_terminals may q q' ok name f :
  rtc (effect may) q q' → bucket ok q !! name = Some f → bucket ok q' !! name = Some f.
Proof. induction 1 as [|a b c Hab _ IH]; [done|]. intros Hf. apply IH. by eapply effect_terminals. Qed.

Lemma rtc_known may q q' id : rtc (effect may) q q' → id ∈ known_job_ids q → id ∈ known_job_ids q'.
Proof. induction 1 as [|a b c Hab _ IH]; [done|]. intros Hf. apply IH. by eapply effect_known. Qed.

Lemma queue_run_app cs1 cs2 q : run (cs1 ++ cs2) q = run cs2 (run cs1 q).
Proof. apply foldl_app. Qed.
Lemma legal_run_mono (may may' : RolloutJob → t → Prop) cs q :
  (∀ j q, may j q → may' j q) → legal_run may cs q → legal_run may' cs q.
Proof.
  intros Hm. revert q. induction cs as [|[c b] cs IH]; intros q; [done|]. intros [Hl Hls]. split; [|by apply IH].
  destruct c; try done. by apply Hm.
Qed.
Lemma legal_run_app may cs1 cs2 q :
  legal_run may (cs1 ++ cs2) q ↔ legal_run may cs1 q ∧ legal_run may cs2 (run cs1 q).
Proof. revert q. induction cs1 as [|[c b] cs1 IH]; intros q; simpl; [tauto|]. rewrite IH. tauto. Qed.

(** ** Properties *)

(** C16: a terminal is committed once and for ever.  Take any calls of any workers and
    supervisors, in any order, each of whose processes may die between any two of its
    effects, new tokens being new.  A terminal that is there stays, byte for byte, where it
    is; and a job never has two, in the same or in different buckets. *)
Theorem terminals_are_final (before later : list (call * nat)) :
  legal_run any_job (before ++ later) init →
  let q1 := run before init in let q2 := run (before ++ later) init in
  (∀ ok name f, bucket ok q1 !! name = Some f → bucket ok q2 !! name = Some f) ∧
  (∀ ok1 ok2 name1 name2 f1 f2, bucket ok1 q2 !! name1 = Some f1 → bucket ok2 q2 !! name2 = Some f2 →
     job_id (job_of f1) = job_id (job_of f2) → ok1 = ok2 ∧ name1 = name2 ∧ f1 = f2).
Proof.
  intros Hl q1 q2. apply legal_run_app in Hl as [Hl1 Hl2].
  assert (H1 : rtc (effect any_job) init q1) by (apply run_effects; [apply queue_init_wf|done]).
  assert (Hwf1 : wf q1) by (eapply rtc_wf; [apply queue_init_wf|exact H1]).
  assert (H2 : rtc (effect any_job) q1 q2) by (unfold q2; rewrite queue_run_app; by apply run_effects).
  assert (Hwf : wf q2) by by eapply rtc_wf. split.
  - intros ok name f. by eapply rtc_terminals.
  - intros ok1 ok2 n1 n2 f1 f2 E1 E2 Hj.
    destruct (wf_bucket _ Hwf _ _ _ E1) as [F1 _], (wf_bucket _ Hwf _ _ _ E2) as [F2 _].
    rewrite Hj in F1. assert (n1 = n2) as -> by by eapply filed_unique.
    destruct (wf_once _ Hwf n2) as [Hn|Hn]; destruct ok1, ok2; simplify_eq; auto; congruence.
Qed.

(** C23: no job is lost.  In the same runs, a job that was accepted by [enqueue] or that is
    pending, claimed or ended at some point is one of these at every later point, wherever
    processes die. *)
Theorem no_job_lost (before later : list (call * nat)) (id : string) :
  legal_run any_job (before ++ later) init →
  let q := run before init in
  id ∈ known_job_ids q → id ∈ known_job_ids (run later q).
Proof.
  intros Hl q. apply legal_run_app in Hl as [Hl1 Hl2]. apply (rtc_known any_job).
  apply run_effects; [|done]. eapply rtc_wf; [apply queue_init_wf|]. apply run_effects; [apply queue_init_wf|done].
Qed.

(** C17: no job is handed out twice.  When the supervisor enqueues only jobs it does not
    know ([known_job_ids]), every job is handed to at most one worker in the whole life of
    the queue: an abandoned claim is closed, never replayed. *)
Theorem job_handed_out_once (cs : list (call * nat)) :
  legal_run new_job cs init → NoDup (job_id <$> handed cs init).
Proof. intros Hl. by apply (handed_once cs init queue_init_wf init_exclusive Hl). Qed.

(** ** Finishing *)

Lemma release_spec mt name token msg w :
  wf (disk w) → wp (release_claim mt name token msg) w (λ w' o,
    (∀ ok, bucket ok (disk w') = bucket ok (disk w)) ∧ (o = Ok tt → running (disk w') !! name = None)).
Proof.
  intros Hwf. unfold release_claim. apply wp_bind. unfold wp at 1. cbn [result_of after read_disk fst snd].
  destruct (running (disk w) !! name) as [f|] eqn:Hf; [|by split].
  destruct (wf_running _ Hwf _ _ Hf) as [c Hc]. eapply wp_read_claim; [done..| |by split].
  destruct (String.eqb (claim_token c) token); [|by split]. unfold unlink_running, durable, wp, after, result_of.
  destruct (budget w); simpl; [by split|]. split; [by intros []|]. intros _. by rewrite lookup_delete_eq.
Qed.

(** What an acknowledged finish has left. *)
Definition acknowledged (now : time) (name : string) (ok : bool) (r : json_object) (token : option string)
    (source : string) (q : t) (path : bool * string) (q' : t) : Prop :=
  running q' !! name = None ∧
  ∃ f x, bucket path.1 q' !! path.2 = Some f ∧ contents f = Terminated x ∧
    result_digest x = _result_digest ok r ∧ commit_source x = source ∧
    (∀ tk, token = Some tk → term_token x = tk) ∧
    (∀ g c, running q !! name = Some g → contents g = Claimed c → term_token x = claim_token c ∧
       (source = "worker" → now ≤ expires_at c)).

Lemma finish_acknowledged now1 now2 mt name ok r token source w :
  wf (disk w) → wp (_finish_locked now1 now2 mt name ok r token source) w (λ w' o,
    ∀ path, o = Ok path → acknowledged now1 name ok r token source (disk w) path (disk w')).
Proof.
  intros Hwf. unfold _finish_locked.
  eapply wp_then; [apply (active_spec now1 mt name r token source w Hwf)| |by intros ? ? ? [=]].
  intros w0 active [-> Hact]. specialize (Hact _ eq_refl). cbv zeta.
  eapply wp_then; [apply (find_wp (match active with Some c => job_id (claim_job c) | None => _ end) w)| |by intros ? ? ? [=]].
  intros w0 existing [-> Hfound]. specialize (Hfound _ eq_refl).
  set (tk := match active with Some c => claim_token c | None => default EmptyString token end).
  assert (Htk : ∀ t, token = Some t → t = tk).
  { intros t ->. destruct active as [c|]; [|done]. by apply Hact. }
  assert (Hcl : ∀ g c, running (disk w) !! name = Some g → contents g = Claimed c → tk = claim_token c ∧
    (source = "worker" → now1 ≤ expires_at c)).
  { intros g c Hg Hc. destruct active as [c'|]; [|destruct Hact; congruence].
    destruct Hact as ((f & Hf & Hc') & _ & Hexp & _). assert (c' = c) as -> by congruence. by split. }
  destruct existing as [[[ok' n] e]|].
  - destruct Hfound as (Hn & f & Hf & He & Hid). apply wp_of_attempt; [|by intros ? ? [=]]. intros [] Hsame.
    destruct e as [| | |x]; try done. apply guards_ok in Hsame. rewrite !Forall_cons in Hsame. simpl in Hsame.
    destruct Hsame as (S1 & S2 & S3 & S4 & _). apply String.eqb_eq in S1, S2, S3, S4.
    eapply wp_then; [apply release_spec, Hwf| |by intros ? ? ? [=]].
    intros w1 [] [Hb Hr] path [= <-]. split; [by apply Hr|]. exists f, x. rewrite Hb. cbn [fst snd].
    split; [done|]. split; [done|]. split; [done|]. split; [done|]. rewrite S2.
    split; [intros t Ht; symmetry; exact (Htk t Ht)|exact Hcl].
  - destruct active as [c|]; [|by intros ? [=]]. destruct Hact as ((f & Hf & Hc) & _ & _ & _).
    destruct Hfound as (n & Hn & H1 & H2). apply wp_bind. unfold wp at 1, after, result_of. rewrite Hn.
    cbn [fst snd]. set (x := _terminal_envelope c ok r source now2).
    set (put := λ q, set_bucket ok (<[n := File mt (Terminated x)]> (bucket ok q)) q).
    eapply (wp_then (durable put) _ _ _ (λ w' o, o = Ok tt → disk w' = put (disk w)));
      [unfold wp, durable, after, result_of; by destruct (budget w)| |by intros ? ? ? [=]].
    intros w1 [] Hw1. specialize (Hw1 eq_refl).
    eapply wp_then; [apply release_spec; rewrite Hw1| |by intros ? ? ? [=]].
    { eapply (effect_wf any_job); [|exact Hwf]. by eapply (e_commit any_job _ name f c n ok x mt). }
    intros w2 [] [Hb Hr] path [= <-]. split; [by apply Hr|]. exists (File mt (Terminated x)), x. cbn [fst snd].
    rewrite Hb, Hw1. unfold put. rewrite bucket_set_bucket, decide_True by done.
    split; [by rewrite lookup_insert_eq|]. split; [done|]. split; [done|]. split; [done|].
    split; [intros t Ht; symmetry; exact (Htk t Ht)|exact Hcl].
Qed.

(** C29: an acknowledged result is the committed one.  When [finish] returns a path, in any
    state of the queue, the terminal there carries the digest of this very result, was
    committed by a worker under this token (that of the claim, if it is still there, which
    has not expired), and the claim is gone; otherwise [finish] raises or dies.  So a
    worker whose claim was closed by a recovery, or taken by another token, is refused. *)
Theorem acknowledged_results_are_committed (cs : list (call * nat)) (b : nat) (now1 now2 mt : time)
    (name : string) (ok : bool) (r : json_object) (token : option string) (path : bool * string) :
  legal_run any_job cs init →
  let q := run cs init in let c := Finish now1 now2 mt name ok r token in
  reply q b c = Ok (Committed path) → acknowledged now1 name ok r token "worker" q path (exec q b c).
Proof.
  intros Hl q c. assert (Hwf : wf q).
  { eapply rtc_wf; [apply queue_init_wf|]. apply run_effects; [apply queue_init_wf|exact Hl]. }
  pose proof (finish_acknowledged now1 now2 mt name ok r token "worker" (World q b) Hwf) as H.
  unfold reply, exec, c, perform, finish, wp, after, result_of, mbind, prog_bind, mret, prog_ret in *.
  destruct (_finish_locked now1 now2 mt name ok r token "worker" (World q b)) as [w' [p|e]]; simpl in *; [|done].
  intros [= <-]. by apply H.
Qed.

(** *** Retrying *)

Section retry.
Context (name : string) (ok : bool) (r : json_object) (c : Claim) (target : string).
Context (Hfields : str_true (claim_token c) = true ∧ str_true (worker_id c) = true)
  (Hfiled : filed (job_id (claim_job c)) target) (Hresult : _job_id_from_result r = Some (job_id (claim_job c))).

Lemma read_claim_eq mt f q b :
  running q !! name = Some f → contents f = Claimed c → _read_claim mt name (World q b) = (World q b, Ok c).
Proof.
  intros Hf Hc. unfold _read_claim, mbind, prog_bind, read_disk. simpl. rewrite Hf, Hc.
  unfold _claim_fields. by destruct Hfields as [-> ->].
Qed.

Lemma active_there now mt f q b :
  running q !! name = Some f → contents f = Claimed c → now ≤ expires_at c →
  active_claim now mt name r (Some (claim_token c)) "worker" (World q b) = (World q b, Ok (Some c)).
Proof.
  intros Hf Hc Hn. unfold active_claim, mbind, prog_bind. cbn [read_disk disk]. rewrite Hf.
  rewrite (read_claim_eq mt f q b Hf Hc). unfold attempt, guards. rewrite Hresult, !String.eqb_refl.
  destruct (Z.ltb_spec (expires_at c) now); [lia|done].
Qed.

Lemma active_gone now mt q b :
  running q !! name = None →
  active_claim now mt name r (Some (claim_token c)) "worker" (World q b) = (World q b, Ok None).
Proof. intros Hf. unfold active_claim, mbind, prog_bind. cbn [read_disk disk]. by rewrite Hf, Hresult. Qed.

Lemma find_none q b :
  completed q !! target = None → failed q !! target = None →
  _find_terminal (job_id (claim_job c)) (World q b) = (World q b, Ok None).
Proof.
  intros H1 H2. unfold _find_terminal, mbind, prog_bind. rewrite Hfiled. unfold read_disk, _terminal_candidates.
  cbn [disk]. rewrite !bfilter_cons. cbn [bucket]. by rewrite H1, H2.
Qed.

Lemma release_there mt msg f q b :
  running q !! name = Some f → contents f = Claimed c →
  release_claim mt name (claim_token c) msg (World q b) = unlink_running name (World q b).
Proof.
  intros Hf Hc. unfold release_claim, mbind, prog_bind. cbn [read_disk disk].
  by rewrite Hf, (read_claim_eq mt f q b Hf Hc), String.eqb_refl.
Qed.

(** The disk with the terminal of this result. *)
Record published (f : file) (q : t) : Prop := {
  pub_here : bucket ok q !! target = Some f;
  pub_only : bucket (negb ok) q !! target = None;
  pub_same : ∃ x, contents f = Terminated x ∧ term_job x = claim_job c ∧ term_token x = claim_token c ∧
    commit_source x = "worker" ∧ result_digest x = _result_digest ok r ∧ result x = r;
}.

Lemma find_published f q b :
  published f q → _find_terminal (job_id (claim_job c)) (World q b) = (World q b, Ok (Some ((ok, target), contents f))).
Proof.
  intros [H1 H2 (x & Hx & Hj & _)]. unfold _find_terminal, mbind, prog_bind. rewrite Hfiled.
  unfold read_disk, _terminal_candidates. cbn [disk]. rewrite !bfilter_cons. change (bfilter _ []) with (@nil bool).
  assert (Hid : String.eqb (job_id (_job_from_envelope (contents f))) (job_id (claim_job c)) = true).
  { apply String.eqb_eq. by rewrite Hx, <- Hj. }
  destruct ok; cbn [bucket negb] in *; rewrite H1, H2; cbn; rewrite ?H1, ?Hid; done.
Qed.

(** Finishing again after the commit: the claim is dropped, if it is still there. *)
Lemma finish_again now1 now2 mt f q b :
  published f q → (∀ g, running q !! name = Some g → contents g = Claimed c) →
  (is_Some (running q !! name) → now1 ≤ expires_at c ∧ (0 < b)%nat) →
  let m := _finish_locked now1 now2 mt name ok r (Some (claim_token c)) "worker" in
  result_of m (World q b) = Ok (ok, target) ∧ published f (disk (after m (World q b))) ∧
  running (disk (after m (World q b))) !! name = None.
Proof.
  intros Hp Hg Hb m. unfold m, _finish_locked, result_of, after, mbind, prog_bind.
  pose proof (find_published f q b Hp) as Hfind. pose proof Hp as [H1 H2 (x & Hx & Hj & Ht & Hs & Hd & Hr)].
  assert (Hsame : _assert_same_terminal (contents f) (job_id (claim_job c)) (claim_token c) ok r "worker" = Ok tt).
  { rewrite Hx. simpl. by rewrite Hj, Ht, Hs, Hd, !String.eqb_refl. }
  destruct (running q !! name) as [g|] eqn:Hrun.
  - destruct Hb as [Hn Hb]; [done|]. rewrite (active_there now1 mt g q b Hrun (Hg g eq_refl) Hn). cbv zeta beta iota.
    rewrite Hfind, Hsame. unfold attempt, mret, prog_ret.
    rewrite (release_there mt _ g q b Hrun (Hg g eq_refl)). unfold unlink_running.
    destruct b; [lia|]. rewrite durable_made. cbn. split; [done|]. split; [|by rewrite lookup_delete_eq].
    split; [by destruct ok|by destruct ok|]. by exists x.
  - rewrite (active_gone now1 mt q b Hrun). cbv zeta beta iota. rewrite Hresult. cbn [default from_option id].
    rewrite Hfind, Hsame. unfold attempt, release_claim, mret, prog_ret, mbind, prog_bind. cbn [read_disk disk].
    rewrite Hrun. cbn. split; [done|]. split; [exact Hp|done].
Qed.

(** Finishing for the first time, with any budget. *)
Lemma finish_first now1 now2 mt f q b :
  running q !! name = Some f → contents f = Claimed c → now1 ≤ expires_at c →
  completed q !! target = None → failed q !! target = None →
  let m := _finish_locked now1 now2 mt name ok r (Some (claim_token c)) "worker" in
  let q' := disk (after m (World q b)) in
  (2 ≤ b → result_of m (World q b) = Ok (ok, target))%nat ∧
  (q' = q ∨ ((∃ g, published g q') ∧ (∀ g, running q' !! name = Some g → contents g = Claimed c) ∧
             (2 ≤ b → running q' !! name = None)%nat)) ∧
  (2 ≤ b → q' ≠ q)%nat.
Proof.
  intros Hf Hc Hn H1 H2 m q'. unfold q', m, _finish_locked, result_of, after, mbind, prog_bind. clear q' m.
  rewrite (active_there now1 mt f q b Hf Hc Hn). cbv zeta beta iota. rewrite (find_none q b H1 H2), Hfiled.
  set (x := _terminal_envelope c ok r "worker" now2). destruct b as [|b];
    [rewrite durable_spent; split; [lia|]; split; [by left|lia]|rewrite durable_made].
  set (q1 := set_bucket ok (<[target := File mt (Terminated x)]> (bucket ok q)) q).
  assert (Hrun : running q1 !! name = Some f) by (unfold q1; by rewrite running_set_bucket).
  rewrite (release_there mt _ f q1 b Hrun Hc). unfold unlink_running.
  assert (Hpub : ∀ q2, (∀ ok, bucket ok q2 = bucket ok q1) → published (File mt (Terminated x)) q2).
  { intros q2 Hq. split; rewrite ?Hq; unfold q1; rewrite ?bucket_set_bucket.
    - rewrite decide_True by done. by rewrite lookup_insert_eq.
    - rewrite decide_False by (by destruct ok). by destruct ok.
    - exists x. split; [done|]. done. }
  destruct b as [|b]; [rewrite durable_spent|rewrite durable_made]; cbn [fst snd disk].
  - split; [lia|]. split; [|lia]. right. split; [exists (File mt (Terminated x)); by apply Hpub|]. split; [|lia].
    intros g Hg. rewrite Hrun in Hg. by injection Hg as <-.
  - split; [done|]. split.
    + right. split; [exists (File mt (Terminated x)); apply Hpub; by intros []|].
      split; [|intros _; simpl; by rewrite lookup_delete_eq].
      intros g Hg. simpl in Hg. by rewrite lookup_delete_eq in Hg.
    + intros _ E. apply (f_equal (λ q, running q !! name)) in E. simpl in E. rewrite lookup_delete_eq in E. congruence.
Qed.

(** Finishing can be retried after a crash.  A worker whose live claim is there
    finishes, and its process dies after any number of durable effects; a retry with the
    same result, before the claim expires, succeeds: the path is the same, one terminal
    with this result is there, and the claim is gone. *)
Theorem finish_retry now1 now2 mt now1' now2' mt' f q b b' :
  running q !! name = Some f → contents f = Claimed c → now1 ≤ expires_at c → now1' ≤ expires_at c →
  completed q !! target = None → failed q !! target = None → (2 ≤ b')%nat →
  let q1 := exec q b (Finish now1 now2 mt name ok r (Some (claim_token c))) in
  let again := Finish now1' now2' mt' name ok r (Some (claim_token c)) in
  reply q1 b' again = Ok (Committed (ok, target)) ∧
  running (exec q1 b' again) !! name = None ∧ ∃ g, published g (exec q1 b' again).
Proof.
  intros Hf Hc Hn Hn' H1 H2 Hb'.
  set (m := _finish_locked now1 now2 mt name ok r (Some (claim_token c)) "worker").
  set (m' := _finish_locked now1' now2' mt' name ok r (Some (claim_token c)) "worker").
  assert (Hex : ∀ (m0 : op (bool * string)) q b, disk (after (m0 ≫= λ p, mret (Committed p)) (World q b)) = disk (after m0 (World q b))).
  { intros m0 q0 b0. unfold after, mbind, prog_bind. by destruct (m0 _) as [? []]. }
  assert (Hre : ∀ q b p, result_of m' (World q b) = Ok p →
    result_of (m' ≫= λ p, mret (Committed p)) (World q b) = Ok (Committed p)).
  { intros q0 b0 p. unfold result_of, mbind, prog_bind. destruct (m' _) as [? []]; simpl; congruence. }
  cbv zeta. unfold reply, exec, perform, finish. fold m m'. rewrite !Hex.
  destruct (finish_first now1 now2 mt f q b Hf Hc Hn H1 H2) as (_ & Hq & _). fold m in Hq.
  destruct Hq as [->|((g & Hg) & Hrun & _)].
  - pose proof (finish_first now1' now2' mt' f q b' Hf Hc Hn' H1 H2) as Hfirst. cbv zeta in Hfirst. fold m' in Hfirst.
    destruct Hfirst as (Hok & [E|(Hp & _ & Hr)] & Hneq).
    + by destruct (Hneq Hb').
    + split; [by apply Hre, Hok|]. split; [by apply Hr|exact Hp].
  - set (q1 := disk (after m (World q b))) in *.
    pose proof (finish_again now1' now2' mt' g q1 b' Hg Hrun) as Hagain. cbv zeta in Hagain. fold m' in Hagain.
    destruct Hagain as (Hok & Hp & Hr); [intros _; split; [done|lia]|]. split; [by apply Hre|]. split; [exact Hr|by exists g].
Qed.

End retry.

(** ** Fairness *)

(** Where a key stands in the order of service. *)
Fixpoint position (k : string) (l : list string) : nat :=
  match l with
  | [] => 0
  | x :: l' => if String.eqb x k then 0 else S (position k l')
  end.

Lemma position_sublist k l l' : NoDup l → k ∈ l' → l' `sublist_of` l → (position k l' ≤ position k l)%nat.
Proof.
  intros Hnd Hin Hs. induction Hs as [|x l' l Hs IH|x l' l Hs IH]; simpl; [done|..];
    apply NoDup_cons in Hnd as [Hx Hnd]; destruct (String.eqb_spec x k) as [->|Hne].
  - done.
  - apply elem_of_cons in Hin as [->|Hin]; [done|]. specialize (IH Hnd Hin). lia.
  - destruct Hx. by eapply elem_of_sublist.
  - specialize (IH Hnd Hin). lia.
Qed.

Lemma list_find_split k (a b : list string) : k ∉ a → list_find (eq k) (a ++ k :: b) = Some (length a, k).
Proof.
  intros Hn. apply list_find_Some. split; [by apply list_lookup_middle|]. split; [done|].
  intros i y Hy Hlt ->. apply Hn. rewrite lookup_app_l in Hy by done. by eapply list_elem_of_lookup_2.
Qed.

(** After a key the ones behind it, then the ones before, then itself. *)
Lemma rotate_after k a b : NoDup (a ++ k :: b) → rotate (Some k) (a ++ k :: b) = b ++ a ++ [k].
Proof.
  intros Hnd. unfold rotate. rewrite list_find_split.
  2:{ intros Hin. apply NoDup_app in Hnd as (_ & Hn & _). apply (Hn k Hin). by left. }
  replace (length (a ++ k :: b)) with (length a + 1 + length b)%nat by (rewrite length_app; simpl; lia).
  destruct b as [|x b].
  - simpl. replace ((length a + 1) mod (length a + 1 + 0))%nat with 0%nat; [by rewrite drop_0, take_0, app_nil_r|].
    rewrite Nat.add_0_r, Nat.Div0.mod_same. done.
  - rewrite Nat.mod_small by (simpl; lia).
    change (k :: x :: b) with ([k] ++ x :: b). rewrite (assoc_L (++) a [k] (x :: b)).
    replace (length a + 1)%nat with (length (a ++ [k])) by (rewrite length_app; done).
    by rewrite drop_app_length, take_app_length.
Qed.

Lemma rotate_turned last keys : ∃ a b, keys = a ++ b ∧ rotate last keys = b ++ a ∧ (keys ≠ [] → b ≠ []).
Proof.
  destruct last as [k|]; [|exists [], keys; by rewrite app_nil_r]. unfold rotate.
  destruct (list_find (eq k) keys) as [[i y]|] eqn:E; [|exists [], keys; by rewrite app_nil_r].
  set (n := ((i + 1) mod length keys)%nat). exists (take n keys), (drop n keys). rewrite take_drop.
  split; [done|]. split; [done|]. intros Hne Hd. apply (f_equal length) in Hd. rewrite length_drop in Hd. simpl in Hd.
  assert (length keys ≠ 0)%nat by (by destruct keys). pose proof (Nat.mod_upper_bound (i + 1) (length keys)). lia.
Qed.

#[global] Arguments rotate : simpl never.

(** The turn after [s] was served, if [s] is still there and no key is new. *)
Lemma rotate_next last keys keys' s rest :
  NoDup keys → rotate last keys = s :: rest → keys' `sublist_of` keys → s ∈ keys' →
  rotate (Some s) keys' `sublist_of` rest ++ [s] ∧ NoDup (rest ++ [s]).
Proof.
  intros Hnd Hrot Hsub Hs. destruct (rotate_turned last keys) as (a & b & -> & Hr & Hb).
  rewrite Hrot in Hr. destruct b as [|y b].
  - rewrite app_nil_r in Hb. simpl in Hr. subst a. by destruct Hb.
  - simplify_eq/=. assert (Hperm : NoDup ((b ++ a) ++ [y])).
    { rewrite <- (assoc_L (++)). eapply (NoDup_Permutation_proper _ (a ++ y :: b)); [|exact Hnd].
      rewrite (Permutation_app_comm b), <- (assoc_L (++)). done. }
    split; [|exact Hperm].
    apply sublist_app_r in Hsub as (a' & l & -> & Ha & Hl); clear Hb. apply sublist_cons_r in Hl as [Hl|(b' & -> & Hb)].
    + apply NoDup_app in Hnd as (_ & Hn & Hnd). apply NoDup_cons in Hnd as [Hy _]. exfalso.
      apply elem_of_app in Hs as [Hs|Hs]; [apply (Hn y); [by eapply elem_of_sublist|by left]|].
      apply Hy. by eapply elem_of_sublist.
    + rewrite rotate_after.
      * rewrite (assoc_L (++)). by repeat apply sublist_app.
      * eapply sublist_NoDup; [exact Hnd|]. apply sublist_app; [done|]. by apply sublist_skip.
Qed.

(** The jobs a claim may hand out. *)
Definition ended (q : t) (id : string) : bool :=
  let name := "job-" +:+ String.substring 0 32 (canonical_sha256 (NStr id)) +:+ ".json" in
  bool_decide (is_Some (completed q !! name)) || bool_decide (is_Some (failed q !! name)).
Definition waiting_in (q : t) (ns : list string) : list (string * RolloutJob) :=
  omap (λ name, match pending q !! name with
    | Some f => if ended q (job_id (job_of f)) then None else Some (name, job_of f)
    | None => None
    end) ns.
Definition waiting (q : t) : list (string * RolloutJob) := waiting_in q (names (pending q)).
(** The scheduling keys that have jobs, in the order of service. *)
Definition turns (q : t) : list string := rotate (last_scheduling_key q) (keys_of (waiting q)).

Lemma filed_name id name : filed id name → name = "job-" +:+ String.substring 0 32 (canonical_sha256 (NStr id)) +:+ ".json".
Proof.
  intros H. specialize (H (World init 0)). unfold _job_filename in H. destruct (str_true id); [|done].
  by injection H as <-.
Qed.

Lemma scan_waiting ns w l :
  NoDup ns → result_of (scan ns) w = Ok l → l = waiting_in (disk w) ns.
Proof.
  revert w l. induction ns as [|name ns IH]; intros w l Hnd; [by intros [= <-]|].
  apply NoDup_cons in Hnd as [Hni Hnd]. cbn [scan]. unfold waiting_in. csimpl.
  unfold result_of, mbind, prog_bind. cbn [read_disk disk].
  destruct (pending (disk w) !! name) as [f|] eqn:Hf; [|done].
  change (_job_from_envelope (contents f)) with (job_of f).
  destruct (find_terminal_spec (job_id (job_of f)) w) as [Ha Hr]. unfold after, result_of in Ha, Hr.
  destruct (_find_terminal (job_id (job_of f)) w) as [w' [x|e]]; [|done]. simpl in Ha. subst w'.
  specialize (Hr x eq_refl). destruct x as [[[ok n] e]|].
  - destruct Hr as (Hn & g & Hg & _). apply filed_name in Hn as ->.
    assert (Hend : ended (disk w) (job_id (job_of f)) = true).
    { unfold ended. destruct ok; cbn [bucket] in Hg; rewrite Hg; [done|apply orb_true_r]. }
    rewrite Hend. unfold unlink_pending, durable. destruct (budget w) as [|b]; [done|]. intros Hl.
    apply (IH _ _ Hnd) in Hl. rewrite Hl. unfold waiting_in. apply list_omap_ext, Forall_Forall2_diag, Forall_forall.
    intros m Hm. simpl. assert (m ≠ name) by (by intros ->). by rewrite lookup_delete_ne.
  - destruct Hr as (n & Hn & E1 & E2). apply filed_name in Hn as ->. cbn [bucket] in E1, E2.
    assert (Hend : ended (disk w) (job_id (job_of f)) = false) by (unfold ended; by rewrite E1, E2).
    rewrite Hend. specialize (IH w). unfold result_of in IH.
    destruct (scan ns w) as [w' [l'|e]]; [|done]. intros [= <-]. f_equal. by apply IH.
Qed.

Lemma sorted_sublist (l1 l2 : list string) :
  StronglySorted (λ x y, str_leb x y = true) l1 → StronglySorted (λ x y, str_leb x y = true) l2 →
  NoDup l1 → l1 ⊆ l2 → l1 `sublist_of` l2.
Proof.
  intros H1 H2 Hnd. revert l1 H1 Hnd. induction H2 as [|y l2 H2 IH Hy]; intros l1 H1 Hnd Hsub.
  { destruct l1 as [|x l1]; [done|]. exfalso. specialize (Hsub x). set_solver. }
  destruct H1 as [|x l1 H1 Hx]; [apply sublist_nil_l|]. apply NoDup_cons in Hnd as [Hni Hnd].
  destruct (decide (x = y)) as [->|Hne].
  - apply sublist_skip, IH; [done..|]. intros z Hz. assert (z ∈ y :: l2) by (apply Hsub; by right). set_solver.
  - apply sublist_cons, IH; [by constructor|by constructor|]. intros z Hz.
    assert (Hz' : z ∈ y :: l2) by by apply Hsub. apply elem_of_cons in Hz' as [->|]; [|done]. exfalso.
    apply elem_of_cons in Hz as [->|Hz]; [done|]. apply Hne, str_leb_antisymm.
    + by apply (proj1 (Forall_forall _ _) Hx).
    + apply (proj1 (Forall_forall _ _) Hy). assert (x ∈ y :: l2) by (apply Hsub; by left). set_solver.
Qed.

Lemma keys_of_sublist l l' : keys_of l' ⊆ keys_of l → keys_of l' `sublist_of` keys_of l.
Proof.
  intros Hsub. apply sorted_sublist; [apply sort_by_sorted; exact _|apply sort_by_sorted; exact _| |done].
  unfold keys_of. rewrite (sort_by_perm str_leb). apply NoDup_remove_dups.
Qed.

Lemma keys_of_NoDup l : NoDup (keys_of l).
Proof. unfold keys_of. rewrite (sort_by_perm str_leb). apply NoDup_remove_dups. Qed.

(** A claim serves the key whose turn it is. *)
Lemma claim_serves worker lease token now mt w name j :
  result_of (claim worker lease token now mt) w = Ok (Some (name, j)) →
  (∃ rest, turns (disk w) = scheduling_key j :: rest) ∧
  last_scheduling_key (disk (after (claim worker lease token now mt) w)) = Some (scheduling_key j).
Proof.
  unfold claim, result_of, after. destruct (lease <=? 0); [done|]. unfold mbind, prog_bind. cbn [read_disk disk].
  pose proof (scan_eff any_job (names (pending (disk w))) (disk w) w (rtc_refl _ _) (names_NoDup _)) as Hscan.
  pose proof (scan_waiting (names (pending (disk w))) w) as Hwait. unfold wp, eff, after, result_of in Hscan, Hwait.
  destruct (scan _ w) as [w1 [l|e]]; [|done]. destruct Hscan as [_ [_ (_ & _ & _ & Hlast) _]].
  specialize (Hwait l (names_NoDup _) eq_refl). cbn [fst snd read_disk disk] in *.
  destruct (choose (disk w1) l) as [[key [source j']]|] eqn:Hch; [|done].
  pose proof (choose_available _ _ _ _ _ Hch) as [_ Hkey].
  unfold durable. destruct (budget w1) as [|[|[|b]]]; try done. cbn. intros [= <- <-]. rewrite Hkey. split; [|done].
  unfold choose in Hch. unfold turns, waiting. rewrite <- Hwait, <- Hlast.
  destruct (rotate _ _) as [|k ks]; [done|]. apply fmap_Some in Hch as (x & _ & [= -> _]). by exists ks.
Qed.

(** Keys take turns.  A claim serves the first key in turn; and as long as the key just
    served still has jobs and no key is new, every other key has moved forward when the
    next claim comes: with [n] keys a job waits for at most [n] claims. *)
Theorem keys_take_turns (q : t) (b : nat) (worker : string) (lease : time) (token : string)
    (now mt : time) (name : string) (j : RolloutJob) (q2 : t) (k : string) :
  let c := ClaimNext worker lease token now mt in
  reply q b c = Ok (Handed (Some (name, j))) →
  head (turns q) = Some (scheduling_key j) ∧
  last_scheduling_key (exec q b c) = Some (scheduling_key j) ∧
  (last_scheduling_key q2 = Some (scheduling_key j) → scheduling_key j ∈ keys_of (waiting q2) →
   keys_of (waiting q2) ⊆ keys_of (waiting q) → k ∈ keys_of (waiting q2) → k ≠ scheduling_key j →
   (position k (turns q2) < position k (turns q))%nat).
Proof.
  intros c Hc. assert (Hcl : result_of (claim worker lease token now mt) (World q b) = Ok (Some (name, j)) ∧
    exec q b c = disk (after (claim worker lease token now mt) (World q b))).
  { unfold reply, exec, c, perform, result_of, after, mbind, prog_bind in *.
    destruct (claim _ _ _ _ _ _) as [w [x|]]; [|done]. simpl in *. by injection Hc as ->. }
  destruct Hcl as [Hr ->]. destruct (claim_serves _ _ _ _ _ _ _ _ Hr) as [[rest Ht] Hl]. cbn [disk] in Ht.
  split; [by rewrite Ht|]. split; [exact Hl|]. intros Hl2 Hs Hsub Hk Hne.
  destruct (rotate_next (last_scheduling_key q) _ (keys_of (waiting q2)) _ _ (keys_of_NoDup _) Ht) as [Hrot Hnd];
    [by apply keys_of_sublist|done|].
  assert (Hin : k ∈ turns q2).
  { unfold turns. destruct (rotate_turned (last_scheduling_key q2) (keys_of (waiting q2))) as (x & y & E & -> & _).
    rewrite E in Hk. set_solver. }
  rewrite Ht. simpl. destruct (String.eqb_spec (scheduling_key j) k); [congruence|].
  assert (Hp : (position k (turns q2) ≤ position k (rest ++ [scheduling_key j]))%nat).
  { apply position_sublist; [done|done|]. unfold turns. by rewrite Hl2. }
  assert (Hq : (position k (rest ++ [scheduling_key j]) ≤ position k rest)%nat); [|lia].
  assert (Hkr : k ∈ rest).
  { assert (H : k ∈ rest ++ [scheduling_key j]); [|set_solver]. eapply elem_of_sublist; [exact Hin|].
    unfold turns. by rewrite Hl2. }
  clear -Hkr. induction rest as [|x rest IH]; [by apply elem_of_nil in Hkr|]. simpl.
  destruct (String.eqb_spec x k); [done|]. assert (k ∈ rest) by set_solver. specialize (IH H). lia.
Qed.

(** ** Assigning jobs to hosts: [round_robin_assign] *)

(** One pass over the tasks: the first job of each, and what is left. *)
Definition heads (qs : list (list RolloutJob)) : list RolloutJob := omap head qs.
Definition tails (qs : list (list RolloutJob)) : list (list RolloutJob) := tail <$> qs.

(** The [while] loop; each pass takes a job of every task that has one. *)
Fixpoint interleave (fuel : nat) (qs : list (list RolloutJob)) : list RolloutJob :=
  match fuel with
  | O => []
  | S n => match heads qs with [] => [] | hs => hs ++ interleave n (tails qs) end
  end.

Definition round_robin_assign (jobs_by_task : pydict string (list RolloutJob)) (hosts : list string) :
    outcome queue_error (list (string * RolloutJob)) :=
  match hosts with
  | [] => Raise (ValueError "at least one worker host is required")
  | h :: _ =>
      let qs := (sort_by (on_key str_leb fst) (items jobs_by_task)).*2 in
      let jobs := interleave (length (concat qs)) qs in
      Ok (imap (λ i j, (nth (i mod length hosts) hosts h, j)) jobs)
  end.

Lemma heads_tails qs : heads qs ++ concat (tails qs) ≡ₚ concat qs.
Proof.
  induction qs as [|[|j js] qs IH]; [done|exact IH|]. unfold heads, tails in *. csimpl. simpl.
  constructor. rewrite <- IH, !(assoc_L (++)). by rewrite (Permutation_app_comm (omap head qs)).
Qed.

Lemma interleave_perm fuel qs : (length (concat qs) ≤ fuel)%nat → interleave fuel qs ≡ₚ concat qs.
Proof.
  revert qs. induction fuel as [|n IH]; intros qs Hf.
  - assert (concat qs = []) as -> by (apply nil_length_inv; lia). done.
  - pose proof (heads_tails qs) as Hp. simpl. destruct (heads qs) as [|h hs] eqn:Hh.
    + clear IH. assert (concat qs = []) as ->; [|done]. clear Hf Hp.
      induction qs as [|[|j js] qs IHq]; [done|by apply IHq|done].
    + etrans; [|exact Hp]. rewrite IH; [done|].
      apply Permutation_length in Hp. rewrite length_app in Hp. simpl in Hp. lia.
Qed.

(** The loop ends, every job is assigned exactly once, and the assignments go round the
    hosts. *)
Theorem round_robin_assigns_all (jobs_by_task : pydict string (list RolloutJob)) (h : string) (hosts : list string) :
  ∃ assignments, round_robin_assign jobs_by_task (h :: hosts) = Ok assignments ∧
    assignments.*2 ≡ₚ concat (values jobs_by_task) ∧
    ∀ i x, assignments !! i = Some x → x.1 = nth (i mod S (length hosts)) (h :: hosts) h.
Proof.
  eexists. split; [reflexivity|]. split.
  - rewrite fmap_imap.
    assert (Hid : ∀ l : list RolloutJob, imap (λ _ j, j) l = l) by (intros l; by rewrite (imap_const id), list_fmap_id).
    etrans; [apply reflexive_eq, Hid|]. rewrite interleave_perm by done.
    assert (Hp : (sort_by (on_key str_leb fst) (items jobs_by_task)).*2 ≡ₚ values jobs_by_task)
      by (by rewrite (sort_by_perm (on_key str_leb fst))).
    generalize Hp. generalize ((sort_by (on_key str_leb fst) (items jobs_by_task)).*2) (values jobs_by_task).
    intros l1 l2. induction 1; simpl; [done| | |by etrans].
    + by f_equiv.
    + rewrite !(assoc_L (++)). by rewrite (Permutation_app_comm y).
  - intros i x. rewrite list_lookup_imap. intros (j & _ & ->)%fmap_Some. done.
Qed.

(** ** Runs *)

Definition demo_job (id task : string) : RolloutJob := {|
  job_id := id; campaign_root := "c"; logical_id := id; attempt_index := 0; task := task; seed := 1;
  policy_rng := 1; bundle_sha256 := None; command := ["run"]; output_dir := "o"; result_file := "r";
  heartbeat_file := "h"; timeout_s := 2700; no_progress_timeout_s := 180; requires_api := false;
  requires_environment_slot := false |}.

Definition demo_result (id : string) : json_object := [("job_id", NStr id); ("success", NBool true)].

(** Two jobs; a worker claims the first and dies between commit and cleanup; it retries. *)
Definition demo_calls : list (call * nat) := [
  (Enqueue 1 (demo_job "j1" "a"), 1%nat); (Enqueue 2 (demo_job "j2" "b"), 1%nat);
  (ClaimNext "w" (seconds 60) "t1" 3 3, 3%nat);
  (Finish 4 4 4 (claim_name "t1") true (demo_result "j1") (Some "t1"), 1%nat)].
Definition demo_later : list (call * nat) := [
  (Finish 5 5 5 (claim_name "t1") true (demo_result "j1") (Some "t1"), 9%nat);
  (ClaimNext "w" (seconds 60) "t2" 6 6, 2%nat);
  (Recover 0 (seconds 100) (seconds 100) (seconds 100) (seconds 100) (NInt 100) None None (claim_name "t2"), 9%nat)].

Lemma demo_new : legal_run new_job (demo_calls ++ demo_later) init.
Proof. vm_compute; repeat split; intros H; repeat (apply elem_of_cons in H as [H|H]; [done|]); by apply elem_of_nil in H. Qed.
Lemma demo_legal : legal_run any_job (demo_calls ++ demo_later) init.
Proof. by eapply legal_run_mono, demo_new. Qed.

Lemma terminals_are_final_witness :
  let q1 := run demo_calls init in let q2 := run (demo_calls ++ demo_later) init in
  (size (completed q1), size (failed q1), size (running q1)) = (1, 0, 1)%nat ∧
  (size (completed q2), size (failed q2), size (running q2)) = (1, 1, 0)%nat ∧
  ∀ ok name f, bucket ok q1 !! name = Some f → bucket ok q2 !! name = Some f.
Proof.
  split; [vm_compute; reflexivity|]. split; [vm_compute; reflexivity|].
  apply (terminals_are_final demo_calls demo_later). apply demo_legal.
Defined.

Lemma no_job_lost_witness :
  "j2" ∈ known_job_ids (run demo_calls init) ∧ "j2" ∈ known_job_ids (run demo_later (run demo_calls init)).
Proof.
  assert (H : "j2" ∈ known_job_ids (run demo_calls init)) by (vm_compute; set_solver).
  split; [exact H|]. apply no_job_lost; [apply demo_legal|exact H].
Defined.

Lemma job_handed_out_once_witness :
  (job_id <$> handed (demo_calls ++ demo_later) init) = ["j1"] ∧
  NoDup (job_id <$> handed (demo_calls ++ demo_later) init).
Proof. split; [vm_compute; reflexivity|]. apply job_handed_out_once, demo_new. Defined.

Lemma acknowledged_results_are_committed_witness :
  let q := run demo_calls init in
  let c := Finish 5 5 5 (claim_name "t1") true (demo_result "j1") (Some "t1") in
  ∃ path, reply q 9 c = Ok (Committed path) ∧
    acknowledged 5 (claim_name "t1") true (demo_result "j1") (Some "t1") "worker" q path (exec q 9 c).
Proof.
  eexists. assert (H : reply (run demo_calls init) 9 (Finish 5 5 5 (claim_name "t1") true (demo_result "j1") (Some "t1")) =
    Ok (Committed (true, "job-" +:+ String.substring 0 32 (canonical_sha256 (NStr "j1")) +:+ ".json"))) by (vm_compute; reflexivity).
  split; [exact H|]. apply acknowledged_results_are_committed; [|exact H].
  exact (proj1 (proj1 (legal_run_app any_job demo_calls demo_later init) demo_legal)).
Defined.

Definition demo_claim : Claim := _claim_envelope (demo_job "j1" "a") "t1" "w" 3 (seconds 60).

Lemma finish_retry_witness :
  let q := run (take 3 demo_calls) init in
  let again := Finish 5 5 5 (claim_name "t1") true (demo_result "j1") (Some "t1") in
  let q1 := exec q 1 (Finish 4 4 4 (claim_name "t1") true (demo_result "j1") (Some "t1")) in
  running (exec q1 9 again) !! claim_name "t1" = None.
Proof.
  apply (finish_retry (claim_name "t1") true (demo_result "j1") demo_claim
    ("job-" +:+ String.substring 0 32 (canonical_sha256 (NStr "j1")) +:+ ".json")
    (conj eq_refl eq_refl) (λ w, eq_refl) eq_refl 4 4 4 5 5 5 (File 3 (Claimed demo_claim))
    (run (take 3 demo_calls) init) 1 9); try (vm_compute; reflexivity); try (by vm_compute). lia.
Defined.

(** Three tasks: [a] and [z] have jobs enough, [m] gets a new one each time one was served. *)
Definition demo_many : list (call * nat) :=
  (λ x, (Enqueue (x.1).2 (demo_job (x.1).1 x.2), 1%nat)) <$>
    [("a1", 1, "a"); ("a2", 2, "a"); ("a3", 3, "a"); ("a4", 4, "a"); ("m1", 1, "m"); ("z1", 1, "z")].
Definition demo_next (n : Z) : call := ClaimNext "w" (seconds 60) ("t" +:+ pretty n) 9 9.

Definition demo_even : list (call * nat) :=
  (λ x, (Enqueue (x.1).2 (demo_job (x.1).1 x.2), 1%nat)) <$>
    [("a1", 1, "a"); ("a2", 2, "a"); ("m1", 1, "m"); ("m2", 1, "m"); ("z1", 1, "z")].

Lemma keys_take_turns_witness :
  let q := run (demo_even ++ [(demo_next 1, 3%nat)]) init in
  let q2 := exec q 3 (demo_next 2) in
  turns q = ["m:parent"; "z:parent"; "a:parent"] ∧
  (position "z:parent" (turns q2) < position "z:parent" (turns q))%nat.
Proof.
  split; [vm_compute; reflexivity|].
  apply (keys_take_turns (run (demo_even ++ [(demo_next 1, 3%nat)]) init) 3 "w" (seconds 60) ("t" +:+ pretty 2) 9 9
    (claim_name ("t" +:+ pretty 2)) (demo_job "m2" "m")); vm_compute; [reflexivity|reflexivity|set_solver..|discriminate].
Defined.

(** A key without jobs makes the cursor start over.  When the key just served has no
    job left, the next claim begins again at the smallest key.  Here [m] gets one new job
    after each of its claims, never two at a time: seven claims serve [a] and [m] in turn,
    and the job of [z], as old as any of them, is not served. *)
Theorem drained_key_restarts_the_cursor :
  let round n := [(demo_next (2 * n + 1), 3%nat); (demo_next (2 * n + 2), 3%nat);
    (Enqueue 9 (demo_job ("m" +:+ pretty (n + 2)) "m"), 1%nat)] in
  let cs := demo_many ++ [(demo_next 0, 3%nat)] ++ round 0 ++ round 1 ++ round 2 in
  legal_run new_job cs init ∧
  (scheduling_key <$> handed cs init) =
    ["a:parent"; "m:parent"; "a:parent"; "m:parent"; "a:parent"; "m:parent"; "a:parent"] ∧
  "z:parent" ∈ keys_of (waiting (run cs init)).
Proof.
  split; [|split; [vm_compute; reflexivity|vm_compute; set_solver]].
  vm_compute. repeat split; intros H; repeat (apply elem_of_cons in H as [H|H]; [done|]); by apply elem_of_nil in H.
Qed.

End SharedHostQueue.
