(* ===== verification/Rollouts.v ===== *)
(** * Rollouts of a campaign: [zetta/evolution/campaign.py], [supervisor.py]

    The rollout phase composes two components: the campaign's directory ([CampaignStore.v])
    and the queues of the worker hosts ([HostQueue.v]).  A step of the supervisor reads the
    terminals of the queues and records their episodes ([ingest_queue_results]), then
    enqueues an attempt for every episode that still needs one ([enqueue_missing_rollouts]),
    or clusters the failures when all are valid ([analyze_failures]).  The commands [run] and
    [resume] of [cli.py] enqueue without a supervisor, [run] without ingesting first.

    [t] is both directories.  A call of either component acts on its part ([on_store],
    [on_queue]) and shares the crash budget, so the supervisor may die between any two
    durable effects of a step.  Workers and other supervisors use the queues meanwhile:
    [others] is what they do before each point ([moment]) at which the step looks at a queue
    again.  [root] is the resolved directory of the campaign; [elsewhere] is what is outside
    of it; [queue_root] is only printed.  Files beside the queue's own (old sidecars) are left
    out.  In a command template a field is a plain name. *)

From Stdlib Require Import QArith Ascii.
From stdpp Require Import pretty.
From S2P Require Import Prelude Durable PyDict Sorting Sha256 Codec CanonicalJson JsonIO PyFloat HostQueue EvolutionModels CampaignModels Clustering CampaignStore EpisodeJson.

Open Scope string_scope.
Open Scope list_scope.
Open Scope Z_scope.

(** ** Text *)

(** [datetime.isoformat] of a time in UTC: the date of a day number, the fields of a time. *)
Definition civil (days : Z) : Z * Z * Z :=
  let z := days + 719468 in
  let era := z / 146097 in
  let doe := z - era * 146097 in
  let yoe := (doe - doe / 1460 + doe / 36524 - doe / 146096) / 365 in
  let doy := doe - (365 * yoe + yoe / 4 - yoe / 100) in
  let mp := (5 * doy + 2) / 153 in
  let m := if mp <? 10 then mp + 3 else mp - 9 in
  (yoe + era * 400 + (if m <=? 2 then 1 else 0), m, doy - (153 * mp + 2) / 5 + 1).
Definition pad (n : nat) (z : Z) : string := let s := pretty z in zeros (n - String.length s) +:+ s.
Definition _timestamp (now : time) : string :=
  let s := now / 1000000 in
  let us := now mod 1000000 in
  let '(year, month, day) := civil (s / 86400) in
  let t := s mod 86400 in
  pad 4 year +:+ "-" +:+ pad 2 month +:+ "-" +:+ pad 2 day +:+ "T" +:+
  pad 2 (t / 3600) +:+ ":" +:+ pad 2 (t / 60 mod 60) +:+ ":" +:+ pad 2 (t mod 60) +:+
  (if us =? 0 then EmptyString else "." +:+ pad 6 us) +:+ "+00:00".

Example timestamps :
  _timestamp 0 = "1970-01-01T00:00:00+00:00" ∧
  _timestamp 1709210096000007 = "2024-02-29T12:34:56.000007+00:00" ∧
  _timestamp 1767225599500000 = "2025-12-31T23:59:59.500000+00:00".
Proof. by vm_compute. Qed.

Inductive error :=
  | StoreError (e : campaign_error)
  | QueueError (e : queue_error)
  | OutsideModel (what : string).
Definition value_error (msg : string) : error := StoreError (evolution_error (EvolutionModels.ValueError msg)).
Definition key_error (key : string) : error := StoreError (MissingKey key).
Definition lift_store {A} (o : outcome campaign_error A) : outcome error A :=
  match o with Ok a => Ok a | Raise e => Raise (StoreError e) end.
Definition lift_queue {A} (o : outcome queue_error A) : outcome error A :=
  match o with Ok a => Ok a | Raise e => Raise (QueueError e) end.

(** [str(value)] of a JSON value that is not a container. *)
Definition py_str (v : native) : outcome error string :=
  match v with
  | NNone => Ok "None"
  | NBool b => Ok (if b then "True" else "False")
  | NInt z => Ok (pretty z)
  | NFloat r => Ok r
  | NStr s => Ok s
  | NBytes _ | NList _ | NDict _ => Raise (OutsideModel "str of a container")
  end.

(** [needle in text] *)
Definition contains (needle text : string) : bool := bool_decide (is_Some (String.index 0 needle text)).

(** [text.format_map(values)]; [field] is the name being read, if one is. *)
Fixpoint digits (s : string) : bool :=
  match s with String c s' => code_between 48 57 c && digits s' | EmptyString => true end.
Fixpoint format_map (values : list (string * string)) (field : option string) (text : string) :
    outcome error string :=
  match text, field with
  | EmptyString, None => Ok EmptyString
  | EmptyString, Some _ => Raise (value_error "expected '}' before end of string")
  | String c rest, None =>
      if Ascii.eqb c "{" then
        match rest with
        | String "{" rest' => s ← format_map values None rest'; Ok (String "{" s)
        | EmptyString => Raise (value_error "Single '{' encountered in format string")
        | _ => format_map values (Some EmptyString) rest
        end
      else if Ascii.eqb c "}" then
        match rest with
        | String "}" rest' => s ← format_map values None rest'; Ok (String "}" s)
        | _ => Raise (value_error "Single '}' encountered in format string")
        end
      else s ← format_map values None rest; Ok (String c s)
  | String c rest, Some name =>
      if Ascii.eqb c "}" then
        if digits name then Raise (value_error "Format string contains positional fields")
        else match assoc_lookup name values with
             | Some v => s ← format_map values None rest; Ok (v +:+ s)
             | None => Raise (key_error name)
             end
      else if Ascii.eqb c "{" then Raise (value_error "unexpected '{' in field name")
      else if member c [":"; "!"; "."; "["]%char then Raise (OutsideModel "format specification")
      else format_map values (Some (name +:+ String c EmptyString)) rest
  end.

Example formats :
  format_map [("seed", "7")] None "--seed={seed} {{x}}" = Ok "--seed=7 {x}" ∧
  format_map [("seed", "7")] None "{sed}" = Raise (key_error "sed") ∧
  format_map [("seed", "7")] None "a}" = Raise (value_error "Single '}' encountered in format string").
Proof. by vm_compute. Qed.

(** [_render_command] *)
Definition _render_command (template : list native) (values : list (string * string)) :
    outcome error (list string) :=
  traverse (λ part, s ← py_str part; format_map values None s) template.

Module Campaign.

(** ** The directories of a campaign and of its queues *)

Record t := Farm {
  store : CampaignStore.t;
  queues : gmap string SharedHostQueue.t;
}.

Definition set_store (s : CampaignStore.t) (d : t) : t := Farm s (queues d).
Definition set_queues (q : gmap string SharedHostQueue.t) (d : t) : t := Farm (store d) q.
Definition queue (host : string) (d : t) : SharedHostQueue.t := default SharedHostQueue.init (queues d !! host).

Definition op (A : Type) : Type := durable_op t error A.

Definition lift_stop {E A} (f : E → error) (o : outcome (stop E) A) : outcome (stop error) A :=
  match o with
  | Ok a => Ok a
  | Raise (Exn e) => Raise (Exn (f e))
  | Raise Crash => Raise Crash
  end.

(** A call of the store, of the queue of a host. *)
Definition on_store {A} (m : CampaignStore.op A) : op A := λ w,
  let '(w', o) := m (World (store (disk w)) (budget w)) in
  (World (set_store (disk w') (disk w)) (budget w'), lift_stop StoreError o).
Definition on_queue {A} (host : string) (m : SharedHostQueue.op A) : op A := λ w,
  let '(w', o) := m (World (queue host (disk w)) (budget w)) in
  (World (set_queues (<[host := disk w']> (queues (disk w))) (disk w)) (budget w'), lift_stop QueueError o).

(** What other processes do to the queues while a step is under way. *)
Inductive moment :=
  | AtEnvelope (path : bool * (string * string))
  | BeforeBuild
  | AtJob (id : string)
  | BeforeCounts.
Definition meanwhile (f : gmap string SharedHostQueue.t → gmap string SharedHostQueue.t) : op unit :=
  λ w, (World (set_queues (f (queues (disk w))) (disk w)) (budget w), Ok tt).

Definition hosts (d : t) : list string := sort_by str_leb (map_to_list (queues d)).*1.

(** [SharedHostQueue.known_job_ids], [counts] and [terminal_envelope_paths], of all hosts.
    A path is the bucket, the host and the name of the file. *)
Definition known_job_ids (d : t) : list string :=
  h ← hosts d; SharedHostQueue.known_job_ids (queue h d).

Definition add_counts (a b : Z * Z * Z * Z) : Z * Z * Z * Z :=
  let '(p, r, c, f) := a in let '(p', r', c', f') := b in (p + p', r + r', c + c', f + f').
Definition counts (d : t) : Z * Z * Z * Z :=
  foldr add_counts (0, 0, 0, 0) ((λ h, SharedHostQueue.counts (queue h d)) <$> hosts d).

Definition terminal_at (path : bool * (string * string)) (d : t) : option Terminal :=
  match SharedHostQueue.bucket path.1 (queue path.2.1 d) !! path.2.2 with
  | Some f => match contents f with Terminated x => Some x | _ => None end
  | None => None
  end.
Definition terminal_envelope_paths (d : t) : list (bool * (string * string)) :=
  ok ← [true; false];
  h ← hosts d;
  bfilter (λ path, bool_decide (is_Some (terminal_at path d)))
    ((λ n, (ok, (h, n))) <$> SharedHostQueue.names (SharedHostQueue.bucket ok (queue h d))).

Section campaign.
Context (root queue_root : string) (elsewhere : string → option native).

(** ** Ingesting results *)

Definition path_text (path : bool * (string * string)) : string :=
  queue_root +:+ "/" +:+ (if path.1 then "completed" else "failed") +:+ "/" +:+ path.2.1 +:+ "/" +:+ path.2.2.

(** [float(value)] *)
Definition to_float (v : native) : outcome error Q :=
  match v with
  | NInt z => Ok (of_int z)
  | NBool b => Ok (inject_Z (Z.b2z b))
  | NFloat r => match float_value r with Some q => Ok q | None => Raise (OutsideModel "not finite") end
  | NStr _ => Raise (OutsideModel "float of a text")
  | _ => Raise (StoreError (TypeError "float() argument must be a string or a real number"))
  end.

(** The reason of an attempt without a result. *)
Definition invalid_reason_of (w : json_object) : outcome error string :=
  if truth (obj_get "watchdog_reason" w) then py_str (obj_get "watchdog_reason" w)
  else if truth (obj_get "worker_exception" w) then py_str (obj_get "worker_exception" w)
  else code ← py_str (default (NStr "unknown") (assoc_lookup "return_code" w)); Ok ("rollout_exit_" +:+ code).

(** The record of an attempt whose worker left no result, as a dictionary. *)
Definition infra_payload (generation : Z) (path : bool * (string * string)) (x : Terminal) :
    outcome error json_object :=
  let j := term_job x in
  elapsed ← to_float (default (NFloat "0.0") (assoc_lookup "elapsed_s" (result x)));
  reason ← invalid_reason_of (result x);
  let r := {| EvolutionModels.episode_id := "infra-" +:+ job_id j;
    EvolutionModels.logical_id := HostQueue.logical_id j; EvolutionModels.generation := generation;
    EvolutionModels.seed := HostQueue.seed j; EvolutionModels.policy_rng := HostQueue.policy_rng j;
    EvolutionModels.bundle_sha256 := HostQueue.bundle_sha256 j; status := infra_invalid;
    EvolutionModels.success := None;
    started_at := _timestamp (term_acquired_at x); EvolutionModels.finished_at := _timestamp (HostQueue.finished_at x);
    elapsed_s := elapsed; artifact_index := [("worker_envelope", NStr (path_text path))];
    safety_events := []; failure_segment := None; failure_segments := []; invalid_reason := Some reason;
    EvolutionModels.attempt_index := HostQueue.attempt_index j; schema_version := 1 |} in
  lift_store (lift_evo (check_episode_record r));;
  Ok (episode_dict r).

(** The two records of one attempt that differ in timestamps only. *)
Definition same_attempt (a b : EpisodeRecord) : bool :=
  String.eqb (episode_id a) (episode_id b) &&
  String.eqb (EvolutionModels.logical_id a) (EvolutionModels.logical_id b) &&
  (generation a =? generation b) &&
  (EvolutionModels.seed a =? EvolutionModels.seed b) &&
  (EvolutionModels.policy_rng a =? EvolutionModels.policy_rng b) &&
  bool_decide (EvolutionModels.bundle_sha256 a = EvolutionModels.bundle_sha256 b) &&
  bool_decide (status a = status b) &&
  bool_decide (EvolutionModels.success a = EvolutionModels.success b) &&
  Qeq_bool (elapsed_s a) (elapsed_s b) &&
  bool_decide (invalid_reason a = invalid_reason b) &&
  (EvolutionModels.attempt_index a =? EvolutionModels.attempt_index b).

(** [existing_payload.pop(key, None)] *)
Definition without_key (key : string) (d : json_object) : json_object :=
  bfilter (λ kv, negb (String.eqb kv.1 key)) d.

(** The body of the [try]: whether the episode is new. *)
Definition record_payload (payload : json_object) : op bool :=
  r ← attempt (lift_store (episode_of_dict payload));
  d ← read_disk;
  let artifact := CampaignStore.attempt_path r in
  if bool_decide (is_Some (CampaignStore.files (store d) !! artifact)) && bool_decide (status r = infra_invalid)
  then
    stored ← on_store (CampaignStore.read_object artifact);
    existing ← attempt (lift_store (episode_of_dict (without_key "attempt_id" stored)));
    if same_attempt existing r then mret false
    else on_store (CampaignStore.record_episode r)
  else on_store (CampaignStore.record_episode r).

(** The message of a [ValueError]. *)
Definition value_error_message (e : error) : option string :=
  match e with
  | StoreError (evolution_error (EvolutionModels.ValueError msg)) => Some msg
  | StoreError (ledger_error (Codec.ValueError msg)) => Some msg
  | StoreError (ValueErrorOf msg _) => Some msg
  | QueueError (HostQueue.ValueError msg) => Some msg
  | _ => None
  end.

(** What the [except] clause lets pass. *)
Definition swallowed (e : error) : bool :=
  match value_error_message e with
  | Some msg => negb (contains "immutable artifact already differs" msg) && negb (contains "duplicate ledger key" msg)
  | None => false
  end.
Definition tolerate (m : op bool) : op bool := λ w,
  match m w with
  | (w', Raise (Exn e)) => if swallowed e then (w', Ok false) else (w', Raise (Exn e))
  | x => x
  end.

(** One terminal: whether an episode was accepted from it. *)
Definition ingest_envelope (path : bool * (string * string)) : op bool :=
  d ← read_disk;
  match terminal_at path d with
  | None => throw (QueueError (HostQueue.FileNotFoundError path.2.2))
  | Some x =>
      if negb (String.eqb (campaign_root (term_job x)) root) then mret false
      else
        payload ← match obj_get "result" (result x) with
                  | NDict p => mret p
                  | _ => m ← on_store CampaignStore.manifest;
                         attempt (infra_payload (CampaignManifest.generation m) path x)
                  end;
        tolerate (record_payload payload)
  end.

Definition environment : Type := moment → gmap string SharedHostQueue.t → gmap string SharedHostQueue.t.

Fixpoint ingest_all (others : environment) (paths : list (bool * (string * string))) (accepted : Z) : op Z :=
  match paths with
  | [] => mret accepted
  | path :: paths' =>
      meanwhile (others (AtEnvelope path)) ≫= λ _,
      new ← ingest_envelope path;
      ingest_all others paths' (accepted + Z.b2z new)
  end.

(** [ingest_queue_results]: the accepted episodes and the infra-invalid attempts there are. *)
Definition ingest_queue_results (others : environment) : op (Z * Z) :=
  d ← read_disk;
  accepted ← ingest_all others (terminal_envelope_paths d) 0;
  d ← read_disk;
  mret (accepted, count (λ row, bool_decide (obj_get "status" row = NStr "infra_invalid"))
                    (CampaignStore.records CampaignStore.attempts (store d))).

(** ** Building jobs *)

(** A file, by its absolute path. *)
Fixpoint strip_prefix (prefix s : string) : option string :=
  match prefix, s with
  | EmptyString, _ => Some s
  | String a prefix', String b s' => if Ascii.eqb a b then strip_prefix prefix' s' else None
  | String _ _, EmptyString => None
  end.
Definition read_at (d : CampaignStore.t) (path : string) : option native :=
  match strip_prefix (root +:+ "/") path with
  | Some rel => CampaignStore.files d !! rel
  | None => elsewhere path
  end.
Definition absolute (path : string) : string :=
  match path with String "/" _ => path | _ => root +:+ "/" +:+ path end.

(** [(root / "bundles").glob("*.json")] *)
Definition ends_with (suffix s : string) : bool :=
  let n := String.length s in let k := String.length suffix in
  (k <=? n)%nat && String.eqb (String.substring (n - k) k s) suffix.
Definition in_bundles (path : string) : bool :=
  match CampaignStore.components path with ["bundles"; name] => ends_with ".json" name | _ => false end.

(** [resolve_bundle_file], of the manifest and the directory it is read from. *)
Definition configured_bundle (m : CampaignManifest.t) (sha : string) : outcome error (list string) :=
  match obj_get "bundle_files_by_sha" (CampaignManifest.runtime m) with
  | NDict files =>
      match assoc_lookup sha files with
      | Some v => p ← py_str v; Ok [absolute p]
      | None => Ok []
      end
  | _ => Ok []
  end.
Definition holds_bundle (d : CampaignStore.t) (sha path : string) : bool :=
  match read_at d path with Some v => String.eqb (canonical_sha256 v) sha | None => false end.
Definition resolve_bundle_file (m : CampaignManifest.t) (d : CampaignStore.t) (sha : option string) :
    outcome error string :=
  match sha with
  | None => Ok "none"
  | Some sha =>
      configured ← configured_bundle m sha;
      let bundles := sort_by str_leb (bfilter in_bundles (map_to_list (CampaignStore.files d)).*1) in
      let candidates := configured ++ [absolute (CampaignStore.bundle_path sha)] ++ (absolute <$> bundles) in
      match list_find (λ p, holds_bundle d sha p = true) candidates with
      | Some (_, p) => Ok p
      | None => Raise (value_error ("frozen bundle artifact is missing: " +:+ sha))
      end
  end.

Definition rollout_id (m : CampaignManifest.t) (index : nat) : string :=
  "g" +:+ pad4 (CampaignManifest.generation m) +:+ "-rollout-" +:+ pad3 (Z.of_nat index).
Definition rollout_job_id (m : CampaignManifest.t) (logical_id : string) (attempt : Z) : string :=
  "job-" +:+ String.substring 0 24
    (canonical_sha256 (NList [NStr (CampaignManifest.sha256 m); NStr logical_id; NInt attempt])).

(** What the command template may name. *)
Definition template_values (m : CampaignManifest.t) (bundle : option string) (bundle_file logical_id : string)
    (attempt seed rng : Z) (output_dir : string) : list (string * string) := [
  ("campaign_root", root); ("logical_id", logical_id); ("attempt_index", pretty attempt);
  ("seed", pretty seed); ("policy_rng", pretty rng);
  ("bundle_sha256", str_or (default EmptyString bundle) "none");
  ("baseline_mode", if str_true (default EmptyString bundle) then "active_bundle" else "strict_pure_vla");
  ("bundle_file", bundle_file); ("bundle", bundle_file);
  ("generation", pretty (CampaignManifest.generation m)); ("output_dir", output_dir);
  ("result_file", output_dir +:+ "/episode_record.json");
  ("heartbeat_file", output_dir +:+ "/heartbeat.jsonl"); ("task", CampaignManifest.task m);
  ("environment", CampaignManifest.environment m); ("env_endpoint", "__ZETTA_ENV_ENDPOINT__")].

(** The job of an attempt. *)
Definition rollout_job (m : CampaignManifest.t) (template : list native) (bundle : option string)
    (bundle_file logical_id : string) (attempt seed : Z) : outcome error RolloutJob :=
  let output_dir := root +:+ "/attempts/" +:+ logical_id +:+ "/attempt-" +:+ pad3 attempt in
  match assoc_lookup (pretty seed) (CampaignManifest.policy_rng_by_seed m) with
  | None => Raise (key_error (pretty seed))
  | Some rng =>
      command ← _render_command template (template_values m bundle bundle_file logical_id attempt seed rng output_dir);
      Ok {| job_id := rollout_job_id m logical_id attempt; campaign_root := root;
        HostQueue.logical_id := logical_id; HostQueue.attempt_index := attempt;
        task := CampaignManifest.task m; HostQueue.seed := seed; HostQueue.policy_rng := rng;
        HostQueue.bundle_sha256 := bundle; command := command; output_dir := output_dir;
        result_file := output_dir +:+ "/episode_record.json";
        heartbeat_file := output_dir +:+ "/heartbeat.jsonl";
        timeout_s := CampaignManifest.episode_timeout_s m;
        no_progress_timeout_s := CampaignManifest.no_progress_timeout_s m;
        requires_api := truth (obj_get "rollout_requires_api" (CampaignManifest.runtime m));
        requires_environment_slot := truth (obj_get "rollout_requires_environment_slot" (CampaignManifest.runtime m)) |}
  end.

(** The attempts the ledger holds of an episode, and whether it is completed. *)
Definition is_of (logical_id : string) (row : json_object) : bool :=
  bool_decide (obj_get "logical_id" row = NStr logical_id).
Definition attempts_of (logical_id : string) (d : CampaignStore.t) : Z :=
  count (is_of logical_id) (CampaignStore.records CampaignStore.attempts d).
Definition completed (logical_id : string) (d : CampaignStore.t) : bool :=
  existsb (is_of logical_id) (CampaignStore.records CampaignStore.episodes d).

(** The loop over the seeds: the jobs to enqueue and the episodes that are blocked. *)
Fixpoint missing_jobs (m : CampaignManifest.t) (template : list native) (bundle : option string)
    (bundle_file : string) (d : CampaignStore.t) (existing : list string) (index : nat) (seeds : list Z) :
    outcome error (list RolloutJob * list string) :=
  match seeds with
  | [] => Ok ([], [])
  | seed :: seeds' =>
      let logical_id := rollout_id m index in
      let rest := missing_jobs m template bundle bundle_file d existing (S index) seeds' in
      if completed logical_id d then rest
      else
        let attempt := attempts_of logical_id d in
        if CampaignManifest.max_infrastructure_attempts m <=? attempt
        then r ← rest; Ok (r.1, logical_id :: r.2)
        else if member (rollout_job_id m logical_id attempt) existing then rest
        else
          j ← rollout_job m template bundle bundle_file logical_id attempt seed;
          r ← rest; Ok (j :: r.1, r.2)
  end.

Definition bundle_of (v : native) : outcome error (option string) :=
  match v with
  | NNone => Ok None
  | NStr s => Ok (Some s)
  | _ => Raise (StoreError (TypeError "unexpected JSON type"))
  end.

(** A command must name the bundle it runs with. *)
Definition consumes_bundle (template : list native) (bundle : option string) : outcome error unit :=
  match bundle with
  | None => Ok tt
  | Some _ =>
      texts ← traverse py_str template;
      ensure (existsb (contains "{bundle_file}") texts || existsb (contains "{bundle}") texts)
        (value_error "rollout command must consume the frozen bundle artifact")
  end.

(** [build_rollout_jobs] *)
Definition build_rollout_jobs (worker_hosts : list string) : op (list (string * RolloutJob) * list string) :=
  m ← on_store CampaignStore.manifest;
  template ← match obj_get "rollout_command" (CampaignManifest.runtime m) with
             | NList (part :: parts) => mret (part :: parts)
             | _ => throw (value_error "manifest.runtime.rollout_command must be a non-empty array")
             end;
  s ← on_store CampaignStore.state;
  bundle ← attempt (bundle_of (obj_get "current_bundle_sha256" s));
  d ← read_disk;
  bundle_file ← attempt (resolve_bundle_file m (store d) bundle);
  attempt (consumes_bundle template bundle) ≫= λ _,
  jobs ← attempt (missing_jobs m template bundle bundle_file (store d) (known_job_ids d) 0
                    (CampaignManifest.rollout_seeds m));
  assignments ← attempt (lift_queue (SharedHostQueue.round_robin_assign (<[CampaignManifest.task m := jobs.1]> ∅) worker_hosts));
  mret (assignments, sort_by str_leb jobs.2).

(** ** Enqueueing *)

Record enqueue_report := {
  enqueued : Z;
  blocked : list string;
  by_host : list (string * Z);
  queue_counts : Z * Z * Z * Z;
}.

Fixpoint enqueue_all (others : environment) (mt : string → time) (assignments : list (string * RolloutJob)) :
    op unit :=
  match assignments with
  | [] => mret tt
  | (host, j) :: rest =>
      meanwhile (others (AtJob (job_id j))) ≫= λ _,
      on_queue host (SharedHostQueue.enqueue (mt (job_id j)) j) ≫= λ _,
      enqueue_all others mt rest
  end.

Definition require_rollout_phase : op unit :=
  s ← on_store CampaignStore.state;
  phase ← attempt (lift_store (phase_of s));
  if bool_decide (phase = ROLLOUT) then mret tt
  else throw (value_error "rollouts can only be enqueued during rollout phase").

(** [enqueue_missing_rollouts] *)
Definition enqueue_missing_rollouts (others : environment) (mt : string → time) (worker_hosts : list string) :
    op enqueue_report :=
  require_rollout_phase ≫= λ _,
  meanwhile (others BeforeBuild) ≫= λ _,
  plan ← build_rollout_jobs worker_hosts;
  enqueue_all others mt plan.1 ≫= λ _,
  meanwhile (others BeforeCounts) ≫= λ _,
  d ← read_disk;
  mret {| enqueued := zlen plan.1; blocked := plan.2;
    by_host := (λ h, (h, count (λ x, String.eqb x.1 h) plan.1)) <$> sort_by str_leb (remove_dups worker_hosts);
    queue_counts := counts d |}.

(** ** Analysing failures *)

Definition read_episodes (rows : AppendOnlyLedger.t) : outcome error (list EpisodeRecord) :=
  lift_store (traverse episode_of_dict rows).

Definition failed_with_segments (r : EpisodeRecord) : bool :=
  negb (bool_decide (EvolutionModels.success r = Some true)) && negb (bool_decide (all_failure_segments r = [])).

Definition failure_report (m : CampaignManifest.t) (valid : list EpisodeRecord)
    (failed : list EpisodeRecord) (segments : list FailureSegment) (clusters : list FailureCluster.t) :
    json_object := [
  ("schema_version", NInt 1); ("campaign_id", NStr (CampaignManifest.campaign_id m));
  ("manifest_sha256", NStr (CampaignManifest.sha256 m)); ("valid_episodes", NInt (zlen valid));
  ("successes", NInt (count (λ r, bool_decide (EvolutionModels.success r = Some true)) valid));
  ("failures_with_segments", NInt (zlen failed)); ("failure_segments", NInt (zlen segments));
  ("clusters", NList ((λ c, NDict (FailureCluster.as_dict c)) <$> clusters));
  ("dominant_cluster_id", match clusters with c :: _ => NStr (FailureCluster.cluster_id c) | [] => NNone end)].

(** [analyze_failures] *)
Definition analyze_failures (now : string) : op json_object :=
  m ← on_store CampaignStore.manifest;
  d ← read_disk;
  records ← attempt (read_episodes (CampaignStore.records CampaignStore.episodes (store d)));
  let valid := bfilter is_valid records in
  (if zlen valid =? CampaignManifest.expected_rollouts m then mret tt
   else throw (value_error ("analysis requires " +:+ pretty (CampaignManifest.expected_rollouts m) +:+
     " valid episodes; got " +:+ pretty (zlen valid)))) ≫= λ _,
  let failed := bfilter failed_with_segments valid in
  let segments := r ← failed; all_failure_segments r in
  clusters ← attempt (lift_store (lift_evo (cluster_failure_segments segments (literal (72 # 100)) 3)));
  let report := failure_report m valid failed segments clusters in
  on_store (CampaignStore.atomic_write_json "analysis/failure_clusters.json" (NDict report) false) ≫= λ _,
  s ← on_store CampaignStore.state;
  phase ← attempt (lift_store (phase_of s));
  (if bool_decide (phase = ROLLOUT) then on_store (CampaignStore.transition CLUSTER [] now ≫= λ _, mret tt)
   else mret tt) ≫= λ _,
  mret report.

(** ** The rollout branch of [EvolutionSupervisor.step] *)

Inductive action :=
  | Clustered (report : json_object)
  | BlockedOnInfrastructure (ingestion : Z * Z) (report : enqueue_report)
  | WaitingForRollouts (ingestion : Z * Z) (report : enqueue_report)
  | OtherPhase.

Definition in_flight (report : enqueue_report) : Z :=
  let '(pending, running, _, _) := queue_counts report in pending + running.

Definition step (others : environment) (mt : string → time) (worker_hosts : list string) (now : string) : op action :=
  s ← on_store CampaignStore.state;
  phase ← attempt (lift_store (phase_of s));
  if negb (bool_decide (phase = ROLLOUT)) then mret OtherPhase
  else
    ingestion ← ingest_queue_results others;
    status ← on_store CampaignStore.status_report;
    m ← on_store CampaignStore.manifest;
    if CampaignStore.valid_episodes status =? CampaignManifest.expected_rollouts m then
      report ← analyze_failures now; mret (Clustered report)
    else
      report ← enqueue_missing_rollouts others mt worker_hosts;
      if negb (bool_decide (blocked report = [])) && (enqueued report =? 0) && (in_flight report =? 0)
      then mret (BlockedOnInfrastructure ingestion report)
      else mret (WaitingForRollouts ingestion report).

(** ** The commands [run] and [resume] of [cli.main] *)

(** [run], of the manifest it is given and the workers it names. *)
Definition run_command (m : CampaignManifest.t) (now : string) (others : environment) (mt : string → time)
    (worker_hosts : list string) : op enqueue_report :=
  on_store (CampaignStore.initialize m now) ≫= λ _,
  enqueue_missing_rollouts others mt worker_hosts.

(** [resume]: the ingestion and what was enqueued. *)
Definition resume_command (others : environment) (mt : string → time) (worker_hosts : list string) :
    op ((Z * Z) * enqueue_report) :=
  ingestion ← ingest_queue_results others;
  report ← enqueue_missing_rollouts others mt worker_hosts;
  mret (ingestion, report).

End campaign.
End Campaign.
