(* ===== verification/RolloutRuns.v ===== *)
(** * Runs of the rollout phase

    Theorems about every run of [Rollouts.v]: supervisors that take steps and commands, all of
    which may die, workers and other campaigns that use the queues at any time, also in the
    middle of a step.  The invariant ([Inv]) says how the ledger of attempts and the queues correspond:
    the attempts of an episode are enqueued one after the other. *)

From Stdlib Require Import QArith Ascii.
From stdpp Require Import pretty.
From S2P Require Import Prelude Durable PyDict Sorting Sha256 Codec CanonicalJson JsonIO PyFloat HostQueue EvolutionModels CampaignModels Clustering CampaignStore EpisodeJson Rollouts.

Open Scope string_scope.
Open Scope list_scope.
Open Scope Z_scope.

(** ** Identifiers *)

(** The number a text of digits is. *)
Fixpoint decimal (acc : Z) (s : string) : Z :=
  match s with
  | String c s' => decimal (acc * 10 + (Z.of_nat (nat_of_ascii c) - 48)) s'
  | EmptyString => acc
  end.

Lemma digit_char x : (x < 10)%N → code_between 48 57 (pretty_N_char x) = true ∧
  Z.of_nat (nat_of_ascii (pretty_N_char x)) - 48 = Z.of_N x.
Proof.
  intros Hx. assert (x ∈ ([0; 1; 2; 3; 4; 5; 6; 7; 8; 9]%N)) as H.
  { rewrite !elem_of_cons. lia. }
  rewrite !elem_of_cons, elem_of_nil in H. by repeat destruct H as [->|H].
Qed.

Lemma pretty_go x s : decimal 0 (pretty_N_go x s) = decimal (Z.of_N x) s ∧ digits (pretty_N_go x s) = digits s.
Proof.
  revert s. induction (N.lt_wf_0 x) as [x _ IH]; intros s.
  destruct (decide (x = 0)%N) as [->|Hx]; [done|]. rewrite pretty_N_go_step by lia.
  assert (x mod 10 < 10)%N as Hm by (apply N.mod_lt; lia). destruct (digit_char _ Hm) as [Hd Hv].
  destruct (IH (x / 10)%N (N.div_lt x 10 ltac:(lia) eq_refl) (String (pretty_N_char (x mod 10)) s)) as [-> ->].
  simpl. rewrite Hd, Hv. split; [|done]. f_equal. rewrite (N.div_mod x 10) at 3 by lia. lia.
Qed.

Lemma pretty_decimal z : 0 ≤ z → decimal 0 (pretty z) = z ∧ digits (pretty z) = true.
Proof.
  intros Hz. destruct z as [|p|p]; [done| |lia].
  change (pretty (Z.pos p)) with (pretty_N_go (N.pos p) ""). apply (pretty_go (N.pos p) "").
Qed.

Lemma decimal_zeros n s : decimal 0 (zeros n +:+ s) = decimal 0 s ∧ digits (zeros n +:+ s) = digits s.
Proof. induction n as [|n [IH1 IH2]]; [done|]. by rewrite <- IH1, <- IH2. Qed.

Lemma pad3_digits z : 0 ≤ z → decimal 0 (pad3 z) = z ∧ digits (pad3 z) = true.
Proof.
  intros Hz. unfold pad3. cbv zeta. destruct (decimal_zeros (3 - String.length (pretty z)) (pretty z)) as [-> ->].
  by apply pretty_decimal.
Qed.
Lemma pad3_inj y z : 0 ≤ y → 0 ≤ z → pad3 y = pad3 z → y = z.
Proof. intros [Hy _]%pad3_digits [Hz _]%pad3_digits E. by rewrite <- Hy, <- Hz, E. Qed.

(** Digits up to a character that is none. *)
Lemma digits_stop c s s' u u' :
  code_between 48 57 c = false → digits s = true → digits s' = true →
  s +:+ String c u = s' +:+ String c u' → s = s' ∧ u = u'.
Proof.
  intros Hc. revert s'. induction s as [|b s IH]; intros [|b' s'] Hs Hs' E; rewrite ?str_app_nil, ?str_app_cons in E; simpl in *.
  - by injection E.
  - injection E as <- _. by rewrite Hc in Hs'.
  - injection E as -> _. by rewrite Hc in Hs.
  - injection E as -> E. apply andb_true_iff in Hs as [_ Hs], Hs' as [_ Hs'].
    by destruct (IH s' Hs Hs' E) as [-> ->].
Qed.

Lemma str_app_inj_l (s u u' : string) : s +:+ u = s +:+ u' → u = u'.
Proof. induction s as [|c s IH]; [done|]. rewrite !str_app_cons. intros [= E]. by apply IH. Qed.

Lemma str_app_nil_r (s : string) : s +:+ "" = s.
Proof. induction s as [|c s IH]; [done|]. by rewrite str_app_cons, IH. Qed.

Lemma rollout_id_inj m i i' : Campaign.rollout_id m i = Campaign.rollout_id m i' → i = i'.
Proof.
  unfold Campaign.rollout_id. intros E%str_app_inj_l%str_app_inj_l%str_app_inj_l.
  apply pad3_inj in E; lia.
Qed.

(** The names and the artifacts of different attempts differ. *)
Lemma between_inj c m i i' u u' :
  code_between 48 57 c = false →
  Campaign.rollout_id m i +:+ String c u = Campaign.rollout_id m i' +:+ String c u' → i = i' ∧ u = u'.
Proof.
  intros Hc E. unfold Campaign.rollout_id in E. rewrite !str_app_assoc in E. do 3 apply str_app_inj_l in E.
  apply digits_stop in E as [Ei ->]; [|done|by apply pad3_digits; lia..]. apply pad3_inj in Ei; [|lia..]. split; [lia|done].
Qed.

Definition attempt_name (m : CampaignManifest.t) (i : nat) (a : Z) : string :=
  Campaign.rollout_id m i +:+ "-a" +:+ pad3 a.
Definition artifact_path (m : CampaignManifest.t) (i : nat) (a : Z) : string :=
  "attempts/" +:+ Campaign.rollout_id m i +:+ "/attempt-" +:+ pad3 a +:+ "/record.json".

Lemma attempt_name_inj m i i' a a' :
  0 ≤ a → 0 ≤ a' → attempt_name m i a = attempt_name m i' a' → i = i' ∧ a = a'.
Proof.
  intros Ha Ha' E. unfold attempt_name in E. change ("-a" +:+ pad3 a) with (String "-" (String "a" (pad3 a))) in E.
  change ("-a" +:+ pad3 a') with (String "-" (String "a" (pad3 a'))) in E.
  apply between_inj in E as [-> E]; [|done]. injection E as E. apply pad3_inj in E; done.
Qed.

Lemma artifact_path_inj m i i' a a' :
  0 ≤ a → 0 ≤ a' → artifact_path m i a = artifact_path m i' a' → i = i' ∧ a = a'.
Proof.
  intros Ha Ha' E. unfold artifact_path in E. apply str_app_inj_l in E.
  apply (between_inj "/") in E as [-> E]; [|done]. injection E as E. apply str_app_inj_r, pad3_inj in E; done.
Qed.

(** ** What a recorded episode leaves *)

Section store.
Import CampaignStore.
Context (m : CampaignManifest.t) (bundle : native).

(** A campaign with this manifest that rolls out this bundle. *)
Record store_ok (d : CampaignStore.t) : Prop := {
  so_manifest : holds_manifest d m;
  so_state : ∃ s, files d !! state_path = Some (NDict s) ∧ bound_to m s = true ∧
    obj_get "current_bundle_sha256" s = bundle ∧ NoDup s.*1;
  so_wf : ledgers_wf d;
  so_bundle : sort_keys bundle = bundle;
}.

Definition admissible (r : EpisodeRecord) : Prop :=
  preregistered m r = Ok tt ∧ to_json (EvolutionModels.bundle_sha256 r) = bundle.

Definition row_of (r : EpisodeRecord) : json_object := sorted_object (attempt_payload r).

Lemma row_of_keys r : NoDup (attempt_payload r).*1.
Proof. apply (bool_decide_unpack _). by vm_compute. Qed.
Lemma row_of_id r : AppendOnlyLedger.identity "attempt_id" (row_of r) = Some (attempt_id r).
Proof.
  apply AppendOnlyLedger.identity_eq. unfold row_of, obj_get.
  rewrite sorted_object_lookup by apply row_of_keys. split; [done|].
  unfold attempt_id. by destruct (EvolutionModels.logical_id r).
Qed.
Lemma row_of_logical r : obj_get "logical_id" (row_of r) = NStr (EvolutionModels.logical_id r).
Proof. unfold row_of, obj_get. by rewrite sorted_object_lookup by apply row_of_keys. Qed.
Lemma row_of_status r : obj_get "status" (row_of r) = NStr (status_value (status r)).
Proof. unfold row_of, obj_get. by rewrite sorted_object_lookup by apply row_of_keys. Qed.
Lemma episode_keys r : NoDup (episode_dict r).*1.
Proof. apply (bool_decide_unpack _). by vm_compute. Qed.

(** A row under the name of an attempt. *)
Definition named (name : string) (d : CampaignStore.t) : Prop :=
  ∃ row, row ∈ records attempts d ∧ AppendOnlyLedger.identity "attempt_id" row = Some name.
Definition counted (logical_id : string) (d : CampaignStore.t) : Prop :=
  ∃ row, row ∈ records episodes d ∧ obj_get "logical_id" row = NStr logical_id.

(** How the directory grows when [r] is recorded. *)
Record grows (r : EpisodeRecord) (d d' : CampaignStore.t) : Prop := {
  gr_ok : store_ok d';
  gr_attempts : records attempts d' = records attempts d ∨
    (admissible r ∧ records attempts d' = records attempts d ++ [row_of r]);
  gr_episodes : records episodes d `prefix_of` records episodes d';
  gr_files path : is_Some (files d' !! path) → is_Some (files d !! path) ∨ path = attempt_path r ∨ path = episode_path r;
}.

(** No ledger's lock is left. *)
Definition unlocked (d : CampaignStore.t) : Prop := locks d = ∅.

Definition record_post (r : EpisodeRecord) (d : CampaignStore.t) (w : world CampaignStore.t)
    (o : outcome (stop campaign_error) bool) : Prop :=
  grows r d (disk w) ∧
  (unlocked d → o ≠ Raise Crash → unlocked (disk w) ∧ (is_Some (files (disk w) !! attempt_path r) →
     is_Some (files d !! attempt_path r) ∨ named (attempt_id r) (disk w))) ∧
  match o with
  | Ok _ => admissible r ∧ named (attempt_id r) (disk w) ∧
      (status r = valid → counted (EvolutionModels.logical_id r) (disk w))
  | Raise (Exn e) => admissible r → str_true (EvolutionModels.logical_id r) = true →
      Campaign.swallowed (StoreError e) = false
  | Raise Crash => True
  end.

Lemma manifest_reads d n : store_ok d → manifest (World d n) = (World d n, Ok m).
Proof.
  intros [(p & Hp & Hm) _ _ _]. unfold manifest, read_object, mbind, prog_bind, read_disk. simpl. rewrite Hp. simpl.
  unfold attempt. by rewrite Hm.
Qed.
Lemma state_reads d n : store_ok d → ∃ s, state (World d n) = (World d n, Ok s) ∧
  files d !! state_path = Some (NDict s) ∧ obj_get "current_bundle_sha256" s = bundle ∧ NoDup s.*1.
Proof.
  intros Hd. pose proof (manifest_reads d n Hd) as Hm. destruct (so_state d Hd) as (s & Hs & Hb & Hc & Hn).
  exists s. split; [|done]. unfold state, read_object, mbind, prog_bind, read_disk. simpl. rewrite Hs. simpl.
  rewrite Hm. unfold reject_if. by rewrite Hb.
Qed.

(** Writing an immutable artifact. *)
Lemma write_wp path v w (Φ : world CampaignStore.t → outcome (stop campaign_error) string → Prop) :
  (is_Some (files (disk w) !! path) → Φ w (Ok (canonical_sha256 v))) →
  (is_Some (files (disk w) !! path) →
     Φ w (Raise (Exn (FileExistsError ("immutable artifact already differs: " +:+ path))))) →
  (files (disk w) !! path = None → Φ w (Raise Crash)) →
  (∀ n, files (disk w) !! path = None →
     Φ (World (set_files (<[path := sort_keys v]> (files (disk w))) (disk w)) n) (Ok (canonical_sha256 v))) →
  wp (atomic_write_json path v false) w Φ.
Proof.
  intros H1 H2 H3 H4. unfold wp, atomic_write_json, after, result_of, mbind, prog_bind, read_disk. simpl.
  destruct (files (disk w) !! path) as [e|] eqn:E.
  - destruct (String.eqb _ _); [by apply H1|by apply H2].
  - unfold durable. destruct (budget w); simpl; [by apply H3|by apply H4].
Qed.

(** Appending a record that has an identity: it raises, finds the row, or adds it; it may die
    with the lock held, before or after it added the row. *)
Lemma append_wp l record i w (Φ : world CampaignStore.t → outcome (stop campaign_error) bool → Prop) :
  AppendOnlyLedger.wf (ledger_key l) (records l (disk w)) →
  AppendOnlyLedger.identity (ledger_key l) (sorted_object record) = Some i →
  ((∃ row, row ∈ records l (disk w) ∧ AppendOnlyLedger.identity (ledger_key l) row = Some i) → ∀ n,
     Φ (World (disk w) n) (Ok false) ∧ ∀ msg, Φ (World (disk w) n)
       (Raise (Exn (ledger_error (Codec.ValueError ("duplicate ledger key with different payload: " +:+ msg)))))) →
  (lock_file l ∈ locks (disk w) → Φ w (Raise (Exn (lock_timeout l)))) →
  (Φ (World (disk w) 0) (Raise Crash) ∧ Φ (World (take_lock l (disk w)) 0) (Raise Crash)) →
  (AppendOnlyLedger.wf (ledger_key l) (records l (disk w) ++ [sorted_object record]) →
     Φ (World (take_lock l (row_added l record (disk w))) 0) (Raise Crash) ∧
     ∀ n, Φ (World (row_added l record (disk w)) n) (Ok true)) →
  wp (append l record) w Φ.
Proof.
  destruct w as [d b]. cbn [disk]. intros Hwf Hi Hold Hlock [Hc0 Hc1] Hnew. unfold wp, after, result_of.
  rewrite append_run by eauto. destruct (locked l d) eqn:El; [by apply Hlock; apply bool_decide_eq_true in El|].
  destruct (AppendOnlyLedger.append_cases (ledger_key l) (sorted_object record) _ Hwf)
    as [(Hn & _)|(i' & Hi' & [[Hm Ha]|(row & Hm & Hin & Hrow & Ha)])]; [congruence| |].
  - pose proof (AppendOnlyLedger.append_preserves_wf _ (sorted_object record) _ Hwf) as Hwf'. unfold after in Hwf'.
    rewrite Ha in Hwf' |- *. destruct (Hnew Hwf') as [Hn1 Hn2].
    destruct b as [|[|[|b]]]; [exact Hc0|exact Hc1|exact Hn1|apply Hn2].
  - simplify_eq. pose proof (Hold (ex_intro _ row (conj Hin Hrow))) as H. case_decide as E.
    + rewrite Ha. destruct b as [|[|[|b]]]; [exact Hc0|exact Hc1|apply H..].
    + assert (AppendOnlyLedger.append (ledger_key l) (sorted_object record) (records l d) =
        (records l d, Raise (Codec.ValueError ("duplicate ledger key with different payload: " +:+
          (ledger_key l +:+ "=" +:+ i))))) as ->; [|destruct b as [|[|[|b]]]; [exact Hc0|exact Hc1|apply H..]].
      unfold AppendOnlyLedger.append. rewrite Hi. unfold mbind, prog_bind, get_state. rewrite Hm.
      by rewrite (proj2 (String.eqb_neq _ _) E).
Qed.

Lemma ledger_written l rows d l' :
  records l' (set_ledgers (<[ledger_file l := rows]> (ledgers d)) d) = if decide (l' = l) then rows else records l' d.
Proof. apply records_set_ledgers. Qed.

Lemma store_ok_write path v d :
  path ≠ manifest_path → path ≠ state_path → store_ok d → store_ok (set_files (<[path := v]> (files d)) d).
Proof.
  intros Hm Hs [(p & Hp & Hd) (s & Hf & Hrest) Hwf Hb]. split; [| |exact Hwf|exact Hb].
  - exists p. simpl. by rewrite lookup_insert_ne.
  - exists s. simpl. by rewrite lookup_insert_ne.
Qed.
Lemma store_ok_append l rows d :
  AppendOnlyLedger.wf (ledger_key l) rows → store_ok d → store_ok (set_ledgers (<[ledger_file l := rows]> (ledgers d)) d).
Proof.
  intros Hl [Hm Hs Hwf Hb]. split; [exact Hm|exact Hs| |exact Hb]. intros l'. rewrite ledger_written. case_decide as E; [by subst|apply Hwf].
Qed.

Lemma store_ok_lock l d : store_ok d → store_ok (take_lock l d).
Proof. by intros []. Qed.

(** *** The parts of [record_episode] *)

Lemma grows_refl r d : store_ok d → grows r d d.
Proof. intros Hd. split; [done|by left|done|by left]. Qed.

Lemma own_path_differs r path :
  path = attempt_path r ∨ path = episode_path r → path ≠ manifest_path ∧ path ≠ state_path.
Proof. intros [-> | ->]; split; intros E; by apply (f_equal (String.get 0)) in E. Qed.

Lemma grows_write r d d1 path v :
  grows r d d1 → path = attempt_path r ∨ path = episode_path r →
  grows r d (set_files (<[path := v]> (files d1)) d1).
Proof.
  intros [H1 H2 H3 H4] Hp. destruct (own_path_differs r path Hp) as [??]. split; [by apply store_ok_write|exact H2|exact H3|].
  intros path'. simpl. destruct (decide (path' = path)) as [->|]; [by right|]. rewrite lookup_insert_ne by done. apply H4.
Qed.

Lemma grows_attempt r d d1 :
  grows r d d1 → records attempts d1 = records attempts d → admissible r →
  AppendOnlyLedger.wf "attempt_id" (records attempts d1 ++ [row_of r]) →
  grows r d (set_ledgers (<[ledger_file attempts := records attempts d1 ++ [row_of r]]> (ledgers d1)) d1).
Proof.
  intros [H1 H2 H3 H4] E Ha Hwf. split; [by apply (store_ok_append attempts)| | |exact H4].
  - right. split; [done|]. rewrite ledger_written. simpl. by rewrite E.
  - by rewrite ledger_written.
Qed.

Lemma grows_episode r d d1 rows :
  grows r d d1 → records episodes d1 `prefix_of` rows → AppendOnlyLedger.wf "logical_id" rows →
  grows r d (set_ledgers (<[ledger_file episodes := rows]> (ledgers d1)) d1).
Proof.
  intros [H1 H2 H3 H4] Hp Hwf. split; [by apply (store_ok_append episodes)| | |exact H4].
  - by rewrite ledger_written.
  - rewrite ledger_written. simpl. by etrans.
Qed.

Lemma grows_lock r d l d1 : grows r d d1 → grows r d (take_lock l d1).
Proof. intros []. split; [by apply store_ok_lock|done..]. Qed.

Lemma swallowed_exists msg : Campaign.swallowed (StoreError (FileExistsError msg)) = false.
Proof. done. Qed.
Lemma swallowed_duplicate msg :
  Campaign.swallowed (StoreError (ledger_error (Codec.ValueError ("duplicate ledger key with different payload: " +:+ msg)))) = false.
Proof.
  unfold Campaign.swallowed, Campaign.value_error_message. apply andb_false_iff. right. apply negb_false_iff.
  unfold contains. by apply bool_decide_eq_true.
Qed.

Lemma named_kept name d d' : records attempts d' = records attempts d → named name d → named name d'.
Proof. unfold named. by intros ->. Qed.

(** Ends that satisfy the postcondition. *)
Lemma record_post_intro r d w o :
  grows r d (disk w) → (unlocked d → unlocked (disk w)) → admissible r → named (attempt_id r) (disk w) →
  match o with
  | Ok _ => status r = valid → counted (EvolutionModels.logical_id r) (disk w)
  | Raise (Exn e) => str_true (EvolutionModels.logical_id r) = true → Campaign.swallowed (StoreError e) = false
  | Raise Crash => True
  end → record_post r d w o.
Proof. intros Hg Hu Ha Hn Ho. split; [done|]. split; [by auto|]. by destruct o as [b|[e|]]. Qed.
Lemma record_post_crash r d w : grows r d (disk w) → record_post r d w (Raise Crash).
Proof. intros Hg. split; [done|]. by split. Qed.

Lemma episode_identity r :
  AppendOnlyLedger.identity "logical_id" (sorted_object (episode_dict r)) =
    if str_true (EvolutionModels.logical_id r) then Some (EvolutionModels.logical_id r) else None.
Proof.
  unfold AppendOnlyLedger.identity, obj_get. by rewrite sorted_object_lookup by apply episode_keys.
Qed.

(** The last parts, of a valid episode. *)
Lemma count_wp r d w :
  grows r d (disk w) → (unlocked d → unlocked (disk w)) → admissible r → named (attempt_id r) (disk w) →
  wp (append episodes (episode_dict r)) w (record_post r d).
Proof.
  intros Hg Hu Ha Hn. pose proof (episode_identity r) as Hi. destruct (str_true (EvolutionModels.logical_id r)) eqn:Hl.
  - apply (append_wp episodes _ (EvolutionModels.logical_id r)); [apply (so_wf _ (gr_ok _ _ _ Hg))|exact Hi| | | |].
    + intros (row & Hin & Hrow%AppendOnlyLedger.identity_eq) n. split; [|intros msg]; apply record_post_intro; try done.
      * intros _. exists row. split; [done|apply Hrow].
      * intros _. apply swallowed_duplicate.
    + intros _. by apply record_post_intro.
    + split; apply record_post_crash; [done|by apply grows_lock].
    + intros Hwf. assert (Hg' : grows r d (row_added episodes (episode_dict r) (disk w))).
      { apply grows_episode; [done| |exact Hwf]. by eexists. }
      split; [by apply record_post_crash, grows_lock|]. intros n.
      apply record_post_intro; [done|done|done|eapply named_kept, Hn; apply (ledger_written episodes _ _ attempts)|].
      intros _. exists (sorted_object (episode_dict r)). cbn [disk]. unfold row_added. rewrite ledger_written.
      split; [apply elem_of_app; right; by left|]. by apply AppendOnlyLedger.identity_eq in Hi as [? _].
  - unfold wp, after, result_of. destruct (append_refused episodes (episode_dict r) w) as [e ->].
    { change (ledger_key episodes) with "logical_id". by rewrite Hi. }
    apply record_post_intro; [done..|]. by rewrite Hl.
Qed.

Lemma canonical_wp r d w :
  grows r d (disk w) → (unlocked d → unlocked (disk w)) → admissible r → named (attempt_id r) (disk w) →
  wp (if bool_decide (status r = infra_invalid) then mret false
      else atomic_write_json (episode_path r) (NDict (episode_dict r)) false ≫= λ _, append episodes (episode_dict r))
    w (record_post r d).
Proof.
  intros Hg Hu Ha Hn. case_bool_decide as Hs; [apply record_post_intro; [done..|congruence]|].
  apply wp_bind, write_wp; intros; [by apply count_wp|by apply record_post_intro|by apply record_post_crash|].
  apply count_wp; [|done|done|exact Hn]. apply grows_write; [done|by right].
Qed.

(** The first parts. *)
Lemma name_wp r d w :
  grows r d (disk w) → locks (disk w) = locks d → admissible r → records attempts (disk w) = records attempts d →
  wp (append attempts (attempt_payload r) ≫= λ _,
      if bool_decide (status r = infra_invalid) then mret false
      else atomic_write_json (episode_path r) (NDict (episode_dict r)) false ≫= λ _, append episodes (episode_dict r))
    w (record_post r d).
Proof.
  intros Hg Hu Ha E. assert (Hu' : unlocked d → unlocked (disk w)) by (unfold unlocked; congruence). apply wp_bind.
  apply (append_wp attempts _ (attempt_id r)); [apply (so_wf _ (gr_ok _ _ _ Hg))|apply row_of_id| | | |].
  - intros Hold n. split; [by apply canonical_wp|]. intros msg. apply record_post_intro; [done..|]. intros _. apply swallowed_duplicate.
  - intros Hl. split; [done|]. split; [|done]. intros Hd. rewrite (Hu' Hd) in Hl. by apply elem_of_empty in Hl.
  - split; apply record_post_crash; [done|by apply grows_lock].
  - intros Hwf. assert (Hg' : grows r d (row_added attempts (attempt_payload r) (disk w))) by by apply grows_attempt.
    split; [by apply record_post_crash, grows_lock|]. intros n. apply canonical_wp; [done..|].
    exists (row_of r). cbn [disk]. unfold row_added. rewrite ledger_written. split; [apply elem_of_app; right; by left|apply row_of_id].
Qed.

Lemma record_episode_wp r w : store_ok (disk w) → wp (record_episode r) w (record_post r (disk w)).
Proof.
  intros Hd. destruct w as [d n]. cbn [disk] in *. destruct (state_reads d n Hd) as (s & Hs & _ & Hb & _).
  assert (Hno : ∀ e, (admissible r → False) → record_post r d (World d n) (Raise (Exn e))).
  { intros e Hf. split; [by apply grows_refl|]. split; [by auto|]. by intros ?%Hf. }
  unfold record_episode. apply wp_bind. unfold wp at 1, after, result_of. rewrite (manifest_reads d n Hd). cbn [fst snd].
  apply wp_bind. unfold wp at 1, after, result_of, attempt. destruct (preregistered m r) as [[]|e] eqn:Hp; cbn;
    [|apply Hno; intros [? _]; congruence].
  apply wp_bind. unfold wp at 1, after, result_of. rewrite Hs. cbn [fst snd]. apply wp_bind.
  unfold wp at 1, after, result_of, reject_if. rewrite Hb. case_bool_decide as Hbun; cbn; [|apply Hno; by intros [_ ?]].
  assert (Ha : admissible r) by done. assert (Hg : grows r d d) by by apply grows_refl.
  apply wp_bind, write_wp; intros Hf.
  - by apply name_wp.
  - split; [done|]. split; [by auto|]. done.
  - by apply record_post_crash.
  - intros Hnone. apply name_wp; [|done|done|done]. apply grows_write; [done|by left].
Qed.

(** *** Other changes of the directory *)

Lemma write_any_wp path v (overwrite : bool) w (Φ : world CampaignStore.t → outcome (stop campaign_error) string → Prop) :
  (∀ o, Φ w o) →
  (∀ n o, Φ (World (set_files (<[path := sort_keys v]> (files (disk w))) (disk w)) n) o) →
  wp (atomic_write_json path v overwrite) w Φ.
Proof.
  intros H1 H2. unfold wp, atomic_write_json, after, result_of, mbind, prog_bind, read_disk. simpl.
  destruct (files (disk w) !! path) as [e|], overwrite; try (destruct (String.eqb _ _); apply H1);
    unfold durable; destruct (budget w); simpl; auto.
Qed.

Lemma store_ok_state s u d :
  store_ok d → files d !! state_path = Some (NDict s) → NoDup s.*1 →
  obj_get "current_bundle_sha256" s = bundle → bound_to m s = true →
  has "manifest_sha256" u = false → has "current_bundle_sha256" u = false →
  store_ok (set_files (<[state_path := sort_keys (NDict (merge s u))]> (files d)) d).
Proof.
  intros [(p & Hp & Hd) _ Hwf Hbun] Hs Hnd Hb Hm H1 H2. pose proof (merge_NoDup s u Hnd) as Hn.
  assert (Hget : ∀ k, has k u = false → obj_get k (sorted_object (merge s u)) = sort_keys (obj_get k s)).
  { intros k Hk. unfold obj_get. rewrite sorted_object_lookup, lookup_merge_keep by done. by destruct (assoc_lookup k s). }
  split; [|exists (sorted_object (merge s u))|exact Hwf|exact Hbun].
  - exists p. simpl. by rewrite lookup_insert_ne.
  - simpl. rewrite lookup_insert_eq. split; [reflexivity|]. split; [|split].
    + unfold bound_to in *. rewrite Hget by done. apply bool_decide_eq_true in Hm. rewrite Hm. by apply bool_decide_eq_true.
    + rewrite Hget, Hb by done. exact Hbun.
    + by apply sorted_object_NoDup.
Qed.

(** A change that touches neither the ledgers nor the artifacts of attempts. *)
Definition aside (d d' : CampaignStore.t) : Prop :=
  store_ok d' ∧ ledgers d' = ledgers d ∧ locks d' = locks d ∧
  ∀ path, path ≠ state_path → String.get 0 path = Some "a"%char → String.get 1 path = Some "t"%char → files d' !! path = files d !! path.

Lemma aside_refl d : store_ok d → aside d d.
Proof. by split. Qed.

Lemma transition_wp now w :
  store_ok (disk w) → wp (transition CLUSTER [] now) w (λ w' _, aside (disk w) (disk w')).
Proof.
  intros Hd. destruct w as [d n]. cbn [disk] in *. destruct (state_reads d n Hd) as (s & Hs & Hf & Hb & Hn).
  destruct (so_state _ Hd) as (s' & Hf' & Hbound & _). rewrite Hf in Hf'. injection Hf' as <-.
  pose proof (aside_refl d Hd) as Hstay. unfold transition. apply wp_bind. unfold wp at 1, after, result_of. rewrite Hs. cbn [fst snd].
  apply wp_of_attempt; [|intros; exact Hstay]. intros phase _. apply wp_bind. unfold reject_if. destruct (negb _); [exact Hstay|].
  apply wp_bind. rewrite merge_app. unfold write_state. apply wp_bind, write_any_wp; [by intros []|]. intros k o.
  assert (aside d (set_files (<[state_path := sort_keys (NDict (merge s
    ([] ++ [("phase", NStr (phase_value CLUSTER)); ("updated_at", NStr now)])))]> (files d)) d)); [|by destruct o].
  split; [by apply store_ok_state|]. split; [done|]. split; [done|]. intros path Hne _ _. cbn [files set_files]. by rewrite lookup_insert_ne.
Qed.

(** A campaign that is initialized again stays as it is. *)
Lemma initialize_again m' now w :
  store_ok (disk w) → after (initialize m' now) w = w ∧ result_of (initialize m' now) w ≠ Raise Crash.
Proof.
  intros [(p & Hp & _) (s & Hs & _) _ _]. destruct w as [d n]. cbn [disk] in *.
  unfold after, result_of, initialize, atomic_write_json, mbind, prog_bind. cbn [read_disk disk]. rewrite Hp.
  destruct (String.eqb _ _); [|by split]. cbn [mret prog_ret read_disk disk]. unfold mret, prog_ret. rewrite Hs.
  unfold read_object, mbind, prog_bind. cbn [read_disk disk]. rewrite Hs. cbn. by destruct (bound_to m' s).
Qed.
End store.

(** ** Calls of the components *)

Import Campaign.

Lemma on_store_wp {A} (p : CampaignStore.op A) w Φ :
  wp p (World (store (disk w)) (budget w)) (λ w' o,
    Φ (World (set_store (disk w') (disk w)) (budget w')) (lift_stop StoreError o)) →
  wp (on_store p) w Φ.
Proof. unfold wp, on_store, after, result_of. by destruct (p _) as [w' o]. Qed.

Lemma on_queue_wp {A} h (p : SharedHostQueue.op A) w Φ :
  wp p (World (queue h (disk w)) (budget w)) (λ w' o,
    Φ (World (set_queues (<[h := disk w']> (queues (disk w))) (disk w)) (budget w')) (lift_stop QueueError o)) →
  wp (on_queue h p) w Φ.
Proof. unfold wp, on_queue, after, result_of. by destruct (p _) as [w' o]. Qed.

Lemma set_store_same d : set_store (store d) d = d.
Proof. by destruct d. Qed.

(** Reading the store changes nothing. *)
Lemma on_store_reads {A B} (p : CampaignStore.op A) (k : A → op B) w Φ :
  (p (World (store (disk w)) (budget w))).1 = World (store (disk w)) (budget w) →
  (∀ a, (p (World (store (disk w)) (budget w))).2 = Ok a → wp (k a) w Φ) →
  (∀ e, (p (World (store (disk w)) (budget w))).2 = Raise e → Φ w (lift_stop (A := B) StoreError (Raise e))) →
  wp (on_store p ≫= k) w Φ.
Proof.
  intros H1 H2 H3. apply wp_bind, on_store_wp. unfold wp, after, result_of. rewrite H1. cbn [disk budget].
  rewrite set_store_same. destruct w as [d n]. cbn [disk budget] in *.
  destruct (p (World (store d) n)) as [w' [a|e]]; cbn [snd fst] in *; [by apply H2|]. specialize (H3 e eq_refl). by destruct e.
Qed.

(** ** Queues of a farm *)

Lemma queue_insert h q qs s h' : queue h' (Farm s (<[h := q]> qs)) = if decide (h' = h) then q else queue h' (Farm s qs).
Proof. unfold queue. cbn [queues]. case_decide as E; [by rewrite E, lookup_insert_eq|by rewrite lookup_insert_ne by congruence]. Qed.

Lemma elem_of_hosts h d : h ∈ hosts d ↔ is_Some (queues d !! h).
Proof.
  unfold hosts. rewrite elem_of_sort_by, list_elem_of_fmap. split.
  - intros ([h' q] & -> & H%elem_of_map_to_list). by exists q.
  - intros [q H]. exists (h, q). split; [done|]. by apply elem_of_map_to_list.
Qed.

Lemma queue_absent h d : ¬ is_Some (queues d !! h) → queue h d = SharedHostQueue.init.
Proof. unfold queue. intros H. destruct (queues d !! h); [by destruct H; eexists|done]. Qed.

Lemma holds_job_host h d j : SharedHostQueue.holds_job (queue h d) j → h ∈ hosts d.
Proof.
  intros Hj. apply elem_of_hosts. destruct (decide (is_Some (queues d !! h))) as [|Hn]; [done|exfalso].
  rewrite (queue_absent _ _ Hn) in Hj. destruct Hj as (name & f & Hf & _). simpl in Hf. rewrite lookup_empty in Hf.
  naive_solver.
Qed.

Lemma elem_of_farm_known id d :
  id ∈ known_job_ids d ↔ ∃ h j, SharedHostQueue.holds_job (queue h d) j ∧ job_id j = id.
Proof.
  unfold known_job_ids. rewrite list_elem_of_bind. setoid_rewrite SharedHostQueue.elem_of_known_jobs. split.
  - intros (h & (j & Hj & Hid) & _). by exists h, j.
  - intros (h & j & Hj & Hid). exists h. split; [by exists j|by eapply holds_job_host].
Qed.

Lemma elem_of_terminal_paths path d : path ∈ terminal_envelope_paths d ↔ is_Some (terminal_at path d).
Proof.
  unfold terminal_envelope_paths. rewrite list_elem_of_bind. setoid_rewrite list_elem_of_bind.
  setoid_rewrite elem_of_bfilter. setoid_rewrite bool_decide_eq_true. setoid_rewrite list_elem_of_fmap. split.
  - by intros (ok & (h & ([Hs _] & _)) & _).
  - intros Hs. destruct path as [ok [h name]]. exists ok. split; [|by destruct ok; repeat constructor].
    exists h. split.
    + split; [done|]. exists name. split; [done|]. apply SharedHostQueue.elem_of_names.
      unfold terminal_at in Hs. cbn [fst snd] in Hs. by destruct (_ !! name).
    + destruct Hs as [x Hx]. unfold terminal_at in Hx. cbn [fst snd] in Hx.
      destruct (_ !! name) as [f|] eqn:Hf; [|done]. eapply holds_job_host, SharedHostQueue.terminal_holds_job, Hf.
Qed.

Lemma terminal_at_file path d x :
  terminal_at path d = Some x → ∃ f, SharedHostQueue.bucket path.1 (queue path.2.1 d) !! path.2.2 = Some f ∧
    contents f = Terminated x.
Proof.
  unfold terminal_at. destruct (_ !! path.2.2) as [f|]; [|done]. destruct (contents f) eqn:E; try done.
  intros [= ->]. by exists f.
Qed.
Lemma farm_terminal_job path d x : terminal_at path d = Some x → SharedHostQueue.holds_job (queue path.2.1 d) (term_job x).
Proof.
  intros (f & Hf & Hx)%terminal_at_file. apply SharedHostQueue.terminal_holds_job in Hf.
  unfold SharedHostQueue.job_of in Hf. by rewrite Hx in Hf.
Qed.

(** ** The invariant *)

Section runs.
Context (root queue_root : string) (elsewhere : string → option native).
Context (m : CampaignManifest.t) (bundle : native) (calm : bool).

(** Attempt [a] of the rollout with index [i]. *)
Notation rid := (rollout_id m).
Definition slot (i : nat) (a : Z) : Prop :=
  (i < length (CampaignManifest.rollout_seeds m))%nat ∧ 0 ≤ a < CampaignManifest.max_infrastructure_attempts m.
Definition slot_job (i : nat) (a : Z) : string := rollout_job_id m (rid i) a.

(** A job of this campaign, and a job of another one. *)
Definition own_job (i : nat) (a : Z) (j : RolloutJob) : Prop :=
  slot i a ∧ job_id j = slot_job i a ∧ HostQueue.logical_id j = rid i ∧ HostQueue.attempt_index j = a ∧
  campaign_root j = root.
Definition foreign (j : RolloutJob) : Prop :=
  campaign_root j ≠ root ∧ ∀ i a, slot i a → job_id j ≠ slot_job i a.

(** What the code relies on: its 96-bit job identifiers do not collide. *)
Definition collision_free : Prop := ∀ i a i' a',
  slot i a → slot i' a' → slot_job i a = slot_job i' a' → i = i' ∧ a = a'.

(** A worker reports on the attempt it was given. *)
Definition labelled (x : Terminal) : Prop := ∀ p r,
  obj_get "result" (result x) = NDict p → episode_of_dict p = Ok r →
  EvolutionModels.logical_id r = HostQueue.logical_id (term_job x) ∧
  EvolutionModels.attempt_index r = HostQueue.attempt_index (term_job x).
Definition labelled_queue (q : SharedHostQueue.t) : Prop := ∀ ok name f x,
  SharedHostQueue.bucket ok q !! name = Some f → contents f = Terminated x →
  campaign_root (term_job x) = root → labelled x.

(** The record a terminal stands for. *)
Definition payload_of (path : bool * (string * string)) (x : Terminal) : outcome error json_object :=
  match obj_get "result" (result x) with
  | NDict p => Ok p
  | _ => infra_payload queue_root (CampaignManifest.generation m) path x
  end.
Definition record_of (path : bool * (string * string)) (x : Terminal) : outcome error EpisodeRecord :=
  p ← payload_of path x; lift_store (episode_of_dict p).

Definition known (i : nat) (a : Z) (d : t) : Prop := slot_job i a ∈ known_job_ids d.
Definition infra_recorded (i : nat) (a : Z) (d : t) : Prop := ∃ r,
  row_of r ∈ CampaignStore.records CampaignStore.attempts (store d) ∧
  EvolutionModels.logical_id r = rid i ∧ EvolutionModels.attempt_index r = a ∧ status r = infra_invalid.

(** Every row of the ledger was made from a terminal. *)
Definition rows_from (P : bool * (string * string) → Prop) (d : t) : Prop := ∀ row,
  row ∈ CampaignStore.records CampaignStore.attempts (store d) → ∃ r path x,
    P path ∧ row = row_of r ∧ terminal_at path d = Some x ∧ campaign_root (term_job x) = root ∧
    record_of path x = Ok r ∧ admissible m bundle r.

(** The attempts of an episode are numbered; all but the last are recorded, as invalid. *)
Definition in_sequence (i k : nat) (d : t) : Prop :=
  Z.of_nat k ≤ Z.max 0 (CampaignManifest.max_infrastructure_attempts m) ∧
  (∀ a, slot i a → known i a d ↔ a < Z.of_nat k) ∧
  (∀ a, 0 ≤ a < Z.of_nat k - 1 → infra_recorded i a d).

Record Inv (c : bool) (d : t) : Prop := {
  i_queues h : SharedHostQueue.wf (queue h d);
  i_jobs h j : SharedHostQueue.holds_job (queue h d) j → (∃ i a, own_job i a j) ∨ foreign j;
  i_labels h : labelled_queue (queue h d);
  i_store : store_ok m bundle (store d);
  i_rows : rows_from (λ _, True) d;
  i_seq i : (i < length (CampaignManifest.rollout_seeds m))%nat → ∃ k, in_sequence i k d;
  i_artifact : c = true → ∀ i a, slot i a → is_Some (CampaignStore.files (store d) !! artifact_path m i a) →
    named (attempt_name m i a) (store d);
  i_locks : c = true → unlocked (store d);
}.

Lemma inv_uncalm c d : Inv c d → Inv false d.
Proof. intros [H1 H2 H3 H4 H5 H6 _ _]. by split. Qed.

(** What a part of a step does: a crash ends it without the promise of [calm]. *)
Definition settled {A} (Φ : A → t → Prop) (w : world t) (o : outcome (stop error) A) : Prop :=
  match o with
  | Ok a => Inv calm (disk w) ∧ Φ a (disk w)
  | Raise (Exn _) => Inv calm (disk w)
  | Raise Crash => Inv false (disk w)
  end.

Lemma settled_bind {A B} (p : op A) (k : A → op B) (Φ : A → t → Prop) (Ψ : B → t → Prop) w :
  wp p w (settled Φ) → (∀ a w', Inv calm (disk w') → Φ a (disk w') → wp (k a) w' (settled Ψ)) →
  wp (p ≫= k) w (settled Ψ).
Proof.
  intros Hp Hk. apply wp_bind. eapply wp_mono; [|exact Hp]. intros w' [a|[e|]] H; [by apply Hk; apply H|exact H..].
Qed.
Lemma settled_ret {A} (a : A) (Φ : A → t → Prop) w : Inv calm (disk w) → Φ a (disk w) → wp (mret a : op A) w (settled Φ).
Proof. by split. Qed.
Lemma settled_throw {A} e (Φ : A → t → Prop) w : Inv calm (disk w) → wp (throw e : op A) w (settled Φ).
Proof. done. Qed.
Lemma settled_attempt {A B} (o : outcome error A) (k : A → op B) (Ψ : B → t → Prop) w :
  Inv calm (disk w) → (∀ a, o = Ok a → wp (k a) w (settled Ψ)) → wp (attempt o ≫= k) w (settled Ψ).
Proof. intros Hi Hk. destruct o as [a|e]; [by apply (Hk a)|exact Hi]. Qed.
Lemma settled_read {B} (k : t → op B) (Ψ : B → t → Prop) w :
  wp (k (disk w)) w (settled Ψ) → wp (read_disk ≫= k) w (settled Ψ).
Proof. done. Qed.

Lemma settled_manifest {B} (k : CampaignManifest.t → op B) (Ψ : B → t → Prop) w :
  Inv calm (disk w) → wp (k m) w (settled Ψ) → wp (on_store CampaignStore.manifest ≫= k) w (settled Ψ).
Proof.
  intros Hi Hk. apply on_store_reads; rewrite (manifest_reads m bundle) by apply Hi; [done| |done].
  by intros a [= <-].
Qed.
Lemma settled_state {B} (k : json_object → op B) (Ψ : B → t → Prop) w :
  Inv calm (disk w) →
  (∀ s, CampaignStore.files (store (disk w)) !! CampaignStore.state_path = Some (NDict s) →
     obj_get "current_bundle_sha256" s = bundle → wp (k s) w (settled Ψ)) →
  wp (on_store CampaignStore.state ≫= k) w (settled Ψ).
Proof.
  intros Hi Hk. destruct (state_reads m bundle (store (disk w)) (budget w)) as (s & Hs & Hf & Hb & _); [apply Hi|].
  apply on_store_reads; rewrite Hs; [done| |done]. intros a [= <-]. by apply Hk.
Qed.
(** *** What others do to the queues *)

(** A call of a worker or of another campaign. *)
Inductive worker_move : gmap string SharedHostQueue.t → gmap string SharedHostQueue.t → Prop :=
  | work qs h c b :
      let q := default SharedHostQueue.init (qs !! h) in
      SharedHostQueue.legal (λ j _, foreign j) q c → labelled_queue (SharedHostQueue.exec q b c) →
      worker_move qs (<[h := SharedHostQueue.exec q b c]> qs).

(** What holds of the farm after others have used the queues. *)
Record moved (d d' : t) : Prop := {
  mv_store : store d' = store d;
  mv_known i a : slot i a → known i a d' ↔ known i a d;
  mv_terminal path x : terminal_at path d = Some x → terminal_at path d' = Some x;
}.

Lemma moved_refl d : moved d d.
Proof. by split. Qed.
Lemma moved_trans d1 d2 d3 : moved d1 d2 → moved d2 d3 → moved d1 d3.
Proof.
  intros [S1 K1 T1] [S2 K2 T2]. split; [congruence| |auto]. intros i a Hs. by rewrite K2, K1.
Qed.

Lemma rows_moved P d d' : moved d d' → rows_from P d → rows_from P d'.
Proof.
  intros [Es _ Ht] Hr row Hrow. rewrite Es in Hrow. destruct (Hr row Hrow) as (r & path & x & ? & ? & Hx & ?).
  exists r, path, x. auto.
Qed.

Lemma in_sequence_moved i k d d' :
  (i < length (CampaignManifest.rollout_seeds m))%nat → moved d d' → in_sequence i k d → in_sequence i k d'.
Proof.
  intros Hi [Es Hk _] (H1 & H2 & H3). split; [done|]. split.
  - intros a Ha. by rewrite Hk, H2.
  - intros a Ha. unfold infra_recorded. rewrite Es. by apply H3.
Qed.

Lemma inv_moved c d d' :
  Inv c d → moved d d' → (∀ h, SharedHostQueue.wf (queue h d')) →
  (∀ h j, SharedHostQueue.holds_job (queue h d') j → SharedHostQueue.holds_job (queue h d) j ∨ foreign j) →
  (∀ h, labelled_queue (queue h d')) → Inv c d'.
Proof.
  intros [H1 H2 H3 H4 H5 H6 H7 H8] Hm Hwf Hj Hl. pose proof (mv_store _ _ Hm) as Es. split; try done.
  - intros h j [Hold|Hf]%Hj; [by eapply H2|by right].
  - by rewrite Es.
  - by eapply rows_moved.
  - intros i Hi. destruct (H6 i Hi) as [k Hk]. exists k. by eapply in_sequence_moved.
  - rewrite Es. exact H7.
  - rewrite Es. exact H8.
Qed.

Lemma rtc_jobs (M : RolloutJob → Prop) q q' j :
  rtc (SharedHostQueue.effect (λ j _, M j)) q q' → SharedHostQueue.holds_job q' j → SharedHostQueue.holds_job q j ∨ M j.
Proof.
  induction 1 as [|q1 q2 q3 He _ IH]; [by left|]. intros [Hj|HM]%IH; [|by right].
  by apply (SharedHostQueue.effect_jobs _ _ _ _ He Hj).
Qed.

Lemma worker_move_inv c d qs :
  Inv c d → worker_move (queues d) qs → Inv c (set_queues qs d) ∧ moved d (set_queues qs d).
Proof.
  intros Hi Hw. inversion Hw as [qs0 h call b q Hl Hlab E1 E2]. subst qs0. clear Hw.
  set (q' := SharedHostQueue.exec q b call). fold q' in Hlab, E2.
  assert (Hq : queue h d = q) by done. assert (Hwf : SharedHostQueue.wf q) by (rewrite <- Hq; apply Hi).
  destruct (SharedHostQueue.call_effects (λ j _, foreign j) call q b Hwf Hl) as [He _]. fold q' in He.
  assert (Hnew : ∀ h', queue h' (set_queues (<[h := q']> (queues d)) d) = if decide (h' = h) then q' else queue h' d).
  { intros h'. unfold set_queues. rewrite queue_insert. by destruct d. }
  assert (Hjobs : ∀ h' j, SharedHostQueue.holds_job (queue h' (set_queues (<[h := q']> (queues d)) d)) j →
    SharedHostQueue.holds_job (queue h' d) j ∨ foreign j).
  { intros h' j. rewrite Hnew. case_decide as E; [|by left]. subst h'. rewrite Hq. by apply (rtc_jobs foreign). }
  assert (Hm : moved d (set_queues (<[h := q']> (queues d)) d)).
  { split; [done| |].
    - intros i a Hs. unfold known. rewrite !elem_of_farm_known. split.
      + intros (h' & j & [Hj|[_ Hf]]%Hjobs & Hid); [by exists h', j|]. by destruct (Hf i a Hs).
      + intros (h' & j & Hj & Hid). destruct (decide (h' = h)) as [->|Hne].
        * exists h. assert (slot_job i a ∈ SharedHostQueue.known_job_ids q') as (j' & Hj' & Hid')%SharedHostQueue.elem_of_known_jobs.
          { eapply SharedHostQueue.rtc_known; [exact He|]. apply SharedHostQueue.elem_of_known_jobs. rewrite <- Hq. by exists j. }
          exists j'. rewrite Hnew, decide_True by done. done.
        * exists h', j. rewrite Hnew, decide_False by done. done.
    - intros [ok [h' name]] x Hx. destruct (terminal_at_file _ _ _ Hx) as (f & Hf & Hc). cbn [fst snd] in Hf.
      unfold terminal_at. cbn [fst snd]. rewrite Hnew. case_decide as E; [|by rewrite Hf, Hc].
      subst h'. rewrite Hq in Hf. by rewrite (SharedHostQueue.rtc_terminals _ _ _ _ _ _ He Hf), Hc. }
  split; [|exact Hm]. eapply inv_moved; [exact Hi|exact Hm| |exact Hjobs|].
  - intros h'. rewrite Hnew. case_decide; [by eapply SharedHostQueue.rtc_wf|apply Hi].
  - intros h'. rewrite Hnew. case_decide; [exact Hlab|apply Hi].
Qed.

Lemma worker_moves_inv c d qs :
  rtc worker_move (queues d) qs → Inv c d → Inv c (set_queues qs d) ∧ moved d (set_queues qs d).
Proof.
  intros H. remember (queues d) as qs0 eqn:E. revert d E. induction H as [qs0|q1 q2 q3 Hw _ IH]; intros d -> Hi.
  - destruct d. split; [exact Hi|apply moved_refl].
  - destruct (worker_move_inv c d q2 Hi Hw) as [Hi2 Hm2]. destruct (IH (set_queues q2 d) eq_refl Hi2) as [Hi3 Hm3].
    split; [exact Hi3|by eapply moved_trans].
Qed.

(** The environment of a step. *)
Definition fair (others : environment) : Prop := ∀ p qs, rtc worker_move qs (others p qs).

Lemma settled_meanwhile {B} others p (k : unit → op B) (Ψ : B → t → Prop) w :
  fair others → Inv calm (disk w) →
  (∀ w', Inv calm (disk w') → moved (disk w) (disk w') → wp (k tt) w' (settled Ψ)) →
  wp (meanwhile (others p) ≫= k) w (settled Ψ).
Proof.
  intros Hf Hi Hk. apply wp_bind. unfold wp at 1, meanwhile, after, result_of. cbn [fst snd].
  destruct (worker_moves_inv calm (disk w) (others p (queues (disk w))) (Hf _ _) Hi) as [Hi' Hm]. by apply Hk.
Qed.
(** *** What a terminal stands for *)

Lemma episode_reread r0 r :
  episode_of_dict (episode_dict r0) = Ok r →
  EvolutionModels.logical_id r = EvolutionModels.logical_id r0 ∧
  EvolutionModels.attempt_index r = EvolutionModels.attempt_index r0.
Proof.
  unfold episode_of_dict. intros H. repeat (apply outcome_bind_ok in H as (? & ? & H)).
  injection H as <-. cbn [EvolutionModels.logical_id EvolutionModels.attempt_index].
  repeat match goal with E : field "logical_id" _ = Ok _ |- _ => cbn in E; injection E as <- end.
  repeat match goal with E : field_or "attempt_index" _ _ = Ok _ |- _ => cbn in E; injection E as <- end. done.
Qed.

Lemma infra_reread g path x p r :
  infra_payload queue_root g path x = Ok p → episode_of_dict p = Ok r →
  EvolutionModels.logical_id r = HostQueue.logical_id (term_job x) ∧
  EvolutionModels.attempt_index r = HostQueue.attempt_index (term_job x).
Proof.
  unfold infra_payload. intros H. repeat (apply outcome_bind_ok in H as (? & ? & H)).
  injection H as <-. intros H%episode_reread. exact H.
Qed.

Lemma record_labels path x r :
  labelled x → record_of path x = Ok r →
  EvolutionModels.logical_id r = HostQueue.logical_id (term_job x) ∧
  EvolutionModels.attempt_index r = HostQueue.attempt_index (term_job x).
Proof.
  intros Hl H. unfold record_of, payload_of in H. apply outcome_bind_ok in H as (p & Hp & H).
  assert (episode_of_dict p = Ok r) as Hr by (unfold lift_store in H; destruct (episode_of_dict p); naive_solver).
  destruct (obj_get "result" (result x)) as [ | | | | | | |p'] eqn:E; try (by eapply infra_reread).
  injection Hp as ->. by eapply Hl.
Qed.

(** The attempt behind the record of an own terminal. *)
Lemma record_slot c d path x r :
  Inv c d → terminal_at path d = Some x → campaign_root (term_job x) = root → record_of path x = Ok r →
  ∃ i a, slot i a ∧ known i a d ∧ own_job i a (term_job x) ∧ EvolutionModels.logical_id r = rid i ∧
    EvolutionModels.attempt_index r = a ∧
    attempt_id r = attempt_name m i a ∧ CampaignStore.attempt_path r = artifact_path m i a.
Proof.
  intros Hi Hx Hroot Hr. pose proof (farm_terminal_job _ _ _ Hx) as Hj.
  destruct (i_jobs _ _ Hi _ _ Hj) as [(i & a & Hown)|[Hf _]]; [|done].
  destruct (terminal_at_file _ _ _ Hx) as (f & Hf & Hc).
  destruct (record_labels path x r) as [Hlid Hidx]; [by eapply (i_labels _ _ Hi)|done|].
  pose proof Hown as (Hs & Hid & Hlid' & Hidx' & _). rewrite Hlid' in Hlid. rewrite Hidx' in Hidx.
  exists i, a. split; [done|]. split; [|split; [done|]].
  - unfold known. rewrite elem_of_farm_known, <- Hid. by exists path.2.1, (term_job x).
  - unfold attempt_id, CampaignStore.attempt_path, attempt_name, artifact_path. by rewrite Hlid, Hidx.
Qed.

(** *** Recording one *)

Record later (d d' : t) : Prop := {
  lt_terminal path x : terminal_at path d = Some x → terminal_at path d' = Some x;
  lt_attempts : CampaignStore.records CampaignStore.attempts (store d) `prefix_of`
    CampaignStore.records CampaignStore.attempts (store d');
  lt_episodes : CampaignStore.records CampaignStore.episodes (store d) `prefix_of`
    CampaignStore.records CampaignStore.episodes (store d');
}.
#[local] Instance later_preorder : PreOrder later.
Proof.
  split; [by split|]. intros d1 d2 d3 [T1 A1 E1] [T2 A2 E2]. split; [auto| |].
  - exact (PreOrder_Transitive _ _ _ A1 A2).
  - exact (PreOrder_Transitive _ _ _ E1 E2).
Qed.
Lemma moved_later d d' : moved d d' → later d d'.
Proof. intros [Es _ Ht]. split; [done|by rewrite Es..]. Qed.

Lemma named_later name d d' : later d d' → named name (store d) → named name (store d').
Proof. intros [_ [l E] _] (row & Hr & Hn). exists row. rewrite E, elem_of_app. auto. Qed.
Lemma counted_later lid d d' : later d d' → counted lid (store d) → counted lid (store d').
Proof. intros [_ _ [l E]] (row & Hr & Hn). exists row. rewrite E, elem_of_app. auto. Qed.

(** All is done that a terminal asks for. *)
Definition handled (path : bool * (string * string)) (d : t) : Prop := ∀ x r,
  terminal_at path d = Some x → campaign_root (term_job x) = root → record_of path x = Ok r → admissible m bundle r →
  (status r = valid → counted (EvolutionModels.logical_id r) (store d)) ∧
  (calm = true → named (attempt_id r) (store d)).

Lemma handled_later path d d' : is_Some (terminal_at path d) → later d d' → handled path d → handled path d'.
Proof.
  intros [x Hx] Hl Hh x' r Hx'. pose proof (lt_terminal _ _ Hl _ _ Hx) as E. rewrite Hx' in E. injection E as ->.
  intros Hroot Hr Ha. destruct (Hh x r Hx Hroot Hr Ha) as [H1 H2].
  split; [intros Hv; by eapply counted_later, H1|intros Hc; by eapply named_later, H2].
Qed.

Lemma grown_inv c P r path x d s' :
  Inv c d → rows_from P d → P path → terminal_at path d = Some x → campaign_root (term_job x) = root →
  record_of path x = Ok r → grows m bundle r (store d) s' →
  (c = true → unlocked s' ∧ (is_Some (CampaignStore.files s' !! CampaignStore.attempt_path r) →
     is_Some (CampaignStore.files (store d) !! CampaignStore.attempt_path r) ∨ named (attempt_id r) s')) →
  Inv c (set_store s' d) ∧ rows_from P (set_store s' d) ∧ later d (set_store s' d).
Proof.
  intros Hi HP Hpath Hx Hroot Hr [G1 G2 G3 G4] Hcalm.
  assert (Hrows : ∀ Q, Q path → rows_from Q d → rows_from Q (set_store s' d)).
  { intros Q HQ HQd row Hrow. cbn [store set_store] in Hrow.
    assert (row ∈ CampaignStore.records CampaignStore.attempts (store d) ∨ (admissible m bundle r ∧ row = row_of r)) as [Hold|[Ha ->]].
    { destruct G2 as [E|[Ha E]]; rewrite E in Hrow; [by left|].
      apply elem_of_app in Hrow as [?| ->%list_elem_of_singleton]; auto. }
    - destruct (HQd row Hold) as (r' & path' & x' & H). by exists r', path', x'.
    - by exists r, path, x. }
  assert (Hlater : later d (set_store s' d)).
  { split; [done| |exact G3]. cbn [store set_store]. destruct G2 as [-> |[_ ->]]; [done|by eexists]. }
  split; [|by auto]. destruct (record_slot _ _ _ _ _ Hi Hx Hroot Hr) as (i & a & Hs & _ & _ & Hlid & Hidx & Hname & Hart).
  pose proof Hi as [H1 H2 H3 H4 H5 H6 H7 _]. split; try done; [| | |by intros Hc; apply Hcalm].
  - by apply Hrows.
  - intros i' Hi'. destruct (H6 i' Hi') as (k & K1 & K2 & K3). exists k. split; [done|]. split; [exact K2|].
    intros a' Ha'. destruct (K3 a' Ha') as (r' & Hin & Hr'). exists r'. split; [|exact Hr'].
    destruct (lt_attempts _ _ Hlater) as [l ->]. apply elem_of_app. by left.
  - intros Hc i' a' Hs' Hf. cbn [store set_store] in Hf |- *. destruct (G4 _ Hf) as [Hold|[E|E]].
    + refine (named_later _ d (set_store s' d) Hlater _). by apply H7.
    + rewrite Hart in E. apply artifact_path_inj in E as [-> ->]; [|apply Hs'|apply Hs].
      rewrite <- Hart in Hf. rewrite <- Hname. destruct (proj2 (Hcalm Hc) Hf) as [Hold|]; [|done].
      rewrite Hname. refine (named_later _ d (set_store s' d) Hlater _). apply H7; [done..|]. by rewrite <- Hart.
    + by apply (f_equal (String.get 0)) in E.
Qed.
Lemma wp_ok {A B} (a : A) (k : A → op B) w Φ : wp (k a) w Φ → wp (attempt (lift_store (Ok a)) ≫= k) w Φ.
Proof. done. Qed.
Lemma wp_mret {A B} (a : A) (k : A → op B) w Φ : wp (k a) w Φ → wp (mret a ≫= k) w Φ.
Proof. done. Qed.
Lemma wp_read {B} (k : t → op B) w Φ : wp (k (disk w)) w Φ → wp (read_disk ≫= k) w Φ.
Proof. done. Qed.

Lemma tolerate_wp (p : op bool) (Ψ : bool → t → Prop) w :
  wp p w (λ w' o, match o with
    | Raise (Exn e) => Inv calm (disk w') ∧ (swallowed e = true → Ψ false (disk w'))
    | _ => settled Ψ w' o
    end) → wp (tolerate p) w (settled Ψ).
Proof.
  unfold wp, tolerate, after, result_of. destruct (p w) as [w' [b|[e|]]]; [done| |done].
  intros [Hi HΨ]. destruct (swallowed e); [|exact Hi]. split; [exact Hi|by apply HΨ].
Qed.

Definition envelope_post (P : bool * (string * string) → Prop) (path : bool * (string * string)) (d : t)
    (_ : bool) (d' : t) : Prop := rows_from P d' ∧ later d d' ∧ handled path d'.

Section envelope.
Context (P : bool * (string * string) → Prop) (path : bool * (string * string)) (x : Terminal) (w : world t).
Context (Hi : Inv calm (disk w)) (HP : rows_from P (disk w)) (Hpath : P path).
Context (Hx : terminal_at path (disk w) = Some x) (Hroot : campaign_root (term_job x) = root).

Lemma stays : handled path (disk w) → envelope_post P path (disk w) false (disk w).
Proof. by split. Qed.

(** [on_store (record_episode r)], where the [try] encloses it. *)
Lemma record_wp r :
  record_of path x = Ok r →
  wp (on_store (CampaignStore.record_episode r)) w (λ w' o, match o with
    | Raise (Exn e) => Inv calm (disk w') ∧ (swallowed e = true → envelope_post P path (disk w) false (disk w'))
    | _ => settled (envelope_post P path (disk w)) w' o
    end).
Proof.
  intros Hr. apply on_store_wp. eapply wp_mono; [|by apply record_episode_wp, Hi].
  intros s o (Hg & Hart & Ho). cbn [disk] in Hg, Hart, Ho.
  destruct (record_slot _ _ _ _ _ Hi Hx Hroot Hr) as (i & a & _ & _ & _ & Hlid & _).
  assert (Hhandled : ∀ d', later (disk w) d' →
    (admissible m bundle r → (status r = valid → counted (EvolutionModels.logical_id r) (store d')) ∧
      (calm = true → named (attempt_id r) (store d'))) → handled path d').
  { intros d' Hl H x' r' Hx'. rewrite (lt_terminal _ _ Hl _ _ Hx) in Hx'. injection Hx' as <-.
    intros _ Hr' Ha. rewrite Hr in Hr'. injection Hr' as <-. by apply H. }
  assert (Hc : ∀ c, Inv c (disk w) → (c = true → o ≠ Raise Crash) →
    Inv c (set_store (disk s) (disk w)) ∧ rows_from P (set_store (disk s) (disk w)) ∧ later (disk w) (set_store (disk s) (disk w))).
  { intros c Hic Hnc. eapply grown_inv; [exact Hic|exact HP|exact Hpath|exact Hx|exact Hroot|exact Hr|exact Hg|].
    intros Hct. apply Hart; [|by apply Hnc]. by apply (i_locks _ _ Hic). }
  destruct o as [b|[e|]]; cbn [lift_stop].
  - destruct (Hc calm Hi) as (H1 & H2 & H3); [done|]. split; [exact H1|]. split; [exact H2|]. split; [exact H3|].
    apply Hhandled; [exact H3|]. intros _. split; [apply Ho|intros _; apply Ho].
  - destruct (Hc calm Hi) as (H1 & H2 & H3); [done|]. split; [exact H1|]. intros Hsw. split; [exact H2|]. split; [exact H3|].
    apply Hhandled; [exact H3|]. intros Ha. exfalso. rewrite Ho in Hsw; [done|done|]. by rewrite Hlid.
  - destruct (Hc false) as (H1 & _); [by eapply inv_uncalm|done|exact H1].
Qed.

(** An invalid attempt whose artifact is there. *)
Lemma artifact_handled r :
  record_of path x = Ok r → status r = infra_invalid →
  is_Some (CampaignStore.files (store (disk w)) !! CampaignStore.attempt_path r) → handled path (disk w).
Proof.
  intros Hr Hs Hf x' r' Hx'. rewrite Hx in Hx'. injection Hx' as <-. intros _ Hr' _. rewrite Hr in Hr'. injection Hr' as <-.
  split; [congruence|]. intros Hc. destruct (record_slot _ _ _ _ _ Hi Hx Hroot Hr) as (i & a & Hsl & _ & _ & _ & _ & -> & E).
  apply (i_artifact _ _ Hi Hc); [done|]. by rewrite <- E.
Qed.

Lemma record_payload_wp p :
  payload_of path x = Ok p → wp (tolerate (record_payload p)) w (settled (envelope_post P path (disk w))).
Proof.
  intros Hp. apply tolerate_wp. unfold record_payload.
  assert (Hrec : record_of path x = lift_store (episode_of_dict p)) by (unfold record_of; by rewrite Hp).
  destruct (episode_of_dict p) as [r|e] eqn:Er; cbn [lift_store attempt] in Hrec |- *.
  2:{ split; [exact Hi|]. intros _. apply stays. intros x' r' Hx'. rewrite Hx in Hx'. injection Hx' as <-. congruence. }
  apply wp_ok, wp_read. cbv zeta. case_bool_decide as Hf; cbn [andb]; [|by apply record_wp].
  case_bool_decide as Hs; [|by apply record_wp].
  assert (Hstay : ∀ e, Inv calm (disk w) ∧ (swallowed e = true → envelope_post P path (disk w) false (disk w))).
  { intros e. split; [exact Hi|]. intros _. by eapply stays, artifact_handled. }
  apply on_store_reads.
  - unfold CampaignStore.read_object, mbind, prog_bind, read_disk. simpl.
    by destruct (CampaignStore.files _ !! _) as [[]|].
  - intros stored _. destruct (episode_of_dict (without_key "attempt_id" stored)) as [existing|e]; [|apply Hstay].
    apply wp_ok. destruct (same_attempt existing r); [|by apply record_wp]. split; [exact Hi|]. by eapply stays, artifact_handled.
  - intros [e|] _; [apply Hstay|by eapply inv_uncalm].
Qed.

Lemma terminal_wp :
  wp (ingest_envelope root queue_root path) w (settled (envelope_post P path (disk w))).
Proof.
  unfold ingest_envelope. apply settled_read. rewrite Hx, Hroot, String.eqb_refl. cbn [negb].
  pose proof record_payload_wp as Hrec. unfold payload_of in Hrec.
  destruct (obj_get "result" (result x)) as [ | | | | | | |p]; [..|by apply Hrec].
  all: apply wp_assoc, settled_manifest; [exact Hi|]; apply settled_attempt; [exact Hi|]; exact Hrec.
Qed.
End envelope.
Lemma ingest_envelope_wp P path w :
  Inv calm (disk w) → rows_from P (disk w) → P path → is_Some (terminal_at path (disk w)) →
  wp (ingest_envelope root queue_root path) w (settled (envelope_post P path (disk w))).
Proof.
  intros Hi HP Hpath [x Hx]. destruct (decide (campaign_root (term_job x) = root)) as [Hroot|Hroot].
  - by apply terminal_wp with x.
  - unfold ingest_envelope. apply settled_read. rewrite Hx, (proj2 (String.eqb_neq _ _) Hroot). cbn [negb].
    apply settled_ret; [exact Hi|]. apply stays; [exact HP|]. intros x' r Hx'. rewrite Hx in Hx'. by injection Hx' as <-.
Qed.

(** *** Ingesting all *)

Lemma ingest_all_wp others P paths n w :
  fair others → Inv calm (disk w) → rows_from P (disk w) →
  (∀ path, path ∈ paths → P path ∧ is_Some (terminal_at path (disk w))) →
  wp (ingest_all root queue_root others paths n) w
    (settled (λ _ d', rows_from P d' ∧ later (disk w) d' ∧ ∀ path, path ∈ paths → handled path d')).
Proof.
  intros Hf. revert n w. induction paths as [|path paths IH]; intros n w Hi HP Hpaths.
  - apply settled_ret; [exact Hi|]. split; [exact HP|]. split; [done|]. by intros ? ?%elem_of_nil.
  - cbn [ingest_all]. apply settled_meanwhile; [exact Hf|exact Hi|]. intros w1 Hi1 Hm.
    pose proof (moved_later _ _ Hm) as Hl1.
    assert (Hp1 : ∀ p, p ∈ path :: paths → P p ∧ is_Some (terminal_at p (disk w1))).
    { intros p Hp. destruct (Hpaths p Hp) as [H1 [x H2]]. split; [exact H1|]. exists x. by apply (lt_terminal _ _ Hl1). }
    assert (HP1 : rows_from P (disk w1)) by by eapply rows_moved.
    destruct (Hp1 path) as [Hpath Hsome]; [by left|].
    eapply settled_bind; [by apply ingest_envelope_wp|]. intros new w2 Hi2 (HP2 & Hl2 & Hh2).
    eapply wp_mono; [|apply IH; [exact Hi2|exact HP2|]].
    + intros w3 [a|[e|]] H3; [|exact H3..]. destruct H3 as (Hi3 & HP3 & Hl3 & Hh3). split; [exact Hi3|].
      split; [exact HP3|]. split; [by do 2 (etrans; [eassumption|])|].
      intros p [-> |Hp]%elem_of_cons; [|by apply Hh3]. eapply handled_later; [|exact Hl3|exact Hh2].
      destruct Hsome as [x Hx]. exists x. by apply (lt_terminal _ _ Hl2).
    + intros p Hp. destruct (Hp1 p) as [H1 [x H2]]; [by right|]. split; [exact H1|]. exists x. by apply (lt_terminal _ _ Hl2).
Qed.

(** What is known after ingesting: everything that had ended is handled, and a valid attempt
    is counted. *)
Definition ingested (d0 d : t) : Prop :=
  later d0 d ∧ (∀ path, is_Some (terminal_at path d0) → handled path d) ∧
  (∀ row, row ∈ CampaignStore.records CampaignStore.attempts (store d) → ∃ r path x,
     row = row_of r ∧ terminal_at path d = Some x ∧ campaign_root (term_job x) = root ∧
     record_of path x = Ok r ∧ admissible m bundle r ∧
     (status r = valid → counted (EvolutionModels.logical_id r) (store d))).

Lemma ingest_wp others w :
  fair others → Inv calm (disk w) →
  wp (ingest_queue_results root queue_root others) w (settled (λ _ d', ingested (disk w) d')).
Proof.
  intros Hf Hi. unfold ingest_queue_results. apply settled_read.
  assert (HP : rows_from (λ p, p ∈ terminal_envelope_paths (disk w)) (disk w)).
  { intros row Hrow. destruct (i_rows _ _ Hi row Hrow) as (r & path & x & _ & E & Hx & Hrest). exists r, path, x.
    split; [|done]. apply elem_of_terminal_paths. by exists x. }
  eapply settled_bind; [apply ingest_all_wp; [exact Hf|exact Hi|exact HP|]|].
  { intros p Hp. split; [exact Hp|]. by apply elem_of_terminal_paths. }
  intros n w' Hi' (HP' & Hl & Hh). apply settled_read, settled_ret; [exact Hi'|]. split; [exact Hl|]. split.
  - intros path Hs. by apply Hh, elem_of_terminal_paths.
  - intros row Hrow. destruct (HP' row Hrow) as (r & path & x & Hp & E & Hx & Hroot & Hr & Ha).
    exists r, path, x. do 5 (split; [done|]). by apply (Hh path Hp x r).
Qed.
(** *** Counting attempts *)

Definition number_of (row : json_object) : nat :=
  match obj_get "attempt_index" row with NInt z => Z.to_nat z | _ => O end.
Lemma row_of_number r : number_of (row_of r) = Z.to_nat (EvolutionModels.attempt_index r).
Proof. unfold number_of, row_of, obj_get. by rewrite sorted_object_lookup by apply row_of_keys. Qed.

Definition rows_of_rollout (i : nat) (d : t) : AppendOnlyLedger.t :=
  bfilter (is_of (rid i)) (CampaignStore.records CampaignStore.attempts (store d)).

Lemma elem_of_rollout_rows c i d row :
  Inv c d → row ∈ rows_of_rollout i d → ∃ r path x a,
    slot i a ∧ known i a d ∧ row = row_of r ∧ attempt_id r = attempt_name m i a ∧
    EvolutionModels.logical_id r = rid i ∧ EvolutionModels.attempt_index r = a ∧
    terminal_at path d = Some x ∧ campaign_root (term_job x) = root ∧ record_of path x = Ok r ∧ own_job i a (term_job x).
Proof.
  intros Hi [Hof Hin]%elem_of_bfilter. destruct (i_rows _ _ Hi row Hin) as (r & path & x & _ & -> & Hx & Hroot & Hr & _).
  destruct (record_slot _ _ _ _ _ Hi Hx Hroot Hr) as (i' & a & Hs & Hk & Hown & Hlid & Hidx & Hname & _).
  unfold is_of in Hof. apply bool_decide_eq_true in Hof. rewrite row_of_logical, Hlid in Hof.
  assert (rid i' = rid i) as ->%rollout_id_inj by congruence. exists r, path, x, a. done.
Qed.

Lemma NoDup_fmap_coarser {A B C} (f : A → B) (g : A → C) (l : list A) :
  NoDup (g <$> l) → (∀ x y, x ∈ l → y ∈ l → f x = f y → g x = g y) → NoDup (f <$> l).
Proof.
  intros Hg. induction l as [|x l IH]; intros H; [constructor|]. apply NoDup_cons in Hg as [Hx Hg].
  apply NoDup_cons. split; [|apply IH; [done|]; intros; apply H; by try right].
  intros (y & E & Hy)%list_elem_of_fmap. apply Hx. apply list_elem_of_fmap. exists y. split; [|done].
  apply H; [by left|by right|done].
Qed.

Lemma rollout_numbers c i d :
  Inv c d → NoDup (number_of <$> rows_of_rollout i d).
Proof.
  intros Hi. apply (NoDup_fmap_coarser _ (AppendOnlyLedger.identity "attempt_id")).
  - eapply sublist_NoDup; [|apply (fmap_sublist (AppendOnlyLedger.identity "attempt_id")), bfilter_sublist].
    apply (so_wf _ _ _ (i_store _ _ Hi) CampaignStore.attempts).
  - intros row row' Hrow Hrow'. destruct (elem_of_rollout_rows _ _ _ _ Hi Hrow) as (r & _ & _ & a & Hs & _ & -> & Hn & _ & Ha & _).
    destruct (elem_of_rollout_rows _ _ _ _ Hi Hrow') as (r' & _ & _ & a' & Hs' & _ & -> & Hn' & _ & Ha' & _).
    rewrite !row_of_number, Ha, Ha', !row_of_id, Hn, Hn'. intros E. assert (a = a') as ->; [|done].
    destruct Hs as [_ ?], Hs' as [_ ?]. lia.
Qed.

(** The ledger holds all attempts of the sequence, or all but the last. *)
Lemma attempts_counted c i k d :
  Inv c d → in_sequence i k d → Z.of_nat k - 1 ≤ attempts_of (rid i) (store d) ≤ Z.of_nat k ∧
  (attempts_of (rid i) (store d) = Z.of_nat k → ∀ a, 0 ≤ a < Z.of_nat k → ∃ row r, row ∈ rows_of_rollout i d ∧
     row = row_of r ∧ EvolutionModels.logical_id r = rid i ∧ EvolutionModels.attempt_index r = a).
Proof.
  intros Hi (Hk & Hknown & Hrec). unfold attempts_of. rewrite <- zlen_bfilter. fold (rows_of_rollout i d).
  pose proof (rollout_numbers c i d Hi) as Hnd.
  assert (Hsub : number_of <$> rows_of_rollout i d ⊆+ seq 0 k).
  { apply NoDup_submseteq; [exact Hnd|]. intros x (row & -> & Hrow)%list_elem_of_fmap.
    destruct (elem_of_rollout_rows _ _ _ _ Hi Hrow) as (r & _ & _ & a & Hs & Hka & -> & _ & _ & Ha & _).
    rewrite row_of_number, Ha. apply Hknown in Hka; [|done]. destruct Hs as [_ ?]. apply elem_of_seq. lia. }
  assert (Hlen : zlen (rows_of_rollout i d) = Z.of_nat (length (number_of <$> rows_of_rollout i d)))
    by (unfold zlen; by rewrite length_fmap).
  split; [split|].
  - assert (seq 0 (k - 1) ⊆+ number_of <$> rows_of_rollout i d) as Hs%submseteq_length; [|rewrite length_seq in Hs; lia].
    apply NoDup_submseteq; [apply NoDup_seq|]. intros x Hx%elem_of_seq.
    destruct (Hrec (Z.of_nat x)) as (r & Hin & Hlid & Hidx & _); [lia|]. apply list_elem_of_fmap. exists (row_of r).
    rewrite row_of_number, Hidx. split; [lia|]. apply elem_of_bfilter. split; [|done].
    unfold is_of. apply bool_decide_eq_true. by rewrite row_of_logical, Hlid.
  - apply submseteq_length in Hsub. rewrite length_seq in Hsub. lia.
  - intros E a Ha. apply submseteq_length_Permutation in Hsub; [|rewrite length_seq; lia].
    assert (Z.to_nat a ∈ number_of <$> rows_of_rollout i d) as (row & Ea & Hrow)%list_elem_of_fmap.
    { rewrite Hsub. apply elem_of_seq. lia. }
    destruct (elem_of_rollout_rows _ _ _ _ Hi Hrow) as (r & _ & _ & a' & [_ Hs] & _ & -> & _ & Hlid & Hidx & _).
    rewrite row_of_number, Hidx in Ea. exists (row_of r), r. split; [done|]. split; [done|]. split; [done|]. lia.
Qed.

(** *** Building jobs *)

(** A job to enqueue: the next attempt of an episode all of whose attempts are invalid. *)
Definition planned (d : t) (j : RolloutJob) : Prop := ∃ i k,
  own_job i (Z.of_nat k) j ∧ in_sequence i k d ∧ (∀ a, 0 ≤ a < Z.of_nat k → infra_recorded i a d).

Lemma not_completed lid d : completed lid (store d) = false → ¬ counted lid (store d).
Proof.
  intros H (row & Hin & E). assert (completed lid (store d) = true); [|congruence].
  apply existsb_exists. exists row. split; [by apply list_elem_of_In|]. unfold is_of. by apply bool_decide_eq_true.
Qed.

Lemma next_attempt_planned d i j :
  Inv calm d → (i < length (CampaignManifest.rollout_seeds m))%nat →
  (∀ row, row ∈ CampaignStore.records CampaignStore.attempts (store d) → ∃ r, row = row_of r ∧
     (status r = valid → counted (EvolutionModels.logical_id r) (store d))) →
  completed (rid i) (store d) = false →
  let a := attempts_of (rid i) (store d) in
  ¬ (CampaignManifest.max_infrastructure_attempts m ≤ a) → ¬ known i a d → own_job i a j → planned d j.
Proof.
  intros Hi Hlt Hvalid Hc%not_completed a Hmax Hnew Hown. destruct (i_seq _ _ Hi i Hlt) as [k Hk].
  destruct (attempts_counted _ _ _ _ Hi Hk) as [Hb Hall]. fold a in Hb, Hall.
  assert (Hs : slot i a) by apply Hown. pose proof Hk as (Hk1 & Hk2 & Hk3).
  assert (Ea : a = Z.of_nat k) by (rewrite Hk2 in Hnew by done; lia). exists i, k. rewrite <- Ea.
  split; [done|]. split; [done|]. intros b Hbk. destruct (Hall Ea b ltac:(lia)) as (row & r & Hrow & -> & Hlid & Hidx).
  apply elem_of_bfilter in Hrow as [_ Hin]. exists r. split; [done|]. split; [done|]. split; [done|].
  destruct (Hvalid _ Hin) as (r' & E & Hv). assert (status r' = status r ∧ EvolutionModels.logical_id r' = rid i) as [Es El].
  { pose proof (f_equal (obj_get "status") E) as E1. rewrite !row_of_status in E1.
    pose proof (f_equal (obj_get "logical_id") E) as E2. rewrite !row_of_logical, Hlid in E2.
    split; [|congruence]. destruct (status r), (status r'); done. }
  destruct (status r) eqn:Est; [|done]. exfalso. apply Hc. rewrite <- El. by apply Hv.
Qed.
Lemma rollout_job_fields template b file lid a seed j :
  rollout_job root m template b file lid a seed = Ok j →
  job_id j = rollout_job_id m lid a ∧ HostQueue.logical_id j = lid ∧ HostQueue.attempt_index j = a ∧ campaign_root j = root.
Proof.
  unfold rollout_job. cbv zeta. destruct (assoc_lookup _ _) as [rng|]; [|done].
  by intros (command & _ & [= <-])%outcome_bind_ok.
Qed.

(** What the loop over the seeds answers for the rollouts from [index] on. *)
Lemma missing_jobs_spec template b file d existing seeds index jobs blocked :
  missing_jobs root m template b file (store d) existing index seeds = Ok (jobs, blocked) →
  NoDup (HostQueue.logical_id <$> jobs) ∧
  (∀ j, j ∈ jobs → ∃ i, (index ≤ i < index + length seeds)%nat ∧
     (let a := attempts_of (rid i) (store d) in completed (rid i) (store d) = false ∧
      ¬ (CampaignManifest.max_infrastructure_attempts m ≤ a) ∧ slot_job i a ∉ existing ∧
      rollout_job root m template b file (rid i) a (default 0 (seeds !! (i - index)%nat)) = Ok j)) ∧
  (∀ i, (index ≤ i < index + length seeds)%nat → completed (rid i) (store d) = true ∨
     (rid i ∈ blocked ∧ CampaignManifest.max_infrastructure_attempts m ≤ attempts_of (rid i) (store d)) ∨
     (¬ (CampaignManifest.max_infrastructure_attempts m ≤ attempts_of (rid i) (store d)) ∧
      slot_job i (attempts_of (rid i) (store d)) ∈ existing ++ (job_id <$> jobs))).
Proof.
  revert index jobs blocked. induction seeds as [|seed seeds IH]; intros index jobs blocked; cbn [missing_jobs length].
  { intros [= <- <-]. split; [constructor|]. split; [by intros j ?%elem_of_nil|]. lia. }
  set (a := attempts_of (rid index) (store d)).
  assert (Hnext : ∀ js bl, missing_jobs root m template b file (store d) existing (S index) seeds = Ok (js, bl) →
    (∀ j, j ∈ js → j ∈ jobs) → (∀ id, id ∈ bl → id ∈ blocked) →
    (completed (rid index) (store d) = true ∨ (rid index ∈ blocked ∧ CampaignManifest.max_infrastructure_attempts m ≤ a) ∨
      (¬ (CampaignManifest.max_infrastructure_attempts m ≤ a) ∧ slot_job index a ∈ existing ++ (job_id <$> jobs))) →
    (∀ j, j ∈ js → ∃ i, (index < i < index + S (length seeds))%nat ∧
      (let a := attempts_of (rid i) (store d) in completed (rid i) (store d) = false ∧
       ¬ (CampaignManifest.max_infrastructure_attempts m ≤ a) ∧ slot_job i a ∉ existing ∧
       rollout_job root m template b file (rid i) a (default 0 ((seed :: seeds) !! (i - index)%nat)) = Ok j)) ∧
    NoDup (HostQueue.logical_id <$> js) ∧
    (∀ i, (index ≤ i < index + S (length seeds))%nat → completed (rid i) (store d) = true ∨
     (rid i ∈ blocked ∧ CampaignManifest.max_infrastructure_attempts m ≤ attempts_of (rid i) (store d)) ∨
     (¬ (CampaignManifest.max_infrastructure_attempts m ≤ attempts_of (rid i) (store d)) ∧
      slot_job i (attempts_of (rid i) (store d)) ∈ existing ++ (job_id <$> jobs)))).
  { intros js bl E Hjs Hbl Hthis. destruct (IH (S index) js bl E) as (H1 & H2 & H3). split; [|split; [exact H1|]].
    - intros j Hj. destruct (H2 j Hj) as (i & Hi & Hc & Hm & Hn & Hr). exists i. split; [lia|].
      replace (i - index)%nat with (S (i - S index)) by lia. done.
    - intros i Hi. destruct (decide (i = index)) as [->|Hne]; [exact Hthis|].
      destruct (H3 i ltac:(lia)) as [H|[[H H']|[Hm H]]]; [by left|right; left; auto|right; right; split; [done|]].
      apply elem_of_app in H as [H|H]; apply elem_of_app; [by left|right].
      apply list_elem_of_fmap in H as (j & -> & Hj). apply list_elem_of_fmap. eauto. }
  destruct (completed (rid index) (store d)) eqn:Hc.
  { intros E. destruct (Hnext jobs blocked E) as (H1 & H2 & H3); [auto..|]. split; [done|]. split; [|done].
    intros j Hj. destruct (H1 j Hj) as (i & Hi & H). exists i. split; [lia|done]. }
  destruct (Z.leb_spec (CampaignManifest.max_infrastructure_attempts m) a) as [Hmax|Hmax].
  { intros ([js bl] & E & [= <- <-])%outcome_bind_ok. cbn [fst snd] in *.
    destruct (Hnext js bl E) as (H1 & H2 & H3); [done|by intros; right|right; left; split; [by left|done]|].
    split; [done|]. split; [|done]. intros j Hj. destruct (H1 j Hj) as (i & Hi & H). exists i. split; [lia|done]. }
  unfold member. case_bool_decide as Hex.
  { intros E. destruct (Hnext jobs blocked E) as (H1 & H2 & H3); [done..|right; right; split; [lia|apply elem_of_app; by left]|].
    split; [done|]. split; [|done]. intros j Hj. destruct (H1 j Hj) as (i & Hi & H). exists i. split; [lia|done]. }
  intros (j0 & Hj0 & ([js bl] & E & [= <- <-])%outcome_bind_ok)%outcome_bind_ok. cbn [fst snd] in *.
  destruct (rollout_job_fields _ _ _ _ _ _ _ Hj0) as (Hjid & Hlid & _).
  destruct (Hnext js bl E) as (H1 & H2 & H3); [by intros; right|done| |].
  { right; right. split; [lia|]. apply elem_of_app. right. apply list_elem_of_fmap. exists j0. split; [by symmetry|by left]. }
  split; [|split; [|done]].
  - cbn. apply NoDup_cons. split; [|done]. intros (j & Ej & Hj)%list_elem_of_fmap. destruct (H1 j Hj) as (i & Hi & _ & _ & _ & Hr).
    destruct (rollout_job_fields _ _ _ _ _ _ _ Hr) as (_ & El & _).
    rewrite El, Hlid in Ej. apply rollout_id_inj in Ej. lia.
  - intros j [-> |Hj]%elem_of_cons.
    + exists index. split; [lia|]. rewrite Nat.sub_diag. split; [done|]. split; [fold a; lia|done].
    + destruct (H1 j Hj) as (i & Hi & H). exists i. split; [lia|done].
Qed.
(** *** Enqueueing *)

Lemma enqueue_cases mt j w :
  wp (SharedHostQueue.enqueue mt j) w (λ w' o,
    (disk w' = disk w ∨ ∃ name, SharedHostQueue.filed (job_id j) name ∧ SharedHostQueue.pending (disk w) !! name = None ∧
       disk w' = SharedHostQueue.set_pending (<[name := File mt (Pending j)]> (SharedHostQueue.pending (disk w))) (disk w)) ∧
    ∀ n, o = Ok n → job_id j ∈ SharedHostQueue.known_job_ids (disk w')).
Proof.
  unfold wp, after, result_of, SharedHostQueue.enqueue, mbind, prog_bind.
  destruct (SharedHostQueue.job_filename_spec (job_id j) w) as [(name & -> & Hn)|[e ->]]; [|by split; [left|]].
  cbn [read_disk]. assert (Hknown : ∀ q f, SharedHostQueue.pending q !! name = Some f → job_id (SharedHostQueue.job_of f) = job_id j →
    job_id j ∈ SharedHostQueue.known_job_ids q).
  { intros q f Hf Ej. apply SharedHostQueue.elem_of_known. left. by exists name, f. }
  destruct (SharedHostQueue.pending (disk w) !! name) as [f|] eqn:Hf.
  - destruct (contents f) as [|j'| |] eqn:Hc; try (by split; [left|]).
    case_bool_decide as Ej; [|by split; [left|]]. split; [by left|]. intros n0 _. apply (Hknown _ f Hf).
    unfold SharedHostQueue.job_of. by rewrite Hc, <- Ej.
  - unfold durable. destruct (budget w); cbn; [by split; [left|]|]. split; [right; by exists name|].
    intros n0 _. eapply Hknown; [cbn; apply lookup_insert_eq|done].
Qed.

(** One more attempt of a rollout. *)
Lemma enqueue_inv d h q' i k j :
  collision_free → Inv calm d → own_job i (Z.of_nat k) j → in_sequence i k d →
  (∀ a, 0 ≤ a < Z.of_nat k → infra_recorded i a d) →
  (∃ name mt, SharedHostQueue.filed (job_id j) name ∧ SharedHostQueue.pending (queue h d) !! name = None ∧
     q' = SharedHostQueue.set_pending (<[name := File mt (Pending j)]> (SharedHostQueue.pending (queue h d))) (queue h d)) →
  let d' := set_queues (<[h := q']> (queues d)) d in
  Inv calm d' ∧ later d d' ∧ known i (Z.of_nat k) d' ∧
  (∀ i' a, slot i' a → known i' a d' ↔ known i' a d ∨ (i' = i ∧ a = Z.of_nat k)).
Proof.
  intros Hcf Hi Hown Hseq Hrec (name & mt & Hn & Hnone & Eq) d'.
  assert (Hq : ∀ h', queue h' d' = if decide (h' = h) then q' else queue h' d).
  { intros h'. unfold d', set_queues. rewrite queue_insert. by destruct d. }
  assert (Hjobs : ∀ h' j', SharedHostQueue.holds_job (queue h' d') j' ↔ SharedHostQueue.holds_job (queue h' d) j' ∨ (h' = h ∧ j' = j)).
  { intros h' j'. rewrite Hq. case_decide as E; [subst h'|naive_solver]. rewrite Eq. split.
    - intros (n & f & Hf & <-). simpl in Hf. rewrite lookup_insert_Some in Hf.
      destruct Hf as [[[<- <-]|[_ Hf]]|Hf]; [by right|left|left]; exists n, f; auto.
    - intros [(n & f & Hf & <-)|[_ ->]]; [|exists name, (File mt (Pending j)); simpl; rewrite lookup_insert_eq; auto].
      exists n, f. simpl. rewrite lookup_insert_Some. split; [|done]. destruct Hf as [Hf|Hf]; [left; right|by right].
      split; [congruence|done]. }
  assert (Hbucket : ∀ ok h', SharedHostQueue.bucket ok (queue h' d') = SharedHostQueue.bucket ok (queue h' d)).
  { intros ok h'. rewrite Hq. case_decide as E; [|done]. subst h'. rewrite Eq. by destruct ok. }
  assert (Hknown : ∀ i' a, slot i' a → known i' a d' ↔ known i' a d ∨ (i' = i ∧ a = Z.of_nat k)).
  { intros i' a Hs. unfold known. rewrite !elem_of_farm_known. setoid_rewrite Hjobs. split.
    - intros (h' & j' & [Hj|[-> ->]] & Hid); [left; eauto|right]. destruct Hown as (Hs' & Hid' & _). rewrite Hid' in Hid.
      by destruct (Hcf _ _ _ _ Hs' Hs Hid) as [<- <-].
    - intros [(h' & j' & Hj & Hid)|[-> ->]]; [exists h', j'; auto|]. exists h, j. split; [by right|apply Hown]. }
  assert (Hterm : ∀ path, terminal_at path d' = terminal_at path d) by (intros path; unfold terminal_at; by rewrite Hbucket).
  split; [|split; [split; [by intros; rewrite Hterm|done..]|split; [by apply Hknown; [apply Hown|right]|exact Hknown]]].
  pose proof Hi as [H1 H2 H3 H4 H5 H6 H7 H8]. split; [..|exact H8].
  - intros h'. rewrite Hq. case_decide as E; [|apply H1]. rewrite Eq.
    eapply (SharedHostQueue.effect_wf SharedHostQueue.any_job); [|apply (H1 h)]. by apply SharedHostQueue.e_enqueue.
  - intros h' j' [Hj|[_ ->]]%Hjobs; [by eapply H2|left; eauto].
  - intros h' ok n f x. rewrite Hbucket. apply H3.
  - exact H4.
  - intros row Hrow. destruct (H5 row Hrow) as (r & path & x & Hp & E & Hx & Hrest). exists r, path, x. by rewrite Hterm.
  - intros i' Hi'. destruct (decide (i' = i)) as [->|Hne].
    + exists (S k). destruct Hown as ([_ Hs] & _), Hseq as (K1 & K2 & K3). split; [lia|]. split.
      * intros a Ha. rewrite Hknown, K2 by done. destruct Ha as [_ ?]. split; [intros [?|[_ ?]]; lia|].
        intros ?. destruct (decide (a = Z.of_nat k)); [by right|left; lia].
      * intros a Ha. apply Hrec. lia.
    + destruct (H6 i' Hi') as (k' & K1 & K2 & K3). exists k'. split; [done|]. split; [|exact K3].
      intros a Ha. rewrite Hknown, K2 by done. naive_solver.
  - exact H7.
Qed.
(** Writing back the queue that was read. *)
Lemma rewritten_inv c d h :
  Inv c d → let d' := set_queues (<[h := queue h d]> (queues d)) d in Inv c d' ∧ moved d d'.
Proof.
  intros Hi d'.
  assert (Hq : ∀ h', queue h' d' = queue h' d).
  { intros h'. unfold d', set_queues. rewrite queue_insert. case_decide as E; [by subst|by destruct d]. }
  assert (Hm : moved d d').
  { split; [done| |].
    - intros i a _. unfold known. rewrite !elem_of_farm_known. by setoid_rewrite Hq.
    - intros path x. unfold terminal_at. by rewrite Hq. }
  split; [|exact Hm]. apply (inv_moved c d); [exact Hi|exact Hm| | |].
  - intros h'. rewrite Hq. apply Hi.
  - intros h' j. rewrite Hq. by left.
  - intros h'. rewrite Hq. apply Hi.
Qed.

Lemma planned_moved d d' j : moved d d' → planned d j → planned d' j.
Proof.
  intros Hm (i & k & Hown & Hseq & Hrec). exists i, k. split; [done|]. split.
  - eapply in_sequence_moved; [apply Hown|exact Hm|exact Hseq].
  - intros a Ha. unfold infra_recorded. rewrite (mv_store _ _ Hm). by apply Hrec.
Qed.

(** The queues may have got more jobs, the store is the same. *)
Record extended (d d' : t) : Prop := {
  ex_later : later d d';
  ex_store : store d' = store d;
  ex_known i a : slot i a → known i a d → known i a d';
}.
Lemma extended_refl d : extended d d.
Proof. by split. Qed.
Lemma extended_trans d1 d2 d3 : extended d1 d2 → extended d2 d3 → extended d1 d3.
Proof. intros [L1 S1 K1] [L2 S2 K2]. split; [by etrans|congruence|auto]. Qed.
Lemma moved_extended d d' : moved d d' → extended d d'.
Proof. intros Hm. split; [by apply moved_later|apply Hm|]. intros i a Ha. by rewrite (mv_known _ _ Hm). Qed.

Lemma enqueue_one_wp h mt j w :
  collision_free → Inv calm (disk w) → planned (disk w) j →
  wp (on_queue h (SharedHostQueue.enqueue mt j)) w (settled (λ _ d',
    extended (disk w) d' ∧ (∃ i a, own_job i a j ∧ known i a d') ∧
    ∀ j', HostQueue.logical_id j' ≠ HostQueue.logical_id j → planned (disk w) j' → planned d' j')).
Proof.
  intros Hcf Hi (i & k & Hown & Hseq & Hrec). apply on_queue_wp. eapply wp_mono; [|apply enqueue_cases].
  intros s o [Hs Hk]. cbn [disk] in Hs, Hk.
  assert (H : Inv calm (set_queues (<[h := disk s]> (queues (disk w))) (disk w)) ∧
    let d' := set_queues (<[h := disk s]> (queues (disk w))) (disk w) in
    extended (disk w) d' ∧
    (∀ j', HostQueue.logical_id j' ≠ HostQueue.logical_id j → planned (disk w) j' → planned d' j')).
  { destruct Hs as [-> |(name & Hn & Hnone & Hd)].
    - destruct (rewritten_inv calm (disk w) h Hi) as [H1 H2]. split; [exact H1|]. split; [by apply moved_extended|].
      intros j' _. by apply planned_moved.
    - destruct (enqueue_inv (disk w) h (disk s) i k j Hcf Hi Hown Hseq Hrec) as (H1 & H2 & _ & H4); [eauto|].
      split; [exact H1|]. split; [split; [exact H2|done|intros i' a Ha Hka; rewrite H4 by done; by left]|].
      intros j' Hne (i' & k' & Hown' & (K1 & K2 & K3) & Hrec'). exists i', k'. split; [done|]. split; [|exact Hrec'].
      split; [done|]. split; [|exact K3]. intros a Ha. rewrite H4, K2 by done.
      split; [|by left]. intros [?|[-> _]]; [done|]. exfalso. apply Hne.
      destruct Hown' as (_ & _ & -> & _), Hown as (_ & _ & -> & _). done. }
  destruct H as (H1 & H2 & H4). destruct o as [n|[e|]]; cbn [lift_stop]; [|exact H1|by eapply inv_uncalm].
  split; [exact H1|]. split; [exact H2|]. split; [|exact H4].
  exists i, (Z.of_nat k). split; [done|]. specialize (Hk n eq_refl). apply SharedHostQueue.elem_of_known_jobs in Hk as (j' & Hj' & Hid).
  unfold known. rewrite elem_of_farm_known. exists h, j'. split; [|destruct Hown as (_ & <- & _); done].
  cbn [disk]. unfold set_queues. by rewrite queue_insert, decide_True.
Qed.

Lemma enqueue_all_wp others mt todo w :
  collision_free → fair others → Inv calm (disk w) →
  NoDup (HostQueue.logical_id <$> todo.*2) → (∀ j, j ∈ todo.*2 → planned (disk w) j) →
  wp (enqueue_all others mt todo) w (settled (λ _ d',
    extended (disk w) d' ∧ ∀ j, j ∈ todo.*2 → ∃ i a, own_job i a j ∧ known i a d')).
Proof.
  intros Hcf Hf. revert w. induction todo as [|[h j] todo IH]; intros w Hi Hnd Hp.
  - apply settled_ret; [exact Hi|]. split; [apply extended_refl|]. by intros ? ?%elem_of_nil.
  - cbn [enqueue_all]. apply settled_meanwhile; [exact Hf|exact Hi|]. intros w1 Hi1 Hm.
    apply NoDup_cons in Hnd as [Hne Hnd].
    eapply settled_bind; [apply enqueue_one_wp; [exact Hcf|exact Hi1|eapply planned_moved, Hp; [exact Hm|by left]]|].
    intros n w2 Hi2 (Hx2 & (i & a & Hown & Hka) & Hp2).
    eapply wp_mono; [|apply IH; [exact Hi2|exact Hnd|]].
    + intros w3 [x|[e|]] H3; [|exact H3..]. destruct H3 as (Hi3 & Hx3 & Hall). split; [exact Hi3|]. split.
      * eapply extended_trans; [by apply moved_extended|]. by eapply extended_trans.
      * intros j' [-> |Hj']%elem_of_cons; [|by apply Hall]. exists i, a. split; [done|].
        by apply (ex_known _ _ Hx3); [apply Hown|].
    + intros j' Hj'. apply Hp2; [|eapply planned_moved, Hp; [exact Hm|by right]].
      intros E. apply Hne. apply list_elem_of_fmap. by exists j'.
Qed.

(** *** The plan *)

Lemma assigned_jobs task jobs hosts assignments :
  SharedHostQueue.round_robin_assign (<[task := jobs]> ∅) hosts = Ok assignments → assignments.*2 ≡ₚ jobs.
Proof.
  destruct hosts as [|h hosts]; [done|]. intros E.
  destruct (SharedHostQueue.round_robin_assigns_all (<[task := jobs]> ∅) h hosts) as (l & E' & Hp & _).
  rewrite E in E'. injection E' as <-. rewrite Hp. assert (values (<[task := jobs]> (∅ : pydict string (list RolloutJob))) = [jobs]) as -> by done.
  simpl. by rewrite app_nil_r.
Qed.

(** What a plan promises of the farm it was made on. *)
Record plan_for (d : t) (plan : list (string * RolloutJob) * list string) : Prop := {
  pl_distinct : NoDup (HostQueue.logical_id <$> plan.1.*2);
  pl_planned j : j ∈ plan.1.*2 → planned d j;
  pl_complete i : (i < length (CampaignManifest.rollout_seeds m))%nat →
    completed (rid i) (store d) = true ∨
    (rid i ∈ plan.2 ∧ CampaignManifest.max_infrastructure_attempts m ≤ attempts_of (rid i) (store d)) ∨
    (slot i (attempts_of (rid i) (store d)) ∧ known i (attempts_of (rid i) (store d)) d) ∨
    (slot i (attempts_of (rid i) (store d)) ∧ ∃ j, j ∈ plan.1.*2 ∧ job_id j = slot_job i (attempts_of (rid i) (store d)));
}.

Definition valid_counted (d : t) : Prop := ∀ row,
  row ∈ CampaignStore.records CampaignStore.attempts (store d) → ∃ r, row = row_of r ∧
    (status r = valid → counted (EvolutionModels.logical_id r) (store d)).

Lemma missing_jobs_plan d template b file jobs blocked assignments hosts :
  Inv calm d → valid_counted d →
  missing_jobs root m template b file (store d) (known_job_ids d) 0 (CampaignManifest.rollout_seeds m) = Ok (jobs, blocked) →
  SharedHostQueue.round_robin_assign (<[CampaignManifest.task m := jobs]> ∅) hosts = Ok assignments →
  plan_for d (assignments, sort_by str_leb blocked).
Proof.
  intros Hi Hv Hm%missing_jobs_spec Ha%assigned_jobs. destruct Hm as (H1 & H2 & H3).
  assert (Hslot : ∀ i, (i < length (CampaignManifest.rollout_seeds m))%nat →
    ¬ (CampaignManifest.max_infrastructure_attempts m ≤ attempts_of (rid i) (store d)) → slot i (attempts_of (rid i) (store d))).
  { intros i Hlt Hmax. split; [done|]. unfold attempts_of in *.
    pose proof (count_bounds (is_of (rid i)) (CampaignStore.records CampaignStore.attempts (store d))). lia. }
  split; cbn [fst snd].
  - by rewrite Ha.
  - intros j. rewrite Ha. intros Hj. destruct (H2 j Hj) as (i & Hlt & Hc & Hmax & Hnew & Hr). cbn in Hlt.
    apply (next_attempt_planned d i); [done|lia|done..|].
    destruct (rollout_job_fields _ _ _ _ _ _ _ Hr) as (? & ? & ? & ?). split; [|done]. by apply Hslot; [lia|].
  - intros i Hlt. destruct (H3 i ltac:(cbn; lia)) as [Hc|[[Hb Hmax]|[Hmax Hk]]]; [by left|right; left|right; right].
    + by rewrite elem_of_sort_by.
    + apply elem_of_app in Hk as [Hk|(j & Ej & Hj)%list_elem_of_fmap]; [left; split; [by apply Hslot|done]|right].
      split; [by apply Hslot|]. exists j. by rewrite Ha.
Qed.

Lemma build_wp hosts w :
  Inv calm (disk w) → valid_counted (disk w) →
  wp (build_rollout_jobs root elsewhere hosts) w (settled (λ plan d', d' = disk w ∧ plan_for (disk w) plan)).
Proof.
  intros Hi Hv. unfold build_rollout_jobs. apply settled_manifest; [exact Hi|].
  destruct (obj_get "rollout_command" (CampaignManifest.runtime m)) as [ | | | | | |[|part parts]|]; try exact Hi.
  apply wp_mret, settled_state; [exact Hi|]. intros s _ _. apply settled_attempt; [exact Hi|]. intros b _.
  apply settled_read, settled_attempt; [exact Hi|]. intros file _. apply settled_attempt; [exact Hi|]. intros [] _.
  apply settled_attempt; [exact Hi|]. intros [jobs blocked] Hjobs. apply settled_attempt; [exact Hi|].
  intros assignments Ha. unfold lift_queue in Ha. destruct (SharedHostQueue.round_robin_assign _ _) as [l|] eqn:E; [|done].
  injection Ha as <-. apply settled_ret; [exact Hi|]. split; [done|]. by eapply missing_jobs_plan.
Qed.

(** *** Enqueueing what is missing *)

(** The farm after a complete call, where everything that had ended on [d0] is handled. *)
Definition supplied (d : t) (report : enqueue_report) : Prop :=
  ∀ i, (i < length (CampaignManifest.rollout_seeds m))%nat →
    completed (rid i) (store d) = true ∨
    (rid i ∈ blocked report ∧ CampaignManifest.max_infrastructure_attempts m ≤ attempts_of (rid i) (store d)) ∨
    (slot i (attempts_of (rid i) (store d)) ∧ known i (attempts_of (rid i) (store d)) d).

Lemma enqueue_missing_wp others mt hosts w :
  collision_free → fair others → Inv calm (disk w) → valid_counted (disk w) →
  wp (enqueue_missing_rollouts root elsewhere others mt hosts) w
    (settled (λ report d', later (disk w) d' ∧ store d' = store (disk w) ∧ supplied d' report)).
Proof.
  intros Hcf Hf Hi Hv. unfold enqueue_missing_rollouts, require_rollout_phase. apply wp_assoc, settled_state; [exact Hi|].
  intros s _ _. apply wp_assoc, settled_attempt; [exact Hi|]. intros phase _.
  case_bool_decide; [|exact Hi]. apply wp_mret, settled_meanwhile; [exact Hf|exact Hi|]. intros w1 Hi1 Hm1.
  assert (Hv1 : valid_counted (disk w1)) by (unfold valid_counted; by rewrite (mv_store _ _ Hm1)).
  eapply settled_bind; [by apply build_wp|]. intros plan w2 Hi2 [E2 Hplan]. rewrite <- E2 in Hplan.
  eapply settled_bind; [apply enqueue_all_wp; [done|done|done|apply Hplan|by intros; apply Hplan]|].
  intros [] w3 Hi3 [Hx3 Hall]. apply settled_meanwhile; [exact Hf|exact Hi3|]. intros w4 Hi4 Hm4.
  rewrite E2 in Hplan, Hx3. pose proof (extended_trans _ _ _ Hx3 (moved_extended _ _ Hm4)) as Hx.
  apply settled_read, settled_ret; [exact Hi4|]. split; [|split].
  - etrans; [by apply moved_later|apply Hx].
  - rewrite (ex_store _ _ Hx). apply Hm1.
  - intros i Hlt. rewrite (ex_store _ _ Hx). cbn [blocked].
    destruct (pl_complete _ _ Hplan i Hlt) as [Hc|[Hc|[[Hs Hk]|[Hs (j & Hj & Hid)]]]]; [by left|by right; left|right; right..].
    + split; [exact Hs|]. by apply (ex_known _ _ Hx).
    + split; [exact Hs|]. destruct (Hall j Hj) as (i' & a & Hown & Hk). destruct Hown as (Hs' & Hid' & _). rewrite Hid' in Hid.
      destruct (Hcf _ _ _ _ Hs' Hs Hid) as [-> ->]. by rewrite (mv_known _ _ Hm4).
Qed.
(** *** Analysing, and a whole step *)

Lemma inv_aside c d s' : Inv c d → aside m bundle (store d) s' → Inv c (set_store s' d).
Proof.
  intros [H1 H2 H3 H4 H5 H6 H7 H8] (Hok & Hl & Hk & Hf).
  assert (Hr : ∀ l, CampaignStore.records l s' = CampaignStore.records l (store d)) by (intros l; unfold CampaignStore.records; by rewrite Hl).
  split; try done; [| | |by intros Hc; unfold unlocked; cbn [store set_store]; rewrite Hk; apply H8].
  - intros row Hrow. cbn [store set_store] in Hrow. rewrite Hr in Hrow. by apply H5.
  - intros i Hi. destruct (H6 i Hi) as (k & K1 & K2 & K3). exists k. split; [done|]. split; [exact K2|].
    intros a Ha. unfold infra_recorded. cbn [store set_store]. rewrite Hr. by apply K3.
  - intros Hc i a Hs. cbn [store set_store]. rewrite Hf by done. intros Hart. unfold named. rewrite Hr. by apply H7.
Qed.

Lemma on_aside_wp {A} (p : CampaignStore.op A) w :
  Inv calm (disk w) → wp p (World (store (disk w)) (budget w)) (λ w' _, aside m bundle (store (disk w)) (disk w')) →
  wp (on_store p) w (settled (λ _ _, True)).
Proof.
  intros Hi Hp. apply on_store_wp. eapply wp_mono; [|exact Hp]. intros s o Ha. cbn [disk].
  pose proof (inv_aside calm _ _ Hi Ha) as Hi'. destruct o as [a|[e|]]; [by split|exact Hi'|by eapply inv_uncalm].
Qed.

Lemma analyze_wp now w : Inv calm (disk w) → wp (analyze_failures now) w (settled (λ _ _, True)).
Proof.
  intros Hi. unfold analyze_failures. apply settled_manifest; [exact Hi|]. apply settled_read, settled_attempt; [exact Hi|].
  intros records _. cbv zeta. destruct (_ =? _); [|exact Hi]. apply wp_mret, settled_attempt; [exact Hi|]. intros clusters _.
  eapply settled_bind.
  - apply on_aside_wp; [exact Hi|]. pose proof (i_store _ _ Hi) as Hs. apply write_any_wp; [intros _; by apply aside_refl|].
    intros n o. split; [by apply store_ok_write|]. split; [done|]. split; [done|]. intros path _ H0 H1. cbn [disk CampaignStore.files CampaignStore.set_files].
    rewrite lookup_insert_ne; [done|]. intros <-. by vm_compute in H1.
  - intros _ w1 Hi1 _. apply settled_state; [exact Hi1|]. intros s _ _. apply settled_attempt; [exact Hi1|]. intros phase _.
    eapply settled_bind with (Φ := λ _ _, True); [|by intros; apply settled_ret].
    case_bool_decide; [|by apply settled_ret]. apply on_aside_wp; [exact Hi1|]. apply wp_bind.
    eapply wp_mono; [|apply transition_wp, Hi1]. intros w' o Ha. by destruct o.
Qed.

(** What a complete step answers. *)
Definition step_post (d d' : t) (a : action) : Prop :=
  match a with
  | BlockedOnInfrastructure _ report | WaitingForRollouts _ report => ingested d d' ∧ supplied d' report
  | Clustered _ | OtherPhase => True
  end.

Lemma ingested_later d0 d d' : later d d' → store d' = store d → ingested d0 d → ingested d0 d'.
Proof.
  intros Hl Es (H1 & H2 & H3). split; [by etrans|]. split.
  - intros path Hp. eapply handled_later; [|exact Hl|by apply H2]. destruct Hp as [x Hx]. exists x. by apply (lt_terminal _ _ H1).
  - intros row Hrow. rewrite Es in *. destruct (H3 row Hrow) as (r & path & x & E & Hx & Hrest). exists r, path, x.
    split; [exact E|]. split; [by apply (lt_terminal _ _ Hl)|exact Hrest].
Qed.

Lemma step_wp others mt hosts now w :
  collision_free → fair others → Inv calm (disk w) →
  wp (step root queue_root elsewhere others mt hosts now) w (settled (λ a d', step_post (disk w) d' a)).
Proof.
  intros Hcf Hf Hi. unfold step. apply settled_state; [exact Hi|]. intros s _ _.
  apply settled_attempt; [exact Hi|]. intros phase _. case_bool_decide; cbn [negb]; [|by apply settled_ret].
  eapply settled_bind; [by apply ingest_wp|]. intros ingestion w1 Hi1 Hing.
  apply on_store_reads.
  { unfold CampaignStore.status_report, mbind, prog_bind, read_disk. cbn.
    rewrite (manifest_reads m bundle) by apply Hi1.
    destruct (state_reads m bundle (store (disk w1)) (budget w1)) as (s1 & -> & _); [apply Hi1|done]. }
  2:{ intros [e|] _; [exact Hi1|by eapply inv_uncalm]. }
  intros status _. apply settled_manifest; [exact Hi1|]. destruct (_ =? _).
  - eapply settled_bind; [by apply analyze_wp|]. intros report w2 Hi2 _. by apply settled_ret.
  - assert (Hv : valid_counted (disk w1)).
    { intros row Hrow. destruct (proj2 (proj2 Hing) row Hrow) as (r & path & x & E & _ & _ & _ & _ & Hc). by exists r. }
    eapply settled_bind; [by apply enqueue_missing_wp|]. intros report w2 Hi2 (Hl & Es & Hsup).
    pose proof (ingested_later _ _ _ Hl Es Hing) as Hing2. destruct (_ && _); by apply settled_ret.
Qed.
(** *** The other commands *)

(** A command of [cli.py] that touches the queues or the ledgers of the phase. *)
Inductive command :=
  | Run (m' : CampaignManifest.t) (now : string)
  | Resume
  | Analyze (now : string).
Definition execute (others : environment) (mt : string → time) (hosts : list string) (c : command) : op unit :=
  match c with
  | Run m' now => run_command root elsewhere m' now others mt hosts ≫= λ _, mret tt
  | Resume => resume_command root queue_root elsewhere others mt hosts ≫= λ _, mret tt
  | Analyze now => analyze_failures now ≫= λ _, mret tt
  end.

Lemma settled_initialize {B} m' now (k : json_object → op B) (Ψ : B → t → Prop) w :
  Inv calm (disk w) → (∀ s, wp (k s) w (settled Ψ)) →
  wp (on_store (CampaignStore.initialize m' now) ≫= k) w (settled Ψ).
Proof.
  intros Hi Hk. destruct (initialize_again m bundle m' now (World (store (disk w)) (budget w))) as [Hw Hc]; [apply Hi|].
  apply on_store_reads; [exact Hw|by intros s _|]. intros [e|] E; [exact Hi|by destruct Hc].
Qed.

Lemma execute_wp others mt hosts c w :
  collision_free → fair others → Inv calm (disk w) →
  ((∃ m' now, c = Run m' now) → valid_counted (disk w)) →
  wp (execute others mt hosts c) w (settled (λ _ _, True)).
Proof.
  intros Hcf Hf Hi Hrun. destruct c as [m' now| |now]; cbn [execute].
  - unfold run_command. apply wp_assoc, settled_initialize; [exact Hi|]. intros s.
    eapply settled_bind; [apply enqueue_missing_wp; eauto|]. intros report w1 Hi1 _. by apply settled_ret.
  - unfold resume_command. apply wp_assoc. eapply settled_bind; [by apply ingest_wp|]. intros ingestion w1 Hi1 Hing.
    assert (Hv : valid_counted (disk w1)).
    { intros row Hrow. destruct (proj2 (proj2 Hing) row Hrow) as (r & path & x & E & _ & _ & _ & _ & Hc). by exists r. }
    apply wp_assoc. eapply settled_bind; [by apply enqueue_missing_wp|]. intros report w2 Hi2 _.
    apply wp_mret. by apply settled_ret.
  - eapply settled_bind; [by apply analyze_wp|]. intros report w1 Hi1 _. by apply settled_ret.
Qed.

(** ** Runs *)

(** A campaign before its first rollout. *)
Record fresh (s : CampaignStore.t) : Prop := {
  fr_ok : store_ok m bundle s;
  fr_locks : unlocked s;
  fr_attempts : CampaignStore.records CampaignStore.attempts s = [];
  fr_artifacts i a : slot i a → CampaignStore.files s !! artifact_path m i a = None;
}.

(** The farms that are reached by steps of supervisors and commands, of which a [run] is made
    only where every valid attempt is in the ledger of episodes; where [calm], none of them
    dies. *)
Inductive reachable : t → Prop :=
  | r_start s : fresh s → reachable (Farm s ∅)
  | r_work d qs : reachable d → worker_move (queues d) qs → reachable (set_queues qs d)
  | r_step d others mt hosts now b :
      reachable d → fair others →
      (calm = true → result_of (step root queue_root elsewhere others mt hosts now) (World d b) ≠ Raise Crash) →
      reachable (disk (after (step root queue_root elsewhere others mt hosts now) (World d b)))
  | r_command d others mt hosts c b :
      reachable d → fair others → ((∃ m' now, c = Run m' now) → valid_counted d) →
      (calm = true → result_of (execute others mt hosts c) (World d b) ≠ Raise Crash) →
      reachable (disk (after (execute others mt hosts c) (World d b))).

Lemma fresh_inv c s : fresh s → Inv c (Farm s ∅).
Proof.
  intros [H1 H4 H2 H3]. assert (Hq : ∀ h, queue h (Farm s ∅) = SharedHostQueue.init).
  { intros h. apply queue_absent. cbn. rewrite lookup_empty. by intros []. }
  assert (Hj : ∀ h j, ¬ SharedHostQueue.holds_job (queue h (Farm s ∅)) j).
  { intros h j Hj. apply holds_job_host, elem_of_hosts in Hj as [q Hq']. cbn in Hq'. by rewrite lookup_empty in Hq'. }
  split.
  - intros h. rewrite Hq. apply SharedHostQueue.queue_init_wf.
  - intros h j Hh. by destruct (Hj h j).
  - intros h ok name f x Hf. exfalso. eapply Hj, SharedHostQueue.terminal_holds_job, Hf.
  - exact H1.
  - intros row. cbn [store]. rewrite H2. by intros ?%elem_of_nil.
  - intros i Hi. exists O. split; [lia|]. split; [|lia]. intros a [_ Ha]. split; [|lia].
    unfold known. rewrite elem_of_farm_known. intros (h & j & Hh & _). by destruct (Hj h j).
  - intros _ i a Hs. cbn [store]. rewrite H3 by done. by intros [].
  - by intros _.
Qed.

Lemma farm_inv d : collision_free → reachable d → Inv calm d.
Proof.
  intros Hcf. induction 1 as [s Hs|d qs _ IH Hw|d others mt hosts now b _ IH Hf Hc|d others mt hosts c b _ IH Hf Hv Hc].
  - by apply fresh_inv.
  - by apply worker_move_inv.
  - pose proof (step_wp others mt hosts now (World d b) Hcf Hf IH) as H. unfold wp, settled in H.
    destruct (result_of _ _) as [a|[e|]]; [apply H|exact H|].
    destruct calm; [by destruct Hc|exact H].
  - pose proof (execute_wp others mt hosts c (World d b) Hcf Hf IH Hv) as H. unfold wp, settled in H.
    destruct (result_of _ _) as [a|[e|]]; [apply H|exact H|].
    destruct calm; [by destruct Hc|exact H].
Qed.

Lemma same_attempt_rows c d r r' :
  Inv c d → row_of r ∈ CampaignStore.records CampaignStore.attempts (store d) →
  row_of r' ∈ CampaignStore.records CampaignStore.attempts (store d) →
  attempt_id r = attempt_id r' → row_of r = row_of r'.
Proof.
  intros Hi H H' E. pose proof (so_wf _ _ _ (i_store _ _ Hi) CampaignStore.attempts) as [_ Hnd].
  apply (NoDup_fmap_inj_on (AppendOnlyLedger.identity "attempt_id") _ _ _ Hnd); [done|done|]. by rewrite !row_of_id, E.
Qed.

Lemma row_attempt c d i r :
  Inv c d → row_of r ∈ CampaignStore.records CampaignStore.attempts (store d) → EvolutionModels.logical_id r = rid i →
  slot i (EvolutionModels.attempt_index r) ∧ known i (EvolutionModels.attempt_index r) d.
Proof.
  intros Hi Hin Hlid. assert (Hrow : row_of r ∈ rows_of_rollout i d).
  { apply elem_of_bfilter. split; [|done]. unfold is_of. apply bool_decide_eq_true. by rewrite row_of_logical, Hlid. }
  destruct (elem_of_rollout_rows _ _ _ _ Hi Hrow) as (r' & _ & _ & a & Hs & Hk & E & _ & _ & Ha & _).
  assert (EvolutionModels.attempt_index r = EvolutionModels.attempt_index r') as ->; [|by subst a].
  pose proof (f_equal (obj_get "attempt_index") E) as E1. unfold row_of, obj_get in E1.
  rewrite !sorted_object_lookup in E1 by apply row_of_keys. by injection E1.
Qed.

(** An attempt that is recorded is counted. *)
Lemma recorded_count c d i k :
  Inv c d → in_sequence i k d → (0 < k)%nat → named (attempt_name m i (Z.of_nat k - 1)) (store d) →
  attempts_of (rid i) (store d) = Z.of_nat k.
Proof.
  intros Hi Hseq Hk (row & Hin & Hid). destruct (attempts_counted _ _ _ _ Hi Hseq) as [Hb _].
  unfold attempts_of in *. rewrite <- zlen_bfilter in *. fold (rows_of_rollout i d) in *.
  assert (seq 0 k ⊆+ number_of <$> rows_of_rollout i d) as Hs%submseteq_length.
  2:{ rewrite length_seq, length_fmap in Hs. unfold zlen in *. lia. }
  assert (Hlist : ∀ r, row_of r ∈ CampaignStore.records CampaignStore.attempts (store d) → EvolutionModels.logical_id r = rid i →
    Z.to_nat (EvolutionModels.attempt_index r) ∈ number_of <$> rows_of_rollout i d).
  { intros r Hr Hlid. apply list_elem_of_fmap. exists (row_of r). rewrite row_of_number. split; [done|].
    apply elem_of_bfilter. split; [|done]. unfold is_of. apply bool_decide_eq_true. by rewrite row_of_logical, Hlid. }
  apply NoDup_submseteq; [apply NoDup_seq|]. intros x Hx%elem_of_seq. destruct (decide (x = (k - 1)%nat)) as [->|Hne].
  - destruct (i_rows _ _ Hi row Hin) as (r & path & x & _ & -> & Hx' & Hroot & Hr & _).
    destruct (record_slot _ _ _ _ _ Hi Hx' Hroot Hr) as (i' & a & Hs & _ & _ & Hlid & Hidx & Hname & _).
    rewrite row_of_id, Hname in Hid. assert (attempt_name m i' a = attempt_name m i (Z.of_nat k - 1)) as E by congruence.
    apply attempt_name_inj in E as [-> ->]; [|apply Hs|lia].
    specialize (Hlist r Hin Hlid). rewrite Hidx in Hlist. by replace (Z.to_nat (Z.of_nat k - 1)) with (k - 1)%nat in Hlist by lia.
  - destruct (proj2 (proj2 Hseq) (Z.of_nat x)) as (r & Hr & Hlid & Hidx & _); [lia|].
    specialize (Hlist r Hr Hlid). by rewrite Hidx, Nat2Z.id in Hlist.
Qed.

(** C2: The attempts of a rollout are made one after the other, when the job digests of its
    attempts do not collide: in every run of supervisor steps and of [run], [resume] and
    [analyze] commands, made one at a time, that may die anywhere, with workers (that
    report on the attempt they were given) and other campaigns at the queues at any time, in which a [run] is issued only where every recorded valid attempt is in
    the ledger of episodes, the attempts that were ever enqueued are the first [k], within
    the budget of the manifest; all but the last are recorded as infrastructure failures; the
    count the next step plans with is [k] or, while the last attempt is under way, one less;
    and a valid result belongs to the last attempt, so no attempt is started after it.  A
    [run] after a crash between the two ledgers starts one
    ([enqueue_after_crash_breaks_ingestion] in [RolloutCases.v]). *)
Theorem attempts_are_sequential d i :
  collision_free → reachable d → (i < length (CampaignManifest.rollout_seeds m))%nat →
  ∃ k : nat, Z.of_nat k ≤ Z.max 0 (CampaignManifest.max_infrastructure_attempts m) ∧
    (∀ a, slot i a → known i a d ↔ a < Z.of_nat k) ∧
    (∀ a, 0 ≤ a < Z.of_nat k - 1 → infra_recorded i a d) ∧
    Z.of_nat k - 1 ≤ attempts_of (rid i) (store d) ≤ Z.of_nat k ∧
    ∀ r, row_of r ∈ CampaignStore.records CampaignStore.attempts (store d) → EvolutionModels.logical_id r = rid i →
      0 ≤ EvolutionModels.attempt_index r < Z.of_nat k ∧
      (status r = valid → EvolutionModels.attempt_index r = Z.of_nat k - 1).
Proof.
  intros Hcf Hr Hlt. pose proof (farm_inv d Hcf Hr) as Hi. destruct (i_seq _ _ Hi i Hlt) as [k Hk].
  pose proof Hk as (K1 & K2 & K3). exists k. split; [done|]. split; [done|]. split; [done|].
  split; [by apply (attempts_counted _ _ _ _ Hi Hk)|]. intros r Hin Hlid.
  destruct (row_attempt _ _ _ _ Hi Hin Hlid) as [Hs Hka]. apply K2 in Hka; [|done]. destruct Hs as [_ Hs].
  split; [lia|]. intros Hv. destruct (decide (EvolutionModels.attempt_index r = Z.of_nat k - 1)) as [|Hne]; [done|exfalso].
  destruct (K3 (EvolutionModels.attempt_index r)) as (r' & Hin' & Hlid' & Hidx' & Hst); [lia|].
  assert (row_of r = row_of r') as E.
  { eapply same_attempt_rows; [exact Hi|done|done|]. unfold attempt_id. by rewrite Hlid, Hlid', Hidx'. }
  apply (f_equal (obj_get "status")) in E. rewrite !row_of_status, Hv, Hst in E. done.
Qed.

(** C3: No rollout is stranded, provided no supervisor or command dies and every result names
    the seed, policy RNG and bundle of the manifest: when a step answers that it waits or that
    it is blocked, every rollout is completed, or reported as blocked with its budget of
    attempts spent, or its next attempt is in a queue and had no result when the step began. *)
Theorem no_rollout_is_stranded d others mt hosts now b w' ingestion report i :
  collision_free → calm = true → reachable d → fair others →
  (∀ path x, terminal_at path d = Some x → campaign_root (term_job x) = root →
     ∃ r, record_of path x = Ok r ∧ admissible m bundle r) →
  step root queue_root elsewhere others mt hosts now (World d b) = (w', Ok (WaitingForRollouts ingestion report)) ∨
  step root queue_root elsewhere others mt hosts now (World d b) = (w', Ok (BlockedOnInfrastructure ingestion report)) →
  (i < length (CampaignManifest.rollout_seeds m))%nat →
  let n := attempts_of (rid i) (store (disk w')) in
  completed (rid i) (store (disk w')) = true ∨
  (rid i ∈ blocked report ∧ CampaignManifest.max_infrastructure_attempts m ≤ n) ∨
  (slot i n ∧ known i n (disk w') ∧ ∀ path x, terminal_at path d = Some x → job_id (term_job x) ≠ slot_job i n).
Proof.
  intros Hcf Hcalm Hr Hf Hgood Hstep Hlt n. pose proof (farm_inv d Hcf Hr) as Hi.
  pose proof (step_wp others mt hosts now (World d b) Hcf Hf Hi) as H. unfold wp, settled, after, result_of in H.
  assert (Inv calm (disk w') ∧ ingested d (disk w') ∧ supplied (disk w') report) as (Hi' & Hing & Hsup).
  { destruct Hstep as [E|E]; rewrite E in H; cbn in H; destruct H as [? [? ?]]; done. }
  clear H Hstep. destruct (Hsup i Hlt) as [H|[H|[Hs Hk]]]; [by left|by right; left|right; right].
  split; [exact Hs|]. split; [exact Hk|]. intros path x Hx Hid.
  destruct (i_jobs _ _ Hi _ _ (farm_terminal_job _ _ _ Hx)) as [(i' & a & Hown)|[_ Hno]]; [|by destruct (Hno i n Hs)].
  pose proof Hown as (Hs' & Hid' & _ & _ & Hroot). rewrite Hid' in Hid. destruct (Hcf _ _ _ _ Hs' Hs Hid) as [-> ->].
  destruct (Hgood path x Hx Hroot) as (r & Hrec & Hadm). destruct Hing as (Hl & Hh & _).
  pose proof (lt_terminal _ _ Hl _ _ Hx) as Hx'.
  destruct (Hh path (ex_intro _ x Hx) x r Hx' Hroot Hrec Hadm) as [_ Hn]. specialize (Hn Hcalm).
  destruct (record_slot _ _ _ _ _ Hi' Hx' Hroot Hrec) as (i2 & a2 & _ & _ & Hown2 & _ & _ & Hname & _).
  assert (i2 = i ∧ a2 = n) as [-> ->].
  { destruct Hown as (_ & E1 & E2 & E3 & _), Hown2 as (_ & _ & E2' & E3' & _). rewrite E2 in E2'. apply rollout_id_inj in E2'.
    split; [by symmetry|by rewrite <- E3', E3]. }
  destruct (i_seq _ _ Hi' i Hlt) as [k Hseq]. pose proof Hseq as (_ & K2 & _). apply K2 in Hk; [|done].
  destruct (attempts_counted _ _ _ _ Hi' Hseq) as [Hb _]. fold n in Hb. assert (n = Z.of_nat k - 1) as En by lia.
  destruct Hs as [_ Hs]. assert (attempts_of (rid i) (store (disk w')) = Z.of_nat k) as E.
  { eapply recorded_count; [exact Hi'|exact Hseq|lia|]. by rewrite <- En, <- Hname. }
  fold n in E. lia.
Qed.
End runs.
