(* ===== verification/RolloutCases.v ===== *)
(** * Concrete rollouts: witnesses and counterexamples

    One campaign of one rollout with two attempts, its supervisor and one worker host,
    evaluated: runs at which the theorems of [RolloutRuns.v] apply, and runs in which
    the rollout phase does not do what it means to. *)

From Stdlib Require Import QArith Ascii.
From stdpp Require Import pretty.
From S2P Require Import Prelude Durable PyDict Sorting Sha256 Codec CanonicalJson JsonIO PyFloat HostQueue EvolutionModels CampaignModels Clustering CampaignStore EpisodeJson Rollouts RolloutRuns.

Open Scope string_scope.
Open Scope list_scope.
Open Scope Z_scope.
Import Campaign.

(** ** The campaign *)

(** The sample campaign with one rollout, two attempts for it and a command to run. *)
Definition m0 : CampaignManifest.t := {|
  CampaignManifest.campaign_id := CampaignManifest.campaign_id sample_manifest;
  CampaignManifest.environment := CampaignManifest.environment sample_manifest;
  CampaignManifest.task := CampaignManifest.task sample_manifest;
  CampaignManifest.generation := CampaignManifest.generation sample_manifest;
  CampaignManifest.code_commit := CampaignManifest.code_commit sample_manifest;
  CampaignManifest.prompt_sha256 := CampaignManifest.prompt_sha256 sample_manifest;
  CampaignManifest.model := CampaignManifest.model sample_manifest;
  CampaignManifest.tool_catalog_sha256 := CampaignManifest.tool_catalog_sha256 sample_manifest;
  CampaignManifest.rollout_seeds := [5];
  CampaignManifest.heldout_seeds := [];
  CampaignManifest.policy_rng_by_seed := [("5", 2)];
  CampaignManifest.parent_bundle_sha256 := CampaignManifest.parent_bundle_sha256 sample_manifest;
  CampaignManifest.baseline_mode := CampaignManifest.baseline_mode sample_manifest;
  CampaignManifest.active_bundle_sha256 := CampaignManifest.active_bundle_sha256 sample_manifest;
  CampaignManifest.safety_layer := CampaignManifest.safety_layer sample_manifest;
  CampaignManifest.expected_rollouts := 1;
  CampaignManifest.expected_heldout := 0;
  CampaignManifest.initial_logical_slots := 8; CampaignManifest.maximum_logical_slots := 12;
  CampaignManifest.continuous_logical_slots := 8; CampaignManifest.maximum_api_concurrency := 8;
  CampaignManifest.episode_timeout_s := 900; CampaignManifest.no_progress_timeout_s := 240;
  CampaignManifest.target_valid_episodes_per_hour := NFloat "25.0";
  CampaignManifest.max_infrastructure_attempts := 2; CampaignManifest.reasoning_effort := None;
  CampaignManifest.runtime := [("rollout_command", NList [NStr "run"; NStr "--seed={seed}"])];
  CampaignManifest.schema_version := 1; CampaignManifest.protocol_explicit := true |}.

Definition idle : environment := λ _ qs, qs.
Definition run_step (d : t) (b : nat) : world t * outcome (stop error) action :=
  step "/c" "/q" (λ _, None) idle (λ _, 5) ["h1"] "now" (World d b).
Definition on_host (d : t) (c : SharedHostQueue.call) : t :=
  set_queues (<["h1" := SharedHostQueue.exec (queue "h1" d) 9 c]> (queues d)) d.
Definition name0 : string := SharedHostQueue.claim_name "t1".
Definition claimed (d : t) : option RolloutJob :=
  SharedHostQueue.job_of <$> SharedHostQueue.running (queue "h1" d) !! name0.

(** A worker claims a job and ends it with a result. *)
Definition work_on (d : t) (r : option json_object) : t :=
  let d1 := on_host d (SharedHostQueue.ClaimNext "w" (seconds 60) "t1" 6 6) in
  match claimed d1 with
  | Some j => on_host d1 (SharedHostQueue.Finish 7 7 7 name0 (bool_decide (is_Some r))
      (("job_id", NStr (job_id j)) :: match r with
                                      | Some p => [("result", NDict p)]
                                      | None => [("return_code", NInt 3)] end) (Some "t1"))
  | None => d1
  end.

(** The result a worker reports. *)
Definition reported (name : string) (attempt rng : Z) : json_object := episode_dict {|
  episode_id := name; EvolutionModels.logical_id := "g0000-rollout-000"; generation := 0; EvolutionModels.seed := 5;
  EvolutionModels.policy_rng := rng; EvolutionModels.bundle_sha256 := None; status := valid;
  EvolutionModels.success := Some true; started_at := "a"; EvolutionModels.finished_at := "b"; elapsed_s := 1;
  artifact_index := []; safety_events := []; failure_segment := None; failure_segments := [];
  invalid_reason := None; EvolutionModels.attempt_index := attempt; schema_version := 1 |}.

(** The campaign starts; the first step enqueues the rollout.  It ends without a result; it
    ends with one of another policy RNG; it ends with a valid one.  Each state is kept
    evaluated. *)
Definition s0 : CampaignStore.t := Eval vm_compute in
  disk (after (CampaignStore.initialize m0 "t0") (World CampaignStore.init 9)).
Definition start : t := Farm s0 ∅.
Definition first_run : world t * outcome (stop error) action := Eval vm_compute in run_step start 20.
Definition first_step : t := Eval vm_compute in disk first_run.1.
Definition failed_once : t := Eval vm_compute in work_on first_step None.
Definition wrong_result : t := Eval vm_compute in work_on first_step (Some (reported "ep0" 0 9)).
Definition valid_result : t := Eval vm_compute in work_on first_step (Some (reported "ep1" 0 2)).
Definition retry_run : world t * outcome (stop error) action := Eval vm_compute in run_step failed_once 20.

(** A supervisor dies while it records the failure; one dies while it records the valid
    result, and another one enqueues without ingesting. *)
Definition crashed : t := Eval vm_compute in disk (run_step failed_once 1).1.
Definition half_recorded : t := Eval vm_compute in disk (run_step valid_result 4).1.
Definition enqueued_again : t := Eval vm_compute in
  disk (enqueue_missing_rollouts "/c" (λ _, None) idle (λ _, 5) ["h1"] (World half_recorded 20)).1.
Definition second_attempt : t := Eval vm_compute in
  work_on enqueued_again (Some (reported "ep2" 1 2)).
Definition broken : t := Eval vm_compute in disk (run_step second_attempt 20).1.

(** One evaluation for each of them. *)
Lemma s0_eq : disk (after (CampaignStore.initialize m0 "t0") (World CampaignStore.init 9)) = s0.
Proof. vm_compute. reflexivity. Qed.
Lemma first_run_eq : run_step start 20 = first_run.
Proof. vm_compute. reflexivity. Qed.
Lemma failed_once_eq : work_on first_step None = failed_once.
Proof. vm_compute. reflexivity. Qed.
Lemma wrong_result_eq : work_on first_step (Some (reported "ep0" 0 9)) = wrong_result.
Proof. vm_compute. reflexivity. Qed.
Lemma valid_result_eq : work_on first_step (Some (reported "ep1" 0 2)) = valid_result.
Proof. vm_compute. reflexivity. Qed.
Lemma retry_run_eq : run_step failed_once 20 = retry_run.
Proof. vm_compute. reflexivity. Qed.
Lemma crashed_eq : disk (run_step failed_once 1).1 = crashed.
Proof. vm_compute. reflexivity. Qed.
Lemma half_recorded_eq : disk (run_step valid_result 4).1 = half_recorded.
Proof. vm_compute. reflexivity. Qed.

Lemma enqueued_again_eq :
  disk (enqueue_missing_rollouts "/c" (λ _, None) idle (λ _, 5) ["h1"] (World half_recorded 20)).1 = enqueued_again.
Proof. vm_compute. reflexivity. Qed.
Lemma second_attempt_eq :
  work_on enqueued_again (Some (reported "ep2" 1 2)) = second_attempt.
Proof. vm_compute. reflexivity. Qed.
Lemma broken_eq : disk (run_step second_attempt 20).1 = broken.
Proof. vm_compute. reflexivity. Qed.

(** ** The hypotheses at this campaign *)

Lemma slot_cases i a : slot m0 i a → i = 0%nat ∧ (a = 0 ∨ a = 1).
Proof. intros [Hi Ha]. change (i < 1)%nat in Hi. change (0 ≤ a < 2) in Ha. lia. Qed.

Lemma demo_job_ids : slot_job m0 0 0 = "job-c1a3696b070580c8d03237f0" ∧ slot_job m0 0 1 = "job-78f7f9e9188a34c885c635b5".
Proof. vm_compute. repeat split. Qed.

Lemma demo_collision_free : collision_free m0.
Proof.
  intros i a i' a' Hs Hs' E. destruct demo_job_ids as (E1 & E2).
  apply slot_cases in Hs as [-> [-> | ->]], Hs' as [-> [-> | ->]]; solve [split; reflexivity|congruence].
Qed.

Lemma demo_fresh : fresh m0 NNone s0.
Proof.
  split.
  - split.
    + eexists. split; [vm_compute; reflexivity|]. vm_compute. reflexivity.
    + eexists. split; [vm_compute; reflexivity|]. split; [vm_compute; reflexivity|]. split; [vm_compute; reflexivity|].
      apply (bool_decide_unpack _). vm_compute. exact I.
    + rewrite <- s0_eq. exact (CampaignStore.run_ledgers_wf [(CampaignStore.Initialize m0 "t0", 9%nat)]).
    + reflexivity.
  - reflexivity.
  - vm_compute. reflexivity.
  - intros i a [-> [-> | ->]]%slot_cases; vm_compute; reflexivity.
Qed.

Lemma idle_fair m : fair "/c" m idle.
Proof. intros p qs. apply rtc_refl. Qed.

(** [labelled_queue], decided. *)
Definition labelled_file (f : HostQueue.file) : bool :=
  match contents f with
  | Terminated x =>
      match obj_get "result" (result x) with
      | NDict p => match episode_of_dict p with
                   | Ok r => String.eqb (EvolutionModels.logical_id r) (HostQueue.logical_id (term_job x)) &&
                             (EvolutionModels.attempt_index r =? HostQueue.attempt_index (term_job x))
                   | Raise _ => true
                   end
      | _ => true
      end
  | _ => true
  end.
Definition labelled_files (q : SharedHostQueue.t) : bool :=
  forallb (λ ok, forallb (λ kv, labelled_file kv.2) (map_to_list (SharedHostQueue.bucket ok q))) [true; false].

Lemma labelled_check root q : labelled_files q = true → labelled_queue root q.
Proof.
  intros H ok name f x Hf Hc _ p r Hp Hr. unfold labelled_files in H. rewrite forallb_forall in H.
  specialize (H ok ltac:(destruct ok; simpl; auto)). rewrite forallb_forall in H.
  specialize (H (name, f)). unfold labelled_file in H. cbn [snd] in H. rewrite Hc, Hp, Hr in H.
  rewrite andb_true_iff, String.eqb_eq, Z.eqb_eq in H. apply H, list_elem_of_In, elem_of_map_to_list, Hf.
Qed.

Notation reached c := (reachable "/c" "/q" (λ _, None) m0 NNone c).

Lemma queue_on_host d c : queue "h1" (on_host d c) = SharedHostQueue.exec (queue "h1" d) 9 c.
Proof. unfold on_host, set_queues. rewrite queue_insert. by rewrite decide_True. Qed.

Lemma reach_host b d c :
  reached b d → SharedHostQueue.legal (λ j _, foreign "/c" m0 j) (queue "h1" d) c →
  labelled_files (queue "h1" (on_host d c)) = true → reached b (on_host d c).
Proof.
  intros Hr Hl Hc. rewrite queue_on_host in Hc. apply r_work; [exact Hr|].
  apply (work "/c" m0 (queues d) "h1" c 9 Hl). by apply labelled_check.
Qed.

Lemma reach_work b d r :
  reached b d → SharedHostQueue.running (queue "h1" d) !! name0 = None →
  labelled_files (queue "h1" (on_host d (SharedHostQueue.ClaimNext "w" (seconds 60) "t1" 6 6))) = true →
  labelled_files (queue "h1" (work_on d r)) = true → reached b (work_on d r).
Proof.
  intros Hr Hn H1. pose proof (reach_host b d (SharedHostQueue.ClaimNext "w" (seconds 60) "t1" 6 6) Hr Hn H1) as Hr1.
  unfold work_on. cbv zeta. destruct (claimed _); [|by intros _]. by apply reach_host.
Qed.

Lemma reach_step c d b :
  reached c d → (c = true → (run_step d b).2 ≠ Raise Crash) → reached c (disk (run_step d b).1).
Proof. intros Hr Hc. apply r_step; [exact Hr|apply idle_fair|exact Hc]. Qed.

Lemma demo_first c : reached c first_step.
Proof.
  change first_step with (disk first_run.1). rewrite <- first_run_eq.
  apply reach_step; [apply r_start, demo_fresh|intros _]. rewrite first_run_eq. discriminate.
Qed.
Lemma demo_failed c : reached c failed_once.
Proof. rewrite <- failed_once_eq. apply reach_work; [apply demo_first|vm_compute; reflexivity..]. Qed.
Lemma demo_wrong c : reached c wrong_result.
Proof. rewrite <- wrong_result_eq. apply reach_work; [apply demo_first|vm_compute; reflexivity..]. Qed.
Lemma demo_valid c : reached c valid_result.
Proof. rewrite <- valid_result_eq. apply reach_work; [apply demo_first|vm_compute; reflexivity..]. Qed.
Lemma demo_crashed : reached false crashed.
Proof. rewrite <- crashed_eq. apply reach_step; [apply demo_failed|intros E; discriminate E]. Qed.
Lemma demo_half_recorded : reached false half_recorded.
Proof. rewrite <- half_recorded_eq. apply reach_step; [apply demo_valid|intros E; discriminate E]. Qed.

(** The results of a farm are admissible, decided. *)
Definition admissible_at (m : CampaignManifest.t) (d : t) (path : bool * (string * string)) : bool :=
  match terminal_at path d with
  | Some x => match record_of "/q" m path x with
              | Ok r => match CampaignStore.preregistered m r with Ok _ => true | Raise _ => false end &&
                        bool_decide (EvolutionModels.bundle_sha256 r = None)
              | Raise _ => false
              end
  | None => true
  end.

Lemma admissible_check m d : forallb (admissible_at m d) (terminal_envelope_paths d) = true →
  ∀ path x, terminal_at path d = Some x → campaign_root (term_job x) = "/c" →
  ∃ r, record_of "/q" m path x = Ok r ∧ admissible m NNone r.
Proof.
  intros H path x Hx _. rewrite forallb_forall in H.
  specialize (H path). unfold admissible_at in H. rewrite Hx in H.
  assert (In path (terminal_envelope_paths d)) as Hin.
  { apply list_elem_of_In, elem_of_terminal_paths. by exists x. }
  specialize (H Hin). destruct (record_of _ _ _ _) as [r|e]; [|discriminate H].
  exists r. split; [done|]. apply andb_prop in H as [Hp Hb]. apply bool_decide_eq_true in Hb.
  split; [|by rewrite Hb]. by destruct (CampaignStore.preregistered m r) as [[]|].
Qed.

(** ** The theorems at this campaign *)

(** In the farm whose supervisor died, the attempts of the rollout are in sequence. *)
Lemma attempts_are_sequential_witness : ∃ k : nat, Z.of_nat k ≤ 2 ∧
  (∀ a, slot m0 0 a → known m0 0 a crashed ↔ a < Z.of_nat k) ∧
  Z.of_nat k - 1 ≤ attempts_of (rollout_id m0 0) (store crashed).
Proof.
  destruct (attempts_are_sequential "/c" "/q" (λ _, None) m0 NNone false crashed 0 demo_collision_free demo_crashed)
    as (k & Hk & Hknown & _ & Hn & _); [apply le_n|].
  exists k. split; [exact Hk|]. split; [exact Hknown|exact (proj1 Hn)].
Defined.

(** After the step that ingests the failure, the second attempt of the rollout is waiting. *)
Lemma demo_admissible : forallb (admissible_at m0 failed_once) (terminal_envelope_paths failed_once) = true.
Proof. vm_compute. reflexivity. Qed.
Lemma demo_retry : ∃ w', run_step failed_once 20 = (w', Ok (WaitingForRollouts (0, 1)
  {| enqueued := 1; blocked := []; by_host := [("h1", 1)]; queue_counts := (1, 0, 0, 1) |})).
Proof. exists retry_run.1. exact retry_run_eq. Qed.

Lemma no_rollout_is_stranded_witness : ∃ w', run_step failed_once 20 = (w', Ok (WaitingForRollouts (0, 1)
    {| enqueued := 1; blocked := []; by_host := [("h1", 1)]; queue_counts := (1, 0, 0, 1) |})) ∧
  let n := attempts_of (rollout_id m0 0) (store (disk w')) in
  completed (rollout_id m0 0) (store (disk w')) = true ∨
  CampaignManifest.max_infrastructure_attempts m0 ≤ n ∨ (slot m0 0 n ∧ known m0 0 n (disk w')).
Proof.
  destruct demo_retry as [w' E]. exists w'. split; [exact E|].
  destruct (no_rollout_is_stranded "/c" "/q" (λ _, None) m0 NNone true failed_once idle (λ _, 5) ["h1"] "now" 20 w' (0, 1)
    _ 0 demo_collision_free eq_refl (demo_failed true) (idle_fair m0) (admissible_check m0 failed_once demo_admissible)
    (or_introl E)) as [H|[[_ H]|(H1 & H2 & _)]].
  - apply le_n.
  - left. exact H.
  - right; left. exact H.
  - right; right. split; [exact H1|exact H2].
Defined.

(** ** Runs that do not do what they mean to *)

(** A supervisor dies after it wrote the record of an invalid attempt and before it counted
    the attempt.  Every later step takes the record for a replay and skips it: it writes
    nothing and answers that it waits, with no job pending or running and nothing blocked. *)
Theorem crash_strands_rollout b :
  reached false crashed ∧
  run_step crashed b = (World crashed b, Ok (WaitingForRollouts (0, 0)
    {| enqueued := 0; blocked := []; by_host := [("h1", 0)]; queue_counts := (0, 0, 0, 1) |})).
Proof. split; [exact demo_crashed|]. vm_compute. reflexivity. Qed.

(** A result the store refuses (here for its policy RNG) is dropped: the attempt is never
    counted, retried or reported. *)
Theorem refused_result_strands_rollout b :
  reached true wrong_result ∧
  run_step wrong_result b = (World wrong_result b, Ok (WaitingForRollouts (0, 0)
    {| enqueued := 0; blocked := []; by_host := [("h1", 0)]; queue_counts := (0, 0, 1, 0) |})).
Proof. split; [exact (demo_wrong true)|]. vm_compute. reflexivity. Qed.

(** When a supervisor died between the two ledgers, enqueueing without ingesting first starts
    a second attempt of an episode that is valid; its result stops every later step (that
    lives to take and give back the locks of the three rows it finds). *)
Theorem enqueue_after_crash_breaks_ingestion b :
  reached false half_recorded ∧
  disk (enqueue_missing_rollouts "/c" (λ _, None) idle (λ _, 5) ["h1"] (World half_recorded 20)).1 = enqueued_again ∧
  work_on enqueued_again (Some (reported "ep2" 1 2)) = second_attempt ∧
  disk (run_step second_attempt 20).1 = broken ∧
  run_step broken (6 + b) = (World broken b, Raise (Exn (StoreError (FileExistsError
    "immutable artifact already differs: episodes/g0000-rollout-000/record.json")))).
Proof.
  split; [exact demo_half_recorded|]. split; [exact enqueued_again_eq|]. split; [exact second_attempt_eq|].
  split; [exact broken_eq|]. vm_compute. reflexivity.
Qed.
